(* ===== verification/_CoqProject ===== *)
-Q . S2P
Prelude.v
DescriptorCodec.v
DescriptorRing.v
RegionLayout.v
SlabArena.v
CallTable.v
CreditFlow.v
LeaseTable.v
TransportFrame.v
UdsTransport.v
StreamCore.v
StreamChunks.v
StreamLifecycle.v
StreamInbound.v
StreamToken.v
ShmFrame.v
ShmWake.v
ShmRecovery.v
ShmReceive.v
ShmAdmission.v
ShmWriter.v
ShmWriterInv.v
ShmDelivery.v
Interleave.v
BurstTransport.v
BurstSafety.v
Handshake.v
ControlConn.v
AttachRegion.v
ServeLoop.v
ServeSafety.v
Health.v
Reload.v
ReloadProtocol.v
ReloadInstance.v
ReloadHost.v
ReloadSafety.v
Supervisor.v
SupervisorSafety.v
