(* ===== verification/Prelude.v ===== *)
(** * Styx: a verification of the data plane, the runtime and the control plane

    Styx (src/) is a Go RPC framework between a host and its plugin processes.
    A connection carries frames over a transport, either a Unix socket or a
    shared-memory region with one descriptor ring and one payload arena per
    direction; above it the RPC runtime keeps the table of outstanding unary
    calls, the table of open streams with their credit, sequence and lifecycle
    protocols, and the leases of running handlers.  A plugin serves its requests
    in a session that can drain and that fences off panicking handlers.  Beside
    the data plane a control connection carries the handshake, the region's
    descriptors, heartbeats, and the messages of a hot reload, by which the host
    replaces a running plugin without losing a call.  This library models those
    parts, translated from the source, and proves what each promises the others.

    ** Files

    - [Prelude]: machine words, Go slices as lists with their bounds checks, the
      outcome and program monads, the shared tactics and hint database.
    - [DescriptorCodec] (internal/ring/descriptor.go): the 64-byte descriptor as
      bytes, each accessor at its offset and width.
    - [DescriptorRing] (internal/ring/ring.go): the single-producer
      single-consumer ring, as functions and as an interleaving of shared
      accesses with torn slot writes.
    - [RegionLayout] (internal/shm/layout.go, region.go, generation.go): the
      layout page, its writer and its two-phase parser, region creation and
      attachment with the process-wide counts.
    - [SlabArena] (internal/arena): the size-class allocator; the class
      [SlabAllocator] is what it promises its user, and the arena is an instance.
    - [CallTable] (internal/rpcruntime/table.go): the unary call table, as
      functions and as goroutines that interleave at each atomic access.
    - [CreditFlow] (internal/rpcruntime/credit.go and the acknowledgement rule of
      stream.go): both ends of a stream's credit window with a channel between.
    - [LeaseTable] (internal/rpcruntime/lease.go): handler leases and response
      obligations; the class [ObligationSink] is what the stream table asks of it.
    - [TransportFrame] (internal/transport/transport.go and the codecs of uds.go):
      frames, error sentinels, the never-published rule, the header and status
      codecs.
    - [UdsTransport] (internal/transport/uds.go): sending and receiving over a
      stream socket whose system calls, clock and concurrent closes are scripts.
    - [StreamCore] (internal/rpcruntime/stream.go, stream_table.go,
      stream_teardown.go, chunk_send.go, chunk_recv.go, chunk_policy.go): every
      method of a stream and of the stream table, as programs over a shared table
      and a heap of stream objects.  The table is parameterised by an
      [ObligationSink].
    - [StreamChunks], [StreamInbound], [StreamLifecycle], [StreamToken]: the
      theorems on [StreamCore]; the last also has the lifecycle token one atomic
      access at a time.
    - [ShmFrame] (internal/transport/shm: the frame format of writer.go,
      intent.go, transport.go): kinds, stamping, checks and decoding of one
      descriptor and its slab.
    - [ShmWake] (shm/poison.go, the producer signal of shm/transport.go,
      internal/event): teardown words, park word, eventfds and the consumer's
      wait loop, one shared access at a time.
    - [ShmRecovery] (shm/recovery.go): generation arithmetic and the escalation
      policy.
    - [ShmReceive] (shm/transport.go, internal/transport/consume.go): the receive
      path from the wait's answer to the delivered frame, with the peer's writes
      before every access.
    - [ShmAdmission] (shm/admission.go): startup capacity validation.
    - [ShmWriter] (shm/writer.go, shm/intent.go): the producer goroutine, its
      queues, callers and fill handshake, with what the peer and the callers do
      before every access.
    - [ShmWriterInv], [ShmDelivery]: the invariant of [ShmWriter] and the
      theorems drawn from it, the composition with [ShmReceive] among them.
    - [Interleave]: programs of atomic actions, their interleaving, and
      rely-guarantee reasoning about all schedules; the next models use it.
    - [BurstTransport] (internal/rpcruntime/burst.go, burst_receive.go),
      [BurstSafety]: the unary burst engine, its pump, receiver and senders, and
      its theorems.
    - [Handshake] (internal/control/handshake.go and the handshake steps of the
      host and the plugin): negotiation, its messages and both ends.
    - [ControlConn] (internal/control/conn.go, fds.go, legal.go): the control connection
      over a kernel script, with deadlines and received descriptors.
    - [AttachRegion] (the attach exchange of the supervisor and of
      pluginserver.go): who owns which descriptor after every branch.
    - [ServeLoop] (serveLoop and its helpers of pluginserver.go, the dispatcher,
      panic_policy.go, drain_quiescence.go), [ServeSafety]: a serving session's
      reader, stream engine, drain and handlers, and its theorems.
    - [Health] (internal/supervisor/health.go, the heartbeat sender of
      pluginserver.go, supervisor/policy.go): wedge detection and backoff.
    - [Reload] (internal/lifecycle/reload.go, rollback.go, restore.go,
      plugin_reload.go, teardown.go; internal/shm/snapshot.go; serviceReload and
      runReload of internal/supervisor/reload.go; handleReload and
      dispatchControl of pluginserver.go; the admission span of clientconn.go):
      hot reload, host, instances and callers.
    - [ReloadProtocol], [ReloadInstance], [ReloadHost], [ReloadSafety]: the
      invariant of [Reload] and the guarantees of its roles, the two sides of
      the transaction against them, and the theorems on every schedule.
    - [Supervisor] (internal/supervisor/supervisor.go: Run, runOneInstance,
      heartbeatLoop, Stop; internal/supervisor/events.go), [SupervisorSafety]:
      the restart loop and the event bus, and their theorems.

    ** How the code is modelled

    A w-bit integer is a [Z] kept in range by writing out the wrap after each
    operation that can leave it.  A slice is a list; an access out of range is
    the outcome [Panic] ([Panics] in the program monad), never a default value.
    An [error] value is the list of the sentinels [errors.Is] finds in it.  A
    pointer to a shared object is an index into an explicit heap, so aliasing is
    kept.  A blocking operation either completes, or [Parks], or takes as an
    argument the state it resumes in; the transport's answers to [Send] are a
    script the state carries, so every theorem quantifies over them.  Map
    iteration takes the order as an argument, any permutation of the keys.

    Where goroutines race, the model is a step relation whose steps are single
    shared accesses: the ring's head and tail words and slot bytes, the call
    table's state words and result channels, the lifecycle token, the park and
    teardown words.  The shared-memory writer and receiver are sequential
    programs whose state carries a script of the writes others make before each
    of its accesses to shared memory; theorems quantify over every script of an
    arbitrary peer or of an honest one.  The burst engine, a serving session, a
    hot reload and a supervisor with its event bus are pools of goroutines, each
    a program whose actions read and write the shared state in one step (a
    critical section, an atomic access, a system call) under a query that names
    it; a schedule picks the goroutine and the answer of its query, so time-outs,
    system-call results, deaths of processes and what hooks do are all the
    schedule's choice.  The proofs give
    each role a guarantee on its steps and derive every role's assertions from
    the guarantees of the others.  The handshake and the control connection run
    against a script of the kernel's answers, a message call of the latter ending
    by its socket timeout or, without one, perhaps never; they track which process
    owns which descriptor.  The handshake's messages cross as values: their
    encoding and size limit are [ControlConn]'s.  The stream
    engine's operations are otherwise whole methods in any order; a method that
    blocks may resume in a different state, but two methods do not interleave
    inside their non-blocking parts.  The code serialises the inbound handlers
    and every terminal transition by the stream's state lock; the word that is
    contended outside it is the lifecycle token.

    Fuel bounds a loop only where the loop's length is not structural, and the
    bound is proved to be enough: the mint loop runs at most twice, a chunk train
    has at most as many fragments as bytes, a fragment is retried at most once
    per scripted answer, reclaim walks from its cursor to the head, and the
    writer's final drain runs once per queued intent.  The writer's loop is
    bounded by a number of turns; the theorems hold for every number, and once
    it is stopped a bound on the turns is proved.  A retry loop of the control
    connection takes fuel, and a nanosecond of the deadline left is proved to be
    enough for one turn.

    ** What is proved

    - Ring: every interleaving of producer and consumer refines a bounded FIFO
      queue, without races on slots, across the 2^64 wrap; hostile words are
      reported as corruption and never read a slot.
    - Region: what creation writes is what attachment parses; the parser accepts
      only geometries whose spans are disjoint and inside the region, and never
      panics on any bytes; every path balances the region counts.
    - Arena: every branch of allocation and release, the invariant, exact
      occupancy; the slices handed out are in bounds and disjoint, and handles
      returned are refused.
    - Calls: exactly one result per call in every interleaving; a deadline waiter
      never hangs; teardown settles and classifies every call.
    - Credit: the window is never exceeded and never deadlocks, whatever the
      channel delays.
    - Leases: the table is the abstract history of what was opened and closed.
    - Frames: the status codec is exact on all inputs.
    - Socket transport: frames cross in order, unchanged and once each however
      reads and writes are cut; a torn frame is always the last and closes the
      transport; each error tells what happened to the bytes; a receive budget
      bounds a receive.
    - Streams: a message crosses the chunk split intact for one unit of credit;
      the receive path is an abstract reassembler against any peer; no operation
      of the engine panics, the table holds exactly the live streams within its
      cap, and an outcome is recorded once and kept; teardown settles every
      stream with the outcome its phase calls for; a failed send either never
      happened or ends the stream; the lifecycle token admits one lifecycle frame
      at a time and sends exactly the cancel a termination owes.
    - Shared memory: a frame crosses the descriptor and slab format unchanged,
      and no descriptor bytes can make the receiver panic or read outside one
      slab; no wakeup is lost and the first poison cause wins in every
      interleaving; the escalation policy is its documented rules on the whole
      history; the receive path keeps the consume protocol against any peer and
      delivers in order from an honest one; strict admission excludes exhaustion;
      the writer is safe against any peer, with an honest one the receiver gets
      exactly what was sent and no slab leaks, and once stopped it returns with
      every submission answered, whatever else its select takes first.
    - Burst engine: one outcome settles a burst, destructive reads are exclusive,
      readiness is never lost.
    - Handshake: both ends agree on the tuple negotiation defines, which is
      exactly the best common offer; a forged acknowledgement is refused.
    - Control connection: a call under a deadline sets its timeout within what is
      left before every attempt, and waits past it only when less than a
      microsecond was left, where the code sets none; received descriptors never
      leak, and the attach exchange hands every descriptor to exactly one owner.
    - Serving: every request is answered once and its obligation closed, except
      the last of a loop that ends because a reply was refused or the session is
      tainted; a panic's taint fences off every later handler; a drain that reports
      quiescence is right and is always woken.
    - Health: the wedge verdict comes exactly when a stall spans the window, and
      never early.
    - Hot reload, under every schedule: calls reach only an instance that is not
      frozen; the routed instance's state and queue are the calls published so
      far, across reloads and rollbacks; each outcome leaves gate, routing,
      descriptors and retired instances as it should; the cutoff's join is
      neither early nor lost; a snapshot reads back as it was built.  A beat in
      flight when Drain is sent makes a reload end crash-equivalent, which is
      proved too.
    - Supervisor, under every schedule: the published events are a legal stream
      of the instance life cycle, the restart budget is kept, a subscriber that
      lags keeps the latest incident whole and is never left asleep, and when
      Stop returns nil nothing is published any more.

    ** What is not modelled

    The construction of the socket transport, the mapping of a shared-memory
    transport, the spin budget of a wait, the spawning of processes, the public
    API above the runtime, observability, and the code generator; PROJECT.json lists them one by one.  Test hooks and
    failpoints are compiled away in production builds and are left out. *)

From Stdlib Require Export ZArith Lia.
From stdpp Require Export base tactics numbers list list_numbers option relations.

#[global] Open Scope Z_scope.

(** ** Machine integers

    A Go unsigned integer of width w is the [Z] in [0, 2^w); every operation
    that can leave that range is followed by the conversion of the width. *)

Declare Scope word_scope.
Delimit Scope word_scope with word.

Definition u8 (z : Z) : Z := z mod 2 ^ 8.
Definition u16 (z : Z) : Z := z mod 2 ^ 16.
Definition u32 (z : Z) : Z := z mod 2 ^ 32.
Definition u64 (z : Z) : Z := z mod 2 ^ 64.

(** Two's-complement reinterpretation of a 64-bit (32-bit) word. *)
Definition i64 (z : Z) : Z :=
  let w := u64 z in if w <? 2 ^ 63 then w else w - 2 ^ 64.
Definition i32 (z : Z) : Z :=
  let w := u32 z in if w <? 2 ^ 31 then w else w - 2 ^ 32.

Definition MaxUint64 : Z := 2 ^ 64 - 1.
Definition MaxUint32 : Z := 2 ^ 32 - 1.
Definition MaxInt64 : Z := 2 ^ 63 - 1.

Notation "a +₆₄ b" := (u64 (a + b)) (at level 50, left associativity) : word_scope.
Notation "a -₆₄ b" := (u64 (a - b)) (at level 50, left associativity) : word_scope.

Definition is_u16 (z : Z) : Prop := 0 <= z < 2 ^ 16.
Definition is_u32 (z : Z) : Prop := 0 <= z < 2 ^ 32.
Definition is_u64 (z : Z) : Prop := 0 <= z < 2 ^ 64.
Definition is_i64 (z : Z) : Prop := - 2 ^ 63 <= z < 2 ^ 63.
Definition is_byte (z : Z) : Prop := 0 <= z < 256.

Create HintDb styx.
Create Rewrite HintDb styx.

(** Unfolds the width predicates and conversions and calls [lia] on the
    quotient-remainder form of every [mod] and [/]. *)
Ltac unfold_widths :=
  unfold is_u16, is_u32, is_u64, is_i64, is_byte, u8, u16, u32, u64, i64, i32,
    MaxUint64, MaxUint32, MaxInt64 in *.
Ltac width_lia := unfold_widths; Z.to_euclidean_division_equations; lia.

(** Splits the boolean tests of the source into propositions. *)
Ltac bool_to_prop :=
  repeat match goal with
  | H : (_ && _)%bool = true |- _ => apply andb_prop in H; destruct H
  | H : (_ || _)%bool = false |- _ => apply orb_false_elim in H; destruct H
  | H : negb _ = true |- _ => apply negb_true_iff in H
  | H : negb _ = false |- _ => apply negb_false_iff in H
  | H : (_ <? _) = true |- _ => apply Z.ltb_lt in H
  | H : (_ <? _) = false |- _ => apply Z.ltb_ge in H
  | H : (_ <=? _) = true |- _ => apply Z.leb_le in H
  | H : (_ <=? _) = false |- _ => apply Z.leb_gt in H
  | H : (_ =? _) = true |- _ => apply Z.eqb_eq in H
  | H : (_ =? _) = false |- _ => apply Z.eqb_neq in H
  end.

(** Case analysis on the innermost test of a hypothesis or of the goal. *)
Ltac case_test_in H :=
  match type of H with
  | context [if ?b then _ else _] =>
      lazymatch b with
      | context [if _ then _ else _] => fail
      | _ => let E := fresh "E" in destruct b eqn:E
      end
  end.
Ltac case_test :=
  match goal with
  | |- context [if ?b then _ else _] =>
      lazymatch b with
      | context [if _ then _ else _] => fail
      | _ => let E := fresh "E" in destruct b eqn:E
      end
  end.

Lemma u64_range z : is_u64 (u64 z).
Proof. width_lia. Qed.
Lemma u32_range z : is_u32 (u32 z).
Proof. width_lia. Qed.
Lemma u16_range z : is_u16 (u16 z).
Proof. width_lia. Qed.
Lemma u8_range z : is_byte (u8 z).
Proof. width_lia. Qed.
Lemma u64_id z : is_u64 z -> u64 z = z.
Proof. intros; width_lia. Qed.
Lemma u32_id z : is_u32 z -> u32 z = z.
Proof. intros; width_lia. Qed.
Lemma u16_id z : is_u16 z -> u16 z = z.
Proof. intros; width_lia. Qed.
Lemma i64_u64 z : is_i64 z -> i64 (u64 z) = z.
Proof.
  intros. unfold i64. case_test; bool_to_prop; width_lia.
Qed.
Lemma u64_i64 z : is_u64 z -> u64 (i64 z) = z.
Proof.
  intros. unfold i64. case_test; bool_to_prop; width_lia.
Qed.
Lemma i64_range z : is_i64 (i64 z).
Proof. unfold i64. case_test; bool_to_prop; width_lia. Qed.
Lemma u64_u64 z : u64 (u64 z) = u64 z.
Proof. apply u64_id, u64_range. Qed.
Lemma u64_add_l a b : u64 (u64 a + b) = u64 (a + b).
Proof. unfold u64. now rewrite Zplus_mod_idemp_l. Qed.
Lemma u64_add_r a b : u64 (a + u64 b) = u64 (a + b).
Proof. unfold u64. now rewrite Zplus_mod_idemp_r. Qed.
Lemma u64_sub_lr a b : u64 (u64 a - u64 b) = u64 (a - b).
Proof. unfold u64. now rewrite <- Zminus_mod. Qed.

#[export] Hint Resolve u64_range u32_range u16_range u8_range i64_range : styx.
#[export] Hint Rewrite u64_u64 u64_add_l u64_add_r u64_sub_lr : styx.

(** ** Powers of two: the [c & (c-1)] test and the [n & (c-1)] mask *)

Lemma land_pred_pow2 c :
  0 < c -> Z.land c (c - 1) = 0 <-> exists k, 0 <= k /\ c = 2 ^ k.
Proof.
  intros Hc. split.
  - intros Hl. exists (Z.log2 c). split; [apply Z.log2_nonneg|].
    pose proof (Z.log2_spec c Hc) as [Hlo Hhi].
    destruct (Z.eq_dec c (2 ^ Z.log2 c)) as [|Hne]; [done|exfalso].
    assert (Hb : Z.testbit (Z.land c (c - 1)) (Z.log2 c) = true).
    { rewrite Z.land_spec, Z.bit_log2 by lia.
      rewrite <- (Z.log2_unique (c - 1) (Z.log2 c)) by (pose proof (Z.log2_nonneg c); lia).
      apply Z.bit_log2.
      pose proof (Z.pow_pos_nonneg 2 (Z.log2 c)). pose proof (Z.log2_nonneg c). lia. }
    rewrite Hl, Z.bits_0 in Hb. done.
  - intros (k & Hk & ->).
    replace (2 ^ k - 1) with (Z.ones k) by (rewrite Z.ones_equiv; lia).
    rewrite Z.land_ones by done. apply Z_mod_same_full.
Qed.

Lemma land_mask n c :
  0 < c -> Z.land c (c - 1) = 0 -> Z.land n (c - 1) = n mod c.
Proof.
  intros Hc [k [Hk ->]]%land_pred_pow2; [|done].
  replace (2 ^ k - 1) with (Z.ones k) by (rewrite Z.ones_equiv; lia).
  now apply Z.land_ones.
Qed.

(** ** Outcomes

    What a Go function returns: a value, an [error] (the sentinel that
    [errors.Is] matches; the message is dropped), or a run-time panic of an
    out-of-range slice or index expression. *)

Inductive outcome (E A : Type) : Type :=
| Ok (a : A)
| Err (e : E)
| Panic.
Arguments Ok {E A} _.
Arguments Err {E A} _.
Arguments Panic {E A}.

Definition obind {E A B} (m : outcome E A) (f : A -> outcome E B) : outcome E B :=
  match m with
  | Ok a => f a
  | Err e => Err e
  | Panic => Panic
  end.

Declare Scope outcome_scope.
Delimit Scope outcome_scope with outcome.
Notation "'let!' x ':=' m 'in' k" := (obind m (fun x => k))
  (at level 10, x pattern, k at level 200) : outcome_scope.
Notation "'guard!' b 'else' e 'in' k" := (if b then k else Err e)
  (at level 10, b at level 100, e at level 100, k at level 200) : outcome_scope.
#[global] Open Scope outcome_scope.

Lemma obind_ok {E A B} (m : outcome E A) (f : A -> outcome E B) b :
  obind m f = Ok b -> exists a, m = Ok a /\ f a = Ok b.
Proof. destruct m; naive_solver. Qed.

(** Peels every [let!] and [guard!] of a computation known to return [Ok]. *)
Ltac peel_ok H :=
  repeat (cbv beta zeta in H;
    match type of H with
    | obind _ _ = Ok _ =>
        let a := fresh "a" in let Ha := fresh "Ha" in
        apply obind_ok in H; destruct H as (a & Ha & H)
    | match ?p with (_, _) => _ end = Ok _ => destruct p
    | (if ?b then _ else _) = Ok _ =>
        let E := fresh "G" in destruct b eqn:E; [|discriminate H]
    | (if ?b then _ else _) = Ok _ =>
        let E := fresh "G" in destruct b eqn:E; [discriminate H|]
    end).

(** ** Byte strings

    A byte is a [Z] in [0, 256).  [sub_bytes] and [put_bytes] are the read and
    the write of [w] bytes at an offset known to be in range; [slice] is Go's
    [b[lo:hi]] with its panic as [None]. *)

Fixpoint le_encode (n : nat) (v : Z) : list Z :=
  match n with
  | O => []
  | S n => v mod 256 :: le_encode n (v / 256)
  end.

Fixpoint le_decode (l : list Z) : Z :=
  match l with
  | [] => 0
  | b :: l => b + 256 * le_decode l
  end.

Definition be_encode (n : nat) (v : Z) : list Z := rev (le_encode n v).
Definition be_decode (l : list Z) : Z := le_decode (rev l).

Definition sub_bytes (off w : nat) (l : list Z) : list Z := take w (drop off l).
Definition put_bytes (off : nat) (bs l : list Z) : list Z :=
  take off l ++ bs ++ drop (off + length bs) l.

Definition zlen {A} (l : list A) : Z := Z.of_nat (length l).

Definition slice (lo hi : Z) (l : list Z) : option (list Z) :=
  if (0 <=? lo) && (lo <=? hi) && (hi <=? zlen l)
  then Some (sub_bytes (Z.to_nat lo) (Z.to_nat (hi - lo)) l)
  else None.

Lemma length_le_encode n v : length (le_encode n v) = n.
Proof. revert v; induction n; intros; simpl; auto. Qed.

Lemma le_encode_bytes n v : Forall is_byte (le_encode n v).
Proof. revert v; induction n; intros; simpl; constructor; auto. width_lia. Qed.

Lemma le_decode_encode n v :
  0 <= v < 256 ^ Z.of_nat n -> le_decode (le_encode n v) = v.
Proof.
  revert v; induction n as [|n IH]; intros v Hv; simpl.
  - change (256 ^ Z.of_nat 0) with 1 in Hv; lia.
  - rewrite Nat2Z.inj_succ, Z.pow_succ_r in Hv by lia.
    rewrite IH by (Z.to_euclidean_division_equations; nia).
    pose proof (Z.div_mod v 256). lia.
Qed.

Lemma le_encode_decode l :
  Forall is_byte l -> le_encode (length l) (le_decode l) = l.
Proof.
  induction 1 as [|b l Hb Hl IH]; simpl; [done|].
  unfold is_byte in Hb. f_equal.
  - rewrite Z.mul_comm, Z_mod_plus_full. now apply Z.mod_small.
  - rewrite Z.mul_comm, Z_div_plus_full, Z.div_small by lia. now rewrite Z.add_0_l.
Qed.

Lemma le_decode_range l :
  Forall is_byte l -> 0 <= le_decode l < 256 ^ Z.of_nat (length l).
Proof.
  induction 1 as [|b l Hb Hl IH]; simpl length; simpl le_decode.
  - change (256 ^ Z.of_nat 0) with 1; lia.
  - rewrite Nat2Z.inj_succ, Z.pow_succ_r by lia. unfold is_byte in Hb. lia.
Qed.

#[global] Arguments le_encode : simpl never.

Lemma length_be_encode n v : length (be_encode n v) = n.
Proof. unfold be_encode. now rewrite length_rev, length_le_encode. Qed.

Lemma be_decode_encode n v :
  0 <= v < 256 ^ Z.of_nat n -> be_decode (be_encode n v) = v.
Proof. intros. unfold be_decode, be_encode. now rewrite rev_involutive, le_decode_encode. Qed.

Lemma be_encode_bytes n v : Forall is_byte (be_encode n v).
Proof. unfold be_encode. apply Forall_rev, le_encode_bytes. Qed.

Lemma length_sub_bytes off w l : (off + w <= length l)%nat -> length (sub_bytes off w l) = w.
Proof. intros. unfold sub_bytes. rewrite length_take, length_drop. lia. Qed.

Lemma length_put_bytes off bs l :
  (off + length bs <= length l)%nat -> length (put_bytes off bs l) = length l.
Proof.
  intros. unfold put_bytes. rewrite !length_app, length_take, length_drop. lia.
Qed.

Lemma sub_put_same off w bs l :
  length bs = w -> (off + w <= length l)%nat -> sub_bytes off w (put_bytes off bs l) = bs.
Proof.
  intros <- ?. unfold sub_bytes, put_bytes.
  rewrite drop_app_length' by (rewrite length_take; lia).
  now rewrite take_app_length.
Qed.

Lemma put_bytes_lookup off bs l i :
  (off + length bs <= length l)%nat ->
  put_bytes off bs l !! i =
    if decide (off <= i < off + length bs)%nat then bs !! (i - off)%nat else l !! i.
Proof.
  intros Hr. unfold put_bytes. case_decide.
  - rewrite lookup_app_r by (rewrite length_take; lia).
    rewrite length_take, Nat.min_l, lookup_app_l by lia. done.
  - destruct (decide (i < off)%nat).
    + rewrite lookup_app_l by (rewrite length_take; lia). now apply lookup_take_lt.
    + rewrite lookup_app_r by (rewrite length_take; lia).
      rewrite length_take, Nat.min_l by lia.
      rewrite lookup_app_r by lia. rewrite lookup_drop. f_equal; lia.
Qed.

Lemma sub_bytes_lookup off w l i :
  sub_bytes off w l !! i = if decide (i < w)%nat then l !! (off + i)%nat else None.
Proof.
  unfold sub_bytes. case_decide.
  - now rewrite lookup_take_lt, lookup_drop by lia.
  - apply lookup_take_ge. lia.
Qed.

Lemma sub_put_other off w off' bs l :
  (off' + length bs <= length l)%nat ->
  (off + w <= off' \/ off' + length bs <= off)%nat ->
  sub_bytes off w (put_bytes off' bs l) = sub_bytes off w l.
Proof.
  intros ? Hd. apply list_eq; intros i. rewrite !sub_bytes_lookup.
  case_decide; [|done]. rewrite put_bytes_lookup by done.
  rewrite decide_False by lia. done.
Qed.

Lemma Forall_sub_bytes P off w l : Forall P l -> Forall P (sub_bytes off w l).
Proof. intros. unfold sub_bytes. auto using Forall_take, Forall_drop. Qed.

Lemma Forall_put_bytes P off bs l :
  Forall P l -> Forall P bs -> Forall P (put_bytes off bs l).
Proof. intros. unfold put_bytes. rewrite !Forall_app. auto using Forall_take, Forall_drop. Qed.

#[export] Hint Resolve le_encode_bytes be_encode_bytes Forall_sub_bytes Forall_put_bytes : styx.
#[export] Hint Rewrite length_le_encode length_be_encode : styx.

Lemma slice_Some lo hi l bs :
  slice lo hi l = Some bs <->
  (0 <= lo <= hi /\ hi <= zlen l) /\ bs = sub_bytes (Z.to_nat lo) (Z.to_nat (hi - lo)) l.
Proof.
  unfold slice. split.
  - intros H. case_test_in H; bool_to_prop; simplify_eq. split; [lia|done].
  - intros [? ->]. case_test; [done|].
    rewrite !andb_false_iff in *. rewrite !Z.leb_gt in *. lia.
Qed.

Lemma slice_length lo hi l bs : slice lo hi l = Some bs -> zlen bs = hi - lo.
Proof.
  intros [? ->]%slice_Some. unfold zlen in *. rewrite length_sub_bytes; lia.
Qed.

Lemma obind_no_panic {E A B} (m : outcome E A) (f : A -> outcome E B) :
  m <> Panic -> (forall a, m = Ok a -> f a <> Panic) -> obind m f <> Panic.
Proof. destruct m; simpl; auto; discriminate. Qed.

Lemma if_no_panic {E A} (b : bool) (m n : outcome E A) :
  (b = true -> m <> Panic) -> (b = false -> n <> Panic) -> (if b then m else n) <> Panic.
Proof. destruct b; auto. Qed.

(** Walks a computation whose leaves are values and errors. *)
Ltac no_panic :=
  repeat (cbv beta zeta;
    match goal with
    | |- Ok _ <> Panic => discriminate
    | |- Err _ <> Panic => discriminate
    | |- match ?p with (_, _) => _ end <> Panic => destruct p
    | |- obind _ _ <> Panic => apply obind_no_panic; [auto with styx|intros ? ?]
    | |- (if _ then _ else _) <> Panic => apply if_no_panic; intros ?
    end).

Lemma slice_in_range lo hi l :
  0 <= lo <= hi -> hi <= zlen l ->
  slice lo hi l = Some (sub_bytes (Z.to_nat lo) (Z.to_nat (hi - lo)) l).
Proof. intros. now apply slice_Some. Qed.

(** Evaluation of a closed computation in a witness. *)
Definition is_ok {E A} (m : outcome E A) : bool :=
  match m with Ok _ => true | _ => false end.

Lemma is_ok_exists {E A} (m : outcome E A) : is_ok m = true -> exists a, m = Ok a.
Proof. destruct m; simpl; eauto; discriminate. Qed.

Definition bytes_ok (l : list Z) : bool := forallb (fun b => (0 <=? b) && (b <? 256)) l.

Lemma bytes_ok_Forall l : bytes_ok l = true -> Forall is_byte l.
Proof.
  intros H. unfold bytes_ok in H. rewrite forallb_forall in H.
  apply Forall_forall. intros b Hi. apply list_elem_of_In, H in Hi.
  bool_to_prop. split; auto.
Qed.

Lemma pair_snd {A B} (x : A * B) b : snd x = b -> x = (fst x, b).
Proof. destruct x; simpl; congruence. Qed.

(** ** Record update

    [update_field eta r p x] is the record [r] with field [p] replaced by [x],
    where [eta] rebuilds a record from its projections. *)
Ltac update_field eta r p x :=
  let t := eval cbv beta delta [eta] in (eta r) in
  let u := eval pattern (p r) in t in
  match u with
  | ?g _ => let v := eval cbv beta in (g x) in exact v
  end.

(** ** Programs

    A Go method as a state transformer: it returns a value in a new state,
    panics, or stays blocked (a park with no wake-up, a spin that cannot end). *)

Inductive run (S A : Type) : Type :=
| Ret (s : S) (a : A)
| Panics
| Parks.
Arguments Ret {S A} _ _.
Arguments Panics {S A}.
Arguments Parks {S A}.

Definition prog (S A : Type) : Type := S -> run S A.

#[global] Instance prog_ret S : MRet (prog S) := fun A a s => Ret s a.
#[global] Instance prog_bind S : MBind (prog S) := fun A B f m s =>
  match m s with
  | Ret s a => f a s
  | Panics => Panics
  | Parks => Parks
  end.

Definition get {S} : prog S S := fun s => Ret s s.
Definition gets {S A} (f : S -> A) : prog S A := fun s => Ret s (f s).
Definition modify {S} (f : S -> S) : prog S unit := fun s => Ret (f s) tt.
Definition panic {S A} : prog S A := fun _ => Panics.
Definition park {S A} : prog S A := fun _ => Parks.

(** [run_each m l] is [for x in l { m(x) }]. *)
Fixpoint run_each {S A} (m : A -> prog S unit) (l : list A) : prog S unit :=
  match l with
  | [] => mret tt
  | x :: l => m x ≫= fun _ => run_each m l
  end.

(** Weakest precondition: the program does not panic, and if it returns, the
    value and the state satisfy [Q]. *)
Definition wp {S A} (m : prog S A) (Q : A -> S -> Prop) (s : S) : Prop :=
  match m s with Ret s a => Q a s | Panics => False | Parks => True end.

Lemma wp_ret {S A} (a : A) (Q : A -> S -> Prop) s : Q a s -> wp (mret a) Q s.
Proof. done. Qed.
Lemma wp_bind {S A B} (m : prog S A) (f : A -> prog S B) Q s :
  wp m (fun a s => wp (f a) Q s) s -> wp (m ≫= f) Q s.
Proof. unfold wp, mbind, prog_bind. by destruct (m s). Qed.
Lemma wp_mono {S A} (m : prog S A) (P Q : A -> S -> Prop) s :
  wp m P s -> (forall a s, P a s -> Q a s) -> wp m Q s.
Proof. unfold wp. destruct (m s); auto. Qed.
Lemma wp_gets {S A} (f : S -> A) (Q : A -> S -> Prop) s : Q (f s) s -> wp (gets f) Q s.
Proof. done. Qed.
Lemma wp_modify {S} (f : S -> S) (Q : unit -> S -> Prop) s : Q tt (f s) -> wp (modify f) Q s.
Proof. done. Qed.

(** The total version: the program returns. *)
Definition twp {S A} (m : prog S A) (Q : A -> S -> Prop) (s : S) : Prop :=
  match m s with Ret s a => Q a s | _ => False end.

Lemma twp_bind {S A B} (m : prog S A) (f : A -> prog S B) Q s :
  twp m (fun a s => twp (f a) Q s) s -> twp (m ≫= f) Q s.
Proof. unfold twp, mbind, prog_bind. by destruct (m s). Qed.
Lemma twp_mono {S A} (m : prog S A) (P Q : A -> S -> Prop) s :
  twp m P s -> (forall a s, P a s -> Q a s) -> twp m Q s.
Proof. unfold twp. destruct (m s); auto. Qed.
Lemma twp_ret {S A} (a : A) (Q : A -> S -> Prop) s : Q a s -> twp (mret a) Q s.
Proof. done. Qed.
Lemma twp_gets {S A} (f : S -> A) (Q : A -> S -> Prop) s : Q (f s) s -> twp (gets f) Q s.
Proof. done. Qed.
Lemma twp_modify {S} (f : S -> S) (Q : unit -> S -> Prop) s : Q tt (f s) -> twp (modify f) Q s.
Proof. done. Qed.
