(* ===== verification/DescriptorCodec.v ===== *)
(** * The 64-byte ring descriptor (src/internal/ring/descriptor.go)

    One ring slot, held as its raw bytes; the accessors decode and encode
    single fields little-endian at the frozen offsets.  The theorems show that
    the fields are independent, that each reads back what was stored, and that
    together they determine all 64 bytes. *)

From S2P Require Import Prelude.

Module Descriptor.

(** ** Frame kinds, wire values *)

Definition KindUnaryReq : Z := 0.
Definition KindUnaryResp : Z := 1.
Definition KindCancel : Z := 2.
Definition KindStreamOpen : Z := 3.
Definition KindStreamMsg : Z := 4.
Definition KindStreamAck : Z := 5.
Definition KindStreamClose : Z := 6.
Definition KindStreamErr : Z := 7.
Definition KindUnaryErr : Z := 8.
Definition KindStreamChunk : Z := 9.

(** ** The descriptor and its accessors *)

Record Descriptor := mkDescriptor { raw : list Z }.

#[global] Instance Descriptor_eq_dec : EqDecision Descriptor.
Proof. solve_decision. Defined.

(** The Go zero value [Descriptor{}]. *)
Definition zeroDescriptor : Descriptor := mkDescriptor (replicate 64 0).

Definition wf (d : Descriptor) : Prop := length (raw d) = 64%nat /\ Forall is_byte (raw d).

Definition callIDOffset : nat := 0.
Definition serviceIDOffset : nat := 8.
Definition methodIDOffset : nat := 16.
Definition payloadOffsetOffset : nat := 24.
Definition payloadLengthOffset : nat := 28.
Definition allocSeqOffset : nat := 32.
Definition budgetNSOffset : nat := 40.
Definition kindOffset : nat := 48.
Definition flagsOffset : nat := 50.
Definition generationOffset : nat := 52.
Definition reservedOffset : nat := 56.

(** [binary.LittleEndian.UintN(d.raw[off:])] and [PutUintN]. *)
Definition get_le (off w : nat) (d : Descriptor) : Z := le_decode (sub_bytes off w (raw d)).
Definition put_le (off w : nat) (v : Z) (d : Descriptor) : Descriptor :=
  mkDescriptor (put_bytes off (le_encode w v) (raw d)).

Definition CallID (d : Descriptor) : Z := get_le callIDOffset 8 d.
Definition SetCallID (v : Z) (d : Descriptor) : Descriptor := put_le callIDOffset 8 v d.
Definition ServiceID (d : Descriptor) : Z := get_le serviceIDOffset 8 d.
Definition SetServiceID (v : Z) (d : Descriptor) : Descriptor := put_le serviceIDOffset 8 v d.
Definition MethodID (d : Descriptor) : Z := get_le methodIDOffset 8 d.
Definition SetMethodID (v : Z) (d : Descriptor) : Descriptor := put_le methodIDOffset 8 v d.
Definition PayloadOffset (d : Descriptor) : Z := get_le payloadOffsetOffset 4 d.
Definition SetPayloadOffset (v : Z) (d : Descriptor) : Descriptor := put_le payloadOffsetOffset 4 v d.
Definition PayloadLength (d : Descriptor) : Z := get_le payloadLengthOffset 4 d.
Definition SetPayloadLength (v : Z) (d : Descriptor) : Descriptor := put_le payloadLengthOffset 4 v d.
Definition AllocSeq (d : Descriptor) : Z := get_le allocSeqOffset 8 d.
Definition SetAllocSeq (v : Z) (d : Descriptor) : Descriptor := put_le allocSeqOffset 8 v d.
Definition BudgetNS (d : Descriptor) : Z := i64 (get_le budgetNSOffset 8 d).
Definition SetBudgetNS (v : Z) (d : Descriptor) : Descriptor := put_le budgetNSOffset 8 (u64 v) d.

(** [FrameKind(d.raw[kindOffset])]: the low byte only. *)
Definition Kind (d : Descriptor) : Z := get_le kindOffset 1 d.
Definition KindWord (d : Descriptor) : Z := get_le kindOffset 2 d.
(** [k] is a [FrameKind], a uint8: the high byte is written 0. *)
Definition SetKind (k : Z) (d : Descriptor) : Descriptor := put_le kindOffset 2 (u8 k) d.
Definition Flags (d : Descriptor) : Z := get_le flagsOffset 2 d.
Definition SetFlags (v : Z) (d : Descriptor) : Descriptor := put_le flagsOffset 2 v d.
Definition Generation (d : Descriptor) : Z := get_le generationOffset 4 d.
Definition SetGeneration (v : Z) (d : Descriptor) : Descriptor := put_le generationOffset 4 v d.
Definition Reserved (d : Descriptor) : Z := get_le reservedOffset 8 d.
Definition SetReserved (v : Z) (d : Descriptor) : Descriptor := put_le reservedOffset 8 v d.

(** The sum is taken in uint64, so two uint32 terms cannot wrap. *)
Definition PayloadInBounds (size : Z) (d : Descriptor) : bool :=
  (PayloadOffset d +₆₄ PayloadLength d)%word <=? size.

(** ** The field table: every accessor pair, by name *)

Inductive field :=
| FCallID | FServiceID | FMethodID | FPayloadOffset | FPayloadLength | FAllocSeq
| FBudgetNS | FKind | FFlags | FGeneration | FReserved.

#[global] Instance field_eq_dec : EqDecision field.
Proof. solve_decision. Defined.

Definition getter (f : field) : Descriptor -> Z :=
  match f with
  | FCallID => CallID | FServiceID => ServiceID | FMethodID => MethodID
  | FPayloadOffset => PayloadOffset | FPayloadLength => PayloadLength
  | FAllocSeq => AllocSeq | FBudgetNS => BudgetNS | FKind => KindWord
  | FFlags => Flags | FGeneration => Generation | FReserved => Reserved
  end.

Definition setter (f : field) : Z -> Descriptor -> Descriptor :=
  match f with
  | FCallID => SetCallID | FServiceID => SetServiceID | FMethodID => SetMethodID
  | FPayloadOffset => SetPayloadOffset | FPayloadLength => SetPayloadLength
  | FAllocSeq => SetAllocSeq | FBudgetNS => SetBudgetNS | FKind => SetKind
  | FFlags => SetFlags | FGeneration => SetGeneration | FReserved => SetReserved
  end.

(** The Go type of each setter's argument. *)
Definition in_range (f : field) (v : Z) : Prop :=
  match f with
  | FPayloadOffset | FPayloadLength | FGeneration => is_u32 v
  | FBudgetNS => is_i64 v
  | FKind => is_byte v
  | FFlags => is_u16 v
  | _ => is_u64 v
  end.

Definition offset_of (f : field) : nat :=
  match f with
  | FCallID => callIDOffset | FServiceID => serviceIDOffset | FMethodID => methodIDOffset
  | FPayloadOffset => payloadOffsetOffset | FPayloadLength => payloadLengthOffset
  | FAllocSeq => allocSeqOffset | FBudgetNS => budgetNSOffset | FKind => kindOffset
  | FFlags => flagsOffset | FGeneration => generationOffset | FReserved => reservedOffset
  end.

Definition width_of (f : field) : nat :=
  match f with
  | FPayloadOffset | FPayloadLength | FGeneration => 4
  | FKind | FFlags => 2
  | _ => 8
  end.

(** ** Lemmas *)

Lemma zero_wf : wf zeroDescriptor.
Proof. split; [done|]. apply Forall_replicate. unfold is_byte. lia. Qed.

Lemma put_le_wf off w v d : (off + w <= 64)%nat -> wf d -> wf (put_le off w v d).
Proof.
  intros ? [Hl Hb]. split; simpl; [|auto with styx].
  rewrite length_put_bytes; autorewrite with styx; lia.
Qed.

Lemma get_put_le_same off w v d :
  (off + w <= 64)%nat -> wf d -> 0 <= v < 256 ^ Z.of_nat w ->
  get_le off w (put_le off w v d) = v.
Proof.
  intros ? [Hl _] ?. unfold get_le, put_le; simpl.
  rewrite sub_put_same by (autorewrite with styx; lia). now apply le_decode_encode.
Qed.

Lemma get_put_le_other off w off' w' v d :
  (off' + w' <= 64)%nat -> (off + w <= off' \/ off' + w' <= off)%nat -> wf d ->
  get_le off w (put_le off' w' v d) = get_le off w d.
Proof.
  intros ? ? [Hl _]. unfold get_le, put_le; simpl.
  rewrite sub_put_other; [done|..]; autorewrite with styx; lia.
Qed.

Lemma get_le_range off w d :
  (off + w <= 64)%nat -> wf d -> 0 <= get_le off w d < 256 ^ Z.of_nat w.
Proof.
  intros ? [Hl Hb]. unfold get_le.
  pose proof (le_decode_range (sub_bytes off w (raw d)) (Forall_sub_bytes _ _ _ _ Hb)) as H1.
  rewrite length_sub_bytes in H1 by lia. done.
Qed.

Lemma setter_wf f v d : wf d -> wf (setter f v d).
Proof. intros. destruct f; apply put_le_wf; auto; vm_compute; lia. Qed.

Lemma getter_setter_same f v d : wf d -> in_range f v -> getter f (setter f v d) = v.
Proof.
  intros Hw Hv. pose proof (Hi := i64_u64 v).
  destruct f; unfold in_range in Hv; unfold getter, setter, BudgetNS, SetBudgetNS.
  all: try (apply get_put_le_same; [vm_compute; lia|done|simpl; width_lia]).
  - rewrite get_put_le_same; [auto|vm_compute; lia|done|simpl; width_lia].
  - etransitivity; [apply get_put_le_same; [vm_compute; lia|done|simpl; width_lia]|].
    width_lia.
Qed.

Lemma getter_setter_other f g v d : wf d -> f <> g -> getter g (setter f v d) = getter g d.
Proof.
  intros Hw Hne.
  destruct f, g; try done; unfold getter, setter; try apply (f_equal i64);
    (apply get_put_le_other; [vm_compute; lia|vm_compute; lia|done]).
Qed.

Lemma get_le_inj off w d1 d2 :
  (off + w <= 64)%nat -> wf d1 -> wf d2 -> get_le off w d1 = get_le off w d2 ->
  sub_bytes off w (raw d1) = sub_bytes off w (raw d2).
Proof.
  intros ? [Hl1 Hb1] [Hl2 Hb2] He. unfold get_le in He.
  rewrite <- (le_encode_decode (sub_bytes off w (raw d1))) by auto with styx.
  rewrite <- (le_encode_decode (sub_bytes off w (raw d2))) by auto with styx.
  rewrite !length_sub_bytes by lia. now rewrite He.
Qed.

Lemma getter_inj f d1 d2 :
  wf d1 -> wf d2 -> getter f d1 = getter f d2 ->
  sub_bytes (offset_of f) (width_of f) (raw d1) = sub_bytes (offset_of f) (width_of f) (raw d2).
Proof.
  intros H1 H2 He.
  destruct f; apply get_le_inj; try done; try (vm_compute; lia).
  unfold getter, BudgetNS in He.
  rewrite <- (u64_i64 (get_le (offset_of FBudgetNS) (width_of FBudgetNS) d1)),
          <- (u64_i64 (get_le (offset_of FBudgetNS) (width_of FBudgetNS) d2)).
  - now f_equal.
  - apply (get_le_range 40 8 d2); [lia|done].
  - apply (get_le_range 40 8 d1); [lia|done].
Qed.

(** The fields in wire order tile the slot. *)
Lemma fields_tile d :
  length (raw d) = 64%nat ->
  raw d = concat (map (fun f => sub_bytes (offset_of f) (width_of f) (raw d))
    [FCallID; FServiceID; FMethodID; FPayloadOffset; FPayloadLength; FAllocSeq;
     FBudgetNS; FKind; FFlags; FGeneration; FReserved]).
Proof.
  destruct d as [l]. simpl. intros Hl.
  do 64 (destruct l as [|? l]; [discriminate Hl|]).
  destruct l; [reflexivity|discriminate Hl].
Qed.

(** ** Properties *)

(** Two descriptors that agree on every accessor are the same 64 bytes. *)
Lemma fields_determine d1 d2 :
  wf d1 -> wf d2 -> (forall f, getter f d1 = getter f d2) -> d1 = d2.
Proof.
  intros H1 H2 He. destruct d1 as [r1], d2 as [r2]. f_equal.
  change (raw (mkDescriptor r1) = raw (mkDescriptor r2)).
  rewrite (fields_tile (mkDescriptor r1)), (fields_tile (mkDescriptor r2))
    by (apply H1 || apply H2).
  f_equal. apply map_ext. intros f. now apply getter_inj.
Qed.

(** The descriptor accessors are a lens family that covers the slot.  Storing
    a value of the field's Go type into any of the eleven fields keeps the slot
    at 64 bytes, reads back exactly that value, and leaves each of the other ten
    fields as it was; and the slot it leaves is the only one with those fields,
    so nothing a peer writes into a slot escapes the accessors a consumer
    validates. *)
Theorem accessors_independent f v d :
  wf d -> in_range f v ->
  wf (setter f v d) /\ getter f (setter f v d) = v /\
  (forall g, g <> f -> getter g (setter f v d) = getter g d) /\
  (forall d', wf d' -> getter f d' = v -> (forall g, g <> f -> getter g d' = getter g d) -> d' = setter f v d).
Proof.
  intros Hd Hv. split; [now apply setter_wf|]. split; [now apply getter_setter_same|].
  split; [intros; now apply getter_setter_other|]. intros d' Hd' Hf Ho.
  apply fields_determine; [done|now apply setter_wf|]. intros g. destruct (decide (g = f)) as [->|Hne].
  - now rewrite getter_setter_same.
  - rewrite getter_setter_other by done. auto.
Qed.

Lemma accessors_independent_witness :
  let d := setter FBudgetNS (-5) zeroDescriptor in
  BudgetNS d = -5 /\ getter FFlags d = getter FFlags zeroDescriptor.
Proof.
  destruct (accessors_independent FBudgetNS (-5) zeroDescriptor) as (_ & H & Ho & _).
  - apply zero_wf.
  - unfold in_range, is_i64. lia.
  - split; [exact H|apply Ho; discriminate].
Defined.

(** The bound check of [PayloadInBounds] cannot be defeated by wrap-around. *)
Lemma PayloadInBounds_spec size d :
  wf d -> PayloadInBounds size d = true <-> PayloadOffset d + PayloadLength d <= size.
Proof.
  intros Hw. unfold PayloadInBounds. rewrite Z.leb_le, u64_id; [done|].
  pose proof (get_le_range payloadOffsetOffset 4 d ltac:(vm_compute; lia) Hw).
  pose proof (get_le_range payloadLengthOffset 4 d ltac:(vm_compute; lia) Hw).
  unfold PayloadOffset, PayloadLength. simpl in *. width_lia.
Qed.

(** [Kind] is the low byte of [KindWord]. *)
Lemma Kind_low_byte d : wf d -> Kind d = KindWord d mod 256.
Proof.
  intros [Hl Hb]. unfold Kind, KindWord, get_le, sub_bytes, kindOffset.
  apply (Forall_drop _ 48) in Hb. pose proof (length_drop (raw d) 48) as Hm.
  destruct (drop 48 (raw d)) as [|a [|b m]]; [simpl in Hm; lia..|].
  simpl take. simpl le_decode. inversion Hb; subst. width_lia.
Qed.

End Descriptor.
