(* ===== verification/DescriptorRing.v ===== *)
(** * The SPSC descriptor ring (src/internal/ring/ring.go)

    [Push], [Peek], [Advance] and [Pop] as functions on the ring's shared
    memory, and the same operations split at every shared access, interleaved
    by a step relation in which the 64-byte slot write may be torn.  The
    theorems give the functional behaviour of each branch, and show that every
    interleaving of one producer and one consumer refines a bounded FIFO
    queue, free of races on the slots, across the 2^64 wrap of the sequence
    words. *)

From S2P Require Import Prelude DescriptorCodec.
Import Descriptor.

Module Ring.

Definition minCapacity : Z := 64.
Definition maxCapacity : Z := 2 ^ 20.

Inductive ringError := ErrFull | ErrCorrupt | ErrBadConfig.
Inductive PeekStatus := PeekEmpty | PeekOK | PeekCorrupt.

#[global] Instance ringError_eq_dec : EqDecision ringError.
Proof. solve_decision. Defined.

(** The ring with the two shared words its pointers refer to. *)
Record Ring := mkRing {
  slots : list Descriptor;
  head : Z;
  tail : Z;
  mask : Z;
  capacity : Z
}.

Definition set_slot (i : nat) (d : Descriptor) (r : Ring) : Ring :=
  mkRing (<[i := d]> (slots r)) (head r) (tail r) (mask r) (capacity r).
Definition set_head (h : Z) (r : Ring) : Ring :=
  mkRing (slots r) h (tail r) (mask r) (capacity r).
Definition set_tail (t : Z) (r : Ring) : Ring :=
  mkRing (slots r) (head r) t (mask r) (capacity r).

(** A nil word pointer is [None]. *)
Definition New (sl : list Descriptor) (hd tl : option Z) (cap : Z) : outcome ringError Ring :=
  if (cap <? minCapacity) || (maxCapacity <? cap) then Err ErrBadConfig else
  if negb (Z.land cap (u64 (cap - 1)) =? 0) then Err ErrBadConfig else
  if negb (zlen sl =? cap) then Err ErrBadConfig else
  match hd, tl with
  | Some h, Some t => Ok (mkRing sl h t (u64 (cap - 1)) cap)
  | _, _ => Err ErrBadConfig
  end.

(** The depth switch of [Push]: [None] means publish. *)
Definition push_check (cap h t : Z) : option ringError :=
  let depth := (t -₆₄ h)%word in
  if cap <? depth then Some ErrCorrupt
  else if depth =? cap then Some ErrFull
  else None.

(** The depth switch of [Peek]. *)
Definition peek_check (cap h t : Z) : PeekStatus :=
  let depth := (t -₆₄ h)%word in
  if cap <? depth then PeekCorrupt
  else if depth =? 0 then PeekEmpty
  else PeekOK.

Definition slot_index (r : Ring) (seq : Z) : nat := Z.to_nat (Z.land seq (mask r)).

Definition Push (d : Descriptor) (r : Ring) : outcome ringError Ring :=
  let h := head r in
  let t := tail r in
  match push_check (capacity r) h t with
  | Some e => Err e
  | None =>
      let i := slot_index r t in
      if decide (i < length (slots r))%nat
      then Ok (set_tail (t +₆₄ 1)%word (set_slot i d r))
      else Panic
  end.

Definition Peek (r : Ring) : outcome ringError (Descriptor * PeekStatus) :=
  let h := head r in
  let t := tail r in
  match peek_check (capacity r) h t with
  | PeekOK =>
      match slots r !! slot_index r h with
      | Some d => Ok (d, PeekOK)
      | None => Panic
      end
  | st => Ok (zeroDescriptor, st)
  end.

Definition Advance (r : Ring) : Ring := set_head (head r +₆₄ 1)%word r.

Definition Pop (r : Ring) : outcome ringError (Ring * Descriptor * bool) :=
  let! (d, status) := Peek r in
  match status with
  | PeekOK => Ok (Advance r, d, true)
  | _ => Ok (r, zeroDescriptor, false)
  end.

Definition Len (r : Ring) : Z := (tail r -₆₄ head r)%word.
Definition Full (r : Ring) : bool := Len r =? capacity r.
Definition Empty (r : Ring) : bool := Len r =? 0.
Definition Tail (r : Ring) : Z := tail r.

(** What [New] establishes, once and for all. *)
Record config_ok (r : Ring) : Prop := {
  cap_range : minCapacity <= capacity r <= maxCapacity;
  cap_pow2 : Z.land (capacity r) (capacity r - 1) = 0;
  mask_eq : mask r = capacity r - 1;
  slots_len : zlen (slots r) = capacity r
}.

(** ** Configuration lemmas *)

Lemma New_config sl hd tl cap r : is_u64 cap -> New sl hd tl cap = Ok r -> config_ok r.
Proof.
  intros Hc H. unfold New in H. repeat case_test_in H; try done.
  destruct hd, tl; simplify_eq. bool_to_prop.
  unfold minCapacity, maxCapacity in *.
  assert (u64 (cap - 1) = cap - 1) as Hm by (apply u64_id; unfold is_u64 in *; lia).
  rewrite Hm in *. constructor; simpl; unfold minCapacity, maxCapacity; auto; lia.
Qed.

Lemma cap_divides r : config_ok r -> (capacity r | 2 ^ 64).
Proof.
  intros [Hr Hp _ _]. unfold minCapacity, maxCapacity in Hr.
  apply land_pred_pow2 in Hp as (k & Hk & He); [|lia]. rewrite He in *.
  assert (k <= 64).
  { apply Z.nlt_ge. intros ?. pose proof (Z.pow_lt_mono_r 2 20 k). lia. }
  exists (2 ^ (64 - k)). rewrite <- Z.pow_add_r by lia. f_equal; lia.
Qed.

Lemma slot_index_mod r n :
  config_ok r -> Z.of_nat (slot_index r (u64 n)) = n mod capacity r.
Proof.
  intros Hc. pose proof (cap_divides r Hc) as Hd. destruct Hc as [Hr Hp Hm _].
  unfold minCapacity, maxCapacity in Hr. unfold slot_index.
  rewrite Hm, land_mask by (auto; lia). unfold u64.
  rewrite Z.mod_mod_divide by done.
  rewrite Z2Nat.id; [done|]. apply Z.mod_pos_bound. lia.
Qed.

Lemma slot_index_lt r n :
  config_ok r -> (slot_index r (u64 n) < length (slots r))%nat.
Proof.
  intros Hc. pose proof (slot_index_mod r n Hc) as Hi. destruct Hc as [Hr _ _ Hl].
  unfold minCapacity, zlen in *. pose proof (Z.mod_pos_bound n (capacity r)). lia.
Qed.

(** Sequence numbers less than a capacity apart use different slots. *)
Lemma mod_window_inj a b c : 0 < c -> a mod c = b mod c -> - c < a - b < c -> a = b.
Proof.
  intros Hc He Hd.
  pose proof (Z.div_mod a c ltac:(lia)). pose proof (Z.div_mod b c ltac:(lia)).
  assert (a / c - b / c = 0) by nia. assert (a / c = b / c) as Hq by lia.
  rewrite Hq, He in *. lia.
Qed.

Lemma slot_index_inj r a b :
  config_ok r -> - capacity r < a - b < capacity r ->
  slot_index r (u64 a) = slot_index r (u64 b) -> a = b.
Proof.
  intros Hc Hd He. apply (f_equal Z.of_nat) in He. rewrite !slot_index_mod in He by done.
  eapply mod_window_inj; [|exact He|lia]. lia.
Qed.

Lemma depth_small T H : 0 <= T - H < 2 ^ 64 -> (u64 T -₆₄ u64 H)%word = T - H.
Proof. intros. rewrite u64_sub_lr. now apply u64_id. Qed.

(** ** Abstract specification: a bounded FIFO queue

    [represents r q H]: ring [r] holds exactly the descriptors [q], oldest
    first, its head at the unbounded sequence number [H]. *)

Record represents (r : Ring) (q : list Descriptor) (H : Z) : Prop := {
  rep_config : config_ok r;
  rep_head : head r = u64 H;
  rep_tail : tail r = u64 (H + zlen q);
  rep_bound : zlen q <= capacity r;
  rep_slots : forall i d, q !! i = Some d ->
    slots r !! slot_index r (u64 (H + Z.of_nat i)) = Some d
}.

Lemma rep_depth r q H : represents r q H -> (tail r -₆₄ head r)%word = zlen q.
Proof.
  intros [Hc Hh Ht Hb _]. rewrite Hh, Ht, depth_small; [lia|].
  destruct Hc as [Hr _ _ _]. unfold maxCapacity, zlen in *. lia.
Qed.

Lemma config_set_slot r i d : config_ok r -> config_ok (set_slot i d r).
Proof. intros [? ? ? ?]; constructor; simpl; auto. unfold zlen in *. now rewrite length_insert. Qed.

Lemma config_set_head r h : config_ok r -> config_ok (set_head h r).
Proof. intros [? ? ? ?]; constructor; simpl; auto. Qed.

Lemma config_set_tail r h : config_ok r -> config_ok (set_tail h r).
Proof. intros [? ? ? ?]; constructor; simpl; auto. Qed.

#[local] Hint Resolve config_set_slot config_set_head config_set_tail : styx.

(** Writing the slot at the tail of a ring with room disturbs no element. *)
Lemma rep_write_tail_slot r q H d :
  represents r q H -> zlen q < capacity r ->
  represents (set_slot (slot_index r (u64 (H + zlen q))) d r) q H.
Proof.
  intros [Hc Hh Ht Hb Hs] Hlt. constructor; simpl; auto with styx.
  intros i e Hi. change (slot_index (set_slot ?j d r)) with (slot_index r).
  rewrite list_lookup_insert_ne; [auto|].
  intros He. apply slot_index_inj in He; [|done|]; apply lookup_lt_Some in Hi;
    unfold zlen in *; lia.
Qed.

Lemma rep_publish r q H d :
  represents r q H -> zlen q < capacity r ->
  slots r !! slot_index r (u64 (H + zlen q)) = Some d ->
  represents (set_tail (u64 (H + zlen q) +₆₄ 1)%word r) (q ++ [d]) H.
Proof.
  intros [Hc Hh Ht Hb Hs] Hlt Hd. constructor; simpl; auto with styx.
  - rewrite u64_add_l. unfold zlen in *. rewrite length_app. simpl. f_equal; lia.
  - unfold zlen in *. rewrite length_app. simpl. lia.
  - intros i e Hi. change (slot_index (set_tail ?t r)) with (slot_index r).
    apply lookup_snoc_Some in Hi as [[? ?]|[-> <-]]; auto.
Qed.

Lemma rep_advance r q H d :
  represents r (d :: q) H -> represents (set_head (u64 H +₆₄ 1)%word r) q (H + 1).
Proof.
  intros [Hc Hh Ht Hb Hs]. unfold zlen in *; simpl in *. constructor; simpl; auto with styx.
  - now rewrite u64_add_l.
  - rewrite Ht. f_equal. unfold zlen. lia.
  - unfold zlen. lia.
  - intros i e Hi. change (slot_index (set_head ?t r)) with (slot_index r).
    replace (H + 1 + Z.of_nat i) with (H + Z.of_nat (S i)) by lia. now apply (Hs (S i)).
Qed.

Lemma rep_front r q H d :
  represents r (d :: q) H -> slots r !! slot_index r (u64 H) = Some d.
Proof. intros [_ _ _ _ Hs]. specialize (Hs 0%nat d eq_refl). now rewrite Z.add_0_r in Hs. Qed.

Lemma push_check_rep r q H :
  represents r q H ->
  push_check (capacity r) (head r) (tail r) =
    if zlen q =? capacity r then Some ErrFull else None.
Proof.
  intros Hr. unfold push_check. rewrite (rep_depth r q H Hr).
  pose proof (rep_bound _ _ _ Hr). destruct (Z.ltb_spec (capacity r) (zlen q)); [lia|done].
Qed.

Lemma peek_check_rep r q H :
  represents r q H ->
  peek_check (capacity r) (head r) (tail r) = match q with [] => PeekEmpty | _ => PeekOK end.
Proof.
  intros Hr. unfold peek_check. rewrite (rep_depth r q H Hr).
  pose proof (rep_bound _ _ _ Hr). destruct (Z.ltb_spec (capacity r) (zlen q)); [lia|].
  destruct q; [done|]. unfold zlen; simpl.
  destruct (Z.eqb_spec (Z.pos (Pos.of_succ_nat (length q))) 0); [lia|done].
Qed.

(** ** Sequential refinement *)

(** C18: [Push], [Pop] and the advisory queries implement a bounded FIFO queue.
    On a ring that holds [q], [Push d] appends [d], or reports [ErrFull] and
    changes nothing when [q] already has [capacity] elements; [Pop] removes
    the oldest descriptor, or reports false on the empty ring; [Len] is the
    exact length, at any position of the sequence words, their wrap included. *)
Theorem ring_refines_queue r q H :
  represents r q H ->
  (forall d, zlen q < capacity r ->
     exists r', Push d r = Ok r' /\ represents r' (q ++ [d]) H) /\
  (forall d, zlen q = capacity r -> Push d r = Err ErrFull) /\
  (forall d q', q = d :: q' ->
     Peek r = Ok (d, PeekOK) /\
     exists r', Pop r = Ok (r', d, true) /\ represents r' q' (H + 1)) /\
  (q = [] -> Pop r = Ok (r, zeroDescriptor, false)) /\
  Len r = zlen q /\ Full r = (zlen q =? capacity r) /\ Empty r = (zlen q =? 0).
Proof.
  intros Hr. pose proof (rep_config _ _ _ Hr) as Hc. pose proof (rep_depth _ _ _ Hr) as Hd.
  split_and!.
  - intros d Hlt. unfold Push. rewrite (push_check_rep r q H Hr).
    destruct (Z.eqb_spec (zlen q) (capacity r)); [lia|].
    rewrite (rep_tail _ _ _ Hr), decide_True by now apply slot_index_lt.
    eexists; split; [done|].
    apply (rep_publish (set_slot (slot_index r (u64 (H + zlen q))) d r)); auto.
    + now apply rep_write_tail_slot.
    + simpl. rewrite list_lookup_insert_eq; [done|now apply slot_index_lt].
  - intros d He. unfold Push. rewrite (push_check_rep r q H Hr), He, Z.eqb_refl. done.
  - intros d q' ->.
    assert (Hp : Peek r = Ok (d, PeekOK)).
    { unfold Peek. rewrite (peek_check_rep _ _ _ Hr), (rep_head _ _ _ Hr).
      now rewrite (rep_front _ _ _ _ Hr). }
    split; [done|]. unfold Pop. rewrite Hp. simpl. eexists; split; [done|].
    unfold Advance. rewrite (rep_head _ _ _ Hr). now apply (rep_advance r q' H d).
  - intros ->. unfold Pop, Peek. now rewrite (peek_check_rep _ _ _ Hr).
  - done.
  - unfold Full, Len. now rewrite Hd.
  - unfold Empty, Len. now rewrite Hd.
Qed.

(** A 64-slot ring whose words are about to wrap, holding one descriptor. *)
Definition wrap_ring : Ring :=
  mkRing (<[63%nat := SetCallID 7 zeroDescriptor]> (replicate 64 zeroDescriptor))
    (2 ^ 64 - 1) 0 63 64.

Lemma wrap_ring_represents : represents wrap_ring [SetCallID 7 zeroDescriptor] (2 ^ 64 - 1).
Proof.
  constructor; [constructor; vm_compute; first [reflexivity|split; discriminate]|..].
  1-2: reflexivity.
  1: vm_compute; discriminate.
  intros [|i] d Hd; [|done]. injection Hd as <-. vm_compute. reflexivity.
Qed.

Lemma ring_refines_queue_witness :
  let d7 := SetCallID 7 zeroDescriptor in
  let d8 := SetCallID 8 zeroDescriptor in
  exists r', Push d8 wrap_ring = Ok r' /\ represents r' [d7; d8] (2 ^ 64 - 1) /\ Len r' = 2.
Proof.
  destruct (ring_refines_queue wrap_ring _ _ wrap_ring_represents) as (Hpush & _).
  destruct (Hpush (SetCallID 8 zeroDescriptor)) as (r' & H1 & H2); [vm_compute; done|].
  exists r'. split_and!; [exact H1|exact H2|].
  destruct (ring_refines_queue r' _ _ H2) as (_ & _ & _ & _ & Hl & _). exact Hl.
Defined.

(** Hostile words.  Whatever 64-bit values the peer leaves in the shared
    head and tail words, [Push] and [Peek] never index outside the slots; both
    report corruption exactly when the unsigned depth exceeds the capacity,
    [Push] reports [ErrFull] exactly at the capacity, and [Peek] reads a slot
    exactly for a depth in [1, capacity]. *)
Theorem ring_hostile_words r d :
  config_ok r -> is_u64 (head r) -> is_u64 (tail r) ->
  Push d r <> Panic /\ Peek r <> Panic /\
  (Push d r = Err ErrCorrupt <-> capacity r < Len r) /\
  (Push d r = Err ErrFull <-> Len r = capacity r) /\
  (Peek r = Ok (zeroDescriptor, PeekCorrupt) <-> capacity r < Len r) /\
  ((exists e, Peek r = Ok (e, PeekOK)) <-> 1 <= Len r <= capacity r).
Proof.
  intros Hc Hh Ht.
  assert (Hi : forall n, is_u64 n -> (slot_index r n < length (slots r))%nat).
  { intros n Hn. rewrite <- (u64_id n Hn). now apply slot_index_lt. }
  pose proof (u64_range (tail r - head r)) as Hd. unfold is_u64 in Hd.
  unfold Push, Peek, push_check, peek_check, Len.
  rewrite decide_True by auto.
  destruct (lookup_lt_is_Some_2 (slots r) (slot_index r (head r)) (Hi _ Hh)) as [e He].
  rewrite He. pose proof (cap_range r Hc). unfold minCapacity in *.
  destruct (Z.ltb_spec (capacity r) (u64 (tail r - head r))),
    (Z.eqb_spec (u64 (tail r - head r)) (capacity r)),
    (Z.eqb_spec (u64 (tail r - head r)) 0); split_and!; try lia; try done;
    split; intros; try lia; try done; naive_solver.
Qed.

Lemma ring_hostile_words_witness :
  let r := set_head 5 wrap_ring in
  Push zeroDescriptor r = Err ErrCorrupt /\ Peek r = Ok (zeroDescriptor, PeekCorrupt).
Proof.
  destruct (ring_hostile_words (set_head 5 wrap_ring) zeroDescriptor)
    as (_ & _ & H1 & _ & H2 & _).
  - apply config_set_head, (rep_config _ _ _ wrap_ring_represents).
  - vm_compute. split; [discriminate|reflexivity].
  - vm_compute. split; [discriminate|reflexivity].
  - split; [apply H1|apply H2]; vm_compute; reflexivity.
Defined.

(** ** Interleaving

    One producer and one consumer, each at a point between two shared
    accesses.  [pushed] and [popped] record what the callers handed in and
    what the consumer read, each at its linearisation point. *)

Inductive producer_pc :=
| PIdle
| PLoadTail (d : Descriptor) (h : Z)          (* head loaded *)
| PCheck (d : Descriptor) (h t : Z)           (* both words loaded *)
| PWriting (d : Descriptor) (t : Z)           (* the 64-byte slot write *)
| PStoreTail (d : Descriptor) (t : Z).        (* slot written *)

Inductive consumer_pc :=
| CIdle
| CLoadTail (h : Z)
| CCheck (h t : Z)
| CReading (h : Z)                            (* the 64-byte slot read *)
| CPeeked (d : Descriptor)                    (* Peek returned PeekOK *)
| CStoreHead (d : Descriptor) (h : Z).        (* Advance loaded the head *)

Inductive event :=
| EPush (res : option ringError)
| EPeek (st : PeekStatus).

Record sys := mkSys {
  ring : Ring;
  prod : producer_pc;
  cons : consumer_pc;
  pushed : list Descriptor;
  popped : list Descriptor;
  events : list event
}.

Inductive step : sys -> sys -> Prop :=
| step_push_load_head d r c pu po ev :
    step (mkSys r PIdle c pu po ev) (mkSys r (PLoadTail d (head r)) c pu po ev)
| step_push_load_tail d h r c pu po ev :
    step (mkSys r (PLoadTail d h) c pu po ev) (mkSys r (PCheck d h (tail r)) c pu po ev)
| step_push_fail d h t e r c pu po ev :
    push_check (capacity r) h t = Some e ->
    step (mkSys r (PCheck d h t) c pu po ev)
         (mkSys r PIdle c pu po (ev ++ [EPush (Some e)]))
| step_push_begin_write d h t r c pu po ev :
    push_check (capacity r) h t = None ->
    step (mkSys r (PCheck d h t) c pu po ev) (mkSys r (PWriting d t) c pu po ev)
| step_push_torn_write d t x r c pu po ev :
    (* part of the slot is written: it may hold any bytes *)
    step (mkSys r (PWriting d t) c pu po ev)
         (mkSys (set_slot (slot_index r t) x r) (PWriting d t) c pu po ev)
| step_push_end_write d t r c pu po ev :
    step (mkSys r (PWriting d t) c pu po ev)
         (mkSys (set_slot (slot_index r t) d r) (PStoreTail d t) c pu po ev)
| step_push_store_tail d t r c pu po ev :
    step (mkSys r (PStoreTail d t) c pu po ev)
         (mkSys (set_tail (t +₆₄ 1)%word r) PIdle c (pu ++ [d]) po (ev ++ [EPush None]))
| step_peek_load_head r p pu po ev :
    step (mkSys r p CIdle pu po ev) (mkSys r p (CLoadTail (head r)) pu po ev)
| step_peek_load_tail h r p pu po ev :
    step (mkSys r p (CLoadTail h) pu po ev) (mkSys r p (CCheck h (tail r)) pu po ev)
| step_peek_none h t st r p pu po ev :
    peek_check (capacity r) h t = st -> st <> PeekOK ->
    step (mkSys r p (CCheck h t) pu po ev) (mkSys r p CIdle pu po (ev ++ [EPeek st]))
| step_peek_begin_read h t r p pu po ev :
    peek_check (capacity r) h t = PeekOK ->
    step (mkSys r p (CCheck h t) pu po ev) (mkSys r p (CReading h) pu po ev)
| step_peek_end_read h d r p pu po ev :
    slots r !! slot_index r h = Some d ->
    step (mkSys r p (CReading h) pu po ev)
         (mkSys r p (CPeeked d) pu po (ev ++ [EPeek PeekOK]))
| step_peek_again d r p pu po ev :
    (* the caller keeps the slot: a later Peek sees the same head *)
    step (mkSys r p (CPeeked d) pu po ev) (mkSys r p CIdle pu po ev)
| step_advance_load d r p pu po ev :
    step (mkSys r p (CPeeked d) pu po ev) (mkSys r p (CStoreHead d (head r)) pu po ev)
| step_advance_store d h r p pu po ev :
    step (mkSys r p (CStoreHead d h) pu po ev)
         (mkSys (set_head (h +₆₄ 1)%word r) p CIdle pu (po ++ [d]) ev).

(** An empty ring anywhere in the sequence space. *)
Definition initial (s : sys) : Prop :=
  config_ok (ring s) /\ prod s = PIdle /\ cons s = CIdle /\
  pushed s = [] /\ popped s = [] /\ events s = [] /\
  head (ring s) = tail (ring s) /\ is_u64 (head (ring s)).

(** The producer's last head observation [H0] may lag the head [H]. *)
Definition producer_inv (r : Ring) (q : list Descriptor) (H : Z) (p : producer_pc) : Prop :=
  match p with
  | PIdle => True
  | PLoadTail _ h => exists H0, h = u64 H0 /\ H0 <= H /\ H + zlen q <= H0 + capacity r
  | PCheck _ h t =>
      t = u64 (H + zlen q) /\
      exists H0, h = u64 H0 /\ H0 <= H /\ H + zlen q <= H0 + capacity r
  | PWriting _ t => t = u64 (H + zlen q) /\ zlen q < capacity r
  | PStoreTail d t =>
      t = u64 (H + zlen q) /\ zlen q < capacity r /\ slots r !! slot_index r t = Some d
  end.

Definition consumer_inv (q : list Descriptor) (H : Z) (c : consumer_pc) : Prop :=
  match c with
  | CIdle => True
  | CLoadTail h => h = u64 H
  | CCheck h t => h = u64 H /\ exists n, t = u64 (H + n) /\ 0 <= n <= zlen q
  | CReading h => h = u64 H /\ q <> []
  | CPeeked d => exists q', q = d :: q'
  | CStoreHead d h => h = u64 H /\ exists q', q = d :: q'
  end.

Record inv (s : sys) (q : list Descriptor) (H : Z) : Prop := {
  inv_rep : represents (ring s) q H;
  inv_fifo : pushed s = popped s ++ q;
  inv_prod : producer_inv (ring s) q H (prod s);
  inv_cons : consumer_inv q H (cons s);
  inv_events : ~ In (EPush (Some ErrCorrupt)) (events s) /\ ~ In (EPeek PeekCorrupt) (events s)
}.

Lemma not_in_snoc {A} (x y : A) l : ~ In x l -> x <> y -> ~ In x (l ++ [y]).
Proof. intros ? ? Hi. apply in_app_iff in Hi. simpl in Hi. naive_solver. Qed.

Lemma inv_initial s : initial s -> exists H, inv s [] H.
Proof.
  destruct s as [r p c pu po ev]. unfold initial; simpl.
  intros (Hc & -> & -> & -> & -> & -> & Hh & Hu). exists (head r).
  constructor; simpl; auto. constructor; auto; simpl.
  - now rewrite u64_id.
  - rewrite Z.add_0_r, <- Hh. now rewrite u64_id.
  - pose proof (cap_range r Hc). unfold minCapacity, zlen in *. simpl. lia.
  - done.
Qed.

Lemma push_check_lagging r (q : list Descriptor) H H0 :
  config_ok r -> H0 <= H -> H + zlen q <= H0 + capacity r ->
  push_check (capacity r) (u64 H0) (u64 (H + zlen q)) =
    if H + zlen q - H0 =? capacity r then Some ErrFull else None.
Proof.
  intros Hc Hle Hb. pose proof (cap_range r Hc). unfold minCapacity, maxCapacity, zlen in *.
  unfold push_check. rewrite depth_small by lia.
  case_test; bool_to_prop; [lia|done].
Qed.

Lemma peek_check_early r q H n :
  represents r q H -> 0 <= n <= zlen q ->
  peek_check (capacity r) (u64 H) (u64 (H + n)) = if n =? 0 then PeekEmpty else PeekOK.
Proof.
  intros Hr Hn. pose proof (cap_range r (rep_config _ _ _ Hr)). pose proof (rep_bound _ _ _ Hr).
  unfold minCapacity, maxCapacity in *. unfold peek_check. rewrite depth_small by lia.
  replace (H + n - H) with n by lia. case_test; bool_to_prop; [lia|done].
Qed.

(** The consumer's facts survive a publication. *)
Lemma consumer_inv_snoc q H c d : consumer_inv q H c -> consumer_inv (q ++ [d]) H c.
Proof.
  destruct c; simpl; auto.
  - intros (? & n & ? & ?). split; [done|]. exists n. unfold zlen in *. rewrite length_app. simpl. lia.
  - intros [? Hq]. split; [done|]. by destruct q.
  - intros [q' ->]. by eexists.
  - intros (? & q' & ->). split; [done|]. by eexists.
Qed.

(** The producer's facts survive a head advance. *)
Lemma producer_inv_advance r q H d p h :
  producer_inv r (d :: q) H p -> producer_inv (set_head h r) q (H + 1) p.
Proof.
  unfold zlen.
  destruct p; simpl; unfold zlen; simpl; auto.
  - intros (H0 & ? & ? & ?). exists H0. lia.
  - intros (-> & H0 & ? & ? & ?). split; [f_equal; lia|]. exists H0. lia.
  - intros (-> & ?). split; [f_equal; lia|lia].
  - intros (-> & ? & ?). split_and!; [f_equal; lia|lia|done].
Qed.

Lemma inv_step s s' q H : inv s q H -> step s s' -> exists q' H', inv s' q' H'.
Proof.
  intros [Hr Hf Hp Hc [He1 He2]] Hs. pose proof (rep_config _ _ _ Hr) as Hcfg.
  destruct Hs; simpl in *;
    try (exists q, H; constructor; simpl; auto; fail).
  - (* head loaded *) exists q, H. constructor; simpl; auto.
    exists H. rewrite (rep_head _ _ _ Hr). pose proof (rep_bound _ _ _ Hr). lia.
  - exists q, H. constructor; simpl; auto. split; [apply (rep_tail _ _ _ Hr)|done].
  - (* failed push *) destruct Hp as (-> & K & -> & ? & ?). exists q, H.
    rewrite push_check_lagging in * by done. case_match; simplify_eq.
    constructor; simpl; auto. split; apply not_in_snoc; auto.
  - destruct Hp as (-> & K & -> & ? & ?). exists q, H.
    rewrite push_check_lagging in * by done. case_match; simplify_eq. bool_to_prop.
    constructor; simpl; auto. split; [done|]. lia.
  - (* torn write *) destruct Hp as [-> ?]. exists q, H.
    constructor; simpl; auto using rep_write_tail_slot.
  - destruct Hp as [-> ?]. exists q, H.
    constructor; simpl; auto using rep_write_tail_slot.
    split_and!; auto. rewrite list_lookup_insert_eq; [done|now apply slot_index_lt].
  - (* publication *) destruct Hp as (-> & ? & ?). exists (q ++ [d]), H.
    constructor; simpl; auto using rep_publish, consumer_inv_snoc.
    + now rewrite Hf, app_assoc.
    + split; apply not_in_snoc; auto.
  - exists q, H. constructor; simpl; auto. apply (rep_head _ _ _ Hr).
  - exists q, H. constructor; simpl; auto. split; [done|].
    exists (zlen q). rewrite (rep_tail _ _ _ Hr). unfold zlen. lia.
  - destruct Hc as (-> & n & -> & ?). exists q, H.
    rewrite (peek_check_early r q H) in * by done.
    constructor; simpl; auto. split; apply not_in_snoc; auto.
    case_match; subst; done.
  - destruct Hc as (-> & n & -> & Hn). exists q, H.
    rewrite (peek_check_early r q H) in * by done.
    constructor; simpl; auto. split; [done|].
    case_match; simplify_eq. bool_to_prop. intros ->. unfold zlen in Hn. simpl in Hn. lia.
  - destruct Hc as (-> & Hq). destruct q as [|d0 q]; [done|]. exists (d0 :: q), H.
    rewrite (rep_front _ _ _ _ Hr) in *. simplify_eq.
    constructor; simpl; auto; [by eexists|]. split; apply not_in_snoc; auto.
  - exists q, H. constructor; simpl; auto. split; [apply (rep_head _ _ _ Hr)|done].
  - (* release *) destruct Hc as (-> & q' & ->). exists q', (H + 1).
    constructor; simpl; auto.
    + now apply (rep_advance r q' H d).
    + now rewrite Hf, <- app_assoc.
    + eapply producer_inv_advance; eauto.
Qed.

Lemma inv_reachable s0 s : initial s0 -> rtc step s0 s -> exists q H, inv s q H.
Proof.
  intros Hi Hs. apply inv_initial in Hi as [H0 Hi].
  assert (exists q H, inv s0 q H) as Hex by eauto. clear Hi.
  induction Hs as [|s0 s1 s Hst _ IH]; [done|].
  destruct Hex as (q & H & Hq). apply IH. eapply inv_step; eauto.
Qed.

(** The step relation run by the producer alone is [Push], and run by the
    consumer alone is [Pop]. *)
Lemma Push_steps d r r' c pu po ev :
  Push d r = Ok r' ->
  rtc step (mkSys r PIdle c pu po ev)
           (mkSys r' PIdle c (pu ++ [d]) po (ev ++ [EPush None])).
Proof.
  unfold Push. intros Hp. destruct (push_check _ _ _) eqn:Hk; [done|].
  case_decide; simplify_eq.
  eapply rtc_l; [apply (step_push_load_head d)|].
  eapply rtc_l; [apply step_push_load_tail|].
  eapply rtc_l; [apply step_push_begin_write, Hk|].
  eapply rtc_l; [apply step_push_end_write|].
  eapply rtc_l; [apply step_push_store_tail|]. apply rtc_refl.
Qed.

Lemma Pop_steps d r r' p pu po ev :
  Pop r = Ok (r', d, true) ->
  rtc step (mkSys r p CIdle pu po ev)
           (mkSys r' p CIdle pu (po ++ [d]) (ev ++ [EPeek PeekOK])).
Proof.
  unfold Pop, Peek. intros Hp. destruct (peek_check _ _ _) eqn:Hk; simpl in Hp; try done.
  destruct (slots r !! _) eqn:Hs; simpl in Hp; simplify_eq.
  eapply rtc_l; [apply step_peek_load_head|].
  eapply rtc_l; [apply step_peek_load_tail|].
  eapply rtc_l; [apply step_peek_begin_read, Hk|].
  eapply rtc_l; [apply step_peek_end_read, Hs|].
  eapply rtc_l; [apply step_advance_load|].
  eapply rtc_l; [apply step_advance_store|]. apply rtc_refl.
Qed.

Definition start_ring (h : Z) : sys :=
  mkSys (mkRing (replicate 64 zeroDescriptor) h h 63 64) PIdle CIdle [] [] [].

Lemma start_ring_initial h : is_u64 h -> initial (start_ring h).
Proof.
  intros Hh. split_and!; done.
Qed.

(** One push followed by one pop, across the wrap of the words. *)
Lemma start_ring_run :
  rtc step (start_ring (2 ^ 64 - 1))
    (mkSys (mkRing (<[63%nat := SetCallID 7 zeroDescriptor]> (replicate 64 zeroDescriptor))
              0 0 63 64) PIdle CIdle
       [SetCallID 7 zeroDescriptor] [SetCallID 7 zeroDescriptor] [EPush None; EPeek PeekOK]).
Proof.
  etransitivity.
  - apply (Push_steps (SetCallID 7 zeroDescriptor)). reflexivity.
  - apply (Pop_steps (SetCallID 7 zeroDescriptor) _ _ PIdle _ [] [EPush None]).
    vm_compute. reflexivity.
Qed.

(** The slot the producer writes is neither being read nor in flight. *)
Lemma write_race_free s0 s d t :
  initial s0 -> rtc step s0 s -> prod s = PWriting d t ->
  (forall h, cons s = CReading h -> slot_index (ring s) t <> slot_index (ring s) h) /\
  (forall n, (length (popped s) <= n < length (pushed s))%nat ->
     slot_index (ring s) t <>
     slot_index (ring s) (u64 (head (ring s) + Z.of_nat (n - length (popped s))))).
Proof.
  intros Hi Hs Hp. destruct (inv_reachable s0 s Hi Hs) as (q & H & [Hr Hf Hpi Hc _]).
  rewrite Hp in Hpi. destruct Hpi as [-> Hlt]. pose proof (rep_config _ _ _ Hr) as Hcfg.
  split.
  - intros h Hh He. rewrite Hh in Hc. destruct Hc as [-> Hq].
    destruct q; [done|]. apply slot_index_inj in He; [|done|]; unfold zlen in *; simpl in *; lia.
  - intros n Hn He. rewrite (rep_head _ _ _ Hr), u64_add_l in He.
    rewrite Hf, length_app in Hn.
    apply slot_index_inj in He; [|done|]; unfold zlen in *; lia.
Qed.

(** C1: FIFO under every interleaving.  Starting from an empty ring at any
    sequence number, after any interleaving of the producer's and the
    consumer's shared accesses, torn slot writes included: what the consumer
    took is a prefix of what the producer published, in order, without loss or
    duplication; at most [capacity] descriptors are in flight; a descriptor
    [Peek] returned is the oldest one in flight; neither side ever reports
    corruption; and the slot the producer is writing is neither the one the
    consumer is reading nor one in flight, so the plain 64-byte copies need no
    atomicity of their own. *)
Theorem ring_interleavings_fifo s0 s :
  initial s0 -> rtc step s0 s ->
  (exists q, pushed s = popped s ++ q /\ zlen q <= capacity (ring s)) /\
  (forall d, cons s = CPeeked d -> pushed s !! length (popped s) = Some d) /\
  (~ In (EPush (Some ErrCorrupt)) (events s) /\ ~ In (EPeek PeekCorrupt) (events s)) /\
  forall d t, prod s = PWriting d t ->
    (forall h, cons s = CReading h -> slot_index (ring s) t <> slot_index (ring s) h) /\
    (forall n, (length (popped s) <= n < length (pushed s))%nat ->
       slot_index (ring s) t <>
       slot_index (ring s) (u64 (head (ring s) + Z.of_nat (n - length (popped s))))).
Proof.
  intros Hi Hs. pose proof (fun d t => write_race_free s0 s d t Hi Hs) as Hrace. destruct (inv_reachable s0 s Hi Hs) as (q & H & [Hr Hf _ Hc He]).
  split; [exists q; split; [done|apply (rep_bound _ _ _ Hr)]|]. split; [|split; [done|exact Hrace]].
  intros d Hd. rewrite Hd in Hc. destruct Hc as [q' ->]. rewrite Hf.
  now rewrite list_lookup_middle.
Qed.

Lemma ring_interleavings_fifo_witness :
  exists s, rtc step (start_ring (2 ^ 64 - 1)) s /\ length (popped s) = 1%nat /\
    ~ In (EPeek PeekCorrupt) (events s).
Proof.
  eexists. split; [exact start_ring_run|]. split; [reflexivity|].
  eapply proj2, proj1, proj2, proj2, (ring_interleavings_fifo _ _ (start_ring_initial (2 ^ 64 - 1) ltac:(unfold is_u64; lia))
    start_ring_run).
Defined.

End Ring.
