(* ===== verification/RegionLayout.v ===== *)
(** * The region layout (src/internal/shm/layout.go, region.go, generation.go)

    Derivation of a region's geometry from host-chosen inputs, the bytes of
    the layout page, the two-phase attach that validates an untrusted region,
    and the region's life cycle.  A mapping is its list of bytes; every slice
    expression that can panic does so in the model.  The theorems show that a
    created region attaches to exactly the layout it was created from, that an
    accepted layout is contiguous, aligned and covering, and that validation
    of a hostile page never panics. *)

From Stdlib Require Import Sorting.Sorted.
From S2P Require Import Prelude.

Module Layout.

Definition PageSize : Z := 4096.
Definition CacheLine : Z := 64.
Definition DescriptorSize : Z := 64.
Definition LayoutPageSize : Z := PageSize.
Definition SyncPageSize : Z := PageSize.

Inductive regionError := ErrAttachRejected | ErrBadGeometry | ErrSys.

#[global] Instance regionError_eq_dec : EqDecision regionError.
Proof. solve_decision. Defined.

Notation result := (outcome regionError).

(** ** Header field offsets *)

Definition offMagic : Z := 0.
Definition offLayoutVersion : Z := 8.
Definition offHeaderFlags : Z := 12.
Definition offGeneration : Z := 16.
Definition offRegionSize : Z := 24.
Definition offPageSize : Z := 32.
Definition offDescriptorSize : Z := 36.
Definition offRingCapacity : Z := 40.
Definition offNumClassesHP : Z := 44.
Definition offNumClassesPH : Z := 48.
Definition offReservedU32 : Z := 52.
Definition offSyncPageOffset : Z := 56.
Definition offRingHPOffset : Z := 64.
Definition offRingPHOffset : Z := 72.
Definition offArenaHPOffset : Z := 80.
Definition offArenaPHOffset : Z := 88.
Definition offArenaBytesHP : Z := 96.
Definition offArenaBytesPH : Z := 104.
Definition offClassTableHPOffset : Z := 112.
Definition offClassTablePHOffset : Z := 120.
Definition offShardCount : Z := 128.
Definition offLifecycleReserve : Z := 136.
Definition offReservedHdr : Z := 140.
Definition reservedHdrSize : Z := 116.
Definition headerSize : Z := 256.

Definition sizeClassEntrySize : Z := 16.
Definition offSizeClassSlabSize : Z := 0.
Definition offSizeClassSlabCount : Z := 4.
Definition offSizeClassBaseOffset : Z := 8.
Definition offSizeClassReserved : Z := 12.

Definition syncPageReservedTailOffset : Z := 512.
Definition classTableRecommendedOffset : Z := headerSize.

(** "STYXSHMR" *)
Definition layoutMagic : list Z := [83; 84; 89; 88; 83; 72; 77; 82].

Definition minRingCapacity : Z := 64.
Definition maxRingCapacity : Z := 2 ^ 20.
Definition maxArenaBytes : Z := MaxUint32.
Definition maxRegionSize : Z := 2 ^ 40.
Definition minRegionSize : Z := 2 * PageSize.
Definition minLargestSlabSize : Z := 4096.

(** ** Decoded geometry *)

Record SizeClass := mkSizeClass { SlabSize : Z; SlabCount : Z; ClassBaseOffset : Z }.

#[global] Instance SizeClass_eq_dec : EqDecision SizeClass.
Proof. solve_decision. Defined.

Record ArenaGeometry := mkArenaGeometry {
  Offset : Z; Bytes : Z; ClassTableOffset : Z; Classes : list SizeClass
}.

(** The two direction-indexed arrays are a field per direction. *)
Record Layout := mkLayout {
  Magic : list Z;
  LayoutVersion : Z;
  HeaderFlags : Z;
  Generation : Z;
  RegionSize : Z;
  RingCapacity : Z;
  LifecycleReserve : Z;
  SyncPageOffset : Z;
  RingHP : Z;
  RingPH : Z;
  ArenaHP : ArenaGeometry;
  ArenaPH : ArenaGeometry
}.

Record derivedGeometry := mkDerived {
  syncPageOffset : Z;
  ringHPOffset : Z;
  ringPHOffset : Z;
  arenaHPOffset : Z;
  arenaPHOffset : Z;
  arenaBytesHP : Z;
  arenaBytesPH : Z;
  regionSize : Z
}.

(** [Generation.Truncated] and [Generation.Stale]. *)
Definition Truncated (g : Z) : Z := u32 g.
Definition Stale (g stamp : Z) : bool := negb (Truncated g =? stamp).

(** ** Overflow-safe derivation *)

Definition addOverflowSafe (sum addend : Z) : result Z :=
  let r := (sum +₆₄ addend)%word in
  if r <? sum then Err ErrBadGeometry else Ok r.

Definition roundupPageSize (n : Z) : result Z :=
  let rem := n mod PageSize in
  if rem =? 0 then Ok n else addOverflowSafe n (PageSize - rem).

Definition validateRingCapacity (c : Z) : result unit :=
  if (c <? minRingCapacity) || (maxRingCapacity <? c) then Err ErrBadGeometry else
  if negb (Z.land c (u32 (c - 1)) =? 0) then Err ErrBadGeometry else Ok tt.

Definition validateLifecycleReserve (r ringCapacity : Z) : result unit :=
  if (r =? 0) || (ringCapacity <=? r) then Err ErrBadGeometry else Ok tt.

(** The loop of [validateSlabBounds]; [i] is the class index. *)
Fixpoint slab_bounds_loop (i : nat) (prevSlabSize : Z) (classes : list SizeClass) : result unit :=
  match classes with
  | [] => Ok tt
  | c :: rest =>
      if (SlabSize c =? 0) || negb (SlabSize c mod CacheLine =? 0) then Err ErrBadGeometry else
      if (0 <? i)%nat && (SlabSize c <=? prevSlabSize) then Err ErrBadGeometry else
      if SlabCount c =? 0 then Err ErrBadGeometry else
      slab_bounds_loop (S i) (SlabSize c) rest
  end.

Definition validateSlabBounds (classes : list SizeClass) : result unit :=
  match last classes with
  | None => Err ErrBadGeometry
  | Some lst =>
      let! _ := slab_bounds_loop 0 0 classes in
      if SlabSize lst <? minLargestSlabSize then Err ErrBadGeometry else Ok tt
  end.

Fixpoint class_bases_loop (base : Z) (classes : list SizeClass) : result (list Z * Z) :=
  match classes with
  | [] => Ok ([], base)
  | c :: rest =>
      let extent := u64 (SlabSize c * SlabCount c) in
      let! base' := addOverflowSafe base extent in
      let! (bases, total) := class_bases_loop base' rest in
      Ok (base :: bases, total)
  end.

Definition computeClassBaseOffsets (classes : list SizeClass) : result (list Z * Z) :=
  class_bases_loop 0 classes.

Definition buildArenaGeometry (classes : list SizeClass) : result (list SizeClass * Z) :=
  let! _ := validateSlabBounds classes in
  let! (bases, classTotal) := computeClassBaseOffsets classes in
  let! arenaBytes := roundupPageSize classTotal in
  if maxArenaBytes <? arenaBytes then Err ErrBadGeometry else
  Ok (zip_with (fun c b => mkSizeClass (SlabSize c) (SlabCount c) (u32 b)) classes bases,
      arenaBytes).

Definition deriveSpans (ringCapacity abHP abPH : Z) : result derivedGeometry :=
  let ringSpan := u64 (ringCapacity * DescriptorSize) in
  let sync := PageSize in
  let! rHP := addOverflowSafe sync PageSize in
  let! rPH := addOverflowSafe rHP ringSpan in
  let! aHP := addOverflowSafe rPH ringSpan in
  let! aPH := addOverflowSafe aHP abHP in
  let! size := addOverflowSafe aPH abPH in
  if maxRegionSize <? size then Err ErrBadGeometry else
  Ok (mkDerived sync rHP rPH aHP aPH abHP abPH size).

Definition DeriveLayout (layout : Layout) : result Layout :=
  let! _ := validateRingCapacity (RingCapacity layout) in
  let! _ := validateLifecycleReserve (LifecycleReserve layout) (RingCapacity layout) in
  let! (classesHP, abHP) := buildArenaGeometry (Classes (ArenaHP layout)) in
  let! (classesPH, abPH) := buildArenaGeometry (Classes (ArenaPH layout)) in
  let! spans := deriveSpans (RingCapacity layout) abHP abPH in
  let tableHP := classTableRecommendedOffset in
  let tablePH := u64 (tableHP + zlen classesHP * sizeClassEntrySize) in
  let tablesEnd := u64 (tablePH + zlen classesPH * sizeClassEntrySize) in
  if LayoutPageSize <? tablesEnd then Err ErrBadGeometry else
  Ok (mkLayout (Magic layout) (LayoutVersion layout) (HeaderFlags layout) (Generation layout)
        (regionSize spans) (RingCapacity layout) (LifecycleReserve layout)
        (syncPageOffset spans) (ringHPOffset spans) (ringPHOffset spans)
        (mkArenaGeometry (arenaHPOffset spans) abHP tableHP classesHP)
        (mkArenaGeometry (arenaPHOffset spans) abPH tablePH classesPH)).

(** ** Writing the layout page

    A write is an offset and its bytes: [PutUintN(data[off:], v)] needs the
    whole width in range and panics otherwise. *)

Definition put_at (data : list Z) (w : Z * list Z) : result (list Z) :=
  let (off, bs) := w in
  if (0 <=? off) && (off + zlen bs <=? zlen data)
  then Ok (put_bytes (Z.to_nat off) bs data) else Panic.

Fixpoint put_all (data : list Z) (ws : list (Z * list Z)) : result (list Z) :=
  match ws with
  | [] => Ok data
  | w :: ws => let! data' := put_at data w in put_all data' ws
  end.

Definition header_writes (l : Layout) : list (Z * list Z) :=
  [(offMagic, Magic l);
   (offLayoutVersion, le_encode 4 (LayoutVersion l));
   (offHeaderFlags, le_encode 4 (HeaderFlags l));
   (offGeneration, le_encode 8 (Generation l));
   (offRegionSize, le_encode 8 (RegionSize l));
   (offPageSize, le_encode 4 PageSize);
   (offDescriptorSize, le_encode 4 DescriptorSize);
   (offRingCapacity, le_encode 4 (RingCapacity l));
   (offNumClassesHP, le_encode 4 (u32 (zlen (Classes (ArenaHP l)))));
   (offNumClassesPH, le_encode 4 (u32 (zlen (Classes (ArenaPH l)))));
   (offReservedU32, le_encode 4 0);
   (offSyncPageOffset, le_encode 8 (SyncPageOffset l));
   (offRingHPOffset, le_encode 8 (RingHP l));
   (offRingPHOffset, le_encode 8 (RingPH l));
   (offArenaHPOffset, le_encode 8 (Offset (ArenaHP l)));
   (offArenaPHOffset, le_encode 8 (Offset (ArenaPH l)));
   (offArenaBytesHP, le_encode 8 (Bytes (ArenaHP l)));
   (offArenaBytesPH, le_encode 8 (Bytes (ArenaPH l)));
   (offClassTableHPOffset, le_encode 8 (ClassTableOffset (ArenaHP l)));
   (offClassTablePHOffset, le_encode 8 (ClassTableOffset (ArenaPH l)));
   (offShardCount, le_encode 8 1);
   (offLifecycleReserve, le_encode 4 (LifecycleReserve l));
   (offReservedHdr, replicate (Z.to_nat reservedHdrSize) 0)].

(** [writeClassTable], entry [i] onwards. *)
Fixpoint class_writes (tableOff i : Z) (classes : list SizeClass) : list (Z * list Z) :=
  match classes with
  | [] => []
  | c :: rest =>
      let entryOff := tableOff + i * sizeClassEntrySize in
      (entryOff + offSizeClassSlabSize, le_encode 4 (SlabSize c)) ::
      (entryOff + offSizeClassSlabCount, le_encode 4 (SlabCount c)) ::
      (entryOff + offSizeClassBaseOffset, le_encode 4 (ClassBaseOffset c)) ::
      (entryOff + offSizeClassReserved, le_encode 4 0) ::
      class_writes tableOff (i + 1) rest
  end.

Definition writeClassTable (data : list Z) (tableOff : Z) (classes : list SizeClass) :
    result (list Z) :=
  put_all data (class_writes tableOff 0 classes).

Definition writeLayoutPage (data : list Z) (l : Layout) : result (list Z) :=
  let! d1 := put_all data (header_writes l) in
  let! d2 := writeClassTable d1 (ClassTableOffset (ArenaHP l)) (Classes (ArenaHP l)) in
  writeClassTable d2 (ClassTableOffset (ArenaPH l)) (Classes (ArenaPH l)).

(** ** Phase 2: validating an untrusted page *)

Definition readU32 (data : list Z) (off : Z) : result Z :=
  match slice off (off + 4) data with Some bs => Ok (le_decode bs) | None => Panic end.
Definition readU64 (data : list Z) (off : Z) : result Z :=
  match slice off (off + 8) data with Some bs => Ok (le_decode bs) | None => Panic end.
Definition slice_or_panic (data : list Z) (lo hi : Z) : result (list Z) :=
  match slice lo hi data with Some bs => Ok bs | None => Panic end.

Definition isZero (b : list Z) : bool := forallb (fun v => v =? 0) b.

Definition overlaps (aStart aEnd bStart bEnd : Z) : bool := (aStart <? bEnd) && (bStart <? aEnd).

Definition checkHeaderScalars (data : list Z) : result unit :=
  let! magic := slice_or_panic data offMagic (offMagic + 8) in
  if negb (bool_decide (magic = layoutMagic)) then Err ErrBadGeometry else
  let! v := readU32 data offLayoutVersion in
  if negb (v =? 1) then Err ErrBadGeometry else
  let! v := readU32 data offPageSize in
  if negb (v =? PageSize) then Err ErrBadGeometry else
  let! v := readU32 data offDescriptorSize in
  if negb (v =? DescriptorSize) then Err ErrBadGeometry else
  let! v := readU64 data offShardCount in
  if negb (v =? 1) then Err ErrBadGeometry else
  let! v := readU32 data offReservedU32 in
  if negb (v =? 0) then Err ErrBadGeometry else Ok tt.

Definition checkRingReservation (data : list Z) : result (Z * Z) :=
  let! ringCapacity := readU32 data offRingCapacity in
  let! _ := validateRingCapacity ringCapacity in
  let! lifecycleReserve := readU32 data offLifecycleReserve in
  let! _ := validateLifecycleReserve lifecycleReserve ringCapacity in
  Ok (ringCapacity, lifecycleReserve).

Definition checkOneClassTableRange (n tableOff : Z) : result unit :=
  if n <? 1 then Err ErrBadGeometry else
  if (tableOff <? headerSize) || (LayoutPageSize <=? tableOff) then Err ErrBadGeometry else
  if negb (tableOff mod 4 =? 0) then Err ErrBadGeometry else
  let tend := u64 (tableOff + n * sizeClassEntrySize) in
  if LayoutPageSize <? tend then Err ErrBadGeometry else Ok tt.

Definition checkClassTableRanges (numHP numPH offHPTable offPHTable : Z) : result unit :=
  let! _ := checkOneClassTableRange numHP offHPTable in
  let! _ := checkOneClassTableRange numPH offPHTable in
  let endHP := u64 (offHPTable + numHP * sizeClassEntrySize) in
  let endPH := u64 (offPHTable + numPH * sizeClassEntrySize) in
  if overlaps offHPTable endHP offPHTable endPH then Err ErrBadGeometry else Ok tt.

(** The decoding loop of [checkClassRules]: [n] entries from index [i]. *)
Fixpoint decode_classes (data : list Z) (tableOff i : Z) (n : nat) : result (list SizeClass) :=
  match n with
  | O => Ok []
  | S n =>
      let entryOff := tableOff + i * sizeClassEntrySize in
      let! size := readU32 data (entryOff + offSizeClassSlabSize) in
      let! count := readU32 data (entryOff + offSizeClassSlabCount) in
      let! base := readU32 data (entryOff + offSizeClassBaseOffset) in
      let! rest := decode_classes data tableOff (i + 1) n in
      Ok (mkSizeClass size count base :: rest)
  end.

Definition checkClassBaseOffsets (classes : list SizeClass) : result Z :=
  let! (bases, classTotal) := computeClassBaseOffsets classes in
  if bool_decide (map ClassBaseOffset classes = bases) then Ok classTotal
  else Err ErrBadGeometry.

Definition checkClassRules (data : list Z) (tableOff n : Z) : result (list SizeClass * Z) :=
  let! classes := decode_classes data tableOff 0 (Z.to_nat n) in
  let! _ := validateSlabBounds classes in
  let! classTotal := checkClassBaseOffsets classes in
  Ok (classes, classTotal).

Definition checkArenaTotal (classTotal storedArenaBytes : Z) : result Z :=
  let! want := roundupPageSize classTotal in
  if maxArenaBytes <? want then Err ErrBadGeometry else
  if negb (storedArenaBytes =? want) then Err ErrBadGeometry else Ok want.

(** The loop over the expected span fields. *)
Fixpoint check_fields (data : list Z) (fields : list (Z * Z)) : result unit :=
  match fields with
  | [] => Ok tt
  | (off, want) :: rest =>
      let! got := readU64 data off in
      if negb (got =? want) then Err ErrBadGeometry else check_fields data rest
  end.

Definition checkSpansAndCoverage (data : list Z) (spans : derivedGeometry) (declared : Z) :
    result unit :=
  let! _ := check_fields data
    [(offSyncPageOffset, syncPageOffset spans); (offRingHPOffset, ringHPOffset spans);
     (offRingPHOffset, ringPHOffset spans); (offArenaHPOffset, arenaHPOffset spans);
     (offArenaPHOffset, arenaPHOffset spans); (offRegionSize, regionSize spans)] in
  if negb (regionSize spans =? declared) then Err ErrBadGeometry else
  if negb (zlen data =? regionSize spans) then Err ErrBadGeometry else Ok tt.

Fixpoint entries_reserved_zero (data : list Z) (tableOff i : Z) (n : nat) : result unit :=
  match n with
  | O => Ok tt
  | S n =>
      let entryOff := tableOff + i * sizeClassEntrySize in
      let! v := readU32 data (entryOff + offSizeClassReserved) in
      if negb (v =? 0) then Err ErrBadGeometry else entries_reserved_zero data tableOff (i + 1) n
  end.

Definition checkClassEntriesReservedZero (data : list Z) (tableOff n : Z) : result unit :=
  entries_reserved_zero data tableOff 0 (Z.to_nat n).

Definition check_zero_range (data : list Z) (lo hi : Z) : result unit :=
  let! bs := slice_or_panic data lo hi in
  if isZero bs then Ok tt else Err ErrBadGeometry.

Definition checkSyncPageReservedTailZero (data : list Z) (spans : derivedGeometry) : result unit :=
  check_zero_range data (u64 (syncPageOffset spans + syncPageReservedTailOffset))
    (u64 (syncPageOffset spans + SyncPageSize)).

Definition checkArenaPadZero (data : list Z) (arenaOffset classTotal arenaBytes : Z) : result unit :=
  check_zero_range data (u64 (arenaOffset + classTotal)) (u64 (arenaOffset + arenaBytes)).

Definition checkReservedZero (data : list Z) (spans : derivedGeometry)
    (tableHP numHP tablePH numPH totalHP totalPH : Z) : result unit :=
  let! v := readU32 data offHeaderFlags in
  if negb (v =? 0) then Err ErrBadGeometry else
  let! _ := check_zero_range data offReservedHdr (offReservedHdr + reservedHdrSize) in
  let! _ := checkSyncPageReservedTailZero data spans in
  let! _ := checkClassEntriesReservedZero data tableHP numHP in
  let! _ := checkClassEntriesReservedZero data tablePH numPH in
  let! _ := checkArenaPadZero data (arenaHPOffset spans) totalHP (arenaBytesHP spans) in
  checkArenaPadZero data (arenaPHOffset spans) totalPH (arenaBytesPH spans).

Definition parseLayoutPhase2 (data : list Z) (declared : Z) : result Layout :=
  let! _ := checkHeaderScalars data in
  let! (ringCapacity, lifecycleReserve) := checkRingReservation data in
  let! numHP := readU32 data offNumClassesHP in
  let! numPH := readU32 data offNumClassesPH in
  let! tableHP := readU64 data offClassTableHPOffset in
  let! tablePH := readU64 data offClassTablePHOffset in
  let! _ := checkClassTableRanges numHP numPH tableHP tablePH in
  let! (classesHP, totalHP) := checkClassRules data tableHP numHP in
  let! (classesPH, totalPH) := checkClassRules data tablePH numPH in
  let! storedHP := readU64 data offArenaBytesHP in
  let! abHP := checkArenaTotal totalHP storedHP in
  let! storedPH := readU64 data offArenaBytesPH in
  let! abPH := checkArenaTotal totalPH storedPH in
  let! spans := deriveSpans ringCapacity abHP abPH in
  let! _ := checkSpansAndCoverage data spans declared in
  let! _ := checkReservedZero data spans tableHP numHP tablePH numPH totalHP totalPH in
  let! magic := slice_or_panic data offMagic (offMagic + 8) in
  let! version := readU32 data offLayoutVersion in
  let! flags := readU32 data offHeaderFlags in
  let! gen := readU64 data offGeneration in
  Ok (mkLayout magic version flags gen (regionSize spans) ringCapacity lifecycleReserve
        (syncPageOffset spans) (ringHPOffset spans) (ringPHOffset spans)
        (mkArenaGeometry (arenaHPOffset spans) abHP tableHP classesHP)
        (mkArenaGeometry (arenaPHOffset spans) abPH tablePH classesPH)).

(** ** The region's life cycle

    The kernel's answers to one call are a record; the process's descriptors
    and mappings, with the package's two counters, are the state. *)

Record process := mkProcess {
  openFds : Z;
  mappings : Z;
  regionsCreated : Z;
  regionsClosed : Z
}.

Record Region := mkRegion {
  fd : Z;
  data : option (list Z);       (* nil after Close *)
  layout : Layout;
  closed : bool
}.

(** memfd_create, ftruncate, mmap and F_ADD_SEALS. *)
Record create_sys := mkCreateSys {
  sys_memfd : option Z;
  sys_truncate : bool;
  sys_mmap_new : Z -> option (list Z);
  sys_add_seals : bool
}.

(** F_DUPFD_CLOEXEC, fstat's size, F_GET_SEALS and mmap. *)
Record open_sys := mkOpenSys {
  sys_dup : option Z;
  sys_fstat : option Z;
  sys_get_seals : option Z;
  sys_mmap : Z -> option (list Z)
}.

Definition wantSeals : Z := Z.lor (Z.lor 4 2) 1.   (* GROW | SHRINK | SEAL *)

Definition open_fd (p : process) : process :=
  mkProcess (openFds p + 1) (mappings p) (regionsCreated p) (regionsClosed p).
Definition close_fd (p : process) : process :=
  mkProcess (openFds p - 1) (mappings p) (regionsCreated p) (regionsClosed p).
Definition map_mem (p : process) : process :=
  mkProcess (openFds p) (mappings p + 1) (regionsCreated p) (regionsClosed p).
Definition unmap_mem (p : process) : process :=
  mkProcess (openFds p) (mappings p - 1) (regionsCreated p) (regionsClosed p).

Definition newMappedRegion (f : Z) (d : list Z) (l : Layout) (p : process) : process * Region :=
  (mkProcess (openFds p) (mappings p) (regionsCreated p + 1) (regionsClosed p),
   mkRegion f (Some d) l false).

Definition createSealedRegion (k : create_sys) (l : Layout) (p : process) :
    process * result Region :=
  match sys_memfd k with
  | None => (p, Err ErrSys)
  | Some f =>
      let p := open_fd p in
      if negb (sys_truncate k) then (close_fd p, Err ErrSys) else
      match sys_mmap_new k (RegionSize l) with
      | None => (close_fd p, Err ErrSys)
      | Some d =>
          let p := map_mem p in
          match writeLayoutPage d l with
          | Ok d' =>
              if negb (sys_add_seals k) then (close_fd (unmap_mem p), Err ErrSys) else
              let (p, r) := newMappedRegion f d' l p in (p, Ok r)
          | Err e => (p, Err e)
          | Panic => (p, Panic)
          end
      end
  end.

Definition CreateRegion (k : create_sys) (input : Layout) (p : process) : process * result Region :=
  if Generation input =? 0 then (p, Err ErrBadGeometry) else
  if negb (HeaderFlags input =? 0) then (p, Err ErrBadGeometry) else
  match DeriveLayout input with
  | Err e => (p, Err e)
  | Panic => (p, Panic)
  | Ok l =>
      createSealedRegion k
        (mkLayout layoutMagic 1 (HeaderFlags l) (Generation input) (RegionSize l)
           (RingCapacity l) (LifecycleReserve l) (SyncPageOffset l) (RingHP l) (RingPH l)
           (ArenaHP l) (ArenaPH l)) p
  end.

(** The Go zero value [Layout{}]. *)
Definition zeroLayout : Layout :=
  mkLayout (replicate 8 0) 0 0 0 0 0 0 0 0 0 (mkArenaGeometry 0 0 0 []) (mkArenaGeometry 0 0 0 []).

(** Both results of [openRegionOwned]: the region, when one is mapped, and the error. *)
Definition open_result : Type := option Region * option regionError.

Definition openRegionOwned (k : open_sys) (ownFD expectedSize : Z) (p : process) :
    process * outcome unit open_result :=
  if maxRegionSize <? expectedSize then (p, Ok (None, Some ErrAttachRejected)) else
  match sys_fstat k with
  | None => (p, Ok (None, Some ErrSys))
  | Some size =>
      if size <? 0 then (p, Ok (None, Some ErrAttachRejected)) else
      if (expectedSize <? minRegionSize) || (size <? minRegionSize)
      then (p, Ok (None, Some ErrAttachRejected)) else
      if negb (size =? expectedSize) then (p, Ok (None, Some ErrAttachRejected)) else
      match sys_get_seals k with
      | None => (p, Ok (None, Some ErrSys))
      | Some s =>
          if negb (s =? wantSeals) then (p, Ok (None, Some ErrAttachRejected)) else
          match sys_mmap k expectedSize with
          | None => (p, Ok (None, Some ErrSys))
          | Some d =>
              let p := map_mem p in
              match parseLayoutPhase2 d expectedSize with
              | Ok l => let (p, r) := newMappedRegion ownFD d l p in (p, Ok (Some r, None))
              | Err e =>
                  let (p, r) := newMappedRegion ownFD d zeroLayout p in (p, Ok (Some r, Some e))
              | Panic => (p, Panic)
              end
          end
      end
  end.

Definition OpenRegion (k : open_sys) (expectedSize : Z) (p : process) :
    process * outcome unit open_result :=
  match sys_dup k with
  | None => (p, Ok (None, Some ErrSys))
  | Some own =>
      let (p, res) := openRegionOwned k own expectedSize (open_fd p) in
      match res with
      | Ok (None, Some e) => (close_fd p, res)
      | _ => (p, res)
      end
  end.

(** [Close] with the results of munmap and close; both calls are always made. *)
Definition Close (munmapOK closeOK : bool) (r : Region) (p : process) : process * Region * bool :=
  if closed r then (p, r, true) else
  let r' := mkRegion (fd r) None (layout r) true in
  let p := if munmapOK then unmap_mem p else p in
  let p := close_fd p in
  let p := if munmapOK
           then mkProcess (openFds p) (mappings p) (regionsCreated p) (regionsClosed p + 1)
           else p in
  (p, r', munmapOK && closeOK).

(** ** Well-formed geometry *)

Definition extent (c : SizeClass) : Z := SlabSize c * SlabCount c.

Fixpoint class_total (cs : list SizeClass) : Z :=
  match cs with [] => 0 | c :: cs => extent c + class_total cs end.

(** Each class starts where the previous one ends. *)
Fixpoint contiguous (base : Z) (cs : list SizeClass) : Prop :=
  match cs with
  | [] => True
  | c :: cs => ClassBaseOffset c = base /\ contiguous (base + extent c) cs
  end.

Definition class_ok (c : SizeClass) : Prop :=
  is_u32 (SlabSize c) /\ is_u32 (SlabCount c) /\
  0 < SlabSize c /\ (CacheLine | SlabSize c) /\ 1 <= SlabCount c.

Record bounds_ok (cs : list SizeClass) : Prop := {
  bo_classes : Forall class_ok cs;
  bo_ascending : StronglySorted Z.lt (map SlabSize cs);
  bo_largest : exists c, last cs = Some c /\ minLargestSlabSize <= SlabSize c
}.

Record classes_ok (cs : list SizeClass) : Prop := {
  co_bounds : bounds_ok cs;
  co_contiguous : contiguous 0 cs
}.

Record arena_ok (a : ArenaGeometry) : Prop := {
  ao_classes : classes_ok (Classes a);
  ao_total : class_total (Classes a) <= Bytes a < class_total (Classes a) + PageSize;
  ao_page : (PageSize | Bytes a);
  ao_max : Bytes a <= maxArenaBytes
}.

(** What a layout accepted by either side promises to the ring and the arena
    built over it. *)
Record layout_ok (l : Layout) : Prop := {
  lo_capacity : minRingCapacity <= RingCapacity l <= maxRingCapacity;
  lo_pow2 : exists k, 0 <= k /\ RingCapacity l = 2 ^ k;
  lo_reserve : 0 < LifecycleReserve l < RingCapacity l;
  lo_sync : SyncPageOffset l = PageSize;
  lo_ringHP : RingHP l = SyncPageOffset l + SyncPageSize;
  lo_ringPH : RingPH l = RingHP l + RingCapacity l * DescriptorSize;
  lo_arenaHP : Offset (ArenaHP l) = RingPH l + RingCapacity l * DescriptorSize;
  lo_arenaPH : Offset (ArenaPH l) = Offset (ArenaHP l) + Bytes (ArenaHP l);
  lo_size : RegionSize l = Offset (ArenaPH l) + Bytes (ArenaPH l);
  lo_max : RegionSize l <= maxRegionSize;
  lo_aHP : arena_ok (ArenaHP l);
  lo_aPH : arena_ok (ArenaPH l)
}.

(** ** Lemmas on the derivation *)

Definition raw_class (c : SizeClass) : Prop := is_u32 (SlabSize c) /\ is_u32 (SlabCount c).

Lemma addOverflowSafe_Ok a b r :
  is_u64 a -> is_u64 b -> addOverflowSafe a b = Ok r -> r = a + b /\ is_u64 r.
Proof.
  intros Ha Hb H. unfold addOverflowSafe in H. case_test_in H; simplify_eq. bool_to_prop. width_lia.
Qed.

Lemma addOverflowSafe_complete a b :
  is_u64 a -> is_u64 b -> is_u64 (a + b) -> addOverflowSafe a b = Ok (a + b).
Proof.
  intros Ha Hb H. unfold addOverflowSafe. rewrite (u64_id (a + b) H).
  destruct (Z.ltb_spec (a + b) a); [unfold is_u64 in *; lia|done].
Qed.

Lemma addOverflowSafe_np a b : addOverflowSafe a b <> Panic.
Proof. unfold addOverflowSafe. no_panic. Qed.

Lemma roundup_Ok n r :
  is_u64 n -> roundupPageSize n = Ok r -> (PageSize | r) /\ n <= r < n + PageSize /\ is_u64 r.
Proof.
  unfold roundupPageSize, PageSize. intros Hn H. case_test_in H; bool_to_prop.
  - simplify_eq. split; [now apply Z.mod_divide|]. split; [lia|done].
  - apply addOverflowSafe_Ok in H as [-> Hr]; [|done|width_lia].
    split; [|split; [width_lia|done]].
    exists (n / 4096 + 1). pose proof (Z.div_mod n 4096). lia.
Qed.

(** The rounded value is unique. *)
Lemma roundup_unique n r :
  is_u64 n -> is_u64 r -> (PageSize | r) -> n <= r < n + PageSize -> roundupPageSize n = Ok r.
Proof.
  unfold roundupPageSize, PageSize. intros Hn Hr [k ->] Hb.
  pose proof (Z.div_mod n 4096 ltac:(lia)). pose proof (Z.mod_pos_bound n 4096 ltac:(lia)).
  case_test; bool_to_prop.
  - f_equal. lia.
  - rewrite addOverflowSafe_complete; [f_equal; lia|done|unfold is_u64 in *; lia|].
    replace (n + (4096 - n mod 4096)) with (k * 4096) by lia. done.
Qed.

Lemma roundup_np n : roundupPageSize n <> Panic.
Proof. unfold roundupPageSize. no_panic. apply addOverflowSafe_np. Qed.

Lemma validateRingCapacity_Ok c :
  is_u32 c -> validateRingCapacity c = Ok tt <->
  minRingCapacity <= c <= maxRingCapacity /\ exists k, 0 <= k /\ c = 2 ^ k.
Proof.
  intros Hc. unfold validateRingCapacity, minRingCapacity, maxRingCapacity.
  split.
  - intros H. repeat case_test_in H; try done. bool_to_prop.
    rewrite u32_id in * by (unfold is_u32 in *; lia).
    split; [lia|]. apply land_pred_pow2; [lia|done].
  - intros [Hr Hk]. rewrite u32_id by (unfold is_u32 in *; lia).
    apply land_pred_pow2 in Hk; [|lia]. rewrite Hk.
    destruct (Z.ltb_spec c 64), (Z.ltb_spec (2 ^ 20) c); try lia. done.
Qed.

Lemma validateLifecycleReserve_Ok r c :
  is_u32 r -> validateLifecycleReserve r c = Ok tt <-> 0 < r < c.
Proof.
  intros Hr. unfold validateLifecycleReserve, is_u32 in *.
  destruct (Z.eqb_spec r 0), (Z.leb_spec c r); simpl; split; intros; try done; lia.
Qed.

Lemma slab_bounds_loop_Ok i prev cs :
  Forall raw_class cs ->
  slab_bounds_loop i prev cs = Ok tt <->
  Forall class_ok cs /\ StronglySorted Z.lt (map SlabSize cs) /\
  ((0 < i)%nat -> Forall (fun c => prev < SlabSize c) cs).
Proof.
  revert i prev. induction cs as [|c cs IH]; intros i prev Hraw; simpl.
  { split; [intros; split_and!; constructor|done]. }
  inversion Hraw as [|? ? [Hs Hc] Hraw']; subst.
  specialize (IH (S i) (SlabSize c) Hraw').
  destruct (Z.eqb_spec (SlabSize c) 0) as [Hz|Hz]; simpl.
  { split; [done|]. intros (Hf & _). inversion Hf as [|? ? (_ & _ & ? & _)]; subst. lia. }
  destruct (Z.eqb_spec (SlabSize c mod CacheLine) 0) as [Hm|Hm]; simpl.
  2: { split; [done|]. intros (Hf & _). inversion Hf as [|? ? (_ & _ & _ & Hd & _)]; subst.
       apply Z.mod_divide in Hd; [done|]. unfold CacheLine. lia. }
  destruct (SlabCount c =? 0) eqn:Hcnt; bool_to_prop.
  { split.
    - intros H. case_test_in H; done.
    - intros (Hf & _). inversion Hf as [|? ? (_ & _ & _ & _ & ?)]; subst. lia. }
  assert (Hok : class_ok c).
  { split_and!; auto; unfold is_u32 in *; try lia.
    apply Z.mod_divide; [unfold CacheLine; lia|done]. }
  destruct ((0 <? i)%nat && (SlabSize c <=? prev)) eqn:Ha.
  { split; [done|]. intros (_ & _ & Hp). bool_to_prop.
    match goal with H : (0 <? i)%nat = true |- _ => apply Nat.ltb_lt in H; specialize (Hp H) end.
    inversion Hp; subst. lia. }
  rewrite IH. clear IH.
  assert (Ha' : (0 < i)%nat -> prev < SlabSize c).
  { intros Hi. apply Nat.ltb_lt in Hi. rewrite Hi in Ha. simpl in Ha. bool_to_prop. lia. }
  split.
  - intros (Hf & Hso & Hgt). specialize (Hgt ltac:(lia)). split_and!.
    + by constructor.
    + constructor; [done|]. now apply Forall_map.
    + intros Hi. specialize (Ha' Hi). constructor; [done|].
      eapply Forall_impl; [exact Hgt|]. simpl. lia.
  - intros (Hf & Hso & _). inversion Hf; inversion Hso; subst. split_and!; auto.
    intros _. now apply Forall_map.
Qed.

Lemma slab_bounds_loop_np i prev cs : slab_bounds_loop i prev cs <> Panic.
Proof. revert i prev. induction cs; intros; simpl; no_panic. auto. Qed.

Lemma validateSlabBounds_Ok cs :
  Forall raw_class cs -> validateSlabBounds cs = Ok tt <-> bounds_ok cs.
Proof.
  intros Hraw. unfold validateSlabBounds.
  pose proof (slab_bounds_loop_Ok 0 0 cs Hraw) as Hl.
  destruct (last cs) as [c|] eqn:Hlast.
  - split.
    + intros H. peel_ok H. destruct a. apply Hl in Ha as (Hf & Hs & _).
      bool_to_prop. constructor; eauto.
    + intros [Hf Hs (c' & Hc' & Hm)]. rewrite (proj2 Hl); simpl.
      * rewrite Hlast in Hc'. simplify_eq. destruct (Z.ltb_spec (SlabSize c') minLargestSlabSize); [lia|done].
      * split_and!; auto. lia.
  - split; [done|]. intros [_ _ (c & Hc & _)]. congruence.
Qed.

Lemma validateSlabBounds_np cs : validateSlabBounds cs <> Panic.
Proof.
  unfold validateSlabBounds. destruct (last cs); [|done]. no_panic. apply slab_bounds_loop_np.
Qed.

(** The unbounded formula for the class bases. *)
Fixpoint bases_from (base : Z) (cs : list SizeClass) : list Z :=
  match cs with [] => [] | c :: cs => base :: bases_from (base + extent c) cs end.

Lemma extent_u64 c : raw_class c -> is_u64 (extent c).
Proof. intros [Hs Hc]. unfold extent, is_u32, is_u64 in *. nia. Qed.

Lemma class_total_nonneg cs : Forall raw_class cs -> 0 <= class_total cs.
Proof.
  induction 1 as [|c cs Hc _ IH]; simpl; [lia|]. apply extent_u64 in Hc. unfold is_u64 in *. lia.
Qed.

Lemma class_bases_loop_Ok base cs bases total :
  Forall raw_class cs -> is_u64 base -> class_bases_loop base cs = Ok (bases, total) ->
  bases = bases_from base cs /\ total = base + class_total cs /\ is_u64 total.
Proof.
  intros Hraw. revert base bases total.
  induction Hraw as [|c cs Hc _ IH]; intros base bases total Hb H; simpl in H.
  - simplify_eq. simpl. rewrite Z.add_0_r. auto.
  - fold (extent c) in H. pose proof (extent_u64 c Hc) as He. rewrite (u64_id _ He) in H.
    peel_ok H. apply addOverflowSafe_Ok in Ha as [-> Ha]; [|done..].
    simplify_eq. apply IH in Ha0 as (-> & -> & ?); [|done].
    simpl. split_and!; auto. lia.
Qed.

Lemma class_bases_loop_complete base cs :
  Forall raw_class cs -> 0 <= base -> base + class_total cs < 2 ^ 64 ->
  class_bases_loop base cs = Ok (bases_from base cs, base + class_total cs).
Proof.
  intros Hraw. revert base.
  induction Hraw as [|c cs Hc Hcs IH]; intros base Hb H; simpl in *.
  - now rewrite Z.add_0_r.
  - fold (extent c). pose proof (extent_u64 c Hc) as He. rewrite (u64_id _ He).
    pose proof (class_total_nonneg cs Hcs). unfold is_u64 in He.
    rewrite addOverflowSafe_complete by (unfold is_u64; lia). simpl.
    rewrite IH by lia. simpl. do 2 f_equal. lia.
Qed.

Lemma class_bases_loop_np base cs : class_bases_loop base cs <> Panic.
Proof.
  revert base. induction cs; intros; simpl; no_panic.
  apply addOverflowSafe_np.
Qed.

Lemma contiguous_bases base cs : contiguous base cs <-> map ClassBaseOffset cs = bases_from base cs.
Proof.
  revert base. induction cs as [|c cs IH]; intros base; simpl; [done|].
  rewrite IH. split; [intros [-> ->]; done|intros H; simplify_eq; done].
Qed.

Lemma bases_from_bound base cs b :
  Forall raw_class cs -> In b (bases_from base cs) -> base <= b <= base + class_total cs.
Proof.
  intros Hraw. revert base. induction Hraw as [|c cs Hc Hcs IH]; intros base Hi; simpl in *; [done|].
  pose proof (class_total_nonneg cs Hcs). apply extent_u64 in Hc. unfold is_u64 in Hc.
  destruct Hi as [<-|Hi]; [lia|]. apply IH in Hi. lia.
Qed.

Lemma length_bases_from base cs : length (bases_from base cs) = length cs.
Proof. revert base. induction cs; intros; simpl; auto. Qed.

(** Class tables that differ only in their recorded bases. *)
Definition same_sizes (cs cs' : list SizeClass) : Prop :=
  map (fun c => (SlabSize c, SlabCount c)) cs = map (fun c => (SlabSize c, SlabCount c)) cs'.

Lemma same_sizes_cons c cs c' cs' :
  same_sizes (c :: cs) (c' :: cs') ->
  SlabSize c = SlabSize c' /\ SlabCount c = SlabCount c' /\ same_sizes cs cs'.
Proof. unfold same_sizes. simpl. intros H. by simplify_eq. Qed.

Lemma same_sizes_total cs cs' : same_sizes cs cs' -> class_total cs = class_total cs'.
Proof.
  revert cs'. induction cs as [|c cs IH]; intros [|c' cs'] H; try done.
  apply same_sizes_cons in H as (H1 & H2 & H3). simpl. rewrite (IH _ H3). unfold extent. congruence.
Qed.

Lemma same_sizes_bounds cs cs' : same_sizes cs cs' -> bounds_ok cs -> bounds_ok cs'.
Proof.
  intros H [Hf Hs Hl].
  assert (Hm : map SlabSize cs = map SlabSize cs').
  { apply (f_equal (map fst)) in H. now rewrite !map_map in H. }
  constructor.
  - clear Hs Hl Hm. revert cs' H. induction Hf as [|c cs Hc _ IH]; intros [|c' cs'] H; try done.
    apply same_sizes_cons in H as (H1 & H2 & H3). constructor; [|auto].
    unfold class_ok in *. now rewrite <- H1, <- H2.
  - now rewrite <- Hm.
  - destruct Hl as (c & Hc & Hm'). apply (f_equal last) in Hm. rewrite !fmap_last, Hc in Hm.
    destruct (last cs') as [c'|]; simpl in Hm; simplify_eq. exists c'. split; [done|congruence].
Qed.

Definition rebased (cs : list SizeClass) : list SizeClass :=
  zip_with (fun c b => mkSizeClass (SlabSize c) (SlabCount c) (u32 b)) cs (bases_from 0 cs).

Lemma rebased_gen base cs :
  Forall raw_class cs -> 0 <= base -> base + class_total cs <= MaxUint32 ->
  let cs' := zip_with (fun c b => mkSizeClass (SlabSize c) (SlabCount c) (u32 b)) cs
               (bases_from base cs) in
  same_sizes cs cs' /\ contiguous base cs'.
Proof.
  intros Hraw. revert base. induction Hraw as [|c cs Hc Hcs IH]; intros base Hb Ht; simpl in *.
  { split; done. }
  pose proof (class_total_nonneg cs Hcs). apply extent_u64 in Hc. unfold is_u64 in Hc.
  destruct (IH (base + extent c)) as [H1 H2]; [lia..|].
  split; [unfold same_sizes in *; simpl; by rewrite H1|].
  split; [apply u32_id; unfold is_u32, MaxUint32 in *; lia|exact H2].
Qed.

(** What [buildArenaGeometry] promises of an accepted table. *)
Lemma buildArenaGeometry_Ok cs cs' ab :
  Forall raw_class cs -> buildArenaGeometry cs = Ok (cs', ab) ->
  same_sizes cs cs' /\
  (forall off t, arena_ok (mkArenaGeometry off ab t cs')).
Proof.
  intros Hraw H. unfold buildArenaGeometry, computeClassBaseOffsets in H. peel_ok H.
  destruct a. apply validateSlabBounds_Ok in Ha; [|done].
  apply class_bases_loop_Ok in Ha0 as (-> & -> & Ht); [|done|unfold is_u64; lia].
  apply roundup_Ok in Ha1 as (Hd & Hr & _); [|done]. simplify_eq. bool_to_prop.
  rewrite Z.add_0_l in Hr. unfold maxArenaBytes in *.
  destruct (rebased_gen 0 cs Hraw) as [Hs Hc]; [lia..|].
  split; [done|]. intros off t. constructor; simpl; auto.
  - constructor; [|done]. eapply same_sizes_bounds; eauto.
  - rewrite <- (same_sizes_total _ _ Hs). lia.
Qed.

Lemma buildArenaGeometry_np cs : buildArenaGeometry cs <> Panic.
Proof.
  unfold buildArenaGeometry, computeClassBaseOffsets. no_panic.
  - apply validateSlabBounds_np.
  - apply class_bases_loop_np.
  - apply roundup_np.
Qed.

Lemma deriveSpans_Ok cap abHP abPH g :
  minRingCapacity <= cap <= maxRingCapacity ->
  0 <= abHP <= maxArenaBytes -> 0 <= abPH <= maxArenaBytes ->
  deriveSpans cap abHP abPH = Ok g ->
  let span := cap * DescriptorSize in
  g = mkDerived PageSize (2 * PageSize) (2 * PageSize + span) (2 * PageSize + 2 * span)
        (2 * PageSize + 2 * span + abHP) abHP abPH (2 * PageSize + 2 * span + abHP + abPH) /\
  regionSize g <= maxRegionSize.
Proof.
  unfold minRingCapacity, maxRingCapacity, maxArenaBytes, MaxUint32.
  intros Hc H1 H2 H. unfold deriveSpans in H.
  rewrite (u64_id (cap * DescriptorSize)) in H by (unfold is_u64, DescriptorSize; lia).
  peel_ok H. simplify_eq. bool_to_prop. unfold PageSize, DescriptorSize in *.
  repeat match goal with
  | Ha : addOverflowSafe _ _ = Ok _ |- _ =>
      apply addOverflowSafe_Ok in Ha as [? _]; [|unfold is_u64; lia..]
  end; subst; simpl in *.
  split; [f_equal; lia|lia].
Qed.

Lemma deriveSpans_complete cap abHP abPH :
  minRingCapacity <= cap <= maxRingCapacity ->
  0 <= abHP <= maxArenaBytes -> 0 <= abPH <= maxArenaBytes ->
  exists g, deriveSpans cap abHP abPH = Ok g.
Proof.
  unfold minRingCapacity, maxRingCapacity, maxArenaBytes, MaxUint32.
  intros Hc H1 H2. unfold deriveSpans, maxRegionSize, DescriptorSize, PageSize.
  rewrite (u64_id (cap * 64)) by (unfold is_u64; lia).
  repeat (rewrite addOverflowSafe_complete by (unfold is_u64; lia); simpl).
  case_test; bool_to_prop; [lia|eauto].
Qed.

Lemma deriveSpans_np cap a b : deriveSpans cap a b <> Panic.
Proof. unfold deriveSpans. no_panic; apply addOverflowSafe_np. Qed.

(** ** Lemmas on reading the page *)

Lemma readU32_np d off : 0 <= off -> off + 4 <= zlen d -> readU32 d off <> Panic.
Proof.
  intros. unfold readU32. destruct (slice off (off + 4) d) eqn:H1; [done|].
  unfold slice in H1. case_test_in H1; [done|]. rewrite !andb_false_iff, !Z.leb_gt in *. lia.
Qed.

Lemma readU64_np d off : 0 <= off -> off + 8 <= zlen d -> readU64 d off <> Panic.
Proof.
  intros. unfold readU64. destruct (slice off (off + 8) d) eqn:H1; [done|].
  unfold slice in H1. case_test_in H1; [done|]. rewrite !andb_false_iff, !Z.leb_gt in *. lia.
Qed.

Lemma slice_np d lo hi : 0 <= lo <= hi -> hi <= zlen d -> slice_or_panic d lo hi <> Panic.
Proof.
  intros. unfold slice_or_panic. destruct (slice lo hi d) eqn:H1; [done|].
  unfold slice in H1. case_test_in H1; [done|]. rewrite !andb_false_iff, !Z.leb_gt in *. lia.
Qed.

Lemma readU32_range d off v : Forall is_byte d -> readU32 d off = Ok v -> is_u32 v.
Proof.
  intros Hd H. unfold readU32 in H. destruct (slice off (off + 4) d) as [bs|] eqn:Hs; simplify_eq.
  pose proof (slice_length _ _ _ _ Hs) as Hl. apply slice_Some in Hs as [_ ->].
  pose proof (le_decode_range _ (Forall_sub_bytes is_byte (Z.to_nat off) (Z.to_nat (off + 4 - off)) _ Hd)) as Hr.
  unfold zlen in Hl. rewrite Hl in Hr. replace (off + 4 - off) with 4 in * by lia. exact Hr.
Qed.

Lemma readU64_range d off v : Forall is_byte d -> readU64 d off = Ok v -> is_u64 v.
Proof.
  intros Hd H. unfold readU64 in H. destruct (slice off (off + 8) d) as [bs|] eqn:Hs; simplify_eq.
  pose proof (slice_length _ _ _ _ Hs) as Hl. apply slice_Some in Hs as [_ ->].
  pose proof (le_decode_range _ (Forall_sub_bytes is_byte (Z.to_nat off) (Z.to_nat (off + 8 - off)) _ Hd)) as Hr.
  unfold zlen in Hl. rewrite Hl in Hr. replace (off + 8 - off) with 8 in * by lia. exact Hr.
Qed.

Lemma checkOneClassTableRange_Ok n off :
  is_u32 n -> checkOneClassTableRange n off = Ok tt ->
  1 <= n /\ headerSize <= off /\ off mod 4 = 0 /\ off + n * sizeClassEntrySize <= LayoutPageSize.
Proof.
  intros Hn H. unfold checkOneClassTableRange in H. repeat case_test_in H; try done. bool_to_prop.
  unfold is_u32, headerSize, LayoutPageSize, PageSize, sizeClassEntrySize in *.
  rewrite u64_id in * by (unfold is_u64; lia). lia.
Qed.

Lemma checkClassTableRanges_Ok nH nP oH oP :
  is_u32 nH -> is_u32 nP -> checkClassTableRanges nH nP oH oP = Ok tt ->
  (1 <= nH /\ headerSize <= oH /\ oH + nH * sizeClassEntrySize <= LayoutPageSize) /\
  (1 <= nP /\ headerSize <= oP /\ oP + nP * sizeClassEntrySize <= LayoutPageSize) /\
  (oH + nH * sizeClassEntrySize <= oP \/ oP + nP * sizeClassEntrySize <= oH).
Proof.
  intros HnH HnP H. unfold checkClassTableRanges in H. peel_ok H. destruct a, a0.
  apply checkOneClassTableRange_Ok in Ha; [|done]. apply checkOneClassTableRange_Ok in Ha0; [|done].
  unfold overlaps, headerSize, LayoutPageSize, PageSize, sizeClassEntrySize in *.
  rewrite !u64_id in G by (unfold is_u64, is_u32 in *; lia).
  apply andb_false_iff in G. rewrite !Z.ltb_ge in G. lia.
Qed.

Lemma decode_classes_np d tab i n :
  0 <= tab -> 0 <= i -> tab + (i + Z.of_nat n) * sizeClassEntrySize <= zlen d ->
  decode_classes d tab i n <> Panic.
Proof.
  unfold sizeClassEntrySize. revert i. induction n as [|n IH]; intros i Ht Hi Hb; simpl; [done|].
  unfold sizeClassEntrySize, offSizeClassSlabSize, offSizeClassSlabCount, offSizeClassBaseOffset in *.
  no_panic.
  1-3: apply readU32_np; lia.
  apply IH; lia.
Qed.

Lemma decode_classes_raw d tab i n cs :
  Forall is_byte d -> decode_classes d tab i n = Ok cs -> Forall raw_class cs /\ length cs = n.
Proof.
  intros Hd. revert i cs. induction n as [|n IH]; intros i cs H; simpl in H; [by simplify_eq|].
  peel_ok H. simplify_eq. destruct (IH _ _ Ha2) as [? ?]. split; [|simpl; lia].
  constructor; [|done]. split; simpl; eapply readU32_range; eauto.
Qed.

Lemma entries_reserved_zero_np d tab i n :
  0 <= tab -> 0 <= i -> tab + (i + Z.of_nat n) * sizeClassEntrySize <= zlen d ->
  entries_reserved_zero d tab i n <> Panic.
Proof.
  unfold sizeClassEntrySize. revert i. induction n as [|n IH]; intros i Ht Hi Hb; simpl; [done|].
  unfold sizeClassEntrySize, offSizeClassReserved in *. no_panic.
  - apply readU32_np; lia.
  - apply IH; lia.
Qed.

Lemma checkClassRules_Ok d tab n cs total :
  Forall is_byte d -> 0 <= n -> checkClassRules d tab n = Ok (cs, total) ->
  classes_ok cs /\ Forall raw_class cs /\ total = class_total cs /\ is_u64 total /\ zlen cs = n.
Proof.
  intros Hd Hn H. unfold checkClassRules, checkClassBaseOffsets, computeClassBaseOffsets in H.
  peel_ok H. simplify_eq. destruct (decode_classes_raw _ _ _ _ _ Hd Ha) as [Hraw Hlen].
  destruct a0. apply validateSlabBounds_Ok in Ha0; [|done].
  peel_ok Ha1. simplify_eq. apply class_bases_loop_Ok in Ha2 as (-> & -> & Ht); [|done|unfold is_u64; lia].
  apply bool_decide_eq_true in G. unfold zlen. split_and!; auto; [|lia].
  constructor; [done|]. now apply contiguous_bases.
Qed.

Lemma checkClassRules_np d tab n :
  0 <= tab -> 0 <= n -> tab + n * sizeClassEntrySize <= zlen d -> checkClassRules d tab n <> Panic.
Proof.
  intros. unfold checkClassRules, checkClassBaseOffsets, computeClassBaseOffsets. no_panic.
  - apply decode_classes_np; unfold sizeClassEntrySize in *; lia.
  - apply validateSlabBounds_np.
  - no_panic. apply class_bases_loop_np.
Qed.

Lemma checkArenaTotal_Ok total stored ab :
  is_u64 total -> checkArenaTotal total stored = Ok ab ->
  (PageSize | ab) /\ total <= ab < total + PageSize /\ ab <= maxArenaBytes /\ stored = ab.
Proof.
  intros Ht H. unfold checkArenaTotal in H. peel_ok H. simplify_eq. bool_to_prop.
  apply roundup_Ok in Ha as (? & ? & _); auto.
Qed.

Lemma checkArenaTotal_np t s : checkArenaTotal t s <> Panic.
Proof. unfold checkArenaTotal. no_panic. apply roundup_np. Qed.

Lemma check_fields_np d fs :
  Forall (fun f => 0 <= fst f /\ fst f + 8 <= zlen d) fs -> check_fields d fs <> Panic.
Proof.
  induction 1 as [|[off want] fs [H1 H2] _ IH]; simpl; [done|]. no_panic; [|done].
  now apply readU64_np.
Qed.

Lemma checkSpans_Ok d g declared :
  checkSpansAndCoverage d g declared = Ok tt -> regionSize g = declared /\ zlen d = regionSize g.
Proof.
  intros H. unfold checkSpansAndCoverage in H. peel_ok H. bool_to_prop. done.
Qed.

Lemma check_zero_np d lo hi : 0 <= lo <= hi -> hi <= zlen d -> check_zero_range d lo hi <> Panic.
Proof. intros. unfold check_zero_range. no_panic. now apply slice_np. Qed.

(** Reads at the fixed header offsets. *)
Ltac fixed_read :=
  first [apply readU32_np | apply readU64_np | apply slice_np];
  unfold offMagic, offLayoutVersion, offHeaderFlags, offGeneration, offRegionSize, offPageSize,
    offDescriptorSize, offRingCapacity, offNumClassesHP, offNumClassesPH, offReservedU32,
    offSyncPageOffset, offRingHPOffset, offRingPHOffset, offArenaHPOffset, offArenaPHOffset,
    offArenaBytesHP, offArenaBytesPH, offClassTableHPOffset, offClassTablePHOffset, offShardCount,
    offLifecycleReserve, offReservedHdr, reservedHdrSize, minRegionSize, PageSize in *; lia.

Lemma checkHeaderScalars_np d : minRegionSize <= zlen d -> checkHeaderScalars d <> Panic.
Proof. intros. unfold checkHeaderScalars. no_panic; fixed_read. Qed.

Lemma checkRingReservation_np d : minRegionSize <= zlen d -> checkRingReservation d <> Panic.
Proof.
  intros. unfold checkRingReservation, validateRingCapacity, validateLifecycleReserve.
  no_panic; try fixed_read; no_panic.
Qed.

Lemma checkRingReservation_Ok d c r :
  Forall is_byte d -> checkRingReservation d = Ok (c, r) ->
  minRingCapacity <= c <= maxRingCapacity /\ (exists k, 0 <= k /\ c = 2 ^ k) /\ 0 < r < c /\
  readU32 d offRingCapacity = Ok c /\ readU32 d offLifecycleReserve = Ok r.
Proof.
  intros Hd H. unfold checkRingReservation in H. peel_ok H. simplify_eq. destruct a0, a2.
  apply validateRingCapacity_Ok in Ha0; [|eapply readU32_range; eauto].
  apply validateLifecycleReserve_Ok in Ha2; [|eapply readU32_range; eauto]. naive_solver.
Qed.

Lemma checkClassTableRanges_np a b c d : checkClassTableRanges a b c d <> Panic.
Proof.
  unfold checkClassTableRanges, checkOneClassTableRange. no_panic; no_panic.
Qed.

Lemma checkSpans_np d g n : minRegionSize <= zlen d -> checkSpansAndCoverage d g n <> Panic.
Proof.
  intros Hd. unfold checkSpansAndCoverage. no_panic. apply check_fields_np.
  unfold minRegionSize, PageSize in Hd.
  repeat constructor; simpl; unfold offSyncPageOffset, offRingHPOffset, offRingPHOffset,
    offArenaHPOffset, offArenaPHOffset, offRegionSize; lia.
Qed.

Lemma checkReservedZero_np d g tH nH tP nP totH totP :
  minRegionSize <= zlen d -> zlen d = regionSize g -> regionSize g <= maxRegionSize ->
  syncPageOffset g = PageSize ->
  headerSize <= tH -> 0 <= nH -> tH + nH * sizeClassEntrySize <= LayoutPageSize ->
  headerSize <= tP -> 0 <= nP -> tP + nP * sizeClassEntrySize <= LayoutPageSize ->
  0 <= arenaHPOffset g -> 0 <= totH <= arenaBytesHP g ->
  arenaPHOffset g = arenaHPOffset g + arenaBytesHP g ->
  0 <= totP <= arenaBytesPH g -> regionSize g = arenaPHOffset g + arenaBytesPH g ->
  checkReservedZero d g tH nH tP nP totH totP <> Panic.
Proof.
  unfold minRegionSize, maxRegionSize, LayoutPageSize, PageSize, headerSize, sizeClassEntrySize.
  intros. unfold checkReservedZero, checkClassEntriesReservedZero, checkSyncPageReservedTailZero,
    checkArenaPadZero, syncPageReservedTailOffset, SyncPageSize, PageSize.
  replace (syncPageOffset g) with 4096 by lia.
  rewrite !u64_id by (unfold is_u64; lia).
  no_panic; try fixed_read;
    first [apply check_zero_np | apply entries_reserved_zero_np];
    unfold offReservedHdr, reservedHdrSize, sizeClassEntrySize; lia.
Qed.

(** Everything an accepting run of [parseLayoutPhase2] has checked. *)
Lemma parse_inv d declared l :
  Forall is_byte d -> parseLayoutPhase2 d declared = Ok l ->
  layout_ok l /\ RegionSize l = declared /\ zlen d = declared /\
  Magic l = layoutMagic /\ LayoutVersion l = 1 /\ HeaderFlags l = 0.
Proof.
  intros Hd H. unfold parseLayoutPhase2 in H. peel_ok H. simplify_eq.
  apply checkRingReservation_Ok in Ha0 as (Hc & Hk & Hr & _); [|done].
  apply checkClassRules_Ok in Ha6 as (HcH & _ & -> & HtH & _);
    [|done|eapply readU32_range in Ha1; [|done]; unfold is_u32 in *; lia].
  apply checkClassRules_Ok in Ha7 as (HcP & _ & -> & HtP & _);
    [|done|eapply readU32_range in Ha2; [|done]; unfold is_u32 in *; lia].
  apply checkArenaTotal_Ok in Ha9 as (? & ? & ? & _); [|done].
  apply checkArenaTotal_Ok in Ha11 as (? & ? & ? & _); [|done].
  apply deriveSpans_Ok in Ha12 as [-> Hmax]; [|done|unfold is_u64 in *; lia..].
  destruct a10. apply checkSpans_Ok in Ha13 as [He Hl]. simpl in *.
  unfold checkHeaderScalars in Ha. peel_ok Ha. unfold checkReservedZero in Ha14. peel_ok Ha14.
  bool_to_prop. apply bool_decide_eq_true in G. simplify_eq.
  split_and!; auto; try congruence.
  constructor; simpl; auto; try (unfold SyncPageSize; lia); constructor; auto.
Qed.

(** An accepted layout is well formed.  If Phase 2 accepts a mapping, the
    decoded geometry has a power-of-two ring capacity in [64, 2^20] and a
    reserve below it; the layout page, the sync page, both rings and both
    arenas follow one another without gap or overlap and end at the region
    size, which is the declared size and the mapped length; and each
    direction's classes are ascending, cache-line multiples, contiguous from
    offset 0, and fit their page-multiple arena below 4 GiB. *)
Theorem parse_accepts_only_well_formed d declared l :
  Forall is_byte d -> parseLayoutPhase2 d declared = Ok l ->
  layout_ok l /\ RegionSize l = declared /\ zlen d = declared /\
  Magic l = layoutMagic /\ LayoutVersion l = 1 /\ HeaderFlags l = 0.
Proof. apply parse_inv. Qed.

Lemma parse_np d declared :
  Forall is_byte d -> minRegionSize <= zlen d -> parseLayoutPhase2 d declared <> Panic.
Proof.
  intros Hd Hlen. unfold parseLayoutPhase2. no_panic;
    try fixed_read; auto using checkHeaderScalars_np, checkRingReservation_np,
      checkClassTableRanges_np, checkArenaTotal_np, deriveSpans_np, checkSpans_np.
  all: repeat match goal with
  | H : readU32 _ _ = Ok ?n |- _ => apply (readU32_range _ _ _ Hd) in H
  | H : readU64 _ _ = Ok ?n |- _ => apply (readU64_range _ _ _ Hd) in H
  end.
  all: match goal with H : checkClassTableRanges _ _ _ _ = Ok ?u |- _ =>
         destruct u; apply checkClassTableRanges_Ok in H as (? & ? & _); [|done..] end.
  all: unfold is_u32 in *.
  1-2: apply checkClassRules_np; unfold sizeClassEntrySize, headerSize, LayoutPageSize, minRegionSize, PageSize in *; lia.
  repeat match goal with
  | H : checkClassRules _ _ _ = Ok _ |- _ =>
      apply checkClassRules_Ok in H as (_ & _ & -> & ? & _); [|done|lia]
  | H : checkArenaTotal _ _ = Ok _ |- _ =>
      apply checkArenaTotal_Ok in H as (_ & ? & ? & _); [|done]
  end.
  match goal with H : checkRingReservation _ = Ok _ |- _ =>
    apply checkRingReservation_Ok in H as (? & _); [|done] end.
  match goal with H : deriveSpans _ _ _ = Ok _ |- _ =>
    apply deriveSpans_Ok in H as [-> ?]; [|done|unfold is_u64 in *; lia..] end.
  match goal with H : checkSpansAndCoverage _ _ _ = Ok ?u |- _ =>
    destruct u; apply checkSpans_Ok in H as [_ ?] end.
  unfold is_u64, minRingCapacity, PageSize, DescriptorSize in *.
  apply checkReservedZero_np; simpl in *; unfold PageSize, DescriptorSize; try lia.
Qed.

(** C38: validation of a hostile page is total.  On any bytes at least two
    pages long (what Phase 1 guarantees before mapping) Phase 2 returns a
    layout or [ErrBadGeometry]; no slice expression in it can panic, whatever
    counts and offsets the page claims. *)
Theorem parse_never_panics d declared :
  Forall is_byte d -> minRegionSize <= zlen d -> parseLayoutPhase2 d declared <> Panic.
Proof. apply parse_np. Qed.

(** ** Lemmas on writing the page *)

(** Writes in ascending, non-overlapping order. *)
Fixpoint chain (lo : Z) (ws : list (Z * list Z)) : Prop :=
  match ws with [] => True | (o, bs) :: ws => lo <= o /\ chain (o + zlen bs) ws end.

Fixpoint chain_end (lo : Z) (ws : list (Z * list Z)) : Z :=
  match ws with [] => lo | (o, bs) :: ws => chain_end (o + zlen bs) ws end.

Definition holds (d : list Z) (w : Z * list Z) : Prop :=
  0 <= fst w /\ fst w + zlen (snd w) <= zlen d /\
  sub_bytes (Z.to_nat (fst w)) (length (snd w)) d = snd w.

Lemma chain_end_ge lo ws : chain lo ws -> lo <= chain_end lo ws.
Proof.
  revert lo. induction ws as [|[o bs] ws IH]; intros lo; simpl; [lia|].
  intros [H1 H2]. apply IH in H2. unfold zlen in *. lia.
Qed.

Lemma chain_app lo ws1 ws2 : chain lo (ws1 ++ ws2) <-> chain lo ws1 /\ chain (chain_end lo ws1) ws2.
Proof.
  revert lo. induction ws1 as [|[o bs] ws1 IH]; intros lo; simpl; [tauto|]. rewrite IH. tauto.
Qed.

Lemma chain_end_app lo ws1 ws2 : chain_end lo (ws1 ++ ws2) = chain_end (chain_end lo ws1) ws2.
Proof. revert lo. induction ws1 as [|[o bs] ws1 IH]; intros lo; simpl; auto. Qed.

Lemma put_all_app d ws1 ws2 :
  put_all d (ws1 ++ ws2) = let! d' := put_all d ws1 in put_all d' ws2.
Proof.
  revert d. induction ws1 as [|w ws1 IH]; intros d; simpl; [done|].
  destruct (put_at d w); simpl; auto.
Qed.

(** A chain of writes that fits leaves every write readable and everything
    outside [lo, chain_end) untouched. *)
Lemma put_all_chain lo ws d :
  0 <= lo -> chain lo ws -> chain_end lo ws <= zlen d ->
  exists d', put_all d ws = Ok d' /\ zlen d' = zlen d /\ Forall (holds d') ws /\
    forall off w, Z.of_nat off + Z.of_nat w <= lo \/ chain_end lo ws <= Z.of_nat off ->
      sub_bytes off w d' = sub_bytes off w d.
Proof.
  revert lo d. induction ws as [|[o bs] ws IH]; intros lo d Hlo Hch Hend; simpl in *.
  { exists d. auto. }
  destruct Hch as [Ho Hch]. pose proof (chain_end_ge _ _ Hch) as Hge.
  destruct (Z.leb_spec 0 o); [|lia]. destruct (Z.leb_spec (o + zlen bs) (zlen d)); [|lia]. simpl.
  assert (Hl : zlen (put_bytes (Z.to_nat o) bs d) = zlen d).
  { unfold zlen in *. rewrite length_put_bytes; lia. }
  destruct (IH (o + zlen bs) (put_bytes (Z.to_nat o) bs d)) as (d' & H1 & H2 & H3 & H4);
    [unfold zlen in *; lia|done|lia|].
  exists d'. split_and!; [done|lia| |].
  - constructor; [|done]. unfold holds; simpl. split_and!; [lia|lia|].
    rewrite H4 by (unfold zlen; lia). apply sub_put_same; unfold zlen in *; lia.
  - intros off w Hw. rewrite H4 by (unfold zlen in *; lia).
    apply sub_put_other; unfold zlen in *; lia.
Qed.

Lemma holds_readU32 d o v : is_u32 v -> holds d (o, le_encode 4 v) -> readU32 d o = Ok v.
Proof.
  intros Hv (H0 & H1 & H2). cbn [fst snd] in *. unfold zlen in H1. rewrite length_le_encode in H1, H2.
  unfold readU32. rewrite slice_in_range by (unfold zlen; lia).
  replace (Z.to_nat (o + 4 - o)) with 4%nat by lia. rewrite H2. f_equal. now apply le_decode_encode.
Qed.

Lemma holds_readU64 d o v : is_u64 v -> holds d (o, le_encode 8 v) -> readU64 d o = Ok v.
Proof.
  intros Hv (H0 & H1 & H2). cbn [fst snd] in *. unfold zlen in H1. rewrite length_le_encode in H1, H2.
  unfold readU64. rewrite slice_in_range by (unfold zlen; lia).
  replace (Z.to_nat (o + 8 - o)) with 8%nat by lia. rewrite H2. f_equal. now apply le_decode_encode.
Qed.

Lemma holds_slice d o bs : holds d (o, bs) -> slice_or_panic d o (o + zlen bs) = Ok bs.
Proof.
  intros (H0 & H1 & H2). simpl in *. unfold slice_or_panic.
  rewrite slice_in_range by (unfold zlen in *; lia).
  replace (Z.to_nat (o + zlen bs - o)) with (length bs) by (unfold zlen; lia). now rewrite H2.
Qed.

Lemma class_writes_chain tab i cs :
  chain (tab + i * sizeClassEntrySize) (class_writes tab i cs) /\
  chain_end (tab + i * sizeClassEntrySize) (class_writes tab i cs) =
    tab + (i + zlen cs) * sizeClassEntrySize.
Proof.
  revert i. induction cs as [|c cs IH]; intros i; simpl.
  { unfold zlen; simpl. split; [done|]. f_equal; lia. }
  destruct (IH (i + 1)) as [H1 H2]. unfold zlen in *. rewrite !length_le_encode. simpl length.
  unfold sizeClassEntrySize, offSizeClassSlabSize, offSizeClassSlabCount, offSizeClassBaseOffset,
    offSizeClassReserved in *.
  replace (tab + i * 16 + 12 + Z.of_nat 4) with (tab + (i + 1) * 16) by lia.
  split_and!; [lia..|done|]. rewrite H2. lia.
Qed.

Definition full_class (c : SizeClass) : Prop := raw_class c /\ is_u32 (ClassBaseOffset c).

Lemma class_writes_read d tab i cs :
  Forall full_class cs -> Forall (holds d) (class_writes tab i cs) ->
  decode_classes d tab i (length cs) = Ok cs /\ entries_reserved_zero d tab i (length cs) = Ok tt.
Proof.
  intros Hf. revert i. induction Hf as [|c cs [[Hs Hc] Hb] _ IH]; intros i Hh; simpl; [done|].
  inversion Hh as [|? ? W1 Hh1]; inversion Hh1 as [|? ? W2 Hh2]; inversion Hh2 as [|? ? W3 Hh3];
    inversion Hh3 as [|? ? W4 Hh4]; subst.
  destruct (IH (i + 1) Hh4) as [H1 H2].
  apply holds_readU32 in W1, W2, W3, W4; try done.
  rewrite W1, W2, W3, W4. simpl. rewrite H1, H2. simpl. by destruct c.
Qed.

(** ** Created regions *)

(** The Go types of the host-chosen fields. *)
Record typed_input (l : Layout) : Prop := {
  ti_capacity : is_u32 (RingCapacity l);
  ti_reserve : is_u32 (LifecycleReserve l);
  ti_generation : is_u64 (Generation l);
  ti_HP : Forall raw_class (Classes (ArenaHP l));
  ti_PH : Forall raw_class (Classes (ArenaPH l))
}.

(** A layout as [CreateRegion] writes it. *)
Record created_layout (l : Layout) : Prop := {
  cl_ok : layout_ok l;
  cl_magic : Magic l = layoutMagic;
  cl_version : LayoutVersion l = 1;
  cl_flags : HeaderFlags l = 0;
  cl_generation : is_u64 (Generation l);
  cl_tableHP : ClassTableOffset (ArenaHP l) = headerSize;
  cl_tablePH : ClassTableOffset (ArenaPH l) =
               headerSize + zlen (Classes (ArenaHP l)) * sizeClassEntrySize;
  cl_end : ClassTableOffset (ArenaPH l) + zlen (Classes (ArenaPH l)) * sizeClassEntrySize
           <= LayoutPageSize
}.

Lemma bounds_raw cs : bounds_ok cs -> Forall raw_class cs.
Proof. intros [H _ _]. eapply Forall_impl; [exact H|]. intros c (? & ? & _). split; auto. Qed.

Lemma bounds_nonempty cs : bounds_ok cs -> 1 <= zlen cs.
Proof.
  intros [_ _ (c & Hc & _)]. destruct cs; [done|]. unfold zlen. simpl. lia.
Qed.

Lemma class_total_ge cs : Forall class_ok cs -> CacheLine * zlen cs <= class_total cs.
Proof.
  unfold zlen, CacheLine. induction 1 as [|c cs (_ & _ & Hp & [k Hk] & Hc) _ IH]; simpl length; simpl.
  - lia.
  - unfold extent, CacheLine in *. nia.
Qed.

Lemma arena_classes_full a : arena_ok a -> Forall full_class (Classes a).
Proof.
  intros [[Hb Hc] Ht _ Hm]. pose proof (bounds_raw _ Hb) as Hraw.
  apply contiguous_bases in Hc.
  assert (Hbase : Forall is_u32 (map ClassBaseOffset (Classes a))).
  { rewrite Hc. apply Forall_forall. intros b Hi.
    apply list_elem_of_In, bases_from_bound in Hi; [|done].
    unfold is_u32, maxArenaBytes, MaxUint32 in *. lia. }
  clear Hc Ht Hm Hb. induction Hraw as [|c cs H1 _ IH]; [constructor|].
  inversion Hbase; subst. constructor; [split; auto|auto].
Qed.

Lemma arena_count_small a : arena_ok a -> zlen (Classes a) < 2 ^ 26.
Proof.
  intros [[[Hf _ _] _] Ht _ Hm]. apply class_total_ge in Hf.
  unfold CacheLine, maxArenaBytes, MaxUint32 in *. lia.
Qed.

Lemma DeriveLayout_Ok input l :
  typed_input input -> DeriveLayout input = Ok l ->
  created_layout (mkLayout layoutMagic 1 0 (Generation input) (RegionSize l)
     (RingCapacity l) (LifecycleReserve l) (SyncPageOffset l) (RingHP l) (RingPH l)
     (ArenaHP l) (ArenaPH l)) /\
  RingCapacity l = RingCapacity input /\ LifecycleReserve l = LifecycleReserve input /\
  same_sizes (Classes (ArenaHP input)) (Classes (ArenaHP l)) /\
  same_sizes (Classes (ArenaPH input)) (Classes (ArenaPH l)).
Proof.
  intros [Hc Hr Hg HH HP] H. unfold DeriveLayout in H. peel_ok H. simplify_eq. simpl.
  destruct a, a0. apply validateRingCapacity_Ok in Ha as [? ?]; [|done].
  apply validateLifecycleReserve_Ok in Ha0; [|done].
  apply buildArenaGeometry_Ok in Ha1 as [Hs1 Ho1]; [|done].
  apply buildArenaGeometry_Ok in Ha2 as [Hs2 Ho2]; [|done].
  pose proof (class_total_nonneg _ (bounds_raw _ (co_bounds _ (ao_classes _ (Ho1 0 0))))) as T1.
  pose proof (class_total_nonneg _ (bounds_raw _ (co_bounds _ (ao_classes _ (Ho2 0 0))))) as T2.
  destruct (Ho1 0 0) as [_ B1 _ M1], (Ho2 0 0) as [_ B2 _ M2].
  pose proof (arena_count_small _ (Ho1 0 0)) as N1. pose proof (arena_count_small _ (Ho2 0 0)) as N2.
  simpl in *. apply deriveSpans_Ok in Ha3 as [-> Hmax]; [|done|lia..]. simpl in *.
  unfold classTableRecommendedOffset, headerSize, sizeClassEntrySize, LayoutPageSize, PageSize in *.
  bool_to_prop.
  assert (E1 : u64 (256 + zlen l0 * 16) = 256 + zlen l0 * 16) by (apply u64_id; unfold is_u64, zlen in *; lia).
  rewrite E1 in *. rewrite u64_id in G by (unfold is_u64, zlen in *; lia).
  split; [|done]. constructor; simpl; auto.
  constructor; simpl; auto; unfold SyncPageSize, PageSize, DescriptorSize in *; lia.
Qed.

Lemma zeros_sub off w n : (off + w <= n)%nat -> sub_bytes off w (replicate n 0) = replicate w 0.
Proof.
  intros. unfold sub_bytes. rewrite drop_replicate, take_replicate. f_equal. lia.
Qed.

Lemma isZero_replicate n : isZero (replicate n 0) = true.
Proof. induction n; auto. Qed.

(** A range untouched since the mapping was created passes the zero check. *)
Lemma untouched_zero d n lo hi :
  0 <= lo <= hi -> hi <= zlen d -> zlen d = n ->
  sub_bytes (Z.to_nat lo) (Z.to_nat (hi - lo)) d =
    sub_bytes (Z.to_nat lo) (Z.to_nat (hi - lo)) (replicate (Z.to_nat n) 0) ->
  check_zero_range d lo hi = Ok tt.
Proof.
  intros H1 H2 H3 H4. unfold check_zero_range, slice_or_panic.
  rewrite slice_in_range by done. simpl. rewrite H4, zeros_sub by lia. now rewrite isZero_replicate.
Qed.

Definition all_writes (l : Layout) : list (Z * list Z) :=
  header_writes l ++ class_writes (ClassTableOffset (ArenaHP l)) 0 (Classes (ArenaHP l))
  ++ class_writes (ClassTableOffset (ArenaPH l)) 0 (Classes (ArenaPH l)).

Lemma header_chain l :
  length (Magic l) = 8%nat -> chain 0 (header_writes l) /\ chain_end 0 (header_writes l) = headerSize.
Proof.
  intros Hm. unfold header_writes, zlen. cbn [chain chain_end]. unfold zlen.
  rewrite !length_le_encode, Hm, length_replicate.
  unfold offMagic, offLayoutVersion, offHeaderFlags, offGeneration, offRegionSize, offPageSize,
    offDescriptorSize, offRingCapacity, offNumClassesHP, offNumClassesPH, offReservedU32,
    offSyncPageOffset, offRingHPOffset, offRingPHOffset, offArenaHPOffset, offArenaPHOffset,
    offArenaBytesHP, offArenaBytesPH, offClassTableHPOffset, offClassTablePHOffset, offShardCount,
    offLifecycleReserve, offReservedHdr, reservedHdrSize, headerSize. lia.
Qed.

Lemma all_writes_chain l :
  created_layout l ->
  chain 0 (all_writes l) /\
  chain_end 0 (all_writes l) =
    ClassTableOffset (ArenaPH l) + zlen (Classes (ArenaPH l)) * sizeClassEntrySize.
Proof.
  intros Hl. destruct (header_chain l) as [H1 H2]; [now rewrite (cl_magic _ Hl)|].
  destruct (class_writes_chain (ClassTableOffset (ArenaHP l)) 0 (Classes (ArenaHP l))) as [H3 H4].
  destruct (class_writes_chain (ClassTableOffset (ArenaPH l)) 0 (Classes (ArenaPH l))) as [H5 H6].
  rewrite Z.mul_0_l, Z.add_0_r, Z.add_0_l in *. unfold all_writes.
  rewrite !chain_app, !chain_end_app, H2, <- (cl_tableHP _ Hl), H4.
  replace (ClassTableOffset (ArenaHP l) + zlen (Classes (ArenaHP l)) * sizeClassEntrySize)
    with (ClassTableOffset (ArenaPH l)) by (rewrite (cl_tableHP _ Hl); apply (cl_tablePH _ Hl)).
  auto.
Qed.

Lemma written_page l :
  created_layout l ->
  exists d, writeLayoutPage (replicate (Z.to_nat (RegionSize l)) 0) l = Ok d /\
    zlen d = RegionSize l /\ Forall (holds d) (all_writes l) /\
    forall lo hi, LayoutPageSize <= lo <= hi -> hi <= RegionSize l -> check_zero_range d lo hi = Ok tt.
Proof.
  intros Hl. pose proof (all_writes_chain l Hl) as [Hc He]. pose proof (cl_end _ Hl) as Hend.
  pose proof (cl_ok _ Hl) as [? _ _ ? ? ? ? ? ? ? [_ Ht1 _ _] [_ Ht2 _ _]].
  pose proof (class_total_nonneg _ (bounds_raw _ (co_bounds _ (ao_classes _ (lo_aHP _ (cl_ok _ Hl)))))).
  pose proof (class_total_nonneg _ (bounds_raw _ (co_bounds _ (ao_classes _ (lo_aPH _ (cl_ok _ Hl)))))).
  assert (Hz : zlen (replicate (Z.to_nat (RegionSize l)) 0) = RegionSize l).
  { unfold zlen. rewrite length_replicate.
    unfold minRingCapacity, SyncPageSize, DescriptorSize, PageSize in *. lia. }
  assert (2 * LayoutPageSize <= RegionSize l).
  { unfold minRingCapacity, SyncPageSize, LayoutPageSize, DescriptorSize, PageSize in *. lia. }
  unfold LayoutPageSize, PageSize in *.
  destruct (put_all_chain 0 (all_writes l) (replicate (Z.to_nat (RegionSize l)) 0))
    as (d & W1 & W2 & W3 & W4); [lia|done|lia|].
  exists d. split_and!; [|lia|done|].
  - unfold writeLayoutPage, writeClassTable. unfold all_writes in W1. rewrite !put_all_app in W1.
    destruct (put_all _ (header_writes l)) as [d1| |]; simpl in *; [|done..].
    now rewrite put_all_app in W1.
  - intros lo hi Hlo Hhi. eapply untouched_zero; [lia..|exact W2|].
    rewrite Hz. apply W4. lia.
Qed.

(** Phase 2's checks on one direction's table, as written. *)
Lemma class_rules_written d a :
  arena_ok a -> Forall (holds d) (class_writes (ClassTableOffset a) 0 (Classes a)) ->
  checkClassRules d (ClassTableOffset a) (zlen (Classes a)) =
    Ok (Classes a, class_total (Classes a)) /\
  checkClassEntriesReservedZero d (ClassTableOffset a) (zlen (Classes a)) = Ok tt /\
  checkArenaTotal (class_total (Classes a)) (Bytes a) = Ok (Bytes a).
Proof.
  intros Ha Hw. destruct (class_writes_read d _ 0 (Classes a) (arena_classes_full a Ha) Hw) as [H1 H2].
  destruct Ha as [[Hb Hc] Ht Hp Hm]. pose proof (bounds_raw _ Hb) as Hraw.
  pose proof (class_total_nonneg _ Hraw). unfold maxArenaBytes, MaxUint32 in Hm.
  unfold checkClassRules, checkClassEntriesReservedZero, zlen. rewrite Nat2Z.id, H1. simpl.
  rewrite (proj2 (validateSlabBounds_Ok _ Hraw) Hb). simpl.
  unfold checkClassBaseOffsets, computeClassBaseOffsets.
  rewrite (class_bases_loop_complete 0) by (try done; lia). simpl.
  rewrite bool_decide_eq_true_2 by now apply contiguous_bases. simpl.
  split_and!; [done|done|]. unfold checkArenaTotal.
  rewrite (roundup_unique _ (Bytes a)) by (try done; unfold is_u64; lia). simpl.
  unfold maxArenaBytes, MaxUint32. destruct (Z.ltb_spec (2 ^ 32 - 1) (Bytes a)); [lia|].
  now rewrite Z.eqb_refl.
Qed.

Lemma table_ranges_written l :
  created_layout l ->
  checkClassTableRanges (zlen (Classes (ArenaHP l))) (zlen (Classes (ArenaPH l)))
    (ClassTableOffset (ArenaHP l)) (ClassTableOffset (ArenaPH l)) = Ok tt.
Proof.
  intros Hl. pose proof (cl_tableHP _ Hl) as EH. pose proof (cl_tablePH _ Hl) as EP.
  pose proof (cl_end _ Hl) as Hend.
  pose proof (bounds_nonempty _ (co_bounds _ (ao_classes _ (lo_aHP _ (cl_ok _ Hl))))).
  pose proof (bounds_nonempty _ (co_bounds _ (ao_classes _ (lo_aPH _ (cl_ok _ Hl))))).
  rewrite EH in *. rewrite EP in *.
  unfold headerSize, sizeClassEntrySize, LayoutPageSize, PageSize in *.
  unfold checkClassTableRanges, checkOneClassTableRange, overlaps, headerSize, sizeClassEntrySize,
    LayoutPageSize, PageSize.
  rewrite !u64_id by (unfold is_u64; lia).
  repeat (case_test; bool_to_prop; simpl;
    try match goal with E : (_ || _)%bool = true |- _ => apply orb_true_iff in E as [|] end;
    bool_to_prop; try lia; try (width_lia)).
  done.
Qed.

Lemma header_checks_written l d :
  created_layout l -> Forall (holds d) (header_writes l) ->
  checkHeaderScalars d = Ok tt /\
  checkRingReservation d = Ok (RingCapacity l, LifecycleReserve l) /\
  readU32 d offNumClassesHP = Ok (zlen (Classes (ArenaHP l))) /\
  readU32 d offNumClassesPH = Ok (zlen (Classes (ArenaPH l))) /\
  readU64 d offClassTableHPOffset = Ok (ClassTableOffset (ArenaHP l)) /\
  readU64 d offClassTablePHOffset = Ok (ClassTableOffset (ArenaPH l)) /\
  readU64 d offArenaBytesHP = Ok (Bytes (ArenaHP l)) /\
  readU64 d offArenaBytesPH = Ok (Bytes (ArenaPH l)) /\
  check_fields d
    [(offSyncPageOffset, SyncPageOffset l); (offRingHPOffset, RingHP l); (offRingPHOffset, RingPH l);
     (offArenaHPOffset, Offset (ArenaHP l)); (offArenaPHOffset, Offset (ArenaPH l));
     (offRegionSize, RegionSize l)] = Ok tt /\
  slice_or_panic d offMagic (offMagic + 8) = Ok (Magic l) /\
  readU32 d offLayoutVersion = Ok (LayoutVersion l) /\
  readU32 d offHeaderFlags = Ok (HeaderFlags l) /\
  readU64 d offGeneration = Ok (Generation l) /\
  check_zero_range d offReservedHdr (offReservedHdr + reservedHdrSize) = Ok tt.
Proof.
  intros Hl Hh. pose proof (cl_ok _ Hl) as Hok. pose proof Hok as [Hc Hk Hr ? ? ? ? ? ? Hmax HaH HaP].
  pose proof (arena_count_small _ HaH) as NH. pose proof (arena_count_small _ HaP) as NP.
  pose proof (class_total_nonneg _ (bounds_raw _ (co_bounds _ (ao_classes _ HaH)))).
  pose proof (class_total_nonneg _ (bounds_raw _ (co_bounds _ (ao_classes _ HaP)))).
  pose proof (ao_total _ HaH). pose proof (ao_total _ HaP).
  pose proof (cl_end _ Hl). pose proof (cl_tableHP _ Hl). pose proof (cl_tablePH _ Hl).
  pose proof (cl_generation _ Hl). pose proof (cl_version _ Hl). pose proof (cl_flags _ Hl).
  unfold minRingCapacity, maxRingCapacity, maxRegionSize, headerSize, sizeClassEntrySize,
    LayoutPageSize, SyncPageSize, PageSize, DescriptorSize in *.
  unfold header_writes in Hh. rewrite !(u32_id (zlen _)) in Hh by (unfold is_u32, zlen in *; lia).
  repeat (apply Forall_cons in Hh; destruct Hh as [? Hh]).
  assert (Hmag : slice_or_panic d offMagic (offMagic + 8) = Ok (Magic l)).
  { change 8 with (zlen layoutMagic). rewrite <- (cl_magic _ Hl). now apply holds_slice. }
  assert (Hrsv : check_zero_range d offReservedHdr (offReservedHdr + reservedHdrSize) = Ok tt).
  { unfold check_zero_range.
    match goal with H : holds d (offReservedHdr, _) |- _ => apply holds_slice in H; rename H into Hs end.
    unfold zlen in Hs. rewrite length_replicate in Hs. change (Z.of_nat (Z.to_nat reservedHdrSize)) with reservedHdrSize in Hs.
    rewrite Hs. unfold obind. now rewrite isZero_replicate. }
  repeat match goal with
  | H : holds d (?o, le_encode 4 ?v) |- _ =>
      apply holds_readU32 in H; [|unfold is_u32, zlen, PageSize, DescriptorSize in *; lia]
  | H : holds d (?o, le_encode 8 ?v) |- _ =>
      apply holds_readU64 in H; [|unfold is_u64, zlen in *; lia]
  end.
  unfold checkHeaderScalars, checkRingReservation. rewrite Hmag. cbn [check_fields].
  repeat match goal with H : readU32 _ _ = Ok _ |- _ => rewrite H; clear H end.
  repeat match goal with H : readU64 _ _ = Ok _ |- _ => rewrite H; clear H end.
  simpl obind. rewrite (cl_magic _ Hl), (cl_version _ Hl), !Z.eqb_refl.
  rewrite (bool_decide_eq_true_2 (layoutMagic = layoutMagic)) by done.
  rewrite (proj2 (validateRingCapacity_Ok (RingCapacity l) ltac:(unfold is_u32; lia)))
    by (unfold minRingCapacity, maxRingCapacity; auto).
  simpl obind.
  rewrite (proj2 (validateLifecycleReserve_Ok (LifecycleReserve l) (RingCapacity l) ltac:(unfold is_u32; lia)))
    by done.
  split_and!; try done; rewrite ?(cl_magic _ Hl); auto.
Qed.

Lemma spans_written l :
  layout_ok l ->
  deriveSpans (RingCapacity l) (Bytes (ArenaHP l)) (Bytes (ArenaPH l)) =
    Ok (mkDerived (SyncPageOffset l) (RingHP l) (RingPH l) (Offset (ArenaHP l)) (Offset (ArenaPH l))
          (Bytes (ArenaHP l)) (Bytes (ArenaPH l)) (RegionSize l)).
Proof.
  intros [Hc _ _ E1 E2 E3 E4 E5 E6 _ HaH HaP].
  pose proof (class_total_nonneg _ (bounds_raw _ (co_bounds _ (ao_classes _ HaH)))).
  pose proof (class_total_nonneg _ (bounds_raw _ (co_bounds _ (ao_classes _ HaP)))).
  pose proof (ao_total _ HaH). pose proof (ao_total _ HaP).
  pose proof (ao_max _ HaH). pose proof (ao_max _ HaP).
  destruct (deriveSpans_complete (RingCapacity l) (Bytes (ArenaHP l)) (Bytes (ArenaPH l)))
    as [g Hg]; [done|lia..|].
  rewrite Hg. f_equal. apply deriveSpans_Ok in Hg as [-> _]; [|done|lia..].
  unfold SyncPageSize, PageSize, DescriptorSize in *. f_equal; lia.
Qed.

Lemma created_round_trip l :
  created_layout l ->
  exists d, writeLayoutPage (replicate (Z.to_nat (RegionSize l)) 0) l = Ok d /\
    parseLayoutPhase2 d (RegionSize l) = Ok l.
Proof.
  intros Hl. destruct (written_page l Hl) as (d & Hw & Hlen & Hall & Hzero).
  exists d. split; [done|]. unfold all_writes in Hall. rewrite !Forall_app in Hall.
  destruct Hall as (Hh & HcH & HcP). pose proof (cl_ok _ Hl) as Hok.
  destruct (header_checks_written l d Hl Hh)
    as (R1 & R2 & R3 & R4 & R5 & R6 & R7 & R8 & R9 & R10 & R11 & R12 & R13 & R14).
  destruct (class_rules_written d _ (lo_aHP _ Hok) HcH) as (C1 & C2 & C3).
  destruct (class_rules_written d _ (lo_aPH _ Hok) HcP) as (D1 & D2 & D3).
  unfold parseLayoutPhase2.
  rewrite R1; cbn [obind]. rewrite R2; cbn [obind]. rewrite R3, R4, R5, R6; cbn [obind].
  rewrite (table_ranges_written l Hl); cbn [obind]. rewrite C1; cbn [obind]. rewrite D1; cbn [obind].
  rewrite R7; cbn [obind]. rewrite C3, R8; cbn [obind]. rewrite D3; cbn [obind]. rewrite (spans_written l Hok); cbn [obind].
  unfold checkSpansAndCoverage; cbn [syncPageOffset ringHPOffset ringPHOffset arenaHPOffset arenaPHOffset regionSize].
  rewrite R9, Hlen, !Z.eqb_refl; cbn [obind negb].
  unfold checkReservedZero, checkSyncPageReservedTailZero, checkArenaPadZero;
    cbn [syncPageOffset arenaHPOffset arenaPHOffset arenaBytesHP arenaBytesPH].
  rewrite R12; cbn [obind]. rewrite (cl_flags _ Hl), Z.eqb_refl, R14, C2, D2, R10, R11, R13; cbn [obind negb].
  pose proof Hok as [Hc _ _ E1 E2 E3 E4 E5 E6 Hm [_ T1 _ _] [_ T2 _ _]].
  pose proof (class_total_nonneg _ (bounds_raw _ (co_bounds _ (ao_classes _ (lo_aHP _ Hok))))).
  pose proof (class_total_nonneg _ (bounds_raw _ (co_bounds _ (ao_classes _ (lo_aPH _ Hok))))).
  unfold LayoutPageSize, SyncPageSize, syncPageReservedTailOffset, minRingCapacity, maxRegionSize,
    DescriptorSize, PageSize in *.
  rewrite !u64_id by (unfold is_u64; lia). rewrite !Hzero by lia. cbn [obind].
  pose proof (cl_flags _ Hl) as Hfl.
  destruct l as [? ? ? ? ? ? ? ? ? ? [] []]; simpl in *. by subst.
Qed.

(** The documented result of mapping a freshly truncated memfd: zero bytes. *)
Definition fresh_mapping (k : create_sys) : Prop :=
  forall n d, sys_mmap_new k n = Some d -> d = replicate (Z.to_nat n) 0.

(** C28: a created region attaches to itself.  When [CreateRegion] succeeds on
    well-typed input, Phase 2 run on the bytes it wrote, with its region size
    as the declared size, accepts and decodes exactly the layout the creator
    holds; that layout is well formed and has the capacity, reserve,
    generation and slab sizes the host chose. *)
Theorem create_attach_round_trip k input p p' r :
  typed_input input -> fresh_mapping k -> CreateRegion k input p = (p', Ok r) ->
  exists d, data r = Some d /\
    parseLayoutPhase2 d (RegionSize (layout r)) = Ok (layout r) /\
    layout_ok (layout r) /\
    RingCapacity (layout r) = RingCapacity input /\
    LifecycleReserve (layout r) = LifecycleReserve input /\
    Generation (layout r) = Generation input /\
    same_sizes (Classes (ArenaHP input)) (Classes (ArenaHP (layout r))) /\
    same_sizes (Classes (ArenaPH input)) (Classes (ArenaPH (layout r))).
Proof.
  intros Ht Hf H. unfold CreateRegion in H. repeat case_test_in H; try done. bool_to_prop.
  destruct (DeriveLayout input) as [l| |] eqn:Hd; [|done..].
  assert (HeaderFlags l = 0) as Hfl.
  { unfold DeriveLayout in Hd. peel_ok Hd. by simplify_eq. }
  apply DeriveLayout_Ok in Hd as (Hcl & ? & ? & ? & ?); [|done].
  rewrite Hfl in H. unfold createSealedRegion in H.
  destruct (sys_memfd k); [|done]. destruct (sys_truncate k); [|done]. cbn [negb] in H.
  destruct (sys_mmap_new k _) as [d0|] eqn:Hm; [|done]. apply Hf in Hm as ->.
  destruct (created_round_trip _ Hcl) as (d & Hw & Hp). rewrite Hw in H.
  destruct (sys_add_seals k); [|done]. simpl in H. simplify_eq. simpl in *.
  exists d. pose proof (cl_ok _ Hcl). auto 10.
Qed.

Definition sample_classes : list SizeClass := [mkSizeClass 64 4 0; mkSizeClass 4096 1 0].
Definition sample_input : Layout :=
  mkLayout [] 0 0 7 0 64 8 0 0 0
    (mkArenaGeometry 0 0 0 sample_classes) (mkArenaGeometry 0 0 0 [mkSizeClass 4096 2 0]).
Definition sample_create_sys : create_sys :=
  mkCreateSys (Some 3) true (fun n => Some (replicate (Z.to_nat n) 0)) true.
Definition sample_process : process := mkProcess 3 0 0 0.

Lemma sample_typed : typed_input sample_input.
Proof.
  constructor; simpl; try (unfold is_u32, is_u64; lia);
    repeat constructor; simpl; unfold is_u32; lia.
Qed.

Definition sample_created : process * result Region :=
  CreateRegion sample_create_sys sample_input sample_process.

Lemma sample_fresh : fresh_mapping sample_create_sys.
Proof. intros n d Hd. unfold sample_create_sys in Hd. cbn [sys_mmap_new] in Hd. congruence. Qed.

Lemma create_attach_round_trip_witness :
  exists p' r d, CreateRegion sample_create_sys sample_input sample_process = (p', Ok r) /\
    data r = Some d /\ parseLayoutPhase2 d (RegionSize (layout r)) = Ok (layout r) /\
    RingCapacity (layout r) = 64.
Proof.
  destruct (is_ok_exists (snd (CreateRegion sample_create_sys sample_input sample_process))
    ltac:(vm_compute; reflexivity)) as [r Hr]. apply pair_snd in Hr.
  destruct (create_attach_round_trip _ _ _ _ r sample_typed sample_fresh Hr) as (d & H1 & H2 & _ & H3 & _).
  eexists _, r, d. split_and!; [exact Hr|exact H1|exact H2|exact H3].
Defined.

Definition sample_data : list Z :=
  match snd sample_created with Ok r => default [] (data r) | _ => [] end.

Lemma parse_accepts_only_well_formed_witness :
  exists l, parseLayoutPhase2 sample_data 32768 = Ok l /\ layout_ok l /\ RegionSize l = 32768.
Proof.
  destruct (is_ok_exists (parseLayoutPhase2 sample_data 32768) ltac:(vm_compute; reflexivity))
    as [l Hl].
  exists l. split; [exact Hl|].
  destruct (parse_accepts_only_well_formed sample_data 32768 l) as (H1 & H2 & _).
  - apply bytes_ok_Forall. vm_compute. reflexivity.
  - exact Hl.
  - split; [exact H1|exact H2].
Defined.

(** A page that claims 2^32 - 1 classes is rejected, not followed. *)
Lemma parse_never_panics_witness :
  parseLayoutPhase2 (put_bytes 44 [255; 255; 255; 255] sample_data) 32768 <> Panic.
Proof.
  apply parse_never_panics.
  - apply bytes_ok_Forall. vm_compute. reflexivity.
  - vm_compute. discriminate.
Defined.

(** ** The region's resources *)

(** The documented result of mmap: as many bytes as were asked for. *)
Definition mapping_sized (k : open_sys) : Prop :=
  forall n d, sys_mmap k n = Some d -> Forall is_byte d /\ zlen d = n.

(** [p] plus one descriptor, one mapping and one created region. *)
Definition acquired (p : process) : process :=
  mkProcess (openFds p + 1) (mappings p + 1) (regionsCreated p + 1) (regionsClosed p).

Lemma close_open_fd p : close_fd (open_fd p) = p.
Proof. destruct p; unfold close_fd, open_fd; simpl; f_equal; lia. Qed.

Lemma unmap_map_open p : close_fd (unmap_mem (map_mem (open_fd p))) = p.
Proof. destruct p; unfold close_fd, unmap_mem, map_mem, open_fd; simpl; f_equal; lia. Qed.

Lemma deriveLayout_np input : DeriveLayout input <> Panic.
Proof.
  unfold DeriveLayout. no_panic;
    try apply buildArenaGeometry_np; try apply deriveSpans_np;
    unfold validateRingCapacity, validateLifecycleReserve; no_panic.
Qed.

(** Every error of Phase 2 is [ErrBadGeometry]. *)
Definition only_bad {A} (m : result A) : Prop := forall e, m = Err e -> e = ErrBadGeometry.

Lemma bad_bind {A B} (m : result A) (f : A -> result B) :
  only_bad m -> (forall a, only_bad (f a)) -> only_bad (obind m f).
Proof. intros Hm Hf e. destruct m; simpl; [apply Hf|intros; apply Hm; congruence|done]. Qed.

Lemma bad_Ok {A} (a : A) : only_bad (Ok a).
Proof. done. Qed.
Lemma bad_Err {A} : only_bad (@Err _ A ErrBadGeometry).
Proof. intros e ?; congruence. Qed.
Lemma bad_read32 d o : only_bad (readU32 d o).
Proof. intros e. unfold readU32. by destruct (slice _ _ _). Qed.
Lemma bad_read64 d o : only_bad (readU64 d o).
Proof. intros e. unfold readU64. by destruct (slice _ _ _). Qed.
Lemma bad_slice d lo hi : only_bad (slice_or_panic d lo hi).
Proof. intros e. unfold slice_or_panic. by destruct (slice _ _ _). Qed.
Lemma bad_add a b : only_bad (addOverflowSafe a b).
Proof. unfold addOverflowSafe. case_test; [apply bad_Err|apply bad_Ok]. Qed.

#[local] Hint Resolve bad_Ok bad_Err bad_read32 bad_read64 bad_slice bad_add : styx.

Ltac bad :=
  repeat (cbv beta zeta;
    match goal with
    | |- only_bad (obind _ _) => apply bad_bind; [auto with styx|intros ?]
    | |- only_bad (if ?b then _ else _) => destruct b
    | |- only_bad (match ?p with (_, _) => _ end) => destruct p
    | |- only_bad _ => solve [auto with styx]
    end).

Lemma bad_slab_loop i q cs : only_bad (slab_bounds_loop i q cs).
Proof. revert i q. induction cs; intros; simpl; bad. Qed.
Lemma bad_bases b cs : only_bad (class_bases_loop b cs).
Proof. revert b. induction cs; intros; simpl; bad. Qed.
Lemma bad_decode d t i n : only_bad (decode_classes d t i n).
Proof. revert i. induction n; intros; simpl; bad. Qed.
Lemma bad_entries d t i n : only_bad (entries_reserved_zero d t i n).
Proof. revert i. induction n; intros; simpl; bad. Qed.
Lemma bad_fields d fs : only_bad (check_fields d fs).
Proof. induction fs as [|[]]; intros; simpl; bad. Qed.
Lemma bad_validate cs : only_bad (validateSlabBounds cs).
Proof. unfold validateSlabBounds. destruct (last cs); bad. apply bad_slab_loop. Qed.

#[local] Hint Resolve bad_slab_loop bad_bases bad_decode bad_entries bad_fields bad_validate : styx.

Lemma parse_only_bad d n : only_bad (parseLayoutPhase2 d n).
Proof.
  unfold parseLayoutPhase2, checkHeaderScalars, checkRingReservation, validateRingCapacity,
    validateLifecycleReserve, checkClassTableRanges, checkOneClassTableRange, checkClassRules,
    checkClassBaseOffsets, computeClassBaseOffsets, checkArenaTotal, roundupPageSize, deriveSpans,
    checkSpansAndCoverage, checkReservedZero, checkSyncPageReservedTailZero,
    checkClassEntriesReservedZero, checkArenaPadZero, check_zero_range.
  repeat (bad; try apply bad_bind; intros).
Qed.

(** No descriptor or mapping leaks on any path.  A failed [CreateRegion],
    and an [OpenRegion] that returns no region, leave the process as it was;
    each success, and each Phase 2 rejection (which hands its still mapped
    region to the caller), acquires exactly one descriptor and one mapping;
    one [Close] releases both, and a further [Close] releases nothing.  A
    Phase 1 rejection never maps, and neither call panics. *)
Theorem region_resources_balanced ck ok input size p :
  typed_input input -> fresh_mapping ck -> mapping_sized ok ->
  (match CreateRegion ck input p with
   | (p', Ok r) => p' = acquired p /\ closed r = false
   | (p', Err _) => p' = p
   | (_, Panic) => False
   end) /\
  (match OpenRegion ok size p with
   | (p', Ok (Some r, e)) =>
       p' = acquired p /\ closed r = false /\ (e = None \/ e = Some ErrBadGeometry)
   | (p', Ok (None, e)) => p' = p /\ e <> None /\ e <> Some ErrBadGeometry
   | _ => False
   end) /\
  (forall r c1 m2 c2, closed r = false ->
     let '(p1, r1, res1) := Close true c1 r (acquired p) in
     p1 = mkProcess (openFds p) (mappings p) (regionsCreated p + 1) (regionsClosed p + 1) /\
     data r1 = None /\ res1 = c1 /\ Close m2 c2 r1 p1 = (p1, r1, true)).
Proof.
  intros Ht Hf Hm. split_and!.
  - unfold CreateRegion. repeat case_test; auto.
    pose proof (deriveLayout_np input).
    destruct (DeriveLayout input) as [l| |] eqn:Hd; [|done..].
    assert (HeaderFlags l = 0) as Hfl.
    { bool_to_prop. unfold DeriveLayout in Hd. peel_ok Hd. by simplify_eq. }
    apply DeriveLayout_Ok in Hd as (Hcl & _); [|done]. rewrite Hfl.
    unfold createSealedRegion. destruct (sys_memfd ck); [|done].
    destruct (sys_truncate ck); simpl; [|apply close_open_fd].
    destruct (sys_mmap_new ck _) as [d0|] eqn:Hn; [|apply close_open_fd]. apply Hf in Hn as ->.
    destruct (created_round_trip _ Hcl) as (d & Hw & _). simpl in Hw. rewrite Hw.
    destruct (sys_add_seals ck); simpl; [done|apply unmap_map_open].
  - unfold OpenRegion, openRegionOwned. destruct (sys_dup ok); [|done].
    assert (Hn : forall e, e <> ErrBadGeometry ->
      close_fd (open_fd p) = p /\ Some e <> None /\ Some e <> Some ErrBadGeometry).
    { intros e He. split_and!; [apply close_open_fd|done|congruence]. }
    case_test; [by apply Hn|]. destruct (sys_fstat ok); [|by apply Hn].
    repeat (case_test; [by apply Hn|]). destruct (sys_get_seals ok); [|by apply Hn].
    case_test; [by apply Hn|]. destruct (sys_mmap ok size) as [d|] eqn:Hd; [|by apply Hn].
    apply Hm in Hd as [Hb Hl]. bool_to_prop.
    pose proof (parse_np d size Hb ltac:(lia)) as Hnp.
    pose proof (parse_only_bad d size) as Hob.
    destruct (parseLayoutPhase2 d size) as [l|e|]; simpl; [by auto| |done].
    rewrite (Hob e eq_refl). auto.
  - intros r c1 m2 c2 Hc. unfold Close. rewrite Hc. simpl.
    split_and!; auto. f_equal; lia.
Qed.

Definition sample_open_sys : open_sys :=
  mkOpenSys (Some 5) (Some 8192) (Some wantSeals)
    (fun n => if 0 <=? n then Some (replicate (Z.to_nat n) 0) else None).

Lemma sample_mapping_sized : mapping_sized sample_open_sys.
Proof.
  intros n d Hd. unfold sample_open_sys in Hd. cbn [sys_mmap] in Hd.
  case_test_in Hd; [|done]. simplify_eq. bool_to_prop. split.
  - apply Forall_replicate. unfold is_byte. lia.
  - unfold zlen. rewrite length_replicate. lia.
Qed.

(** An all-zero region passes Phase 1 and fails Phase 2, still mapped. *)
Lemma region_resources_balanced_witness :
  fst (OpenRegion sample_open_sys 8192 sample_process) = acquired sample_process.
Proof.
  destruct (region_resources_balanced sample_create_sys sample_open_sys sample_input 8192
    sample_process sample_typed sample_fresh sample_mapping_sized) as (_ & H & _).
  destruct (OpenRegion sample_open_sys 8192 sample_process) as [p' [[[r|] e]|u|]] eqn:E;
    [apply H| |destruct H..].
  apply (f_equal (fun x => match snd x with Ok (None, _) => true | _ => false end)) in E.
  vm_compute in E. discriminate E.
Defined.

End Layout.
