(* ===== verification/SlabArena.v ===== *)
(** * The slab arena (src/internal/arena/{sizeclass,slab,arena}.go)

    The per-direction allocator: per-class LIFO free lists over the geometry
    that the region layout validated, with the live sequence stamps that guard
    [Free].  The theorems give the behaviour of every branch of [Alloc] and
    [Free], the invariant they preserve, the exact occupancy, and the
    disjointness of live slabs.  [SlabAllocator] states what the arena
    promises to the writer that uses it. *)

From Stdlib Require Import Sorting.Sorted.
From S2P Require Import Prelude RegionLayout.
Import Layout.

(** ** Interface: what a slab allocator promises its single user *)

Class SlabAllocator (A H E : Type) := {
  sa_alloc : Z -> A -> outcome E (A * H);
  sa_free : H -> A -> outcome E A;
  sa_ok : A -> Prop;                      (* the allocator's invariant *)
  sa_live : A -> H -> Prop;               (* the handle names a live slab *)
  sa_span : A -> H -> Z * Z;              (* its byte range in the arena *)
  sa_alloc_np : forall n a, sa_ok a -> is_u32 n -> sa_alloc n a <> Panic;
  sa_alloc_ok : forall n a a' h, sa_ok a -> is_u32 n -> sa_alloc n a = Ok (a', h) ->
    sa_ok a' /\ sa_live a' h /\
    (forall g, sa_live a g -> sa_live a' g /\ sa_span a' g = sa_span a g /\
       (snd (sa_span a' g) <= fst (sa_span a' h) \/ snd (sa_span a' h) <= fst (sa_span a' g)));
  sa_free_ok : forall h a, sa_ok a -> sa_live a h ->
    exists a', sa_free h a = Ok a' /\ sa_ok a' /\ ~ sa_live a' h /\
      forall g, sa_live a g ->
        (snd (sa_span a g) <= fst (sa_span a h) \/ snd (sa_span a h) <= fst (sa_span a g)) ->
        sa_live a' g /\ sa_span a' g = sa_span a g
}.

Module Arena.

Inductive arenaError :=
| ErrExhausted | ErrTooLarge | ErrZeroLength | ErrBadConfig | ErrInvalidFree | ErrStaleHandle.

#[global] Instance arenaError_eq_dec : EqDecision arenaError.
Proof. solve_decision. Defined.

Record SlabHandle := mkHandle {
  hOffset : Z;
  hLength : Z;
  hGeneration : Z;
  hSequence : Z;
  hclass : Z;
  hindex : Z;
  howner : Z
}.

#[global] Instance SlabHandle_eq_dec : EqDecision SlabHandle.
Proof. solve_decision. Defined.

(** [free] is the Go slice: its last element is the top of the stack. *)
Record classState := mkClassState { free : list Z; liveSeq : list Z }.

Record Arena := mkArena {
  mem : list Z;
  classes : list SizeClass;
  pools : list classState;
  generation : Z;
  nextSeq : Z;
  id : Z;
  occupancy : Z
}.

(** The smallest class that covers [size]. *)
Fixpoint SelectClass (cs : list SizeClass) (size : Z) : option nat :=
  match cs with
  | [] => None
  | c :: cs => if size <=? SlabSize c then Some 0%nat else S <$> SelectClass cs size
  end.

(** The minting loop, [fuel] iterations at most; the counter and the identity. *)
Fixpoint mint_loop (fuel : nat) (seq : Z) : option (Z * Z) :=
  match fuel with
  | O => None
  | S fuel =>
      let i := (seq +₆₄ 1)%word in
      if negb (i =? 0) then Some (i, i) else mint_loop fuel i
  end.
Definition mintArenaID (seq : Z) : option (Z * Z) := mint_loop 2 seq.

(** The indices appended for [i], [i-1], ... while above [first]. *)
Fixpoint free_loop (i first : nat) : list Z :=
  match i with
  | O => []
  | S j => if (first <=? j)%nat then Z.of_nat j :: free_loop j first else []
  end.

Definition newClassState (sc : SizeClass) (reserveZero : bool) : classState :=
  let first := if reserveZero then 1%nat else 0%nat in
  mkClassState (free_loop (Z.to_nat (SlabCount sc)) first)
    (replicate (Z.to_nat (SlabCount sc)) 0).

Fixpoint max_extent_loop (cs : list SizeClass) (maxEnd : Z) : Z :=
  match cs with
  | [] => maxEnd
  | c :: cs =>
      let e := u64 (ClassBaseOffset c + u64 (SlabSize c * SlabCount c)) in
      max_extent_loop cs (if maxEnd <? e then e else maxEnd)
  end.
Definition maxSlabExtent (cs : list SizeClass) : Z := max_extent_loop cs 0.

(** [New], with the process-global identity counter threaded through. *)
Definition New (m : list Z) (cs : list SizeClass) (gen arenaSeq : Z) :
    outcome arenaError (Arena * Z) :=
  if bool_decide (cs = []) then Err ErrBadConfig else
  if existsb (fun c => SlabCount c =? 0) cs then Err ErrBadConfig else
  if zlen m <? maxSlabExtent cs then Err ErrBadConfig else
  match mintArenaID arenaSeq with
  | None => Panic
  | Some (seq, i) =>
      Ok (mkArena m cs (imap (fun n c => newClassState c (Nat.eqb n 0)) cs) (Truncated gen) 1 i 0, seq)
  end.

Definition nextAllocSeq (a : Arena) : Z * Z :=
  let seq := nextSeq a in
  let n := (seq +₆₄ 1)%word in
  (seq, if n =? 0 then 1 else n).

Definition set_pool (a : Arena) (ci : nat) (p : classState) (next occ : Z) : Arena :=
  mkArena (mem a) (classes a) (<[ci := p]> (pools a)) (generation a) next (id a) occ.

(** The returned slice aliases [mem]: it is its bounds. *)
Definition Alloc (size : Z) (a : Arena) : outcome arenaError (Arena * (SlabHandle * (Z * Z))) :=
  if size =? 0 then Err ErrZeroLength else
  match SelectClass (classes a) size with
  | None => Err ErrTooLarge
  | Some ci =>
      match pools a !! ci, classes a !! ci with
      | Some pool, Some sc =>
          match last (free pool) with
          | None => Err ErrExhausted
          | Some idx =>
              let free' := take (length (free pool) - 1) (free pool) in
              let (seq, next) := nextAllocSeq a in
              if (idx <? zlen (liveSeq pool)) then
                let pool' := mkClassState free' (<[Z.to_nat idx := seq]> (liveSeq pool)) in
                let a' := set_pool a ci pool' next (occupancy a +₆₄ SlabSize sc)%word in
                let off := u32 (ClassBaseOffset sc + u32 (idx * SlabSize sc)) in
                let hi := u32 (off + SlabSize sc) in
                let h := mkHandle off size (generation a) seq (Z.of_nat ci) idx (id a) in
                if (off <=? hi) && (hi <=? zlen (mem a)) then Ok (a', (h, (off, hi))) else Panic
              else Panic
          end
      | _, _ => Panic
      end
  end.

Definition locate (a : Arena) (h : SlabHandle) : outcome arenaError (option classState) :=
  if zlen (pools a) <=? hclass h then Ok None else
  match classes a !! Z.to_nat (hclass h), pools a !! Z.to_nat (hclass h) with
  | Some sc, Some pool => if SlabCount sc <=? hindex h then Ok None else Ok (Some pool)
  | _, _ => Panic
  end.

Definition Free (h : SlabHandle) (a : Arena) : outcome arenaError Arena :=
  if negb (howner h =? id a) then Err ErrInvalidFree else
  if negb (hGeneration h =? generation a) then Err ErrInvalidFree else
  let! p := locate a h in
  match p with
  | None => Err ErrInvalidFree
  | Some pool =>
      match liveSeq pool !! Z.to_nat (hindex h), classes a !! Z.to_nat (hclass h) with
      | Some live, Some sc =>
          if live =? 0 then Err ErrInvalidFree else
          if negb (live =? hSequence h) then Err ErrInvalidFree else
          let pool' := mkClassState (free pool ++ [hindex h]) (<[Z.to_nat (hindex h) := 0]> (liveSeq pool)) in
          Ok (set_pool a (Z.to_nat (hclass h)) pool' (nextSeq a)
                (occupancy a +₆₄ (MaxUint64 - u64 (SlabSize sc - 1)))%word)
      | _, _ => Panic
      end
  end.

Definition OccupancyBytes (a : Arena) : Z := occupancy a.
Definition ClassSlabSizes (a : Arena) : list Z := map SlabSize (classes a).
Definition ServingClass (a : Arena) (size : Z) : option nat := SelectClass (classes a) size.

Definition Validate (h : SlabHandle) (a : Arena) : outcome arenaError unit :=
  if negb (howner h =? id a) then Err ErrStaleHandle else
  if negb (hGeneration h =? generation a) then Err ErrStaleHandle else
  if hSequence h =? 0 then Err ErrStaleHandle else
  let! p := locate a h in
  match p with
  | None => Err ErrStaleHandle
  | Some pool =>
      match liveSeq pool !! Z.to_nat (hindex h) with
      | Some live => if negb (live =? hSequence h) then Err ErrStaleHandle else Ok tt
      | None => Panic
      end
  end.

(** ** Invariant *)

Definition nonzero (z : Z) : bool := negb (z =? 0).
Definition live_count (p : classState) : Z := zlen (List.filter nonzero (liveSeq p)).

Fixpoint occ_sum (cs : list SizeClass) (ps : list classState) : Z :=
  match cs, ps with
  | c :: cs, p :: ps => SlabSize c * live_count p + occ_sum cs ps
  | _, _ => 0
  end.

(** Index 0 of class 0 is the reserved "no slab". *)
Definition first_index (ci : nat) : Z := if Nat.eqb ci 0 then 1 else 0.

Record pool_ok (first : Z) (sc : SizeClass) (p : classState) : Prop := {
  po_len : zlen (liveSeq p) = SlabCount sc;
  po_nodup : NoDup (free p);
  po_free : forall i, i ∈ free p <->
    first <= i < SlabCount sc /\ liveSeq p !! Z.to_nat i = Some 0;
  po_reserved : forall i, 0 <= i < first -> liveSeq p !! Z.to_nat i = Some 0
}.

Record arena_inv (a : Arena) : Prop := {
  ai_len : length (pools a) = length (classes a);
  ai_classes : classes_ok (classes a);
  ai_mem : class_total (classes a) <= zlen (mem a) <= MaxUint32;
  ai_pools : forall ci sc p, classes a !! ci = Some sc -> pools a !! ci = Some p ->
    pool_ok (first_index ci) sc p;
  ai_next : 1 <= nextSeq a < 2 ^ 64;
  ai_id : 1 <= id a < 2 ^ 64;
  ai_occ : occupancy a = occ_sum (classes a) (pools a)
}.

(** Slab [i] of class [ci] is live under stamp [s]. *)
Definition live (a : Arena) (ci : nat) (i s : Z) : Prop :=
  0 <= i /\ s <> 0 /\ exists p, pools a !! ci = Some p /\ liveSeq p !! Z.to_nat i = Some s.

(** Handle [h] was issued by [a] and its slab is still live. *)
Definition handle_live (a : Arena) (h : SlabHandle) : Prop :=
  howner h = id a /\ hGeneration h = generation a /\ 0 <= hclass h /\
  live a (Z.to_nat (hclass h)) (hindex h) (hSequence h).

Definition slab_span (a : Arena) (ci : nat) (i : Z) : Z * Z :=
  match classes a !! ci with
  | Some sc => (ClassBaseOffset sc + i * SlabSize sc, ClassBaseOffset sc + (i + 1) * SlabSize sc)
  | None => (0, 0)
  end.

(** ** Geometry lemmas *)

Lemma contiguous_lookup base cs ci c :
  Forall raw_class cs -> contiguous base cs -> cs !! ci = Some c ->
  base <= ClassBaseOffset c /\ ClassBaseOffset c + extent c <= base + class_total cs /\
  (ci = 0%nat -> ClassBaseOffset c = base).
Proof.
  intros Hraw. revert base ci. induction Hraw as [|c0 cs Hc0 Hcs IH]; intros base ci Hc Hl; [done|].
  simpl in *. destruct Hc as [Hb Hc]. pose proof (class_total_nonneg cs Hcs).
  apply extent_u64 in Hc0. unfold is_u64 in Hc0.
  destruct ci as [|ci]; simpl in Hl; simplify_eq; [lia|].
  destruct (IH _ _ Hc Hl) as (? & ? & _). split_and!; lia.
Qed.

Lemma contiguous_ordered base cs ci cj c d :
  Forall raw_class cs -> contiguous base cs -> cs !! ci = Some c -> cs !! cj = Some d ->
  (ci < cj)%nat -> ClassBaseOffset c + extent c <= ClassBaseOffset d.
Proof.
  intros Hraw. revert base ci cj.
  induction Hraw as [|c0 cs Hc0 Hcs IH]; intros base ci cj Hc H1 H2 Hlt; [done|].
  simpl in *. destruct Hc as [Hb Hc]. destruct cj as [|cj]; [lia|]. simpl in H2.
  destruct ci as [|ci]; simpl in H1.
  - simplify_eq. destruct (contiguous_lookup _ _ _ _ Hcs Hc H2) as (? & _). lia.
  - eapply IH; eauto. lia.
Qed.

(** Distinct slabs of a well-formed class table do not overlap. *)
Lemma slabs_disjoint cs ci cj c d i j :
  classes_ok cs -> cs !! ci = Some c -> cs !! cj = Some d ->
  0 <= i < SlabCount c -> 0 <= j < SlabCount d -> (ci, i) <> (cj, j) ->
  ClassBaseOffset c + (i + 1) * SlabSize c <= ClassBaseOffset d + j * SlabSize d \/
  ClassBaseOffset d + (j + 1) * SlabSize d <= ClassBaseOffset c + i * SlabSize c.
Proof.
  intros [Hb Hc] H1 H2 Hi Hj Hne. pose proof (bounds_raw _ Hb) as Hraw.
  assert (Hp : forall n x, cs !! n = Some x -> 0 < SlabSize x).
  { intros n x Hx. pose proof (bo_classes _ Hb) as Hf. rewrite Forall_lookup in Hf.
    apply Hf in Hx as (_ & _ & ? & _). done. }
  pose proof (Hp _ _ H1). pose proof (Hp _ _ H2). unfold extent in *.
  destruct (Nat.lt_trichotomy ci cj) as [Hlt|[->|Hlt]].
  - pose proof (contiguous_ordered 0 cs ci cj c d Hraw Hc H1 H2 Hlt). unfold extent in *. left. nia.
  - simplify_eq. assert (i <> j) by congruence. destruct (Z.lt_total i j) as [|[|]]; [left|done|right]; nia.
  - pose proof (contiguous_ordered 0 cs cj ci d c Hraw Hc H2 H1 Hlt). unfold extent in *. right. nia.
Qed.

Lemma SelectClass_Some cs size ci :
  SelectClass cs size = Some ci ->
  exists c, cs !! ci = Some c /\ size <= SlabSize c /\
    forall j d, (j < ci)%nat -> cs !! j = Some d -> SlabSize d < size.
Proof.
  revert ci. induction cs as [|c cs IH]; intros ci H; simpl in H; [done|].
  destruct (Z.leb_spec size (SlabSize c)).
  - simplify_eq. exists c. split_and!; auto. lia.
  - apply fmap_Some in H as (k & Hk & ->). destruct (IH _ Hk) as (d & H1 & H2 & H3).
    exists d. split_and!; auto. intros [|j] e Hj He; simpl in He; [by simplify_eq|].
    eapply H3; eauto. lia.
Qed.

Lemma SelectClass_None cs size :
  SelectClass cs size = None <-> forall ci c, cs !! ci = Some c -> SlabSize c < size.
Proof.
  induction cs as [|c cs IH]; simpl; [split; [done|done]|].
  destruct (Z.leb_spec size (SlabSize c)).
  - split; [done|]. intros Hall. specialize (Hall 0%nat c eq_refl). lia.
  - rewrite fmap_None, IH. split.
    + intros Hall [|ci] d Hd; simpl in Hd; [by simplify_eq|eauto].
    + intros Hall ci d Hd. apply (Hall (S ci) d Hd).
Qed.

(** ** Counting lemmas *)

Lemma filter_insert_count (l : list Z) i x y :
  l !! i = Some x ->
  zlen (List.filter nonzero (<[i := y]> l)) =
    zlen (List.filter nonzero l) - (if nonzero x then 1 else 0) + (if nonzero y then 1 else 0).
Proof.
  unfold zlen. revert i. induction l as [|z l IH]; intros [|i] Hi; simpl in Hi; simplify_eq; simpl.
  - destruct (nonzero x), (nonzero y); simpl length; lia.
  - specialize (IH _ Hi). destruct (nonzero z); simpl length in *; lia.
Qed.

Lemma occ_sum_insert cs ps ci c p p' :
  cs !! ci = Some c -> ps !! ci = Some p ->
  occ_sum cs (<[ci := p']> ps) = occ_sum cs ps + SlabSize c * (live_count p' - live_count p).
Proof.
  revert cs ci. induction ps as [|q ps IH]; intros cs [|ci] Hc Hp; simpl in Hp; try done;
    destruct cs as [|d cs]; try done; simpl in Hc; simplify_eq; simpl; [lia|].
  rewrite (IH cs ci Hc Hp). lia.
Qed.

Lemma live_count_le sc p first : pool_ok first sc p -> 0 <= live_count p <= SlabCount sc.
Proof.
  intros [Hl _ _ _]. unfold live_count, zlen in *. pose proof (List.filter_length_le nonzero (liveSeq p)). lia.
Qed.

Lemma occ_sum_bound cs ps :
  Forall raw_class cs -> length ps = length cs ->
  (forall ci sc p, cs !! ci = Some sc -> ps !! ci = Some p -> 0 <= live_count p <= SlabCount sc) ->
  0 <= occ_sum cs ps <= class_total cs.
Proof.
  intros Hraw. revert ps. induction Hraw as [|c cs [Hs Hc] Hcs IH]; intros [|p ps] Hl Hb; try done; simpl.
  pose proof (Hb 0%nat c p eq_refl eq_refl).
  destruct (IH ps) as [? ?]; [simpl in Hl; lia|intros n; apply (Hb (S n))|].
  unfold extent, is_u32 in *. nia.
Qed.

(** ** Construction *)

Lemma free_loop_elem n first i :
  i ∈ free_loop n first <-> Z.of_nat first <= i < Z.of_nat n.
Proof.
  revert i. induction n as [|n IH]; intros i; simpl.
  - split; [by intros ?%elem_of_nil|lia].
  - destruct (Nat.leb_spec first n).
    + rewrite elem_of_cons, IH. lia.
    + split; [by intros ?%elem_of_nil|lia].
Qed.

Lemma free_loop_nodup n first : NoDup (free_loop n first).
Proof.
  induction n as [|n IH]; simpl; [constructor|]. destruct (first <=? n)%nat; [|constructor].
  constructor; [|done]. rewrite free_loop_elem. lia.
Qed.

Lemma newClassState_ok sc ci :
  class_ok sc -> pool_ok (first_index ci) sc (newClassState sc (Nat.eqb ci 0)).
Proof.
  intros (_ & Hc & _ & _ & Hp). unfold is_u32 in Hc. unfold newClassState, first_index.
  assert (Hz : forall i, 0 <= i < SlabCount sc ->
    replicate (Z.to_nat (SlabCount sc)) 0 !! Z.to_nat i = Some 0).
  { intros. apply lookup_replicate_2. lia. }
  constructor; simpl.
  - unfold zlen. rewrite length_replicate. lia.
  - apply free_loop_nodup.
  - intros i. rewrite free_loop_elem. destruct (Nat.eqb ci 0); split; intros; try lia.
    + split; [lia|]. apply Hz. lia.
    + split; [lia|]. apply Hz. lia.
  - intros i Hi. apply Hz. destruct (Nat.eqb ci 0); lia.
Qed.

Lemma fresh_live_count sc b : live_count (newClassState sc b) = 0.
Proof.
  unfold live_count, newClassState; simpl. unfold zlen.
  induction (Z.to_nat (SlabCount sc)); simpl; auto.
Qed.

Lemma fresh_occ_sum cs k : occ_sum cs (imap (fun n c => newClassState c (Nat.eqb (k + n) 0)) cs) = 0.
Proof.
  revert k. induction cs as [|c cs IH]; intros k; simpl; [done|].
  rewrite fresh_live_count, Z.mul_0_r, Z.add_0_l.
  rewrite <- (IH (S k)). f_equal. apply imap_ext. intros. simpl. by rewrite Nat.add_succ_r.
Qed.

(** The minting loop ends within its two iterations, on a nonzero identity. *)
Lemma mintArenaID_total seq :
  exists i, mintArenaID seq = Some (i, i) /\ 1 <= i < 2 ^ 64.
Proof.
  unfold mintArenaID, mint_loop. pose proof (u64_range (seq + 1)) as Hr. unfold is_u64 in Hr.
  destruct (Z.eqb_spec (u64 (seq + 1)) 0) as [->|Hne]; simpl.
  - exists 1. split; [done|lia].
  - exists (u64 (seq + 1)). split; [done|lia].
Qed.

Lemma max_extent_bound cs base m b :
  Forall raw_class cs -> 0 <= base -> contiguous base cs -> base + class_total cs <= b ->
  b < 2 ^ 64 -> m <= b -> max_extent_loop cs m <= b.
Proof.
  intros Hraw. revert base m. induction Hraw as [|c cs Hc Hcs IH]; intros base m H0 Hco Hb Hb2 Hm; simpl in *; [done|].
  destruct Hco as [-> Hco]. fold (extent c). pose proof (extent_u64 c Hc) as He.
  pose proof (class_total_nonneg cs Hcs). unfold is_u64 in He.
  rewrite (u64_id (extent c)) by (unfold is_u64; lia).
  rewrite u64_id by (unfold is_u64; lia).
  apply (IH (base + extent c)); try lia; [done|]. destruct (m <? base + extent c); lia.
Qed.

(** [New] over a span the layout validated succeeds and establishes the invariant. *)
Lemma New_inv m cs gen arenaSeq :
  classes_ok cs -> class_total cs <= zlen m <= MaxUint32 ->
  exists a seq, New m cs gen arenaSeq = Ok (a, seq) /\ arena_inv a /\ mem a = m /\ classes a = cs /\
    generation a = Truncated gen /\ occupancy a = 0 /\ forall ci i s, ~ live a ci i s.
Proof.
  intros Hcs Hm. pose proof Hcs as [Hb Hco]. pose proof (bounds_raw _ Hb) as Hraw.
  pose proof (class_total_nonneg _ Hraw). unfold New.
  destruct (bool_decide_reflect (cs = [])) as [->|_].
  { destruct (bo_largest _ Hb) as (? & ? & _). done. }
  destruct (existsb _ cs) eqn:He.
  { apply existsb_exists in He as (c & Hi & Hz). bool_to_prop.
    pose proof (bo_classes _ Hb) as Hf. rewrite Forall_forall in Hf.
    destruct (Hf c) as (_ & _ & _ & _ & ?); [by apply list_elem_of_In|lia]. }
  unfold maxSlabExtent, MaxUint32 in *.
  assert (max_extent_loop cs 0 <= class_total cs) by (apply (max_extent_bound cs 0 0); try done; lia). destruct (Z.ltb_spec (zlen m) (max_extent_loop cs 0)); [lia|].
  destruct (mintArenaID_total arenaSeq) as (i & -> & Hi).
  eexists _, _. split; [done|]. split_and!; try done.
  - constructor; simpl; auto; try lia.
    + apply length_imap.
    + intros ci sc p Hc Hp. rewrite list_lookup_imap, Hc in Hp. simpl in Hp. simplify_eq.
      apply newClassState_ok. pose proof (bo_classes _ Hb) as Hf. rewrite Forall_lookup in Hf. eauto.
    + symmetry. apply (fresh_occ_sum cs 0).
  - intros ci j s (_ & Hs & p & Hp & Hl). simpl in Hp. rewrite list_lookup_imap in Hp.
    apply fmap_Some in Hp as (c & _ & ->). unfold newClassState in Hl. simpl in Hl.
    apply lookup_replicate in Hl as [-> _]. done.
Qed.

(** ** Allocation *)

Lemma last_take (l : list Z) x : last l = Some x -> l = take (length l - 1) l ++ [x].
Proof.
  intros H. apply last_Some in H as [l' ->]. rewrite length_app. simpl.
  replace (length l' + 1 - 1)%nat with (length l') by lia. by rewrite take_app_length.
Qed.

(** Marking the popped index live keeps the pool consistent. *)
Lemma pool_pop_ok first sc p idx seq :
  pool_ok first sc p -> 0 <= first -> last (free p) = Some idx -> seq <> 0 ->
  first <= idx < SlabCount sc /\ liveSeq p !! Z.to_nat idx = Some 0 /\
  let p' := mkClassState (take (length (free p) - 1) (free p)) (<[Z.to_nat idx := seq]> (liveSeq p)) in
  pool_ok first sc p' /\ live_count p' = live_count p + 1.
Proof.
  intros [Hl Hn Hf Hr] H0 Hlast Hs. pose proof (last_take _ _ Hlast) as He.
  assert (Hin : idx ∈ free p) by (rewrite He; set_solver).
  apply Hf in Hin as [Hi Hz]. split; [done|]. split; [done|].
  set (fr := take (length (free p) - 1) (free p)) in *.
  rewrite He in Hn. apply NoDup_app in Hn as (Hn1 & Hn2 & _). split.
  - constructor; simpl.
    + unfold zlen in *. by rewrite length_insert.
    + done.
    + intros i. specialize (Hf i). rewrite He, elem_of_app, list_elem_of_singleton in Hf. split.
      * intros Hi'. assert (i <> idx) by (intros ->; apply (Hn2 _ Hi'); set_solver).
        destruct (proj1 Hf (or_introl Hi')) as [? Hlz]. split; [done|].
        rewrite list_lookup_insert_ne by lia. done.
      * intros [Hi' Hlz]. destruct (decide (i = idx)) as [->|Hne].
        { rewrite list_lookup_insert_eq in Hlz by (unfold zlen in Hl; lia). by simplify_eq. }
        rewrite list_lookup_insert_ne in Hlz by lia.
        destruct (proj2 Hf (conj Hi' Hlz)) as [|]; done.
    + intros i Hi'. rewrite list_lookup_insert_ne by lia. auto.
  - unfold live_count; simpl. rewrite (filter_insert_count _ _ _ _ Hz).
    unfold nonzero. simpl. destruct (Z.eqb_spec seq 0); [done|]. simpl. lia.
Qed.

Lemma pool_push_ok first sc p i s :
  pool_ok first sc p -> 0 <= first -> 0 <= i -> s <> 0 -> liveSeq p !! Z.to_nat i = Some s ->
  let p' := mkClassState (free p ++ [i]) (<[Z.to_nat i := 0]> (liveSeq p)) in
  pool_ok first sc p' /\ live_count p' = live_count p - 1.
Proof.
  intros [Hl Hn Hf Hr] Hfst H0 Hs Hi.
  pose proof (lookup_lt_Some _ _ _ Hi) as Hlt.
  assert (Hge : first <= i).
  { apply Z.nlt_ge. intros ?. rewrite (Hr i ltac:(lia)) in Hi. by simplify_eq. }
  split.
  - constructor; simpl.
    + unfold zlen in *. by rewrite length_insert.
    + apply NoDup_app. split_and!; [done| |apply NoDup_singleton].
      intros j Hj ->%list_elem_of_singleton. apply Hf in Hj as [_ Hj]. rewrite Hj in Hi. by simplify_eq.
    + intros j. rewrite elem_of_app, list_elem_of_singleton, Hf. unfold zlen in Hl. split.
      * intros [[? Hj]| ->].
        { split; [done|]. destruct (decide (Z.to_nat j = Z.to_nat i)) as [->|];
            [by rewrite list_lookup_insert_eq by lia|by rewrite list_lookup_insert_ne by lia]. }
        { split; [lia|]. by rewrite list_lookup_insert_eq by lia. }
      * intros [? Hj]. destruct (decide (j = i)) as [->|]; [by right|left].
        split; [done|]. by rewrite list_lookup_insert_ne in Hj by lia.
    + intros j Hj. rewrite list_lookup_insert_ne by lia. auto.
  - unfold live_count; simpl. rewrite (filter_insert_count _ _ _ _ Hi).
    unfold nonzero. destruct (Z.eqb_spec s 0); [done|]. simpl. lia.
Qed.

(** Everything a successful allocation establishes. *)
Record allocated (a : Arena) (size : Z) (a' : Arena) (h : SlabHandle) (lo hi : Z)
    (ci : nat) (sc : SizeClass) : Prop := {
  al_select : SelectClass (classes a) size = Some ci;
  al_class : classes a !! ci = Some sc;
  al_inv : arena_inv a';
  al_handle : h = mkHandle lo size (generation a) (nextSeq a) (Z.of_nat ci) (hindex h) (id a);
  al_index : first_index ci <= hindex h < SlabCount sc;
  al_span : lo = ClassBaseOffset sc + hindex h * SlabSize sc /\ hi = lo + SlabSize sc;
  al_bounds : 0 < lo /\ hi <= class_total (classes a);
  al_fits : size <= SlabSize sc;
  al_was_free : forall s, ~ live a ci (hindex h) s;
  al_live : forall cj j s, live a' cj j s <->
    live a cj j s \/ (cj = ci /\ j = hindex h /\ s = nextSeq a);
  al_frame : mem a' = mem a /\ classes a' = classes a /\ generation a' = generation a /\ id a' = id a;
  al_occ : occupancy a' = occupancy a + SlabSize sc;
  al_next : nextSeq a' = if u64 (nextSeq a + 1) =? 0 then 1 else u64 (nextSeq a + 1)
}.

(** A successful free of slab [i] of class [ci]. *)
Record freed (a : Arena) (h : SlabHandle) (a' : Arena) (ci : nat) (sc : SizeClass) : Prop := {
  fr_class : classes a !! ci = Some sc;
  fr_inv : arena_inv a';
  fr_live : forall cj j s, live a' cj j s <-> live a cj j s /\ (cj, j) <> (ci, hindex h);
  fr_frame : mem a' = mem a /\ classes a' = classes a /\ generation a' = generation a /\ id a' = id a;
  fr_occ : occupancy a' = occupancy a - SlabSize sc;
  fr_next : nextSeq a' = nextSeq a
}.

Lemma first_index_nonneg ci : 0 <= first_index ci.
Proof. unfold first_index. destruct (Nat.eqb ci 0); lia. Qed.

(** No uint32 sum of [Alloc] wraps, and the offset is never the reserved 0. *)
Lemma alloc_geometry a ci sc idx :
  arena_inv a -> classes a !! ci = Some sc -> first_index ci <= idx < SlabCount sc ->
  let off := ClassBaseOffset sc + idx * SlabSize sc in
  u32 (ClassBaseOffset sc + u32 (idx * SlabSize sc)) = off /\
  u32 (off + SlabSize sc) = off + SlabSize sc /\
  0 < off /\ off + SlabSize sc <= class_total (classes a).
Proof.
  intros Ha Hc Hi. pose proof (first_index_nonneg ci) as Hf0.
  destruct (ai_classes _ Ha) as [Hb Hco]. pose proof (bounds_raw _ Hb) as Hraw.
  destruct (contiguous_lookup 0 _ _ _ Hraw Hco Hc) as (Hlo & Hhi & _).
  pose proof (ai_mem _ Ha) as Hm. unfold MaxUint32, extent in *.
  pose proof (bo_classes _ Hb) as Hf. rewrite Forall_lookup in Hf.
  destruct (Hf _ _ Hc) as (_ & _ & Hp & _).
  assert (0 <= idx * SlabSize sc <= (SlabCount sc - 1) * SlabSize sc) by nia.
  rewrite (u32_id (idx * SlabSize sc)) by (unfold is_u32; nia).
  rewrite !u32_id by (unfold is_u32; nia).
  split_and!; [done|done| |nia].
  destruct ci as [|ci]; [unfold first_index in Hi; simpl in Hi; nia|].
  destruct (classes a) as [|c0 cs] eqn:Ecs; [done|]. simpl in Hc.
  pose proof (contiguous_ordered 0 (c0 :: cs) 0 (S ci) c0 sc Hraw Hco eq_refl Hc ltac:(lia)).
  destruct (Hf 0%nat c0 eq_refl) as (_ & _ & ? & _ & ?). unfold extent in *. simpl in Hco. nia.
Qed.

Lemma occ_wrap a p ci sc :
  arena_inv a -> classes a !! ci = Some sc -> pool_ok (first_index ci) sc p ->
  is_u64 (occ_sum (classes a) (<[ci := p]> (pools a))).
Proof.
  intros Ha Hc Hp. pose proof (bounds_raw _ (co_bounds _ (ai_classes _ Ha))) as Hraw.
  pose proof (ai_mem _ Ha). unfold MaxUint32, is_u64 in *.
  destruct (occ_sum_bound (classes a) (<[ci := p]> (pools a)) Hraw) as [? ?]; [| |lia].
  - rewrite length_insert. apply (ai_len _ Ha).
  - intros cj sd q Hd Hq. destruct (decide (cj = ci)) as [->|].
    + rewrite list_lookup_insert_eq in Hq by (rewrite (ai_len _ Ha); by eapply lookup_lt_Some).
      simplify_eq. eapply live_count_le; eauto.
    + rewrite list_lookup_insert_ne in Hq by done. eapply live_count_le, (ai_pools _ Ha); eauto.
Qed.

(** Replacing one consistent pool keeps the arena's invariant. *)
Lemma set_pool_inv a ci sc p next :
  arena_inv a -> classes a !! ci = Some sc -> pool_ok (first_index ci) sc p -> 1 <= next < 2 ^ 64 ->
  arena_inv (set_pool a ci p next (occ_sum (classes a) (<[ci := p]> (pools a)))).
Proof.
  intros Ha Hc Hp Hn. constructor; simpl; try apply Ha; auto.
  - rewrite length_insert. apply Ha.
  - intros cj sd q Hd Hq. destruct (decide (cj = ci)) as [->|].
    + rewrite list_lookup_insert_eq in Hq by (rewrite (ai_len _ Ha); by eapply lookup_lt_Some).
      by simplify_eq.
    + rewrite list_lookup_insert_ne in Hq by done. eapply (ai_pools _ Ha); eauto.
Qed.

(** The live relation after one pool's stamps changed at one index. *)
Lemma live_set_pool a ci p fr i s next occ :
  pools a !! ci = Some p -> 0 <= i -> (Z.to_nat i < length (liveSeq p))%nat ->
  forall cj j t, live (set_pool a ci (mkClassState fr (<[Z.to_nat i := s]> (liveSeq p))) next occ) cj j t <->
    ((cj, j) <> (ci, i) /\ live a cj j t) \/ ((cj, j) = (ci, i) /\ t = s /\ s <> 0).
Proof.
  intros Hp Hi Hlt cj j t. unfold live, set_pool; simpl.
  pose proof (lookup_lt_Some _ _ _ Hp) as Hl. destruct (decide (cj = ci)) as [->|Hne].
  - rewrite list_lookup_insert_eq by done. destruct (decide (j = i)) as [->|Hj].
    + split.
      * intros (_ & Ht & q & Hq & Hs). simplify_eq. simpl in Hs.
        rewrite list_lookup_insert_eq in Hs by done. simplify_eq. by right.
      * intros [[? _]|(_ & -> & ?)]; [done|]. split_and!; auto. eexists. split; [done|]. simpl.
        by rewrite list_lookup_insert_eq.
    + split.
      * intros (? & Ht & q & Hq & Hs). simplify_eq. simpl in Hs. left. split; [congruence|].
        split_and!; auto. exists p. rewrite list_lookup_insert_ne in Hs by lia. done.
      * intros [[_ (? & ? & q & Hq & Hs)]|(? & _)]; [|congruence]. simplify_eq.
        split_and!; auto. eexists. split; [done|]. simpl. by rewrite list_lookup_insert_ne by lia.
  - rewrite list_lookup_insert_ne by done. split.
    + intros H. left. split; [congruence|done].
    + intros [[_ H]|(? & _)]; [done|congruence].
Qed.

(** The state and handle of a successful allocation. *)
Lemma pop_allocated a size ci sc p idx :
  arena_inv a -> SelectClass (classes a) size = Some ci -> classes a !! ci = Some sc ->
  pools a !! ci = Some p -> last (free p) = Some idx -> size <= SlabSize sc ->
  let off := ClassBaseOffset sc + idx * SlabSize sc in
  let p' := mkClassState (take (length (free p) - 1) (free p))
              (<[Z.to_nat idx := nextSeq a]> (liveSeq p)) in
  let next := u64 (nextSeq a + 1) in
  allocated a size
    (set_pool a ci p' (if next =? 0 then 1 else next) (occupancy a +₆₄ SlabSize sc)%word)
    (mkHandle off size (generation a) (nextSeq a) (Z.of_nat ci) idx (id a))
    off (off + SlabSize sc) ci sc.
Proof.
  intros Ha Hsel Hc Hp Hlast Hfit off p' next.
  pose proof (ai_pools _ Ha _ _ _ Hc Hp) as Hpool. pose proof (ai_next _ Ha) as Hnext.
  destruct (pool_pop_ok _ _ _ _ (nextSeq a) Hpool (first_index_nonneg ci) Hlast ltac:(lia))
    as (Hi & Hz & Hp' & Hcnt). fold p' in Hp', Hcnt.
  destruct (alloc_geometry a ci sc idx Ha Hc Hi) as (_ & _ & Hpos & Hend).
  pose proof (po_len _ _ _ Hpool) as Hlen. pose proof (first_index_nonneg ci) as Hf0.
  assert (Hocc : u64 (occupancy a + SlabSize sc) = occ_sum (classes a) (<[ci := p']> (pools a))).
  { pose proof (occ_wrap a p' ci sc Ha Hc Hp') as Hw.
    rewrite (occ_sum_insert _ _ _ _ _ p' Hc Hp), Hcnt, <- (ai_occ _ Ha) in Hw |- *.
    replace (SlabSize sc * (live_count p + 1 - live_count p)) with (SlabSize sc) in * by lia.
    by apply u64_id. }
  assert (Hnx : 1 <= (if next =? 0 then 1 else next) < 2 ^ 64).
  { pose proof (u64_range (nextSeq a + 1)). unfold is_u64 in *. unfold next. destruct (Z.eqb_spec (u64 (nextSeq a + 1)) 0); lia. }
  constructor; simpl; auto; try lia.
  - rewrite Hocc. by apply (set_pool_inv a ci sc).
  - intros s (_ & Hs & q & Hq & Hl). by simplify_eq.
  - intros cj j s. unfold p'. rewrite (live_set_pool a ci p) by (auto; unfold zlen in *; lia).
    split; [intros [[? ?]|(? & -> & _)]; [by left|right; by simplify_eq]|].
    intros [Hl|(-> & -> & ->)]; [|right; split_and!; auto; lia].
    left. split; [|done]. intros ?; simplify_eq. destruct Hl as (_ & Hs & q & Hq & Hlq). by simplify_eq.
  - rewrite Hocc, (occ_sum_insert _ _ _ _ _ p' Hc Hp), Hcnt, <- (ai_occ _ Ha). lia.
Qed.

Lemma Alloc_spec size a :
  arena_inv a -> is_u32 size ->
  match Alloc size a with
  | Err ErrZeroLength => size = 0
  | Err ErrTooLarge => size <> 0 /\ forall ci c, classes a !! ci = Some c -> SlabSize c < size
  | Err ErrExhausted => size <> 0 /\ exists ci sc, SelectClass (classes a) size = Some ci /\
      classes a !! ci = Some sc /\
      forall i, first_index ci <= i < SlabCount sc -> exists s, live a ci i s
  | Ok (a', (h, (lo, hi))) => size <> 0 /\ exists ci sc, allocated a size a' h lo hi ci sc
  | _ => False
  end.
Proof.
  intros Ha Hsz. unfold Alloc. destruct (Z.eqb_spec size 0); [done|].
  destruct (SelectClass (classes a) size) as [ci|] eqn:Hsel.
  2: { split; [done|]. by apply SelectClass_None. }
  destruct (SelectClass_Some _ _ _ Hsel) as (sc & Hc & Hfit & _).
  destruct (lookup_lt_is_Some_2 (pools a) ci) as [p Hp].
  { rewrite (ai_len _ Ha). by eapply lookup_lt_Some. }
  rewrite Hp, Hc. pose proof (ai_pools _ Ha _ _ _ Hc Hp) as Hpool.
  destruct (last (free p)) as [idx|] eqn:Hlast.
  2: { split; [done|]. exists ci, sc. split_and!; auto. intros i Hi.
       pose proof (first_index_nonneg ci). apply last_None in Hlast.
       destruct (lookup_lt_is_Some_2 (liveSeq p) (Z.to_nat i)) as [s Hs].
       { pose proof (po_len _ _ _ Hpool). unfold zlen in *. lia. }
       exists s. split_and!; [lia| |by exists p]. intros ->.
       assert (i ∈ free p) as Hin by (by apply (po_free _ _ _ Hpool)). rewrite Hlast in Hin. set_solver. }
  pose proof (ai_next _ Ha) as Hnext.
  destruct (pool_pop_ok _ _ _ _ (nextSeq a) Hpool (first_index_nonneg ci) Hlast ltac:(lia))
    as (Hi & Hz & Hp' & Hcnt).
  unfold nextAllocSeq. pose proof (po_len _ _ _ Hpool) as Hlen.
  destruct (Z.ltb_spec idx (zlen (liveSeq p))); [|lia].
  destruct (alloc_geometry a ci sc idx Ha Hc Hi) as (E1 & E2 & Hpos & Hend).
  pose proof (ai_mem _ Ha) as Hmem. cbv zeta. rewrite E1, E2.
  pose proof (first_index_nonneg ci) as Hf0.
  assert (0 < SlabSize sc).
  { pose proof (bo_classes _ (co_bounds _ (ai_classes _ Ha))) as Hf. rewrite Forall_lookup in Hf.
    by apply Hf in Hc as (_ & _ & ? & _). }
  destruct (Z.leb_spec (ClassBaseOffset sc + idx * SlabSize sc)
    (ClassBaseOffset sc + idx * SlabSize sc + SlabSize sc)); [|lia].
  destruct (Z.leb_spec (ClassBaseOffset sc + idx * SlabSize sc + SlabSize sc) (zlen (mem a))); [|lia].
  simpl andb. cbv iota. split; [done|]. exists ci, sc. by apply pop_allocated.
Qed.

(** Every branch of [Alloc].  On a consistent arena and a uint32 request,
    a zero request is [ErrZeroLength]; a request above every class is
    [ErrTooLarge]; otherwise the smallest class that covers it serves it, with
    [ErrExhausted] exactly when no slab of that class is free; and on success
    the slab was not live, its range lies inside the class area with a nonzero
    offset, the invariant is kept, exactly this slab became live, and the
    occupancy grew by its slab size.  No slice or index panics and no uint32
    sum wraps. *)
Theorem arena_alloc_branches size a :
  arena_inv a -> is_u32 size ->
  match Alloc size a with
  | Err ErrZeroLength => size = 0
  | Err ErrTooLarge => size <> 0 /\ forall ci c, classes a !! ci = Some c -> SlabSize c < size
  | Err ErrExhausted => size <> 0 /\ exists ci sc, SelectClass (classes a) size = Some ci /\
      classes a !! ci = Some sc /\
      forall i, first_index ci <= i < SlabCount sc -> exists s, live a ci i s
  | Ok (a', (h, (lo, hi))) => size <> 0 /\ exists ci sc, allocated a size a' h lo hi ci sc
  | _ => False
  end.
Proof. apply Alloc_spec. Qed.

(** ** Release *)

(** The Go types of a handle's routing fields. *)
Definition typed_handle (h : SlabHandle) : Prop := 0 <= hclass h /\ 0 <= hindex h.

Lemma locate_spec a h :
  arena_inv a -> typed_handle h ->
  match locate a h with
  | Ok (Some p) => exists sc, pools a !! Z.to_nat (hclass h) = Some p /\
      classes a !! Z.to_nat (hclass h) = Some sc /\ hindex h < SlabCount sc /\
      pool_ok (first_index (Z.to_nat (hclass h))) sc p
  | Ok None => forall s, ~ live a (Z.to_nat (hclass h)) (hindex h) s
  | _ => False
  end.
Proof.
  intros Ha [Ht1 Ht2]. unfold locate. destruct (Z.leb_spec (zlen (pools a)) (hclass h)) as [Hge|Hlt].
  - intros s (_ & _ & p & Hp & _). apply lookup_lt_Some in Hp. unfold zlen in *. lia.
  - destruct (lookup_lt_is_Some_2 (pools a) (Z.to_nat (hclass h))) as [p Hp]; [unfold zlen in *; lia|].
    destruct (lookup_lt_is_Some_2 (classes a) (Z.to_nat (hclass h))) as [sc Hc].
    { rewrite <- (ai_len _ Ha). unfold zlen in *. lia. }
    rewrite Hp, Hc. pose proof (ai_pools _ Ha _ _ _ Hc Hp) as Hpool.
    destruct (Z.leb_spec (SlabCount sc) (hindex h)); [|eauto].
    intros s (_ & _ & q & Hq & Hl). simplify_eq. apply lookup_lt_Some in Hl.
    pose proof (po_len _ _ _ Hpool). unfold zlen in *. lia.
Qed.

Lemma free_complement a x : is_u64 x -> 0 < x -> u64 (a + (MaxUint64 - u64 (x - 1))) = u64 (a - x).
Proof.
  intros Hx Hp. unfold is_u64, MaxUint64 in *. rewrite (u64_id (x - 1)) by (unfold is_u64; lia).
  unfold u64. replace (a + (2 ^ 64 - 1 - (x - 1))) with (a - x + 1 * 2 ^ 64) by lia.
  apply Z_mod_plus_full.
Qed.

Lemma Free_spec h a :
  arena_inv a -> typed_handle h ->
  match Free h a with
  | Ok a' => handle_live a h /\ exists sc, freed a h a' (Z.to_nat (hclass h)) sc
  | Err e => e = ErrInvalidFree /\ ~ handle_live a h
  | Panic => False
  end.
Proof.
  intros Ha Ht. unfold Free, handle_live.
  destruct (Z.eqb_spec (howner h) (id a)); simpl; [|naive_solver].
  destruct (Z.eqb_spec (hGeneration h) (generation a)); simpl; [|naive_solver].
  pose proof (locate_spec a h Ha Ht) as Hloc. destruct (locate a h) as [[p|]| |]; simpl; try done.
  2: { split; [done|]. intros (_ & _ & _ & Hl). by eapply Hloc. }
  destruct Hloc as (sc & Hp & Hc & Hlt & Hpool). destruct Ht as [Ht1 Ht2]. rewrite Hc.
  pose proof (po_len _ _ _ Hpool) as Hlen.
  destruct (lookup_lt_is_Some_2 (liveSeq p) (Z.to_nat (hindex h))) as [s Hs]; [unfold zlen in *; lia|].
  rewrite Hs. destruct (Z.eqb_spec s 0) as [->|Hnz].
  { split; [done|]. intros (_ & _ & _ & _ & ? & q & Hq & Hl). by simplify_eq. }
  destruct (Z.eqb_spec s (hSequence h)) as [->|Hne]; simpl.
  2: { split; [done|]. intros (_ & _ & _ & _ & ? & q & Hq & Hl). by simplify_eq. }
  split; [split_and!; auto; split_and!; eauto|]. exists sc.
  destruct (pool_push_ok _ _ _ _ _ Hpool (first_index_nonneg _) Ht2 Hnz Hs) as [Hp' Hcnt].
  set (p' := mkClassState _ _) in *. set (ci := Z.to_nat (hclass h)) in *.
  pose proof (bo_classes _ (co_bounds _ (ai_classes _ Ha))) as Hf. rewrite Forall_lookup in Hf.
  destruct (Hf _ _ Hc) as (Hsz & _ & Hpos & _). unfold is_u32 in Hsz.
  rewrite free_complement by (unfold is_u64; lia).
  assert (Hocc : u64 (occupancy a - SlabSize sc) = occ_sum (classes a) (<[ci := p']> (pools a)) /\
    occ_sum (classes a) (<[ci := p']> (pools a)) = occupancy a - SlabSize sc).
  { pose proof (occ_wrap a p' ci sc Ha Hc Hp') as Hw.
    rewrite (occ_sum_insert _ _ _ _ _ p' Hc Hp), Hcnt, <- (ai_occ _ Ha) in Hw |- *.
    replace (occupancy a + SlabSize sc * (live_count p - 1 - live_count p))
      with (occupancy a - SlabSize sc) in * by lia.
    split; [by apply u64_id|done]. }
  destruct Hocc as [Hocc Hocc2].
  constructor; simpl; auto.
  - rewrite Hocc. apply (set_pool_inv a ci sc); auto. apply (ai_next _ Ha).
  - intros cj j t. unfold p'. rewrite (live_set_pool a ci p) by (auto; unfold zlen in *; lia). naive_solver.
  - by rewrite Hocc.
Qed.

(** Every branch of [Free].  On a consistent arena, [Free h] succeeds
    exactly when [h] names a live slab of this arena (identity, generation,
    class, index and stamp all match); then precisely that slab stops being
    live, the occupancy shrinks by its slab size and the invariant is kept.
    Any other handle, such as one freed before, one whose slab was
    reallocated, one of another arena or generation, or one out of range, is
    [ErrInvalidFree] and changes nothing; freeing the same handle twice is
    always rejected. *)
Theorem arena_free_branches h a :
  arena_inv a -> typed_handle h ->
  (handle_live a h ->
     exists a' sc, Free h a = Ok a' /\ freed a h a' (Z.to_nat (hclass h)) sc /\
       Free h a' = Err ErrInvalidFree) /\
  (~ handle_live a h -> Free h a = Err ErrInvalidFree) /\
  (Validate h a = Ok tt <-> handle_live a h).
Proof.
  intros Ha Ht. split_and!.
  - intros Hl. pose proof (Free_spec h a Ha Ht) as Hf. destruct (Free h a) as [a'|e|]; [|naive_solver..].
    destruct Hf as [_ [sc Hfr]]. exists a', sc. split_and!; auto.
    pose proof (Free_spec h a' (fr_inv _ _ _ _ _ Hfr) Ht) as Hf'.
    destruct (Free h a') as [a''|e|]; [|by destruct Hf' as [-> _]|done].
    destruct Hf' as [(_ & _ & _ & Hl') _]. apply (fr_live _ _ _ _ _ Hfr) in Hl' as [_ ?]. done.
  - intros Hl. pose proof (Free_spec h a Ha Ht) as Hf. destruct (Free h a); naive_solver.
  - unfold Validate, handle_live.
    destruct (Z.eqb_spec (howner h) (id a)); simpl; [|naive_solver].
    destruct (Z.eqb_spec (hGeneration h) (generation a)); simpl; [|naive_solver].
    destruct (Z.eqb_spec (hSequence h) 0); [split; [done|]; intros (_ & _ & _ & _ & ? & _); done|].
    pose proof (locate_spec a h Ha Ht) as Hloc. destruct (locate a h) as [[p|]| |]; simpl; try done.
    2: { split; [done|]. intros (_ & _ & _ & Hl). by apply Hloc in Hl. }
    destruct Hloc as (sc & Hp & Hc & Hlt & Hpool). destruct Ht as [Ht1 Ht2].
    destruct (lookup_lt_is_Some_2 (liveSeq p) (Z.to_nat (hindex h))) as [s Hs].
    { pose proof (po_len _ _ _ Hpool). unfold zlen in *. lia. }
    rewrite Hs. destruct (Z.eqb_spec s (hSequence h)); simpl; split; try done.
    + intros _. subst. split_and!; auto. split_and!; eauto.
    + intros (_ & _ & _ & _ & _ & q & Hq & Hl). by simplify_eq.
Qed.

Lemma live_class a ci i s :
  arena_inv a -> live a ci i s -> exists sc, classes a !! ci = Some sc /\ first_index ci <= i < SlabCount sc.
Proof.
  intros Ha (Hi & Hs & p & Hp & Hl).
  destruct (lookup_lt_is_Some_2 (classes a) ci) as [sc Hc].
  { rewrite <- (ai_len _ Ha). by eapply lookup_lt_Some. }
  exists sc. split; [done|]. pose proof (ai_pools _ Ha _ _ _ Hc Hp) as Hpool.
  pose proof (po_len _ _ _ Hpool). pose proof (lookup_lt_Some _ _ _ Hl). unfold zlen in *.
  split; [|lia]. apply Z.nlt_ge. intros ?.
  rewrite (po_reserved _ _ _ Hpool i ltac:(lia)) in Hl. by simplify_eq.
Qed.

Lemma live_span_bounds a ci i s :
  arena_inv a -> live a ci i s ->
  0 < fst (slab_span a ci i) < snd (slab_span a ci i) /\ snd (slab_span a ci i) <= zlen (mem a).
Proof.
  intros Ha Hl. destruct (live_class _ _ _ _ Ha Hl) as (sc & Hc & Hi).
  destruct (alloc_geometry a ci sc i Ha Hc Hi) as (_ & _ & Hpos & Hend).
  unfold slab_span. rewrite Hc. simpl.
  pose proof (bo_classes _ (co_bounds _ (ai_classes _ Ha))) as Hf. rewrite Forall_lookup in Hf.
  destruct (Hf _ _ Hc) as (_ & _ & ? & _). pose proof (ai_mem _ Ha). lia.
Qed.

Lemma live_spans_disjoint a ci i s cj j t :
  arena_inv a -> live a ci i s -> live a cj j t -> (ci, i) <> (cj, j) ->
  snd (slab_span a ci i) <= fst (slab_span a cj j) \/ snd (slab_span a cj j) <= fst (slab_span a ci i).
Proof.
  intros Ha H1 H2 Hne. destruct (live_class _ _ _ _ Ha H1) as (sc & Hc & Hi).
  destruct (live_class _ _ _ _ Ha H2) as (sd & Hd & Hj).
  unfold slab_span. rewrite Hc, Hd. simpl.
  pose proof (first_index_nonneg ci). pose proof (first_index_nonneg cj).
  apply (slabs_disjoint (classes a) ci cj); auto; try lia. apply (ai_classes _ Ha).
Qed.

(** ** The caller's view

    What a user of the arena is given and gives back: every slice and handle
    [Alloc] returned, those still held and those returned; it frees a handle it
    holds, or by mistake one it has returned. *)

Record grant := mkGrant { gr_size : Z; gr_handle : SlabHandle; gr_lo : Z; gr_hi : Z }.

Record session := mkSession { ar : Arena; held : list grant; returned : list grant }.

Inductive op := OAlloc (size : Z) | OFree (k : nat) | OFreeAgain (k : nat).

Definition perform (s : session) (o : op) : outcome arenaError session :=
  match o with
  | OAlloc size =>
      match Alloc size (ar s) with
      | Ok (a, (h, (lo, hi))) => Ok (mkSession a (mkGrant size h lo hi :: held s) (returned s))
      | Err _ => Ok s
      | Panic => Panic
      end
  | OFree k =>
      match held s !! k with
      | None => Ok s
      | Some g =>
          match Free (gr_handle g) (ar s) with
          | Ok a => Ok (mkSession a (delete k (held s)) (g :: returned s))
          | Err _ => Ok s
          | Panic => Panic
          end
      end
  | OFreeAgain k =>
      match returned s !! k with
      | None => Ok s
      | Some g =>
          match Free (gr_handle g) (ar s) with
          | Ok a => Ok (mkSession a (held s) (returned s))
          | Err _ => Ok s
          | Panic => Panic
          end
      end
  end.

Fixpoint perform_all (s : session) (ops : list op) : outcome arenaError session :=
  match ops with
  | [] => Ok s
  | o :: ops => let! s := perform s o in perform_all s ops
  end.

Definition typed_op (o : op) : Prop := match o with OAlloc size => is_u32 size | _ => True end.

Definition held_bytes (l : list grant) : Z := foldr (fun g n => gr_hi g - gr_lo g + n) 0 l.

#[global] Instance held_bytes_proper : Proper ((≡ₚ) ==> eq) held_bytes.
Proof. intros l l' H. induction H; simpl; lia. Qed.

(** A grant is the slab its handle names. *)
Definition granted (a : Arena) (g : grant) : Prop :=
  let h := gr_handle g in
  exists ci sc, classes a !! ci = Some sc /\ hclass h = Z.of_nat ci /\ first_index ci <= hindex h < SlabCount sc /\
    gr_lo g = ClassBaseOffset sc + hindex h * SlabSize sc /\ gr_hi g = gr_lo g + SlabSize sc /\ gr_size g <= SlabSize sc /\
    howner h = id a /\ hGeneration h = generation a /\ hOffset h = gr_lo g /\ hLength h = gr_size g /\
    0 < gr_lo g /\ gr_hi g <= class_total (classes a).

Definition names (ci : nat) (i q : Z) (g : grant) : Prop :=
  hclass (gr_handle g) = Z.of_nat ci /\ hindex (gr_handle g) = i /\ hSequence (gr_handle g) = q.

Record session_inv (m : list Z) (cs : list SizeClass) (s : session) : Prop := {
  si_arena : arena_inv (ar s);
  si_mem : mem (ar s) = m;
  si_classes : classes (ar s) = cs;
  si_next : nextSeq (ar s) = 1 + Z.of_nat (length (held s ++ returned s));
  si_live : forall ci i q, live (ar s) ci i q <-> exists g, g ∈ held s /\ names ci i q g;
  si_granted : Forall (granted (ar s)) (held s ++ returned s);
  si_seqs : NoDup ((fun g => hSequence (gr_handle g)) <$> held s ++ returned s);
  si_old : Forall (fun g => hSequence (gr_handle g) < nextSeq (ar s)) (held s ++ returned s);
  si_occ : occupancy (ar s) = held_bytes (held s)
}.

Lemma granted_frame a a' g : classes a' = classes a -> id a' = id a -> generation a' = generation a -> granted a g -> granted a' g.
Proof. intros E1 E2 E3. unfold granted. by rewrite E1, E2, E3. Qed.

Lemma live_unique a ci i q q' : live a ci i q -> live a ci i q' -> q = q'.
Proof. intros (_ & _ & p & Hp & H) (_ & _ & p' & Hp' & H'). by simplify_eq. Qed.

Lemma granted_typed a g : granted a g -> typed_handle (gr_handle g).
Proof.
  intros (ci & sc & _ & Hc & Hi & _). pose proof (first_index_nonneg ci). split; lia.
Qed.

(** The handle of a grant is live exactly when its sequence number is stamped on
    its slab. *)
Lemma granted_live a g ci :
  granted a g -> hclass (gr_handle g) = Z.of_nat ci ->
  handle_live a (gr_handle g) <-> live a ci (hindex (gr_handle g)) (hSequence (gr_handle g)).
Proof.
  intros (ci' & sc & _ & Hc & _ & _ & _ & _ & Ho & Hg & _) Hci. assert (ci' = ci) as -> by lia.
  unfold handle_live. rewrite Hci, Nat2Z.id. split; [by intros (_ & _ & _ & ?)|]. intros ?. split_and!; [done|done|lia|done].
Qed.

Lemma session_held_live m cs s g : session_inv m cs s -> g ∈ held s -> handle_live (ar s) (gr_handle g).
Proof.
  intros Hs Hg. pose proof (proj1 (Forall_forall _ _) (si_granted _ _ _ Hs) g ltac:(apply elem_of_app; by left)) as Hgr.
  destruct (Hgr) as (ci & sc & _ & Hc & _). apply (granted_live _ _ ci); [done|done|]. apply (si_live _ _ _ Hs). by exists g.
Qed.

Lemma session_returned_dead m cs s g : session_inv m cs s -> g ∈ returned s -> ~ handle_live (ar s) (gr_handle g).
Proof.
  intros Hs Hg Hl. pose proof (proj1 (Forall_forall _ _) (si_granted _ _ _ Hs) g ltac:(apply elem_of_app; by right)) as Hgr.
  destruct (Hgr) as (ci & sc & _ & Hc & _). apply (granted_live _ _ ci) in Hl; [|done|done].
  apply (si_live _ _ _ Hs) in Hl as (g' & Hg' & (_ & _ & E)). pose proof (si_seqs _ _ _ Hs) as Hn. rewrite fmap_app in Hn.
  apply NoDup_app in Hn as (_ & Hn & _). apply (Hn (hSequence (gr_handle g'))); [by apply (list_elem_of_fmap_2 (fun g => hSequence (gr_handle g)))|].
  rewrite E. by apply (list_elem_of_fmap_2 (fun g => hSequence (gr_handle g))).
Qed.

Lemma session_alloc m cs s size a h lo hi :
  session_inv m cs s -> is_u32 size -> nextSeq (ar s) < 2 ^ 64 - 1 -> Alloc size (ar s) = Ok (a, (h, (lo, hi))) ->
  session_inv m cs (mkSession a (mkGrant size h lo hi :: held s) (returned s)).
Proof.
  intros Hs Hsz Hlt E. pose proof (Alloc_spec size (ar s) (si_arena _ _ _ Hs) Hsz) as Hsp. rewrite E in Hsp.
  destruct Hsp as (_ & ci & sc & Hal). destruct (al_frame _ _ _ _ _ _ _ _ Hal) as (Em & Ec & Eg & Ei).
  pose proof (ai_next _ (si_arena _ _ _ Hs)) as Hnx. pose proof (al_next _ _ _ _ _ _ _ _ Hal) as En.
  rewrite u64_id in En by (unfold is_u64; lia). destruct (Z.eqb_spec (nextSeq (ar s) + 1) 0); [lia|].
  pose proof (al_handle _ _ _ _ _ _ _ _ Hal) as Eh. destruct (al_span _ _ _ _ _ _ _ _ Hal) as [Elo Ehi].
  assert (Eseq : hSequence h = nextSeq (ar s)) by (by rewrite Eh).
  assert (Ecl : hclass h = Z.of_nat ci) by (by rewrite Eh).
  constructor; simpl.
  - apply Hal.
  - rewrite Em. apply Hs.
  - rewrite Ec. apply Hs.
  - rewrite En, (si_next _ _ _ Hs). simpl length. lia.
  - intros cj j q. rewrite (al_live _ _ _ _ _ _ _ _ Hal), (si_live _ _ _ Hs). unfold names. split.
    + intros [(g & Hg & Hn)|(-> & -> & ->)]; [exists g; split; [by right|done]|]. eexists. split; [by left|]. done.
    + intros (g & [->|Hg]%elem_of_cons & Hn1 & Hn2 & Hn3); [right|left; by exists g]. simpl in *. split_and!; [lia|done|congruence].
  - constructor; [|eapply Forall_impl; [apply Hs|]; intros g; by apply granted_frame].
    exists ci, sc. simpl. rewrite Ec, Eg, Ei. destruct (al_bounds _ _ _ _ _ _ _ _ Hal).
    split_and!; [apply Hal|done|apply Hal|apply Hal|done|done|apply Hal|by rewrite Eh..|done|done].
  - apply NoDup_cons. split; [|apply Hs]. rewrite Eseq. intros (g & Hg & Hin)%list_elem_of_fmap.
    pose proof (proj1 (Forall_forall _ _) (si_old _ _ _ Hs) g Hin). simpl in *. lia.
  - constructor; [cbn [gr_handle]; lia|]. eapply Forall_impl; [apply (si_old _ _ _ Hs)|]. intros g Hg. cbv beta in *. lia.
  - rewrite (al_occ _ _ _ _ _ _ _ _ Hal), (si_occ _ _ _ Hs), Ehi. lia.
Qed.

Lemma session_free m cs s k g a :
  session_inv m cs s -> held s !! k = Some g -> Free (gr_handle g) (ar s) = Ok a ->
  session_inv m cs (mkSession a (delete k (held s)) (g :: returned s)).
Proof.
  intros Hs Hk E. pose proof (list_elem_of_lookup_2 _ _ _ Hk) as Hin.
  pose proof (proj1 (Forall_forall _ _) (si_granted _ _ _ Hs) g ltac:(apply elem_of_app; by left)) as Hgr.
  pose proof (Free_spec _ _ (si_arena _ _ _ Hs) (granted_typed _ _ Hgr)) as Hsp. rewrite E in Hsp. destruct Hsp as (_ & sc & Hfr).
  destruct (fr_frame _ _ _ _ _ Hfr) as (Em & Ec & Eg & Ei). destruct (Hgr) as (ci & sc' & Hcl & Hc & Hi & Elo & Ehi & _).
  pose proof (fr_class _ _ _ _ _ Hfr) as Hcl'. pose proof (fr_live _ _ _ _ _ Hfr) as Hlv. rewrite Hc, Nat2Z.id in Hlv, Hcl'. simplify_eq.
  pose proof (delete_Permutation _ _ _ Hk) as Hp.
  assert (Hperm : delete k (held s) ++ g :: returned s ≡ₚ held s ++ returned s).
  { rewrite Hp at 2. simpl. by rewrite <- Permutation_middle. }
  constructor; simpl.
  - apply Hfr.
  - rewrite Em. apply Hs.
  - rewrite Ec. apply Hs.
  - rewrite (fr_next _ _ _ _ _ Hfr), (si_next _ _ _ Hs). by rewrite Hperm.
  - intros cj j q. rewrite Hlv, (si_live _ _ _ Hs). split.
    + intros [(g' & Hg' & Hn) Hne]. exists g'. split; [|done]. rewrite Hp in Hg'. apply elem_of_cons in Hg' as [->|?]; [|done].
      destruct Hne. destruct Hn as (? & ? & _). f_equal; [lia|done].
    + intros (g' & Hg' & Hn). assert (Hg2 : g' ∈ held s) by (rewrite Hp; by right). split; [by exists g'|]. intros Ex. simplify_eq.
      assert (Hl : live (ar s) ci (hindex (gr_handle g)) (hSequence (gr_handle g))) by (apply (si_live _ _ _ Hs); by exists g).
      assert (Hl' : live (ar s) ci (hindex (gr_handle g)) q) by (apply (si_live _ _ _ Hs); by exists g').
      pose proof (live_unique _ _ _ _ _ Hl Hl') as Eq. pose proof (si_seqs _ _ _ Hs) as Hnd. rewrite fmap_app in Hnd.
      apply NoDup_app in Hnd as (Hnd & _ & _). rewrite Hp in Hnd. simpl in Hnd. apply NoDup_cons in Hnd as [Hnd _]. apply Hnd.
      apply list_elem_of_fmap. exists g'. split; [|done]. destruct Hn as (_ & _ & En). congruence.
  - rewrite Hperm. eapply Forall_impl; [apply Hs|]. intros g'. by apply granted_frame.
  - rewrite Hperm. apply Hs.
  - rewrite Hperm. eapply Forall_impl; [apply (si_old _ _ _ Hs)|]. intros g' Hg'. by rewrite (fr_next _ _ _ _ _ Hfr).
  - rewrite (fr_occ _ _ _ _ _ Hfr), (si_occ _ _ _ Hs). rewrite Hp at 1. simpl. lia.
Qed.

Lemma session_perform m cs s o :
  session_inv m cs s -> typed_op o -> nextSeq (ar s) < 2 ^ 64 - 1 ->
  exists s', perform s o = Ok s' /\ session_inv m cs s' /\ nextSeq (ar s') <= nextSeq (ar s) + 1.
Proof.
  intros Hs Ht Hn. pose proof (si_next _ _ _ Hs) as En. destruct o as [size|k|k]; simpl.
  - pose proof (Alloc_spec size (ar s) (si_arena _ _ _ Hs) Ht) as Hsp.
    destruct (Alloc size (ar s)) as [[a [h [lo hi]]]|e|] eqn:E; [|exists s; split_and!; [done|done|lia]|done].
    pose proof (session_alloc m cs s size a h lo hi Hs Ht Hn E) as Hi. eexists. split_and!; [done|done|].
    rewrite (si_next _ _ _ Hi), En. simpl. lia.
  - destruct (held s !! k) as [g|] eqn:Hk; [|exists s; split_and!; [done|done|lia]].
    pose proof (proj1 (Forall_forall _ _) (si_granted _ _ _ Hs) g ltac:(apply elem_of_app; left; by eapply list_elem_of_lookup_2)) as Hgr.
    pose proof (Free_spec _ _ (si_arena _ _ _ Hs) (granted_typed _ _ Hgr)) as Hsp.
    destruct (Free (gr_handle g) (ar s)) as [a|e|] eqn:E; [|exists s; split_and!; [done|done|lia]|done].
    pose proof (session_free m cs s k g a Hs Hk E) as Hi. eexists. split_and!; [done|done|]. destruct Hsp as (_ & sc & Hfr).
    simpl. rewrite (fr_next _ _ _ _ _ Hfr). lia.
  - destruct (returned s !! k) as [g|] eqn:Hk; [|exists s; split_and!; [done|done|lia]].
    pose proof (list_elem_of_lookup_2 _ _ _ Hk) as Hin.
    pose proof (proj1 (Forall_forall _ _) (si_granted _ _ _ Hs) g ltac:(apply elem_of_app; by right)) as Hgr.
    pose proof (Free_spec _ _ (si_arena _ _ _ Hs) (granted_typed _ _ Hgr)) as Hsp.
    destruct (Free (gr_handle g) (ar s)) as [a|e|] eqn:E; [|exists s; split_and!; [done|done|lia]|done].
    destruct Hsp as [Hl _]. by destruct (session_returned_dead _ _ _ _ Hs Hin).
Qed.

Lemma session_perform_all m cs ops s :
  session_inv m cs s -> Forall typed_op ops -> nextSeq (ar s) + Z.of_nat (length ops) <= 2 ^ 64 - 1 ->
  exists s', perform_all s ops = Ok s' /\ session_inv m cs s'.
Proof.
  intros Hs Ht. revert s Hs. induction Ht as [|o ops Ho _ IH]; intros s Hs Hn; simpl in *; [eauto|].
  destruct (session_perform m cs s o Hs Ho ltac:(lia)) as (s1 & -> & Hi & Hle). cbn [obind]. apply IH; [done|lia].
Qed.

Lemma session_fresh m cs gen arenaSeq a seq :
  classes_ok cs -> class_total cs <= zlen m <= MaxUint32 -> New m cs gen arenaSeq = Ok (a, seq) ->
  session_inv m cs (mkSession a [] []) /\ nextSeq a = 1.
Proof.
  intros Hcs Hm Hnew. destruct (New_inv m cs gen arenaSeq Hcs Hm) as (b & sq & Hb & Hinv & Emem & Ecs & _ & Eocc & Hno).
  rewrite Hnew in Hb. simplify_eq. assert (En : nextSeq b = 1).
  { unfold New in Hnew. repeat case_match; try discriminate. by injection Hnew as <- _. }
  split; [|done]. constructor; simpl; auto; try done; [|constructor..].
  intros ci i q. split; [intros H; by destruct (Hno ci i q)|]. intros (g & Hg & _). by apply elem_of_nil in Hg.
Qed.

Lemma occupancy_bound a cs : arena_inv a -> classes a = cs -> 0 <= OccupancyBytes a <= class_total cs.
Proof.
  intros Ha E. unfold OccupancyBytes. rewrite (ai_occ _ Ha), E.
  apply occ_sum_bound; [by apply bounds_raw; rewrite <- E; apply (ai_classes _ Ha)|by rewrite <- E, (ai_len _ Ha)|].
  intros ci sc p Hc Hp. rewrite <- E in Hc. eapply live_count_le, (ai_pools _ Ha); eauto.
Qed.

Lemma held_disjoint m cs s i j g g' :
  session_inv m cs s -> held s !! i = Some g -> held s !! j = Some g' -> i <> j ->
  gr_hi g <= gr_lo g' \/ gr_hi g' <= gr_lo g.
Proof.
  intros Hs Hi Hj Hne. pose proof (list_elem_of_lookup_2 _ _ _ Hi) as Hg. pose proof (list_elem_of_lookup_2 _ _ _ Hj) as Hg'.
  pose proof (fun x (H : x ∈ held s) => proj1 (Forall_forall _ _) (si_granted _ _ _ Hs) x ltac:(apply elem_of_app; by left)) as Hgr.
  destruct (Hgr g Hg) as (ci & sc & Hc & Hci & Hix & -> & -> & _), (Hgr g' Hg') as (cj & sd & Hd & Hcj & Hjx & -> & -> & _).
  pose proof (first_index_nonneg ci). pose proof (first_index_nonneg cj).
  destruct (slabs_disjoint (classes (ar s)) ci cj sc sd (hindex (gr_handle g)) (hindex (gr_handle g'))) as [?|?]; try done; try lia.
  - apply (ai_classes _ (si_arena _ _ _ Hs)).
  - intros Ex. simplify_eq. apply Hne. pose proof (si_seqs _ _ _ Hs) as Hnd. rewrite fmap_app in Hnd. apply NoDup_app in Hnd as (Hnd & _ & _).
    eapply (NoDup_lookup _ _ _ (hSequence (gr_handle g)) Hnd); rewrite list_lookup_fmap; [by rewrite Hi|]. rewrite Hj. simpl. f_equal.
    apply (live_unique (ar s) cj (hindex (gr_handle g'))); apply (si_live _ _ _ Hs); [by exists g'|exists g]. split; [done|]. by split.
Qed.

(** C35: memory safety of the arena, for whoever uses it.  Over a span the layout
    validated, let a caller allocate and free in any order, freeing by mistake
    what it has returned already too, fewer than 2^64 - 1 times in all (the
    sequence numbers that tell handles apart are 64-bit words).  No operation
    panics.  Every slice [Alloc] handed out and the caller still holds lies
    inside the span, away from the reserved offset 0, has room for the bytes
    asked for, and starts at the offset its handle names; two slices held never
    share a byte; a handle held can be freed and one returned is refused; and the
    occupancy is exactly the bytes of the slices held, never above the class
    total. *)
Theorem arena_reachable_safe m cs gen arenaSeq a0 seq ops :
  classes_ok cs -> class_total cs <= zlen m <= MaxUint32 ->
  New m cs gen arenaSeq = Ok (a0, seq) -> Forall typed_op ops -> Z.of_nat (length ops) < 2 ^ 64 - 1 ->
  exists s, perform_all (mkSession a0 [] []) ops = Ok s /\
    (forall g, g ∈ held s -> 0 < gr_lo g /\ gr_lo g + gr_size g <= gr_hi g <= zlen m /\
       hOffset (gr_handle g) = gr_lo g /\ hLength (gr_handle g) = gr_size g) /\
    (forall i j g g', held s !! i = Some g -> held s !! j = Some g' -> i <> j ->
       gr_hi g <= gr_lo g' \/ gr_hi g' <= gr_lo g) /\
    (forall g, g ∈ held s -> exists a, Free (gr_handle g) (ar s) = Ok a) /\
    (forall g, g ∈ returned s -> Free (gr_handle g) (ar s) = Err ErrInvalidFree) /\
    OccupancyBytes (ar s) = held_bytes (held s) /\ 0 <= OccupancyBytes (ar s) <= class_total cs.
Proof.
  intros Hcs Hm Hnew Ht Hn. destruct (session_fresh m cs gen arenaSeq a0 seq Hcs Hm Hnew) as [H0 E0].
  destruct (session_perform_all m cs ops _ H0 Ht) as (s & Hrun & Hs); [simpl; lia|]. exists s. split; [done|].
  pose proof (fun g H => proj1 (Forall_forall _ _) (si_granted _ _ _ Hs) g H) as Hgr. split_and!.
  - intros g Hg. destruct (Hgr g ltac:(apply elem_of_app; by left)) as (ci & sc & _ & _ & _ & _ & ? & ? & _ & _ & ? & ? & ? & Hle).
    rewrite (si_classes _ _ _ Hs) in Hle. split_and!; [done|lia|lia|done|done].
  - intros i j g g' Hi Hj Hne. by eapply held_disjoint.
  - intros g Hg. pose proof (Free_spec (gr_handle g) (ar s) (si_arena _ _ _ Hs) (granted_typed _ _ (Hgr g ltac:(apply elem_of_app; by left)))) as Hsp.
    destruct (Free (gr_handle g) (ar s)) as [a|e|]; [by eexists| |done]. destruct Hsp as [_ Hd]. by destruct (Hd (session_held_live _ _ _ _ Hs Hg)).
  - intros g Hg. pose proof (Free_spec (gr_handle g) (ar s) (si_arena _ _ _ Hs) (granted_typed _ _ (Hgr g ltac:(apply elem_of_app; by right)))) as Hsp.
    destruct (Free (gr_handle g) (ar s)) as [a|e|]; [|by destruct Hsp as [-> _]|done]. destruct Hsp as [Hl _]. by destruct (session_returned_dead _ _ _ _ Hs Hg).
  - apply (si_occ _ _ _ Hs).
  - eapply occupancy_bound; [apply Hs|apply Hs].
  - eapply occupancy_bound; [apply Hs|apply Hs].
Qed.

(** ** The arena implements the interface *)

Definition alloc_handle (n : Z) (a : Arena) : outcome arenaError (Arena * SlabHandle) :=
  let! (a', (h, _)) := Alloc n a in Ok (a', h).

Definition handle_span (a : Arena) (h : SlabHandle) : Z * Z :=
  slab_span a (Z.to_nat (hclass h)) (hindex h).

Lemma alloc_handle_Ok n a a' h :
  arena_inv a -> is_u32 n -> alloc_handle n a = Ok (a', h) ->
  exists lo hi ci sc, allocated a n a' h lo hi ci sc.
Proof.
  intros Ha Hn H. unfold alloc_handle in H. peel_ok H. simplify_eq. destruct p as [lo hi].
  pose proof (Alloc_spec n a Ha Hn) as Hsp. rewrite Ha0 in Hsp. destruct Hsp as (_ & ci & sc & ?). eauto.
Qed.

Lemma alloc_handle_np n a : arena_inv a -> is_u32 n -> alloc_handle n a <> Panic.
Proof.
  intros Ha Hn. unfold alloc_handle. pose proof (Alloc_spec n a Ha Hn) as Hsp.
  destruct (Alloc n a) as [[? [? [? ?]]]|e|]; simpl; [done|done|done].
Qed.

Lemma allocated_handle_live a n a' h lo hi ci sc :
  allocated a n a' h lo hi ci sc -> handle_live a' h /\ hclass h = Z.of_nat ci.
Proof.
  intros Hal. pose proof (al_handle _ _ _ _ _ _ _ _ Hal) as Hh.
  destruct (al_frame _ _ _ _ _ _ _ _ Hal) as (_ & _ & E3 & E4).
  assert (Hc : hclass h = Z.of_nat ci) by (rewrite Hh; done).
  assert (Hs : hSequence h = nextSeq a) by (rewrite Hh; done).
  split; [|done]. unfold handle_live. rewrite E3, E4, Hc, Hs, Nat2Z.id.
  split_and!; [by rewrite Hh|by rewrite Hh|lia|].
  apply (al_live _ _ _ _ _ _ _ _ Hal). by right.
Qed.

Lemma handle_span_frame a a' h : classes a' = classes a -> handle_span a' h = handle_span a h.
Proof. intros E. unfold handle_span, slab_span. by rewrite E. Qed.

#[global, refine] Instance Arena_SlabAllocator : SlabAllocator Arena SlabHandle arenaError := {
  sa_alloc := alloc_handle;
  sa_free := Free;
  sa_ok := arena_inv;
  sa_live := handle_live;
  sa_span := handle_span
}.
Proof.
  - intros. by apply alloc_handle_np.
  - intros n a a' h Ha Hn H. destruct (alloc_handle_Ok _ _ _ _ Ha Hn H) as (lo & hi & ci & sc & Hal).
    destruct (allocated_handle_live _ _ _ _ _ _ _ _ Hal) as [Hl Hcl].
    destruct (al_frame _ _ _ _ _ _ _ _ Hal) as (_ & E2 & E3 & E4).
    split_and!; [apply Hal|done|]. intros g (G1 & G2 & G3 & G4).
    assert (Hg : live a' (Z.to_nat (hclass g)) (hindex g) (hSequence g)).
    { apply (al_live _ _ _ _ _ _ _ _ Hal). by left. }
    split_and!; [split_and!; congruence|by apply handle_span_frame|].
    destruct Hl as (_ & _ & _ & Hl). unfold handle_span.
    eapply live_spans_disjoint; [apply Hal|exact Hg|exact Hl|].
    rewrite Hcl, Nat2Z.id. intros E. injection E as E5 E6. rewrite E5, E6 in G4.
    by eapply (al_was_free _ _ _ _ _ _ _ _ Hal).
  - intros h a Ha Hl. pose proof Hl as (_ & _ & Hc & Hi & _).
    pose proof (Free_spec h a Ha (conj Hc Hi)) as Hsp.
    destruct (Free h a) as [a'|e|]; [|naive_solver..]. destruct Hsp as (_ & sc & Hfr).
    destruct (fr_frame _ _ _ _ _ Hfr) as (_ & E2 & E3 & E4).
    exists a'. split_and!; [done|apply Hfr| |].
    + intros (_ & _ & _ & Hl'). apply (fr_live _ _ _ _ _ Hfr) in Hl' as [_ ?]. done.
    + intros g (G1 & G2 & G3 & G4) Hd. split; [|by apply handle_span_frame].
      split_and!; try congruence. apply (fr_live _ _ _ _ _ Hfr). split; [done|].
      intros E. pose proof (live_span_bounds _ _ _ _ Ha G4) as [? _].
      unfold handle_span in Hd. injection E as E5 E6. rewrite E5, E6 in *. lia.
Defined.

(** ** Witnesses *)

Definition sample_cs : list SizeClass := [mkSizeClass 64 4 0; mkSizeClass 4096 1 256].
Definition sample_mem : list Z := replicate 8192 0.
Definition empty_arena : Arena := mkArena [] [] [] 0 1 1 0.
Definition sample_arena : Arena :=
  match New sample_mem sample_cs 7 0 with Ok (a, _) => a | _ => empty_arena end.

Lemma sample_cs_ok : classes_ok sample_cs.
Proof.
  constructor; [|by repeat split]. constructor.
  - repeat constructor; simpl; unfold is_u32, CacheLine; try lia; [exists 1|exists 64]; lia.
  - repeat constructor; simpl; lia.
  - eexists. split; [done|]. simpl. unfold minLargestSlabSize. lia.
Qed.

Lemma sample_mem_ok : class_total sample_cs <= zlen sample_mem <= MaxUint32.
Proof. vm_compute. split; discriminate. Qed.

Lemma sample_arena_new : exists seq, New sample_mem sample_cs 7 0 = Ok (sample_arena, seq).
Proof.
  unfold sample_arena.
  destruct (is_ok_exists (New sample_mem sample_cs 7 0) ltac:(vm_compute; reflexivity)) as [[a s] ->].
  by exists s.
Qed.

Lemma sample_arena_inv : arena_inv sample_arena.
Proof.
  destruct (New_inv sample_mem sample_cs 7 0 sample_cs_ok sample_mem_ok) as (a & s & H & Hi & _).
  unfold sample_arena. by rewrite H.
Qed.

Lemma arena_alloc_branches_witness :
  exists a' h lo hi, Alloc 10 sample_arena = Ok (a', (h, (lo, hi))) /\
    (exists ci sc, allocated sample_arena 10 a' h lo hi ci sc) /\ lo = 64.
Proof.
  pose proof (arena_alloc_branches 10 sample_arena sample_arena_inv ltac:(unfold is_u32; lia)) as H.
  destruct (is_ok_exists (Alloc 10 sample_arena) ltac:(vm_compute; reflexivity)) as [[a' [h [lo hi]]] E].
  rewrite E in H. exists a', h, lo, hi. split_and!; [exact E|apply H|].
  apply (f_equal (fun m => match m with Ok (_, (_, (l, _))) => l | _ => 0 end)) in E.
  vm_compute in E. symmetry. exact E.
Defined.

(** The second of two live handles, and one that was never issued. *)
Definition sample_after : option (Arena * SlabHandle) :=
  match alloc_handle 10 sample_arena with
  | Ok (a1, _) => match alloc_handle 20 a1 with Ok (a2, h) => Some (a2, h) | _ => None end
  | _ => None
  end.

Lemma sample_after_inv :
  exists a h, sample_after = Some (a, h) /\ arena_inv a /\ handle_live a h /\ typed_handle h.
Proof.
  unfold sample_after, alloc_handle.
  destruct (Alloc 10 sample_arena) as [[a1 [h1 [l1 u1]]]|e|] eqn:E1;
    [|exfalso; revert E1; vm_compute; discriminate..].
  pose proof (Alloc_spec 10 sample_arena sample_arena_inv ltac:(unfold is_u32; lia)) as S1.
  rewrite E1 in S1. destruct S1 as (_ & c1 & sc1 & A1). cbn [obind].
  pose proof (Alloc_spec 20 a1 (al_inv _ _ _ _ _ _ _ _ A1) ltac:(unfold is_u32; lia)) as S2.
  destruct (Alloc 20 a1) as [[a2 [h2 [l2 u2]]]|e|] eqn:E2.
  - destruct S2 as (_ & c2 & sc2 & A2). cbn [obind]. exists a2, h2.
    destruct (allocated_handle_live _ _ _ _ _ _ _ _ A2) as [Hl Hc].
    split_and!; [done|apply A2|done|].
    split; [rewrite Hc; lia|]. destruct Hl as (_ & _ & _ & ? & _). done.
  - exfalso. vm_compute in E1. injection E1 as <- _ _ _. revert E2. vm_compute. discriminate.
  - done.
Qed.

Lemma arena_free_branches_witness :
  exists a h a', sample_after = Some (a, h) /\ Free h a = Ok a' /\ Free h a' = Err ErrInvalidFree.
Proof.
  destruct sample_after_inv as (a & h & E & Hi & Hl & Ht).
  destruct (arena_free_branches h a Hi Ht) as (H & _).
  destruct (H Hl) as (a' & sc & H1 & _ & H2).
  exists a, h, a'. split_and!; [exact E|exact H1|exact H2].
Defined.

(** Two allocations of the small class, one of the large; the first is freed
    twice; its slab serves the next request. *)
Definition sample_ops : list op := [OAlloc 10; OAlloc 20; OAlloc 4000; OFree 2; OFreeAgain 0; OAlloc 30].

Definition slices (l : list grant) : list (Z * Z) := (fun g => (gr_lo g, gr_hi g)) <$> l.

Lemma arena_reachable_safe_witness :
  exists s, perform_all (mkSession sample_arena [] []) sample_ops = Ok s /\
    slices (held s) = [(64, 128); (256, 4352); (128, 192)] /\ OccupancyBytes (ar s) = held_bytes (held s).
Proof.
  destruct sample_arena_new as [seq Hn].
  destruct (arena_reachable_safe _ _ _ _ _ _ sample_ops sample_cs_ok sample_mem_ok Hn) as (s & E & _ & _ & _ & _ & Ho & _).
  { repeat constructor; unfold is_u32; lia. }
  { simpl; lia. }
  exists s. split; [exact E|]. split; [|exact Ho].
  apply (f_equal (fun o => match o with Ok s => slices (held s) | _ => [] end)) in E. vm_compute in E. symmetry. exact E.
Defined.

End Arena.
