(* ===== verification/CallTable.v ===== *)
(** * The request table (src/internal/rpcruntime/table.go)

    Every call's state machine, its one-shot result channel, and the
    operations that race on it.  The operations are given as functions, and as
    threads whose shared accesses (the locked map lookup, each
    compare-and-swap, the channel send, the locked delete) interleave freely.
    The theorems show that each call gets exactly one result whoever wins, that
    a deadline waiter never hangs, and that teardown leaves no call behind and
    classifies published and unpublished calls correctly. *)

From stdpp Require Import gmap.
From S2P Require Import Prelude.

Module Table.

Inductive CallState :=
| StateSubmitted | StatePublished | StateCompleted | StateFailed | StateCanceled
| StateDeadline | StateRejected | StateOutcomeUnknown.

#[global] Instance CallState_eq_dec : EqDecision CallState.
Proof. solve_decision. Defined.

Definition live_state (s : CallState) : bool :=
  match s with StateSubmitted | StatePublished => true | _ => false end.

Record Status := mkStatus { Code : Z; Message : list Z; Details : list (list Z) }.

Definition StatusCodeServiceNotFound : Z := 0xFFFFFF01.
Definition StatusCodeMethodNotFound : Z := 0xFFFFFF02.
Definition StatusCodeInternal : Z := 0xFFFFFF03.
Definition StatusCodeHandlerPanic : Z := 0xFFFFFF08.
Definition StatusCodeRequestDeclined : Z := 0xFFFFFF09.
Definition StatusCodeReservedMin : Z := StatusCodeServiceNotFound.

(** The package's two sentinels, and a caller's error by identity. *)
Inductive callError := ErrCanceledLocally | ErrDeadlineExceeded | Cause (e : Z).

(** A decoded message is an opaque value. *)
Record Result := mkResult {
  Payload : option (list Z);
  Msg : option Z;
  RStatus : option Status;
  RErr : option callError
}.

Definition result_payload (p : list Z) : Result := mkResult (Some p) None None None.
Definition result_msg (m : Z) : Result := mkResult None (Some m) None None.
Definition result_status (s : Status) : Result := mkResult None None (Some s) None.
Definition result_err (e : callError) : Result := mkResult None None None (Some e).

(** Where the winner of a call's terminal transition stands. *)
Inductive phase := PSend | PDelete | PDone.

(** One call.  [sent] is every result ever sent on its channel, [received]
    how many were taken; [pub] records a successful publication, [win] the
    terminal winner (thread and phase), [outcome_of] its result and
    [won_from] the state it won from: all four are history only. *)
Record cell := mkCell {
  state : CallState;
  deadline : option Z;
  newResp : option Z;
  sent : list Result;
  received : nat;
  pub : bool;
  win : option (nat * phase);
  outcome_of : option Result;
  won_from : option CallState
}.

Record Table := mkTable {
  generation : Z;
  nextID : Z;
  calls : gset Z;              (* the map's keys *)
  cells : gmap Z cell          (* the call objects, reachable by pointer after a delete *)
}.

Definition NewTable (gen : Z) : Table := mkTable gen 0 ∅ ∅.

Definition NextID (t : Table) : Table * Z :=
  let i := (nextID t +₆₄ 1)%word in
  (mkTable (generation t) i (calls t) (cells t), i).

Definition Reanchor (budget receivedAt : Z) : Z := receivedAt + budget.

Definition SubmitDecoding (budget now : Z) (resp : option Z) (t : Table) : Table * Z :=
  let (t, i) := NextID t in
  let dl := if 0 <? budget then Some (Reanchor budget now) else None in
  let c := mkCell StateSubmitted dl resp [] 0 false None None None in
  (mkTable (generation t) (nextID t) ({[i]} ∪ calls t) (<[i := c]> (cells t)), i).

Definition Submit (budget now : Z) (t : Table) : Table * Z := SubmitDecoding budget now None t.

Definition set_cell (i : Z) (c : cell) (t : Table) : Table :=
  mkTable (generation t) (nextID t) (calls t) (<[i := c]> (cells t)).
Definition delete_call (i : Z) (t : Table) : Table :=
  mkTable (generation t) (nextID t) (calls t ∖ {[i]}) (cells t).

Definition with_state (s : CallState) (w : option (nat * phase)) (o : option Result) (c : cell) : cell :=
  mkCell s (deadline c) (newResp c) (sent c) (received c) (pub c) w o (Some (state c)).
Definition with_sent (r : Result) (w : option (nat * phase)) (c : cell) : cell :=
  mkCell (state c) (deadline c) (newResp c) (sent c ++ [r]) (received c) (pub c) w (outcome_of c) (won_from c).
Definition with_win (w : option (nat * phase)) (c : cell) : cell :=
  mkCell (state c) (deadline c) (newResp c) (sent c) (received c) (pub c) w (outcome_of c) (won_from c).
Definition with_published (c : cell) : cell :=
  mkCell StatePublished (deadline c) (newResp c) (sent c) (received c) true (win c) (outcome_of c) (won_from c).

(** The arguments of one [terminate] call. *)
Record targ := mkTarg { tid : Z; tto : CallState; tres : Result; tfrom : list CallState }.

(** ** The operations, run without interference *)

Fixpoint cas_loop (s : CallState) (from : list CallState) : bool :=
  match from with
  | [] => false
  | src :: from => if decide (s = src) then true else cas_loop s from
  end.

Definition terminate (o : targ) (t : Table) : Table * bool :=
  if bool_decide (tid o ∈ calls t) then
    match cells t !! tid o with
    | Some c =>
        if cas_loop (state c) (tfrom o)
        then (delete_call (tid o)
                (set_cell (tid o)
                   (with_sent (tres o) (Some (0%nat, PDone))
                      (with_state (tto o) None (Some (tres o)) c)) t), true)
        else (t, false)
    | None => (t, false)
    end
  else (t, false).

Definition Publish (i : Z) (t : Table) : Table * bool :=
  if bool_decide (i ∈ calls t) then
    match cells t !! i with
    | Some c => if decide (state c = StateSubmitted) then (set_cell i (with_published c) t, true) else (t, false)
    | None => (t, false)
    end
  else (t, false).

Definition cancel_arg (i : Z) : targ :=
  mkTarg i StateCanceled (result_err ErrCanceledLocally) [StateSubmitted; StatePublished].
Definition complete_arg (i : Z) (p : list Z) : targ :=
  mkTarg i StateCompleted (result_payload p) [StatePublished].
Definition complete_msg_arg (i m : Z) : targ :=
  mkTarg i StateCompleted (result_msg m) [StatePublished].
Definition fail_arg (i : Z) (s : Status) : targ := mkTarg i StateFailed (result_status s) [StatePublished].
Definition deadline_arg (i : Z) : targ :=
  mkTarg i StateDeadline (result_err ErrDeadlineExceeded) [StateSubmitted; StatePublished].
Definition unknown_arg (i : Z) (e : Z) : targ :=
  mkTarg i StateOutcomeUnknown (result_err (Cause e)) [StatePublished].
Definition reject_arg (i : Z) (e : Z) : targ :=
  mkTarg i StateRejected (result_err (Cause e)) [StateSubmitted; StatePublished].
(** FailAll's first attempt accepts only an unpublished call. *)
Definition reject_submitted_arg (i : Z) (e : Z) : targ :=
  mkTarg i StateRejected (result_err (Cause e)) [StateSubmitted].

Definition Cancel (i : Z) : Table -> Table * bool := terminate (cancel_arg i).
Definition Complete (i : Z) (p : list Z) : Table -> Table * bool := terminate (complete_arg i p).
Definition CompleteMsg (i m : Z) : Table -> Table * bool := terminate (complete_msg_arg i m).
Definition Fail (i : Z) (s : Status) : Table -> Table * bool := terminate (fail_arg i s).
Definition DeadlineExceeded (i : Z) : Table -> Table * bool := terminate (deadline_arg i).
Definition OutcomeUnknown (i e : Z) : Table -> Table * bool := terminate (unknown_arg i e).
Definition Reject (i e : Z) : Table -> Table * bool := terminate (reject_arg i e).

Definition ResponseFactory (i : Z) (t : Table) : option Z * bool :=
  if bool_decide (i ∈ calls t)
  then match cells t !! i with Some c => (newResp c, true) | None => (None, false) end
  else (None, false).

Definition is_published (t : Table) (i : Z) : bool :=
  match cells t !! i with Some c => bool_decide (state c = StatePublished) | None => false end.
Definition PublishedCount (t : Table) : nat :=
  length (List.filter (is_published t) (elements (calls t))).

Fixpoint fail_loop (ids : list Z) (dispatched notDispatched : Z) (t : Table) : Table :=
  match ids with
  | [] => t
  | i :: ids =>
      let (t1, won) := terminate (reject_submitted_arg i notDispatched) t in
      if won then fail_loop ids dispatched notDispatched t1
      else fail_loop ids dispatched notDispatched (fst (terminate (unknown_arg i dispatched) t1))
  end.

Definition FailAll (dispatched notDispatched : Z) (t : Table) : Table :=
  fail_loop (elements (calls t)) dispatched notDispatched t.

(** ** Threads

    A thread is one API call between two shared accesses.  [kont] is what the
    call does once its [terminate] returns. *)

Inductive kont :=
| KRet                                          (* return the bool *)
| KRecv (i : Z)                                 (* wait: read the channel back *)
| KFail1 (i : Z) (ids : list Z) (d n : Z) (all : list Z)
| KFail2 (ids : list Z) (d n : Z) (all : list Z).

Inductive thread :=
| TLookup (o : targ) (k : kont)
| TCas (o : targ) (k : kont)                    (* [tfrom] still to try *)
| TSend (o : targ) (k : kont)
| TDelete (o : targ) (k : kont)
| TPubLookup (i : Z)
| TPubCas (i : Z)
| TWait (i : Z)                                 (* wait's select *)
| TRecv (i : Z)
| TFailLoop (ids : list Z) (d n : Z) (all : list Z)
| TRet (b : bool)
| TGot (i : Z) (r : Result)
| TFailDone (all : list Z).

Definition resume (k : kont) (b : bool) : thread :=
  match k with
  | KRet => TRet b
  | KRecv i => TRecv i
  | KFail1 i ids d n all =>
      if b then TFailLoop ids d n all else TLookup (unknown_arg i d) (KFail2 ids d n all)
  | KFail2 ids d n all => TFailLoop ids d n all
  end.

Definition drop_from (o : targ) : targ := mkTarg (tid o) (tto o) (tres o) (tail (tfrom o)).

(** One shared access of thread number [n]. *)
Inductive tstep (n : nat) : Table -> thread -> Table -> thread -> Prop :=
| ts_lookup_hit o k t :
    tid o ∈ calls t -> tstep n t (TLookup o k) t (TCas o k)
| ts_lookup_miss o k t :
    tid o ∉ calls t -> tstep n t (TLookup o k) t (resume k false)
| ts_cas_win o k c src rest t :
    tfrom o = src :: rest -> cells t !! tid o = Some c -> state c = src ->
    tstep n t (TCas o k)
      (set_cell (tid o) (with_state (tto o) (Some (n, PSend)) (Some (tres o)) c) t) (TSend o k)
| ts_cas_miss o k c src rest t :
    tfrom o = src :: rest -> cells t !! tid o = Some c -> state c <> src ->
    tstep n t (TCas o k) t (TCas (drop_from o) k)
| ts_cas_none o k t :
    tfrom o = [] -> tstep n t (TCas o k) t (resume k false)
| ts_send o k c t :
    (* the channel has capacity 1: a send into a full buffer blocks *)
    cells t !! tid o = Some c -> (length (sent c) - received c < 1)%nat ->
    tstep n t (TSend o k) (set_cell (tid o) (with_sent (tres o) (Some (n, PDelete)) c) t) (TDelete o k)
| ts_delete o k c t :
    cells t !! tid o = Some c ->
    tstep n t (TDelete o k)
      (delete_call (tid o) (set_cell (tid o) (with_win (Some (n, PDone)) c) t)) (resume k true)
| ts_pub_hit i t : i ∈ calls t -> tstep n t (TPubLookup i) t (TPubCas i)
| ts_pub_miss i t : i ∉ calls t -> tstep n t (TPubLookup i) t (TRet false)
| ts_pub_win i c t :
    cells t !! i = Some c -> state c = StateSubmitted ->
    tstep n t (TPubCas i) (set_cell i (with_published c) t) (TRet true)
| ts_pub_lose i c t :
    cells t !! i = Some c -> state c <> StateSubmitted -> tstep n t (TPubCas i) t (TRet false)
| ts_wait_recv i c r t :
    cells t !! i = Some c -> sent c !! received c = Some r ->
    tstep n t (TWait i)
      (set_cell i (mkCell (state c) (deadline c) (newResp c) (sent c) (S (received c)) (pub c) (win c)
         (outcome_of c) (won_from c)) t) (TGot i r)
| ts_wait_deadline i c dl t :
    cells t !! i = Some c -> deadline c = Some dl ->
    tstep n t (TWait i) t (TLookup (deadline_arg i) (KRecv i))
| ts_wait_abandon i t : tstep n t (TWait i) t (TRet false)
| ts_recv i c r t :
    cells t !! i = Some c -> sent c !! received c = Some r ->
    tstep n t (TRecv i)
      (set_cell i (mkCell (state c) (deadline c) (newResp c) (sent c) (S (received c)) (pub c) (win c)
         (outcome_of c) (won_from c)) t) (TGot i r)
| ts_fail_next i ids d nd all t :
    tstep n t (TFailLoop (i :: ids) d nd all) t
      (TLookup (reject_submitted_arg i nd) (KFail1 i ids d nd all))
| ts_fail_done d nd all t : tstep n t (TFailLoop [] d nd all) t (TFailDone all).

#[global] Instance CallState_kont_dec : EqDecision kont.
Proof. solve_decision. Defined.

(** ** The system: one table, any number of concurrent calls *)

Record sys := mkSys { tbl : Table; threads : list thread }.

Inductive api_arg : targ -> Prop :=
| aa_cancel i : api_arg (cancel_arg i)
| aa_complete i p : api_arg (complete_arg i p)
| aa_complete_msg i m : api_arg (complete_msg_arg i m)
| aa_fail i s : api_arg (fail_arg i s)
| aa_deadline i : api_arg (deadline_arg i)
| aa_unknown i e : api_arg (unknown_arg i e)
| aa_reject i e : api_arg (reject_arg i e).

Inductive sys_step : sys -> sys -> Prop :=
| ss_thread n th th' t t' ths :
    ths !! n = Some th -> tstep n t th t' th' ->
    sys_step (mkSys t ths) (mkSys t' (<[n := th']> ths))
| ss_submit budget now resp t ths :
    (* fewer than 2^64 - 1 calls per generation *)
    nextID t + 1 < 2 ^ 64 ->
    sys_step (mkSys t ths) (mkSys (fst (SubmitDecoding budget now resp t)) ths)
| ss_next_id t ths :
    nextID t + 1 < 2 ^ 64 -> sys_step (mkSys t ths) (mkSys (fst (NextID t)) ths)
| ss_terminate o t ths :
    api_arg o -> sys_step (mkSys t ths) (mkSys t (ths ++ [TLookup o KRet]))
| ss_publish i t ths : sys_step (mkSys t ths) (mkSys t (ths ++ [TPubLookup i]))
| ss_wait i t ths :
    is_Some (cells t !! i) -> sys_step (mkSys t ths) (mkSys t (ths ++ [TWait i]))
| ss_failall d n t ths :
    sys_step (mkSys t ths)
      (mkSys t (ths ++ [TFailLoop (elements (calls t)) d n (elements (calls t))])).

Definition start (gen : Z) : sys := mkSys (NewTable gen) [].

(** ** Invariant *)

Definition arg_ok (o : targ) : Prop :=
  live_state (tto o) = false /\ Forall (fun s => live_state s = true) (tfrom o).

Definition settled (t : Table) (i : Z) : Prop :=
  exists c, cells t !! i = Some c /\ live_state (state c) = false.

(** Every id FailAll has passed is terminal. *)
Definition fail_progress (t : Table) (ids all : list Z) : Prop :=
  (forall i, i ∈ all -> i ∈ ids \/ settled t i) /\ (forall i, i ∈ ids -> is_Some (cells t !! i)).

Definition kont_ok (t : Table) (o : targ) (k : kont) : Prop :=
  match k with
  | KRet => True
  | KRecv i => is_Some (cells t !! i) /\ tid o = i /\ tto o = StateDeadline
  | KFail1 i ids d n all => tid o = i /\ fail_progress t (i :: ids) all
  | KFail2 ids d n all => fail_progress t (tid o :: ids) all
  end.

(** The source states already tried and found different: what a losing
    compare-and-swap sequence has learned, given that a call never returns to
    an earlier state. *)
Definition tried (t : Table) (o : targ) (k : kont) : Prop :=
  forall c, cells t !! tid o = Some c ->
  match k with
  | KRecv _ => tfrom o = [StateSubmitted; StatePublished] \/
               (tfrom o = [StatePublished] /\ state c <> StateSubmitted) \/
               (tfrom o = [] /\ live_state (state c) = false)
  | KFail1 _ _ _ _ _ => tfrom o = [StateSubmitted] \/ (tfrom o = [] /\ state c <> StateSubmitted)
  | KFail2 _ _ _ _ => state c <> StateSubmitted /\
               (tfrom o = [StatePublished] \/ (tfrom o = [] /\ live_state (state c) = false))
  | KRet => True
  end.

Definition thread_ok (t : Table) (n : nat) (th : thread) : Prop :=
  match th with
  | TLookup o k => arg_ok o /\ kont_ok t o k /\ tried t o k
  | TCas o k => arg_ok o /\ kont_ok t o k /\ tried t o k /\ is_Some (cells t !! tid o)
  | TSend o k => kont_ok t o k /\ exists c, cells t !! tid o = Some c /\ win c = Some (n, PSend) /\
      outcome_of c = Some (tres o)
  | TDelete o k => kont_ok t o k /\ exists c, cells t !! tid o = Some c /\ win c = Some (n, PDelete)
  | TPubCas i => is_Some (cells t !! i)
  | TRecv i => settled t i
  | TFailLoop ids _ _ all => fail_progress t ids all
  | TFailDone all => forall i, i ∈ all -> settled t i
  | _ => True
  end.

Record cell_ok (t : Table) (ths : list thread) (i : Z) (c : cell) : Prop := {
  co_live : live_state (state c) = true <-> win c = None;
  co_pub : (state c = StateSubmitted -> pub c = false) /\ (state c = StatePublished -> pub c = true);
  co_outcome : win c = None <-> outcome_of c = None;
  co_from : match won_from c with
            | None => win c = None
            | Some src => win c <> None /\ pub c = bool_decide (src = StatePublished) /\ live_state src = true
            end;
  co_received : (received c <= length (sent c))%nat;
  co_phase :
    match win c with
    | None => sent c = [] /\ i ∈ calls t
    | Some (n, PSend) => sent c = [] /\ i ∈ calls t /\
        exists o k, ths !! n = Some (TSend o k) /\ tid o = i
    | Some (n, PDelete) => i ∈ calls t /\ (exists o k, ths !! n = Some (TDelete o k) /\ tid o = i) /\
        exists r, outcome_of c = Some r /\ sent c = [r]
    | Some (_, PDone) => (i ∉ calls t) /\ exists r, outcome_of c = Some r /\ sent c = [r]
    end
}.

Record inv (s : sys) : Prop := {
  inv_next : 0 <= nextID (tbl s) < 2 ^ 64;
  inv_dom : forall i, is_Some (cells (tbl s) !! i) -> 1 <= i <= nextID (tbl s);
  inv_calls : forall i, i ∈ calls (tbl s) -> is_Some (cells (tbl s) !! i);
  inv_cells : forall i c, cells (tbl s) !! i = Some c -> cell_ok (tbl s) (threads s) i c;
  inv_threads : forall n th, threads s !! n = Some th -> thread_ok (tbl s) n th
}.

(** ** Later tables know more

    [later t t']: calls persist, and a call's state only moves forward. *)
Definition later (t t' : Table) : Prop :=
  (forall i c, cells t !! i = Some c -> exists c', cells t' !! i = Some c' /\
     (state c <> StateSubmitted -> state c' <> StateSubmitted) /\
     (live_state (state c) = false -> live_state (state c') = false)).

#[global] Instance later_preorder : PreOrder later.
Proof.
  split.
  - intros t i c Hc. eauto.
  - intros t1 t2 t3 H12 H23 i c Hc. destruct (H12 _ _ Hc) as (c2 & Hc2 & A2 & B2).
    destruct (H23 _ _ Hc2) as (c3 & Hc3 & A3 & B3). exists c3. auto.
Qed.

Lemma later_settled t t' i : later t t' -> settled t i -> settled t' i.
Proof. intros Hl (c & Hc & Hs). destruct (Hl _ _ Hc) as (c' & ? & _ & ?). exists c'. auto. Qed.

Lemma later_is_Some t t' i : later t t' -> is_Some (cells t !! i) -> is_Some (cells t' !! i).
Proof. intros Hl [c Hc]. destruct (Hl _ _ Hc) as (c' & ? & _). eauto. Qed.

Lemma later_progress t t' ids all : later t t' -> fail_progress t ids all -> fail_progress t' ids all.
Proof. 
  intros Hl [Hp Hs]. split; [|eauto using later_is_Some].
  intros i Hi. destruct (Hp i Hi); eauto using later_settled.
 Qed.

Lemma later_kont t t' o k : later t t' -> kont_ok t o k -> kont_ok t' o k.
Proof.
  intros Hl. destruct k; simpl; auto; intros; destruct_and?; split_and?; eauto using later_is_Some, later_progress.
Qed.

Lemma later_tried t t' o k :
  later t t' -> (k <> KRet -> is_Some (cells t !! tid o)) -> tried t o k -> tried t' o k.
Proof.
  intros Hl Hs Ht. destruct (decide (k = KRet)) as [->|Hk]; [by intros ? ?|].
  destruct (Hs Hk) as [c Hc]. intros c' Hc'. destruct (Hl _ _ Hc) as (c2 & Hc2 & A & B).
  simplify_eq. specialize (Ht c Hc). destruct k; simpl in *; naive_solver.
Qed.

Lemma kont_cell t o k : kont_ok t o k -> k <> KRet -> is_Some (cells t !! tid o).
Proof.
  destruct k; simpl; [done|naive_solver|..].
  - intros [<- [_ H]] _. apply H. left.
  - intros [_ H] _. apply H. left.
Qed.

(** Thread [n]'s step leaves the calls other threads have won alone. *)
Definition keeps (n : nat) (t t' : Table) : Prop :=
  forall i c m ph, cells t !! i = Some c -> win c = Some (m, ph) -> m <> n ->
  exists c', cells t' !! i = Some c' /\ win c' = win c /\ outcome_of c' = outcome_of c.

Lemma thread_ok_frame t t' n m th :
  later t t' -> keeps n t t' -> m <> n -> thread_ok t m th -> thread_ok t' m th.
Proof.
  intros Hl Hk Hne. destruct th; simpl; auto.
  - intros (? & Hko & ?). split_and!; eauto using later_kont, later_tried, kont_cell.
  - intros (? & ? & ? & ?). split_and!; eauto using later_kont, later_tried, kont_cell, later_is_Some.
  - intros (? & c & Hc & Hw & Ho). split; [eauto using later_kont|].
    destruct (Hk _ _ _ _ Hc Hw Hne) as (c' & ? & ? & ?). exists c'. split_and!; congruence.
  - intros (? & c & Hc & Hw). split; [eauto using later_kont|].
    destruct (Hk _ _ _ _ Hc Hw Hne) as (c' & ? & ? & ?). exists c'. split_and!; congruence.
  - eauto using later_is_Some.
  - eauto using later_settled.
  - eauto using later_progress.
  - eauto using later_settled.
Qed.

(** ** Preservation *)

Definition owns (th : thread) (i : Z) : Prop :=
  match th with TSend o _ | TDelete o _ => tid o = i | _ => False end.

Lemma cell_ok_frame t t' ths n th th' i c :
  ths !! n = Some th -> ~ owns th i -> (i ∈ calls t' <-> i ∈ calls t) ->
  cell_ok t ths i c -> cell_ok t' (<[n := th']> ths) i c.
Proof.
  intros Hn Ho Hc [H1 H2 H3 H6 H4 H5]. constructor; auto.
  destruct (win c) as [[m ph]|]; [|naive_solver].
  assert (Hm : forall x, ths !! m = Some x -> owns x i -> <[n := th']> ths !! m = Some x).
  { intros x Hx Hox. destruct (decide (m = n)) as [->|].
    - exfalso. rewrite Hn in Hx. simplify_eq. by apply Ho.
    - by rewrite list_lookup_insert_ne. }
  destruct ph.
  - destruct H5 as (? & ? & o & k & Ht & Hi). split_and!; [done|tauto|].
    exists o, k. split; [|done]. by apply Hm.
  - destruct H5 as (? & (o & k & Ht & Hi) & Hr). split_and!; [tauto| |done].
    exists o, k. split; [|done]. by apply Hm.
  - destruct H5 as [? ?]. split; [tauto|done].
Qed.

Lemma cell_ok_app t ths x i c : cell_ok t ths i c -> cell_ok t (ths ++ x) i c.
Proof.
  intros [H1 H2 H3 H6 H4 H5]. constructor; auto. destruct (win c) as [[m []]|]; auto.
  - destruct H5 as (? & ? & o & k & Ht & Hi). split_and!; auto. exists o, k.
    split; [by apply lookup_app_l_Some|done].
  - destruct H5 as (? & (o & k & Ht & Hi) & ?). split_and!; auto. exists o, k.
    split; [by apply lookup_app_l_Some|done].
Qed.

Lemma inv_local t ths n th th' :
  inv (mkSys t ths) -> ths !! n = Some th -> (forall i, ~ owns th i) -> thread_ok t n th' ->
  inv (mkSys t (<[n := th']> ths)).
Proof.
  intros [H1 H2 H3 H4 H5] Hn Ho Hok. constructor; simpl in *; auto.
  - intros i c Hc. eapply cell_ok_frame; eauto.
  - intros m x Hm. destruct (decide (m = n)) as [->|Hne].
    + rewrite list_lookup_insert_eq in Hm by (by eapply lookup_lt_Some). by simplify_eq.
    + rewrite list_lookup_insert_ne in Hm by done. auto.
Qed.

(** One cell [x] changed by thread [n], and possibly its map entry removed. *)
Lemma inv_update t t' ths n th th' x c c' :
  inv (mkSys t ths) -> ths !! n = Some th -> (forall i, owns th i -> i = x) ->
  cells t !! x = Some c -> cells t' = <[x := c']> (cells t) -> nextID t' = nextID t ->
  (forall i, i ∈ calls t' -> i ∈ calls t) -> (forall i, i <> x -> i ∈ calls t -> i ∈ calls t') ->
  (state c <> StateSubmitted -> state c' <> StateSubmitted) ->
  (live_state (state c) = false -> live_state (state c') = false) ->
  (forall m ph, win c = Some (m, ph) -> m <> n -> win c' = win c /\ outcome_of c' = outcome_of c) ->
  cell_ok t' (<[n := th']> ths) x c' -> thread_ok t' n th' ->
  inv (mkSys t' (<[n := th']> ths)).
Proof.
  intros [H1 H2 H3 H4 H5] Hn Ho Hx Ec En Hsub Hsup Hf1 Hf2 Hw Hcell Hth. simpl in *.
  assert (Hlater : later t t').
  { intros i d Hd. rewrite Ec. destruct (decide (i = x)) as [->|].
    - rewrite lookup_insert_eq. simplify_eq. eauto.
    - rewrite lookup_insert_ne by done. eauto. }
  assert (Hkeeps : keeps n t t').
  { intros i d m ph Hd Hwd Hm. rewrite Ec. destruct (decide (i = x)) as [->|].
    - rewrite lookup_insert_eq. simplify_eq. exists c'. destruct (Hw _ _ Hwd Hm). auto.
    - rewrite lookup_insert_ne by done. eauto. }
  constructor; simpl.
  - by rewrite En.
  - intros i Hi. rewrite En. apply H2. rewrite Ec in Hi. destruct (decide (i = x)) as [->|]; [eauto|].
    by rewrite lookup_insert_ne in Hi.
  - intros i Hi. eapply later_is_Some; eauto.
  - intros i d Hd. rewrite Ec in Hd. destruct (decide (i = x)) as [->|Hne].
    + rewrite lookup_insert_eq in Hd. by simplify_eq.
    + rewrite lookup_insert_ne in Hd by done. eapply (cell_ok_frame t); eauto. split; auto.
  - intros m y Hm. destruct (decide (m = n)) as [->|Hne].
    + rewrite list_lookup_insert_eq in Hm by (by eapply lookup_lt_Some). by simplify_eq.
    + rewrite list_lookup_insert_ne in Hm by done. eapply thread_ok_frame; eauto.
Qed.

(** A call no longer in the map has been decided. *)
Lemma gone_settled t ths i : inv (mkSys t ths) -> is_Some (cells t !! i) -> i ∉ calls t -> settled t i.
Proof.
  intros Hi [c Hc] Hn. exists c. split; [done|]. destruct (inv_cells _ Hi _ _ Hc) as [H1 _ _ _ _ H5].
  simpl in *. destruct (win c) as [[m []]|];
    [by destruct H5 as (_ & ? & _)|by destruct H5 as (? & _)| |by destruct H5].
  destruct (live_state (state c)) eqn:E; [|done]. discriminate (proj1 H1 eq_refl).
Qed.

(** What a failed [terminate] hands to its continuation. *)
Lemma resume_false_ok t ths o k n :
  inv (mkSys t ths) -> kont_ok t o k ->
  (k <> KRet -> match k with
                | KFail1 _ _ _ _ _ => forall c, cells t !! tid o = Some c -> state c <> StateSubmitted
                | _ => settled t (tid o)
                end) ->
  thread_ok t n (resume k false).
Proof.
  intros Hi Hk Hs. destruct k as [|i|i ids d nd all|ids d nd all]; simpl in *; auto.
  - destruct Hk as (_ & <- & _). by apply Hs.
  - destruct Hk as (<- & Hp & Hd). split_and!.
    + split; simpl; [done|repeat constructor].
    + split; auto.
    + intros c Hc. simpl. split; [by apply Hs|]. by left.
  - destruct Hk as [Hp Hd]. split; [|intros i Hi'; apply Hd; by right].
    intros i Hi'. destruct (Hp i Hi') as [[->|?]%elem_of_cons|]; auto.
Qed.

Lemma resume_true_ok t o k n :
  kont_ok t o k -> settled t (tid o) -> thread_ok t n (resume k true).
Proof.
  intros Hk Hs. destruct k as [|i|i ids d nd all|ids d nd all]; simpl in *; auto.
  - destruct Hk as (_ & <- & _). done.
  - destruct Hk as (<- & Hp & Hd). split; [|intros i Hi'; apply Hd; by right].
    intros i Hi'. destruct (Hp i Hi') as [[->|?]%elem_of_cons|]; auto.
  - destruct Hk as [Hp Hd]. split; [|intros i Hi'; apply Hd; by right].
    intros i Hi'. destruct (Hp i Hi') as [[->|?]%elem_of_cons|]; auto.
Qed.

Lemma later_same_cells t t' : cells t' = cells t -> later t t'.
Proof. intros E i c Hc. rewrite E. eauto. Qed.

Lemma cas_win_inv t ths n o k c src rest :
  inv (mkSys t ths) -> ths !! n = Some (TCas o k) ->
  tfrom o = src :: rest -> cells t !! tid o = Some c -> state c = src ->
  inv (mkSys (set_cell (tid o) (with_state (tto o) (Some (n, PSend)) (Some (tres o)) c) t)
         (<[n := TSend o k]> ths)).
Proof.
  intros Hi Hn Hf Hc Hs. pose proof (inv_threads _ Hi _ _ Hn) as (Harg & Hk & _).
  pose proof (inv_cells _ Hi _ _ Hc) as [C1 C2 C3 C6 C4 C5]. simpl in *.
  destruct Harg as [Hto Hfrom]. rewrite Hf in Hfrom. apply Forall_cons in Hfrom as [Hlive _].
  rewrite <- Hs in Hlive. pose proof (proj1 C1 Hlive) as Hw. rewrite Hw in C5.
  destruct C5 as [Hsent Hin].
  assert (Hlt : (n < length ths)%nat) by (by eapply lookup_lt_Some).
  eapply (inv_update t _ ths n _ _ (tid o) c); eauto; simpl; auto; try done.
  - intros _ E. rewrite E in Hto. done.
  - intros m ph Hw'. congruence.
  - constructor; simpl.
    + rewrite Hto. split; [done|done].
    + split; intros E; rewrite E in Hto; done.
    + done.
    + split_and!; [done| |done]. destruct C2 as [C2 C2'].
      destruct (state c); simpl in Hlive; try done; [by rewrite C2|by rewrite C2'].
    + done.
    + split_and!; auto. exists o, k. by rewrite list_lookup_insert_eq.
  - split.
    + eapply later_kont; [|exact Hk]. intros i d Hd. simpl. destruct (decide (i = tid o)) as [->|].
      * rewrite lookup_insert_eq. simplify_eq. eexists. split; [done|]. simpl. split; [|by auto].
        intros _ E. rewrite E in Hto. done.
      * rewrite lookup_insert_ne by done. eauto.
    + eexists. rewrite lookup_insert_eq. eauto.
Qed.

Lemma send_inv t ths n o k c :
  inv (mkSys t ths) -> ths !! n = Some (TSend o k) -> cells t !! tid o = Some c ->
  inv (mkSys (set_cell (tid o) (with_sent (tres o) (Some (n, PDelete)) c) t) (<[n := TDelete o k]> ths)).
Proof.
  intros Hi Hn Hc. pose proof (inv_threads _ Hi _ _ Hn) as (Hk & c0 & Hc0 & Hw & Ho).
  simpl in *. simplify_eq. pose proof (inv_cells _ Hi _ _ Hc) as [C1 C2 C3 C6 C4 C5]. simpl in *.
  rewrite Hw in *. destruct C5 as (Hsent & Hin & _).
  assert (Hlt : (n < length ths)%nat) by (by eapply lookup_lt_Some).
  eapply (inv_update t _ ths n _ _ (tid o) c); eauto; simpl; auto; try done.
  - intros m ph ? ?. simplify_eq.
  - constructor; simpl; auto.
    + rewrite C1. split; discriminate.
    + rewrite <- C3. split; discriminate.
    + destruct (won_from c); [|done]. destruct C6 as (_ & ? & ?). split_and!; done.
    + rewrite length_app. lia.
    + rewrite Hsent. split_and!; auto; [exists o, k; by rewrite list_lookup_insert_eq|by exists (tres o)].
  - split.
    + eapply later_kont; [|exact Hk]. intros i d Hd. simpl. destruct (decide (i = tid o)) as [->|].
      * rewrite lookup_insert_eq. simplify_eq. eexists. split; [done|]. auto.
      * rewrite lookup_insert_ne by done. eauto.
    + eexists. rewrite lookup_insert_eq. eauto.
Qed.

Lemma delete_inv t ths n o k c :
  inv (mkSys t ths) -> ths !! n = Some (TDelete o k) -> cells t !! tid o = Some c ->
  inv (mkSys (delete_call (tid o) (set_cell (tid o) (with_win (Some (n, PDone)) c) t))
         (<[n := resume k true]> ths)).
Proof.
  intros Hi Hn Hc. pose proof (inv_threads _ Hi _ _ Hn) as (Hk & c0 & Hc0 & Hw).
  simpl in *. simplify_eq. pose proof (inv_cells _ Hi _ _ Hc) as [C1 C2 C3 C6 C4 C5]. simpl in *.
  rewrite Hw in *. destruct C5 as (Hin & _ & Hr).
  assert (Hterm : live_state (state c) = false).
  { destruct (live_state (state c)); [|done]. discriminate (proj1 C1 eq_refl). }
  assert (Hlater : later t (delete_call (tid o) (set_cell (tid o) (with_win (Some (n, PDone)) c) t))).
  { intros i d Hd. simpl. destruct (decide (i = tid o)) as [->|].
    - rewrite lookup_insert_eq. simplify_eq. eexists. split; [done|]. auto.
    - rewrite lookup_insert_ne by done. eauto. }
  eapply (inv_update t _ ths n _ _ (tid o) c); eauto; simpl; auto; try done.
  - set_solver.
  - set_solver.
  - intros m ph ? ?. simplify_eq.
  - constructor; simpl; auto.
    + rewrite C1. split; discriminate.
    + rewrite <- C3. split; discriminate.
    + destruct (won_from c); [|done]. destruct C6 as (_ & ? & ?). split_and!; done.
    + split; [set_solver|done].
  - eapply resume_true_ok; [eapply later_kont; eauto|].
    eexists. simpl. rewrite lookup_insert_eq. eauto.
Qed.

Lemma recv_inv t ths n i c r :
  inv (mkSys t ths) -> (exists th, ths !! n = Some th /\ forall j, ~ owns th j) ->
  cells t !! i = Some c -> sent c !! received c = Some r ->
  inv (mkSys (set_cell i (mkCell (state c) (deadline c) (newResp c) (sent c) (S (received c)) (pub c)
                 (win c) (outcome_of c) (won_from c)) t) (<[n := TGot i r]> ths)).
Proof.
  intros Hi (th & Hn & Ho) Hc Hr. pose proof (inv_cells _ Hi _ _ Hc) as Hok.
  eapply (inv_update t _ ths n _ _ i c); eauto; simpl; auto; try done.
  - intros j Hj. by apply Ho in Hj.
  - eapply (cell_ok_frame t _ ths n th (TGot i r)) in Hok; [|done|by apply Ho|done].
    destruct Hok as [C1 C2 C3 C6 C4 C5]. constructor; simpl in *; auto.
    apply lookup_lt_Some in Hr. lia.
Qed.

Lemma publish_inv t ths n i c :
  inv (mkSys t ths) -> ths !! n = Some (TPubCas i) -> cells t !! i = Some c -> state c = StateSubmitted ->
  inv (mkSys (set_cell i (with_published c) t) (<[n := TRet true]> ths)).
Proof.
  intros Hi Hn Hc Hs. pose proof (inv_cells _ Hi _ _ Hc) as Hok.
  eapply (inv_update t _ ths n _ _ i c); eauto; simpl; auto; try done.
  { by rewrite Hs. }
  eapply (cell_ok_frame t (set_cell i (with_published c) t) ths n (TPubCas i) (TRet true)) in Hok;
    [|done|exact (fun x => x)|done].
  destruct Hok as [C1 C2 C3 C6 C4 C5]. constructor; simpl in *; auto.
  - rewrite <- C1, Hs. by split.
  - done.
  - destruct (won_from c); [|done]. rewrite Hs in C1. by destruct C6 as (Hw & _), (Hw (proj1 C1 eq_refl)).
Qed.

Lemma tstep_inv t ths n th t' th' :
  inv (mkSys t ths) -> ths !! n = Some th -> tstep n t th t' th' -> inv (mkSys t' (<[n := th']> ths)).
Proof.
  intros Hi Hn Hst. pose proof (inv_threads _ Hi _ _ Hn) as Hth. simpl in Hth.
  destruct Hst.
  - (* lookup, found *) eapply inv_local; eauto. destruct Hth as (? & ? & ?).
    simpl. split_and!; auto. by apply (inv_calls _ Hi).
  - (* lookup, absent *) eapply inv_local; eauto. destruct Hth as (? & Hk & Ht).
    eapply resume_false_ok; eauto. intros Hne. pose proof (kont_cell _ _ _ Hk Hne) as Hcell.
    pose proof (gone_settled _ _ _ Hi Hcell H) as Hset. destruct k; auto.
    intros c Hc E. destruct Hset as (c' & Hc' & Hl). simplify_eq. rewrite E in Hl. done.
  - eapply cas_win_inv; eauto.
  - (* cas lost *) eapply inv_local; eauto. destruct Hth as ([Ha Hf] & Hk & Ht & Hs). simpl. split_and!; auto.
    + split; [done|]. simpl. rewrite H in *. by apply Forall_cons in Hf as [_ ?].
    + intros c' Hc'. simpl in Hc'. simplify_eq. specialize (Ht _ H0).
      clear - Ht H H1. destruct k; [done|..]; simpl in *; rewrite H in Ht |- *; simpl;
        destruct src, (state c); simpl in *; try done; intuition (try congruence).
  - (* no source state left *) eapply inv_local; eauto. destruct Hth as (? & Hk & Ht & [c Hc]).
    eapply resume_false_ok; eauto. intros Hne. specialize (Ht c Hc). rewrite H in Ht.
    destruct k; [done|..]; simpl in Ht.
    + exists c. split; [done|]. naive_solver.
    + intros d' Hd. simplify_eq. naive_solver.
    + exists c. split; [done|]. naive_solver.
  - eapply send_inv; eauto.
  - eapply delete_inv; eauto.
  - eapply inv_local; eauto. by apply (inv_calls _ Hi).
  - by eapply inv_local; [exact Hi|exact Hn|intros ? []|].
  - by eapply publish_inv.
  - by eapply inv_local; [exact Hi|exact Hn|intros ? []|].
  - eapply recv_inv; eauto.
  - (* deadline fired *) eapply inv_local; eauto. simpl. split_and!; eauto.
    + split; [done|repeat constructor].
    + intros c' Hc'. by left.
  - by eapply inv_local; [exact Hi|exact Hn|intros ? []|].
  - eapply recv_inv; eauto.
  - (* FailAll's next id *) eapply inv_local; eauto. simpl in *. split_and!; auto.
    + split; [done|repeat constructor].
    + intros c Hc. by left.
  - eapply inv_local; eauto. simpl in *. intros i Hi'. destruct Hth as [Hp _].
    destruct (Hp i Hi') as [?%elem_of_nil|]; done.
Qed.

Lemma inv_spawn t ths th : inv (mkSys t ths) -> thread_ok t (length ths) th -> inv (mkSys t (ths ++ [th])).
Proof.
  intros [H1 H2 H3 H4 H5] Hok. constructor; simpl in *; auto.
  - intros i c Hc. by apply cell_ok_app, H4.
  - intros n x Hx. apply lookup_snoc_Some in Hx as [[_ ?]|[-> <-]]; auto.
Qed.

(** A fresh call, and a fresh id for a stream, extend the table. *)
Lemma submit_inv t ths t' i c0 :
  inv (mkSys t ths) -> nextID t + 1 < 2 ^ 64 -> i = nextID t + 1 -> nextID t' = i ->
  (cells t' = cells t /\ calls t' = calls t \/
   cells t' = <[i := c0]> (cells t) /\ calls t' = {[i]} ∪ calls t) ->
  state c0 = StateSubmitted -> sent c0 = [] -> pub c0 = false -> win c0 = None ->
  outcome_of c0 = None -> received c0 = 0%nat -> won_from c0 = None ->
  inv (mkSys t' ths).
Proof.
  intros [H1 H2 H3 H4 H5] Hlt -> Hn Hor S1 S2 S3 S4 S5 S6 S7. simpl in *.
  assert (Hfresh : cells t !! (nextID t + 1) = None).
  { destruct (cells t !! (nextID t + 1)) eqn:E; [|done]. specialize (H2 (nextID t + 1) ltac:(eauto)). lia. }
  assert (Hold : forall j d, cells t !! j = Some d -> cells t' !! j = Some d).
  { intros j d Hd. destruct Hor as [[-> _]|[-> _]]; [done|]. rewrite lookup_insert_ne; congruence. }
  assert (Hcalls : forall j, is_Some (cells t !! j) -> j ∈ calls t' <-> j ∈ calls t).
  { intros j [d Hd]. destruct Hor as [[_ ->]|[_ ->]]; [done|].
    assert (j <> nextID t + 1) by congruence. set_solver. }
  assert (Hlater : later t t') by (intros j d Hd; eauto).
  assert (Hkeeps : forall n, keeps n t t') by (intros n j d m ph Hd Hw _; eauto).
  constructor; simpl.
  - lia.
  - intros j Hj. destruct Hor as [[E _]|[E _]]; rewrite E in Hj; [apply H2 in Hj; lia|].
    destruct (decide (j = nextID t + 1)) as [->|]; [lia|]. rewrite lookup_insert_ne in Hj by done.
    apply H2 in Hj. lia.
  - intros j Hj. destruct Hor as [[E1 E2]|[E1 E2]]; rewrite E1; rewrite E2 in Hj; [auto|].
    apply elem_of_union in Hj as [->%elem_of_singleton|Hj]; [rewrite lookup_insert_eq; eauto|].
    destruct (H3 _ Hj) as [d Hd]. rewrite lookup_insert_ne by congruence. eauto.
  - intros j d Hd. destruct (cells t !! j) as [e|] eqn:He.
    + rewrite (Hold _ _ He) in Hd. simplify_eq. destruct (H4 _ _ He) as [C1 C2 C3 C6 C4 C5].
      constructor; auto. pose proof (Hcalls j ltac:(eauto)). destruct (win d) as [[m []]|]; naive_solver.
    + destruct Hor as [[E _]|[E E2]]; rewrite E in Hd; [congruence|].
      destruct (decide (j = nextID t + 1)) as [->|]; [|by rewrite lookup_insert_ne, He in Hd].
      rewrite lookup_insert_eq in Hd. simplify_eq.
      constructor; rewrite ?S1, ?S2, ?S3, ?S4, ?S5, ?S6, ?S7; simpl; try done; [by split..|].
      split; [done|]. rewrite E2. set_solver.
  - intros n th Hth. eapply (thread_ok_frame t t' (S n)); eauto.
Qed.

Lemma api_arg_ok o : api_arg o -> arg_ok o.
Proof. destruct 1; split; simpl; try done; repeat constructor. Qed.

Lemma sys_step_inv s s' : inv s -> sys_step s s' -> inv s'.
Proof.
  intros Hi Hst. revert Hi.
  destruct Hst as [n th th' t t' ths Hn Hts|budget now resp t ths Hlt|t ths Hlt|o t ths Ha|i t ths|i t ths Hs|d n t ths];
    intros Hi.
  - by eapply tstep_inv.
  - pose proof (inv_next _ Hi) as Hr. simpl in Hr.
    eapply (submit_inv t _ _ (nextID t + 1)
      (mkCell StateSubmitted (if 0 <? budget then Some (Reanchor budget now) else None) resp [] 0 false None None None));
      eauto; unfold SubmitDecoding, NextID; simpl; rewrite ?u64_id by (unfold is_u64; lia); auto.
  - pose proof (inv_next _ Hi) as Hr. simpl in Hr.
    eapply (submit_inv t _ _ (nextID t + 1) (mkCell StateSubmitted None None [] 0 false None None None));
      eauto; unfold NextID; simpl; rewrite ?u64_id by (unfold is_u64; lia); auto.
  - apply inv_spawn; [done|]. simpl. split_and!; [by apply api_arg_ok|done|done].
  - by apply inv_spawn.
  - by apply inv_spawn.
  - apply inv_spawn; [done|]. split; [|intros i Hi'; apply (inv_calls _ Hi); by apply elem_of_elements].
    intros i Hi'. by left.
Qed.

Lemma reachable_inv gen s : rtc sys_step (start gen) s -> inv s.
Proof.
  intros Hs. assert (H0 : inv (start gen)).
  { constructor; simpl; try done.
    - intros i [? Hc]. by rewrite lookup_empty in Hc. }
  revert H0. induction Hs as [|s1 s2 s3 H12 _ IH]; [done|]. intros. by eapply IH, sys_step_inv.
Qed.

Lemma sent_cases t ths i c :
  cell_ok t ths i c ->
  (sent c = [] /\ i ∈ calls t) \/
  (exists r, sent c = [r] /\ outcome_of c = Some r /\ live_state (state c) = false).
Proof.
  intros [C1 C2 C3 C6 C4 C5].
  assert (Hl : win c <> None -> live_state (state c) = false).
  { intros Hw. destruct (live_state (state c)); [|done]. by destruct (Hw (proj1 C1 eq_refl)). }
  destruct (win c) as [[m []]|]; [naive_solver| | |naive_solver]; right;
    [destruct C5 as (_ & _ & r & ? & ?)|destruct C5 as (_ & r & ? & ?)]; exists r; auto.
Qed.

(** ** Properties *)

(** C6: exactly one result per call, whoever wins.  In every interleaving of
    submissions, publications, cancels, responses, failures, deadlines and
    teardowns: at most one result is ever sent on a call's channel, it is the
    result of the operation that won the call's terminal compare-and-swap, a
    call that is still submitted or published has none, and the winner's send
    never blocks on the one-slot buffer. *)
Theorem call_exactly_one_result gen s i c :
  rtc sys_step (start gen) s -> cells (tbl s) !! i = Some c ->
  (length (sent c) <= 1)%nat /\
  (forall r, r ∈ sent c -> outcome_of c = Some r /\ live_state (state c) = false) /\
  (live_state (state c) = true -> sent c = [] /\ i ∈ calls (tbl s)) /\
  (i ∉ calls (tbl s) -> exists r, sent c = [r]) /\
  (forall n o k, threads s !! n = Some (TSend o k) -> tid o = i ->
     (length (sent c) - received c < 1)%nat).
Proof.
  intros Hs Hc. pose proof (reachable_inv _ _ Hs) as Hi.
  pose proof (inv_cells _ Hi _ _ Hc) as Hok. pose proof (sent_cases _ _ _ _ Hok) as Hcases.
  split_and!.
  - destruct Hcases as [[-> _]|(r & -> & _)]; simpl; lia.
  - intros r Hr. destruct Hcases as [[E _]|(r' & E & ? & ?)]; rewrite E in Hr; [by apply elem_of_nil in Hr|].
    by apply list_elem_of_singleton in Hr as ->.
  - intros Hlive. destruct Hcases as [?|(r & _ & _ & ?)]; [done|congruence].
  - intros Hn. destruct Hcases as [[_ ?]|(r & ? & _)]; [done|eauto].
  - intros n o k Hn <-. apply (inv_threads _ Hi) in Hn as (_ & c' & Hc' & Hw & _). simplify_eq.
    pose proof (co_phase _ _ _ _ Hok) as C5. rewrite Hw in C5. destruct C5 as [-> _]. simpl. lia.
Qed.

(** A deadline waiter never hangs.  Whenever a waiter whose deadline fired
    has returned from [DeadlineExceeded] and waits for the result, the call is
    terminal, and either its result has already been sent or the thread that
    won the call is at its send and that send is enabled; so unless another
    waiter took it, the result is there after at most one step of the winner. *)
Theorem deadline_wait_resolves gen s n i :
  rtc sys_step (start gen) s -> threads s !! n = Some (TRecv i) ->
  exists c, cells (tbl s) !! i = Some c /\ live_state (state c) = false /\
    ((exists r, sent c = [r]) \/
     (exists m o k t', threads s !! m = Some (TSend o k) /\ tid o = i /\
        tstep m (tbl s) (TSend o k) t' (TDelete o k) /\
        exists c', cells t' !! i = Some c' /\ sent c' = [tres o])).
Proof.
  intros Hs Hn. pose proof (reachable_inv _ _ Hs) as Hi.
  apply (inv_threads _ Hi) in Hn as (c & Hc & Hl). exists c. split_and!; auto.
  pose proof (inv_cells _ Hi _ _ Hc) as [C1 _ _ _ C4 C5].
  destruct (win c) as [[m []]|].
  - destruct C5 as (Hsent & _ & o & k & Hm & <-). right. eexists m, o, k, _. split_and!; auto.
    + eapply ts_send; [done|]. rewrite Hsent. simpl. lia.
    + eexists. simpl. rewrite lookup_insert_eq. split; [done|]. simpl. by rewrite Hsent.
  - destruct C5 as (_ & _ & r & _ & E). left. by exists r.
  - destruct C5 as (_ & r & _ & E). left. by exists r.
  - rewrite (proj2 C1 eq_refl) in Hl. done.
Qed.

(** Teardown leaves nothing behind and classifies by publication.  When
    [FailAll] has returned, every call it found in the table is terminal,
    whatever raced with it.  And in any reachable state a call that was
    terminated from StateSubmitted (FailAll's retryable "not dispatched" class,
    or an early cancel) has never been and will never be published, while one
    terminated from StatePublished has been. *)
Theorem failall_settles_and_classifies gen s :
  rtc sys_step (start gen) s ->
  (forall n all i, threads s !! n = Some (TFailDone all) -> i ∈ all -> settled (tbl s) i) /\
  (forall i c, cells (tbl s) !! i = Some c ->
     (won_from c = Some StateSubmitted -> pub c = false) /\
     (won_from c = Some StatePublished -> pub c = true) /\
     (live_state (state c) = false -> won_from c = Some StateSubmitted \/ won_from c = Some StatePublished)).
Proof.
  intros Hs. pose proof (reachable_inv _ _ Hs) as Hi. split.
  - intros n all i Hn Ha. apply (inv_threads _ Hi) in Hn. by apply Hn.
  - intros i c Hc. destruct (inv_cells _ Hi _ _ Hc) as [C1 _ _ C6 _ _].
    destruct (won_from c) as [src|].
    + destruct C6 as (_ & Hp & Hl). split_and!; [intros; by simplify_eq..|]. destruct src; auto; done.
    + split_and!; [done..|]. intros Hl. apply C1 in C6. congruence.
Qed.

(** ** Executing a schedule

    [run] follows a list of scheduling decisions and is sound for the step
    relation, so a concrete interleaving is evaluated. *)

Definition take_result (i : Z) (t : Table) : option (Table * thread) :=
  match cells t !! i with
  | Some c =>
      match sent c !! received c with
      | Some r => Some (set_cell i (mkCell (state c) (deadline c) (newResp c) (sent c) (S (received c))
                          (pub c) (win c) (outcome_of c) (won_from c)) t, TGot i r)
      | None => None
      end
  | None => None
  end.

Definition texec (n : nat) (t : Table) (th : thread) : option (Table * thread) :=
  match th with
  | TLookup o k => Some (t, if bool_decide (tid o ∈ calls t) then TCas o k else resume k false)
  | TCas o k =>
      match tfrom o, cells t !! tid o with
      | [], _ => Some (t, resume k false)
      | src :: _, Some c =>
          if decide (state c = src)
          then Some (set_cell (tid o) (with_state (tto o) (Some (n, PSend)) (Some (tres o)) c) t, TSend o k)
          else Some (t, TCas (drop_from o) k)
      | _, None => None
      end
  | TSend o k =>
      match cells t !! tid o with
      | Some c => if decide (length (sent c) - received c < 1)%nat
                  then Some (set_cell (tid o) (with_sent (tres o) (Some (n, PDelete)) c) t, TDelete o k)
                  else None
      | None => None
      end
  | TDelete o k =>
      match cells t !! tid o with
      | Some c => Some (delete_call (tid o) (set_cell (tid o) (with_win (Some (n, PDone)) c) t), resume k true)
      | None => None
      end
  | TPubLookup i => Some (t, if bool_decide (i ∈ calls t) then TPubCas i else TRet false)
  | TPubCas i =>
      match cells t !! i with
      | Some c => if decide (state c = StateSubmitted) then Some (set_cell i (with_published c) t, TRet true)
                  else Some (t, TRet false)
      | None => None
      end
  | TWait i =>   (* the deadline branch of the select *)
      match cells t !! i with
      | Some c => match deadline c with
                  | Some _ => Some (t, TLookup (deadline_arg i) (KRecv i))
                  | None => None
                  end
      | None => None
      end
  | TRecv i => take_result i t
  | TFailLoop (i :: ids) d n all => Some (t, TLookup (reject_submitted_arg i n) (KFail1 i ids d n all))
  | TFailLoop [] _ _ all => Some (t, TFailDone all)
  | TRet _ | TGot _ _ | TFailDone _ => None
  end.

Lemma texec_sound n t th t' th' : texec n t th = Some (t', th') -> tstep n t th t' th'.
Proof.
  intros H. destruct th as [o k|o k|o k|o k|i|i|i|i|[|i ids] d nd all| | |]; simpl in H; simplify_eq.
  - case_bool_decide; by constructor.
  - destruct (tfrom o) as [|src rest] eqn:E; simplify_eq; [by constructor|].
    destruct (cells t !! tid o) eqn:Ec; [|done]. case_decide; simplify_eq; by econstructor.
  - destruct (cells t !! tid o) eqn:Ec; [|done]. case_decide; simplify_eq. by econstructor.
  - destruct (cells t !! tid o) eqn:Ec; simplify_eq. by econstructor.
  - case_bool_decide; by constructor.
  - destruct (cells t !! i) eqn:Ec; [|done]. case_decide; simplify_eq; by econstructor.
  - destruct (cells t !! i) eqn:Ec; [|done]. destruct (deadline c) eqn:Ed; simplify_eq. by econstructor.
  - unfold take_result in H. destruct (cells t !! i) eqn:Ec; [|done].
    destruct (sent c !! received c) eqn:Er; simplify_eq. by econstructor.
  - by constructor.
  - by constructor.
Qed.

Inductive action :=
| ASubmit (budget now : Z) | ACancel (i : Z) | AComplete (i : Z) (p : list Z) | APublish (i : Z)
| AWait (i : Z) | AFailAll (d n : Z) | AStep (n : nat).

Definition act (a : action) (s : sys) : option sys :=
  let (t, ths) := s in
  match a with
  | ASubmit b now => if nextID t + 1 <? 2 ^ 64 then Some (mkSys (fst (SubmitDecoding b now None t)) ths) else None
  | ACancel i => Some (mkSys t (ths ++ [TLookup (cancel_arg i) KRet]))
  | AComplete i p => Some (mkSys t (ths ++ [TLookup (complete_arg i p) KRet]))
  | APublish i => Some (mkSys t (ths ++ [TPubLookup i]))
  | AWait i => match cells t !! i with Some _ => Some (mkSys t (ths ++ [TWait i])) | None => None end
  | AFailAll d n => Some (mkSys t (ths ++ [TFailLoop (elements (calls t)) d n (elements (calls t))]))
  | AStep n =>
      match ths !! n with
      | Some th => match texec n t th with
                   | Some (t', th') => Some (mkSys t' (<[n := th']> ths))
                   | None => None
                   end
      | None => None
      end
  end.

Fixpoint run (acts : list action) (s : sys) : option sys :=
  match acts with
  | [] => Some s
  | a :: acts => match act a s with Some s' => run acts s' | None => None end
  end.

Lemma act_sound a s s' : act a s = Some s' -> sys_step s s'.
Proof.
  destruct s as [t ths]. intros H. destruct a; simpl in H; simplify_eq.
  - case_test_in H; simplify_eq. bool_to_prop. by constructor.
  - apply ss_terminate. constructor.
  - apply ss_terminate. constructor.
  - constructor.
  - destruct (cells t !! i) eqn:E; simplify_eq. apply ss_wait. by rewrite E.
  - constructor.
  - destruct (ths !! n) eqn:E; [|done]. destruct (texec n t t0) as [[t' th']|] eqn:Ex; simplify_eq.
    eapply ss_thread; [done|]. by apply texec_sound.
Qed.

Lemma run_sound acts s s' : run acts s = Some s' -> rtc sys_step s s'.
Proof.
  revert s. induction acts as [|a acts IH]; intros s H; simpl in H; simplify_eq; [done|].
  destruct (act a s) as [s1|] eqn:E; [|done]. eapply rtc_l; [by eapply act_sound|]. by apply IH.
Qed.

(** A single thread's step, in front of the rest of its run. *)
Lemma solo_l t th t' th' s :
  tstep 0 t th t' th' -> rtc sys_step (mkSys t' [th']) s -> rtc sys_step (mkSys t [th]) s.
Proof. intros H Hs. eapply rtc_l; [|exact Hs]. by apply (ss_thread 0 th th' t t' [th]). Qed.

Lemma cas_alone t i to r from k c :
  cells t !! i = Some c ->
  exists from', rtc sys_step (mkSys t [TCas (mkTarg i to r from) k])
    (if cas_loop (state c) from
     then mkSys (set_cell i (with_state to (Some (0%nat, PSend)) (Some r) c) t) [TSend (mkTarg i to r from') k]
     else mkSys t [resume k false]).
Proof.
  intros Hc. induction from as [|src from IH]; simpl.
  - exists []. eapply solo_l; [by constructor|apply rtc_refl].
  - case_decide.
    + exists (src :: from). eapply solo_l; [by eapply ts_cas_win|apply rtc_refl].
    + destruct IH as [from' IH]. exists from'. eapply solo_l; [by eapply ts_cas_miss|exact IH].
Qed.

(** Run alone, a [terminate] call computes the function [terminate]. *)
Lemma terminate_alone t o t' b :
  (forall i, i ∈ calls t -> exists c, cells t !! i = Some c /\ sent c = []) ->
  terminate o t = (t', b) -> rtc sys_step (mkSys t [TLookup o KRet]) (mkSys t' [TRet b]).
Proof.
  intros Hcells H. unfold terminate in H. destruct o as [i to r from]; simpl in *.
  case_bool_decide as Hin.
  - destruct (Hcells i Hin) as (c & Hc & Hsent). rewrite Hc in H.
    eapply solo_l; [by apply ts_lookup_hit|].
    destruct (cas_alone t i to r from KRet c Hc) as [from' Hr].
    destruct (cas_loop (state c) from); simplify_eq; [|exact Hr].
    etransitivity; [exact Hr|].
    eapply solo_l; [eapply ts_send; simpl; [by rewrite lookup_insert_eq|simpl; rewrite Hsent; simpl; lia]|].
    eapply solo_l; [eapply ts_delete; simpl; by rewrite lookup_insert_eq|].
    simpl. unfold set_cell. simpl. rewrite !insert_insert_eq. apply rtc_refl.
  - simplify_eq. eapply solo_l; [by apply ts_lookup_miss|apply rtc_refl].
Qed.

(** Call 1: its deadline beats a publication and a late cancel.  Call 2: torn
    down before publication. *)
Definition race : list action :=
  [ASubmit 5 100; AWait 1; ACancel 1; APublish 1; AStep 0; AStep 0; AStep 1; AStep 2; AStep 0; AStep 2;
   AStep 1; AStep 0; AStep 0; ASubmit 0 100; AFailAll 3 4;
   AStep 3; AStep 3; AStep 3; AStep 3; AStep 3; AStep 3].

Definition raced : sys := default (start 7) (run race (start 7)).
Definition raced_cell (i : Z) : cell :=
  default (mkCell StateSubmitted None None [] 0 false None None None) (cells (tbl raced) !! i).

Lemma raced_reachable : rtc sys_step (start 7) raced.
Proof.
  unfold raced. destruct (run race (start 7)) as [s|] eqn:E; [|apply rtc_refl].
  by apply (run_sound race).
Qed.

Lemma call_exactly_one_result_witness :
  sent (raced_cell 1) = [result_err ErrDeadlineExceeded] /\ (length (sent (raced_cell 1)) <= 1)%nat.
Proof.
  split; [vm_compute; reflexivity|].
  apply (call_exactly_one_result 7 raced 1 (raced_cell 1) raced_reachable).
  vm_compute. reflexivity.
Defined.

Lemma deadline_wait_resolves_witness :
  exists c, cells (tbl raced) !! 1 = Some c /\ live_state (state c) = false.
Proof.
  destruct (deadline_wait_resolves 7 raced 0 1 raced_reachable) as (c & H1 & H2 & _).
  - vm_compute. reflexivity.
  - exists c. split; [exact H1|exact H2].
Defined.

Lemma failall_settles_and_classifies_witness :
  settled (tbl raced) 2 /\ pub (raced_cell 2) = false.
Proof.
  destruct (failall_settles_and_classifies 7 raced raced_reachable) as [H1 H2]. split.
  - apply (H1 3%nat [2] 2); [vm_compute; reflexivity|apply list_elem_of_singleton; reflexivity].
  - apply (H2 2 (raced_cell 2)); vm_compute; reflexivity.
Defined.

End Table.
