(* ===== verification/CreditFlow.v ===== *)
(** * Stream credit (src/internal/rpcruntime/credit.go)

    One direction's credit counters, in 64-bit arithmetic, and the protocol
    two of them play: a sender that reserves, publishes or rolls back, a
    receiver that consumes and acknowledges, and the frames in flight between
    them.  The theorems show that the window is never exceeded in any
    interleaving, that a conformant peer's acknowledgements are never
    rejected, and that credit cannot deadlock. *)

From S2P Require Import Prelude.

Module Credit.

Record creditCounter := mkCredit {
  granted : Z;
  csent : Z;
  acked : Z;
  consumed : Z;
  ackedOut : Z;
  ackThresh : Z
}.

Definition ceilHalf (n : Z) : Z :=
  let a := u32 (n + 1) / 2 in
  if a =? 0 then 1 else a.

Definition newCreditCounter (initial : Z) : creditCounter :=
  mkCredit initial 0 0 0 0 (ceilHalf initial).

Definition available (c : creditCounter) : Z := u64 (granted c - u64 (csent c - acked c)).

Definition set_sent (n : Z) (c : creditCounter) : creditCounter :=
  mkCredit (granted c) n (acked c) (consumed c) (ackedOut c) (ackThresh c).
Definition set_acked (n : Z) (c : creditCounter) : creditCounter :=
  mkCredit (granted c) (csent c) n (consumed c) (ackedOut c) (ackThresh c).
Definition set_consumed (n : Z) (c : creditCounter) : creditCounter :=
  mkCredit (granted c) (csent c) (acked c) n (ackedOut c) (ackThresh c).
Definition set_ackedOut (n : Z) (c : creditCounter) : creditCounter :=
  mkCredit (granted c) (csent c) (acked c) (consumed c) n (ackThresh c).

Definition reserve (c : creditCounter) : creditCounter * bool :=
  if u64 (granted c - u64 (csent c - acked c)) =? 0 then (c, false)
  else (set_sent (csent c +₆₄ 1)%word c, true).

Definition release (c : creditCounter) : creditCounter :=
  if 0 <? csent c then set_sent (csent c -₆₄ 1)%word c else c.

Definition replenish (cumulative : Z) (c : creditCounter) : creditCounter :=
  if acked c <? cumulative then set_acked cumulative c else c.

Definition replenishStrict (v : Z) (c : creditCounter) : creditCounter * bool :=
  if v <=? acked c then (c, false) else (set_acked v c, true).

Definition sentCount (c : creditCounter) : Z := csent c.

Definition consume (c : creditCounter) : creditCounter * (Z * bool) :=
  let c' := set_consumed (consumed c +₆₄ 1)%word c in
  (c', (consumed c', ackThresh c' <=? (consumed c' -₆₄ ackedOut c')%word)).

Definition pending (c : creditCounter) : bool := ackedOut c <? consumed c.

Definition consumedCount (c : creditCounter) : Z := consumed c.

Definition advanceAckedOut (v : Z) (c : creditCounter) : creditCounter :=
  if ackedOut c <? v then set_ackedOut v c else c.

(** The checks an inbound STREAM_ACK passes (stream.go, [onStreamAck]). *)
Definition ack_rule (v : Z) (c : creditCounter) : creditCounter * bool :=
  if v =? 0 then (c, false) else
  if sentCount c <? v then (c, false) else
  replenishStrict v c.

(** ** The protocol of one direction

    [flight] and [queue] count logical messages on the wire and in the
    receiver's buffer; [acks] are acknowledgements on the wire, oldest first;
    [holding] is the sender's one unpublished reservation; [due] says the
    receiver has been told to acknowledge; [violation] that a check rejected
    a frame. *)

Record dir := mkDir {
  snd : creditCounter;
  rcv : creditCounter;
  holding : bool;
  flight : Z;
  queue : Z;
  acks : list Z;
  due : bool;
  violation : bool
}.

Definition start (n : Z) : dir :=
  mkDir (newCreditCounter n) (newCreditCounter n) false 0 0 [] false false.

Inductive step : dir -> dir -> Prop :=
| st_reserve s r f q a du v s' :
    (* at most 2^64 - 1 messages per direction *)
    csent s + 1 < 2 ^ 64 -> reserve s = (s', true) ->
    step (mkDir s r false f q a du v) (mkDir s' r true f q a du v)
| st_publish s r f q a du v :
    step (mkDir s r true f q a du v) (mkDir s r false (f + 1) q a du v)
| st_rollback s r f q a du v :
    step (mkDir s r true f q a du v) (mkDir (release s) r false f q a du v)
| st_arrive s r h f q a du v :
    0 < f -> step (mkDir s r h f q a du v) (mkDir s r h (f - 1) (q + 1) a du v)
| st_consume s r h f q a du v r' n b :
    0 < q -> consume r = (r', (n, b)) ->
    step (mkDir s r h f q a du v) (mkDir s r' h f (q - 1) a (du || b) v)
| st_ack s r h f q a du v :
    (* the dispatcher reads the count when it builds the frame *)
    pending r = true ->
    step (mkDir s r h f q a du v)
         (mkDir s (advanceAckedOut (consumedCount r) r) h f q (a ++ [consumedCount r]) false v)
| st_ack_arrive s r h f q x a du v s' ok :
    ack_rule x s = (s', ok) ->
    step (mkDir s r h f q (x :: a) du v) (mkDir s' r h f q a du (v || negb ok)).

(** Acknowledgements on the wire ascend strictly between what the sender has
    applied and what the receiver has issued. *)
Fixpoint ascending (lo : Z) (l : list Z) (hi : Z) : Prop :=
  match l with
  | [] => lo = hi
  | x :: l => lo < x <= hi /\ ascending x l hi
  end.

Record inv (n : Z) (d : dir) : Prop := {
  iv_granted : granted (snd d) = n /\ 1 <= n < 2 ^ 32;
  iv_thresh : ackThresh (rcv d) = ceilHalf n;
  iv_counts : csent (snd d) = consumed (rcv d) + queue d + flight d + (if holding d then 1 else 0);
  iv_nonneg : 0 <= acked (snd d) <= consumed (rcv d) /\ 0 <= queue d /\ 0 <= flight d;
  iv_window : csent (snd d) <= acked (snd d) + n;
  iv_width : csent (snd d) < 2 ^ 64;
  iv_acks : ascending (acked (snd d)) (acks d) (ackedOut (rcv d));
  iv_out : ackedOut (rcv d) <= consumed (rcv d);
  iv_due : ackThresh (rcv d) <= consumed (rcv d) - ackedOut (rcv d) -> due d = true;
  iv_ok : violation d = false
}.

(** The largest grant wraps in [n + 1] and its threshold is 1, still reachable. *)
Lemma ceilHalf_bounds n : 1 <= n < 2 ^ 32 -> 1 <= ceilHalf n <= n.
Proof.
  intros Hn. unfold ceilHalf. destruct (Z.eq_dec n (2 ^ 32 - 1)) as [->|?]; [by vm_compute|].
  rewrite u32_id by (unfold is_u32; lia).
  case_test; bool_to_prop; [lia|]. Z.to_euclidean_division_equations; lia.
Qed.

Lemma ceilHalf_pos n : 1 <= ceilHalf n.
Proof.
  unfold ceilHalf. case_test; bool_to_prop; [lia|]. pose proof (u32_range (n + 1)).
  unfold is_u32 in *. Z.to_euclidean_division_equations; lia.
Qed.

Lemma ascending_snoc lo l hi x : ascending lo l hi -> hi < x -> ascending lo (l ++ [x]) x.
Proof.
  revert lo. induction l as [|y l IH]; intros lo H Hx; simpl in *; [lia|].
  destruct H as [? H]. split; [lia|]. by apply IH.
Qed.

Lemma ascending_le lo l hi : ascending lo l hi -> lo <= hi.
Proof.
  revert lo. induction l as [|y l IH]; intros lo H; simpl in *; [lia|].
  destruct H as [? H]. apply IH in H. lia.
Qed.

Lemma credit_inv_start n : 1 <= n < 2 ^ 32 -> inv n (start n).
Proof.
  intros Hn. pose proof (ceilHalf_pos n). constructor; simpl; auto; lia.
Qed.

Lemma credit_inv_step n d d' : inv n d -> step d d' -> inv n d'.
Proof.
  intros [[Hg Hn] Ht Hc Hnn Hw Hwid Ha Ho Hd Hok] Hst. pose proof (ascending_le _ _ _ Ha) as Hle.
  destruct Hst as [s r f q a du v s' Hlt Hres|s r f q a du v|s r f q a du v|s r h f q a du v Hf
    |s r h f q a du v r' m b Hq Hcons|s r h f q a du v Hp|s r h f q x a du v s' ok Hack]; simpl in *.
  - unfold reserve in Hres. case_test_in Hres; simplify_eq. bool_to_prop.
    rewrite (u64_id (csent s - acked s)) in * by (unfold is_u64; lia).
    rewrite u64_id in E by (unfold is_u64; lia).
    constructor; simpl; rewrite ?u64_id by (unfold is_u64; lia); auto; lia.
  - constructor; simpl; auto; lia.
  - unfold release. destruct (Z.ltb_spec 0 (csent s)); [|lia].
    constructor; simpl; rewrite ?u64_id by (unfold is_u64; lia); auto; lia.
  - constructor; simpl; auto; lia.
  - unfold consume in Hcons. simplify_eq. simpl.
    assert (0 <= (if h then 1 else 0) <= 1) by (destruct h; lia).
    rewrite (u64_id (consumed r + 1)) by (unfold is_u64; lia).
    rewrite (u64_id (consumed r + 1 - ackedOut r)) by (unfold is_u64; lia).
    constructor; simpl; auto; lia.
  - unfold pending in Hp. bool_to_prop. unfold advanceAckedOut, consumedCount.
    destruct (Z.ltb_spec (ackedOut r) (consumed r)); [|lia].
    constructor; simpl; auto; try lia.
    + by apply ascending_snoc with (hi := ackedOut r).
    + intros Hth. pose proof (ceilHalf_pos n). lia.
  - destruct Ha as [Hx Ha]. pose proof (ascending_le _ _ _ Ha).
    assert (0 <= (if h then 1 else 0) <= 1) by (destruct h; lia).
    unfold ack_rule, sentCount, replenishStrict in Hack.
    destruct (Z.eqb_spec x 0); [lia|]. destruct (Z.ltb_spec (csent s) x); [lia|].
    destruct (Z.leb_spec x (acked s)); [lia|]. simplify_eq. simpl.
    constructor; simpl; auto; lia.
Qed.

Lemma credit_inv_reachable n d : 1 <= n < 2 ^ 32 -> rtc step (start n) d -> inv n d.
Proof.
  intros Hn Hs. pose proof (credit_inv_start n Hn) as H0. revert H0.
  induction Hs as [|d1 d2 d3 H12 _ IH]; [done|]. intros. by eapply IH, credit_inv_step.
Qed.

(** ** Properties *)

(** C37: the credit window holds in every interleaving.  With a grant of [n],
    however sends, rollbacks, deliveries, consumptions and acknowledgements
    interleave: messages on the wire plus messages unread never exceed [n] (so
    the receiver's n-slot buffer always has room), the sender's computed
    available credit is exactly n minus the unacknowledged sends and never
    wraps, and no acknowledgement of a conformant receiver is rejected as
    zero, repeated or beyond what was sent. *)
Theorem credit_window_safe n d :
  1 <= n < 2 ^ 32 -> rtc step (start n) d ->
  0 <= queue d + flight d <= n /\
  available (snd d) = n - (csent (snd d) - acked (snd d)) /\ 0 <= available (snd d) <= n /\
  violation d = false.
Proof.
  intros Hn Hs. destruct (credit_inv_reachable n d Hn Hs) as [[Hg _] Ht Hc Hnn Hw Hwid Ha Ho Hd Hok].
  assert (E : available (snd d) = n - (csent (snd d) - acked (snd d))).
  { unfold available. rewrite Hg. destruct (holding d).
    - rewrite (u64_id (csent (snd d) - acked (snd d))) by (unfold is_u64; lia). apply u64_id. unfold is_u64. lia.
    - rewrite (u64_id (csent (snd d) - acked (snd d))) by (unfold is_u64; lia). apply u64_id. unfold is_u64. lia. }
  rewrite E. destruct (holding d); split_and!; auto; lia.
Qed.

(** Credit cannot deadlock.  If the sender is out of credit and nothing
    is moving (no message on the wire or unread, no acknowledgement on the
    wire, no reservation held), then the receiver has already been told to
    send an acknowledgement and has one to send, and delivering it gives the
    sender credit again. *)
Theorem credit_no_deadlock n d :
  1 <= n < 2 ^ 32 -> rtc step (start n) d ->
  available (snd d) = 0 -> queue d = 0 -> flight d = 0 -> acks d = [] -> holding d = false ->
  due d = true /\ pending (rcv d) = true /\
  exists d', rtc step d d' /\ 0 < available (snd d').
Proof.
  intros Hn Hs Hav Hq Hf Hak Hh.
  destruct (credit_inv_reachable n d ltac:(lia) Hs) as [[Hg _] Ht Hc Hnn Hw Hwid Ha Ho Hd Hok].
  pose proof (ceilHalf_bounds n Hn) as Hce. rewrite Hak in Ha. simpl in Ha. rewrite Hh in Hc.
  assert (E : csent (snd d) - acked (snd d) = n).
  { unfold available in Hav. rewrite (u64_id (csent (snd d) - acked (snd d))) in Hav by (unfold is_u64; lia).
    rewrite u64_id in Hav by (unfold is_u64; lia). lia. }
  assert (Hp : pending (rcv d) = true) by (unfold pending; apply Z.ltb_lt; lia).
  split_and!; [apply Hd; lia|done|].
  destruct d as [s r h f q a du v]; simpl in *; subst. eexists. split.
  - eapply rtc_l; [by apply st_ack|]. eapply rtc_l; [|apply rtc_refl].
    eapply st_ack_arrive. unfold ack_rule, sentCount, consumedCount, replenishStrict.
    destruct (Z.eqb_spec (consumed r) 0); [lia|]. destruct (Z.ltb_spec (csent s) (consumed r)); [lia|].
    destruct (Z.leb_spec (consumed r) (acked s)); [lia|]. reflexivity.
  - unfold available. simpl. rewrite (u64_id (csent s - consumed r)) by (unfold is_u64; lia).
    rewrite u64_id by (unfold is_u64; lia). lia.
Qed.

(** A grant of 2: two messages sent, read and unacknowledged. *)
Definition stalled : dir :=
  mkDir (mkCredit 2 2 0 0 0 1) (mkCredit 2 0 0 2 0 1) false 0 0 [] true false.

Lemma stalled_reachable : rtc step (start 2) stalled.
Proof.
  do 2 (eapply rtc_l; [eapply st_reserve; [vm_compute; reflexivity|reflexivity]|];
        eapply rtc_l; [apply st_publish|]).
  do 2 (eapply rtc_l; [apply st_arrive; vm_compute; reflexivity|]).
  do 2 (eapply rtc_l; [eapply st_consume; [vm_compute; reflexivity|reflexivity]|]).
  vm_compute. apply rtc_refl.
Qed.

Lemma credit_window_safe_witness : available (snd stalled) = 0 /\ violation stalled = false.
Proof.
  split; [vm_compute; reflexivity|].
  apply (credit_window_safe 2 stalled ltac:(lia) stalled_reachable).
Defined.

Lemma credit_no_deadlock_witness :
  available (snd stalled) = 0 /\ exists d', rtc step stalled d' /\ 0 < available (snd d').
Proof.
  split; [vm_compute; reflexivity|].
  destruct (credit_no_deadlock 2 stalled ltac:(lia) stalled_reachable) as (_ & _ & H);
    [vm_compute; reflexivity..|exact H].
Defined.

End Credit.
