(* ===== verification/LeaseTable.v ===== *)
(** * Active-handler leases and response obligations
    (src/internal/rpcruntime/lease.go, and the [obligationSink] interface of
    src/internal/rpcruntime/stream_table.go)

    The two keyed sets of a serving session, under one lock, with the wedge
    count the heartbeat reports.  [ObligationSink] is what the stream engine
    requires of the table that accounts for owed responses; the lease table is
    its implementation. *)

From stdpp Require Import gmap fin_maps fin_sets.
From S2P Require Import Prelude.

(** What the stream engine relies on: open and close are keyed and
    idempotent. *)
Class ObligationSink (K : Type) := {
  OpenObligation : Z -> K -> K;
  CloseObligation : Z -> K -> K;
  owed : K -> gset Z;
  owed_open : forall i k, owed (OpenObligation i k) = {[i]} ∪ owed k;
  owed_close : forall i k, owed (CloseObligation i k) = owed k ∖ {[i]}
}.

Module Leases.

Record Lease := mkLease { CallID : Z; StartedAt : Z; LastRenewedAt : Z }.

(** [hooks] counts the invocations of the obligation-closed hook, which is
    installed when [hook] is set. *)
Record LeaseTable := mkLeases {
  active : gmap Z Lease;
  obligations : gset Z;
  hook : bool;
  hooks : Z
}.

Definition NewLeaseTable : LeaseTable := mkLeases ∅ ∅ false 0.

Definition Acquire (i now : Z) (t : LeaseTable) : LeaseTable :=
  mkLeases (<[i := mkLease i now now]> (active t)) (obligations t) (hook t) (hooks t).

Definition openObligation (i : Z) (t : LeaseTable) : LeaseTable :=
  mkLeases (active t) ({[i]} ∪ obligations t) (hook t) (hooks t).

Definition RenewAll (now : Z) (t : LeaseTable) : LeaseTable :=
  mkLeases ((fun l => mkLease (CallID l) (StartedAt l) now) <$> active t)
    (obligations t) (hook t) (hooks t).

Definition Release (i : Z) (t : LeaseTable) : LeaseTable :=
  mkLeases (delete i (active t)) (obligations t) (hook t) (hooks t).

Definition closeObligation (i : Z) (t : LeaseTable) : LeaseTable :=
  mkLeases (active t) (obligations t ∖ {[i]}) (hook t) (if hook t then hooks t + 1 else hooks t).

Definition SetObligationClosedHook (b : bool) (t : LeaseTable) : LeaseTable :=
  mkLeases (active t) (obligations t) b (hooks t).

Definition OpenObligationCount (t : LeaseTable) : Z := Z.of_nat (size (obligations t)).

(** Go ranges over a map in an unspecified order; the copies are compared as
    multisets. *)
Definition leasesLocked (t : LeaseTable) : list Lease := (map_to_list (active t)).*2.
Definition Snapshot (t : LeaseTable) : list Lease := leasesLocked t.

(** [for id := range t.obligations { if _, leased := t.active[id]; !leased { unleased++ } }] *)
Definition unleased (t : LeaseTable) : Z :=
  fold_left (fun n i => if decide (is_Some (active t !! i)) then n else (n +₆₄ 1)%word)
    (elements (obligations t)) 0.

Definition SnapshotWithObligations (t : LeaseTable) : list Lease * Z :=
  (leasesLocked t, unleased t).

#[global] Instance LeaseTable_sink : ObligationSink LeaseTable := {
  OpenObligation := openObligation;
  CloseObligation := closeObligation;
  owed := obligations;
  owed_open _ _ := eq_refl;
  owed_close _ _ := eq_refl
}.

(** ** The events of one serving session, and what they mean per call *)

Inductive event :=
| EOpen (i : Z) | EAcquire (i now : Z) | ERenew (now : Z) | ERelease (i : Z) | EClose (i : Z).

Definition apply (e : event) (t : LeaseTable) : LeaseTable :=
  match e with
  | EOpen i => openObligation i t
  | EAcquire i now => Acquire i now t
  | ERenew now => RenewAll now t
  | ERelease i => Release i t
  | EClose i => closeObligation i t
  end.

Definition run (es : list event) : LeaseTable := fold_left (fun t e => apply e t) es NewLeaseTable.

(** The specification reads the history backwards, newest event first: a call
    owes a response if its last obligation event opened it, and holds a lease if
    its last lease event acquired it, renewed by the newest renewal since. *)
Fixpoint owes (i : Z) (newest_first : list event) : bool :=
  match newest_first with
  | [] => false
  | EOpen j :: es => bool_decide (i = j) || owes i es
  | EClose j :: es => negb (bool_decide (i = j)) && owes i es
  | _ :: es => owes i es
  end.

Fixpoint lease_of (i : Z) (renewed : option Z) (newest_first : list event) : option Lease :=
  match newest_first with
  | [] => None
  | EAcquire j now :: es =>
      if bool_decide (i = j) then Some (mkLease i now (default now renewed)) else lease_of i renewed es
  | ERelease j :: es => if bool_decide (i = j) then None else lease_of i renewed es
  | ERenew now :: es => lease_of i (Some (default now renewed)) es
  | _ :: es => lease_of i renewed es
  end.

Lemma run_snoc es e : run (es ++ [e]) = apply e (run es).
Proof. unfold run. now rewrite fold_left_app. Qed.

Lemma lease_of_renewed i now es :
  lease_of i (Some now) es =
  (fun l => mkLease (CallID l) (StartedAt l) now) <$> lease_of i None es.
Proof.
  assert (G : forall r, lease_of i (Some now) es =
    (fun l => mkLease (CallID l) (StartedAt l) now) <$> lease_of i r es); [|apply G].
  induction es as [|[j|j t|t|j|j] es IH]; intros r; simpl; auto; try (destruct (bool_decide _)); auto.
Qed.

Lemma run_spec es i :
  (i ∈ obligations (run es) <-> owes i (rev es) = true) /\
  active (run es) !! i = lease_of i None (rev es).
Proof.
  induction es as [|e es [IHo IHa]] using rev_ind.
  - simpl. split; [|apply lookup_empty]. set_solver.
  - rewrite run_snoc, rev_app_distr. destruct e as [j|j t|t|j|j]; simpl.
    + split; [|done]. rewrite orb_true_iff, bool_decide_eq_true, <- IHo. set_solver.
    + split; [done|]. case_bool_decide; subst.
      * apply lookup_insert_eq.
      * now rewrite lookup_insert_ne.
    + split; [done|]. rewrite lookup_fmap, IHa. symmetry. apply lease_of_renewed.
    + split; [done|]. case_bool_decide; subst.
      * apply lookup_delete_eq.
      * now rewrite lookup_delete_ne.
    + split; [|done]. rewrite andb_true_iff, negb_true_iff, bool_decide_eq_false, <- IHo. set_solver.
Qed.

Lemma count_fold (P : Z -> Prop) `{forall i, Decision (P i)} l n :
  0 <= n -> n + Z.of_nat (length l) < 2 ^ 64 ->
  fold_left (fun n i => if decide (P i) then n else (n +₆₄ 1)%word) l n =
  n + Z.of_nat (length (filter (fun i => ~ P i) l)).
Proof.
  revert n. induction l as [|i l IH]; intros n Hn Hl; simpl in *; [lia|].
  rewrite filter_cons. case_decide; case_decide; try done.
  - rewrite IH; lia.
  - rewrite u64_id by (unfold is_u64; lia). rewrite IH by lia. simpl. lia.
Qed.

Lemma unleased_size t :
  Z.of_nat (size (obligations t)) < 2 ^ 64 ->
  unleased t = Z.of_nat (size (obligations t ∖ dom (active t))).
Proof.
  intros Hs. unfold unleased. rewrite count_fold by (unfold size, set_size in Hs; simpl in *; lia).
  rewrite Z.add_0_l. f_equal. transitivity (size (filter (fun i => ~ is_Some (active t !! i)) (obligations t))).
  - unfold size, set_size. simpl. symmetry.
    apply Permutation_length. apply NoDup_Permutation.
    + apply NoDup_elements.
    + apply NoDup_filter, NoDup_elements.
    + intros x. rewrite list_elem_of_filter, !elem_of_elements, elem_of_filter. done.
  - apply set_size_proper. intros x. rewrite elem_of_filter, elem_of_difference, elem_of_dom. tauto.
Qed.

(** ** Properties *)

(** The lease table implements the accounting its contract states, for
    every history of a session.  A call owes a response exactly when it was
    opened after its last close, holds a lease exactly when it was acquired
    after its last release, with the start and the newest renewal as stamps;
    and the wedge count of the heartbeat is exactly the number of calls that
    owe a response with no handler running, so no running handler can hide
    another call's stall. *)
Theorem lease_table_refines_history es :
  Z.of_nat (size (obligations (run es))) < 2 ^ 64 ->
  let '(leases, stalled) := SnapshotWithObligations (run es) in
  (forall l, l ∈ leases <-> exists i, lease_of i None (rev es) = Some l) /\
  (exists calls : gset Z, stalled = Z.of_nat (size calls) /\
    forall i, i ∈ calls <-> owes i (rev es) = true /\ lease_of i None (rev es) = None) /\
  OpenObligationCount (run es) = Z.of_nat (size (owed (run es))) /\
  (forall i, i ∈ owed (run es) <-> owes i (rev es) = true).
Proof.
  intros Hs. simpl. split_and!; [..|done|intros i; apply run_spec].
  - intros l. unfold leasesLocked. rewrite list_elem_of_fmap. split.
    + intros ([i l'] & -> & Hi). exists i. apply elem_of_map_to_list in Hi.
      now rewrite <- (proj2 (run_spec es i)).
    + intros (i & Hi). exists (i, l). split; [done|]. apply elem_of_map_to_list.
      now rewrite (proj2 (run_spec es i)).
  - exists (obligations (run es) ∖ dom (active (run es))). split; [now apply unleased_size|].
    intros i. rewrite elem_of_difference, not_elem_of_dom, (proj2 (run_spec es i)).
    now rewrite (proj1 (run_spec es i)).
Qed.

Definition sample : list event :=
  [EOpen 1; EOpen 2; EAcquire 1 10; ERenew 20; EOpen 3; EAcquire 3 21; ERelease 3; EClose 1].

Lemma lease_table_refines_history_witness :
  SnapshotWithObligations (run sample) = ([mkLease 1 10 20], 2) /\
  (exists calls : gset Z, 2 = Z.of_nat (size calls) /\
    forall i, i ∈ calls <-> owes i (rev sample) = true /\ lease_of i None (rev sample) = None).
Proof.
  split; [vm_compute; reflexivity|].
  assert (Hs : Z.of_nat (size (obligations (run sample))) < 2 ^ 64) by (vm_compute; reflexivity).
  pose proof (lease_table_refines_history sample Hs) as H. cbv beta iota zeta in H.
  destruct H as (_ & H & _). exact H.
Defined.

End Leases.
