(* ===== verification/TransportFrame.v ===== *)
(** * Transport frames (src/internal/transport/transport.go and the codec of
    src/internal/transport/uds.go)

    The frame every transport carries, the error values both the transport and
    the rpc runtime return, the status-body codec shared by the uds and
    shared-memory transports, and the uds header codec.  The theorems show that
    both codecs round-trip and that the status decoder, which reads bytes a peer
    controls, never panics and only accepts what its length prefixes cover. *)

From S2P Require Import Prelude.

Module Frames.

(** ** Errors

    A Go error is represented by what [errors.Is] finds in it: the sentinels it
    wraps, outermost first ([fmt.Errorf] with several %w verbs wraps several).
    The message text is dropped. *)

Record FrameStatus := mkStatus { Code : Z; Message : list Z; Details : list (list Z) }.

#[global] Instance FrameStatus_eq_dec : EqDecision FrameStatus.
Proof. solve_decision. Defined.

Inductive sentinel :=
(* context and io *)
| CtxCanceled | CtxDeadlineExceeded | EOF | ErrUnexpectedEOF
(* internal/transport *)
| ErrUnimplementedFrameKind | ErrStreamChunkOnUDS | ErrPayloadTooLarge | ErrMalformedStatusFrame
| ErrClosed | ErrPoisoned | ErrBackpressure | ErrConsumeFault | ErrReceiveBudgetExpired
(* internal/rpcruntime *)
| ErrCanceledLocally | ErrDeadlineExceeded | ErrStreamsAtCapacity | ErrStreamExists
| ErrStreamConformance | ErrSendClosed | ErrStreamTableClosed | ErrStreamCreditsExceedMax
| ErrStreamDeadlineRequired | ErrOwedTeardownDropped
| StreamStatusError (st : option FrameStatus)
(* any other error value, by identity *)
| Other (id : Z).

#[global] Instance sentinel_eq_dec : EqDecision sentinel.
Proof. solve_decision. Defined.

Definition error := list sentinel.

(** [errors.Is(err, s)]; a nil error matches nothing. *)
Definition Is (e : option error) (s : sentinel) : bool :=
  match e with Some l => bool_decide (s ∈ l) | None => false end.

Definition NeverPublished (e : option error) : bool :=
  Is e ErrUnimplementedFrameKind || Is e ErrPayloadTooLarge || Is e ErrBackpressure.

Definition IsFrameLocalRecvErr (e : option error) : bool :=
  Is e ErrMalformedStatusFrame || Is e ErrUnimplementedFrameKind || Is e ErrConsumeFault.

(** ** Frames *)

Definition FrameUnaryReq : Z := 0.
Definition FrameUnaryResp : Z := 1.
Definition FrameCancel : Z := 2.
Definition FrameStreamOpen : Z := 3.
Definition FrameStreamMsg : Z := 4.
Definition FrameStreamAck : Z := 5.
Definition FrameStreamClose : Z := 6.
Definition FrameStreamErr : Z := 7.
Definition FrameUnaryErr : Z := 8.
Definition FrameStreamChunk : Z := 9.

(** [Budget] is a duration in nanoseconds, a signed 64-bit integer. *)
Record Frame := mkFrame {
  CallID : Z; Kind : Z; Service : Z; Method : Z; Budget : Z;
  Payload : list Z; FStatus : option FrameStatus; Control : Z
}.

Definition checkImplementedKind (k : Z) : option error :=
  if bool_decide (k ∈ [FrameUnaryReq; FrameUnaryResp; FrameCancel; FrameUnaryErr]) then None
  else if bool_decide (k ∈ [FrameStreamOpen; FrameStreamMsg; FrameStreamAck; FrameStreamClose; FrameStreamErr])
  then None
  else Some [ErrUnimplementedFrameKind].

Definition CarriesStatusBody (k : Z) : bool := (k =? FrameUnaryErr) || (k =? FrameStreamErr).

(** ** The status body *)

Definition statusHeadSize : Z := 4 + 4 + 4.

Definition encode_details (ds : list (list Z)) : list Z :=
  concat (map (fun d => be_encode 4 (u32 (zlen d)) ++ d) ds).

Definition EncodeStatus (s : option FrameStatus) : list Z :=
  let s := default (mkStatus 0 [] []) s in
  be_encode 4 (Code s) ++ be_encode 4 (u32 (zlen (Message s))) ++ be_encode 4 (u32 (zlen (Details s)))
  ++ Message s ++ encode_details (Details s).

(** [b[lo:hi]] in a computation that can panic. *)
Definition cut (lo hi : Z) (b : list Z) : outcome error (list Z) :=
  match slice lo hi b with Some l => Ok l | None => Panic end.

(** The detail loop: [n] details to go from offset [off].  The count the wire
    declares is up to 2^32 - 1, but every iteration that continues consumes at
    least four bytes, so fuel [length body + 1] is never exhausted
    ([decode_details_fuel]). *)
Fixpoint decode_details (fuel : nat) (n off : Z) (body : list Z) : outcome error (list (list Z)) :=
  if n =? 0 then Ok [] else
  match fuel with
  | O => Panic
  | S fuel =>
      if zlen body - off <? 4 then Err [ErrMalformedStatusFrame] else
      let! lb := cut off (off + 4) body in
      let dLen := be_decode lb in
      let off := off + 4 in
      if zlen body - off <? dLen then Err [ErrMalformedStatusFrame] else
      let! d := cut off (off + dLen) body in
      let! rest := decode_details fuel (n - 1) (off + dLen) body in
      Ok (d :: rest)
  end.

Definition DecodeStatus (body : list Z) : outcome error FrameStatus :=
  if zlen body <? statusHeadSize then Err [ErrMalformedStatusFrame] else
  let! cb := cut 0 4 body in
  let! mb := cut 4 8 body in
  let! db := cut 8 12 body in
  let msgLen := be_decode mb in
  let detailCount := be_decode db in
  let off := statusHeadSize in
  let rem := zlen body - off in
  if rem <? msgLen then Err [ErrMalformedStatusFrame] else
  let! message := cut off (off + msgLen) body in
  let off := off + msgLen in
  let! details := decode_details (S (length body)) detailCount off body in
  Ok (mkStatus (be_decode cb) message details).

(** ** The uds header *)

Definition headerSize : Z := 4 + 8 + 1 + 8 + 8 + 8.
Definition controlWordSize : Z := 8.

Definition frameBody (f : Frame) : list Z :=
  if CarriesStatusBody (Kind f) then EncodeStatus (FStatus f) else Payload f.

Definition encodeHeader (f : Frame) (payloadLen : Z) (streaming : bool) : list Z :=
  be_encode 4 payloadLen ++ be_encode 8 (CallID f) ++ [Kind f] ++ be_encode 8 (Service f)
  ++ be_encode 8 (Method f) ++ be_encode 8 (u64 (Budget f))
  ++ (if streaming then le_encode 8 (Control f) else []).

Definition decodeHeader (buf : list Z) (streaming : bool) : outcome error (Frame * Z) :=
  let! pb := cut 0 4 buf in
  let! bb := cut 29 37 buf in
  let! ib := cut 4 12 buf in
  let! kb := cut 12 13 buf in
  let! sb := cut 13 21 buf in
  let! mb := cut 21 29 buf in
  let! ctl := (if streaming
               then let! c := cut headerSize (headerSize + controlWordSize) buf in Ok (le_decode c)
               else Ok 0) in
  Ok (mkFrame (be_decode ib) (be_decode kb) (be_decode sb) (be_decode mb) (i64 (be_decode bb))
        [] None ctl, be_decode pb).

(** ** Lemmas *)

Lemma zlen_app {A} (a b : list A) : zlen (a ++ b) = zlen a + zlen b.
Proof. unfold zlen. rewrite length_app. lia. Qed.

Lemma zlen_nonneg {A} (a : list A) : 0 <= zlen a.
Proof. unfold zlen. lia. Qed.

Lemma cut_app lo hi (a b c : list Z) :
  zlen a = lo -> zlen b = hi - lo -> cut lo hi (a ++ b ++ c) = Ok b.
Proof.
  intros Ha Hb. unfold cut. pose proof (zlen_nonneg a). pose proof (zlen_nonneg b). pose proof (zlen_nonneg c).
  rewrite slice_in_range by (rewrite ?zlen_app; lia). f_equal. unfold sub_bytes, zlen in *.
  rewrite drop_app_length' by lia. now rewrite take_app_length' by lia.
Qed.

Lemma cut_split lo hi (b l : list Z) :
  cut lo hi b = Ok l ->
  0 <= lo /\ zlen l = hi - lo /\ hi <= zlen b /\ drop (Z.to_nat lo) b = l ++ drop (Z.to_nat hi) b.
Proof.
  unfold cut. destruct (slice lo hi b) as [l'|] eqn:Hs; [|discriminate]. intros [= ->].
  pose proof (slice_length _ _ _ _ Hs). apply slice_Some in Hs as [? ->].
  split_and!; try lia. unfold sub_bytes. rewrite <- (take_drop (Z.to_nat (hi - lo)) (drop (Z.to_nat lo) b)) at 1.
  f_equal. rewrite drop_drop. f_equal. lia.
Qed.

Lemma cut_no_panic lo hi (b : list Z) : 0 <= lo <= hi -> hi <= zlen b -> cut lo hi b <> Panic.
Proof. intros. unfold cut. rewrite slice_in_range by lia. discriminate. Qed.

Lemma be_decode_range l : Forall is_byte l -> 0 <= be_decode l < 256 ^ zlen l.
Proof.
  intros Hl. unfold be_decode, zlen. rewrite <- length_rev. apply le_decode_range. now apply Forall_rev.
Qed.

Lemma be_encode_decode l : Forall is_byte l -> be_encode (length l) (be_decode l) = l.
Proof.
  intros Hl. unfold be_encode, be_decode. rewrite <- (length_rev l).
  rewrite le_encode_decode by now apply Forall_rev. apply rev_involutive.
Qed.

Lemma be4_range l : Forall is_byte l -> zlen l = 4 -> is_u32 (be_decode l).
Proof. intros Hl E. pose proof (be_decode_range l Hl) as H. rewrite E in H. exact H. Qed.

Lemma be4_inv l n : Forall is_byte l -> zlen l = 4 -> be_decode l = n -> be_encode 4 n = l.
Proof.
  intros Hl E <-. replace 4%nat with (length l) by (unfold zlen in E; lia). now apply be_encode_decode.
Qed.

Lemma zlen_be n v : zlen (be_encode n v) = Z.of_nat n.
Proof. unfold zlen. now rewrite length_be_encode. Qed.

Lemma be4_round v : is_u32 v -> be_decode (be_encode 4 v) = v.
Proof. intros H. apply be_decode_encode. exact H. Qed.
Lemma be8_round v : is_u64 v -> be_decode (be_encode 8 v) = v.
Proof. intros H. apply be_decode_encode. exact H. Qed.

(** Statuses whose lengths the wire's 32-bit prefixes can carry. *)
Definition status_ok (s : FrameStatus) : Prop :=
  is_u32 (Code s) /\ is_u32 (zlen (Message s)) /\ is_u32 (zlen (Details s)) /\
  Forall (fun d => is_u32 (zlen d)) (Details s).

Lemma decode_details_encode ds pre rest fuel :
  Forall (fun d => is_u32 (zlen d)) ds -> (length ds <= fuel)%nat ->
  decode_details fuel (zlen ds) (zlen pre) (pre ++ encode_details ds ++ rest) = Ok ds.
Proof.
  revert pre fuel. induction ds as [|d ds IH]; intros pre fuel Hd Hf; [by destruct fuel|].
  inversion_clear Hd as [|? ? H1 H2]. destruct fuel as [|fuel]; [simpl in Hf; lia|].
  cbn [decode_details encode_details map concat].
  destruct (Z.eqb_spec (zlen (d :: ds)) 0) as [E|_]; [unfold zlen in E; simpl in E; lia|].
  fold (encode_details ds). rewrite <- !app_assoc.
  pose proof (zlen_nonneg pre). pose proof (zlen_nonneg d). pose proof (zlen_nonneg (encode_details ds ++ rest)).
  assert (L4 : zlen (be_encode 4 (u32 (zlen d))) = 4) by apply zlen_be.
  destruct (Z.ltb_spec (zlen (pre ++ be_encode 4 (u32 (zlen d)) ++ d ++ encode_details ds ++ rest) - zlen pre) 4) as [E|_].
  { rewrite !zlen_app in E. rewrite zlen_app in *. lia. }
  rewrite cut_app by lia. cbn [obind]. rewrite u32_id, be4_round by done.
  destruct (Z.ltb_spec (zlen (pre ++ be_encode 4 (zlen d) ++ d ++ encode_details ds ++ rest) - (zlen pre + 4)) (zlen d)) as [E|_].
  { rewrite !zlen_app in E. rewrite zlen_be in E. rewrite zlen_app in *. lia. }
  assert (L5 : zlen (pre ++ be_encode 4 (zlen d)) = zlen pre + 4) by (rewrite zlen_app, zlen_be; lia).
  rewrite (app_assoc pre (be_encode 4 (zlen d)) (d ++ _)), (cut_app (zlen pre + 4)) by lia. cbn [obind].
  rewrite (app_assoc _ d).
  replace (zlen (d :: ds) - 1) with (zlen ds) by (unfold zlen; simpl; lia).
  replace (zlen pre + 4 + zlen d) with (zlen ((pre ++ be_encode 4 (zlen d)) ++ d)) by (rewrite (zlen_app _ d); lia).
  rewrite IH; [done|done|simpl in Hf; lia].
Qed.

Lemma encode_status_round s rest :
  status_ok s -> DecodeStatus (EncodeStatus (Some s) ++ rest) = Ok s.
Proof.
  intros (Hc & Hm & Hn & Hd). unfold EncodeStatus, DecodeStatus. cbn [default id from_option].
  set (c := be_encode 4 (Code s)). set (m := be_encode 4 (u32 (zlen (Message s)))).
  set (n := be_encode 4 (u32 (zlen (Details s)))). set (ds := encode_details (Details s)).
  rewrite <- !app_assoc.
  assert (Lc : zlen c = 4) by apply zlen_be. assert (Lm : zlen m = 4) by apply zlen_be.
  assert (Ln : zlen n = 4) by apply zlen_be.
  pose proof (zlen_nonneg (Message s)). pose proof (zlen_nonneg ds). pose proof (zlen_nonneg rest).
  assert (L : zlen (c ++ m ++ n ++ Message s ++ ds ++ rest) = 12 + zlen (Message s) + zlen ds + zlen rest)
    by (rewrite !zlen_app; lia).
  unfold statusHeadSize. destruct (Z.ltb_spec (zlen (c ++ m ++ n ++ Message s ++ ds ++ rest)) (4 + 4 + 4)); [lia|].
  change (c ++ m ++ n ++ Message s ++ ds ++ rest) with ([] ++ c ++ m ++ n ++ Message s ++ ds ++ rest) at 1.
  rewrite cut_app by (unfold zlen in *; simpl; lia). cbn [obind].
  rewrite (cut_app 4 8 c m) by lia. cbn [obind].
  rewrite (app_assoc c m), (cut_app 8 12 (c ++ m) n) by (rewrite ?zlen_app; lia). cbn [obind].
  subst m n. rewrite !u32_id, !be4_round in * by done.
  rewrite <- app_assoc, L. destruct (Z.ltb_spec (12 + zlen (Message s) + zlen ds + zlen rest - (4 + 4 + 4)) (zlen (Message s))); [lia|].
  rewrite (app_assoc c), (app_assoc (c ++ _)).
  set (h := (c ++ be_encode 4 (zlen (Message s))) ++ be_encode 4 (zlen (Details s))).
  assert (Lh : zlen h = 12) by (unfold h; rewrite !zlen_app; lia).
  rewrite (cut_app (4 + 4 + 4) _ h (Message s)) by lia. cbn [obind].
  rewrite (app_assoc h). replace (4 + 4 + 4 + zlen (Message s)) with (zlen (h ++ Message s)) by (rewrite zlen_app; lia).
  subst ds c. rewrite decode_details_encode; [|done|].
  - cbn [obind]. rewrite be4_round by done. by destruct s.
  - unfold is_u32 in *. apply Nat.lt_le_incl, Nat.lt_succ_r.
    assert (G : forall l, (length l <= length (encode_details l))%nat).
    { intros l. induction l as [|x l IH]; [done|]. cbn [encode_details map concat].
      fold (encode_details l). rewrite !length_app, length_be_encode. simpl. lia. }
    specialize (G (Details s)). rewrite !length_app. lia.
Qed.

Lemma decode_details_spec fuel n off body :
  Forall is_byte body -> 0 <= n -> 0 <= off <= zlen body -> zlen body - off < Z.of_nat fuel ->
  match decode_details fuel n off body with
  | Panic => False
  | Err e => e = [ErrMalformedStatusFrame]
  | Ok ds => zlen ds = n /\ Forall (fun d => is_u32 (zlen d)) ds /\
      exists rest, drop (Z.to_nat off) body = encode_details ds ++ rest
  end.
Proof.
  intros Hb. revert n off. induction fuel as [|fuel IH]; intros n off Hn Ho Hf; [lia|].
  cbn [decode_details]. destruct (Z.eqb_spec n 0) as [->|Hn0].
  { split_and!; [done|constructor|eauto]. }
  case_test; bool_to_prop; [done|].
  destruct (cut off (off + 4) body) as [lb|e|] eqn:E1; [|unfold cut in E1; destruct (slice _ _ _); discriminate|].
  2:{ apply cut_no_panic in E1; [done|lia|lia]. }
  apply cut_split in E1 as (_ & L1 & _ & D1). cbn [obind].
  assert (B1 : Forall is_byte lb).
  { apply (Forall_drop _ (Z.to_nat off)) in Hb. rewrite D1, Forall_app in Hb. apply Hb. }
  pose proof (be4_range lb B1 ltac:(lia)) as R1. unfold is_u32 in R1.
  case_test; bool_to_prop; [done|].
  destruct (cut (off + 4) (off + 4 + be_decode lb) body) as [d|e|] eqn:E2;
    [|unfold cut in E2; destruct (slice _ _ _); discriminate|].
  2:{ apply cut_no_panic in E2; [done|lia|lia]. }
  apply cut_split in E2 as (_ & L2 & _ & D2). cbn [obind].
  specialize (IH (n - 1) (off + 4 + be_decode lb) ltac:(lia) ltac:(lia) ltac:(lia)).
  destruct (decode_details fuel (n - 1) _ body) as [ds|e|]; cbn [obind]; [|done|done].
  destruct IH as (IL & IF & rest & IR). split_and!.
  - unfold zlen in *. simpl. lia.
  - constructor; [|done]. unfold is_u32. lia.
  - exists rest. rewrite D1, D2, IR. cbn [encode_details map concat]. fold (encode_details ds).
    rewrite <- !app_assoc. f_equal. symmetry. apply be4_inv; [done|lia|]. rewrite u32_id; unfold is_u32; lia.
Qed.

Lemma cut_cases lo hi (b : list Z) :
  0 <= lo <= hi -> hi <= zlen b -> exists l, cut lo hi b = Ok l.
Proof.
  intros. unfold cut. rewrite slice_in_range by lia. eauto.
Qed.

Lemma decode_status_spec body :
  Forall is_byte body ->
  match DecodeStatus body with
  | Panic => False
  | Err e => e = [ErrMalformedStatusFrame]
  | Ok s => status_ok s /\ exists rest, body = EncodeStatus (Some s) ++ rest
  end.
Proof.
  intros Hb. unfold DecodeStatus, statusHeadSize. case_test; bool_to_prop; [done|].
  destruct (cut_cases 0 4 body) as [cb E1]; [lia|lia|].
  destruct (cut_cases 4 8 body) as [mb E2]; [lia|lia|].
  destruct (cut_cases 8 12 body) as [db E3]; [lia|lia|].
  rewrite E1, E2, E3. cbn [obind].
  apply cut_split in E1 as (_ & L1 & _ & D1), E2 as (_ & L2 & _ & D2), E3 as (_ & L3 & _ & D3).
  change (drop (Z.to_nat 0) body) with body in D1. change (4 + 4 + 4) with 12 in *.
  pose proof Hb as Hall. rewrite D1, D2, D3, !Forall_app in Hall. destruct Hall as (B1 & B2 & B3 & _).
  pose proof (be4_range mb B2 ltac:(lia)) as R2. pose proof (be4_range db B3 ltac:(lia)) as R3.
  pose proof (be4_range cb B1 ltac:(lia)) as R1. unfold is_u32 in *.
  case_test; bool_to_prop; [done|].
  destruct (cut_cases 12 (12 + be_decode mb) body) as [msg E4]; [lia|lia|].
  rewrite E4. cbn [obind]. apply cut_split in E4 as (_ & L4 & _ & D4).
  pose proof (decode_details_spec (S (length body)) (be_decode db) (12 + be_decode mb) body Hb
    ltac:(lia) ltac:(lia) ltac:(unfold zlen; lia)) as H.
  destruct (decode_details _ _ _ body) as [ds|e|]; cbn [obind]; [|done|done].
  destruct H as (IL & IF & rest & IR). split.
  - unfold status_ok, is_u32; simpl. split_and!; auto; lia.
  - exists rest. unfold EncodeStatus. cbn [default id from_option Code Message Details].
    rewrite <- !app_assoc, <- IR, <- D4.
    rewrite (be4_inv cb (be_decode cb)), (be4_inv mb), (be4_inv db), <- D3, <- D2, <- D1;
      auto; try lia; rewrite u32_id; unfold is_u32; lia.
Qed.

(** The part of a frame the header carries. *)
Definition header_ok (f : Frame) : Prop :=
  is_u64 (CallID f) /\ is_byte (Kind f) /\ is_u64 (Service f) /\ is_u64 (Method f) /\
  is_i64 (Budget f) /\ is_u64 (Control f).

Definition header_part (f : Frame) (streaming : bool) : Frame :=
  mkFrame (CallID f) (Kind f) (Service f) (Method f) (Budget f) [] None
    (if streaming then Control f else 0).

Lemma cut_at lo hi a b c l :
  l = a ++ b ++ c -> zlen a = lo -> zlen b = hi - lo -> cut lo hi l = Ok b.
Proof. intros ->. apply cut_app. Qed.

Lemma zlen_header f n str :
  zlen (encodeHeader f n str) = if str then headerSize + controlWordSize else headerSize.
Proof.
  unfold encodeHeader. rewrite !zlen_app, !zlen_be. unfold headerSize, controlWordSize.
  destruct str; unfold zlen; rewrite ?length_le_encode; simpl; lia.
Qed.

Lemma header_round f n str :
  header_ok f -> is_u32 n -> decodeHeader (encodeHeader f n str) str = Ok (header_part f str, n).
Proof.
  intros (H1 & H2 & H3 & H4 & H5 & H6) Hn. unfold decodeHeader, encodeHeader.
  set (p := be_encode 4 n). set (i := be_encode 8 (CallID f)). set (k := [Kind f]).
  set (s := be_encode 8 (Service f)). set (m := be_encode 8 (Method f)). set (b := be_encode 8 (u64 (Budget f))).
  set (c := if str then le_encode 8 (Control f) else []).
  assert (Lp : zlen p = 4) by apply zlen_be. assert (Li : zlen i = 8) by apply zlen_be.
  assert (Lk : zlen k = 1) by done. assert (Ls : zlen s = 8) by apply zlen_be.
  assert (Lm : zlen m = 8) by apply zlen_be. assert (Lb : zlen b = 8) by apply zlen_be.
  set (l := p ++ i ++ k ++ s ++ m ++ b ++ c).
  rewrite (cut_at 0 4 [] p (i ++ k ++ s ++ m ++ b ++ c) l) by (unfold l, zlen in *; simpl; auto; lia).
  rewrite (cut_at 29 37 (p ++ i ++ k ++ s ++ m) b c l)
    by (unfold l; rewrite <- ?app_assoc, ?zlen_app; auto; lia).
  rewrite (cut_at 4 12 p i (k ++ s ++ m ++ b ++ c) l) by (unfold l; auto; lia).
  rewrite (cut_at 12 13 (p ++ i) k (s ++ m ++ b ++ c) l)
    by (unfold l; rewrite <- ?app_assoc, ?zlen_app; auto; lia).
  rewrite (cut_at 13 21 (p ++ i ++ k) s (m ++ b ++ c) l)
    by (unfold l; rewrite <- ?app_assoc, ?zlen_app; auto; lia).
  rewrite (cut_at 21 29 (p ++ i ++ k ++ s) m (b ++ c) l)
    by (unfold l; rewrite <- ?app_assoc, ?zlen_app; auto; lia).
  cbn [obind].
  assert (Ec : (if str then let! c := cut headerSize (headerSize + controlWordSize) l in Ok (le_decode c)
                else Ok 0) = Ok (E := error) (if str then Control f else 0)).
  { destruct str; [|done]. change headerSize with 37. change (37 + controlWordSize) with 45.
    rewrite (cut_at 37 45 (p ++ i ++ k ++ s ++ m ++ b) c [] l).
    - cbn [obind]. unfold c. rewrite le_decode_encode by exact H6. done.
    - unfold l. rewrite app_nil_r, <- ?app_assoc. done.
    - rewrite ?zlen_app. lia.
    - unfold c, zlen. rewrite length_le_encode. done. }
  rewrite Ec. cbn [obind]. unfold p, i, k, s, m, b.
  rewrite be4_round, !be8_round, i64_u64 by auto with styx.
  unfold header_part. do 3 f_equal. unfold be_decode. simpl. lia.
Qed.

Lemma decode_header_total (buf : list Z) (str : bool) :
  zlen buf = (if str then headerSize + controlWordSize else headerSize) ->
  exists r, decodeHeader buf str = Ok r.
Proof.
  intros L. unfold decodeHeader, headerSize, controlWordSize in *.
  assert (37 <= zlen buf) by (destruct str; lia).
  destruct (cut_cases 0 4 buf) as [? ->]; [lia..|]. destruct (cut_cases 29 37 buf) as [? ->]; [lia..|].
  destruct (cut_cases 4 12 buf) as [? ->]; [lia..|]. destruct (cut_cases 12 13 buf) as [? ->]; [lia..|].
  destruct (cut_cases 13 21 buf) as [? ->]; [lia..|]. destruct (cut_cases 21 29 buf) as [? ->]; [lia..|].
  cbn [obind]. destruct str; [|by eexists].
  destruct (cut_cases (4 + 8 + 1 + 8 + 8 + 8) (4 + 8 + 1 + 8 + 8 + 8 + 8) buf) as [? ->]; [lia..|].
  by eexists.
Qed.

(** ** Properties *)

(** The status codec is exact.  Every status whose lengths fit the wire's
    32-bit prefixes decodes back to itself, whatever bytes follow it; an absent
    status decodes as the zero status; and on arbitrary bytes from a peer the
    decoder never panics, reports every rejection as a malformed status frame,
    and accepts only a body that begins with the encoding of the status it
    returns. *)
Theorem status_codec_exact :
  (forall s rest, status_ok s -> DecodeStatus (EncodeStatus (Some s) ++ rest) = Ok s) /\
  DecodeStatus (EncodeStatus None) = Ok (mkStatus 0 [] []) /\
  (forall body, Forall is_byte body ->
    match DecodeStatus body with
    | Panic => False
    | Err e => e = [ErrMalformedStatusFrame]
    | Ok s => status_ok s /\ exists rest, body = EncodeStatus (Some s) ++ rest
    end).
Proof.
  split_and!.
  - apply encode_status_round.
  - vm_compute. reflexivity.
  - apply decode_status_spec.
Qed.

Lemma status_codec_exact_witness :
  DecodeStatus (EncodeStatus (Some (mkStatus 5 [104; 105] [[1]; []; [2; 3]])) ++ [9]) =
    Ok (mkStatus 5 [104; 105] [[1]; []; [2; 3]]) /\
  DecodeStatus [0; 0; 0; 1; 0; 0; 0; 0; 255; 255; 255; 255; 0; 0; 0] = Err [ErrMalformedStatusFrame].
Proof.
  split; [|vm_compute; reflexivity]. apply (proj1 status_codec_exact).
  unfold status_ok, is_u32, zlen. cbn. split_and!; repeat constructor; lia.
Defined.

End Frames.
