(* ===== verification/UdsTransport.v ===== *)
(** * The uds socket transport (src/internal/transport/uds.go)

    Send and receive over a stream socket: partial reads and writes, polling of
    the context, receive budgets, the readiness wait, and the rule that a frame
    torn by a failure poisons the connection.  The codecs are those of
    [TransportFrame].  The kernel, the clock and the other goroutines are
    scripts: what each system call answers, what each reading of the clock
    gives, whether each load of the closed flag finds that somebody closed the
    transport.  A run whose script ends is still waiting. *)

From S2P Require Import Prelude TransportFrame.
Import Frames.

Module Uds.

Definition pollInterval : Z := 50 * 1000 * 1000.
Definition DefaultReceiveSlack : Z := 30 * 1000 * 1000 * 1000.
Definition DefaultReceiveMinRate : Z := Z.shiftl 1 20.

(** ** Receive budgets *)

(** The clock itself is part of the script: [Clock] says one is installed. *)
Record ReceiveBudget := mkBudget { Slack : Z; MinRate : Z; Clock : bool }.

Definition normalized (b : ReceiveBudget) : ReceiveBudget :=
  mkBudget (if Slack b <=? 0 then DefaultReceiveSlack else Slack b)
    (if MinRate b =? 0 then DefaultReceiveMinRate else MinRate b) true.

Definition bodyBudget (b : ReceiveBudget) (size : Z) : Z :=
  let rate := MinRate b in
  let seconds := u64 (u64 (size + rate) - 1) `div` rate in
  let total := u64 (u64 (Slack b) + u64 (seconds * (1000 * 1000 * 1000))) in
  if MaxInt64 <? total then MaxInt64 else total.

(** ** Scripts *)

Inductive ctx_state := CtxLive | CtxCancelled | CtxExpired.

Definition ctx_err (c : ctx_state) : option error :=
  match c with CtxLive => None | CtxCancelled => Some [CtxCanceled] | CtxExpired => Some [CtxDeadlineExceeded] end.

(** What a system call on the socket answers: at most so many bytes moved, the
    peer's end of stream, an interrupt, the poll timeout, another errno. *)
Inductive answer := Moved (n : nat) | PeerClosed | EINTR | EAGAIN | Errno (n : Z).

(** One turn of a polling loop: the context, the time left to its deadline, what
    programming the timeout would answer, the system call's answer. *)
Record tick := mkTick {
  tCtx : ctx_state;
  tRemaining : option Z;
  tSockopt : option Z;
  tAnswer : answer
}.

Inductive event :=
| EReserve
| ERead (n : nat)
| EProgram (rcv : bool) (d : Z)
| EObserve (e : error)
| EClose.

(** ** State *)

(** [inbound] is what the peer has written or will write and this side has not
    read; [outbound] what the socket has taken.  [fatal]: the observer's once. *)
Record uds := mkUds {
  closed : bool;
  fatal : bool;
  lastRcvTimeout : Z;
  sentCount : Z;
  recvCount : Z;
  sentBytes : Z;
  recvBytes : Z;
  inbound : list Z;
  outbound : list Z;
  ticks : list tick;
  clock : list Z;
  closes : list bool;
  log : list event
}.

Definition eta (s : uds) : uds :=
  mkUds (closed s) (fatal s) (lastRcvTimeout s) (sentCount s) (recvCount s) (sentBytes s) (recvBytes s)
    (inbound s) (outbound s) (ticks s) (clock s) (closes s) (log s).
Definition with_closed (x : bool) (s : uds) : uds := ltac:(update_field eta s closed x).
Definition with_fatal (x : bool) (s : uds) : uds := ltac:(update_field eta s fatal x).
Definition with_lastRcvTimeout (x : Z) (s : uds) : uds := ltac:(update_field eta s lastRcvTimeout x).
Definition with_sent (n b : Z) (s : uds) : uds :=
  mkUds (closed s) (fatal s) (lastRcvTimeout s) n (recvCount s) b (recvBytes s)
    (inbound s) (outbound s) (ticks s) (clock s) (closes s) (log s).
Definition with_recv (n b : Z) (s : uds) : uds :=
  mkUds (closed s) (fatal s) (lastRcvTimeout s) (sentCount s) n (sentBytes s) b
    (inbound s) (outbound s) (ticks s) (clock s) (closes s) (log s).
Definition with_inbound (x : list Z) (s : uds) : uds := ltac:(update_field eta s inbound x).
Definition with_outbound (x : list Z) (s : uds) : uds := ltac:(update_field eta s outbound x).
Definition with_ticks (x : list tick) (s : uds) : uds := ltac:(update_field eta s ticks x).
Definition with_clock (x : list Z) (s : uds) : uds := ltac:(update_field eta s clock x).
Definition with_closes (x : list bool) (s : uds) : uds := ltac:(update_field eta s closes x).
Definition with_log (x : list event) (s : uds) : uds := ltac:(update_field eta s log x).

(** What is fixed at construction.  [observer]: a fatal observer is installed. *)
Record config := mkConfig { streaming : bool; maxFrame : Z; budget : ReceiveBudget; observer : bool }.

Definition emit (e : event) : prog uds unit := modify (fun s => with_log (log s ++ [e]) s).

(** [t.closed.Load()]: somebody else may have closed the transport by now. *)
Definition load_closed : prog uds bool := fun s =>
  match closes s with
  | [] => Ret s (closed s)
  | b :: rest => let c := closed s || b in Ret (with_closes rest (with_closed c s)) c
  end.

Definition next_tick : prog uds tick := fun s =>
  match ticks s with [] => Parks | t :: rest => Ret (with_ticks rest s) t end.

Definition Now : prog uds Z := fun s =>
  match clock s with [] => Parks | t :: rest => Ret (with_clock rest s) t end.

Definition Close : prog uds unit := fun s =>
  if closed s then Ret s tt else Ret (with_log (log s ++ [EClose]) (with_closed true s)) tt.

(** [rcv]: SO_RCVTIMEO, else SO_SNDTIMEO. *)
Definition setSocketTimeout (rcv : bool) (t : tick) : prog uds (option error) :=
  let d := match tRemaining t with Some r => if r <? pollInterval then r else pollInterval | None => pollInterval end in
  if d <=? 0 then mret (Some [CtxDeadlineExceeded]) else
  last ← gets lastRcvTimeout;
  if rcv && (d =? last) then mret None else
  match tSockopt t with
  | Some n => mret (Some [Other n])
  | None =>
      emit (EProgram rcv d) ≫= fun _ =>
      (if rcv then modify (with_lastRcvTimeout d) else mret tt) ≫= fun _ => mret None
  end.

Section transport.
Context (c : config).

Definition headerLen : Z := if streaming c then headerSize + controlWordSize else headerSize.

(** ** A torn frame *)

Definition abortFrame (err : error) (started : bool) : prog uds error :=
  cl ← load_closed;
  if (cl : bool) then mret [ErrClosed] else
  if started then
    let wrapped := err ++ [ErrPoisoned] in
    f ← gets fatal;
    (if (f : bool) then mret tt else
       (if observer c then emit (EObserve wrapped) else mret tt) ≫= fun _ => modify (with_fatal true)) ≫= fun _ =>
    Close ≫= fun _ => mret wrapped
  else mret err.

(** ** Sending *)

(** The bytes a write takes: at most what it was given. *)
Definition write_some (buf : list Z) (n : nat) : prog uds (list Z) := fun s =>
  Ret (with_outbound (outbound s ++ take n buf) s) (drop n buf).

(** [started] is the frame's flag so far; the result is the error, if any, and
    the flag. *)
Fixpoint write_loop (fuel : nat) (buf : list Z) (started : bool) : prog uds (option error * bool) :=
  match buf with
  | [] => mret (None, started)
  | _ =>
      match fuel with
      | O => park
      | S fuel =>
          t ← next_tick;
          match ctx_err (tCtx t) with
          | Some e => mret (Some e, started)
          | None =>
              cl ← load_closed;
              if (cl : bool) then mret (Some [ErrClosed], started) else
              o ← setSocketTimeout false t;
              match o with
              | Some e => mret (Some e, started)
              | None =>
                  match tAnswer t with
                  | Moved n =>
                      rest ← write_some buf n;
                      write_loop fuel rest (started || negb (Nat.eqb n 0))
                  | PeerClosed | EINTR => write_loop fuel buf started
                  | EAGAIN =>
                      cl ← load_closed;
                      if (cl : bool) then mret (Some [ErrClosed], started) else write_loop fuel buf started
                  | Errno n =>
                      cl ← load_closed;
                      if (cl : bool) then mret (Some [ErrClosed], started) else mret (Some [Other n], started)
                  end
              end
          end
      end
  end.

Definition writeFull (buf : list Z) (started : bool) : prog uds (option error * bool) := fun s =>
  write_loop (S (length (ticks s))) buf started s.

Definition writeFrame (f : Frame) (body : list Z) : prog uds (option error) :=
  let header := encodeHeader f (u32 (zlen body)) (streaming c) in
  r ← writeFull header false;
  match r with
  | (Some e, started) => e ← abortFrame e started; mret (Some e)
  | (None, started) =>
      match body with
      | [] => mret None
      | _ =>
          r ← writeFull body started;
          match r with
          | (Some e, started) => e ← abortFrame e started; mret (Some e)
          | (None, _) => mret None
          end
      end
  end.

Definition Send (f : Frame) : prog uds (option error) :=
  match checkImplementedKind (Kind f) with
  | Some e => mret (Some e)
  | None =>
      let body := frameBody f in
      if maxFrame c <? zlen body then mret (Some [ErrPayloadTooLarge]) else
      r ← writeFrame f body;
      match r with
      | Some e => mret (Some e)
      | None =>
          modify (fun s => with_sent (u64 (sentCount s + 1)) (u64 (sentBytes s + (headerLen + zlen body))) s) ≫= fun _ =>
          mret None
      end
  end.

Definition AcceptanceUnknown (e : option error) : bool := Is e ErrPoisoned.

(** ** Receiving *)

(** The budget's deadline of the current stage; none when no clock is
    installed. *)
Definition armHeaderBudget : prog uds (option Z) :=
  if Clock (budget c) then n ← Now; mret (Some (n + Slack (budget c))) else mret None.

Definition armBodyBudget (size : Z) : prog uds (option Z) :=
  if Clock (budget c) then n ← Now; mret (Some (n + bodyBudget (budget c) size)) else mret None.

Definition expired (deadline : option Z) : prog uds bool :=
  match deadline with
  | None => mret false
  | Some d => n ← Now; mret (negb (n <? d))
  end.

(** The bytes a read gives: no more than asked for, no more than there are. *)
Definition read_some (want n : nat) : prog uds (list Z) := fun s =>
  let k := Nat.min want n in
  let got := take k (inbound s) in
  Ret (with_log (log s ++ [ERead (length got)]) (with_inbound (drop k (inbound s)) s)) got.

(** One [Read] of at most [want] bytes: bytes, or an error.  A read that finds no
    byte waits out the poll. *)
Fixpoint read_loop (fuel : nat) (deadline : option Z) (want : nat) : prog uds (list Z + error) :=
  match fuel with
  | O => park
  | S fuel =>
      t ← next_tick;
      match ctx_err (tCtx t) with
      | Some e => mret (inr e)
      | None =>
          cl ← load_closed;
          if (cl : bool) then mret (inr [ErrClosed]) else
          ex ← expired deadline;
          if (ex : bool) then mret (inr [ErrReceiveBudgetExpired; CtxDeadlineExceeded]) else
          o ← setSocketTimeout true t;
          match o with
          | Some e => mret (inr e)
          | None =>
              let again :=
                cl ← load_closed;
                if (cl : bool) then mret (inr [ErrClosed]) else read_loop fuel deadline want in
              match tAnswer t with
              | Moved n =>
                  have ← gets (fun s => negb (Nat.eqb (Nat.min (Nat.min want n) (length (inbound s))) 0));
                  if (have : bool) then got ← read_some want n; mret (inl got) else again
              | PeerClosed => mret (inr [EOF])
              | EINTR => read_loop fuel deadline want
              | EAGAIN => again
              | Errno n =>
                  cl ← load_closed;
                  if (cl : bool) then mret (inr [ErrClosed]) else mret (inr [Other n])
              end
          end
      end
  end.

Definition Read (deadline : option Z) (want : nat) : prog uds (list Z + error) := fun s =>
  read_loop (S (length (ticks s))) deadline want s.

(** [io.ReadFull]: every read that succeeds gives at least one byte, so [n]
    reads are enough.  [acc] is what was read so far. *)
Fixpoint read_full (fuel : nat) (deadline : option Z) (n : nat) (acc : list Z) : prog uds (list Z * option error) :=
  match n with
  | O => mret (acc, None)
  | _ =>
      match fuel with
      | O => park
      | S fuel =>
          r ← Read deadline n;
          match r with
          | inl got => read_full fuel deadline (n - length got) (acc ++ got)
          | inr e =>
              mret (acc, Some (if bool_decide (acc <> []) && bool_decide (e = [EOF]) then [ErrUnexpectedEOF] else e))
          end
      end
  end.

Definition ReadFull (deadline : option Z) (n : nat) : prog uds (list Z * option error) := read_full n deadline n [].

(** [io.CopyN] into [io.Discard], which reads in blocks of this size. *)
Definition discard_block : nat := 8192.

Fixpoint copy_discard (fuel : nat) (deadline : option Z) (n : nat) : prog uds (option error) :=
  match n with
  | O => mret None
  | _ =>
      match fuel with
      | O => park
      | S fuel =>
          r ← Read deadline (Nat.min discard_block n);
          match r with
          | inl got => copy_discard fuel deadline (n - length got)
          | inr e => mret (Some e)
          end
      end
  end.

(** ** Readiness *)

(** The peek consumes nothing; [Moved _] and [PeerClosed] are an answer without
    error. *)
Fixpoint wait_loop (fuel : nat) : prog uds (option error) :=
  match fuel with
  | O => park
  | S fuel =>
      t ← next_tick;
      match ctx_err (tCtx t) with
      | Some e => mret (Some e)
      | None =>
          cl ← load_closed;
          if (cl : bool) then mret (Some [ErrClosed]) else
          o ← setSocketTimeout true t;
          match o with
          | Some e => mret (Some e)
          | None =>
              match tAnswer t with
              | Moved _ | PeerClosed => cl ← load_closed; mret (if (cl : bool) then Some [ErrClosed] else None)
              | EINTR => wait_loop fuel
              | EAGAIN => cl ← load_closed; if (cl : bool) then mret (Some [ErrClosed]) else wait_loop fuel
              | Errno n => cl ← load_closed; mret (if (cl : bool) then Some [ErrClosed] else Some [Other n])
              end
          end
      end
  end.

Definition WaitReadable : prog uds (option error) := fun s => wait_loop (S (length (ticks s))) s.

(** The non-blocking peek: only an empty queue is confirmed as such. *)
Fixpoint readable_loop (fuel : nat) : prog uds bool :=
  match fuel with
  | O => park
  | S fuel =>
      t ← next_tick;
      match tAnswer t with
      | Moved _ | PeerClosed => mret true
      | EINTR => readable_loop fuel
      | EAGAIN => mret false
      | Errno _ => mret true
      end
  end.

Definition peek_now : prog uds bool := fun s => readable_loop (S (length (ticks s))) s.

Definition ReadableNow : prog uds bool :=
  cl ← load_closed;
  if (cl : bool) then mret true else peek_now.

(** ** A whole receive *)

Definition aborted (e : error) (started : bool) : prog uds (Frame + error) :=
  e ← abortFrame e started; mret (inr e).

Definition count_received (payloadLen : Z) : prog uds unit :=
  modify (fun s => with_recv (u64 (recvCount s + 1)) (u64 (recvBytes s + (headerLen + payloadLen))) s).

(** The header has been read: some byte of the frame is consumed. *)
Definition receive_body (f : Frame) (payloadLen : Z) : prog uds (Frame + error) :=
  if maxFrame c <? payloadLen then aborted [ErrPayloadTooLarge] true else
  deadline ← armBodyBudget payloadLen;
  if Kind f =? FrameStreamChunk then aborted [ErrStreamChunkOnUDS] true else
  match checkImplementedKind (Kind f) with
  | Some e =>
      r ← copy_discard (Z.to_nat payloadLen) deadline (Z.to_nat payloadLen);
      match r with
      | Some e => aborted e true
      | None => mret (inr e)
      end
  | None =>
      r ← ReadFull deadline (Z.to_nat payloadLen);
      match r with
      | (_, Some e) => aborted e true
      | (body, None) =>
          if CarriesStatusBody (Kind f) then
            match DecodeStatus body with
            | Panic => panic
            | Err e => mret (inr e)
            | Ok st =>
                count_received payloadLen ≫= fun _ =>
                mret (inl (mkFrame (CallID f) (Kind f) (Service f) (Method f) (Budget f) [] (Some st) (Control f)))
            end
          else
            count_received payloadLen ≫= fun _ =>
            mret (inl (mkFrame (CallID f) (Kind f) (Service f) (Method f) (Budget f) body None (Control f)))
      end
  end.

Definition receive_frame : prog uds (Frame + error) :=
  deadline ← armHeaderBudget;
  r ← ReadFull deadline (Z.to_nat headerLen);
  match r with
  | (got, Some e) => aborted e (bool_decide (got <> []))
  | (header, None) =>
      match decodeHeader header (streaming c) with
      | Ok (f, payloadLen) => receive_body f payloadLen
      | _ => panic
      end
  end.

(** [ctx] is the context's state on entry; [reserve]: the caller passed one. *)
Definition recvCore (ctx : ctx_state) (reserve : bool) : prog uds (Frame + error) :=
  match ctx_err ctx with
  | Some e => mret (inr e)
  | None =>
      cl ← load_closed;
      if (cl : bool) then mret (inr [ErrClosed]) else
      w ← (if reserve then WaitReadable else mret None);
      match w with
      | Some e => mret (inr e)
      | None => (if reserve then emit EReserve else mret tt) ≫= fun _ => receive_frame
      end
  end.

Definition Recv (ctx : ctx_state) : prog uds (Frame + error) := recvCore ctx false.
Definition RecvReserving (ctx : ctx_state) : prog uds (Frame + error) := recvCore ctx true.

End transport.

(** ** What a loop does to the state *)

(** The events of the polling loops. *)
Definition io_event (reads : bool) (e : event) : Prop :=
  match e with EProgram _ _ => True | ERead _ => reads = true | _ => False end.

(** [win] was read and [wout] written, nothing else but the scripts, the cached
    timeout and a close by somebody else. *)
Record adv (win wout : list Z) (s s' : uds) : Prop := {
  ad_in : inbound s = win ++ inbound s';
  ad_out : outbound s' = outbound s ++ wout;
  ad_sent : sentCount s' = sentCount s /\ sentBytes s' = sentBytes s;
  ad_recv : recvCount s' = recvCount s /\ recvBytes s' = recvBytes s;
  ad_fatal : fatal s' = fatal s;
  ad_closed : closed s = true -> closed s' = true;
  ad_log : exists tr, log s' = log s ++ tr /\ Forall (io_event (bool_decide (win <> []))) tr
}.

Lemma io_event_weaken b1 b2 e : (b1 = true -> b2 = true) -> io_event b1 e -> io_event b2 e.
Proof. destruct e; simpl; auto. Qed.

Lemma adv_refl s : adv [] [] s s.
Proof. constructor; rewrite ?app_nil_r; auto. exists []. by rewrite app_nil_r. Qed.

Lemma adv_trans w1 o1 w2 o2 s1 s2 s3 : adv w1 o1 s1 s2 -> adv w2 o2 s2 s3 -> adv (w1 ++ w2) (o1 ++ o2) s1 s3.
Proof.
  intros [A1 A2 [A3 A3'] [A4 A4'] A5 A6 (t1 & A7 & A8)] [B1 B2 [B3 B3'] [B4 B4'] B5 B6 (t2 & B7 & B8)].
  constructor; try (split; congruence); auto; try congruence.
  - by rewrite A1, B1, app_assoc.
  - by rewrite B2, A2, app_assoc.
  - exists (t1 ++ t2). split; [by rewrite B7, A7, app_assoc|]. apply Forall_app.
    split; eapply Forall_impl; eauto; intros e; apply io_event_weaken; rewrite !bool_decide_eq_true.
    + intros Hw E. apply app_eq_nil in E as [? _]. done.
    + intros Hw E. apply app_eq_nil in E as [_ ?]. done.
Qed.

Lemma adv_quiet w o s1 s2 s3 : adv [] [] s1 s2 -> adv w o s2 s3 -> adv w o s1 s3.
Proof. apply (adv_trans [] []). Qed.

(** The errors the loops return. *)
Definition io_error (e : error) : Prop :=
  Forall (fun x => match x with
    | CtxCanceled | CtxDeadlineExceeded | ErrClosed | EOF | ErrUnexpectedEOF | ErrReceiveBudgetExpired | Other _ => True
    | _ => False end) e.

Lemma ctx_io x e : ctx_err x = Some e -> io_error e.
Proof. destruct x; simpl; intros [= <-]; repeat constructor. Qed.

Lemma io_not x e : io_error e -> io_error [x] \/ x ∉ e.
Proof.
  intros He. destruct (decide (x ∈ e)) as [Hx|Hx]; [left|by right]. unfold io_error in *.
  rewrite Forall_forall in He. constructor; [by apply He|constructor].
Qed.

Lemma io_not_poisoned e : io_error e -> ErrPoisoned ∉ e.
Proof. intros He. destruct (io_not ErrPoisoned e He) as [H|]; [|done]. by inversion H. Qed.

(** ** The steps *)

Lemma wp_closed Q s : (forall s', adv [] [] s s' -> Q (closed s') s') -> wp load_closed Q s.
Proof.
  intros HQ. unfold wp, load_closed. destruct (closes s) as [|b rest]; [apply HQ, adv_refl|].
  apply (HQ (with_closes rest (with_closed (closed s || b) s))).
  constructor; simpl; rewrite ?app_nil_r; auto; [by intros ->|]. exists []. by rewrite app_nil_r.
Qed.

Lemma wp_tick Q s : (forall t s', adv [] [] s s' -> (length (ticks s') < length (ticks s))%nat -> Q t s') -> wp next_tick Q s.
Proof.
  intros HQ. unfold wp, next_tick. destruct (ticks s) as [|t rest] eqn:E; [done|]. apply HQ; [|simpl; lia].
  constructor; simpl; rewrite ?app_nil_r; auto. exists []. by rewrite app_nil_r.
Qed.

Lemma wp_now Q s : (forall t s', adv [] [] s s' -> Q t s') -> wp Now Q s.
Proof.
  intros HQ. unfold wp, Now. destruct (clock s) as [|t rest]; [done|]. apply HQ.
  constructor; simpl; rewrite ?app_nil_r; auto. exists []. by rewrite app_nil_r.
Qed.

Lemma wp_timeout rcv t Q s :
  (forall o s', adv [] [] s s' -> (forall e, o = Some e -> io_error e) -> Q o s') -> wp (setSocketTimeout rcv t) Q s.
Proof.
  intros HQ. unfold setSocketTimeout. set (d := match tRemaining t with Some r => _ | None => _ end).
  destruct (d <=? 0). { apply wp_ret, HQ; [apply adv_refl|]. intros e [= <-]. repeat constructor. }
  apply wp_bind, wp_gets. destruct (rcv && (d =? lastRcvTimeout s)). { apply wp_ret, HQ; [apply adv_refl|done]. }
  destruct (tSockopt t) as [n|]. { apply wp_ret, HQ; [apply adv_refl|]. intros e [= <-]. repeat constructor. }
  apply wp_bind, wp_modify, wp_bind. destruct rcv; [apply wp_modify|]; apply wp_ret, HQ; try done;
    (constructor; simpl; rewrite ?app_nil_r; auto; by eexists [_]; split; [|repeat constructor]).
Qed.

Section loops.
Context (c : config).

(** A write loop: all of it written, or a strict prefix and an error. *)
Lemma wp_write_loop fuel buf st (Q : option error * bool -> uds -> Prop) s :
  (forall w s' r st', adv [] w s s' -> (st' = st || bool_decide (w <> [])) ->
    match r with
    | None => w = buf
    | Some e => io_error e /\ exists rest, buf = w ++ rest /\ rest <> []
    end -> Q (r, st') s') ->
  wp (write_loop fuel buf st) Q s.
Proof.
  revert buf st s Q. induction fuel as [|fuel IH]; intros buf st s Q HQ.
  - destruct buf; [|done]. apply wp_ret, (HQ [] s None); [apply adv_refl|by rewrite orb_false_r|done].
  - destruct buf as [|b0 buf0]; [apply wp_ret, (HQ [] s None); [apply adv_refl|by rewrite orb_false_r|done]|].
    set (buf := b0 :: buf0) in *. cbn [write_loop]. fold buf. change (match buf with [] => _ | _ => ?x end) with x.
    assert (Hfail : forall e s', adv [] [] s s' -> io_error e -> Q (Some e, st) s').
    { intros e s' Ha He. apply (HQ [] s' (Some e)); [done|by rewrite orb_false_r|]. split; [done|]. by exists buf. }
    assert (Hnext : forall w rest s1 s2 st1, adv [] [] s s1 -> adv [] w s1 s2 -> buf = w ++ rest ->
      st1 = st || bool_decide (w <> []) -> wp (write_loop fuel rest st1) Q s2).
    { intros w rest s1 s2 st1 H1 H2 E ->. apply IH. intros w' s' r st' Ha Hst Hr.
      apply (HQ (w ++ w') s' r).
      - change [] with (@nil Z ++ []). eapply adv_trans; [|exact Ha]. by eapply adv_quiet.
      - rewrite Hst, <- orb_assoc. f_equal. by destruct w, w'.
      - destruct r as [e|]; [|by rewrite E, Hr]. destruct Hr as [He (rest' & -> & Hne)]. split; [done|].
        exists rest'. by rewrite E, app_assoc. }
    apply wp_bind, wp_tick. intros t s1 H1 _. destruct (ctx_err (tCtx t)) as [e|] eqn:Ec.
    { apply wp_ret, Hfail; [done|]. by eapply ctx_io. }
    apply wp_bind, wp_closed. intros s2 H2. assert (H12 := adv_quiet _ _ _ _ _ H1 H2).
    destruct (closed s2). { apply wp_ret, Hfail; [done|]. repeat constructor. }
    apply wp_bind, wp_timeout. intros o s3 H3 Ho. assert (H13 := adv_quiet _ _ _ _ _ H12 H3).
    destruct o as [e|]; [apply wp_ret, Hfail; auto|].
    assert (Hcl : forall e, io_error e -> wp (cl ← load_closed; if (cl : bool) then mret (Some [ErrClosed], st) else mret (Some e, st)) Q s3).
    { intros e He. apply wp_bind, wp_closed. intros s4 H4. assert (H14 := adv_quiet _ _ _ _ _ H13 H4).
      destruct (closed s4); apply wp_ret, Hfail; auto. repeat constructor. }
    destruct (tAnswer t) as [n| | | |n].
    + apply wp_bind. unfold write_some, wp. eapply (Hnext (take n buf)); [exact H13| |by rewrite take_drop|].
      * constructor; simpl; rewrite ?app_nil_r; auto. exists []. by rewrite app_nil_r.
      * f_equal. unfold buf. by destruct n.
    + eapply (Hnext []); [exact H13|apply adv_refl|done|by rewrite orb_false_r].
    + eapply (Hnext []); [exact H13|apply adv_refl|done|by rewrite orb_false_r].
    + apply wp_bind, wp_closed. intros s4 H4. assert (H14 := adv_quiet _ _ _ _ _ H13 H4).
      destruct (closed s4); [apply wp_ret, Hfail; auto; repeat constructor|].
      eapply (Hnext []); [exact H14|apply adv_refl|done|by rewrite orb_false_r].
    + apply Hcl. repeat constructor.
Qed.

(** ** Aborts *)

Definition observe_of (e : event) : option error := match e with EObserve x => Some x | _ => None end.

(** The observer is called once, when the connection is poisoned, and before the
    transport closes itself. *)
Record observed (s : uds) : Prop := {
  ob_once : length (omap observe_of (log s)) = if observer c && fatal s then 1%nat else 0%nat;
  ob_first : forall n, log s !! n = Some EClose -> observer c = true ->
    exists m e, (m < n)%nat /\ log s !! m = Some (EObserve e)
}.

Lemma io_no_observe b tr : Forall (io_event b) tr -> omap observe_of tr = [] /\ EClose ∉ tr.
Proof.
  induction 1 as [|e tr He _ [IH1 IH2]]; [split; [done|apply not_elem_of_nil]|].
  destruct e; simpl in *; try done; (split; [done|]); rewrite not_elem_of_cons; done.
Qed.

Lemma observed_adv w o s s' : adv w o s s' -> observed s -> observed s'.
Proof.
  intros [_ _ _ _ Ef _ (tr & El & Ht)] [O1 O2]. destruct (io_no_observe _ _ Ht) as [H1 H2]. constructor; rewrite El.
  - by rewrite omap_app, H1, app_nil_r, Ef.
  - intros n [Hn|[_ Hn]]%lookup_app_Some Ho.
    + destruct (O2 n Hn Ho) as (m & e & Hm & He). exists m, e. split; [done|]. by apply lookup_app_l_Some.
    + by apply list_elem_of_lookup_2 in Hn.
Qed.

(** What an abort leaves: the same bytes and counters. *)
Record kept (s s' : uds) : Prop := {
  kp_in : inbound s' = inbound s;
  kp_out : outbound s' = outbound s;
  kp_sent : sentCount s' = sentCount s /\ sentBytes s' = sentBytes s;
  kp_recv : recvCount s' = recvCount s /\ recvBytes s' = recvBytes s;
  kp_closed : closed s = true -> closed s' = true;
  kp_obs : observed s -> observed s';
  kp_log : exists tr, log s' = log s ++ tr /\ forall e, e ∈ tr -> e <> EReserve
}.

Lemma kept_adv s s' : adv [] [] s s' -> kept s s'.
Proof.
  intros Ha. pose proof Ha as [A1 A2 A3 A4 A5 A6 (tr & A7 & A8)]. rewrite app_nil_r in A2. constructor; auto.
  - by apply observed_adv with [] [].
  - exists tr. split; [done|]. intros e He ->. rewrite Forall_forall in A8. by apply A8 in He.
Qed.

Lemma abort_observed e s :
  observed s ->
  observed (with_log (log (with_fatal true (with_log (log s ++ (if observer c && negb (fatal s) then [EObserve e] else [])) s)) ++ [EClose])
    (with_closed true (with_fatal true (with_log (log s ++ (if observer c && negb (fatal s) then [EObserve e] else [])) s)))).
Proof.
  intros [O1 O2]. constructor; simpl.
  - rewrite !omap_app, !length_app, O1. destruct (observer c), (fatal s); done.
  - intros n Hn Ho. rewrite Ho in *. simpl in *.
    assert (Hobs : fatal s = true -> exists m e, log s !! m = Some (EObserve e)).
    { intros Hf. rewrite Hf in O1. destruct (omap observe_of (log s)) as [|x xs] eqn:E; [done|].
      assert (Hx : x ∈ omap observe_of (log s)) by (rewrite E; left).
      apply list_elem_of_omap in Hx as (ev & Hev & Hx). apply list_elem_of_lookup in Hev as [m Hm].
      exists m. destruct ev; simplify_eq/=. eauto. }
    rewrite <- app_assoc in Hn. apply lookup_app_Some in Hn as [Hn|[Hlen Hn]].
    + destruct (O2 n Hn eq_refl) as (m & x & Hm & Hx). exists m, x. split; [done|]. rewrite <- app_assoc. by apply lookup_app_l_Some.
    + destruct (fatal s) eqn:Ef; simpl in *.
      * destruct (Hobs eq_refl) as (m & x & Hx). exists m, x. split; [apply lookup_lt_Some in Hx; lia|].
        rewrite <- app_assoc. by apply lookup_app_l_Some.
      * exists (length (log s)), e. rewrite <- app_assoc. split; [|by apply list_lookup_middle].
        destruct (n - length (log s))%nat eqn:E; [done|lia].
Qed.

Lemma wp_abort e started Q s :
  (forall s', kept s s' -> closed s' = true -> Q [ErrClosed] s') ->
  (forall s', started = true -> kept s s' -> closed s' = true -> Q (e ++ [ErrPoisoned]) s') ->
  (forall s', started = false -> kept s s' -> Q e s') ->
  wp (abortFrame c e started) Q s.
Proof.
  intros H1 H2 H3. unfold abortFrame. apply wp_bind, wp_closed. intros s1 A1. apply kept_adv in A1 as K1.
  destruct (closed s1) eqn:Ec; [apply wp_ret; auto|]. destruct started; [|apply wp_ret; auto].
  apply wp_bind, wp_gets. set (ev := if observer c && negb (fatal s1) then [EObserve (e ++ [ErrPoisoned])] else []).
  assert (Hmid : forall Q', Q' tt (with_fatal true (with_log (log s1 ++ ev) s1)) ->
    wp (if fatal s1 then mret tt else (if observer c then emit (EObserve (e ++ [ErrPoisoned])) else mret tt) ≫= fun _ => modify (with_fatal true)) Q' s1).
  { intros Q' HQ. unfold ev in HQ. destruct (fatal s1) eqn:Ef.
    - rewrite andb_false_r, app_nil_r in HQ. apply wp_ret. by destruct s1; simpl in *; subst.
    - apply wp_bind. destruct (observer c); simpl in HQ.
      + apply wp_modify, wp_modify. exact HQ.
      + rewrite app_nil_r in HQ. apply wp_ret, wp_modify. by destruct s1. }
  apply wp_bind, Hmid, wp_bind. unfold wp, Close. simpl. rewrite Ec. apply H2; [done| |done].
  destruct K1 as [K1 K2 K3 K4 K5 K6 (tr & K7 & K8)]. constructor; simpl; auto.
  - intros Ho. by apply abort_observed, K6.
  - exists (tr ++ ev ++ [EClose]). rewrite K7, <- !app_assoc. split; [done|]. intros x. rewrite !elem_of_app.
    intros [Hx|[Hx|Hx]]; [by apply K8| |].
    + unfold ev in Hx. destruct (observer c && negb (fatal s1)); [|by apply not_elem_of_nil in Hx].
      apply list_elem_of_singleton in Hx as ->. done.
    + apply list_elem_of_singleton in Hx as ->. done.
Qed.

(** ** Sending *)

(** The bytes of a frame. *)
Definition wire (f : Frame) : list Z :=
  encodeHeader f (u32 (zlen (frameBody f))) (streaming c) ++ frameBody f.

(** A frame [Send] writes. *)
Definition sendable (f : Frame) : Prop :=
  checkImplementedKind (Kind f) = None /\ zlen (frameBody f) <= maxFrame c.

(** The outcome of one send: the whole frame, or an error and a strict prefix,
    which is empty or leaves the transport closed. *)
Definition send_post (f : Frame) (s : uds) (r : option error) (s' : uds) : Prop :=
  inbound s' = inbound s /\ (closed s = true -> closed s' = true) /\ (observed s -> observed s') /\
  recvCount s' = recvCount s /\
  exists w, outbound s' = outbound s ++ w /\
  match r with
  | None => sendable f /\ w = wire f /\ sentCount s' = u64 (sentCount s + 1)
  | Some e =>
      (exists rest, wire f = w ++ rest /\ rest <> []) /\ sentCount s' = sentCount s /\
      (w = [] \/ (closed s' = true /\ sendable f)) /\
      (AcceptanceUnknown (Some e) = true -> w <> []) /\
      (AcceptanceUnknown (Some e) = false -> w = [] \/ e = [ErrClosed]) /\
      (NeverPublished (Some e) = true -> w = [])
  end.

Lemma wire_nonempty f : wire f <> [].
Proof.
  unfold wire. intros E. apply app_eq_nil in E as [E _]. apply (f_equal zlen) in E. rewrite zlen_header in E.
  destruct (streaming c); discriminate.
Qed.

Lemma is_not e x : x ∉ e -> Is (Some e) x = false.
Proof. intros H. by apply bool_decide_eq_false. Qed.

Lemma io_never e : io_error e -> NeverPublished (Some e) = false /\ NeverPublished (Some (e ++ [ErrPoisoned])) = false.
Proof.
  intros He. assert (H : forall x, io_error [x] \/ (x ∉ e /\ (x = ErrPoisoned \/ x ∉ e ++ [ErrPoisoned]))).
  { intros x. destruct (io_not x e He) as [|Hx]; [by left|]. right. split; [done|].
    destruct (decide (x = ErrPoisoned)); [by left|right]. rewrite not_elem_of_app, list_elem_of_singleton. done. }
  assert (G : forall x, x ∈ [ErrUnimplementedFrameKind; ErrPayloadTooLarge; Frames.ErrBackpressure] -> x ∉ e /\ x ∉ e ++ [ErrPoisoned]).
  { intros x Hx. destruct (H x) as [Hi|[? [->|?]]]; auto; rewrite !elem_of_cons in Hx;
      destruct Hx as [E|[E|[E|E%not_elem_of_nil]]]; simplify_eq; try done; by inversion Hi. }
  unfold NeverPublished. split; rewrite !is_not; auto; apply G; set_solver.
Qed.

Lemma wp_abort_send f w rest e started Q s0 s :
  adv [] w s0 s -> io_error e -> wire f = w ++ rest -> rest <> [] -> started = bool_decide (w <> []) -> sendable f ->
  (forall x s', send_post f s0 (Some x) s' -> Q (Some x) s') ->
  wp (e ← abortFrame c e started; mret (Some e)) Q s.
Proof.
  intros Ha He Hw Hr -> Hf HQ. pose proof (io_never e He) as [N1 N2].
  assert (G : forall s' (x : error), kept s s' -> (w = [] \/ closed s' = true) -> (ErrPoisoned ∈ x -> w <> []) ->
    (ErrPoisoned ∉ x -> w = [] \/ x = [ErrClosed]) -> NeverPublished (Some x) = false -> Q (Some x) s').
  { intros s' x [K1 K2 [K3 _] [K4 _] K5 K6 K7] Hc Hp Hn Hx. apply HQ.
    pose proof Ha as [A1 A2 [A3 _] [A4 _] A5 A6 A7]. split_and!; auto; try congruence.
    - by rewrite K1, A1.
    - intros Ho. apply K6. by apply (observed_adv _ _ _ _ Ha).
    - exists w. split; [congruence|]. split_and!; [eauto|congruence|naive_solver| | |by rewrite Hx].
      + unfold AcceptanceUnknown, Is. rewrite bool_decide_eq_true. done.
      + unfold AcceptanceUnknown, Is. rewrite bool_decide_eq_false. done. }
  apply wp_bind, wp_abort.
  - intros s' K Hc. apply wp_ret, G; auto. intros Hin. apply list_elem_of_singleton in Hin. done.
  - intros s' Hs K Hc. apply bool_decide_eq_true in Hs. apply wp_ret, G; auto.
    intros Hn. exfalso. apply Hn, elem_of_app. right. by apply list_elem_of_singleton.
  - intros s' Hs K. apply bool_decide_eq_false in Hs. apply dec_stable in Hs. apply wp_ret, G; auto.
    intros Hp. by apply io_not_poisoned in Hp.
Qed.

Lemma wp_send f Q s : (forall r s', send_post f s r s' -> Q r s') -> wp (Send c f) Q s.
Proof.
  intros HQ. unfold Send.
  assert (Hrej : forall e, NeverPublished (Some e) = true -> ErrPoisoned ∉ e -> Q (Some e) s).
  { intros e Hn Hp. apply HQ. split_and!; auto. exists []. rewrite app_nil_r. split; [done|].
    split_and!; auto; [exists (wire f); split; [done|apply wire_nonempty]|].
    unfold AcceptanceUnknown, Is. by rewrite bool_decide_eq_true. }
  destruct (checkImplementedKind (Kind f)) as [e|] eqn:Ek.
  { apply wp_ret, Hrej; unfold checkImplementedKind in Ek; repeat case_match; simplify_eq; [done|].
    rewrite list_elem_of_singleton. done. }
  destruct (Z.ltb_spec (maxFrame c) (zlen (frameBody f))) as [Hl|Hl].
  { apply wp_ret, Hrej; [done|]. rewrite list_elem_of_singleton. done. }
  assert (Hf : sendable f) by (by split).
  set (fin := fun r => match r with Some e => mret (Some e) | None => _ end).
  assert (Hok : forall s', adv [] (wire f) s s' -> wp (fin None) Q s').
  { intros s' Ha. pose proof Ha as [A1 A2 [A3 _] [A4 _] A5 A6 A7]. apply wp_bind, wp_modify, wp_ret, HQ. split_and!; simpl; auto.
    - intros Ho. apply (observed_adv _ _ _ _ Ha) in Ho. destruct Ho. by constructor.
    - exists (wire f). split_and!; auto. by rewrite A3. }
  assert (Herr : forall e started w rest s', adv [] w s s' -> io_error e -> wire f = w ++ rest -> rest <> [] ->
    started = bool_decide (w <> []) -> wp (e ← abortFrame c e started; mret (Some e)) (fun r s' => wp (fin r) Q s') s').
  { intros e started w rest s' Ha He Hw Hr Hst.
    eapply wp_abort_send with (Q := fun r s' => wp (fin r) Q s') (s0 := s); eauto.
    intros x s2 Hp. by apply wp_ret, HQ. }
  unfold writeFrame. apply wp_bind, wp_bind, wp_write_loop. intros w s1 r st A1 Est Hr.
  cbn [orb] in Est. destruct r as [e|].
  { destruct Hr as [He (rest & Hrest & Hne)]. apply (Herr e st w (rest ++ frameBody f)); auto.
    - unfold wire. by rewrite Hrest, app_assoc.
    - by destruct rest. }
  subst w. destruct (frameBody f) as [|b0 body0] eqn:Eb.
  { apply wp_ret, Hok. unfold wire. by rewrite Eb, app_nil_r. }
  apply wp_bind, wp_write_loop. intros w s2 r st2 A2 Est2 Hr.
  assert (A12 := adv_trans _ _ _ _ _ _ _ A1 A2). destruct r as [e|].
  { destruct Hr as [He (rest & Hrest & Hne)]. eapply (Herr e st2 _ rest); [exact A12|done| |done|].
    - unfold wire. by rewrite <- app_assoc, Eb, Hrest.
    - rewrite Est2, Est. set (h := encodeHeader _ _ _). assert (h <> []).
      { intros E. apply (f_equal zlen) in E. unfold h in E. rewrite zlen_header in E. destruct (streaming c); discriminate. }
      rewrite (bool_decide_eq_true_2 (h <> [])) by done. symmetry. apply bool_decide_eq_true_2. intros E.
      by apply app_eq_nil in E as [? _]. }
  apply wp_ret, Hok. unfold wire. rewrite Eb. by subst w.
Qed.

(** ** Receiving *)

Lemma wp_expired dl Q s : (forall b s', adv [] [] s s' -> Q b s') -> wp (expired dl) Q s.
Proof.
  intros HQ. destruct dl as [d|]; [|apply wp_ret, HQ, adv_refl].
  apply wp_bind, wp_now. intros t s' H. by apply wp_ret, HQ.
Qed.

Lemma wp_read_loop fuel dl want (Q : list Z + error -> uds -> Prop) s :
  (forall got s', adv got [] s s' -> got <> [] -> (length got <= want)%nat -> Q (inl got) s') ->
  (forall e s', adv [] [] s s' -> io_error e -> Q (inr e) s') ->
  wp (read_loop fuel dl want) Q s.
Proof.
  revert s. induction fuel as [|fuel IH]; intros s HQ HE; [done|]. cbn [read_loop].
  assert (Hnext : forall s', adv [] [] s s' -> wp (read_loop fuel dl want) Q s').
  { intros s' H. apply IH; intros; [apply HQ|apply HE]; auto; by eapply adv_quiet. }
  assert (Hend : forall e s', adv [] [] s s' -> io_error e ->
    wp (cl ← load_closed; if (cl : bool) then mret (inr [ErrClosed]) else mret (inr e)) Q s').
  { intros e s' H He. apply wp_bind, wp_closed. intros s2 H2. assert (H12 := adv_quiet _ _ _ _ _ H H2).
    destruct (closed s2); apply wp_ret, HE; auto. repeat constructor. }
  assert (Hagain : forall s', adv [] [] s s' ->
    wp (cl ← load_closed; if (cl : bool) then mret (inr [ErrClosed]) else read_loop fuel dl want) Q s').
  { intros s' H. apply wp_bind, wp_closed. intros s2 H2. assert (H12 := adv_quiet _ _ _ _ _ H H2).
    destruct (closed s2); [apply wp_ret, HE; auto; repeat constructor|auto]. }
  apply wp_bind, wp_tick. intros t s1 H1 _. destruct (ctx_err (tCtx t)) as [e|] eqn:Ec.
  { apply wp_ret, HE; [done|]. by eapply ctx_io. }
  apply wp_bind, wp_closed. intros s2 H2. assert (H12 := adv_quiet _ _ _ _ _ H1 H2).
  destruct (closed s2). { apply wp_ret, HE; [done|]. repeat constructor. }
  apply wp_bind, wp_expired. intros ex s3 H3. assert (H13 := adv_quiet _ _ _ _ _ H12 H3).
  destruct ex. { apply wp_ret, HE; [done|]. repeat constructor. }
  apply wp_bind, wp_timeout. intros o s4 H4 Ho. assert (H14 := adv_quiet _ _ _ _ _ H13 H4).
  destruct o as [e|]; [apply wp_ret, HE; auto|]. destruct (tAnswer t) as [n| | | |n]; auto.
  - apply wp_bind, wp_gets. destruct (Nat.eqb_spec (Nat.min (Nat.min want n) (length (inbound s4))) 0) as [E|E]; cbn [negb]; [auto|].
    apply wp_bind. unfold wp, read_some. cbv zeta. set (k := Nat.min want n) in *. set (got := take k (inbound s4)).
    assert (Hl : length got = Nat.min k (length (inbound s4))) by (unfold got; apply length_take).
    apply HQ; [|intros Eg; rewrite Eg in Hl; simpl in Hl; lia|lia]. eapply adv_quiet; [exact H14|].
    constructor; simpl; rewrite ?app_nil_r; auto; [unfold got; by rewrite take_drop|].
    exists [ERead (length got)]. split; [done|]. repeat constructor. simpl. apply bool_decide_eq_true.
    intros Eg. rewrite Eg in Hl. simpl in Hl. lia.
  - apply wp_ret, HE; [done|]. repeat constructor.
  - apply Hend; [done|]. repeat constructor.
Qed.

Lemma wp_read_full fuel dl n acc (Q : list Z * option error -> uds -> Prop) s :
  (forall w s', adv w [] s s' -> length w = n -> Q (acc ++ w, None) s') ->
  (forall w s' e, adv w [] s s' -> (length w < n)%nat -> io_error e -> Q (acc ++ w, Some e) s') ->
  wp (read_full fuel dl n acc) Q s.
Proof.
  revert n acc s. induction fuel as [|fuel IH]; intros n acc s HQ HE; destruct n as [|n]; try done;
    try (apply wp_ret; specialize (HQ [] s (adv_refl s) eq_refl); by rewrite app_nil_r in HQ).
  cbn [read_full]. apply wp_bind, wp_read_loop.
  - intros got s1 H1 Hne Hle. apply IH.
    + intros w s2 H2 Hw. rewrite <- app_assoc. apply HQ; [|rewrite length_app; lia].
      change (@nil Z) with (@nil Z ++ []). by eapply adv_trans.
    + intros w s2 e H2 Hw He. rewrite <- app_assoc. apply HE; [|rewrite length_app; lia|done].
      change (@nil Z) with (@nil Z ++ []). by eapply adv_trans.
  - intros e s1 H1 He. apply wp_ret.
    assert (G : forall x, io_error x -> Q (acc, Some x) s1).
    { intros x Hx. specialize (HE [] s1 x H1 ltac:(simpl; lia) Hx). by rewrite app_nil_r in HE. }
    apply G. destruct (_ && _); [repeat constructor|exact He].
Qed.

Lemma wp_copy_discard fuel dl n (Q : option error -> uds -> Prop) s :
  (forall w s', adv w [] s s' -> length w = n -> Q None s') ->
  (forall w s' e, adv w [] s s' -> io_error e -> Q (Some e) s') ->
  wp (copy_discard fuel dl n) Q s.
Proof.
  revert n s. induction fuel as [|fuel IH]; intros n s HQ HE; destruct n as [|n]; try done;
    try (apply wp_ret, (HQ []); [apply adv_refl|done]).
  cbn [copy_discard]. apply wp_bind, wp_read_loop.
  - intros got s1 H1 Hne Hle. apply IH.
    + intros w s2 H2 Hw. apply (HQ (got ++ w)); [|rewrite length_app; lia].
      change (@nil Z) with (@nil Z ++ []). by eapply adv_trans.
    + intros w s2 e H2 He. apply (HE (got ++ w)); [|done].
      change (@nil Z) with (@nil Z ++ []). by eapply adv_trans.
  - intros e s1 H1 He. by apply wp_ret, (HE []).
Qed.

Lemma wp_wait fuel (Q : option error -> uds -> Prop) s :
  (forall s', adv [] [] s s' -> Q None s') -> (forall e s', adv [] [] s s' -> io_error e -> Q (Some e) s') ->
  wp (wait_loop fuel) Q s.
Proof.
  revert s. induction fuel as [|fuel IH]; intros s HQ HE; [done|]. cbn [wait_loop].
  assert (Hnext : forall s', adv [] [] s s' -> wp (wait_loop fuel) Q s').
  { intros s' H. apply IH; intros; [apply HQ|apply HE]; auto; by eapply adv_quiet. }
  apply wp_bind, wp_tick. intros t s1 H1 _. destruct (ctx_err (tCtx t)) as [e|] eqn:Ec.
  { apply wp_ret, HE; [done|]. by eapply ctx_io. }
  apply wp_bind, wp_closed. intros s2 H2. assert (H12 := adv_quiet _ _ _ _ _ H1 H2).
  destruct (closed s2). { apply wp_ret, HE; [done|]. repeat constructor. }
  apply wp_bind, wp_timeout. intros o s3 H3 Ho. assert (H13 := adv_quiet _ _ _ _ _ H12 H3).
  destruct o as [e|]; [apply wp_ret, HE; auto|].
  assert (Hcl : forall (f : bool -> prog uds (option error)), (forall s', adv [] [] s s' -> wp (f (closed s')) Q s') ->
    wp (load_closed ≫= f) Q s3).
  { intros f Hf. apply wp_bind, wp_closed. intros s4 H4. apply Hf. by eapply adv_quiet. }
  destruct (tAnswer t) as [n| | | |n]; auto; apply Hcl; intros s4 H4; destruct (closed s4);
    try (apply wp_ret, HE; [done|repeat constructor]); auto; by apply wp_ret, HQ.
Qed.

(** ** A whole receive *)

Lemma header_declares h f n : Forall is_byte h -> decodeHeader h (streaming c) = Ok (f, n) -> is_u32 n.
Proof.
  intros Hb. unfold decodeHeader. destruct (cut 0 4 h) as [pb| |] eqn:E; [|done..].
  apply cut_split in E as (_ & Hl & _ & Hd). cbn [obind]. intros H.
  assert (n = be_decode pb) as ->.
  { destruct (cut 29 37 h) as [x1| |]; [cbn [obind] in H|done..]. destruct (cut 4 12 h) as [x2| |]; [cbn [obind] in H|done..].
    destruct (cut 12 13 h) as [x3| |]; [cbn [obind] in H|done..]. destruct (cut 13 21 h) as [x4| |]; [cbn [obind] in H|done..].
    destruct (cut 21 29 h) as [x5| |]; [cbn [obind] in H|done..]. destruct (streaming c).
    - destruct (cut headerSize (headerSize + controlWordSize) h) as [x6| |]; [cbn [obind] in H|done..]. by injection H.
    - cbn [obind] in H. by injection H. }
  apply be4_range; [|lia]. change (drop (Z.to_nat 0) h) with h in Hd. rewrite Hd in Hb. by apply Forall_app in Hb as [? _].
Qed.

(** What the receiver makes of a header and a body. *)
Definition made (f0 : Frame) (body : list Z) (f : Frame) : Prop :=
  if CarriesStatusBody (Kind f0)
  then exists st, DecodeStatus body = Ok st /\
    f = mkFrame (CallID f0) (Kind f0) (Service f0) (Method f0) (Budget f0) [] (Some st) (Control f0)
  else f = mkFrame (CallID f0) (Kind f0) (Service f0) (Method f0) (Budget f0) body None (Control f0).

(** [w] is one whole frame on the wire. *)
Definition whole (w : list Z) (f0 : Frame) (body : list Z) : Prop :=
  exists h, w = h ++ body /\ zlen h = headerLen c /\ decodeHeader h (streaming c) = Ok (f0, zlen body) /\
    zlen body <= maxFrame c.

(** A frame refused once it has been read. *)
Definition refused (f0 : Frame) (body : list Z) : Prop :=
  checkImplementedKind (Kind f0) <> None \/
  (CarriesStatusBody (Kind f0) = true /\ forall st, DecodeStatus body <> Ok st).

(** The outcome of a receive that consumed [w]: one whole frame, given or
    refused; or nothing; or the transport is closed. *)
Definition recv_post (s : uds) (w : list Z) (r : Frame + error) (s' : uds) : Prop :=
  inbound s = w ++ inbound s' /\ outbound s' = outbound s /\ sentCount s' = sentCount s /\
  (closed s = true -> closed s' = true) /\ (observed s -> observed s') /\
  match r with
  | inl f => recvCount s' = u64 (recvCount s + 1) /\
      exists f0 body, whole w f0 body /\ checkImplementedKind (Kind f0) = None /\ made f0 body f
  | inr e => recvCount s' = recvCount s /\
      ((w = [] /\ io_error e) \/ closed s' = true \/
       (IsFrameLocalRecvErr (Some e) = true /\ exists f0 body, whole w f0 body /\ refused f0 body))
  end.

(** The part of the log a receive adds before and after its reservation. *)
Definition no_reserve (s s' : uds) : Prop := exists tr, log s' = log s ++ tr /\ EReserve ∉ tr.

Lemma no_reserve_refl s : no_reserve s s.
Proof. exists []. rewrite app_nil_r. split; [done|apply not_elem_of_nil]. Qed.

Lemma no_reserve_adv w o s s' : adv w o s s' -> no_reserve s s'.
Proof.
  intros [_ _ _ _ _ _ (tr & El & Ht)]. exists tr. split; [done|]. intros H. rewrite Forall_forall in Ht. by apply Ht in H.
Qed.

Lemma no_reserve_trans s1 s2 s3 : no_reserve s1 s2 -> no_reserve s2 s3 -> no_reserve s1 s3.
Proof.
  intros (t1 & E1 & H1) (t2 & E2 & H2). exists (t1 ++ t2). rewrite E2, E1, app_assoc. split; [done|].
  rewrite not_elem_of_app. done.
Qed.

Definition recv_done (s0 : uds) (w : list Z) (r : Frame + error) (s' : uds) : Prop :=
  recv_post s0 w r s' /\ no_reserve s0 s'.

Lemma wp_aborted w e started Q s0 s :
  adv w [] s0 s -> started = bool_decide (w <> []) -> (w = [] -> io_error e) ->
  (forall x s', recv_done s0 w (inr x) s' -> Q (inr x) s') -> wp (aborted c e started) Q s.
Proof.
  intros Ha -> He HQ. assert (Hn := no_reserve_adv _ _ _ _ Ha).
  assert (G : forall s' (x : error), kept s s' -> (w = [] /\ io_error x \/ closed s' = true) -> Q (inr x) s').
  { intros s' x [K1 K2 [K3 _] [K4 _] K5 K6 (tr & K7 & K8)] Hx.
    pose proof Ha as [A1 A2 [A3 _] [A4 _] A5 A6 A7]. apply HQ. split.
    - split_and!; [by rewrite A1, K1|by rewrite K2, A2, app_nil_r|congruence|auto| |congruence|tauto].
      intros Ho. apply K6. by apply (observed_adv _ _ _ _ Ha).
    - eapply no_reserve_trans; [exact Hn|]. exists tr. split; [done|]. intros H. by apply (K8 _ H). }
  unfold aborted. apply wp_bind, wp_abort.
  - intros s' K Hc. apply wp_ret, G; auto.
  - intros s' Hs K Hc. apply wp_ret, G; auto.
  - intros s' Hs K. apply bool_decide_eq_false, dec_stable in Hs. apply wp_ret, G; auto.
Qed.

Lemma wp_receive_body h f0 n Q s0 s :
  adv h [] s0 s -> zlen h = headerLen c -> decodeHeader h (streaming c) = Ok (f0, n) -> is_u32 n ->
  Forall is_byte (inbound s) ->
  (forall w r s', recv_done s0 w r s' -> Q r s') -> wp (receive_body c f0 n) Q s.
Proof.
  intros Ha Hh Hdec Hn Hb HQ. assert (Hne : h <> []).
  { intros ->. unfold headerLen in Hh. destruct (streaming c); discriminate. }
  assert (Habort : forall w e s', adv w [] s s' -> wp (aborted c e true) Q s').
  { intros w e s' A. assert (A2 : adv (h ++ w) [] s0 s') by (change (@nil Z) with (@nil Z ++ []); by eapply adv_trans).
    eapply wp_aborted; [exact A2| | |intros; by eapply HQ].
    - symmetry. apply bool_decide_eq_true. intros E. by apply app_eq_nil in E as [? _].
    - intros E. by apply app_eq_nil in E as [? _]. }
  unfold receive_body. destruct (Z.ltb_spec (maxFrame c) n) as [|Hmax]; [eapply Habort, adv_refl|].
  assert (Harm : forall Q', (forall dl s', adv [] [] s s' -> Q' dl s') -> wp (armBodyBudget c n) Q' s).
  { intros Q' HQ'. unfold armBodyBudget. destruct (Clock (budget c)); [|apply wp_ret, HQ', adv_refl].
    apply wp_bind, wp_now. intros t s' A. by apply wp_ret, HQ'. }
  apply wp_bind, Harm. intros dl s1 A1. destruct (Kind f0 =? FrameStreamChunk); [by eapply Habort|].
  assert (Hwhole : forall body, length body = Z.to_nat n -> whole (h ++ body) f0 body).
  { intros body Hl. exists h. assert (zlen body = n) as -> by (unfold zlen, is_u32 in *; lia). by split_and!. }
  assert (Hfull : forall body s', adv body [] s1 s' -> adv (h ++ body) [] s0 s').
  { intros body s' A. change (@nil Z) with (@nil Z ++ []). eapply adv_trans; [exact Ha|]. by eapply adv_quiet. }
  assert (Hlocal : forall body e s', adv body [] s1 s' -> length body = Z.to_nat n -> refused f0 body ->
    IsFrameLocalRecvErr (Some e) = true -> recv_done s0 (h ++ body) (inr e) s').
  { intros body e s' A Hl Href Hloc. apply Hfull in A. split; [|by apply no_reserve_adv in A].
    pose proof A as [B1 B2 [B3 _] [B4 _] B5 B6 B7]. split_and!; auto; [by rewrite app_nil_r in B2|intros Ho; by apply (observed_adv _ _ _ _ A)|].
    right. right. split; [done|]. exists f0, body. auto. }
  destruct (checkImplementedKind (Kind f0)) as [e|] eqn:Ek.
  { apply wp_bind, wp_copy_discard.
    - intros body s2 A2 Hl. apply wp_ret. eapply HQ, Hlocal; [exact A2|done|left; congruence|].
      unfold checkImplementedKind in Ek. repeat case_match; simplify_eq. done.
    - intros w s2 x A2 Hx. eapply Habort. by eapply adv_quiet. }
  apply wp_bind, wp_read_full; [|intros w s2 x A2 _ Hx; eapply Habort; by eapply adv_quiet].
  intros body s2 A2 Hl. cbn [app].
  assert (Hbody : Forall is_byte body).
  { rewrite (ad_in _ _ _ _ A1) in Hb. cbn [app] in Hb. rewrite (ad_in _ _ _ _ A2), Forall_app in Hb. apply Hb. }
  assert (Hgive : forall f, made f0 body f -> wp (count_received c n ≫= fun _ => mret (inl f)) Q s2).
  { intros f Hm. apply wp_bind, wp_modify, wp_ret, (HQ (h ++ body)). apply Hfull in A2.
    pose proof A2 as [B1 B2 [B3 _] [B4 _] B5 B6 (tr & B7 & B8)]. split.
    - split_and!; simpl; auto; [by rewrite app_nil_r in B2| |by rewrite B4|].
      + intros Ho. apply (observed_adv _ _ _ _ A2) in Ho. destruct Ho. by constructor.
      + exists f0, body. auto.
    - by apply no_reserve_adv in A2. }
  unfold made in Hgive. destruct (CarriesStatusBody (Kind f0)) eqn:Ecs.
  - pose proof (decode_status_spec body Hbody) as Hst. destruct (DecodeStatus body) as [st|e|] eqn:Ed; [|subst e|done].
    + apply Hgive. by exists st.
    + apply wp_ret. eapply HQ, Hlocal; [exact A2|done|right; split; [done|congruence]|done].
  - by apply Hgive.
Qed.

Lemma wp_receive_frame Q s :
  Forall is_byte (inbound s) -> (forall w r s', recv_done s w r s' -> Q r s') -> wp (receive_frame c) Q s.
Proof.
  intros Hb HQ. unfold receive_frame.
  assert (Harm : forall Q', (forall dl s', adv [] [] s s' -> Q' dl s') -> wp (armHeaderBudget c) Q' s).
  { intros Q' HQ'. unfold armHeaderBudget. destruct (Clock (budget c)); [|apply wp_ret, HQ', adv_refl].
    apply wp_bind, wp_now. intros t s' A. by apply wp_ret, HQ'. }
  apply wp_bind, Harm. intros dl s1 A1. apply wp_bind, wp_read_full; cbn [app].
  - intros h s2 A2 Hl. assert (A12 := adv_quiet _ _ _ _ _ A1 A2).
    assert (Hh : zlen h = headerLen c).
    { unfold zlen, headerLen, headerSize, controlWordSize in *. destruct (streaming c); lia. }
    assert (Hbs : Forall is_byte h /\ Forall is_byte (inbound s2)).
    { rewrite (ad_in _ _ _ _ A12) in Hb. by apply Forall_app in Hb. }
    destruct (decode_header_total h (streaming c) Hh) as [[f0 n] E]. rewrite E.
    eapply wp_receive_body; eauto; [|apply Hbs]. eapply header_declares; [exact (proj1 Hbs)|exact E].
  - intros w s2 e A2 _ He. eapply wp_aborted; [by eapply adv_quiet|done|done|]. intros; by eapply HQ.
Qed.

(** The reservation of a receive: made once, before any byte is consumed. *)
Definition reserves (reserve : bool) (w : list Z) (s s' : uds) : Prop :=
  if reserve then
    (w = [] /\ no_reserve s s') \/
    exists t1 t2, log s' = log s ++ t1 ++ EReserve :: t2 /\ Forall (io_event false) t1 /\ EReserve ∉ t2
  else no_reserve s s'.

Lemma wp_recv ctx reserve Q s :
  Forall is_byte (inbound s) ->
  (forall w r s', recv_post s w r s' -> reserves reserve w s s' -> Q r s') -> wp (recvCore c ctx reserve) Q s.
Proof.
  intros Hb HQ. unfold recvCore.
  assert (Herr : forall e s', adv [] [] s s' -> io_error e -> Q (inr e) s').
  { intros e s' A He. apply (HQ []).
    - pose proof A as [B1 B2 [B3 _] [B4 _] B5 B6 _]. split_and!; auto; [by rewrite app_nil_r in B2|intros Ho; by apply (observed_adv _ _ _ _ A)].
    - unfold reserves. apply no_reserve_adv in A. destruct reserve; auto. }
  destruct (ctx_err ctx) as [e|] eqn:Ec. { apply wp_ret, Herr; [apply adv_refl|by eapply ctx_io]. }
  apply wp_bind, wp_closed. intros s1 A1. destruct (closed s1); [apply wp_ret, Herr; [done|repeat constructor]|].
  assert (Hb1 : Forall is_byte (inbound s1)) by (by rewrite (ad_in _ _ _ _ A1) in Hb).
  assert (Hpost : forall s2 w r s', adv [] [] s s2 -> recv_post s2 w r s' -> recv_post s w r s').
  { intros s2 w r s' A (P1 & P2 & P3 & P4 & P5 & P6). pose proof A as [B1 B2 [B3 _] [B4 _] B5 B6 _]. rewrite app_nil_r in B2.
    split_and!; [by rewrite B1|congruence|congruence|auto| |].
    - intros Ho. apply P5. by apply (observed_adv _ _ _ _ A).
    - rewrite <- B4. done. }
  destruct reserve.
  - apply wp_bind, wp_wait; [|intros e s2 A2 He; apply wp_ret, Herr; [by eapply adv_quiet|done]].
    intros s2 A2. assert (A12 := adv_quiet _ _ _ _ _ A1 A2). apply wp_bind, wp_modify.
    set (s3 := with_log (log s2 ++ [EReserve]) s2). apply wp_receive_frame.
    { change (inbound s3) with (inbound s2). by rewrite (ad_in _ _ _ _ A2) in Hb1. }
    intros w r s' [(P1 & P2 & P3 & P4 & P5 & P6) (t2 & E2 & H2)]. apply (HQ w).
    + apply (Hpost s2); [done|]. split_and!; auto. intros Ho. apply P5. destruct Ho as [O1 O2]. constructor; simpl.
      * by rewrite omap_app, app_nil_r.
      * intros n [Hn|[_ Hn]]%lookup_app_Some Hob.
        -- destruct (O2 n Hn Hob) as (m & e & Hm & He). exists m, e. split; [done|]. by apply lookup_app_l_Some.
        -- destruct (n - length (log s2))%nat; simpl in Hn; [discriminate|]. by rewrite lookup_nil in Hn.
    + right. destruct A12 as [_ _ _ _ _ _ (t1 & E1 & H1)]. exists t1, t2. simpl in E2. rewrite E2, E1, <- !app_assoc.
      split_and!; auto.
  - apply wp_bind, wp_ret, wp_bind, wp_ret, wp_receive_frame; [done|]. intros w r s' [P N].
    apply (HQ w); [by apply (Hpost s1)|]. eapply no_reserve_trans; [by apply no_reserve_adv in A1|done].
Qed.

(** A closed transport moves nothing. *)
Lemma wp_send_closed f s :
  closed s = true -> wp (Send c f) (fun r s' => r <> None /\ outbound s' = outbound s) s.
Proof.
  intros Hc. unfold Send. destruct (checkImplementedKind (Kind f)); [by apply wp_ret|].
  destruct (maxFrame c <? zlen (frameBody f)); [by apply wp_ret|].
  assert (Hloop : forall fuel buf, buf <> [] ->
    wp (write_loop fuel buf false) (fun r s' => exists e, r = (Some e, false) /\ adv [] [] s s') s).
  { intros fuel buf Hb. destruct buf as [|b0 buf]; [done|]. destruct fuel as [|fuel]; [done|]. cbn [write_loop].
    apply wp_bind, wp_tick. intros t s1 A1 _. destruct (ctx_err (tCtx t)); [apply wp_ret; eauto|].
    apply wp_bind, wp_closed. intros s2 A2. rewrite (ad_closed _ _ _ _ A2) by (by apply (ad_closed _ _ _ _ A1)).
    apply wp_ret. eexists. split; [done|]. by eapply adv_quiet. }
  apply wp_bind. unfold writeFrame. apply wp_bind. unfold writeFull, wp. 
  set (h := encodeHeader _ _ _). assert (Hh : h <> []).
  { intros E. apply (f_equal zlen) in E. unfold h in E. rewrite zlen_header in E. destruct (streaming c); discriminate. }
  specialize (Hloop (S (length (ticks s))) h Hh). unfold wp in Hloop.
  destruct (write_loop _ h false s) as [s1 r| |]; [|done..]. destruct Hloop as (e & -> & A1).
  apply (wp_bind (abortFrame c e false) (fun e => mret (Some e))), wp_abort; try done; intros; apply wp_ret, wp_ret;
    (split; [done|]); match goal with K : kept _ _ |- _ => by rewrite (kp_out _ _ K), (ad_out _ _ _ _ A1), app_nil_r end.
Qed.

Lemma wp_recv_closed ctx reserve s :
  closed s = true -> wp (recvCore c ctx reserve) (fun r s' => (exists e, r = inr e) /\ inbound s' = inbound s) s.
Proof.
  intros Hc. unfold recvCore. destruct (ctx_err ctx); [apply wp_ret; eauto|].
  apply wp_bind, wp_closed. intros s1 A1. rewrite (ad_closed _ _ _ _ A1) by done. apply wp_ret.
  split; [eauto|]. symmetry. apply (ad_in _ _ _ _ A1).
Qed.

Lemma wp_and {A} (m : prog uds A) (P Q : A -> uds -> Prop) s : wp m P s -> wp m Q s -> wp m (fun a s => P a s /\ Q a s) s.
Proof. unfold wp. destruct (m s); auto. Qed.

Lemma send_outcome f s :
  wp (Send c f) (fun r s' => send_post f s r s' /\ (closed s = true -> r <> None /\ outbound s' = outbound s)) s.
Proof.
  apply wp_and; [by apply wp_send|]. destruct (closed s) eqn:Ec.
  - eapply wp_mono; [by apply wp_send_closed|]. auto.
  - apply wp_send. done.
Qed.

Lemma recv_outcome ctx reserve s :
  Forall is_byte (inbound s) ->
  wp (recvCore c ctx reserve) (fun r s' => (exists w, recv_post s w r s' /\ reserves reserve w s s') /\
    (closed s = true -> (exists e, r = inr e) /\ inbound s' = inbound s)) s.
Proof.
  intros Hb. apply wp_and; [apply wp_recv; eauto|]. destruct (closed s) eqn:Ec.
  - eapply wp_mono; [by apply wp_recv_closed|]. auto.
  - apply wp_recv; done.
Qed.

(** ** Histories *)

(** Operations of one end, one after another, and what they return. *)
Inductive op := OSend (f : Frame) | ORecv (ctx : ctx_state) (reserve : bool).
Inductive result := RSend (f : Frame) (e : option error) | RRecv (r : Frame + error).

Definition run_op (o : op) : prog uds result :=
  match o with
  | OSend f => e ← Send c f; mret (RSend f e)
  | ORecv ctx reserve => r ← recvCore c ctx reserve; mret (RRecv r)
  end.

Fixpoint run_ops (l : list op) : prog uds (list result) :=
  match l with
  | [] => mret []
  | o :: l => r ← run_op o; rs ← run_ops l; mret (r :: rs)
  end.

Definition sent_of (r : result) : option Frame := match r with RSend f None => Some f | _ => None end.
Definition received_of (r : result) : option Frame := match r with RRecv (inl f) => Some f | _ => None end.

(** Whole frames, then a strict prefix of one, which is empty or the last thing
    written; [ok] holds of the frames submitted. *)
Definition framed_out (ok : Frame -> Prop) (sent : list Frame) (s : uds) : Prop :=
  exists part, outbound s = concat (wire <$> sent) ++ part /\ Forall (fun f => ok f /\ sendable f) sent /\
    (part = [] \/ (closed s = true /\ exists g rest, ok g /\ sendable g /\ wire g = part ++ rest /\ rest <> [])).

(** Whole frames, then perhaps a part of one, the last thing read. *)
Definition framed_in (start : list Z) (got : list Frame) (s : uds) : Prop :=
  exists ws part, start = concat (fst <$> ws) ++ part ++ inbound s /\ got = omap snd ws /\
    Forall (fun p => exists f0 body, whole p.1 f0 body /\
      match p.2 with Some f => checkImplementedKind (Kind f0) = None /\ made f0 body f | None => refused f0 body end) ws /\
    (part = [] \/ closed s = true).

Lemma framed_send ok sent f r s s' :
  ok f -> framed_out ok sent s -> send_post f s r s' -> (closed s = true -> r <> None /\ outbound s' = outbound s) ->
  framed_out ok (sent ++ option_list (sent_of (RSend f r))) s'.
Proof.
  intros Hok (part & E & Hs & Hp) (_ & Hcl & _ & _ & w & Ew & Hr) Hc. destruct (closed s) eqn:Ecl.
  - destruct (Hc eq_refl) as [Hn Eo]. destruct r as [e|]; [|done]. simpl. rewrite app_nil_r. exists part.
    rewrite Eo. split_and!; auto. destruct Hp as [Hp|[_ Hp]]; [by left|right]. auto.
  - destruct Hp as [->|[? _]]; [|done]. rewrite app_nil_r in E. destruct r as [e|]; simpl.
    + rewrite app_nil_r. destruct Hr as ((rest & Hw & Hne) & _ & Hc' & _). exists w. rewrite Ew, E. split_and!; auto.
      destruct Hc' as [|[? ?]]; [by left|right]. eauto 9.
    + destruct Hr as (Hf & -> & _). exists []. rewrite app_nil_r, Ew, E, fmap_app, concat_app. simpl. rewrite app_nil_r.
      split_and!; auto. apply Forall_app. auto.
Qed.

Lemma framed_recv start got w r s s' :
  framed_in start got s -> recv_post s w r s' -> (closed s = true -> (exists e, r = inr e) /\ inbound s' = inbound s) ->
  framed_in start (got ++ option_list (received_of (RRecv r))) s'.
Proof.
  intros (ws & part & E & Eg & Hws & Hp) (Ei & _ & _ & Hcl & _ & Hr) Hc. destruct (closed s) eqn:Ecl.
  - destruct (Hc eq_refl) as [[e ->] Ein]. simpl. rewrite app_nil_r. exists ws, part. rewrite Ein. split_and!; auto.
  - destruct Hp as [->|?]; [|done]. simpl in E. rewrite Ei in E.
    assert (Hadd : forall p, p.1 = w -> Forall (fun p => exists f0 body, whole p.1 f0 body /\
        match p.2 with Some f => checkImplementedKind (Kind f0) = None /\ made f0 body f | None => refused f0 body end) [p] ->
      framed_in start (got ++ option_list p.2) s').
    { intros p Ep Hpf. exists (ws ++ [p]), []. simpl. rewrite fmap_app, concat_app, omap_app. simpl. rewrite app_nil_r, <- app_assoc, Ep.
      split_and!; auto; [|by apply Forall_app]. rewrite Eg. by destruct p as [? []]. }
    destruct r as [f|e]; simpl.
    + destruct Hr as (_ & f0 & body & H1 & H2 & H3). apply (Hadd (w, Some f)); [done|]. constructor; [|constructor]. exists f0, body. by split_and!.
    + destruct Hr as (_ & [[-> _]|[Hcd|(_ & f0 & body & H1 & H2)]]).
      * rewrite app_nil_r. exists ws, []. split_and!; auto.
      * rewrite app_nil_r. exists ws, w. split_and!; auto.
      * apply (Hadd (w, None)); [done|]. constructor; [|constructor]. exists f0, body. by split_and!.
Qed.

Record history (ok : Frame -> Prop) (start : list Z) (sent got : list Frame) (s : uds) : Prop := {
  hi_out : framed_out ok sent s;
  hi_in : framed_in start got s;
  hi_obs : observed s;
  hi_sent : sentCount s = u64 (zlen sent);
  hi_recv : recvCount s = u64 (zlen got)
}.

Lemma zlen_snoc {A} (l : list A) x : zlen (l ++ [x]) = zlen l + 1.
Proof. unfold zlen. rewrite length_app. simpl. lia. Qed.

Lemma count_snoc {A} (l : list A) x : u64 (u64 (zlen l) + 1) = u64 (zlen (l ++ [x])).
Proof. rewrite zlen_snoc. unfold u64. by rewrite Zplus_mod_idemp_l. Qed.

Lemma wp_run_op ok o start sent got s :
  Forall is_byte start -> (forall f, o = OSend f -> ok f) -> history ok start sent got s ->
  wp (run_op o) (fun r s' => history ok start (sent ++ option_list (sent_of r)) (got ++ option_list (received_of r)) s') s.
Proof.
  intros Hb Hok [H1 H2 H3 H4 H5]. destruct o as [f|ctx reserve]; simpl; apply wp_bind.
  - eapply wp_mono; [apply send_outcome|]. intros r s' [Hp Hc]. apply wp_ret.
    pose proof Hp as (P1 & P2 & P3 & P4 & w & _ & P5). constructor; auto.
    + apply (framed_send _ _ _ _ s); auto.
    + simpl. rewrite app_nil_r. destruct H2 as (ws & part & E & Eg & Hw & Hpt). exists ws, part. rewrite P1.
      split_and!; auto. destruct Hpt; auto.
    + destruct r as [e|]; simpl; [rewrite app_nil_r; destruct P5 as (_ & -> & _); done|].
      destruct P5 as (_ & _ & ->). rewrite H4. apply count_snoc.
    + simpl. rewrite app_nil_r. congruence.
  - assert (Hbi : Forall is_byte (inbound s)).
    { destruct H2 as (ws & part & E & _). rewrite E, !Forall_app in Hb. apply Hb. }
    eapply wp_mono; [by apply recv_outcome|]. intros r s' [(w & Hp & _) Hc]. apply wp_ret.
    pose proof Hp as (P1 & P2 & P3 & P4 & P5 & P6). constructor; auto.
    + simpl. rewrite app_nil_r. destruct H1 as (part & E & Hs & Hpt). exists part. rewrite P2. split_and!; auto.
      destruct Hpt as [|[? ?]]; auto.
    + by apply (framed_recv _ _ w _ s).
    + simpl. rewrite app_nil_r. congruence.
    + destruct r as [f|e]; simpl; [destruct P6 as [-> _]; rewrite H5; apply count_snoc|].
      rewrite app_nil_r. destruct P6 as [-> _]. done.
Qed.

Lemma wp_run_ops ok l start sent got s :
  Forall is_byte start -> (forall f, OSend f ∈ l -> ok f) -> history ok start sent got s ->
  wp (run_ops l) (fun rs s' => history ok start (sent ++ omap sent_of rs) (got ++ omap received_of rs) s') s.
Proof.
  intros Hb. revert sent got s. induction l as [|o l IH]; intros sent got s Hok Hs; cbn [run_ops].
  { apply wp_ret. simpl. by rewrite !app_nil_r. }
  apply wp_bind. eapply wp_mono; [apply (wp_run_op ok o start sent got); [done| |done]; intros f ->; apply Hok; by left|]. intros r s1 H1. cbv beta in H1. apply wp_bind.
  eapply wp_mono; [apply IH; [|exact H1]; intros f Hf; apply Hok; by right|]. intros rs s2 H2. apply wp_ret. cbv beta in H2. rewrite <- !app_assoc in H2.
  simpl. by destruct (sent_of r), (received_of r).
Qed.

(** ** Delivery *)

(** A frame of the runtime: its fields fit the header, its status the body. *)
Definition frame_fits (f : Frame) : Prop :=
  header_ok f /\ (forall st, FStatus f = Some st -> status_ok st) /\ Forall is_byte (frameBody f).

(** What the peer receives of a frame: a status frame keeps only its status, and
    without streaming the control word stays behind. *)
Definition carried (f : Frame) : Frame :=
  if CarriesStatusBody (Kind f)
  then mkFrame (CallID f) (Kind f) (Service f) (Method f) (Budget f) [] (Some (default (mkStatus 0 [] []) (FStatus f)))
         (if streaming c then Control f else 0)
  else mkFrame (CallID f) (Kind f) (Service f) (Method f) (Budget f) (Payload f) None
         (if streaming c then Control f else 0).

Context (Hmax : is_u32 (maxFrame c)).

Lemma wire_bytes f : frame_fits f -> Forall is_byte (wire f).
Proof.
  intros ((_ & Hk & _) & _ & Hb). unfold wire, encodeHeader. rewrite !Forall_app.
  split_and!; try apply be_encode_bytes; auto; destruct (streaming c); auto; apply le_encode_bytes.
Qed.

Lemma header_length f n : length (encodeHeader f n (streaming c)) = Z.to_nat (headerLen c).
Proof. pose proof (zlen_header f n (streaming c)) as H. unfold zlen in H. unfold headerLen. destruct (streaming c); lia. Qed.

(** A whole frame read from where a frame was written is that frame. *)
Lemma whole_is f rest w rest' f0 body :
  frame_fits f -> sendable f -> w ++ rest' = wire f ++ rest -> whole w f0 body ->
  w = wire f /\ rest' = rest /\ f0 = header_part f (streaming c) /\ body = frameBody f.
Proof.
  intros (Hh & _ & _) [_ Hle] E (h & -> & Hl & Hd & _). unfold wire in *. rewrite <- !app_assoc in E.
  assert (Hn : u32 (zlen (frameBody f)) = zlen (frameBody f)).
  { apply u32_id. pose proof (zlen_nonneg (frameBody f)). unfold is_u32 in *. lia. }
  apply app_inj_1 in E as [-> E].
  2:{ rewrite header_length. unfold zlen, headerLen, headerSize, controlWordSize in *. destruct (streaming c); lia. }
  rewrite header_round in Hd; [|done|rewrite Hn; pose proof (zlen_nonneg (frameBody f)); unfold is_u32 in *; lia].
  injection Hd as <- Hb. rewrite Hn in Hb. apply app_inj_1 in E as [-> ->]; [done|]. unfold zlen in Hb. lia.
Qed.

Lemma made_is f f' : frame_fits f -> made (header_part f (streaming c)) (frameBody f) f' -> f' = carried f.
Proof.
  intros (_ & Hst & _). unfold made, carried, frameBody. simpl. destruct (CarriesStatusBody (Kind f)); [|done].
  intros (st & Hd & ->). do 2 f_equal. destruct (FStatus f) as [x|] eqn:Ex.
  - pose proof (encode_status_round x [] (Hst x eq_refl)) as Hr. rewrite app_nil_r, Hd in Hr. by injection Hr.
  - vm_compute in Hd. by injection Hd as <-.
Qed.

Lemma not_refused f : frame_fits f -> sendable f -> ~ refused (header_part f (streaming c)) (frameBody f).
Proof.
  intros (_ & Hst & _) [Hk _] [H|[Hc Hn]]; simpl in *; [done|]. unfold frameBody in Hn. rewrite Hc in Hn.
  destruct (FStatus f) as [x|].
  - apply (Hn x). rewrite <- (app_nil_r (EncodeStatus _)). by apply encode_status_round, Hst.
  - apply (Hn (mkStatus 0 [] [])). reflexivity.
Qed.

(** The stream a sender leaves. *)
Definition stream (sent : list Frame) (part : list Z) : Prop :=
  Forall frame_fits sent /\ Forall sendable sent /\
  (part = [] \/ exists g rest, frame_fits g /\ sendable g /\ wire g = part ++ rest /\ rest <> []).

Lemma stream_received ws sent part rest :
  stream sent part -> concat (wire <$> sent) ++ part = concat (fst <$> ws) ++ rest ->
  Forall (fun p : list Z * option Frame => exists f0 body, whole p.1 f0 body /\
    match p.2 with Some f => checkImplementedKind (Kind f0) = None /\ made f0 body f | None => refused f0 body end) ws ->
  omap snd ws = carried <$> take (length ws) sent /\ rest = concat (wire <$> drop (length ws) sent) ++ part.
Proof.
  intros Hs E Hw. revert sent Hs E. induction Hw as [|[w o] ws (f0 & body & Hwhole & Ho) _ IH]; intros sent (H1 & H2 & H3) E.
  { simpl in *. by rewrite drop_0. }
  simpl in E, Hwhole, Ho. rewrite <- app_assoc in E. destruct sent as [|f sent].
  - exfalso. simpl in E. destruct H3 as [->|(g & rest' & G1 & G2 & G3 & G4)].
    + destruct Hwhole as (h & -> & Hl & _). destruct h; [|done]. unfold headerLen in Hl. destruct (streaming c); discriminate.
    + assert (E2 : w ++ (concat ws.*1 ++ rest) ++ rest' = wire g ++ []) by (by rewrite app_nil_r, G3, E, app_assoc).
      destruct (whole_is g [] w _ f0 body G1 G2 E2 Hwhole) as (_ & Hnil & _). apply app_eq_nil in Hnil as [_ ?]. done.
  - apply Forall_cons in H1 as [F1 H1]. apply Forall_cons in H2 as [F2 H2].
    simpl in E. rewrite <- app_assoc in E. symmetry in E.
    destruct (whole_is f _ w _ f0 body F1 F2 E Hwhole) as (-> & E' & -> & ->). symmetry in E'.
    destruct (IH sent ltac:(done) E') as [I1 I2]. destruct o as [f'|]; [|by apply not_refused in Ho].
    destruct Ho as [_ Ho]. apply made_is in Ho as ->; [|done]. csimpl. rewrite I1. done.
Qed.
End loops.

(** ** Receive budgets *)

(** The scripts [s'] has left, [j] turns after [s]. *)
Definition turns (j : nat) (s s' : uds) : Prop := ticks s' = drop j (ticks s) /\ clock s' = drop j (clock s).

Lemma twp_closed Q s : (forall s', turns 0 s s' -> Q (closed s') s') -> twp load_closed Q s.
Proof.
  intros HQ. unfold twp, load_closed. destruct (closes s) as [|b l]; [by apply HQ|].
  by apply (HQ (with_closes l (with_closed (closed s || b) s))).
Qed.

Lemma twp_timeout rcv t Q s : (forall o s', turns 0 s s' -> Q o s') -> twp (setSocketTimeout rcv t) Q s.
Proof.
  intros HQ. unfold setSocketTimeout. set (d := match tRemaining t with Some r => _ | None => _ end).
  destruct (d <=? 0); [by apply twp_ret, HQ|]. apply twp_bind, twp_gets.
  destruct (rcv && (d =? lastRcvTimeout s)); [by apply twp_ret, HQ|]. destruct (tSockopt t); [by apply twp_ret, HQ|].
  apply twp_bind, twp_modify, twp_bind. destruct rcv; [apply twp_modify|apply twp_ret]; by apply twp_ret, HQ.
Qed.

Lemma turns_trans i j s1 s2 s3 : turns i s1 s2 -> turns j s2 s3 -> turns (i + j) s1 s3.
Proof. intros [A1 A2] [B1 B2]. split; by rewrite ?B1, ?B2, ?A1, ?A2, drop_drop. Qed.

(** With a reading past the deadline ahead, the loop returns before it. *)
Lemma twp_read_loop fuel d want k x (Q : list Z + error -> uds -> Prop) s :
  clock s !! k = Some x -> d <= x -> (k < length (ticks s))%nat -> (k < fuel)%nat ->
  (forall got s' j, turns j s s' -> (0 < j <= k)%nat -> got <> [] -> (length got <= want)%nat -> Q (inl got) s') ->
  (forall e s', Q (inr e) s') -> twp (read_loop fuel (Some d) want) Q s.
Proof.
  revert k s. induction fuel as [|fuel IH]; intros k s Hk Hd Ht Hf HQ HE; [lia|]. cbn [read_loop].
  apply twp_bind. unfold twp at 1, next_tick. destruct (ticks s) as [|t ticks'] eqn:Et; [simpl in Ht; lia|].
  set (s1 := with_ticks ticks' s). destruct (ctx_err (tCtx t)); [by apply twp_ret|].
  apply twp_bind, twp_closed. intros s2 [A1 A2]. simpl in A1, A2. destruct (closed s2); [by apply twp_ret|].
  apply twp_bind, twp_bind. unfold twp at 1, Now. rewrite A2. destruct (clock s) as [|t0 rest] eqn:Ecl; [done|].
  apply twp_ret. destruct (Z.ltb_spec t0 d) as [Hlt|]; cbn [negb]; [|by apply twp_ret].
  destruct k as [|k]; [simpl in Hk; simplify_eq; lia|]. simpl in Hk, Ht.
  set (s3 := with_clock rest s2). apply twp_bind, twp_timeout. intros o s4 [B1 B2]. simpl in B1, B2.
  destruct o as [e|]; [by apply twp_ret|].
  assert (Hs : turns 1 s s4) by (split; [rewrite B1, Et; simpl; by rewrite A1|rewrite B2, Ecl; done]).
  assert (Hnext : forall s5, turns 0 s4 s5 -> twp (read_loop fuel (Some d) want) Q s5).
  { intros s5 H5. assert (H15 := turns_trans _ _ _ _ _ Hs H5). destruct H15 as [C1 C2]. simpl in C1, C2.
    apply (IH k); [by rewrite C2, Ecl|done|rewrite C1, Et; simpl; rewrite drop_0; lia|lia| |done].
    intros got s' j Hj Hjk. apply (HQ got s' (1 + j)%nat); [|lia].
    eapply turns_trans; [|exact Hj]. split; by rewrite ?C1, ?C2. }
  assert (Hagain : twp (cl ← load_closed; if (cl : bool) then mret (inr [ErrClosed]) else read_loop fuel (Some d) want) Q s4).
  { apply twp_bind, twp_closed. intros s5 H5. destruct (closed s5); [by apply twp_ret|by apply Hnext]. }
  destruct (tAnswer t) as [n| | | |n]; auto.
  - apply twp_bind, twp_gets. destruct (Nat.eqb_spec (Nat.min (Nat.min want n) (length (inbound s4))) 0) as [E|E]; cbn [negb]; [done|].
    apply twp_bind. unfold twp, read_some. cbv zeta. apply (HQ _ _ 1%nat); [done|lia| |rewrite length_take; lia].
    intros Eg. apply (f_equal length) in Eg. rewrite length_take in Eg. simpl in Eg. lia.
  - by apply twp_ret.
  - apply Hnext. split; by rewrite drop_0.
  - apply twp_bind, twp_closed. intros s5 H5. destruct (closed s5); by apply twp_ret.
Qed.

Lemma twp_read d want k x (Q : list Z + error -> uds -> Prop) s :
  clock s !! k = Some x -> d <= x -> (k < length (ticks s))%nat ->
  (forall got s' j, turns j s s' -> (0 < j <= k)%nat -> got <> [] -> (length got <= want)%nat -> Q (inl got) s') ->
  (forall e s', Q (inr e) s') -> twp (Read (Some d) want) Q s.
Proof. intros Hk Hd Ht HQ HE. apply (twp_read_loop _ d want k x); auto. Qed.

Lemma turns_ahead k x j s s' :
  turns j s s' -> (j <= k)%nat -> clock s !! k = Some x -> (k < length (ticks s))%nat ->
  clock s' !! (k - j)%nat = Some x /\ (k - j < length (ticks s'))%nat.
Proof.
  intros [E1 E2] Hj Hk Ht. rewrite E2, lookup_drop, E1, length_drop. replace (j + (k - j))%nat with k by lia. split; [done|lia].
Qed.

Lemma twp_read_full fuel d n acc k x (Q : list Z * option error -> uds -> Prop) s :
  clock s !! k = Some x -> d <= x -> (k < length (ticks s))%nat -> (n <= fuel)%nat ->
  (forall got s' j, turns j s s' -> (j <= k)%nat -> Q (got, None) s') ->
  (forall got e s', Q (got, Some e) s') -> twp (read_full fuel (Some d) n acc) Q s.
Proof.
  revert n acc k s. induction fuel as [|fuel IH]; intros n acc k s Hk Hd Ht Hn HQ HE; destruct n as [|n]; try lia;
    try (apply twp_ret, (HQ _ _ 0%nat); [by split; rewrite drop_0|lia]).
  cbn [read_full]. apply twp_bind, (twp_read d (S n) k x); auto.
  - intros got s' j Hj Hjk Hne Hle. destruct (turns_ahead k x j s s' Hj ltac:(lia) Hk Ht) as [Hk' Ht'].
    apply (IH _ _ (k - j)%nat); auto.
    + destruct got; [done|]. simpl. lia.
    + intros got' s2 j2 Hj2 Hle2. apply (HQ _ _ (j + j2)%nat); [by eapply turns_trans|lia].
  - intros e s'. by apply twp_ret.
Qed.

Lemma twp_copy_discard fuel d n k x (Q : option error -> uds -> Prop) s :
  clock s !! k = Some x -> d <= x -> (k < length (ticks s))%nat -> (n <= fuel)%nat ->
  (forall r s', Q r s') -> twp (copy_discard fuel (Some d) n) Q s.
Proof.
  revert n k s. induction fuel as [|fuel IH]; intros n k s Hk Hd Ht Hn HQ; destruct n as [|n]; try lia; try (by apply twp_ret).
  cbn [copy_discard]. apply twp_bind, (twp_read d _ k x); auto.
  - intros got s' j Hj Hjk Hne Hle. destruct (turns_ahead k x j s s' Hj ltac:(lia) Hk Ht) as [Hk' Ht'].
    apply (IH _ (k - j)%nat); auto. destruct got; [done|]. simpl. lia.
  - intros e s'. by apply twp_ret.
Qed.

(** A budget that has been normalized. *)
Record budget_ok (b : ReceiveBudget) : Prop := {
  bu_slack : 0 < Slack b <= MaxInt64;
  bu_rate : 0 < MinRate b < 2 ^ 32;
  bu_clock : Clock b = true
}.

Lemma normalized_ok b : Slack b <= MaxInt64 -> is_u32 (MinRate b) -> budget_ok (normalized b).
Proof.
  intros Hs Hr. unfold is_u32 in Hr.
  constructor; unfold normalized; cbn [Slack MinRate Clock]; unfold DefaultReceiveSlack, MaxInt64 in *; [destruct (Z.leb_spec (Slack b) 0); lia| |done].
  destruct (Z.eqb_spec (MinRate b) 0); [vm_compute; by split|lia].
Qed.

(** The body stage's budget is computed without a wrap. *)
Lemma body_budget_exact b n :
  budget_ok b -> is_u32 n ->
  bodyBudget b n = Z.min MaxInt64 (Slack b + (n + MinRate b - 1) `div` MinRate b * (1000 * 1000 * 1000)).
Proof.
  intros [Hs Hr _] Hn. unfold bodyBudget, is_u32, MaxInt64 in *.
  assert (E1 : u64 (u64 (n + MinRate b) - 1) = n + MinRate b - 1) by (rewrite !u64_id; unfold is_u64; rewrite ?u64_id; unfold is_u64; lia).
  rewrite E1. set (q := (n + MinRate b - 1) `div` MinRate b).
  assert (Hq : 0 <= q < 2 ^ 32).
  { split; [apply Z.div_pos; lia|]. apply Z.div_lt_upper_bound; nia. }
  rewrite (u64_id (Slack b)) by (unfold is_u64; lia). rewrite (u64_id (q * _)) by (unfold is_u64; lia).
  rewrite u64_id by (unfold is_u64; lia). case_test; bool_to_prop; lia.
Qed.

Lemma body_budget_mono b n m : budget_ok b -> is_u32 n -> is_u32 m -> n <= m -> bodyBudget b n <= bodyBudget b m.
Proof.
  intros Hb Hn Hm Hle. rewrite !body_budget_exact by done. destruct Hb as [Hs Hr _].
  assert ((n + MinRate b - 1) `div` MinRate b <= (m + MinRate b - 1) `div` MinRate b) by (apply Z.div_le_mono; lia). lia.
Qed.

Section budgets.
Context (c : config).
Context (Hbudget : budget_ok (budget c)) (Hmax : is_u32 (maxFrame c)).

Lemma twp_abort e started Q s : (forall x s', Q x s') -> twp (abortFrame c e started) Q s.
Proof.
  intros HQ. unfold abortFrame. apply twp_bind, twp_closed. intros s1 _. destruct (closed s1); [by apply twp_ret|].
  destruct started; [|by apply twp_ret]. apply twp_bind, twp_gets, twp_bind.
  assert (Hend : forall s', twp (Close ≫= fun _ => mret (e ++ [ErrPoisoned])) Q s').
  { intros s'. apply twp_bind. unfold twp, Close. destruct (closed s'); apply HQ. }
  destruct (fatal s1); [apply twp_ret, Hend|]. apply twp_bind. destruct (observer c); [apply twp_modify|apply twp_ret]; apply twp_modify, Hend.
Qed.

Lemma twp_aborted e started Q s : (forall x s', Q x s') -> twp (aborted c e started) Q s.
Proof. intros HQ. apply twp_bind, twp_abort. intros x s'. by apply twp_ret. Qed.

Lemma twp_receive_body f n j t tj Q s :
  is_u32 n -> Forall is_byte (inbound s) ->
  clock s !! 0%nat = Some t -> clock s !! S j = Some tj -> t + bodyBudget (budget c) (maxFrame c) <= tj ->
  (S j <= length (ticks s))%nat -> (forall r s', Q r s') -> twp (receive_body c f n) Q s.
Proof.
  intros Hn Hb Ht Hj Hle Hlen HQ. unfold receive_body.
  destruct (Z.ltb_spec (maxFrame c) n) as [|Hnm]; [by apply twp_aborted|].
  unfold armBodyBudget. rewrite (bu_clock _ Hbudget). apply twp_bind, twp_bind. unfold twp at 1, Now.
  destruct (clock s) as [|t' rest] eqn:Ec; [done|]. injection Ht as ->. simpl in Hj. apply twp_ret.
  set (s1 := with_clock rest s). set (d := t + bodyBudget (budget c) n).
  assert (Hd : d <= tj).
  { unfold d. pose proof (body_budget_mono (budget c) n (maxFrame c) Hbudget Hn Hmax Hnm). lia. }
  destruct (Kind f =? FrameStreamChunk); [by apply twp_aborted|]. destruct (checkImplementedKind (Kind f)).
  - apply twp_bind, (twp_copy_discard _ d _ j tj); auto. intros [] s2; [by apply twp_aborted|by apply twp_ret].
  - apply twp_bind.
    assert (Hsound : wp (ReadFull (Some d) (Z.to_nat n)) (fun r s' => Forall is_byte (fst r)) s1).
    { apply wp_read_full; simpl; intros w s2; [intros A _|intros e A _ _]; simpl;
        change (inbound s) with (inbound s1) in Hb; rewrite (ad_in _ _ _ _ A) in Hb; by apply Forall_app in Hb as [? _]. }
    assert (Htot : twp (ReadFull (Some d) (Z.to_nat n)) (fun r s' => True) s1) by (by apply (twp_read_full _ d _ _ j tj)).
    unfold wp, twp in *. destruct (ReadFull (Some d) (Z.to_nat n) s1) as [s2 [body [e|]]| |]; [by apply twp_aborted| |done..].
    destruct (CarriesStatusBody (Kind f)); [|by apply twp_bind, twp_modify, twp_ret].
    pose proof (decode_status_spec body Hsound) as Hst. destruct (DecodeStatus body); [|by apply twp_ret|done].
    by apply twp_bind, twp_modify, twp_ret.
Qed.

(** Past its two deadlines a receive has returned. *)
Lemma receive_returns h t0 th s :
  Forall is_byte (inbound s) -> (length (clock s) <= length (ticks s))%nat ->
  clock s !! 0%nat = Some t0 -> clock s !! S h = Some th -> t0 + Slack (budget c) <= th ->
  (forall i ti, (i <= S h)%nat -> clock s !! i = Some ti ->
     exists j tj, (i < j)%nat /\ clock s !! j = Some tj /\ ti + bodyBudget (budget c) (maxFrame c) <= tj) ->
  twp (receive_frame c) (fun _ _ => True) s.
Proof.
  intros Hb Hlen H0 Hh Hle Hadv. unfold receive_frame, armHeaderBudget. rewrite (bu_clock _ Hbudget).
  apply twp_bind, twp_bind. unfold twp at 1, Now. destruct (clock s) as [|t' rest] eqn:Ec; [done|].
  injection H0 as ->. simpl in Hh, Hlen. apply twp_ret. set (s1 := with_clock rest s). set (d := t0 + Slack (budget c)).
  assert (Hlt := lookup_lt_Some _ _ _ Hh).
  apply twp_bind.
  assert (Hsound : wp (ReadFull (Some d) (Z.to_nat (headerLen c))) (fun r s' =>
    match r with (w, None) => zlen w = headerLen c /\ Forall is_byte w /\ Forall is_byte (inbound s') | _ => True end) s1).
  { apply wp_read_full; simpl; [|done]. intros w s2 A Hl. change (inbound s) with (inbound s1) in Hb.
    rewrite (ad_in _ _ _ _ A), Forall_app in Hb. destruct Hb. split_and!; auto.
    unfold zlen, headerLen, headerSize, controlWordSize in *. destruct (streaming c); lia. }
  assert (Htot : twp (ReadFull (Some d) (Z.to_nat (headerLen c))) (fun r s' =>
    match r with (_, None) => exists j, turns j s1 s' /\ (j <= h)%nat | _ => True end) s1).
  { apply (twp_read_full _ d _ _ h th); [done|done|simpl; lia|done|eauto|done]. }
  unfold wp in Hsound. unfold twp in Htot. unfold twp at 1.
  destruct (ReadFull (Some d) (Z.to_nat (headerLen c)) s1) as [s2 [hd [e|]]| |]; [by apply twp_aborted| |done..].
  destruct Hsound as (Hl & Hbh & Hb2), Htot as (j & [T1 T2] & Hj).
  destruct (decode_header_total hd (streaming c) Hl) as [[f n] E]. rewrite E. simpl in T1, T2.
  destruct (lookup_lt_is_Some_2 rest j ltac:(lia)) as [t1 Ht1].
  destruct (Hadv (S j) t1 ltac:(lia) Ht1) as (k & tk & Hk & Hck & Hlek).
  destruct k as [|k]; [lia|]. simpl in Hck. assert (Hkl := lookup_lt_Some _ _ _ Hck).
  apply (twp_receive_body f n (k - j - 1) t1 tk); [by apply (header_declares c hd f)|done| | |done| |done].
  - rewrite T2, lookup_drop. by replace (j + 0)%nat with j by lia.
  - rewrite T2, lookup_drop. by replace (j + S (k - j - 1))%nat with k by lia.
  - rewrite T1, length_drop. lia.
Qed.
End budgets.

(** ** Properties *)

(** A transport just built, over any peer and any scripts. *)
Record fresh (s : uds) : Prop := {
  fr_open : closed s = false /\ fatal s = false;
  fr_counts : sentCount s = 0 /\ recvCount s = 0;
  fr_out : outbound s = [];
  fr_log : log s = []
}.

Lemma fresh_history c ok s : fresh s -> history c ok (inbound s) [] [] s.
Proof.
  intros [[F1 F1'] [F2 F3] F4 F5]. constructor; auto.
  - exists []. rewrite F4. auto.
  - exists [], []. auto.
  - constructor; rewrite F5; [by rewrite F1', andb_false_r|]. intros n Hn. by rewrite lookup_nil in Hn.
Qed.

(** C4: framing survives everything.  Let one end send and receive any frames in
    any order, the peer write any bytes, reads and writes be cut anywhere,
    interrupted or failed, contexts expire and somebody close the transport at
    any moment.  No operation panics.  What was written is exactly the frames
    whose sends returned nil, in order, then at most a strict prefix of one
    frame, and then the transport is closed; what was read is whole frames, each
    returned or refused, then at most a part of one, and then the transport is
    closed.  The counters count the frames sent and received, and a poisoned
    connection has told its observer exactly once, before it closed. *)
Theorem uds_framing_kept c l s :
  fresh s -> Forall is_byte (inbound s) ->
  match run_ops c l s with
  | Ret s' rs => history c (fun f => OSend f ∈ l) (inbound s) (omap sent_of rs) (omap received_of rs) s'
  | Parks => True
  | Panics => False
  end.
Proof.
  intros Hs Hb. exact (wp_run_ops c (fun f => OSend f ∈ l) l (inbound s) [] [] s Hb (fun f H => H) (fresh_history c _ s Hs)).
Qed.

(** The outcome of each operation is what its error says.  A send returns nil
    having written its frame; an error whose acceptance is unknown means some
    bytes went out and the transport is closed; any other error means no byte
    went out, or that somebody closed the transport meanwhile; a never-published
    error means no byte went out.  A receive consumes one whole frame, which it
    returns or refuses with a frame-local error, or nothing, or closes the
    transport; a reservation is made at most once, after the readiness wait,
    before any byte is consumed, and always when one was.  A closed transport
    moves nothing. *)
Theorem uds_operation_outcomes c f ctx reserve s :
  Forall is_byte (inbound s) ->
  match Send c f s with
  | Ret s' r => send_post c f s r s' /\ (closed s = true -> r <> None /\ outbound s' = outbound s)
  | Parks => True
  | Panics => False
  end /\
  match recvCore c ctx reserve s with
  | Ret s' r => (exists w, recv_post c s w r s' /\ reserves reserve w s s') /\
      (closed s = true -> (exists e, r = inr e) /\ inbound s' = inbound s)
  | Parks => True
  | Panics => False
  end.
Proof. intros Hb. split; [exact (send_outcome c f s)|exact (recv_outcome c ctx reserve s Hb)]. Qed.

(** C5: frames cross the socket in order, unchanged and once each.  Let one end
    run any operations and the other run any operations over what the first has
    written, both with the same header shape and frame limit.  Then the frames
    received are a prefix of the frames whose sends returned nil, each with the
    fields the header and the body carry; while the receiver stays open the
    bytes it has not read are exactly the rest, so once it has read everything
    it has received all of them. *)
Theorem uds_delivers c1 c2 l1 l2 s1 s1' s2 s2' rs1 rs2 :
  streaming c2 = streaming c1 -> maxFrame c2 = maxFrame c1 -> is_u32 (maxFrame c1) ->
  fresh s1 -> Forall is_byte (inbound s1) -> (forall f, OSend f ∈ l1 -> frame_fits f) ->
  run_ops c1 l1 s1 = Ret s1' rs1 ->
  fresh s2 -> inbound s2 = outbound s1' -> run_ops c2 l2 s2 = Ret s2' rs2 ->
  exists k part,
    omap received_of rs2 = carried c1 <$> take k (omap sent_of rs1) /\
    (closed s1' = false -> part = []) /\
    (closed s2' = false -> inbound s2' = concat (wire c1 <$> drop k (omap sent_of rs1)) ++ part) /\
    (closed s2' = false -> inbound s2' = [] -> omap received_of rs2 = carried c1 <$> omap sent_of rs1).
Proof.
  intros Est Emx Hmx Hs1 Hb1 Hfit E1 Hs2 Ein E2.
  pose proof (wp_run_ops c1 frame_fits l1 (inbound s1) [] [] s1 Hb1 Hfit (fresh_history c1 _ s1 Hs1)) as H1.
  unfold wp in H1. rewrite E1 in H1. destruct H1 as [(part & Eo & Hsent & Hpart) _ _ _ _]. cbn [app] in *.
  assert (Hwire : forall f, wire c2 f = wire c1 f) by (intros f; unfold wire; by rewrite Est).
  assert (Hcarr : forall f, carried c2 f = carried c1 f) by (intros f; unfold carried; by rewrite Est).
  assert (Hsend : forall f, sendable c1 f -> sendable c2 f) by (intros f; unfold sendable; by rewrite Emx).
  set (sent := omap sent_of rs1) in *.
  assert (Hstr : stream c2 sent part).
  { split_and!; [by eapply Forall_impl; [exact Hsent|]; intros ? []|by eapply Forall_impl; [exact Hsent|]; intros ? []; auto|].
    destruct Hpart as [|(_ & g & rest & G1 & G2 & G3 & G4)]; [by left|right]. exists g, rest. rewrite Hwire. auto. }
  assert (Hbytes : Forall is_byte (inbound s2)).
  { rewrite Ein, Eo. apply Forall_app. split.
    - apply Forall_concat, Forall_fmap. eapply Forall_impl; [exact Hsent|]. intros f [Hf _]. by apply wire_bytes.
    - destruct Hpart as [->|(_ & g & rest & G1 & _ & G3 & _)]; [constructor|].
      apply (wire_bytes c1) in G1. rewrite G3 in G1. by apply Forall_app in G1 as [? _]. }
  pose proof (wp_run_ops c2 (fun f => OSend f ∈ l2) l2 (inbound s2) [] [] s2 Hbytes (fun f H => H) (fresh_history c2 _ s2 Hs2)) as H2.
  unfold wp in H2. rewrite E2 in H2. destruct H2 as [_ (ws & rp & Ei & Eg & Hws & Hrp) _ _ _]. cbn [app] in *.
  rewrite Ein, Eo in Ei. rewrite (list_fmap_ext (wire c1) (wire c2) sent) in Ei by (intros; by rewrite Hwire).
  destruct (stream_received c2 ltac:(by rewrite Emx) ws sent part (rp ++ inbound s2') Hstr Ei Hws) as [R1 R2].
  rewrite (list_fmap_ext (carried c2) (carried c1) (take (length ws) sent)) in R1 by (intros; apply Hcarr).
  rewrite (list_fmap_ext (wire c2) (wire c1) (drop (length ws) sent)) in R2 by (intros; apply Hwire).
  assert (Hrest : closed s2' = false -> inbound s2' = concat (wire c1 <$> drop (length ws) sent) ++ part).
  { intros Hc. destruct Hrp as [->|?]; [done|congruence]. }
  exists (length ws), part. rewrite Eg. split_and!; [done| |done|].
  - intros Hc. destruct Hpart as [|[? _]]; [done|congruence].
  - intros Hc He. rewrite R1. rewrite (Hrest Hc) in He. apply app_eq_nil in He as [He _].
    destruct (drop (length ws) sent) as [|f tl] eqn:Ed.
    + by rewrite <- (take_drop (length ws) sent), Ed, app_nil_r, take_idemp.
    + rewrite fmap_cons in He. cbn [concat] in He. apply app_eq_nil in He as [He _]. by apply wire_nonempty in He.
Qed.

(** A receive budget bounds a receive.  The body stage's budget is the slack
    plus the ceiling of the declared size over the rate, saturated at the largest
    duration and never wrapped.  With a budget in force, a receive that has begun
    to read returns, whatever the socket answers or fails to answer: it is enough
    that the clock passes the header stage's deadline and, after each instant up
    to then, the largest body stage's; it needs no more polls than readings. *)
Theorem receive_budget_bounds c h t0 th s :
  budget_ok (budget c) -> is_u32 (maxFrame c) -> Forall is_byte (inbound s) ->
  (length (clock s) <= length (ticks s))%nat ->
  clock s !! 0%nat = Some t0 -> clock s !! S h = Some th -> t0 + Slack (budget c) <= th ->
  (forall i ti, (i <= S h)%nat -> clock s !! i = Some ti ->
     exists j tj, (i < j)%nat /\ clock s !! j = Some tj /\ ti + bodyBudget (budget c) (maxFrame c) <= tj) ->
  (forall n, is_u32 n -> bodyBudget (budget c) n =
     Z.min MaxInt64 (Slack (budget c) + (n + MinRate (budget c) - 1) `div` MinRate (budget c) * (1000 * 1000 * 1000))) /\
  exists s' r, receive_frame c s = Ret s' r.
Proof.
  intros Hb Hmx Hby Hlen H0 Hh Hle Hadv. split; [intros n Hn; by apply body_budget_exact|].
  pose proof (receive_returns c Hb Hmx h t0 th s Hby Hlen H0 Hh Hle Hadv) as H. unfold twp in H.
  destruct (receive_frame c s) as [s' r| |]; [eauto|done..].
Qed.

(** ** Witnesses *)

Definition sample_uds : config := mkConfig true 64 (mkBudget 0 0 false) true.
Definition ok_tick (a : answer) : tick := mkTick CtxLive None None a.

Definition sample_req : Frame := mkFrame 7 FrameUnaryReq 5 6 1000 [1; 2; 3] None 0.
Definition sample_err : Frame := mkFrame 8 FrameUnaryErr 5 6 0 [] (Some (mkStatus 3 [104] [])) 0.

Definition sample_state (inb : list Z) (ts : list tick) (ck : list Z) : uds :=
  mkUds false false pollInterval 0 0 0 0 inb [] ts ck [] [].

(** Two frames go out in short writes, a third is cut by its context. *)
Definition sample_sends : list op := [OSend sample_req; OSend sample_err; OSend sample_req].
Definition sample_writes : list tick :=
  [ok_tick (Moved 20); ok_tick EAGAIN; ok_tick (Moved 64); ok_tick (Moved 3); ok_tick (Moved 64); ok_tick EINTR;
   ok_tick (Moved 64); ok_tick (Moved 10); mkTick CtxCancelled None None (Moved 1)].

(** Four receives, read in other pieces; the last finds the torn frame. *)
Definition sample_recvs : list op := [ORecv CtxLive true; ORecv CtxLive false; ORecv CtxLive false; ORecv CtxLive false].
Definition sample_reads : list tick :=
  [ok_tick EAGAIN; ok_tick (Moved 1); ok_tick (Moved 40); ok_tick EINTR; ok_tick (Moved 40); ok_tick (Moved 40);
   ok_tick (Moved 45); ok_tick (Moved 13); ok_tick (Moved 45); ok_tick PeerClosed].

Lemma sample_state_fresh inb ts ck : fresh (sample_state inb ts ck).
Proof. by constructor. Qed.

Definition sample_sent : run uds (list result) := run_ops sample_uds sample_sends (sample_state [] sample_writes []).
Definition written : list Z := match sample_sent with Ret s _ => outbound s | _ => [] end.
Definition sample_received : run uds (list result) := run_ops sample_uds sample_recvs (sample_state written sample_reads []).

Lemma uds_framing_kept_witness :
  match sample_sent with
  | Ret s' rs => history sample_uds (fun f => OSend f ∈ sample_sends) [] (omap sent_of rs) (omap received_of rs) s' /\
      omap sent_of rs = [sample_req; sample_err]
  | _ => False
  end.
Proof.
  pose proof (uds_framing_kept sample_uds sample_sends (sample_state [] sample_writes []) (sample_state_fresh _ _ _) (Forall_nil_2 _)) as H.
  assert (E : match sample_sent with Ret _ rs => omap sent_of rs | _ => [] end = [sample_req; sample_err]) by (vm_compute; reflexivity).
  unfold sample_sent in *.
  destruct (run_ops sample_uds sample_sends (sample_state [] sample_writes [])) as [s' rs| |]; [|discriminate E..]. exact (conj H E).
Defined.

Lemma uds_operation_outcomes_witness :
  exists s' r, Send sample_uds sample_req (sample_state [] sample_writes []) = Ret s' r /\
    send_post sample_uds sample_req (sample_state [] sample_writes []) r s'.
Proof.
  destruct (uds_operation_outcomes sample_uds sample_req CtxLive false (sample_state [] sample_writes []) (Forall_nil_2 _)) as [H _].
  assert (E : match Send sample_uds sample_req (sample_state [] sample_writes []) with Ret _ _ => true | _ => false end = true)
    by (vm_compute; reflexivity).
  destruct (Send sample_uds sample_req (sample_state [] sample_writes [])) as [s' r| |]; [|discriminate E..].
  exists s', r. split; [reflexivity|apply H].
Defined.

Lemma sample_fits f : OSend f ∈ sample_sends -> frame_fits f.
Proof.
  assert (H1 : frame_fits sample_req).
  { split; [|split]; [unfold header_ok, is_u64, is_byte, is_i64; simpl; unfold FrameUnaryReq, FrameUnaryErr; lia|discriminate|apply bytes_ok_Forall; vm_compute; reflexivity]. }
  assert (H2 : frame_fits sample_err).
  { split; [|split]; [unfold header_ok, is_u64, is_byte, is_i64; simpl; unfold FrameUnaryReq, FrameUnaryErr; lia| |apply bytes_ok_Forall; vm_compute; reflexivity].
    intros st [= <-]. unfold status_ok, is_u32, zlen. simpl. split_and!; auto; lia. }
  unfold sample_sends. rewrite !elem_of_cons. intros [[= ->]|[[= ->]|[[= ->]|H%not_elem_of_nil]]]; done.
Qed.

Lemma sample_limit : is_u32 (maxFrame sample_uds).
Proof. vm_compute. split; congruence. Qed.

Lemma uds_delivers_witness :
  match sample_sent, sample_received with
  | Ret s1 rs1, Ret s2 rs2 => omap received_of rs2 = [sample_req; sample_err] /\
      exists k, omap received_of rs2 = carried sample_uds <$> take k (omap sent_of rs1)
  | _, _ => False
  end.
Proof.
  assert (E : match sample_received with Ret _ rs => omap received_of rs | _ => [] end = [sample_req; sample_err]) by (vm_compute; reflexivity).
  assert (E0 : match sample_sent with Ret _ _ => true | _ => false end = true) by (vm_compute; reflexivity).
  unfold sample_received, sample_sent in *.
  destruct (run_ops sample_uds sample_sends (sample_state [] sample_writes [])) as [s1 rs1| |] eqn:E1; [|discriminate E0..].
  assert (Ew : written = outbound s1) by (unfold written, sample_sent; rewrite E1; reflexivity).
  destruct (run_ops sample_uds sample_recvs (sample_state written sample_reads [])) as [s2 rs2| |] eqn:E2; [|discriminate E..].
  split; [exact E|].
  destruct (uds_delivers sample_uds sample_uds sample_sends sample_recvs (sample_state [] sample_writes []) s1
    (sample_state written sample_reads []) s2 rs1 rs2 eq_refl eq_refl sample_limit (sample_state_fresh _ _ _) (Forall_nil_2 _)
    sample_fits E1 (sample_state_fresh _ _ _) Ew E2) as (k & part & Hk & _).
  exists k. exact Hk.
Defined.

(** A peer that never writes. *)
Definition sample_budgeted : config := mkConfig true 64 (normalized (mkBudget 0 0 false)) false.
Definition sample_stalled : uds :=
  sample_state [] (replicate 4 (ok_tick EAGAIN)) [0; 40 * 10 ^ 9; 80 * 10 ^ 9; 120 * 10 ^ 9].

Lemma receive_budget_bounds_witness :
  bodyBudget (budget sample_budgeted) 64 = 31 * 10 ^ 9 /\
  exists s' r, receive_frame sample_budgeted sample_stalled = Ret s' r.
Proof.
  split; [vm_compute; reflexivity|].
  apply (receive_budget_bounds sample_budgeted 0 0 (40 * 10 ^ 9) sample_stalled);
    [apply normalized_ok; vm_compute; [congruence|split; congruence]|vm_compute; split; congruence|constructor|simpl; lia
    |reflexivity|reflexivity|vm_compute; congruence|].
  intros [|[|i]] ti Hi Ht; [|  |lia]; injection Ht as <-.
  - exists 1%nat, (40 * 10 ^ 9). split; [lia|]. split; [reflexivity|]. vm_compute. congruence.
  - exists 2%nat, (80 * 10 ^ 9). split; [lia|]. split; [reflexivity|]. vm_compute. congruence.
Defined.
End Uds.
