(* ===== verification/StreamCore.v ===== *)
(** * Streams: data and operations
    (src/internal/rpcruntime/stream.go, stream_table.go, stream_teardown.go,
    chunk_send.go, chunk_recv.go, chunk_policy.go)

    A connection's streams: the per-stream words, credit, sequence and
    reassembly state, and the connection-wide table with its arming queue,
    emitter queue and obligation accounting.

    A stream method runs on a [StreamTable * Stream] (the table and the stream
    it is called on); a table method runs on the table and the heap of stream
    objects, which outlive their table entry.  Each method runs without
    interference here; the interleavings of its shared accesses are in the
    files that prove the protocol theorems.  What a method cannot decide itself
    is an input: [answers] lists what the transport's [Send] returns (and what
    the contexts say by then), a blocking call resumes in a state given to it,
    and the clock is a field.  Test seams (the [before...]/[after...] hooks) and
    failpoints, which are nil or compiled away in a normal build, are not
    modelled. *)

From stdpp Require Import gmap.
From S2P Require Import Prelude CreditFlow LeaseTable TransportFrame.
Import Frames.

Module Streams.

Inductive StreamSide := ClientStream | ServerStream.
Inductive StreamShape := ClientStreaming | ServerStreaming | BidiStreaming.

Inductive StreamOutcomeCode :=
| OutcomeCompleted | OutcomeCanceled | OutcomeDeadlineExceeded | OutcomePeerError | OutcomeCrashed.

#[global] Instance StreamOutcomeCode_eq_dec : EqDecision StreamOutcomeCode.
Proof. solve_decision. Defined.

Record StreamOutcome := mkOutcome { OCode : StreamOutcomeCode; OErr : option error }.

(** [ParentCtx] is not a field: the stream's context is the [ctxErr] of the
    stream, set by whoever ends it. *)
Record StreamConfig := mkConfig {
  Credits : Z; Deadline : Z; CService : Z; CMethod : Z; Shape : StreamShape; OpenPayload : list Z
}.

Definition StatusCodeStreamCanceled : Z := 0xFFFFFF04.
Definition StatusCodeStreamDeadlineExceeded : Z := 0xFFFFFF05.
Definition StatusCodeStreamIncompatible : Z := 0xFFFFFF06.
Definition StatusCodeStreamBackpressure : Z := 0xFFFFFF07.

Definition defaultStreamCredit : Z := 16.
(* nanoseconds *)
Definition ackBackoffInitial : Z := 250 * 1000.
Definition ackBackoffMax : Z := 32 * 1000 * 1000.
Definition chunkRetryInitial : Z := 100 * 1000.
Definition chunkRetryMax : Z := 8 * 1000 * 1000.

Inductive phase_word :=
| streamSubmitted | streamPublished
| streamTermCompleted | streamTermCanceled | streamTermDeadline | streamTermPeerError | streamTermCrashed.
Inductive token_word := tokenIdle | tokenACKOutstanding | tokenCancelOwed | tokenTerminal.
Inductive close_state := closeSendIdle | closeSendPublishing | closeSendClosed.

#[global] Instance phase_word_eq_dec : EqDecision phase_word.
Proof. solve_decision. Defined.
#[global] Instance token_word_eq_dec : EqDecision token_word.
Proof. solve_decision. Defined.
#[global] Instance close_state_eq_dec : EqDecision close_state.
Proof. solve_decision. Defined.

Definition terminalPhaseFor (c : StreamOutcomeCode) : phase_word :=
  match c with
  | OutcomeCompleted => streamTermCompleted
  | OutcomeCanceled => streamTermCanceled
  | OutcomeDeadlineExceeded => streamTermDeadline
  | OutcomePeerError => streamTermPeerError
  | OutcomeCrashed => streamTermCrashed
  end.

Definition terminalOutcomeOf (p : phase_word) : option StreamOutcomeCode :=
  match p with
  | streamTermCompleted => Some OutcomeCompleted
  | streamTermCanceled => Some OutcomeCanceled
  | streamTermDeadline => Some OutcomeDeadlineExceeded
  | streamTermPeerError => Some OutcomePeerError
  | streamTermCrashed => Some OutcomeCrashed
  | streamSubmitted | streamPublished => None
  end.

Definition closeLocalBit : Z := Z.shiftl 1 0.
Definition closeRemoteBit : Z := Z.shiftl 1 1.

Record ChunkPolicy := mkPolicy { Active : bool; Ceiling : Z; SendInline : Z; RecvInline : Z }.
Definition no_chunking : ChunkPolicy := mkPolicy false 0 0 0.

(** The concrete transports [ChunkPolicyFor] distinguishes, with their two
    directional limits. *)
Inductive transport_limits :=
| ShmTransport (maxSend maxRecv : Z)
| BurstTransport (inlineMax inboundInlineMax : Z)
| OtherTransport.

Definition ChunkPolicyFor (tr : transport_limits) (active : bool) (ceiling : Z) : ChunkPolicy :=
  if negb active || (ceiling =? 0) then no_chunking else
  match tr with
  | ShmTransport snd rcv => mkPolicy true ceiling snd rcv
  | BurstTransport snd rcv => mkPolicy true ceiling snd rcv
  | OtherTransport => no_chunking
  end.

Record recvItem := mkItem { ipayload : list Z; credited : bool }.

Record emitJob := mkJob { jCallID : Z; jstatus : FrameStatus; reject : bool; keepObligation : bool }.

(** What one [Send] returns, and what the caller sees right after it: whether
    the stream's own deadline passed meanwhile, the caller's [ctx.Err()], and
    (for a rejected fragment) what ended the wait before the retry. *)
Record answer := mkAnswer {
  ans : option error; expired : bool; caller : option error; retry : option error
}.
Definition accepted : answer := mkAnswer None false None None.

(** [self] is the object's identity; [deadline] and [backoff] are
    nanoseconds; a Go channel that is only ever closed ([recvClosed], [done]) is
    a bool, and [sendWake] is a one-slot channel. *)
Record Stream := mkStream {
  self : nat;
  callID : Z;
  side : StreamSide;
  service : Z;
  method : Z;
  deadline : Z;
  ctxErr : option error;
  phase : phase_word;
  closeBits : Z;
  token : token_word;
  teardownCode : Z;
  watcherStarted : bool;
  owedTeardownEmitted : bool;
  openSendPending : bool;
  sendCredit : Credit.creditCounter;
  sendSeq : Z;
  sendClosed : bool;
  sendWake : bool;
  sendCloseState : close_state;
  recvCredit : Credit.creditCounter;
  recvCh : list recvItem;
  recvCap : Z;
  expectedSeq : Z;
  recvAccum : list Z;
  recvClosed : bool;
  armed : bool;
  deferred : bool;
  backoff : Z;
  handlerErrStatus : option FrameStatus;
  done : bool;
  outcome : StreamOutcome
}.

Definition eta_stream (s : Stream) : Stream :=
  mkStream (self s) (callID s) (side s) (service s) (method s) (deadline s) (ctxErr s) (phase s)
    (closeBits s) (token s) (teardownCode s) (watcherStarted s) (owedTeardownEmitted s)
    (openSendPending s) (sendCredit s) (sendSeq s) (sendClosed s) (sendWake s) (sendCloseState s)
    (recvCredit s) (recvCh s) (recvCap s) (expectedSeq s) (recvAccum s) (recvClosed s) (armed s)
    (deferred s) (backoff s) (handlerErrStatus s) (done s) (outcome s).

Definition set_ctxErr (x : option error) (s : Stream) : Stream := ltac:(update_field eta_stream s ctxErr x).
Definition set_phase (x : phase_word) (s : Stream) : Stream := ltac:(update_field eta_stream s phase x).
Definition set_closeBits (x : Z) (s : Stream) : Stream := ltac:(update_field eta_stream s closeBits x).
Definition set_token (x : token_word) (s : Stream) : Stream := ltac:(update_field eta_stream s token x).
Definition set_teardownCode (x : Z) (s : Stream) : Stream := ltac:(update_field eta_stream s teardownCode x).
Definition set_watcherStarted (x : bool) (s : Stream) : Stream := ltac:(update_field eta_stream s watcherStarted x).
Definition set_owedTeardownEmitted (x : bool) (s : Stream) : Stream := ltac:(update_field eta_stream s owedTeardownEmitted x).
Definition set_openSendPending (x : bool) (s : Stream) : Stream := ltac:(update_field eta_stream s openSendPending x).
Definition set_sendCredit (x : Credit.creditCounter) (s : Stream) : Stream := ltac:(update_field eta_stream s sendCredit x).
Definition set_sendSeq (x : Z) (s : Stream) : Stream := ltac:(update_field eta_stream s sendSeq x).
Definition set_sendClosed (x : bool) (s : Stream) : Stream := ltac:(update_field eta_stream s sendClosed x).
Definition set_sendWake (x : bool) (s : Stream) : Stream := ltac:(update_field eta_stream s sendWake x).
Definition set_sendCloseState (x : close_state) (s : Stream) : Stream := ltac:(update_field eta_stream s sendCloseState x).
Definition set_recvCredit (x : Credit.creditCounter) (s : Stream) : Stream := ltac:(update_field eta_stream s recvCredit x).
Definition set_recvCh (x : list recvItem) (s : Stream) : Stream := ltac:(update_field eta_stream s recvCh x).
Definition set_expectedSeq (x : Z) (s : Stream) : Stream := ltac:(update_field eta_stream s expectedSeq x).
Definition set_recvAccum (x : list Z) (s : Stream) : Stream := ltac:(update_field eta_stream s recvAccum x).
Definition set_recvClosed (x : bool) (s : Stream) : Stream := ltac:(update_field eta_stream s recvClosed x).
Definition set_armed (x : bool) (s : Stream) : Stream := ltac:(update_field eta_stream s armed x).
Definition set_deferred (x : bool) (s : Stream) : Stream := ltac:(update_field eta_stream s deferred x).
Definition set_backoff (x : Z) (s : Stream) : Stream := ltac:(update_field eta_stream s backoff x).
Definition set_handlerErrStatus (x : option FrameStatus) (s : Stream) : Stream := ltac:(update_field eta_stream s handlerErrStatus x).
Definition set_done (x : bool) (s : Stream) : Stream := ltac:(update_field eta_stream s done x).
Definition set_outcome (x : StreamOutcome) (s : Stream) : Stream := ltac:(update_field eta_stream s outcome x).

Section with_sink.
Context {K : Type} `{!ObligationSink K}.

(** [armQueue] is the intrusive list by object identity, [fatalErr] is set
    exactly when [fatalCh] is closed, [obligations] is [None] for a nil sink;
    [timers] and [wire] are histories: the durations of the timers started and
    the frames given to [Send] with its answers. *)
Record StreamTable := mkTable {
  maxOpen : Z;
  streams : gmap Z nat;
  closed : bool;
  connDone : bool;
  stopped : bool;
  finishers : Z;
  armQueue : list nat;
  emitCh : list emitJob;
  emitCap : Z;
  emitReserve : Z;
  fatalErr : option error;
  drained : bool;
  discarded : Z;
  obligations : option K;
  chunkPolicy : ChunkPolicy;
  clock : Z;
  timers : list Z;
  wire : list (Frame * option error);
  answers : list answer
}.

Definition eta_table (t : StreamTable) : StreamTable :=
  mkTable (maxOpen t) (streams t) (closed t) (connDone t) (stopped t) (finishers t) (armQueue t)
    (emitCh t) (emitCap t) (emitReserve t) (fatalErr t) (drained t) (discarded t) (obligations t)
    (chunkPolicy t) (clock t) (timers t) (wire t) (answers t).

Definition set_streams (x : gmap Z nat) (t : StreamTable) : StreamTable := ltac:(update_field eta_table t streams x).
Definition set_closed (x : bool) (t : StreamTable) : StreamTable := ltac:(update_field eta_table t closed x).
Definition set_connDone (x : bool) (t : StreamTable) : StreamTable := ltac:(update_field eta_table t connDone x).
Definition set_stopped (x : bool) (t : StreamTable) : StreamTable := ltac:(update_field eta_table t stopped x).
Definition set_finishers (x : Z) (t : StreamTable) : StreamTable := ltac:(update_field eta_table t finishers x).
Definition set_armQueue (x : list nat) (t : StreamTable) : StreamTable := ltac:(update_field eta_table t armQueue x).
Definition set_emitCh (x : list emitJob) (t : StreamTable) : StreamTable := ltac:(update_field eta_table t emitCh x).
Definition set_fatalErr (x : option error) (t : StreamTable) : StreamTable := ltac:(update_field eta_table t fatalErr x).
Definition set_drained (x : bool) (t : StreamTable) : StreamTable := ltac:(update_field eta_table t drained x).
Definition set_discarded (x : Z) (t : StreamTable) : StreamTable := ltac:(update_field eta_table t discarded x).
Definition set_obligations (x : option K) (t : StreamTable) : StreamTable := ltac:(update_field eta_table t obligations x).
Definition set_timers (x : list Z) (t : StreamTable) : StreamTable := ltac:(update_field eta_table t timers x).
Definition set_wire (x : list (Frame * option error)) (t : StreamTable) : StreamTable := ltac:(update_field eta_table t wire x).
Definition set_answers (x : list answer) (t : StreamTable) : StreamTable := ltac:(update_field eta_table t answers x).

(** ** Stream methods *)

Abbreviation sprog := (prog (StreamTable * Stream)).
Abbreviation tprog := (prog StreamTable).

Definition sget {A} (f : Stream -> A) : sprog A := fun '(t, s) => Ret (t, s) (f s).
Definition sput (f : Stream -> Stream) : sprog unit := fun '(t, s) => Ret (t, f s) tt.
Definition tget {A} (f : StreamTable -> A) : sprog A := fun '(t, s) => Ret (t, s) (f t).
Definition tput (f : StreamTable -> StreamTable) : sprog unit := fun '(t, s) => Ret (f t, s) tt.

(** A table method called from a stream method. *)
Definition on_table {A} (m : tprog A) : sprog A := fun '(t, s) =>
  match m t with Ret t a => Ret (t, s) a | Panics => Panics | Parks => Parks end.

(** *** The table's own operations *)

Definition openObligation (i : Z) (t : StreamTable) : StreamTable :=
  set_obligations (OpenObligation i <$> obligations t) t.
Definition closeObligation (i : Z) (t : StreamTable) : StreamTable :=
  set_obligations (CloseObligation i <$> obligations t) t.

Definition remove (i : Z) (t : StreamTable) : StreamTable := set_streams (delete i (streams t)) t.

Definition appendArm (r : nat) (t : StreamTable) : StreamTable := set_armQueue (armQueue t ++ [r]) t.

Definition popArm (t : StreamTable) : StreamTable * option nat :=
  match armQueue t with
  | [] => (t, None)
  | r :: q => (set_armQueue q t, Some r)
  end.

Definition next_answer (t : StreamTable) : answer :=
  match answers t with a :: _ => a | [] => accepted end.

Definition Send (f : Frame) : tprog answer := fun t =>
  let a := next_answer t in
  Ret (set_answers (tail (answers t)) (set_wire (wire t ++ [(f, ans a)]) t)) a.

Definition enqueueEmit (j : emitJob) : tprog bool := fun t =>
  if reject j && (emitCap t - emitReserve t <=? zlen (emitCh t)) then Ret t false else
  if zlen (emitCh t) <? emitCap t then Ret (set_emitCh (emitCh t ++ [j]) t) true
  else Ret t false.

Definition emitStreamErr (i : Z) (st : FrameStatus) (rej : bool) : tprog bool :=
  enqueueEmit (mkJob i st rej false).
Definition emitTeardownErrKeepObligation (i : Z) (st : FrameStatus) : tprog unit :=
  _ ← enqueueEmit (mkJob i st false true); mret tt.

Definition isClosing (t : StreamTable) : bool := closed t.
Definition MarkClosing (t : StreamTable) : StreamTable := set_closed true t.

Definition failConn (e : error) (t : StreamTable) : StreamTable :=
  match fatalErr t with Some _ => t | None => set_fatalErr (Some e) t end.

Definition failIfConnLive (e : error) (t : StreamTable) : StreamTable :=
  if connDone t then t else if isClosing t then t else failConn e t.

Definition onCancelPublishFailed (e : error) (t : StreamTable) : StreamTable := failIfConnLive e t.

Definition emitOwedTeardownErr (i : Z) (st : FrameStatus) : tprog unit :=
  ok ← enqueueEmit (mkJob i st false false);
  if ok : bool then mret tt else modify (failIfConnLive [ErrOwedTeardownDropped]).

Definition EmitReject (i code : Z) : tprog unit :=
  _ ← emitStreamErr i (mkStatus code [] []) true; mret tt.

Definition addFinisher : tprog bool := fun t =>
  if closed t then Ret t false else Ret (set_finishers (finishers t + 1) t) true.

(** [WaitGroup.Done] panics below zero. *)
Definition finisherDone : tprog unit := fun t =>
  if finishers t <=? 0 then Panics else Ret (set_finishers (finishers t - 1) t) tt.

(** *** State words *)

Definition isLive (s : Stream) : bool :=
  match phase s with streamSubmitted | streamPublished => true | _ => false end.

Definition Outcome (s : Stream) : option StreamOutcome :=
  if done s then Some (outcome s) else
  match terminalOutcomeOf (phase s) with Some _ => Some (outcome s) | None => None end.

Definition terminalErr (s : Stream) : option error :=
  if isLive s then None else
  match Outcome s with Some oc => OErr oc | None => None end.

Definition recordedOutcomeErr (oc : StreamOutcome) (fallback : error) : error :=
  match OErr oc with Some e => e | None => fallback end.

Definition deliveredErr (s : Stream) : error :=
  match OErr (outcome s) with Some e => e | None => [ErrCanceledLocally] end.

Definition recvErr (s : Stream) : error :=
  match OCode (outcome s) with
  | OutcomeCompleted => [EOF]
  | _ => match OErr (outcome s) with Some e => e | None => [EOF] end
  end.

Definition isRollbackEligible (e : error) : bool := NeverPublished (Some e).

Definition SendClosed (s : Stream) : bool := sendClosed s.
Definition WatcherStarted (s : Stream) : bool := watcherStarted s.

Definition Publish : sprog bool := fun '(t, s) =>
  match phase s with
  | streamSubmitted => Ret (t, set_phase streamPublished s) true
  | _ => Ret (t, s) false
  end.

Definition ConfirmOpenSent : sprog bool := fun '(t, s) =>
  match phase s with
  | streamPublished => Ret (t, set_openSendPending false s) true
  | _ => Ret (t, s) false
  end.

Definition beginDeadlineWatch (s : Stream) : Stream := set_watcherStarted true s.
Definition StartDeadlineWatcher (s : Stream) : Stream := beginDeadlineWatch s.

(** [s.cancelCtx()]: the first cause stands. *)
Definition cancelCtx (s : Stream) : Stream :=
  match ctxErr s with Some _ => s | None => set_ctxErr (Some [CtxCanceled]) s end.

(** The deadline passes. *)
Definition expire (s : Stream) : Stream :=
  match ctxErr s with Some _ => s | None => set_ctxErr (Some [CtxDeadlineExceeded]) s end.

Definition setCloseBit (bit : Z) (s : Stream) : Stream * bool :=
  if Z.land (closeBits s) bit =? 0 then (set_closeBits (Z.lor (closeBits s) bit) s, true)
  else (s, false).

Definition bothClosed (s : Stream) : bool :=
  Z.land (closeBits s) (Z.lor closeLocalBit closeRemoteBit) =? Z.lor closeLocalBit closeRemoteBit.

Definition remoteClosed (s : Stream) : bool := negb (Z.land (closeBits s) closeRemoteBit =? 0).

Definition arm : sprog unit := fun '(t, s) =>
  if deferred s then Ret (t, s) tt else
  if armed s then Ret (t, s) tt else
  Ret (appendArm (self s) t, set_armed true s) tt.

Definition notifySend (s : Stream) : Stream := set_sendWake true s.

Definition discardRecvAccum (s : Stream) : Stream := set_recvAccum [] s.

(** *** The terminal transition *)

Fixpoint cas_phase (target : phase_word) (from : list phase_word) (s : Stream) : option Stream :=
  match from with
  | [] => None
  | src :: from =>
      if decide (phase s = src) then Some (set_phase target s) else cas_phase target from s
  end.

Definition casTerminal (oc : StreamOutcome) (code : Z) (from : list phase_word) : sprog (bool * bool) :=
  fun '(t, s) =>
  match cas_phase (terminalPhaseFor (OCode oc)) from s with
  | None => Ret (t, s) (false, false)
  | Some s =>
      let s := discardRecvAccum (set_teardownCode code (set_outcome oc s)) in
      Ret (set_finishers (finishers t + 1) t, s) (true, openSendPending s)
  end.

(** The loop retries only when an acknowledgement resolved in between; alone,
    it either succeeds at once or spins on a token that is already spent. *)
Definition claimTerminalToken (needCancel : bool) : sprog bool := fun '(t, s) =>
  match token s with
  | tokenIdle => Ret (t, set_token tokenTerminal s) needCancel
  | tokenACKOutstanding =>
      Ret (t, set_token (if needCancel then tokenCancelOwed else tokenTerminal) s) false
  | tokenCancelOwed | tokenTerminal => Parks
  end.

Definition sendTeardownCancel : sprog unit :=
  s ← sget id;
  a ← on_table (Send (mkFrame (callID s) FrameCancel 0 0 0 [] None (teardownCode s)));
  match ans a with
  | None => mret tt
  | Some e => tput (onCancelPublishFailed e)
  end.

Definition emitTeardownErr (keep : bool) : sprog unit :=
  s ← sget id;
  let st := mkStatus (teardownCode s) [] [] in
  if keep then on_table (emitTeardownErrKeepObligation (callID s) st)
  else _ ← on_table (emitStreamErr (callID s) st false); mret tt.

(** [close(s.done)]: closing a closed channel panics. *)
Definition closeDone : sprog unit := fun '(t, s) =>
  if done s then Panics else Ret (t, set_done true s) tt.

(** The data-lane frame of the pair, or a handler error's frame; the result
    says whether closing the obligation is left to the acknowledgement holder or
    to the emitter. *)
Definition emit_terminal (locallyInitiated toAck : bool) : sprog bool :=
  if locallyInitiated then emitTeardownErr toAck ;; mret toAck else
  s ← sget id;
  match handlerErrStatus s with
  | Some st => toEmitter ← on_table (emitStreamErr (callID s) st false); mret (toAck || toEmitter)
  | None => mret toAck
  end.

Definition claim_and_emit (locallyInitiated : bool) : sprog bool :=
  now ← claimTerminalToken locallyInitiated;
  toAck ← (if now : bool then sendTeardownCancel ;; mret false else mret locallyInitiated);
  emit_terminal locallyInitiated toAck.

Definition close_unless (dfr : bool) (i : Z) : sprog unit :=
  if dfr then mret tt else tput (closeObligation i).

Definition finishTerminal (locallyInitiated presend : bool) : sprog unit :=
  sput cancelCtx ;;
  dfr ← (if presend then mret false else claim_and_emit locallyInitiated);
  s ← sget id;
  close_unless dfr (callID s) ;;
  closeDone ;;
  sput notifySend ;;
  tput (remove (callID s)) ;;
  on_table finisherDone.

Definition terminate (oc : StreamOutcome) (code : Z) (locallyInitiated : bool) (from : list phase_word)
  : sprog bool :=
  '(won, presend) ← casTerminal oc code from;
  if won : bool then finishTerminal locallyInitiated presend ;; mret true else mret false.

Definition terminateLocked (oc : StreamOutcome) (from : list phase_word) : sprog unit :=
  '(won, presend) ← casTerminal oc 0 from;
  if won : bool then finishTerminal false presend else mret tt.

Definition live_phases : list phase_word := [streamSubmitted; streamPublished].

Definition TerminateHandlerError (status : option FrameStatus) : sprog unit :=
  let fs := default (mkStatus 0 [] []) status in
  '(won, presend) ← casTerminal (mkOutcome OutcomePeerError (Some [StreamStatusError status])) 0 live_phases;
  if won : bool then sput (set_handlerErrStatus (Some fs)) ;; finishTerminal false presend else mret tt.

Definition DiscardUnaccepted (cause : option error) : sprog bool :=
  terminate (mkOutcome OutcomeCrashed cause) 0 false live_phases.

Definition mapDeadlineToTerminal : sprog StreamOutcome :=
  let attempt := mkOutcome OutcomeDeadlineExceeded (Some [ErrDeadlineExceeded]) in
  _ ← terminate attempt StatusCodeStreamDeadlineExceeded true live_phases;
  s ← sget id;
  mret (default attempt (Outcome s)).

Definition mapCancelToTerminal (cause : option error) : sprog StreamOutcome :=
  let attempt := mkOutcome OutcomeCanceled (Some (default [ErrCanceledLocally] cause)) in
  _ ← terminate attempt StatusCodeStreamCanceled true live_phases;
  s ← sget id;
  mret (default attempt (Outcome s)).

Definition TerminateOpenAmbiguous (e : error) : sprog unit :=
  if Is (Some e) CtxDeadlineExceeded then _ ← mapDeadlineToTerminal; mret tt
  else _ ← mapCancelToTerminal (Some [ErrCanceledLocally]); mret tt.

Definition TerminateLocal (e : error) : sprog unit := TerminateOpenAmbiguous e.

(** Started by [beginDeadlineWatch]; runs when the stream's context ends. *)
Definition watchDeadline : sprog unit :=
  s ← sget id;
  if done s then mret tt else
  match ctxErr s with
  | None => park
  | Some e =>
      if Is (Some e) CtxDeadlineExceeded then _ ← mapDeadlineToTerminal; mret tt
      else _ ← mapCancelToTerminal (Some [ErrCanceledLocally]); mret tt
  end.

(** The detached sender runs to its end here. *)
Definition EmitOwedOpenTeardown : sprog unit :=
  s ← sget id;
  if owedTeardownEmitted s then mret tt else
  sput (set_owedTeardownEmitted true) ;;
  if teardownCode s =? 0 then mret tt else
  ok ← on_table addFinisher;
  if ok : bool then
    now ← claimTerminalToken true;
    (if now : bool then sendTeardownCancel else mret tt) ;;
    on_table (emitOwedTeardownErr (callID s) (mkStatus (teardownCode s) [] [])) ;;
    on_table finisherDone
  else mret tt.

(** *** Sending *)

(** A [Send] under the stream's own context merged with the caller's. *)
Definition sendUnder (f : Frame) : sprog answer :=
  a ← on_table (Send f);
  (if expired a then sput expire else mret tt) ;;
  mret a.

(** Why a credit-parked sender resumes. *)
Inductive wake := WakeSend | WakeDone | WakeCtx (e : error).

(** Each entry of [wakes] is the state the parked sender resumes in and the
    case its select takes. *)
Fixpoint admitCredit (wakes : list (StreamTable * Stream * wake)) : sprog (option error) := fun '(t, s) =>
  match Credit.reserve (sendCredit s) with
  | (c, true) => Ret (t, set_sendCredit c s) None
  | (_, false) =>
      match wakes with
      | [] => Parks
      | (t', s', WakeSend) :: wakes =>
          if negb (sendWake s') then Parks else
          let s' := set_sendWake false s' in
          if sendClosed s' then Ret (t', s') (Some [ErrCanceledLocally]) else admitCredit wakes (t', s')
      | (t', s', WakeDone) :: _ =>
          if done s' then Ret (t', s') (Some (deliveredErr s')) else Parks
      | (t', s', WakeCtx e) :: _ => Ret (t', s') (Some e)
      end
  end.

(** A post-admission context error: DEADLINE if either context expired,
    CANCELED otherwise; the recorded outcome is what is returned. *)
Definition terminal_ctx_err (callerCtx : option error) (e : error) : sprog (option error) :=
  s ← sget id;
  if Is (ctxErr s) CtxDeadlineExceeded || Is callerCtx CtxDeadlineExceeded
  then oc ← mapDeadlineToTerminal; mret (Some (recordedOutcomeErr oc e))
  else oc ← mapCancelToTerminal (Some [ErrCanceledLocally]); mret (Some (recordedOutcomeErr oc e)).

Definition is_ctx_err (e : error) : bool := Is (Some e) CtxCanceled || Is (Some e) CtxDeadlineExceeded.

Definition handleSendErr (callerCtx : option error) (e : error) (seq : Z) : sprog (option error) :=
  if isRollbackEligible e then
    sput (fun s => set_sendCredit (Credit.release (sendCredit s)) s) ;;
    sput (fun s => if sendSeq s =? seq then set_sendSeq (seq -₆₄ 1)%word s else s) ;;
    mret (Some e)
  else if is_ctx_err e then terminal_ctx_err callerCtx e
  else mret (Some e).

(** [s.sendSeq.Add(1)] *)
Definition nextSeq : sprog Z := fun '(t, s) =>
  let n := (sendSeq s +₆₄ 1)%word in Ret (t, set_sendSeq n s) n.

Definition data_frame (t : StreamTable) (s : Stream) (kind : Z) (payload : list Z) (seq : Z) : Frame :=
  mkFrame (callID s) kind (service s) (method s) (deadline s - clock t) payload None seq.

Definition sendFragment (frag : list Z) (seq kind : Z) : sprog answer :=
  s ← sget id; t ← tget id; sendUnder (data_frame t s kind frag seq).

Definition chunkTooLargeErr : error := [ErrPayloadTooLarge].
Definition zeroInlineLimitErr : error := [ErrPayloadTooLarge].

Definition failVisibleTrain (callerCtx : option error) (e : error) : sprog (option error) :=
  if is_ctx_err e then terminal_ctx_err callerCtx e
  else if Is (Some e) ErrClosed || Is (Some e) ErrPoisoned then mret (Some e)
  else oc ← mapCancelToTerminal (Some (ErrCanceledLocally :: e)); mret (Some (recordedOutcomeErr oc e)).

Definition sendFirstFragment (frag : list Z) (seq : Z) : sprog (option error) :=
  a ← sendFragment frag seq FrameStreamChunk;
  match ans a with
  | None => mret None
  | Some e => if isRollbackEligible e then handleSendErr (caller a) e seq
              else failVisibleTrain (caller a) e
  end.

(** The wait between retries is a timer; [retry] says what ended it.  Every
    retry consumes an answer, so fuel of one more than the answers left is
    enough. *)
Fixpoint fragment_retry (fuel : nat) (delay : Z) (frag : list Z) (seq kind : Z)
  : sprog (option error * option error) :=
  match fuel with
  | O => park
  | S fuel =>
      a ← sendFragment frag seq kind;
      if negb (Is (ans a) ErrBackpressure) then mret (ans a, caller a) else
      tput (fun t => set_timers (timers t ++ [delay]) t) ;;
      match retry a with
      | Some e => mret (Some e, caller a)
      | None => fragment_retry fuel (Z.min (delay * 2) chunkRetryMax) frag seq kind
      end
  end.

Definition sendFragmentRetrying (frag : list Z) (seq kind : Z) : sprog (option error * option error) :=
  n ← tget (fun t => length (answers t));
  fragment_retry (S n) chunkRetryInitial frag seq kind.

(** [for off := limit; off < len(buf); off += limit]: fuel [length buf] is
    enough because [limit] is positive. *)
Fixpoint train_loop (fuel : nat) (buf : list Z) (limit off : Z) : sprog (option error) :=
  if zlen buf <=? off then mret None else
  match fuel with
  | O => park
  | S fuel =>
      let stop := Z.min (off + limit) (zlen buf) in
      let kind := if stop =? zlen buf then FrameStreamMsg else FrameStreamChunk in
      seq ← nextSeq;
      match slice off stop buf with
      | None => panic
      | Some frag =>
          '(e, callerCtx) ← sendFragmentRetrying frag seq kind;
          match e with
          | Some e => failVisibleTrain callerCtx e
          | None => train_loop fuel buf limit (off + limit)
          end
      end
  end.

Definition sendChunked (wakes : list (StreamTable * Stream * wake)) (callerCtx : option error)
    (payload : list Z) (policy : ChunkPolicy) : sprog (option error) :=
  let limit := SendInline policy in
  if limit <=? 0 then mret (Some zeroInlineLimitErr) else
  e ← admitCredit wakes;
  match e with
  | Some e => mret (Some e)
  | None =>
      seq ← nextSeq;
      if Ceiling policy <? zlen payload then handleSendErr callerCtx chunkTooLargeErr seq else
      let buf := payload in
      match slice 0 limit buf with
      | None => panic
      | Some frag =>
          e ← sendFirstFragment frag seq;
          match e with
          | Some e => mret (Some e)
          | None => train_loop (length buf) buf limit limit
          end
      end
  end.

Definition SendMsg (ctx : option error) (wakes : list (StreamTable * Stream * wake)) (payload : list Z)
  : sprog (option error) :=
  s ← sget id;
  match terminalErr s with
  | Some e => mret (Some e)
  | None =>
      if sendClosed s then mret (Some [ErrCanceledLocally]) else
      match ctx with
      | Some e => mret (Some e)
      | None =>
          p ← tget chunkPolicy;
          if Active p && (SendInline p <? zlen payload) then sendChunked wakes ctx payload p else
          e ← admitCredit wakes;
          match e with
          | Some e => mret (Some e)
          | None =>
              seq ← nextSeq;
              s ← sget id; t ← tget id;
              a ← sendUnder (data_frame t s FrameStreamMsg payload seq);
              match ans a with
              | None => mret None
              | Some e => handleSendErr (caller a) e seq
              end
          end
      end
  end.

Definition handleCloseSendErr (callerCtx : option error) (e : error) : sprog (option error) :=
  if isRollbackEligible e then sput (set_sendCloseState closeSendIdle) ;; mret (Some e) else
  sput (set_sendCloseState closeSendClosed) ;;
  if is_ctx_err e then terminal_ctx_err callerCtx e else mret (Some e).

Definition CloseSend (ctx : option error) (payload : list Z) : sprog (option error) :=
  s ← sget id;
  match terminalErr s with
  | Some e => mret (Some e)
  | None =>
      if negb (bool_decide (sendCloseState s = closeSendIdle)) then mret (Some [ErrSendClosed]) else
      sput (set_sendCloseState closeSendPublishing) ;;
      match ctx with
      | Some e => sput (set_sendCloseState closeSendIdle) ;; mret (Some e)
      | None =>
          a ← sendUnder (mkFrame (callID s) FrameStreamClose 0 0 0 payload None (sendSeq s));
          match ans a with
          | Some e => handleCloseSendErr (caller a) e
          | None =>
              sput (set_sendCloseState closeSendClosed) ;;
              sput (fun s => fst (setCloseBit closeLocalBit s)) ;;
              sput (set_sendClosed true) ;;
              sput notifySend ;;
              tput (closeObligation (callID s)) ;;
              s ← sget id;
              (if bothClosed s
               then _ ← terminate (mkOutcome OutcomeCompleted None) 0 false live_phases; mret tt
               else mret tt) ;;
              mret None
          end
      end
  end.

(** *** Receiving *)

Definition consumeIfOpen : sprog bool := fun '(t, s) =>
  if remoteClosed s then Ret (t, s) false else
  let '(c, (_, shouldAck)) := Credit.consume (recvCredit s) in
  Ret (t, set_recvCredit c s) shouldAck.

Definition onDelivered (credited : bool) : sprog unit :=
  if negb credited then mret tt else
  due ← consumeIfOpen;
  if due : bool then arm else
  d ← tget drained; s ← sget id;
  if d && isLive s && Credit.pending (recvCredit s) then arm else mret tt.

(** [it := <-s.recvCh], or nothing when the channel is empty. *)
Definition drainOne : sprog (option recvItem) :=
  s ← sget id;
  match recvCh s with
  | [] => mret None
  | it :: q => sput (set_recvCh q) ;; onDelivered (credited it) ;; mret (Some it)
  end.

Inductive recv_wake := RecvItem | RecvDone | RecvRemoteClosed | RecvCtx (e : error).

(** The case a parked reader's select takes, in the state it resumes in. *)
Definition recv_resumed (w : recv_wake) : sprog (list Z + error) :=
  s ← sget id;
  match w with
  | RecvItem =>
      it ← drainOne;
      match it with Some it => mret (inl (ipayload it)) | None => park end
  | RecvDone =>
      if negb (done s) then park else
      it ← drainOne; s ← sget id;
      mret (match it with Some it => inl (ipayload it) | None => inr (recvErr s) end)
  | RecvRemoteClosed =>
      if negb (recvClosed s) then park else
      it ← drainOne;
      mret (match it with Some it => inl (ipayload it) | None => inr [EOF] end)
  | RecvCtx e => mret (inr e)
  end.

(** A blocked method goes on in the state others left. *)
Definition resume_in {A} (st : StreamTable * Stream) (m : sprog A) : sprog A := fun _ => m st.

(** [resume] is the state a parked reader resumes in, with its select's case. *)
Definition RecvMsg (resume : option (StreamTable * Stream * recv_wake)) : sprog (list Z + error) :=
  it ← drainOne;
  match it with
  | Some it => mret (inl (ipayload it))
  | None =>
      match resume with
      | None => park
      | Some (t', s', w) => resume_in (t', s') (recv_resumed w)
      end
  end.

Definition accumFits (accum fragment ceiling : Z) : bool := (accum +₆₄ fragment)%word <=? ceiling.

(** A non-blocking channel send; [None] is the default case of its select. *)
Definition enqueueRecv (it : recvItem) (s : Stream) : option Stream :=
  if zlen (recvCh s) <? recvCap s then Some (set_recvCh (recvCh s ++ [it]) s) else None.

Definition completeRecvAccum (policy : ChunkPolicy) (final : list Z) (s : Stream) : Stream * (list Z + error) :=
  let n := zlen final in
  if (n =? 0) || (RecvInline policy <? n) then (s, inr [ErrStreamConformance]) else
  if negb (accumFits (zlen (recvAccum s)) n (Ceiling policy)) then (s, inr [ErrStreamConformance]) else
  (set_recvAccum [] s, inl (recvAccum s ++ final)).

Definition onStreamMsg (f : Frame) : sprog (option error) := fun '(t, s) =>
  if remoteClosed s then Ret (t, s) (Some [ErrStreamConformance]) else
  if negb (Control f =? expectedSeq s) then Ret (t, s) (Some [ErrStreamConformance]) else
  let '(s, r) := if 0 <? zlen (recvAccum s) then completeRecvAccum (chunkPolicy t) (Payload f) s
                 else (s, inl (Payload f)) in
  match r with
  | inr e => Ret (t, s) (Some e)
  | inl payload =>
      let s := set_expectedSeq (expectedSeq s +₆₄ 1)%word s in
      match enqueueRecv (mkItem payload true) s with
      | Some s => Ret (t, s) None
      | None => Ret (t, s) (Some [ErrStreamConformance])
      end
  end.

Definition onStreamChunk (f : Frame) : sprog (option error) := fun '(t, s) =>
  let policy := chunkPolicy t in
  let n := zlen (Payload f) in
  if remoteClosed s then Ret (t, s) (Some [ErrStreamConformance]) else
  if negb (Control f =? expectedSeq s) then Ret (t, s) (Some [ErrStreamConformance]) else
  if (n =? 0) || negb (n =? RecvInline policy) then Ret (t, s) (Some [ErrStreamConformance]) else
  if negb (accumFits (zlen (recvAccum s)) n (Ceiling policy)) then Ret (t, s) (Some [ErrStreamConformance]) else
  Ret (t, set_recvAccum (recvAccum s ++ Payload f) (set_expectedSeq (expectedSeq s +₆₄ 1)%word s)) None.

Definition onStreamAck (f : Frame) : sprog (option error) := fun '(t, s) =>
  match Credit.ack_rule (Control f) (sendCredit s) with
  | (c, true) => Ret (t, notifySend (set_sendCredit c s)) None
  | (_, false) => Ret (t, s) (Some [ErrStreamConformance])
  end.

(** [close(s.recvClosed)] *)
Definition closeRecv : sprog unit := fun '(t, s) =>
  if recvClosed s then Panics else Ret (t, set_recvClosed true s) tt.

Definition onStreamClose (f : Frame) : sprog (option error) := fun '(t, s) =>
  if 0 <? zlen (recvAccum s) then Ret (t, s) (Some [ErrStreamConformance]) else
  let '(s, ok) := setCloseBit closeRemoteBit s in
  if negb ok then Ret (t, s) (Some [ErrStreamConformance]) else
  if negb (Control f =? (expectedSeq s -₆₄ 1)%word) then Ret (t, s) (Some [ErrStreamConformance]) else
  match (if 0 <? zlen (Payload f) then enqueueRecv (mkItem (Payload f) false) s else Some s) with
  | None => Ret (t, s) (Some [ErrStreamConformance])
  | Some s =>
      (closeRecv ;;
       s ← sget id;
       (if bothClosed s then terminateLocked (mkOutcome OutcomeCompleted None) live_phases else mret tt) ;;
       mret None) (t, s)
  end.

Definition peerStatusErr (fs : option FrameStatus) : error := [StreamStatusError fs].

Definition onStreamErr (f : Frame) : sprog unit :=
  let code := match FStatus f with Some st => Code st | None => 0 end in
  if code =? StatusCodeStreamCanceled then
    terminateLocked (mkOutcome OutcomeCanceled (Some [ErrCanceledLocally])) live_phases
  else if code =? StatusCodeStreamDeadlineExceeded then
    terminateLocked (mkOutcome OutcomeDeadlineExceeded (Some [ErrDeadlineExceeded])) live_phases
  else terminateLocked (mkOutcome OutcomePeerError (Some (peerStatusErr (FStatus f)))) live_phases.

(** *** Acknowledging *)

Definition resetBackoff (s : Stream) : Stream := set_backoff ackBackoffInitial s.

Definition scheduleReArm : sprog unit := fun '(t, s) =>
  let delay := backoff s in
  let next := if ackBackoffMax <? delay * 2 then ackBackoffMax else delay * 2 in
  Ret (set_timers (timers t ++ [delay]) t, set_backoff next s) tt.

Definition reArmAfterBackoff : sprog unit :=
  sput (set_deferred false) ;;
  s ← sget id;
  if negb (isLive s) || negb (Credit.pending (recvCredit s)) then mret tt else
  if armed s then mret tt else
  sput (set_armed true) ;; tput (appendArm (self s)).

Definition releaseAckToken (success : bool) : sprog unit :=
  s ← sget id;
  match token s with
  | tokenACKOutstanding =>
      sput (set_token tokenIdle) ;;
      if success && Credit.pending (recvCredit s) then arm else mret tt
  | tokenCancelOwed =>
      sput (set_token tokenTerminal) ;;
      sendTeardownCancel ;;
      tput (closeObligation (callID s))
  | tokenIdle | tokenTerminal => mret tt
  end.

Definition serveAck : sprog unit :=
  cum ← sget (fun s => Credit.consumedCount (recvCredit s));
  i ← sget callID;
  a ← on_table (Send (mkFrame i FrameStreamAck 0 0 0 [] None cum));
  match ans a with
  | None =>
      sput (fun s => set_recvCredit (Credit.advanceAckedOut cum (recvCredit s)) s) ;;
      sput resetBackoff ;;
      releaseAckToken true
  | Some _ =>
      sput (set_deferred true) ;;
      scheduleReArm ;;
      releaseAckToken false
  end.

(** Steps 3 to 5 of the dispatcher, once the entry is unlinked. *)
Definition ack_service : sprog unit :=
  s ← sget id;
  if negb (isLive s) || negb (Credit.pending (recvCredit s)) || deferred s then mret tt else
  match token s with
  | tokenIdle => sput (set_token tokenACKOutstanding) ;; serveAck
  | _ => mret tt
  end.

Definition ack_body : sprog unit := sput (set_armed false) ;; ack_service.

(** ** Table methods *)

Abbreviation world := (StreamTable * list Stream)%type.
Abbreviation wprog := (prog world).

(** Runs a stream method on the object [r]. *)
Definition on_stream {A} (r : nat) (m : sprog A) : wprog A := fun '(t, h) =>
  match h !! r with
  | None => Panics
  | Some s =>
      match m (t, s) with
      | Ret (t, s) a => Ret (t, <[r := s]> h) a
      | Panics => Panics
      | Parks => Parks
      end
  end.

Definition wput (f : StreamTable -> StreamTable) : wprog unit := fun '(t, h) => Ret (f t, h) tt.
Definition wget {A} (f : StreamTable -> A) : wprog A := fun '(t, h) => Ret (t, h) (f t).

Definition newStream (r : nat) (now callID : Z) (side : StreamSide) (cfg : StreamConfig) : Stream :=
  let credits := if Credits cfg =? 0 then defaultStreamCredit else Credits cfg in
  let s := mkStream r callID side (CService cfg) (CMethod cfg) (now + Deadline cfg) None
    streamSubmitted 0 tokenIdle 0 false false false
    (Credit.newCreditCounter credits) 0 false false closeSendIdle
    (Credit.newCreditCounter credits) [] (u32 (credits + 1)) 1 [] false
    false false ackBackoffInitial None false (mkOutcome OutcomeCompleted None) in
  match Shape cfg, side with
  | ServerStreaming, ClientStream =>
      set_sendCloseState closeSendClosed (set_sendClosed true (set_closeBits closeLocalBit s))
  | ServerStreaming, ServerStream =>
      set_recvClosed true (set_closeBits closeRemoteBit
        (set_recvCh (recvCh s ++ [mkItem (OpenPayload cfg) false]) s))
  | _, _ => s
  end.

Definition NewStreamTable (maxOpenStreams : Z) (sink : option K) (policy : ChunkPolicy)
    (now : Z) (script : list answer) : StreamTable :=
  let reserve := if maxOpenStreams <? 0 then 0 else maxOpenStreams in
  let emitCap := 2 * maxOpenStreams + 1 in
  let emitCap := if emitCap <? 1 then 1 else emitCap in
  mkTable maxOpenStreams ∅ false false false 0 [] [] emitCap reserve None false 0 sink policy now [] [] script.

Definition admitStream (callID : Z) (side : StreamSide) (cfg : StreamConfig) (startWatch pending : bool)
  : wprog (nat + error) := fun '(t, h) =>
  if closed t then Ret (t, h) (inr [ErrStreamTableClosed]) else
  if decide (is_Some (streams t !! callID)) then Ret (t, h) (inr [ErrStreamExists]) else
  if defaultStreamCredit <? Credits cfg then Ret (t, h) (inr [ErrStreamCreditsExceedMax]) else
  if Deadline cfg <=? 0 then Ret (t, h) (inr [ErrStreamDeadlineRequired]) else
  if maxOpen t <=? Z.of_nat (size (streams t)) then Ret (t, h) (inr [ErrStreamsAtCapacity]) else
  let r := length h in
  let s := newStream r (clock t) callID side cfg in
  let s := if pending then set_openSendPending true s else s in
  let s := if startWatch then beginDeadlineWatch s else s in
  Ret (openObligation callID (set_streams (<[callID := r]> (streams t)) t), h ++ [s]) (inl r).

Definition Open (callID : Z) (side : StreamSide) (cfg : StreamConfig) : wprog (nat + error) :=
  admitStream callID side cfg true false.
Definition OpenClient (callID : Z) (cfg : StreamConfig) : wprog (nat + error) :=
  admitStream callID ClientStream cfg true true.
Definition OpenAccepting (callID : Z) (cfg : StreamConfig) : wprog (nat + error) :=
  admitStream callID ServerStream cfg false false.

Definition Lookup (i : Z) (t : StreamTable) : option nat := streams t !! i.
Definition Len (t : StreamTable) : Z := Z.of_nat (size (streams t)).
Definition Discarded (t : StreamTable) : Z := discarded t.

Definition HasLiveStream (i : Z) (w : world) : bool :=
  match Lookup i (fst w) with
  | Some r => match snd w !! r with Some s => isLive s | None => false end
  | None => false
  end.

(** Levels 1 and 2 of the disposal: an absent call id or a terminal stream
    counts the frame and drops it; otherwise the handler runs. *)
Definition dispatch_live (i : Z) (handler : sprog (option error)) : wprog (option error) :=
  r ← wget (Lookup i);
  match r with
  | None => wput (fun t => set_discarded (discarded t +₆₄ 1)%word t) ;; mret None
  | Some r => on_stream r (
      live ← sget isLive;
      if live : bool then handler
      else tput (fun t => set_discarded (discarded t +₆₄ 1)%word t) ;; mret None)
  end.

Definition stream_handler (f : Frame) : sprog (option error) :=
  if Kind f =? FrameStreamMsg then onStreamMsg f else
  if Kind f =? FrameStreamChunk then onStreamChunk f else
  if Kind f =? FrameStreamAck then onStreamAck f else
  if Kind f =? FrameStreamClose then onStreamClose f else
  if Kind f =? FrameStreamErr then onStreamErr f ;; mret None else
  mret (Some [ErrStreamConformance]).

Definition Dispatch (f : Frame) : wprog (option error) :=
  wput (set_drained false) ;; dispatch_live (CallID f) (stream_handler f).

Definition DispatchTeardownCancel (i code : Z) : wprog (option error) :=
  dispatch_live i (
    if code =? StatusCodeStreamCanceled then
      terminateLocked (mkOutcome OutcomeCanceled (Some [ErrCanceledLocally])) live_phases ;; mret None
    else if code =? StatusCodeStreamDeadlineExceeded then
      terminateLocked (mkOutcome OutcomeDeadlineExceeded (Some [ErrDeadlineExceeded])) live_phases ;; mret None
    else mret (Some [ErrStreamConformance])).

(** [snapshot] ranges over a Go map: [order] is the order it yields the
    streams in, a permutation of the open ones. *)
Definition snapshot (t : StreamTable) : list nat := (map_to_list (streams t)).*2.

Definition ReaderDrained (order : list nat) : wprog unit :=
  wput (set_drained true) ;;
  run_each (fun r => on_stream r (
    s ← sget id;
    if isLive s && Credit.pending (recvCredit s) then arm else mret tt)) order.

Definition fail_stream (dispatchedErr notDispatchedErr : option error) : sprog unit :=
  won ← terminate (mkOutcome OutcomeCrashed notDispatchedErr) 0 false [streamSubmitted];
  if won : bool then mret tt else
  _ ← terminate (mkOutcome OutcomeCrashed dispatchedErr) 0 false [streamPublished]; mret tt.

Definition FailAll (order : list nat) (dispatchedErr notDispatchedErr : option error) : wprog unit :=
  run_each (fun r => on_stream r (fail_stream dispatchedErr notDispatchedErr)) order.

Definition OnPeerCrash (order : list nat) (crash : option error) : wprog unit := FailAll order crash crash.

(** One iteration of the ack-dispatch goroutine; it parks on an empty queue
    and returns once stopped. *)
Definition runAckDispatch : wprog unit :=
  r ← (fun '(t, h) => let '(t, r) := popArm t in Ret (t, h) r : run world (option nat));
  match r with
  | None => stop ← wget stopped; if stop : bool then mret tt else park
  | Some r => on_stream r ack_body
  end.

(** One iteration of the emitter goroutine. *)
Definition runEmitter : tprog unit := fun t =>
  match emitCh t with
  | [] => if stopped t then Ret t tt else Parks
  | j :: q =>
      (_ ← Send (mkFrame (jCallID j) FrameStreamErr 0 0 0 [] (Some (jstatus j)) 0);
       if keepObligation j then mret tt else modify (closeObligation (jCallID j))) (set_emitCh q t)
  end.

(** [stopOnce] runs the body once; the join waits while a finisher runs. *)
Definition Close (order : list nat) : wprog unit :=
  once ← wget stopped;
  if once : bool then mret tt else
  wput (set_closed true) ;;
  FailAll order (Some [ErrStreamTableClosed]) (Some [ErrStreamTableClosed]) ;;
  n ← wget finishers;
  if negb (n =? 0) then park else
  wput (fun t => set_connDone true (set_stopped true t)).

End with_sink.

Arguments StreamTable : clear implicits.

#[global] Arguments Send : simpl never.
#[global] Arguments enqueueEmit : simpl never.
#[global] Arguments failIfConnLive : simpl never.
#[global] Arguments closeObligation : simpl never.
#[global] Arguments admitCredit : simpl never.
#[global] Arguments sendTeardownCancel : simpl never.
#[global] Arguments emitTeardownErr : simpl never.
#[global] Arguments emit_terminal : simpl never.
#[global] Arguments claim_and_emit : simpl never.
#[global] Arguments close_unless : simpl never.
#[global] Arguments finishTerminal : simpl never.
#[global] Arguments terminate : simpl never.
#[global] Arguments terminateLocked : simpl never.
#[global] Arguments mapDeadlineToTerminal : simpl never.
#[global] Arguments mapCancelToTerminal : simpl never.
#[global] Arguments terminal_ctx_err : simpl never.
#[global] Arguments arm : simpl never.
#[global] Arguments onDelivered : simpl never.
#[global] Arguments drainOne : simpl never.
#[global] Arguments sendUnder : simpl never.
#[global] Arguments releaseAckToken : simpl never.
#[global] Arguments stream_handler : simpl never.
#[global] Arguments handleSendErr : simpl never.
#[global] Arguments ack_service : simpl never.
#[global] Arguments ack_body : simpl never.

(** Unfolds the program combinators and reduces. *)
Ltac run_prog :=
  repeat progress (cbv beta iota zeta delta [mbind prog_bind mret prog_ret sget sput tget tput on_table
    gets modify get panic park on_stream wput wget resume_in id]; cbn).

End Streams.
