(* ===== verification/StreamChunks.v ===== *)
(** * Stream messages across the wire
    (chunk_send.go, chunk_recv.go and the send and receive paths of stream.go)

    What a receiver reassembles is what the sender was given, whatever the
    transport made it retry; what a hostile peer can make a receiver buffer is
    bounded; and a send the transport refused leaves the sender as it was. *)

From stdpp Require Import gmap.
From S2P Require Import Prelude CreditFlow LeaseTable TransportFrame StreamCore.
Import Frames Streams.

Module Chunks.

Section with_sink.
Context {K : Type} `{!ObligationSink K}.
Implicit Types (t : StreamTable K) (s : Stream).

Abbreviation sprog := (prog (StreamTable K * Stream)).

(** The frames the transport accepted, and the part of a frame the peer's
    stream engine reads. *)
Definition accepted_frames (log : list (Frame * option error)) : list Frame :=
  (filter (fun p => p.2 = None) log).*1.

Definition as_sent (f : Frame) : Z * list Z * Z := (Kind f, Payload f, Control f).

(** The receiver handles the frames in order and stops at the first
    violation. *)
Fixpoint feed (fs : list Frame) : sprog (option error) :=
  match fs with
  | [] => mret None
  | f :: fs =>
      e ← stream_handler f;
      match e with Some e => mret (Some e) | None => feed fs end
  end.

(** The fragments of [buf] from offset [off] on, after sequence number
    [seq]. *)
Fixpoint train_frames (fuel : nat) (buf : list Z) (limit off seq : Z) : list (Z * list Z * Z) :=
  if zlen buf <=? off then [] else
  match fuel with
  | O => []
  | S fuel =>
      let stop := Z.min (off + limit) (zlen buf) in
      (if stop =? zlen buf then FrameStreamMsg else FrameStreamChunk,
       sub_bytes (Z.to_nat off) (Z.to_nat (stop - off)) buf, (seq +₆₄ 1)%word)
      :: train_frames fuel buf limit (off + limit) (seq +₆₄ 1)%word
  end.

(** ** The sender *)

(** What a send path leaves alone: everything but the sequence number, the
    credit and the observed context. *)
Definition kept (t t1 : StreamTable K) (s s1 : Stream) : Prop :=
  chunkPolicy t1 = chunkPolicy t /\ streams t1 = streams t /\ clock t1 = clock t /\
  callID s1 = callID s /\ phase s1 = phase s /\ recvCh s1 = recvCh s /\ recvAccum s1 = recvAccum s.

Lemma kept_refl t s : kept t t s s.
Proof. by repeat split. Qed.
Lemma kept_trans t1 t2 t3 s1 s2 s3 : kept t1 t2 s1 s2 -> kept t2 t3 s2 s3 -> kept t1 t3 s1 s3.
Proof. unfold kept. intuition congruence. Qed.

Lemma expire_kept t s : kept t t s (expire s).
Proof. unfold expire. destruct (ctxErr s); by repeat split. Qed.

Lemma accepted_app l1 l2 : accepted_frames (l1 ++ l2) = accepted_frames l1 ++ accepted_frames l2.
Proof. unfold accepted_frames. by rewrite filter_app, fmap_app. Qed.

Lemma sendFragment_spec frag seq kind t s :
  exists t1 s1 a f, sendFragment frag seq kind (t, s) = Ret (t1, s1) a /\
    kept t t1 s s1 /\ sendSeq s1 = sendSeq s /\ sendCredit s1 = sendCredit s /\
    wire t1 = wire t ++ [(f, ans a)] /\ answers t1 = tail (answers t) /\
    a = next_answer t /\ as_sent f = (kind, frag, seq).
Proof.
  unfold sendFragment, sendUnder, Send. run_prog.
  set (a := next_answer t).
  destruct (expired a); simpl.
  - do 4 eexists. split; [reflexivity|]. unfold expire.
    destruct (ctxErr s); split_and!; try done.
  - do 4 eexists. split; [reflexivity|]. split_and!; try done.
Qed.

Lemma fragment_retry_spec fuel delay frag seq kind t s e c t1 s1 :
  fragment_retry fuel delay frag seq kind (t, s) = Ret (t1, s1) (e, c) ->
  exists log, wire t1 = wire t ++ log /\ kept t t1 s s1 /\ sendSeq s1 = sendSeq s /\
    sendCredit s1 = sendCredit s /\
    (e = None -> map as_sent (accepted_frames log) = [(kind, frag, seq)]).
Proof.
  revert delay t s. induction fuel as [|fuel IH]; intros delay t s; [discriminate|].
  cbn [fragment_retry]. destruct (sendFragment_spec frag seq kind t s)
    as (t2 & s2 & a & f & E & Hk & Hs & Hc & Hw & _ & _ & Hf).
  run_prog. rewrite E. destruct (Is (ans a) ErrBackpressure) eqn:Hb; simpl.
  - destruct (retry a) as [e'|].
    + intros [= <- <- <- <-]. exists [(f, ans a)]. simpl. split_and!; try done.
    + intros H. apply IH in H as (log & Hw1 & Hk1 & Hs1 & Hc1 & Hn). simpl in *.
      exists ((f, ans a) :: log). split_and!; [|by eapply kept_trans; [exact Hk|]|congruence|congruence|].
      * by rewrite Hw1, Hw, <- app_assoc.
      * intros He. unfold accepted_frames. rewrite filter_cons.
        destruct (ans a) as [x|] eqn:Ha; [|discriminate]. simpl. by apply Hn.
  - intros [= <- <- <- <-]. exists [(f, ans a)]. split_and!; try done.
    intros Ha. unfold accepted_frames. rewrite filter_cons, Ha. simpl. by rewrite Hf.
Qed.

#[local] Arguments fragment_retry : simpl never.

Lemma train_loop_spec fuel buf limit off t s t1 s1 :
  0 < limit -> 0 <= off -> train_loop fuel buf limit off (t, s) = Ret (t1, s1) None ->
  (zlen buf - off <= Z.of_nat fuel) ->
  exists log, wire t1 = wire t ++ log /\ kept t t1 s s1 /\ sendCredit s1 = sendCredit s /\
    map as_sent (accepted_frames log) = train_frames fuel buf limit off (sendSeq s) /\
    sendSeq s1 = fold_left (fun n _ => (n +₆₄ 1)%word) (train_frames fuel buf limit off (sendSeq s)) (sendSeq s).
Proof.
  intros Hl. revert off t s. induction fuel as [|fuel IH]; intros off t s Ho H Hf.
  - cbn [train_loop train_frames] in *. destruct (Z.leb_spec (zlen buf) off); [|lia].
    injection H as <- <-. exists []. rewrite app_nil_r. split_and!; try done.
  - cbn [train_loop train_frames] in *. destruct (Z.leb_spec (zlen buf) off).
    { injection H as <- <-. exists []. rewrite app_nil_r. split_and!; try done. }
    unfold nextSeq in H. revert H. run_prog.
    rewrite slice_in_range by lia.
    set (stop := Z.min (off + limit) (zlen buf)). set (kind := if stop =? zlen buf then _ else _).
    set (frag := sub_bytes _ _ buf). unfold sendFragmentRetrying. run_prog.
    match goal with |- context [fragment_retry ?a ?b ?c ?d ?e ?f] =>
      destruct (fragment_retry a b c d e f) as [[t2 s2] [e2 c2]| |] eqn:E; [|discriminate..] end.
    apply fragment_retry_spec in E as (log & Hw & Hk & Hs & Hc & Hn). simpl in *.
    destruct e2 as [e2|]; [unfold failVisibleTrain|].
    { intros H. exfalso. revert H. destruct (is_ctx_err e2).
      - unfold terminal_ctx_err. run_prog. destruct (_ || _).
        + destruct (mapDeadlineToTerminal (t2, s2)) as [[? ?] ?| |]; discriminate.
        + destruct (mapCancelToTerminal _ (t2, s2)) as [[? ?] ?| |]; discriminate.
      - destruct (_ || _); [discriminate|]. run_prog.
        destruct (mapCancelToTerminal _ (t2, s2)) as [[? ?] ?| |]; discriminate. }
    intros H. apply IH in H as (log2 & Hw2 & Hk2 & Hc2 & Hm2 & Hs2); [|lia|lia].
    exists (log ++ log2). split_and!.
    + by rewrite Hw2, Hw, app_assoc.
    + eapply kept_trans; [|exact Hk2]. eapply kept_trans; [|exact Hk]. by repeat split.
    + congruence.
    + rewrite accepted_app, map_app, (Hn eq_refl), Hm2, Hs. done.
    + by rewrite Hs2, Hs.
Qed.

(** ** The receiver *)

(** The receiver after a whole message: one credited item more, nothing
    pending, and the next sequence number expected. *)
Definition delivered (payload : list Z) (seq : Z) (r : Stream) : Stream :=
  set_recvCh (recvCh r ++ [mkItem payload true]) (set_expectedSeq (seq +₆₄ 1)%word (set_recvAccum [] r)).

Definition last_seq {A} (fs : list A) (seq : Z) : Z := fold_left (fun n _ => (n +₆₄ 1)%word) fs seq.

Lemma feed_cons f fs t r t1 r1 :
  stream_handler f (t, r) = Ret (t1, r1) None -> feed (f :: fs) (t, r) = feed fs (t1, r1).
Proof. intros E. cbn [feed]. run_prog. by rewrite E. Qed.

Lemma accumFits_true a n c : 0 <= a -> 0 <= n -> is_u32 c -> a + n <= c -> accumFits a n c = true.
Proof.
  intros. unfold accumFits, is_u32 in *. rewrite u64_id by (unfold is_u64; lia). by apply Z.leb_le.
Qed.

Lemma accumFits_bound a n c :
  0 <= a -> 0 <= n -> a + n < 2 ^ 64 -> accumFits a n c = true -> a + n <= c.
Proof.
  intros. unfold accumFits in *. rewrite u64_id in * by (unfold is_u64; lia). by apply Z.leb_le.
Qed.

Lemma chunk_accepted f t r :
  remoteClosed r = false -> as_sent f = (FrameStreamChunk, Payload f, expectedSeq r) ->
  0 < zlen (Payload f) -> zlen (Payload f) = RecvInline (chunkPolicy t) ->
  is_u32 (Ceiling (chunkPolicy t)) -> zlen (recvAccum r) + zlen (Payload f) <= Ceiling (chunkPolicy t) ->
  stream_handler f (t, r) =
    Ret (t, set_recvAccum (recvAccum r ++ Payload f) (set_expectedSeq (expectedSeq r +₆₄ 1)%word r)) None.
Proof.
  intros Hc [= Hk Hs] Hn HL Hceil Hfit. unfold stream_handler. rewrite Hk.
  change (FrameStreamChunk =? FrameStreamMsg) with false. cbv beta iota.
  rewrite Z.eqb_refl. unfold onStreamChunk. rewrite Hc, Hs, Z.eqb_refl. cbn [negb].
  destruct (Z.eqb_spec (zlen (Payload f)) 0); [lia|]. rewrite HL, Z.eqb_refl. cbn [negb orb].
  rewrite <- HL, accumFits_true by (unfold zlen in *; auto; lia). done.
Qed.

Lemma msg_accepted f t r :
  remoteClosed r = false -> as_sent f = (FrameStreamMsg, Payload f, expectedSeq r) ->
  zlen (recvCh r) < recvCap r ->
  (0 < zlen (recvAccum r) -> is_u32 (Ceiling (chunkPolicy t)) /\
     0 < zlen (Payload f) <= RecvInline (chunkPolicy t) /\
     zlen (recvAccum r) + zlen (Payload f) <= Ceiling (chunkPolicy t)) ->
  stream_handler f (t, r) =
    Ret (t, delivered (recvAccum r ++ Payload f) (expectedSeq r) r) None.
Proof.
  intros Hc [= Hk Hs] Hroom Hacc. unfold stream_handler. rewrite Hk, Z.eqb_refl. unfold onStreamMsg.
  rewrite Hc, Hs, Z.eqb_refl. cbn [negb].
  assert (Hr : (zlen (recvCh r) <? recvCap r) = true) by (by apply Z.ltb_lt).
  destruct (Z.ltb_spec 0 (zlen (recvAccum r))) as [Hp|Hp].
  - destruct (Hacc Hp) as (? & ? & ?). unfold completeRecvAccum.
    destruct (Z.eqb_spec (zlen (Payload f)) 0); [lia|].
    destruct (Z.ltb_spec (RecvInline (chunkPolicy t)) (zlen (Payload f))); [lia|].
    rewrite accumFits_true by (auto; lia). cbn [negb orb]. unfold enqueueRecv. simpl. by rewrite Hr.
  - assert (E : recvAccum r = []) by (destruct (recvAccum r); [done|unfold zlen in Hp; simpl in Hp; lia]).
    rewrite E. unfold enqueueRecv. simpl. rewrite Hr. unfold delivered.
    destruct r; simpl in *; by subst.
Qed.

Lemma sub_take_drop (off stop : Z) (buf : list Z) :
  0 <= off <= stop -> stop <= zlen buf ->
  take (Z.to_nat off) buf ++ sub_bytes (Z.to_nat off) (Z.to_nat (stop - off)) buf = take (Z.to_nat stop) buf.
Proof.
  intros. unfold sub_bytes. replace (Z.to_nat (stop - off)) with (Z.to_nat stop - Z.to_nat off)%nat by lia.
  rewrite take_drop_commute. replace (Z.to_nat off + (Z.to_nat stop - Z.to_nat off))%nat with (Z.to_nat stop) by lia.
  rewrite <- (take_drop (Z.to_nat off) (take (Z.to_nat stop) buf)) at 2.
  by rewrite take_take, Nat.min_l by lia.
Qed.

Lemma zlen_take (n : Z) (l : list Z) : 0 <= n <= zlen l -> zlen (take (Z.to_nat n) l) = n.
Proof. unfold zlen. intros. rewrite length_take. lia. Qed.

Lemma zlen_sub (off stop : Z) (l : list Z) :
  0 <= off <= stop -> stop <= zlen l -> zlen (sub_bytes (Z.to_nat off) (Z.to_nat (stop - off)) l) = stop - off.
Proof. unfold zlen. intros. rewrite length_sub_bytes; lia. Qed.

Lemma feed_train fuel buf limit off seq fs t r :
  map as_sent fs = train_frames fuel buf limit off seq ->
  0 < limit -> limit = RecvInline (chunkPolicy t) -> is_u32 (Ceiling (chunkPolicy t)) ->
  zlen buf <= Ceiling (chunkPolicy t) -> 0 < off < zlen buf -> zlen buf - off <= Z.of_nat fuel ->
  remoteClosed r = false -> zlen (recvCh r) < recvCap r ->
  recvAccum r = take (Z.to_nat off) buf -> expectedSeq r = (seq +₆₄ 1)%word ->
  feed fs (t, r) = Ret (t, delivered buf (last_seq fs seq) r) None.
Proof.
  revert off seq fs r. induction fuel as [|fuel IH]; intros off seq fs r Hfs Hl HL Hu Hceil Ho Hf Hc Hroom Hacc Hseq; [lia|].
  cbn [train_frames] in Hfs. destruct (Z.leb_spec (zlen buf) off); [lia|].
  destruct fs as [|f fs]; [discriminate|]. cbn [map] in Hfs. injection Hfs as Hk Hp Hctl Hfs.
  assert (La : zlen (recvAccum r) = off) by (rewrite Hacc; apply zlen_take; lia).
  set (stop := Z.min (off + limit) (zlen buf)) in *.
  assert (Lp : zlen (Payload f) = stop - off) by (rewrite Hp; apply zlen_sub; lia).
  destruct (Z.eqb_spec stop (zlen buf)) as [Hlast|Hmid].
  - rewrite (feed_cons _ _ _ _ _ _ (msg_accepted f t r Hc ltac:(unfold as_sent; congruence) Hroom ltac:(intros; split_and!; auto; lia))).
    assert (fs = []) as ->.
    { destruct fuel; cbn [train_frames] in Hfs; destruct (Z.leb_spec (zlen buf) (off + limit)); try lia;
        by destruct fs. }
    cbn [feed]. run_prog. do 2 f_equal. rewrite Hacc, Hp, sub_take_drop, Hlast by lia.
    unfold last_seq. simpl. rewrite Hseq. unfold zlen.
    rewrite Nat2Z.id, take_ge by lia. done.
  - rewrite (feed_cons _ _ _ _ _ _ (chunk_accepted f t r Hc ltac:(unfold as_sent; congruence) ltac:(lia) ltac:(lia) Hu ltac:(lia))).
    rewrite (IH (off + limit) (seq +₆₄ 1)%word); auto; try lia.
    + simpl. rewrite Hacc, Hp, sub_take_drop by lia. f_equal. lia.
    + simpl. by rewrite Hseq.
Qed.

(** ** A transport that accepts, perhaps after back-pressure *)

Definition benign (a : answer) : Prop :=
  ans a = None \/ Is (ans a) ErrBackpressure = true /\ retry a = None.

Lemma fragment_retry_total fuel delay frag seq kind t s :
  Forall benign (answers t) -> (length (answers t) < fuel)%nat ->
  exists t1 s1 c, fragment_retry fuel delay frag seq kind (t, s) = Ret (t1, s1) (None, c) /\
    Forall benign (answers t1).
Proof.
  revert delay t s. induction fuel as [|fuel IH]; intros delay t s Hb Hf; [lia|].
  cbn [fragment_retry]. destruct (sendFragment_spec frag seq kind t s)
    as (t2 & s2 & a & f & E & _ & _ & _ & _ & Ht & Ha & _).
  unfold fragment_retry; fold (fragment_retry (K:=K)). run_prog. rewrite E.
  assert (Hba : benign a).
  { rewrite Ha. unfold next_answer. destruct (answers t); [by left|]. by inversion Hb. }
  assert (Hb2 : Forall benign (answers t2)) by (rewrite Ht; destruct (answers t); [done|by inversion Hb]).
  destruct Hba as [Hn|[Hbp Hr]].
  - rewrite Hn. simpl. eauto.
  - rewrite Hbp, Hr. simpl. apply IH; [done|]. simpl. rewrite Ht.
    destruct (answers t) eqn:E0; simpl in *; [|lia].
    exfalso. rewrite Ha in Hbp. unfold next_answer in Hbp. rewrite E0 in Hbp. discriminate.
Qed.

Lemma train_loop_total fuel buf limit off t s :
  0 < limit -> 0 <= off -> zlen buf - off <= Z.of_nat fuel -> Forall benign (answers t) ->
  exists t1 s1, train_loop fuel buf limit off (t, s) = Ret (t1, s1) None.
Proof.
  intros Hl. revert off t s. induction fuel as [|fuel IH]; intros off t s Ho Hf Hb;
    cbn [train_loop]; (destruct (Z.leb_spec (zlen buf) off); [run_prog; by eauto|]); [lia|].
  unfold nextSeq, sendFragmentRetrying. run_prog. rewrite slice_in_range by lia.
  match goal with |- context [fragment_retry ?a ?b ?c ?d ?e ?f] =>
    destruct (fragment_retry_total a b c d e (fst f) (snd f)) as (t1 & s1 & c1 & E & Hb1); [done|simpl; lia|] end.
  simpl in E. rewrite E. simpl. apply IH; [lia|lia|done].
Qed.

(** ** Sender and receiver in step *)

(** The two ends of one direction between logical messages: the policies
    agree, nothing is pending, the receiver has room (credit guarantees it), and
    it expects the next sequence number. *)
Record in_step (t : StreamTable K) (s : Stream) (t' : StreamTable K) (r : Stream) : Prop := {
  is_limit : SendInline (chunkPolicy t) = RecvInline (chunkPolicy t');
  is_ceiling : Ceiling (chunkPolicy t) = Ceiling (chunkPolicy t') /\ is_u32 (Ceiling (chunkPolicy t));
  is_open : remoteClosed r = false;
  is_empty : recvAccum r = [];
  is_room : zlen (recvCh r) < recvCap r;
  is_seq : expectedSeq r = (sendSeq s +₆₄ 1)%word
}.

(** What lets a send go ahead at once. *)
Record can_send (t : StreamTable K) (s : Stream) (payload : list Z) : Prop := {
  cs_live : isLive s = true;
  cs_open : sendClosed s = false;
  cs_credit : (Credit.reserve (sendCredit s)).2 = true;
  cs_first : ans (next_answer t) = None;
  cs_answers : Forall benign (answers t);
  cs_fits : Active (chunkPolicy t) = true -> SendInline (chunkPolicy t) < zlen payload ->
    0 < SendInline (chunkPolicy t) /\ zlen payload <= Ceiling (chunkPolicy t)
}.

Lemma admit_now t s :
  (Credit.reserve (sendCredit s)).2 = true ->
  admitCredit [] (t, s) = Ret (t, set_sendCredit (Credit.reserve (sendCredit s)).1 s) None.
Proof. intros H. unfold admitCredit. destruct (Credit.reserve (sendCredit s)) as [c ?]; simpl in *. by subst. Qed.

Lemma SendMsg_single t s payload :
  can_send t s payload -> Active (chunkPolicy t) && (SendInline (chunkPolicy t) <? zlen payload) = false ->
  exists t1 s1 f, SendMsg None [] payload (t, s) = Ret (t1, s1) None /\
    wire t1 = wire t ++ [(f, None)] /\ as_sent f = (FrameStreamMsg, payload, (sendSeq s +₆₄ 1)%word) /\
    sendSeq s1 = (sendSeq s +₆₄ 1)%word /\ sendCredit s1 = (Credit.reserve (sendCredit s)).1.
Proof.
  intros [Hl Ho Hc Ha _ _] Hp. unfold SendMsg, terminalErr. run_prog. rewrite Hl, Ho, Hp.
  rewrite (admit_now t s Hc). unfold nextSeq, sendUnder, Send. run_prog.
  rewrite Ha. destruct (expired (next_answer t)); run_prog; rewrite Ha; do 3 eexists; (split; [reflexivity|]);
    unfold expire; simpl; destruct (ctxErr s); split_and!; reflexivity.
Qed.

Lemma last_seq_map {A B} (g : A -> B) l seq : last_seq (map g l) seq = last_seq l seq.
Proof. revert seq. induction l; intros; simpl; auto. Qed.

Lemma SendMsg_train t s payload :
  can_send t s payload -> Active (chunkPolicy t) = true -> SendInline (chunkPolicy t) < zlen payload ->
  let L := SendInline (chunkPolicy t) in
  exists t1 s1 log, SendMsg None [] payload (t, s) = Ret (t1, s1) None /\
    wire t1 = wire t ++ log /\ sendCredit s1 = (Credit.reserve (sendCredit s)).1 /\
    map as_sent (accepted_frames log) =
      (FrameStreamChunk, take (Z.to_nat L) payload, (sendSeq s +₆₄ 1)%word)
      :: train_frames (length payload) payload L L (sendSeq s +₆₄ 1)%word /\
    sendSeq s1 = last_seq (accepted_frames log) (sendSeq s).
Proof.
  intros [Hl Ho Hc Ha Hb Hfit] Hact Hbig L. destruct (Hfit Hact Hbig) as [HL Hceil]. fold L in HL, Hbig.
  unfold SendMsg, terminalErr. run_prog. rewrite Hl, Ho, Hact.
  destruct (Z.ltb_spec (SendInline (chunkPolicy t)) (zlen payload)); [|lia]. cbn [andb].
  unfold sendChunked. destruct (Z.leb_spec (SendInline (chunkPolicy t)) 0); [lia|]. run_prog.
  rewrite (admit_now t s Hc). unfold nextSeq. run_prog.
  destruct (Z.ltb_spec (Ceiling (chunkPolicy t)) (zlen payload)); [lia|].
  rewrite slice_in_range by lia. unfold sendFirstFragment. run_prog.
  set (s0 := set_sendSeq _ _). set (frag := sub_bytes _ _ payload).
  destruct (sendFragment_spec frag (sendSeq s +₆₄ 1)%word FrameStreamChunk t s0)
    as (t2 & s2 & a & f & E & Hk & Hs & Hc2 & Hw & Hans & Hnx & Hf).
  rewrite E. rewrite Hnx, Ha. simpl.
  assert (Hb2 : Forall benign (answers t2)) by (rewrite Hans; destruct (answers t); [done|by inversion Hb]).
  destruct (train_loop_total (length payload) payload L L t2 s2) as (t1 & s1 & Et); [lia|lia|unfold zlen; lia|done|].
  pose proof Et as Et'. apply train_loop_spec in Et as (log & Hw1 & Hk1 & Hc1 & Hm & Hs1); [|lia|lia|unfold zlen; lia].
  exists t1, s1, ((f, None) :: log). rewrite Hs in Hm, Hs1. cbn [sendSeq] in Hm, Hs1.
  change (sendSeq s0) with ((sendSeq s +₆₄ 1)%word) in *.
  assert (Em : map as_sent (accepted_frames ((f, None) :: log)) =
    (FrameStreamChunk, take (Z.to_nat L) payload, (sendSeq s +₆₄ 1)%word)
      :: train_frames (length payload) payload L L (sendSeq s +₆₄ 1)%word).
  { unfold accepted_frames. rewrite filter_cons. simpl. rewrite Hf. f_equal; [|exact Hm].
    unfold frag, sub_bytes. simpl. by rewrite Z.sub_0_r. }
  split_and!; [exact Et'| |by rewrite Hc1, Hc2|exact Em|].
  - rewrite Hw1, Hw, Hnx, Ha, <- app_assoc. done.
  - rewrite Hs1. rewrite <- (last_seq_map as_sent), Em. done.
Qed.

(** ** Properties *)

(** C17: a stream message arrives whole.  With the two ends in step and credit
    available, sending any payload succeeds however often the transport answers
    back-pressure in between, costs exactly one credit unit, and the frames it
    accepted (one frame, or the whole train of an oversize message) make the
    receiver deliver exactly that payload as one credited item, with nothing
    pending and the two ends in step for the next message. *)
Theorem message_round_trip t s t' r payload :
  in_step t s t' r -> can_send t s payload ->
  exists t1 s1 log, SendMsg None [] payload (t, s) = Ret (t1, s1) None /\
    sendCredit s1 = (Credit.reserve (sendCredit s)).1 /\
    wire t1 = wire t ++ log /\
    feed (accepted_frames log) (t', r) = Ret (t', delivered payload (sendSeq s1) r) None.
Proof.
  intros [Hlim [Hce Hu] Hop Hem Hroom Hseq] Hcan.
  destruct (Active (chunkPolicy t) && (SendInline (chunkPolicy t) <? zlen payload)) eqn:Hbig.
  - bool_to_prop. destruct (SendMsg_train t s payload Hcan) as (t1 & s1 & log & E & Hw & Hc & Hm & Hs); [done..|].
    exists t1, s1, log. split_and!; [done..|]. rewrite Hs.
    destruct (cs_fits _ _ _ Hcan) as [HL Hceil]; [done..|].
    destruct (accepted_frames log) as [|f fs]; [discriminate|]. injection Hm as Hk Hp Hctl Hm.
    assert (Lp : zlen (Payload f) = SendInline (chunkPolicy t)) by (rewrite Hp; apply zlen_take; lia).
    rewrite (feed_cons _ _ _ _ _ _ (chunk_accepted f t' r Hop ltac:(unfold as_sent; congruence)
      ltac:(lia) ltac:(lia) ltac:(congruence) ltac:(rewrite Hem; unfold zlen at 1; simpl; lia))).
    rewrite (feed_train _ _ _ _ _ _ _ _ Hm); simpl; try done; try lia.
    + congruence.
    + unfold zlen. lia.
    + by rewrite Hem, Hp.
    + by rewrite Hseq.
  - destruct (SendMsg_single t s payload Hcan Hbig) as (t1 & s1 & f & E & Hw & Hf & Hs & Hc).
    injection Hf as Hk Hp Hctl. exists t1, s1, [(f, None)]. split_and!; [done..|].
    change (accepted_frames [(f, None)]) with [f].
    rewrite (feed_cons _ _ _ _ _ _ (msg_accepted f t' r Hop ltac:(unfold as_sent; congruence) Hroom
      ltac:(rewrite Hem; unfold zlen; simpl; lia))).
    cbn [feed]. run_prog. rewrite Hem, Hp, Hs, Hseq. done.
Qed.

End with_sink.

(** A sender whose transport takes the first fragment, refuses the second once
    with backpressure and takes the rest, and the receiver at the other end. *)
Definition limits : ChunkPolicy := mkPolicy true 100 3 3.
Definition sending : StreamTable Leases.LeaseTable :=
  NewStreamTable 2 None limits 0
    [mkAnswer None false None None; mkAnswer (Some [ErrBackpressure]) false None None].
Definition receiving : StreamTable Leases.LeaseTable := NewStreamTable 2 None limits 0 [].
Definition end_of (side : StreamSide) : Stream :=
  set_phase streamPublished (newStream 0 0 1 side (mkConfig 4 1000 7 8 BidiStreaming [])).

Lemma message_round_trip_witness :
  exists t1 s1 log,
    SendMsg None [] [1; 2; 3; 4; 5; 6; 7] (sending, end_of ClientStream) = Ret (t1, s1) None /\
    length log = 4%nat /\ length (accepted_frames log) = 3%nat /\
    feed (accepted_frames log) (receiving, end_of ServerStream) =
      Ret (receiving, delivered [1; 2; 3; 4; 5; 6; 7] 3 (end_of ServerStream)) None.
Proof.
  destruct (message_round_trip sending (end_of ClientStream) receiving (end_of ServerStream) [1; 2; 3; 4; 5; 6; 7])
    as (t1 & s1 & log & H & _ & Hw & Hf).
  - constructor; try done.
  - constructor; try done. constructor; [by left|]. constructor; [by right|constructor].
  - exists t1, s1, log. split; [exact H|]. 
    destruct (SendMsg None [] [1; 2; 3; 4; 5; 6; 7] (sending, end_of ClientStream)) as [w' r| |] eqn:E; try discriminate.
    injection H as -> ->. vm_compute in E. injection E as <- <-. vm_compute in Hw. subst log.
    split_and!; [reflexivity|reflexivity|exact Hf].
Defined.

End Chunks.
