(* ===== verification/StreamLifecycle.v ===== *)
(** * The life of a stream
    (stream.go, stream_table.go, stream_teardown.go)

    The terminal transition in closed form, the invariant every method keeps,
    and what holds of a connection after any sequence of operations and
    arbitrary inbound frames: no method panics, the table holds exactly the live
    streams and never more than its cap, a terminal outcome never changes, and
    teardown settles every stream with the right error. *)

From stdpp Require Import gmap.
From S2P Require Import Prelude CreditFlow LeaseTable TransportFrame StreamCore.
Import Frames Streams.

Module Lifecycle.

Section with_sink.
Context {K : Type} `{!ObligationSink K}.
Implicit Types (t : StreamTable K) (s : Stream).

Abbreviation sprog := (prog (StreamTable K * Stream)).
Abbreviation tprog := (prog (StreamTable K)).

(** ** The terminal transition in closed form *)

Definition won (oc : StreamOutcome) (code : Z) (s : Stream) : Stream :=
  discardRecvAccum (set_teardownCode code (set_outcome oc (set_phase (terminalPhaseFor (OCode oc)) s))).

Definition claimed (loc presend : bool) (s : Stream) : token_word :=
  if presend then token s else
  match token s with
  | tokenIdle => tokenTerminal
  | tokenACKOutstanding => if loc then tokenCancelOwed else tokenTerminal
  | x => x
  end.

Definition finished (loc presend : bool) (s : Stream) : Stream :=
  notifySend (set_done true (set_token (claimed loc presend s) (cancelCtx s))).

(** What the winner's teardown leaves of the table. *)
Record table_after (i : Z) (t t' : StreamTable K) : Prop := {
  ta_streams : streams t' = delete i (streams t);
  ta_finishers : finishers t' = finishers t - 1;
  ta_queue : armQueue t' = armQueue t;
  ta_fixed : maxOpen t' = maxOpen t /\ closed t' = closed t /\ stopped t' = stopped t /\
    connDone t' = connDone t /\ emitCap t' = emitCap t /\ emitReserve t' = emitReserve t /\
    chunkPolicy t' = chunkPolicy t /\ discarded t' = discarded t;
  ta_emit : zlen (emitCh t) <= emitCap t -> zlen (emitCh t') <= emitCap t;
  ta_owed : match obligations t, obligations t' with
            | Some k, Some k' => owed k' ⊆ owed k /\ owed k ∖ {[i]} ⊆ owed k'
            | None, None => True
            | _, _ => False
            end
}.

(** What a table operation inside a stream method may change. *)
Record table_quiet (i : Z) (t t' : StreamTable K) : Prop := {
  tq_streams : streams t' = streams t;
  tq_finishers : finishers t' = finishers t;
  tq_queue : armQueue t' = armQueue t;
  tq_fixed : maxOpen t' = maxOpen t /\ closed t' = closed t /\ stopped t' = stopped t /\
    connDone t' = connDone t /\ emitCap t' = emitCap t /\ emitReserve t' = emitReserve t /\
    chunkPolicy t' = chunkPolicy t /\ discarded t' = discarded t;
  tq_emit : zlen (emitCh t) <= emitCap t -> zlen (emitCh t') <= emitCap t;
  tq_owed : match obligations t, obligations t' with
            | Some k, Some k' => owed k' ⊆ owed k /\ owed k ∖ {[i]} ⊆ owed k'
            | None, None => True
            | _, _ => False
            end
}.

(** For an operation that leaves the obligations and the emitter queue alone. *)
Ltac solve_quiet :=
  constructor; simpl; try done;
  repeat match goal with |- context [obligations ?t] => destruct (obligations t) end; simpl;
  rewrite ?owed_close; try done; set_solver.

Lemma table_quiet_refl i t : table_quiet i t t.
Proof. solve_quiet. Qed.

Lemma table_quiet_trans i t1 t2 t3 : table_quiet i t1 t2 -> table_quiet i t2 t3 -> table_quiet i t1 t3.
Proof.
  intros [? ? ? F1 E1 O1] [? ? ? F2 E2 O2]. constructor; try congruence.
  - intuition congruence.
  - assert (Hcap : emitCap t2 = emitCap t1) by apply F1. rewrite Hcap in E2. auto.
  - destruct (obligations t1), (obligations t2), (obligations t3); try done; set_solver.
Qed.

Lemma failIfConnLive_quiet i e t : table_quiet i t (failIfConnLive e t).
Proof.
  unfold failIfConnLive, failConn. destruct (connDone t), (isClosing t), (fatalErr t);
    try apply table_quiet_refl; solve_quiet.
Qed.

Lemma Send_quiet i f t : exists t' a, Send f t = Ret t' a /\ a = next_answer t /\ table_quiet i t t' /\
  wire t' = wire t ++ [(f, ans a)].
Proof.
  unfold Send. do 2 eexists. split_and!; try reflexivity.
  solve_quiet.
Qed.

Lemma closeObligation_quiet i t : table_quiet i t (closeObligation i t).
Proof. solve_quiet. Qed.

Lemma enqueueEmit_quiet i j t : exists t' b, enqueueEmit j t = Ret t' b /\ table_quiet i t t' /\ wire t' = wire t.
Proof.
  unfold enqueueEmit. case_test; [by do 2 eexists; split_and!; [reflexivity|apply table_quiet_refl|]|].
  case_test; [|by do 2 eexists; split_and!; [reflexivity|apply table_quiet_refl|]].
  do 2 eexists. split_and!; [reflexivity| |done].
  bool_to_prop. unfold zlen in *. constructor; simpl; try done.
  - unfold zlen. rewrite length_app. simpl. lia.
  - destruct (obligations t); [set_solver|done].
Qed.

Lemma sendTeardownCancel_quiet i t s :
  exists t', sendTeardownCancel (t, s) = Ret (t', s) tt /\ table_quiet i t t'.
Proof.
  unfold sendTeardownCancel. run_prog.
  destruct (Send_quiet i (mkFrame (callID s) FrameCancel 0 0 0 [] None (teardownCode s)) t)
    as (t' & a & E & _ & Q & _).
  rewrite E. destruct (ans a) as [e|]; simpl.
  - eexists. split; [reflexivity|]. eapply table_quiet_trans; [exact Q|]. apply failIfConnLive_quiet.
  - by eexists.
Qed.

Lemma emitTeardownErr_quiet i keep t s :
  exists t', emitTeardownErr keep (t, s) = Ret (t', s) tt /\ table_quiet i t t'.
Proof.
  unfold emitTeardownErr, emitTeardownErrKeepObligation, emitStreamErr. run_prog. destruct keep; run_prog.
  - destruct (enqueueEmit_quiet i (mkJob (callID s) (mkStatus (teardownCode s) [] []) false true) t)
      as (t' & b & E & Q & _). rewrite E. by eexists.
  - destruct (enqueueEmit_quiet i (mkJob (callID s) (mkStatus (teardownCode s) [] []) false false) t)
      as (t' & b & E & Q & _). rewrite E. by eexists.
Qed.

Definition claimable (s : Stream) : bool :=
  match token s with tokenIdle | tokenACKOutstanding => true | _ => false end.

Lemma emit_terminal_quiet i loc b t s :
  exists t' d, emit_terminal loc b (t, s) = Ret (t', s) d /\ table_quiet i t t'.
Proof.
  unfold emit_terminal. destruct loc.
  - destruct (emitTeardownErr_quiet i b t s) as (t' & E & Q). run_prog. rewrite E. by do 2 eexists.
  - run_prog. destruct (handlerErrStatus s) as [st|]; [|by do 2 eexists; split; [|apply table_quiet_refl]].
    unfold emitStreamErr. destruct (enqueueEmit_quiet i (mkJob (callID s) st false false) t) as (t' & d & E & Q & _).
    run_prog. rewrite E. by do 2 eexists.
Qed.

Lemma claim_and_emit_quiet i loc t s :
  claimable s = true ->
  exists t' d, claim_and_emit loc (t, s) = Ret (t', set_token (claimed loc false s) s) d /\ table_quiet i t t'.
Proof.
  intros Hc. unfold claimable in Hc. unfold claim_and_emit, claimTerminalToken, claimed.
  run_prog. destruct (token s); try discriminate; cbn.
  - destruct loc; cbn.
    + destruct (sendTeardownCancel_quiet i t (set_token tokenTerminal s)) as (t1 & E1 & Q1). rewrite E1.
      destruct (emit_terminal_quiet i true false t1 (set_token tokenTerminal s)) as (t' & d & E & Q). rewrite E.
      do 2 eexists. split; [done|]. by eapply table_quiet_trans.
    + apply emit_terminal_quiet.
  - apply emit_terminal_quiet.
Qed.

Lemma cancelCtx_fields s :
  token (cancelCtx s) = token s /\ done (cancelCtx s) = done s /\ callID (cancelCtx s) = callID s.
Proof. unfold cancelCtx. by destruct (ctxErr s). Qed.

Lemma close_unless_quiet dfr i t s :
  exists t', close_unless dfr i (t, s) = Ret (t', s) tt /\ table_quiet i t t'.
Proof.
  unfold close_unless. destruct dfr; run_prog; eexists; (split; [reflexivity|]);
    [apply table_quiet_refl|apply closeObligation_quiet].
Qed.

Lemma finishTerminal_spec loc presend t s :
  done s = false -> (presend = false -> claimable s = true) -> 0 < finishers t ->
  exists t', finishTerminal loc presend (t, s) = Ret (t', finished loc presend s) tt /\
    table_after (callID s) t t'.
Proof.
  intros Hd Hc Hf. destruct (cancelCtx_fields s) as (Et & Ed & Ei).
  assert (HM : exists t1 dfr, (if presend then mret false else claim_and_emit loc) (t, cancelCtx s) =
    Ret (t1, set_token (claimed loc presend s) (cancelCtx s)) dfr /\ table_quiet (callID s) t t1).
  { destruct presend.
    - exists t, false. split; [|apply table_quiet_refl]. cbn. unfold claimed, mret, prog_ret. do 2 f_equal.
      rewrite <- Et. by destruct (cancelCtx s).
    - destruct (claim_and_emit_quiet (callID s) loc t (cancelCtx s)) as (t1 & d & E & Q).
      + unfold claimable in *. rewrite Et. by apply Hc.
      + exists t1, d. split; [|done]. rewrite E. unfold claimed. by rewrite Et. }
  destruct HM as (t1 & dfr & E1 & Q1).
  destruct (close_unless_quiet dfr (callID s) t1 (set_token (claimed loc presend s) (cancelCtx s)))
    as (t2 & E2 & Q2).
  pose proof (table_quiet_trans _ _ _ _ Q1 Q2) as [QS QF QQ QX QE QO].
  unfold finishTerminal, mbind, prog_bind, sput at 1. rewrite E1. unfold sget. cbv beta iota delta [id].
  change (callID (set_token (claimed loc presend s) (cancelCtx s))) with (callID (cancelCtx s)). rewrite Ei, E2.
  unfold closeDone. cbn [done set_token]. rewrite Ed, Hd. unfold tput, on_table, finisherDone. cbn.
  destruct (Z.leb_spec (finishers t2) 0); [lia|].
  eexists. split; [reflexivity|]. constructor; simpl; auto; congruence.
Qed.

(** Whoever wins the transition runs its whole teardown; a loser changes
    nothing. *)
Lemma cas_phase_spec target from s :
  cas_phase target from s = if decide (phase s ∈ from) then Some (set_phase target s) else None.
Proof.
  induction from as [|p from IH]; cbn [cas_phase].
  { rewrite decide_False; [done|]. apply not_elem_of_nil. }
  destruct (decide (phase s = p)) as [Hp|Hp].
  - rewrite decide_True; [done|]. rewrite elem_of_cons. by left.
  - rewrite IH. destruct (decide (phase s ∈ from)) as [Hi|Hi].
    + rewrite decide_True; [done|]. rewrite elem_of_cons. by right.
    + rewrite decide_False; [done|]. by intros [?|?]%elem_of_cons.
Qed.

Lemma terminate_spec oc code loc from t s :
  done s = false -> (openSendPending s = false -> claimable s = true) -> 0 <= finishers t ->
  (phase s ∈ from ->
     exists t', terminate oc code loc from (t, s) =
       Ret (t', finished loc (openSendPending s) (won oc code s)) true /\
     table_after (callID s) (set_finishers (finishers t + 1) t) t') /\
  (phase s ∉ from -> terminate oc code loc from (t, s) = Ret (t, s) false).
Proof.
  intros Hd Hc Hf. unfold terminate, casTerminal. run_prog. rewrite cas_phase_spec. split; intros Hp.
  - rewrite decide_True by done. cbn.
    destruct (finishTerminal_spec loc (openSendPending s) (set_finishers (finishers t + 1) t) (won oc code s))
      as (t' & E & Ht); [done|done|simpl; lia|].
    exists t'. change (discardRecvAccum _) with (won oc code s). rewrite E. done.
  - by rewrite decide_False by done.
Qed.

Lemma terminateLocked_spec oc from t s :
  done s = false -> (openSendPending s = false -> claimable s = true) -> 0 <= finishers t ->
  (phase s ∈ from ->
     exists t', terminateLocked oc from (t, s) =
       Ret (t', finished false (openSendPending s) (won oc 0 s)) tt /\
     table_after (callID s) (set_finishers (finishers t + 1) t) t') /\
  (phase s ∉ from -> terminateLocked oc from (t, s) = Ret (t, s) tt).
Proof.
  intros Hd Hc Hf. unfold terminateLocked, casTerminal. run_prog. rewrite cas_phase_spec. split; intros Hp.
  - rewrite decide_True by done. cbn.
    destruct (finishTerminal_spec false (openSendPending s) (set_finishers (finishers t + 1) t) (won oc 0 s))
      as (t' & E & Ht); [done|done|simpl; lia|].
    exists t'. change (discardRecvAccum _) with (won oc 0 s). rewrite E. done.
  - by rewrite decide_False by done.
Qed.

(** ** The invariant of a stream between two methods *)

Record stream_ok (s : Stream) : Prop := {
  so_done : done s = negb (isLive s);
  so_token : isLive s = true -> token s = tokenIdle;
  so_rclosed : recvClosed s = true -> remoteClosed s = true;
  so_accum : isLive s = false -> recvAccum s = [];
  so_outcome : isLive s = false -> phase s = terminalPhaseFor (OCode (outcome s));
  so_cap : zlen (recvCh s) <= recvCap s
}.

(** What one method may do to its stream and the table. *)
Record sstep (t : StreamTable K) (s : Stream) (t' : StreamTable K) (s' : Stream) : Prop := {
  ss_ok : stream_ok s';
  ss_id : self s' = self s /\ callID s' = callID s /\ recvCap s' = recvCap s;
  ss_dead : isLive s = false -> phase s' = phase s /\ outcome s' = outcome s;
  ss_streams : streams t' =
    if isLive s && negb (isLive s') then delete (callID s) (streams t) else streams t;
  ss_finishers : finishers t' = finishers t;
  ss_queue : armed s' = armed s /\ armQueue t' = armQueue t \/
    armed s = false /\ armed s' = true /\ armQueue t' = armQueue t ++ [self s];
  ss_fixed : maxOpen t' = maxOpen t /\ closed t' = closed t /\ stopped t' = stopped t /\
    connDone t' = connDone t /\ emitCap t' = emitCap t /\ emitReserve t' = emitReserve t /\
    chunkPolicy t' = chunkPolicy t;
  ss_emit : zlen (emitCh t) <= emitCap t -> zlen (emitCh t') <= emitCap t
}.

Lemma isLive_phase s s' : phase s' = phase s -> isLive s' = isLive s.
Proof. unfold isLive. by intros ->. Qed.

Lemma sstep_trans t1 s1 t2 s2 t3 s3 : sstep t1 s1 t2 s2 -> sstep t2 s2 t3 s3 -> sstep t1 s1 t3 s3.
Proof.
  intros [O1 I1 D1 S1 F1 Q1 X1 E1] [O2 I2 D2 S2 F2 Q2 X2 E2]. constructor; auto; try congruence.
  - intuition congruence.
  - intros Hd. destruct (D1 Hd) as [P1 U1]. destruct D2 as [P2 U2]; [by rewrite (isLive_phase s1)|].
    split; congruence.
  - rewrite S2, S1. destruct I1 as (_ & -> & _).
    destruct (isLive s1) eqn:L1, (isLive s2) eqn:L2, (isLive s3) eqn:L3; simpl; try done.
    + destruct (D2 eq_refl) as [P2 _]. apply (isLive_phase s2) in P2. congruence.
    + destruct (D1 eq_refl) as [P1 _]. apply (isLive_phase s1) in P1. congruence.
  - destruct I1 as (I1 & _).
    destruct Q1 as [[A1 B1]|(A1 & C1 & B1)], Q2 as [[A2 B2]|(A2 & C2 & B2)]; try congruence;
      [left; split; congruence|right; split_and!; congruence..].
  - intuition congruence.
  - intros H. assert (Hc : emitCap t2 = emitCap t1) by apply X1. rewrite Hc in E2. auto.
Qed.

Definition ok_at {A} (m : sprog A) (t : StreamTable K) (s : Stream) : Prop :=
  match m (t, s) with
  | Ret (t', s') _ => sstep t s t' s'
  | Panics => False
  | Parks => True
  end.

(** A method that keeps the invariant, and never panics where it holds. *)
Definition safe {A} (m : sprog A) : Prop :=
  forall t s, stream_ok s -> 0 <= finishers t -> ok_at m t s.

Lemma ok_at_bind {A B} (m : sprog A) (k : A -> sprog B) t s :
  ok_at m t s ->
  (forall t' s' a, m (t, s) = Ret (t', s') a -> sstep t s t' s' -> ok_at (k a) t' s') ->
  ok_at (m ≫= k) t s.
Proof.
  unfold ok_at at 1 3, mbind, prog_bind. destruct (m (t, s)) as [[t1 s1] a| |] eqn:E; try done.
  intros H1 Hk. specialize (Hk t1 s1 a eq_refl H1). unfold ok_at in Hk.
  destruct (k a (t1, s1)) as [[t2 s2] b| |]; try done. by eapply sstep_trans.
Qed.

Lemma safe_bind {A B} (m : sprog A) (k : A -> sprog B) :
  safe m -> (forall a, safe (k a)) -> safe (m ≫= k).
Proof.
  intros Hm Hk t s Hs Hf. apply ok_at_bind; [by apply Hm|]. intros t' s' a _ Hst.
  apply Hk; [apply Hst|]. by rewrite (ss_finishers _ _ _ _ Hst).
Qed.

(** A step that leaves the phase and the arming alone and keeps the rest of
    the invariant. *)
Lemma sstep_local i t s t' s' :
  stream_ok s' -> table_quiet i t t' ->
  self s' = self s -> callID s' = callID s -> recvCap s' = recvCap s ->
  phase s' = phase s -> outcome s' = outcome s -> armed s' = armed s -> sstep t s t' s'.
Proof.
  intros Hok [? ? ? ? ? ?] ? ? ? Hp ? ?. constructor; auto; try (intuition congruence).
  rewrite (isLive_phase s s' Hp). destruct (isLive s); simpl; auto.
Qed.

Lemma sstep_refl t s : stream_ok s -> sstep t s t s.
Proof. intros. by apply (sstep_local 0); auto using table_quiet_refl. Qed.

Lemma safe_ret {A} (a : A) : safe (mret a).
Proof. intros t s Hs _. by apply sstep_refl. Qed.
Lemma safe_park {A} : safe (A := A) park.
Proof. by intros t s Hs _. Qed.
Lemma safe_sget {A} (f : Stream -> A) : safe (sget f).
Proof. intros t s Hs _. by apply sstep_refl. Qed.
Lemma safe_tget {A} (f : StreamTable K -> A) : safe (tget f).
Proof. intros t s Hs _. by apply sstep_refl. Qed.

(** Updates of fields the invariant does not mention. *)
Definition harmless (f : Stream -> Stream) : Prop :=
  forall s, self (f s) = self s /\ callID (f s) = callID s /\ phase (f s) = phase s /\
    closeBits (f s) = closeBits s /\ token (f s) = token s /\ recvCh (f s) = recvCh s /\
    recvCap (f s) = recvCap s /\ recvAccum (f s) = recvAccum s /\ recvClosed (f s) = recvClosed s /\
    armed (f s) = armed s /\ done (f s) = done s /\ outcome (f s) = outcome s.

Lemma harmless_ok f s : harmless f -> stream_ok s -> stream_ok (f s).
Proof.
  intros Hf [? ? Hr ? ? ?]. destruct (Hf s) as (? & ? & Hp & Hb & Ht & Hc & Hcap & Ha & Hrc & _ & Hd & Ho).
  pose proof (isLive_phase s (f s) Hp) as HL. unfold remoteClosed in *.
  constructor; unfold remoteClosed; rewrite ?HL, ?Hd, ?Ht, ?Hrc, ?Hb, ?Ha, ?Hp, ?Ho, ?Hc, ?Hcap; auto.
Qed.

Lemma safe_sput f : harmless f -> safe (sput f).
Proof.
  intros Hf t s Hs _. unfold ok_at, sput. destruct (Hf s) as (? & ? & ? & ? & ? & ? & ? & ? & ? & ? & ? & ?).
  apply (sstep_local 0); auto using table_quiet_refl, harmless_ok.
Qed.

Lemma safe_tput (f : StreamTable K -> StreamTable K) :
  (forall t, exists i, table_quiet i t (f t)) -> safe (tput f).
Proof. intros Hf t s Hs _. unfold ok_at, tput. destruct (Hf t) as [i Hq]. by apply (sstep_local i). Qed.

Lemma safe_on_table {A} (m : tprog A) :
  (forall t, exists i t' a, m t = Ret t' a /\ table_quiet i t t') -> safe (on_table m).
Proof.
  intros Hm t s Hs _. unfold ok_at, on_table. destruct (Hm t) as (i & t' & a & -> & Hq). by apply (sstep_local i).
Qed.

Lemma safe_arm : safe arm.
Proof.
  intros t s Hs _. unfold ok_at, arm. destruct (deferred s); [by apply sstep_refl|].
  destruct (armed s) eqn:Ha; [by apply sstep_refl|]. destruct Hs.
  constructor; simpl; auto.
  - by constructor.
  - rewrite (isLive_phase s (set_armed true s)) by done. by destruct (isLive s).
  - by split_and!.
Qed.

Lemma live_phases_spec s : phase s ∈ live_phases <-> isLive s = true.
Proof.
  unfold live_phases, isLive. rewrite !elem_of_cons, elem_of_nil.
  destruct (phase s); split; intros; try done; intuition congruence.
Qed.

Lemma terminalPhase_dead c : match terminalPhaseFor c with streamSubmitted | streamPublished => true | _ => false end = false.
Proof. by destruct c. Qed.

Lemma finished_fields oc code loc presend s :
  let s' := finished loc presend (won oc code s) in
  phase s' = terminalPhaseFor (OCode oc) /\ outcome s' = oc /\ done s' = true /\ recvAccum s' = [] /\
  recvCh s' = recvCh s /\ recvCap s' = recvCap s /\ recvClosed s' = recvClosed s /\
  closeBits s' = closeBits s /\ armed s' = armed s /\ self s' = self s /\ callID s' = callID s.
Proof. unfold finished, cancelCtx. simpl. destruct (ctxErr s); by split_and!. Qed.

Lemma finished_dead oc code loc presend s : isLive (finished loc presend (won oc code s)) = false.
Proof.
  unfold isLive. rewrite (proj1 (finished_fields oc code loc presend s)). apply terminalPhase_dead.
Qed.

Lemma finished_step oc code loc presend t s t' :
  stream_ok s -> isLive s = true ->
  table_after (callID s) (set_finishers (finishers t + 1) t) t' ->
  sstep t s t' (finished loc presend (won oc code s)).
Proof.
  intros [? ? Hr ? ? ?] Hl [TS TF TQ TX TE TO]. simpl in *.
  pose proof (finished_dead oc code loc presend s) as Hdead.
  destruct (finished_fields oc code loc presend s) as (Fp & Fo & Fd & Fa & Fc & Fcap & Fr & Fb & Far & Fs & Fi).
  set (s' := finished loc presend (won oc code s)) in *. clearbody s'.
  constructor; auto; try lia.
  - unfold remoteClosed in *. constructor; unfold remoteClosed; rewrite ?Hdead; try congruence.
    + by rewrite Fd.
    + rewrite Fr, Fb. done.
  - congruence.
  - by rewrite Hl, Hdead.
  - intuition congruence.
Qed.

Lemma live_claimable s : stream_ok s -> isLive s = true -> done s = false /\ claimable s = true.
Proof.
  intros Hs Hl. rewrite (so_done s Hs), Hl. unfold claimable. by rewrite (so_token s Hs Hl).
Qed.

Lemma dead_not_in s from : Forall (fun p => p ∈ live_phases) from -> isLive s = false -> phase s ∉ from.
Proof.
  intros Hf Hd Hi. rewrite Forall_forall in Hf. apply Hf in Hi. apply live_phases_spec in Hi. congruence.
Qed.

Lemma casTerminal_lost oc code from t s : phase s ∉ from -> casTerminal oc code from (t, s) = Ret (t, s) (false, false).
Proof. intros H. unfold casTerminal. by rewrite cas_phase_spec, decide_False. Qed.

Lemma safe_terminate oc code loc from :
  Forall (fun p => p ∈ live_phases) from -> safe (terminate oc code loc from).
Proof.
  intros Hfr t s Hs Hf. unfold ok_at. destruct (decide (phase s ∈ from)) as [Hi|Hi].
  - assert (Hl : isLive s = true) by (apply live_phases_spec; rewrite Forall_forall in Hfr; auto).
    destruct (live_claimable s Hs Hl). destruct (terminate_spec oc code loc from t s) as [HT _]; auto.
    destruct (HT Hi) as (t' & -> & Ha). by apply finished_step.
  - unfold terminate, mbind, prog_bind. rewrite casTerminal_lost by done. by apply sstep_refl.
Qed.

Lemma safe_terminateLocked oc from :
  Forall (fun p => p ∈ live_phases) from -> safe (terminateLocked oc from).
Proof.
  intros Hfr t s Hs Hf. unfold ok_at. destruct (decide (phase s ∈ from)) as [Hi|Hi].
  - assert (Hl : isLive s = true) by (apply live_phases_spec; rewrite Forall_forall in Hfr; auto).
    destruct (live_claimable s Hs Hl). destruct (terminateLocked_spec oc from t s) as [HT _]; auto.
    destruct (HT Hi) as (t' & -> & Ha). by apply finished_step.
  - unfold terminateLocked, mbind, prog_bind. rewrite casTerminal_lost by done. by apply sstep_refl.
Qed.

Lemma all_live : Forall (fun p => p ∈ live_phases) live_phases.
Proof. by apply Forall_forall. Qed.

Lemma casTerminal_won oc code from t s :
  phase s ∈ from ->
  casTerminal oc code from (t, s) =
    Ret (set_finishers (finishers t + 1) t, won oc code s) (true, openSendPending s).
Proof. intros H. unfold casTerminal. by rewrite cas_phase_spec, decide_True. Qed.

Lemma finished_handler st oc t s t' :
  stream_ok s -> isLive s = true -> 0 <= finishers t ->
  table_after (callID s) (set_finishers (finishers t + 1) t) t' ->
  sstep t s t' (finished false (openSendPending s) (set_handlerErrStatus st (won oc 0 s))).
Proof.
  intros Hs Hl Hf Ha. eapply sstep_trans; [by apply (finished_step oc 0 false (openSendPending s) t s t')|].
  replace (finished false (openSendPending s) (set_handlerErrStatus st (won oc 0 s)))
    with (set_handlerErrStatus st (finished false (openSendPending s) (won oc 0 s)))
    by (unfold finished, cancelCtx; simpl; by destruct (ctxErr s)).
  apply (safe_sput (set_handlerErrStatus st)); [by intros ?; split_and!|apply (finished_step oc 0 false _ t s t' Hs Hl Ha)|].
  rewrite (ta_finishers _ _ _ Ha). simpl. lia.
Qed.

Lemma safe_TerminateHandlerError st : safe (TerminateHandlerError st).
Proof.
  intros t s Hs Hf. unfold ok_at, TerminateHandlerError. set (oc := mkOutcome _ _).
  destruct (isLive s) eqn:Hl.
  - destruct (live_claimable s Hs Hl) as [Hd Hc]. unfold mbind, prog_bind.
    rewrite casTerminal_won by by apply live_phases_spec. unfold sput.
    destruct (finishTerminal_spec false (openSendPending s) (set_finishers (finishers t + 1) t)
      (set_handlerErrStatus (Some (default (mkStatus 0 [] []) st)) (won oc 0 s))) as (t' & -> & Ha);
      [done|done|simpl; lia|]. by apply finished_handler.
  - unfold mbind, prog_bind. rewrite casTerminal_lost; [by apply sstep_refl|].
    apply dead_not_in; [apply all_live|done].
Qed.

(** ** Every method keeps the invariant *)

Create HintDb safe.
#[local] Hint Resolve safe_ret safe_park safe_sget safe_tget safe_arm safe_terminate safe_terminateLocked
  safe_TerminateHandlerError all_live : safe.

Ltac prove_harmless := intros ?; repeat case_match; by split_and!.

Ltac prove_safe :=
  repeat (intros;
    lazymatch goal with
    | |- safe (_ ≫= _) => apply safe_bind
    | |- safe (sput _) => first [solve [auto with safe] | apply safe_sput; prove_harmless]
    | |- safe (if ?b then _ else _) => let E := fresh "E" in destruct b eqn:E
    | |- safe (match ?x with _ => _ end) => let E := fresh "E" in destruct x eqn:E
    | |- safe _ => first [solve [auto with safe] | fail 1]
    end).

Lemma safe_Send f : safe (on_table (Send f)).
Proof.
  apply safe_on_table. intros t. destruct (Send_quiet 0 f t) as (t' & a & E & _ & Q & _). eauto.
Qed.
Lemma safe_sendTeardownCancel : safe sendTeardownCancel.
Proof.
  intros t s Hs Hf. unfold ok_at. destruct (sendTeardownCancel_quiet 0 t s) as (t' & -> & Q).
  by apply (sstep_local 0).
Qed.
Lemma safe_closeObligation i : safe (tput (closeObligation i)).
Proof. apply safe_tput. intros t. exists i. apply closeObligation_quiet. Qed.
Lemma safe_failIfConnLive e : safe (tput (failIfConnLive e)).
Proof. apply safe_tput. intros t. exists 0. apply failIfConnLive_quiet. Qed.
Lemma safe_timers f : safe (tput (fun t => set_timers (f t) t)).
Proof. apply safe_tput. intros t. exists 0. solve_quiet. Qed.
#[local] Hint Resolve safe_Send safe_sendTeardownCancel safe_closeObligation safe_failIfConnLive safe_timers : safe.

Lemma safe_mapDeadline : safe mapDeadlineToTerminal.
Proof. unfold mapDeadlineToTerminal. prove_safe. Qed.
Lemma safe_mapCancel c : safe (mapCancelToTerminal c).
Proof. unfold mapCancelToTerminal. prove_safe. Qed.
#[local] Hint Resolve safe_mapDeadline safe_mapCancel : safe.

Lemma safe_TerminateLocal e : safe (TerminateLocal e).
Proof. unfold TerminateLocal, TerminateOpenAmbiguous. prove_safe. Qed.
Lemma safe_watchDeadline : safe watchDeadline.
Proof. unfold watchDeadline. prove_safe. Qed.
Lemma safe_Discard c : safe (DiscardUnaccepted c).
Proof. unfold DiscardUnaccepted. prove_safe. Qed.
Lemma safe_fail_stream d n : safe (fail_stream d n).
Proof.
  unfold fail_stream. prove_safe; apply safe_terminate; repeat constructor; unfold live_phases;
    rewrite !elem_of_cons; auto.
Qed.
Lemma safe_terminal_ctx c e : safe (terminal_ctx_err c e).
Proof. unfold terminal_ctx_err. prove_safe. Qed.
#[local] Hint Resolve safe_terminal_ctx : safe.

Lemma safe_handleSendErr c e seq : safe (handleSendErr c e seq).
Proof. unfold handleSendErr. prove_safe. Qed.
Lemma safe_sendUnder f : safe (sendUnder f).
Proof. unfold sendUnder, expire. prove_safe. Qed.
Lemma safe_nextSeq : safe nextSeq.
Proof.
  intros t s Hs Hf. unfold ok_at, nextSeq.
  apply (safe_sput (set_sendSeq (sendSeq s +₆₄ 1)%word)); [prove_harmless|done..].
Qed.
#[local] Hint Resolve safe_handleSendErr safe_sendUnder safe_nextSeq : safe.

Lemma safe_sendFragment frag seq kind : safe (sendFragment frag seq kind).
Proof. unfold sendFragment. prove_safe. Qed.
Lemma safe_failVisibleTrain c e : safe (failVisibleTrain c e).
Proof. unfold failVisibleTrain. prove_safe. Qed.
#[local] Hint Resolve safe_sendFragment safe_failVisibleTrain : safe.

Lemma safe_fragment_retry fuel delay frag seq kind : safe (fragment_retry fuel delay frag seq kind).
Proof.
  revert delay. induction fuel as [|fuel IH]; intros delay; cbn [fragment_retry]; prove_safe.
Qed.

Lemma safe_train_loop fuel buf limit off :
  0 < limit -> 0 <= off -> safe (train_loop fuel buf limit off).
Proof.
  intros Hl. revert off. induction fuel as [|fuel IH]; intros off Ho; cbn [train_loop];
    (destruct (Z.leb_spec (zlen buf) off); [auto with safe|]); [auto with safe|].
  apply safe_bind; [auto with safe|]. intros seq. rewrite slice_in_range by lia.
  unfold sendFragmentRetrying. prove_safe; intros; first [apply safe_fragment_retry|apply IH; lia].
Qed.

Lemma safe_admitCredit : safe (admitCredit []).
Proof.
  intros t s Hs Hf. unfold ok_at, admitCredit. destruct (Credit.reserve (sendCredit s)) as [c [|]]; [|done].
  apply (safe_sput (set_sendCredit c)); [prove_harmless|done..].
Qed.
#[local] Hint Resolve safe_admitCredit safe_fragment_retry : safe.

Lemma safe_SendMsg ctx payload : safe (SendMsg ctx [] payload).
Proof.
  unfold SendMsg, sendChunked, sendFirstFragment. prove_safe; intros; bool_to_prop; try discriminate.
  all: try (rewrite slice_in_range in * by lia; discriminate).
  apply safe_train_loop; lia.
Qed.

Lemma local_bit_keeps_remote b : Z.land (Z.lor b closeLocalBit) closeRemoteBit = Z.land b closeRemoteBit.
Proof. rewrite Z.land_lor_distr_l. change (Z.land closeLocalBit closeRemoteBit) with 0. apply Z.lor_0_r. Qed.

Lemma safe_setLocalBit : safe (sput (fun s => fst (setCloseBit closeLocalBit s))).
Proof.
  intros t s Hs _. unfold ok_at, sput, setCloseBit. case_test; [|by apply sstep_refl]. cbn [fst].
  apply (sstep_local 0); auto using table_quiet_refl. destruct Hs as [? ? Hr ? ? ?].
  constructor; auto. intros Hc. unfold remoteClosed in *. simpl in *. rewrite local_bit_keeps_remote. auto.
Qed.
#[local] Hint Resolve safe_setLocalBit : safe.

Lemma safe_handleCloseSendErr c e : safe (handleCloseSendErr c e).
Proof. unfold handleCloseSendErr. prove_safe. Qed.
#[local] Hint Resolve safe_handleCloseSendErr : safe.

Lemma safe_CloseSend ctx payload : safe (CloseSend ctx payload).
Proof. unfold CloseSend. prove_safe. Qed.

Lemma safe_consumeIfOpen : safe consumeIfOpen.
Proof.
  intros t s Hs Hf. unfold ok_at, consumeIfOpen. destruct (remoteClosed s); [by apply sstep_refl|].
  destruct (Credit.consume (recvCredit s)) as [c [n b]].
  apply (safe_sput (set_recvCredit c)); [prove_harmless|done..].
Qed.
#[local] Hint Resolve safe_consumeIfOpen : safe.

Lemma safe_onDelivered b : safe (onDelivered b).
Proof. unfold onDelivered. prove_safe. Qed.
#[local] Hint Resolve safe_onDelivered : safe.

Lemma safe_drainOne : safe drainOne.
Proof.
  intros t s Hs Hf. unfold drainOne. apply ok_at_bind; [by apply safe_sget|].
  intros t' s' a [= <- <- <-] _. unfold id. destruct (recvCh s) as [|it q] eqn:Hq; [by apply safe_ret|].
  apply ok_at_bind.
  - unfold ok_at, sput. apply (sstep_local 0); auto using table_quiet_refl. destruct Hs as [? ? ? ? ? Hcap].
    constructor; auto. simpl. rewrite Hq in Hcap. unfold zlen in *. simpl in Hcap. lia.
  - intros t' s' a E Hst. assert (safe (onDelivered (credited it) ;; mret (Some it))) as G by prove_safe.
    apply G; [apply Hst|]. by rewrite (ss_finishers _ _ _ _ Hst).
Qed.
#[local] Hint Resolve safe_drainOne : safe.

Lemma safe_RecvMsg : safe (RecvMsg None).
Proof. unfold RecvMsg. prove_safe. Qed.

(** *** Inbound frames *)

Definition inbound_ok (m : sprog (option error)) : Prop :=
  forall t s, stream_ok s -> isLive s = true -> 0 <= finishers t -> ok_at m t s.

Lemma stream_ok_recv s s' :
  stream_ok s -> isLive s = true -> phase s' = phase s -> done s' = done s -> token s' = token s ->
  recvClosed s' = recvClosed s -> closeBits s' = closeBits s -> recvCap s' = recvCap s ->
  zlen (recvCh s') <= recvCap s -> stream_ok s'.
Proof.
  intros [? ? Hr ? ? ?] Hl Hp Hd Ht Hrc Hb Hcap Hq. pose proof (isLive_phase s s' Hp) as HL.
  unfold remoteClosed in *. constructor; unfold remoteClosed; rewrite ?HL, ?Hd, ?Ht, ?Hrc, ?Hb, ?Hcap; auto; congruence.
Qed.

Lemma inbound_keep (m : sprog (option error)) :
  (forall t s, exists s' r, m (t, s) = Ret (t, s') r /\
     self s' = self s /\ callID s' = callID s /\ phase s' = phase s /\ done s' = done s /\
     token s' = token s /\ recvClosed s' = recvClosed s /\ closeBits s' = closeBits s /\
     recvCap s' = recvCap s /\ armed s' = armed s /\ outcome s' = outcome s /\
     (zlen (recvCh s) <= recvCap s -> zlen (recvCh s') <= recvCap s)) ->
  inbound_ok m.
Proof.
  intros Hm t s Hs Hl Hf. unfold ok_at.
  destruct (Hm t s) as (s' & r & -> & ? & ? & ? & ? & ? & ? & ? & ? & ? & ? & Hq).
  apply (sstep_local 0); auto using table_quiet_refl.
  apply (stream_ok_recv s); auto. apply Hq, Hs.
Qed.

Ltac keep_fields := do 2 eexists; split; [reflexivity|]; simpl; split_and!; auto.

Lemma enqueueRecv_fits it s s' :
  enqueueRecv it s = Some s' -> s' = set_recvCh (recvCh s ++ [it]) s /\ zlen (recvCh s ++ [it]) <= recvCap s.
Proof.
  unfold enqueueRecv. destruct (Z.ltb_spec (zlen (recvCh s)) (recvCap s)); [|discriminate].
  intros [= <-]. split; [done|]. unfold zlen in *. rewrite length_app. simpl. lia.
Qed.

Lemma inbound_onStreamMsg f : inbound_ok (onStreamMsg f).
Proof.
  apply inbound_keep. intros t s. unfold onStreamMsg, completeRecvAccum.
  repeat case_test; try (by keep_fields); cbn.
  all: match goal with |- context [enqueueRecv ?it ?x] => destruct (enqueueRecv it x) as [x'|] eqn:Hen end;
    [|by keep_fields]; apply enqueueRecv_fits in Hen as [-> Hq]; simpl in Hq; by keep_fields.
Qed.

Lemma inbound_onStreamChunk f : inbound_ok (onStreamChunk f).
Proof. apply inbound_keep. intros t s. unfold onStreamChunk. repeat case_test; by keep_fields. Qed.

Lemma inbound_onStreamAck f : inbound_ok (onStreamAck f).
Proof.
  apply inbound_keep. intros t s. unfold onStreamAck.
  destruct (Credit.ack_rule (Control f) (sendCredit s)) as [c [|]]; by keep_fields.
Qed.

Lemma inbound_onStreamErr f : inbound_ok (onStreamErr f ;; mret None).
Proof.
  intros t s Hs _ Hf. assert (safe (onStreamErr f ;; mret (A:=option error) None)) as G by (unfold onStreamErr; prove_safe).
  by apply G.
Qed.

Lemma remote_bit_set b : Z.land b closeRemoteBit = 0 -> Z.land (Z.lor b closeRemoteBit) closeRemoteBit <> 0.
Proof. intros H. rewrite Z.land_lor_distr_l, H, Z.lor_0_l. done. Qed.

Lemma inbound_onStreamClose f : inbound_ok (onStreamClose f).
Proof.
  intros t s Hs Hl Hf. unfold ok_at, onStreamClose, setCloseBit.
  destruct (0 <? zlen (recvAccum s)); [by apply sstep_refl|].
  destruct (Z.eqb_spec (Z.land (closeBits s) closeRemoteBit) 0) as [Hb|Hb]; cbn [negb]; [|by apply sstep_refl].
  set (s1 := set_closeBits (Z.lor (closeBits s) closeRemoteBit) s).
  assert (Hrem : remoteClosed s1 = true).
  { unfold remoteClosed. simpl. apply negb_true_iff, Z.eqb_neq. by apply remote_bit_set. }
  assert (Hnc : recvClosed s = false).
  { destruct (recvClosed s) eqn:E; [|done]. apply (so_rclosed s Hs) in E. unfold remoteClosed in E.
    rewrite Hb in E. done. }
  assert (Hok1 : forall q, zlen q <= recvCap s -> stream_ok (set_recvCh q s1)).
  { intros q Hq. destruct Hs as [? ? ? ? ? ?]. constructor; auto. }
  assert (Hst1 : forall q, zlen q <= recvCap s -> sstep t s t (set_recvCh q s1)).
  { intros q Hq. apply (sstep_local 0); auto using table_quiet_refl. }
  assert (E1 : s1 = set_recvCh (recvCh s) s1) by (by destruct s).
  destruct (Control f =? _); cbn [negb]; [|rewrite E1; apply Hst1, Hs].
  assert (HQ : forall q, zlen q <= recvCap s ->
    ok_at (closeRecv ;; s ← sget id;
      (if bothClosed s then terminateLocked (mkOutcome OutcomeCompleted None) live_phases else mret tt) ;;
      mret (A := option error) None) t (set_recvCh q s1)).
  { intros q Hq. apply ok_at_bind.
    - unfold ok_at, closeRecv. simpl. rewrite Hnc. apply (sstep_local 0); auto using table_quiet_refl.
      destruct (Hok1 q Hq). constructor; auto.
    - intros t' s' [] _ Hst. assert (safe (s ← sget id;
        (if bothClosed s then terminateLocked (mkOutcome OutcomeCompleted None) live_phases else mret tt) ;;
        mret (A := option error) None)) as G by prove_safe.
      apply G; [apply Hst|]. by rewrite (ss_finishers _ _ _ _ Hst). }
  destruct (0 <? zlen (Payload f)).
  - destruct (enqueueRecv _ s1) as [s2|] eqn:Hen; [|rewrite E1; apply Hst1, Hs].
    apply enqueueRecv_fits in Hen as [-> Hq]. specialize (HQ _ Hq). revert HQ. unfold ok_at.
    specialize (Hst1 _ Hq). revert Hst1. simpl.
    match goal with |- context [match ?m ?x with _ => _ end] => destruct (m x) as [[? ?] ?| |] end; auto.
    intros. by eapply sstep_trans.
  - specialize (HQ (recvCh s) (so_cap s Hs)). specialize (Hst1 (recvCh s) (so_cap s Hs)). rewrite <- E1 in *.
    revert HQ. unfold ok_at.
    match goal with |- context [match ?m ?x with _ => _ end] => destruct (m x) as [[? ?] ?| |] end; auto.
    intros. by eapply sstep_trans.
Qed.

Lemma inbound_handler f : inbound_ok (stream_handler f).
Proof.
  unfold stream_handler.
  case_test; [apply inbound_onStreamMsg|]. case_test; [apply inbound_onStreamChunk|].
  case_test; [apply inbound_onStreamAck|]. case_test; [apply inbound_onStreamClose|].
  case_test; [apply inbound_onStreamErr|]. intros t s Hs _ Hf. by apply safe_ret.
Qed.

(** *** Acknowledgements, publication, owed teardown *)

Lemma safe_arm_if (b : bool) : safe (if b then arm else mret tt).
Proof. prove_safe. Qed.

Lemma ok_then_arm i t s t1 s1 (b : bool) :
  0 <= finishers t -> stream_ok s1 -> table_quiet i t t1 ->
  self s1 = self s -> callID s1 = callID s -> recvCap s1 = recvCap s ->
  phase s1 = phase s -> outcome s1 = outcome s -> armed s1 = armed s ->
  match (if b then arm else mret tt) (t1, s1) with
  | Ret (t', s') _ => sstep t s t' s'
  | Panics => False
  | Parks => True
  end.
Proof.
  intros Hf Hok Hq ? ? ? ? ? ?. assert (Hst : sstep t s t1 s1) by (by apply (sstep_local i)).
  assert (Hb : ok_at (if b then arm else mret tt) t1 s1).
  { apply safe_arm_if; [done|]. by rewrite (tq_finishers _ _ _ Hq). }
  unfold ok_at in Hb. destruct ((if b then arm else mret tt) (t1, s1)) as [[t2 s2] u| |]; auto.
  by eapply sstep_trans.
Qed.

Lemma safe_ack_service : safe ack_service.
Proof.
  intros t s Hs Hf. unfold ok_at, ack_service. unfold mbind at 1, prog_bind at 1, sget. cbv beta iota delta [id].
  destruct (isLive s) eqn:Hl; cbn [negb orb]; [|by apply sstep_refl].
  destruct (negb _ || _); [by apply sstep_refl|]. rewrite (so_token s Hs Hl).
  unfold serveAck. run_prog.
  match goal with |- context [Send ?f t] => destruct (Send_quiet 0 f t) as (t1 & a & -> & _ & Q & _) end.
  destruct Hs as [? Htk Hr ? ? ?].
  destruct (ans a) as [e|]; cbn; unfold releaseAckToken, scheduleReArm; run_prog.
  - apply (ok_then_arm 0 t s _ _ false); auto; [constructor; auto|].
    eapply table_quiet_trans; [exact Q|]. solve_quiet.
  - apply (ok_then_arm 0 t s); auto. by constructor.
Qed.

Lemma safe_reArm : safe reArmAfterBackoff.
Proof.
  intros t s Hs Hf. unfold reArmAfterBackoff. apply ok_at_bind; [apply safe_sput; auto; prove_harmless|].
  intros t1 s1 [] [= <- <-] Hst. unfold ok_at. run_prog.
  change (isLive (set_deferred false s)) with (isLive s).
  destruct (negb _ || _); [by apply sstep_refl, Hst|]. destruct (armed s) eqn:Ha; [by apply sstep_refl, Hst|].
  assert (G : ok_at arm t (set_deferred false s)) by (apply safe_arm; [apply Hst|done]).
  unfold ok_at, arm in G. simpl in G. rewrite Ha in G. exact G.
Qed.

Lemma safe_Publish : safe Publish.
Proof.
  intros t s Hs Hf. unfold ok_at, Publish. destruct (phase s) eqn:Hp; try (by apply sstep_refl).
  destruct Hs as [Hd Htk ? ? ? ?]. unfold isLive in *. rewrite Hp in *.
  constructor; simpl; auto; unfold isLive; simpl; rewrite ?Hp; done.
Qed.

Lemma safe_ConfirmOpenSent : safe ConfirmOpenSent.
Proof.
  intros t s Hs Hf. unfold ok_at, ConfirmOpenSent. destruct (phase s); try (by apply sstep_refl).
  apply (safe_sput (set_openSendPending false)); auto. prove_harmless.
Qed.

Lemma safe_expire : safe (sput expire).
Proof. apply safe_sput. unfold expire. prove_harmless. Qed.

Lemma safe_beginWatch : safe (sput beginDeadlineWatch).
Proof. apply safe_sput. prove_harmless. Qed.

Lemma quiet_bracket i t t1 t2 :
  table_quiet i (set_finishers (finishers t + 1) t) t1 ->
  table_quiet i (set_finishers (finishers t1 - 1) t1) t2 -> table_quiet i t t2.
Proof.
  intros [QS QF QQ QX QE QO] [PS PF PQ PX PE PO]. simpl in *. assert (Hc : emitCap t1 = emitCap t) by apply QX. rewrite Hc in PE.
  destruct QX as (? & ? & ? & ? & ? & ? & ? & ?), PX as (? & ? & ? & ? & ? & ? & ? & ?).
  constructor; auto; try congruence; try lia.
  - split_and!; congruence.
  - destruct (obligations t), (obligations t1), (obligations t2); try done. set_solver.
Qed.

Lemma owed_tail i st t s :
  0 < finishers t ->
  exists t', (on_table (emitOwedTeardownErr (callID s) st) ;; on_table finisherDone) (t, s) = Ret (t', s) tt /\
    table_quiet i (set_finishers (finishers t - 1) t) t'.
Proof.
  intros Hf. unfold emitOwedTeardownErr. run_prog.
  match goal with |- context [enqueueEmit ?j t] => destruct (enqueueEmit_quiet i j t) as (t2 & d & -> & Q2 & _) end.
  assert (Q3 : exists t3, (if d then mret tt else modify (failIfConnLive [ErrOwedTeardownDropped])) t2 = Ret t3 tt /\
    table_quiet i t t3).
  { destruct d; run_prog; eexists; (split; [reflexivity|]); [done|].
    eapply table_quiet_trans; [exact Q2|apply failIfConnLive_quiet]. }
  destruct Q3 as (t3 & E3 & [PS PF PQ PX PE PO]). revert E3. run_prog. intros ->. cbn.
  unfold finisherDone. destruct (Z.leb_spec (finishers t3) 0); [lia|]. cbn.
  eexists. split; [reflexivity|]. constructor; simpl; auto; lia.
Qed.

Definition spent (s : Stream) : Stream := set_token tokenTerminal (set_owedTeardownEmitted true s).

(** On a terminal stream (its only caller has seen the outcome): the detached
    sender either claims the token and runs to its end, or spins on a token
    another party spent. *)
Lemma EmitOwed_ok t s :
  stream_ok s -> isLive s = false -> token s <> tokenACKOutstanding -> 0 <= finishers t ->
  ok_at EmitOwedOpenTeardown t s.
Proof.
  intros Hs Hl Htk Hf. unfold ok_at, EmitOwedOpenTeardown. unfold mbind at 1, prog_bind at 1, sget at 1.
  cbv beta iota delta [id]. destruct (owedTeardownEmitted s); [by apply sstep_refl|].
  assert (H0 : sstep t s t (set_owedTeardownEmitted true s))
    by (apply (safe_sput (set_owedTeardownEmitted true)); auto; prove_harmless).
  unfold mbind at 1, prog_bind at 1, sput at 1. cbv beta iota.
  destruct (teardownCode s =? 0); [exact H0|].
  unfold mbind at 1, prog_bind at 1, on_table at 1, addFinisher. destruct (closed t); [exact H0|].
  unfold mbind at 1, prog_bind at 1, claimTerminalToken.
  change (token (set_owedTeardownEmitted true s)) with (token s).
  destruct (token s); try done. fold (spent s).
  destruct (sendTeardownCancel_quiet (callID s) (set_finishers (finishers t + 1) t) (spent s)) as (t1 & E1 & Q1).
  unfold mbind at 1, prog_bind at 1. rewrite E1.
  destruct (owed_tail (callID s) (mkStatus (teardownCode s) [] []) t1 (spent s)) as (t2 & E2 & Q2).
  { rewrite (tq_finishers _ _ _ Q1). simpl. lia. }
  change (callID (spent s)) with (callID s) in E2. rewrite E2.
  apply (sstep_local (callID s)); auto; [|by eapply quiet_bracket].
  destruct Hs as [? ? ? ? ? ?]. constructor; auto.
  change (isLive (spent s)) with (isLive s). congruence.
Qed.

(** ** The connection *)

Abbreviation world := (StreamTable K * list Stream)%type.
Abbreviation wprog := (prog world).

Record world_ok (w : world) : Prop := {
  wo_objects : forall r s, w.2 !! r = Some s ->
    stream_ok s /\ self s = r /\ (isLive s = true -> streams w.1 !! callID s = Some r);
  wo_entries : forall i r, streams w.1 !! i = Some r ->
    exists s, w.2 !! r = Some s /\ callID s = i /\ isLive s = true;
  wo_finishers : finishers w.1 = 0;
  wo_cap : Z.of_nat (size (streams w.1)) <= Z.max 0 (maxOpen w.1);
  wo_queue : NoDup (armQueue w.1) /\
    forall r, r ∈ armQueue w.1 <-> exists s, w.2 !! r = Some s /\ armed s = true;
  wo_emit : zlen (emitCh w.1) <= emitCap w.1
}.

(** Objects never disappear, and a terminal one keeps its outcome. *)
Definition settled_kept (w w' : world) : Prop :=
  forall r s, w.2 !! r = Some s -> exists s', w'.2 !! r = Some s' /\ callID s' = callID s /\
    (isLive s = false -> phase s' = phase s /\ outcome s' = outcome s).

Lemma settled_kept_refl w : settled_kept w w.
Proof. intros r s H. eauto. Qed.

Lemma settled_kept_trans w1 w2 w3 : settled_kept w1 w2 -> settled_kept w2 w3 -> settled_kept w1 w3.
Proof.
  intros H1 H2 r s Hr. destruct (H1 r s Hr) as (s2 & Hr2 & Hc2 & Hd2).
  destruct (H2 r s2 Hr2) as (s3 & Hr3 & Hc3 & Hd3). exists s3. split_and!; [done|congruence|].
  intros Hl. destruct (Hd2 Hl) as [Hp Ho]. destruct Hd3 as [Hp3 Ho3]; [by rewrite (isLive_phase s)|].
  split; congruence.
Qed.

(** One method of one stream. *)
Lemma world_step t h r s t' s' :
  world_ok (t, h) -> h !! r = Some s -> sstep t s t' s' ->
  world_ok (t', <[r := s']> h) /\ settled_kept (t, h) (t', <[r := s']> h).
Proof.
  intros [WO WE WF WC [WN WQ] WM] Hr [SO [SI [SC SR]] SD SS SF SQ SX SE]. simpl in *.
  destruct (WO r s Hr) as (Hok & Hself & Hreg).
  assert (Hdead : isLive s = false -> isLive s' = false).
  { intros Hd. rewrite (isLive_phase s s'); [done|]. by apply SD. }
  assert (Hlt : (r < length h)%nat) by (by eapply lookup_lt_Some).
  split.
  - constructor; simpl.
    + intros r2 s2 H2. destruct (decide (r2 = r)) as [->|Hne].
      * rewrite list_lookup_insert_eq in H2 by done. injection H2 as <-. split_and!; [done|congruence|].
        intros Hl. rewrite SS, SC. destruct (isLive s) eqn:Hls; [|rewrite Hdead in Hl; done].
        rewrite Hl. simpl. by apply Hreg.
      * rewrite list_lookup_insert_ne in H2 by done. destruct (WO r2 s2 H2) as (? & ? & Hreg2).
        split_and!; auto. intros Hl. rewrite SS. destruct (isLive s) eqn:Hls; simpl; [|by apply Hreg2].
        destruct (isLive s'); simpl; [by apply Hreg2|].
        rewrite lookup_delete_ne; [by apply Hreg2|]. intros Heq. specialize (Hreg2 Hl). specialize (Hreg eq_refl).
        rewrite <- Heq, Hreg in Hreg2. congruence.
    + intros i r2 H2. assert (Hi : streams t !! i = Some r2).
      { rewrite SS in H2. destruct (isLive s && negb (isLive s')); [|done]. apply lookup_delete_Some in H2. apply H2. }
      destruct (WE i r2 Hi) as (s2 & Hr2 & Hc2 & Hl2). destruct (decide (r2 = r)) as [->|Hne].
      * rewrite Hr in Hr2. injection Hr2 as <-. exists s'. rewrite list_lookup_insert_eq by done.
        split_and!; [done|congruence|]. rewrite SS, Hl2 in H2. simpl in H2.
        destruct (isLive s'); [done|]. simpl in H2. rewrite <- Hc2 in H2. by rewrite lookup_delete_eq in H2.
      * exists s2. by rewrite list_lookup_insert_ne.
    + congruence.
    + destruct SX as (-> & _). etransitivity; [|exact WC]. rewrite SS. destruct (isLive s && negb (isLive s')); [|done].
      apply inj_le. rewrite map_size_delete. destruct (streams t !! callID s); simpl; lia.
    + assert (HA : forall q, (q ∈ armQueue t <-> exists s, h !! q = Some s /\ armed s = true)) by done.
      destruct SQ as [[Ha ->]|(Ha & Ha' & ->)].
      * split; [done|]. intros q. rewrite HA. destruct (decide (q = r)) as [->|Hne].
        -- rewrite list_lookup_insert_eq, Hr by done. split; intros (? & [= <-] & ?); eexists; split; eauto; congruence.
        -- by rewrite list_lookup_insert_ne.
      * assert (Hnin : r ∉ armQueue t) by (rewrite HA, Hr; intros (? & [= <-] & ?); congruence).
        rewrite Hself. split.
        -- apply NoDup_app. split_and!; [done|intros x Hx ->%list_elem_of_singleton; done|apply NoDup_singleton].
        -- intros q. rewrite elem_of_app, list_elem_of_singleton, HA. destruct (decide (q = r)) as [->|Hne].
           ++ rewrite list_lookup_insert_eq by done. split; [eauto|by right].
           ++ rewrite list_lookup_insert_ne by done. naive_solver.
    + assert (Hc : emitCap t' = emitCap t) by apply SX. rewrite Hc. auto.
  - intros r2 s2 H2. simpl in *. destruct (decide (r2 = r)) as [->|Hne].
    + rewrite Hr in H2. injection H2 as <-. exists s'. rewrite list_lookup_insert_eq by done. eauto.
    + exists s2. rewrite list_lookup_insert_ne by done. eauto.
Qed.

Definition wok_at {A} (m : wprog A) (w : world) : Prop :=
  match m w with
  | Ret w' _ => world_ok w' /\ settled_kept w w'
  | Panics => False
  | Parks => True
  end.

Lemma wok_bind {A B} (m : wprog A) (k : A -> wprog B) w :
  wok_at m w ->
  (forall w' a, m w = Ret w' a -> world_ok w' -> settled_kept w w' -> wok_at (k a) w') -> wok_at (m ≫= k) w.
Proof.
  unfold wok_at at 1 3, mbind, prog_bind. destruct (m w) as [w1 a| |] eqn:E; try done.
  intros [H1 H2] Hk. specialize (Hk w1 a eq_refl H1 H2). unfold wok_at in Hk.
  destruct (k a w1) as [w2 b| |]; try done. destruct Hk. split; [done|]. by eapply settled_kept_trans.
Qed.

Lemma wok_on_stream {A} r (m : sprog A) t h s :
  world_ok (t, h) -> h !! r = Some s -> ok_at m t s -> wok_at (on_stream r m) (t, h).
Proof.
  intros Hw Hr Hm. unfold wok_at, on_stream. rewrite Hr. unfold ok_at in Hm.
  destruct (m (t, s)) as [[t' s'] a| |]; try done. by eapply world_step.
Qed.

Lemma wok_safe {A} r (m : sprog A) w s :
  world_ok w -> w.2 !! r = Some s -> safe m -> wok_at (on_stream r m) w.
Proof.
  intros Hw Hr Hm. destruct w as [t h]. apply (wok_on_stream r m t h s); auto. apply Hm.
  - by apply (wo_objects _ Hw r s).
  - pose proof (wo_finishers _ Hw) as Hz. simpl in Hz. lia.
Qed.

Lemma wok_put (f : StreamTable K -> StreamTable K) w :
  world_ok w ->
  (forall t, streams (f t) = streams t /\ finishers (f t) = finishers t /\ maxOpen (f t) = maxOpen t /\
     armQueue (f t) = armQueue t /\ emitCh (f t) = emitCh t /\ emitCap (f t) = emitCap t) ->
  wok_at (wput f) w.
Proof.
  intros Hw Hf. destruct w as [t h]. unfold wok_at, wput. destruct Hw as [WO WE WF WC WQ WM].
  destruct (Hf t) as (F1 & F2 & F3 & F4 & F5 & F6). split; [|intros r s Hr; simpl in *; eauto].
  constructor; simpl in *; rewrite ?F1, ?F2, ?F3, ?F4, ?F5, ?F6; auto.
Qed.

Lemma wok_ret {A} (a : A) w : world_ok w -> wok_at (mret a) w.
Proof. intros. split; [done|apply settled_kept_refl]. Qed.

Lemma wok_get {A} (f : StreamTable K -> A) w : world_ok w -> wok_at (wget f) w.
Proof. intros. destruct w. split; [done|apply settled_kept_refl]. Qed.

(** ** Operations of a connection *)

Inductive method :=
| MPublish | MConfirmOpenSent | MStartWatcher | MExpire | MWatchDeadline
| MSendMsg (ctx : option error) (payload : list Z)
| MCloseSend (ctx : option error) (payload : list Z)
| MRecvMsg
| MTerminateLocal (e : error)
| MHandlerError (st : option FrameStatus)
| MDiscard (cause : option error)
| MEmitOwed
| MReArm.

Definition run_method (m : method) : sprog unit :=
  match m with
  | MPublish => _ ← Publish; mret tt
  | MConfirmOpenSent => _ ← ConfirmOpenSent; mret tt
  | MStartWatcher => sput StartDeadlineWatcher
  | MExpire => sput expire
  | MWatchDeadline => watchDeadline
  | MSendMsg ctx payload => _ ← SendMsg ctx [] payload; mret tt
  | MCloseSend ctx payload => _ ← CloseSend ctx payload; mret tt
  | MRecvMsg => _ ← RecvMsg None; mret tt
  | MTerminateLocal e => TerminateLocal e
  | MHandlerError st => TerminateHandlerError st
  | MDiscard c => _ ← DiscardUnaccepted c; mret tt
  | MEmitOwed => EmitOwedOpenTeardown
  | MReArm => reArmAfterBackoff
  end.

Inductive op :=
| OOpen (i : Z) (side : StreamSide) (cfg : StreamConfig) (watch pending : bool)
| OMethod (r : nat) (m : method)
| ODispatch (f : Frame)
| OTeardownCancel (i code : Z)
| OReaderDrained (order : list nat)
| OAckDispatch
| OEmitter
| OReject (i code : Z)
| OFailAll (order : list nat) (dispatched notDispatched : option error)
| OMarkClosing
| OClose (order : list nat).

Definition on_tbl {A} (m : tprog A) : wprog A := fun '(t, h) =>
  match m t with Ret t a => Ret (t, h) a | Panics => Panics | Parks => Parks end.

Definition exec (o : op) : wprog unit :=
  match o with
  | OOpen i side cfg w p => _ ← admitStream i side cfg w p; mret tt
  | OMethod r m => on_stream r (run_method m)
  | ODispatch f => _ ← Dispatch f; mret tt
  | OTeardownCancel i code => _ ← DispatchTeardownCancel i code; mret tt
  | OReaderDrained order => ReaderDrained order
  | OAckDispatch => runAckDispatch
  | OEmitter => on_tbl runEmitter
  | OReject i code => on_tbl (EmitReject i code)
  | OFailAll order d n => FailAll order d n
  | OMarkClosing => wput MarkClosing
  | OClose order => Close order
  end.

(** A caller holds a pointer to the stream it calls; a snapshot yields the
    open streams in some order; a proposed credit is a uint32; the owed teardown
    is driven on a terminal stream with no acknowledgement in flight. *)
Definition valid (o : op) (w : world) : Prop :=
  match o with
  | OOpen _ _ cfg _ _ => is_u32 (Credits cfg)
  | OMethod r MEmitOwed =>
      exists s, w.2 !! r = Some s /\ isLive s = false /\ token s <> tokenACKOutstanding
  | OMethod r _ => is_Some (w.2 !! r)
  | OReaderDrained order | OFailAll order _ _ | OClose order => order ≡ₚ snapshot w.1
  | _ => True
  end.

Lemma safe_then_unit {A} (m : sprog A) : safe m -> safe (_ ← m; mret tt).
Proof. intros. prove_safe. Qed.

Lemma safe_method m : m <> MEmitOwed -> safe (run_method m).
Proof.
  intros Hm. destruct m; simpl; try done; try apply safe_then_unit;
    auto using safe_Publish, safe_ConfirmOpenSent, safe_beginWatch, safe_expire, safe_watchDeadline, safe_SendMsg,
      safe_CloseSend, safe_RecvMsg, safe_TerminateLocal, safe_TerminateHandlerError, safe_Discard, safe_reArm.
Qed.

Lemma wok_then_unit {A} (m : wprog A) w : wok_at m w -> wok_at (_ ← m; mret tt) w.
Proof. intros H. apply wok_bind; [done|]. intros. by apply wok_ret. Qed.

Lemma wok_dispatch i (m : sprog (option error)) w :
  world_ok w -> inbound_ok m -> wok_at (dispatch_live i m) w.
Proof.
  intros Hw Hm. unfold dispatch_live. apply wok_bind; [by apply wok_get|].
  intros w' r E Hw' _. destruct w as [t h]. injection E as <- <-. unfold Lookup.
  destruct (streams t !! i) as [r|] eqn:Hi.
  - destruct (wo_entries _ Hw i r Hi) as (s & Hr & _ & Hl). simpl in Hr.
    apply (wok_on_stream r _ t h s); auto.
    apply ok_at_bind; [apply sstep_refl; by apply (wo_objects _ Hw r s)|].
    intros t' s' a [= <- <- <-] _. rewrite Hl. apply Hm; auto.
    + by apply (wo_objects _ Hw r s).
    + pose proof (wo_finishers _ Hw) as Hz. simpl in Hz. lia.
  - apply wok_bind; [apply wok_put; [done|by intros; split_and!]|]. intros. by apply wok_ret.
Qed.

Lemma inbound_safe (m : sprog (option error)) : safe m -> inbound_ok m.
Proof. intros Hm t s Hs _ Hf. by apply Hm. Qed.

Lemma wok_each {A} (m : nat -> sprog A) order w :
  (forall r, safe (m r)) -> world_ok w -> Forall (fun r => is_Some (w.2 !! r)) order ->
  wok_at (run_each (fun r => _ ← on_stream r (m r); mret tt) order) w.
Proof.
  intros Hm. revert w. induction order as [|r order IH]; intros w Hw Hv; [by apply wok_ret|].
  inversion_clear Hv as [|? ? [s Hs] Hv']. cbn [run_each]. apply wok_bind.
  - by apply wok_then_unit, (wok_safe r (m r) w s).
  - intros w' [] _ Hw' Hk. apply IH; [done|]. eapply Forall_impl; [exact Hv'|].
    intros q [sq Hq]. destruct (Hk q sq Hq) as (s' & Hq' & _). eauto.
Qed.

Lemma run_each_ext {S A} (m m' : A -> prog S unit) l w :
  (forall a w, m a w = m' a w) -> run_each m l w = run_each m' l w.
Proof.
  intros H. revert w. induction l as [|a l IH]; intros w; [done|].
  cbn [run_each]. unfold mbind, prog_bind. rewrite H. destruct (m' a w); auto.
Qed.

Lemma wok_each_unit (m : nat -> sprog unit) order w :
  (forall r, safe (m r)) -> world_ok w -> Forall (fun r => is_Some (w.2 !! r)) order ->
  wok_at (run_each (fun r => on_stream r (m r)) order) w.
Proof.
  intros Hm Hw Hv. unfold wok_at.
  rewrite (run_each_ext _ (fun r => _ ← on_stream r (m r); mret tt)); [by apply wok_each|].
  intros r w'. unfold mbind, prog_bind, mret, prog_ret. by destruct (on_stream r (m r) w') as [? []| |].
Qed.

Lemma snapshot_objects w order :
  world_ok w -> order ≡ₚ snapshot w.1 -> Forall (fun r => is_Some (w.2 !! r)) order.
Proof.
  intros Hw ->. apply Forall_forall. intros r Hr. unfold snapshot in Hr.
  apply list_elem_of_fmap in Hr as ([i r'] & -> & Hi). apply elem_of_map_to_list in Hi.
  destruct (wo_entries _ Hw i r' Hi) as (s & Hs & _). eauto.
Qed.

Lemma newStream_ok r now i side cfg (watch pending : bool) :
  is_u32 (Credits cfg) -> Credits cfg <= defaultStreamCredit ->
  let s := newStream r now i side cfg in
  let s := if pending then set_openSendPending true s else s in
  let s := if watch then beginDeadlineWatch s else s in
  stream_ok s /\ self s = r /\ callID s = i /\ isLive s = true /\ armed s = false.
Proof.
  intros Hu Hc. unfold newStream, defaultStreamCredit, is_u32 in *.
  assert (Hcap : forall c, 0 < c <= 16 -> 1 <= u32 (c + 1)) by (intros; rewrite u32_id; unfold is_u32; lia).
  assert (Hn : 1 <= u32 ((if Credits cfg =? 0 then 16 else Credits cfg) + 1)).
  { apply Hcap. case_test; bool_to_prop; lia. }
  destruct (Shape cfg), side, pending, watch; (split; [constructor; simpl; try done; unfold zlen; simpl; lia|done]).
Qed.

Lemma wok_admit i side cfg watch pending w :
  world_ok w -> is_u32 (Credits cfg) -> wok_at (admitStream i side cfg watch pending) w.
Proof.
  intros Hw Hu. destruct w as [t h]. unfold wok_at, admitStream.
  pose proof (conj Hw (settled_kept_refl (t, h))) as Hsame.
  destruct (closed t); [done|]. destruct (decide _) as [|Hnew]; [done|].
  destruct (Z.ltb_spec defaultStreamCredit (Credits cfg)); [done|]. destruct (_ <=? 0); [done|].
  destruct (Z.leb_spec (maxOpen t) (Z.of_nat (size (streams t)))); [done|].
  destruct (newStream_ok (length h) (clock t) i side cfg watch pending Hu) as (Hok & Hself & Hid & Hl & Ha); [done|].
  cbv zeta in *. set (s := if watch then _ else _) in *. clearbody s.
  destruct Hw as [WO WE WF WC [WN WQ] WM]. simpl in *.
  assert (Hnone : streams t !! i = None) by (by apply eq_None_not_Some).
  assert (Hold : forall r s2, h !! r = Some s2 -> (h ++ [s]) !! r = Some s2)
    by (intros; by apply lookup_app_l_Some).
  assert (Hinv : forall r s2, (h ++ [s]) !! r = Some s2 -> h !! r = Some s2 \/ r = length h /\ s2 = s).
  { intros r s2 Hr. apply lookup_app_Some in Hr as [?|[? Hr]]; [by left|right].
    destruct (r - length h)%nat eqn:E; simpl in Hr; [|by rewrite lookup_nil in Hr]. split; [lia|congruence]. }
  split; [constructor; simpl|].
  - intros r s2 Hr. apply Hinv in Hr as [Hr|[-> ->]].
    + destruct (WO r s2 Hr) as (? & ? & Hreg). split_and!; auto. intros Hl2.
      rewrite lookup_insert_ne; [by apply Hreg|]. intros Heq. rewrite Heq, Hreg in Hnone; done.
    + split_and!; auto. intros _. rewrite Hid. apply lookup_insert_eq.
  - intros j r Hj. destruct (decide (j = i)) as [->|Hne].
    + rewrite lookup_insert_eq in Hj. injection Hj as <-. exists s.
      split_and!; auto. rewrite lookup_app_r by lia. by rewrite Nat.sub_diag.
    + rewrite lookup_insert_ne in Hj by done. destruct (WE j r Hj) as (s2 & ? & ? & ?). eauto.
  - done.
  - rewrite map_size_insert_None by done. lia.
  - split; [done|]. intros r. rewrite WQ. split.
    + intros (s2 & ? & ?). eauto.
    + intros (s2 & Hr & Hs2). apply Hinv in Hr as [?|[-> ->]]; [eauto|congruence].
  - done.
  - intros r s2 Hr. simpl in *. exists s2. auto.
Qed.

Lemma wok_ack w : world_ok w -> wok_at runAckDispatch w.
Proof.
  intros Hw. destruct w as [t h]. unfold wok_at, runAckDispatch, popArm. run_prog.
  destruct (armQueue t) as [|r q] eqn:Hq; cbn.
  { destruct (stopped t); [|done]. split; [done|apply settled_kept_refl]. }
  pose proof (wo_queue _ Hw) as [WN WQ]. simpl in WN, WQ. rewrite Hq in WN, WQ.
  destruct (WQ r) as [[s [Hr Ha]] _]; [by rewrite elem_of_cons; left|]. rewrite Hr.
  set (t1 := set_armQueue q t). set (s1 := set_armed false s).
  assert (Hw1 : world_ok (t1, <[r := s1]> h)).
  { destruct Hw as [WO WE WF WC _ WM]. simpl in *. destruct (WO r s Hr) as (Hok & Hself & Hreg).
    assert (Hlt : (r < length h)%nat) by (by eapply lookup_lt_Some).
    constructor; simpl; auto.
    - intros r2 s2 H2. destruct (decide (r2 = r)) as [->|Hne].
      + rewrite list_lookup_insert_eq in H2 by done. injection H2 as <-. split_and!; auto. by destruct Hok.
      + rewrite list_lookup_insert_ne in H2 by done. auto.
    - intros i r2 H2. destruct (WE i r2 H2) as (s2 & Hr2 & ? & ?). destruct (decide (r2 = r)) as [->|Hne].
      + rewrite Hr in Hr2. injection Hr2 as <-. exists s1. by rewrite list_lookup_insert_eq.
      + exists s2. by rewrite list_lookup_insert_ne.
    - inversion_clear WN as [|? ? Hnin WN']. split; [done|]. intros r2. specialize (WQ r2).
      rewrite elem_of_cons in WQ. destruct (decide (r2 = r)) as [->|Hne].
      + rewrite list_lookup_insert_eq by done. split; [done|]. intros (? & [= <-] & ?). done.
      + rewrite list_lookup_insert_ne by done. naive_solver. }
  assert (G : wok_at (on_stream r ack_service) (t1, <[r := s1]> h)).
  { apply (wok_safe r _ _ s1); [done| |apply safe_ack_service]. simpl.
    apply list_lookup_insert_eq. by eapply lookup_lt_Some. }
  assert (Hk : settled_kept (t, h) (t1, <[r := s1]> h)).
  { intros r2 s2 H2. simpl in *. destruct (decide (r2 = r)) as [->|Hne].
    - rewrite Hr in H2. injection H2 as <-. exists s1. rewrite list_lookup_insert_eq; eauto using lookup_lt_Some.
    - exists s2. rewrite list_lookup_insert_ne by done. eauto. }
  unfold wok_at, on_stream in G. rewrite list_lookup_insert_eq in G by (by eapply lookup_lt_Some).
  unfold ack_body. run_prog. fold s1. destruct (ack_service (t1, s1)) as [[t2 s2] a| |]; try done.
  rewrite list_insert_insert_eq in G. destruct G as [G1 G2]. split; [done|]. by eapply settled_kept_trans.
Qed.

Lemma world_quiet i t t' h :
  table_quiet i t t' -> world_ok (t, h) -> world_ok (t', h) /\ settled_kept (t, h) (t', h).
Proof.
  intros [QS QF QQ QX QE QO] [WO WE WF WC WQ WM]. simpl in *.
  assert (Hc : emitCap t' = emitCap t) by apply QX. assert (Hm : maxOpen t' = maxOpen t) by apply QX.
  split; [|intros r s Hr; simpl in *; eauto].
  constructor; simpl; rewrite ?QS, ?QF, ?QQ, ?Hc, ?Hm; auto.
Qed.

Lemma wok_emitter w : world_ok w -> wok_at (on_tbl runEmitter) w.
Proof.
  intros Hw. destruct w as [t h]. unfold wok_at, on_tbl, runEmitter.
  destruct (emitCh t) as [|j q] eqn:Hq.
  { destruct (stopped t); [|done]. split; [done|apply settled_kept_refl]. }
  assert (Q0 : table_quiet (jCallID j) t (set_emitCh q t)).
  { constructor; simpl; auto; [by split_and!|rewrite Hq; unfold zlen; simpl; lia|].
    destruct (obligations t); [set_solver|done]. }
  run_prog. match goal with |- context [Send ?f ?x] => destruct (Send_quiet (jCallID j) f x) as (t1 & a & -> & _ & Q1 & _) end.
  pose proof (table_quiet_trans _ _ _ _ Q0 Q1) as Q.
  destruct (keepObligation j); run_prog; eapply world_quiet; eauto.
  eapply table_quiet_trans; [exact Q|apply closeObligation_quiet].
Qed.

Lemma wok_reject i code w : world_ok w -> wok_at (on_tbl (EmitReject i code)) w.
Proof.
  intros Hw. destruct w as [t h]. unfold wok_at, on_tbl, EmitReject, emitStreamErr. run_prog.
  match goal with |- context [enqueueEmit ?j t] => destruct (enqueueEmit_quiet i j t) as (t1 & b & -> & Q & _) end.
  by eapply world_quiet.
Qed.

Lemma wok_FailAll order d n w :
  world_ok w -> order ≡ₚ snapshot w.1 -> wok_at (FailAll order d n) w.
Proof.
  intros Hw Ho. unfold FailAll. apply wok_each_unit; [|done|by apply snapshot_objects].
  intros. apply safe_fail_stream.
Qed.

Lemma wok_Close order w : world_ok w -> order ≡ₚ snapshot w.1 -> wok_at (Close order) w.
Proof.
  intros Hw Ho. unfold Close. apply wok_bind; [by apply wok_get|]. intros w1 b E _ _.
  destruct w as [t h]. injection E as <- <-. destruct (stopped t); [by apply wok_ret|].
  apply wok_bind; [apply wok_put; [done|by intros; split_and!]|]. intros w1 [] E Hw1 _.
  injection E as <-. apply wok_bind; [by apply wok_FailAll|]. intros w2 [] _ Hw2 _.
  apply wok_bind; [by apply wok_get|]. intros w3 n E3 Hw3 _. destruct (negb _); [done|].
  apply wok_put; [done|by intros; split_and!].
Qed.

Lemma exec_ok o w : world_ok w -> valid o w -> wok_at (exec o) w.
Proof.
  intros Hw Hv. destruct o as [i side cfg b p|r m|f|i code|order| | |i code|order d n| |order]; simpl in *.
  - apply wok_then_unit. by apply wok_admit.
  - assert (Hm : m = MEmitOwed \/ m <> MEmitOwed) by (destruct m; auto).
    destruct Hm as [->|Hne].
    + destruct Hv as (s & Hr & Hl & Htk). destruct w as [t h]. apply (wok_on_stream r _ t h s); auto.
      apply EmitOwed_ok; auto; [by apply (wo_objects _ Hw r s)|].
      pose proof (wo_finishers _ Hw) as Hz. simpl in Hz. lia.
    + assert (is_Some (w.2 !! r)) as [s Hr] by (by destruct m). apply (wok_safe r _ w s); auto using safe_method.
  - apply wok_then_unit. unfold Dispatch. apply wok_bind; [apply wok_put; [done|by intros; split_and!]|].
    intros w' [] _ Hw' _. apply wok_dispatch; auto using inbound_handler.
  - apply wok_then_unit. apply wok_dispatch; [done|]. apply inbound_safe. prove_safe.
  - unfold ReaderDrained. apply wok_bind; [apply wok_put; [done|by intros; split_and!]|].
    intros w' [] E Hw' _. destruct w as [t h]. injection E as <-. apply wok_each_unit; [prove_safe|done|].
    by apply (snapshot_objects (t, h)).
  - by apply wok_ack.
  - by apply wok_emitter.
  - by apply wok_reject.
  - by apply wok_FailAll.
  - apply wok_put; [done|by intros; split_and!].
  - by apply wok_Close.
Qed.

(** ** Reachable connections *)

Definition wstep (w w' : world) : Prop := exists o, valid o w /\ exec o w = Ret w' tt.

Definition fresh (n : Z) (sink : option K) (policy : ChunkPolicy) (now : Z) (script : list answer) : world :=
  (NewStreamTable n sink policy now script, []).

Lemma fresh_ok n sink policy now script : world_ok (fresh n sink policy now script).
Proof.
  constructor; simpl.
  - intros r s Hr. by rewrite lookup_nil in Hr.
  - intros i r Hi. by rewrite lookup_empty in Hi.
  - done.
  - rewrite map_size_empty. lia.
  - split; [constructor|]. intros r. rewrite elem_of_nil, lookup_nil. naive_solver.
  - unfold zlen. simpl. case_test; bool_to_prop; lia.
Qed.

Lemma steps_ok w w' : world_ok w -> rtc wstep w w' -> world_ok w' /\ settled_kept w w'.
Proof.
  intros Hw Hs. induction Hs as [w|w w2 w3 (o & Hv & E) _ IH]; [split; [done|apply settled_kept_refl]|].
  pose proof (exec_ok o w Hw Hv) as H. unfold wok_at in H. rewrite E in H. destruct H as [H1 H2].
  destruct (IH H1) as [H3 H4]. split; [done|]. by eapply settled_kept_trans.
Qed.

(** *** Teardown *)

Definition failed (d n : option error) (s : Stream) : Stream :=
  finished false (openSendPending s)
    (won (mkOutcome OutcomeCrashed (if decide (phase s = streamSubmitted) then n else d)) 0 s).

Lemma fail_stream_spec d n t s :
  stream_ok s -> isLive s = true -> 0 <= finishers t ->
  exists t', fail_stream d n (t, s) = Ret (t', failed d n s) tt.
Proof.
  intros Hs Hl Hf. destruct (live_claimable s Hs Hl) as [Hd Hc]. unfold fail_stream, failed.
  destruct (decide (phase s = streamSubmitted)) as [Hp|Hp].
  - destruct (terminate_spec (mkOutcome OutcomeCrashed n) 0 false [streamSubmitted] t s) as [HT _]; auto.
    destruct HT as (t' & E & _); [by rewrite Hp; apply list_elem_of_singleton|].
    unfold mbind, prog_bind. rewrite E. by eexists.
  - destruct (terminate_spec (mkOutcome OutcomeCrashed n) 0 false [streamSubmitted] t s) as [_ HL]; auto.
    destruct (terminate_spec (mkOutcome OutcomeCrashed d) 0 false [streamPublished] t s) as [HT _]; auto.
    destruct HT as (t' & E & _).
    { apply list_elem_of_singleton. unfold isLive in Hl. by destruct (phase s). }
    unfold mbind, prog_bind. rewrite HL by (rewrite list_elem_of_singleton; done). rewrite E. by eexists.
Qed.

Lemma FailAll_spec order d n w :
  world_ok w -> NoDup order -> Forall (fun r => exists s, w.2 !! r = Some s /\ isLive s = true) order ->
  exists w', FailAll order d n w = Ret w' tt /\ world_ok w' /\ closed w'.1 = closed w.1 /\
    stopped w'.1 = stopped w.1 /\ length w'.2 = length w.2 /\
    forall r s, w.2 !! r = Some s -> w'.2 !! r = Some (if decide (r ∈ order) then failed d n s else s).
Proof.
  revert w. induction order as [|r order IH]; intros w Hw Hnd Hlive.
  { exists w. split_and!; auto. }
  inversion_clear Hnd as [|? ? Hnin Hnd']. inversion_clear Hlive as [|? ? (s & Hr & Hl) Hlive'].
  destruct w as [t h]. simpl in *. destruct (wo_objects _ Hw r s Hr) as (Hok & _ & _).
  pose proof (wo_finishers _ Hw) as Hz. simpl in Hz.
  destruct (fail_stream_spec d n t s Hok Hl ltac:(lia)) as (t1 & E).
  assert (Hst : sstep t s t1 (failed d n s)).
  { pose proof (safe_fail_stream d n t s Hok ltac:(lia)) as H. unfold ok_at in H. by rewrite E in H. }
  destruct (world_step t h r s t1 (failed d n s) Hw Hr Hst) as [Hw1 _].
  destruct (IH (t1, <[r := failed d n s]> h) Hw1 Hnd') as (w' & E' & Hw' & Hcl & Hsp & Hlen & Hobj).
  { apply Forall_forall. intros q Hq. rewrite Forall_forall in Hlive'. destruct (Hlive' q Hq) as (sq & Hsq & Hlq).
    exists sq. simpl. rewrite list_lookup_insert_ne; [done|]. by intros ->. }
  destruct (ss_fixed _ _ _ _ Hst) as (_ & F1 & F2 & _).
  exists w'. split_and!; auto.
  - unfold FailAll in *. cbn [run_each]. unfold mbind, prog_bind, on_stream at 1. rewrite Hr, E. exact E'.
  - simpl in Hcl. congruence.
  - simpl in Hsp. congruence.
  - simpl in Hlen. by rewrite length_insert in Hlen.
  - intros q sq Hq. simpl in Hobj. destruct (decide (q = r)) as [->|Hne].
    + rewrite Hr in Hq. injection Hq as <-. rewrite (Hobj r (failed d n s)).
      * rewrite decide_False by done. rewrite decide_True; [done|]. rewrite elem_of_cons. by left.
      * apply list_lookup_insert_eq. by eapply lookup_lt_Some.
    + rewrite (Hobj q sq) by (by rewrite list_lookup_insert_ne).
      destruct (decide (q ∈ order)) as [Hi|Hi].
      * rewrite decide_True; [done|]. rewrite elem_of_cons. by right.
      * rewrite decide_False; [done|]. by intros [?|?]%elem_of_cons.
Qed.

Lemma snapshot_live w order :
  world_ok w -> order ≡ₚ snapshot w.1 ->
  NoDup order /\ (forall r s, w.2 !! r = Some s -> (r ∈ order <-> isLive s = true)) /\
  Forall (fun r => exists s, w.2 !! r = Some s /\ isLive s = true) order.
Proof.
  intros Hw Ho.
  assert (Hmem : forall r, r ∈ order <-> exists i, streams w.1 !! i = Some r).
  { intros r. rewrite Ho. unfold snapshot. rewrite list_elem_of_fmap. split.
    - intros ([i r'] & -> & Hi). exists i. by apply elem_of_map_to_list in Hi.
    - intros (i & Hi). exists (i, r). split; [done|]. by apply elem_of_map_to_list. }
  split_and!.
  - rewrite Ho. unfold snapshot. apply NoDup_fmap_2_strong; [|apply NoDup_map_to_list].
    intros [i r] [j r'] Hi Hj Heq. simpl in Heq. subst r'. apply elem_of_map_to_list in Hi, Hj.
    destruct (wo_entries _ Hw i r Hi) as (s & Hs & <- & _). destruct (wo_entries _ Hw j r Hj) as (s' & Hs' & <- & _).
    congruence.
  - intros r s Hr. rewrite Hmem. split.
    + intros (i & Hi). destruct (wo_entries _ Hw i r Hi) as (s' & Hs' & _ & Hl). congruence.
    + intros Hl. exists (callID s). by apply (wo_objects _ Hw r s).
  - apply Forall_forall. intros r Hr. apply Hmem in Hr as (i & Hi).
    destruct (wo_entries _ Hw i r Hi) as (s & Hs & _ & Hl). eauto.
Qed.

Lemma all_dead_empty w : world_ok w -> (forall r s, w.2 !! r = Some s -> isLive s = false) -> streams w.1 = ∅.
Proof.
  intros Hw Hd. apply map_empty. intros i. apply eq_None_not_Some. intros [r Hr].
  destruct (wo_entries _ Hw i r Hr) as (s & Hs & _ & Hl). rewrite (Hd r s Hs) in Hl. done.
Qed.

Definition crash_outcome (d nd : option error) (s : Stream) : option StreamOutcome :=
  if isLive s then Some (mkOutcome OutcomeCrashed (if decide (phase s = streamSubmitted) then nd else d))
  else Outcome s.

Lemma failed_settled d nd s : isLive (failed d nd s) = false /\ done (failed d nd s) = true /\
  outcome (failed d nd s) = mkOutcome OutcomeCrashed (if decide (phase s = streamSubmitted) then nd else d).
Proof.
  unfold failed. rewrite finished_dead.
  destruct (finished_fields (mkOutcome OutcomeCrashed (if decide (phase s = streamSubmitted) then nd else d))
    0 false (openSendPending s) s) as (_ & Fo & Fd & _). auto.
Qed.

Lemma FailAll_settles order d nd w :
  world_ok w -> order ≡ₚ snapshot w.1 ->
  exists w', FailAll order d nd w = Ret w' tt /\ world_ok w' /\ streams w'.1 = ∅ /\
    closed w'.1 = closed w.1 /\ stopped w'.1 = stopped w.1 /\
    forall r s, w.2 !! r = Some s ->
      exists s', w'.2 !! r = Some s' /\ done s' = true /\ Outcome s' = crash_outcome d nd s.
Proof.
  intros Hw Ho. destruct (snapshot_live w order Hw Ho) as (Hnd & Hmem & Hlv).
  destruct (FailAll_spec order d nd w Hw Hnd Hlv) as (w' & E & Hw' & Hcl & Hst & Hlen & Hobj).
  assert (Hdead : forall r s, w.2 !! r = Some s -> exists s', w'.2 !! r = Some s' /\ isLive s' = false /\
    done s' = true /\ Outcome s' = crash_outcome d nd s).
  { intros r s Hr. pose proof (Hobj r s Hr) as Hr'. unfold crash_outcome. destruct (isLive s) eqn:Hl.
    - rewrite decide_True in Hr' by by apply (Hmem r s). exists (failed d nd s).
      destruct (failed_settled d nd s) as (F1 & F2 & F3). unfold Outcome. rewrite F2, F3. auto.
    - rewrite decide_False in Hr' by (rewrite (Hmem r s Hr); congruence). exists s.
      destruct (wo_objects _ Hw r s Hr) as (Hok & _). rewrite (so_done s Hok), Hl. auto. }
  exists w'. split_and!; auto.
  - apply all_dead_empty; [done|]. intros r s' Hr'.
    assert (Hlt : (r < length w.2)%nat) by (rewrite <- Hlen; by eapply lookup_lt_Some).
    destruct (lookup_lt_is_Some_2 _ _ Hlt) as [s Hs]. destruct (Hdead r s Hs) as (s2 & Hs2 & ? & _). congruence.
  - intros r s Hr. destruct (Hdead r s Hr) as (s' & ? & ? & ? & ?). eauto.
Qed.

(** *** A failed send *)

Definition admitted (s : Stream) : Stream :=
  set_sendSeq (sendSeq s +₆₄ 1)%word (set_sendCredit (Credit.reserve (sendCredit s)).1 s).

Definition after_send (t : StreamTable K) (f : Frame) : StreamTable K :=
  set_answers (tail (answers t)) (set_wire (wire t ++ [(f, ans (next_answer t))]) t).

Definition seen_ctx (t : StreamTable K) (s : Stream) : Stream :=
  if expired (next_answer t) then expire s else s.

(** What a fresh send needs to reach the transport. *)
Record ready (t : StreamTable K) (s : Stream) (payload : list Z) : Prop := {
  rd_live : isLive s = true;
  rd_open : sendClosed s = false;
  rd_credit : (Credit.reserve (sendCredit s)).2 = true;
  rd_limit : Active (chunkPolicy t) = true -> SendInline (chunkPolicy t) < zlen payload ->
    0 < SendInline (chunkPolicy t)
}.

Definition oversize (t : StreamTable K) (payload : list Z) : bool :=
  Active (chunkPolicy t) && (SendInline (chunkPolicy t) <? zlen payload).

Lemma admit_ready t s payload :
  ready t s payload ->
  admitCredit [] (t, s) = Ret (t, set_sendCredit (Credit.reserve (sendCredit s)).1 s) None.
Proof.
  intros [_ _ Hc _]. unfold admitCredit. destruct (Credit.reserve (sendCredit s)) as [c b]; simpl in *. by subst.
Qed.

Lemma sendUnder_eq f t s :
  sendUnder f (t, s) = Ret (after_send t f, seen_ctx t s) (next_answer t).
Proof.
  unfold sendUnder, Send, after_send, seen_ctx. run_prog. by destruct (expired (next_answer t)).
Qed.

(** The error handlers always return an error. *)
Definition always_err (m : sprog (option error)) : Prop :=
  forall st, match m st with Ret _ None => False | _ => True end.

Lemma always_err_bind {A} (m : sprog A) k : (forall a, always_err (k a)) -> always_err (m ≫= k).
Proof. intros Hk st. unfold mbind, prog_bind. destruct (m st) as [st' a| |]; [apply Hk|done..]. Qed.

Lemma always_err_ret e : always_err (mret (Some e)).
Proof. by intros st. Qed.

Ltac prove_err := repeat (intros; lazymatch goal with
  | |- always_err (_ ≫= _) => apply always_err_bind
  | |- always_err (if ?b then _ else _) => destruct b
  | |- always_err (mret (Some _)) => apply always_err_ret
  end).

Lemma handleSendErr_err c e seq : always_err (handleSendErr c e seq).
Proof. unfold handleSendErr, terminal_ctx_err. prove_err. Qed.
Lemma failVisibleTrain_err c e : always_err (failVisibleTrain c e).
Proof. unfold failVisibleTrain, terminal_ctx_err. prove_err. Qed.

Lemma after_err (m : sprog (option error)) (k : sprog (option error)) st :
  always_err m ->
  (e ← m; match e with Some e => mret (Some e) | None => k end) st = m st.
Proof.
  intros Hm. specialize (Hm st). unfold mbind, prog_bind. by destruct (m st) as [st' [e|]| |].
Qed.

Lemma SendMsg_refused t s payload e :
  ready t s payload -> (oversize t payload = true -> zlen payload <= Ceiling (chunkPolicy t)) ->
  ans (next_answer t) = Some e ->
  exists f, SendMsg None [] payload (t, s) =
    (if oversize t payload && negb (isRollbackEligible e)
     then failVisibleTrain (caller (next_answer t)) e
     else handleSendErr (caller (next_answer t)) e (sendSeq s +₆₄ 1)%word)
      (after_send t f, seen_ctx t (admitted s)).
Proof.
  intros Hr Hfit He. pose proof (admit_ready t s payload Hr) as Ha. destruct Hr as [Hl Ho Hc Hlim].
  unfold oversize in *. unfold SendMsg, terminalErr. unfold mbind at 1, prog_bind at 1, sget at 1.
  cbv beta iota delta [id]. rewrite Hl, Ho. unfold mbind at 1, prog_bind at 1, tget at 1. cbv beta iota.
  destruct (Active (chunkPolicy t) && (SendInline (chunkPolicy t) <? zlen payload)) eqn:Hbig; cbn [andb].
  - bool_to_prop. unfold sendChunked. destruct (Z.leb_spec (SendInline (chunkPolicy t)) 0); [naive_solver lia|].
    unfold mbind at 1, prog_bind at 1. rewrite Ha. unfold mbind at 1, prog_bind at 1, nextSeq. cbv beta iota zeta.
    destruct (Z.ltb_spec (Ceiling (chunkPolicy t)) (zlen payload)); [naive_solver lia|].
    rewrite slice_in_range by lia. unfold sendFirstFragment, sendFragment.
    set (frag := sub_bytes _ _ payload).
    set (s1 := set_sendSeq _ _). exists (data_frame t s1 FrameStreamChunk frag (sendSeq s1)).
    transitivity ((e0 ← (if isRollbackEligible e then handleSendErr (caller (next_answer t)) e (sendSeq s1)
      else failVisibleTrain (caller (next_answer t)) e);
      match e0 with Some e0 => mret (Some e0)
      | None => train_loop (length payload) payload (SendInline (chunkPolicy t)) (SendInline (chunkPolicy t)) end)
      (after_send t (data_frame t s1 FrameStreamChunk frag (sendSeq s1)), seen_ctx t (admitted s))).
    + unfold mbind, prog_bind, sget, tget. cbv beta iota delta [id]. rewrite sendUnder_eq, He.
      by destruct (isRollbackEligible e).
    + rewrite after_err by (destruct (isRollbackEligible e); [apply handleSendErr_err|apply failVisibleTrain_err]).
      by destruct (isRollbackEligible e).
  - unfold mbind at 1, prog_bind at 1. rewrite Ha. unfold mbind, prog_bind, nextSeq, sget, tget.
    cbv beta iota zeta delta [id]. rewrite sendUnder_eq, He. eexists. reflexivity.
Qed.

Definition ctx_outcome (c : option error) (s : Stream) : StreamOutcome :=
  if Is (ctxErr s) CtxDeadlineExceeded || Is c CtxDeadlineExceeded
  then mkOutcome OutcomeDeadlineExceeded (Some [ErrDeadlineExceeded])
  else mkOutcome OutcomeCanceled (Some [ErrCanceledLocally]).

Definition ctx_code (c : option error) (s : Stream) : Z :=
  if Is (ctxErr s) CtxDeadlineExceeded || Is c CtxDeadlineExceeded
  then StatusCodeStreamDeadlineExceeded else StatusCodeStreamCanceled.

Lemma finished_outcome oc code loc presend s :
  Outcome (finished loc presend (won oc code s)) = Some oc.
Proof.
  unfold Outcome. destruct (finished_fields oc code loc presend s) as (_ & Fo & Fd & _). by rewrite Fo, Fd.
Qed.

Lemma terminal_ctx_spec c e t s :
  stream_ok s -> isLive s = true -> 0 <= finishers t ->
  exists t', terminal_ctx_err c e (t, s) =
    Ret (t', finished true (openSendPending s) (won (ctx_outcome c s) (ctx_code c s) s)) (OErr (ctx_outcome c s)) /\
    table_after (callID s) (set_finishers (finishers t + 1) t) t'.
Proof.
  intros Hs Hl Hf. destruct (live_claimable s Hs Hl) as [Hd Hc].
  unfold terminal_ctx_err, ctx_outcome, ctx_code. unfold mbind at 1, prog_bind at 1, sget at 1. cbv beta iota delta [id].
  assert (Hp : phase s ∈ live_phases) by by apply live_phases_spec.
  destruct (Is (ctxErr s) CtxDeadlineExceeded || Is c CtxDeadlineExceeded);
    unfold mapDeadlineToTerminal, mapCancelToTerminal; cbv zeta; cbn [default option_fmap];
    match goal with |- context [terminate ?oc ?code true live_phases] =>
      destruct (terminate_spec oc code true live_phases t s) as [HT _]; auto;
      destruct (HT Hp) as (t' & E & Ha); exists t'; split; [|done];
      unfold mbind, prog_bind, sget; rewrite E; cbv beta iota delta [id];
      change (fun x : error => x) with (@id error) in *;
      rewrite finished_outcome; reflexivity end.
Qed.

Lemma admitted_fields t s :
  stream_ok s -> stream_ok (seen_ctx t (admitted s)) /\
  isLive (seen_ctx t (admitted s)) = isLive s /\ callID (seen_ctx t (admitted s)) = callID s /\
  sendCredit (seen_ctx t (admitted s)) = (Credit.reserve (sendCredit s)).1.
Proof.
  intros Hs. assert (Ha : stream_ok (admitted s)) by (by destruct Hs).
  unfold seen_ctx, expire. destruct (expired _), (ctxErr (admitted s)); split_and!; auto. by destruct Ha.
Qed.

Lemma rollback_restores s :
  (Credit.reserve (sendCredit s)).2 = true -> is_u64 (sendSeq s) ->
  0 <= Credit.csent (sendCredit s) < 2 ^ 64 - 1 ->
  set_sendSeq ((sendSeq s +₆₄ 1) -₆₄ 1)%word
    (set_sendCredit (Credit.release (sendCredit (admitted s))) (admitted s)) = s.
Proof.
  intros Hr Hq Hc. unfold admitted. destruct s as [? ? ? ? ? ? ? ? ? ? ? ? ? ? c q]; simpl in *.
  unfold Credit.reserve in *. destruct (_ =? 0); [done|]. destruct c as [g n a co ao th]; simpl in *.
  unfold Credit.release, Credit.set_sent; simpl. rewrite (u64_id (n + 1)) by (unfold is_u64; lia).
  destruct (Z.ltb_spec 0 (n + 1)); [|lia]. simpl. rewrite (u64_id (n + 1 - 1)) by (unfold is_u64; lia).
  replace (n + 1 - 1) with n by lia.
  assert (Eq : (q +₆₄ 1 -₆₄ 1)%word = q) by width_lia. by rewrite Eq.
Qed.
(** ** Properties *)

(** C7: the stream engine is safe under every history.  After any sequence of
    opens, sends, closes, reads, terminations, timer expiries, acknowledgement
    and emitter iterations, fan-outs and arbitrary inbound frames, no operation
    panics (no channel is closed twice, no wait group goes negative); the table
    maps a call id to a stream exactly when that stream is live, and holds no
    more than its cap; the arming queue holds exactly the armed streams, each
    once; no finisher is left running; and the emitter queue is within its
    capacity. *)
Theorem stream_engine_safe n sink policy now script w :
  rtc wstep (fresh n sink policy now script) w ->
  (forall o, valid o w -> exec o w <> Panics) /\
  (forall i r, streams w.1 !! i = Some r <->
     exists s, w.2 !! r = Some s /\ callID s = i /\ isLive s = true) /\
  Z.of_nat (size (streams w.1)) <= Z.max 0 (maxOpen w.1) /\
  NoDup (armQueue w.1) /\
  (forall r, r ∈ armQueue w.1 <-> exists s, w.2 !! r = Some s /\ armed s = true) /\
  finishers w.1 = 0 /\ zlen (emitCh w.1) <= emitCap w.1.
Proof.
  intros Hs. destruct (steps_ok _ _ (fresh_ok n sink policy now script) Hs) as [Hw _].
  pose proof Hw as [WO WE WF WC [WN WQ] WM]. split_and!; auto.
  - intros o Hv. pose proof (exec_ok o w Hw Hv) as H. unfold wok_at in H. by intros E; rewrite E in H.
  - intros i r. split; [apply WE|]. intros (s & Hr & <- & Hl). by apply (WO r s).
Qed.

(** C27: a stream ends once.  When a stream has become terminal, whatever the
    connection does afterwards, the outcome it reports is the one recorded with
    the transition (its code is the phase word's), its partial message is gone,
    the table no longer knows it, and a frame that arrives for its call id is
    counted and dropped without touching any stream. *)
Theorem outcome_recorded_once n sink policy now script w w' r s :
  rtc wstep (fresh n sink policy now script) w -> rtc wstep w w' ->
  w.2 !! r = Some s -> isLive s = false ->
  (exists oc s', Outcome s = Some oc /\ phase s = terminalPhaseFor (OCode oc) /\ recvAccum s = [] /\
     done s = true /\ w'.2 !! r = Some s' /\ Outcome s' = Some oc /\ phase s' = phase s) /\
  streams w'.1 !! callID s <> Some r /\
  (forall f, streams w'.1 !! CallID f = None ->
     Dispatch f w' = Ret (set_discarded (discarded w'.1 +₆₄ 1)%word (set_drained false w'.1), w'.2) None).
Proof.
  intros H0 H1 Hr Hd. destruct (steps_ok _ _ (fresh_ok n sink policy now script) H0) as [Hw _].
  destruct (steps_ok _ _ Hw H1) as [Hw' Hk]. destruct (Hk r s Hr) as (s' & Hr' & Hc & Hsame).
  destruct (Hsame Hd) as [Hp Ho].
  assert (Hd' : isLive s' = false) by (by rewrite (isLive_phase s)).
  destruct (wo_objects _ Hw r s Hr) as (Hok & _). destruct (wo_objects _ Hw' r s' Hr') as (Hok' & _).
  split_and!.
  - exists (outcome s), s'. unfold Outcome. rewrite (so_done s Hok), Hd, (so_done s' Hok'), Hd', Ho.
    split_and!; auto using so_accum, so_outcome.
  - intros Hi. destruct (wo_entries _ Hw' _ r Hi) as (s2 & Hs2 & _ & Hl). congruence.
  - intros f Hf. destruct w' as [t' h']. unfold Dispatch, dispatch_live, Lookup. run_prog. simpl in Hf. by rewrite Hf.
Qed.

(** C39: teardown settles every stream and classifies it.  The fan-out of a
    connection failure, in whatever order the map yields the streams, returns
    with the table empty; a stream still unpublished gets the not-dispatched
    error, a published one the dispatched error, and one already terminal keeps
    its outcome.  Close does the same with the table-closed error, finds no
    finisher left to wait for, and refuses every later open. *)
Theorem teardown_settles_every_stream n sink policy now script w order d nd :
  rtc wstep (fresh n sink policy now script) w -> order ≡ₚ snapshot w.1 ->
  (exists w', FailAll order d nd w = Ret w' tt /\ streams w'.1 = ∅ /\
     forall r s, w.2 !! r = Some s ->
       exists s', w'.2 !! r = Some s' /\ done s' = true /\ Outcome s' = crash_outcome d nd s) /\
  (stopped w.1 = false ->
   exists w', Close order w = Ret w' tt /\ streams w'.1 = ∅ /\ stopped w'.1 = true /\
     (forall r s, w.2 !! r = Some s ->
        exists s', w'.2 !! r = Some s' /\ done s' = true /\
          Outcome s' = crash_outcome (Some [ErrStreamTableClosed]) (Some [ErrStreamTableClosed]) s) /\
     forall i side cfg watch pending,
       admitStream i side cfg watch pending w' = Ret w' (inr [ErrStreamTableClosed])).
Proof.
  intros H0 Ho. destruct (steps_ok _ _ (fresh_ok n sink policy now script) H0) as [Hw _]. split.
  - destruct (FailAll_settles order d nd w Hw Ho) as (w' & E & _ & Hem & _ & _ & Hobj). eauto.
  - intros Hst. destruct w as [t h]. simpl in Hst.
    assert (Hw1 : world_ok (set_closed true t, h)).
    { pose proof (wok_put (set_closed true) (t, h) Hw) as H. apply H. by intros; split_and!. }
    destruct (FailAll_settles order (Some [ErrStreamTableClosed]) (Some [ErrStreamTableClosed]) _ Hw1 Ho)
      as ([t' h'] & E & Hw' & Hem & Hcl & _ & Hobj).
    exists (set_connDone true (set_stopped true t'), h').
    pose proof (wo_finishers _ Hw') as Hz. simpl in *.
    split_and!; auto.
    + unfold Close, mbind, prog_bind, wget, wput. rewrite Hst, E, Hz. done.
    + intros. unfold admitStream. simpl. by rewrite Hcl.
Qed.

(** C40: a failed send either never happened or ends the stream.  When the
    transport refuses the first frame of a message with an error that proves it
    never reached the peer, the sender is exactly as before (credit unit and
    sequence number returned) and gets that error, chunked or not.  When the
    send ends with a context error, which cannot prove that, nothing is
    returned: the stream ends, as DEADLINE if the stream's or the caller's
    deadline passed and as CANCELED otherwise, the recorded outcome is what the
    caller gets, and the stream leaves the table. *)
Theorem send_failure_rolls_back_or_ends t s payload e :
  stream_ok s -> 0 <= finishers t -> ready t s payload ->
  (oversize t payload = true -> zlen payload <= Ceiling (chunkPolicy t)) ->
  ans (next_answer t) = Some e ->
  is_u64 (sendSeq s) -> 0 <= Credit.csent (sendCredit s) < 2 ^ 64 - 1 ->
  (NeverPublished (Some e) = true -> expired (next_answer t) = false ->
   exists f, SendMsg None [] payload (t, s) = Ret (after_send t f, s) (Some e)) /\
  (NeverPublished (Some e) = false -> is_ctx_err e = true ->
   let oc := ctx_outcome (caller (next_answer t)) (seen_ctx t s) in
   exists t' s', SendMsg None [] payload (t, s) = Ret (t', s') (OErr oc) /\
     Outcome s' = Some oc /\ OErr oc <> None /\ streams t' = delete (callID s) (streams t) /\
     sendCredit s' = (Credit.reserve (sendCredit s)).1).
Proof.
  intros Hs Hf Hr Hfit He Hq Hc. destruct (SendMsg_refused t s payload e Hr Hfit He) as (f & E).
  destruct (admitted_fields t s Hs) as (Hok & Hl & Hi & Hcr). split.
  - intros Hn Hx. exists f. rewrite E. unfold isRollbackEligible. rewrite Hn, andb_false_r.
    unfold handleSendErr, isRollbackEligible. rewrite Hn. unfold mbind, prog_bind, sput, seen_ctx. rewrite Hx.
    change (sendSeq (set_sendCredit (Credit.release (sendCredit (admitted s))) (admitted s)))
      with (sendSeq s +₆₄ 1)%word. rewrite Z.eqb_refl.
    by rewrite (rollback_restores s (rd_credit _ _ _ Hr) Hq Hc).
  - intros Hn Hx oc.
    assert (E2 : SendMsg None [] payload (t, s) =
      terminal_ctx_err (caller (next_answer t)) e (after_send t f, seen_ctx t (admitted s))).
    { rewrite E. unfold failVisibleTrain, handleSendErr, isRollbackEligible. rewrite Hn, Hx. by destruct (oversize t payload). }
    destruct (terminal_ctx_spec (caller (next_answer t)) e (after_send t f) (seen_ctx t (admitted s)))
      as (t' & E3 & Ha); [done|by rewrite Hl, (rd_live _ _ _ Hr)|done|].
    assert (Eoc : ctx_outcome (caller (next_answer t)) (seen_ctx t (admitted s)) = oc).
    { unfold oc, ctx_outcome, seen_ctx, expire, admitted.
      destruct (expired (next_answer t)); simpl; [|done]. by destruct (ctxErr s). }
    rewrite Eoc in E3. exists t', (finished true (openSendPending (seen_ctx t (admitted s)))
      (won oc (ctx_code (caller (next_answer t)) (seen_ctx t (admitted s))) (seen_ctx t (admitted s)))).
    split_and!.
    + by rewrite E2, E3.
    + apply finished_outcome.
    + unfold oc, ctx_outcome. by destruct (_ || _).
    + rewrite (ta_streams _ _ _ Ha), Hi. done.
    + rewrite <- Hcr. unfold finished, cancelCtx. simpl. by destruct (ctxErr _).
Qed.

(** ** Running a list of operations *)

Definition after_op (o : op) (w : world) : world := match exec o w with Ret w' _ => w' | _ => w end.

Fixpoint after_ops (os : list op) (w : world) : world :=
  match os with [] => w | o :: os => after_ops os (after_op o w) end.

(** Decides validity for the operations that need no map order and no owed
    teardown. *)
Definition valid_b (o : op) (w : world) : bool :=
  match o with
  | OOpen _ _ cfg _ _ => (0 <=? Credits cfg) && (Credits cfg <? 2 ^ 32)
  | OMethod _ MEmitOwed | OReaderDrained _ | OFailAll _ _ _ | OClose _ => false
  | OMethod r _ => bool_decide (is_Some (w.2 !! r))
  | _ => true
  end.

Fixpoint all_valid (os : list op) (w : world) : bool :=
  match os with
  | [] => true
  | o :: os =>
      valid_b o w && (match exec o w with Ret _ _ => true | _ => false end) && all_valid os (after_op o w)
  end.

Lemma valid_b_sound o w : valid_b o w = true -> valid o w.
Proof.
  destruct o as [i side cfg b p|r m|f|i code|order| | |i code|order d n| |order]; simpl; try done.
  - intros H. bool_to_prop. done.
  - destruct m; try done; intros H; by apply bool_decide_eq_true in H.
Qed.

Lemma ops_reach os w : all_valid os w = true -> rtc wstep w (after_ops os w).
Proof.
  revert w. induction os as [|o os IH]; intros w; simpl; [constructor|].
  intros H. bool_to_prop. eapply rtc_l; [|by apply IH]. exists o. split; [by apply valid_b_sound|].
  unfold after_op. by destruct (exec o w) as [w' []| |].
Qed.

End with_sink.

(** A connection with two streams: the first published and then failed by its
    peer, the second still unpublished. *)
Definition cfg : StreamConfig := mkConfig 4 1000 7 8 BidiStreaming [].
Definition start : StreamTable Leases.LeaseTable * list Stream :=
  fresh 2 (Some Leases.NewLeaseTable) (mkPolicy true 100 10 10) 0 [].
Definition peer_status : FrameStatus := mkStatus 5 [] [].
Definition history : list op :=
  [OOpen 1 ClientStream cfg true true; OMethod 0 MPublish; OMethod 0 MConfirmOpenSent;
   OOpen 2 ClientStream cfg true true; ODispatch (mkFrame 1 FrameStreamMsg 0 0 0 [9] None 1);
   OMethod 0 MRecvMsg; ODispatch (mkFrame 1 FrameStreamErr 0 0 0 [] (Some peer_status) 0)].
Definition here := after_ops history start.

Lemma here_reached : rtc wstep start here.
Proof. apply ops_reach. vm_compute. reflexivity. Qed.

Lemma stream_engine_safe_witness :
  size (streams here.1) = 1%nat /\ Z.of_nat (size (streams here.1)) <= Z.max 0 (maxOpen here.1) /\
  NoDup (armQueue here.1).
Proof.
  split; [vm_compute; reflexivity|].
  destruct (stream_engine_safe 2 (Some Leases.NewLeaseTable) (mkPolicy true 100 10 10) 0 [] here here_reached)
    as (_ & _ & Hc & Hn & _). by split.
Defined.

Lemma outcome_recorded_once_witness :
  exists s, here.2 !! 0%nat = Some s /\ isLive s = false /\
    exists oc s', Outcome s = Some oc /\ phase s = terminalPhaseFor (OCode oc) /\ recvAccum s = [] /\
     done s = true /\ here.2 !! 0%nat = Some s' /\ Outcome s' = Some oc /\ phase s' = phase s.
Proof.
  destruct (here.2 !! 0%nat) as [s|] eqn:Hs; [|vm_compute in Hs; discriminate].
  assert (Hl : isLive s = false) by (vm_compute in Hs; injection Hs as <-; reflexivity).
  exists s. split_and!; auto.
  destruct (outcome_recorded_once 2 (Some Leases.NewLeaseTable) (mkPolicy true 100 10 10) 0 []
    here here 0 s here_reached (rtc_refl _ _) Hs Hl) as [H _]. rewrite Hs in H. exact H.
Defined.

Lemma teardown_settles_every_stream_witness :
  exists w', FailAll (snapshot here.1) (Some [Other 1]) (Some [Other 2]) here = Ret w' tt /\ streams w'.1 = ∅ /\
    (forall r s, here.2 !! r = Some s -> exists s', w'.2 !! r = Some s' /\ done s' = true /\
      Outcome s' = crash_outcome (Some [Other 1]) (Some [Other 2]) s).
Proof.
  destruct (teardown_settles_every_stream 2 (Some Leases.NewLeaseTable) (mkPolicy true 100 10 10) 0 []
    here (snapshot here.1) (Some [Other 1]) (Some [Other 2]) here_reached (Permutation_refl _)) as [H _].
  exact H.
Defined.

(** The second stream, published, with one transport answer to come. *)
Definition answering (e : error) : StreamTable Leases.LeaseTable * Stream :=
  (NewStreamTable 2 (Some Leases.NewLeaseTable) (mkPolicy true 100 10 10) 0 [mkAnswer (Some e) false None None],
   set_phase streamPublished (newStream 0 0 1 ClientStream cfg)).

Lemma answering_ready e payload :
  zlen payload <= 100 ->
  stream_ok (answering e).2 /\ ready (answering e).1 (answering e).2 payload /\
  (oversize (answering e).1 payload = true -> zlen payload <= Ceiling (chunkPolicy (answering e).1)).
Proof.
  intros Hp. split_and!; [|by constructor|by intros _].
  constructor; try done; simpl; rewrite ?u32_id; unfold is_u32, zlen; simpl; try lia; discriminate.
Qed.

Lemma send_failure_rolls_back_or_ends_witness :
  (exists f, SendMsg None [] (replicate 25 7) (answering [ErrBackpressure]) =
     Ret (after_send (answering [ErrBackpressure]).1 f, (answering [ErrBackpressure]).2) (Some [ErrBackpressure])) /\
  (exists t' s', SendMsg None [] [1; 2] (answering [CtxCanceled]) = Ret (t', s') (Some [ErrCanceledLocally]) /\
     Outcome s' = Some (mkOutcome OutcomeCanceled (Some [ErrCanceledLocally]))).
Proof.
  split.
  - destruct (answering_ready [ErrBackpressure] (replicate 25 7)) as (Hs & Hr & Hf); [vm_compute; discriminate|].
    destruct (send_failure_rolls_back_or_ends (answering [ErrBackpressure]).1 (answering [ErrBackpressure]).2
      (replicate 25 7) [ErrBackpressure] Hs) as [H _]; try done.
    by apply H.
  - destruct (answering_ready [CtxCanceled] [1; 2]) as (Hs & Hr & Hf); [vm_compute; discriminate|].
    destruct (send_failure_rolls_back_or_ends (answering [CtxCanceled]).1 (answering [CtxCanceled]).2
      [1; 2] [CtxCanceled] Hs) as [_ H]; try done.
    destruct H as (t' & s' & H1 & H2 & _); [done|done|]. exists t', s'. split; [exact H1|exact H2].
Defined.

End Lifecycle.
