(* ===== verification/StreamInbound.v ===== *)
(** * What a peer can make a stream buffer
    (onStreamMsg of stream.go, onStreamChunk and completeRecvAccum of
    chunk_recv.go)

    An abstract reassembler states the split rule of the chunking protocol in
    unbounded arithmetic; the inbound handlers accept exactly the frames it
    accepts and queue exactly the messages it yields, for any sequence of data
    frames a peer can send. *)

From stdpp Require Import gmap.
From S2P Require Import Prelude CreditFlow LeaseTable TransportFrame StreamCore StreamChunks.
Import Frames Streams Chunks.

Module Inbound.

(** ** The specification *)

(** The receive direction of a stream as the protocol sees it. *)
Record direction := mkDirection {
  next : Z;             (* the sequence number the next data frame carries *)
  pending : list Z;     (* the fragments of the message under way *)
  waiting : list (list Z)  (* whole messages not yet read *)
}.

(** One data frame: the split rule fixes every non-final fragment at the
    inbound inline limit and the remainder at 1 to that limit, and keeps a
    message within the ceiling; [room] is the receive window. *)
Definition take_frame (policy : ChunkPolicy) (room : Z) (f : Frame) (d : direction) : option direction :=
  let n := zlen (Payload f) in
  let fits := zlen (pending d) + n <=? Ceiling policy in
  if negb (Control f =? next d) then None else
  if Kind f =? FrameStreamChunk then
    if (0 <? n) && (n =? RecvInline policy) && fits
    then Some (mkDirection (next d +₆₄ 1)%word (pending d ++ Payload f) (waiting d)) else None
  else
    if (zlen (pending d) =? 0) || ((0 <? n) && (n <=? RecvInline policy) && fits) then
      if zlen (waiting d) <? room
      then Some (mkDirection (next d +₆₄ 1)%word [] (waiting d ++ [pending d ++ Payload f])) else None
    else None.

(** The longest prefix the rules allow, and the direction after it. *)
Fixpoint take_frames (policy : ChunkPolicy) (room : Z) (fs : list Frame) (d : direction) : nat * direction :=
  match fs with
  | [] => (0%nat, d)
  | f :: fs =>
      match take_frame policy room f d with
      | None => (0%nat, d)
      | Some d => let '(n, d) := take_frames policy room fs d in (S n, d)
      end
  end.

(** The data frames, with a payload a Go slice can hold. *)
Definition data_kind (f : Frame) : Prop :=
  (Kind f = FrameStreamMsg \/ Kind f = FrameStreamChunk) /\ zlen (Payload f) < 2 ^ 63.

(** ** The handlers against it *)

Section with_sink.
Context {K : Type} `{!ObligationSink K}.
Implicit Types (t : StreamTable K) (s : Stream).

Definition direction_of (s : Stream) : direction :=
  mkDirection (expectedSeq s) (recvAccum s) (ipayload <$> recvCh s).

Record receiving_ok (t : StreamTable K) (s : Stream) : Prop := {
  ro_open : remoteClosed s = false;
  ro_ceiling : is_u32 (Ceiling (chunkPolicy t));
  ro_pending : zlen (recvAccum s) <= Ceiling (chunkPolicy t);
  ro_room : zlen (recvCh s) <= recvCap s
}.

Lemma accumFits_exact a n c :
  0 <= a <= c -> is_u32 c -> 0 <= n < 2 ^ 63 -> accumFits a n c = (a + n <=? c).
Proof. intros. unfold accumFits, is_u32 in *. rewrite u64_id by (unfold is_u64; lia). done. Qed.

Lemma zlen_fmap {A B} (f : A -> B) (l : list A) : zlen (f <$> l) = zlen l.
Proof. unfold zlen. by rewrite length_fmap. Qed.

(** A handler's answer to one data frame, in the words of the specification. *)
Definition answers_frame (f : Frame) (t : StreamTable K) (s : Stream) : Prop :=
  match take_frame (chunkPolicy t) (recvCap s) f (direction_of s) with
  | Some d => exists s', stream_handler f (t, s) = Ret (t, s') None /\
      direction_of s' = d /\ receiving_ok t s' /\ recvCap s' = recvCap s
  | None => exists s', stream_handler f (t, s) = Ret (t, s') (Some [ErrStreamConformance]) /\
      recvCh s' = recvCh s /\ zlen (recvAccum s') <= Ceiling (chunkPolicy t)
  end.

Lemma chunk_answered f t s :
  Kind f = FrameStreamChunk -> zlen (Payload f) < 2 ^ 63 -> receiving_ok t s -> answers_frame f t s.
Proof.
  intros Hk Hn [Ho Hc Hp Hr]. pose proof (zlen_nonneg (Payload f)). pose proof (zlen_nonneg (recvAccum s)).
  unfold answers_frame, take_frame, stream_handler, direction_of. simpl.
  rewrite Hk. change (FrameStreamChunk =? FrameStreamMsg) with false. rewrite Z.eqb_refl. cbv beta iota.
  unfold onStreamChunk. rewrite Ho.
  destruct (Z.eqb_spec (Control f) (expectedSeq s)); cbn [negb]; [|by exists s].
  rewrite accumFits_exact by auto.
  destruct (Z.eqb_spec (zlen (Payload f)) 0), (Z.ltb_spec 0 (zlen (Payload f))),
    (Z.eqb_spec (zlen (Payload f)) (RecvInline (chunkPolicy t))); try lia; cbn [negb orb andb]; try (by exists s).
  destruct (Z.leb_spec (zlen (recvAccum s) + zlen (Payload f)) (Ceiling (chunkPolicy t))); cbn [negb]; [|by exists s].
  eexists. split; [reflexivity|]. split_and!; try done. constructor; auto. simpl.
  unfold zlen in *. rewrite length_app. lia.
Qed.

Lemma remoteClosed_bits s s' : closeBits s' = closeBits s -> remoteClosed s' = remoteClosed s.
Proof. unfold remoteClosed. by intros ->. Qed.

Lemma msg_answered f t s :
  Kind f = FrameStreamMsg -> zlen (Payload f) < 2 ^ 63 -> receiving_ok t s -> answers_frame f t s.
Proof.
  intros Hk Hn [Ho Hc Hp Hr]. pose proof (zlen_nonneg (Payload f)). pose proof (zlen_nonneg (recvAccum s)).
  assert (0 <= Ceiling (chunkPolicy t)) by (unfold is_u32 in Hc; lia).
  unfold answers_frame, take_frame, stream_handler, direction_of. simpl.
  rewrite Hk. change (FrameStreamMsg =? FrameStreamChunk) with false. rewrite Z.eqb_refl. cbv beta iota.
  unfold onStreamMsg. rewrite Ho.
  destruct (Z.eqb_spec (Control f) (expectedSeq s)); cbn [negb]; [|by exists s].
  unfold completeRecvAccum. rewrite accumFits_exact, zlen_fmap by auto.
  destruct (Z.ltb_spec 0 (zlen (recvAccum s))), (Z.eqb_spec (zlen (recvAccum s)) 0); try lia; cbn [orb].
  - destruct (Z.eqb_spec (zlen (Payload f)) 0), (Z.ltb_spec 0 (zlen (Payload f))),
      (Z.ltb_spec (RecvInline (chunkPolicy t)) (zlen (Payload f))),
      (Z.leb_spec (zlen (Payload f)) (RecvInline (chunkPolicy t))); try lia; cbn [orb andb]; try (by exists s).
    destruct (Z.leb_spec (zlen (recvAccum s) + zlen (Payload f)) (Ceiling (chunkPolicy t))); cbn [negb]; [|by exists s].
    unfold enqueueRecv. simpl. destruct (Z.ltb_spec (zlen (recvCh s)) (recvCap s)).
    + eexists. split; [reflexivity|]. simpl. rewrite fmap_app. split_and!; try done.
      constructor; auto; simpl; unfold zlen in *; rewrite ?length_app; simpl; lia.
    + eexists. split; [reflexivity|]. simpl. by split.
  - assert (E : recvAccum s = []) by (destruct (recvAccum s); [done|unfold zlen in *; simpl in *; lia]).
    unfold enqueueRecv. simpl. rewrite E. destruct (Z.ltb_spec (zlen (recvCh s)) (recvCap s)).
    + eexists. split; [reflexivity|]. simpl. rewrite fmap_app, E. split_and!; try done.
      constructor; auto; simpl; unfold zlen in *; rewrite ?length_app, ?E; simpl; lia.
    + eexists. split; [reflexivity|]. simpl. rewrite E. by split.
Qed.

Lemma data_answered f t s : data_kind f -> receiving_ok t s -> answers_frame f t s.
Proof. intros [[Hk|Hk] Hn]; [by apply msg_answered|by apply chunk_answered]. Qed.

(** The specification's own bound: a whole message is one frame's payload or is
    within the ceiling. *)
Definition message_bounded (policy : ChunkPolicy) (fs : list Frame) (m : list Z) : Prop :=
  (exists f, f ∈ fs /\ Payload f = m) \/ zlen m <= Ceiling policy.

Lemma take_frame_waiting policy room f d d' :
  take_frame policy room f d = Some d' ->
  waiting d' = waiting d \/ exists m, waiting d' = waiting d ++ [m] /\ (m = Payload f \/ zlen m <= Ceiling policy).
Proof.
  unfold take_frame. intros H. repeat case_match; simplify_eq; simpl; [by left|].
  right. eexists. split; [reflexivity|]. bool_to_prop.
  match goal with H : (_ || _) = true |- _ => apply orb_prop in H; destruct H end.
  - left. bool_to_prop. destruct (pending d); [done|unfold zlen in *; simpl in *; lia].
  - right. bool_to_prop. unfold zlen in *. rewrite length_app. lia.
Qed.

Lemma take_frames_waiting policy room fs d :
  exists ms, waiting (take_frames policy room fs d).2 = waiting d ++ ms /\ Forall (message_bounded policy fs) ms.
Proof.
  revert d. induction fs as [|f fs IH]; intros d; simpl; [exists []; by rewrite app_nil_r|].
  destruct (take_frame policy room f d) as [d1|] eqn:E; [|exists []; by rewrite app_nil_r].
  destruct (IH d1) as (ms & Hw & Hb). destruct (take_frames policy room fs d1) as [n d2]. simpl in *.
  assert (Hb' : Forall (message_bounded policy (f :: fs)) ms).
  { eapply Forall_impl; [exact Hb|]. intros m [(g & Hg & <-)|Hm]; [left|by right].
    exists g. split; [by right|done]. }
  destruct (take_frame_waiting _ _ _ _ _ E) as [H|(m & H & Hm)]; rewrite H in Hw.
  - by exists ms.
  - exists (m :: ms). rewrite Hw, <- app_assoc. split; [done|]. constructor; [|done].
    destruct Hm as [->|Hm]; [left; exists f; split; [left|done]|by right].
Qed.

Lemma feed_refines fs t s :
  Forall data_kind fs -> receiving_ok t s ->
  let '(n, d) := take_frames (chunkPolicy t) (recvCap s) fs (direction_of s) in
  exists s', feed fs (t, s) =
      Ret (t, s') (if decide (n = length fs) then None else Some [ErrStreamConformance]) /\
    ipayload <$> recvCh s' = waiting d /\ zlen (recvCh s') <= recvCap s /\
    zlen (recvAccum s') <= Ceiling (chunkPolicy t) /\
    (n = length fs -> direction_of s' = d).
Proof.
  revert s. induction fs as [|f fs IH]; intros s Hfs Hs; cbn [take_frames].
  { exists s. destruct Hs. by split_and!. }
  apply Forall_cons in Hfs as [Hf Hfs]. pose proof (data_answered f t s Hf Hs) as H.
  unfold answers_frame in H. destruct (take_frame _ _ f _) as [d1|].
  - destruct H as (s1 & E & <- & Hs1 & Hcap). specialize (IH s1 Hfs Hs1). rewrite Hcap in IH.
    destruct (take_frames _ _ fs _) as [n d]. destruct IH as (s' & E' & Hw & Hr & Ha & Hd).
    exists s'. rewrite (feed_cons _ _ _ _ _ _ E), E'. split_and!; auto.
    repeat case_decide; try done; simpl in *; lia.
  - destruct H as (s1 & E & Hq & Ha). exists s1. cbn [feed]. run_prog. rewrite E. destruct Hs.
    split_and!; auto; rewrite ?Hq; auto. done.
Qed.

(** C26: the receive path is the reassembler, against any peer.  Given any
    sequence of data frames, with any sequence numbers, lengths and kinds, the
    handlers accept exactly the longest prefix the split rule allows and then
    report a conformance violation; the queued messages are exactly those the
    specification yields from that prefix, each a single frame's payload or
    within the ceiling; and whatever was sent, the partial message stays within
    the ceiling and the queue within its window. *)
Theorem inbound_refines_reassembler fs t s :
  Forall data_kind fs -> receiving_ok t s ->
  let '(n, d) := take_frames (chunkPolicy t) (recvCap s) fs (direction_of s) in
  exists s' ms,
    feed fs (t, s) = Ret (t, s') (if decide (n = length fs) then None else Some [ErrStreamConformance]) /\
    (n = length fs -> direction_of s' = d) /\
    ipayload <$> recvCh s' = (ipayload <$> recvCh s) ++ ms /\ waiting d = (ipayload <$> recvCh s) ++ ms /\
    Forall (message_bounded (chunkPolicy t) fs) ms /\
    zlen (recvAccum s') <= Ceiling (chunkPolicy t) /\ zlen (recvCh s') <= recvCap s.
Proof.
  intros Hfs Hs. pose proof (feed_refines fs t s Hfs Hs) as H.
  destruct (take_frames_waiting (chunkPolicy t) (recvCap s) fs (direction_of s)) as (ms & Hw & Hb).
  destruct (take_frames _ _ fs _) as [n d]. destruct H as (s' & E & Hq & Hr & Ha & Hd). simpl in Hw.
  exists s', ms. split_and!; auto. congruence.
Qed.

End with_sink.

(** A fragment, its completion, and then a fragment of the wrong length. *)
Definition train : list Frame :=
  [mkFrame 1 FrameStreamChunk 0 0 0 [1; 2; 3] None 1; mkFrame 1 FrameStreamMsg 0 0 0 [4] None 2;
   mkFrame 1 FrameStreamChunk 0 0 0 [5; 6] None 3; mkFrame 1 FrameStreamMsg 0 0 0 [7] None 4].

Lemma inbound_refines_reassembler_witness :
  exists s', feed train (receiving, end_of ServerStream) = Ret (receiving, s') (Some [ErrStreamConformance]) /\
    ipayload <$> recvCh s' = [[1; 2; 3; 4]] /\ zlen (recvAccum s') <= 100.
Proof.
  assert (Hd : Forall data_kind train).
  { repeat constructor; try (by left); by right. }
  assert (Hr : receiving_ok receiving (end_of ServerStream)) by (constructor; vm_compute; repeat split; congruence).
  pose proof (inbound_refines_reassembler train receiving (end_of ServerStream) Hd Hr) as H.
  change (take_frames _ _ train _) with (2%nat, mkDirection 3 [] [[1; 2; 3; 4]]) in H. cbv beta iota in H.
  destruct H as (s' & ms & E & _ & Hq & Hw & _ & Ha & _). exists s'. split_and!; [exact E|exact (eq_trans Hq (eq_sym Hw))|exact Ha].
Defined.

End Inbound.
