(* ===== verification/StreamToken.v ===== *)
(** * The lifecycle token under interleaving
    (claimTerminalToken, releaseAckToken and serveAck of stream.go,
    runAckDispatch of stream_table.go)

    One word per stream decides who may put a lifecycle frame (an
    acknowledgement or the teardown cancel) on the wire.  Here the goroutines
    that contend for it run one atomic access at a time: any number of
    terminators, each with its own need for a cancel, and the connection's
    ack-dispatch goroutine, which reads the phase and takes the token in two
    separate steps. *)

From stdpp Require Import list.
From S2P Require Import Prelude LeaseTable TransportFrame StreamCore.
Import Streams.

Module Token.

(** ** Program counters *)

(** runAckDispatch's loop body with serveAck and releaseAckToken inlined. *)
Inductive dpc :=
| DPop          (* between iterations *)
| DTake         (* found the stream live; about to take the token *)
| DServe        (* holds the token; about to send the acknowledgement *)
| DAck          (* the acknowledgement's Send is outstanding *)
| DRelease      (* about to swap the token back to idle *)
| DLoad         (* that swap failed; about to load the token *)
| DStore        (* saw a cancel owed; about to store terminal *)
| DSend         (* about to send the owed cancel *)
| DCancel.      (* the owed cancel's Send is outstanding *)

(** A terminator: the phase swap, then claimTerminalToken's loop with the
    number of iterations it has begun, then the cancel it may have to send. *)
Inductive wpc :=
| WTry
| WLost
| WIdleCas (k : nat)
| WAckCas (k : nat)
| WSend
| WCancel
| WDone.

Inductive lifecycle := EAck | ECancel.

Record state := mkState {
  live : bool;                (* the phase word, as far as the token cares *)
  tok : token_word;
  disp : dpc;
  terms : list (bool * wpc);  (* each terminator's need for a cancel *)
  sent : list lifecycle       (* lifecycle Sends in the order they begin *)
}.

#[global] Instance dpc_eq_dec : EqDecision dpc.
Proof. solve_decision. Defined.
#[global] Instance wpc_eq_dec : EqDecision wpc.
Proof. solve_decision. Defined.

Definition set_disp (d : dpc) (s : state) : state := mkState (live s) (tok s) d (terms s) (sent s).
Definition set_tok (w : token_word) (s : state) : state := mkState (live s) w (disp s) (terms s) (sent s).
Definition set_term (i : nat) (n : bool) (p : wpc) (s : state) : state :=
  mkState (live s) (tok s) (disp s) (<[i := (n, p)]> (terms s)) (sent s).
Definition emit (e : lifecycle) (s : state) : state := mkState (live s) (tok s) (disp s) (terms s) (sent s ++ [e]).
Definition end_phase (s : state) : state := mkState false (tok s) (disp s) (terms s) (sent s).

(** ** Steps *)

Inductive ack_step : state -> state -> Prop :=
| d_live s : disp s = DPop -> live s = true -> ack_step s (set_disp DTake s)
| d_drop s : disp s = DTake -> ack_step s (set_disp DPop s)   (* nothing to acknowledge, or deferred *)
| d_take s : disp s = DTake -> tok s = tokenIdle -> ack_step s (set_disp DServe (set_tok tokenACKOutstanding s))
| d_miss s : disp s = DTake -> tok s <> tokenIdle -> ack_step s (set_disp DPop s)
| d_send s : disp s = DServe -> ack_step s (set_disp DAck (emit EAck s))
| d_sent s : disp s = DAck -> ack_step s (set_disp DRelease s)
| d_release s : disp s = DRelease -> tok s = tokenACKOutstanding -> ack_step s (set_disp DPop (set_tok tokenIdle s))
| d_kept s : disp s = DRelease -> tok s <> tokenACKOutstanding -> ack_step s (set_disp DLoad s)
| d_owed s : disp s = DLoad -> tok s = tokenCancelOwed -> ack_step s (set_disp DStore s)
| d_nothing s : disp s = DLoad -> tok s <> tokenCancelOwed -> ack_step s (set_disp DPop s)
| d_store s : disp s = DStore -> ack_step s (set_disp DSend (set_tok tokenTerminal s))
| d_cancel s : disp s = DSend -> ack_step s (set_disp DCancel (emit ECancel s))
| d_canceled s : disp s = DCancel -> ack_step s (set_disp DPop s).

Definition owed_target (n : bool) : token_word := if n then tokenCancelOwed else tokenTerminal.

Inductive claim_step (i : nat) (n : bool) : wpc -> state -> state -> Prop :=
| w_win s : live s = true -> claim_step i n WTry s (set_term i n (WIdleCas 1) (end_phase s))
| w_lose s : live s = false -> claim_step i n WTry s (set_term i n WLost s)
| w_idle k s : tok s = tokenIdle ->
    claim_step i n (WIdleCas k) s (set_term i n (if n then WSend else WDone) (set_tok tokenTerminal s))
| w_idle_miss k s : tok s <> tokenIdle -> claim_step i n (WIdleCas k) s (set_term i n (WAckCas k) s)
| w_ack k s : tok s = tokenACKOutstanding ->
    claim_step i n (WAckCas k) s (set_term i n WDone (set_tok (owed_target n) s))
| w_ack_miss k s : tok s <> tokenACKOutstanding -> claim_step i n (WAckCas k) s (set_term i n (WIdleCas (S k)) s)
| w_send s : claim_step i n WSend s (set_term i n WCancel (emit ECancel s))
| w_sent s : claim_step i n WCancel s (set_term i n WDone s).

Definition step (s s' : state) : Prop :=
  ack_step s s' \/ exists i n p, terms s !! i = Some (n, p) /\ claim_step i n p s s'.

Definition initial (needs : list bool) : state :=
  mkState true tokenIdle DPop ((fun n => (n, WTry)) <$> needs) [].

(** ** What is outstanding *)

Definition in_flight (s : state) : nat :=
  (if decide (disp s = DAck \/ disp s = DCancel) then 1 else 0) +
  length (filter (fun w => w.2 = WCancel) (terms s)).

Definition finished (w : bool * wpc) : Prop := w.2 = WDone \/ w.2 = WLost.

(** ** The invariant *)

(** The dispatcher holds the token it took. *)
Definition holding (d : dpc) : bool := match d with DServe | DAck | DRelease => true | _ => false end.

Definition before_ok (w : token_word) (d : dpc) : bool :=
  match w, d with
  | tokenIdle, (DPop | DTake) => true
  | tokenACKOutstanding, _ => holding d
  | _, _ => false
  end.

(** Once the winner [p] has swapped the phase; [c] says whether a cancel has
    begun. *)
Definition after_ok (w : token_word) (d : dpc) (n : bool) (p : wpc) (c : bool) : bool :=
  match p, w, n, c with
  | WIdleCas 1, _, _, false => before_ok w d
  | WIdleCas 2, tokenIdle, _, false => bool_decide (d = DPop)
  | WAckCas 1, tokenACKOutstanding, _, false => holding d
  | WAckCas 1, tokenIdle, _, false => bool_decide (d = DPop)
  | WSend, tokenTerminal, true, false => bool_decide (d = DPop \/ d = DTake)
  | WCancel, tokenTerminal, true, true => bool_decide (d = DPop \/ d = DTake)
  | WDone, tokenCancelOwed, true, false => holding d || bool_decide (d = DLoad \/ d = DStore)
  | WDone, tokenTerminal, true, false => bool_decide (d = DSend)
  | WDone, tokenTerminal, true, true => bool_decide (d = DPop \/ d = DTake \/ d = DCancel)
  | WDone, tokenTerminal, false, false => holding d || bool_decide (d = DPop \/ d = DTake \/ d = DLoad)
  | _, _, _, _ => false
  end.

Definition idle_term (w : bool * wpc) : Prop := w.2 = WTry \/ w.2 = WLost.

Record token_inv (s : state) : Prop := {
  ti_sent : exists a c, sent s = replicate a EAck ++ (if c : bool then [ECancel] else []) /\
    if live s then Forall (fun w => w.2 = WTry) (terms s) /\ before_ok (tok s) (disp s) = true /\ c = false
    else exists l n p r, terms s = l ++ (n, p) :: r /\ Forall idle_term l /\ Forall idle_term r /\
      after_ok (tok s) (disp s) n p c = true
}.

(** ** Preservation *)

Definition log_of (a : nat) (c : bool) : list lifecycle := replicate a EAck ++ (if c then [ECancel] else []).

Lemma log_ack a : log_of a false ++ [EAck] = log_of (S a) false.
Proof. unfold log_of. rewrite !app_nil_r. symmetry. apply (replicate_S_end a EAck). Qed.

Lemma log_cancel a : log_of a false ++ [ECancel] = log_of a true.
Proof. unfold log_of. by rewrite app_nil_r. Qed.

(** The Send the dispatcher's step begins, if any. *)
Definition begun (d d' : dpc) : list lifecycle :=
  match d, d' with DServe, DAck => [EAck] | DSend, DCancel => [ECancel] | _, _ => [] end.

(** The dispatcher's step on the words it does not own. *)
Lemma ack_words s s' :
  ack_step s s' -> live s' = live s /\ terms s' = terms s /\ sent s' = sent s ++ begun (disp s) (disp s').
Proof.
  destruct s as [l w d ts lg]. intros H. inversion H; subst; simpl in *; subst; rewrite ?app_nil_r; done.
Qed.

Lemma begins_only s s' :
  ack_step s s' -> (disp s = DServe -> begun (disp s) (disp s') = [EAck]) /\
    (disp s = DSend -> begun (disp s) (disp s') = [ECancel]).
Proof. destruct s as [l w d ts lg]. intros H. inversion H; subst; simpl in *; subst; done. Qed.

Lemma ack_before s s' :
  ack_step s s' -> live s = true -> before_ok (tok s) (disp s) = true ->
  before_ok (tok s') (disp s') = true /\ disp s <> DSend.
Proof.
  intros H Hl Hb. destruct s as [l w d ts lg]. simpl in *. subst l.
  destruct w, d; try discriminate; inversion H; by subst.
Qed.

Lemma ack_after s s' n p c :
  ack_step s s' -> live s = false -> after_ok (tok s) (disp s) n p c = true ->
  after_ok (tok s') (disp s') n p (c || bool_decide (disp s = DSend)) = true /\
  (disp s = DServe \/ disp s = DSend -> c = false).
Proof.
  intros H Hl Hb. destruct s as [l w d ts lg]. simpl in *. subst l.
  destruct p as [| |[|[|[|?]]]|[|[|?]]| | |], w, n, c, d; try discriminate;
    (split; [inversion H; subst; simpl in *; congruence|intros [|]; congruence]).
Qed.

Lemma ack_inv s s' : ack_step s s' -> token_inv s -> token_inv s'.
Proof.
  intros H [(a & c & Hs & Hi)]. destruct (ack_words _ _ H) as (Hl & Ht & Hlog).
  destruct (begins_only _ _ H) as [HA HC].
  assert (H0 : disp s <> DServe -> disp s <> DSend -> begun (disp s) (disp s') = []).
  { by destruct (disp s). }
  constructor. rewrite Hl, Ht, Hlog, Hs. fold (log_of a c). fold log_of.
  destruct (decide (disp s = DServe)) as [E1|E1]; [rewrite HA by done|
    destruct (decide (disp s = DSend)) as [E2|E2]; [rewrite HC by done|rewrite H0, app_nil_r by done]].
  all: destruct (live s) eqn:El;
    [destruct Hi as (Hw & Hb & ->); destruct (ack_before _ _ H El Hb) as [Hb' Hn]
    |destruct Hi as (l & n & p & r & Hw & Hl1 & Hr & Hb); destruct (ack_after _ _ n p c H El Hb) as [Hb' Hc]].
  - exists (S a), false. split; [apply log_ack|done].
  - rewrite (Hc (or_introl E1)) in *. exists (S a), false. split; [apply log_ack|].
    exists l, n, p, r. rewrite E1 in Hb'. by split_and!.
  - done.
  - rewrite (Hc (or_intror E2)) in *. exists a, true. split; [apply log_cancel|].
    exists l, n, p, r. rewrite E2 in Hb'. by split_and!.
  - by exists a, false.
  - exists a, c. split; [done|]. exists l, n, p, r.
    rewrite bool_decide_eq_false_2, orb_false_r in Hb' by done. by split_and!.
Qed.

Lemma middle_insert {A} (l r : list A) x y : <[length l := x]> (l ++ y :: r) = l ++ x :: r.
Proof. induction l as [|z l IH]; simpl; [done|]. by rewrite IH. Qed.

(** A terminator that is neither waiting nor beaten is the winner. *)
Lemma winner_index l n p r i n' p' :
  Forall idle_term l -> Forall idle_term r -> (l ++ (n, p) :: r) !! i = Some (n', p') ->
  i = length l /\ n' = n /\ p' = p \/ idle_term (n', p') /\ i <> length l.
Proof.
  intros Hl Hr Hi. destruct (decide (i = length l)) as [->|Hne].
  - rewrite list_lookup_middle in Hi by done. left. by simplify_eq.
  - right. split; [|done]. apply lookup_app_Some in Hi as [Hi|[Hlen Hi]].
    + by apply (Forall_lookup_1 _ _ _ _ Hl Hi).
    + destruct (i - length l)%nat as [|j] eqn:Ej; [lia|]. by apply (Forall_lookup_1 _ _ _ _ Hr Hi).
Qed.

Lemma idle_insert l n p r i w :
  Forall idle_term l -> Forall idle_term r -> i <> length l -> idle_term w ->
  exists l' r', <[i := w]> (l ++ (n, p) :: r) = l' ++ (n, p) :: r' /\ Forall idle_term l' /\ Forall idle_term r'.
Proof.
  intros Hl Hr Hne Hw. destruct (decide (i < length l)%nat).
  - exists (<[i := w]> l), r. rewrite insert_app_l by done. split_and!; auto. by apply Forall_insert.
  - replace i with (length l + S (i - length l - 1))%nat by lia. rewrite insert_app_r. simpl.
    exists l, (<[(i - length l - 1)%nat := w]> r). split_and!; auto. by apply Forall_insert.
Qed.

(** The winner's own steps, on the words it shares. *)
Lemma claim_after i n p s s' c :
  claim_step i n p s s' -> p <> WTry -> after_ok (tok s) (disp s) n p c = true ->
  exists p', terms s' = <[i := (n, p')]> (terms s) /\ live s' = live s /\
    (p <> WSend /\ sent s' = sent s /\ after_ok (tok s') (disp s') n p' c = true \/
     sent s' = sent s ++ [ECancel] /\ c = false /\ after_ok (tok s') (disp s') n p' true = true).
Proof.
  intros H Hp Hb. destruct s as [l w d ts lg]. simpl in *.
  destruct p as [| |[|[|[|?]]]|[|[|?]]| | |], w, n, c; try discriminate; try done;
    inversion H; subst; simpl in *; try congruence; (eexists; split; [reflexivity|]; split; [done|]).
  all: destruct d; try (vm_compute in Hb; discriminate).
  all: first [left; by split_and! | right; by split_and!].
Qed.

Lemma claim_inv s s' i n p :
  terms s !! i = Some (n, p) -> claim_step i n p s s' -> token_inv s -> token_inv s'.
Proof.
  intros Hi H [(a & c & Hs & Hinv)]. constructor. destruct (live s) eqn:El.
  - destruct Hinv as (Hw & Hb & ->). assert (p = WTry) as -> by (by apply (Forall_lookup_1 _ _ _ _ Hw Hi)).
    inversion H; subst; simpl in *; [|congruence]. exists a, false. split; [done|].
    exists (take i (terms s)), n, (WIdleCas 1), (drop (S i) (terms s)).
    split; [apply insert_take_drop; by eapply lookup_lt_Some|].
    assert (Hidle : Forall idle_term (terms s)) by (eapply Forall_impl; [exact Hw|by left]).
    split_and!; [by apply Forall_take|by apply Forall_drop|done].
  - destruct Hinv as (l & m & q & r & Ht & Hl & Hr & Hb). rewrite Ht in Hi.
    destruct (winner_index _ _ _ _ _ _ _ Hl Hr Hi) as [(-> & -> & ->)|[Hidle Hne]].
    + destruct (claim_after _ _ _ _ _ _ H ltac:(intros ->; simpl in Hb; done) Hb)
        as (p' & Ht' & Hl' & [(_ & Hs' & Hb')|(Hs' & -> & Hb')]).
      * exists a, c. rewrite Hs', Hs, Hl', El. split; [done|]. exists l, m, p', r.
        by rewrite Ht', Ht, middle_insert.
      * exists a, true. rewrite Hs', Hs, Hl', El. split; [apply log_cancel|]. exists l, m, p', r.
        by rewrite Ht', Ht, middle_insert.
    + destruct Hidle as [E|E]; simpl in E; subst p; inversion H; subst; try congruence. simpl.
      exists a, c. split; [done|]. rewrite El, Ht.
      destruct (idle_insert l m q r i (n, WLost)) as (l' & r' & E & ? & ?); [done..|by right|].
      exists l', m, q, r'. by split_and!.
Qed.

Lemma token_inv_initial needs : token_inv (initial needs).
Proof.
  constructor. exists 0%nat, false. simpl. split_and!; try done.
  apply Forall_fmap, Forall_forall. done.
Qed.

Lemma token_inv_step s s' : step s s' -> token_inv s -> token_inv s'.
Proof. intros [Hd|(i & n & p & Hi & Hw)] Hinv; [by eapply ack_inv|by eapply claim_inv]. Qed.

Lemma token_inv_reach needs s : rtc step (initial needs) s -> token_inv s.
Proof.
  intros H. generalize (token_inv_initial needs).
  induction H as [s|s1 s2 s3 Hs _ IH]; intros Hi; [done|]. apply IH. by eapply token_inv_step.
Qed.

(** ** Consequences *)

Lemma after_ok_flight w d n p c :
  after_ok w d n p c = true -> p = WCancel -> d <> DAck /\ d <> DCancel.
Proof.
  intros H ->. destruct w, n, c; try discriminate. destruct d; try (vm_compute in H; discriminate); done.
Qed.

Lemma idle_no_cancel l : Forall idle_term l -> filter (fun w : bool * wpc => w.2 = WCancel) l = [].
Proof.
  induction 1 as [|[n p] l [E|E] _ IH]; simpl in *; subst; [done|..]; by rewrite filter_cons_False by done.
Qed.

Lemma inv_flight s : token_inv s -> (in_flight s <= 1)%nat.
Proof.
  intros [(a & c & _ & H)]. unfold in_flight. destruct (live s).
  - destruct H as (Hw & _). rewrite idle_no_cancel; [simpl; case_decide; lia|].
    eapply Forall_impl; [exact Hw|by left].
  - destruct H as (l & n & p & r & -> & Hl & Hr & Hb). rewrite filter_app, (idle_no_cancel l Hl). simpl.
    destruct (decide (p = WCancel)) as [->|Hp].
    + rewrite filter_cons_True, (idle_no_cancel r Hr) by done.
      destruct (after_ok_flight _ _ _ _ _ Hb eq_refl). rewrite decide_False by tauto. done.
    + rewrite filter_cons_False, (idle_no_cancel r Hr) by done. simpl. case_decide; lia.
Qed.

Definition claiming (p : wpc) (k : nat) : Prop := p = WIdleCas k \/ p = WAckCas k.

Lemma inv_loop s n p k : token_inv s -> (n, p) ∈ terms s -> claiming p k -> (k <= 2)%nat.
Proof.
  intros [(a & c & _ & H)] Hin Hk. apply list_elem_of_lookup in Hin as [i Hi]. destruct (live s).
  - destruct H as (Hw & _). pose proof (Forall_lookup_1 _ _ _ _ Hw Hi) as E. simpl in E. subst. by destruct Hk.
  - destruct H as (l & m & q & r & Ht & Hl & Hr & Hb). rewrite Ht in Hi.
    destruct (winner_index _ _ _ _ _ _ _ Hl Hr Hi) as [(-> & -> & ->)|[[E|E] _]];
      [|simpl in E; subst; by destruct Hk..].
    destruct Hk as [-> | ->]; destruct k as [|[|[|k]]]; try lia; destruct (tok s), m, c; discriminate.
Qed.

Lemma inv_settled s :
  token_inv s -> Forall finished (terms s) -> disp s = DPop -> terms s <> [] ->
  exists n a, (n, WDone) ∈ terms s /\ sent s = log_of a n.
Proof.
  intros [(a & c & Hs & H)] Hf Hd Hne. destruct (live s).
  - destruct H as (Hw & _). destruct (terms s) as [|w ts]; [done|].
    apply Forall_cons in Hw as [E _]. apply Forall_cons in Hf as [[F|F] _]; congruence.
  - destruct H as (l & n & p & r & Ht & _ & _ & Hb). rewrite Ht, Forall_app, Forall_cons in Hf.
    destruct Hf as (_ & Hp & _). exists n, a. rewrite Ht, Hs, Hd in *. destruct Hp as [E|E]; simpl in E; subst p.
    + split; [apply elem_of_app; right; left|]. by destruct (tok s), n, c; try discriminate.
    + done.
Qed.

(** ** Termination *)

Definition disp_weight (d : dpc) : nat :=
  match d with
  | DPop => 0 | DCancel => 1 | DSend => 2 | DStore => 3 | DLoad => 4
  | DRelease => 5 | DAck => 6 | DServe => 7 | DTake => 8
  end.

Definition term_weight (w : bool * wpc) : nat :=
  match w.2 with
  | WLost | WDone => 0
  | WTry | WCancel => 1
  | WSend => 2
  | WIdleCas k => 3 + 2 * (2 - k)
  | WAckCas k => 2 + 2 * (2 - k)
  end.

Definition weight (s : state) : nat := disp_weight (disp s) + sum_list_with term_weight (terms s).

Lemma sum_insert {A} (f : A -> nat) l i x y :
  l !! i = Some x -> (sum_list_with f (<[i := y]> l) + f x = sum_list_with f l + f y)%nat.
Proof.
  revert i. induction l as [|z l IH]; intros [|i] H; simpl in *; simplify_eq; [lia|].
  specialize (IH _ H). lia.
Qed.

Lemma ack_weight s s' : ack_step s s' -> live s = false -> (weight s' < weight s)%nat.
Proof.
  intros H Hl. destruct s as [l w d ts lg]. simpl in *. subst l. unfold weight.
  inversion H; subst; simpl in *; subst; simpl; try discriminate; lia.
Qed.

Lemma claim_weight s s' i n p :
  token_inv s -> live s = false -> terms s !! i = Some (n, p) -> claim_step i n p s s' -> (weight s' < weight s)%nat.
Proof.
  intros Hinv Hl Hi H.
  assert (Hk : forall k, claiming p k -> (k <= 2)%nat).
  { intros k. eapply (inv_loop s n p k Hinv). by eapply list_elem_of_lookup_2. }
  assert (Hk' : p = WAckCas 2 -> False).
  { intros ->. destruct Hinv as [(a & c & _ & Hv)]. rewrite Hl in Hv.
    destruct Hv as (l & m & q & r & Ht & HL & HR & Hb). rewrite Ht in Hi.
    destruct (winner_index _ _ _ _ _ _ _ HL HR Hi) as [(_ & _ & <-)|[[E|E] _]]; discriminate. }
  unfold weight. inversion H; subst; try congruence; simpl.
  all: match goal with |- context [<[?j := ?q]> _] =>
    pose proof (sum_insert term_weight (terms s) j _ q Hi) as HS end.
  all: unfold term_weight in HS at 2 4; simpl in HS; try (destruct n; simpl in HS; lia).
  assert (k <> 2%nat) by (intros ->; by apply Hk').
  assert (k <= 2)%nat by (apply Hk; by right). lia.
Qed.

Lemma step_dead s s' : step s s' -> live s = false -> live s' = false.
Proof.
  intros [H|(i & n & p & _ & H)] Hl; [by destruct (ack_words _ _ H) as (-> & _)|].
  by inversion H; subst; simpl.
Qed.

Lemma dead_run s s' k :
  nsteps step k s s' -> token_inv s -> live s = false -> (k + weight s' <= weight s)%nat.
Proof.
  induction 1 as [|k s1 s2 s3 H _ IH]; intros Hi Hl; [lia|].
  assert (weight s2 < weight s1)%nat.
  { destruct H as [H|(i & n & p & Ht & H)]; [by apply ack_weight|by eapply claim_weight]. }
  pose proof (IH (token_inv_step _ _ H Hi) (step_dead _ _ H Hl)). lia.
Qed.

Lemma weight_bound s : (weight s <= 8 + 7 * length (terms s))%nat.
Proof.
  unfold weight. assert (disp_weight (disp s) <= 8)%nat by (destruct (disp s); simpl; lia).
  assert (H1 : Forall (fun w => term_weight w <= 7)%nat (terms s)).
  { apply Forall_forall. intros [n p] _. destruct p as [| |[|k]|[|k]| | |]; unfold term_weight; simpl; lia. }
  induction H1; simpl; lia.
Qed.

#[global] Instance finished_dec w : Decision (finished w).
Proof. unfold finished. apply _. Defined.

Lemma stuck_settled s :
  (forall s', ~ step s s') -> Forall finished (terms s) /\ (live s = false -> disp s = DPop).
Proof.
  intros Hn. split.
  - apply Forall_forall. intros [n p] Hin. apply list_elem_of_lookup in Hin as [i Hi].
    destruct (decide (finished (n, p))) as [|Hf]; [done|]. exfalso.
    assert (Hw : exists s', claim_step i n p s s').
    { destruct p as [| |k|k| | |]; try (exfalso; apply Hf; (by left) || (by right)).
      - destruct (live s) eqn:E; eexists; [by apply w_win|by apply w_lose].
      - destruct (decide (tok s = tokenIdle)); eexists; [by apply w_idle|by apply w_idle_miss].
      - destruct (decide (tok s = tokenACKOutstanding)); eexists; [by apply w_ack|by apply w_ack_miss].
      - eexists. apply w_send.
      - eexists. apply w_sent. }
    destruct Hw as [s' Hw]. apply (Hn s'). right. by exists i, n, p.
  - intros Hl. destruct (disp s) eqn:Ed; try done; exfalso.
    + eapply Hn. left. by apply d_drop.
    + eapply Hn. left. by apply d_send.
    + eapply Hn. left. by apply d_sent.
    + destruct (decide (tok s = tokenACKOutstanding)); eapply Hn; left; [by apply d_release|by apply d_kept].
    + destruct (decide (tok s = tokenCancelOwed)); eapply Hn; left; [by apply d_owed|by apply d_nothing].
    + eapply Hn. left. by apply d_store.
    + eapply Hn. left. by apply d_cancel.
    + eapply Hn. left. by apply d_canceled.
Qed.

(** ** The sequential operations are runs of the machine *)

Section with_sink.
Context {K : Type} `{!ObligationSink K}.
Implicit Types (t : StreamTable K).

Lemma claim_run (t : StreamTable K) s n t1 s1 now st i :
  claimTerminalToken n (t, s) = Ret (t1, s1) now ->
  terms st !! i = Some (n, WIdleCas 1) -> tok st = token s ->
  exists st', rtc step st st' /\ tok st' = token s1 /\ sent st' = sent st /\
    terms st' !! i = Some (n, if now then WSend else WDone) /\ disp st' = disp st.
Proof.
  unfold claimTerminalToken. intros H Hi Ht.
  assert (Hlt : (i < length (terms st))%nat) by (by eapply lookup_lt_Some).
  destruct (token s) eqn:E; [..|discriminate|discriminate]; injection H as <- <- <-.
  - eexists. split; [apply rtc_once; right; exists i, n, (WIdleCas 1); split; [done|by apply w_idle]|].
    simpl. rewrite list_lookup_insert_eq by done. by destruct n.
  - set (st1 := set_term i n (WAckCas 1) st).
    assert (Hi1 : terms st1 !! i = Some (n, WAckCas 1)) by (simpl; by rewrite list_lookup_insert_eq).
    eexists. split.
    { eapply rtc_l; [right; exists i, n, (WIdleCas 1); split; [done|apply w_idle_miss; by rewrite Ht]|].
      apply rtc_once. right. exists i, n, (WAckCas 1). split; [exact Hi1|by apply w_ack]. }
    simpl. rewrite list_lookup_insert_eq by (by rewrite length_insert). by destruct n.
Qed.

Lemma release_run t s ok t1 s1 st :
  releaseAckToken ok (t, s) = Ret (t1, s1) tt -> disp st = DRelease -> tok st = token s ->
  exists st', rtc step st st' /\ tok st' = token s1 /\ disp st' = DPop /\ terms st' = terms st /\
    sent st' = sent st ++ (if decide (token s = tokenCancelOwed) then [ECancel] else []) /\
    length (wire t1) = (length (wire t) + if decide (token s = tokenCancelOwed) then 1 else 0)%nat.
Proof.
  intros H Hd Ht. unfold releaseAckToken, sendTeardownCancel, Send, onCancelPublishFailed in H. revert H. run_prog.
  destruct (token s) eqn:E; simpl.
  - intros [= <- <-]. eexists. split.
    { eapply rtc_l; [left; apply d_kept; [done|by rewrite Ht]|]. apply rtc_once. left.
      apply d_nothing; [done|]. simpl. by rewrite Ht. }
    simpl. rewrite app_nil_r, Ht, E. split_and!; done || lia.
  - intros H. exists (set_disp DPop (set_tok tokenIdle st)).
    split; [apply rtc_once; left; by apply d_release|]. simpl. rewrite app_nil_r. revert H.
    destruct (_ && _); [unfold arm; simpl; destruct (deferred s); [|destruct (armed s)]|];
      intros [= <- <-]; simpl; split_and!; done || lia.
  - intros H. eexists. split.
    { eapply rtc_l; [left; apply d_kept; [done|by rewrite Ht]|].
      eapply rtc_l; [left; apply d_owed; [done|simpl; by rewrite Ht]|].
      eapply rtc_l; [left; by apply d_store|]. eapply rtc_l; [left; by apply d_cancel|].
      apply rtc_once. left. by apply d_canceled. }
    simpl. revert H. destruct (ans (next_answer t)); intros [= <- <-]; simpl; split_and!; try done.
    all: unfold closeObligation, failIfConnLive, failConn; simpl; repeat case_match; simpl;
      rewrite length_app; simpl; lia.
  - intros [= <- <-]. eexists. split.
    { eapply rtc_l; [left; apply d_kept; [done|by rewrite Ht]|]. apply rtc_once. left.
      apply d_nothing; [done|]. simpl. by rewrite Ht. }
    simpl. rewrite app_nil_r, Ht, E. split_and!; done || lia.
Qed.

End with_sink.

Lemma step_terms s s' : step s s' -> length (terms s') = length (terms s).
Proof.
  intros [H|(i & n & p & _ & H)]; [by destruct (ack_words _ _ H) as (_ & -> & _)|].
  inversion H; subst; simpl; by rewrite length_insert.
Qed.

Lemma dead_kept s s' k :
  nsteps step k s s' -> token_inv s -> live s = false ->
  token_inv s' /\ live s' = false /\ length (terms s') = length (terms s).
Proof.
  induction 1 as [|k s1 s2 s3 H _ IH]; intros Hi Hl; [done|].
  rewrite <- (step_terms _ _ H). apply IH; [by eapply token_inv_step|by eapply step_dead].
Qed.

(** ** Properties *)

(** The lifecycle token is exclusive.  In every interleaving of any number
    of terminators with the acknowledgement dispatcher: at most one lifecycle
    Send of the stream is outstanding; acknowledgements precede the cancel and
    there is at most one cancel; the claim loop runs at most twice; and the
    dispatcher never finds the token idle or re-taken when its release fails, so
    the plain store of the terminal value cannot overwrite a concurrent claim. *)
Theorem lifecycle_token_exclusive needs s :
  rtc step (initial needs) s ->
  (in_flight s <= 1)%nat /\
  (exists a c, sent s = log_of a c) /\
  (forall n p k, (n, p) ∈ terms s -> claiming p k -> (k <= 2)%nat) /\
  (disp s = DLoad -> tok s = tokenCancelOwed \/ tok s = tokenTerminal) /\
  (disp s = DStore -> tok s = tokenCancelOwed).
Proof.
  intros H. pose proof (token_inv_reach _ _ H) as Hi. split; [by apply inv_flight|].
  split; [destruct Hi as [(a & c & Hs & _)]; by exists a, c|]. split; [intros n p k; by apply inv_loop|].
  destruct Hi as [(a & c & _ & Hi)]. destruct (live s).
  - destruct Hi as (_ & Hb & _). by split; intros E; rewrite E in Hb; destruct (tok s).
  - destruct Hi as (l & n & p & r & _ & _ & _ & Hb).
    split; intros E; rewrite E in Hb; destruct p as [| |[|[|[|?]]]|[|[|?]]| | |], (tok s), n, c; auto; discriminate.
Qed.

(** A termination settles with exactly the cancel it owes.  Once some
    terminator has won the phase, every run is finite (8 steps for the
    dispatcher and 7 for each terminator are enough); a state with no step left
    has every terminator finished and the dispatcher between iterations; and
    then exactly one cancel was sent if the winner needed one and none if it did
    not. *)
Theorem lifecycle_token_settles needs s k s' :
  rtc step (initial needs) s -> live s = false -> nsteps step k s s' ->
  (k <= 8 + 7 * length (terms s))%nat /\
  ((forall s'', ~ step s' s'') ->
   Forall finished (terms s') /\ disp s' = DPop /\
   exists n a, (n, WDone) ∈ terms s' /\ sent s' = log_of a n).
Proof.
  intros H Hl Hk. pose proof (token_inv_reach _ _ H) as Hi.
  pose proof (dead_run _ _ _ Hk Hi Hl). pose proof (weight_bound s). split; [lia|].
  intros Hn. destruct (dead_kept _ _ _ Hk Hi Hl) as (Hi' & Hl' & Hlen).
  destruct (stuck_settled _ Hn) as [Hf Hd]. split_and!; auto. apply inv_settled; auto.
  intros E. destruct Hi' as [(a & c & _ & Hi')]. rewrite Hl' in Hi'.
  destruct Hi' as (l & n & p & r & Ht & _). rewrite E in Ht. by destruct l.
Qed.

(** The sequential token operations of the stream engine are runs of this
    machine.  A claim that returns takes the machine from the first swap to the
    cancel it must send or to the end, and a release takes the dispatcher back
    between iterations, with the token word the operation leaves, and puts one
    cancel on the wire exactly when the machine does. *)
Theorem token_operations_are_runs {K} `{!ObligationSink K} (t : StreamTable K) s st :
  tok st = token s ->
  (forall n i t1 s1 now, claimTerminalToken n (t, s) = Ret (t1, s1) now ->
     terms st !! i = Some (n, WIdleCas 1) ->
     exists st', rtc step st st' /\ tok st' = token s1 /\ sent st' = sent st /\
       terms st' !! i = Some (n, if now : bool then WSend else WDone) /\ disp st' = disp st) /\
  (forall ok t1 s1, releaseAckToken ok (t, s) = Ret (t1, s1) tt -> disp st = DRelease ->
     exists st', rtc step st st' /\ tok st' = token s1 /\ disp st' = DPop /\ terms st' = terms st /\
       sent st' = sent st ++ (if decide (token s = tokenCancelOwed) then [ECancel] else []) /\
       length (wire t1) = (length (wire t) + if decide (token s = tokenCancelOwed) then 1 else 0)%nat).
Proof.
  intros Ht. split.
  - intros n i t1 s1 now H Hi. by eapply claim_run.
  - intros ok t1 s1 H Hd. by eapply release_run.
Qed.

(** ** Runs with two terminators and an acknowledgement outstanding *)

(** The next state when the dispatcher, or terminator [i], moves; drops are
    left out. *)
Definition ack_next (s : state) : option state :=
  match disp s with
  | DPop => if live s then Some (set_disp DTake s) else None
  | DTake => Some (if decide (tok s = tokenIdle) then set_disp DServe (set_tok tokenACKOutstanding s)
                   else set_disp DPop s)
  | DServe => Some (set_disp DAck (emit EAck s))
  | DAck => Some (set_disp DRelease s)
  | DRelease => Some (if decide (tok s = tokenACKOutstanding) then set_disp DPop (set_tok tokenIdle s)
                      else set_disp DLoad s)
  | DLoad => Some (if decide (tok s = tokenCancelOwed) then set_disp DStore s else set_disp DPop s)
  | DStore => Some (set_disp DSend (set_tok tokenTerminal s))
  | DSend => Some (set_disp DCancel (emit ECancel s))
  | DCancel => Some (set_disp DPop s)
  end.

Definition claim_next (i : nat) (s : state) : option state :=
  '(n, p) ← terms s !! i;
  match p with
  | WTry => Some (if live s then set_term i n (WIdleCas 1) (end_phase s) else set_term i n WLost s)
  | WIdleCas k => Some (if decide (tok s = tokenIdle)
                        then set_term i n (if n then WSend else WDone) (set_tok tokenTerminal s)
                        else set_term i n (WAckCas k) s)
  | WAckCas k => Some (if decide (tok s = tokenACKOutstanding)
                       then set_term i n WDone (set_tok (owed_target n) s)
                       else set_term i n (WIdleCas (S k)) s)
  | WSend => Some (set_term i n WCancel (emit ECancel s))
  | WCancel => Some (set_term i n WDone s)
  | WLost | WDone => None
  end.

Lemma ack_next_sound s s' : ack_next s = Some s' -> step s s'.
Proof.
  unfold ack_next. intros H. left. repeat case_match; simplify_eq; by constructor.
Qed.

Lemma claim_next_sound i s s' : claim_next i s = Some s' -> step s s'.
Proof.
  unfold claim_next. intros H. right. destruct (terms s !! i) as [[n p]|] eqn:Hi; [|done]. simpl in H.
  exists i, n, p. split; [done|]. destruct p; repeat case_match; simplify_eq; by constructor.
Qed.

(** A schedule: [None] moves the dispatcher, [Some i] terminator [i]. *)
Fixpoint play (sched : list (option nat)) (s : state) : option state :=
  match sched with
  | [] => Some s
  | m :: sched => s' ← (match m with None => ack_next s | Some i => claim_next i s end); play sched s'
  end.

Lemma play_sound sched s s' : play sched s = Some s' -> nsteps step (length sched) s s'.
Proof.
  revert s. induction sched as [|m sched IH]; intros s H; simpl in *; [simplify_eq; constructor|].
  destruct m as [i|]; simpl in H.
  - destruct (claim_next i s) as [s1|] eqn:E; [|done]. econstructor; [by eapply claim_next_sound|by apply IH].
  - destruct (ack_next s) as [s1|] eqn:E; [|done]. econstructor; [by eapply ack_next_sound|by apply IH].
Qed.

(** The acknowledgement is outstanding when the first terminator wins. *)
Definition middle : state :=
  mkState false tokenACKOutstanding DAck [(true, WIdleCas 1); (false, WTry)] [EAck].
(** The cancel is handed to the dispatcher, which sends it; the second
    terminator loses. *)
Definition final : state := mkState false tokenTerminal DPop [(true, WDone); (false, WLost)] [EAck; ECancel].

Lemma reaches_middle : rtc step (initial [true; false]) middle.
Proof. apply (rtc_nsteps_2 4), (play_sound [None; None; None; Some 0%nat]). reflexivity. Qed.

Lemma middle_to_final : nsteps step 9 middle final.
Proof.
  apply (play_sound [Some 0%nat; Some 0%nat; None; Some 1%nat; None; None; None; None; None]). reflexivity.
Qed.

Lemma final_stuck s : ~ step final s.
Proof.
  intros [H|(i & n & p & Hi & H)]; [by inversion H|].
  destruct i as [|[|i]]; simpl in Hi; simplify_eq; inversion H.
Qed.

Lemma lifecycle_token_exclusive_witness :
  in_flight middle = 1%nat /\ (in_flight middle <= 1)%nat /\ exists a c, sent middle = log_of a c.
Proof.
  destruct (lifecycle_token_exclusive [true; false] middle reaches_middle) as (H1 & H2 & _).
  split; [reflexivity|]. by split.
Defined.

Lemma lifecycle_token_settles_witness :
  (9 <= 8 + 7 * 2)%nat /\ exists n a, (n, WDone) ∈ terms final /\ sent final = log_of a n.
Proof.
  destruct (lifecycle_token_settles [true; false] middle 9 final reaches_middle eq_refl middle_to_final)
    as [H1 H2]. destruct (H2 final_stuck) as (_ & _ & H3). by split.
Defined.

Definition held : Stream := set_token tokenCancelOwed (newStream 0 0 1 ServerStream (mkConfig 4 1000 7 8 BidiStreaming [])).
Definition table : StreamTable Leases.LeaseTable := NewStreamTable 2 None (mkPolicy true 100 3 3) 0 [].
Definition releasing : state := mkState false tokenCancelOwed DRelease [(true, WDone)] [EAck].

Lemma token_operations_are_runs_witness :
  exists t1 s1 st', releaseAckToken true (table, held) = Ret (t1, s1) tt /\
    rtc step releasing st' /\ tok st' = tokenTerminal /\ sent st' = [EAck; ECancel] /\ length (wire t1) = 1%nat.
Proof.
  destruct (token_operations_are_runs table held releasing eq_refl) as [_ H].
  destruct (releaseAckToken true (table, held)) as [[t1 s1] []| |] eqn:E; [|vm_compute in E; discriminate..].
  destruct (H true t1 s1 E eq_refl) as (st' & Hr & Ht & _ & _ & Hs & Hw).
  exists t1, s1, st'. split; [reflexivity|]. split; [exact Hr|]. split; [|split; [exact Hs|exact Hw]].
  rewrite Ht. vm_compute in E. injection E as _ <-. reflexivity.
Defined.

End Token.
