(* ===== verification/ShmFrame.v ===== *)
(** * Frames in shared memory
    (mapKind of src/internal/transport/shm/intent.go, the descriptor stamping of
    writer.go and the consume path of transport.go)

    What the writer puts into a descriptor and a slab for one frame, and what
    the receiver, which trusts none of it, makes of a descriptor and the arena
    bytes.  The theorems: the receiver gives back exactly the frame that was
    written; and on any descriptor and any arena contents it neither panics nor
    reads outside a whole slab of its own class table. *)

From S2P Require Import Prelude DescriptorCodec RegionLayout SlabArena TransportFrame.
Import Layout Frames.

Module ShmFrame.

(** ** Package errors

    Sentinels of this package that other code does not match on are told apart
    by number. *)

Definition errUnsupportedKind : error := [Other 1; ErrUnimplementedFrameKind].
Definition errBadFrame : error := [Other 2].
Definition errChecksum : error := [Other 3].
Definition errRingCorrupt : error := [Other 4].
Definition errBadSync : error := [Other 5].
Definition errLostWake : error := [Other 6].
Definition errGenerationMismatch : error := [Other 7].

Definition flagCRC32CPresent : Z := 4.
Definition crc32TrailerLen : Z := 4.

(** ** Kinds *)

Definition mapKind (k : Z) (chunkingActive : bool) : (Z * bool) + error :=
  if k =? FrameUnaryReq then inl (Descriptor.KindUnaryReq, false) else
  if k =? FrameUnaryResp then inl (Descriptor.KindUnaryResp, false) else
  if k =? FrameUnaryErr then inl (Descriptor.KindUnaryErr, false) else
  if k =? FrameCancel then inl (Descriptor.KindCancel, true) else
  if k =? FrameStreamOpen then inl (Descriptor.KindStreamOpen, false) else
  if k =? FrameStreamMsg then inl (Descriptor.KindStreamMsg, false) else
  if k =? FrameStreamAck then inl (Descriptor.KindStreamAck, true) else
  if k =? FrameStreamClose then inl (Descriptor.KindStreamClose, false) else
  if k =? FrameStreamErr then inl (Descriptor.KindStreamErr, false) else
  if k =? FrameStreamChunk then
    if negb chunkingActive then inr errUnsupportedKind else inl (Descriptor.KindStreamChunk, false)
  else inr errUnsupportedKind.

Definition unmapKind (k : Z) (chunkingActive : bool) : option (Z * bool) :=
  if k =? Descriptor.KindUnaryReq then Some (FrameUnaryReq, false) else
  if k =? Descriptor.KindUnaryResp then Some (FrameUnaryResp, false) else
  if k =? Descriptor.KindUnaryErr then Some (FrameUnaryErr, false) else
  if k =? Descriptor.KindCancel then Some (FrameCancel, true) else
  if k =? Descriptor.KindStreamOpen then Some (FrameStreamOpen, false) else
  if k =? Descriptor.KindStreamMsg then Some (FrameStreamMsg, false) else
  if k =? Descriptor.KindStreamAck then Some (FrameStreamAck, true) else
  if k =? Descriptor.KindStreamClose then Some (FrameStreamClose, false) else
  if k =? Descriptor.KindStreamErr then Some (FrameStreamErr, false) else
  if k =? Descriptor.KindStreamChunk then
    if negb chunkingActive then None else Some (FrameStreamChunk, false)
  else None.

(** ** CRC32C

    [crc32.Checksum] with the Castagnoli table: reflected polynomial
    0x82F63B78, one bit at a time. *)

Definition crc_bit (c : Z) : Z :=
  if Z.testbit c 0 then Z.lxor (Z.shiftr c 1) 2197175160 else Z.shiftr c 1.
Definition crc_byte (c b : Z) : Z := Nat.iter 8 crc_bit (Z.lxor c b).
Definition crc32c (bs : list Z) : Z := Z.lxor (fold_left crc_byte bs (2 ^ 32 - 1)) (2 ^ 32 - 1).

(** ** The writer's side *)

Definition wirePayload (f : Frame) : list Z :=
  if CarriesStatusBody (Kind f) then EncodeStatus (FStatus f) else Payload f.

(** The fields every descriptor carries, and those of a data frame. *)
Definition head_fields (rk gen : Z) (f : Frame) : Descriptor.Descriptor :=
  Descriptor.SetReserved (Control f)
    (Descriptor.SetGeneration gen
      (Descriptor.SetCallID (CallID f) (Descriptor.SetKind rk Descriptor.zeroDescriptor))).

Definition data_fields (f : Frame) (d : Descriptor.Descriptor) : Descriptor.Descriptor :=
  Descriptor.SetBudgetNS (Budget f)
    (Descriptor.SetMethodID (Method f) (Descriptor.SetServiceID (Service f) d)).

Definition slab_fields (checksum : bool) (h : Arena.SlabHandle) (msgLen : Z) (d : Descriptor.Descriptor)
  : Descriptor.Descriptor :=
  let d := if checksum then Descriptor.SetFlags (Z.lor (Descriptor.Flags d) flagCRC32CPresent) d else d in
  Descriptor.SetAllocSeq (Arena.hSequence h)
    (Descriptor.SetGeneration (Arena.hGeneration h)
      (Descriptor.SetPayloadLength (u32 msgLen) (Descriptor.SetPayloadOffset (Arena.hOffset h) d))).

(** The bytes the slab holds: the payload and, under the checksum feature, its
    little-endian trailer. *)
Definition stored_bytes (checksum : bool) (payload : list Z) : list Z :=
  payload ++ if checksum then le_encode 4 (crc32c payload) else [].

(** ** The receiver's side *)

Record receiver := mkReceiver {
  generation : Z;
  checksum : bool;
  chunkingActive : bool;
  maxRecvPayload : Z;
  inboundClasses : list SizeClass;
  inboundArenaBytes : list Z
}.

Definition discardIfStale (d : Descriptor.Descriptor) (current : Z) : bool :=
  Stale current (Descriptor.Generation d).

Definition classify (t : receiver) (d : Descriptor.Descriptor) : (Z * bool) + error :=
  let allowed := if checksum t then flagCRC32CPresent else 0 in
  if negb (Z.ldiff (Descriptor.Flags d) allowed =? 0) then inr errBadFrame else
  if negb (Z.shiftr (Descriptor.KindWord d) 8 =? 0) then inr errBadFrame else
  match unmapKind (Descriptor.Kind d) (chunkingActive t) with
  | None => inr errBadFrame
  | Some (tk, descriptorOnly) =>
      if Descriptor.BudgetNS d <? 0 then inr errBadFrame else
      if descriptorOnly && (negb (Descriptor.Flags d =? 0) || negb (Descriptor.PayloadOffset d =? 0) ||
           negb (Descriptor.PayloadLength d =? 0) || negb (Descriptor.AllocSeq d =? 0))
      then inr errBadFrame
      else inl (tk, descriptorOnly)
  end.

Definition servingClass (classes : list SizeClass) (storedLen : Z) : option nat :=
  if MaxUint32 <? storedLen then None else Arena.SelectClass classes (u32 storedLen).

(** A class of size zero would be a division by zero. *)
Definition slabInClass (classes : list SizeClass) (off storedLen : Z) : outcome error bool :=
  match servingClass classes storedLen with
  | None => Ok false
  | Some ci =>
      match classes !! ci with
      | None => Panic
      | Some c =>
          let base := ClassBaseOffset c in
          if off <? base then Ok false else
          let rel := (off -₆₄ base)%word in
          if SlabSize c =? 0 then Panic else
          if negb (rel mod SlabSize c =? 0) then Ok false else
          let idx := rel / SlabSize c in
          if SlabCount c <=? idx then Ok false else
          Ok (negb ((Nat.eqb ci 0) && (idx =? 0)))
      end
  end.

(** The bytes the delivered frame is built from; whether they are a view or a
    copy is the same value here, the view being read before the head moves. *)
Definition payloadBytes (t : receiver) (d : Descriptor.Descriptor) : outcome error (list Z) :=
  let off := Descriptor.PayloadOffset d in
  let plen := Descriptor.PayloadLength d in
  let hasCRC := negb (Z.land (Descriptor.Flags d) flagCRC32CPresent =? 0) in
  let crcTrailer := if hasCRC then crc32TrailerLen else 0 in
  let storedLen := (plen +₆₄ crcTrailer)%word in
  if storedLen =? 0 then
    if negb (off =? 0) || negb (Descriptor.AllocSeq d =? 0) then Err errBadFrame else Ok []
  else
  if (off =? 0) || (Descriptor.AllocSeq d =? 0) then Err errBadFrame else
  if maxRecvPayload t <? plen then Err errBadFrame else
  let! inside := slabInClass (inboundClasses t) off storedLen in
  if negb inside then Err errBadFrame else
  let! payload := cut off (off +₆₄ plen)%word (inboundArenaBytes t) in
  if hasCRC then
    let! trailer := cut (off +₆₄ plen)%word (off + plen +₆₄ crcTrailer)%word (inboundArenaBytes t) in
    if negb (crc32c payload =? le_decode trailer) then Err errChecksum else Ok payload
  else Ok payload.

Definition descriptorOnlyFrame (d : Descriptor.Descriptor) (tk : Z) : Frame :=
  mkFrame (Descriptor.CallID d) tk 0 0 0 [] None (Descriptor.Reserved d).

Definition decodedFrame (d : Descriptor.Descriptor) (tk : Z) (payload : list Z) : outcome error Frame :=
  let frame := mkFrame (Descriptor.CallID d) tk (Descriptor.ServiceID d) (Descriptor.MethodID d)
                 (Descriptor.BudgetNS d) in
  if CarriesStatusBody tk then
    let! st := DecodeStatus payload in Ok (frame [] (Some st) (Descriptor.Reserved d))
  else Ok (frame payload None (Descriptor.Reserved d)).

(** The frame a descriptor and its bytes stand for: a body that does not decode is the
    peer's fault and becomes [errBadFrame]; a panic would be this side's. *)
Definition frame_of_span (d : Descriptor.Descriptor) (tk : Z) (descriptorOnly : bool) (span : list Z)
  : outcome error Frame :=
  if descriptorOnly then Ok (descriptorOnlyFrame d tk) else
  match decodedFrame d tk span with
  | Ok f => Ok f
  | Err _ => Err errBadFrame
  | Panic => Panic
  end.

(** What one descriptor and one state of the arena decode to: [None] is a stale
    discard.  The gates, callbacks and head advances around it are in
    [ShmReceive]. *)
Definition decode_descriptor (t : receiver) (d : Descriptor.Descriptor) : outcome error (option Frame) :=
  if discardIfStale d (generation t) then Ok None else
  match classify t d with
  | inr e => Err e
  | inl (tk, descriptorOnly) =>
      let! span := (if descriptorOnly then Ok [] else payloadBytes t d) in
      let! f := frame_of_span d tk descriptorOnly span in
      Ok (Some f)
  end.

Example crc32c_check : crc32c [49; 50; 51; 52; 53; 54; 55; 56; 57] = 3808858755.
Proof. reflexivity. Qed.

(** ** The receiver on untrusted input *)

Record receiver_ok (t : receiver) : Prop := {
  rk_classes : classes_ok (inboundClasses t);
  rk_span : class_total (inboundClasses t) <= zlen (inboundArenaBytes t) <= MaxUint32;
  rk_bytes : Forall is_byte (inboundArenaBytes t)
}.

(** [off] is the start of slab [i] of the class that serves [n] bytes, and not
    the reserved slab. *)
Definition names_slab (cs : list SizeClass) (off n : Z) (ci : nat) (c : SizeClass) (i : Z) : Prop :=
  Arena.SelectClass cs n = Some ci /\ cs !! ci = Some c /\ Arena.first_index ci <= i < SlabCount c /\
  off = ClassBaseOffset c + i * SlabSize c /\ n <= SlabSize c.

Lemma class_facts cs ci c :
  classes_ok cs -> cs !! ci = Some c ->
  0 < SlabSize c /\ is_u32 (SlabSize c) /\ is_u32 (SlabCount c) /\
  0 <= ClassBaseOffset c /\ ClassBaseOffset c + SlabSize c * SlabCount c <= class_total cs.
Proof.
  intros [Hb Hco] Hc. pose proof (bounds_raw _ Hb) as Hraw.
  destruct (Arena.contiguous_lookup 0 _ _ _ Hraw Hco Hc) as (Hlo & Hhi & _).
  pose proof (bo_classes _ Hb) as Hf. rewrite Forall_lookup in Hf.
  destruct (Hf _ _ Hc) as (H1 & H2 & H3 & _). unfold extent in Hhi. split_and!; auto; lia.
Qed.

Lemma slabInClass_spec cs off n :
  classes_ok cs -> is_u32 off -> 0 < n ->
  match slabInClass cs off n with
  | Ok true => exists ci c i, names_slab cs off n ci c i
  | Ok false => forall ci c i, ~ names_slab cs off n ci c i
  | _ => False
  end.
Proof.
  intros Hcs Ho Hn. unfold slabInClass, servingClass, names_slab, is_u32, MaxUint32 in *.
  destruct (Z.ltb_spec (2 ^ 32 - 1) n) as [Hbig|Hsmall].
  { intros ci c i (Hs & Hc & _ & _ & Hle). destruct (class_facts _ _ _ Hcs Hc) as (_ & [_ ?] & _). lia. }
  rewrite u32_id by (unfold is_u32; lia).
  destruct (Arena.SelectClass cs n) as [ci|] eqn:Hsel; [|by intros ? ? ? (? & _)].
  destruct (Arena.SelectClass_Some _ _ _ Hsel) as (c & Hc & Hle & _). rewrite Hc.
  destruct (class_facts _ _ _ Hcs Hc) as (Hp & [_ Hs] & [_ Hct] & Hb & _).
  destruct (Z.ltb_spec off (ClassBaseOffset c)).
  { intros ci' c' i (Hs' & Hc' & Hi & Ho' & _). pose proof (Arena.first_index_nonneg ci'). simplify_eq. nia. }
  rewrite (u64_id (off - ClassBaseOffset c)) by (unfold is_u64; lia).
  destruct (Z.eqb_spec (SlabSize c) 0); [lia|].
  assert (Hdiv : forall ci' c' i, Some ci = Some ci' /\ cs !! ci' = Some c' /\
    Arena.first_index ci' <= i < SlabCount c' /\ off = ClassBaseOffset c' + i * SlabSize c' /\ n <= SlabSize c' ->
    off - ClassBaseOffset c = i * SlabSize c /\ ci' = ci /\ c' = c /\ Arena.first_index ci <= i < SlabCount c).
  { intros ci' c' i (E1 & E2 & ? & ? & _). simplify_eq. split_and!; auto; lia. }
  destruct (Z.eqb_spec ((off - ClassBaseOffset c) mod SlabSize c) 0) as [Hm|Hm]; cbn [negb].
  2: { intros ci' c' i H'. destruct (Hdiv _ _ _ H') as (E & _). rewrite E, Z.mod_mul in Hm by lia. done. }
  set (idx := (off - ClassBaseOffset c) / SlabSize c).
  assert (Hidx : off - ClassBaseOffset c = idx * SlabSize c).
  { unfold idx. rewrite Z.mul_comm. apply Z.div_exact; lia. }
  assert (Hi0 : 0 <= idx) by (apply Z.div_pos; lia).
  destruct (Z.leb_spec (SlabCount c) idx).
  { intros ci' c' i H'. destruct (Hdiv _ _ _ H') as (E & _ & _ & ?). assert (i = idx) by nia. lia. }
  destruct (Nat.eqb_spec ci 0) as [->|Hci]; cbn [andb].
  - destruct (Z.eqb_spec idx 0); cbn [negb].
    + intros ci' c' i H'. destruct (Hdiv _ _ _ H') as (E & _ & _ & Hi).
      unfold Arena.first_index in Hi. simpl in Hi. nia.
    + exists 0%nat, c, idx. unfold Arena.first_index. simpl. split_and!; auto; lia.
  - cbn [negb]. exists ci, c, idx. unfold Arena.first_index.
    destruct (Nat.eqb_spec ci 0); [done|]. split_and!; auto; lia.
Qed.

(** A named slab holds its stored bytes inside the arena. *)
Lemma names_slab_inside t off n ci c i :
  receiver_ok t -> names_slab (inboundClasses t) off n ci c i ->
  0 < off /\ off + n <= zlen (inboundArenaBytes t).
Proof.
  intros [Hcs Hsp _] (_ & Hc & Hi & -> & Hle). destruct (class_facts _ _ _ Hcs Hc) as (Hp & _ & _ & Hb & Ht).
  split; [|nia]. unfold Arena.first_index in Hi. destruct (Nat.eqb_spec ci 0) as [->|Hne]; [nia|].
  destruct Hcs as [Hbo Hco]. pose proof (bounds_raw _ Hbo) as Hraw.
  destruct (lookup_lt_is_Some_2 (inboundClasses t) 0) as [c0 Hc0].
  { pose proof (lookup_lt_Some _ _ _ Hc). lia. }
  pose proof (Arena.contiguous_ordered 0 _ 0 ci c0 c Hraw Hco Hc0 Hc ltac:(lia)) as Hord.
  pose proof (bo_classes _ Hbo) as Hf. rewrite Forall_lookup in Hf.
  destruct (Hf _ _ Hc0) as (_ & _ & ? & _ & ?). unfold extent in Hord.
  destruct (Arena.contiguous_lookup 0 _ _ _ Hraw Hco Hc0) as (? & _). nia.
Qed.

Definition has_crc (d : Descriptor.Descriptor) : bool :=
  negb (Z.land (Descriptor.Flags d) flagCRC32CPresent =? 0).
Definition stored_length (d : Descriptor.Descriptor) : Z :=
  Descriptor.PayloadLength d + if has_crc d then crc32TrailerLen else 0.

Lemma field_u32 d :
  Descriptor.wf d -> is_u32 (Descriptor.PayloadOffset d) /\ is_u32 (Descriptor.PayloadLength d).
Proof.
  intros Hw. split; apply (Descriptor.get_le_range _ 4 d); auto; vm_compute; lia.
Qed.

(** What an accepted payload is: the bytes of a slab of the table, verified
    against the trailer when the frame carries one. *)
Definition read_from_slab (t : receiver) (d : Descriptor.Descriptor) (bs : list Z) : Prop :=
  let off := Descriptor.PayloadOffset d in
  let plen := Descriptor.PayloadLength d in
  bs = sub_bytes (Z.to_nat off) (Z.to_nat plen) (inboundArenaBytes t) /\
  (exists ci c i, names_slab (inboundClasses t) off (stored_length d) ci c i) /\
  plen <= maxRecvPayload t /\
  (has_crc d = true ->
   crc32c bs = le_decode (sub_bytes (Z.to_nat (off + plen)) 4 (inboundArenaBytes t))).

Lemma payloadBytes_spec t d :
  receiver_ok t -> Descriptor.wf d ->
  match payloadBytes t d with
  | Ok bs => zlen bs = Descriptor.PayloadLength d /\ Forall is_byte bs /\
      (bs = [] /\ stored_length d = 0 \/ read_from_slab t d bs)
  | Err e => e = errBadFrame \/ e = errChecksum
  | Panic => False
  end.
Proof.
  intros Ht Hw. destruct (field_u32 d Hw) as [Ho Hp]. pose proof Ht as [Hcs Hsp Hby].
  unfold payloadBytes, read_from_slab. fold (has_crc d).
  assert (Hs : u64 (Descriptor.PayloadLength d + (if has_crc d then crc32TrailerLen else 0)) = stored_length d).
  { apply u64_id. unfold stored_length, is_u64, is_u32, crc32TrailerLen in *. destruct (has_crc d); lia. }
  rewrite Hs. assert (Hn : 0 <= stored_length d) by (unfold stored_length, crc32TrailerLen, is_u32 in *; destruct (has_crc d); lia).
  destruct (Z.eqb_spec (stored_length d) 0) as [Hz|Hz].
  { destruct (_ || _); [by left|]. split_and!; [|done|by left].
    unfold stored_length, crc32TrailerLen, is_u32 in *. unfold zlen; simpl length. revert Hz. destruct (has_crc d); lia. }
  destruct (_ || _); [by left|]. destruct (Z.ltb_spec (maxRecvPayload t) (Descriptor.PayloadLength d)); [by left|].
  pose proof (slabInClass_spec _ (Descriptor.PayloadOffset d) (stored_length d) Hcs Ho ltac:(lia)) as Hin.
  destruct (slabInClass _ _ _) as [[|]| |]; cbn [obind negb]; try done; [|by left].
  destruct Hin as (ci & c & i & Hname). pose proof (names_slab_inside _ _ _ _ _ _ Ht Hname) as [Hpos Hend].
  unfold stored_length, crc32TrailerLen, is_u32, MaxUint32 in *.
  assert (Hend' : Descriptor.PayloadOffset d + Descriptor.PayloadLength d <= zlen (inboundArenaBytes t)) by (revert Hend; destruct (has_crc d); lia).
  rewrite (u64_id (_ + _)) by (unfold is_u64; lia).
  unfold cut at 1. rewrite slice_in_range by lia. cbn [obind].
  replace (Z.to_nat (Descriptor.PayloadOffset d + Descriptor.PayloadLength d - Descriptor.PayloadOffset d))
    with (Z.to_nat (Descriptor.PayloadLength d)) by lia.
  set (bs := sub_bytes _ _ _).
  assert (Hlen : zlen bs = Descriptor.PayloadLength d).
  { unfold bs, zlen in *. rewrite length_sub_bytes; lia. }
  assert (Hbb : Forall is_byte bs) by (by apply Forall_sub_bytes).
  destruct (has_crc d) eqn:Hcrc; [|cbn [obind]; split_and!; auto; right; split_and!; eauto; done].
  rewrite (u64_id (_ + 4)) by (unfold is_u64; lia). unfold cut. rewrite slice_in_range by lia. cbn [obind].
  destruct (Z.eqb_spec (crc32c bs) (le_decode (sub_bytes (Z.to_nat (Descriptor.PayloadOffset d + Descriptor.PayloadLength d))
    (Z.to_nat (Descriptor.PayloadOffset d + Descriptor.PayloadLength d + 4 - (Descriptor.PayloadOffset d + Descriptor.PayloadLength d)))
    (inboundArenaBytes t)))) as [Hc|Hc]; cbn [negb]; [|by right].
  split_and!; auto. right. split_and!; eauto. intros _. rewrite Hc. do 2 f_equal. lia.
Qed.

Lemma decode_descriptor_spec t d :
  receiver_ok t -> Descriptor.wf d ->
  match decode_descriptor t d with
  | Ok None => discardIfStale d (generation t) = true
  | Ok (Some f) => exists tk descriptorOnly, classify t d = inl (tk, descriptorOnly) /\
      discardIfStale d (generation t) = false /\ Kind f = tk /\ 0 <= Budget f /\
      (descriptorOnly = true -> Payload f = [] /\ FStatus f = None) /\
      (descriptorOnly = false -> exists bs, (bs = [] /\ stored_length d = 0 \/ read_from_slab t d bs) /\
         if CarriesStatusBody tk
         then Payload f = [] /\ exists st rest, FStatus f = Some st /\ bs = EncodeStatus (Some st) ++ rest
         else Payload f = bs /\ FStatus f = None)
  | Err e => (e = errBadFrame \/ e = errChecksum) /\ discardIfStale d (generation t) = false
  | Panic => False
  end.
Proof.
  intros Ht Hw. unfold decode_descriptor. destruct (discardIfStale d _) eqn:Hst; [done|].
  destruct (classify t d) as [[tk b]|e] eqn:Hcl.
  2: { split; [|done]. unfold classify in Hcl. repeat case_match; simplify_eq; auto. }
  assert (Hbud : 0 <= Descriptor.BudgetNS d).
  { unfold classify in Hcl. repeat case_match; simplify_eq; bool_to_prop; lia. }
  destruct b; cbn [obind frame_of_span].
  - exists tk, true. split_and!; done.
  - pose proof (payloadBytes_spec t d Ht Hw) as Hpb. destruct (payloadBytes t d) as [bs|e|]; cbn [obind]; auto.
    destruct Hpb as (_ & Hbb & Hread). unfold frame_of_span, decodedFrame.
    destruct (CarriesStatusBody tk) eqn:Hcs.
    + pose proof (decode_status_spec bs Hbb) as Hd. destruct (DecodeStatus bs) as [st|e|]; cbn [obind]; auto.
      destruct Hd as (_ & rest & ->). exists tk, false. split_and!; try done.
      intros _. eexists. split; [exact Hread|]. rewrite Hcs. split; [done|]. by exists st, rest.
    + cbn [obind]. exists tk, false. split_and!; try done. intros _. exists bs. rewrite Hcs. auto.
Qed.

(** ** Writer to receiver *)

(** A descriptor as the list of the fields stored into the zero slot, the last
    store first. *)
Definition stamp (l : list (Descriptor.field * Z)) : Descriptor.Descriptor :=
  foldr (fun p d => Descriptor.setter p.1 p.2 d) Descriptor.zeroDescriptor l.

Fixpoint stamped (g : Descriptor.field) (l : list (Descriptor.field * Z)) : Z :=
  match l with
  | [] => 0
  | (f, v) :: l => if decide (f = g) then v else stamped g l
  end.

Lemma stamp_wf l : Descriptor.wf (stamp l).
Proof. induction l as [|[f v] l IH]; simpl; [apply Descriptor.zero_wf|by apply Descriptor.setter_wf]. Qed.

Lemma getter_stamp l g :
  Forall (fun p => Descriptor.in_range p.1 p.2) l -> Descriptor.getter g (stamp l) = stamped g l.
Proof.
  induction 1 as [|[f v] l Hr _ IH]; [by destruct g|]. simpl in *. case_decide as E.
  - subst. apply Descriptor.getter_setter_same; [apply stamp_wf|done].
  - rewrite Descriptor.getter_setter_other; [done|apply stamp_wf|done].
Qed.

Definition head_stores (rk gen : Z) (f : Frame) : list (Descriptor.field * Z) :=
  [(Descriptor.FReserved, Control f); (Descriptor.FGeneration, gen);
   (Descriptor.FCallID, CallID f); (Descriptor.FKind, rk)].

Definition data_stores (f : Frame) : list (Descriptor.field * Z) :=
  [(Descriptor.FBudgetNS, Budget f); (Descriptor.FMethodID, Method f); (Descriptor.FServiceID, Service f)].

Definition slab_stores (checksum : bool) (h : Arena.SlabHandle) (msgLen : Z) : list (Descriptor.field * Z) :=
  [(Descriptor.FAllocSeq, Arena.hSequence h); (Descriptor.FGeneration, Arena.hGeneration h);
   (Descriptor.FPayloadLength, u32 msgLen); (Descriptor.FPayloadOffset, Arena.hOffset h)] ++
  if checksum then [(Descriptor.FFlags, flagCRC32CPresent)] else [].

(** The Go types of a frame's fields; a negative budget is left out. *)
Record frame_ok (f : Frame) : Prop := {
  fo_call : is_u64 (CallID f);
  fo_service : is_u64 (Service f);
  fo_method : is_u64 (Method f);
  fo_control : is_u64 (Control f);
  fo_budget : 0 <= Budget f < 2 ^ 63;
  fo_status : forall st, FStatus f = Some st -> status_ok st;
  fo_bytes : Forall is_byte (wirePayload f)
}.

Definition sizes_ok (l : list (Descriptor.field * Z)) : Prop :=
  Forall (fun p => Descriptor.in_range p.1 p.2) l.

Lemma head_sizes rk gen f : frame_ok f -> is_byte rk -> is_u32 gen -> sizes_ok (head_stores rk gen f).
Proof. intros [] ? ?. unfold sizes_ok, head_stores. rewrite !Forall_cons, Forall_nil. done. Qed.

Lemma data_sizes f : frame_ok f -> sizes_ok (data_stores f).
Proof.
  intros []. unfold sizes_ok, data_stores. rewrite !Forall_cons, Forall_nil. simpl. unfold is_i64. split_and!; auto; lia.
Qed.

Lemma head_fields_stamp rk gen f : head_fields rk gen f = stamp (head_stores rk gen f).
Proof. reflexivity. Qed.

Lemma data_fields_stamp rk gen f :
  data_fields f (head_fields rk gen f) = stamp (data_stores f ++ head_stores rk gen f).
Proof. reflexivity. Qed.

Lemma slab_fields_stamp cs h n rk gen f :
  sizes_ok (data_stores f ++ head_stores rk gen f) ->
  slab_fields cs h n (data_fields f (head_fields rk gen f)) =
  stamp (slab_stores cs h n ++ data_stores f ++ head_stores rk gen f).
Proof.
  intros Hs. unfold slab_fields. rewrite data_fields_stamp. destruct cs; [|reflexivity].
  change Descriptor.Flags with (Descriptor.getter Descriptor.FFlags). by rewrite getter_stamp by done.
Qed.

Lemma mapKind_cases k b rk only :
  mapKind k b = inl (rk, only) -> rk = k /\ is_byte rk /\ unmapKind k b = Some (k, only) /\
    (only = true -> CarriesStatusBody k = false).
Proof.
  unfold mapKind. intros H.
  repeat (case_match; simplify_eq; bool_to_prop; subst; try (split_and!; [done|unfold is_byte; vm_compute; done|done|done])).
Qed.

(** The kind a stamped descriptor classifies as. *)
Lemma kind_stamp l k :
  sizes_ok l -> stamped Descriptor.FKind l = k -> is_byte k ->
  Descriptor.Kind (stamp l) = k /\ Z.shiftr (Descriptor.KindWord (stamp l)) 8 = 0.
Proof.
  intros Hs Hk Hb.
  assert (E : Descriptor.KindWord (stamp l) = k) by (rewrite <- Hk; apply (getter_stamp l Descriptor.FKind Hs)).
  rewrite Descriptor.Kind_low_byte, E by apply stamp_wf. unfold is_byte in Hb. split; [by apply Z.mod_small|].
  rewrite Z.shiftr_div_pow2 by lia. apply Z.div_small. lia.
Qed.

(** What the receiver is to give back: a descriptor-only frame keeps its call
    id, kind and control word; a status frame its status, an absent one as the
    zero status. *)
Definition delivered (only : bool) (f : Frame) : Frame :=
  if only then mkFrame (CallID f) (Kind f) 0 0 0 [] None (Control f)
  else if CarriesStatusBody (Kind f)
  then mkFrame (CallID f) (Kind f) (Service f) (Method f) (Budget f) []
         (Some (default (mkStatus 0 [] []) (FStatus f))) (Control f)
  else mkFrame (CallID f) (Kind f) (Service f) (Method f) (Budget f) (Payload f) None (Control f).

Lemma stamp_getters l :
  sizes_ok l ->
  Descriptor.CallID (stamp l) = stamped Descriptor.FCallID l /\
  Descriptor.ServiceID (stamp l) = stamped Descriptor.FServiceID l /\
  Descriptor.MethodID (stamp l) = stamped Descriptor.FMethodID l /\
  Descriptor.BudgetNS (stamp l) = stamped Descriptor.FBudgetNS l /\
  Descriptor.Reserved (stamp l) = stamped Descriptor.FReserved l /\
  Descriptor.Flags (stamp l) = stamped Descriptor.FFlags l /\
  Descriptor.Generation (stamp l) = stamped Descriptor.FGeneration l /\
  Descriptor.PayloadOffset (stamp l) = stamped Descriptor.FPayloadOffset l /\
  Descriptor.PayloadLength (stamp l) = stamped Descriptor.FPayloadLength l /\
  Descriptor.AllocSeq (stamp l) = stamped Descriptor.FAllocSeq l.
Proof.
  intros Hs. split_and!;
    [exact (getter_stamp l Descriptor.FCallID Hs)|exact (getter_stamp l Descriptor.FServiceID Hs)
    |exact (getter_stamp l Descriptor.FMethodID Hs)|exact (getter_stamp l Descriptor.FBudgetNS Hs)
    |exact (getter_stamp l Descriptor.FReserved Hs)|exact (getter_stamp l Descriptor.FFlags Hs)
    |exact (getter_stamp l Descriptor.FGeneration Hs)|exact (getter_stamp l Descriptor.FPayloadOffset Hs)
    |exact (getter_stamp l Descriptor.FPayloadLength Hs)|exact (getter_stamp l Descriptor.FAllocSeq Hs)].
Qed.

(** A live, non-negative descriptor whose flags the receiver allows. *)
Lemma consume_stamp t l k only :
  sizes_ok l -> stamped Descriptor.FKind l = k -> is_byte k ->
  unmapKind k (chunkingActive t) = Some (k, only) ->
  stamped Descriptor.FGeneration l = Truncated (generation t) -> 0 <= stamped Descriptor.FBudgetNS l ->
  stamped Descriptor.FFlags l = (if checksum t && negb only && negb (stamped Descriptor.FFlags l =? 0)
                                 then flagCRC32CPresent else 0) ->
  (only = true -> stamped Descriptor.FPayloadOffset l = 0 /\ stamped Descriptor.FPayloadLength l = 0 /\
     stamped Descriptor.FAllocSeq l = 0) ->
  decode_descriptor t (stamp l) =
    (let! span := (if only then Ok [] else payloadBytes t (stamp l)) in
     let! f := frame_of_span (stamp l) k only span in Ok (Some f)).
Proof.
  intros Hs Hk Hb Hu Hg Hbud Hfl Hpay.
  destruct (stamp_getters l Hs) as (_ & _ & _ & EB & _ & EF & EG & EO & EL & EA).
  destruct (kind_stamp l k Hs Hk Hb) as [EK ES].
  unfold decode_descriptor, discardIfStale, Stale, classify. rewrite EG, Hg, Z.eqb_refl. cbn [negb].
  rewrite EF, ES, EK, Hu, EB, EO, EL, EA.
  assert (Hd : Z.ldiff (stamped Descriptor.FFlags l) (if checksum t then flagCRC32CPresent else 0) = 0).
  { rewrite Hfl. destruct (checksum t), only, (stamped Descriptor.FFlags l =? 0); reflexivity. }
  rewrite Hd. cbn [negb Z.eqb].
  destruct (Z.ltb_spec (stamped Descriptor.FBudgetNS l) 0); [lia|]. destruct only; cbn [andb]; [|reflexivity].
  destruct (Hpay eq_refl) as (-> & -> & ->). rewrite Hfl, andb_false_r. reflexivity.
Qed.

Lemma lxor_range n a b : 0 <= n -> 0 <= a < 2 ^ n -> 0 <= b < 2 ^ n -> 0 <= Z.lxor a b < 2 ^ n.
Proof.
  intros Hn Ha Hb.
  assert (E : Z.lxor a b = Z.lxor a b mod 2 ^ n).
  { apply Z.bits_inj'. intros k Hk. destruct (Z.lt_ge_cases k n).
    - by rewrite Z.mod_pow2_bits_low by lia.
    - rewrite Z.mod_pow2_bits_high, Z.lxor_spec by lia.
      rewrite <- (Z.mod_small a (2 ^ n)), <- (Z.mod_small b (2 ^ n)), !Z.mod_pow2_bits_high by lia. done. }
  rewrite E. apply Z.mod_pos_bound. apply Z.pow_pos_nonneg; lia.
Qed.

Lemma crc_bit_range c : is_u32 c -> is_u32 (crc_bit c).
Proof.
  unfold is_u32. intros Hc. unfold crc_bit.
  assert (Hs : 0 <= Z.shiftr c 1 < 2 ^ 32) by (rewrite Z.shiftr_div_pow2 by lia; Z.to_euclidean_division_equations; lia).
  destruct (Z.testbit c 0); [|done]. apply lxor_range; lia.
Qed.

Lemma crc32c_range bs : Forall is_byte bs -> is_u32 (crc32c bs).
Proof.
  intros Hb. unfold crc32c. apply lxor_range; [lia| |lia].
  assert (H : forall c, is_u32 c -> is_u32 (fold_left crc_byte bs c)); [|apply H; unfold is_u32; lia].
  induction Hb as [|b bs Hb _ IH]; intros c Hc; simpl; [done|]. apply IH. unfold crc_byte.
  assert (H0 : is_u32 (Z.lxor c b)) by (apply lxor_range; unfold is_u32, is_byte in *; lia).
  do 8 (apply crc_bit_range in H0). exact H0.
Qed.

Lemma payload_read t d bs :
  receiver_ok t -> Descriptor.wf d -> Forall is_byte bs ->
  Descriptor.PayloadLength d = zlen bs -> Descriptor.AllocSeq d <> 0 -> zlen bs <= maxRecvPayload t ->
  (exists ci c i, names_slab (inboundClasses t) (Descriptor.PayloadOffset d)
     (zlen (stored_bytes (has_crc d) bs)) ci c i) ->
  0 < zlen (stored_bytes (has_crc d) bs) ->
  sub_bytes (Z.to_nat (Descriptor.PayloadOffset d)) (length (stored_bytes (has_crc d) bs)) (inboundArenaBytes t)
    = stored_bytes (has_crc d) bs ->
  payloadBytes t d = Ok bs.
Proof.
  intros Ht Hw Hbs Hlen Hseq Hmax (ci & c & i & Hname) Hpos Hmem. destruct (field_u32 d Hw) as [Ho Hp].
  pose proof Ht as [Hcs Hsp _].
  assert (Hst : zlen (stored_bytes (has_crc d) bs) = zlen bs + if has_crc d then crc32TrailerLen else 0).
  { unfold stored_bytes. rewrite zlen_app. destruct (has_crc d); [|done].
    unfold zlen at 2. by rewrite length_le_encode. }
  unfold payloadBytes. fold (has_crc d). rewrite Hlen in *. rewrite Hst in *.
  pose proof (names_slab_inside _ _ _ _ _ _ Ht Hname) as [Hoff Hend]. unfold is_u32, MaxUint32, crc32TrailerLen in *.
  pose proof (zlen_nonneg bs).
  rewrite (u64_id (zlen bs + _)) by (unfold is_u64; destruct (has_crc d); lia).
  destruct (Z.eqb_spec (zlen bs + (if has_crc d then 4 else 0)) 0); [lia|].
  destruct (Z.eqb_spec (Descriptor.PayloadOffset d) 0); [lia|]. destruct (Z.eqb_spec (Descriptor.AllocSeq d) 0); [done|].
  cbn [orb]. destruct (Z.ltb_spec (maxRecvPayload t) (zlen bs)); [lia|].
  pose proof (slabInClass_spec (inboundClasses t) (Descriptor.PayloadOffset d) _ Hcs Ho Hpos) as Hin.
  destruct (slabInClass _ _ _) as [[|]| |]; try done; [|by destruct (Hin _ _ _ Hname)]. cbn [obind negb].
  assert (Hend' : Descriptor.PayloadOffset d + zlen bs <= zlen (inboundArenaBytes t)) by (revert Hend; destruct (has_crc d); lia).
  rewrite (u64_id (Descriptor.PayloadOffset d + zlen bs)) by (unfold is_u64; lia).
  unfold cut at 1. rewrite slice_in_range by lia. cbn [obind].
  assert (E : sub_bytes (Z.to_nat (Descriptor.PayloadOffset d))
    (Z.to_nat (Descriptor.PayloadOffset d + zlen bs - Descriptor.PayloadOffset d)) (inboundArenaBytes t) = bs).
  { replace (Z.to_nat (_ - Descriptor.PayloadOffset d)) with (length bs) by (unfold zlen; lia).
    unfold sub_bytes, stored_bytes in *. apply (f_equal (take (length bs))) in Hmem.
    rewrite take_app_length, take_take, length_app, Nat.min_l in Hmem by lia. exact Hmem. }
  rewrite E. destruct (has_crc d) eqn:Hc; [|reflexivity].
  rewrite (u64_id (_ + 4)) by (unfold is_u64; lia). unfold cut. rewrite slice_in_range by lia. cbn [obind].
  assert (E2 : sub_bytes (Z.to_nat (Descriptor.PayloadOffset d + zlen bs))
    (Z.to_nat (Descriptor.PayloadOffset d + zlen bs + 4 - (Descriptor.PayloadOffset d + zlen bs))) (inboundArenaBytes t)
    = le_encode 4 (crc32c bs)).
  { replace (Z.to_nat (_ - _)) with 4%nat by lia. unfold sub_bytes, stored_bytes in *.
    apply (f_equal (drop (length bs))) in Hmem. rewrite drop_app_length in Hmem.
    rewrite <- Hmem, length_app, length_le_encode, skipn_firstn_comm, drop_drop.
    f_equal; [lia|]. f_equal. unfold zlen. lia. }
  rewrite E2, le_decode_encode by (pose proof (crc32c_range bs Hbs); unfold is_u32 in *; simpl; lia).
  by rewrite Z.eqb_refl.
Qed.

Lemma protected_data l k f :
  sizes_ok l ->
  stamped Descriptor.FCallID l = CallID f -> stamped Descriptor.FServiceID l = Service f ->
  stamped Descriptor.FMethodID l = Method f -> stamped Descriptor.FBudgetNS l = Budget f ->
  stamped Descriptor.FReserved l = Control f -> k = Kind f -> frame_ok f ->
  frame_of_span (stamp l) k false (wirePayload f) = Ok (delivered false f).
Proof.
  intros Hs E1 E2 E3 E4 E5 -> Hf. destruct (stamp_getters l Hs) as (EC & EV & EM & EB & ER & _).
  unfold frame_of_span, decodedFrame, wirePayload, delivered. rewrite EC, EV, EM, EB, ER, E1, E2, E3, E4, E5.
  destruct (CarriesStatusBody (Kind f)) eqn:Hc; [|reflexivity].
  assert (Hd : DecodeStatus (EncodeStatus (FStatus f)) = Ok (default (mkStatus 0 [] []) (FStatus f))).
  { destruct (FStatus f) as [st|] eqn:E; [|vm_compute; reflexivity].
    rewrite <- (app_nil_r (EncodeStatus _)). apply encode_status_round. by apply (fo_status f). }
  by rewrite Hd.
Qed.

(** A frame crosses shared memory unchanged: for every frame of a kind this
    connection has assigned, the descriptor the writer stamps (with no payload,
    with an empty payload, or over a slab holding the stored bytes, checksummed
    or not) is consumed as that frame. *)
Lemma frame_round_trip t f rk only :
  receiver_ok t -> frame_ok f -> mapKind (Kind f) (chunkingActive t) = inl (rk, only) ->
  (only = true ->
   decode_descriptor t (head_fields rk (Truncated (generation t)) f) = Ok (Some (delivered true f))) /\
  (only = false -> wirePayload f = [] -> checksum t = false ->
   decode_descriptor t (data_fields f (head_fields rk (Truncated (generation t)) f)) =
     Ok (Some (delivered false f))) /\
  (only = false -> forall h,
   let bs := stored_bytes (checksum t) (wirePayload f) in
   Arena.hGeneration h = Truncated (generation t) -> 0 < Arena.hSequence h < 2 ^ 64 ->
   is_u32 (Arena.hOffset h) -> zlen (wirePayload f) <= maxRecvPayload t -> 0 < zlen bs ->
   (exists ci c i, names_slab (inboundClasses t) (Arena.hOffset h) (zlen bs) ci c i) ->
   sub_bytes (Z.to_nat (Arena.hOffset h)) (length bs) (inboundArenaBytes t) = bs ->
   decode_descriptor t (slab_fields (checksum t) h (zlen (wirePayload f))
     (data_fields f (head_fields rk (Truncated (generation t)) f))) = Ok (Some (delivered false f))).
Proof.
  intros Ht Hf Hk. destruct (mapKind_cases _ _ _ _ Hk) as (-> & Hb & Hu & _).
  assert (Hg : is_u32 (Truncated (generation t))) by apply u32_range.
  pose proof (head_sizes (Kind f) _ f Hf Hb Hg) as Hh. pose proof (data_sizes f Hf) as Hd.
  assert (Hdh : sizes_ok (data_stores f ++ head_stores (Kind f) (Truncated (generation t)) f)) by (by apply Forall_app).
  pose proof (fo_budget f Hf) as Hbud. split_and!.
  - intros ->. rewrite head_fields_stamp. rewrite (consume_stamp t _ (Kind f) true);
      try done; try (simpl; lia); try (by destruct (checksum t)).
    cbn [obind frame_of_span]. destruct (stamp_getters _ Hh) as (EC & _ & _ & _ & ER & _).
    unfold descriptorOnlyFrame, delivered. by rewrite EC, ER.
  - intros -> Hw Hck. rewrite data_fields_stamp. rewrite (consume_stamp t _ (Kind f) false);
      try done; try (simpl; lia); try (by destruct (checksum t)).
    destruct (stamp_getters _ Hdh) as (_ & _ & _ & _ & _ & EF & _ & EO & EL & EA).
    assert (Hp : payloadBytes t (stamp (data_stores f ++ head_stores (Kind f) (Truncated (generation t)) f)) = Ok [])
      by (unfold payloadBytes; rewrite EF, EO, EL, EA; reflexivity).
    rewrite Hp, <- Hw. cbn [obind]. by rewrite (protected_data _ _ f).
  - intros -> h bs Hhg Hseq Hoff Hmax Hpos Hslab Hmem. rewrite slab_fields_stamp by done.
    assert (Hn : u32 (zlen (wirePayload f)) = zlen (wirePayload f)).
    { apply u32_id. pose proof (zlen_nonneg (wirePayload f)). unfold is_u32. split; [done|].
      destruct Hslab as (ci & c & i & Hs). pose proof (names_slab_inside _ _ _ _ _ _ Ht Hs) as [_ Hend].
      pose proof (rk_span t Ht). unfold bs, stored_bytes, MaxUint32, is_u32 in *. rewrite zlen_app in Hend.
      pose proof (zlen_nonneg (if checksum t then le_encode 4 (crc32c (wirePayload f)) else [])). lia. }
    set (l := slab_stores _ _ _ ++ _).
    assert (Hl : sizes_ok l).
    { apply Forall_app. split; [|done]. unfold slab_stores. apply Forall_app. split.
      - rewrite !Forall_cons, Forall_nil. simpl. rewrite Hhg. split_and!; auto; [unfold is_u64; lia|apply u32_range].
      - destruct (checksum t); [|constructor]. rewrite Forall_cons, Forall_nil. simpl.
        unfold is_u16, flagCRC32CPresent. split; [lia|done]. }
    assert (Hfl : stamped Descriptor.FFlags l = if checksum t then flagCRC32CPresent else 0)
      by (unfold l, slab_stores; by destruct (checksum t)).
    destruct (stamp_getters _ Hl) as (_ & _ & _ & _ & _ & EF & _ & EO & EL & EA).
    assert (Hcrc : has_crc (stamp l) = checksum t).
    { unfold has_crc. rewrite EF, Hfl. by destruct (checksum t). }
    rewrite (consume_stamp t l (Kind f) false); try done;
      [|unfold l, slab_stores; by destruct (checksum t)
       |unfold l, slab_stores; destruct (checksum t); simpl; lia|rewrite Hfl; by destruct (checksum t)].
    rewrite (payload_read t (stamp l) (wirePayload f)); rewrite ?Hcrc; auto using stamp_wf, fo_bytes.
    + cbn [obind]. rewrite (protected_data l (Kind f) f); try done; unfold l, slab_stores; by destruct (checksum t).
    + rewrite EL, <- Hn. unfold l, slab_stores. by destruct (checksum t).
    + rewrite EA. unfold l, slab_stores. destruct (checksum t); simpl; lia.
    + rewrite EO. unfold l, slab_stores. by destruct (checksum t).
    + rewrite EO. unfold l, slab_stores. by destruct (checksum t).
Qed.

(** ** Properties *)

(** An untrusted descriptor cannot harm the receiver.  For any 64 bytes in
    the ring slot and any bytes in the arena: consuming never panics; a stale
    generation is discarded without reading the arena; a rejection is a bad
    frame or a checksum mismatch; and an accepted frame has an assigned kind, a
    non-negative budget and, when it carries bytes, bytes read from one whole,
    non-reserved slab of the class that serves its stored length, inside the
    arena, matching the trailer when there is one; a status body that does not
    decode is a bad frame. *)
Theorem hostile_descriptor_contained t d :
  receiver_ok t -> Descriptor.wf d ->
  match decode_descriptor t d with
  | Panic => False
  | Err e => e = errBadFrame \/ e = errChecksum
  | Ok None => Descriptor.Generation d <> Truncated (generation t)
  | Ok (Some f) =>
      Descriptor.Generation d = Truncated (generation t) /\ 0 <= Budget f /\
      (exists only, unmapKind (Kind f) (chunkingActive t) = Some (Kind f, only)) /\
      forall bs, (Payload f = bs \/ exists st, FStatus f = Some st /\ EncodeStatus (Some st) = bs) -> bs <> [] ->
        exists ci c i, names_slab (inboundClasses t) (Descriptor.PayloadOffset d) (stored_length d) ci c i /\
          Descriptor.PayloadOffset d + stored_length d <= zlen (inboundArenaBytes t) /\
          exists rest, sub_bytes (Z.to_nat (Descriptor.PayloadOffset d)) (Z.to_nat (Descriptor.PayloadLength d))
            (inboundArenaBytes t) = bs ++ rest
  end.
Proof.
  intros Ht Hw. pose proof (decode_descriptor_spec t d Ht Hw) as H.
  destruct (decode_descriptor t d) as [[f|]|e|]; auto; [|unfold discardIfStale, Stale in H; bool_to_prop; congruence|tauto].
  destruct H as (tk & only & Hcl & Hst & Hk & Hb & Honly & Hdata).
  split_and!; [unfold discardIfStale, Stale in Hst; bool_to_prop; congruence|done|exists only; rewrite Hk|].
  { unfold classify in Hcl. destruct (unmapKind (Descriptor.Kind d) (chunkingActive t)) as [[k o]|] eqn:Hu;
      [|repeat case_match; discriminate].
    assert (k = tk /\ o = only) as [-> ->] by (repeat case_match; simplify_eq; done).
    clear -Hu. unfold unmapKind in *. repeat case_match; simplify_eq; done. }
  intros bs Hbs Hne. destruct only.
  { destruct (Honly eq_refl) as [E1 E2]. destruct Hbs as [<-|(st & E & _)]; congruence. }
  destruct (Hdata eq_refl) as (b & Hread & Hform).
  assert (Hpre : exists rest, b = bs ++ rest).
  { destruct (CarriesStatusBody tk).
    - destruct Hform as (E & st & rest & E2 & ->). destruct Hbs as [<-|(st' & E3 & <-)]; [congruence|].
      simplify_eq. eauto.
    - destruct Hform as (E & E2). destruct Hbs as [<-|(st' & E3 & _)]; [|congruence].
      exists []. by rewrite app_nil_r. }
  destruct Hpre as (rest & ->). destruct Hread as [[E _]|(E & (ci & c & i & Hn) & _)]; [by destruct bs|].
  exists ci, c, i. destruct (names_slab_inside _ _ _ _ _ _ Ht Hn). split_and!; auto. by exists rest.
Qed.

(** ** Witnesses *)

(** The classes of the sample arena, a checksummed three-byte payload in slab 1
    of class 0. *)
Definition sample_payload : list Z := [7; 8; 9].
Definition sample_receiver : receiver :=
  mkReceiver 7 true true 4092 Arena.sample_cs
    (put_bytes 64 (stored_bytes true sample_payload) (replicate 4352 0)).
Definition sample_frame : Frame := mkFrame 11 FrameStreamChunk 5 6 1000 sample_payload None 3.
Definition sample_handle : Arena.SlabHandle := Arena.mkHandle 64 7 7 1 0 1 1.

Lemma sample_receiver_ok : receiver_ok sample_receiver.
Proof.
  constructor; [apply Arena.sample_cs_ok|vm_compute; split; discriminate|].
  apply bytes_ok_Forall. vm_compute. reflexivity.
Qed.

Lemma hostile_descriptor_contained_witness :
  decode_descriptor sample_receiver (slab_fields true sample_handle 60
    (data_fields sample_frame (head_fields FrameStreamChunk 7 sample_frame))) = Err errChecksum /\
  (errChecksum = errBadFrame \/ errChecksum = errChecksum).
Proof.
  assert (E : decode_descriptor sample_receiver (slab_fields true sample_handle 60
    (data_fields sample_frame (head_fields FrameStreamChunk 7 sample_frame))) = Err errChecksum)
    by (vm_compute; reflexivity).
  split; [exact E|].
  pose proof (hostile_descriptor_contained sample_receiver (slab_fields true sample_handle 60
    (data_fields sample_frame (head_fields FrameStreamChunk 7 sample_frame))) sample_receiver_ok) as H.
  rewrite E in H. apply H. unfold slab_fields.
  repeat first [apply (Descriptor.setter_wf Descriptor.FAllocSeq)|apply (Descriptor.setter_wf Descriptor.FGeneration)
    |apply (Descriptor.setter_wf Descriptor.FPayloadLength)|apply (Descriptor.setter_wf Descriptor.FPayloadOffset)
    |apply (Descriptor.setter_wf Descriptor.FFlags)].
  rewrite data_fields_stamp. apply stamp_wf.
Defined.

End ShmFrame.
