(* ===== verification/ShmWake.v ===== *)
(** * Teardown words and the park protocol
    (src/internal/transport/shm/poison.go, the producer signal of transport.go,
    src/internal/event/parkstate.go, eventfd.go and the wait loop of spin.go)

    The words of the sync page that both processes touch without a lock: the
    poison and shutdown words, the park word and tail of one direction, and the
    two eventfds.  [Set], [Shutdown] and [TeardownError] are functions on those
    words; the same operations, the producer's publish and signal, and the
    consumer's [Wait] are then split at every shared access and interleaved.
    The theorems: the first cause wins and is what every later check reports,
    and no wake-up is lost. *)

From S2P Require Import Prelude TransportFrame ShmFrame.
Import Frames ShmFrame.

Module Wake.

(** ** Poison causes *)

Definition PoisonNone : Z := 0.
Definition PoisonGeneric : Z := 1.
Definition PoisonBadGeometry : Z := 2.
Definition PoisonBadFrame : Z := 3.
Definition PoisonRingCorrupt : Z := 4.
Definition PoisonChecksum : Z := 5.
Definition PoisonStaleStamp : Z := 6.
Definition PoisonPeerCrash : Z := 7.
Definition PoisonBadSync : Z := 8.

(** This package's [ErrPoisoned] unwraps to the transport's. *)
Definition errPoisoned : error := [Other 8; ErrPoisoned].

Definition markPoisoned (e : error) : error := e ++ [ErrPoisoned].

(** [errors.Is(err, s)] for one of this package's own sentinels. *)
Definition matches (e s : error) : bool :=
  match s with x :: _ => Is (Some e) x | [] => false end.

Definition faultToPoisonCause (e : error) : option Z :=
  if matches e errRingCorrupt then Some PoisonRingCorrupt else
  if matches e errBadFrame then Some PoisonBadFrame else
  if matches e errChecksum then Some PoisonChecksum else
  if matches e errBadSync then Some PoisonBadSync else
  if matches e errLostWake then Some PoisonGeneric else
  None.

(** ** Park states *)

Definition StateAwake : Z := 0.
Definition StateParked : Z := 1.

(** ** The shared words

    [hp] and [ph] are the counters of the two eventfds. *)

Record words := mkWords {
  poison : Z; shutdown : Z; park : Z; tail : Z; hp : Z; ph : Z
}.

Definition set_poison (v : Z) (w : words) := mkWords v (shutdown w) (park w) (tail w) (hp w) (ph w).
Definition set_shutdown (v : Z) (w : words) := mkWords (poison w) v (park w) (tail w) (hp w) (ph w).
Definition set_park (v : Z) (w : words) := mkWords (poison w) (shutdown w) v (tail w) (hp w) (ph w).
Definition set_tail (v : Z) (w : words) := mkWords (poison w) (shutdown w) (park w) v (hp w) (ph w).

(** The eventfd of a direction: [true] is host to plugin. *)
Definition efd (host : bool) (w : words) : Z := if host then hp w else ph w.
Definition set_efd (host : bool) (v : Z) (w : words) : words :=
  if host then mkWords (poison w) (shutdown w) (park w) (tail w) v (ph w)
  else mkWords (poison w) (shutdown w) (park w) (tail w) (hp w) v.

(** A write adds one; the counter's ceiling is 2^64 - 2, at which the write
    waits for a read. *)
Definition eventfd_max : Z := 2 ^ 64 - 2.
Definition Write (host : bool) (w : words) : option words :=
  if efd host w <? eventfd_max then Some (set_efd host (efd host w + 1) w) else None.

(** A read drains the counter, and waits while it is zero. *)
Definition Read (host : bool) (w : words) : option words :=
  if efd host w =? 0 then None else Some (set_efd host 0 w).

Definition TryPark (w : words) : words := set_park StateParked w.
Definition MarkAwake (w : words) : words := set_park StateAwake w.

(** ** PoisonFlag *)

Definition invalid_cause (c : Z) : bool :=
  (c =? PoisonNone) || (c =? PoisonStaleStamp) || (PoisonBadSync <? c).

Definition cas_poison (c : Z) (w : words) : words * bool :=
  if poison w =? 0 then (set_poison c w, true) else (w, false).

(** The wake both teardowns end in; a write's error is ignored. *)
Definition wake_both (w : words) : words :=
  let w := default w (Write true w) in
  default w (Write false w).

Definition Set_ (c : Z) (w : words) : outcome error (words * bool) :=
  if invalid_cause c then Panic else
  let (w, won) := cas_poison c w in
  Ok (wake_both (set_shutdown 1 w), won).

Definition Shutdown (w : words) : words := wake_both (set_shutdown 1 w).

Definition Check_ (w : words) : Z * bool := (poison w, negb (poison w =? 0)).

(** The two loads of [TeardownError], which other processes may separate.  The
    cause is rendered into the message, which is dropped. *)
Definition teardown_result (p s : Z) : option error :=
  if negb (p =? 0) then Some errPoisoned else
  if negb (s =? 0) then Some [ErrClosed] else None.

Definition TeardownError (w : words) : option error := teardown_result (fst (Check_ w)) (shutdown w).

(** ** The operations, one shared access at a time *)

(** A teardown: [TCas] only in [Set_]. *)
Inductive tpc := TCas (c : Z) | TStore | THP | TPH | TDone.

(** The producer after a publish. *)
Inductive ppc := PIdle | PPoison | PShutdown | PPark | PWrite | PSet (t : tpc).

(** What [Wait] returns: the observed tail, [ErrShutdown], the context's error
    or a failed read. *)
Inductive wait_result := WTail (t : Z) | WShutdown | WCtx | WReadError.

(** The consumer: polling in [spin]; armed and re-checking; blocked on the
    eventfd; woken and re-checking; returning. *)
Inductive cpc :=
| CSpinShutdown | CSpinTail
| CArm | CArmShutdown | CArmTail | CBlock
| CMarkAwake | CWakeShutdown | CWakeTail
| CDisarm (r : wait_result) | CDone (r : wait_result).

#[global] Instance tpc_eq_dec : EqDecision tpc.
Proof. solve_decision. Defined.
#[global] Instance ppc_eq_dec : EqDecision ppc.
Proof. solve_decision. Defined.
#[global] Instance wait_result_eq_dec : EqDecision wait_result.
Proof. solve_decision. Defined.
#[global] Instance cpc_eq_dec : EqDecision cpc.
Proof. solve_decision. Defined.

(** [winners]: the causes whose [Set_] returned true; [graceful]: a [Shutdown]
    was called; [failed]: some eventfd write returned an error. *)
Record sys := mkSys {
  sw : words;
  lastSeen : Z;
  cons : cpc;
  prod : ppc;
  tears : list tpc;
  badSync : bool;
  lostWake : bool;
  winners : list Z;
  graceful : bool;
  failed : bool
}.

Definition eta (s : sys) : sys :=
  mkSys (sw s) (lastSeen s) (cons s) (prod s) (tears s) (badSync s) (lostWake s) (winners s) (graceful s) (failed s).
Definition with_sw (x : words) (s : sys) : sys := ltac:(update_field eta s sw x).
Definition with_lastSeen (x : Z) (s : sys) : sys := ltac:(update_field eta s lastSeen x).
Definition with_cons (x : cpc) (s : sys) : sys := ltac:(update_field eta s cons x).
Definition with_prod (x : ppc) (s : sys) : sys := ltac:(update_field eta s prod x).
Definition with_tears (x : list tpc) (s : sys) : sys := ltac:(update_field eta s tears x).
Definition with_badSync (x : bool) (s : sys) : sys := ltac:(update_field eta s badSync x).
Definition with_lostWake (x : bool) (s : sys) : sys := ltac:(update_field eta s lostWake x).
Definition with_winners (x : list Z) (s : sys) : sys := ltac:(update_field eta s winners x).
Definition with_graceful (x : bool) (s : sys) : sys := ltac:(update_field eta s graceful x).
Definition with_failed (x : bool) (s : sys) : sys := ltac:(update_field eta s failed x).

(** An eventfd write that returns an error leaves the counter alone. *)
Definition try_write (host ok : bool) (s : sys) : option sys :=
  if ok then w ← Write host (sw s); Some (with_sw w s) else Some (with_failed true s).

(** One access of a teardown; [ok] is whether an eventfd write succeeds. *)
Definition tear_next (ok : bool) (t : tpc) (s : sys) : option (sys * tpc) :=
  match t with
  | TCas c =>
      let (w, won) := cas_poison c (sw s) in
      let s := with_sw w s in
      Some (if won then with_winners (c :: winners s) s else s, TStore)
  | TStore => Some (with_sw (set_shutdown 1 (sw s)) s, THP)
  | THP => s ← try_write true ok s; Some (s, TPH)
  | TPH => s ← try_write false ok s; Some (s, TDone)
  | TDone => None
  end.

Inductive consumer_choice := Go | CtxDone | Expire | ReadFails.

Section direction.
Context (host : bool).

(** One access of [Wait].  [CtxDone]: the context's check before the access
    found it done; [Expire]: the spin budget has run out. *)
Definition cons_next (c : consumer_choice) (s : sys) : option sys :=
  let w := sw s in
  match cons s, c with
  | CSpinShutdown, Expire => Some (with_cons CArm s)
  | CSpinShutdown, CtxDone => Some (with_cons (CDone WCtx) s)
  | CSpinShutdown, Go => Some (with_cons (if negb (shutdown w =? 0) then CDone WShutdown else CSpinTail) s)
  | CSpinTail, Go =>
      Some (with_cons (if negb (tail w =? lastSeen s) then CDone (WTail (tail w)) else CSpinShutdown) s)
  | CArm, Go => Some (with_cons CArmShutdown (with_sw (TryPark w) s))
  | CArmShutdown, CtxDone => Some (with_cons (CDisarm WCtx) s)
  | CArmShutdown, Go => Some (with_cons (if negb (shutdown w =? 0) then CDisarm WShutdown else CArmTail) s)
  | CArmTail, Go =>
      Some (with_cons (if negb (tail w =? lastSeen s) then CDisarm (WTail (tail w)) else CBlock) s)
  | CBlock, CtxDone => Some (with_cons (CDisarm WCtx) s)
  | CBlock, ReadFails => Some (with_cons (CDisarm WReadError) s)
  | CBlock, Go => w ← Read host w; Some (with_cons CMarkAwake (with_sw w s))
  | CMarkAwake, Go => Some (with_cons CWakeShutdown (with_sw (MarkAwake w) s))
  | CWakeShutdown, CtxDone => Some (with_cons (CDone WCtx) s)
  | CWakeShutdown, Go => Some (with_cons (if negb (shutdown w =? 0) then CDone WShutdown else CWakeTail) s)
  | CWakeTail, Go =>
      Some (with_cons (if negb (tail w =? lastSeen s) then CDone (WTail (tail w)) else CArm) s)
  | CDisarm r, Go => Some (with_cons (CDone r) (with_sw (MarkAwake w) s))
  | _, _ => None
  end.

(** One access of the producer: the tail store of a publish, then [signal]. *)
Definition prod_next (ok : bool) (s : sys) : option sys :=
  let w := sw s in
  match prod s with
  | PIdle => Some (with_prod PPoison (with_sw (set_tail (u64 (tail w + 1)) w) s))
  | PPoison => Some (with_prod (if negb (poison w =? 0) then PIdle else PShutdown) s)
  | PShutdown => Some (with_prod (if negb (shutdown w =? 0) then PIdle else PPark) s)
  | PPark =>
      if park w =? StateParked then Some (with_prod PWrite s) else
      if park w =? StateAwake then Some (with_prod PIdle s) else
      Some (with_prod (PSet (TCas PoisonBadSync)) (with_badSync true s))
  | PWrite =>
      s' ← try_write host ok s;
      Some (if ok then with_prod PIdle s' else with_prod (PSet (TCas PoisonGeneric)) (with_lostWake true s'))
  | PSet TDone => Some (with_prod PIdle s)
  | PSet t => '(s', t') ← tear_next ok t s; Some (with_prod (PSet t') s')
  end.

Definition fault (s : sys) : option error :=
  if badSync s then Some errBadSync else if lostWake s then Some errLostWake else None.

Inductive act :=
| Produce (ok : bool)
| Consume (c : consumer_choice)
| WaitAgain (l : Z)
| CallSet (c : Z)
| CallShutdown
| Tear (i : nat) (ok : bool).

(** One step of the system; [None]: that actor cannot move.  [WaitAgain l] is
    the next call of [Wait] once the consumer has drained up to [l]. *)
Definition next (a : act) (s : sys) : option sys :=
  match a with
  | Produce ok => prod_next ok s
  | Consume c => cons_next c s
  | WaitAgain l => match cons s with CDone _ => Some (with_cons CSpinShutdown (with_lastSeen l s)) | _ => None end
  | CallSet c => if invalid_cause c then None else Some (with_tears (tears s ++ [TCas c]) s)
  | CallShutdown => Some (with_graceful true (with_tears (tears s ++ [TStore]) s))
  | Tear i ok =>
      t ← tears s !! i; '(s', t') ← tear_next ok t s; Some (with_tears (<[i := t']> (tears s')) s')
  end.

Definition step (s s' : sys) : Prop := exists a, next a s = Some s'.

Fixpoint exec (l : list act) (s : sys) : option sys :=
  match l with [] => Some s | a :: l => s ← next a s; exec l s end.

End direction.

(** A fresh region: the sync page is zero, the consumer starts to wait at the
    producer's tail. *)
Definition init (t : Z) : sys :=
  mkSys (mkWords 0 0 StateAwake t 0 0) t CSpinShutdown PIdle [] false false [] false false.

Definition reachable (host : bool) (t : Z) (s : sys) : Prop := rtc (step host) (init t) s.

(** ** Invariant *)

(** All teardowns in progress, the producer's own included. *)
Definition threads (s : sys) : list tpc :=
  match prod s with PSet t => [t] | _ => [] end ++ tears s.

(** The consumer has announced that it parks. *)
Definition armed (c : cpc) : bool :=
  match c with CArmShutdown | CArmTail | CBlock | CMarkAwake | CDisarm _ => true | _ => false end.

(** The consumer is past the last check of the shutdown word before it blocks. *)
Definition committed (c : cpc) : bool := match c with CArmTail | CBlock => true | _ => false end.

(** The producer is past its tail store and has not yet decided on the wake. *)
Definition signalling (p : ppc) : bool :=
  match p with PPoison | PShutdown | PPark | PWrite => true | _ => false end.

Definition past_cas (t : tpc) : bool := match t with TCas _ => false | _ => true end.

Section invariant.
Context (host : bool).

(** A teardown that has yet to write this direction's eventfd. *)
Definition owes_wake (t : tpc) : bool :=
  match t with TStore | THP => true | TPH => negb host | _ => false end.

Definition wake_owed (ths : list tpc) : Prop := exists t, t ∈ ths /\ owes_wake t = true.

(** The invariant, given the teardowns in progress and whether the producer is
    signalling. *)
Record inv_at (ths : list tpc) (sig : bool) (s : sys) : Prop := {
  i_park : park (sw s) = if armed (cons s) then StateParked else StateAwake;
  i_efd : 0 <= efd host (sw s);
  i_cas : poison (sw s) <> 0 -> shutdown (sw s) = 0 -> TStore ∈ ths;
  i_down : failed s = false -> poison (sw s) <> 0 \/ shutdown (sw s) <> 0 ->
    committed (cons s) = true -> efd host (sw s) = 0 -> wake_owed ths;
  i_work : failed s = false -> cons s = CBlock -> tail (sw s) <> lastSeen s ->
    efd host (sw s) = 0 -> sig = true \/ wake_owed ths;
  i_badSync : badSync s = false;
  i_lostWake : lostWake s = true -> failed s = true;
  i_wins : winners s = [] /\ poison (sw s) = 0 \/
    exists c, winners s = [c] /\ poison (sw s) = c /\ invalid_cause c = false;
  i_causes : forall c, TCas c ∈ ths -> invalid_cause c = false;
  i_store : forall t, t ∈ ths -> past_cas t = true -> poison (sw s) <> 0 \/ graceful s = true;
  i_shutdown : shutdown (sw s) <> 0 -> poison (sw s) <> 0 \/ graceful s = true
}.

Definition inv (s : sys) : Prop := inv_at (threads s) (signalling (prod s)) s.

Lemma init_inv t : inv (init t).
Proof.
  constructor; simpl; try done; try lia; auto; try (intros; set_solver).
  by destruct host.
Qed.

Lemma invalid_nonzero c : invalid_cause c = false -> c <> 0.
Proof. unfold invalid_cause, PoisonNone. intros H. bool_to_prop. done. Qed.

Lemma elem_insert (ths : list tpc) j t t' x :
  ths !! j = Some t -> x ∈ <[j := t']> ths -> x = t' \/ x ∈ ths.
Proof.
  intros Hj Hx. apply list_elem_of_lookup in Hx as (i & Hi).
  destruct (decide (i = j)) as [->|Hne].
  - rewrite list_lookup_insert_eq in Hi by eauto using lookup_lt_Some. left. congruence.
  - rewrite list_lookup_insert_ne in Hi by done. right. eauto using list_elem_of_lookup_2.
Qed.

Lemma elem_insert_other (ths : list tpc) j t t' x :
  ths !! j = Some t -> x ∈ ths -> x <> t -> x ∈ <[j := t']> ths.
Proof.
  intros Hj Hx Hne. apply list_elem_of_lookup in Hx as (i & Hi).
  destruct (decide (i = j)) as [->|]; [congruence|].
  apply (list_elem_of_lookup_2 _ i). by rewrite list_lookup_insert_ne.
Qed.

Lemma elem_insert_same (ths : list tpc) j t t' : ths !! j = Some t -> t' ∈ <[j := t']> ths.
Proof. intros Hj. apply (list_elem_of_lookup_2 _ j), list_lookup_insert_eq. eauto using lookup_lt_Some. Qed.

(** A debt survives a step of one teardown that leaves it owing, or that does
    not change which ones owe. *)
Lemma wake_owed_insert ths j t t' :
  ths !! j = Some t -> (owes_wake t = true -> owes_wake t' = true) -> wake_owed ths -> wake_owed (<[j := t']> ths).
Proof.
  intros Hj Ho (x & Hx & Hw). destruct (decide (x = t)) as [->|Hne].
  - exists t'. split; [by eapply elem_insert_same|auto].
  - exists x. split; [by eapply elem_insert_other|done].
Qed.


Lemma efd_set_poison v w : efd host (set_poison v w) = efd host w.
Proof. by destruct host. Qed.
Lemma efd_set_shutdown v w : efd host (set_shutdown v w) = efd host w.
Proof. by destruct host. Qed.
Lemma efd_set_park v w : efd host (set_park v w) = efd host w.
Proof. by destruct host. Qed.
Lemma efd_set_tail v w : efd host (set_tail v w) = efd host w.
Proof. by destruct host. Qed.
Create Rewrite HintDb efd.
#[local] Hint Rewrite efd_set_poison efd_set_shutdown efd_set_park efd_set_tail : efd.

(** A write touches nothing but its counter or the failure flag. *)
Lemma try_write_cases h ok s s' :
  try_write h ok s = Some s' ->
  (ok = true /\ efd h (sw s') = efd h (sw s) + 1 /\ (h <> host -> efd host (sw s') = efd host (sw s)) /\
   s' = with_sw (sw s') s /\ park (sw s') = park (sw s) /\ poison (sw s') = poison (sw s) /\
   shutdown (sw s') = shutdown (sw s) /\ tail (sw s') = tail (sw s)) \/
  (ok = false /\ s' = with_failed true s).
Proof.
  unfold try_write. destruct ok; intros H; [|by right; simplify_eq].
  left. unfold Write in H. case_test_in H; simplify_eq/=. split_and!; try (by destruct h).
  by destruct h, host.
Qed.

(** An eventfd write by a teardown: it pays the debt of its own direction only. *)
Lemma tear_write_inv ths sig ok j t t' h s s' :
  inv_at ths sig s -> ths !! j = Some t -> past_cas t = true -> past_cas t' = true -> t <> TStore ->
  (owes_wake t = true -> owes_wake t' = true \/ h = host) ->
  try_write h ok s = Some s' -> inv_at (<[j := t']> ths) sig s'.
Proof.
  intros Hi Hj Hp Hp' Hne Ho Hw. pose proof Hi as []. assert (Ht : t ∈ ths) by eauto using list_elem_of_lookup_2.
  assert (Hout : forall x, x ∈ <[j := t']> ths -> x = t' \/ x ∈ ths) by (intros; by eapply elem_insert).
  assert (Hkeep : forall x, x ∈ ths -> x <> t -> x ∈ <[j := t']> ths) by (intros; by eapply elem_insert_other).
  assert (Hc : forall c, TCas c ∈ <[j := t']> ths -> invalid_cause c = false).
  { intros c Hx. destruct (Hout _ Hx) as [<-|]; [done|auto]. }
  assert (Hst : forall x, x ∈ <[j := t']> ths -> past_cas x = true -> poison (sw s) <> 0 \/ graceful s = true).
  { intros x Hx Hx'. destruct (Hout _ Hx) as [->|]; eauto. }
  destruct (try_write_cases h ok s s' Hw) as [(-> & Ew & Eo & Es & Ep & Epo & Esh & Eta)|(-> & ->)].
  2: { constructor; simpl; auto; done. }
  assert (He : 0 <= efd host (sw s') /\ (efd host (sw s') = 0 -> h <> host /\ efd host (sw s) = 0)).
  { destruct (decide (h = host)) as [->|Hn]; [lia|]. rewrite Eo by done. auto. }
  assert (Hkw : h <> host -> wake_owed ths -> wake_owed (<[j := t']> ths)).
  { intros Hn. eapply wake_owed_insert; [done|]. intros Hx. by destruct (Ho Hx). }
  rewrite Es. constructor; simpl; rewrite ?Ep, ?Epo, ?Esh, ?Eta; auto; [apply He|..].
  - intros H1 H2 H3 H4. destruct He as [_ He]. destruct (He H4). eauto.
  - intros H1 H2 H3 H4. destruct He as [_ He]. destruct (He H4). destruct i_work0; eauto.
Qed.

Lemma tear_inv ths sig ok j t s s' t' :
  inv_at ths sig s -> ths !! j = Some t -> tear_next ok t s = Some (s', t') -> inv_at (<[j := t']> ths) sig s'.
Proof.
  intros Hi Hj Hn. pose proof Hi as []. assert (Ht : t ∈ ths) by eauto using list_elem_of_lookup_2.
  assert (Hout : forall x, x ∈ <[j := t']> ths -> x = t' \/ x ∈ ths) by (intros; by eapply elem_insert).
  assert (Hin : t' ∈ <[j := t']> ths) by (by eapply elem_insert_same).
  assert (Hkeep : forall x, x ∈ ths -> x <> t -> x ∈ <[j := t']> ths) by (intros; by eapply elem_insert_other).
  assert (Hc : forall c, TCas c ∈ <[j := t']> ths -> past_cas t' = true -> invalid_cause c = false).
  { intros c Hx Hp. destruct (Hout _ Hx) as [<-|]; [done|auto]. }
  assert (Hst : past_cas t = true -> forall x, x ∈ <[j := t']> ths -> past_cas x = true ->
    poison (sw s) <> 0 \/ graceful s = true).
  { intros Hp x Hx Hp'. destruct (Hout _ Hx) as [->|]; eauto. }
  unfold tear_next in Hn. destruct t as [c| | | |].
  - assert (Hov : invalid_cause c = false) by auto. pose proof (invalid_nonzero c Hov).
    unfold cas_poison in Hn. destruct (Z.eqb_spec (poison (sw s)) 0) as [E|E]; simplify_eq/=.
    + constructor; simpl; autorewrite with efd; auto; try (intros; exists TStore; by auto).
      * intros ? ? ? ?. right. exists TStore. auto.
      * right. exists c. destruct i_wins0 as [[-> _]|(c' & _ & ? & Hv')]; [done|].
        apply invalid_nonzero in Hv'. lia.
    + constructor; simpl; auto; try (intros; exists TStore; by auto).
      intros. right. exists TStore. auto.
  - simplify_eq/=. constructor; simpl; autorewrite with efd; auto; try (intros; exists THP; by auto); try done.
    + intros. right. exists THP; auto.
    + exact (Hst eq_refl).
    + intros _. by apply (i_store0 TStore).
  - destruct (try_write true ok s) as [s1|] eqn:Hw; simplify_eq/=.
    apply (tear_write_inv _ _ ok j THP TPH true s); auto. simpl. destruct host; auto.
  - destruct (try_write false ok s) as [s1|] eqn:Hw; simplify_eq/=.
    apply (tear_write_inv _ _ ok j TPH TDone false s); auto. simpl. destruct host; auto.
  - done.
Qed.

Lemma inv_at_tears x ths sig s : inv_at ths sig s -> inv_at ths sig (with_tears x s).
Proof. by intros []. Qed.
Lemma inv_at_prod x ths sig s : inv_at ths sig s -> inv_at ths sig (with_prod x s).
Proof. by intros []. Qed.
Lemma inv_at_sig ths s : inv_at ths false s -> inv_at ths true s.
Proof. intros []. constructor; auto. Qed.

Lemma tear_next_frame ok t s s' t' :
  tear_next ok t s = Some (s', t') ->
  prod s' = prod s /\ tears s' = tears s /\ cons s' = cons s /\ lastSeen s' = lastSeen s.
Proof.
  unfold tear_next, cas_poison, try_write.
  destruct t; intros E; repeat (case_match; simplify_eq/=); simplify_option_eq; auto; by destruct ok.
Qed.

Lemma tear_step_inv s s' i ok : inv s -> next host (Tear i ok) s = Some s' -> inv s'.
Proof.
  intros Hi Hn. simpl in Hn. destruct (tears s !! i) as [t|] eqn:Ht; [|done]. simpl in Hn.
  destruct (tear_next ok t s) as [[s1 t1]|] eqn:E; simplify_eq/=.
  destruct (tear_next_frame _ _ _ _ _ E) as (Hp & Hts & _). unfold inv, threads in *. simpl. rewrite Hp, Hts in *.
  rewrite <- insert_app_r. apply inv_at_tears. eapply tear_inv; [done| |done].
  rewrite lookup_app_r by lia. rewrite Nat.add_comm, Nat.add_sub. done.
Qed.

(** A step of the consumer that leaves the words alone and does not commit. *)
Lemma cons_move ths sig s c :
  inv_at ths sig s -> armed c = armed (cons s) -> committed c = false -> inv_at ths sig (with_cons c s).
Proof.
  intros [] Ha Hc. constructor; simpl; rewrite ?Ha; auto; [congruence|]. intros _ ->. done.
Qed.

(** A store of the park word. *)
Lemma cons_park ths sig s c v :
  inv_at ths sig s -> v = (if armed c then StateParked else StateAwake) -> committed c = false ->
  inv_at ths sig (with_cons c (with_sw (set_park v (sw s)) s)).
Proof.
  intros [] Ha Hc. constructor; simpl; autorewrite with efd; auto; [congruence|]. intros _ ->. done.
Qed.

Lemma cons_step_inv s s' c : inv s -> next host (Consume c) s = Some s' -> inv s'.
Proof.
  intros Hi Hn. unfold next, cons_next in Hn.
  destruct (cons s) eqn:Hc, c; simplify_eq;
    try (apply (cons_move _ _ s); [done|rewrite Hc; repeat case_match; done|repeat case_match; done]);
    try (apply (cons_park _ _ s); [done|done|done]).
  - destruct (Z.eqb_spec (shutdown (sw s)) 0) as [E|E]; cbn [negb].
    2: { apply (cons_move _ _ s); [done|by rewrite Hc|done]. }
    pose proof Hi as []. constructor; simpl; auto; [by rewrite i_park0, Hc|..].
    + intros _ [Hp|?] _ _; [|done]. exists TStore. auto.
    + done.
  - destruct (Z.eqb_spec (tail (sw s)) (lastSeen s)) as [E|E]; cbn [negb].
    2: { apply (cons_move _ _ s); [done|by rewrite Hc|done]. }
    pose proof Hi as []. constructor; simpl; auto; [by rewrite i_park0, Hc|..].
    intros H1 H2 _ H3. apply i_down0; auto. by rewrite Hc.
  - unfold Read in Hn. destruct (Z.eqb_spec (efd host (sw s)) 0); simplify_eq/=.
    pose proof Hi as []. constructor; simpl; auto; try done; try (by destruct host).
    all: destruct host; simpl; rewrite Hc in i_park0; auto. 
Qed.

(** A new teardown begins. *)
Lemma inv_at_more ths ths' sig s :
  inv_at ths sig s -> (forall t, t ∈ ths -> t ∈ ths') ->
  (forall t, t ∈ ths' -> t ∈ ths \/ (exists c, t = TCas c /\ invalid_cause c = false) \/
                         t = TStore /\ graceful s = true) ->
  inv_at ths' sig s.
Proof.
  intros [] Hsub Hnew. assert (Hw : wake_owed ths -> wake_owed ths') by (intros (t & ? & ?); exists t; auto).
  constructor; auto.
  - intros H1 H2 H3 H4. destruct (i_work0 H1 H2 H3 H4); auto.
  - intros c Hc. destruct (Hnew _ Hc) as [?|[(c' & [= ->] & ?)|[? _]]]; auto; done.
  - intros t Ht Hp. destruct (Hnew _ Ht) as [?|[(c' & -> & ?)|[_ ?]]]; eauto; done.
Qed.

Lemma prod_step_inv s s' ok : inv s -> next host (Produce ok) s = Some s' -> inv s'.
Proof.
  intros Hi Hn. unfold next, prod_next in Hn. unfold inv, threads in Hi |- *.
  destruct (prod s) as [| | | | |t] eqn:Hp; simpl in Hi.
  - simplify_eq/=. destruct Hi. constructor; simpl; autorewrite with efd; auto.
  - simplify_eq/=. destruct (Z.eqb_spec (poison (sw s)) 0) as [E|E]; simpl.
    + by apply inv_at_prod.
    + apply inv_at_prod. destruct Hi. constructor; simpl; auto. intros H1 H2 H3 H4. right. apply i_down0; auto. by rewrite H2.
  - simplify_eq/=. destruct (Z.eqb_spec (shutdown (sw s)) 0) as [E|E]; simpl.
    + by apply inv_at_prod.
    + apply inv_at_prod. destruct Hi. constructor; simpl; auto. intros H1 H2 H3 H4. right. apply i_down0; auto. by rewrite H2.
  - pose proof Hi as []. destruct (Z.eqb_spec (park (sw s)) StateParked) as [E|E]; simplify_eq/=.
    { by apply inv_at_prod. }
    destruct (Z.eqb_spec (park (sw s)) StateAwake) as [E'|E']; simplify_eq/=.
    2: { rewrite i_park0 in E, E'. by destruct (armed (cons s)). }
    apply inv_at_prod. constructor; simpl; auto. intros H1 H2. rewrite H2 in i_park0. by rewrite i_park0 in E.
  - destruct (try_write host ok s) as [s1|] eqn:Hw; simplify_eq/=.
    destruct (try_write_cases host ok s s1 Hw) as [(-> & Ew & _ & Es & Ep & Epo & Esh & Eta)|(-> & ->)].
    + rewrite Es. pose proof Hi as []. constructor; simpl; rewrite ?Ep, ?Epo, ?Esh, ?Eta; auto; try lia. 
    + apply inv_at_prod. simpl. apply (inv_at_more (tears s)); [|set_solver|set_solver].
      destruct Hi. constructor; simpl; auto; done.
  - destruct (decide (t = TDone)) as [->|Hne]; simplify_eq/=.
    { apply inv_at_prod. destruct Hi. constructor; simpl; auto.
      - intros H1 H2. specialize (i_cas0 H1 H2). set_solver.
      - intros H1 H2 H3 H4. destruct (i_down0 H1 H2 H3 H4) as (t & ?%elem_of_cons & Hw). exists t. naive_solver.
      - intros H1 H2 H3 H4. destruct (i_work0 H1 H2 H3 H4) as [?|(t & ?%elem_of_cons & Hw)]; [done|]. right. exists t. naive_solver.
      - set_solver.
      - set_solver. }
    destruct (tear_next ok t s) as [[s1 t1]|] eqn:E; [|by destruct t; simplify_eq/=].
    assert (s' = with_prod (PSet t1) s1) as -> by (destruct t; simplify_eq/=; done).
    destruct (tear_next_frame _ _ _ _ _ E) as (Hp1 & Hts & _). simpl. rewrite Hts.
    apply inv_at_prod. by apply (tear_inv _ _ _ 0 _ _ _ _ Hi eq_refl E).
Qed.

Lemma step_inv s s' : inv s -> step host s s' -> inv s'.
Proof.
  intros Hi (a & Hn). destruct a as [ok|c|l|c| |i ok].
  - by eapply prod_step_inv.
  - by eapply cons_step_inv.
  - simpl in Hn. destruct (cons s) eqn:Hc; simplify_eq/=. unfold inv in *. destruct Hi.
    rewrite Hc in *. constructor; simpl; auto; done.
  - simpl in Hn. destruct (invalid_cause c) eqn:Hc; simplify_eq/=. unfold inv, threads in *. simpl.
    apply inv_at_tears. eapply inv_at_more; [done|set_solver|]. intros t. rewrite app_assoc, elem_of_app, list_elem_of_singleton. naive_solver.
  - simplify_eq/=. unfold inv, threads in *. simpl.
    apply (inv_at_more (match prod s with PSet t => [t] | _ => [] end ++ tears s)); [|set_solver|].
    + destruct Hi. constructor; simpl; auto.
    + intros t. rewrite app_assoc, elem_of_app, list_elem_of_singleton. naive_solver.
  - by eapply tear_step_inv.
Qed.

Lemma wake_reachable_inv t s : reachable host t s -> inv s.
Proof. apply (rtc_ind_r (fun s => inv s)); [apply init_inv|]. intros; by eapply step_inv. Qed.

End invariant.

(** ** Finite work *)

Definition tear_steps (t : tpc) : nat :=
  match t with TCas _ => 5 | TStore => 4 | THP => 3 | TPH => 2 | TDone => 1 end.

Definition prod_steps (p : ppc) : nat :=
  match p with PIdle => 0 | PPoison => 10 | PShutdown => 9 | PPark => 8 | PWrite => 7 | PSet t => tear_steps t end.

(** What the signal and the teardowns in progress still have to do. *)
Definition pending_steps (s : sys) : nat := prod_steps (prod s) + sum_list (tear_steps <$> tears s).

(** A step of a signal or of a teardown that is already under way, with its
    eventfd write succeeding. *)
Definition settles (a : act) (s : sys) : bool :=
  match a with
  | Produce ok => ok && negb (bool_decide (prod s = PIdle))
  | Tear _ ok => ok
  | _ => false
  end.

(** A run of such steps. *)
Inductive settling (host : bool) : nat -> sys -> sys -> Prop :=
| settling_nil s : settling host 0 s s
| settling_cons n a s s1 s2 :
    settles a s = true -> next host a s = Some s1 -> settling host n s1 s2 -> settling host (S n) s s2.

Lemma sum_list_insert l i x y :
  l !! i = Some x -> (y < x)%nat -> (sum_list (<[i := y]> l) < sum_list l)%nat.
Proof.
  revert i. induction l as [|z l IH]; intros [|i] Hi Hlt; simplify_eq/=; [lia|]. specialize (IH i Hi Hlt). lia.
Qed.

Lemma tear_next_less ok t s s' t' :
  tear_next ok t s = Some (s', t') -> (tear_steps t' < tear_steps t)%nat.
Proof.
  unfold tear_next. destruct t; intros H; simplify_option_eq; simpl; try lia.
  destruct (cas_poison c (sw s)). simplify_eq. simpl. lia.
Qed.

Lemma settles_less host a s s' :
  settles a s = true -> next host a s = Some s' -> (pending_steps s' < pending_steps s)%nat.
Proof.
  intros Hs Hn. unfold pending_steps. destruct a as [ok| | | | |i ok]; simpl in Hs; try done.
  - bool_to_prop. case_bool_decide; [done|]. subst ok. unfold next, prod_next in Hn.
    destruct (prod s) as [| | | | |t] eqn:Hp; simpl in *; try done.
    + simplify_eq. simpl. case_match; simpl; lia.
    + simplify_eq. simpl. case_match; simpl; lia.
    + repeat (case_match; simplify_eq); simpl; lia.
    + destruct (Write host (sw s)); simplify_eq/=. lia.
    + destruct (decide (t = TDone)) as [->|Hd]; [simplify_eq/=; lia|].
      destruct (tear_next true t s) as [[s1 t1]|] eqn:E; [|by destruct t; simplify_eq/=].
      assert (s' = with_prod (PSet t1) s1) as -> by (destruct t; simplify_eq/=; done).
      simpl. apply tear_next_frame in E as H'. destruct H' as (_ & -> & _). apply tear_next_less in E. simpl. lia.
  - subst ok. simpl in Hn. destruct (tears s !! i) as [t|] eqn:Ht; [|done]. simpl in Hn.
    destruct (tear_next true t s) as [[s1 t1]|] eqn:E; simplify_eq/=.
    apply tear_next_frame in E as H'. destruct H' as (-> & -> & _). apply tear_next_less in E.
    rewrite list_fmap_insert. apply Nat.add_lt_mono_l. eapply sum_list_insert; [|exact E].
    by rewrite list_lookup_fmap, Ht.
Qed.

Lemma settling_bound host n s s' : settling host n s s' -> (n + pending_steps s' <= pending_steps s)%nat.
Proof. induction 1 as [|n a s s1 s2 Hs Hn _ IH]; [lia|]. pose proof (settles_less _ _ _ _ Hs Hn). lia. Qed.

(** The steps the consumer has left once the shutdown word is set. *)
Definition until_done (c : cpc) : nat :=
  match c with
  | CDone _ => 0 | CDisarm _ | CWakeShutdown => 1 | CArmShutdown | CMarkAwake => 2
  | CArm | CBlock => 3 | CSpinShutdown | CArmTail | CWakeTail => 4 | CSpinTail => 5
  end.

Lemma consumer_shutdown host c s s' :
  shutdown (sw s) <> 0 -> next host (Consume c) s = Some s' ->
  shutdown (sw s') = shutdown (sw s) /\ (until_done (cons s') < until_done (cons s))%nat.
Proof.
  intros Hs Hn. unfold next, cons_next in Hn.
  destruct (Z.eqb_spec (shutdown (sw s)) 0); [done|].
  destruct (cons s), c; simplify_eq/=; try (case_match; simpl; by (split; [|lia])); try (by (split; [|lia])).
  unfold Read in Hn. case_match; simplify_eq/=. destruct host; simpl; by (split; [|lia]).
Qed.

Lemma settling_steps host n s s' : settling host n s s' -> rtc (step host) s s'.
Proof. induction 1; [constructor|]. eapply rtc_l; [by eexists|done]. Qed.

(** A successful teardown step keeps what the consumer looks at, but for the
    words a teardown only ever raises. *)
Definition framed (s s' : sys) : Prop :=
  failed s' = failed s /\ cons s' = cons s /\ lastSeen s' = lastSeen s /\ tail (sw s') = tail (sw s) /\
  (shutdown (sw s) <> 0 -> shutdown (sw s') <> 0) /\ (poison (sw s) <> 0 -> poison (sw s') <> 0).

#[global] Instance framed_preorder : PreOrder framed.
Proof.
  split; [firstorder|]. intros s1 s2 s3 (? & ? & ? & ? & ? & ?) (? & ? & ? & ? & ? & ?).
  unfold framed. split_and!; try congruence; auto.
Qed.

Lemma write_framed h s s' : try_write h true s = Some s' -> framed s s' /\ prod s' = prod s /\ tears s' = tears s.
Proof.
  unfold try_write, Write. destruct (efd h (sw s) <? eventfd_max); [|done].
  intros H. simplify_eq/=. unfold framed. destruct h; simpl; auto 10.
Qed.

Lemma tear_framed t s s' t' : tear_next true t s = Some (s', t') -> framed s s'.
Proof.
  unfold tear_next, cas_poison. destruct t as [c| | | |]; intros H; try done.
  - destruct (Z.eqb_spec (poison (sw s)) 0); simplify_eq/=; unfold framed; simpl; split_and!; auto; done.
  - simplify_eq/=. unfold framed; simpl; split_and!; auto.
  - destruct (try_write true true s) as [s1|] eqn:E; simplify_eq/=. by apply write_framed in E as [? _].
  - destruct (try_write false true s) as [s1|] eqn:E; simplify_eq/=. by apply write_framed in E as [? _].
Qed.

Lemma settles_framed host a s s' : settles a s = true -> next host a s = Some s' -> framed s s'.
Proof.
  intros Hs Hn. destruct a as [ok| | | | |i ok]; simpl in Hs; try done.
  - bool_to_prop. case_bool_decide; [done|]. subst ok. unfold next, prod_next in Hn.
    destruct (prod s) as [| | | | |t] eqn:Hp; try done.
    + simplify_eq. unfold framed. auto 10.
    + simplify_eq. unfold framed. auto 10.
    + repeat (case_match; simplify_eq); unfold framed; auto 10.
    + destruct (try_write host true s) as [s1|] eqn:E; simplify_eq/=. apply write_framed in E as [E _]. exact E.
    + destruct (decide (t = TDone)) as [->|Hd]; [simplify_eq/=; unfold framed; auto 10|].
      destruct (tear_next true t s) as [[s1 t1]|] eqn:E; [|by destruct t; simplify_eq/=].
      assert (s' = with_prod (PSet t1) s1) as -> by (destruct t; simplify_eq/=; done).
      apply tear_framed in E. exact E.
  - subst ok. simpl in Hn. destruct (tears s !! i) as [t|] eqn:Ht; [|done]. simpl in Hn.
    destruct (tear_next true t s) as [[s1 t1]|] eqn:E; simplify_eq/=. apply tear_framed in E. exact E.
Qed.

Lemma settling_framed host n s s' : settling host n s s' -> framed s s'.
Proof. induction 1; [reflexivity|]. etrans; [by eapply settles_framed|done]. Qed.

(** Where nothing under way can move, nothing is under way, unless a counter is
    at its ceiling. *)
Lemma wake_stuck_settled host s :
  inv host s -> (forall a, settles a s = true -> next host a s = None) -> efd host (sw s) = 0 ->
  efd (negb host) (sw s) < eventfd_max ->
  signalling (prod s) = false /\ ~ wake_owed host (threads s).
Proof.
  intros Hi Hstuck He Ho.
  assert (Hw : forall h, exists w, Write h (sw s) = Some w).
  { intros h. unfold Write. destruct (Z.ltb_spec (efd h (sw s)) eventfd_max) as [|Hge]; [by eexists|].
    unfold eventfd_max in *. destruct host, h; simpl in *; lia. }
  assert (Ht : forall t, t <> TDone -> is_Some (tear_next true t s)).
  { intros t Hne. unfold tear_next, try_write. destruct t; try done; try (by eexists).
    - destruct (cas_poison c (sw s)). by eexists.
    - destruct (Hw true) as (w & ->). by eexists.
    - destruct (Hw false) as (w & ->). by eexists. }
  assert (Hp : prod s = PIdle).
  { destruct (decide (prod s = PIdle)) as [|Hne]; [done|]. exfalso.
    assert (Hs : settles (Produce true) s = true) by (simpl; rewrite bool_decide_eq_false_2; done).
    specialize (Hstuck _ Hs). simpl in Hstuck. unfold prod_next in Hstuck.
    destruct (prod s) as [| | | | |t]; try done.
    - repeat case_match; done.
    - unfold try_write in Hstuck. destruct (Hw host) as (w & E). by rewrite E in Hstuck.
    - destruct (decide (t = TDone)) as [->|Hd]; [done|]. destruct (Ht t Hd) as ([s1 t1] & E).
      destruct t; rewrite ?E in Hstuck; done. }
  split; [by rewrite Hp|]. intros (t & Hin & How). unfold threads in Hin. rewrite Hp in Hin. simpl in Hin.
  apply list_elem_of_lookup in Hin as (i & Hi').
  specialize (Hstuck (Tear i true) eq_refl). simpl in Hstuck. rewrite Hi' in Hstuck. simpl in Hstuck.
  destruct (Ht t) as ([s1 t1] & E); [by intros ->|]. by rewrite E in Hstuck.
Qed.

Lemma consumer_enabled host s :
  cons s <> CBlock -> (forall r, cons s <> CDone r) -> is_Some (next host (Consume Go) s).
Proof.
  intros Hb Hd. unfold next, cons_next. destruct (cons s); try done; try (by eexists). by destruct (Hd r).
Qed.

(** ** Monotone words *)

Definition raised (w w' : words) : Prop :=
  (poison w <> 0 -> poison w' = poison w) /\ (shutdown w <> 0 -> shutdown w' <> 0).

#[global] Instance raised_preorder : PreOrder raised.
Proof.
  split; [firstorder|]. intros w1 w2 w3 [H1 H2] [H3 H4]. split; [|auto].
  intros H. rewrite <- H1 by done. apply H3. by rewrite H1.
Qed.

Lemma raised_write h ok s s' : try_write h ok s = Some s' -> raised (sw s) (sw s') /\ graceful s' = graceful s.
Proof.
  unfold try_write, Write. destruct ok; [|by intros; simplify_eq/=].
  destruct (efd h (sw s) <? eventfd_max); [|done]. intros; simplify_eq/=. by destruct h.
Qed.

Lemma raised_tear ok t s s' t' :
  tear_next ok t s = Some (s', t') -> raised (sw s) (sw s') /\ graceful s' = graceful s.
Proof.
  unfold tear_next, cas_poison. destruct t as [c| | | |]; intros H; try done.
  - destruct (Z.eqb_spec (poison (sw s)) 0); simplify_eq/=; unfold raised; simpl; auto; done.
  - simplify_eq/=. unfold raised; simpl; auto.
  - destruct (try_write true ok s) as [s1|] eqn:E; simplify_eq/=. by eapply raised_write.
  - destruct (try_write false ok s) as [s1|] eqn:E; simplify_eq/=. by eapply raised_write.
Qed.

Lemma raised_step host s s' :
  step host s s' -> raised (sw s) (sw s') /\ (graceful s = true -> graceful s' = true).
Proof.
  intros (a & Hn). destruct a as [ok|c|l|c| |i ok]; unfold next in Hn.
  - unfold prod_next in Hn. destruct (prod s) as [| | | | |t].
    + simplify_eq. by unfold raised.
    + simplify_eq. by unfold raised.
    + simplify_eq. by unfold raised.
    + repeat (case_match; simplify_eq); by unfold raised.
    + destruct (try_write host ok s) as [s1|] eqn:E; simplify_eq/=. apply raised_write in E as [E1 E2].
      destruct ok; simpl; by rewrite E2.
    + destruct (decide (t = TDone)) as [->|Hd]; [simplify_eq/=; by unfold raised|].
      destruct (tear_next ok t s) as [[s1 t1]|] eqn:E; [|by destruct t; simplify_eq/=].
      assert (s' = with_prod (PSet t1) s1) as -> by (destruct t; simplify_eq/=; done).
      apply raised_tear in E as [E1 E2]. simpl. by rewrite E2.
  - unfold cons_next in Hn. destruct (cons s), c; simplify_eq; try (by unfold raised).
    unfold Read in Hn. case_match; simplify_eq/=. unfold raised. by destruct host.
  - case_match; simplify_eq. by unfold raised.
  - case_match; simplify_eq. by unfold raised.
  - simplify_eq. by unfold raised.
  - destruct (tears s !! i) as [t|]; [|done]. simpl in Hn.
    destruct (tear_next ok t s) as [[s1 t1]|] eqn:E; simplify_eq/=. apply raised_tear in E as [E1 E2]. simpl. by rewrite E2.
Qed.

Lemma raised_steps host s s' :
  rtc (step host) s s' -> raised (sw s) (sw s') /\ (graceful s = true -> graceful s' = true).
Proof.
  induction 1 as [|s s1 s2 Hs _ [IH1 IH2]]; [by split|].
  apply raised_step in Hs as [H1 H2]. split; [by etrans|auto].
Qed.

(** The sequential [Set_] is its four accesses in a row. *)
Lemma set_is_run host c s w won :
  Set_ c (sw s) = Ok (w, won) -> efd true (sw s) < eventfd_max -> efd false (sw s) < eventfd_max ->
  exists s', exec host [CallSet c; Tear (length (tears s)) true; Tear (length (tears s)) true;
                        Tear (length (tears s)) true; Tear (length (tears s)) true] s = Some s' /\
    sw s' = w /\ winners s' = (if won then [c] else []) ++ winners s.
Proof.
  unfold Set_. destruct (invalid_cause c) eqn:Hc; [done|]. intros Hs Hh Hp.
  assert (Hl : forall (l : list tpc) x y, <[length l := y]> (l ++ [x]) = l ++ [y]).
  { intros. replace (length l) with (length l + 0)%nat by lia. by rewrite insert_app_r. }
  assert (Hl2 : forall (l : list tpc) x, (l ++ [x]) !! length l = Some x).
  { intros. by rewrite list_lookup_middle. }
  destruct s as [w0 ls cs pr ts bs lw wi gr fa]. unfold cas_poison, wake_both in Hs.
  assert (Hw : forall h w, efd h w < eventfd_max -> Write h w = Some (set_efd h (efd h w + 1) w)).
  { intros h w1 Hlt. unfold Write. destruct (Z.ltb_spec (efd h w1) eventfd_max); [done|lia]. }
  cbn in Hs |- *. rewrite Hc. cbn. rewrite Hl2. cbn. unfold cas_poison.
  destruct (poison w0 =? 0); cbn in Hs |- *; rewrite ?Hl, ?Hl2; cbn; rewrite ?Hl, ?Hl2; cbn;
    unfold try_write; cbn; rewrite ?(Hw true), ?(Hw false) in * by done; cbn in *;
    rewrite ?Hl, ?Hl2; cbn; rewrite ?Hl, ?Hl2; cbn; rewrite ?(Hw false) by done; cbn; simplify_eq; eauto.
Qed.

(** ** Properties *)

(** C19: no wake-up is lost.  In every interleaving of one producer's publishes
    and signals, one consumer's waits, and any number of poisonings and
    shutdowns by either process, as long as no eventfd write returned an error:
    when the consumer is blocked on its eventfd although there is a frame it has
    not seen, or the region is being torn down, then the signals and teardowns
    already under way finish within a bounded number of their own steps, in
    whatever order, and after them the consumer's read returns.  Once the
    shutdown word is set, every step of the consumer brings it closer to
    returning, and only the blocking read can make it wait. *)
Theorem park_no_lost_wakeup host t s :
  reachable host t s -> failed s = false ->
  (cons s = CBlock -> tail (sw s) <> lastSeen s \/ shutdown (sw s) <> 0 \/ poison (sw s) <> 0 ->
   forall n s', settling host n s s' ->
     (n <= pending_steps s)%nat /\
     ((forall a, settles a s' = true -> next host a s' = None) -> efd (negb host) (sw s') < eventfd_max ->
      exists s2, next host (Consume Go) s' = Some s2 /\ cons s2 = CMarkAwake)) /\
  (shutdown (sw s) <> 0 ->
   (forall c s', next host (Consume c) s = Some s' ->
      shutdown (sw s') <> 0 /\ (until_done (cons s') < until_done (cons s))%nat) /\
   (cons s <> CBlock -> (forall r, cons s <> CDone r) -> is_Some (next host (Consume Go) s))).
Proof.
  intros Hr Hf. pose proof (wake_reachable_inv _ _ _ Hr) as Hi. split.
  - intros Hc Hwork n s' Hset. pose proof (settling_bound _ _ _ _ Hset). split; [lia|]. intros Hstuck Ho.
    assert (Hi' : inv host s').
    { apply (wake_reachable_inv _ t). unfold reachable in *. etrans; [exact Hr|]. by eapply settling_steps. }
    destruct (settling_framed _ _ _ _ Hset) as (Ef & Ec & El & Et & Es & Ep).
    destruct (decide (efd host (sw s') = 0)) as [E|E].
    + exfalso. destruct (wake_stuck_settled _ _ Hi' Hstuck E Ho) as [Hsig Howe]. destruct Hi'.
      rewrite Ef, Ec, El, Et, Hc in *. destruct Hwork as [Hw|Hd].
      * destruct i_work0 as [?|?]; auto. congruence.
      * apply Howe, i_down0; auto. destruct Hd; auto.
    + simpl. unfold cons_next. rewrite Ec, Hc. unfold Read. destruct (Z.eqb_spec (efd host (sw s')) 0); [done|].
      by eexists.
  - intros Hs. split; [|apply consumer_enabled]. intros c s' Hn.
    destruct (consumer_shutdown _ _ _ _ Hs Hn) as [-> ?]. done.
Qed.

(** The first poison cause wins.  In every interleaving: at most one [Set_]
    returns true, the poison word is that call's cause, a valid one, and never
    changes again; the shutdown word is never cleared.  A [TeardownError] whose
    first load is at [s] and whose second is at a later [s'] reports poison when
    the region was poisoned at [s]; it reports a graceful close only if a
    [Shutdown] was called or the region was poisoned between the two loads; and
    a check begun once the shutdown word is set tells poison from shutdown
    correctly.  A region that nobody tears down is never poisoned by its own
    signals. *)
Theorem teardown_first_cause_wins host t s s' :
  reachable host t s -> rtc (step host) s s' ->
  (winners s = [] /\ poison (sw s) = 0 \/
   exists c, winners s = [c] /\ poison (sw s) = c /\ invalid_cause c = false) /\
  (poison (sw s) <> 0 -> poison (sw s') = poison (sw s)) /\
  (shutdown (sw s) <> 0 -> shutdown (sw s') <> 0) /\
  (poison (sw s) <> 0 -> teardown_result (poison (sw s)) (shutdown (sw s')) = Some errPoisoned) /\
  (teardown_result (poison (sw s)) (shutdown (sw s')) = Some [ErrClosed] ->
     poison (sw s) = 0 /\ (graceful s' = true \/ poison (sw s') <> 0)) /\
  (shutdown (sw s) <> 0 -> graceful s = false -> TeardownError (sw s) = Some errPoisoned) /\
  (badSync s = false /\ (fault s <> None -> failed s = true)).
Proof.
  intros Hr Hst. pose proof (wake_reachable_inv _ _ _ Hr) as Hi.
  assert (Hi' : inv host s') by (apply (wake_reachable_inv _ t); unfold reachable in *; by etrans).
  destruct (raised_steps _ _ _ Hst) as [[Hp Hs] _]. pose proof Hi as []. split_and!; auto.
  - intros H. unfold teardown_result. by destruct (Z.eqb_spec (poison (sw s)) 0).
  - unfold teardown_result. destruct (Z.eqb_spec (poison (sw s)) 0) as [E|E]; simpl; [|done].
    destruct (Z.eqb_spec (shutdown (sw s')) 0) as [E'|E']; simpl; [done|]. intros _. split; [done|].
    destruct Hi'. destruct (i_shutdown1 E'); auto.
  - intros H Hg. destruct (i_shutdown0 H) as [H'|H']; [|congruence].
    unfold TeardownError, teardown_result, Check_. simpl. by destruct (Z.eqb_spec (poison (sw s)) 0).
  - unfold fault. rewrite i_badSync0. destruct (lostWake s); [auto|done].
Qed.

(** ** Witnesses *)

(** Host to plugin: the consumer arms, checks and blocks; the producer publishes
    and is about to load the park word. *)
Definition parked_run : list act :=
  [Consume Expire; Consume Go; Consume Go; Consume Go; Produce true; Produce true; Produce true].

Definition final (host : bool) (l : list act) : sys := default (init 5) (exec host l (init 5)).

Lemma exec_steps host l s s' : exec host l s = Some s' -> rtc (step host) s s'.
Proof.
  revert s. induction l as [|a l IH]; intros s H; simpl in H; [simplify_eq; constructor|].
  destruct (next host a s) as [s1|] eqn:E; [|done]. eapply rtc_l; [by exists a|auto].
Qed.

Lemma final_reachable host l : is_Some (exec host l (init 5)) -> reachable host 5 (final host l).
Proof. intros (s & E). unfold final. rewrite E. by eapply exec_steps. Qed.

Lemma park_no_lost_wakeup_witness :
  let s := final true parked_run in
  cons s = CBlock /\ tail (sw s) = 6 /\ lastSeen s = 5 /\ efd true (sw s) = 0 /\
  forall n s', settling true n s s' -> (n <= 8)%nat.
Proof.
  split_and!; try reflexivity. intros n s' Hs.
  destruct (park_no_lost_wakeup true 5 (final true parked_run)) as [H _];
    [apply final_reachable; vm_compute; eauto|reflexivity|].
  destruct (H eq_refl ltac:(left; vm_compute; discriminate) n s' Hs) as [Hn _]. exact Hn.
Defined.

(** Two sides poison at once: the second loses the race for the word. *)
Definition both_poison : list act :=
  [CallSet PoisonBadFrame; CallSet PoisonPeerCrash; Tear 1 true; Tear 0 true; Tear 0 true].

Lemma teardown_first_cause_wins_witness :
  let s := final true both_poison in
  winners s = [PoisonPeerCrash] /\ poison (sw s) = PoisonPeerCrash /\ TeardownError (sw s) = Some errPoisoned.
Proof.
  destruct (teardown_first_cause_wins true 5 (final true both_poison) (final true both_poison))
    as (_ & _ & _ & _ & _ & H & _); [apply final_reachable; vm_compute; eauto|constructor|].
  split_and!; [reflexivity..|]. apply H; [vm_compute; discriminate|reflexivity].
Defined.

(** The two loads of [TeardownError] can straddle a whole poisoning: the check
    then reports a graceful close of a region that was only ever poisoned. *)
Theorem teardown_error_race :
  let s := final true [CallSet PoisonBadFrame] in
  let s' := final true [CallSet PoisonBadFrame; Tear 0 true; Tear 0 true] in
  rtc (step true) s s' /\ graceful s' = false /\ poison (sw s') = PoisonBadFrame /\
  teardown_result (poison (sw s)) (shutdown (sw s')) = Some [ErrClosed].
Proof.
  split_and!; [by apply (exec_steps _ [Tear 0 true; Tear 0 true])|reflexivity..].
Qed.

End Wake.
