(* ===== verification/ShmRecovery.v ===== *)
(** * Crash recovery (src/internal/transport/shm/recovery.go)

    Generation arithmetic across the 32-bit wrap, and the escalation policy that
    decides when a stream of discarded frames poisons the region.  The policy is
    a few counters updated per frame; its specification is a rule on the whole
    history of the region, and the theorem is that the two agree. *)

From stdpp Require Import sorting.
From S2P Require Import Prelude DescriptorCodec RegionLayout TransportFrame ShmFrame ShmWake.
Import Layout Frames ShmFrame Wake.

Module Recovery.

Definition DefaultGraceWindow : Z := 5 * 10 ^ 9.
Definition DefaultSustainedRateWindow : Z := 10 ^ 9.
Definition DefaultSustainedRateThreshold : Z := 20.
Definition DefaultConsumeFaultRunThreshold : Z := 1024.
Definition ConsumeFaultEscalationDisabled : Z := -1.

Definition errGenerationExhausted : error := [Other 9].

Definition bumpGeneration (current : Z) : outcome error Z :=
  if current =? MaxUint64 then Err errGenerationExhausted else Ok (u64 (current + 1)).

(** A uint32 difference read as an int32. *)
Definition truncatedGenerationDelta (current stamp : Z) : Z := i32 (u32 (Truncated current - stamp)).

Definition detectLateWrite (d : Descriptor.Descriptor) (current : Z) : bool * bool :=
  let delta := truncatedGenerationDelta current (Descriptor.Generation d) in
  if 0 <? delta then (true, false) else if delta <? 0 then (false, true) else (false, false).

(** Instants are nanoseconds; [time.Time.Sub] saturates at the int64 range. *)
Definition time_sub (a b : Z) : Z := Z.max (- 2 ^ 63) (Z.min MaxInt64 (a - b)).

Record EscalationConfig := mkEscalationConfig {
  GraceWindow : Z; RateWindow : Z; RateThreshold : Z; ConsumeFaultRunThreshold : Z
}.

Record EscalationPolicy := mkEscalationPolicy {
  cfg : EscalationConfig; bumpedAt : Z; recent : list Z; consumeFaultRun : Z
}.

Definition NewEscalationPolicy (c : EscalationConfig) (bumpedAt : Z) : EscalationPolicy :=
  let g := if GraceWindow c <=? 0 then DefaultGraceWindow else GraceWindow c in
  let r := if RateWindow c <=? 0 then DefaultSustainedRateWindow else RateWindow c in
  let n := if RateThreshold c <=? 0 then DefaultSustainedRateThreshold else RateThreshold c in
  let f := if ConsumeFaultRunThreshold c =? 0 then DefaultConsumeFaultRunThreshold
           else ConsumeFaultRunThreshold c in
  mkEscalationPolicy (mkEscalationConfig g r n f) bumpedAt [] 0.

Fixpoint evictBefore (events : list Z) (cutoff : Z) : list Z :=
  match events with
  | [] => []
  | t :: rest => if t <? cutoff then evictBefore rest cutoff else t :: rest
  end.

Definition grace_over (p : EscalationPolicy) (now : Z) : bool :=
  GraceWindow (cfg p) <=? time_sub now (bumpedAt p).

Definition with_recent (l : list Z) (p : EscalationPolicy) : EscalationPolicy :=
  mkEscalationPolicy (cfg p) (bumpedAt p) l (consumeFaultRun p).
Definition with_run (n : Z) (p : EscalationPolicy) : EscalationPolicy :=
  mkEscalationPolicy (cfg p) (bumpedAt p) (recent p) n.

(** The policy's own poisoning, with the words it writes. *)
Definition escalate (c : Z) (w : words) : outcome error words :=
  let! (w, _) := Set_ c w in Ok w.

Definition Observe (now stamp current : Z) (p : EscalationPolicy) (w : words)
  : outcome error (EscalationPolicy * words) :=
  let delta := truncatedGenerationDelta current stamp in
  if delta =? 0 then Ok (p, w) else
  if (delta <? 0) || (2 <=? delta) then
    let! w := escalate PoisonPeerCrash w in Ok (p, w)
  else
    let '(p, raise) :=
      if grace_over p now then
        let l := evictBefore (recent p ++ [now]) (now + - RateWindow (cfg p)) in
        (with_recent l p, RateThreshold (cfg p) <=? zlen l)
      else (p, false) in
    if raise then let! w := escalate PoisonPeerCrash w in Ok (p, w) else Ok (p, w).

Definition ObserveConsumeFault (now : Z) (p : EscalationPolicy) (w : words)
  : outcome error (EscalationPolicy * words) :=
  if ConsumeFaultRunThreshold (cfg p) <? 0 then Ok (p, w) else
  let run := u64 (consumeFaultRun p + 1) in
  let p := with_run run p in
  if run <? u64 (ConsumeFaultRunThreshold (cfg p)) then Ok (p, w) else
  if grace_over p now then let! w := escalate PoisonGeneric w in Ok (p, w) else Ok (p, w).

Definition ObserveConsumeSuccess (p : EscalationPolicy) : EscalationPolicy :=
  if negb (consumeFaultRun p =? 0) then with_run 0 p else p.

(** ** Specification: rules on the history *)

Inductive event :=
| StaleSeen (now stamp : Z)
| FaultSeen (now : Z)
| Delivered.

Definition observe (gen : Z) (e : event) (p : EscalationPolicy) (w : words)
  : outcome error (EscalationPolicy * words) :=
  match e with
  | StaleSeen now stamp => Observe now stamp gen p w
  | FaultSeen now => ObserveConsumeFault now p w
  | Delivered => Ok (ObserveConsumeSuccess p, w)
  end.

Fixpoint observe_all (gen : Z) (l : list event) (p : EscalationPolicy) (w : words)
  : outcome error (EscalationPolicy * words) :=
  match l with
  | [] => Ok (p, w)
  | e :: l => let! (p, w) := observe gen e p w in observe_all gen l p w
  end.

Section rules.
Context (c : EscalationConfig) (start gen : Z).

(** A discard exactly one generation behind, seen once the grace window has
    closed; its instant. *)
Definition late (e : event) : option Z :=
  match e with
  | StaleSeen now stamp =>
      if (truncatedGenerationDelta gen stamp =? 1) && (GraceWindow c <=? time_sub now start) then Some now else None
  | _ => None
  end.

(** How many of those fall in the window that ends at [now]. *)
Definition late_in_window (now : Z) (h : list event) : Z :=
  zlen (filter (fun t => now - RateWindow c <= t) (omap late h)).

(** Consume faults since the last delivery. *)
Definition fault_run (h : list event) : Z :=
  fold_left (fun n e => match e with FaultSeen _ => n + 1 | Delivered => 0 | StaleSeen _ _ => n end) h 0.

(** The cause the rules call for at event [e] after the history [h]. *)
Definition alarm (h : list event) (e : event) : option Z :=
  match e with
  | StaleSeen now stamp =>
      let delta := truncatedGenerationDelta gen stamp in
      if (delta <? 0) || (2 <=? delta) then Some PoisonPeerCrash else
      match late e with
      | Some _ => if RateThreshold c <=? late_in_window now (h ++ [e]) then Some PoisonPeerCrash else None
      | None => None
      end
  | FaultSeen now =>
      if (0 <=? ConsumeFaultRunThreshold c) && (ConsumeFaultRunThreshold c <=? fault_run (h ++ [e])) &&
         (GraceWindow c <=? time_sub now start)
      then Some PoisonGeneric else None
  | Delivered => None
  end.

(** The first alarm of the events [l] that follow [h]. *)
Fixpoint first_alarm (h l : list event) : option Z :=
  match l with
  | [] => None
  | e :: l => match alarm h e with Some k => Some k | None => first_alarm (h ++ [e]) l end
  end.

End rules.

(** ** Generations *)

(** The signed difference of truncated stamps is the true one whenever fewer
    than 2^31 restarts lie between, across the 32-bit wrap. *)
Lemma generation_delta_exact g g' :
  - 2 ^ 31 <= g - g' < 2 ^ 31 -> truncatedGenerationDelta g (Truncated g') = g - g'.
Proof.
  intros H. unfold truncatedGenerationDelta, Truncated, i32.
  assert (E : u32 (u32 g - u32 g') = u32 (g - g')) by (unfold u32; by rewrite <- Zminus_mod).
  rewrite E. unfold u32. case_test; bool_to_prop; Z.to_euclidean_division_equations; lia.
Qed.

(** ** The rate window *)

Lemma filter_all k (l : list Z) : Forall (fun t => k <= t) l -> filter (fun t => k <= t) l = l.
Proof. induction 1; [done|]. by rewrite filter_cons_True, IHForall. Qed.

Lemma evict_filter l k : StronglySorted Z.le l -> evictBefore l k = filter (fun t => k <= t) l.
Proof.
  induction 1 as [|t l _ IH Hall]; [done|]. simpl. destruct (Z.ltb_spec t k).
  - by rewrite filter_cons_False by lia.
  - rewrite filter_cons_True by lia. rewrite filter_all; [done|].
    eapply Forall_impl; [exact Hall|]. simpl. lia.
Qed.

Lemma sorted_filter l k : StronglySorted Z.le l -> StronglySorted Z.le (filter (fun t : Z => k <= t) l).
Proof.
  induction 1 as [|t l _ IH Hall]; [constructor|].
  destruct (decide (k <= t)); [rewrite filter_cons_True by done|by rewrite filter_cons_False].
  constructor; [done|]. rewrite Forall_forall in *. intros x [_ Hx]%list_elem_of_filter. auto.
Qed.

Definition when (e : event) : option Z :=
  match e with StaleSeen now _ | FaultSeen now => Some now | Delivered => None end.

Section equivalence.
Context (c : EscalationConfig) (start gen : Z).
Context (Hrate : 0 < RateWindow c) (Hthr : 0 < RateThreshold c).

Lemma late_when e t : late c start gen e = Some t -> when e = Some t.
Proof. destruct e; simpl; try done. case_match; congruence. Qed.

Lemma late_elem (h : list event) t : t ∈ omap (late c start gen) h -> t ∈ omap when h.
Proof. rewrite !list_elem_of_omap. intros (e & ? & ?%late_when). eauto. Qed.

Lemma sorted_late (h : list event) : StronglySorted Z.le (omap when h) -> StronglySorted Z.le (omap (late c start gen) h).
Proof.
  induction h as [|e h IH]; [done|]. simpl. intros Hs.
  assert (Hh : StronglySorted Z.le (omap when h)) by (destruct (when e); [by inversion Hs|done]).
  destruct (late c start gen e) as [t|] eqn:E; [|auto]. rewrite (late_when _ _ E) in Hs.
  inversion Hs as [|? ? _ Hall]; subst. constructor; [auto|]. rewrite Forall_forall in *.
  intros x Hx%late_elem. auto.
Qed.

(** What the policy's counters hold after the history [h]. *)
Record tracks (h : list event) (p : EscalationPolicy) : Prop := {
  tr_cfg : cfg p = c;
  tr_start : bumpedAt p = start;
  tr_run : 0 <= ConsumeFaultRunThreshold c -> consumeFaultRun p = fault_run h;
  tr_recent : exists k, recent p = filter (fun t => k <= t) (omap (late c start gen) h) /\
    (omap (late c start gen) h = [] \/ exists t, t ∈ omap (late c start gen) h /\ k = t - RateWindow c)
}.

Lemma fault_run_snoc h e :
  fault_run (h ++ [e]) =
    match e with FaultSeen _ => fault_run h + 1 | Delivered => 0 | StaleSeen _ _ => fault_run h end.
Proof. unfold fault_run. by rewrite fold_left_app. Qed.

Lemma fault_run_range h : 0 <= fault_run h <= zlen h.
Proof.
  induction h as [|e h IH] using rev_ind; [done|]. rewrite fault_run_snoc, zlen_app.
  change (zlen [e]) with 1. destruct e; lia.
Qed.

Lemma late_snoc (h : list event) e :
  omap (late c start gen) (h ++ [e]) = omap (late c start gen) h ++ match late c start gen e with Some t => [t] | None => [] end.
Proof. rewrite omap_app. simpl. by destruct (late c start gen e). Qed.

(** The window after one more late discard. *)
Lemma window_snoc h p now e :
  tracks h p -> late c start gen e = Some now -> StronglySorted Z.le (omap when (h ++ [e])) ->
  evictBefore (recent p ++ [now]) (now + - RateWindow c) =
    filter (fun t => now - RateWindow c <= t) (omap (late c start gen) (h ++ [e])).
Proof.
  intros [_ _ _ (k & Hr & Hk)] He Hs. pose proof (sorted_late _ Hs) as Hl. rewrite late_snoc, He in *.
  replace (now + - RateWindow c) with (now - RateWindow c) by lia.
  apply StronglySorted_app in Hl as (Hbelow & Hl & _).
  assert (Hkn : recent p ++ [now] = filter (fun t => k <= t) (omap (late c start gen) h) ++ [now]) by (by rewrite Hr).
  rewrite Hkn, evict_filter.
  - rewrite !filter_app. f_equal.
    destruct Hk as [->|(t & Ht & ->)]; [done|]. apply list_filter_filter_l. intros x Hx.
    specialize (Hbelow t now Ht ltac:(set_solver)). lia.
  - apply StronglySorted_app_2; [|by apply sorted_filter|repeat constructor].
    intros x1 x2 Hx1 Hx2. apply list_elem_of_filter in Hx1 as [_ Hx1]. auto.
Qed.

Lemma tracks_quiet h p e :
  tracks h p -> late c start gen e = None -> (exists now s, e = StaleSeen now s) -> tracks (h ++ [e]) p.
Proof.
  intros [] He (now & st & ->). constructor; auto.
  - intros. rewrite fault_run_snoc. auto.
  - rewrite late_snoc, He, app_nil_r. done.
Qed.

Lemma escalate_ok k w : invalid_cause k = false -> exists w', escalate k w = Ok w' /\
  poison w' = (if poison w =? 0 then k else poison w) /\ shutdown w' = 1.
Proof.
  intros Hk. unfold escalate, Set_. rewrite Hk. unfold cas_poison, wake_both, Write.
  destruct (poison w =? 0) eqn:E; simpl; repeat (case_match; simpl); eexists; split; eauto.
Qed.

(** One observation: the policy raises exactly the alarm of the rules. *)
Lemma observe_alarm h p w e :
  tracks h p -> StronglySorted Z.le (omap when (h ++ [e])) -> zlen h < 2 ^ 64 - 1 ->
  ConsumeFaultRunThreshold c < 2 ^ 63 ->
  exists p' w', observe gen e p w = Ok (p', w') /\ tracks (h ++ [e]) p' /\
    match alarm c start gen h e with
    | Some k => poison w' = (if poison w =? 0 then k else poison w) /\ shutdown w' = 1 /\ invalid_cause k = false
    | None => w' = w /\ (zlen (recent p) < RateThreshold c -> zlen (recent p') < RateThreshold c)
    end.
Proof.
  intros Ht Hs Hlen Hint. pose proof Ht as []. destruct e as [now stamp|now|].
  - unfold observe, Observe, alarm, late. set (delta := truncatedGenerationDelta gen stamp).
    assert (Hq : late c start gen (StaleSeen now stamp) = None -> tracks (h ++ [StaleSeen now stamp]) p)
      by (intros; apply tracks_quiet; eauto).
    unfold late in Hq. fold delta in Hq.
    destruct (Z.eqb_spec delta 0) as [E0|H0]; [rewrite E0 in *; exists p, w; by (split_and!; [|apply Hq|])|].
    destruct ((delta <? 0) || (2 <=? delta)) eqn:Ed.
    + destruct (escalate_ok PoisonPeerCrash w eq_refl) as (w' & -> & ? & ?). simpl. exists p, w'. split_and!; auto.
      apply Hq. destruct (Z.eqb_spec delta 1) as [E1|]; [by rewrite E1 in Ed|by simpl].
    + apply orb_false_elim in Ed as [Ed1 Ed2]. bool_to_prop. assert (delta = 1) by lia.
      destruct (Z.eqb_spec delta 1); [|done]. unfold grace_over. rewrite tr_start0, tr_cfg0. simpl in Hq |- *.
      destruct (GraceWindow c <=? time_sub now start) eqn:Eg; [|exists p, w; by auto].
      assert (Hl : late c start gen (StaleSeen now stamp) = Some now).
      { unfold late. fold delta. rewrite Eg. by destruct (Z.eqb_spec delta 1). }
      pose proof (window_snoc h p now _ Ht Hl Hs) as Hw. unfold late_in_window. rewrite <- Hw.
      set (l := evictBefore _ _) in *.
      assert (Ht' : tracks (h ++ [StaleSeen now stamp]) (with_recent l p)).
      { constructor; simpl; auto; [by rewrite fault_run_snoc|]. exists (now - RateWindow c). split; [done|].
        right. exists now. rewrite late_snoc, Hl. set_solver. }
      destruct (Z.leb_spec (RateThreshold c) (zlen l)); [|by exists (with_recent l p), w].
      destruct (escalate_ok PoisonPeerCrash w eq_refl) as (w' & -> & ? & ?). simpl. by exists (with_recent l p), w'.
  - unfold observe, ObserveConsumeFault, alarm. rewrite fault_run_snoc, tr_cfg0.
    assert (Hl : late c start gen (FaultSeen now) = None) by done.
    destruct (Z.ltb_spec (ConsumeFaultRunThreshold c) 0).
    { destruct (Z.leb_spec 0 (ConsumeFaultRunThreshold c)); [lia|]. simpl. exists p, w. split_and!; auto.
      constructor; auto; [intros; lia|]. by rewrite late_snoc, Hl, app_nil_r. }
    destruct (Z.leb_spec 0 (ConsumeFaultRunThreshold c)); [|lia]. pose proof (fault_run_range h).
    rewrite tr_run0 by done. cbn [with_run cfg]. rewrite tr_cfg0. rewrite !u64_id by (unfold is_u64; lia). simpl.
    assert (Ht' : tracks (h ++ [FaultSeen now]) (with_run (fault_run h + 1) p)).
    { constructor; simpl; auto; [by rewrite fault_run_snoc|]. by rewrite late_snoc, Hl, app_nil_r. }
    unfold grace_over. simpl. rewrite tr_start0, tr_cfg0.
    destruct (Z.ltb_spec (fault_run h + 1) (ConsumeFaultRunThreshold c)).
    { destruct (Z.leb_spec (ConsumeFaultRunThreshold c) (fault_run h + 1)); [lia|]. by exists (with_run (fault_run h + 1) p), w. }
    destruct (Z.leb_spec (ConsumeFaultRunThreshold c) (fault_run h + 1)); [|lia]. simpl.
    destruct (GraceWindow c <=? time_sub now start); [|by exists (with_run (fault_run h + 1) p), w].
    destruct (escalate_ok PoisonGeneric w eq_refl) as (w' & -> & ? & ?). simpl. by exists (with_run (fault_run h + 1) p), w'.
  - simpl. exists (ObserveConsumeSuccess p), w.
    split_and!; [done| |done|unfold ObserveConsumeSuccess; by case_match].
    unfold ObserveConsumeSuccess. destruct (Z.eqb_spec (consumeFaultRun p) 0); simpl.
    + constructor; auto; [by rewrite fault_run_snoc|]. by rewrite late_snoc, app_nil_r.
    + constructor; simpl; auto; [by rewrite fault_run_snoc|]. by rewrite late_snoc, app_nil_r.
Qed.

Lemma observe_all_alarm l h p w :
  tracks h p -> StronglySorted Z.le (omap when (h ++ l)) -> zlen (h ++ l) < 2 ^ 64 ->
  ConsumeFaultRunThreshold c < 2 ^ 63 ->
  exists p' w', observe_all gen l p w = Ok (p', w') /\ tracks (h ++ l) p' /\
    match first_alarm c start gen h l with
    | Some k => poison w' = (if poison w =? 0 then k else poison w) /\ shutdown w' = 1 /\ invalid_cause k = false
    | None => w' = w /\ (zlen (recent p) < RateThreshold c -> zlen (recent p') < RateThreshold c)
    end.
Proof.
  revert h p w. induction l as [|e l IH]; intros h p w Ht Hs Hlen Hint; simpl.
  { exists p, w. by rewrite app_nil_r. }
  replace (h ++ e :: l) with ((h ++ [e]) ++ l) in * by (by rewrite <- app_assoc).
  assert (Hs1 : StronglySorted Z.le (omap when (h ++ [e]))).
  { rewrite omap_app in Hs. by eapply StronglySorted_app_1_l. }
  pose proof (zlen_nonneg l). rewrite !zlen_app in Hlen. change (zlen [e]) with 1 in Hlen.
  destruct (observe_alarm h p w e Ht Hs1) as (p1 & w1 & -> & Ht1 & Ha); [lia|done|].
  destruct (IH (h ++ [e]) p1 w1 Ht1 Hs) as (p2 & w2 & E & Ht2 & Ha2); [rewrite !zlen_app; change (zlen [e]) with 1; lia|done|].
  simpl. exists p2, w2. split_and!; auto.
  destruct (alarm c start gen h e) as [k|].
  2: { destruct Ha as [-> Hb]. destruct (first_alarm _ _ _ _ _); [done|]. naive_solver. }
  destruct Ha as (Hp & Hsh & Hv). apply invalid_nonzero in Hv as Hk.
  assert (Hw1 : poison w1 <> 0) by (rewrite Hp; destruct (Z.eqb_spec (poison w) 0); done).
  destruct (first_alarm c start gen (h ++ [e]) l); [|by destruct Ha2 as [-> _]].
  destruct Ha2 as (Hp2 & ? & _). split_and!; auto. rewrite Hp2. by destruct (Z.eqb_spec (poison w1) 0).
Qed.
End equivalence.

(** ** Property *)

Lemma policy_config c start :
  let e := cfg (NewEscalationPolicy c start) in 0 < RateWindow e /\ 0 < RateThreshold e.
Proof.
  simpl. unfold DefaultSustainedRateWindow, DefaultSustainedRateThreshold.
  destruct (Z.leb_spec (RateWindow c) 0), (Z.leb_spec (RateThreshold c) 0); lia.
Qed.

(** The escalation policy implements its rules.  For every configuration,
    defaults filled in, and every history of stale discards, consume faults and
    deliveries whose instants do not go backwards, the policy's counters poison
    the region exactly when the rules on the history say so, with the cause of
    the first rule that applies: at once for a stamp from the future or from two
    or more generations back; at a sustained rate, counted over the window that
    ends at the discard, for late writes of the previous generation after the
    grace window; at an unbroken run of consume faults, counted from before the
    grace window but acting only after it.  Until then the region's words are
    untouched and the policy remembers fewer instants than its threshold.  The
    generation distance the rules use is exact across the 32-bit wrap. *)
Theorem escalation_matches_rules c start gen l w :
  let p := NewEscalationPolicy c start in
  StronglySorted Z.le (omap when l) -> zlen l < 2 ^ 64 -> ConsumeFaultRunThreshold c < 2 ^ 63 ->
  (exists p' w', observe_all gen l p w = Ok (p', w') /\
    match first_alarm (cfg p) start gen [] l with
    | Some k => poison w' = (if poison w =? 0 then k else poison w) /\ shutdown w' = 1 /\ invalid_cause k = false
    | None => w' = w /\ zlen (recent p') < RateThreshold (cfg p)
    end) /\
  (forall g, - 2 ^ 31 <= gen - g < 2 ^ 31 -> truncatedGenerationDelta gen (Truncated g) = gen - g).
Proof.
  intros p Hs Hl Hc. split; [|intros; by apply generation_delta_exact].
  destruct (policy_config c start) as [Hr Ht]. fold p in Hr, Ht.
  assert (Hp : tracks (cfg p) start gen [] p).
  { constructor; try done. exists 0. auto. }
  destruct (observe_all_alarm (cfg p) start gen Hr Ht l [] p w Hp) as (p' & w' & E & _ & H); auto.
  { simpl. destruct (Z.eqb_spec (ConsumeFaultRunThreshold c) 0); unfold DefaultConsumeFaultRunThreshold; lia. }
  exists p', w'. split; [done|]. destruct (first_alarm _ _ _ _ _); [done|]. destruct H as [-> H]. split; [done|].
  apply H. simpl. change (zlen []) with 0. exact Ht.
Qed.

(** Two late discards in the grace window are forgiven; then a rate of three in
    a second escalates. *)
Definition sample_config : EscalationConfig := mkEscalationConfig 100 1000 3 (-1).
Definition sample_history : list event :=
  [StaleSeen 10 6; StaleSeen 20 6; Delivered; StaleSeen 150 6; FaultSeen 160; StaleSeen 1200 6;
   StaleSeen 1210 6; StaleSeen 1220 6].
Definition healthy : words := mkWords 0 0 0 0 0 0.

Lemma escalation_matches_rules_witness :
  exists p' w', observe_all 7 sample_history (NewEscalationPolicy sample_config 0) healthy = Ok (p', w') /\
    poison w' = PoisonPeerCrash.
Proof.
  destruct (escalation_matches_rules sample_config 0 7 sample_history healthy) as [(p' & w' & E & H) _].
  - vm_compute. repeat constructor; discriminate.
  - reflexivity.
  - reflexivity.
  - exists p', w'. split; [exact E|]. exact (proj1 H).
Defined.

End Recovery.
