(* ===== verification/ShmReceive.v ===== *)
(** * The shared-memory receive path
    (recvCore, drain, consumeDescriptor and protectedConsume of
    src/internal/transport/shm/transport.go, src/internal/transport/consume.go)

    The consumer goroutine of one direction, from the wait's answer to the frame
    it returns or hands to a callback, with its counters, its escalation policy
    and every head advance.  The inbound ring, the arena and the teardown words
    are shared with the peer, which may change all of it before every access:
    the state carries a script of such changes.  The theorems: whatever the peer
    does the receiver neither panics nor breaks its consume discipline; and with
    a peer that only publishes, the frames arrive unchanged, in order, once
    each. *)

From S2P Require Import Prelude DescriptorCodec DescriptorRing RegionLayout SlabArena TransportFrame ShmFrame ShmWake ShmRecovery.
Import Layout Frames ShmFrame Wake Recovery.

Module Receive.

(** ** State *)

(** What the peer can change: the ring with its head and tail words, the arena
    and the sync-page words. *)
Record shared := mkShared { ring : Ring.Ring; arena : list Z; ws : words }.

Definition set_ring (x : Ring.Ring) (h : shared) : shared := mkShared x (arena h) (ws h).
Definition set_ws (x : words) (h : shared) : shared := mkShared (ring h) (arena h) x.

(** What the receiver does, in order: the values its final gate loaded, the
    descriptor it peeked, a reservation, a frame handed over, a discard, a head
    advance. *)
Inductive rx_event :=
| EGate (p s : Z)
| EPeek (d : Descriptor.Descriptor)
| EReserve
| EHand (f : Frame)
| EStale (stamp : Z)
| EFault (call : Z)
| EAdvance
| EProgress.

Record rx := mkRx {
  sh : shared;
  script : list (shared -> shared);
  lastSeen : Z;
  staleDiscarded : Z;
  consumeFaults : Z;
  framesReceived : Z;
  bytesReceived : Z;
  escalation : EscalationPolicy;
  clocks : list Z;
  log : list rx_event
}.

Definition eta (s : rx) : rx :=
  mkRx (sh s) (script s) (lastSeen s) (staleDiscarded s) (consumeFaults s) (framesReceived s) (bytesReceived s)
    (escalation s) (clocks s) (log s).
Definition with_sh (x : shared) (s : rx) : rx := ltac:(update_field eta s sh x).
Definition with_script (x : list (shared -> shared)) (s : rx) : rx := ltac:(update_field eta s script x).
Definition with_lastSeen (x : Z) (s : rx) : rx := ltac:(update_field eta s lastSeen x).
Definition with_staleDiscarded (x : Z) (s : rx) : rx := ltac:(update_field eta s staleDiscarded x).
Definition with_consumeFaults (x : Z) (s : rx) : rx := ltac:(update_field eta s consumeFaults x).
Definition with_framesReceived (x : Z) (s : rx) : rx := ltac:(update_field eta s framesReceived x).
Definition with_bytesReceived (x : Z) (s : rx) : rx := ltac:(update_field eta s bytesReceived x).
Definition with_escalation (x : EscalationPolicy) (s : rx) : rx := ltac:(update_field eta s escalation x).
Definition with_clocks (x : list Z) (s : rx) : rx := ltac:(update_field eta s clocks x).
Definition with_log (x : list rx_event) (s : rx) : rx := ltac:(update_field eta s log x).

(** ** Shared accesses *)

(** The peer moves, then the access happens. *)
Definition interfere : prog rx unit := fun s =>
  match script s with
  | [] => Ret s tt
  | f :: rest => Ret (with_script rest (with_sh (f (sh s)) s)) tt
  end.

Definition load {A} (f : shared -> A) : prog rx A := interfere ≫= fun _ => gets (fun s => f (sh s)).
Definition emit (e : rx_event) : prog rx unit := modify (fun s => with_log (log s ++ [e]) s).

(** [t.clock()]; a script that has run out stands still. *)
Definition clock : prog rx Z := fun s =>
  match clocks s with
  | [] => Ret s 0
  | [t] => Ret s t
  | t :: rest => Ret (with_clocks rest s) t
  end.

(** A computation on the policy and the words. *)
Definition run_policy (f : EscalationPolicy -> words -> outcome error (EscalationPolicy * words)) : prog rx unit :=
  fun s =>
    match f (escalation s) (ws (sh s)) with
    | Ok (p, w) => Ret (with_escalation p (with_sh (set_ws w (sh s)) s)) tt
    | _ => Panics
    end.
Definition escalating f : prog rx unit := interfere ≫= fun _ => run_policy f.

Definition teardownError : prog rx (option error) :=
  p ← load (fun h => poison (ws h));
  if negb (p =? 0) then mret (teardown_result p 0) else
  s ← load (fun h => shutdown (ws h));
  emit (EGate p s) ≫= fun _ => mret (teardown_result p s).

Definition advanceHead : prog rx unit :=
  interfere ≫= fun _ =>
  modify (fun s => with_log (log s ++ [EAdvance]) (with_lastSeen (u64 (lastSeen s + 1))
    (with_sh (set_ring (Ring.Advance (ring (sh s))) (sh s)) s))).

(** ** The consume callback *)

(** What a callback does with a frame: it returns an error or nil (and the
    rendering of that error may panic), or it panics itself. *)
Inductive callback_result := CbReturn (e : option error) (render_panics : bool) | CbPanic.

Definition consumeFunc := Frame -> callback_result.

Definition errPayloadMalformed : error := [Other 10].
Definition consumeFaultError : error := [ErrConsumeFault].

Inductive ConsumeDisposition := ConsumeAccepted | ConsumeMalformed | ConsumeFaulted.

(** The deferred recover keeps the blame of a callback that had named the peer
    before its error failed to render. *)
Definition ProtectedConsume (f : Frame) (consume : consumeFunc) : ConsumeDisposition * option error :=
  match consume f with
  | CbPanic => (ConsumeFaulted, Some consumeFaultError)
  | CbReturn None _ => (ConsumeAccepted, None)
  | CbReturn (Some cerr) _ =>
      if matches cerr errPayloadMalformed then (ConsumeMalformed, Some errPayloadMalformed)
      else (ConsumeFaulted, Some consumeFaultError)
  end.

Definition zero_frame : Frame := mkFrame 0 0 0 0 0 [] None 0.

Inductive consumeFault := consumeNone | consumeMalformed | consumeFaulted.

(** The bytes a frame is built from: a private copy, or a view of the arena,
    read when the frame is built. *)
Inductive span := Copied (bs : list Z) | View (off len : Z).

Section receiver.
Context (t : receiver).

Definition over (h : shared) : receiver :=
  mkReceiver (generation t) (checksum t) (chunkingActive t) (maxRecvPayload t) (inboundClasses t) (arena h).

Definition payload_span (d : Descriptor.Descriptor) (viewWanted : bool) : prog rx (outcome error span) :=
  load (fun h =>
    let! bs := payloadBytes (over h) d in
    Ok (if viewWanted && negb (has_crc d) && negb (stored_length d =? 0)
        then View (Descriptor.PayloadOffset d) (Descriptor.PayloadLength d) else Copied bs)).

Definition read_span (s : span) : prog rx (outcome error (list Z)) :=
  match s with
  | Copied bs => mret (Ok bs)
  | View off len => load (fun h => cut off (off +₆₄ len)%word (arena h))
  end.

(** A panic of the frame construction is caught by the deferred recover. *)
Definition protectedConsume (d : Descriptor.Descriptor) (tk : Z) (descriptorOnly : bool) (s : span)
    (consume : option consumeFunc) : prog rx (Frame * consumeFault * option error) :=
  bs ← read_span s;
  match (let! b := bs in frame_of_span d tk descriptorOnly b) with
  | Panic => mret (zero_frame, consumeFaulted, Some consumeFaultError)
  | Err e => mret (zero_frame, consumeMalformed, Some e)
  | Ok f =>
      match consume with
      | None => mret (f, consumeNone, None)
      | Some cb =>
          emit (EHand f) ≫= fun _ =>
          match ProtectedConsume f cb with
          | (ConsumeMalformed, e) => mret (zero_frame, consumeMalformed, Some (errBadFrame ++ default [] e))
          | (ConsumeFaulted, e) => mret (zero_frame, consumeFaulted, e)
          | (ConsumeAccepted, _) => mret (f, consumeNone, None)
          end
      end
  end.

(** A stale descriptor: counted, adjudicated and released unread. *)
Definition discard_stale (d : Descriptor.Descriptor) : prog rx (option Frame + error) :=
  modify (fun s => with_log (log s ++ [EStale (Descriptor.Generation d)])
                     (with_staleDiscarded (u64 (staleDiscarded s + 1)) s)) ≫= fun _ =>
  now ← clock;
  escalating (Observe now (Descriptor.Generation d) (generation t)) ≫= fun _ =>
  advanceHead ≫= fun _ => mret (inl None).

(** A fault this side owns: counted, adjudicated, the slot released. *)
Definition discard_faulted (d : Descriptor.Descriptor) (e : option error) : prog rx (option Frame + error) :=
  modify (fun s => with_log (log s ++ [EFault (Descriptor.CallID d)])
                     (with_consumeFaults (u64 (consumeFaults s + 1)) s)) ≫= fun _ =>
  now ← clock;
  escalating (ObserveConsumeFault now) ≫= fun _ =>
  advanceHead ≫= fun _ => mret (inr (default [] e)).

(** A frame consumed: reserved if it is returned, released, counted. *)
Definition deliver (d : Descriptor.Descriptor) (f : Frame) (reserve view : bool) : prog rx (option Frame + error) :=
  (if reserve && negb view then emit EReserve else mret tt) ≫= fun _ =>
  (if view then mret tt else emit (EHand f)) ≫= fun _ =>
  advanceHead ≫= fun _ =>
  modify (fun s => with_log (log s ++ [EProgress]) (with_framesReceived (u64 (framesReceived s + 1))
    (with_bytesReceived (u64 (bytesReceived s + (DescriptorSize + Descriptor.PayloadLength d)))
      (with_escalation (ObserveConsumeSuccess (escalation s)) s)))) ≫= fun _ =>
  mret (inl (Some (if view then zero_frame else f))).

(** From the final gate on, with the payload in hand. *)
Definition hand_over (d : Descriptor.Descriptor) (tk : Z) (descriptorOnly : bool) (sp : span) (reserve : bool)
    (consume : option consumeFunc) : prog rx (option Frame + error) :=
  let view := bool_decide (is_Some consume) in
  gate ← teardownError;
  match gate with
  | Some e => mret (inr e)
  | None =>
      (if reserve && view then emit EReserve else mret tt) ≫= fun _ =>
      r ← protectedConsume d tk descriptorOnly sp consume;
      match r with
      | (_, consumeMalformed, e) => mret (inr (default [] e))
      | (_, consumeFaulted, e) => discard_faulted d e
      | (f, consumeNone, _) => deliver d f reserve view
      end
  end.

(** [None]: discarded; [Some f]: delivered, [f] being the zero frame when a
    callback took it. *)
Definition consumeDescriptor (d : Descriptor.Descriptor) (reserve : bool) (consume : option consumeFunc)
  : prog rx (option Frame + error) :=
  if discardIfStale d (generation t) then discard_stale d else
  match classify t d with
  | inr e => mret (inr e)
  | inl (tk, descriptorOnly) =>
      sp ← (if descriptorOnly then mret (Ok (Copied [])) else payload_span d (bool_decide (is_Some consume)));
      match sp with
      | Panic => panic
      | Err e => mret (inr e)
      | Ok sp => hand_over d tk descriptorOnly sp reserve consume
      end
  end.

(** [body] at most [n] times, until it gives an answer. *)
Fixpoint iter_pos {S A} (body : prog S (option A)) (n : positive) : prog S (option A) :=
  match n with
  | xH => body
  | xO n => iter_pos body n ≫= fun r => match r with Some _ => mret r | None => iter_pos body n end
  | xI n =>
      body ≫= fun r =>
      match r with
      | Some _ => mret r
      | None => iter_pos body n ≫= fun r => match r with Some _ => mret r | None => iter_pos body n end
      end
  end.

(** One turn of the drain loop; [None] goes round again. *)
Definition drain_turn (newTail : Z) (reserve : bool) (consume : option consumeFunc)
  : prog rx (option (option Frame + error)) :=
  seen ← gets lastSeen;
  if seen =? newTail then mret (Some (inl None)) else
  gate ← teardownError;
  match gate with
  | Some e => mret (Some (inr e))
  | None =>
      peeked ← load (fun h => Ring.Peek (ring h));
      match peeked with
      | Ok (_, Ring.PeekCorrupt) => mret (Some (inr errRingCorrupt))
      | Ok (_, Ring.PeekEmpty) => mret (Some (inl None))
      | Ok (d, Ring.PeekOK) =>
          emit (EPeek d) ≫= fun _ =>
          r ← consumeDescriptor d reserve consume;
          match r with
          | inr e => mret (Some (inr e))
          | inl (Some f) => mret (Some (inl (Some f)))
          | inl None => mret None
          end
      | _ => panic
      end
  end.

(** Every turn that goes round moves [lastSeen] by one, so the distance to
    [newTail] bounds the loop. *)
Definition drain (newTail : Z) (reserve : bool) (consume : option consumeFunc)
  : prog rx (option Frame + error) :=
  seen ← gets lastSeen;
  match (newTail -₆₄ seen)%word with
  | Zpos n => r ← iter_pos (drain_turn newTail reserve consume) n; mret (default (inl None) r)
  | _ => mret (inl None)
  end.

Definition poisonOnConformanceFault (e : error) : prog rx error :=
  match faultToPoisonCause e with
  | None => mret e
  | Some c =>
      escalating (fun p w => let! (w, _) := Set_ c w in Ok (p, w)) ≫= fun _ => mret (markPoisoned e)
  end.

(** [waits]: the answers of the waiter; when they have run out the receiver is
    still waiting. *)
Fixpoint recvCore (waits : list wait_result) (reserve : bool) (consume : option consumeFunc)
  : prog rx (Frame + error) :=
  match waits with
  | [] => Prelude.park
  | WShutdown :: _ => e ← teardownError; mret (match e with Some e => inr e | None => inl zero_frame end)
  | WCtx :: _ => mret (inr [CtxCanceled])
  | WReadError :: _ => mret (inr [Other 11])
  | WTail newTail :: waits =>
      r ← drain newTail reserve consume;
      match r with
      | inr e => e ← poisonOnConformanceFault e; mret (inr e)
      | inl (Some f) => mret (inl f)
      | inl None => recvCore waits reserve consume
      end
  end.

(** The entry points, under the closing gate. *)
Definition recv (closed : bool) (waits : list wait_result) (reserve : bool) (consume : option consumeFunc)
  : prog rx (Frame + error) :=
  if closed then mret (inr [ErrClosed]) else recvCore waits reserve consume.

Definition Recv (closed : bool) (waits : list wait_result) : prog rx (Frame + error) := recv closed waits false None.
Definition RecvReserving (closed : bool) (waits : list wait_result) : prog rx (Frame + error) :=
  recv closed waits true None.
Definition errNilConsume : error := [Other 12].
Definition RecvViewConsumeReserving (closed : bool) (waits : list wait_result) (reserve : bool)
    (consume : option consumeFunc) : prog rx (option error) :=
  match consume with
  | None => mret (Some errNilConsume)
  | Some _ =>
      r ← recv closed waits reserve consume;
      mret (match r with inl _ => None | inr e => Some e end)
  end.

End receiver.

(** ** Invariant against any peer *)

Section hostile.
Context (t : receiver).

(** What no peer can change: the mapping's size and the ring's configuration.
    Its words and bytes may be anything. *)
Record shape (h : shared) : Prop := {
  sp_ring : Ring.config_ok (ring h);
  sp_head : is_u64 (Ring.head (ring h));
  sp_tail : is_u64 (Ring.tail (ring h));
  sp_slots : Forall Descriptor.wf (Ring.slots (ring h));
  sp_arena : receiver_ok (over t h)
}.

Record rx_ok (s : rx) : Prop := {
  ok_shape : shape (sh s);
  ok_script : Forall (fun f => forall h, shape h -> shape (f h)) (script s);
  ok_seen : is_u64 (lastSeen s);
  ok_counts : is_u64 (staleDiscarded s) /\ is_u64 (consumeFaults s) /\ is_u64 (framesReceived s)
}.

Definition tally (p : rx_event -> bool) (tr : list rx_event) : Z := zlen (List.filter p tr).
Definition is_advance e := match e with EAdvance => true | _ => false end.
Definition is_stale e := match e with EStale _ => true | _ => false end.
Definition is_fault e := match e with EFault _ => true | _ => false end.
Definition is_progress e := match e with EProgress => true | _ => false end.

(** The counters move exactly with the events. *)
Record effect (s : rx) (tr : list rx_event) (s' : rx) : Prop := {
  ef_log : log s' = log s ++ tr;
  ef_ok : rx_ok s';
  ef_seen : lastSeen s' = u64 (lastSeen s + tally is_advance tr);
  ef_stale : staleDiscarded s' = u64 (staleDiscarded s + tally is_stale tr);
  ef_faults : consumeFaults s' = u64 (consumeFaults s + tally is_fault tr);
  ef_frames : framesReceived s' = u64 (framesReceived s + tally is_progress tr)
}.

Lemma tally_app p tr tr' : tally p (tr ++ tr') = tally p tr + tally p tr'.
Proof. unfold tally. by rewrite List.filter_app, zlen_app. Qed.

Lemma effect_refl s : rx_ok s -> effect s [] s.
Proof.
  intros Hs. destruct (Hs) as [_ _ Hn (Ha & Hb & Hc)].
  constructor; rewrite ?app_nil_r; auto; change (tally _ []) with 0; rewrite Z.add_0_r, u64_id; auto.
Qed.

Lemma effect_trans s tr1 s1 tr2 s2 : effect s tr1 s1 -> effect s1 tr2 s2 -> effect s (tr1 ++ tr2) s2.
Proof.
  intros [] []. constructor; auto.
  - rewrite ef_log1, ef_log0. by rewrite app_assoc.
  - rewrite ef_seen1, ef_seen0, u64_add_l, tally_app. f_equal. lia.
  - rewrite ef_stale1, ef_stale0, u64_add_l, tally_app. f_equal. lia.
  - rewrite ef_faults1, ef_faults0, u64_add_l, tally_app. f_equal. lia.
  - rewrite ef_frames1, ef_frames0, u64_add_l, tally_app. f_equal. lia.
Qed.

Lemma effect_snoc s tr s1 tr2 s2 : effect s tr s1 -> (rx_ok s1 -> effect s1 tr2 s2) -> effect s (tr ++ tr2) s2.
Proof. intros H1 H2. eapply effect_trans; [done|]. apply H2, H1. Qed.

(** A change that leaves the counters and the log alone. *)
Lemma effect_quiet s s' :
  rx_ok s -> rx_ok s' -> log s' = log s -> lastSeen s' = lastSeen s -> staleDiscarded s' = staleDiscarded s ->
  consumeFaults s' = consumeFaults s -> framesReceived s' = framesReceived s -> effect s [] s'.
Proof.
  intros Hs Hs' E1 E2 E3 E4 E5. destruct (effect_refl s Hs). constructor; congruence.
Qed.

Lemma wp_interfere Q s :
  rx_ok s -> (forall s', effect s [] s' -> Q tt s') -> wp interfere Q s.
Proof.
  intros Hs HQ. unfold wp, interfere. destruct (script s) as [|f rest] eqn:E; apply HQ; [by apply effect_refl|].
  destruct (Hs) as [H1 H2 H3 H4]. rewrite E in H2. apply Forall_cons in H2 as [Hf H2].
  apply effect_quiet; try done. constructor; simpl; auto.
Qed.

Lemma wp_load {A} (f : shared -> A) Q s :
  rx_ok s -> (forall s', effect s [] s' -> Q (f (sh s')) s') -> wp (load f) Q s.
Proof. intros Hs HQ. apply wp_bind, wp_interfere; [done|]. intros s' He. apply wp_gets, HQ, He. Qed.

Lemma wp_emit e Q s :
  rx_ok s -> is_advance e = false -> is_stale e = false -> is_fault e = false -> is_progress e = false ->
  (forall s', effect s [e] s' -> Q tt s') -> wp (emit e) Q s.
Proof.
  intros Hs H1 H2 H3 H4 HQ. apply wp_modify, HQ. destruct (effect_refl s Hs).
  constructor; simpl; auto.
  - by destruct Hs.
  - unfold tally. simpl. by rewrite H1.
  - unfold tally. simpl. by rewrite H2.
  - unfold tally. simpl. by rewrite H3.
  - unfold tally. simpl. by rewrite H4.
Qed.

Lemma wp_clock Q s : rx_ok s -> (forall n s', effect s [] s' -> Q n s') -> wp clock Q s.
Proof.
  intros Hs HQ. unfold wp, clock. destruct (clocks s) as [|c [|c' rest]]; apply HQ; try by apply effect_refl.
  apply effect_quiet; try done. by destruct Hs.
Qed.

Lemma wp_escalating f Q s :
  rx_ok s -> (forall p w, exists p' w', f p w = Ok (p', w')) ->
  (forall s' p w, effect s [] s' -> f p w = Ok (escalation s', ws (sh s')) -> Q tt s') ->
  wp (escalating f) Q s.
Proof.
  intros Hs Hf HQ. apply wp_bind, wp_interfere; [done|]. intros s1 He. unfold wp, run_policy.
  destruct (Hf (escalation s1) (ws (sh s1))) as (p' & w' & E). rewrite E.
  apply (HQ _ (escalation s1) (ws (sh s1))); [|by rewrite E].
  apply (effect_trans s [] s1 []); [done|]. destruct (ef_ok _ _ _ He) as [[] ? ? ?].
  by apply effect_quiet.
Qed.

Lemma shape_advance h : shape h -> shape (set_ring (Ring.Advance (ring h)) h).
Proof.
  intros []. constructor; simpl; auto; [|apply u64_range].
  by destruct sp_ring0.
Qed.

Lemma wp_advanceHead Q s : rx_ok s -> (forall s', effect s [EAdvance] s' -> Q tt s') -> wp advanceHead Q s.
Proof.
  intros Hs HQ. apply wp_bind, wp_interfere; [done|]. intros s1 He. apply wp_modify, HQ.
  apply (effect_trans s [] s1 [EAdvance]); [done|]. destruct (ef_ok _ _ _ He) as [H1 H2 H3 H4].
  destruct (effect_refl s1 (ef_ok _ _ _ He)).
  constructor; simpl; auto. constructor; simpl; auto using shape_advance, u64_range.
Qed.

(** The gate: closed, or its two loads are in the log. *)
Definition gate_trace (g : option error) (tr : list rx_event) : Prop :=
  match g with
  | None => tr = [EGate 0 0]
  | Some e => e = errPoisoned /\ tr = [] \/ e = [ErrClosed] /\ exists s, s <> 0 /\ tr = [EGate 0 s]
  end.

Lemma wp_teardownError Q s :
  rx_ok s -> (forall g tr s', gate_trace g tr -> effect s tr s' -> Q g s') -> wp teardownError Q s.
Proof.
  intros Hs HQ. apply wp_bind, wp_load; [done|]. intros s1 H1. unfold teardown_result.
  destruct (Z.eqb_spec (poison (ws (sh s1))) 0) as [E|E]; cbn [negb].
  2: { apply wp_ret, (HQ _ []); [by left|done]. }
  apply wp_bind, wp_load; [apply H1|]. intros s2 H2.
  apply wp_bind, wp_emit; try done; [apply H2|]. intros s3 H3. apply wp_ret. rewrite E in *.
  apply (HQ _ [EGate 0 (shutdown (ws (sh s2)))]).
  - destruct (Z.eqb_spec (shutdown (ws (sh s2))) 0) as [->|Hne]; [done|]. right. eauto.
  - change [EGate 0 (shutdown (ws (sh s2)))] with ([] ++ ([] ++ [EGate 0 (shutdown (ws (sh s2)))])).
    eauto using effect_trans.
Qed.


(** ** The consume discipline *)

(** What any delivered frame satisfies, whoever wrote it. *)
Definition acceptable (f : Frame) : Prop :=
  (exists only, unmapKind (Kind f) (chunkingActive t) = Some (Kind f, only)) /\ 0 <= Budget f /\
  (Payload f = [] \/ zlen (Payload f) <= maxRecvPayload t).

Definition reserved (b : bool) : list rx_event := if b then [EReserve] else [].

(** Where the bytes of a frame come from: nowhere for a kind without a payload;
    otherwise they passed every check of [payloadBytes] on the arena of some
    moment, or, for a view, which carries no checksum, they are the descriptor's
    own span of the arena when it was read. *)
Definition read_from (d : Descriptor.Descriptor) (only : bool) (bs : list Z) : Prop :=
  if only then bs = [] else
  exists h, shape h /\
    (payloadBytes (over t h) d = Ok bs \/
     has_crc d = false /\
     cut (Descriptor.PayloadOffset d) (Descriptor.PayloadOffset d +₆₄ Descriptor.PayloadLength d)%word (arena h) = Ok bs).

(** [f] is the frame of the descriptor [d]. *)
Definition frame_from (d : Descriptor.Descriptor) (f : Frame) : Prop :=
  acceptable f /\ exists tk only bs, classify t d = inl (tk, only) /\ read_from d only bs /\ frame_of_span d tk only bs = Ok f.

Definition current (d : Descriptor.Descriptor) : Prop := Descriptor.Generation d = Truncated (generation t).

(** What the callback makes of the frame: without one it is taken. *)
Definition verdict (consume : option consumeFunc) (f : Frame) (disp : ConsumeDisposition) : Prop :=
  match consume with
  | None => disp = ConsumeAccepted
  | Some cb =>
      match disp with
      | ConsumeAccepted => exists r, cb f = CbReturn None r
      | ConsumeMalformed => exists e r, cb f = CbReturn (Some e) r /\ matches e errPayloadMalformed = true
      | ConsumeFaulted => cb f = CbPanic \/ exists e r, cb f = CbReturn (Some e) r /\ matches e errPayloadMalformed = false
      end
  end.

Notation viewing consume := (bool_decide (is_Some consume)).

(** The events of one peeked descriptor [d] and its result.  It is discarded
    exactly when its stamp is not the region's generation; only a stale discard,
    a fault of this side's own and a delivery advance the head, each once and
    last; a frame is handed over only after the gate read both words as zero and
    after its reservation. *)
Inductive attempt (reserve : bool) (consume : option consumeFunc) (d : Descriptor.Descriptor) : list rx_event -> option Frame + error -> Prop :=
| at_stale : ~ current d -> attempt reserve consume d [EStale (Descriptor.Generation d); EAdvance] (inl None)
| at_illegal e : current d -> classify t d = inr e -> e = errBadFrame \/ e = errChecksum -> attempt reserve consume d [] (inr e)
| at_unreadable e tk h : current d -> classify t d = inl (tk, false) -> shape h -> payloadBytes (over t h) d = Err e ->
    e = errBadFrame \/ e = errChecksum -> attempt reserve consume d [] (inr e)
| at_torn_down e tr : current d -> gate_trace (Some e) tr -> attempt reserve consume d tr (inr e)
| at_undecodable tk only bs : current d -> classify t d = inl (tk, only) -> read_from d only bs ->
    frame_of_span d tk only bs = Err errBadFrame ->
    attempt reserve consume d ([EGate 0 0] ++ reserved (reserve && viewing consume)) (inr errBadFrame)
| at_malformed f : current d -> is_Some consume -> frame_from d f -> verdict consume f ConsumeMalformed ->
    attempt reserve consume d ([EGate 0 0] ++ reserved reserve ++ [EHand f]) (inr (errBadFrame ++ errPayloadMalformed))
| at_faulted f : current d -> is_Some consume -> frame_from d f -> verdict consume f ConsumeFaulted ->
    attempt reserve consume d ([EGate 0 0] ++ reserved reserve ++ [EHand f; EFault (CallID f); EAdvance])
      (inr consumeFaultError)
| at_delivered f : current d -> frame_from d f -> verdict consume f ConsumeAccepted ->
    attempt reserve consume d ([EGate 0 0] ++ reserved reserve ++ [EHand f; EAdvance; EProgress])
      (inl (Some (if viewing consume then zero_frame else f))).

Lemma unmap_fixed k k' o : unmapKind k (chunkingActive t) = Some (k', o) -> k' = k.
Proof. unfold unmapKind. intros H. repeat case_match; simplify_eq; bool_to_prop; subst; done. Qed.

Lemma classify_facts d tk only :
  classify t d = inl (tk, only) ->
  unmapKind tk (chunkingActive t) = Some (tk, only) /\ 0 <= Descriptor.BudgetNS d.
Proof.
  unfold classify. intros H.
  destruct (unmapKind (Descriptor.Kind d) (chunkingActive t)) as [[k o]|] eqn:Hu; [|repeat case_match; discriminate].
  pose proof (unmap_fixed _ _ _ Hu) as ->.
  repeat case_match; simplify_eq; bool_to_prop; split; auto; lia.
Qed.

Lemma frame_spec d tk only bs :
  classify t d = inl (tk, only) -> Forall is_byte bs -> bs = [] \/ zlen bs <= maxRecvPayload t ->
  match frame_of_span d tk only bs with
  | Ok f => acceptable f /\ CallID f = Descriptor.CallID d
  | Err e => e = errBadFrame
  | Panic => False
  end.
Proof.
  intros Hc Hb Hl. apply classify_facts in Hc as [Hk Hbud]. unfold frame_of_span, acceptable. destruct only.
  { simpl. split_and!; eauto; lia. }
  unfold decodedFrame. destruct (CarriesStatusBody tk).
  - pose proof (decode_status_spec bs Hb). destruct (DecodeStatus bs); simpl; auto. split_and!; eauto.
  - simpl. split_and!; eauto.
Qed.

(** The bytes a span gives, now or later, are a payload of legal length. *)
Definition span_ok (d : Descriptor.Descriptor) (only : bool) (sp : span) : Prop :=
  match sp with
  | Copied bs => Forall is_byte bs /\ (bs = [] \/ zlen bs <= maxRecvPayload t) /\ read_from d only bs
  | View off len => 0 <= off /\ 0 <= len <= maxRecvPayload t /\
      (forall h, shape h -> off + len <= zlen (arena h)) /\
      only = false /\ has_crc d = false /\ off = Descriptor.PayloadOffset d /\ len = Descriptor.PayloadLength d
  end.

Lemma wp_payload_span d view Q s :
  rx_ok s -> Descriptor.wf d ->
  (forall e h s', effect s [] s' -> shape h -> payloadBytes (over t h) d = Err e -> e = errBadFrame \/ e = errChecksum -> Q (Err e) s') ->
  (forall sp s', effect s [] s' -> span_ok d false sp -> Q (Ok sp) s') ->
  wp (payload_span t d view) Q s.
Proof.
  intros Hs Hd He Ho. apply wp_load; [done|]. intros s' Hef.
  pose proof (ok_shape _ (ef_ok _ _ _ Hef)) as Hsh.
  pose proof (payloadBytes_spec (over t (sh s')) d (sp_arena _ Hsh) Hd) as Hp.
  destruct (payloadBytes _ d) as [bs|e|] eqn:Epb; cbn [obind]; [|by eapply He|done].
  apply Ho; [done|]. destruct Hp as (Hlen & Hb & Hread).
  destruct (view && negb (has_crc d) && negb (stored_length d =? 0)) eqn:Hv; simpl.
  - bool_to_prop. destruct Hread as [[_ ?]|(_ & Hn & Hmax & _)]; [done|]. destruct (field_u32 d Hd) as [[? _] [? _]].
    split_and!; auto. intros h Hh. destruct Hn as (ci & c & i & Hn).
    destruct (names_slab_inside (over t h) _ _ _ _ _ (sp_arena _ Hh) Hn) as [_ Hin].
    unfold stored_length in Hin. replace (has_crc d) with false in Hin. simpl in Hin. lia.
  - split; [done|]. split; [|by exists (sh s'); auto].
    destruct Hread as [[? _]|(_ & _ & Hm & _)]; [by left|]. right. simpl in Hm. lia.
Qed.

Lemma wp_read_span d only sp Q s :
  rx_ok s -> span_ok d only sp ->
  (forall bs s', effect s [] s' -> Forall is_byte bs -> bs = [] \/ zlen bs <= maxRecvPayload t -> read_from d only bs -> Q (Ok bs) s') ->
  wp (read_span sp) Q s.
Proof.
  intros Hs Hok HQ. destruct sp as [bs|off len]; simpl in *.
  - destruct Hok as (? & ? & ?). apply wp_ret, HQ; auto. by apply effect_refl.
  - destruct Hok as (Ho & Hl & Hin & -> & Hcrc & Eo & El). apply wp_load; [done|]. intros s' Hef.
    pose proof (ok_shape _ (ef_ok _ _ _ Hef)) as Hsh. specialize (Hin _ Hsh).
    destruct (sp_arena _ Hsh) as [_ [_ Hsp] Hby]. simpl in *. unfold MaxUint32 in *.
    assert (Ecut : cut off (off +₆₄ len)%word (arena (sh s')) = Ok (sub_bytes (Z.to_nat off) (Z.to_nat len) (arena (sh s')))).
    { rewrite u64_id by (unfold is_u64; lia). unfold cut. rewrite slice_in_range by lia. do 2 f_equal; lia. }
    rewrite Ecut. apply HQ; auto with styx.
    + right. unfold zlen. rewrite length_sub_bytes; unfold zlen in *; lia.
    + exists (sh s'). split; [done|]. right. split; [done|]. by rewrite <- Eo, <- El.
Qed.

(** The barrier around the callback. *)
Lemma wp_protectedConsume d tk only sp consume Q s :
  rx_ok s -> classify t d = inl (tk, only) -> span_ok d only sp ->
  (forall bs s', effect s [] s' -> read_from d only bs -> frame_of_span d tk only bs = Err errBadFrame ->
     Q (zero_frame, consumeMalformed, Some errBadFrame) s') ->
  (forall f s', effect s [] s' -> frame_from d f -> consume = None -> Q (f, consumeNone, None) s') ->
  (forall f s', effect s [EHand f] s' -> frame_from d f -> CallID f = Descriptor.CallID d -> is_Some consume ->
     (verdict consume f ConsumeMalformed -> Q (zero_frame, consumeMalformed, Some (errBadFrame ++ errPayloadMalformed)) s') /\
     (verdict consume f ConsumeFaulted -> Q (zero_frame, consumeFaulted, Some consumeFaultError) s') /\
     (verdict consume f ConsumeAccepted -> Q (f, consumeNone, None) s')) ->
  wp (protectedConsume d tk only sp consume) Q s.
Proof.
  intros Hs Hc Hsp Hbad Hcopy Hview. apply wp_bind, (wp_read_span d only); [done..|]. intros bs s1 He Hb Hl Hrd. cbn [obind].
  pose proof (frame_spec d tk only bs Hc Hb Hl) as Hf.
  destruct (frame_of_span d tk only bs) as [f|e|] eqn:Ef; [|subst; by eapply wp_ret, Hbad|done]. destruct Hf as [Ha' Hid].
  assert (Ha : frame_from d f) by (split; [done|by exists tk, only, bs]).
  destruct consume as [cb|]; [|by apply wp_ret, Hcopy].
  apply wp_bind, wp_emit; try done; [apply He|]. intros s2 He2.
  destruct (Hview f s2 (effect_trans _ [] _ _ _ He He2) Ha Hid ltac:(eauto)) as (H1 & H2 & H3).
  unfold ProtectedConsume. cbn [verdict] in *. destruct (cb f) as [[cerr|] r|] eqn:Ecb; [destruct (matches cerr errPayloadMalformed) eqn:Em| |];
    apply wp_ret; [apply H1|apply H2|apply H3|apply H2]; eauto.
Qed.

Lemma wp_maybe_reserve (b : bool) Q s :
  rx_ok s -> (forall s', effect s (reserved b) s' -> Q tt s') -> wp (if b then emit EReserve else mret tt) Q s.
Proof. intros Hs HQ. destruct b; [by apply wp_emit|]. by apply wp_ret, HQ, effect_refl. Qed.

Lemma observe_total e p w : exists p' w', observe (generation t) e p w = Ok (p', w').
Proof.
  assert (He : forall k, invalid_cause k = false -> exists w', escalate k w = Ok w').
  { intros k Hk. destruct (escalate_ok k w Hk) as (w' & E & _). eauto. }
  destruct (He PoisonPeerCrash eq_refl) as (w1 & E1), (He PoisonGeneric eq_refl) as (w2 & E2).
  destruct e as [now stamp|now|]; simpl; unfold Observe, ObserveConsumeFault; rewrite ?E1, ?E2; cbn [obind];
    repeat case_match; simplify_eq; eauto.
Qed.


(** The trace and result that extend the events [pre] seen so far. *)
Definition ends (d : Descriptor.Descriptor) (s : rx) (reserve : bool) (consume : option consumeFunc) (r : option Frame + error) (s' : rx) : Prop :=
  exists tr, effect s tr s' /\ attempt reserve consume d tr r.

Lemma wp_discard_stale d reserve consume s :
  rx_ok s -> Descriptor.Generation d <> Truncated (generation t) ->
  wp (discard_stale t d) (ends d s reserve consume) s.
Proof.
  intros Hs Hg. apply wp_bind, wp_modify. set (s1 := with_log _ _).
  assert (H1 : effect s [EStale (Descriptor.Generation d)] s1).
  { destruct (effect_refl s Hs), Hs. constructor; simpl; auto. constructor; simpl; auto.
    destruct ok_counts0 as (? & ? & ?). split_and!; auto using u64_range. }
  apply wp_bind, wp_clock; [apply H1|]. intros now s2 H2.
  apply wp_bind, wp_escalating; [apply H2|intros; apply (observe_total (StaleSeen _ _))|]. intros s3 _ _ H3 _.
  apply wp_bind, wp_advanceHead; [apply H3|]. intros s4 H4. apply wp_ret.
  exists [EStale (Descriptor.Generation d); EAdvance]. split; [|by constructor].
  apply (effect_trans _ [_] s1 [EAdvance]); [done|]. apply (effect_trans _ [] s2 [EAdvance]); [done|].
  by apply (effect_trans _ [] s3 [EAdvance]).
Qed.

Lemma wp_discard_faulted d e Q s :
  rx_ok s ->
  (forall s', effect s [EFault (Descriptor.CallID d); EAdvance] s' -> Q (inr (default [] e)) s') ->
  wp (discard_faulted d e) Q s.
Proof.
  intros Hs HQ. apply wp_bind, wp_modify. set (s1 := with_log _ _).
  assert (H1 : effect s [EFault (Descriptor.CallID d)] s1).
  { destruct (effect_refl s Hs), Hs. constructor; simpl; auto. constructor; simpl; auto.
    destruct ok_counts0 as (? & ? & ?). split_and!; auto using u64_range. }
  apply wp_bind, wp_clock; [apply H1|]. intros now s2 H2.
  apply wp_bind, wp_escalating; [apply H2|intros; apply (observe_total (FaultSeen _))|]. intros s3 _ _ H3 _.
  apply wp_bind, wp_advanceHead; [apply H3|]. intros s4 H4. apply wp_ret, HQ.
  apply (effect_trans _ [_] s1 [EAdvance]); [done|]. apply (effect_trans _ [] s2 [EAdvance]); [done|].
  by apply (effect_trans _ [] s3 [EAdvance]).
Qed.

Lemma wp_deliver d f reserve view Q s :
  rx_ok s ->
  (forall s', effect s (reserved (reserve && negb view) ++ (if view then [] else [EHand f]) ++ [EAdvance; EProgress]) s' ->
     Q (inl (Some (if view then zero_frame else f))) s') ->
  wp (deliver d f reserve view) Q s.
Proof.
  intros Hs HQ. apply wp_bind, wp_maybe_reserve; [done|]. intros s1 H1.
  assert (Hh : forall Q', (forall s2, effect s1 (if view then [] else [EHand f]) s2 -> Q' tt s2) ->
    wp (if view then mret tt else emit (EHand f)) Q' s1).
  { intros Q' H. destruct view; [apply wp_ret, H, effect_refl, H1|]. apply wp_emit; try done. apply H1. }
  apply wp_bind, Hh. intros s2 H2. apply wp_bind, wp_advanceHead; [apply H2|]. intros s3 H3.
  apply wp_bind, wp_modify, wp_ret, HQ. eapply effect_trans; [exact H1|]. eapply effect_trans; [exact H2|].
  apply (effect_trans _ [EAdvance] s3 [EProgress]); [done|].
  pose proof (ef_ok _ _ _ H3) as Hok. destruct (effect_refl s3 Hok), Hok.
  constructor; simpl; auto. constructor; simpl; auto.
  destruct ok_counts0 as (? & ? & ?). split_and!; auto using u64_range.
Qed.

Lemma wp_hand_over d tk only sp reserve consume s :
  rx_ok s -> current d -> classify t d = inl (tk, only) -> span_ok d only sp ->
  wp (hand_over d tk only sp reserve consume) (ends d s reserve consume) s.
Proof.
  intros Hs Hcur Hc Hsp. unfold hand_over. set (view := bool_decide (is_Some consume)).
  apply wp_bind, wp_teardownError; [done|]. intros g tr s1 Hg H1. destruct g as [e|].
  { apply wp_ret. exists tr. split; [done|by constructor]. }
  simpl in Hg. subst tr. apply wp_bind, wp_maybe_reserve; [apply H1|]. intros s2 H2.
  pose proof (effect_trans _ _ _ _ _ H1 H2) as H12.
  apply wp_bind, (wp_protectedConsume d tk only sp consume); [apply H2|done|done|..].
  - intros bs s3 H3 Hrd Hbad. apply wp_ret. eexists. split; [eapply effect_trans; [exact H12|exact H3]|].
    rewrite app_nil_r. by eapply at_undecodable.
  - intros f s3 H3 Ha Hn. assert (Hv : view = false) by (unfold view; by rewrite Hn).
    subst consume. rewrite Hv in *.
    apply wp_deliver; [apply H3|]. intros s4 H4. eexists. split; [eapply effect_trans; [exact H12|]; eapply effect_trans; [exact H3|exact H4]|].
    rewrite andb_false_r, andb_true_r. simpl. by apply (at_delivered _ None d f).
  - intros f s3 H3 Ha Hid Hsome. assert (Hv : view = true) by (unfold view; by rewrite bool_decide_eq_true_2). rewrite Hv in *.
    rewrite andb_true_r in *. pose proof (effect_trans _ _ _ _ _ H12 H3) as H13. rewrite <- app_assoc in H13. split_and!.
    + intros Hvd. apply wp_ret. eexists. split; [exact H13|]. by apply at_malformed.
    + intros Hvd. apply wp_discard_faulted; [apply H3|]. intros s4 H4. eexists.
      split; [eapply effect_trans; [exact H13|exact H4]|]. rewrite <- !app_assoc, <- Hid. by apply at_faulted.
    + intros Hvd. apply wp_deliver; [apply H3|]. intros s4 H4. eexists.
      split; [eapply effect_trans; [exact H13|exact H4]|]. rewrite andb_false_r, <- !app_assoc.
      pose proof (at_delivered reserve consume d f) as Hd. fold view in Hd. rewrite Hv in Hd. by apply Hd.
Qed.

Lemma wp_consumeDescriptor d reserve consume s :
  rx_ok s -> Descriptor.wf d ->
  wp (consumeDescriptor t d reserve consume) (ends d s reserve consume) s.
Proof.
  intros Hs Hd. unfold consumeDescriptor. destruct (discardIfStale d (generation t)) eqn:Hst.
  { apply wp_discard_stale; [done|]. unfold discardIfStale, Stale in Hst. bool_to_prop. congruence. }
  assert (Hcur : current d) by (unfold current; unfold discardIfStale, Stale in Hst; by bool_to_prop).
  destruct (classify t d) as [[tk only]|e] eqn:Hc.
  2: { apply wp_ret. exists []. split; [by apply effect_refl|]. apply at_illegal; [done|done|].
       unfold classify in Hc. repeat case_match; simplify_eq; auto. }
  assert (Hend : forall sp s1, effect s [] s1 -> span_ok d only sp ->
    wp (hand_over d tk only sp reserve consume) (ends d s reserve consume) s1).
  { intros sp s1 H1 Hsp. eapply wp_mono; [apply wp_hand_over; [apply H1|done..]|].
    intros r s2 (tr & H2 & Ha). exists tr. split; [|done]. by apply (effect_trans _ [] s1). }
  apply wp_bind. destruct only.
  { apply wp_ret, Hend; [by apply effect_refl|]. simpl. split_and!; auto. }
  apply wp_payload_span; [done|done| |].
  - intros e h s1 H1 Hh Hpb He. apply wp_ret. exists []. split; [done|]. by eapply at_unreadable.
  - intros sp s1 H1 Hsp. by apply Hend.
Qed.

(** ** The drain loop *)

Lemma wp_iter_pos {S A} (body : prog S (option A)) (I : Z -> S -> Prop) (T : S -> S -> Prop) (D : S -> A -> S -> Prop) :
  (forall s1 s2 s3, T s1 s2 -> T s2 s3 -> T s1 s3) ->
  (forall s1 s2 s3 a, T s1 s2 -> D s2 a s3 -> D s1 a s3) ->
  (forall k s, 0 < k -> I k s ->
     wp body (fun r s' => match r with None => I (k - 1) s' /\ T s s' | Some a => D s a s' end) s) ->
  forall n k s, Zpos n <= k -> I k s ->
    wp (iter_pos body n) (fun r s' => match r with None => I (k - Zpos n) s' /\ T s s' | Some a => D s a s' end) s.
Proof.
  intros Htt Htd Hbody.
  assert (Hseq : forall m (k1 : Z) k s (n : positive), Zpos n <= k1 ->
    wp m (fun r s' => match r with None => I k1 s' /\ T s s' | Some a => D s a s' end) s ->
    (forall s, I k1 s -> wp (iter_pos body n)
      (fun r s' => match r with None => I (k1 - Zpos n) s' /\ T s s' | Some a => D s a s' end) s) ->
    k = k1 - Zpos n ->
    wp (m ≫= fun r => match r with Some _ => mret r | None => iter_pos body n end)
      (fun r s' => match r with None => I k s' /\ T s s' | Some a => D s a s' end) s).
  { intros m k1 k s n Hn Hm Hnext ->. apply wp_bind. eapply wp_mono; [exact Hm|]. intros [a|] s1; [done|].
    intros [Hi Ht]. eapply wp_mono; [by apply Hnext|]. intros [a|] s2; [by eauto|]. intros [? ?]. eauto. }
  induction n as [n IH|n IH|]; intros k s Hk Hi; simpl.
  - rewrite Pos2Z.inj_xI in *. apply wp_bind. eapply wp_mono; [apply (Hbody k); [lia|exact Hi]|]. intros [a|] s1; [done|]. intros [Hi1 Ht1].
    eapply wp_mono; [apply (Hseq _ (k - 1 - Zpos n) (k - 1 - Zpos n - Zpos n)); [lia|apply IH; [lia|done]|intros; apply IH; [lia|done]|done]|].
    intros [a|] s2; [by eauto|]. intros [Hi2 Ht2]. split; [|by eauto].
    by replace (k - (2 * Z.pos n + 1)) with (k - 1 - Z.pos n - Z.pos n) by lia.
  - rewrite Pos2Z.inj_xO in *. apply (Hseq _ (k - Zpos n)); [lia|apply IH; [lia|done]|intros; apply IH; [lia|done]|lia].
  - apply Hbody; [lia|done].
Qed.

(** The events and result of one drain up to [newTail] from the cursor [seen]. *)
Inductive drained (reserve : bool) (consume : option consumeFunc) (newTail : Z)
  : Z -> list rx_event -> option Frame + error -> Prop :=
| dr_done : drained reserve consume newTail newTail [] (inl None)
| dr_empty seen : seen <> newTail -> drained reserve consume newTail seen [EGate 0 0] (inl None)
| dr_corrupt seen : seen <> newTail -> drained reserve consume newTail seen [EGate 0 0] (inr errRingCorrupt)
| dr_torn_down seen e tr : seen <> newTail -> gate_trace (Some e) tr -> drained reserve consume newTail seen tr (inr e)
| dr_last seen d tr r : seen <> newTail -> attempt reserve consume d tr r -> r <> inl None ->
    drained reserve consume newTail seen (EGate 0 0 :: EPeek d :: tr) r
| dr_stale seen d tr r : seen <> newTail -> ~ current d -> drained reserve consume newTail (u64 (seen + 1)) tr r ->
    drained reserve consume newTail seen ([EGate 0 0; EPeek d; EStale (Descriptor.Generation d); EAdvance] ++ tr) r.

Inductive stales (newTail : Z) : Z -> list rx_event -> Z -> Prop :=
| stales_nil seen : stales newTail seen [] seen
| stales_cons seen d tr seen' : seen <> newTail -> ~ current d -> stales newTail (u64 (seen + 1)) tr seen' ->
    stales newTail seen ([EGate 0 0; EPeek d; EStale (Descriptor.Generation d); EAdvance] ++ tr) seen'.

Lemma stales_app newTail a b c tr tr' : stales newTail a tr b -> stales newTail b tr' c -> stales newTail a (tr ++ tr') c.
Proof. induction 1 as [|a d tr b Hne Hc _ IH]; intros H'; simpl; [done|]. apply (stales_cons newTail a d (tr ++ tr')); auto. Qed.

Lemma stales_drained reserve consume newTail a b tr tr' r :
  stales newTail a tr b -> drained reserve consume newTail b tr' r -> drained reserve consume newTail a (tr ++ tr') r.
Proof. induction 1 as [|a d tr b Hne Hc _ IH]; intros H'; simpl; [done|]. apply (dr_stale _ _ _ a d (tr ++ tr')); auto. Qed.

Lemma peek_shape h : shape h ->
  match Ring.Peek (ring h) with
  | Ok (d, Ring.PeekOK) => Descriptor.wf d
  | Ok _ => True
  | _ => False
  end.
Proof.
  intros [Hc Hh _ Hs _]. unfold Ring.Peek. destruct (Ring.peek_check _ _ _); try done.
  pose proof (Ring.slot_index_lt _ (Ring.head (ring h)) Hc) as Hlt. rewrite u64_id in Hlt by done.
  destruct (lookup_lt_is_Some_2 _ _ Hlt) as [d Hd]. rewrite Hd. rewrite Forall_lookup in Hs. eauto.
Qed.

Definition turn_done (newTail : Z) (reserve : bool) (consume : option consumeFunc) (s : rx) (r : option Frame + error) (s' : rx) : Prop :=
  exists tr, effect s tr s' /\ drained reserve consume newTail (lastSeen s) tr r.
Definition turn_stale (newTail : Z) (s s' : rx) : Prop :=
  exists tr, effect s tr s' /\ stales newTail (lastSeen s) tr (lastSeen s').

Definition distance (newTail k : Z) (s : rx) : Prop := rx_ok s /\ (newTail -₆₄ lastSeen s)%word = k.

Lemma wp_drain_turn newTail reserve consume k s :
  is_u64 newTail -> 0 < k -> distance newTail k s ->
  wp (drain_turn t newTail reserve consume)
    (fun r s' => match r with
                 | None => distance newTail (k - 1) s' /\ turn_stale newTail s s'
                 | Some r => turn_done newTail reserve consume s r s'
                 end) s.
Proof.
  intros Hn Hk [Hs Hd]. apply wp_bind, wp_gets.
  destruct (Z.eqb_spec (lastSeen s) newTail) as [E|E].
  { rewrite E, Z.sub_diag in Hd. change (u64 0) with 0 in Hd. lia. }
  apply wp_bind, wp_teardownError; [done|]. intros g tr s1 Hg H1. destruct g as [e|].
  { apply wp_ret. exists tr. split; [done|by constructor]. }
  simpl in Hg. subst tr. apply wp_bind, wp_load; [apply H1|]. intros s2 H2.
  pose proof (effect_trans _ _ _ _ _ H1 H2) as H12. simpl in H12.
  pose proof (peek_shape _ (ok_shape _ (ef_ok _ _ _ H2))) as Hp.
  destruct (Ring.Peek (ring (sh s2))) as [[d []]| |]; try done.
  - apply wp_ret. eexists. split; [exact H12|by constructor].
  - apply wp_bind, wp_emit; try done; [apply H2|]. intros s2' H2'. pose proof (effect_trans _ _ _ _ _ H12 H2') as H12'.
    apply wp_bind. eapply wp_mono; [apply wp_consumeDescriptor; [apply H2'|done]|].
    intros r s3 (tr & H3 & Ha). pose proof (effect_trans _ _ _ _ _ H12' H3) as H13.
    destruct r as [[f|]|e]; [by apply wp_ret; eexists; split; [exact H13|apply dr_last]|
      |by apply wp_ret; eexists; split; [exact H13|apply dr_last]].
    apply wp_ret. inversion Ha as [Hg| | | | | | |]; subst. split.
    + split; [apply H13|]. rewrite (ef_seen _ _ _ H13). change (tally is_advance _) with 1.
      destruct (ok_seen _ Hs), Hn. unfold u64 in *. clear -Hk. Z.to_euclidean_division_equations. lia.
    + eexists. split; [exact H13|]. apply (stales_cons _ _ d []); [done|done|]. rewrite (ef_seen _ _ _ H13). constructor.
  - apply wp_ret. eexists. split; [exact H12|by constructor].
Qed.

Lemma distance_range newTail s : 0 <= (newTail -₆₄ lastSeen s)%word.
Proof. apply u64_range. Qed.

Lemma distance_zero newTail s : is_u64 newTail -> distance newTail 0 s -> lastSeen s = newTail.
Proof.
  intros Hn [Hs Hd]. destruct (ok_seen _ Hs), Hn. unfold u64 in Hd. clear Hs. Z.to_euclidean_division_equations. lia.
Qed.

(** The distance bounds the loop: a drain that returns no frame and no error
    either found the ring empty or has consumed everything up to [newTail]. *)
Lemma wp_drain newTail reserve consume s :
  rx_ok s -> is_u64 newTail ->
  wp (drain t newTail reserve consume) (turn_done newTail reserve consume s) s.
Proof.
  intros Hs Hn. apply wp_bind, wp_gets. pose proof (distance_range newTail s) as Hr.
  destruct (newTail -₆₄ lastSeen s)%word as [|n|n] eqn:Hd; [|clear Hr|lia].
  { apply wp_ret. exists []. split; [by apply effect_refl|]. rewrite (distance_zero newTail s Hn (conj Hs Hd)). constructor. }
  apply wp_bind. eapply wp_mono.
  - apply (wp_iter_pos _ (distance newTail) (turn_stale newTail) (turn_done newTail reserve consume))
      with (k := Zpos n); [..|lia|by split].
    + intros s1 s2 s3 (tr1 & H1 & G1) (tr2 & H2 & G2). exists (tr1 ++ tr2). eauto using effect_trans, stales_app.
    + intros s1 s2 s3 r (tr1 & H1 & G1) (tr2 & H2 & G2). exists (tr1 ++ tr2). eauto using effect_trans, stales_drained.
    + intros k s1 Hk Hi. by apply wp_drain_turn.
  - intros [r|] s1; [done|]. intros [Hz (tr & H1 & Hst)]. apply wp_ret. exists tr. split; [done|]. simpl.
    rewrite <- (app_nil_r tr). eapply stales_drained; [done|]. rewrite Z.sub_diag in Hz. rewrite (distance_zero newTail s1 Hn Hz). constructor.
Qed.

(** ** One receive *)

(** An error of the drain as the caller sees it. *)
Definition surfaced (e : error) : error :=
  match faultToPoisonCause e with Some _ => markPoisoned e | None => e end.

(** The events and result of one receive with the wait's answers, from the
    cursor [seen]. *)
Inductive received (reserve : bool) (consume : option consumeFunc)
  : list wait_result -> Z -> list rx_event -> Frame + error -> Prop :=
| rc_frame newTail ws seen tr f : drained reserve consume newTail seen tr (inl (Some f)) ->
    received reserve consume (WTail newTail :: ws) seen tr (inl f)
| rc_error newTail ws seen tr e : drained reserve consume newTail seen tr (inr e) ->
    received reserve consume (WTail newTail :: ws) seen tr (inr (surfaced e))
| rc_again newTail ws seen tr tr' r : drained reserve consume newTail seen tr (inl None) ->
    received reserve consume ws (u64 (seen + tally is_advance tr)) tr' r ->
    received reserve consume (WTail newTail :: ws) seen (tr ++ tr') r
| rc_shutdown ws seen g tr : gate_trace g tr ->
    received reserve consume (WShutdown :: ws) seen tr (match g with Some e => inr e | None => inl zero_frame end)
| rc_ctx ws seen : received reserve consume (WCtx :: ws) seen [] (inr [CtxCanceled])
| rc_read ws seen : received reserve consume (WReadError :: ws) seen [] (inr [Other 11]).

Definition waits_ok (waits : list wait_result) : Prop :=
  Forall (fun w => match w with WTail n => is_u64 n | _ => True end) waits.

Lemma fault_cause_valid e c : faultToPoisonCause e = Some c -> invalid_cause c = false.
Proof. unfold faultToPoisonCause. intros H. repeat case_match; simplify_eq; done. Qed.

Definition drain_errors : list error :=
  [errRingCorrupt; errBadFrame; errChecksum; errBadFrame ++ errPayloadMalformed; consumeFaultError; errPoisoned; [ErrClosed]].

Lemma gate_errors e tr : gate_trace (Some e) tr -> e ∈ drain_errors.
Proof. intros [[-> _]|[-> _]]; unfold drain_errors; set_solver. Qed.

Lemma drained_errors reserve consume newTail seen tr e : drained reserve consume newTail seen tr (inr e) -> e ∈ drain_errors.
Proof.
  intros H. remember (inr e) as r eqn:E. revert E. induction H as [| | |seen e' tr _ Hg|seen d tr r _ Ha _|]; intros; simplify_eq; auto.
  - unfold drain_errors. set_solver.
  - by eapply gate_errors.
  - inversion Ha; subst; first [by eapply gate_errors|unfold drain_errors; set_solver].
Qed.

Lemma wp_recvCore waits reserve consume s :
  rx_ok s -> waits_ok waits ->
  wp (recvCore t waits reserve consume)
    (fun r s' => (exists tr, effect s tr s' /\ received reserve consume waits (lastSeen s) tr r) /\
       forall e, r = inr e -> Is (Some e) ErrPoisoned = true -> e = errPoisoned \/ poison (ws (sh s')) <> 0) s.
Proof.
  revert s. induction waits as [|w waits IH]; intros s Hs Hw; [done|].
  apply Forall_cons in Hw as [Hw Hws]. destruct w as [newTail| | |]; simpl.
  - apply wp_bind. eapply wp_mono; [by apply wp_drain|]. intros r s1 (tr & H1 & Hd). destruct r as [[f|]|e].
    + apply wp_ret. split; [|done]. exists tr. split; [done|by constructor].
    + eapply wp_mono; [apply IH; [apply H1|done]|]. intros r s2 [(tr2 & H2 & Hr) Hp]. split; [|done].
      exists (tr ++ tr2). split; [by eapply effect_trans|apply rc_again; [done|]]. by rewrite <- (ef_seen _ _ _ H1).
    + unfold poisonOnConformanceFault. destruct (faultToPoisonCause e) as [c|] eqn:Hf.
      * pose proof (fault_cause_valid _ _ Hf) as Hv. apply wp_bind, wp_bind, wp_escalating; [apply H1| |].
        { intros p w. unfold Set_. rewrite Hv. destruct (cas_poison c w). cbn. eauto. }
        intros s2 p w H2 Hset. apply wp_ret, wp_ret. split.
        -- exists tr. split; [rewrite <- (app_nil_r tr); by eapply effect_trans|].
           replace (markPoisoned e) with (surfaced e) by (unfold surfaced; by rewrite Hf). by constructor.
        -- intros e' [= <-] _. right. destruct (escalate_ok c w Hv) as (w' & E & Hp & _). unfold escalate in E.
           destruct (Set_ c w) as [[w1 b]| |]; simplify_eq/=. apply invalid_nonzero in Hv.
           rewrite Hp. by destruct (Z.eqb_spec (poison w) 0).
      * apply wp_bind, wp_ret, wp_ret. assert (E : surfaced e = e) by (unfold surfaced; by rewrite Hf). split.
        -- exists tr. split; [done|]. rewrite <- E. by apply rc_error.
        -- intros e' [= <-] He. left. apply drained_errors in Hd. unfold drain_errors in Hd.
           rewrite !elem_of_cons, elem_of_nil in Hd. destruct_or!; subst; try done.
  - apply wp_bind, wp_teardownError; [done|]. intros g tr s1 Hg H1. apply wp_ret. split.
    + exists tr. split; [done|by apply rc_shutdown].
    + intros e He Hp. destruct g as [e'|]; simplify_eq. destruct Hg as [[-> _]|[-> _]]; [by left|done].
  - apply wp_ret. split; [exists []; split; [by apply effect_refl|constructor]|]. by intros e [= <-].
  - apply wp_ret. split; [exists []; split; [by apply effect_refl|constructor]|]. by intros e [= <-].
Qed.

(** Every head advance disposes of one descriptor, and at most one frame leaves
    per receive. *)
Definition is_hand e := match e with EHand _ => true | _ => false end.
Definition balanced (tr : list rx_event) : Prop :=
  tally is_advance tr = tally is_stale tr + tally is_fault tr + tally is_progress tr /\ tally is_hand tr <= 1.

Lemma tally_cons p e tr : tally p (e :: tr) = (if p e then 1 else 0) + tally p tr.
Proof. unfold tally, zlen. simpl. destruct (p e); simpl length; lia. Qed.

Lemma attempt_balanced reserve consume d tr r :
  attempt reserve consume d tr r -> balanced tr /\ (r = inl None -> tally is_hand tr = 0).
Proof.
  intros H. unfold balanced. destruct H as [| | |e tr _ Hg| | | |]; try (destruct reserve; by vm_compute).
  - destruct Hg as [[-> ->]|[-> (s & _ & ->)]]; by vm_compute.
  - destruct reserve, consume; by vm_compute.
Qed.

Lemma gate_balanced g tr : gate_trace g tr -> balanced tr.
Proof.
  destruct g; simpl; [intros [[_ ->]|[_ (s & _ & ->)]]|intros ->]; by vm_compute.
Qed.

Lemma drained_balanced reserve consume newTail seen tr r :
  drained reserve consume newTail seen tr r -> balanced tr /\ (r = inl None -> tally is_hand tr = 0).
Proof.
  induction 1 as [| | |seen e tr _ Hg|seen d tr r _ Ha Hne|seen d tr r _ Hg _ [[IH1 IH2] IH3]]; try by vm_compute.
  - split; [by eapply gate_balanced|done].
  - apply attempt_balanced in Ha as [[H1 H2] H3]. unfold balanced. rewrite !tally_cons. simpl. split; [lia|done].
  - unfold balanced. simpl. rewrite !tally_cons. simpl. split; [lia|]. intros ?. rewrite IH3 by done. done.
Qed.

Lemma received_balanced reserve consume waits seen tr r : received reserve consume waits seen tr r -> balanced tr.
Proof.
  induction 1 as [n ws seen tr f Hd|n ws seen tr e Hd|n ws seen tr tr' r Hd _ [IH1 IH2]|ws seen g tr Hg| |]; try by vm_compute.
  - apply drained_balanced in Hd as [H _]. done.
  - apply drained_balanced in Hd as [H _]. done.
  - apply drained_balanced in Hd as [[H1 H2] H3]. specialize (H3 eq_refl). unfold balanced. rewrite !tally_app. lia.
  - by eapply gate_balanced.
Qed.

End hostile.

(** ** Properties *)

(** C18: the receive path keeps its discipline against any peer.  Let the peer
    change the ring's words and slots, the arena and the teardown words before
    every access of the receiver, and let the callback return, fail or panic as
    it likes.  Then a receive never panics, and what it does is a run of the
    consume protocol: a descriptor is discarded exactly when its stamp is not the
    region's generation, and then it is counted and released without reading its
    slab, and the drain goes on; a malformed descriptor, a checksum mismatch
    or a corrupt ring ends the receive without moving the head, poisons the
    region and is marked as a poison; a frame is handed over only when the gate
    just before read both teardown words as zero, with its reservation first, and
    it is the frame of the descriptor peeked, built from bytes that passed the
    payload checks, its kind, budget and length legal; it counts as delivered,
    faulted or malformed as the callback said; the head advances once per
    descriptor disposed of, after the hand-over; at most one frame leaves; a
    drain without a frame reached the tail it was woken with or an empty ring;
    the counters move exactly with the events. *)
Theorem receive_discipline t s waits reserve consume :
  rx_ok t s -> waits_ok waits ->
  match recvCore t waits reserve consume s with
  | Panics => False
  | Parks => True
  | Ret s' r =>
      exists tr, effect t s tr s' /\ received t reserve consume waits (lastSeen s) tr r /\ balanced tr /\
        forall e, r = inr e -> Is (Some e) ErrPoisoned = true -> e = errPoisoned \/ poison (ws (sh s')) <> 0
  end.
Proof.
  intros Hs Hw. pose proof (wp_recvCore t waits reserve consume s Hs Hw) as H. unfold wp in H.
  destruct (recvCore t waits reserve consume s) as [s' r| |]; auto. destruct H as [(tr & He & Hr) Hp].
  exists tr. split_and!; auto. by eapply received_balanced.
Qed.

(** ** A peer that only publishes *)

Section honest.
Context (t : receiver).

(** The region holds exactly the descriptors [q], oldest first, from sequence
    number [n] on; they decode to the frames [fs]; it is not torn down. *)
Record holds (h : shared) (q : list Descriptor.Descriptor) (fs : list Frame) (n : Z) : Prop := {
  ho_queue : Ring.represents (ring h) q n;
  ho_frames : Forall2 (fun d f => decode_descriptor (over t h) d = Ok (Some f)) q fs;
  ho_slots : Forall Descriptor.wf (Ring.slots (ring h));
  ho_arena : receiver_ok (over t h);
  ho_poison : poison (ws h) = 0;
  ho_shutdown : shutdown (ws h) = 0
}.

(** What the peer may do: publish more, leaving what it published alone. *)
Definition publishes (f : shared -> shared) : Prop :=
  forall h q fs n, holds h q fs n -> exists q' fs', holds (f h) (q ++ q') (fs ++ fs') n.

Record honest (s : rx) (q : list Descriptor.Descriptor) (fs : list Frame) (n : Z) : Prop := {
  hn_len : length q = length fs;
  hn_script : Forall publishes (script s);
  hn_seen : lastSeen s = u64 n;
  hn_holds : exists q' fs', holds (sh s) (q ++ q') (fs ++ fs') n
}.

(** The parts of the state an access keeps. *)
Definition kept (s s' : rx) : Prop := log s' = log s /\ framesReceived s' = framesReceived s.

Section step.
Context (q : list Descriptor.Descriptor) (fs : list Frame) (n : Z).

Lemma twp_interfere Q s :
  honest s q fs n -> (forall s', honest s' q fs n -> kept s s' -> Q tt s') -> twp interfere Q s.
Proof.
  intros [Hl Hsc Hse (q1 & f1 & Hh)] HQ. unfold twp, interfere. destruct (script s) as [|f rest] eqn:E.
  - apply HQ; [|done]. constructor; rewrite ?E; eauto.
  - apply Forall_cons in Hsc as [Hf Hsc]. apply HQ; [|done]. constructor; simpl; auto.
    destruct (Hf _ _ _ _ Hh) as (q2 & f2 & Hh'). exists (q1 ++ q2), (f1 ++ f2). by rewrite !app_assoc.
Qed.

Lemma twp_load {A} (f : shared -> A) Q s :
  honest s q fs n -> (forall s', honest s' q fs n -> kept s s' -> Q (f (sh s')) s') -> twp (load f) Q s.
Proof. intros Hs HQ. eapply twp_bind, twp_interfere; [done|]. intros s' ? ?. by apply twp_gets, HQ. Qed.

Lemma honest_log s l : honest s q fs n -> honest (with_log l s) q fs n.
Proof. by intros []. Qed.

(** The gate is open, and its loads are logged. *)
Lemma twp_teardown Q s :
  honest s q fs n ->
  (forall s', honest s' q fs n -> log s' = log s ++ [EGate 0 0] -> framesReceived s' = framesReceived s -> Q None s') ->
  twp teardownError Q s.
Proof.
  intros Hs HQ. eapply twp_bind, twp_load; [done|]. intros s1 H1 [K1 K1'].
  destruct (hn_holds _ _ _ _ H1) as (q1 & m1 & G1).
  rewrite (ho_poison _ _ _ _ G1). cbn [negb Z.eqb].
  eapply twp_bind, twp_load; [done|]. intros s2 H2 [K2 K2']. destruct (hn_holds _ _ _ _ H2) as (q2 & m2 & G2).
  rewrite (ho_shutdown _ _ _ _ G2). eapply twp_bind, twp_modify, twp_ret, HQ; simpl; [by apply honest_log|congruence..].
Qed.
End step.

(** The head descriptor of a non-empty queue. *)
Lemma holds_front h d q f fs n :
  holds h (d :: q) (f :: fs) n ->
  Ring.Peek (ring h) = Ok (d, Ring.PeekOK) /\ Descriptor.wf d /\ decode_descriptor (over t h) d = Ok (Some f).
Proof.
  intros [Hr H2 Hsl _ _ _]. inversion H2 as [|? ? ? ? Hd Hq]; subst.
  pose proof (Ring.rep_front _ _ _ _ Hr) as Hf. split_and!; auto.
  - unfold Ring.Peek. rewrite (Ring.peek_check_rep _ _ _ Hr), (Ring.rep_head _ _ _ Hr), Hf. done.
  - rewrite Forall_lookup in Hsl. eauto.
Qed.

(** Advancing the head takes the oldest frame off. *)
Lemma twp_advance d q f fs n Q s :
  honest s (d :: q) (f :: fs) n ->
  (forall s', honest s' q fs (n + 1) -> log s' = log s ++ [EAdvance] -> framesReceived s' = framesReceived s -> Q tt s') ->
  twp advanceHead Q s.
Proof.
  intros Hs HQ. eapply twp_bind, twp_interfere; [done|]. intros s1 [Hl Hsc Hse (q1 & f1 & Hh)] [K1 K2].
  apply twp_modify, HQ; simpl; [|congruence..]. constructor; simpl; auto.
  - rewrite Hse, u64_add_l. done.
  - exists q1, f1. destruct Hh as [Hr H2 Hsl Har Hp Hsh]. inversion H2; subst.
    constructor; simpl; auto. unfold Ring.Advance. rewrite (Ring.rep_head _ _ _ Hr).
    by apply (Ring.rep_advance _ _ _ d).
Qed.

(** What the decoding of a descriptor says about the steps of the receiver. *)
Lemma decode_steps h d f :
  receiver_ok (over t h) -> Descriptor.wf d -> decode_descriptor (over t h) d = Ok (Some f) ->
  discardIfStale d (generation t) = false /\ exists tk only, classify t d = inl (tk, only) /\
    (only = true -> frame_of_span d tk true [] = Ok f) /\
    (only = false -> exists bs, payloadBytes (over t h) d = Ok bs /\ frame_of_span d tk false bs = Ok f /\
       (has_crc d = false -> stored_length d <> 0 ->
        cut (Descriptor.PayloadOffset d) (Descriptor.PayloadOffset d +₆₄ Descriptor.PayloadLength d)%word (arena h) = Ok bs)).
Proof.
  intros Hok Hw H. unfold decode_descriptor in H. destruct (discardIfStale d _) eqn:Hst; [discriminate|]. split; [done|].
  change (classify (over t h) d) with (classify t d) in H.
  destruct (classify t d) as [[tk only]|e]; [|discriminate]. exists tk, only. split; [done|].
  apply obind_ok in H as (bs & Hp & H). apply obind_ok in H as (f' & Hf & H). simplify_eq.
  destruct only; [simplify_eq; split; done|]. split; [done|]. intros _. exists bs. split_and!; auto. intros Hc Hne.
  pose proof (payloadBytes_spec (over t h) d Hok Hw) as Hsp. rewrite Hp in Hsp.
  destruct Hsp as (Hlen & _ & [[_ ?]|(-> & (ci & c & i & Hn) & _)]); [done|].
  destruct (names_slab_inside _ _ _ _ _ _ Hok Hn) as [Hpos Hin]. destruct (rk_span _ Hok) as [_ Hmax]. simpl in *.
  destruct (field_u32 d Hw) as [[? ?] [? ?]]. unfold stored_length in Hin. rewrite Hc in Hin. unfold MaxUint32 in *.
  rewrite u64_id by (unfold is_u64; lia). unfold cut. rewrite slice_in_range by lia. do 3 f_equal. lia.
Qed.

Section front.
Context (d : Descriptor.Descriptor) (q : list Descriptor.Descriptor) (f : Frame) (fs : list Frame) (n : Z).

Lemma honest_front s : honest s (d :: q) (f :: fs) n ->
  Ring.Peek (ring (sh s)) = Ok (d, Ring.PeekOK) /\ Descriptor.wf d /\ receiver_ok (over t (sh s)) /\
  decode_descriptor (over t (sh s)) d = Ok (Some f).
Proof.
  intros [_ _ _ (q1 & f1 & Hh)]. destruct (holds_front _ _ _ _ _ _ Hh) as (? & ? & ?). split_and!; auto. apply Hh.
Qed.

(** The span taken now decodes to the frame whenever it is read. *)
Definition span_gives (tk : Z) (only : bool) (sp : span) : Prop :=
  forall s, honest s (d :: q) (f :: fs) n ->
    match sp with
    | Copied bs => frame_of_span d tk only bs = Ok f
    | View off len => exists bs, cut off (off +₆₄ len)%word (arena (sh s)) = Ok bs /\ frame_of_span d tk only bs = Ok f
    end.

Lemma twp_span tk only view Q s :
  honest s (d :: q) (f :: fs) n -> classify t d = inl (tk, only) ->
  (forall sp s', honest s' (d :: q) (f :: fs) n -> kept s s' -> span_gives tk only sp -> Q (Ok sp) s') ->
  twp (if only then mret (Ok (Copied [])) else payload_span t d view) Q s.
Proof.
  intros Hs Hc HQ. destruct only.
  - apply twp_ret, HQ; [done|done|]. intros s1 H1. destruct (honest_front _ H1) as (_ & Hw & Hok & Hdec).
    destruct (decode_steps _ _ _ Hok Hw Hdec) as (_ & tk' & o & Hc' & Ht & _). rewrite Hc in Hc'. simplify_eq. auto.
  - eapply twp_load; [done|]. intros s1 H1 K1. destruct (honest_front _ H1) as (_ & Hw & Hok & Hdec).
    destruct (decode_steps _ _ _ Hok Hw Hdec) as (_ & tk' & o & Hc' & _ & Hf). rewrite Hc in Hc'. simplify_eq.
    destruct (Hf eq_refl) as (bs & -> & Hfr & _). cbn [obind]. apply HQ; [done|done|].
    destruct (view && negb (has_crc d) && negb (stored_length d =? 0)) eqn:Hv; [|by intros s2 H2].
    bool_to_prop. intros s2 G2. destruct (honest_front _ G2) as (_ & _ & Hok2 & Hdec2).
    destruct (decode_steps _ _ _ Hok2 Hw Hdec2) as (_ & tk2 & o2 & Hc2 & _ & Hf2). rewrite Hc in Hc2. simplify_eq.
    destruct (Hf2 eq_refl) as (bs2 & _ & Hfr2 & Hcut). exists bs2. split; [by apply Hcut|done].
Qed.

(** The callback takes the frame. *)
Definition accepts (consume : option consumeFunc) : Prop :=
  forall cb, consume = Some cb -> exists r, cb f = CbReturn None r.

Lemma twp_protected tk only sp consume Q s :
  honest s (d :: q) (f :: fs) n -> span_gives tk only sp -> accepts consume ->
  (forall s', honest s' (d :: q) (f :: fs) n -> framesReceived s' = framesReceived s ->
     log s' = log s ++ (if bool_decide (is_Some consume) then [EHand f] else []) -> Q (f, consumeNone, None) s') ->
  twp (protectedConsume d tk only sp consume) Q s.
Proof.
  intros Hs Hsp Hcb HQ. apply twp_bind.
  assert (Hread : twp (read_span sp) (fun bs s' => honest s' (d :: q) (f :: fs) n /\ kept s s' /\
    exists b, bs = Ok b /\ frame_of_span d tk only b = Ok f) s).
  { destruct sp as [bs|off len]; simpl.
    - apply twp_ret. split_and!; try done. exists bs. split; [done|]. by apply (Hsp s).
    - eapply twp_load; [done|]. intros s1 H1 K1. destruct (Hsp s1 H1) as (bs & -> & ?). eauto. }
  eapply twp_mono; [exact Hread|]. intros bs s1 (H1 & [K1 K2] & b & -> & Hf). cbn [obind]. rewrite Hf.
  destruct consume as [cb|].
  - apply twp_bind, twp_modify. destruct (Hcb cb eq_refl) as (r & E). unfold ProtectedConsume. rewrite E.
    apply twp_ret, HQ; simpl; [by apply honest_log|congruence..].
  - apply twp_ret, HQ; simpl; auto. by rewrite app_nil_r.
Qed.

Lemma twp_reserve (b : bool) Q s :
  honest s (d :: q) (f :: fs) n ->
  (forall s', honest s' (d :: q) (f :: fs) n -> framesReceived s' = framesReceived s ->
     log s' = log s ++ reserved b -> Q tt s') ->
  twp (if b then emit EReserve else mret tt) Q s.
Proof.
  intros Hs HQ. destruct b; [apply twp_modify, HQ; simpl; auto; by apply honest_log|].
  apply twp_ret, HQ; simpl; auto. by rewrite app_nil_r.
Qed.

(** One receive: the oldest frame, whole, in place, exactly once. *)
Lemma twp_consume_front reserve consume Q s :
  honest s (d :: q) (f :: fs) n -> accepts consume -> is_u64 (framesReceived s) ->
  (forall s', honest s' q fs (n + 1) -> framesReceived s' = u64 (framesReceived s + 1) ->
     log s' = log s ++ [EGate 0 0] ++ reserved reserve ++ [EHand f; EAdvance; EProgress] ->
     Q (inl (Some (if bool_decide (is_Some consume) then zero_frame else f))) s') ->
  twp (consumeDescriptor t d reserve consume) Q s.
Proof.
  intros Hs Hcb Hfr HQ. destruct (honest_front _ Hs) as (_ & Hw & Hok & Hdec).
  destruct (decode_steps _ _ _ Hok Hw Hdec) as (Hst & tk & only & Hc & _).
  unfold consumeDescriptor. rewrite Hst, Hc. apply twp_bind, (twp_span tk); [done|done|].
  intros sp s1 H1 [K1 K1'] Hsp. unfold hand_over. set (view := bool_decide (is_Some consume)) in *.
  eapply twp_bind, twp_teardown; [done|]. intros s2 H2 L2 F2.
  apply twp_bind, twp_reserve; [done|]. intros s3 H3 F3 L3.
  apply twp_bind, (twp_protected tk only sp); [done..|]. intros s4 H4 F4 L4. fold view in L4.
  unfold deliver. apply twp_bind, twp_reserve; [done|]. intros s5 H5 F5 L5. apply twp_bind.
  assert (Hh : twp (if view then mret tt else emit (EHand f)) (fun _ s6 => honest s6 (d :: q) (f :: fs) n /\
    framesReceived s6 = framesReceived s5 /\ log s6 = log s5 ++ if view then [] else [EHand f]) s5).
  { destruct view; [apply twp_ret; rewrite app_nil_r; auto|]. apply twp_modify. split_and!; try done. by apply honest_log. }
  eapply twp_mono; [exact Hh|]. intros [] s6 (H6 & F6 & L6).
  eapply twp_bind, twp_advance; [done|]. intros s7 H7 L7 F7. apply twp_bind, twp_modify, twp_ret, HQ; simpl.
  - by destruct H7.
  - f_equal. congruence.
  - rewrite L7, L6, L5, L4, L3, L2, K1. rewrite <- !app_assoc. do 2 f_equal. clearbody view. by destruct reserve, view.
Qed.
End front.
End honest.

(** ** A run of receives *)

Fixpoint receive_each (t : receiver) (tails : list Z) (reserve : bool) (consume : option consumeFunc)
  : prog rx (list (Frame + error)) :=
  match tails with
  | [] => mret []
  | newTail :: tails =>
      r ← recvCore t [WTail newTail] reserve consume;
      rs ← receive_each t tails reserve consume;
      mret (r :: rs)
  end.

(** The frames handed over, in order. *)
Definition hands (l : list rx_event) : list Frame :=
  omap (fun e => match e with EHand f => Some f | _ => None end) l.

Lemma iter_pos_first {S A} (body : prog S (option A)) n (Q : option A -> S -> Prop) s :
  twp body (fun r s' => (exists a, r = Some a) /\ Q r s') s -> twp (iter_pos body n) Q s.
Proof.
  intros H. enough (G : twp (iter_pos body n) (fun r s' => (exists a, r = Some a) /\ Q r s') s).
  { eapply twp_mono; [exact G|]. by intros r s' [_ ?]. }
  induction n as [n IH|n IH|]; simpl; [| |done]; apply twp_bind.
  - eapply twp_mono; [exact H|]. intros r s' [(a & ->) Hq]. apply twp_ret. eauto.
  - eapply twp_mono; [exact IH|]. intros r s' [(a & ->) Hq]. apply twp_ret. eauto.
Qed.

Lemma twp_receive_front t d q f fs n newTail reserve consume Q s :
  honest t s (d :: q) (f :: fs) n -> accepts f consume -> is_u64 (framesReceived s) ->
  is_u64 newTail -> newTail <> u64 n ->
  (forall s', honest t s' q fs (n + 1) -> is_u64 (framesReceived s') -> hands (log s') = hands (log s) ++ [f] ->
     Q (inl (if bool_decide (is_Some consume) then zero_frame else f)) s') ->
  twp (recvCore t [WTail newTail] reserve consume) Q s.
Proof.
  intros Hs Hcb Hfr Hn Hne HQ. simpl. apply twp_bind, twp_bind, twp_gets.
  pose proof (hn_seen _ _ _ _ _ Hs) as Hseen.
  assert (Hpos : exists p, (newTail -₆₄ lastSeen s)%word = Zpos p).
  { rewrite Hseen. pose proof (u64_range (newTail - u64 n)) as [Hlo _].
    destruct (newTail -₆₄ u64 n)%word as [|p|p] eqn:E; [|eauto|lia]. exfalso. apply Hne.
    pose proof (u64_range n). unfold is_u64, u64 in *. clear -E H Hn. Z.to_euclidean_division_equations. lia. }
  destruct Hpos as (p & ->). apply twp_bind, iter_pos_first.
  apply twp_bind, twp_gets. rewrite Hseen. destruct (Z.eqb_spec (u64 n) newTail) as [E|_]; [congruence|].
  eapply twp_bind, twp_teardown; [done|]. intros s1 H1 L1 F1.
  eapply twp_bind, twp_load; [done|]. intros s2 H2 [L2 F2].
  destruct (honest_front _ _ _ _ _ _ _ H2) as (-> & _).
  apply twp_bind, twp_modify. apply twp_bind. eapply twp_consume_front; [by apply honest_log|done|simpl; congruence|]. intros s3 H3 F3 L3.
  apply twp_ret. split; [by eexists|]. apply twp_ret. simpl. apply twp_ret, HQ; [done|rewrite F3; apply u64_range|].
  unfold hands. rewrite L3. simpl. rewrite L2, L1, !omap_app. destruct reserve; simpl; by rewrite ?app_nil_r.
Qed.

(** With a peer that only publishes, frames arrive in order, unchanged and
    exactly once.  Let the region hold the frames [fs] and the peer go on
    publishing at any moment, without tearing the region down or touching what
    it has published.  Then that many receives, each woken with any tail but its
    own cursor, all return, and give exactly [fs] in order: as return values, or
    to the callback, whether lent as views or copied. *)
Lemma receive_each_in_order t s q fs n tails reserve consume :
  honest t s q fs n -> is_u64 (framesReceived s) -> length tails = length fs ->
  (forall i newTail, tails !! i = Some newTail -> is_u64 newTail /\ newTail <> u64 (n + Z.of_nat i)) ->
  Forall (fun f => accepts f consume) fs ->
  exists s', receive_each t tails reserve consume s =
      Ret s' (map (fun f => inl (if bool_decide (is_Some consume) then zero_frame else f)) fs) /\
    hands (log s') = hands (log s) ++ fs /\ honest t s' [] [] (n + zlen fs).
Proof.
  intros Hs Hfr Hlen Htails Hcb. apply Forall2_same_length in Hlen.
  enough (G : twp (receive_each t tails reserve consume) (fun rs s' =>
    rs = map (fun f => inl (if bool_decide (is_Some consume) then zero_frame else f)) fs /\
    hands (log s') = hands (log s) ++ fs /\ honest t s' [] [] (n + zlen fs)) s).
  { unfold twp in G. destruct (receive_each t tails reserve consume s) as [s' rs| |]; [|done..].
    exists s'. destruct G as (-> & ? & ?). done. }
  revert s q fs n Hs Hfr Hlen Htails Hcb. induction tails as [|newTail tails IH]; intros s q fs n Hs Hfr Hlen Htails Hcb.
  - inversion Hlen; subst. apply twp_ret. split_and!; [done|by rewrite app_nil_r|].
    destruct (nil_length_inv q); [by rewrite (hn_len _ _ _ _ _ Hs)|]. change (zlen []) with 0. by rewrite Z.add_0_r.
  - inversion Hlen as [|? f ? fs' _ Hlen']; subst. apply Forall_cons in Hcb as [Hf Hcb].
    pose proof (hn_len _ _ _ _ _ Hs) as Hl. destruct q as [|d q]; [done|].
    destruct (Htails 0%nat newTail eq_refl) as [Ht Hne]. rewrite Z.add_0_r in Hne.
    eapply twp_bind, twp_receive_front; [done..|]. intros s1 H1 F1 L1. apply twp_bind.
    eapply twp_mono; [apply (IH s1 q fs' (n + 1)); auto|].
    { intros i T Hi. destruct (Htails (S i) T Hi) as [? Hn']. split; [done|].
      by replace (n + 1 + Z.of_nat i) with (n + Z.of_nat (S i)) by lia. }
    intros rs s2 (-> & L2 & H2). apply twp_ret. split_and!; [done| |].
    + by rewrite L2, L1, <- app_assoc.
    + replace (n + zlen (f :: fs')) with (n + 1 + zlen fs') by (unfold zlen; simpl length; lia). done.
Qed.

(** ** Witnesses *)

(** One published frame in a 64-slot ring, its payload in the sample arena. *)
Definition sample_descriptor : Descriptor.Descriptor :=
  slab_fields true sample_handle 3 (data_fields sample_frame (head_fields FrameStreamChunk 7 sample_frame)).

Definition sample_region : shared :=
  mkShared (Ring.mkRing (sample_descriptor :: replicate 63 Descriptor.zeroDescriptor) 0 1 63 64)
    (inboundArenaBytes sample_receiver) healthy.

Definition sample_rx (env : list (shared -> shared)) : rx :=
  mkRx sample_region env 0 0 0 0 0 (NewEscalationPolicy sample_config 0) [] [].

Lemma sample_descriptor_wf : Descriptor.wf sample_descriptor.
Proof.
  unfold sample_descriptor, slab_fields.
  repeat first [apply (Descriptor.setter_wf Descriptor.FAllocSeq)|apply (Descriptor.setter_wf Descriptor.FGeneration)
    |apply (Descriptor.setter_wf Descriptor.FPayloadLength)|apply (Descriptor.setter_wf Descriptor.FPayloadOffset)
    |apply (Descriptor.setter_wf Descriptor.FFlags)].
  rewrite data_fields_stamp. apply stamp_wf.
Qed.

Lemma sample_slots_wf : Forall Descriptor.wf (Ring.slots (ring sample_region)).
Proof. constructor; [apply sample_descriptor_wf|]. apply Forall_replicate, Descriptor.zero_wf. Qed.

Lemma sample_config_ok : Ring.config_ok (ring sample_region).
Proof. constructor; vm_compute; first [reflexivity|split; discriminate]. Qed.

Lemma sample_arena_ok : receiver_ok (over sample_receiver sample_region).
Proof. exact sample_receiver_ok. Qed.

Lemma sample_shape : shape sample_receiver sample_region.
Proof.
  constructor; [apply sample_config_ok|vm_compute; by split..|apply sample_slots_wf|apply sample_arena_ok].
Qed.

(** A peer that stores a tail far past the ring's capacity. *)
Definition corrupt_tail (h : shared) : shared := set_ring (Ring.set_tail 999 (ring h)) h.

Lemma corrupt_tail_shape h : shape sample_receiver h -> shape sample_receiver (corrupt_tail h).
Proof.
  intros [[] ? ? ? ?]. constructor; simpl; auto; [by constructor|]. unfold is_u64. lia.
Qed.

Lemma receive_discipline_witness :
  match recvCore sample_receiver [WTail 1] true None (sample_rx [corrupt_tail]) with
  | Ret s' r => r = inr (markPoisoned errRingCorrupt) /\ lastSeen s' = 0 /\ poison (ws (sh s')) = PoisonRingCorrupt /\
      exists tr, received sample_receiver true None [WTail 1] 0 tr r
  | _ => False
  end.
Proof.
  assert (Hs : rx_ok sample_receiver (sample_rx [corrupt_tail])).
  { constructor; simpl; [apply sample_shape| |vm_compute; by split|split_and!; vm_compute; by split].
    constructor; [apply corrupt_tail_shape|constructor]. }
  pose proof (receive_discipline sample_receiver _ [WTail 1] true None Hs) as H.
  specialize (H ltac:(constructor; [vm_compute; by split|constructor])).
  destruct (recvCore sample_receiver [WTail 1] true None (sample_rx [corrupt_tail])) as [s' r| |] eqn:E;
    vm_compute in E; [|discriminate..]. destruct H as (tr & _ & Hr & _).
  inversion E; subst. split_and!; [reflexivity..|]. by exists tr.
Defined.

End Receive.
