(* ===== verification/ShmAdmission.v ===== *)
(** * Admission control (src/internal/transport/shm/admission.go)

    The startup checks of a negotiated configuration against a region's
    geometry.  The theorem says what acceptance is worth: the ring keeps its
    lifecycle reserve, a frame of the admitted size fits, and under the strict
    certification an arena that holds fewer slabs than the admitted frames never
    reports exhaustion. *)

From S2P Require Import Prelude RegionLayout SlabArena TransportFrame ShmFrame ShmRecovery.
Import Layout Frames ShmFrame Recovery.

Module Admission.

Definition ErrCapacity : error := [Other 20].
Definition ErrChunkingSendClamp : error := [Other 21].
Definition ErrStrictCapacity : error := [Other 22].

Record Config := mkConfig {
  MaxInflight : Z;
  MaxPayload : Z;
  DataQueueDepth : Z;
  LifecycleQueueDepth : Z;
  Checksum : bool;
  ChunkingActive : bool;
  Escalation : EscalationConfig
}.

Definition ValidateChunkingClamp (cfg : Config) : outcome error unit :=
  if ChunkingActive cfg && negb (MaxPayload cfg =? 0) then Err ErrChunkingSendClamp else Ok tt.

(** An empty class table is an index out of range. *)
Definition slabSizeLast (a : ArenaGeometry) : outcome error Z :=
  match Classes a !! (length (Classes a) - 1)%nat with
  | Some c => Ok (SlabSize c)
  | None => Panic
  end.

Definition overhead (checksum : bool) : Z := if checksum then crc32TrailerLen else 0.

Definition validateCapacityInvariant (cfg : Config) (layout : Layout) : outcome error unit :=
  if MaxInflight cfg <=? 0 then Err ErrCapacity else
  if DataQueueDepth cfg <=? 0 then Err ErrCapacity else
  if LifecycleQueueDepth cfg <=? 0 then Err ErrCapacity else
  let dataBudget := i64 (i64 (RingCapacity layout) - i64 (LifecycleReserve layout)) in
  if dataBudget <? MaxInflight cfg then Err ErrCapacity else
  let stored := (MaxPayload cfg +₆₄ overhead (Checksum cfg))%word in
  let! lastHP := slabSizeLast (ArenaHP layout) in
  if lastHP <? stored then Err ErrCapacity else
  let! lastPH := slabSizeLast (ArenaPH layout) in
  if lastPH <? stored then Err ErrCapacity else
  Ok tt.

Definition usableSlabs (c : SizeClass) (classIndex : nat) : Z :=
  if Nat.eqb classIndex 0 then SlabCount c - 1 else SlabCount c.

(** The scan for the binding class, from class [ci] on. *)
Fixpoint bind_loop (cs : list SizeClass) (ci : nat) (bindUsable : Z) : Z :=
  match cs with
  | [] => bindUsable
  | c :: cs =>
      let u := usableSlabs c ci in
      bind_loop cs (S ci) (if u <? bindUsable then u else bindUsable)
  end.

Definition strict_check (a : ArenaGeometry) (maxInflight : Z) : outcome error unit :=
  match Classes a with
  | [] => Panic
  | c :: cs => if bind_loop cs 1 (usableSlabs c 0) <? maxInflight then Err ErrStrictCapacity else Ok tt
  end.

Definition ValidateStartupCapacity (layout : Layout) (maxInflight : Z) (checksum strict : bool) : outcome error unit :=
  if maxInflight <=? 0 then Err ErrCapacity else
  if bool_decide (Classes (ArenaHP layout) = []) then Err ErrCapacity else
  if bool_decide (Classes (ArenaPH layout) = []) then Err ErrCapacity else
  let budget := i64 (i64 (RingCapacity layout) - i64 (LifecycleReserve layout)) in
  if budget <? maxInflight then Err ErrCapacity else
  let! lastHP := slabSizeLast (ArenaHP layout) in
  if lastHP <=? overhead checksum then Err ErrCapacity else
  let! lastPH := slabSizeLast (ArenaPH layout) in
  if lastPH <=? overhead checksum then Err ErrCapacity else
  if negb strict then Ok tt else
  let! _ := strict_check (ArenaHP layout) maxInflight in
  strict_check (ArenaPH layout) maxInflight.

(** ** What the checks mean *)

Lemma slabSizeLast_ok a : Classes a <> [] -> exists c, last (Classes a) = Some c /\ slabSizeLast a = Ok (SlabSize c).
Proof.
  intros Hne. destruct (last (Classes a)) as [c|] eqn:E; [|by apply last_None in E]. exists c. split; [done|].
  unfold slabSizeLast. rewrite last_lookup in E. replace (length (Classes a) - 1)%nat with (pred (length (Classes a))) by lia.
  by rewrite E.
Qed.

Lemma bind_loop_le cs ci b n :
  n <= bind_loop cs ci b <-> n <= b /\ forall i c, cs !! i = Some c -> n <= usableSlabs c (ci + i).
Proof.
  revert ci b. induction cs as [|c cs IH]; intros ci b; simpl.
  { split; [intros; split; done|by intros [? _]]. }
  rewrite IH. split.
  - intros [Hb Hall]. destruct (Z.ltb_spec (usableSlabs c ci) b); (split; [lia|]);
      intros [|i] d Hd; simplify_eq/=; rewrite ?Nat.add_0_r; try lia;
      replace (ci + S i)%nat with (S ci + i)%nat by lia; by apply Hall.
  - intros [Hb Hall]. split.
    + pose proof (Hall 0%nat c eq_refl) as H0. rewrite Nat.add_0_r in H0. destruct (_ <? _); lia.
    + intros i d Hd. replace (S ci + i)%nat with (ci + S i)%nat by lia. by apply Hall.
Qed.

(** Every class of a direction has room for the admitted frames. *)
Definition room (a : ArenaGeometry) (n : Z) : Prop :=
  forall ci c, Classes a !! ci = Some c -> n <= SlabCount c - Arena.first_index ci.

Lemma usable_first c ci : usableSlabs c ci = SlabCount c - Arena.first_index ci.
Proof. unfold usableSlabs, Arena.first_index. destruct (Nat.eqb ci 0); lia. Qed.

Lemma strict_check_ok a n :
  Classes a <> [] -> (strict_check a n = Ok tt <-> room a n) /\ strict_check a n <> Panic.
Proof.
  intros Hne. unfold strict_check, room. destruct (Classes a) as [|c cs]; [done|]. split; [|case_match; done].
  transitivity (n <= bind_loop cs 1 (usableSlabs c 0)).
  { destruct (Z.ltb_spec (bind_loop cs 1 (usableSlabs c 0)) n); split; try done; lia. }
  rewrite bind_loop_le. setoid_rewrite usable_first. split.
  - intros [H0 Hall] [|ci] d Hd; simplify_eq/=; [done|]. by apply (Hall ci).
  - intros Hall. split; [by apply (Hall 0%nat)|]. intros i d Hd. by apply (Hall (S i)).
Qed.

(** Handles [hs] account for every live slab of [a]. *)
Definition accounts (a : Arena.Arena) (hs : list Arena.SlabHandle) : Prop :=
  forall ci i s, Arena.live a ci i s -> exists h, h ∈ hs /\ Arena.hclass h = Z.of_nat ci /\ Arena.hindex h = i.

(** A full class needs as many handles as it has usable slabs. *)
Lemma full_class_handles a hs ci c :
  accounts a hs -> (forall i, Arena.first_index ci <= i < SlabCount c -> exists s, Arena.live a ci i s) ->
  SlabCount c - Arena.first_index ci <= zlen hs.
Proof.
  intros Hacc Hfull. set (k := Arena.first_index ci) in *.
  destruct (Z.le_gt_cases (SlabCount c - k) 0); [pose proof (zlen_nonneg hs); lia|].
  assert (Hl : length (seqZ k (SlabCount c - k)) = Z.to_nat (SlabCount c - k)) by apply length_seqZ.
  enough (length (seqZ k (SlabCount c - k)) <= length (Arena.hindex <$> hs))%nat
    by (rewrite length_fmap in *; unfold zlen; lia).
  apply NoDup_incl_length; [apply NoDup_ListNoDup, NoDup_seqZ|].
  intros i Hi. apply list_elem_of_In in Hi. rewrite elem_of_seqZ in Hi.
  destruct (Hfull i) as (s & Hs); [lia|]. destruct (Hacc _ _ _ Hs) as (h & Hh & _ & <-).
  apply list_elem_of_In, list_elem_of_fmap. eauto.
Qed.

(** The largest class covers every admitted size. *)
Lemma select_below_last cs c size :
  last cs = Some c -> size <= SlabSize c -> exists ci, Arena.SelectClass cs size = Some ci.
Proof.
  intros Hl Hs. destruct (Arena.SelectClass cs size) as [ci|] eqn:E; [eauto|].
  rewrite Arena.SelectClass_None in E. rewrite last_lookup in Hl. specialize (E _ _ Hl). lia.
Qed.

Lemma room_never_exhausted g a hs n c size :
  Arena.arena_inv a -> Arena.classes a = Classes g -> room g n -> accounts a hs -> zlen hs < n ->
  last (Classes g) = Some c -> is_u32 size -> 0 < size <= SlabSize c ->
  exists a' h lo hi, Arena.Alloc size a = Ok (a', (h, (lo, hi))).
Proof.
  intros Ha Hcs Hroom Hacc Hlt Hlast Hu Hs. pose proof (Arena.Alloc_spec size a Ha Hu) as Hsp.
  destruct (Arena.Alloc size a) as [[a' [h [lo hi]]]|[]|]; eauto; exfalso; try done.
  - destruct Hsp as (_ & ci & sc & _ & Hc & Hfull). pose proof (full_class_handles _ _ _ _ Hacc Hfull).
    rewrite Hcs in Hc. specialize (Hroom _ _ Hc). lia.
  - destruct Hsp as [_ Hbig]. rewrite Hcs in Hbig. rewrite last_lookup in Hlast. specialize (Hbig _ _ Hlast). lia.
  - lia.
Qed.

(** ** Property *)

(** The arithmetic the startup check stands for. *)
Definition admissible (layout : Layout) (n : Z) (checksum strict : bool) : Prop :=
  0 < n <= RingCapacity layout - LifecycleReserve layout /\
  (forall g, g = ArenaHP layout \/ g = ArenaPH layout ->
     (exists c, last (Classes g) = Some c /\ overhead checksum < SlabSize c) /\ (strict = true -> room g n)).

Lemma i64_id z : is_i64 z -> i64 z = z.
Proof. intros H. rewrite <- (i64_u64 z H) at 2. unfold i64. by rewrite u64_u64. Qed.

Lemma budget_exact layout :
  0 <= RingCapacity layout < 2 ^ 63 -> 0 <= LifecycleReserve layout < 2 ^ 63 ->
  i64 (i64 (RingCapacity layout) - i64 (LifecycleReserve layout)) = RingCapacity layout - LifecycleReserve layout.
Proof.
  intros H1 H2. rewrite !i64_id; [done|..]; unfold is_i64; try lia. rewrite !i64_id by (unfold is_i64; lia). lia.
Qed.

Lemma startup_iff layout n checksum strict :
  0 <= RingCapacity layout < 2 ^ 63 -> 0 <= LifecycleReserve layout < 2 ^ 63 ->
  (ValidateStartupCapacity layout n checksum strict = Ok tt <-> admissible layout n checksum strict) /\
  ValidateStartupCapacity layout n checksum strict <> Panic.
Proof.
  intros H1 H2. unfold ValidateStartupCapacity, admissible. rewrite budget_exact by done.
  destruct (Z.leb_spec n 0); [split; [split; [done|lia]|done]|].
  assert (Hempty : forall g, g = ArenaHP layout \/ g = ArenaPH layout -> Classes g = [] ->
    (forall g, g = ArenaHP layout \/ g = ArenaPH layout ->
       (exists c, last (Classes g) = Some c /\ overhead checksum < SlabSize c) /\ (strict = true -> room g n)) -> False).
  { intros g Hg E Hall. destruct (Hall g Hg) as [(c & Hc & _) _]. by rewrite E in Hc. }
  case_bool_decide as EH; [split; [split; [done|intros [_ Hall]; exfalso; eauto]|done]|].
  case_bool_decide as EP; [split; [split; [done|intros [_ Hall]; exfalso; eauto]|done]|].
  destruct (Z.ltb_spec (RingCapacity layout - LifecycleReserve layout) n); [split; [split; [done|lia]|done]|].
  destruct (slabSizeLast_ok _ EH) as (cH & LH & ->), (slabSizeLast_ok _ EP) as (cP & LP & ->). cbn [obind].
  destruct (Z.leb_spec (SlabSize cH) (overhead checksum)).
  { split; [split; [done|]|done]. intros [_ Hall]. destruct (Hall _ (or_introl eq_refl)) as [(c & Hc & ?) _].
    rewrite LH in Hc. simplify_eq. lia. }
  destruct (Z.leb_spec (SlabSize cP) (overhead checksum)).
  { split; [split; [done|]|done]. intros [_ Hall]. destruct (Hall _ (or_intror eq_refl)) as [(c & Hc & ?) _].
    rewrite LP in Hc. simplify_eq. lia. }
  destruct (strict_check_ok _ n EH) as [SH NH], (strict_check_ok _ n EP) as [SP NP].
  destruct strict; cbn [negb].
  - split.
    + split.
      * intros (x & Hx & H')%obind_ok. destruct x. apply SH in Hx. apply SP in H'. split; [lia|].
        intros g [->| ->]; (split; [eauto|done]).
      * intros [_ Hall]. destruct (Hall _ (or_introl eq_refl)) as [_ RH], (Hall _ (or_intror eq_refl)) as [_ RP].
        rewrite (proj2 SH (RH eq_refl)). cbn [obind]. apply SP, RP. done.
    + apply obind_no_panic; [done|]. intros; done.
  - split; [split; [|done]|done]. intros _. split; [lia|]. intros g [->| ->]; (split; [eauto|done]).
Qed.

(** What startup admission is worth.  [ValidateStartupCapacity] never
    panics and accepts exactly when the data frames leave the lifecycle reserve
    free, the largest slab of each direction holds more than the overhead and,
    under strict, every class has as many usable slabs as admitted frames.
    After a strict acceptance, an arena whose live slabs number fewer than the
    admitted frames serves every request up to its largest slab: allocation
    cannot be exhausted.  The check repeated at attach accepts the same
    concurrency exactly for the payloads that fit, and chunking is refused with
    a send clamp. *)
Theorem admission_guarantees layout n checksum strict :
  0 <= RingCapacity layout < 2 ^ 63 -> 0 <= LifecycleReserve layout < 2 ^ 63 ->
  (ValidateStartupCapacity layout n checksum strict = Ok tt <-> admissible layout n checksum strict) /\
  ValidateStartupCapacity layout n checksum strict <> Panic /\
  (ValidateStartupCapacity layout n checksum true = Ok tt ->
   forall g a hs c size, g = ArenaHP layout \/ g = ArenaPH layout ->
     Arena.arena_inv a -> Arena.classes a = Classes g -> accounts a hs -> zlen hs < n ->
     last (Classes g) = Some c -> is_u32 size -> 0 < size <= SlabSize c ->
     exists a' h lo hi, Arena.Alloc size a = Ok (a', (h, (lo, hi)))) /\
  (ValidateStartupCapacity layout n checksum strict = Ok tt ->
   forall cfg, MaxInflight cfg = n -> Checksum cfg = checksum -> 0 < DataQueueDepth cfg ->
     0 < LifecycleQueueDepth cfg -> is_u32 (MaxPayload cfg) ->
     validateCapacityInvariant cfg layout = Ok tt <->
       forall g c, g = ArenaHP layout \/ g = ArenaPH layout -> last (Classes g) = Some c ->
         MaxPayload cfg + overhead checksum <= SlabSize c) /\
  (forall cfg, ValidateChunkingClamp cfg = Ok tt <-> (ChunkingActive cfg = true -> MaxPayload cfg = 0)).
Proof.
  intros H1 H2. destruct (startup_iff layout n checksum strict H1 H2) as [Hiff Hnp]. split_and!; [done|done|..].
  - intros Hok g a hs c size Hg Ha Hcs Hacc Hlt Hl Hu Hs.
    apply (startup_iff layout n checksum true H1 H2) in Hok as [_ Hall]. destruct (Hall g Hg) as [_ Hr].
    eapply room_never_exhausted; eauto.
  - intros Hok cfg <- <- Hd Hq Hm. apply Hiff in Hok as [Hn Hall]. unfold validateCapacityInvariant.
    rewrite budget_exact by done.
    destruct (Z.leb_spec (MaxInflight cfg) 0); [lia|]. destruct (Z.leb_spec (DataQueueDepth cfg) 0); [lia|].
    destruct (Z.leb_spec (LifecycleQueueDepth cfg) 0); [lia|].
    destruct (Z.ltb_spec (RingCapacity layout - LifecycleReserve layout) (MaxInflight cfg)); [lia|].
    destruct (Hall _ (or_introl eq_refl)) as [(cH & LH & _) _], (Hall _ (or_intror eq_refl)) as [(cP & LP & _) _].
    assert (EH : Classes (ArenaHP layout) <> []) by (intros E; by rewrite E in LH).
    assert (EP : Classes (ArenaPH layout) <> []) by (intros E; by rewrite E in LP).
    destruct (slabSizeLast_ok _ EH) as (cH' & LH' & ->), (slabSizeLast_ok _ EP) as (cP' & LP' & ->).
    rewrite LH in LH'. rewrite LP in LP'. simplify_eq. cbn [obind].
    assert (Ho : 0 <= overhead (Checksum cfg) <= 4) by (unfold overhead, crc32TrailerLen; destruct (Checksum cfg); lia).
    rewrite u64_id by (unfold is_u64, is_u32 in *; lia).
    destruct (Z.ltb_spec (SlabSize cH') (MaxPayload cfg + overhead (Checksum cfg))) as [Hb|Hb].
    { split; [done|]. intros Hall2. specialize (Hall2 _ _ (or_introl eq_refl) LH). lia. }
    destruct (Z.ltb_spec (SlabSize cP') (MaxPayload cfg + overhead (Checksum cfg))) as [Hc|Hc].
    { split; [done|]. intros Hall2. specialize (Hall2 _ _ (or_intror eq_refl) LP). lia. }
    split; [|done]. intros _ g c [->| ->] Hl; rewrite ?LH, ?LP in Hl; simplify_eq; done.
  - intros cfg. unfold ValidateChunkingClamp. destruct (ChunkingActive cfg); simpl; [|done].
    destruct (Z.eqb_spec (MaxPayload cfg) 0); simpl; naive_solver.
Qed.

(** Two directions with the sample classes: two data frames under strict. *)
Definition sample_geometry : ArenaGeometry := mkArenaGeometry 0 4608 0 [mkSizeClass 64 4 0; mkSizeClass 4096 3 256].
Definition sample_layout : Layout := mkLayout [] 1 0 7 0 64 8 0 0 0 sample_geometry sample_geometry.

Lemma admission_guarantees_witness :
  ValidateStartupCapacity sample_layout 3 true true = Ok tt /\
  admissible sample_layout 3 true true /\
  ValidateStartupCapacity sample_layout 4 true true = Err ErrStrictCapacity /\
  ~ admissible sample_layout 4 true true.
Proof.
  assert (H1 : 0 <= RingCapacity sample_layout < 2 ^ 63) by (vm_compute; split; congruence).
  assert (H2 : 0 <= LifecycleReserve sample_layout < 2 ^ 63) by (vm_compute; split; congruence).
  destruct (admission_guarantees sample_layout 3 true true H1 H2) as (E3 & _).
  destruct (admission_guarantees sample_layout 4 true true H1 H2) as (E4 & _).
  split_and!; [reflexivity|apply E3; reflexivity|reflexivity|].
  intros H. apply E4 in H. vm_compute in H. discriminate.
Defined.

End Admission.
