(* ===== verification/ShmWriter.v ===== *)
(** * The shared-memory writer
    (src/internal/transport/shm/writer.go, intent.go)

    The single producer goroutine of one direction: its two bounded queues and
    the callers that submit to them, the descriptor and slab of each frame, the
    pre-publish gate, the push, head-gated reclaim, the set-aside carry with its
    retry timer, the bounded lifecycle burst and the final drain.  The ring's
    words, the arena's bytes, the teardown words, the queues and the handshake
    words of fill intents are shared: the state carries a script of what the
    peer and the callers do before each access; an operation of the ring (Tail,
    Len, Push) is one access.  The writer is one built by newRegionWriter: it has
    a poison flag and a handle table. *)

From S2P Require Import Prelude DescriptorCodec DescriptorRing RegionLayout SlabArena TransportFrame ShmFrame ShmWake.
Import Layout Frames ShmFrame Wake.

Module Writer.

(** ** Errors, lanes, modes *)

Definition errLaneKindMismatch : error := [Other 20].
Definition errUnknownLane : error := [Other 21].
Definition errSendAbandoned : error := [Other 22].
Definition errFillOnDescriptorOnlyKind : error := [Other 23].
Definition errFillPanic : error := [Other 24].
Definition ErrBackpressure : error := [Other 25].
Definition ErrPayloadFillFailed : sentinel := Other 26.

(** The sentinels of the ring and the arena. *)
Definition of_arena (e : Arena.arenaError) : error :=
  match e with
  | Arena.ErrExhausted => [Other 30] | Arena.ErrTooLarge => [Other 31] | Arena.ErrZeroLength => [Other 32]
  | Arena.ErrBadConfig => [Other 33] | Arena.ErrInvalidFree => [Other 34] | Arena.ErrStaleHandle => [Other 35]
  end.
Definition of_ring (e : Ring.ringError) : error :=
  match e with
  | Ring.ErrFull => [Other 40] | Ring.ErrCorrupt => [Other 41] | Ring.ErrBadConfig => [Other 42]
  end.

Definition laneData : Z := 0.
Definition laneLifecycle : Z := 1.

Inductive admissionMode := admitBlock | admitReject.

#[global] Instance admissionMode_eq_dec : EqDecision admissionMode.
Proof. solve_decision. Defined.

Definition lifecycleBurstBound : nat := 4.
Definition retryInitialInterval : Z := 100 * 1000.
Definition retryMaxInterval : Z := 5 * 1000 * 1000.

(** ** Fill payloads and intents *)

Definition fillPending : Z := 0.
Definition fillFilling : Z := 1.
Definition fillAbandoned : Z := 2.

(** What a fill callback does with its window: the bytes it leaves there and how
    it ends. *)
Inductive fill_result := FillNil | FillErr (e : error) | FillPanic.

Record payloadFill := mkFill { size : Z; fn : list Z -> list Z * fill_result; fstate : Z }.

Definition with_fstate (x : Z) (p : payloadFill) : payloadFill := mkFill (size p) (fn p) x.

(** [fill] is a pointer: an index into the store of fills.  [done] identifies
    the completion channel. *)
Record intent := mkIntent {
  frame : Frame;
  lane : Z;
  wire : option (list Z);
  fill : option nat;
  done : nat;
  onReport : bool
}.

Record carry := mkCarry {
  ci : intent;
  cd : Descriptor.Descriptor;
  built : bool;
  slab : option Arena.SlabHandle;
  parked : option nat
}.

Definition fresh_carry (i : intent) : carry := mkCarry i Descriptor.zeroDescriptor false None None.
Definition drop_slab (c : carry) : carry := mkCarry (ci c) (cd c) (built c) None (parked c).

(** ** State *)

(** What other goroutines and the peer touch.  [submitted] is every intent ever
    queued, in order; the number of an intent is its place there. *)
Record shared := mkShared {
  ring : Ring.Ring;
  arena : Arena.Arena;
  ws : words;
  fills : list payloadFill;
  dataQueue : list intent;
  lifecycleQueue : list intent;
  retry : bool;
  shutdownClosed : bool;
  closed : bool;
  barrier : bool;
  edgeActive : bool;
  edgeCount : Z;
  submitted : list intent
}.

Definition eta_sh (h : shared) : shared :=
  mkShared (ring h) (arena h) (ws h) (fills h) (dataQueue h) (lifecycleQueue h) (retry h) (shutdownClosed h)
    (closed h) (barrier h) (edgeActive h) (edgeCount h) (submitted h).
Definition set_ring (x : Ring.Ring) (h : shared) : shared := ltac:(update_field eta_sh h ring x).
Definition set_arena (x : Arena.Arena) (h : shared) : shared := ltac:(update_field eta_sh h arena x).
Definition set_ws (x : words) (h : shared) : shared := ltac:(update_field eta_sh h ws x).
Definition set_fills (x : list payloadFill) (h : shared) : shared := ltac:(update_field eta_sh h fills x).
Definition set_dataQueue (x : list intent) (h : shared) : shared := ltac:(update_field eta_sh h dataQueue x).
Definition set_lifecycleQueue (x : list intent) (h : shared) : shared := ltac:(update_field eta_sh h lifecycleQueue x).
Definition set_retry (x : bool) (h : shared) : shared := ltac:(update_field eta_sh h retry x).
Definition set_shutdownClosed (x : bool) (h : shared) : shared := ltac:(update_field eta_sh h shutdownClosed x).
Definition set_closed (x : bool) (h : shared) : shared := ltac:(update_field eta_sh h closed x).
Definition set_barrier (x : bool) (h : shared) : shared := ltac:(update_field eta_sh h barrier x).
Definition set_edge (a : bool) (n : Z) (h : shared) : shared :=
  mkShared (ring h) (arena h) (ws h) (fills h) (dataQueue h) (lifecycleQueue h) (retry h) (shutdownClosed h)
    (closed h) (barrier h) a n (submitted h).
Definition set_submitted (x : list intent) (h : shared) : shared := ltac:(update_field eta_sh h submitted x).

Definition set_mem (m : list Z) (a : Arena.Arena) : Arena.Arena :=
  Arena.mkArena m (Arena.classes a) (Arena.pools a) (Arena.generation a) (Arena.nextSeq a) (Arena.id a)
    (Arena.occupancy a).

(** What the writer does, in order. *)
Inductive wr_event :=
| ELife (id : nat)
| ETurn
| EGate (p s : Z)
| EFill (p : nat)
| EPublish (id : nat) (seq : Z) (d : Descriptor.Descriptor)
| EFree (h : Arena.SlabHandle) (ok : bool)
| EPoison
| ESignal
| EReport (id : nat) (e : option error)
| ECallback (id : nat) (published : bool)
| EArm (interval : Z)
| EStopped.

(** The arm a blocking select of [run] takes. *)
Inductive wake := WkLifecycle | WkData | WkTimer | WkRetry | WkShutdown.

Record wr := mkWr {
  sh : shared;
  script : list (shared -> shared);
  wakes : list wake;
  handleTable : list (option Arena.SlabHandle);
  lastReclaimed : Z;
  pendingSlab : option Arena.SlabHandle;
  exhaustedClass : option nat;
  classStalls : list (Z * Z);
  framesSent : Z;
  bytesSent : Z;
  log : list wr_event
}.

Definition eta (s : wr) : wr :=
  mkWr (sh s) (script s) (wakes s) (handleTable s) (lastReclaimed s) (pendingSlab s) (exhaustedClass s)
    (classStalls s) (framesSent s) (bytesSent s) (log s).
Definition with_sh (x : shared) (s : wr) : wr := ltac:(update_field eta s sh x).
Definition with_script (x : list (shared -> shared)) (s : wr) : wr := ltac:(update_field eta s script x).
Definition with_wakes (x : list wake) (s : wr) : wr := ltac:(update_field eta s wakes x).
Definition with_handleTable (x : list (option Arena.SlabHandle)) (s : wr) : wr :=
  ltac:(update_field eta s handleTable x).
Definition with_lastReclaimed (x : Z) (s : wr) : wr := ltac:(update_field eta s lastReclaimed x).
Definition with_pendingSlab (x : option Arena.SlabHandle) (s : wr) : wr := ltac:(update_field eta s pendingSlab x).
Definition with_exhaustedClass (x : option nat) (s : wr) : wr := ltac:(update_field eta s exhaustedClass x).
Definition with_classStalls (x : list (Z * Z)) (s : wr) : wr := ltac:(update_field eta s classStalls x).
Definition with_counts (f b : Z) (s : wr) : wr :=
  mkWr (sh s) (script s) (wakes s) (handleTable s) (lastReclaimed s) (pendingSlab s) (exhaustedClass s)
    (classStalls s) f b (log s).
Definition with_log (x : list wr_event) (s : wr) : wr := ltac:(update_field eta s log x).

Record config := mkConfig {
  gen : Z;
  useChecksum : bool;
  chunking : bool;
  maxStored : Z;
  handleMask : Z;
  dataDepth : Z;
  lifecycleDepth : Z;
  mode : admissionMode
}.

(** ** The handshake of a fill intent *)

Definition cas_fill (p : nat) (new : Z) (h : shared) : shared * bool :=
  match fills h !! p with
  | Some f => if fstate f =? fillPending then (set_fills (<[p := with_fstate new f]> (fills h)) h, true) else (h, false)
  | None => (h, false)
  end.

Definition abandon (p : nat) (h : shared) : shared * bool := cas_fill p fillAbandoned h.

Definition is_abandoned (p : nat) (h : shared) : bool :=
  match fills h !! p with Some f => fstate f =? fillAbandoned | None => false end.

Section writer.
Context (w : config).

(** ** Callers *)

(** The ready arm the scheduler picks; with none ready the select waits, or
    takes its default. *)
Inductive arm := ASend | ADone | ACtx | AShutdown.

Definition select_arm (ready : arm -> bool) (pick : arm) : option arm :=
  if ready pick then Some pick
  else if ready ASend then Some ASend else if ready ADone then Some ADone
  else if ready ACtx then Some ACtx else if ready AShutdown then Some AShutdown else None.

(** [None]: the caller waits.  The lock is held across the select. *)
Definition enqueue (pick : arm) (ctxErr : option error) (i : intent) (l : Z) (h : shared)
  : option (shared * option error) :=
  if closed h then Some (h, Some [ErrClosed]) else
  let life := l =? laneLifecycle in
  let room := if life then zlen (lifecycleQueue h) <? lifecycleDepth w else zlen (dataQueue h) <? dataDepth w in
  let ready a := match a with ASend => room | ACtx => bool_decide (is_Some ctxErr) | AShutdown => shutdownClosed h
                 | ADone => false end in
  let pushed := set_submitted (submitted h ++ [i])
    (if life then set_lifecycleQueue (lifecycleQueue h ++ [i]) h else set_dataQueue (dataQueue h ++ [i]) h) in
  if (l =? laneData) && bool_decide (mode w = admitReject) then
    match select_arm ready pick with
    | Some ASend => Some (set_edge false (edgeCount h) pushed, None)
    | Some AShutdown => Some (h, Some [ErrClosed])
    | Some _ => Some (h, ctxErr)
    | None => Some (if edgeActive h then h else set_edge true (u64 (edgeCount h + 1)) h, Some ErrBackpressure)
    end
  else
    match select_arm ready pick with
    | Some ASend => Some (pushed, None)
    | Some AShutdown => Some (h, Some [ErrClosed])
    | Some _ => Some (h, ctxErr)
    | None => None
    end.

(** Each submission up to its enqueue.  The wait that follows is [await]. *)
Definition submit (pick : arm) (ctxErr : option error) (f : Frame) (l : Z) (h : shared)
  : option (shared * option error) :=
  enqueue pick ctxErr (mkIntent f l (Some (wirePayload f)) None (length (submitted h)) false) l h.

Definition submitFill (pick : arm) (ctxErr : option error) (f : Frame) (sz : Z)
    (cb : list Z -> list Z * fill_result) (h : shared) : option (shared * option error) :=
  let p := length (fills h) in
  let h := set_fills (fills h ++ [mkFill sz cb fillPending]) h in
  enqueue pick ctxErr (mkIntent f laneData None (Some p) (length (submitted h)) false) laneData h.

Definition submitReporting (pick : arm) (ctxErr : option error) (f : Frame) (h : shared)
  : option (shared * option error) :=
  enqueue pick ctxErr (mkIntent f laneData (Some (wirePayload f)) None (length (submitted h)) true) laneData h.

(** The wait after an enqueue: [reported] is the value of the completion
    channel.  A lifecycle caller waits for it alone; a fill caller whose context
    fires keeps waiting for it unless it wins the abandonment. *)
Definition await (i : intent) (pick : arm) (ctxErr : option error) (reported : option (option error)) (h : shared)
  : option (shared * option error) :=
  if lane i =? laneLifecycle then r ← reported; Some (h, r) else
  let ready a := match a with ADone => bool_decide (is_Some reported) | ACtx => bool_decide (is_Some ctxErr)
                 | _ => false end in
  match select_arm ready pick with
  | Some ADone => r ← reported; Some (h, r)
  | Some ACtx =>
      match fill i with
      | None => Some (h, ctxErr)
      | Some p =>
          let (h, won) := abandon p h in
          if won then Some (h, ctxErr) else r ← reported; Some (h, r)
      end
  | _ => None
  end.

(** [stop], in its three steps. *)
Definition stop_shutdown (h : shared) : shared := set_shutdownClosed true h.
Definition stop_close (h : shared) : shared := set_closed true h.
Definition stop_barrier (h : shared) : shared := set_barrier true h.

Definition signalRetry (h : shared) : shared := set_retry true h.
Definition notePeerProgress (h : shared) : shared := signalRetry h.

(** ** Shared accesses of the writer goroutine *)

Definition interfere : prog wr unit := fun s =>
  match script s with
  | [] => Ret s tt
  | f :: rest => Ret (with_script rest (with_sh (f (sh s)) s)) tt
  end.

(** An access that may also fail. *)
Definition access {A} (f : wr -> run wr A) : prog wr A := interfere ≫= fun _ => (f : prog wr A).

Definition load {A} (f : shared -> A) : prog wr A := interfere ≫= fun _ => gets (fun s => f (sh s)).
Definition emit_event (e : wr_event) : prog wr unit := modify (fun s => with_log (log s ++ [e]) s).

Definition report (i : intent) (e : option error) : prog wr unit :=
  emit_event (EReport (done i) e) ≫= fun _ =>
  if onReport i then emit_event (ECallback (done i) (bool_decide (e = None))) else mret tt.

(** [_ = w.arena.Free(h)]: an error is dropped. *)
Definition free_slab (h : Arena.SlabHandle) : prog wr unit := fun s =>
  match Arena.Free h (arena (sh s)) with
  | Ok a => Ret (with_log (log s ++ [EFree h true]) (with_sh (set_arena a (sh s)) s)) tt
  | Err _ => Ret (with_log (log s ++ [EFree h false]) s) tt
  | Panic => Panics
  end.

Definition free_owned (o : option Arena.SlabHandle) : prog wr unit :=
  match o with Some h => free_slab h | None => mret tt end.

Definition prePublishFault : prog wr (option error) :=
  p ← load (fun h => poison (ws h));
  if negb (p =? 0) then mret (teardown_result p 0) else
  q ← load (fun h => shutdown (ws h));
  emit_event (EGate p q) ≫= fun _ => mret (teardown_result p q).

Definition poisonRingCorrupt : prog wr bool :=
  access (fun s =>
  match Set_ PoisonRingCorrupt (ws (sh s)) with
  | Ok (x, _) => Ret (with_log (log s ++ [EPoison]) (with_sh (set_ws x (sh s)) s)) true
  | _ => Panics
  end).

Definition claim (p : nat) : prog wr bool :=
  access (fun s =>
  let (h, won) := cas_fill p fillFilling (sh s) in Ret (with_sh h s) won).

Definition abandoned (p : nat) : prog wr bool := load (is_abandoned p).

(** ** Reclaim *)

Definition capacity (s : wr) : Z := zlen (handleTable s).

(** [w.handleTable[seq & w.handleMask]]. *)
Definition table_slot (seq : Z) : nat := Z.to_nat (Z.land seq (handleMask w)).

Definition table_get (seq : Z) : prog wr (option Arena.SlabHandle) := fun s =>
  match handleTable s !! table_slot seq with Some r => Ret s r | None => Panics end.
Definition table_set (seq : Z) (r : option Arena.SlabHandle) : prog wr unit := fun s =>
  if decide (table_slot seq < length (handleTable s))%nat
  then Ret (with_handleTable (<[table_slot seq := r]> (handleTable s)) s) tt else Panics.

Definition reclaim_slot : prog wr unit :=
  n ← gets lastReclaimed;
  ref ← table_get n;
  (match ref with
   | Some h => free_slab h ≫= fun _ => table_set n None
   | None => mret tt
   end) ≫= fun _ =>
  modify (fun s => with_lastReclaimed (n +₆₄ 1)%word s).

(** The loop runs once per step from [lastReclaimed] to [hd]. *)
Fixpoint reclaim_loop (fuel : nat) (hd : Z) : prog wr unit :=
  match fuel with
  | O => mret tt
  | S fuel =>
      n ← gets lastReclaimed;
      if n =? hd then mret tt else reclaim_slot ≫= fun _ => reclaim_loop fuel hd
  end.

Definition reclaim (maxReconcile : Z) : prog wr unit :=
  cap ← gets capacity;
  tl ← load (fun h => Ring.Tail (ring h));
  depth ← load (fun h => Ring.Len (ring h));
  if cap <? depth then poisonRingCorrupt ≫= fun _ => mret tt else
  let hd := (tl -₆₄ depth)%word in
  n ← gets lastReclaimed;
  let steps := (hd -₆₄ n)%word in
  if maxReconcile <? steps then poisonRingCorrupt ≫= fun _ => mret tt else
  reclaim_loop (Z.to_nat steps) hd.

(** ** Building a frame *)

Inductive buildStatus := buildOK (d : Descriptor.Descriptor) | buildStuck | buildFailed.

Definition failed (i : intent) (e : error) : prog wr buildStatus :=
  report i (Some e) ≫= fun _ => mret buildFailed.

Definition payloadOf (i : intent) : prog wr (list Z * Z) := fun s =>
  match fill i with
  | Some p => match fills (sh s) !! p with Some f => Ret s ([], size f) | None => Panics end
  | None => let b := default (wirePayload (frame i)) (wire i) in Ret s (b, zlen b)
  end.

(** A store into [buf[lo:lo+len bs]] of the mapped arena. *)
Definition store_bytes (off : Z) (bs : list Z) : prog wr unit :=
  interfere ≫= fun _ =>
  modify (fun s => with_sh (set_arena (set_mem (put_bytes (Z.to_nat off) bs (Arena.mem (arena (sh s))))
                                               (arena (sh s))) (sh s)) s).

Definition read_bytes (off len : Z) : prog wr (list Z) :=
  load (fun h => sub_bytes (Z.to_nat off) (Z.to_nat len) (Arena.mem (arena h))).

(** A callback cannot change the length of its window. *)
Definition window_after (old new : list Z) : list Z := take (length old) new ++ drop (length new) old.

(** The callback's stores and its result, a panic recovered. *)
Definition runFill (p : nat) (off len : Z) : prog wr (option error) :=
  old ← read_bytes off len;
  emit_event (EFill p) ≫= fun _ =>
  o ← gets (fun s => fills (sh s) !! p);
  match o with
  | None => panic
  | Some f =>
      let (bs, r) := fn f old in
      store_bytes off (window_after old bs) ≫= fun _ =>
      mret (match r with FillNil => None | FillErr e => Some e | FillPanic => Some errFillPanic end)
  end.

(** [None]: the slab holds the frame's bytes. *)
Definition fillSlab (i : intent) (p : nat) (h : Arena.SlabHandle) (len : Z) : prog wr (option buildStatus) :=
  won ← claim p;
  if negb won then free_slab h ≫= fun _ => failed i errSendAbandoned ≫= fun st => mret (Some st) else
  if len =? 0 then mret None else
  r ← runFill p (Arena.hOffset h) len;
  match r with
  | Some e => free_slab h ≫= fun _ => failed i (ErrPayloadFillFailed :: e) ≫= fun st => mret (Some st)
  | None => mret None
  end.

Definition stalledClassFor (storedLen : Z) (s : wr) : option nat := Arena.ServingClass (arena (sh s)) storedLen.

Definition MaxFrameSize : Z := 1024 * 1024.

(** The payload window, the trailer and the descriptor's slab fields. *)
Definition stamp_slab (i : intent) (d : Descriptor.Descriptor) (b : list Z) (msgLen : Z) (h : Arena.SlabHandle)
  : prog wr buildStatus :=
  st ← (match fill i with
        | Some p => fillSlab i p h msgLen
        | None => store_bytes (Arena.hOffset h) b ≫= fun _ => mret None
        end);
  match st with
  | Some st => mret st
  | None =>
      (if useChecksum w then
         bs ← read_bytes (Arena.hOffset h) msgLen;
         store_bytes (Arena.hOffset h + msgLen) (le_encode 4 (crc32c bs))
       else mret tt) ≫= fun _ =>
      modify (with_pendingSlab (Some h)) ≫= fun _ =>
      mret (buildOK (slab_fields (useChecksum w) h msgLen d))
  end.

Definition alloc (n : Z) : prog wr (outcome Arena.arenaError (Arena.SlabHandle * (Z * Z))) := fun s =>
  match Arena.Alloc n (arena (sh s)) with
  | Ok (a, r) => Ret (with_sh (set_arena a (sh s)) s) (Ok r)
  | Err e => Ret s (Err e)
  | Panic => Panics
  end.

Definition stampPayload (i : intent) (d : Descriptor.Descriptor) (b : list Z) (msgLen : Z) : prog wr buildStatus :=
  let crcTrailer := if useChecksum w then crc32TrailerLen else 0 in
  let maxMsg := if negb (maxStored w =? 0) then maxStored w - crcTrailer else MaxFrameSize in
  if (msgLen <? 0) || (maxMsg <? msgLen) then failed i [ErrPayloadTooLarge] else
  let storedLen := msgLen + crcTrailer in
  cap ← gets capacity;
  reclaim cap ≫= fun _ =>
  r ← alloc (u32 storedLen);
  match r with
  | Err Arena.ErrExhausted =>
      modify (fun s => with_exhaustedClass (stalledClassFor (u32 storedLen) s) s) ≫= fun _ => mret buildStuck
  | Err Arena.ErrTooLarge => failed i (ErrPayloadTooLarge :: of_arena Arena.ErrTooLarge)
  | Err e => failed i (of_arena e)
  | Panic => panic
  | Ok (h, (lo, hi)) =>
      if negb (gen w =? 0) && negb (Arena.hGeneration h =? gen w)
      then free_slab h ≫= fun _ => failed i errGenerationMismatch
      else if hi - lo <? storedLen then panic
      else stamp_slab i d b msgLen h
  end.

Definition build (i : intent) : prog wr buildStatus :=
  modify (with_pendingSlab None) ≫= fun _ =>
  if negb (lane i =? laneData) && negb (lane i =? laneLifecycle) then failed i errUnknownLane else
  match mapKind (Kind (frame i)) (chunking w) with
  | inr e => failed i e
  | inl (rk, descriptorOnly) =>
      if negb (Bool.eqb descriptorOnly (lane i =? laneLifecycle)) then failed i errLaneKindMismatch else
      let d := head_fields rk (gen w) (frame i) in
      if descriptorOnly then
        match fill i with
        | Some _ => failed i errFillOnDescriptorOnlyKind
        | None => mret (buildOK d)
        end
      else
      let d := data_fields (frame i) d in
      p ← payloadOf i;
      let (b, msgLen) := (p : list Z * Z) in
      if (msgLen =? 0) && negb (useChecksum w) then
        match fill i with
        | Some p =>
            won ← claim p;
            if (won : bool) then mret (buildOK d) else failed i errSendAbandoned
        | None => mret (buildOK d)
        end
      else stampPayload i d b msgLen
  end.

(** ** Publishing *)

Definition publishSeq : prog wr Z := load (fun h => Ring.Tail (ring h)).

(** [w.ring.Push(d)]; the publish is logged. *)
Definition push (i : intent) (seq : Z) (d : Descriptor.Descriptor) : prog wr (option Ring.ringError) :=
  access (fun s =>
  match Ring.Push d (ring (sh s)) with
  | Ok r => Ret (with_log (log s ++ [EPublish (done i) seq d]) (with_sh (set_ring r (sh s)) s)) None
  | Err e => Ret s (Some e)
  | Panic => Panics
  end).

(** [errors.Is(err, ring.ErrCorrupt) && w.poisonRingCorrupt()] marks the error. *)
Definition push_fault (e : Ring.ringError) : prog wr error :=
  match e with
  | Ring.ErrCorrupt => b ← poisonRingCorrupt; mret (if (b : bool) then markPoisoned (of_ring e) else of_ring e)
  | _ => mret (of_ring e)
  end.

Definition published (seq : Z) (ref : option Arena.SlabHandle) (payloadLen : Z) : prog wr unit :=
  modify (fun s => with_counts (u64 (framesSent s + 1)) (u64 (bytesSent s + (DescriptorSize + payloadLen))) s) ≫= fun _ =>
  cap ← gets capacity;
  reclaim (cap + 1) ≫= fun _ =>
  table_set seq ref ≫= fun _ =>
  n ← gets lastReclaimed;
  (match ref with
   | Some h => if n =? (seq +₆₄ 1)%word then free_slab h ≫= fun _ => table_set seq None else mret tt
   | None => mret tt
   end) ≫= fun _ =>
  emit_event ESignal.

Definition emitLifecycle (i : intent) : prog wr unit :=
  emit_event (ELife (done i)) ≫= fun _ =>
  st ← build i;
  match st with
  | buildOK d =>
      gate ← prePublishFault;
      match gate with
      | Some e => report i (Some e)
      | None =>
          seq ← publishSeq;
          r ← push i seq d;
          match r with
          | Some e => e ← push_fault e; report i (Some e)
          | None => published seq None (Descriptor.PayloadLength d) ≫= fun _ => report i None
          end
      end
  | _ => mret tt
  end.

Inductive emitResult := emitDone | emitStuck.

Definition noteArenaSetAside (c : carry) : prog wr carry := fun s =>
  match parked c, exhaustedClass s with
  | None, Some k =>
      match classStalls s !! k with
      | Some (a, r) =>
          Ret (with_classStalls (<[k := (u64 (a + 1), r)]> (classStalls s)) s)
            (mkCarry (ci c) (cd c) (built c) (slab c) (Some k))
      | None => Ret s c
      end
  | _, _ => Ret s c
  end.

Definition noteArenaResume (c : carry) : prog wr carry := fun s =>
  match parked c with
  | None => Ret s c
  | Some k =>
      match classStalls s !! k with
      | Some (a, r) =>
          Ret (with_classStalls (<[k := (a, u64 (r + 1))]> (classStalls s)) s)
            (mkCarry (ci c) (cd c) (built c) (slab c) None)
      | None => Panics
      end
  end.

(** A resolved carry: its slab goes back, its intent is reported. *)
Definition resolve (c : carry) (e : error) : prog wr (emitResult * carry) :=
  free_owned (slab c) ≫= fun _ => report (ci c) (Some e) ≫= fun _ => mret (emitDone, drop_slab c).

(** A built carry: the gate, the push, the publish. *)
Definition place_built (c : carry) : prog wr (emitResult * carry) :=
  gate ← prePublishFault;
  match gate with
  | Some e => resolve c e
  | None =>
      seq ← publishSeq;
      r ← push (ci c) seq (cd c);
      match r with
      | Some Ring.ErrFull => mret (emitStuck, c)
      | Some e => e ← push_fault e; resolve c e
      | None =>
          published seq (slab c) (Descriptor.PayloadLength (cd c)) ≫= fun _ =>
          report (ci c) None ≫= fun _ => mret (emitDone, c)
      end
  end.

Definition place (c : carry) : prog wr (emitResult * carry) :=
  gone ← (match fill (ci c) with Some p => abandoned p | None => mret false end);
  if (gone : bool) then resolve c errSendAbandoned else
  if built c then place_built c else
  st ← build (ci c);
  match st with
  | buildFailed => mret (emitDone, c)
  | buildStuck => c ← noteArenaSetAside c; mret (emitStuck, c)
  | buildOK d =>
      h ← gets pendingSlab;
      c ← noteArenaResume (mkCarry (ci c) d true h (parked c));
      place_built c
  end.

Definition emit (i : intent) : prog wr (option carry) :=
  r ← place (fresh_carry i);
  mret (match r with (emitStuck, c) => Some c | (emitDone, _) => None end).

(** ** The run loop *)

Record retryTimer := mkTimer { created : bool; armed : bool; interval : Z }.

Definition timer_arm (r : retryTimer) : prog wr retryTimer :=
  emit_event (EArm retryInitialInterval) ≫= fun _ => mret (mkTimer true true retryInitialInterval).

Definition timer_backoff (r : retryTimer) : prog wr retryTimer :=
  let n := Z.min (interval r * 2) retryMaxInterval in
  if created r then emit_event (EArm n) ≫= fun _ => mret (mkTimer true (armed r) n) else panic.

Definition timer_disarm (r : retryTimer) : retryTimer := mkTimer (created r) false (interval r).

Record loop := mkLoop { stuck : option carry; timer : retryTimer; timerFired : bool; staged : option intent }.

Definition initial_loop : loop := mkLoop None (mkTimer false false 0) false None.

(** A receive from a queue that does not wait. *)
Definition pop_lifecycle : prog wr (option intent) :=
  access (fun s =>
  match lifecycleQueue (sh s) with
  | [] => Ret s None
  | i :: q => Ret (with_sh (set_lifecycleQueue q (sh s)) s) (Some i)
  end).
Definition pop_data : prog wr (option intent) :=
  access (fun s =>
  match dataQueue (sh s) with
  | [] => Ret s None
  | i :: q => Ret (with_sh (set_dataQueue q (sh s)) s) (Some i)
  end).

Fixpoint burst_loop (room : nat) : prog wr unit :=
  match room with
  | O => mret tt
  | S room =>
      o ← pop_lifecycle;
      match o with
      | Some i => emitLifecycle i ≫= fun _ => burst_loop room
      | None => mret tt
      end
  end.

Definition lifecycle_burst (l : loop) : prog wr unit :=
  match staged l with
  | Some i => emitLifecycle i ≫= fun _ => burst_loop (lifecycleBurstBound - 1)
  | None => burst_loop lifecycleBurstBound
  end.

(** A fresh data intent: the carry it leaves, with the timer armed. *)
Definition emit_fresh (i : intent) (r : retryTimer) : prog wr (option carry * retryTimer) :=
  o ← emit i;
  match o with
  | Some c => r ← timer_arm r; mret (Some c, r)
  | None => mret (None, r)
  end.

Definition data_attempt (l : loop) : prog wr (option carry * retryTimer) :=
  emit_event ETurn ≫= fun _ =>
  match stuck l with
  | Some c =>
      r ← place c;
      match r with
      | (emitDone, _) => mret (None, timer_disarm (timer l))
      | (emitStuck, c) =>
          r ← (if timerFired l then timer_backoff (timer l) else mret (timer l)); mret (Some c, r)
      end
  | None =>
      o ← pop_data;
      match o with
      | Some i => emit_fresh i (timer l)
      | None => mret (None, timer l)
      end
  end.

(** The arm a blocking select takes; it waits while that arm is not ready. *)
Definition select_wake : prog wr wake := fun s =>
  match wakes s with
  | [] => Parks
  | k :: rest => Ret (with_wakes rest s) k
  end.

(** The final drain's select: either queue when both hold something. *)
Definition pop_any : prog wr (option intent) := fun s =>
  let data_first := match wakes s with WkData :: _ => true | _ => false end in
  let s' := with_wakes (List.tl (wakes s)) s in
  match lifecycleQueue (sh s), dataQueue (sh s) with
  | [], [] => Ret s None
  | i :: q, [] => Ret (with_sh (set_lifecycleQueue q (sh s)) s') (Some i)
  | [], i :: q => Ret (with_sh (set_dataQueue q (sh s)) s') (Some i)
  | i :: q, j :: r =>
      if data_first then Ret (with_sh (set_dataQueue r (sh s)) s') (Some j)
      else Ret (with_sh (set_lifecycleQueue q (sh s)) s') (Some i)
  end.

Fixpoint drain_loop (fuel : nat) : prog wr unit :=
  match fuel with
  | O => Prelude.park
  | S fuel =>
      o ← pop_any;
      match o with
      | Some i => report i (Some [ErrClosed]) ≫= fun _ => drain_loop fuel
      | None => emit_event EStopped
      end
  end.

Definition drainAndStop (c : option carry) : prog wr unit :=
  b ← load barrier;
  if negb b then Prelude.park else
  (match c with
   | Some c => free_owned (slab c) ≫= fun _ => report (ci c) (Some [ErrClosed])
   | None => mret tt
   end) ≫= fun _ =>
  n ← gets (fun s => length (lifecycleQueue (sh s)) + length (dataQueue (sh s)))%nat;
  drain_loop (S n).

(** The select a turn ends in; [None]: the goroutine has returned. *)
Definition block_stuck (c : carry) (r : retryTimer) : prog wr (option loop) :=
  k ← select_wake;
  match k with
  | WkLifecycle =>
      o ← pop_lifecycle;
      match o with Some i => mret (Some (mkLoop (Some c) r false (Some i))) | None => Prelude.park end
  | WkTimer => if armed r then mret (Some (mkLoop (Some c) r true None)) else Prelude.park
  | WkRetry =>
      b ← load retry;
      if (b : bool) then
        modify (fun s => with_sh (set_retry false (sh s)) s) ≫= fun _ => mret (Some (mkLoop (Some c) r false None))
      else Prelude.park
  | WkShutdown =>
      b ← load shutdownClosed;
      if (b : bool) then drainAndStop (Some c) ≫= fun _ => mret None else Prelude.park
  | WkData => Prelude.park
  end.

Definition block_idle (r : retryTimer) : prog wr (option loop) :=
  k ← select_wake;
  match k with
  | WkLifecycle =>
      o ← pop_lifecycle;
      match o with Some i => mret (Some (mkLoop None r false (Some i))) | None => Prelude.park end
  | WkData =>
      o ← pop_data;
      match o with
      | Some i => cr ← emit_fresh i r; mret (Some (mkLoop (fst cr) (snd cr) false None))
      | None => Prelude.park
      end
  | WkShutdown =>
      b ← load shutdownClosed;
      if (b : bool) then drainAndStop None ≫= fun _ => mret None else Prelude.park
  | _ => Prelude.park
  end.

(** One turn of [run]. *)
Definition turn (l : loop) : prog wr (option loop) :=
  lifecycle_burst l ≫= fun _ =>
  cr ← data_attempt l;
  let (c, r) := (cr : option carry * retryTimer) in
  more ← load (fun h => negb (bool_decide (lifecycleQueue h = [])));
  if (more : bool) then mret (Some (mkLoop c r false None)) else
  match c with
  | Some c => block_stuck c r
  | None => block_idle r
  end.

(** At most [n] turns of [run]; [None] once it has returned. *)
Fixpoint run (n : nat) (l : loop) : prog wr (option loop) :=
  match n with
  | O => mret (Some l)
  | S n => o ← turn l; match o with Some l => run n l | None => mret None end
  end.

End writer.
End Writer.
