(* ===== verification/ShmWriterInv.v ===== *)
(** * The invariant of the shared-memory writer

    An invariant of the writer of [ShmWriter] over every interference of the
    peer and the callers.  Its first half holds against a peer that writes
    anything into the mapped words and bytes: slabs are owned by one place each,
    intents are pending or reported once, published frames were claimed and
    gated.  The second half holds with a peer that only advances the head: the
    ring and the slabs hold exactly the frames published and not yet consumed,
    and every live slab is accounted for. *)

From S2P Require Import Prelude DescriptorCodec DescriptorRing RegionLayout SlabArena TransportFrame ShmFrame ShmWake ShmWriter.
Import Layout Frames ShmFrame Wake Writer.

Module WriterInv.

(** ** Views of the log *)

Definition rep_of (e : wr_event) : option (nat * option error) :=
  match e with EReport i r => Some (i, r) | _ => None end.
Definition pub_of (e : wr_event) : option (nat * Descriptor.Descriptor) :=
  match e with EPublish i _ d => Some (i, d) | _ => None end.
Definition fill_of (e : wr_event) : option nat := match e with EFill p => Some p | _ => None end.
Definition call_of (e : wr_event) : option (nat * bool) :=
  match e with ECallback i b => Some (i, b) | _ => None end.

Definition reports (l : list wr_event) : list (nat * option error) := omap rep_of l.
Definition pubs (l : list wr_event) : list (nat * Descriptor.Descriptor) := omap pub_of l.
Definition filled (l : list wr_event) : list nat := omap fill_of l.
Definition callbacks (l : list wr_event) : list (nat * bool) := omap call_of l.

(** The intents reported as published. *)
Definition ok_of (p : nat * option error) : option nat := match p with (i, None) => Some i | _ => None end.
Definition oks (l : list wr_event) : list nat := omap ok_of (reports l).

(** Lifecycle intents emitted since the last data attempt. *)
Definition life_step (n : nat) (e : wr_event) : nat :=
  match e with ELife _ => S n | ETurn => O | _ => n end.
Definition life_run (l : list wr_event) : nat := fold_left life_step l 0%nat.

(** ** What the peer and the callers do between two accesses *)

Inductive call :=
| CSubmit (pick : arm) (ctxErr : option error) (f : Frame) (l : Z)
| CFill (pick : arm) (ctxErr : option error) (f : Frame) (sz : Z) (cb : list Z -> list Z * fill_result)
| CReporting (pick : arm) (ctxErr : option error) (f : Frame).

Definition do_call (w : config) (c : call) (h : shared) : option (shared * option error) :=
  match c with
  | CSubmit pick ctx f l => submit w pick ctx f l h
  | CFill pick ctx f sz cb => submitFill w pick ctx f sz cb h
  | CReporting pick ctx f => submitReporting w pick ctx f h
  end.

(** A frame the runtime sends: its fields fit their types, its budget is not
    negative; a fill callback writes bytes and is not used for a status body. *)
Definition call_ok (c : call) : Prop :=
  match c with
  | CSubmit _ _ f _ | CReporting _ _ f => frame_ok f
  | CFill _ _ f _ cb => frame_ok f /\ CarriesStatusBody (Kind f) = false /\ forall old, Forall is_byte (fst (cb old))
  end.

(** The peer writes anything into the ring's words and slots, the arena and the
    teardown words. *)
Definition peer_any (h : shared) (r : Ring.Ring) (m : list Z) (x : words) : Prop :=
  Ring.capacity r = Ring.capacity (ring h) /\ Ring.mask r = Ring.mask (ring h) /\
  zlen (Ring.slots r) = zlen (Ring.slots (ring h)) /\ is_u64 (Ring.head r) /\ is_u64 (Ring.tail r) /\
  zlen m = zlen (Arena.mem (arena h)).

(** The peer only consumes; it may also shut the region down. *)
Definition peer_consumes (h : shared) (r : Ring.Ring) (m : list Z) (x : words) : Prop :=
  (exists k, 0 <= k <= Ring.Len (ring h) /\ r = Ring.set_head (u64 (Ring.head (ring h) + k)) (ring h)) /\
  m = Arena.mem (arena h) /\ poison x = poison (ws h).

(** [b]: the peer and the callers are honest. *)
Inductive env (w : config) (b : bool) : shared -> shared -> Prop :=
| env_peer h r m x :
    (if b then peer_consumes h r m x else peer_any h r m x) ->
    env w b h (set_ring r (set_arena (set_mem m (arena h)) (set_ws x h)))
| env_call h c h' e : (b = true -> call_ok c) -> do_call w c h = Some (h', e) -> env w b h h'
| env_abandon h p : env w b h (fst (abandon p h))
| env_progress h : env w b h (notePeerProgress h)
| env_shutdown h : env w b h (stop_shutdown h)
| env_close h : shutdownClosed h = true -> env w b h (stop_close h)
| env_barrier h : closed h = true -> env w b h (stop_barrier h).

(** ** The invariant *)

Definition key (h : Arena.SlabHandle) : nat * Z := (Z.to_nat (Arena.hclass h), Arena.hindex h).

Definition refs (s : wr) : list Arena.SlabHandle := omap id (handleTable s).

(** The handshake words of the fills. *)
Definition fill_state (h : shared) (p : nat) : option Z := fstate <$> fills h !! p.

Definition reported_callback (sub : list intent) (r : nat * option error) : option (nat * bool) :=
  match sub !! fst r with
  | Some i => if onReport i then Some (fst r, bool_decide (snd r = None)) else None
  | None => None
  end.

Section proof.
Context (w : config) (cs : list SizeClass) (cap : Z) (b : bool).

(** A published frame: the number of its intent, its descriptor, its slab, the
    frame the receiver is to give back. *)
Record entry := mkEntry {
  e_id : nat; e_d : Descriptor.Descriptor; e_ref : option Arena.SlabHandle; e_f : Frame
}.

(** A frame set aside while others are published, and its slab. *)
Context (aside : list entry).
Definition keep : list Arena.SlabHandle := omap e_ref aside.

(** Every slab the writer holds is live and held in one place: [own] outside the
    handle table. *)
Record slabs_ok (own : list Arena.SlabHandle) (a : Arena.Arena) (tbl : list (option Arena.SlabHandle)) : Prop := {
  so_arena : Arena.arena_inv a;
  so_classes : Arena.classes a = cs;
  so_table : zlen tbl = cap;
  so_live : Forall (Arena.handle_live a) (own ++ omap id tbl);
  so_keys : NoDup (key <$> own ++ omap id tbl)
}.

(** Every intent ever queued is reported once, in a queue, or in hand: [hand] is
    not published, [out] is published and not reported. *)
Record ids_ok (hand out : list intent) (h : shared) (l : list wr_event) : Prop := {
  io_all : (reports l).*1 ++ (done <$> hand ++ out ++ lifecycleQueue h ++ dataQueue h) ≡ₚ seq 0 (length (submitted h));
  io_known : Forall (fun i => submitted h !! done i = Some i) (hand ++ out ++ lifecycleQueue h ++ dataQueue h);
  io_pubs : (pubs l).*1 ≡ₚ oks l ++ (done <$> out);
  io_calls : callbacks l = omap (reported_callback (submitted h)) (reports l)
}.

(** [k]: lifecycle intents emitted in the current turn. *)
Record log_ok (k : nat) (h : shared) (l : list wr_event) : Prop := {
  lo_free : forall x ok, EFree x ok ∈ l -> ok = true;
  lo_gate : forall n id q d, l !! n = Some (EPublish id q d) -> exists m, n = S m /\ l !! m = Some (EGate 0 0);
  lo_filled : Forall (fun p => fill_state h p = Some fillFilling) (filled l);
  lo_once : NoDup (filled l);
  lo_claimed : forall id d i p, (id, d) ∈ pubs l -> submitted h !! id = Some i -> fill i = Some p ->
    fill_state h p = Some fillFilling;
  lo_run : life_run l = k;
  lo_burst : forall l1 l2, l = l1 ++ l2 -> (life_run l1 <= lifecycleBurstBound)%nat
}.

Record base_ok (h : shared) : Prop := {
  bo_ring : Ring.config_ok (ring h);
  bo_cap : Ring.capacity (ring h) = cap;
  bo_mask : handleMask w = cap - 1;
  bo_head : is_u64 (Ring.head (ring h));
  bo_tail : is_u64 (Ring.tail (ring h));
  bo_sub : forall k i, submitted h !! k = Some i -> done i = k /\
    forall p, fill i = Some p -> (p < length (fills h))%nat;
  bo_fills : Forall (fun f => fstate f = fillPending \/ fstate f = fillFilling \/ fstate f = fillAbandoned) (fills h);
  bo_lanes : Forall (fun i => lane i = laneLifecycle) (lifecycleQueue h);
  bo_closed : closed h = true -> shutdownClosed h = true;
  bo_barrier : barrier h = true -> closed h = true;
  bo_aside : Forall (fun a => exists i, submitted h !! e_id a = Some i /\
    forall p, fill i = Some p -> fill_state h p = Some fillFilling) aside
}.

Record core (own : list Arena.SlabHandle) (hand out : list intent) (k : nat) (s : wr) : Prop := {
  co_script : Forall (fun f => forall h, rtc (env w b) h (f h)) (script s);
  co_base : base_ok (sh s);
  co_slabs : slabs_ok own (arena (sh s)) (handleTable s);
  co_ids : ids_ok hand out (sh s) (log s);
  co_log : log_ok k (sh s) (log s);
  co_last : is_u64 (lastReclaimed s);
  co_stalls : length (classStalls s) = length cs
}.

(** ** The honest half *)

Context (t : receiver).

Definition set_payload (bs : list Z) (f : Frame) : Frame :=
  mkFrame (CallID f) (Kind f) (Service f) (Method f) (Budget f) bs (FStatus f) (Control f).

(** The frame an intent sends: its own, or with what the callback left in its
    window. *)
Definition sends (h : shared) (i : intent) (f : Frame) : Prop :=
  match fill i with
  | None => f = frame i
  | Some p => exists pf bs, fills h !! p = Some pf /\ f = set_payload bs (frame i) /\ zlen bs = size pf /\
      (bs = [] \/ exists old, bs = window_after old (fst (fn pf old)) /\ snd (fn pf old) = FillNil)
  end.

(** The slab holds the stored bytes of the frame. *)
Definition in_slab (m : list Z) (x : Arena.SlabHandle) (f : Frame) : Prop :=
  let bs := stored_bytes (useChecksum w) (wirePayload f) in
  Arena.hGeneration x = gen w /\ 0 < Arena.hSequence x < 2 ^ 64 /\ 0 < zlen bs /\
  zlen (wirePayload f) <= maxRecvPayload t /\
  (exists c, names_slab cs (Arena.hOffset x) (zlen bs) (Z.to_nat (Arena.hclass x)) c (Arena.hindex x)) /\
  sub_bytes (Z.to_nat (Arena.hOffset x)) (length bs) m = bs.

Definition entry_ok (h : shared) (e : entry) : Prop :=
  exists i f rk only,
    submitted h !! e_id e = Some i /\ sends h i f /\ frame_ok f /\
    mapKind (Kind f) (chunking w) = inl (rk, only) /\ e_f e = delivered only f /\
    match e_ref e with
    | None =>
        (only = true /\ e_d e = head_fields rk (gen w) f) \/
        (only = false /\ wirePayload f = [] /\ useChecksum w = false /\ e_d e = data_fields f (head_fields rk (gen w) f))
    | Some x =>
        only = false /\ in_slab (Arena.mem (arena h)) x f /\
        e_d e = slab_fields (useChecksum w) x (zlen (wirePayload f)) (data_fields f (head_fields rk (gen w) f))
    end.

(** The intent is one an honest caller makes. *)
Definition intent_ok (h : shared) (i : intent) : Prop :=
  frame_ok (frame i) /\
  match fill i with
  | None => wire i = Some (wirePayload (frame i))
  | Some p => CarriesStatusBody (Kind (frame i)) = false /\
      exists pf, fills h !! p = Some pf /\ forall old, Forall is_byte (fst (fn pf old))
  end.

(** From sequence number [L] on, [R] is what the handle table holds; the head is
    at [H], and [es] are the frames published and not consumed.  The table
    covers the sequence numbers below [T]. *)
Record win (H L T : Z) (R : list (option Arena.SlabHandle)) (es : list entry)
    (own : list Arena.SlabHandle) (s : wr) : Prop := {
  wi_ring : Ring.represents (ring (sh s)) (e_d <$> es) H;
  wi_last : lastReclaimed s = u64 L;
  wi_le : L <= H;
  wi_span : zlen R = Z.max 0 (T - L);
  wi_cap : zlen R <= cap;
  wi_table : forall k r, R !! k = Some r -> handleTable s !! table_slot w (u64 (L + Z.of_nat k)) = Some r;
  wi_only : forall j x, handleTable s !! j = Some (Some x) ->
    exists k, R !! k = Some (Some x) /\ table_slot w (u64 (L + Z.of_nat k)) = j;
  wi_refs : forall k e, es !! k = Some e -> H + Z.of_nat k < T -> R !! Z.to_nat (H + Z.of_nat k - L) = Some (e_ref e);
  wi_es : Forall (entry_ok (sh s)) es;
  wi_live : forall ci i q, Arena.live (arena (sh s)) ci i q -> (ci, i) ∈ key <$> own ++ refs s;
  wi_pubs : exists pre, pubs (log s) = pre ++ ((fun e => (e_id e, e_d e)) <$> es) /\ zlen pre = H
}.

Record honest_ok (h : shared) : Prop := {
  ho_intents : Forall (intent_ok h) (submitted h);
  ho_bytes : Forall is_byte (Arena.mem (arena h));
  ho_slots : Forall Descriptor.wf (Ring.slots (ring h));
  ho_gen : Arena.generation (arena h) = gen w;
  ho_poison : poison (ws h) = 0;
  ho_aside : Forall (entry_ok h) aside
}.

(** Where the writer is with the frame in hand. *)
Inductive phase := Idle | Built (e : entry) | Pushed (e : entry) (seq : Z) | Swept (e : entry) (seq : Z).

(** After a push the table does not cover the frame just published, which the
    peer may have consumed already. *)
Definition phase_ok (ph : phase) (H L T : Z) (es : list entry) (h : shared) : Prop :=
  match ph with
  | Idle => T = H + zlen es
  | Built e => T = H + zlen es /\ entry_ok h e
  | Pushed e seq => seq = u64 T /\ T = H + zlen es - 1 /\ (es = [] \/ last es = Some e)
  | Swept e seq => seq = u64 T /\ T = H + zlen es - 1 /\ H + zlen es - L <= cap /\ (es = [] \/ last es = Some e)
  end.

Definition window (own : list Arena.SlabHandle) (ph : phase) (s : wr) : Prop :=
  honest_ok (sh s) /\ exists H L T R es, win H L T R es own s /\ phase_ok ph H L T es (sh s).

Definition winv (own : list Arena.SlabHandle) (hand out : list intent) (k : nat) (ph : phase) (s : wr) : Prop :=
  core (own ++ keep) hand out k s /\ (b = true -> window (own ++ keep) ph s).

(** ** Log extensions *)

Lemma life_run_snoc l e : life_run (l ++ [e]) = life_step (life_run l) e.
Proof. unfold life_run. by rewrite fold_left_app. Qed.

Lemma log_ok_snoc k h l e :
  log_ok k h l -> (life_step k e <= lifecycleBurstBound)%nat ->
  (forall x ok, e = EFree x ok -> ok = true) ->
  (forall id q d, e = EPublish id q d -> last l = Some (EGate 0 0) /\
     forall i p, submitted h !! id = Some i -> fill i = Some p -> fill_state h p = Some fillFilling) ->
  (forall p, e = EFill p -> fill_state h p = Some fillFilling /\ p ∉ filled l) ->
  log_ok (life_step k e) h (l ++ [e]).
Proof.
  intros [H1 H2 H3 H4 H5 H6 H7] Hk Hfree Hpub Hfill. constructor.
  - intros x ok [?|?%list_elem_of_singleton]%elem_of_app; eauto.
  - intros n id q d Hn. apply lookup_snoc_Some in Hn as [[Hlt Hn]|[-> He]].
    + destruct (H2 _ _ _ _ Hn) as (m & -> & Hm). exists m. split; [done|]. rewrite lookup_app_l; [done|lia].
    + destruct (Hpub _ _ _ He) as [Hlast _]. rewrite last_lookup in Hlast.
      destruct (length l) as [|m] eqn:El; [by destruct l|]. exists m. split; [done|].
      simpl in Hlast. rewrite lookup_app_l; [done|lia].
  - unfold filled. rewrite omap_app. apply Forall_app. split; [done|]. destruct e; simpl; constructor; [|constructor].
    by apply Hfill.
  - unfold filled. rewrite omap_app. destruct e; simpl; rewrite ?app_nil_r; try done.
    apply NoDup_app. split_and!; [done| |apply NoDup_singleton]. intros q Hq ->%list_elem_of_singleton.
    by destruct (Hfill _ eq_refl).
  - unfold pubs. rewrite omap_app. intros id d i p [Hin|Hin]%elem_of_app Hi Hp; [eauto|].
    destruct e; simpl in Hin; try (by apply not_elem_of_nil in Hin). apply list_elem_of_singleton in Hin.
    simplify_eq. destruct (Hpub _ _ _ eq_refl). eauto.
  - by rewrite life_run_snoc, H6.
  - intros l1 l2 El. destruct l2 as [|e2 l2 _] using rev_ind.
    + rewrite app_nil_r in El. subst l1. by rewrite life_run_snoc, H6.
    + rewrite app_assoc in El. apply app_inj_tail in El as [-> ->]. by eapply H7.
Qed.

(** Events that no clause looks at. *)
Definition plain (e : wr_event) : bool :=
  match e with EGate _ _ | EPoison | ESignal | EArm _ | EStopped | EFree _ true => true | _ => false end.

Lemma log_ok_plain k h l e : log_ok k h l -> plain e = true -> log_ok k h (l ++ [e]).
Proof.
  intros Hl He. replace k with (life_step k e) by (by destruct e).
  apply log_ok_snoc; [done| |intros x ok ->; by destruct ok|by intros ? ? ? ->|by intros ? ->].
  rewrite <- (lo_run _ _ _ Hl). replace (life_step _ e) with (life_run l) by (by destruct e).
  by apply (lo_burst _ _ _ Hl l []); rewrite app_nil_r.
Qed.

Lemma ids_ok_view hand out h l l' :
  ids_ok hand out h l -> reports l' = reports l -> pubs l' = pubs l -> callbacks l' = callbacks l ->
  ids_ok hand out h l'.
Proof. intros [] E1 E2 E3. constructor; unfold oks in *; by rewrite ?E1, ?E2, ?E3. Qed.

Lemma ids_ok_quiet hand out h l e :
  ids_ok hand out h l -> rep_of e = None -> pub_of e = None -> call_of e = None -> ids_ok hand out h (l ++ [e]).
Proof.
  intros Hi E1 E2 E3. eapply ids_ok_view; [done|..]; unfold reports, pubs, callbacks; rewrite omap_app; simpl;
    rewrite ?E1, ?E2, ?E3; by rewrite app_nil_r.
Qed.

(** ** Interference *)

(** What an environment move does to queues, intents and fills. *)
Record grows (h h' : shared) : Prop := {
  gr_sub : exists new nl nd, submitted h' = submitted h ++ new /\ lifecycleQueue h' = lifecycleQueue h ++ nl /\
    dataQueue h' = dataQueue h ++ nd /\ new ≡ₚ nl ++ nd /\ done <$> new = seq (length (submitted h)) (length new) /\
    (b = true -> Forall (intent_ok h') new) /\ (forall i p, i ∈ new -> fill i = Some p -> (p < length (fills h'))%nat) /\
    (closed h = true -> new = []) /\ Forall (fun i => lane i = laneLifecycle) nl;
  gr_fills : forall p f, fills h !! p = Some f -> exists f', fills h' !! p = Some f' /\ size f' = size f /\ fn f' = fn f /\
    (fstate f = fillFilling -> fstate f' = fillFilling);
  gr_states : Forall (fun f => fstate f = fillPending \/ fstate f = fillFilling \/ fstate f = fillAbandoned) (fills h) ->
    Forall (fun f => fstate f = fillPending \/ fstate f = fillFilling \/ fstate f = fillAbandoned) (fills h')
}.

Lemma grows_same h h' :
  submitted h' = submitted h -> lifecycleQueue h' = lifecycleQueue h -> dataQueue h' = dataQueue h ->
  fills h' = fills h -> grows h h'.
Proof.
  intros E1 E2 E3 E4. constructor; [|rewrite E4; eauto|by rewrite E4].
  exists [], [], []. rewrite E1, E2, E3, !app_nil_r. split_and!; try done. by intros i p ?%not_elem_of_nil.
Qed.

Definition push_intent (i : intent) (h : shared) : shared :=
  set_submitted (submitted h ++ [i])
    (if lane i =? laneLifecycle then set_lifecycleQueue (lifecycleQueue h ++ [i]) h
     else set_dataQueue (dataQueue h ++ [i]) h).

(** All or nothing: an error means that nothing was queued. *)
Lemma enqueue_cases pick ctx i h h' e :
  enqueue w pick ctx i (lane i) h = Some (h', e) ->
  exists a n, (h' = set_edge a n h /\ e <> None) \/ (h' = set_edge a n (push_intent i h) /\ e = None /\ closed h = false).
Proof.
  assert (Hsame : forall x, x = set_edge (edgeActive x) (edgeCount x) x) by (by intros []).
  assert (Hsel : forall ready p a, select_arm ready p = Some a -> ready a = true).
  { intros ready p a. unfold select_arm. repeat case_match; naive_solver. }
  unfold enqueue. destruct (closed h) eqn:Hc.
  { intros [= <- <-]. exists (edgeActive h), (edgeCount h). left. split; [apply Hsame|done]. }
  unfold push_intent. set (pushed := set_submitted _ _). set (ready := fun a => _). intros H.
  assert (Hctx : ready ACtx = true -> ctx <> None) by (unfold ready; intros Hr; apply bool_decide_eq_true in Hr; by destruct Hr as [? ->]).
  assert (Hkeep : forall e : option error, e <> None -> exists a n, (h = set_edge a n h /\ e <> None) \/
    (h = set_edge a n pushed /\ e = None /\ false = false)).
  { intros e' He'. exists (edgeActive h), (edgeCount h). left. split; [apply Hsame|done]. }
  case_match.
  - destruct (select_arm ready pick) as [[]|] eqn:Es; [apply Hsel in Es..|]; try discriminate; injection H as E1 E2; subst h' e; auto.
    + exists false, (edgeCount h). by right.
    + destruct (edgeActive h) eqn:Ea; [by apply Hkeep|]. exists true, (u64 (edgeCount h + 1)). by left.
  - destruct (select_arm ready pick) as [[]|] eqn:Es; [apply Hsel in Es..|]; try discriminate; injection H as E1 E2; subst h' e; auto.
    exists (edgeActive pushed), (edgeCount pushed). right. split; [apply Hsame|done].
Qed.

Lemma push_intent_grows i h :
  closed h = false -> done i = length (submitted h) -> (b = true -> intent_ok h i) ->
  (forall p, fill i = Some p -> (p < length (fills h))%nat) -> grows h (push_intent i h).
Proof.
  intros Hc Hd Hi Hp. unfold push_intent.
  assert (Hn : forall i' p, i' ∈ [i] -> fill i' = Some p -> (p < length (fills h))%nat).
  { intros i' p ->%list_elem_of_singleton. apply Hp. }
  assert (Hok : b = true -> Forall (intent_ok h) [i]) by (intros; constructor; auto).
  destruct (Z.eqb_spec (lane i) laneLifecycle) as [El|El].
  - constructor; [|eauto|done]. exists [i], [i], []. simpl. rewrite ?app_nil_r, Hd. split_and!; auto. congruence.
  - constructor; [|eauto|done]. exists [i], [], [i]. simpl. rewrite ?app_nil_r, Hd. split_and!; auto. congruence.
Qed.

Lemma grows_trans h1 h2 h3 : grows h1 h2 -> submitted h2 = submitted h1 -> lifecycleQueue h2 = lifecycleQueue h1 ->
  dataQueue h2 = dataQueue h1 -> closed h2 = closed h1 -> grows h2 h3 -> grows h1 h3.
Proof.
  intros [_ Hf Hs] E1 E2 E3 E4 [Hg Hf' Hs']. constructor.
  - rewrite <- E1, <- E2, <- E3, <- E4. exact Hg.
  - intros p f Hp. destruct (Hf _ _ Hp) as (f1 & Hp1 & S1 & F1 & T1). destruct (Hf' _ _ Hp1) as (f2 & Hp2 & S2 & F2 & T2).
    exists f2. split_and!; auto; congruence.
  - auto.
Qed.

Lemma enqueue_grows pick ctx i h h' e :
  enqueue w pick ctx i (lane i) h = Some (h', e) -> done i = length (submitted h) ->
  (b = true -> intent_ok h i) -> (forall p, fill i = Some p -> (p < length (fills h))%nat) -> grows h h'.
Proof.
  intros H Hd Hi Hp. destruct (enqueue_cases _ _ _ _ _ _ H) as (a & n & [[-> _]|(-> & _ & Hc)]); [by apply grows_same|].
  destruct (push_intent_grows i h Hc Hd Hi Hp) as [Hg Hf Hs].
  unfold push_intent in *. constructor; [|done|done].
  exact Hg.
Qed.

Lemma call_grows c h h' e : (b = true -> call_ok c) -> do_call w c h = Some (h', e) -> grows h h'.
Proof.
  intros Hc H. destruct c as [pick ctx f l|pick ctx f sz cb|pick ctx f]; simpl in *; unfold submit, submitFill, submitReporting in H.
  - eapply enqueue_grows; [exact H|done| |done]. intros Hb. specialize (Hc Hb). by split.
  - set (h1 := set_fills _ h) in *. apply (grows_trans h h1); try done.
    + constructor.
      * exists [], [], []. simpl. rewrite !app_nil_r. split_and!; try done. by intros i p ?%not_elem_of_nil.
      * intros p g Hp. exists g. split_and!; auto. simpl. rewrite lookup_app_l; [done|by eapply lookup_lt_Some].
      * simpl. intros Hs. apply Forall_app. split; [done|]. constructor; [by left|constructor].
    + eapply enqueue_grows; [exact H|done| |].
      * intros Hb. destruct (Hc Hb) as (H1 & H2 & H3). split; [done|]. simpl. split; [done|].
        eexists. split; [apply list_lookup_middle; reflexivity|done].
      * simpl. intros p [= <-]. rewrite length_app. simpl. lia.
  - eapply enqueue_grows; [exact H|done| |done]. intros Hb. specialize (Hc Hb). by split.
Qed.

Lemma cas_fill_grows p v h :
  v = fillFilling \/ v = fillAbandoned -> grows h (fst (cas_fill p v h)).
Proof.
  intros Hv. unfold cas_fill. destruct (fills h !! p) as [f|] eqn:Hf; [|by apply grows_same].
  destruct (Z.eqb_spec (fstate f) fillPending) as [Hp|]; [|by apply grows_same]. simpl.
  assert (Hlen : (p < length (fills h))%nat) by (by eapply lookup_lt_Some).
  constructor; simpl.
  - exists [], [], []. rewrite !app_nil_r. split_and!; try done. by intros i q ?%not_elem_of_nil.
  - intros q g Hq. destruct (decide (p = q)) as [<-|Hne].
    + simplify_eq. rewrite list_lookup_insert_eq by done. eexists. split_and!; [done|done|done|].
      rewrite Hp. done.
    + rewrite list_lookup_insert_ne by done. eauto.
  - intros Hs. apply Forall_insert; [done|]. simpl. naive_solver.
Qed.

Lemma env_grows h h' : env w b h h' -> grows h h'.
Proof.
  intros [h1 r m x _|h1 c h2 e Hc H|h1 p| | | |]; try (by apply grows_same).
  - by eapply call_grows.
  - apply cas_fill_grows. by right.
Qed.

Lemma ids_bound hand out h l id :
  ids_ok hand out h l -> id ∈ (reports l).*1 \/ id ∈ (pubs l).*1 -> (id < length (submitted h))%nat.
Proof.
  intros [Ha _ Hp _] Hin.
  assert (Hs : id ∈ seq 0 (length (submitted h))); [|by apply elem_of_seq in Hs; lia].
  rewrite <- Ha, elem_of_app. destruct Hin as [?|Hin]; [by left|]. rewrite Hp, elem_of_app in Hin.
  destruct Hin as [Hin|Hin]; [left|right; rewrite !fmap_app, !elem_of_app; auto].
  unfold oks in Hin. apply list_elem_of_omap in Hin as ([i [e|]] & Hi & Ho); simplify_eq/=.
  apply list_elem_of_fmap. by exists (id, None).
Qed.

Lemma ids_ok_grows hand out h h' l : ids_ok hand out h l -> grows h h' -> ids_ok hand out h' l.
Proof.
  intros Hids [(new & nl & nd & Esub & El & Ed & Hperm & Hdone & _) _ _]. pose proof Hids as [Ha Hk Hp Hc].
  constructor; [| |done|].
  - rewrite El, Ed, Esub, length_app, seq_app, <- Ha, Nat.add_0_l, <- Hdone, Hperm, !fmap_app.
    solve_Permutation.
  - assert (Hold : forall i, submitted h !! done i = Some i -> submitted h' !! done i = Some i).
    { intros i Hi. rewrite Esub. by apply lookup_app_l_Some. }
    assert (Hnew : forall i, i ∈ nl ++ nd -> submitted h' !! done i = Some i).
    { intros i Hi. rewrite <- Hperm in Hi. apply list_elem_of_lookup in Hi as (j & Hj).
      assert (Hd : (done <$> new) !! j = Some (done i)) by (by rewrite list_lookup_fmap, Hj).
      rewrite Hdone in Hd. apply lookup_seq in Hd as [Hd _]. rewrite Esub, Hd.
      rewrite lookup_app_r by lia. by replace (length (submitted h) + j - length (submitted h))%nat with j by lia. }
    rewrite !Forall_app in Hk. destruct Hk as (K1 & K2 & K3 & K4). rewrite El, Ed, !Forall_app.
    split_and!; try (eapply Forall_impl; [eassumption|auto]); apply Forall_forall; intros i Hi; apply Hnew, elem_of_app; auto.
  - rewrite Hc.
    assert (Hext : forall r, r ∈ reports l -> reported_callback (submitted h) r = reported_callback (submitted h') r).
    { intros r Hr. unfold reported_callback. rewrite Esub, lookup_app_l; [done|].
      eapply ids_bound; [exact Hids|left]. apply list_elem_of_fmap. by exists r. }
    apply list_omap_ext, Forall_Forall2_diag, Forall_forall. exact Hext.
Qed.

Lemma fill_state_grows h h' p : grows h h' -> fill_state h p = Some fillFilling -> fill_state h' p = Some fillFilling.
Proof.
  intros [_ Hf _] Hp. unfold fill_state in *. apply fmap_Some in Hp as (f & Hp & Hs).
  destruct (Hf _ _ Hp) as (f' & -> & _ & _ & Hs'). simpl. by rewrite Hs'.
Qed.

Lemma log_ok_grows hand out k h h' l : ids_ok hand out h l -> log_ok k h l -> grows h h' -> log_ok k h' l.
Proof.
  intros Hids [H1 H2 H3 H4 H5 H6 H7] Hg. constructor; auto.
  - eapply Forall_impl; [exact H3|]. intros p ?. by eapply fill_state_grows.
  - intros id d i p Hin Hi Hp. eapply fill_state_grows; [exact Hg|]. eapply H5; eauto.
    assert (id < length (submitted h))%nat.
    { eapply ids_bound; [exact Hids|right]. apply list_elem_of_fmap. by exists (id, d). }
    destruct Hg as [(new & nl & nd & Esub & _) _ _]. rewrite Esub, lookup_app_l in Hi by done. done.
Qed.

(** The ring keeps its configuration. *)
Definition same_config (r r' : Ring.Ring) : Prop :=
  Ring.capacity r' = Ring.capacity r /\ Ring.mask r' = Ring.mask r /\ zlen (Ring.slots r') = zlen (Ring.slots r) /\
  (is_u64 (Ring.head r) -> is_u64 (Ring.head r')) /\ (is_u64 (Ring.tail r) -> is_u64 (Ring.tail r')).

Lemma same_config_ok r r' : same_config r r' -> Ring.config_ok r -> Ring.config_ok r'.
Proof. intros (E1 & E2 & E3 & _) []. constructor; by rewrite ?E1, ?E2, ?E3. Qed.

(** What a move changes outside the queues: ring words, arena bytes, flags. *)
Lemma env_frame h h' :
  env w b h h' ->
  same_config (ring h) (ring h') /\
  (exists m, arena h' = set_mem m (arena h) /\ zlen m = zlen (Arena.mem (arena h))) /\
  (shutdownClosed h = true -> shutdownClosed h' = true) /\
  (closed h' = true -> closed h = true \/ shutdownClosed h = true) /\ (closed h = true -> closed h' = true) /\
  (barrier h' = true -> barrier h = true \/ closed h = true).
Proof.
  assert (Hid : forall a, a = set_mem (Arena.mem a) a) by (by intros []).
  assert (Hrefl : forall r, same_config r r) by (intros r; unfold same_config; split_and!; auto).
  assert (Hcall : forall i pick ctx g g' e, enqueue w pick ctx i (lane i) g = Some (g', e) ->
    ring g' = ring g /\ arena g' = arena g /\ shutdownClosed g' = shutdownClosed g /\ closed g' = closed g /\
    barrier g' = barrier g).
  { intros i pick ctx g g' e H. destruct (enqueue_cases _ _ _ _ _ _ H) as (a & n & [[-> _]|(-> & _)]); [done|].
    unfold push_intent. by destruct (lane i =? laneLifecycle). }
  intros [h1 r m x Hp|h1 c h2 e _ H|h1 p|h1|h1|h1 Hs|h1 Hc].
  all: unfold same_config in *.
  - destruct b; destruct Hp as (H1 & H2 & H3).
    + destruct H1 as (k & Hk & ->). split_and!; simpl; auto; try done.
      * intros _. apply u64_range.
      * exists m. subst m. done.
    + destruct H3 as (H3 & H4 & H5 & H6). split_and!; simpl; auto. by exists m.
  - assert (E : ring h2 = ring h1 /\ arena h2 = arena h1 /\ shutdownClosed h2 = shutdownClosed h1 /\ closed h2 = closed h1 /\
      barrier h2 = barrier h1).
    { destruct c as [pick ctx f l|pick ctx f sz cb|pick ctx f]; simpl in H; unfold submit, submitFill, submitReporting in H;
        apply (Hcall (mkIntent _ _ _ _ _ _)) in H; exact H. }
    destruct E as (-> & -> & -> & -> & ->). split_and!; auto. exists (Arena.mem (arena h1)). auto.
  - unfold abandon, cas_fill. destruct (fills h1 !! p) as [f|]; [destruct (fstate f =? fillPending)|]; simpl;
      (split_and!; auto; exists (Arena.mem (arena h1)); auto).
  - simpl. split_and!; auto. exists (Arena.mem (arena h1)); auto.
  - simpl. split_and!; auto. exists (Arena.mem (arena h1)); auto.
  - simpl. split_and!; auto. exists (Arena.mem (arena h1)); auto.
  - simpl. split_and!; auto. exists (Arena.mem (arena h1)); auto.
Qed.

Lemma aside_grows h h' :
  grows h h' ->
  Forall (fun a => exists i, submitted h !! e_id a = Some i /\ forall p, fill i = Some p -> fill_state h p = Some fillFilling) aside ->
  Forall (fun a => exists i, submitted h' !! e_id a = Some i /\ forall p, fill i = Some p -> fill_state h' p = Some fillFilling) aside.
Proof.
  intros Hg Ha. eapply Forall_impl; [exact Ha|]. intros a (i & Hi & Hf). exists i. split.
  - destruct Hg as [(new & _ & _ & Esub & _) _ _]. rewrite Esub. by apply lookup_app_l_Some.
  - intros p Hp. eapply fill_state_grows; eauto.
Qed.

Lemma base_env h h' : base_ok h -> env w b h h' -> base_ok h'.
Proof.
  intros [B1 B2 B3 B4 B5 B6 B7 B10 B8 B9 B11] He. pose proof (aside_grows _ _ (env_grows _ _ He) B11).
  pose proof (env_grows _ _ He) as [(new & nl & nd & Esub & Enl & _ & _ & Hdone & _ & Hnf & _ & Hlanes) Hgf Hgs].
  destruct (env_frame _ _ He) as (Hr & _ & F1 & F2 & F3 & F4). pose proof Hr as (E1 & _ & _ & E4 & E5).
  constructor; auto; [by eapply same_config_ok|congruence| |rewrite Enl; by apply Forall_app|naive_solver|naive_solver].
  intros k i Hi. rewrite Esub in Hi. apply lookup_app_Some in Hi as [Hi|[Hk Hi]].
  - destruct (B6 _ _ Hi) as [? Hp]. split; [done|]. intros p Hf. destruct (lookup_lt_is_Some_2 (fills h) p) as [f Ef]; [auto|].
    destruct (Hgf _ _ Ef) as (f' & Ef' & _). by eapply lookup_lt_Some.
  - assert (Hd : (done <$> new) !! (k - length (submitted h))%nat = Some (done i)) by (by rewrite list_lookup_fmap, Hi).
    rewrite Hdone in Hd. apply lookup_seq in Hd as [Hd _]. split; [lia|]. intros p. apply Hnf.
    by eapply list_elem_of_lookup_2.
Qed.

Lemma slabs_ok_mem own a tbl m :
  slabs_ok own a tbl -> zlen m = zlen (Arena.mem a) -> slabs_ok own (set_mem m a) tbl.
Proof.
  intros [[] ? ? ? ?] E. constructor; auto. constructor; simpl; auto. by rewrite E.
Qed.

Lemma core_env own hand out k s h' :
  core own hand out k s -> env w b (sh s) h' -> core own hand out k (with_sh h' s).
Proof.
  intros [H1 H2 H3 H4 H5 H6 H7] He. pose proof (env_grows _ _ He) as Hg.
  constructor; simpl; auto; [by eapply base_env| |by eapply ids_ok_grows|by eapply log_ok_grows].
  destruct (env_frame _ _ He) as (_ & (m & -> & Hm) & _). by apply slabs_ok_mem.
Qed.

(** *** The honest half *)

Lemma rep_consume r q H k :
  Ring.represents r q H -> 0 <= k <= zlen q ->
  Ring.represents (Ring.set_head (u64 (Ring.head r + k)) r) (drop (Z.to_nat k) q) (H + k).
Proof.
  intros [Hc Hh Ht Hb Hs] Hk. assert (El : zlen (drop (Z.to_nat k) q) = zlen q - k).
  { unfold zlen in *. rewrite length_drop. lia. }
  constructor; simpl.
  - by apply Ring.config_set_head.
  - by rewrite Hh, u64_add_l.
  - rewrite Ht, El. f_equal. lia.
  - lia.
  - intros i d Hi. rewrite lookup_drop in Hi. apply Hs in Hi.
    change (Ring.slot_index (Ring.set_head _ r)) with (Ring.slot_index r). rewrite <- Hi. do 3 f_equal. lia.
Qed.

Lemma sends_grows h h' i f : grows h h' -> sends h i f -> sends h' i f.
Proof.
  intros [_ Hf _]. unfold sends. destruct (fill i) as [p|]; [|done].
  intros (pf & bs & Hp & Ef & Hz & Hb). destruct (Hf _ _ Hp) as (pf' & Hp' & Es & En & _).
  exists pf', bs. rewrite Es, En. done.
Qed.

Lemma entry_ok_grows h h' e :
  grows h h' -> Arena.mem (arena h') = Arena.mem (arena h) -> entry_ok h e -> entry_ok h' e.
Proof.
  intros Hg Em (i & f & rk & only & Hi & Hs & H). exists i, f, rk, only.
  destruct (gr_sub _ _ Hg) as (new & _ & _ & Esub & _).
  split; [rewrite Esub; by apply lookup_app_l_Some|]. split; [by eapply sends_grows|]. by rewrite Em.
Qed.

Lemma intent_ok_grows h h' i : grows h h' -> intent_ok h i -> intent_ok h' i.
Proof.
  intros [_ Hf _] [H1 H2]. split; [done|]. destruct (fill i) as [p|]; [|done].
  destruct H2 as (H2 & pf & Hp & Hb). split; [done|]. destruct (Hf _ _ Hp) as (pf' & Hp' & _ & En & _).
  exists pf'. by rewrite En.
Qed.

Lemma honest_ok_grows h h' :
  grows h h' -> Arena.mem (arena h') = Arena.mem (arena h) -> Arena.generation (arena h') = Arena.generation (arena h) ->
  Ring.slots (ring h') = Ring.slots (ring h) -> poison (ws h') = poison (ws h) -> b = true ->
  honest_ok h -> honest_ok h'.
Proof.
  intros Hg E1 E2 E3 E4 Hb [H1 H2 H3 H4 H5 H6]. constructor; [|congruence..|].
  2: { eapply Forall_impl; [exact H6|]. intros e ?. by eapply entry_ok_grows. }
  destruct (gr_sub _ _ Hg) as (new & _ & _ & Esub & _ & _ & _ & _ & Hok & _). rewrite Esub. apply Forall_app.
  split; [|auto]. eapply Forall_impl; [exact H1|]. intros i ?. by eapply intent_ok_grows.
Qed.

(** Moves that leave the ring and the arena alone. *)
Lemma window_grows own ph s h' :
  b = true -> window own ph s -> grows (sh s) h' -> ring h' = ring (sh s) -> arena h' = arena (sh s) ->
  poison (ws h') = poison (ws (sh s)) -> window own ph (with_sh h' s).
Proof.
  intros Hb (Hh & H & L & T & R & es & [] & Hph) Hg Er Ea Ep.
  assert (Em : Arena.mem (arena h') = Arena.mem (arena (sh s))) by congruence.
  split; [apply (honest_ok_grows (sh s) h'); auto; congruence|].
  exists H, L, T, R, es. split.
  - constructor; simpl; auto; rewrite ?Er, ?Ea; auto.
    eapply Forall_impl; [eassumption|]. intros e ?. by eapply entry_ok_grows.
  - destruct ph; simpl in *; try done. destruct Hph. split; [done|]. by eapply entry_ok_grows.
Qed.

Lemma win_consume H L T R es own s k x :
  win H L T R es own s -> 0 <= k <= zlen es ->
  win (H + k) L T R (drop (Z.to_nat k) es) own
    (with_sh (set_ring (Ring.set_head (u64 (Ring.head (ring (sh s)) + k)) (ring (sh s))) (set_ws x (sh s))) s).
Proof.
  intros [] Hk. constructor; simpl; auto; try lia.
  - rewrite fmap_drop. apply rep_consume; [done|]. unfold zlen in *. by rewrite length_fmap.
  - intros j e Hj Hlt. rewrite lookup_drop in Hj. rewrite <- (wi_refs0 _ _ Hj) by lia. f_equal. lia.
  - by apply Forall_drop.
  - destruct wi_pubs0 as (pre & -> & Epre). eexists (pre ++ take (Z.to_nat k) _).
    rewrite fmap_drop, <- app_assoc, take_drop. split; [done|].
    rewrite zlen_app, Epre. unfold zlen in *. rewrite length_take, length_fmap. lia.
Qed.

Lemma last_drop {A} (l : list A) n x : last l = Some x -> drop n l = [] \/ last (drop n l) = Some x.
Proof.
  intros Hl. destruct (decide (length l <= n)%nat); [left; by apply drop_ge|right].
  rewrite <- (take_drop n l) in Hl. rewrite last_app in Hl. destruct (last (drop n l)) eqn:E; [done|].
  apply last_None in E. apply (f_equal length) in E. rewrite length_drop in E. simpl in E. lia.
Qed.

Lemma window_env own ph s h' :
  b = true -> window own ph s -> env w b (sh s) h' -> window own ph (with_sh h' s).
Proof.
  intros Hb Hw He. pose proof (env_grows _ _ He) as Hg.
  assert (Hcall : forall i pick ctx g g' e, enqueue w pick ctx i (lane i) g = Some (g', e) ->
    ring g' = ring g /\ arena g' = arena g /\ ws g' = ws g).
  { intros i pick ctx g g' e H. destruct (enqueue_cases _ _ _ _ _ _ H) as (a & n & [[-> _]|(-> & _)]); [done|].
    unfold push_intent. by destruct (lane i =? laneLifecycle). }
  inversion He as [h1 r m x Hp E1 E2|h1 c h2 e _ H E1 E2|h1 p E1 E2|h1|h1|h1 Hs|h1 Hc]; subst;
    try (by apply window_grows).
  - rewrite Hb in Hp. destruct Hp as ((k & Hk & ->) & -> & Hpo).
    destruct Hw as (Hh & H & L & T & R & es & Hwin & Hph).
    assert (Hlen : Ring.Len (ring (sh s)) = zlen es).
    { unfold Ring.Len. rewrite (Ring.rep_depth _ _ _ (wi_ring _ _ _ _ _ _ _ Hwin)). unfold zlen. by rewrite length_fmap. }
    rewrite Hlen in Hk. assert (Ed : zlen (drop (Z.to_nat k) es) = zlen es - k).
    { unfold zlen in *. rewrite length_drop. lia. }
    assert (Ea : set_mem (Arena.mem (arena (sh s))) (arena (sh s)) = arena (sh s)) by (by destruct (arena (sh s))).
    rewrite Ea in *. split.
    + by eapply (honest_ok_grows (sh s)).
    + exists (H + k), L, T, R, (drop (Z.to_nat k) es). split.
      * pose proof (win_consume _ _ _ _ _ _ _ k x Hwin Hk) as Hw'. destruct (sh s). exact Hw'.
      * destruct ph as [|e|e seq|e seq]; simpl in *; rewrite ?Ed; [lia| | |].
        -- destruct Hph as [? Hok]. split; [lia|]. by eapply entry_ok_grows.
        -- destruct Hph as (? & ? & Hl). split_and!; [done|lia|].
           destruct Hl as [->|Hl]; [left; by rewrite drop_nil|by apply last_drop].
        -- destruct Hph as (? & ? & ? & Hl). split_and!; [done|lia|lia|].
           destruct Hl as [->|Hl]; [left; by rewrite drop_nil|by apply last_drop].
  - assert (E : ring h' = ring (sh s) /\ arena h' = arena (sh s) /\ ws h' = ws (sh s)).
    { destruct c as [pick ctx f l|pick ctx f sz cb|pick ctx f]; simpl in H; unfold submit, submitFill, submitReporting in H;
        apply (Hcall (mkIntent _ _ _ _ _ _)) in H; exact H. }
    destruct E as (? & ? & E3). apply window_grows; auto. by rewrite E3.
  - apply window_grows; auto; unfold abandon, cas_fill; destruct (fills (sh s) !! p) as [f|]; auto;
      by destruct (fstate f =? fillPending).
Qed.


(** ** Accesses *)

(** Only the environment has moved. *)
Definition moved (s s' : wr) : Prop :=
  exists sc h, s' = with_script sc (with_sh h s) /\ rtc (env w b) (sh s) h.

Lemma moved_refl s : moved s s.
Proof. exists (script s), (sh s). split; [by destruct s|done]. Qed.

Lemma winv_steps own hand out k ph s h :
  winv own hand out k ph s -> rtc (env w b) (sh s) h -> winv own hand out k ph (with_sh h s).
Proof.
  intros Hs He. remember (sh s) as h0 eqn:E. revert s Hs E.
  induction He as [h|h1 h2 h3 H12 _ IH]; intros s [Hc Hw] ->; [by destruct s|].
  apply (IH (with_sh h2 s)); [|done]. split; [by apply core_env|]. intros Hb. apply window_env; auto.
Qed.

Lemma winv_script own hand out k ph s sc :
  winv own hand out k ph s -> Forall (fun f => forall h, rtc (env w b) h (f h)) sc ->
  winv own hand out k ph (with_script sc s).
Proof.
  intros [[] Hw] Hsc. split; [by constructor|]. intros Hb. destruct (Hw Hb) as (? & H & L & T & R & es & [] & ?).
  split; [done|]. exists H, L, T, R, es. split; [by constructor|done].
Qed.

Lemma wr_interfere own hand out k ph Q s :
  winv own hand out k ph s -> (forall s', winv own hand out k ph s' -> moved s s' -> Q tt s') -> wp interfere Q s.
Proof.
  intros Hs HQ. unfold wp, interfere. destruct (script s) as [|f rest] eqn:E; [apply HQ; [done|apply moved_refl]|].
  pose proof (co_script _ _ _ _ _ (proj1 Hs)) as Hsc. rewrite E in Hsc. apply Forall_cons in Hsc as [Hf Hrest].
  apply HQ; [|by eexists _, _]. apply winv_script; [|done]. by apply winv_steps.
Qed.

Lemma wp_access {A} own hand out k ph (f : wr -> Prelude.run wr A) Q s :
  winv own hand out k ph s -> (forall s', winv own hand out k ph s' -> moved s s' -> wp f Q s') -> wp (access f) Q s.
Proof. intros Hs HQ. unfold access. apply wp_bind. by eapply wr_interfere. Qed.

Lemma wr_load {A} own hand out k ph (f : shared -> A) Q s :
  winv own hand out k ph s -> (forall s', winv own hand out k ph s' -> moved s s' -> Q (f (sh s')) s') -> wp (load f) Q s.
Proof.
  intros Hs HQ. unfold load. eapply wp_bind, wr_interfere; [done|]. intros s' ? ?. by apply wp_gets, HQ.
Qed.

(** Dropping a claim about the frame in hand. *)
Lemma winv_idle own hand out k e s : winv own hand out k (Built e) s -> winv own hand out k Idle s.
Proof.
  intros [Hc Hw]. split; [done|]. intros Hb. destruct (Hw Hb) as (? & H & L & T & R & es & ? & ? & ?).
  split; [done|]. by exists H, L, T, R, es.
Qed.

(** ** Events and reports *)

Lemma window_log own ph s l :
  window own ph s -> pubs l = pubs (log s) -> window own ph (with_log l s).
Proof.
  intros (Hh & H & L & T & R & es & [] & Hph) E. split; [done|]. exists H, L, T, R, es.
  split; [constructor; simpl; auto; by rewrite E|done].
Qed.

Lemma pubs_snoc l e : pub_of e = None -> pubs (l ++ [e]) = pubs l.
Proof. intros E. unfold pubs. rewrite omap_app. simpl. rewrite E. apply app_nil_r. Qed.

Lemma winv_plain own hand out k ph s e :
  winv own hand out k ph s -> plain e = true -> winv own hand out k ph (with_log (log s ++ [e]) s).
Proof.
  intros [[] Hw] He. split.
  - constructor; simpl; auto; [apply ids_ok_quiet; auto; by destruct e|by apply log_ok_plain].
  - intros Hb. apply window_log; auto. apply pubs_snoc. by destruct e.
Qed.

Lemma wp_plain own hand out k ph e Q s :
  winv own hand out k ph s -> plain e = true -> 
  (winv own hand out k ph (with_log (log s ++ [e]) s) -> Q tt (with_log (log s ++ [e]) s)) -> wp (emit_event e) Q s.
Proof. intros Hs He HQ. apply wp_modify, HQ. by apply winv_plain. Qed.

(** A report takes its intent out of hand. *)
Lemma log_ok_report k h l i r : log_ok k h l -> log_ok k h (l ++ [EReport i r]).
Proof.
  intros Hl. change k with (life_step k (EReport i r)) at 1. apply log_ok_snoc; try done. simpl.
  rewrite <- (lo_run _ _ _ Hl). apply (lo_burst _ _ _ Hl l []). by rewrite app_nil_r.
Qed.

Lemma log_ok_callback k h l i r : log_ok k h l -> log_ok k h (l ++ [ECallback i r]).
Proof.
  intros Hl. change k with (life_step k (ECallback i r)) at 1. apply log_ok_snoc; try done. simpl.
  rewrite <- (lo_run _ _ _ Hl). apply (lo_burst _ _ _ Hl l []). by rewrite app_nil_r.
Qed.

Definition report_tail (i : intent) (r : option error) : list wr_event :=
  EReport (done i) r :: if onReport i then [ECallback (done i) (bool_decide (r = None))] else [].

Lemma report_runs i r s : report i r s = Ret (with_log (log s ++ report_tail i r) s) tt.
Proof.
  unfold report, report_tail, emit_event. destruct (onReport i); [|done].
  cbn [mbind prog_bind modify]. unfold mbind, prog_bind, modify. simpl. by rewrite <- app_assoc.
Qed.

Lemma report_views i r l :
  reports (l ++ report_tail i r) = reports l ++ [(done i, r)] /\ pubs (l ++ report_tail i r) = pubs l /\
  callbacks (l ++ report_tail i r) =
    callbacks l ++ (if onReport i then [(done i, bool_decide (r = None))] else []).
Proof.
  unfold reports, pubs, callbacks, report_tail. rewrite !omap_app.
  destruct (onReport i); simpl; rewrite ?app_nil_r; auto.
Qed.

Lemma log_ok_tail k h l i r : log_ok k h l -> log_ok k h (l ++ report_tail i r).
Proof.
  intros Hl. unfold report_tail. destruct (onReport i); [|by apply log_ok_report].
  change (l ++ [?x; ?y]) with (l ++ [x] ++ [y]). rewrite app_assoc. by apply log_ok_callback, log_ok_report.
Qed.

Lemma ids_ok_report hand out hand' out' h l i r :
  ids_ok hand' out' h l -> hand' ++ out' ≡ₚ i :: hand ++ out ->
  (r = None -> out' ≡ₚ i :: out) -> (r <> None -> out' = out) ->
  ids_ok hand out h (l ++ report_tail i r).
Proof.
  intros [Ha Hk Hp Hc] Hperm Hok Hbad. destruct (report_views i r l) as (E1 & E2 & E3).
  assert (Hi : submitted h !! done i = Some i).
  { rewrite Forall_forall in Hk. apply Hk. rewrite app_assoc, elem_of_app, Hperm. left. by left. }
  constructor.
  - assert (Hd : done <$> hand' ++ out' ++ lifecycleQueue h ++ dataQueue h ≡ₚ
      done i :: (done <$> hand ++ out ++ lifecycleQueue h ++ dataQueue h)).
    { rewrite (app_assoc hand'), Hperm. simpl. by rewrite <- app_assoc. }
    rewrite E1, <- Ha, Hd, fmap_app. simpl. solve_Permutation.
  - rewrite app_assoc in Hk |- *. apply Forall_app in Hk as [Hk1 Hk2]. apply Forall_app. split; [|done].
    rewrite Hperm in Hk1. by apply Forall_cons in Hk1 as [_ ?].
  - rewrite E2, Hp. unfold oks. rewrite E1, omap_app. simpl. destruct r as [e|]; simpl.
    + by rewrite Hbad, app_nil_r.
    + rewrite Hok by done. simpl. solve_Permutation.
  - rewrite E1, E3, Hc, omap_app. f_equal. unfold reported_callback. simpl. rewrite Hi. by destruct (onReport i).
Qed.

Lemma winv_tail own hand out hand' out' k ph s i r :
  winv own hand' out' k ph s -> hand' ++ out' ≡ₚ i :: hand ++ out ->
  (r = None -> out' ≡ₚ i :: out) -> (r <> None -> out' = out) ->
  winv own hand out k ph (with_log (log s ++ report_tail i r) s).
Proof.
  intros [[] Hw] H1 H2 H3. split.
  - constructor; simpl; auto; [by eapply ids_ok_report|by apply log_ok_tail].
  - intros Hb. apply window_log; [auto|]. apply report_views.
Qed.

Lemma wp_report own hand out k ph i e Q s :
  winv own (i :: hand) out k ph s ->
  (winv own hand out k ph (with_log (log s ++ report_tail i (Some e)) s) ->
   Q tt (with_log (log s ++ report_tail i (Some e)) s)) -> wp (report i (Some e)) Q s.
Proof.
  intros Hs HQ. unfold wp. rewrite report_runs. apply HQ. by apply (winv_tail _ _ _ (i :: hand) out).
Qed.

Lemma wp_report_nil own hand out k ph i Q s :
  winv own hand (i :: out) k ph s ->
  (winv own hand out k ph (with_log (log s ++ report_tail i None) s) ->
   Q tt (with_log (log s ++ report_tail i None) s)) -> wp (report i None) Q s.
Proof.
  intros Hs HQ. unfold wp. rewrite report_runs. apply HQ. apply (winv_tail _ _ _ hand (i :: out)); try done.
  by rewrite Permutation_middle.
Qed.

(** ** Slabs *)

Lemma slabs_perm own own' a tbl : own ≡ₚ own' -> slabs_ok own a tbl -> slabs_ok own' a tbl.
Proof. intros E []. constructor; auto; by rewrite <- E. Qed.

Lemma live_typed a x : Arena.handle_live a x -> Arena.typed_handle x.
Proof. intros (_ & _ & H1 & H2 & _). by split. Qed.

(** A held slab is always freed. *)
Lemma slabs_free x own a tbl :
  slabs_ok (x :: own) a tbl ->
  exists a', Arena.Free x a = Ok a' /\ slabs_ok own a' tbl /\ Arena.mem a' = Arena.mem a /\
    Arena.generation a' = Arena.generation a /\
    forall ci i q, Arena.live a' ci i q <-> Arena.live a ci i q /\ (ci, i) <> key x.
Proof.
  intros [Ha Hc Ht Hl Hk]. simpl in Hl, Hk. apply Forall_cons in Hl as [Hx Hl]. apply NoDup_cons in Hk as [Hnx Hk].
  pose proof (Arena.Free_spec x a Ha (live_typed _ _ Hx)) as Hf. destruct (Arena.Free x a) as [a'|e|]; [|naive_solver..].
  destruct Hf as (_ & sc & [_ Fi Fl (F1 & F2 & F3 & F4) _]). exists a'. split_and!; auto.
  constructor; auto; [congruence|]. rewrite Forall_forall in Hl |- *. intros g Hg.
  destruct (Hl g Hg) as (G1 & G2 & G3 & G4). split_and!; [congruence..|]. apply Fl. split; [done|].
  intros E. apply Hnx. apply list_elem_of_fmap. exists g. split; [|done]. symmetry. exact E.
Qed.

Lemma omap_id_insert {A} (l : list (option A)) j r o :
  l !! j = Some o ->
  omap id l ≡ₚ option_list o ++ omap id (<[j := None]> l) /\
  omap id (<[j := r]> l) ≡ₚ option_list r ++ omap id (<[j := None]> l).
Proof.
  intros Hj. assert (Hlt := lookup_lt_Some _ _ _ Hj).
  assert (E : forall r', <[j := r']> l = take j l ++ r' :: drop (S j) l) by (intros; by apply insert_take_drop).
  rewrite <- (list_insert_id l j o) at 1 by done. 
  assert (F : forall r' : option A, omap id (r' :: drop (S j) l) = option_list r' ++ omap id (drop (S j) l)) by (by intros []).
  rewrite !E, !omap_app, !F. simpl. split; solve_Permutation.
Qed.

(** From the table into the writer's hand. *)
Lemma slabs_take j x own a tbl :
  slabs_ok own a tbl -> tbl !! j = Some (Some x) -> slabs_ok (x :: own) a (<[j := None]> tbl).
Proof.
  intros [] Hj. destruct (omap_id_insert tbl j None _ Hj) as [Hp _]. simpl in Hp.
  assert (Hq : own ++ omap id tbl ≡ₚ x :: own ++ omap id (<[j:=None]> tbl)) by (rewrite Hp; by rewrite Permutation_middle).
  constructor; auto; [unfold zlen; by rewrite length_insert|..]; rewrite <- app_comm_cons, <- Hq; done.
Qed.

(** From the hand into the table; what was in the slot is lost. *)
Lemma slabs_put j r own a tbl :
  slabs_ok (option_list r ++ own) a tbl -> (j < length tbl)%nat -> slabs_ok own a (<[j := r]> tbl).
Proof.
  intros [] Hlt. destruct (lookup_lt_is_Some_2 _ _ Hlt) as [o Hj].
  destruct (omap_id_insert tbl j r _ Hj) as [Hp Hq].
  assert (E : (option_list r ++ own) ++ omap id tbl ≡ₚ option_list o ++ (own ++ omap id (<[j := r]> tbl))).
  { rewrite Hp, Hq. solve_Permutation. }
  constructor; auto; [unfold zlen; by rewrite length_insert| |].
  - rewrite E in so_live0. by apply Forall_app in so_live0 as [_ ?].
  - rewrite E, fmap_app in so_keys0. by apply NoDup_app in so_keys0 as (_ & _ & ?).
Qed.

Lemma table_slot_ring h n : base_ok h -> table_slot w n = Ring.slot_index (ring h) n.
Proof.
  intros []. unfold table_slot, Ring.slot_index. rewrite bo_mask0, <- bo_cap0. by rewrite (Ring.mask_eq _ bo_ring0).
Qed.

Lemma table_slot_lt own hand out k s n :
  core own hand out k s -> (table_slot w (u64 n) < length (handleTable s))%nat.
Proof.
  intros Hc. rewrite (table_slot_ring (sh s)) by apply Hc.
  destruct (co_base _ _ _ _ _ Hc) as [B1 B2 _ _ _ _ _ _ _ _]. pose proof (Ring.slot_index_lt _ n B1) as H.
  pose proof (so_table _ _ _ (co_slabs _ _ _ _ _ Hc)) as Ht. pose proof (Ring.slots_len _ B1) as Hl.
  unfold zlen in *. lia.
Qed.

Lemma table_slot_inj own hand out k s m n :
  core own hand out k s -> - cap < m - n < cap -> table_slot w (u64 m) = table_slot w (u64 n) -> m = n.
Proof.
  intros Hc Hr. rewrite !(table_slot_ring (sh s)) by apply Hc. destruct (co_base _ _ _ _ _ Hc) as [B1 B2 _ _ _ _ _ _ _ _].
  apply Ring.slot_index_inj; [done|]. rewrite B2. lia.
Qed.

(** Freeing a slab in hand. *)
Lemma win_free H L T R es own s x a' :
  win H L T R es (x :: own) s -> Arena.mem a' = Arena.mem (arena (sh s)) ->
  (forall ci i q, Arena.live a' ci i q <-> Arena.live (arena (sh s)) ci i q /\ (ci, i) <> key x) ->
  win H L T R es own (with_sh (set_arena a' (sh s)) s).
Proof.
  intros [] Em Hl. constructor; simpl; auto.
  - eapply Forall_impl; [exact wi_es0|]. intros e He. eapply entry_ok_grows; [|exact Em|exact He]. by apply grows_same.
  - intros ci i q [Hq Hne]%Hl. apply wi_live0 in Hq. simpl in Hq. by apply elem_of_cons in Hq as [?|?].
Qed.

Lemma core_arena own own' hand out k s a' tbl' :
  core own hand out k s -> slabs_ok own' a' tbl' ->
  core own' hand out k (with_handleTable tbl' (with_sh (set_arena a' (sh s)) s)).
Proof.
  intros [S [B1 B2 B3 B4 B5 B6 B7 B10 B8 B9] _ [] [] ? ?] Hs. constructor; simpl; auto; constructor; auto.
Qed.

Lemma honest_arena h a' :
  honest_ok h -> Arena.mem a' = Arena.mem (arena h) -> Arena.generation a' = Arena.generation (arena h) ->
  honest_ok (set_arena a' h).
Proof.
  intros [] E1 E2. constructor; simpl; auto; [by rewrite E1|by rewrite E2|].
  eapply Forall_impl; [eassumption|]. intros e He. eapply entry_ok_grows; [|exact E1|exact He]. by apply grows_same.
Qed.

Lemma wp_free own hand out k ph x Q s :
  winv (x :: own) hand out k ph s -> (forall e, ph <> Built e) ->
  (forall s', winv own hand out k ph s' -> Q tt s') -> wp (free_slab x) Q s.
Proof.
  intros [Hc Hw] Hph HQ. destruct (slabs_free x (own ++ keep) _ _ (co_slabs _ _ _ _ _ Hc)) as (a' & Ef & Hs & Em & Eg & Hl).
  unfold wp, free_slab. rewrite Ef. apply HQ.
  change (with_log ?l (with_sh ?h s)) with (with_log (log (with_sh h s) ++ [EFree x true]) (with_sh h s)).
  apply winv_plain; [|done]. split.
  - apply (core_arena _ _ _ _ _ _ a' (handleTable s) Hc) in Hs. by destruct s.
  - intros Hb. destruct (Hw Hb) as (Hh & H & L & T & R & es & Hwin & Hp). split; [by apply honest_arena|].
    exists H, L, T, R, es. split; [by apply win_free with x|]. destruct ph; try done. by destruct (Hph e).
Qed.

Lemma wp_free_owned own hand out k ph o Q s :
  winv (option_list o ++ own) hand out k ph s -> (forall e, ph <> Built e) ->
  (forall s', winv own hand out k ph s' -> Q tt s') -> wp (free_owned o) Q s.
Proof. intros Hs Hph HQ. destruct o as [x|]; simpl in *; [by eapply wp_free|apply wp_ret; auto]. Qed.

(** Fills keep their size and callback, and a claim. *)
Lemma fills_steps h h' p f :
  rtc (env w b) h h' -> fills h !! p = Some f ->
  exists f', fills h' !! p = Some f' /\ size f' = size f /\ fn f' = fn f.
Proof.
  intros He. revert f. induction He as [h|h1 h2 h3 H12 _ IH]; intros f Hf; [eauto|].
  destruct (gr_fills _ _ (env_grows _ _ H12) _ _ Hf) as (f1 & Hf1 & E1 & E2 & _).
  destruct (IH _ Hf1) as (f2 & Hf2 & E3 & E4). exists f2. split_and!; auto; congruence.
Qed.

Lemma fill_state_steps h h' p :
  rtc (env w b) h h' -> fill_state h p = Some fillFilling -> fill_state h' p = Some fillFilling.
Proof.
  induction 1 as [|h1 h2 h3 H12 _ IH]; [done|]. intros Hp. apply IH. eapply fill_state_grows; [by apply env_grows|done].
Qed.

Lemma moved_steps s s' : moved s s' -> rtc (env w b) (sh s) (sh s').
Proof. by intros (sc & h & -> & He). Qed.

(** The size the intent declared. *)
Definition declared (h : shared) (p : nat) (len : Z) : Prop := exists pf, fills h !! p = Some pf /\ size pf = len.

Lemma declared_steps h h' p len : rtc (env w b) h h' -> declared h p len -> declared h' p len.
Proof. intros He (pf & Hp & Es). destruct (fills_steps _ _ _ _ He Hp) as (f' & ? & ? & _). exists f'. split; [done|congruence]. Qed.

(** ** Reclaim *)

(** One slot: its slab, if any, is freed and the slot cleared. *)
Definition after_slot (a' : Arena.Arena) (ev : list wr_event) (n : Z) (s : wr) : wr :=
  with_lastReclaimed (u64 (n + 1))
    (with_handleTable (<[table_slot w n := None]> (handleTable s))
      (with_log (log s ++ ev) (with_sh (set_arena a' (sh s)) s))).

Lemma reclaim_slot_run own hand out k s :
  core own hand out k s ->
  exists a' ev o, reclaim_slot w s = Ret (after_slot a' ev (lastReclaimed s) s) tt /\
    handleTable s !! table_slot w (lastReclaimed s) = Some o /\
    slabs_ok own a' (<[table_slot w (lastReclaimed s) := None]> (handleTable s)) /\
    Arena.mem a' = Arena.mem (arena (sh s)) /\ Arena.generation a' = Arena.generation (arena (sh s)) /\
    match o with
    | None => ev = [] /\ a' = arena (sh s)
    | Some x => ev = [EFree x true] /\
        forall ci i q, Arena.live a' ci i q <-> Arena.live (arena (sh s)) ci i q /\ (ci, i) <> key x
    end.
Proof.
  intros Hc. pose proof (table_slot_lt _ _ _ _ _ (lastReclaimed s) Hc) as Hlt.
  rewrite u64_id in Hlt by apply Hc. destruct (lookup_lt_is_Some_2 _ _ Hlt) as [o Ho].
  pose proof (co_slabs _ _ _ _ _ Hc) as Hs. unfold reclaim_slot, after_slot.
  unfold mbind, prog_bind, gets, table_get, modify. simpl. rewrite Ho. destruct o as [x|].
  - destruct (slabs_free x own _ _ (slabs_take _ _ _ _ _ Hs Ho)) as (a' & Ef & Hs' & Em & Eg & Hl).
    exists a', [EFree x true], (Some x). split_and!; auto. unfold free_slab, table_set. rewrite Ef. simpl.
    rewrite decide_True by done. done.
  - exists (arena (sh s)), [], None. rewrite list_insert_id by done. split_and!; auto.
    destruct s as [h]; destruct h; simpl. by rewrite app_nil_r.
Qed.

Lemma core_slot own hand out k s a' ev o :
  core own hand out k s ->
  handleTable s !! table_slot w (lastReclaimed s) = Some o ->
  slabs_ok own a' (<[table_slot w (lastReclaimed s) := None]> (handleTable s)) ->
  ev = match o with Some x => [EFree x true] | None => [] end ->
  core own hand out k (after_slot a' ev (lastReclaimed s) s).
Proof.
  intros Hc Ho Hs ->. pose proof (core_arena _ _ _ _ _ _ _ _ Hc Hs) as [C1 C2 C3 C4 C5 C6 C7]. unfold after_slot.
  constructor; simpl in *; auto; [| |apply u64_range].
  - destruct o as [x|]; [by apply ids_ok_quiet|by rewrite app_nil_r].
  - destruct o as [x|]; [by apply log_ok_plain|by rewrite app_nil_r].
Qed.

Lemma win_slot H L T R es own hand out k s a' ev o :
  core own hand out k s -> win H L T R es own s -> L < H -> 0 < cap ->
  handleTable s !! table_slot w (lastReclaimed s) = Some o ->
  Arena.mem a' = Arena.mem (arena (sh s)) ->
  match o with
  | None => ev = [] /\ a' = arena (sh s)
  | Some x => ev = [EFree x true] /\
      forall ci i q, Arena.live a' ci i q <-> Arena.live (arena (sh s)) ci i q /\ (ci, i) <> key x
  end ->
  win H (L + 1) T (List.tl R) es own (after_slot a' ev (lastReclaimed s) s).
Proof.
  intros Hc Hwin Hlt Hcap Ho Em Hev. pose proof Hwin as [W1 W2 W3 W4 W5 W6 W7 W8 W9 W10 W11].
  rewrite W2 in Ho.
  (* the slot is the head of the window, or past it and empty *)
  assert (HR : R = o :: List.tl R \/ (R = [] /\ o = None)).
  { destruct R as [|r R']; [right|left].
    - split; [done|]. destruct o as [x|]; [|done]. destruct (W7 _ _ Ho) as (? & ? & _). done.
    - specialize (W6 0%nat r eq_refl). rewrite Z.add_0_r in W6. simpl. congruence. }
  assert (Hother : forall j r, List.tl R !! j = Some r -> table_slot w (u64 (L + 1 + Z.of_nat j)) <> table_slot w (u64 L)).
  { intros j r Hj E. eapply table_slot_inj in E; [|exact Hc|]; [lia|].
    apply lookup_lt_Some in Hj. destruct R as [|r0 R']; [by simpl in Hj; lia|]. unfold zlen in *. simpl in *. lia. }
  constructor; simpl; rewrite ?W2; auto; try lia.
  - by rewrite u64_add_l.
  - destruct HR as [HR|[-> _]]; [|simpl; unfold zlen in *; simpl in *; lia].
    destruct R as [|r R']; [done|]. unfold zlen in *. simpl in *. lia.
  - destruct R as [|r R']; [done|]. unfold zlen in *. simpl in *. lia.
  - intros j r Hj. rewrite list_lookup_insert_ne; [|by apply not_eq_sym, (Hother j r)].
    destruct R as [|r0 R']; [done|]. specialize (W6 (S j) r Hj).
    by replace (L + 1 + Z.of_nat j) with (L + Z.of_nat (S j)) by lia.
  - intros j x Hj. destruct (decide (table_slot w (u64 L) = j)) as [<-|Hne].
    { rewrite list_lookup_insert_eq in Hj by (by eapply lookup_lt_Some). done. }
    rewrite list_lookup_insert_ne in Hj by done. destruct (W7 _ _ Hj) as (i & Hi & Ei).
    destruct i as [|i]; [by rewrite Z.add_0_r in Ei|]. destruct R as [|r0 R']; [done|].
    exists i. split; [done|]. rewrite <- Ei. do 2 f_equal. lia.
  - intros i e Hi Hlt'. specialize (W8 i e Hi Hlt'). destruct R as [|r0 R']; [done|].
    replace (Z.to_nat (H + Z.of_nat i - L)) with (S (Z.to_nat (H + Z.of_nat i - (L + 1)))) in W8 by lia. done.
  - eapply Forall_impl; [exact W9|]. intros e He. eapply entry_ok_grows; [|exact Em|exact He]. by apply grows_same.
  - intros ci i q Hq. destruct (omap_id_insert (handleTable s) _ None _ Ho) as [Hp _].
    unfold refs in *. simpl. rewrite fmap_app, elem_of_app. destruct o as [x|].
    + destruct Hev as [_ Hl]. apply Hl in Hq as [Hq Hne]. apply W10 in Hq.
      rewrite Hp, !fmap_app, !elem_of_app in Hq. simpl in Hq. rewrite list_elem_of_singleton in Hq. naive_solver.
    + destruct Hev as [_ ->]. apply W10 in Hq. rewrite Hp in Hq. simpl in Hq. by rewrite fmap_app, elem_of_app in Hq.
  - destruct W11 as (pre & E & Epre). exists pre. split; [|done]. rewrite <- E. unfold pubs. rewrite omap_app.
    destruct o as [x|]; destruct Hev as [-> _]; by rewrite app_nil_r.
Qed.

Lemma cap_pos own hand out k s : core own hand out k s -> 0 < cap < 2 ^ 21.
Proof.
  intros Hc. destruct (co_base _ _ _ _ _ Hc) as [[B1 _ _ _] B2 _ _ _ _ _ _ _ _].
  unfold Ring.minCapacity, Ring.maxCapacity in *. lia.
Qed.

(** The phases a reclaim runs in. *)
Definition reclaiming (ph : phase) : Prop := ph = Idle \/ exists e seq, ph = Pushed e seq.

Lemma reclaim_loop_ok own hand out k ph fuel hd s :
  winv own hand out k ph s -> reclaiming ph ->
  fuel = Z.to_nat (u64 (hd - lastReclaimed s)) -> is_u64 hd -> (b = true -> hd = Ring.head (ring (sh s))) ->
  wp (reclaim_loop w fuel hd)
    (fun _ s' => winv own hand out k ph s' /\ lastReclaimed s' = hd /\ ring (sh s') = ring (sh s) /\
      fills (sh s') = fills (sh s)) s.
Proof.
  intros Hs Hph. revert s Hs. induction fuel as [|fuel IH]; intros s Hs Hfuel Hhd Hb; pose proof Hs as [Hc Hw].
  - apply wp_ret. split_and!; auto. pose proof (co_last _ _ _ _ _ Hc) as Hl.
    unfold is_u64, u64 in *. pose proof (Z.mod_pos_bound (hd - lastReclaimed s) (2 ^ 64) ltac:(lia)).
    assert (Hz : (hd - lastReclaimed s) mod 2 ^ 64 = 0) by lia. apply Z.mod_divide in Hz as [c Hz]; [|lia]. nia.
  - cbn [reclaim_loop]. apply wp_bind, wp_gets. destruct (Z.eqb_spec (lastReclaimed s) hd) as [E|Hne]; [by apply wp_ret|].
    destruct (reclaim_slot_run _ _ _ _ _ Hc) as (a' & ev & o & Er & Ho & Hsl & Em & Eg & Hev).
    apply wp_bind. unfold wp at 1. rewrite Er.
    assert (Hev' : ev = match o with Some x => [EFree x true] | None => [] end) by (by destruct o; destruct Hev).
    eapply wp_mono; [apply IH|].
    + split; [by eapply core_slot|]. intros Hbt. destruct (Hw Hbt) as (Hh & H & L & T & R & es & Hwin & Hp).
      split; [by apply honest_arena|]. exists H, (L + 1), T, (List.tl R), es. split.
      * eapply win_slot; eauto; [|by apply (cap_pos _ _ _ _ _ Hc)].
        destruct (Z.eq_dec L H) as [->|]; [|pose proof (wi_le _ _ _ _ _ _ _ Hwin); lia].
        destruct Hne. rewrite (Hb Hbt), (Ring.rep_head _ _ _ (wi_ring _ _ _ _ _ _ _ Hwin)). apply Hwin.
      * destruct Hph as [->|(e & sq & ->)]; done.
    + simpl. pose proof (co_last _ _ _ _ _ Hc) as Hl. unfold u64, is_u64 in *. rewrite Zminus_mod_idemp_r.
      replace (hd - (lastReclaimed s + 1)) with (hd - lastReclaimed s - 1) by lia.
      pose proof (Z.mod_pos_bound (hd - lastReclaimed s) (2 ^ 64) ltac:(lia)).
      rewrite <- (Zminus_mod_idemp_l (hd - lastReclaimed s)). rewrite (Z.mod_small (_ - 1)); [lia|].
      assert ((hd - lastReclaimed s) mod 2 ^ 64 <> 0); [|lia].
      intros Hz. apply Z.mod_divide in Hz as [c Hz]; [|lia]. apply Hne. nia.
    + done.
    + done.
    + intros _ s' (? & ? & E & E'). split_and!; auto.
Qed.

Lemma moved_tail s s' : b = true -> moved s s' -> Ring.tail (ring (sh s')) = Ring.tail (ring (sh s)).
Proof.
  intros Hb (sc & h & -> & He). simpl. induction He as [|h1 h2 h3 H12 _ IH]; [done|]. rewrite IH.
  destruct H12 as [h1 r m x Hp|h1 c h2 e _ H|h1 p| | | |]; try done.
  - rewrite Hb in Hp. by destruct Hp as ((k & _ & ->) & _).
  - destruct c as [pick ctx f l|pick ctx f sz cb|pick ctx f]; simpl in H; unfold submit, submitFill, submitReporting in H;
      match type of H with enqueue _ _ _ ?i _ _ = _ =>
        destruct (enqueue_cases _ _ i _ _ _ H) as (a & n & [[-> _]|(-> & _)]); unfold push_intent; try done;
        by destruct (lane i =? laneLifecycle) end.
  - unfold abandon, cas_fill. destruct (fills h1 !! p) as [f|]; [|done]. by destruct (fstate f =? fillPending).
Qed.

Lemma moved_kept s s' : moved s s' ->
  handleTable s' = handleTable s /\ lastReclaimed s' = lastReclaimed s /\ log s' = log s /\
  pendingSlab s' = pendingSlab s /\ classStalls s' = classStalls s.
Proof. by intros (sc & h & -> & _). Qed.

(** Poisoning, which an honest peer never brings about. *)
Lemma wp_poison own hand out k ph Q s :
  winv own hand out k ph s -> b = false ->
  (forall s', winv own hand out k ph s' -> (forall p n, declared (sh s) p n -> declared (sh s') p n) -> Q true s') ->
  wp poisonRingCorrupt Q s.
Proof.
  intros Hs Hb HQ. eapply wp_access; [done|]. intros s1 [H1 _] M1. unfold wp, Set_. cbn [invalid_cause].
  change (invalid_cause PoisonRingCorrupt) with false. cbn iota. destruct (cas_poison PoisonRingCorrupt _) as [x won].
  apply HQ; [|intros p n Hd; exact (declared_steps _ _ _ _ (moved_steps _ _ M1) Hd)]. split; [|by rewrite Hb].
  destruct H1 as [C1 [B1 B2 B3 B4 B5 B6 B7 B10 B8 B9] C3 C4 C5 C6 C7].
  constructor; simpl; auto; [by constructor|apply ids_ok_quiet; [by destruct C4|done..]|].
  apply log_ok_plain; [by destruct C5|done].
Qed.

(** The phase after a reclaim. *)
Definition swept (ph : phase) : phase := match ph with Pushed e seq => Swept e seq | _ => ph end.

Lemma wp_reclaim own hand out k ph Q s :
  winv own hand out k ph s -> reclaiming ph ->
  (forall s', winv own hand out k (swept ph) s' -> (forall p n, declared (sh s) p n -> declared (sh s') p n) -> Q tt s') ->
  wp (reclaim w (cap + match ph with Pushed _ _ => 1 | _ => 0 end)) Q s.
Proof.
  intros Hs Hph HQ. unfold reclaim. apply wp_bind, wp_gets.
  assert (Ecap : capacity s = cap) by apply (so_table _ _ _ (co_slabs _ _ _ _ _ (proj1 Hs))). rewrite Ecap.
  apply wp_bind. eapply wr_load; [done|]. intros s1 H1 M1. apply wp_bind. eapply wr_load; [done|]. intros s2 H2 M2.
  pose proof (cap_pos _ _ _ _ _ (proj1 H2)) as Hcp.
  assert (Hdec : forall p n, declared (sh s) p n -> declared (sh s2) p n).
  { intros p n Hd. eapply declared_steps; [by apply moved_steps|]. eapply declared_steps; [by apply moved_steps|done]. }
  assert (Hfalse : forall s', b = false -> winv own hand out k ph s' -> winv own hand out k (swept ph) s').
  { intros s' Hb [? _]. split; [done|]. by rewrite Hb. }
  assert (Hpoison : b = false -> wp (poisonRingCorrupt ≫= fun _ => mret tt) Q s2).
  { intros Hb. eapply wp_bind, wp_poison; [exact H2|done|]. intros s3 H3 D3. apply wp_ret, HQ; auto. }
  (* with an honest peer the head is the one in the ring, within reach *)
  assert (Hb : b = true -> exists H L T R es, win H L T R es (own ++ keep) s2 /\ phase_ok ph H L T es (sh s2) /\
    Ring.Len (ring (sh s2)) = zlen es /\ zlen es <= cap /\
    u64 (Ring.Tail (ring (sh s1)) - Ring.Len (ring (sh s2))) = u64 H /\
    H - L <= cap + match ph with Pushed _ _ => 1 | _ => 0 end).
  { intros Hbt. destruct H2 as [Hc2 Hw2]. destruct (Hw2 Hbt) as (_ & H & L & T & R & es & Hwin & Hp).
    pose proof Hwin as [W1 W2 W3 W4 W5 _ _ _ _ _ _]. pose proof (Ring.rep_depth _ _ _ W1) as Hd.
    pose proof (Ring.rep_bound _ _ _ W1) as Hbd. rewrite (bo_cap _ (co_base _ _ _ _ _ Hc2)) in Hbd.
    assert (El : zlen (e_d <$> es) = zlen es) by (unfold zlen; by rewrite length_fmap). rewrite El in *.
    exists H, L, T, R, es. split_and!; auto.
    - unfold Ring.Len. rewrite Hd. unfold Ring.Tail. rewrite <- (moved_tail _ _ Hbt M2), (Ring.rep_tail _ _ _ W1), El.
      unfold u64. rewrite Zminus_mod_idemp_l. f_equal. lia.
    - pose proof (zlen_nonneg es). destruct Hph as [->|(e & sq & ->)]; simpl in Hp; lia. }
  destruct (Z.ltb_spec cap (Ring.Len (ring (sh s2)))) as [Hbig|Hsmall].
  { apply Hpoison. destruct b; [|done]. destruct (Hb eq_refl) as (H & L & T & R & es & _ & _ & E & ? & _). lia. }
  apply wp_bind, wp_gets. set (hd := u64 (Ring.Tail (ring (sh s1)) - Ring.Len (ring (sh s2)))) in *.
  destruct (Z.ltb_spec (cap + match ph with Pushed _ _ => 1 | _ => 0 end) (u64 (hd - lastReclaimed s2))) as [Hfar|Hnear].
  { apply Hpoison. destruct b; [|done]. destruct (Hb eq_refl) as (H & L & T & R & es & Hwin & _ & _ & _ & E & Hr).
    pose proof Hwin as [_ W2 W3 _ _ _ _ _ _ _ _]. rewrite E, W2, u64_sub_lr in Hfar.
    rewrite u64_id in Hfar; [lia|]. unfold is_u64. destruct ph; lia. }
  eapply wp_mono; [eapply (reclaim_loop_ok _ _ _ _ _ _ _ _ H2); auto|].
  - apply u64_range.
  - intros Hbt. destruct (Hb Hbt) as (H & L & T & R & es & Hwin & _ & _ & _ & E & _). rewrite E.
    by rewrite (Ring.rep_head _ _ _ (wi_ring _ _ _ _ _ _ _ Hwin)).
  - intros [] s3 (H3 & El & Er & Ef). apply HQ;
      [|intros p n Hd; destruct (Hdec _ _ Hd) as (pf & ? & ?); exists pf; by rewrite Ef]. destruct H3 as [Hc3 Hw3]. split; [done|].
    intros Hbt. destruct (Hw3 Hbt) as (Hh & H & L & T & R & es & Hwin & Hp). split; [done|]. exists H, L, T, R, es.
    split; [done|]. destruct Hph as [->|(e & sq & ->)]; simpl in *; [done|]. destruct Hp as (? & ? & ?). split_and!; auto.
    destruct (Hb Hbt) as (H' & L' & T' & R' & es' & Hwin' & _ & _ & Hes' & E & _).
    pose proof (Ring.rep_head _ _ _ (wi_ring _ _ _ _ _ _ _ Hwin)) as Eh.
    pose proof (Ring.rep_bound _ _ _ (wi_ring _ _ _ _ _ _ _ Hwin)) as Hbd.
    rewrite (bo_cap _ (co_base _ _ _ _ _ Hc3)) in Hbd.
    assert (Hlen : zlen (e_d <$> es) = zlen es) by (unfold zlen; by rewrite length_fmap). rewrite Hlen in *.
    pose proof Hwin as [_ W2 W3 W4 W5 _ _ _ _ _ _].
    assert (u64 L = u64 H).
    { rewrite <- W2, El, <- Eh, Er, (Ring.rep_head _ _ _ (wi_ring _ _ _ _ _ _ _ Hwin')). done. }
    pose proof (zlen_nonneg es). assert (H - L <= 2 ^ 22) by lia.
    assert (L = H); [|lia]. unfold u64 in *. assert (Hz : (H - L) mod 2 ^ 64 = 0) by (rewrite Zminus_mod; replace (H mod 2^64) with (L mod 2 ^ 64) by done; rewrite Z.sub_diag; done).
    rewrite Z.mod_small in Hz by lia. lia.
Qed.

(** ** Publishing *)

Lemma entry_wf h e : entry_ok h e -> Descriptor.wf (e_d e).
Proof.
  intros (i & f & rk & only & _ & _ & _ & _ & _ & H). destruct (e_ref e) as [x|].
  - destruct H as (_ & _ & ->). unfold slab_fields.
    apply (Descriptor.setter_wf Descriptor.FAllocSeq), (Descriptor.setter_wf Descriptor.FGeneration),
      (Descriptor.setter_wf Descriptor.FPayloadLength), (Descriptor.setter_wf Descriptor.FPayloadOffset).
    rewrite data_fields_stamp. destruct (useChecksum w); [apply (Descriptor.setter_wf Descriptor.FFlags)|]; apply stamp_wf.
  - destruct H as [[_ ->]|(_ & _ & _ & ->)]; [rewrite head_fields_stamp|rewrite data_fields_stamp]; apply stamp_wf.
Qed.

(** A successful push: the ring afterwards. *)
Lemma push_ok_config h d r :
  base_ok h -> Ring.Push d (ring h) = Ok r -> same_config (ring h) r /\ Ring.head r = Ring.head (ring h).
Proof.
  intros Hb H. unfold Ring.Push in H. destruct (Ring.push_check _ _ _); [done|]. case_decide; [|done]. simplify_eq.
  unfold same_config. split_and!; simpl; auto; [unfold zlen; by rewrite length_insert|]. intros _. apply u64_range.
Qed.

Lemma push_no_panic h d : base_ok h -> Ring.Push d (ring h) <> Panic.
Proof.
  intros [B1 _ _ _ B5 _ _ _ _ _]. unfold Ring.Push. destruct (Ring.push_check _ _ _); [done|].
  rewrite decide_True; [done|]. pose proof (Ring.slot_index_lt _ (Ring.tail (ring h)) B1) as Hl. by rewrite u64_id in Hl.
Qed.

Lemma core_push own hand out k s i seq d r :
  core own (i :: hand) out k s -> Ring.Push d (ring (sh s)) = Ok r -> last (log s) = Some (EGate 0 0) ->
  (forall p, fill i = Some p -> fill_state (sh s) p = Some fillFilling) ->
  core own hand (i :: out) k (with_log (log s ++ [EPublish (done i) seq d]) (with_sh (set_ring r (sh s)) s)).
Proof.
  intros [C1 C2 C3 C4 C5 C6 C7] Hr Hg Hf. destruct (push_ok_config _ _ _ C2 Hr) as [Hsame _].
  pose proof Hsame as (E1 & _ & _ & E4 & E5). pose proof C4 as [I1 I2 I3 I4].
  pose proof I2 as I2'. simpl in I2'. apply Forall_cons in I2' as [Hi _].
  constructor; simpl; auto.
  - destruct C2. constructor; simpl; auto; [by eapply same_config_ok|congruence].
  - set (l' := log s ++ [EPublish (done i) seq d]).
    assert (Er : reports l' = reports (log s)) by (unfold l', reports; rewrite omap_app; apply app_nil_r).
    assert (Ec : callbacks l' = callbacks (log s)) by (unfold l', callbacks; rewrite omap_app; apply app_nil_r).
    assert (Ep : pubs l' = pubs (log s) ++ [(done i, d)]) by (unfold l', pubs; by rewrite omap_app).
    assert (Hp : (i :: hand) ++ out ++ lifecycleQueue (sh s) ++ dataQueue (sh s) ≡ₚ
      hand ++ (i :: out) ++ lifecycleQueue (sh s) ++ dataQueue (sh s)) by solve_Permutation.
    constructor; simpl.
    + by rewrite Er, <- I1, Hp.
    + by rewrite <- Hp.
    + rewrite Ep, fmap_app, I3. unfold oks. rewrite Er. simpl. solve_Permutation.
    + by rewrite Er, Ec.
  - replace k with (life_step k (EPublish (done i) seq d)) by done.
    apply (log_ok_snoc _ (set_ring r (sh s)) _ (EPublish (done i) seq d)); try done; [by destruct C5| |].
    + simpl. rewrite <- (lo_run _ _ _ C5). apply (lo_burst _ _ _ C5 (log s) []). by rewrite app_nil_r.
    + intros id q d' [= <- <- <-]. split; [done|]. intros i' p Hi' Hp. simpl in Hi'. rewrite Hi in Hi'. simplify_eq. by apply Hf.
Qed.

Lemma win_push H L T R es own s e r i seq :
  win H L T R es own s -> phase_ok (Built e) H L T es (sh s) -> done i = e_id e ->
  Ring.Push (e_d e) (ring (sh s)) = Ok r ->
  win H L T R (es ++ [e]) own (with_log (log s ++ [EPublish (done i) seq (e_d e)]) (with_sh (set_ring r (sh s)) s)).
Proof.
  intros [W1 W2 W3 W4 W5 W6 W7 W8 W9 W10 W11] [HT He] Hid Hr.
  assert (El : zlen (e_d <$> es) = zlen es) by (unfold zlen; by rewrite length_fmap).
  constructor; simpl; auto.
  - rewrite fmap_app. simpl. unfold Ring.Push in Hr. rewrite (Ring.push_check_rep _ _ _ W1) in Hr.
    destruct (Z.eqb_spec (zlen (e_d <$> es)) (Ring.capacity (ring (sh s)))) as [|Hne]; [done|].
    rewrite (Ring.rep_tail _ _ _ W1), decide_True in Hr by (apply Ring.slot_index_lt, W1). simplify_eq.
    pose proof (Ring.rep_bound _ _ _ W1).
    apply (Ring.rep_publish (Ring.set_slot (Ring.slot_index (ring (sh s)) (u64 (H + zlen (e_d <$> es)))) (e_d e) (ring (sh s)))).
    + apply Ring.rep_write_tail_slot; [done|lia].
    + simpl. lia.
    + simpl. rewrite list_lookup_insert_eq; [done|]. apply Ring.slot_index_lt, W1.
  - intros k e' Hk Hlt. apply lookup_snoc_Some in Hk as [[_ Hk]|[-> _]]; [auto|]. unfold zlen in *. lia.
  - apply Forall_app. split; [done|]. constructor; [done|constructor].
  - destruct W11 as (pre & E & Epre). exists pre. split; [|done]. unfold pubs. rewrite omap_app. simpl. fold (pubs (log s)).
    rewrite E, fmap_app, <- app_assoc. simpl. by rewrite Hid.
Qed.

Lemma wp_push own hand out k e i seq Q s :
  winv own (i :: hand) out k (Built e) s -> done i = e_id e -> last (log s) = Some (EGate 0 0) ->
  (forall p, fill i = Some p -> fill_state (sh s) p = Some fillFilling) ->
  (b = true -> seq = Ring.tail (ring (sh s))) ->
  (forall s', winv own hand (i :: out) k (Pushed e seq) s' -> Q None s') ->
  (forall err s', winv own (i :: hand) out k (Built e) s' -> rtc (env w b) (sh s) (sh s') ->
     (b = true -> err = Ring.ErrFull) -> Q (Some err) s') ->
  wp (push i seq (e_d e)) Q s.
Proof.
  intros Hs Hid Hg Hf Hseq HQ1 HQ2. eapply wp_access; [done|]. intros s1 [Hc Hw] M1.
  pose proof (push_no_panic _ (e_d e) (co_base _ _ _ _ _ Hc)) as Hnp. destruct (moved_kept _ _ M1) as (_ & _ & El & _).
  unfold wp. destruct (Ring.Push (e_d e) (ring (sh s1))) as [r|err|] eqn:Hr; [| |done].
  - apply HQ1. split.
    + apply core_push; auto; [by rewrite El|]. intros p Hp. destruct M1 as (sc & h & -> & He). simpl.
      specialize (Hf p Hp). clear -He Hf. induction He as [|h1 h2 h3 H12 _ IH]; [done|].
      apply IH. eapply fill_state_grows; [by apply env_grows|done].
    + intros Hb. destruct (Hw Hb) as (Hh & H & L & T & R & es & Hwin & Hp). split.
      * destruct Hh as [Z1 Z2 Z3 Z4 Z5]. constructor; simpl; auto. unfold Ring.Push in Hr.
        destruct (Ring.push_check _ _ _); [done|]. case_decide; [|done]. simplify_eq. simpl.
        apply Forall_insert; [done|]. eapply entry_wf, Hp.
      * exists H, L, T, R, (es ++ [e]). split; [by apply win_push|]. destruct Hp as [HT _].
        pose proof (wi_ring _ _ _ _ _ _ _ Hwin) as W1. split_and!.
        -- rewrite (Hseq Hb), <- (moved_tail _ _ Hb M1), (Ring.rep_tail _ _ _ W1), HT. unfold zlen. by rewrite length_fmap.
        -- unfold zlen in *. rewrite length_app. simpl. lia.
        -- right. apply last_snoc.
  - apply HQ2; [by split|by apply moved_steps|]. intros Hb. destruct (Hw Hb) as (_ & H & L & T & R & es & Hwin & _).
    unfold Ring.Push in Hr. rewrite (Ring.push_check_rep _ _ _ (wi_ring _ _ _ _ _ _ _ Hwin)) in Hr.
    destruct (_ =? _); simplify_eq; [done|]. case_decide; done.
Qed.

(** What [published] does after its reclaim. *)
Definition passed (seq : Z) (s : wr) : bool := lastReclaimed s =? (seq +₆₄ 1)%word.

Lemma winv_counts own hand out k ph s x y :
  winv own hand out k ph s -> winv own hand out k ph (with_counts x y s).
Proof.
  intros [[] Hw]. split; [by constructor|]. intros Hb. destruct (Hw Hb) as (? & H & L & T & R & es & [] & ?).
  split; [done|]. exists H, L, T, R, es. split; [by constructor|done].
Qed.

(** The peer has not consumed the frame yet: the table covers it from now on. *)
Lemma win_record H L T R es own s e seq hand out k :
  core (option_list (e_ref e) ++ own) hand out k s ->
  win H L T R es (option_list (e_ref e) ++ own) s -> phase_ok (Swept e seq) H L T es (sh s) -> L <= T ->
  win H L (T + 1) (R ++ [e_ref e]) es own
    (with_handleTable (<[table_slot w seq := e_ref e]> (handleTable s)) s).
Proof.
  intros Hc [W1 W2 W3 W4 W5 W6 W7 W8 W9 W10 W11] (-> & HT & Hcap & Hlast) HL.
  assert (Elen : zlen R = T - L) by lia. pose proof (zlen_nonneg es) as Hes.
  assert (Hlt : (table_slot w (u64 T) < length (handleTable s))%nat) by (by eapply table_slot_lt).
  assert (Hne : forall j r, R !! j = Some r -> table_slot w (u64 T) <> table_slot w (u64 (L + Z.of_nat j))).
  { intros j r Hj E. apply lookup_lt_Some in Hj. eapply table_slot_inj in E; [|exact Hc|]; unfold zlen in *; lia. }
  destruct (lookup_lt_is_Some_2 _ _ Hlt) as [o Ho].
  assert (o = None) as ->.
  { destruct o as [x|]; [|done]. destruct (W7 _ _ Ho) as (j & Hj & E). by destruct (Hne j _ Hj). }
  destruct (omap_id_insert (handleTable s) _ (e_ref e) _ Ho) as [Hp Hq]. simpl in Hp.
  constructor; simpl; auto.
  - unfold zlen in *. rewrite length_app. simpl. lia.
  - unfold zlen in *. rewrite length_app. simpl. lia.
  - intros j r Hj. apply lookup_snoc_Some in Hj as [[_ Hj]|[-> <-]].
    + rewrite list_lookup_insert_ne by eauto. auto.
    + replace (L + Z.of_nat (length R)) with T by (unfold zlen in *; lia). by apply list_lookup_insert_eq.
  - intros j x Hj. destruct (decide (table_slot w (u64 T) = j)) as [<-|Hn].
    + rewrite list_lookup_insert_eq in Hj by done. simplify_eq. exists (length R). split.
      * rewrite lookup_app_r, Nat.sub_diag by lia. simpl. congruence.
      * do 2 f_equal. unfold zlen in *. lia.
    + rewrite list_lookup_insert_ne in Hj by done. destruct (W7 _ _ Hj) as (j' & Hj' & E).
      exists j'. split; [by apply lookup_app_l_Some|done].
  - intros j e' Hj Hlt'. destruct (Z.lt_ge_cases (H + Z.of_nat j) T).
    + apply lookup_app_l_Some. auto.
    + destruct Hlast as [->|Hlast]; [done|]. rewrite last_lookup in Hlast.
      assert (Ej : Init.Nat.pred (length es) = j) by (apply lookup_lt_Some in Hj; unfold zlen in *; lia).
      rewrite Ej, Hj in Hlast. injection Hlast as ->. rewrite lookup_app_r by (unfold zlen in *; lia).
      replace (Z.to_nat (H + Z.of_nat j - L) - length R)%nat with 0%nat by (unfold zlen in *; lia). done.
  - intros ci i q Hl. apply W10 in Hl. unfold refs in *. simpl. rewrite Hq, <- Hp.
    rewrite !fmap_app, !elem_of_app in Hl |- *. tauto.
Qed.

Lemma core_table own own' hand out k s tbl' :
  core own hand out k s -> slabs_ok own' (arena (sh s)) tbl' -> core own' hand out k (with_handleTable tbl' s).
Proof. intros [] Hs. by constructor. Qed.

(** The peer has consumed the frame already. *)
Lemma win_passed H L T R es own s e seq :
  win H L T R es own s -> phase_ok (Swept e seq) H L T es (sh s) -> T < L ->
  L = T + 1 /\ H = L /\ es = [] /\ R = [] /\ forall j x, handleTable s !! j <> Some (Some x).
Proof.
  intros [W1 W2 W3 W4 W5 W6 W7 _ _ _ _] (_ & HT & _) HL. pose proof (zlen_nonneg es).
  assert (zlen es = 0) by lia. assert (Hes : es = []) by (destruct es; [done|unfold zlen in *; simpl in *; lia]).
  assert (HR : R = []) by (destruct R; [done|unfold zlen in *; simpl in *; lia]). split_and!; auto; try lia.
  intros j x Hj. rewrite HR in W7. by destruct (W7 _ _ Hj) as (? & ? & _).
Qed.

Lemma win_skip H L T R es own own' s e seq a' tbl' :
  win H L T R es own s -> phase_ok (Swept e seq) H L T es (sh s) -> T < L ->
  (forall j x, tbl' !! j <> Some (Some x)) ->
  (forall ci i q, Arena.live a' ci i q -> (ci, i) ∈ key <$> own') ->
  win H L (T + 1) R es own' (with_handleTable tbl' (with_sh (set_arena a' (sh s)) s)).
Proof.
  intros Hwin Hp HL Htbl Hl. destruct (win_passed _ _ _ _ _ _ _ _ _ Hwin Hp HL) as (EL & EH & -> & -> & Hno).
  destruct Hwin as [W1 W2 W3 W4 W5 W6 W7 W8 W9 W10 W11]. constructor; simpl; auto; try done.
  - change (zlen []) with 0. lia.
  - intros j x Hj. by destruct (Htbl j x).
  - intros ci i q Hq. rewrite fmap_app, elem_of_app. left. by eapply Hl.
Qed.

Lemma omap_id_none {A} (l : list (option A)) : (forall j x, l !! j <> Some (Some x)) -> omap id l = [].
Proof.
  intros Hl. destruct (omap id l) as [|x l'] eqn:E; [done|]. assert (Hx : x ∈ omap id l) by (rewrite E; by left).
  apply list_elem_of_omap in Hx as ([y|] & Hy & Ey); simplify_eq/=. apply list_elem_of_lookup in Hy as (j & Hj). by destruct (Hl j x).
Qed.

Lemma set_arena_id s : with_sh (set_arena (arena (sh s)) (sh s)) s = s.
Proof. destruct s as [h]. by destruct h. Qed.

Lemma insert_none_only {A} (l : list (option A)) n (r : option A) :
  (forall j x, l !! j <> Some (Some x)) -> r = None -> forall j x, <[n := r]> l !! j <> Some (Some x).
Proof.
  intros Hl -> j x Hj. destruct (decide (n = j)) as [<-|]; [|by rewrite list_lookup_insert_ne in Hj; [eapply Hl|]].
  destruct (decide (n < length l)%nat).
  - by rewrite list_lookup_insert_eq in Hj.
  - rewrite list_insert_ge in Hj by lia. by eapply Hl.
Qed.

(** The handle goes into the table. *)
Lemma winv_record own hand out k e seq s :
  winv (option_list (e_ref e) ++ own) hand out k (Swept e seq) s -> is_u64 seq ->
  e_ref e = None \/ passed seq s = false ->
  winv own hand out k Idle (with_handleTable (<[table_slot w seq := e_ref e]> (handleTable s)) s).
Proof.
  intros [Hc Hw] Hseq Hor. rewrite <- app_assoc in Hc, Hw.
  assert (Hlt : (table_slot w seq < length (handleTable s))%nat).
  { rewrite <- (u64_id seq Hseq). by eapply table_slot_lt. }
  split; [eapply core_table; [exact Hc|]; apply slabs_put; [apply Hc|done]|].
  intros Hb. destruct (Hw Hb) as (Hh & H & L & T & R & es & Hwin & Hp). split; [done|].
  destruct (Z.le_gt_cases L T) as [HL|HL].
  - exists H, L, (T + 1), (R ++ [e_ref e]), es. split; [eapply win_record; eauto|].
    simpl in *. lia.
  - exists H, L, (T + 1), R, es. destruct (win_passed _ _ _ _ _ _ _ _ _ Hwin Hp HL) as (EL & EH & Ees & ER & Hno).
    assert (Hnone : e_ref e = None).
    { destruct Hor as [?|Hor]; [done|]. unfold passed in Hor. apply Z.eqb_neq in Hor. destruct Hor.
      rewrite (wi_last _ _ _ _ _ _ _ Hwin), EL. destruct Hp as (-> & _). by rewrite u64_add_l. }
    split; [|simpl in *; lia].
    replace (with_handleTable _ s) with (with_handleTable (<[table_slot w seq := e_ref e]> (handleTable s))
      (with_sh (set_arena (arena (sh s)) (sh s)) s)) by (by rewrite set_arena_id).
    eapply (win_skip _ _ _ _ _ _ _ _ _ _ (arena (sh s))); eauto using insert_none_only.
    intros ci i q Hq. apply (wi_live _ _ _ _ _ _ _ Hwin) in Hq. unfold refs in Hq.
    rewrite (omap_id_none _ Hno), Hnone, app_nil_r in Hq. done.
Qed.

Lemma wp_published own hand out k e seq n Q s :
  winv (option_list (e_ref e) ++ own) hand out k (Pushed e seq) s -> is_u64 seq ->
  (forall s', winv own hand out k Idle s' -> Q tt s') -> wp (published w seq (e_ref e) n) Q s.
Proof.
  intros Hs Hseq HQ. unfold published. apply wp_bind, wp_modify, wp_bind, wp_gets.
  assert (Ecap : capacity (with_counts (u64 (framesSent s + 1)) (u64 (bytesSent s + (DescriptorSize + n))) s) = cap)
    by apply (so_table _ _ _ (co_slabs _ _ _ _ _ (proj1 Hs))). rewrite Ecap.
  apply wp_bind. eapply (wp_reclaim _ _ _ _ (Pushed e seq)); [by apply winv_counts|right; eauto|].
  intros s' Hs' _. clear s Hs Ecap. rename s' into s, Hs' into Hs. simpl in Hs.
  assert (Hlt : (table_slot w seq < length (handleTable s))%nat).
  { rewrite <- (u64_id seq Hseq). eapply table_slot_lt, Hs. }
  assert (Hend : forall s', winv own hand out k Idle s' -> wp (emit_event ESignal) Q s').
  { intros s' H'. eapply wp_plain; [exact H'|done|]. auto. }
  apply wp_bind. unfold table_set at 1, wp at 1. rewrite decide_True by done.
  apply wp_bind, wp_gets. simpl. fold (passed seq s). apply wp_bind.
  destruct (e_ref e) as [x|] eqn:Hx.
  2: { apply wp_ret, Hend. rewrite <- Hx. apply winv_record; auto; by rewrite Hx. }
  destruct (passed seq s) eqn:Hpass.
  2: { apply wp_ret, Hend. rewrite <- Hx. apply winv_record; auto; by rewrite Hx. }
  (* consumed already: freed at once, and the slot cleared *)
  destruct Hs as [Hc Hw]. destruct (slabs_free x (own ++ keep) _ _ (co_slabs _ _ _ _ _ Hc)) as (a' & Ef & Hsl & Em & Eg & Hl).
  apply wp_bind. unfold wp, free_slab. simpl. rewrite Ef. unfold table_set. simpl.
  rewrite length_insert, decide_True by done. rewrite list_insert_insert_eq.
  set (tbl' := <[table_slot w seq := None]> (handleTable s)).
  change (wp (emit_event ESignal) Q (with_log (log s ++ [EFree x true]) (with_handleTable tbl' (with_sh (set_arena a' (sh s)) s)))).
  apply Hend. apply (winv_plain _ _ _ _ _ (with_handleTable tbl' (with_sh (set_arena a' (sh s)) s)) (EFree x true)); [|done].
  split; [eapply core_arena; [exact Hc|]; by apply (slabs_put _ None)|].
  intros Hb. destruct (Hw Hb) as (Hh & H & L & T & R & es & Hwin & Hp). split; [by apply honest_arena|].
  exists H, L, (T + 1), R, es. destruct (Z.le_gt_cases L T) as [HL|HL].
  { exfalso. unfold passed in Hpass. apply Z.eqb_eq in Hpass. rewrite (wi_last _ _ _ _ _ _ _ Hwin) in Hpass.
    destruct Hp as (-> & HT & Hcp & _). rewrite u64_add_l in Hpass. pose proof (cap_pos _ _ _ _ _ Hc).
    assert (Hz : u64 (u64 (T + 1) - u64 L) = 0) by (rewrite Hpass, Z.sub_diag; done).
    rewrite u64_sub_lr, u64_id in Hz by (unfold is_u64; lia). lia. }
  destruct (win_passed _ _ _ _ _ _ _ _ _ Hwin Hp HL) as (EL & EH & Ees & ER & Hno).
  split; [|simpl in *; lia]. eapply win_skip; eauto using insert_none_only.
  intros ci i q [Hq Hne]%Hl. apply (wi_live _ _ _ _ _ _ _ Hwin) in Hq. unfold refs in Hq.
  rewrite (omap_id_none _ Hno), app_nil_r in Hq. simpl in Hq. by apply elem_of_cons in Hq as [?|?].
Qed.

(** ** The gate, the handshake, the slab *)

Lemma wp_gate own hand out k ph Q s :
  winv own hand out k ph s ->
  (forall s', winv own hand out k ph s' -> last (log s') = Some (EGate 0 0) ->
     rtc (env w b) (sh s) (sh s') -> pendingSlab s' = pendingSlab s -> Q None s') ->
  (forall e s', winv own hand out k ph s' -> Q (Some e) s') -> wp prePublishFault Q s.
Proof.
  intros Hs HQ1 HQ2. unfold prePublishFault. apply wp_bind. eapply wr_load; [done|]. intros s1 H1 (sc1 & h1 & E1 & M1).
  destruct (Z.eqb_spec (poison (ws (sh s1))) 0) as [Hp|Hp]; cbn [negb].
  2: { apply wp_ret. unfold teardown_result. destruct (Z.eqb_spec (poison (ws (sh s1))) 0); [done|]. by apply HQ2. }
  apply wp_bind. eapply wr_load; [done|]. intros s2 H2 (sc2 & h2 & E2 & M2). apply wp_bind.
  eapply wp_plain; [done|done|]. intros H3. apply wp_ret. rewrite Hp in *. unfold teardown_result. cbn [Z.eqb negb].
  destruct (Z.eqb_spec (shutdown (ws (sh s2))) 0) as [Hz|Hz]; cbn [negb]; [|by apply HQ2]. apply HQ1; auto.
  - simpl. rewrite last_snoc. by rewrite Hz.
  - subst. simpl in *. by etrans.
  - by subst.
Qed.

Lemma wp_claim own hand out k p Q s :
  winv own hand out k Idle s -> 
  (forall s', winv own hand out k Idle s' -> fill_state (sh s') p = Some fillFilling ->
     p ∉ filled (log s') -> (exists h, rtc (env w b) (sh s) h /\ sh s' = fst (cas_fill p fillFilling h)) -> 
     pendingSlab s' = pendingSlab s -> Q true s') ->
  (forall s', winv own hand out k Idle s' -> Q false s') -> wp (claim p) Q s.
Proof.
  intros Hs HQ1 HQ2. eapply wp_access; [done|]. intros s1 H1 M1. unfold wp.
  destruct (cas_fill p fillFilling (sh s1)) as [h won] eqn:Ec.
  assert (Hg : grows (sh s1) h) by (replace h with (fst (cas_fill p fillFilling (sh s1))) by (by rewrite Ec); apply cas_fill_grows; by left).
  assert (Hsame : ring h = ring (sh s1) /\ arena h = arena (sh s1) /\ ws h = ws (sh s1) /\ closed h = closed (sh s1) /\
    shutdownClosed h = shutdownClosed (sh s1) /\ barrier h = barrier (sh s1) /\ submitted h = submitted (sh s1) /\
    lifecycleQueue h = lifecycleQueue (sh s1)).
  { unfold cas_fill in Ec. repeat case_match; by simplify_eq. }
  destruct Hsame as (E1 & E2 & E3 & E4 & E5 & E6 & E7 & E8).
  assert (Hw : winv own hand out k Idle (with_sh h s1)).
  { destruct H1 as [[C1 C2 C3 C4 C5 C6 C7] Hw]. split.
    - constructor; simpl; auto; [|by rewrite E2|by eapply ids_ok_grows|by eapply log_ok_grows].
      destruct C2 as [B1 B2 B3 B4 B5 B6 B7 B10 B8 B9 B11]. pose proof (aside_grows _ _ Hg B11) as B12. destruct Hg as [_ Gf Gs].
      constructor; rewrite ?E1, ?E4, ?E5, ?E6, ?E8; auto. rewrite E7. intros j i Hi. destruct (B6 _ _ Hi) as [? Hf]. split; [done|].
      intros q Hq. destruct (lookup_lt_is_Some_2 (fills (sh s1)) q) as [f Ef]; [auto|].
      destruct (Gf _ _ Ef) as (f' & Ef' & _). by eapply lookup_lt_Some.
    - intros Hb. apply window_grows; auto. by rewrite E3. }
  destruct won; [|by apply HQ2]. apply HQ1; auto; simpl.
  - unfold cas_fill in Ec. repeat case_match; simplify_eq. unfold fill_state. simpl.
    rewrite list_lookup_insert_eq by (by eapply lookup_lt_Some). done.
  - intros Hin. pose proof (lo_filled _ _ _ (co_log _ _ _ _ _ (proj1 H1))) as Hf. rewrite Forall_forall in Hf.
    specialize (Hf _ Hin). unfold fill_state in Hf. unfold cas_fill in Ec.
    destruct (fills (sh s1) !! p) as [f|]; simplify_eq/=. rewrite Hf in Ec. done.
  - destruct M1 as (sc & h0 & -> & M). exists h0. split; [done|]. simpl in *. by rewrite Ec.
  - destruct M1 as (sc & h0 & -> & M). done.
Qed.

Lemma moved_mem s s' : b = true -> moved s s' -> Arena.mem (arena (sh s')) = Arena.mem (arena (sh s)).
Proof.
  intros Hb (sc & h & -> & He). simpl. induction He as [|h1 h2 h3 H12 _ IH]; [done|]. rewrite IH.
  destruct H12 as [h1 r m x Hp|h1 c h2 e _ H|h1 p| | | |]; try done.
  - rewrite Hb in Hp. by destruct Hp as (_ & -> & _).
  - destruct c as [pick ctx f l|pick ctx f sz cb|pick ctx f]; simpl in H; unfold submit, submitFill, submitReporting in H;
      match type of H with enqueue _ _ _ ?i _ _ = _ =>
        destruct (enqueue_cases _ _ i _ _ _ H) as (a & n & [[-> _]|(-> & _)]); unfold push_intent; try done;
        by destruct (lane i =? laneLifecycle) end.
  - unfold abandon, cas_fill. destruct (fills h1 !! p) as [f|]; [|done]. by destruct (fstate f =? fillPending).
Qed.

(** The place of a slab in the class table. *)
Definition slab_at (x : Arena.SlabHandle) (n : Z) (c : SizeClass) : Prop :=
  names_slab cs (Arena.hOffset x) n (Z.to_nat (Arena.hclass x)) c (Arena.hindex x) /\ 0 < n.

Lemma slab_inside own hand out k s x n c :
  core own hand out k s -> x ∈ own -> slab_at x n c ->
  0 < Arena.hOffset x /\ Arena.hOffset x + SlabSize c <= zlen (Arena.mem (arena (sh s))) <= MaxUint32 /\ n <= SlabSize c.
Proof.
  intros Hc Hx [(_ & Hcl & Hi & Eo & Hle) _]. destruct (co_slabs _ _ _ _ _ Hc) as [Ha Ecs _ Hl _].
  rewrite Forall_forall in Hl. destruct (Hl x) as (_ & _ & _ & Hlive); [apply elem_of_app; by left|].
  destruct (Arena.live_span_bounds _ _ _ _ Ha Hlive) as [H1 H2]. unfold Arena.slab_span in *. rewrite Ecs, Hcl in *.
  simpl in *. rewrite Eo. pose proof (Arena.ai_mem _ Ha). split_and!; try lia.
Qed.

Lemma slab_within own hand out k ph s x n c :
  winv own hand out k ph s -> x ∈ own -> slab_at x n c ->
  0 < Arena.hOffset x /\ Arena.hOffset x + SlabSize c <= zlen (Arena.mem (arena (sh s))) <= MaxUint32 /\ n <= SlabSize c.
Proof. intros [Hc _] Hx. apply (slab_inside _ _ _ _ _ _ _ _ Hc). apply elem_of_app. by left. Qed.

Lemma wp_alloc own hand out k n Q s :
  winv own hand out k Idle s -> is_u32 n ->
  (forall x lo hi c s', winv (x :: own) hand out k Idle s' -> slab_at x n c -> hi - lo = SlabSize c ->
     Arena.hGeneration x = Arena.generation (arena (sh s)) -> 0 < Arena.hSequence x < 2 ^ 64 -> fills (sh s') = fills (sh s) ->
     Q (Ok (x, (lo, hi))) s') ->
  (forall e, Q (Err e) s) -> wp (alloc n) Q s.
Proof.
  intros [Hc Hw] Hn HQ1 HQ2. pose proof (co_slabs _ _ _ _ _ Hc) as [Ha Ecs Ht Hl Hk].
  pose proof (Arena.Alloc_spec n _ Ha Hn) as Hsp. unfold wp, alloc.
  destruct (Arena.Alloc n (arena (sh s))) as [[a' [x [lo hi]]]|e|]; [|by apply HQ2|done].
  destruct Hsp as (Hnz & ci & sc & Hal). pose proof Hal as [A1 A2 A3 A4 A5 [A6 A6'] A7 A8 A9 A10 (A11 & A12 & A13 & A14) _].
  destruct (Arena.allocated_handle_live _ _ _ _ _ _ _ _ Hal) as [Hxl Hxc].
  assert (Ekey : key x = (ci, Arena.hindex x)) by (unfold key; by rewrite Hxc, Nat2Z.id).
  assert (Hold : forall g, Arena.handle_live (arena (sh s)) g -> Arena.handle_live a' g).
  { intros g (G1 & G2 & G3 & G4). split_and!; try congruence. apply A10. by left. }
  apply (HQ1 x lo hi sc).
  - split.
    + replace (with_sh (set_arena a' (sh s)) s) with (with_handleTable (handleTable s) (with_sh (set_arena a' (sh s)) s)) by (by destruct s).
      eapply core_arena; [exact Hc|]. constructor; auto; [congruence| |].
      * rewrite <- app_comm_cons. apply Forall_cons. split; [done|]. eapply Forall_impl; [exact Hl|auto].
      * rewrite <- app_comm_cons. simpl. apply NoDup_cons. split; [|done]. rewrite list_elem_of_fmap. intros (g & Eg & Hg).
        rewrite Forall_forall in Hl. destruct (Hl g Hg) as (_ & _ & _ & Hgl). rewrite Ekey in Eg.
        apply (A9 (Arena.hSequence g)). unfold key in Eg. injection Eg as E1 E2. rewrite E1, E2. exact Hgl.
    + intros Hb. destruct (Hw Hb) as (Hh & H & L & T & R & es & Hwin & Hp). split; [by apply honest_arena|].
      exists H, L, T, R, es. split; [|done]. destruct Hwin. constructor; simpl; auto.
      * eapply Forall_impl; [eassumption|]. intros e He. eapply entry_ok_grows; [|exact A11|exact He]. by apply grows_same.
      * intros cj j q [Hq|(-> & -> & _)]%A10; simpl; rewrite elem_of_cons; [right; by eapply wi_live0|by left].
  - split; [|unfold is_u32 in Hn; lia]. rewrite Hxc, Nat2Z.id. unfold names_slab. rewrite <- Ecs.
    assert (Arena.hOffset x = lo) as -> by (by rewrite A4). split_and!; auto; lia.
  - lia.
  - by rewrite A4.
  - rewrite A4. simpl. pose proof (Arena.ai_next _ Ha). lia.
  - done.
Qed.

(** A store into a slab in hand leaves the other slabs alone. *)
Lemma entry_store own hand out k s x n c off bs e :
  core own hand out k s -> x ∈ own -> slab_at x n c ->
  Arena.hOffset x <= off -> off + zlen bs <= Arena.hOffset x + SlabSize c ->
  (forall y, e_ref e = Some y -> key x <> key y) -> entry_ok (sh s) e ->
  entry_ok (set_arena (set_mem (put_bytes (Z.to_nat off) bs (Arena.mem (arena (sh s)))) (arena (sh s))) (sh s)) e.
Proof.
  intros Hc Hx Hat Hlo Hhi Hkey (i & f & rk & only & Hi & Hs & Hf & Hk & Hd & Href).
  exists i, f, rk, only. split_and!; auto. destruct (e_ref e) as [y|] eqn:Ey; [|done].
  destruct Href as (Ho & (G1 & G2 & G3 & G4 & (c' & Hn') & G6) & Ed). split; [done|]. split; [|done].
  refine (conj G1 (conj G2 (conj G3 (conj G4 (conj (ex_intro _ c' Hn') _))))).
  destruct (slab_inside _ _ _ _ _ _ _ _ Hc Hx Hat) as (Hpos & [Hend Hmx] & _). specialize (Hkey y eq_refl).
  destruct Hat as [(_ & Hcl & Hix & Eox & _) _]. destruct Hn' as (Hsel & Hcl' & Hiy & Eoy & Hle').
  pose proof (Arena.first_index_nonneg (Z.to_nat (Arena.hclass x))). pose proof (Arena.first_index_nonneg (Z.to_nat (Arena.hclass y))).
  assert (Hcok : classes_ok cs) by (destruct (co_slabs _ _ _ _ _ Hc) as [Ha Ecs _ _ _]; rewrite <- Ecs; apply Ha).
  pose proof (Arena.slabs_disjoint cs _ _ _ _ (Arena.hindex x) (Arena.hindex y) Hcok Hcl Hcl' ltac:(lia) ltac:(lia) Hkey) as Hdj.
  refine (eq_trans _ G6). apply sub_put_other; unfold zlen in *; [lia|].
  destruct (class_facts _ _ _ Hcok Hcl') as (? & _ & _ & ? & _). nia.
Qed.

(** The slab of an unread frame is in the table. *)
Lemma unread_ref H L T R es own s e y :
  win H L T R es own s -> T = H + zlen es -> e ∈ es -> e_ref e = Some y -> y ∈ refs s.
Proof.
  intros Hwin HT He Ey. apply list_elem_of_lookup in He as (j & Hj).
  assert (HR := wi_refs _ _ _ _ _ _ _ Hwin j e Hj). rewrite Ey in HR.
  apply list_elem_of_omap. exists (Some y). split; [|done]. eapply list_elem_of_lookup_2.
  apply (wi_table _ _ _ _ _ _ _ Hwin), HR. apply lookup_lt_Some in Hj. unfold zlen in HT. lia.
Qed.

Lemma keys_apart own hand out k s x y :
  core (own ++ keep) hand out k s -> x ∈ own -> y ∈ keep \/ y ∈ refs s -> key x <> key y.
Proof.
  intros Hc Hx Hy. pose proof (so_keys _ _ _ (co_slabs _ _ _ _ _ Hc)) as Hnd.
  rewrite <- app_assoc, fmap_app in Hnd. apply NoDup_app in Hnd as (_ & Hdis & _).
  intros E. apply (Hdis (key x)); [by apply list_elem_of_fmap_2|]. rewrite E.
  apply list_elem_of_fmap_2, elem_of_app. exact Hy.
Qed.

(** What a store leaves behind: the environment's moves and the bytes. *)
Definition stored (off : Z) (bs : list Z) (s s' : wr) : Prop :=
  exists s1, moved s s1 /\
    s' = with_sh (set_arena (set_mem (put_bytes (Z.to_nat off) bs (Arena.mem (arena (sh s1)))) (arena (sh s1))) (sh s1)) s1.

Lemma wp_store own hand out k x n c off bs Q s :
  winv own hand out k Idle s -> x ∈ own -> slab_at x n c ->
  Arena.hOffset x <= off -> off + zlen bs <= Arena.hOffset x + SlabSize c -> (b = true -> Forall is_byte bs) ->
  (forall s', winv own hand out k Idle s' -> stored off bs s s' -> Q tt s') -> wp (store_bytes off bs) Q s.
Proof.
  intros Hs Hx Hat Hlo Hhi Hby HQ. unfold store_bytes. eapply wp_bind, wr_interfere; [done|]. intros s1 [Hc Hw] M1.
  apply wp_modify, HQ; [|by exists s1].
  assert (Hx' : x ∈ own ++ keep) by (apply elem_of_app; by left).
  destruct (slab_inside _ _ _ _ _ _ _ _ Hc Hx' Hat) as (Hpos & [Hend Hmx] & _). pose proof (zlen_nonneg bs) as Hbs0.
  split.
  - match goal with |- core _ _ _ _ (with_sh (set_arena ?a _) _) =>
      change (core (own ++ keep) hand out k (with_handleTable (handleTable s1) (with_sh (set_arena a (sh s1)) s1))) end.
    eapply core_arena; [exact Hc|]. apply slabs_ok_mem; [apply Hc|]. unfold zlen in *. f_equal.
    apply length_put_bytes. lia.
  - intros Hb. destruct (Hw Hb) as (Hh & H & L & T & R & es & Hwin & Hp). split.
    + destruct Hh as [Z1 Z2 Z3 Z4 Z5 Z6]. constructor; simpl; auto; [apply Forall_put_bytes; auto|].
      rewrite Forall_forall in Z6 |- *. intros e He. eapply entry_store; eauto. intros y Ey.
      eapply keys_apart; [exact Hc|exact Hx|left]. apply list_elem_of_omap. by exists e.
    + exists H, L, T, R, es. split; [|done]. pose proof Hwin as [W1 W2 W3 W4 W5 W6 W7 W8 W9 W10 W11].
      constructor; simpl; auto. rewrite Forall_forall in W9 |- *. intros e He. eapply entry_store; eauto. intros y Ey.
      eapply keys_apart; [exact Hc|exact Hx|right]. by eapply unread_ref.
Qed.

(** ** Building a frame *)

Definition max_message : Z :=
  if negb (maxStored w =? 0) then maxStored w - (if useChecksum w then crc32TrailerLen else 0) else MaxFrameSize.

Context (Hstored : is_u32 (maxStored w)).
Context (Hmax : b = true -> max_message <= maxRecvPayload t).

Lemma winv_fill own hand out k ph s p :
  winv own hand out k ph s -> fill_state (sh s) p = Some fillFilling -> p ∉ filled (log s) ->
  winv own hand out k ph (with_log (log s ++ [EFill p]) s).
Proof.
  intros [[C1 C2 C3 C4 C5 C6 C7] Hw] Hp Hn. split.
  - constructor; simpl; auto; [by apply ids_ok_quiet|]. change k with (life_step k (EFill p)) at 1.
    apply log_ok_snoc; auto; try done; [|by intros q [= <-]]. simpl.
    rewrite <- (lo_run _ _ _ C5). apply (lo_burst _ _ _ C5 (log s) []). by rewrite app_nil_r.
  - intros Hb. apply window_log; auto. by apply pubs_snoc.
Qed.

Lemma length_window_after old new : length (window_after old new) = length old.
Proof. unfold window_after. rewrite length_app, length_take, length_drop. lia. Qed.

Lemma window_after_bytes old new : Forall is_byte old -> Forall is_byte new -> Forall is_byte (window_after old new).
Proof. intros. unfold window_after. apply Forall_app. split; [by apply Forall_take|by apply Forall_drop]. Qed.

Lemma stored_steps off bs s s' p f :
  stored off bs s s' -> fills (sh s) !! p = Some f ->
  exists f', fills (sh s') !! p = Some f' /\ size f' = size f /\ fn f' = fn f.
Proof. intros (s1 & M & ->) Hf. simpl. eapply fills_steps; [by apply moved_steps|done]. Qed.

Lemma stored_claim off bs s s' p :
  stored off bs s s' -> fill_state (sh s) p = Some fillFilling -> fill_state (sh s') p = Some fillFilling.
Proof. intros (s1 & M & ->) Hf. eapply (fill_state_steps (sh s) (sh s1)); [by apply moved_steps|done]. Qed.

Lemma stored_read own hand out k x n c off bs s s' :
  b = true -> winv own hand out k Idle s -> x ∈ own -> slab_at x n c ->
  Arena.hOffset x <= off -> off + zlen bs <= Arena.hOffset x + SlabSize c -> stored off bs s s' ->
  Arena.mem (arena (sh s')) = put_bytes (Z.to_nat off) bs (Arena.mem (arena (sh s))) /\
  (Z.to_nat off + length bs <= length (Arena.mem (arena (sh s))))%nat.
Proof.
  intros Hb Hs Hx Hat Hlo Hhi (s1 & M & ->). simpl. rewrite (moved_mem _ _ Hb M). split; [done|].
  destruct (slab_within _ _ _ _ _ _ _ _ _ Hs Hx Hat) as (Hpos & [Hend _] & _). unfold zlen in *. lia.
Qed.

(** The bytes a fill left, as [sends] wants them. *)
Definition fill_bytes (h : shared) (p : nat) (off len : Z) : Prop :=
  exists pf bs, fills h !! p = Some pf /\ size pf = len /\ zlen bs = len /\ Forall is_byte bs /\
    (bs = [] \/ exists old, bs = window_after old (fst (fn pf old)) /\ snd (fn pf old) = FillNil) /\
    sub_bytes (Z.to_nat off) (Z.to_nat len) (Arena.mem (arena h)) = bs.

Lemma hand_known own i hand out k s : core own (i :: hand) out k s -> submitted (sh s) !! done i = Some i.
Proof. intros Hc. pose proof (io_known _ _ _ _ (co_ids _ _ _ _ _ Hc)) as Hk. simpl in Hk. by apply Forall_cons in Hk as [? _]. Qed.

Lemma hand_honest own i hand out k ph s :
  b = true -> winv own (i :: hand) out k ph s -> intent_ok (sh s) i.
Proof.
  intros Hb [Hc Hw]. destruct (Hw Hb) as ([Hi _ _ _ _] & _). rewrite Forall_forall in Hi. apply Hi.
  eapply list_elem_of_lookup_2. by eapply hand_known.
Qed.

Lemma wp_runFill own i hand out k x n c p len Q s :
  winv own (i :: hand) out k Idle s -> x ∈ own -> slab_at x n c -> fill i = Some p -> 0 < len <= n ->
  fill_state (sh s) p = Some fillFilling -> p ∉ filled (log s) -> declared (sh s) p len ->
  (forall r s', winv own (i :: hand) out k Idle s' -> fill_state (sh s') p = Some fillFilling ->
     (b = true -> r = None -> fill_bytes (sh s') p (Arena.hOffset x) len) -> Q r s') ->
  wp (runFill p (Arena.hOffset x) len) Q s.
Proof.
  intros Hs Hx Hat Hp Hlen Hst Hnf Hdec HQ. unfold runFill. eapply wp_bind, wr_load; [done|]. intros s1 H1 M1.
  pose proof (moved_steps _ _ M1) as St1. destruct (moved_kept _ _ M1) as (_ & _ & El & _).
  pose proof (fill_state_steps _ _ _ St1 Hst) as Hst1. pose proof (declared_steps _ _ _ _ St1 Hdec) as (pf & Hpf & Esz).
  apply wp_bind, wp_modify. rewrite El. assert (H2 := winv_fill _ _ _ _ _ _ p H1 Hst1 ltac:(by rewrite El)). rewrite El in H2.
  apply wp_bind, wp_gets. simpl. rewrite Hpf. set (old := sub_bytes _ _ _).
  destruct (slab_within _ _ _ _ _ _ _ _ _ H1 Hx Hat) as (Hpos & [Hend Hmx] & Hfit).
  assert (Elen : zlen old = len) by (unfold zlen, old in *; rewrite length_sub_bytes; lia).
  destruct (fn pf old) as [bs r] eqn:Efn. assert (Ewin : zlen (window_after old bs) = len) by (unfold zlen in *; by rewrite length_window_after).
  assert (Hbytes : b = true -> Forall is_byte (window_after old bs)).
  { intros Hb. apply window_after_bytes.
    - apply Forall_sub_bytes. destruct (proj2 H1 Hb) as ([_ Z2 _ _ _] & _). done.
    - destruct (hand_honest _ _ _ _ _ _ _ Hb H1) as [_ Hi]. rewrite Hp in Hi. destruct Hi as (_ & pf' & Hpf' & Hby).
      simplify_eq. specialize (Hby old). by rewrite Efn in Hby. }
  eapply wp_bind, (wp_store _ _ _ _ x n c); [exact H2|done|done|lia|lia|done|]. intros s3 H3 S3.
  apply wp_ret, HQ; [done|by eapply stored_claim|]. intros Hb Hr.
  destruct (stored_steps _ _ _ _ _ _ S3 Hpf) as (pf' & Hpf' & Es & En).
  assert (Hhi : Arena.hOffset x + zlen (window_after old bs) <= Arena.hOffset x + SlabSize c) by lia.
  destruct (stored_read _ _ _ _ _ _ _ _ _ _ _ Hb H2 Hx Hat (Z.le_refl _) Hhi S3) as [Em Hfitm].
  exists pf', (window_after old bs). split_and!; auto; [congruence| |].
  - right. exists old. rewrite En, Efn. split; [done|]. simpl. by destruct r.
  - rewrite Em. apply sub_put_same; unfold zlen in *; simpl in *; lia.
Qed.

Lemma wp_failed own hand out k ph i e (Q : buildStatus -> wr -> Prop) s :
  winv own (i :: hand) out k ph s -> (forall s', winv own hand out k ph s' -> Q buildFailed s') -> wp (failed i e) Q s.
Proof. intros Hs HQ. unfold failed. eapply wp_bind, wp_report; [done|]. intros H'. apply wp_ret. auto. Qed.

Lemma wp_fillSlab own i hand out k x n c p len (Q : option buildStatus -> wr -> Prop) s :
  winv (x :: own) (i :: hand) out k Idle s -> slab_at x n c -> fill i = Some p -> 0 <= len <= n -> declared (sh s) p len ->
  (forall s', winv own hand out k Idle s' -> Q (Some buildFailed) s') ->
  (forall s', winv (x :: own) (i :: hand) out k Idle s' -> fill_state (sh s') p = Some fillFilling ->
     (b = true -> fill_bytes (sh s') p (Arena.hOffset x) len) -> Q None s') ->
  wp (fillSlab i p x len) Q s.
Proof.
  intros Hs Hat Hp Hlen Hdec HQ1 HQ2. unfold fillSlab.
  assert (Habort : forall e s', winv (x :: own) (i :: hand) out k Idle s' ->
    wp (free_slab x ≫= fun _ => failed i e ≫= fun st => mret (Some st)) Q s').
  { intros e s' H'. eapply wp_bind, wp_free; [exact H'|done|]. intros s2 H2.
    eapply wp_bind, wp_failed; [exact H2|]. intros s3 H3. by apply wp_ret, HQ1. }
  eapply wp_bind, wp_claim; [exact Hs| |intros s1 H1; by apply Habort].
  intros s1 H1 Hst Hnf (h & St & Eh) _.
  assert (Hdec1 : declared (sh s1) p len).
  { destruct (declared_steps _ _ _ _ St Hdec) as (pf & Hpf & Es). rewrite Eh.
    destruct (gr_fills _ _ (cas_fill_grows p fillFilling h (or_introl eq_refl)) _ _ Hpf) as (f' & ? & ? & _).
    exists f'. split; [done|congruence]. }
  cbn [negb]. destruct (Z.eqb_spec len 0) as [->|Hne].
  - apply wp_ret, HQ2; auto. intros Hb. destruct Hdec1 as (pf & Hpf & Es). exists pf, []. split_and!; auto.
  - eapply wp_bind, (wp_runFill (x :: own) _ _ _ _ x n c); eauto; [by left|lia|]. intros r s2 H2 Hst2 Hby.
    destruct r as [e|]; [by apply Habort|]. apply wp_ret, HQ2; auto.
Qed.

Lemma sub_put_append off n bs m :
  (off + n + length bs <= length m)%nat ->
  sub_bytes off (n + length bs) (put_bytes (off + n) bs m) = sub_bytes off n m ++ bs.
Proof.
  intros Hl. apply list_eq. intros j. rewrite sub_bytes_lookup.
  destruct (decide (j < n + length bs)%nat) as [Hj|Hj].
  - rewrite put_bytes_lookup by lia. case_decide.
    + rewrite lookup_app_r by (rewrite length_sub_bytes; lia). rewrite length_sub_bytes by lia. f_equal. lia.
    + rewrite lookup_app_l by (rewrite length_sub_bytes; lia). rewrite sub_bytes_lookup, decide_True by lia. done.
  - symmetry. apply lookup_ge_None_2. rewrite length_app, length_sub_bytes by lia. lia.
Qed.

(** The payload window holds [pl], the payload of the frame [f] that [i] sends. *)
Definition window_holds (h : shared) (i : intent) (off : Z) (f : Frame) : Prop :=
  sends h i f /\ frame_ok f /\ Kind f = Kind (frame i) /\ CallID f = CallID (frame i) /\ Control f = Control (frame i) /\
  Service f = Service (frame i) /\ Method f = Method (frame i) /\ Budget f = Budget (frame i) /\
  sub_bytes (Z.to_nat off) (length (wirePayload f)) (Arena.mem (arena h)) = wirePayload f.

Lemma window_holds_steps h h' i off f :
  rtc (env w b) h h' -> Arena.mem (arena h') = Arena.mem (arena h) -> window_holds h i off f -> window_holds h' i off f.
Proof.
  intros He Em (Hs & H). split; [|by rewrite Em]. unfold sends in *. destruct (fill i) as [p|]; [|done].
  destruct Hs as (pf & bs & Hp & E1 & E2 & E3). destruct (fills_steps _ _ _ _ He Hp) as (pf' & Hp' & Es & En).
  exists pf', bs. rewrite Es, En. done.
Qed.

Lemma winv_pending own hand out k ph s o :
  winv own hand out k ph s -> winv own hand out k ph (with_pendingSlab o s).
Proof.
  intros [[] Hw]. split; [by constructor|]. intros Hb. destruct (Hw Hb) as (? & H & L & T & R & es & [] & ?).
  split; [done|]. exists H, L, T, R, es. split; [by constructor|done].
Qed.

Lemma winv_built own hand out k s e :
  winv own hand out k Idle s -> (b = true -> entry_ok (sh s) e) -> winv own hand out k (Built e) s.
Proof.
  intros [Hc Hw] He. split; [done|]. intros Hb. destruct (Hw Hb) as (? & H & L & T & R & es & ? & ?).
  split; [done|]. exists H, L, T, R, es. split; [done|]. split; [done|auto].
Qed.

Lemma set_payload_ok bs f :
  frame_ok f -> CarriesStatusBody (Kind f) = false -> Forall is_byte bs ->
  frame_ok (set_payload bs f) /\ wirePayload (set_payload bs f) = bs.
Proof.
  intros [] Hk Hb. assert (E : wirePayload (set_payload bs f) = bs) by (unfold wirePayload; simpl; by rewrite Hk).
  split; [|done]. constructor; auto. by rewrite E.
Qed.

(** The window after the copy or the fill. *)
Lemma wp_payload own i hand out k x n c b0 msgLen (Q : option buildStatus -> wr -> Prop) s :
  winv (x :: own) (i :: hand) out k Idle s -> slab_at x n c -> 0 <= msgLen <= n ->
  (forall p, fill i = Some p -> declared (sh s) p msgLen) ->
  (fill i = None -> zlen b0 = msgLen /\ (b = true -> b0 = wirePayload (frame i))) ->
  (forall s', winv own hand out k Idle s' -> Q (Some buildFailed) s') ->
  (forall s', winv (x :: own) (i :: hand) out k Idle s' ->
     (forall p, fill i = Some p -> fill_state (sh s') p = Some fillFilling) ->
     (b = true -> exists f, window_holds (sh s') i (Arena.hOffset x) f /\ zlen (wirePayload f) = msgLen) -> Q None s') ->
  wp (match fill i with
      | Some p => fillSlab i p x msgLen
      | None => store_bytes (Arena.hOffset x) b0 ≫= fun _ => mret None
      end) Q s.
Proof.
  intros Hs Hat Hlen Hdec Hwire HQ1 HQ2. destruct (fill i) as [p|] eqn:Hp.
  - eapply (wp_fillSlab _ _ _ _ _ _ n c); eauto. intros s1 H1 Hst Hby. apply HQ2; [done|by intros q [= <-]|].
    intros Hb. destruct (Hby Hb) as (pf & bs & Hpf & Esz & Ebs & Hbb & Hor & Emem).
    destruct (hand_honest _ _ _ _ _ _ _ Hb H1) as [Hf Hi]. rewrite Hp in Hi. destruct Hi as (Hk & _).
    destruct (set_payload_ok bs _ Hf Hk Hbb) as [Hok Ewp]. exists (set_payload bs (frame i)). rewrite Ewp.
    split; [|done]. split_and!; auto; rewrite ?Ewp.
    + unfold sends. rewrite Hp. exists pf, bs. split_and!; auto. congruence.
    + rewrite <- Emem at 2. f_equal. unfold zlen in *. lia.
  - destruct (Hwire eq_refl) as [El Ew]. destruct (slab_within _ _ _ _ _ _ _ _ _ Hs (list_elem_of_here _ _) Hat) as (_ & _ & Hfit).
    assert (Hhi : Arena.hOffset x + zlen b0 <= Arena.hOffset x + SlabSize c) by lia.
    eapply wp_bind, (wp_store _ _ _ _ x n c); [exact Hs|by left|done|lia|done| |].
    + intros Hb. rewrite (Ew Hb). apply (hand_honest _ _ _ _ _ _ _ Hb Hs).
    + intros s1 H1 S1. apply wp_ret, HQ2; [done|done|]. intros Hb. exists (frame i). rewrite <- (Ew Hb). split; [|done].
      destruct (stored_read _ _ _ _ _ _ _ _ _ _ _ Hb Hs (list_elem_of_here _ _) Hat (Z.le_refl _) Hhi S1) as [Em Hfm].
      destruct (hand_honest _ _ _ _ _ _ _ Hb H1) as [Hf _]. split_and!; auto; rewrite <- ?(Ew Hb).
      * unfold sends. by rewrite Hp.
      * rewrite Em. by apply sub_put_same.
Qed.

(** The trailer. *)
Definition trailer_len : Z := if useChecksum w then crc32TrailerLen else 0.

Definition put_trailer (x : Arena.SlabHandle) (msgLen : Z) : prog wr unit :=
  if useChecksum w then
    bs ← read_bytes (Arena.hOffset x) msgLen;
    store_bytes (Arena.hOffset x + msgLen) (le_encode 4 (crc32c bs))
  else mret tt.

Lemma zlen_stored bs : zlen (stored_bytes (useChecksum w) bs) = zlen bs + trailer_len.
Proof.
  unfold stored_bytes, trailer_len. rewrite zlen_app. destruct (useChecksum w); [|done].
  unfold zlen at 2. by rewrite length_le_encode.
Qed.

Lemma wp_trailer own i hand out k x c msgLen Q s :
  winv (x :: own) (i :: hand) out k Idle s -> slab_at x (msgLen + trailer_len) c -> 0 <= msgLen ->
  (forall p, fill i = Some p -> fill_state (sh s) p = Some fillFilling) ->
  (b = true -> exists f, window_holds (sh s) i (Arena.hOffset x) f /\ zlen (wirePayload f) = msgLen) ->
  (forall s', winv (x :: own) (i :: hand) out k Idle s' ->
     (forall p, fill i = Some p -> fill_state (sh s') p = Some fillFilling) ->
     (b = true -> exists f, window_holds (sh s') i (Arena.hOffset x) f /\ zlen (wirePayload f) = msgLen /\
        sub_bytes (Z.to_nat (Arena.hOffset x)) (length (stored_bytes (useChecksum w) (wirePayload f)))
          (Arena.mem (arena (sh s'))) = stored_bytes (useChecksum w) (wirePayload f)) -> Q tt s') ->
  wp (put_trailer x msgLen) Q s.
Proof.
  intros Hs Hat Hlen Hst Hwin HQ. unfold put_trailer. destruct (useChecksum w) eqn:Hck.
  2: { apply wp_ret, HQ; auto. intros Hb. destruct (Hwin Hb) as (f & Hw & El). exists f. split_and!; auto.
       unfold stored_bytes. rewrite app_nil_r. apply Hw. }
  eapply wp_bind, wr_load; [done|]. intros s1 H1 M1. pose proof (moved_steps _ _ M1) as St1.
  destruct (slab_within _ _ _ _ _ _ _ _ _ H1 (list_elem_of_here _ _) Hat) as (Hpos & [Hend _] & Hfit).
  set (bs := sub_bytes _ _ _). assert (Etr : trailer_len = 4) by (unfold trailer_len; by rewrite Hck).
  assert (Hlen4 : length (le_encode 4 (crc32c bs)) = 4%nat) by apply length_le_encode.
  assert (Hlo : Arena.hOffset x <= Arena.hOffset x + msgLen) by lia.
  assert (Hhi : Arena.hOffset x + msgLen + zlen (le_encode 4 (crc32c bs)) <= Arena.hOffset x + SlabSize c)
    by (unfold zlen; rewrite Hlen4; lia).
  eapply (wp_store _ _ _ _ x _ c); [exact H1|by left|exact Hat|done|done|intros _; apply le_encode_bytes|].
  intros s2 H2 S2. apply HQ; [done| |].
  - intros p Hp. eapply stored_claim; [exact S2|]. eapply fill_state_steps; [exact St1|auto].
  - intros Hb. destruct (Hwin Hb) as (f & Hw & El). exists f.
    destruct (stored_read _ _ _ _ _ _ _ _ _ _ _ Hb H1 (list_elem_of_here _ _) Hat Hlo Hhi S2) as [Em Hfm].
    assert (Hw1 : window_holds (sh s1) i (Arena.hOffset x) f)
      by (eapply window_holds_steps; [exact St1|by apply moved_mem|done]).
    pose proof Hw1 as (_ & _ & _ & _ & _ & _ & _ & _ & Esub).
    assert (Ebs : bs = wirePayload f) by (unfold bs; rewrite <- Esub at 1; f_equal; unfold zlen in *; lia).
    assert (Hread : sub_bytes (Z.to_nat (Arena.hOffset x)) (length (wirePayload f) + 4) (Arena.mem (arena (sh s2))) =
      wirePayload f ++ le_encode 4 (crc32c (wirePayload f))).
    { assert (Elb : length bs = Z.to_nat msgLen) by (rewrite Ebs; unfold zlen in *; lia).
      rewrite Em, <- Ebs. unfold zlen in *.
      replace (length bs + 4)%nat with (length bs + length (le_encode 4 (crc32c bs)))%nat by (by rewrite Hlen4).
      replace (Z.to_nat (Arena.hOffset x + msgLen)) with (Z.to_nat (Arena.hOffset x) + length bs)%nat by lia.
      rewrite sub_put_append; [|lia]. f_equal. rewrite Ebs. exact Esub. }
    split_and!; auto.
    + destruct S2 as (s3 & M3 & ->). destruct Hw1 as (Hsd & Hrest). split.
      * pose proof (moved_steps _ _ M3) as St3. unfold sends in *. destruct (fill i) as [p|]; [|done].
        destruct Hsd as (pf & pb & Hp & E1 & E2 & E3). destruct (fills_steps _ _ _ _ St3 Hp) as (pf' & Hp' & Es & En).
        exists pf', pb. rewrite Es, En. done.
      * destruct Hrest as (R1 & R2 & R3 & R4 & R5 & R6 & R7 & _). split_and!; auto.
        apply (f_equal (take (length (wirePayload f)))) in Hread. rewrite take_app_length in Hread.
        unfold sub_bytes in *. rewrite take_take, Nat.min_l in Hread by lia. exact Hread.
    + unfold stored_bytes. rewrite length_app, length_le_encode. exact Hread.
Qed.

(** The fields of the descriptor do not depend on the payload. *)
Lemma same_fields f g rk :
  Kind f = Kind g -> CallID f = CallID g -> Control f = Control g -> Service f = Service g -> Method f = Method g ->
  Budget f = Budget g ->
  data_fields f (head_fields rk (gen w) f) = data_fields g (head_fields rk (gen w) g).
Proof. intros. unfold data_fields, head_fields. congruence. Qed.

(** A frame is ready: what [build] promises of its descriptor. *)
Definition ready own i hand out k (d : Descriptor.Descriptor) (s : wr) : Prop :=
  (forall p, fill i = Some p -> fill_state (sh s) p = Some fillFilling) /\
  exists e, e_d e = d /\ e_id e = done i /\ e_ref e = pendingSlab s /\
    winv (option_list (e_ref e) ++ own) (i :: hand) out k (Built e) s.

Lemma wp_stamp_slab own i hand out k x c b0 msgLen rk (Q : buildStatus -> wr -> Prop) s :
  let d := data_fields (frame i) (head_fields rk (gen w) (frame i)) in
  winv (x :: own) (i :: hand) out k Idle s -> slab_at x (msgLen + trailer_len) c -> 0 <= msgLen <= max_message ->
  (b = true -> Arena.hGeneration x = gen w) -> 0 < Arena.hSequence x < 2 ^ 64 ->
  mapKind (Kind (frame i)) (chunking w) = inl (rk, false) ->
  (forall p, fill i = Some p -> declared (sh s) p msgLen) ->
  (fill i = None -> zlen b0 = msgLen /\ (b = true -> b0 = wirePayload (frame i))) ->
  (forall s', winv own hand out k Idle s' -> Q buildFailed s') ->
  (forall d s', ready own i hand out k d s' -> Q (buildOK d) s') ->
  wp (stamp_slab w i d b0 msgLen x) Q s.
Proof.
  intros d Hs Hat Hlen Hgen Hseq Hk Hdec Hwire HQ1 HQ2. unfold stamp_slab.
  assert (Htr : 0 <= trailer_len) by (unfold trailer_len, crc32TrailerLen; destruct (useChecksum w); lia).
  eapply wp_bind, (wp_payload _ _ _ _ _ _ (msgLen + trailer_len) c); [exact Hs|exact Hat|lia|exact Hdec|exact Hwire|intros s1 H1; by apply wp_ret, HQ1|].
  intros s1 H1 Hst1 Hw1. fold (put_trailer x msgLen).
  eapply wp_bind, (wp_trailer _ _ _ _ _ _ c); eauto; [lia|]. intros s2 H2 Hst2 Hw2.
  apply wp_bind, wp_modify, wp_ret, HQ2. split; [done|].
  set (e f := mkEntry (done i) (slab_fields (useChecksum w) x msgLen d) (Some x) f).
  assert (He : exists f, b = true -> entry_ok (sh s2) (e f)).
  { assert (Hb : b = true \/ b = false) by (destruct b; auto). destruct Hb as [Hb|Hb]; [|exists (frame i); by rewrite Hb].
    destruct (Hw2 Hb) as (f & (S1 & S2 & S3 & S4 & S5 & S6 & S7 & S8 & S9) & El & Eb). exists (delivered false f). intros _.
    exists i, f, rk, false. split; [by eapply hand_known, H2|]. split; [done|]. split; [done|].
    split; [by rewrite S3|]. split; [done|]. simpl. split; [done|].
    split; [|unfold d; by rewrite (same_fields (frame i) f), El].
    pose proof (zlen_stored (wirePayload f)) as Ez. rewrite El in Ez.
    unfold in_slab. rewrite Ez. destruct Hat as [Hn Hpos]. split; [auto|]. split; [exact Hseq|].
    split; [lia|]. split; [rewrite El; specialize (Hmax Hb); lia|]. split; [by exists c|exact Eb]. }
  destruct He as (f & He). exists (e f). split_and!; auto. simpl. apply winv_pending. by apply winv_built.
Qed.

Lemma winv_exhausted own hand out k ph s o :
  winv own hand out k ph s -> winv own hand out k ph (with_exhaustedClass o s).
Proof.
  intros [[] Hw]. split; [by constructor|]. intros Hb. destruct (Hw Hb) as (? & H & L & T & R & es & [] & ?).
  split; [done|]. exists H, L, T, R, es. split; [by constructor|done].
Qed.

(** What a build promises on each of its outcomes. *)
Definition build_post own i hand out k (r : buildStatus) (s : wr) : Prop :=
  match r with
  | buildFailed => winv own hand out k Idle s
  | buildStuck => winv own (i :: hand) out k Idle s
  | buildOK d => ready own i hand out k d s
  end.

Lemma wp_stampPayload own i hand out k b0 msgLen rk s :
  let d := data_fields (frame i) (head_fields rk (gen w) (frame i)) in
  winv own (i :: hand) out k Idle s ->
  mapKind (Kind (frame i)) (chunking w) = inl (rk, false) ->
  (forall p, fill i = Some p -> declared (sh s) p msgLen) ->
  (fill i = None -> zlen b0 = msgLen /\ (b = true -> b0 = wirePayload (frame i))) ->
  wp (stampPayload w i d b0 msgLen) (build_post own i hand out k) s.
Proof.
  intros d Hs Hk Hdec Hwire. unfold stampPayload. fold max_message. fold trailer_len.
  assert (Hfail : forall e s', winv own (i :: hand) out k Idle s' -> wp (failed i e) (build_post own i hand out k) s').
  { intros e s' H'. by eapply wp_failed. }
  destruct (Z.ltb_spec msgLen 0) as [|Hlo]; [by apply Hfail|].
  destruct (Z.ltb_spec max_message msgLen) as [|Hhi]; [by apply Hfail|]. cbn [orb].
  assert (Hn : is_u32 (msgLen + trailer_len)).
  { unfold max_message, trailer_len, is_u32, MaxFrameSize, crc32TrailerLen in *.
    destruct (useChecksum w), (maxStored w =? 0); cbn [negb] in *; lia. }
  rewrite (u32_id _ Hn). apply wp_bind, wp_gets.
  assert (Ecap : capacity s = cap + 0) by (rewrite Z.add_0_r; apply (so_table _ _ _ (co_slabs _ _ _ _ _ (proj1 Hs)))).
  rewrite Ecap. apply wp_bind. eapply (wp_reclaim _ _ _ _ Idle); [done|by left|]. intros s1 H1 D1. simpl in H1.
  eapply wp_bind, wp_alloc; [exact H1|exact Hn| |].
  2: { intros e. assert (Hex : wp (modify (fun s => with_exhaustedClass (stalledClassFor (msgLen + trailer_len) s) s) ≫=
         fun _ => mret buildStuck) (build_post own i hand out k) s1).
       { apply wp_bind, wp_modify, wp_ret. by apply winv_exhausted. }
       destruct e; [exact Hex|by apply Hfail..]. }
  intros x lo hi c s2 H2 Hat Espan Egen Hseq Ef.
  destruct (negb (gen w =? 0) && negb (Arena.hGeneration x =? gen w)).
  { eapply wp_bind, wp_free; [exact H2|done|]. intros s3 H3. by apply Hfail. }
  assert (Hfit : msgLen + trailer_len <= SlabSize c) by apply Hat.
  destruct (Z.ltb_spec (hi - lo) (msgLen + trailer_len)); [lia|].
  eapply wp_stamp_slab; [exact H2|exact Hat|lia| |exact Hseq|exact Hk| |exact Hwire|done|done].
  - intros Hb. rewrite Egen. by destruct (proj2 H1 Hb) as ([_ _ _ Z4 _] & _).
  - intros p Hp. destruct (D1 _ _ (Hdec p Hp)) as (pf & ? & ?). exists pf. by rewrite Ef.
Qed.

Lemma wp_build own i hand out k s :
  winv own (i :: hand) out k Idle s -> wp (build w i) (build_post own i hand out k) s.
Proof.
  intros Hs0. unfold build. apply wp_bind, wp_modify.
  pose proof (winv_pending _ _ _ _ _ _ None Hs0) as Hs. set (s0 := with_pendingSlab None s) in *.
  assert (Hp0 : pendingSlab s0 = None) by done. clearbody s0. clear s Hs0. rename s0 into s.
  assert (Hfail : forall e s', winv own (i :: hand) out k Idle s' -> wp (failed i e) (build_post own i hand out k) s').
  { intros e s' H'. by eapply wp_failed. }
  destruct (negb (lane i =? laneData) && negb (lane i =? laneLifecycle)); [by apply Hfail|].
  destruct (mapKind (Kind (frame i)) (chunking w)) as [[rk only]|e] eqn:Hk; [|by apply Hfail].
  destruct (negb (Bool.eqb only (lane i =? laneLifecycle))); [by apply Hfail|].
  (* a descriptor without a slab *)
  assert (Hready : forall s' d, winv own (i :: hand) out k Idle s' -> pendingSlab s' = None ->
    (forall p, fill i = Some p -> fill_state (sh s') p = Some fillFilling) ->
    (b = true -> exists f, sends (sh s') i f /\ frame_ok f /\ Kind f = Kind (frame i) /\
       ((only = true /\ d = head_fields rk (gen w) f) \/
        (only = false /\ wirePayload f = [] /\ useChecksum w = false /\ d = data_fields f (head_fields rk (gen w) f)))) ->
    ready own i hand out k d s').
  { intros s' d H' Hp Hst Hf. split; [done|].
    assert (He : exists f, b = true -> entry_ok (sh s') (mkEntry (done i) d None f)).
    { assert (Hb : b = true \/ b = false) by (destruct b; auto). destruct Hb as [Hb|Hb]; [|exists (frame i); by rewrite Hb].
      destruct (Hf Hb) as (f & F1 & F2 & F3 & F4). exists (delivered only f). intros _. exists i, f, rk, only.
      split; [by eapply hand_known, H'|]. by rewrite F3. }
    destruct He as (f & He). exists (mkEntry (done i) d None f). split_and!; auto. by apply winv_built. }
  destruct only.
  { destruct (fill i) as [p|] eqn:Hp; [by apply Hfail|]. apply wp_ret. apply Hready; [done|done|congruence|].
    intros Hb. exists (frame i). destruct (hand_honest _ _ _ _ _ _ _ Hb Hs) as [Hf _].
    unfold sends. rewrite Hp. split_and!; auto. }
  apply wp_bind. unfold wp at 1, payloadOf. destruct (fill i) as [p|] eqn:Hp.
  - destruct (bo_sub _ (co_base _ _ _ _ _ (proj1 Hs)) _ _ (hand_known _ _ _ _ _ _ (proj1 Hs))) as [_ Hlt].
    destruct (lookup_lt_is_Some_2 _ _ (Hlt p Hp)) as [pf Hpf]. rewrite Hpf.
    destruct (Z.eqb_spec (size pf) 0) as [Hz|Hz]; [destruct (useChecksum w) eqn:Hck|]; cbn [negb andb].
    1,3: apply wp_stampPayload; auto; [intros q Hq; assert (q = p) as -> by congruence; by exists pf|congruence].
    eapply wp_bind, wp_claim; [exact Hs| |intros s1 H1; by apply Hfail].
    intros s1 H1 Hst Hnf (h & St & Eh) Epend. apply wp_ret. apply Hready; [done|by rewrite Epend|intros q Hq; by assert (q = p) as -> by congruence|].
    intros Hb. destruct (hand_honest _ _ _ _ _ _ _ Hb H1) as [Hf Hi]. rewrite Hp in Hi. destruct Hi as (Hkd & _).
    destruct (set_payload_ok [] _ Hf Hkd (Forall_nil_2 _)) as [Hok Ewp]. exists (set_payload [] (frame i)).
    split; [|split_and!; auto]. unfold sends. rewrite Hp.
    destruct (fills_steps _ _ _ _ St Hpf) as (pf1 & Hpf1 & Es & En).
    destruct (gr_fills _ _ (cas_fill_grows p fillFilling h (or_introl eq_refl)) _ _ Hpf1) as (pf2 & Hpf2 & Es2 & _).
    exists pf2, []. rewrite Eh. split_and!; auto. change (zlen []) with 0. congruence.
  - set (b0 := default (wirePayload (frame i)) (wire i)).
    assert (Hwire : b = true -> b0 = wirePayload (frame i)).
    { intros Hb. destruct (hand_honest _ _ _ _ _ _ _ Hb Hs) as [_ Hi]. rewrite Hp in Hi. unfold b0. by rewrite Hi. }
    destruct (Z.eqb_spec (zlen b0) 0) as [Hz|Hz]; [destruct (useChecksum w) eqn:Hck|]; cbn [negb andb].
    1,3: apply wp_stampPayload; auto; congruence.
    apply wp_ret. apply Hready; [done|done|congruence|]. intros Hb. exists (frame i).
    destruct (hand_honest _ _ _ _ _ _ _ Hb Hs) as [Hf _]. unfold sends. rewrite Hp.
    split_and!; auto. right. split_and!; auto. rewrite <- (Hwire Hb). destruct b0; [done|unfold zlen in Hz; simpl in Hz; lia].
Qed.

(** ** Lifecycle frames *)

Lemma winv_hand own hand hand' out k ph s :
  hand ≡ₚ hand' -> winv own hand out k ph s -> winv own hand' out k ph s.
Proof.
  intros Hp [[C1 C2 C3 [I1 I2 I3 I4] C5 C6 C7] Hw]. split; [|done]. constructor; auto. constructor; auto; by rewrite <- Hp.
Qed.

Lemma winv_life own hand out k ph s i :
  winv own hand out k ph s -> (k < lifecycleBurstBound)%nat ->
  winv own hand out (S k) ph (with_log (log s ++ [ELife i]) s).
Proof.
  intros [[C1 C2 C3 C4 C5 C6 C7] Hw] Hk. split.
  - constructor; simpl; auto; [by apply ids_ok_quiet|]. change (S k) with (life_step k (ELife i)).
    apply log_ok_snoc; auto; try done.
  - intros Hb. apply window_log; auto. by apply pubs_snoc.
Qed.

(** A lifecycle build allocates nothing and is never stuck. *)
Lemma wp_build_life own i hand out k s :
  winv own (i :: hand) out k Idle s -> lane i = laneLifecycle ->
  wp (build w i) (fun r s' => build_post own i hand out k r s' /\ match r with
                              | buildOK _ => pendingSlab s' = None | buildStuck => False | buildFailed => True end) s.
Proof.
  intros Hs Hl. pose proof (wp_build own i hand out k s Hs) as Hb. revert Hb. unfold wp.
  destruct (build w i s) as [s' r| |] eqn:E; auto. intros Hb. split; [done|]. revert E. unfold build.
  unfold mbind, prog_bind, modify. rewrite Hl. cbn [laneLifecycle laneData Z.eqb negb andb Pos.eqb].
  unfold failed, mbind, prog_bind.
  destruct (mapKind (Kind (frame i)) (chunking w)) as [[rk only]|e].
  2: { rewrite report_runs. by intros [= <- <-]. }
  destruct only; cbn [Bool.eqb negb].
  2: { rewrite report_runs. by intros [= <- <-]. }
  destruct (fill i) as [p|]; [rewrite report_runs; by intros [= <- <-]|]. by intros [= <- <-].
Qed.

Lemma wp_push_fault own hand out k ph err Q s :
  winv own hand out k ph s -> (b = true -> err = Ring.ErrFull) ->
  (forall e s', winv own hand out k ph s' -> Q e s') -> wp (push_fault err) Q s.
Proof.
  intros Hs Hb HQ. destruct err; cbn [push_fault]; try (by apply wp_ret, HQ).
  eapply wp_bind, wp_poison; [exact Hs|by destruct b; [discriminate Hb|]|]. intros s' H' _. by apply wp_ret, HQ.
Qed.

Lemma wp_publishSeq own hand out k ph Q s :
  winv own hand out k ph s ->
  (forall seq s', winv own hand out k ph s' -> is_u64 seq -> seq = Ring.tail (ring (sh s')) -> moved s s' -> Q seq s') ->
  wp publishSeq Q s.
Proof.
  intros Hs HQ. unfold publishSeq. eapply wr_load; [done|]. intros s1 H1 M1. apply HQ; auto.
  apply (bo_tail _ (co_base _ _ _ _ _ (proj1 H1))).
Qed.

(** From the gate to the publish of a built frame: [onGate] and [onPush] are what
    the two callers do when the region is torn down and when the push fails. *)
Lemma wp_gate_push {A} own i hand out k e (onGate : error -> prog wr A) (onPush : Ring.ringError -> prog wr A)
    (go : Z -> prog wr A) Q s :
  winv own (i :: hand) out k (Built e) s -> e_id e = done i ->
  (forall p, fill i = Some p -> fill_state (sh s) p = Some fillFilling) ->
  (forall err s', winv own (i :: hand) out k (Built e) s' -> wp (onGate err) Q s') ->
  (forall err s', winv own (i :: hand) out k (Built e) s' ->
     (forall p, fill i = Some p -> fill_state (sh s') p = Some fillFilling) -> (b = true -> err = Ring.ErrFull) ->
     wp (onPush err) Q s') ->
  (forall seq s', is_u64 seq -> winv own hand (i :: out) k (Pushed e seq) s' -> wp (go seq) Q s') ->
  wp (gate ← prePublishFault;
      match gate with
      | Some err => onGate err
      | None => seq ← publishSeq; r ← push i seq (e_d e);
          match r with Some err => onPush err | None => go seq end
      end) Q s.
Proof.
  intros Hs Hid Hst HG HP HQ. eapply wp_bind, wp_gate; [exact Hs| |intros err s1 H1; by apply HG].
  intros s1 H1 Hlast St1 _. eapply wp_bind, wp_publishSeq; [exact H1|]. intros seq s2 H2 Hseq Etl M2.
  destruct (moved_kept _ _ M2) as (_ & _ & El & _).
  assert (Hst2 : forall p, fill i = Some p -> fill_state (sh s2) p = Some fillFilling).
  { intros p Hp. eapply fill_state_steps; [by apply moved_steps|]. eapply fill_state_steps; [exact St1|auto]. }
  eapply wp_bind, wp_push; [exact H2|done|by rewrite El|done|done| |].
  - intros s3 H3. by apply HQ.
  - intros err s3 H3 St3 Hb. apply HP; auto. intros p Hp. eapply fill_state_steps; [exact St3|auto].
Qed.

Lemma wp_emitLifecycle own i hand out k Q s :
  winv own (i :: hand) out k Idle s -> lane i = laneLifecycle -> (k < lifecycleBurstBound)%nat ->
  (forall s', winv own hand out (S k) Idle s' -> Q tt s') -> wp (emitLifecycle w i) Q s.
Proof.
  intros Hs Hl Hk HQ. unfold emitLifecycle. apply wp_bind, wp_modify.
  pose proof (winv_life _ _ _ _ _ _ (done i) Hs Hk) as H1. apply wp_bind.
  eapply wp_mono; [apply (wp_build_life own i hand out (S k) _ H1 Hl)|]. intros [d| |] s2 [H2 Hp]; [|done|by apply wp_ret, HQ].
  destruct H2 as (Hst & e & <- & Hid & Hr & H2). rewrite Hp in Hr. rewrite Hr in H2. simpl in H2.
  eapply wp_gate_push; [exact H2|done|done|..].
  - intros err s3 H3. eapply wp_report; [by apply winv_idle in H3|]. auto.
  - intros err s3 H3 _ Hb. eapply wp_bind, wp_push_fault; [by apply winv_idle in H3|done|]. intros err' s4 H4.
    eapply wp_report; [done|]. auto.
  - intros seq s3 Hseq H3. apply wp_bind. rewrite <- Hr. eapply (wp_published own); [by rewrite Hr|done|].
    intros s4 H4. eapply wp_report_nil; [done|]. auto.
Qed.

(** ** Data frames *)

(** A carry in hand: built, with its slab and its claim, or still to build. *)
Definition carry_ok (c : carry) (hand : list intent) (k : nat) (s : wr) : Prop :=
  (forall j, parked c = Some j -> (j < length cs)%nat) /\
  if built c then
    (forall p, fill (ci c) = Some p -> fill_state (sh s) p = Some fillFilling) /\
    exists e, e_d e = cd c /\ e_id e = done (ci c) /\ e_ref e = slab c /\
      winv (option_list (slab c)) (ci c :: hand) [] k (Built e) s
  else slab c = None /\ winv [] (ci c :: hand) [] k Idle s.

(** What an attempt leaves: nothing, or the carry. *)
Definition place_post (i : intent) (hand : list intent) (k : nat) (r : emitResult * carry) (s : wr) : Prop :=
  match r with
  | (emitDone, _) => winv [] hand [] k Idle s
  | (emitStuck, c) => ci c = i /\ carry_ok c hand k s
  end.

Lemma wp_resolve c e hand k s :
  winv (option_list (slab c)) (ci c :: hand) [] k Idle s -> wp (resolve c e) (place_post (ci c) hand k) s.
Proof.
  intros Hs. unfold resolve. eapply wp_bind, (wp_free_owned []); [by rewrite app_nil_r|done|]. intros s1 H1.
  eapply wp_bind, wp_report; [exact H1|]. intros H2. by apply wp_ret.
Qed.

Lemma wp_place_built c hand k s :
  carry_ok c hand k s -> built c = true -> wp (place_built w c) (place_post (ci c) hand k) s.
Proof.
  intros [Hpk Hc] Hbu. rewrite Hbu in Hc. destruct Hc as (Hst & e & Ed & Hid & Hr & Hs).
  set (onPush err := match err with
    | Ring.ErrFull => mret (emitStuck, c) | _ => er ← push_fault err; resolve c er end : prog wr (emitResult * carry)).
  set (go seq := published w seq (slab c) (Descriptor.PayloadLength (cd c)) ≫= fun _ =>
       report (ci c) None ≫= fun _ => mret (emitDone, c) : prog wr (emitResult * carry)).
  assert (Hgo : wp (gate ← prePublishFault;
      match gate with
      | Some err => resolve c err
      | None => seq ← publishSeq; r ← push (ci c) seq (e_d e);
          match r with Some err => onPush err | None => go seq end
      end) (place_post (ci c) hand k) s).
  { eapply (wp_gate_push _ _ _ _ _ _ (resolve c) onPush go); [exact Hs|done|done|..].
    - intros err s1 H1. by eapply wp_resolve, winv_idle.
    - intros err s1 H1 Hst1 Hb. assert (Hfail : wp (er ← push_fault err; resolve c er) (place_post (ci c) hand k) s1).
      { eapply wp_bind, wp_push_fault; [by apply winv_idle in H1|done|]. intros er s2 H2. by apply wp_resolve. }
      destruct err; [|exact Hfail..]. apply wp_ret. split; [done|]. split; [done|]. rewrite Hbu. split; [done|]. by exists e.
    - intros seq s1 Hseq H1. unfold go. apply wp_bind. rewrite <- Hr in *. eapply (wp_published []); [by rewrite app_nil_r|done|].
      intros s2 H2. eapply wp_bind, wp_report_nil; [exact H2|]. intros H3. by apply wp_ret. }
  rewrite Ed in Hgo. exact Hgo.
Qed.

Lemma winv_stalls own hand out k ph s l :
  winv own hand out k ph s -> length l = length cs -> winv own hand out k ph (with_classStalls l s).
Proof.
  intros [[] Hw] Hl. split; [by constructor|]. intros Hb. destruct (Hw Hb) as (? & H & L & T & R & es & [] & ?).
  split; [done|]. exists H, L, T, R, es. split; [by constructor|done].
Qed.

Lemma wp_noteSetAside i c hand k Q s :
  ci c = i -> carry_ok c hand k s -> built c = false ->
  (forall c' s', ci c' = i -> carry_ok c' hand k s' -> Q c' s') -> wp (noteArenaSetAside c) Q s.
Proof.
  intros Hi [Hpk Hc] Hbu HQ. rewrite Hbu in Hc. destruct Hc as [Hsl Hs]. unfold wp, noteArenaSetAside.
  assert (Hsame : Q c s) by (apply HQ; [done|]; split; [done|]; rewrite Hbu; done).
  destruct (parked c) as [j|]; [done|]. destruct (exhaustedClass s) as [j|]; [|done].
  destruct (classStalls s !! j) as [[a r]|] eqn:Ej; [|done]. apply HQ; [done|]. split; simpl.
  - intros j' [= <-]. rewrite <- (co_stalls _ _ _ _ _ (proj1 Hs)). by eapply lookup_lt_Some.
  - rewrite Hbu. split; [done|]. apply winv_stalls; [done|]. rewrite length_insert. apply (co_stalls _ _ _ _ _ (proj1 Hs)).
Qed.

Lemma wp_noteResume i c hand k Q s :
  ci c = i -> carry_ok c hand k s -> built c = true ->
  (forall c' s', ci c' = i -> carry_ok c' hand k s' -> built c' = true -> Q c' s') -> wp (noteArenaResume c) Q s.
Proof.
  intros Hi [Hpk Hc] Hbu HQ. unfold wp, noteArenaResume. destruct (parked c) as [j|] eqn:Ep.
  2: { apply HQ; auto. split; [by rewrite Ep|done]. }
  rewrite Hbu in Hc. destruct Hc as (Hst & e & Ed & Hid & Hr & Hs). pose proof (co_stalls _ _ _ _ _ (proj1 Hs)) as El.
  destruct (lookup_lt_is_Some_2 (classStalls s) j) as [[a r] Ej]; [rewrite El; by apply Hpk|]. rewrite Ej.
  apply HQ; simpl; auto. split; [done|]. simpl. rewrite Hbu. split; [done|]. exists e. split_and!; auto.
  apply winv_stalls; [done|]. by rewrite length_insert.
Qed.

Lemma wp_place c hand k s :
  carry_ok c hand k s -> wp (place w c) (place_post (ci c) hand k) s.
Proof.
  intros Hc. unfold place.
  (* the abandonment check only looks *)
  assert (Hlook : wp (match fill (ci c) with Some p => abandoned p | None => mret false end)
    (fun _ s' => carry_ok c hand k s') s).
  { destruct (fill (ci c)) as [p|] eqn:Hp; [|by apply wp_ret]. unfold abandoned. destruct Hc as [Hpk Hc]. unfold carry_ok.
    destruct (built c).
    - destruct Hc as (Hst & e & Ed & Hid & Hr & Hs). eapply wr_load; [exact Hs|]. intros s1 H1 M1. split; [done|].
      split; [|by exists e]. intros q Hq. eapply fill_state_steps; [by apply moved_steps|auto].
    - destruct Hc as [Hsl Hs]. eapply wr_load; [exact Hs|]. intros s1 H1 M1. done. }
  apply wp_bind. eapply wp_mono; [exact Hlook|]. clear s Hc Hlook. intros gone s Hc.
  assert (Hown : winv (option_list (slab c)) (ci c :: hand) [] k Idle s).
  { destruct Hc as [_ Hc]. destruct (built c); [destruct Hc as (_ & e & _ & _ & _ & ?); by eapply winv_idle|].
    by destruct Hc as [-> ?]. }
  destruct gone; [by apply wp_resolve|]. destruct (built c) eqn:Hbu; [by apply wp_place_built|].
  destruct Hc as [Hpk Hc]. rewrite Hbu in Hc. destruct Hc as [Hsl Hs].
  apply wp_bind. clear Hown. eapply wp_mono; [apply (wp_build [] _ hand [] k _ Hs)|]. intros [d| |] s1 H1; cbn [build_post] in H1.
  - destruct H1 as (Hst & e & Ed & Hid & Hr & H1). apply wp_bind, wp_gets. apply wp_bind.
    eapply (wp_noteResume (ci c) _ hand k); [done| |done|].
    + split; [done|]. simpl. split; [done|]. exists e. rewrite app_nil_r in H1. rewrite <- Hr. split; [done|]. by split.
    + intros c' s2 Hi H2 Hbu'. rewrite <- Hi. by apply wp_place_built.
  - apply wp_bind. eapply (wp_noteSetAside (ci c) _ hand k); [done| |done|].
    + split; [done|]. rewrite Hbu. done.
    + intros c' s2 Hi H2. by apply wp_ret.
  - by apply wp_ret.
Qed.

Lemma wr_emit i hand k s :
  winv [] (i :: hand) [] k Idle s ->
  wp (emit w i) (fun r s' => match r with Some c => carry_ok c hand k s' | None => winv [] hand [] k Idle s' end) s.
Proof.
  intros Hs. unfold emit. apply wp_bind. eapply wp_mono; [apply (wp_place (fresh_carry i) hand k)|].
  - split; [done|]. simpl. done.
  - intros [[] c] s1 H1; apply wp_ret; [done|]. by destruct H1.
Qed.

(** ** Queues *)

Lemma window_queues own ph s lq dq :
  window own ph s -> window own ph (with_sh (set_lifecycleQueue lq (set_dataQueue dq (sh s))) s).
Proof.
  intros ([] & H & L & T & R & es & [] & Hp). split; [by constructor|]. exists H, L, T, R, es.
  split; [by constructor|]. by destruct ph.
Qed.

(** Taking one intent off the queues. *)
Lemma winv_take own hand out k ph s i lq dq :
  winv own hand out k ph s -> lifecycleQueue (sh s) ++ dataQueue (sh s) ≡ₚ i :: lq ++ dq ->
  Forall (fun j => lane j = laneLifecycle) lq ->
  winv own (i :: hand) out k ph (with_sh (set_lifecycleQueue lq (set_dataQueue dq (sh s))) s).
Proof.
  intros [[C1 [B1 B2 B3 B4 B5 B6 B7 B8 B9 B10 B11] C3 [I1 I2 I3 I4] [] C6 C7] Hw] Hp Hl. split.
  - assert (Hq : hand ++ out ++ lifecycleQueue (sh s) ++ dataQueue (sh s) ≡ₚ (i :: hand) ++ out ++ lq ++ dq).
    { rewrite Hp. solve_Permutation. }
    constructor; simpl; auto; [by constructor| |by constructor].
    constructor; simpl; auto; [by rewrite <- I1, Hq|]. by rewrite Hq in I2.
  - intros Hb. by apply window_queues, Hw.
Qed.

Lemma set_queues_l s q : with_sh (set_lifecycleQueue q (sh s)) s =
  with_sh (set_lifecycleQueue q (set_dataQueue (dataQueue (sh s)) (sh s))) s.
Proof. destruct s as [h]. by destruct h. Qed.
Lemma set_queues_d s q : with_sh (set_dataQueue q (sh s)) s =
  with_sh (set_lifecycleQueue (lifecycleQueue (sh s)) (set_dataQueue q (sh s))) s.
Proof. destruct s as [h]. by destruct h. Qed.

Lemma winv_take_life own hand out k ph s i q :
  winv own hand out k ph s -> lifecycleQueue (sh s) = i :: q ->
  lane i = laneLifecycle /\ winv own (i :: hand) out k ph (with_sh (set_lifecycleQueue q (sh s)) s).
Proof.
  intros Hs Eq. pose proof (bo_lanes _ (co_base _ _ _ _ _ (proj1 Hs))) as Hl. rewrite Eq in Hl.
  apply Forall_cons in Hl as [Hi Hl]. split; [done|]. rewrite set_queues_l. apply winv_take; auto. by rewrite Eq.
Qed.

Lemma winv_take_data own hand out k ph s i q :
  winv own hand out k ph s -> dataQueue (sh s) = i :: q ->
  winv own (i :: hand) out k ph (with_sh (set_dataQueue q (sh s)) s).
Proof.
  intros Hs Eq. rewrite set_queues_d. apply winv_take; auto; [|by apply Hs].
  rewrite Eq. by rewrite Permutation_middle.
Qed.

Lemma wp_pop_life own hand out k ph Q s :
  winv own hand out k ph s ->
  (forall i s', winv own (i :: hand) out k ph s' -> lane i = laneLifecycle -> Q (Some i) s') ->
  (forall s', winv own hand out k ph s' -> Q None s') -> wp pop_lifecycle Q s.
Proof.
  intros Hs HQ1 HQ2. eapply wp_access; [exact Hs|]. intros s1 H1 _. unfold wp.
  destruct (lifecycleQueue (sh s1)) as [|i q] eqn:Eq; [by apply HQ2|].
  destruct (winv_take_life _ _ _ _ _ _ _ _ H1 Eq) as [Hl H2]. by apply HQ1.
Qed.

Lemma wp_pop_data own hand out k ph Q s :
  winv own hand out k ph s ->
  (forall i s', winv own (i :: hand) out k ph s' -> Q (Some i) s') ->
  (forall s', winv own hand out k ph s' -> Q None s') -> wp pop_data Q s.
Proof.
  intros Hs HQ1 HQ2. eapply wp_access; [exact Hs|]. intros s1 H1 _. unfold wp.
  destruct (dataQueue (sh s1)) as [|i q] eqn:Eq; [by apply HQ2|]. apply HQ1. by apply winv_take_data.
Qed.

(** ** The burst *)

Lemma wp_burst_loop room own hand k Q s :
  winv own hand [] k Idle s -> (k + room <= lifecycleBurstBound)%nat ->
  (forall k' s', winv own hand [] k' Idle s' -> Q tt s') -> wp (burst_loop w room) Q s.
Proof.
  revert k s. induction room as [|room IH]; intros k s Hs Hk HQ; cbn [burst_loop]; [by eapply wp_ret, HQ|].
  eapply wp_bind, wp_pop_life; [exact Hs| |].
  - intros i s1 H1 Hl. eapply wp_bind, wp_emitLifecycle; [exact H1|done|lia|]. intros s2 H2. eapply IH; eauto. lia.
  - intros s1 H1. by eapply wp_ret, HQ.
Qed.

Lemma wp_burst l own hand Q s :
  winv own (option_list (staged l) ++ hand) [] 0 Idle s -> (forall i, staged l = Some i -> lane i = laneLifecycle) ->
  (forall k' s', winv own hand [] k' Idle s' -> Q tt s') -> wp (lifecycle_burst w l) Q s.
Proof.
  intros Hs Hl HQ. unfold lifecycle_burst. destruct (staged l) as [i|]; simpl in Hs.
  - eapply wp_bind, wp_emitLifecycle; [exact Hs|by apply Hl|unfold lifecycleBurstBound; lia|]. intros s1 H1.
    eapply wp_burst_loop; [exact H1|unfold lifecycleBurstBound; lia|done].
  - eapply wp_burst_loop; [exact Hs|lia|done].
Qed.

Lemma winv_turn own hand out k ph s :
  winv own hand out k ph s -> winv own hand out 0 ph (with_log (log s ++ [ETurn]) s).
Proof.
  intros [[C1 C2 C3 C4 C5 C6 C7] Hw]. split.
  - constructor; simpl; auto; [by apply ids_ok_quiet|]. change 0%nat with (life_step k ETurn).
    apply log_ok_snoc; auto; try done. simpl. lia.
  - intros Hb. apply window_log; auto. by apply pubs_snoc.
Qed.

Lemma winv_wakes own hand out k ph s l : winv own hand out k ph s -> winv own hand out k ph (with_wakes l s).
Proof.
  intros [[] Hw]. split; [by constructor|]. intros Hb. destruct (Hw Hb) as (? & H & L & T & R & es & [] & ?).
  split; [done|]. exists H, L, T, R, es. split; [by constructor|done].
Qed.

Lemma winv_retry own hand out k ph s x :
  winv own hand out k ph s -> winv own hand out k ph (with_sh (set_retry x (sh s)) s).
Proof.
  intros [[C1 [] C3 [] [] C6 C7] Hw]. split; [constructor; simpl; auto; by constructor|].
  intros Hb. destruct (Hw Hb) as ([] & H & L & T & R & es & [] & Hp). split; [by constructor|].
  exists H, L, T, R, es. split; [by constructor|]. by destruct ph.
Qed.

End proof.

(** ** The loop *)

Section loop.
Context (w : config) (cs : list SizeClass) (cap : Z) (b : bool) (t : receiver).
Context (Hstored : is_u32 (maxStored w)).
Context (Hmax : b = true -> max_message w <= maxRecvPayload t).

#[local] Notation winv0 := (winv w cs cap b [] t).
#[local] Notation carry0 := (carry_ok w cs cap b [] t).

(** The carry set aside, if any. *)
Definition held (o : option carry) (hand : list intent) (k : nat) (s : wr) : Prop :=
  match o with Some c => carry0 c hand k s | None => winv0 [] hand [] k Idle s end.

(** Entering and leaving the state in which a built carry is aside. *)
Lemma aside_enter c e hand k s :
  winv0 (option_list (slab c)) (ci c :: hand) [] k (Built e) s -> e_ref e = slab c -> e_id e = done (ci c) ->
  (forall p, fill (ci c) = Some p -> fill_state (sh s) p = Some fillFilling) ->
  winv w cs cap b [e] t [] (ci c :: hand) [] k Idle s.
Proof.
  intros [Hc Hw] Hr Hid Hst. assert (Ek : keep [e] = option_list (slab c)) by (unfold keep; simpl; rewrite Hr; by destruct (slab c)).
  change (keep []) with (@nil Arena.SlabHandle) in Hc, Hw. rewrite app_nil_r in Hc, Hw. unfold winv. rewrite app_nil_l, Ek. split.
  - pose proof (hand_known _ _ _ _ _ _ _ _ _ _ _ Hc) as Hk. destruct Hc as [C1 [] C3 C4 C5 C6 C7].
    constructor; auto. constructor; auto. constructor; [|constructor]. exists (ci c). by rewrite Hid.
  - intros Hb. destruct (Hw Hb) as ([] & H & L & T & R & es & [] & [Hp He]). split; [constructor; auto|].
    exists H, L, T, R, es. split; [by constructor|done].
Qed.

Lemma aside_leave c e hand k s :
  winv w cs cap b [e] t [] (ci c :: hand) [] k Idle s -> e_ref e = slab c -> e_id e = done (ci c) ->
  winv0 (option_list (slab c)) (ci c :: hand) [] k (Built e) s /\
  (forall p, fill (ci c) = Some p -> fill_state (sh s) p = Some fillFilling).
Proof.
  intros [Hc Hw] Hr Hid. assert (Ek : keep [e] = option_list (slab c)) by (unfold keep; simpl; rewrite Hr; by destruct (slab c)).
  rewrite app_nil_l, Ek in Hc, Hw. unfold winv. change (keep []) with (@nil Arena.SlabHandle). rewrite app_nil_r.
  pose proof (hand_known _ _ _ _ _ _ _ _ _ _ _ Hc) as Hk. split; [split|].
  - destruct Hc as [C1 [] C3 C4 C5 C6 C7]. constructor; auto. by constructor.
  - intros Hb. destruct (Hw Hb) as ([] & H & L & T & R & es & [] & Hp).
    apply Forall_cons in ho_aside0 as [He _]. split; [by constructor|].
    exists H, L, T, R, es. split; [by constructor|done].
  - destruct Hc as [_ [] _ _ _ _ _]. apply Forall_cons in bo_aside0 as [(i & Hi & Hf) _]. rewrite Hid, Hk in Hi. by simplify_eq.
Qed.

(** Work done for other intents while a carry is held. *)
Lemma wp_held {A} (m : prog wr A) o hand hand' k (Q : A -> nat -> wr -> Prop) s :
  held o hand k s ->
  (forall aside h0, h0 = option_list (ci <$> o) ->
     winv w cs cap b aside t [] (hand ++ h0) [] k Idle s ->
     wp m (fun a s' => exists k', winv w cs cap b aside t [] (hand' a ++ h0) [] k' Idle s' /\ Q a k' s') s) ->
  wp m (fun a s' => exists k', held o (hand' a) k' s' /\ Q a k' s') s.
Proof.
  intros Hs Hm. destruct o as [c|]; simpl in *.
  2: { specialize (Hm [] [] eq_refl). rewrite app_nil_r in Hm. eapply wp_mono; [by apply Hm|].
       intros a s' (k' & H' & ?). exists k'. by rewrite app_nil_r in H'. }
  destruct Hs as [Hpk Hs]. destruct (built c) eqn:Hbu.
  - destruct Hs as (Hst & e & Ed & Hid & Hr & Hs). pose proof (aside_enter _ _ _ _ _ Hs Hr Hid Hst) as Ha.
    eapply wp_mono; [apply (Hm [e] [ci c] eq_refl)|].
    + eapply winv_hand; [|exact Ha]. by rewrite Permutation_app_comm.
    + intros a s' (k' & H' & HQ). exists k'. split; [|done]. split; [done|]. rewrite Hbu.
      assert (H2 : winv w cs cap b [e] t [] (ci c :: hand' a) [] k' Idle s')
        by (eapply winv_hand; [|exact H']; by rewrite Permutation_app_comm).
      destruct (aside_leave _ _ _ _ _ H2 Hr Hid) as [H3 Hst']. split; [done|]. by exists e.
  - destruct Hs as [Hsl Hs]. eapply wp_mono; [apply (Hm [] [ci c] eq_refl)|].
    + eapply winv_hand; [|exact Hs]. by rewrite Permutation_app_comm.
    + intros a s' (k' & H' & HQ). exists k'. split; [|done]. split; [done|]. rewrite Hbu. split; [done|].
      eapply winv_hand; [|exact H']. by rewrite Permutation_app_comm.
Qed.

Lemma held_own c hand k s : carry0 c hand k s -> winv0 (option_list (slab c)) (ci c :: hand) [] k Idle s.
Proof.
  intros [_ Hc]. destruct (built c); [destruct Hc as (_ & e & _ & _ & _ & ?); by eapply winv_idle|]. by destruct Hc as [-> ?].
Qed.

Lemma held_load {A} (f : shared -> A) o hand k s :
  held o hand k s -> wp (load f) (fun a s' => held o hand k s' /\ a = f (sh s')) s.
Proof.
  intros Hs. eapply wp_mono; [apply (wp_held _ _ hand (fun _ => hand) k (fun a k' s' => k' = k /\ a = f (sh s')) _ Hs)|].
  - intros aside h0 _ H1. eapply wr_load; [exact H1|]. intros s' H' _. exists k. auto.
  - intros a s' (k' & H' & -> & ->). auto.
Qed.

Lemma held_plain e o hand k s :
  held o hand k s -> plain e = true -> wp (emit_event e) (fun _ s' => held o hand k s') s.
Proof.
  intros Hs He. eapply wp_mono; [apply (wp_held _ _ hand (fun _ => hand) k (fun _ k' _ => k' = k) _ Hs)|].
  - intros aside h0 _ H1. eapply wp_plain; [exact H1|done|]. intros H2. by exists k.
  - by intros a s' (k' & H' & ->).
Qed.

Lemma held_turn o hand k s : held o hand k s -> wp (emit_event ETurn) (fun _ s' => held o hand 0 s') s.
Proof.
  intros Hs. eapply wp_mono; [apply (wp_held _ _ hand (fun _ => hand) k (fun _ k' _ => k' = 0%nat) _ Hs)|].
  - intros aside h0 _ H1. apply wp_modify. exists 0%nat. split; [|done]. by eapply winv_turn.
  - by intros a s' (k' & H' & ->).
Qed.

Lemma held_pop o k s :
  held o [] k s ->
  wp pop_lifecycle (fun a s' => held o (option_list a) k s' /\ forall i, a = Some i -> lane i = laneLifecycle) s.
Proof.
  intros Hs. eapply wp_mono;
    [apply (wp_held _ _ [] (fun a => option_list a) k (fun a k' s' => k' = k /\ forall i, a = Some i -> lane i = laneLifecycle) _ Hs)|].
  - intros aside h0 _ H1. eapply wp_pop_life; [exact H1| |].
    + intros i s' H' Hl. exists k. split; [exact H'|]. split; [done|]. by intros j [= <-].
    + intros s' H'. exists k. done.
  - intros a s' (k' & H' & -> & ?). auto.
Qed.

Lemma held_modify (f : wr -> wr) o hand k s :
  (forall aside own hand out k ph s, winv w cs cap b aside t own hand out k ph s ->
     winv w cs cap b aside t own hand out k ph (f s)) ->
  held o hand k s -> held o hand k (f s).
Proof.
  intros Hf Hs.
  assert (H : wp (modify f) (fun _ s' => exists k', held o hand k' s' /\ k' = k) s).
  { apply (wp_held _ _ hand (fun _ => hand) k (fun _ k' _ => k' = k) _ Hs). intros aside h0 _ H1. apply wp_modify.
    exists k. auto. }
  by destruct H as (k' & ? & ->).
Qed.

(** The loop's invariant between turns. *)
Definition linv (l : loop) (s : wr) : Prop :=
  held (stuck l) (option_list (staged l)) 0 s /\ (forall i, staged l = Some i -> lane i = laneLifecycle) /\
  (stuck l <> None -> created (timer l) = true).

(** The goroutine has returned: nothing is queued and nothing is in hand. *)
Definition finished (s : wr) : Prop :=
  winv0 [] [] [] 0 Idle s /\ lifecycleQueue (sh s) = [] /\ dataQueue (sh s) = [].

Definition turn_post (o : option loop) (s : wr) : Prop :=
  match o with Some l => linv l s | None => finished s end.

Lemma wp_emit_fresh i r Q s :
  winv0 [] [i] [] 0 Idle s ->
  (forall c r' s', held c [] 0 s' -> (c <> None -> created r' = true) -> Q (c, r') s') -> wp (emit_fresh w i r) Q s.
Proof.
  intros Hs HQ. unfold emit_fresh. apply wp_bind. eapply wp_mono; [by apply wr_emit|]. intros [c|] s1 H1.
  - unfold timer_arm. apply wp_bind, wp_bind. eapply wp_mono; [by apply (held_plain _ (Some c) [] 0)|].
    intros [] s2 H2. apply wp_ret, wp_ret, HQ; [exact H2|done].
  - by apply wp_ret, HQ.
Qed.

Lemma wp_data_attempt l k Q s :
  held (stuck l) [] k s -> (stuck l <> None -> created (timer l) = true) ->
  (forall c r s', held c [] 0 s' -> (c <> None -> created r = true) -> Q (c, r) s') -> wp (data_attempt w l) Q s.
Proof.
  intros Hs Ht HQ. unfold data_attempt. apply wp_bind. eapply wp_mono; [by eapply held_turn|]. intros [] s1 H1.
  destruct (stuck l) as [c|].
  - apply wp_bind. eapply wp_mono; [apply (wp_place w cs cap b [] t Hstored Hmax c [] 0 _ H1)|].
    intros [[] c'] s2 H2; [by apply wp_ret, HQ|]. destruct H2 as [_ H2]. apply wp_bind. specialize (Ht ltac:(done)).
    destruct (timerFired l); [|by apply wp_ret, wp_ret, HQ]. unfold timer_backoff. rewrite Ht. apply wp_bind.
    eapply wp_mono; [by apply (held_plain _ (Some c') [] 0)|]. intros [] s3 H3. by apply wp_ret, wp_ret, HQ.
  - eapply wp_bind, wp_pop_data; [exact H1| |intros s2 H2; by apply wp_ret, HQ].
    intros i s2 H2. by eapply wp_emit_fresh.
Qed.

Lemma drain_loop_ok fuel s :
  winv0 [] [] [] 0 Idle s ->
  wp (drain_loop fuel) (fun _ => finished) s /\
  ((length (lifecycleQueue (sh s)) + length (dataQueue (sh s)) < fuel)%nat -> drain_loop fuel s <> Parks).
Proof.
  revert s. induction fuel as [|fuel IH]; intros s Hs; [split; [done|lia]|].
  cbn [drain_loop].
  (* one intent taken and reported *)
  assert (Hgo : forall i s', winv0 [] [i] [] 0 Idle s' ->
    (length (lifecycleQueue (sh s')) + length (dataQueue (sh s')) <
     length (lifecycleQueue (sh s)) + length (dataQueue (sh s)))%nat ->
    wp (report i (Some [ErrClosed]) ≫= fun _ => drain_loop fuel) (fun _ => finished) s' /\
    ((length (lifecycleQueue (sh s)) + length (dataQueue (sh s)) < S fuel)%nat ->
     (report i (Some [ErrClosed]) ≫= fun _ => drain_loop fuel) s' <> Parks)).
  { intros i s' H' Hlt. set (s2 := with_log (log s' ++ report_tail i (Some [ErrClosed])) s').
    assert (E : (report i (Some [ErrClosed]) ≫= fun _ => drain_loop fuel) s' = drain_loop fuel s2).
    { unfold mbind, prog_bind. by rewrite report_runs. }
    assert (H2 : winv0 [] [] [] 0 Idle s2) by (by eapply (winv_tail _ _ _ _ _ _ _ _ _ [i] [])).
    destruct (IH s2 H2) as [I1 I2]. split; [unfold wp; rewrite E; exact I1|]. intros Hf. rewrite E. apply I2. simpl. lia. }
  unfold wp, mbind, prog_bind, pop_any.
  destruct (lifecycleQueue (sh s)) as [|i q] eqn:El; destruct (dataQueue (sh s)) as [|j r] eqn:Ed.
  - split; [|done]. split; [by apply winv_plain|]. done.
  - apply Hgo; simpl; [|rewrite ?El, ?Ed; simpl; lia].
    apply (winv_wakes _ _ _ _ _ _ _ _ _ _ _ (with_sh (set_dataQueue r (sh s)) s)). by apply winv_take_data.
  - apply Hgo; simpl; [|rewrite ?El, ?Ed; simpl; lia].
    apply (winv_wakes _ _ _ _ _ _ _ _ _ _ _ (with_sh (set_lifecycleQueue q (sh s)) s)). by apply winv_take_life.
  - assert (H1 : winv0 [] [j] [] 0 Idle (with_wakes (List.tl (wakes s)) (with_sh (set_dataQueue r (sh s)) s)))
      by (by apply winv_wakes, winv_take_data).
    assert (H2 : winv0 [] [i] [] 0 Idle (with_wakes (List.tl (wakes s)) (with_sh (set_lifecycleQueue q (sh s)) s)))
      by (by apply winv_wakes, winv_take_life).
    destruct (match wakes s with WkData :: _ => true | _ => false end).
    + apply Hgo; [exact H1|]. simpl. rewrite ?El, ?Ed. simpl. lia.
    + apply Hgo; [exact H2|]. simpl. rewrite ?El, ?Ed. simpl. lia.
Qed.

(** What is left of the carry at shutdown. *)
Definition dispose (o : option carry) : prog wr unit :=
  match o with
  | Some c => free_owned (slab c) ≫= fun _ => report (ci c) (Some [ErrClosed])
  | None => mret tt
  end.

Lemma wp_dispose o s : held o [] 0 s -> wp (dispose o) (fun _ s' => winv0 [] [] [] 0 Idle s') s.
Proof.
  intros Hs. destruct o as [c|]; simpl in *; [|by apply wp_ret]. apply held_own in Hs.
  eapply wp_bind, (wp_free_owned _ _ _ _ _ _ []); [by rewrite app_nil_r|done|]. intros s1 H1.
  eapply wp_report; [exact H1|]. auto.
Qed.

Lemma dispose_returns o s : held o [] 0 s -> exists s', dispose o s = Ret s' tt.
Proof.
  intros Hs. destruct o as [c|]; simpl in *; [|by exists s]. apply held_own in Hs. destruct (slab c) as [x|]; simpl in *.
  - destruct (slabs_free _ _ x [] _ _ (co_slabs _ _ _ _ _ _ _ _ _ _ (proj1 Hs))) as (a' & Ef & _).
    unfold mbind, prog_bind, free_slab. rewrite Ef. rewrite report_runs. eauto.
  - unfold mbind, prog_bind, mret, prog_ret. rewrite report_runs. eauto.
Qed.

Lemma wp_drainAndStop o s : held o [] 0 s -> wp (drainAndStop o) (fun _ => finished) s.
Proof.
  intros Hs. unfold drainAndStop. apply wp_bind. eapply wp_mono; [by apply (held_load barrier)|]. intros br s1 [H1 _].
  destruct br; cbn [negb]; [|done]. fold (dispose o). apply wp_bind. eapply wp_mono; [by apply wp_dispose|].
  intros [] s2 H2. apply wp_bind, wp_gets. by apply drain_loop_ok.
Qed.

(** With the barrier closed the drain returns. *)
Lemma drainAndStop_returns o s s0 :
  held o [] 0 s -> load barrier s = Ret s0 true -> exists s', drainAndStop o s = Ret s' tt /\ finished s'.
Proof.
  intros Hs Hb. pose proof (wp_drainAndStop o s Hs) as Hwp. revert Hwp. unfold wp.
  assert (E : drainAndStop o s = (dispose o ≫= fun _ =>
    n ← gets (fun s => length (lifecycleQueue (sh s)) + length (dataQueue (sh s)))%nat; drain_loop (S n)) s0).
  { unfold drainAndStop. unfold mbind at 1, prog_bind at 1. by rewrite Hb. }
  assert (H0 : held o [] 0 s0).
  { pose proof (held_load barrier o [] 0 s Hs) as H. unfold wp in H. rewrite Hb in H. apply H. }
  rewrite E. pose proof (wp_dispose o s0 H0) as Hd. destruct (dispose_returns o s0 H0) as (s1 & E1).
  unfold wp in Hd. rewrite E1 in Hd. unfold mbind, prog_bind. rewrite E1. unfold gets.
  destruct (drain_loop_ok (S (length (lifecycleQueue (sh s1)) + length (dataQueue (sh s1)))) s1 Hd) as [_ Hn].
  specialize (Hn ltac:(lia)). destruct (drain_loop _ s1) as [s' []| |]; [|done|done]. intros Hf. by exists s'.
Qed.

Lemma wp_stop o s : held o [] 0 s -> wp (drainAndStop o ≫= fun _ => mret None) turn_post s.
Proof. intros Hs. apply wp_bind. eapply wp_mono; [by apply wp_drainAndStop|]. intros [] s1 H1. by apply wp_ret. Qed.

Lemma wp_select Q s o :
  held o [] 0 s -> (forall k s', held o [] 0 s' -> Q k s') -> wp select_wake Q s.
Proof.
  intros Hs HQ. unfold wp, select_wake. destruct (wakes s) as [|k rest]; [done|]. apply HQ.
  apply (held_modify (with_wakes rest)); [|done]. intros. by apply winv_wakes.
Qed.

Lemma wp_block_stuck c r s :
  held (Some c) [] 0 s -> created r = true -> wp (block_stuck c r) turn_post s.
Proof.
  intros Hs Hr. unfold block_stuck. eapply wp_bind, wp_select; [exact Hs|]. intros k s1 H1. destruct k.
  - apply wp_bind. eapply wp_mono; [by apply held_pop|]. intros [i|] s2 [H2 Hl]; [|done]. by apply wp_ret.
  - done.
  - destruct (armed r); [|done]. by apply wp_ret.
  - apply wp_bind. eapply wp_mono; [by apply (held_load retry)|]. intros br s2 [H2 _]. destruct br; [|done].
    apply wp_bind, wp_modify, wp_ret. split; [|done].
    apply (held_modify (fun s => with_sh (set_retry false (sh s)) s)); [|done]. intros. by apply winv_retry.
  - apply wp_bind. eapply wp_mono; [by apply (held_load shutdownClosed)|]. intros br s2 [H2 _]. destruct br; [|done].
    by apply wp_stop.
Qed.

Lemma wp_block_idle r s : held None [] 0 s -> wp (block_idle w r) turn_post s.
Proof.
  intros Hs. unfold block_idle. eapply wp_bind, wp_select; [exact Hs|]. intros k s1 H1. destruct k; try done.
  - apply wp_bind. eapply wp_mono; [by apply (held_pop None)|]. intros [i|] s2 [H2 Hl]; [|done]. by apply wp_ret.
  - eapply wp_bind, wp_pop_data; [exact H1| |done]. intros i s2 H2. eapply wp_bind, wp_emit_fresh; [exact H2|].
    intros c r' s3 H3 Hr. by apply wp_ret.
  - apply wp_bind. eapply wp_mono; [by apply (held_load shutdownClosed None)|]. intros br s2 [H2 _]. destruct br; [|done].
    by apply wp_stop.
Qed.

Lemma wp_turn l s : linv l s -> wp (turn w l) turn_post s.
Proof.
  intros (Hs & Hl & Ht). unfold turn. apply wp_bind.
  eapply wp_mono; [apply (wp_held _ _ _ (fun _ => []) 0 (fun _ _ _ => True) _ Hs)|].
  - intros aside h0 _ H1. eapply wp_burst; [exact Hstored|exact Hmax|exact H1|done|]. intros k' s' H'. by exists k'.
  - intros [] s1 (k & H1 & _). eapply wp_bind, wp_data_attempt; [exact H1|done|]. intros c r s2 H2 Hr.
    apply wp_bind. eapply wp_mono; [by apply held_load|]. intros more s3 [H3 _]. destruct more; [by apply wp_ret|].
    destruct c as [c|]; [apply wp_block_stuck; auto|by apply wp_block_idle].
Qed.

Lemma wp_run n l s : linv l s -> wp (run w n l) turn_post s.
Proof.
  revert l s. induction n as [|n IH]; intros l s Hl; cbn [run]; [by apply wp_ret|].
  apply wp_bind. eapply wp_mono; [by apply wp_turn|]. intros [l'|] s1 H1; [by apply IH|by apply wp_ret].
Qed.

(** ** From the start *)

(** A writer before its first turn, over a region whose words are any. *)
Record start_ok (s : wr) : Prop := {
  st_script : Forall (fun f => forall h, rtc (env w b) h (f h)) (script s);
  st_ring : Ring.config_ok (ring (sh s)) /\ is_u64 (Ring.head (ring (sh s))) /\ is_u64 (Ring.tail (ring (sh s)));
  st_cap : Ring.capacity (ring (sh s)) = cap /\ handleMask w = cap - 1;
  st_arena : Arena.arena_inv (arena (sh s)) /\ Arena.classes (arena (sh s)) = cs;
  st_table : handleTable s = replicate (Z.to_nat cap) None;
  st_stalls : length (classStalls s) = length cs;
  st_last : lastReclaimed s = 0;
  st_empty : lifecycleQueue (sh s) = [] /\ dataQueue (sh s) = [] /\ submitted (sh s) = [] /\ fills (sh s) = [] /\ log s = [];
  st_open : closed (sh s) = false /\ barrier (sh s) = false
}.

Lemma start_core s : start_ok s -> core w cs cap b [] [] [] [] 0 s.
Proof.
  intros [S1 (S2 & S2a & S2b) [S3 S3a] [S4 S4a] S5 S6 S7 (E1 & E2 & E3 & E4 & E5) [S8 S9]].
  assert (Hn : omap id (handleTable s) = []).
  { apply omap_id_none. rewrite S5. intros j x Hj. apply lookup_replicate in Hj as [? _]. done. }
  constructor; auto.
  - constructor; auto; rewrite ?E1, ?E3, ?E4; auto; try congruence. done.
  - constructor; auto.
    + rewrite S5. unfold zlen. rewrite length_replicate. destruct S2 as [S2 _ _ _]. unfold Ring.minCapacity in *. lia.
    + by rewrite Hn.
    + rewrite Hn. constructor.
  - constructor; rewrite ?E1, ?E2, ?E3, ?E5; done.
  - constructor; rewrite E5.
    + by intros x ok ?%not_elem_of_nil.
    + intros n id q d Hd. by rewrite lookup_nil in Hd.
    + constructor.
    + constructor.
    + by intros id d i p ?%not_elem_of_nil.
    + done.
    + intros l1 l2 E. symmetry in E. apply app_eq_nil in E as [-> _]. unfold life_run. simpl. lia.
  - rewrite S7. unfold is_u64. lia.
Qed.

(** With an honest peer: an empty ring, no slab in use, no poison. *)
Record start_honest (s : wr) : Prop := {
  sh_ring : Ring.represents (ring (sh s)) [] 0;
  sh_live : forall ci i q, ~ Arena.live (arena (sh s)) ci i q;
  sh_bytes : Forall is_byte (Arena.mem (arena (sh s)));
  sh_slots : Forall Descriptor.wf (Ring.slots (ring (sh s)));
  sh_gen : Arena.generation (arena (sh s)) = gen w;
  sh_poison : poison (ws (sh s)) = 0
}.

Lemma start_linv s : start_ok s -> (b = true -> start_honest s) -> linv initial_loop s.
Proof.
  intros Hs Hh. split; [|done]. simpl. split; [by apply start_core|]. intros Hb.
  destruct (Hh Hb) as [H1 H2 H3 H4 H5 H6]. destruct Hs as [_ _ [S3 _] _ S5 _ S7 (E1 & E2 & E3 & E4 & E5) _].
  split; [constructor; auto; by rewrite ?E3|]. exists 0, 0, 0, [], []. split; [|done].
  constructor; simpl; auto; try done.
  - change (zlen []) with 0. pose proof (Ring.cap_range _ (Ring.rep_config _ _ _ H1)) as Hr.
    unfold Ring.minCapacity in Hr. lia.
  - intros j x Hj. rewrite S5 in Hj. apply lookup_replicate in Hj as [? _]. done.
  - intros ci i q Hl. by apply H2 in Hl.
  - exists []. by rewrite E5.
Qed.

End loop.

(** ** Termination of a stopped writer *)

(** [stop] has run to its end.  Callers are refused from then on; they and the
    peer leave the flags and the queue as they are. *)
Definition shut (h : shared) : Prop := closed h = true /\ shutdownClosed h = true /\ barrier h = true.
Definition tame (f : shared -> shared) : Prop := forall h, shut h -> shut (f h) /\ lifecycleQueue (f h) = lifecycleQueue h.
Definition stopped (s : wr) : Prop := shut (sh s) /\ Forall tame (script s).

Lemma enqueue_shut w pick e i l h h' r : enqueue w pick e i l h = Some (h', r) -> closed h = true -> h' = h.
Proof. unfold enqueue. intros E C. rewrite C in E. by simplify_eq. Qed.

Lemma env_shut w b h h' : env w b h h' -> shut h -> shut h' /\ lifecycleQueue h' = lifecycleQueue h.
Proof.
  intros He Hs. pose proof Hs as (C & _). destruct He as [h r m x _|h c h' e _ H|h p|h|h|h _|h _]; try done.
  - destruct c; simpl in H; unfold submit, submitFill, submitReporting in H; by apply enqueue_shut in H as ->.
  - unfold abandon, cas_fill. destruct (fills h !! p) as [f|]; [|done]. by destruct (_ =? _).
  - destruct Hs as (? & ? & ?). by split_and!.
  - destruct Hs as (? & ? & ?). by split_and!.
  - destruct Hs as (? & ? & ?). by split_and!.
Qed.

Lemma env_tame w b f : (forall h, rtc (env w b) h (f h)) -> tame f.
Proof.
  intros Hf h. generalize (Hf h). generalize (f h). induction 1 as [h|h h1 h2 He _ IH]; intros Hs; [done|].
  destruct (env_shut _ _ _ _ He Hs) as [Hs1 E1]. destruct (IH Hs1) as [Hs2 E2]. split; [done|congruence].
Qed.

(** A step of a stopped writer leaves it stopped, keeps the scheduler's choices,
    takes at most lifecycle intents off the queue, and does not wait unless
    [may]. *)
Definition calm_or (may : Prop) {A} (m : prog wr A) : Prop :=
  forall s, stopped s ->
    match m s with
    | Ret s' _ => stopped s' /\ wakes s' = wakes s /\ exists n, lifecycleQueue (sh s') = drop n (lifecycleQueue (sh s))
    | Panics => True
    | Parks => may
    end.
Notation calm := (calm_or False).

Lemma calm_bind may {A B} (m : prog wr A) (f : A -> prog wr B) :
  calm_or may m -> (forall a, calm_or may (f a)) -> calm_or may (m ≫= f).
Proof.
  intros Hm Hf s Hs. unfold mbind, prog_bind. specialize (Hm s Hs). destruct (m s) as [s1 a| |]; auto.
  destruct Hm as (S1 & W1 & n1 & Q1). specialize (Hf a s1 S1). destruct (f a s1) as [s2 a2| |]; auto.
  destruct Hf as (S2 & W2 & n2 & Q2). split_and!; [done|congruence|].
  exists (n1 + n2)%nat. rewrite Q2, Q1. by rewrite drop_drop.
Qed.

Lemma calm_weaken (may : Prop) {A} (m : prog wr A) : calm m -> calm_or may m.
Proof. intros H s Hs. specialize (H s Hs). by destruct (m s). Qed.

Lemma calm_park {A} : calm_or True (@Prelude.park wr A).
Proof. done. Qed.

Lemma calm_ret may {A} (a : A) : calm_or may (mret a).
Proof. intros s Hs. simpl. split_and!; auto. by exists 0%nat. Qed.

Lemma calm_modify f :
  (forall s, script (f s) = script s /\ wakes (f s) = wakes s /\ sh (f s) = sh s) -> calm (modify f).
Proof.
  intros Hf s Hs. destruct (Hf s) as (E1 & E2 & E3). unfold stopped in *. simpl. rewrite E1, E2, E3. split_and!; auto; try apply Hs.
  by exists 0%nat.
Qed.

Lemma calm_interfere : calm interfere.
Proof.
  intros s [Hs Hf]. unfold interfere. destruct (script s) as [|f rest] eqn:E; [split_and!; auto; [by split; [|rewrite E]|by exists 0%nat]|].
  apply Forall_cons in Hf as [Hf Hr]. destruct (Hf _ Hs) as [Hs' Eq]. split_and!; [by split|done|]. exists 0%nat. simpl. by rewrite Eq.
Qed.

Lemma calm_gets {A} (f : wr -> A) : calm (gets f).
Proof. intros s Hs. simpl. split_and!; auto. by exists 0%nat. Qed.

Lemma calm_panic {A} : calm (@panic wr A).
Proof. done. Qed.

(** A step that touches neither the flags nor the lifecycle queue. *)
Lemma calm_step {A} (f : prog wr A) :
  (forall s, match f s with
     | Ret s' _ => script s' = script s /\ wakes s' = wakes s /\ closed (sh s') = closed (sh s) /\
         shutdownClosed (sh s') = shutdownClosed (sh s) /\
         barrier (sh s') = barrier (sh s) /\ lifecycleQueue (sh s') = lifecycleQueue (sh s)
     | Panics => True
     | Parks => False
     end) -> calm f.
Proof.
  intros Hf s Hs. specialize (Hf s). destruct (f s) as [s' a| |]; auto. destruct Hf as (E1 & E2 & E3 & E4 & E5 & E6).
  unfold stopped, shut in *. rewrite E1, E3, E4, E5. split_and!; try apply Hs; [done|]. exists 0%nat. by rewrite E6.
Qed.

Create HintDb calm.
#[local] Hint Resolve calm_interfere calm_gets calm_ret calm_panic : calm.

(** Walks a program whose leaves are in the hint database. *)
Ltac calm :=
  repeat (cbv beta zeta;
    match goal with
    | |- calm (_ ≫= _) => apply calm_bind; [|intros ?]
    | |- calm (mret _) => apply calm_ret
    | |- calm (modify _) => apply calm_modify; intros ?; done
    | |- calm (access _) => unfold access
    | |- calm (load _) => unfold load
    | |- calm (let (_, _) := ?p in _) => destruct p
    | |- calm (match ?x with _ => _ end) => destruct x
    | |- calm _ => solve [auto with calm]
    end).

Lemma calm_emit_event e : calm (emit_event e).
Proof. unfold emit_event. calm. Qed.
#[local] Hint Resolve calm_emit_event : calm.

Lemma calm_report i e : calm (report i e).
Proof. unfold report. calm. Qed.
Lemma calm_free x : calm (free_slab x).
Proof. apply calm_step. intros s. unfold free_slab. by destruct (Arena.Free x (arena (sh s))). Qed.
Lemma calm_alloc n : calm (alloc n).
Proof. apply calm_step. intros s. unfold alloc. by destruct (Arena.Alloc n (arena (sh s))) as [[]| |]. Qed.
#[local] Hint Resolve calm_report calm_free calm_alloc : calm.

Lemma calm_free_owned o : calm (free_owned o).
Proof. unfold free_owned. calm. Qed.
Lemma calm_gate : calm prePublishFault.
Proof. unfold prePublishFault. calm. Qed.
Lemma calm_poison : calm poisonRingCorrupt.
Proof.
  unfold poisonRingCorrupt, access. apply calm_bind; [auto with calm|]. intros _. apply calm_step. intros s.
  by destruct (Set_ PoisonRingCorrupt (ws (sh s))) as [[]| |].
Qed.
Lemma calm_claim p : calm (claim p).
Proof.
  unfold claim, access. apply calm_bind; [auto with calm|]. intros _. apply calm_step. intros s.
  unfold cas_fill. destruct (fills (sh s) !! p) as [f|]; [|done]. by destruct (fstate f =? fillPending).
Qed.
Lemma calm_store off bs : calm (store_bytes off bs).
Proof. unfold store_bytes. apply calm_bind; [auto with calm|]. intros _. by apply calm_step. Qed.
Lemma calm_push i seq d : calm (push i seq d).
Proof.
  unfold push, access. apply calm_bind; [auto with calm|]. intros _. apply calm_step. intros s.
  by destruct (Ring.Push d (ring (sh s))).
Qed.
Lemma calm_pop_data : calm pop_data.
Proof.
  unfold pop_data, access. apply calm_bind; [auto with calm|]. intros _. apply calm_step. intros s.
  by destruct (dataQueue (sh s)).
Qed.
#[local] Hint Resolve calm_free_owned calm_gate calm_poison calm_claim calm_store calm_push calm_pop_data : calm.

Section calm.
Context (w : config).

Lemma calm_table_get n : calm (table_get w n).
Proof. apply calm_step. intros s. unfold table_get. by destruct (handleTable s !! table_slot w n). Qed.
Lemma calm_table_set n r : calm (table_set w n r).
Proof. apply calm_step. intros s. unfold table_set. by case_decide. Qed.
Hint Resolve calm_table_get calm_table_set : calm.

Lemma calm_reclaim_loop n hd : calm (reclaim_loop w n hd).
Proof. induction n as [|n IH]; cbn [reclaim_loop]; unfold reclaim_slot; calm. Qed.
Hint Resolve calm_reclaim_loop : calm.

Lemma calm_reclaim n : calm (reclaim w n).
Proof. unfold reclaim. calm. Qed.
Lemma calm_payloadOf i : calm (payloadOf i).
Proof.
  apply calm_step. intros s. unfold payloadOf. destruct (fill i) as [p|]; [|done]. by destruct (fills (sh s) !! p).
Qed.
Lemma calm_failed i e : calm (failed i e).
Proof. unfold failed. calm. Qed.
Hint Resolve calm_reclaim calm_payloadOf calm_failed : calm.

Lemma calm_fillSlab i p x n : calm (fillSlab i p x n).
Proof. unfold fillSlab, runFill, read_bytes. calm. Qed.
Hint Resolve calm_fillSlab : calm.

Lemma calm_stamp_slab i d b0 n x : calm (stamp_slab w i d b0 n x).
Proof. unfold stamp_slab, read_bytes. calm. Qed.
Hint Resolve calm_stamp_slab : calm.

Lemma calm_build i : calm (build w i).
Proof. unfold build, stampPayload. calm. Qed.
Lemma calm_published seq r n : calm (published w seq r n).
Proof. unfold published. calm. Qed.
Lemma calm_push_fault e : calm (push_fault e).
Proof. unfold push_fault. calm. Qed.
Hint Resolve calm_build calm_published calm_push_fault : calm.

Lemma calm_emitLifecycle i : calm (emitLifecycle w i).
Proof. unfold emitLifecycle, publishSeq. calm. Qed.
Lemma calm_place c : calm (place w c).
Proof.
  assert (Hset : forall c, calm (noteArenaSetAside c)).
  { intros c0. apply calm_step. intros s. unfold noteArenaSetAside. by repeat case_match; simplify_eq/=. }
  assert (Hres : forall c, calm (noteArenaResume c)).
  { intros c0. apply calm_step. intros s. unfold noteArenaResume. by repeat case_match; simplify_eq/=. }
  unfold place, place_built, resolve, abandoned, publishSeq. calm.
Qed.
Hint Resolve calm_emitLifecycle calm_place : calm.

Lemma calm_emit_fresh i r : calm (emit_fresh w i r).
Proof. unfold emit_fresh, emit, timer_arm. calm. Qed.
Hint Resolve calm_emit_fresh : calm.

Lemma calm_data_attempt l : calm (data_attempt w l).
Proof. unfold data_attempt, timer_backoff. calm. Qed.
End calm.

Lemma calm_pop : calm pop_lifecycle.
Proof.
  unfold pop_lifecycle, access. apply calm_bind; [apply calm_interfere|]. intros _ s Hs.
  destruct (lifecycleQueue (sh s)) as [|i q] eqn:E; simpl; (split_and!; auto); [by exists 0%nat|by exists 1%nat].
Qed.
Lemma calm_load {A} (f : shared -> A) : calm (load f).
Proof. unfold load. apply calm_bind; [apply calm_interfere|]. intros _. apply calm_gets.
Qed.

Lemma calm_burst_loop w n : calm (burst_loop w n).
Proof.
  induction n as [|n IH]; cbn [burst_loop]; [apply calm_ret|]. apply calm_bind; [apply calm_pop|]. intros [i|]; [|apply calm_ret].
  apply calm_bind; [apply calm_emitLifecycle|]. by intros _.
Qed.

(** The burst takes at least one intent off a queue that holds some. *)
Lemma pop_some s :
  stopped s -> lifecycleQueue (sh s) <> [] ->
  exists s1 i, pop_lifecycle s = Ret s1 (Some i) /\ stopped s1 /\
    (length (lifecycleQueue (sh s1)) < length (lifecycleQueue (sh s)))%nat.
Proof.
  intros Hs Hq. pose proof (calm_interfere s Hs) as Hi. unfold pop_lifecycle, access, mbind, prog_bind.
  assert (E : exists s0, interfere s = Ret s0 tt /\ lifecycleQueue (sh s0) = lifecycleQueue (sh s)).
  { unfold interfere. destruct Hs as [Hs Hf]. destruct (script s) as [|f rest]; [by eexists|].
    apply Forall_cons in Hf as [Hf _]. destruct (Hf _ Hs) as [_ Eq]. eexists. split; [done|]. exact Eq. }
  destruct E as (s0 & E0 & Eq). rewrite E0 in *. destruct Hi as (Hs0 & _ & _).
  rewrite Eq. destruct (lifecycleQueue (sh s)) as [|i q]; [done|]. eexists _, i. split; [done|]. split; [exact Hs0|simpl; lia].
Qed.

Lemma calm_shrinks {A} (m : prog wr A) s s' a :
  calm m -> stopped s -> m s = Ret s' a -> stopped s' /\ (length (lifecycleQueue (sh s')) <= length (lifecycleQueue (sh s)))%nat.
Proof. intros Hc Hs E. specialize (Hc s Hs). rewrite E in Hc. destruct Hc as (? & _ & n & ->). split; [done|]. rewrite length_drop. lia. Qed.

Lemma burst_loop_less w n s s' :
  stopped s -> lifecycleQueue (sh s) <> [] -> burst_loop w (S n) s = Ret s' tt ->
  (length (lifecycleQueue (sh s')) < length (lifecycleQueue (sh s)))%nat.
Proof.
  intros Hs Hq. cbn [burst_loop]. unfold mbind at 1, prog_bind at 1.
  destruct (pop_some s Hs Hq) as (s1 & i & -> & S1 & L1). intros E.
  destruct (calm_shrinks _ s1 s' tt (calm_bind False (emitLifecycle w i) (fun _ => burst_loop w n) (calm_emitLifecycle w i)
    (fun _ => calm_burst_loop w n)) S1 E) as [_ L2]. lia.
Qed.

Lemma calm_burst w l : calm (lifecycle_burst w l).
Proof.
  unfold lifecycle_burst. destruct (staged l); [|apply calm_burst_loop].
  apply calm_bind; [apply calm_emitLifecycle|]. intros _. apply calm_burst_loop.
Qed.

Lemma burst_less w l s s' :
  stopped s -> lifecycleQueue (sh s) <> [] -> lifecycle_burst w l s = Ret s' tt ->
  (length (lifecycleQueue (sh s')) < length (lifecycleQueue (sh s)))%nat.
Proof.
  intros Hs Hq. unfold lifecycle_burst. destruct (staged l) as [i|]; [|by apply burst_loop_less].
  unfold mbind, prog_bind. destruct (emitLifecycle w i s) as [s1 []| |] eqn:E1; [|done|done]. intros E.
  destruct (calm_shrinks _ s s1 tt (calm_emitLifecycle w i) Hs E1) as [S1 L1].
  destruct (decide (lifecycleQueue (sh s1) = [])) as [Eq|Nq].
  - destruct (calm_shrinks _ s1 s' tt (calm_burst_loop w _) S1 E) as [_ L2]. rewrite Eq in L2.
    destruct (lifecycleQueue (sh s)); [done|simpl in *; lia].
  - pose proof (burst_loop_less w 2 s1 s' S1 Nq E). lia.
Qed.

(** A calm program under an invariant returns. *)
Lemma wp_calm {A} (m : prog wr A) Q s :
  wp m Q s -> calm m -> stopped s ->
  exists s' a, m s = Ret s' a /\ Q a s' /\ stopped s' /\ wakes s' = wakes s /\
    (length (lifecycleQueue (sh s')) <= length (lifecycleQueue (sh s)))%nat.
Proof.
  intros Hw Hc Hs. unfold wp in Hw. specialize (Hc s Hs). destruct (m s) as [s' a| |]; [|done|done].
  destruct Hc as (? & ? & n & E). exists s', a. split_and!; auto. rewrite E, length_drop. lia.
Qed.

Section stop.
Context (w : config) (cs : list SizeClass) (cap : Z) (b : bool) (t : receiver).
Context (Hstored : is_u32 (maxStored w)).
Context (Hmax : b = true -> max_message w <= maxRecvPayload t).

#[local] Notation linv := (linv w cs cap b t).
#[local] Notation finished := (finished w cs cap b t).
#[local] Notation held := (held w cs cap b t).

(** The select a turn ends in, and what follows the arm it takes. *)
Definition block (c : option carry) (r : retryTimer) : prog wr (option loop) :=
  match c with Some c => block_stuck c r | None => block_idle w r end.

Definition taken (c : option carry) (r : retryTimer) (k : wake) : prog wr (option loop) :=
  fun s => block c r (with_wakes (k :: wakes s) s).

Lemma with_wakes_self s : with_wakes (wakes s) s = s.
Proof. by destruct s. Qed.

Lemma block_taken c r k rest s : wakes s = k :: rest -> block c r s = taken c r k (with_wakes rest s).
Proof. intros E. unfold taken. simpl. rewrite <- E. f_equal. by destruct s. Qed.

(** Every arm but the shutdown keeps the goroutine going, or is not ready. *)
Lemma taken_calm c r k : k <> WkShutdown -> calm_or True (taken c r k).
Proof.
  assert (Hsel : forall (f : wake -> prog wr (option loop)) s,
    (select_wake ≫= f) (with_wakes (k :: wakes s) s) = f k s).
  { intros f s. unfold select_wake, mbind, prog_bind. simpl. f_equal. by destruct s. }
  intros Hk s Hs. unfold taken, block. destruct c as [c|]; unfold block_stuck, block_idle; rewrite Hsel; revert s Hs.
  - change (calm_or True (match k with
      | WkLifecycle => o ← pop_lifecycle; match o with Some i => mret (Some (mkLoop (Some c) r false (Some i))) | None => Prelude.park end
      | WkTimer => if armed r then mret (Some (mkLoop (Some c) r true None)) else Prelude.park
      | WkRetry => bb ← load retry; if (bb : bool) then modify (fun s => with_sh (set_retry false (sh s)) s) ≫= fun _ => mret (Some (mkLoop (Some c) r false None)) else Prelude.park
      | WkShutdown => bb ← load shutdownClosed; if (bb : bool) then drainAndStop (Some c) ≫= fun _ => mret None else Prelude.park
      | WkData => Prelude.park
      end)). destruct k; try done.
    + apply calm_bind; [apply calm_weaken, calm_pop|]. intros [i|]; [apply calm_ret|apply calm_park].
    + destruct (armed r); [apply calm_ret|apply calm_park].
    + apply calm_bind; [apply calm_weaken, calm_load|]. intros [|]; [|apply calm_park].
      apply calm_bind; [by apply calm_weaken, calm_step|]. intros _. apply calm_ret.
  - change (calm_or True (match k with
      | WkLifecycle => o ← pop_lifecycle; match o with Some i => mret (Some (mkLoop None r false (Some i))) | None => Prelude.park end
      | WkData => o ← pop_data; match o with Some i => cr ← emit_fresh w i r; mret (Some (mkLoop (fst cr) (snd cr) false None)) | None => Prelude.park end
      | WkShutdown => bb ← load shutdownClosed; if (bb : bool) then drainAndStop None ≫= fun _ => mret None else Prelude.park
      | _ => Prelude.park
      end)). destruct k; try done.
    + apply calm_bind; [apply calm_weaken, calm_pop|]. intros [i|]; [apply calm_ret|apply calm_park].
    + apply calm_bind; [apply calm_weaken, calm_pop_data|]. intros [i|]; [|apply calm_park].
      apply calm_bind; [|intros; apply calm_ret]. apply calm_weaken, calm_emit_fresh.
Qed.

(** The shutdown arm is ready, and ends the goroutine. *)
Lemma taken_shutdown c r s :
  held c [] 0 s -> stopped s -> exists s', taken c r WkShutdown s = Ret s' None /\ finished s'.
Proof.
  intros Hs Hst. assert (Hl : forall (f : shared -> bool) s1, (forall h, shut h -> f h = true) -> held c [] 0 s1 -> stopped s1 ->
    exists s2, load f s1 = Ret s2 true /\ held c [] 0 s2 /\ stopped s2).
  { intros f s1 Hf H1 S1. pose proof (held_load w cs cap b t f c [] 0 s1 H1) as Hw.
    destruct (wp_calm _ _ _ Hw (calm_load f) S1) as (s2 & a & E & [H2 ->] & S2 & _). exists s2.
    rewrite E, (Hf _ (proj1 S2)). done. }
  destruct (Hl shutdownClosed s) as (s1 & E1 & H1 & S1); [by intros h (_ & ? & _)|done|done|].
  destruct (Hl barrier s1) as (s2 & E2 & H2 & S2); [by intros h (_ & _ & ?)|done|done|].
  destruct (drainAndStop_returns w cs cap b t c s1 s2 H1 E2) as (s3 & E3 & H3). exists s3. split; [|done].
  assert (Hsel : select_wake (with_wakes (WkShutdown :: wakes s) s) = Ret s WkShutdown).
  { unfold select_wake. simpl. f_equal. by destruct s. }
  unfold taken, block. destruct c as [c|]; unfold block_stuck, block_idle, mbind, prog_bind; rewrite Hsel, E1, E3; done.
Qed.

(** The turns left, when the select picks the arms [pre] before the shutdown. *)
Definition left (pre : list wake) (s : wr) : nat := length pre + length (lifecycleQueue (sh s)).

Lemma turn_stops l s pre rest :
  linv l s -> stopped s -> wakes s = pre ++ WkShutdown :: rest ->
  match turn w l s with
  | Ret s' None => finished s'
  | Ret s' (Some l') => linv l' s' /\ stopped s' /\ exists pre', pre' ⊆ pre /\ wakes s' = pre' ++ WkShutdown :: rest /\ (left pre' s' < left pre s)%nat
  | Parks => exists k, head pre = Some k /\ k <> WkShutdown
  | Panics => False
  end.
Proof.
  intros Hli S0 W0. pose proof (wp_turn w cs cap b t Hstored Hmax l s Hli) as Hwp. revert Hwp. destruct Hli as (Hs & Hl & Ht).
  unfold wp.
  assert (Hb : wp (lifecycle_burst w l) (fun _ s' => exists k, held (stuck l) [] k s') s).
  { eapply wp_mono; [apply (wp_held w cs cap b t _ _ _ (fun _ => []) 0 (fun _ _ _ => True) _ Hs)|].
    - intros aside h0 _ H1. eapply wp_burst; [exact Hstored|exact Hmax|exact H1|done|]. intros k' s' H'. by exists k'.
    - intros a s' (k & ? & _). by exists k. }
  destruct (wp_calm _ _ _ Hb (calm_burst w l) S0) as (s1 & [] & E1 & (k & H1) & S1 & W1 & L1).
  assert (Hd : wp (data_attempt w l) (fun cr s' => held (fst cr) [] 0 s' /\ (fst cr <> None -> created (snd cr) = true)) s1).
  { eapply wp_data_attempt; [exact Hstored|exact Hmax|exact H1|done|]. auto. }
  destruct (wp_calm _ _ _ Hd (calm_data_attempt w l) S1) as (s2 & [c r] & E2 & [H2 Hr] & S2 & W2 & L2). cbn [fst snd] in *.
  pose proof (held_load w cs cap b t (fun h => negb (bool_decide (lifecycleQueue h = []))) c [] 0 s2 H2) as Hw.
  destruct (wp_calm _ _ _ Hw (calm_load _) S2) as (s3 & more & E3 & [H3 ->] & S3 & W3 & L3).
  assert (E : turn w l s = (if negb (bool_decide (lifecycleQueue (sh s3) = [])) then mret (Some (mkLoop c r false None)) else block c r) s3)
    by (unfold turn, mbind, prog_bind; by rewrite E1, E2, E3).
  rewrite E. clear E. destruct (bool_decide (lifecycleQueue (sh s3) = [])) eqn:Eq; cbn [negb].
  - apply bool_decide_eq_true in Eq.
    assert (W : wakes s3 = pre ++ WkShutdown :: rest) by congruence. destruct pre as [|k0 pre].
    + rewrite (block_taken c r _ _ s3 W). destruct (taken_shutdown c r (with_wakes rest s3)) as (s4 & E4 & H4); [|exact S3|rewrite E4; intros _; exact H4].
      apply (held_modify w cs cap b t (with_wakes rest)); [|done]. intros. by apply winv_wakes.
    + rewrite (block_taken c r k0 (pre ++ WkShutdown :: rest) s3 W). set (s3' := with_wakes (pre ++ WkShutdown :: rest) s3).
      assert (H3' : held c [] 0 s3').
      { apply (held_modify w cs cap b t (with_wakes (pre ++ WkShutdown :: rest))); [|done]. intros. by apply winv_wakes. }
      assert (Hk : k0 = WkShutdown \/ k0 <> WkShutdown) by (destruct k0; auto). destruct Hk as [-> |Hk].
      * destruct (taken_shutdown c r s3' H3' S3) as (s4 & E4 & H4). rewrite E4. intros _. exact H4.
      * pose proof (taken_calm c r k0 Hk s3' S3) as Hc. destruct (taken c r k0 s3') as [s4 [l4|]| |]; [|done|done|by intros _; exists k0].
        destruct Hc as (S4 & W4 & n & Q4). intros Hli. split; [done|]. split; [done|]. exists pre. split; [by apply list_subseteq_cons|]. split; [done|].
        unfold left. rewrite Q4. simpl. rewrite Eq, drop_nil. simpl. lia.
  - apply bool_decide_eq_false in Eq. intros Hli. split; [done|]. split; [done|]. exists pre. split; [done|]. split; [congruence|].
    assert (Hne : lifecycleQueue (sh s) <> []).
    { intros E. destruct (lifecycleQueue (sh s3)) as [|j q]; [done|]. rewrite E in L1. simpl in *. lia. }
    pose proof (burst_less w l s s1 S0 Hne E1) as Hb'. unfold left. lia.
Qed.

(** The select waits on an arm of [pre], which is not ready. *)
Definition waits (pre : list wake) (l : loop) (s : wr) : Prop :=
  exists n l1 s1 k rest, k ∈ pre /\ run w n l s = Ret s1 (Some l1) /\ wakes s1 = k :: rest /\ k <> WkShutdown /\ turn w l1 s1 = Parks.

Lemma run_stops n l s pre rest :
  linv l s -> stopped s -> wakes s = pre ++ WkShutdown :: rest -> (left pre s < n)%nat ->
  match run w n l s with Ret s' o => o = None /\ finished s' | Parks => waits pre l s | Panics => False end.
Proof.
  revert l s pre. induction n as [|n IH]; intros l s pre Hl Hst Hw Hn; [lia|].
  pose proof (turn_stops l s pre rest Hl Hst Hw) as Ht. cbn [run]. unfold mbind, prog_bind.
  destruct (turn w l s) as [s1 [l1|]| |] eqn:E1; [| |done|].
  - destruct Ht as (Hl1 & Hst1 & pre1 & Hsub & Hw1 & Hlt). specialize (IH l1 s1 pre1 Hl1 Hst1 Hw1 ltac:(lia)).
    destruct (run w n l1 s1) as [s2 o| |]; auto. destruct IH as (m & l2 & s2 & k & r2 & Hin & E2 & ? & ? & ?).
    exists (S m), l2, s2, k, r2. split_and!; auto. cbn [run]. unfold mbind, prog_bind. by rewrite E1.
  - done.
  - destruct Ht as (k & Hk & Hne). exists 0%nat, l, s. destruct pre as [|k' pre]; simplify_eq/=. eexists k, _. split_and!; [by left|done..].
Qed.
End stop.
End WriterInv.
