(* ===== verification/ShmDelivery.v ===== *)
(** * What the shared-memory writer guarantees

    The theorems over the writer of [ShmWriter], drawn from the invariant of
    [ShmWriterInv] and from the frame codec and the receiver: safety against any
    peer, delivery to an honest one, and termination once stopped. *)

From S2P Require Import Prelude DescriptorCodec DescriptorRing RegionLayout SlabArena TransportFrame ShmFrame ShmWake ShmReceive ShmWriter ShmWriterInv.
Import Layout Frames ShmFrame Wake Writer WriterInv.

Module Delivery.

(** ** Safety *)

(** The slab the loop's carry owns. *)
Definition in_hand (o : option loop) : list Arena.SlabHandle :=
  match o with Some l => option_list (stuck l ≫= slab) | None => [] end.

(** Slabs are live and held in one place, frees succeed; a publish directly
    follows a clean gate, happens once, and is what a nil report stands for; an
    abandoned fill neither runs nor is published. *)
Record safe (own : list Arena.SlabHandle) (s : wr) : Prop := {
  sf_arena : Arena.arena_inv (arena (sh s));
  sf_live : Forall (Arena.handle_live (arena (sh s))) (own ++ refs s);
  sf_single : NoDup (key <$> own ++ refs s);
  sf_frees : forall x ok, EFree x ok ∈ log s -> ok = true;
  sf_gated : forall n id q d, log s !! n = Some (EPublish id q d) -> exists m, n = S m /\ log s !! m = Some (EGate 0 0);
  sf_once : NoDup (pubs (log s)).*1;
  sf_reports : NoDup (reports (log s)).*1;
  sf_reported : forall id, id ∈ (pubs (log s)).*1 <-> (id, None) ∈ reports (log s);
  sf_filled : NoDup (filled (log s));
  sf_abandoned : forall p, is_abandoned p (sh s) = true ->
    p ∉ filled (log s) /\
    forall id d i, (id, d) ∈ pubs (log s) -> submitted (sh s) !! id = Some i -> fill i <> Some p
}.

Section facts.
Context (w : config) (cs : list SizeClass) (cap : Z) (b : bool) (t : receiver).

Lemma turn_post_winv o s :
  turn_post w cs cap b t o s -> exists hand, winv w cs cap b [] t (in_hand o) hand [] 0 Idle s.
Proof.
  destruct o as [l|]; simpl.
  - intros [Hs _]. destruct (stuck l) as [c|]; simpl in *; [apply held_own in Hs|]; eauto.
  - intros [Hs _]. eauto.
Qed.

Lemma oks_reports l id : id ∈ oks l <-> (id, None) ∈ reports l.
Proof.
  unfold oks. rewrite list_elem_of_omap. split; [|intros; by exists (id, None)].
  intros ([i [e|]] & Hi & E); [done|]. by injection E as ->.
Qed.

Lemma oks_sub l : NoDup (reports l).*1 -> NoDup (oks l).
Proof.
  unfold oks. induction (reports l) as [|[i [e|]] r IH]; csimpl; [constructor| |]; rewrite NoDup_cons; intros [Hi Hr]; auto.
  apply NoDup_cons. split; [|auto]. intros (x & Hx & E)%list_elem_of_omap. apply Hi.
  destruct x as [j [e|]]; [done|]. injection E as ->. apply list_elem_of_fmap. by exists (i, None).
Qed.

Lemma fill_abandoned p h : is_abandoned p h = true -> fill_state h p <> Some fillFilling.
Proof.
  unfold is_abandoned, fill_state. destruct (fills h !! p) as [f|]; simpl; [|done].
  intros E%Z.eqb_eq [= H]. rewrite E in H. done.
Qed.

Lemma core_safe own hand k s : core w cs cap b [] own hand [] k s -> safe own s.
Proof.
  intros [_ Hb [S1 S2 S3 S4 S5] [I1 I2 I3 I4] [L1 L2 L3 L4 L5 L6 L7] _ _].
  assert (Hn : NoDup (reports (log s)).*1).
  { pose proof (NoDup_seq 0 (length (submitted (sh s)))) as Hn. rewrite <- I1 in Hn. by apply NoDup_app in Hn as [? _]. }
  simpl in I3. rewrite app_nil_r in I3. constructor; auto.
  - rewrite I3. by apply oks_sub.
  - intros id. rewrite I3. apply oks_reports.
  - intros p Hp%fill_abandoned. split.
    + intros Hf. rewrite Forall_forall in L3. auto.
    + intros id d i H1 H2 H3. eauto.
Qed.
End facts.

(** C3: the writer is safe against any peer and any caller.  Whatever is written
    into the ring's words and slots, the arena and the teardown words between
    two of its accesses, and whatever callers submit or abandon meanwhile, a
    run of any number of turns never panics; every slab it holds is live and
    held in one place, and every free it makes succeeds; it publishes only
    directly after a gate that read both teardown words as zero, no intent
    twice; an intent is reported at most once, with nil exactly when it was
    published; a fill callback runs at most once, and an abandoned one neither
    runs nor is published. *)
Theorem writer_safe_any_peer w cs cap n s :
  start_ok w cs cap false s -> is_u32 (maxStored w) ->
  match run w n initial_loop s with
  | Ret s' o => safe (in_hand o) s'
  | Parks => True
  | Panics => False
  end.
Proof.
  intros Hs Hw. pose proof (wp_run w cs cap false (mkReceiver 0 false false 0 [] []) Hw ltac:(done) n _ _
    (start_linv _ _ _ _ _ s Hs ltac:(done))) as H.
  unfold wp in H. destruct (run w n initial_loop s) as [s' o| |]; auto.
  destruct (turn_post_winv _ _ _ _ _ _ _ H) as (hand & Hc & _). rewrite app_nil_r in Hc. by eapply core_safe.
Qed.

(** ** Delivery *)

(** What the receiver sees of the region. *)
Definition region (h : shared) : Receive.shared := Receive.mkShared (ring h) (Arena.mem (arena h)) (ws h).

(** The two ends of a direction agree. *)
Record matching (w : config) (cs : list SizeClass) (t : receiver) : Prop := {
  ma_gen : gen w = Truncated (generation t);
  ma_checksum : useChecksum w = checksum t;
  ma_chunking : chunking w = chunkingActive t;
  ma_classes : inboundClasses t = cs;
  ma_stored : is_u32 (maxStored w);
  ma_limit : max_message w <= maxRecvPayload t
}.

(** The published frames the receiver has not consumed: the last ones published,
    in order, each the frame its intent sends. *)
Record delivers (w : config) (t : receiver) (s : wr) (pre : list (nat * Descriptor.Descriptor)) (es : list entry) : Prop := {
  dv_pubs : pubs (log s) = pre ++ ((fun e => (e_id e, e_d e)) <$> es);
  dv_sent : Forall (fun e => exists i f rk only, submitted (sh s) !! e_id e = Some i /\ sends (sh s) i f /\
    mapKind (Kind f) (chunking w) = inl (rk, only) /\ e_f e = delivered only f) es;
  dv_holds : shutdown (ws (sh s)) = 0 -> Receive.holds t (region (sh s)) (e_d <$> es) (e_f <$> es) (zlen pre)
}.

Section delivery.
Context (w : config) (cs : list SizeClass) (cap : Z) (t : receiver).
Context (Hm : matching w cs t).

Lemma entry_decodes h e :
  receiver_ok (Receive.over t (region h)) -> entry_ok w cs t h e ->
  decode_descriptor (Receive.over t (region h)) (e_d e) = Ok (Some (e_f e)).
Proof.
  intros Ht (i & f & rk & only & Hi & Hs & Hf & Hk & -> & He). destruct Hm as [M1 M2 M3 M4 _ _].
  rewrite M3 in Hk. rewrite M1, M2 in He.
  destruct (frame_round_trip (Receive.over t (region h)) f rk only Ht Hf Hk) as (R1 & R2 & R3).
  destruct (e_ref e) as [x|].
  - destruct He as (-> & (G1 & G2 & G3 & G4 & (c & G5) & G6) & ->). rewrite M2, <- M4 in *. apply R3; auto; simpl.
    + congruence.
    + pose proof (names_slab_inside _ _ _ _ _ _ Ht G5) as Hin. pose proof (rk_span _ Ht) as Hsp. simpl in *.
      unfold is_u32, MaxUint32 in *. lia.
    + eauto.
  - destruct He as [(-> & ->)|(-> & H1 & H2 & ->)]; auto.
Qed.

Lemma window_delivers own s :
  Arena.arena_inv (arena (sh s)) -> Arena.classes (arena (sh s)) = cs ->
  window w cs cap [] t own Idle s ->
  poison (ws (sh s)) = 0 /\ (exists pre es, delivers w t s pre es) /\
  forall ci i q, Arena.live (arena (sh s)) ci i q -> (ci, i) ∈ key <$> own ++ refs s.
Proof.
  intros [A1 A2 A3 _ _ _ _] Hcs ([H1 H2 H3 H4 H5 _] & H & L & T & R & es & [W1 W2 W3 W4 W5 W6 W7 W8 W9 W10 (pre & W11 & <-)] & _).
  split_and!; [done| |done]. exists pre, es. constructor; [done| |].
  - eapply Forall_impl; [exact W9|]. intros e (i & f & rk & only & ? & ? & _ & ? & ? & _). eauto 9.
  - intros Hd. assert (Ht : receiver_ok (Receive.over t (region (sh s)))).
    { constructor; simpl; [rewrite (ma_classes _ _ _ Hm), <- Hcs..|]; auto. }
    constructor; auto. rewrite Forall2_fmap. apply Forall_Forall2_diag.
    eapply Forall_impl; [exact W9|]. intros e. by apply entry_decodes.
Qed.
End delivery.

(** The receiver of the region [h], its cursor at [n], with a peer that only
    publishes from then on. *)
Record at_cursor (t : receiver) (h : Receive.shared) (n : Z) (r : Receive.rx) : Prop := {
  ac_sh : Receive.sh r = h;
  ac_seen : Receive.lastSeen r = u64 n;
  ac_count : is_u64 (Receive.framesReceived r);
  ac_script : Forall (Receive.publishes t) (Receive.script r)
}.

Lemma delivers_received w t s pre es r tails reserve consume :
  delivers w t s pre es -> shutdown (ws (sh s)) = 0 -> at_cursor t (region (sh s)) (zlen pre) r ->
  length tails = length es ->
  (forall i newTail, tails !! i = Some newTail -> is_u64 newTail /\ newTail <> u64 (zlen pre + Z.of_nat i)) ->
  Forall (fun e => Receive.accepts (e_f e) consume) es ->
  exists r', Receive.receive_each t tails reserve consume r =
      Ret r' (map (fun f => inl (if bool_decide (is_Some consume) then Receive.zero_frame else f)) (e_f <$> es)) /\
    Receive.hands (Receive.log r') = Receive.hands (Receive.log r) ++ (e_f <$> es).
Proof.
  intros [_ _ Hh] Hsd [R1 R2 R3 R4] Hlen Ht Hacc.
  destruct (Receive.receive_each_in_order t r (e_d <$> es) (e_f <$> es) (zlen pre) tails reserve consume) as (r' & E & Hl & _).
  - constructor; [by rewrite !length_fmap|done|done|]. exists [], []. rewrite !app_nil_r, R1. auto.
  - done.
  - by rewrite length_fmap.
  - done.
  - by apply Forall_fmap.
  - by exists r'.
Qed.

(** C2: what is submitted is delivered.  With callers that submit well-formed
    frames and a peer that only consumes, and a receiver of the same generation,
    checksum flag, chunk flag and slab classes whose limit covers the writer's,
    a run of any number of turns keeps the region unpoisoned, and at its end the
    ring and the slabs hold exactly the frames published and not yet consumed,
    in the order published, each decoding to the frame its intent sends (its
    own, or with what its fill callback wrote): unless the region is shut down,
    a receiver at that cursor then receives exactly those frames, in order and
    once each, as return values or in its callback, whether lent as views or
    copied, while the peer may go on publishing.  No slab
    leaks: every live one is the carry's or in the handle table, to be freed
    when the head passes it. *)
Theorem writer_delivers w cs cap t n s :
  matching w cs t -> start_ok w cs cap true s -> start_honest w s ->
  match run w n initial_loop s with
  | Ret s' o =>
      poison (ws (sh s')) = 0 /\
      (exists pre es, delivers w t s' pre es /\
        (shutdown (ws (sh s')) = 0 -> forall r tails reserve consume, at_cursor t (region (sh s')) (zlen pre) r ->
         length tails = length es ->
         (forall i newTail, tails !! i = Some newTail -> is_u64 newTail /\ newTail <> u64 (zlen pre + Z.of_nat i)) ->
         Forall (fun e => Receive.accepts (e_f e) consume) es ->
         exists r', Receive.receive_each t tails reserve consume r =
             Ret r' (map (fun f => inl (if bool_decide (is_Some consume) then Receive.zero_frame else f)) (e_f <$> es)) /\
           Receive.hands (Receive.log r') = Receive.hands (Receive.log r) ++ (e_f <$> es))) /\
      (forall ci i q, Arena.live (arena (sh s')) ci i q -> (ci, i) ∈ key <$> in_hand o ++ refs s')
  | Parks => True
  | Panics => False
  end.
Proof.
  intros Hm Hs Hh. pose proof (wp_run w cs cap true t (ma_stored _ _ _ Hm) (fun _ => ma_limit _ _ _ Hm) n _ _
    (start_linv _ _ _ _ _ s Hs (fun _ => Hh))) as H.
  unfold wp in H. destruct (run w n initial_loop s) as [s' o| |]; auto.
  destruct (turn_post_winv _ _ _ _ _ _ _ H) as (hand & [_ _ [S1 S2 _ _ _] _ _ _ _] & Hw). rewrite app_nil_r in Hw.
  destruct (window_delivers w cs cap t Hm _ _ S1 S2 (Hw eq_refl)) as (Hp & (pre & es & Hd) & Hl).
  split_and!; [done| |done]. exists pre, es. split; [done|]. intros. by eapply delivers_received.
Qed.

(** ** Termination *)

(** C36: a stopped writer returns, and every submission is answered.  After any
    run, once stop has closed admission and the barrier, whatever callers and the
    peer go on doing to the shared state, and whichever ready arms [pre] the
    select takes before it takes the shutdown arm: the loop returns within one
    turn more than there are arms in [pre] and queued lifecycle intents, unless
    [pre] has an arm that is not ready when the select comes to it, on which it
    would wait (the shutdown arm always is).  Then the queues are empty, every
    intent ever queued has been reported exactly once, each one with a callback
    has been called back with whether it was published, no slab is left in hand,
    and at no point were more than four lifecycle intents emitted between two
    data attempts. *)
Theorem writer_stop_terminates w cs cap n s s' l pre rest :
  start_ok w cs cap false s -> is_u32 (maxStored w) ->
  run w n initial_loop s = Ret s' (Some l) -> shut (sh s') -> wakes s' = pre ++ WkShutdown :: rest ->
  match run w (S (length pre + length (lifecycleQueue (sh s')))) l s' with
  | Ret s'' o =>
      o = None /\ lifecycleQueue (sh s'') = [] /\ dataQueue (sh s'') = [] /\
      (reports (log s'')).*1 ≡ₚ seq 0 (length (submitted (sh s''))) /\
      callbacks (log s'') = omap (reported_callback (submitted (sh s''))) (reports (log s'')) /\
      safe [] s'' /\
      forall l1 l2, log s'' = l1 ++ l2 -> (life_run l1 <= 4)%nat
  | Parks => waits w pre l s'
  | Panics => False
  end.
Proof.
  intros Hs Hw E Hsh Hwk. set (t := mkReceiver 0 false false 0 [] []).
  pose proof (wp_run w cs cap false t Hw ltac:(done) n _ _ (start_linv _ _ _ _ _ s Hs ltac:(done))) as H.
  unfold wp in H. rewrite E in H.
  assert (Hst : stopped s').
  { split; [done|]. destruct (turn_post_winv _ _ _ _ _ _ _ H) as (hand & Hc & _). eapply Forall_impl; [eapply co_script; exact Hc|].
    intros f. apply env_tame. }
  pose proof (run_stops w cs cap false t Hw ltac:(done) (S (length pre + length (lifecycleQueue (sh s')))) l s' pre rest H Hst Hwk
    ltac:(unfold left; lia)) as Hr.
  destruct (run w _ l s') as [s2 o| |]; [|done|done]. destruct Hr as (-> & (Hc & _) & Q1 & Q2).
  pose proof Hc as [_ _ _ [I1 _ _ I4] [_ _ _ _ _ _ L7] _ _]. rewrite Q1, Q2 in I1. simpl in I1. rewrite app_nil_r in I1.
  split_and!; auto. by eapply core_safe.
Qed.

(** ** Witnesses *)

Definition sample_config : config := mkConfig 7 true true 4096 63 8 8 admitBlock.

(** A call by a scheduler that takes the send. *)
Definition called (c : call) (h : shared) : shared :=
  match do_call sample_config c h with Some (h', _) => h' | None => h end.

Definition sample_ack : Frame := mkFrame 11 FrameStreamAck 0 0 0 [] None 1.

(** A fill callback that writes three bytes. *)
Definition sample_callback (old : list Z) : list Z * fill_result := ([1; 2; 3], FillNil).

Definition sample_calls : list call :=
  replicate 5 (CSubmit ASend None sample_ack laneLifecycle) ++
  [CSubmit ASend None sample_frame laneData; CReporting ASend None sample_frame;
   CFill ASend None sample_frame 3 sample_callback].

(** Callers submit five acknowledgements and three chunks, then stop. *)
Definition sample_traffic (h : shared) : shared :=
  stop_barrier (stop_close (stop_shutdown (fold_left (fun h c => called c h) sample_calls h))).

(** A peer that writes a tail of its own. *)
Definition hostile_tail (h : shared) : shared :=
  set_ring (Ring.mkRing (Ring.slots (ring h)) 0 (2 ^ 63) (Ring.mask (ring h)) (Ring.capacity (ring h)))
    (set_arena (set_mem (Arena.mem (arena h)) (arena h)) (set_ws (ws h) h)).

Definition sample_ring : Ring.Ring := Ring.mkRing (replicate 64 Descriptor.zeroDescriptor) 0 0 63 64.

Definition sample_start (env : list (shared -> shared)) : wr :=
  mkWr (mkShared sample_ring Arena.sample_arena (mkWords 0 0 0 0 0 0) [] [] [] false false false false false 0 [])
    env [WkShutdown] (replicate 64 None) 0 None None [(0, 0); (0, 0)] 0 0 [].

Lemma called_env b c h : call_ok c -> env sample_config b h (called c h) \/ called c h = h.
Proof.
  intros Hc. unfold called. destruct (do_call sample_config c h) as [[h' e]|] eqn:E; [left|by right].
  eapply env_call; [by intros|exact E].
Qed.

Lemma sample_frame_ok : frame_ok sample_frame.
Proof. constructor; simpl; unfold is_u64; try lia; [discriminate|]. repeat constructor; unfold is_byte; simpl; lia. Qed.

Lemma sample_ack_ok : frame_ok sample_ack.
Proof. constructor; simpl; unfold is_u64; try lia; [discriminate|constructor]. Qed.

Lemma sample_calls_ok : Forall call_ok sample_calls.
Proof.
  apply Forall_app. split; [apply Forall_replicate, sample_ack_ok|]. 
  rewrite !Forall_cons, Forall_nil. split_and!; [apply sample_frame_ok..| |done].
  split_and!; [apply sample_frame_ok|done|]. intros old. repeat constructor; unfold is_byte; lia.
Qed.

Lemma sample_traffic_env b h : rtc (env sample_config b) h (sample_traffic h).
Proof.
  assert (Hc : rtc (env sample_config b) h (fold_left (fun h c => called c h) sample_calls h)).
  { generalize sample_calls_ok. generalize sample_calls. intros cs Hcs. revert h. induction Hcs as [|c cs Hc _ IH]; intros h; [done|].
    simpl. etrans; [|apply IH]. destruct (called_env b c h Hc) as [He| ->]; [by apply rtc_once|done]. }
  etrans; [exact Hc|]. eapply rtc_l; [apply env_shutdown|]. eapply rtc_l; [by apply env_close|].
  eapply rtc_l; [by apply env_barrier|]. done.
Qed.

Lemma hostile_tail_env h : env sample_config false h (hostile_tail h).
Proof. apply env_peer. unfold peer_any, is_u64. simpl. split_and!; lia. Qed.

Lemma sample_ring_ok : Ring.config_ok sample_ring.
Proof. constructor; vm_compute; first [reflexivity|split; discriminate]. Qed.

Lemma sample_start_ok b env :
  Forall (fun f => forall h, rtc (WriterInv.env sample_config b) h (f h)) env -> start_ok sample_config Arena.sample_cs 64 b (sample_start env).
Proof.
  intros Henv. constructor; [done| |done|split; [apply Arena.sample_arena_inv|vm_compute; reflexivity]|done..].
  split_and!; [apply sample_ring_ok|vm_compute; split; congruence..].
Qed.

Lemma sample_start_honest env : start_honest sample_config (sample_start env).
Proof.
  destruct (Arena.New_inv Arena.sample_mem Arena.sample_cs 7 0 Arena.sample_cs_ok Arena.sample_mem_ok)
    as (a & q & H & _ & Em & _ & Eg & _ & Hl).
  assert (E : Arena.sample_arena = a) by (unfold Arena.sample_arena; by rewrite H).
  constructor; try change (arena (sh (sample_start env))) with Arena.sample_arena; rewrite ?E; [|done| | |done|done].
  - constructor; [apply sample_ring_ok|done..].
  - rewrite Em. apply Forall_replicate. unfold is_byte. lia.
  - apply Forall_replicate, Descriptor.zero_wf.
Qed.

Lemma sample_stored : is_u32 (maxStored sample_config).
Proof. vm_compute. split; congruence. Qed.

Lemma sample_script_ok b : Forall (fun f => forall h, rtc (env sample_config b) h (f h)) [sample_traffic].
Proof. constructor; [intros; apply sample_traffic_env|constructor]. Qed.

Lemma sample_hostile_ok : Forall (fun f => forall h, rtc (env sample_config false) h (f h)) [sample_traffic; hostile_tail].
Proof. constructor; [intros; apply sample_traffic_env|]. constructor; [intros; apply rtc_once, hostile_tail_env|constructor]. Qed.

Lemma writer_safe_any_peer_witness :
  match run sample_config 1 initial_loop (sample_start [sample_traffic; hostile_tail]) with
  | Ret s' o => safe (in_hand o) s' /\ poison (ws (sh s')) = PoisonRingCorrupt
  | _ => False
  end.
Proof.
  pose proof (writer_safe_any_peer sample_config Arena.sample_cs 64 1 (sample_start [sample_traffic; hostile_tail])
    (sample_start_ok _ _ sample_hostile_ok) sample_stored) as H.
  assert (E : match run sample_config 1 initial_loop (sample_start [sample_traffic; hostile_tail]) with
    | Ret s _ => poison (ws (sh s)) | _ => 0 end = PoisonRingCorrupt) by (vm_compute; reflexivity).
  destruct (run sample_config 1 initial_loop _) as [s' o| |]; [|discriminate E..]. exact (conj H E).
Defined.

Definition sample_end : receiver := mkReceiver 7 true true 4092 Arena.sample_cs [].

Lemma sample_matching : matching sample_config Arena.sample_cs sample_end.
Proof. constructor; try (vm_compute; reflexivity); vm_compute; try (split; congruence); congruence. Qed.

Lemma writer_delivers_witness :
  match run sample_config 1 initial_loop (sample_start [sample_traffic]) with
  | Ret s' o => poison (ws (sh s')) = 0 /\ length (pubs (log s')) = 5%nat /\ exists pre es, delivers sample_config sample_end s' pre es
  | _ => False
  end.
Proof.
  pose proof (writer_delivers sample_config Arena.sample_cs 64 sample_end 1 (sample_start [sample_traffic]) sample_matching
    (sample_start_ok _ _ (sample_script_ok true)) (sample_start_honest _)) as H.
  assert (E : match run sample_config 1 initial_loop (sample_start [sample_traffic]) with
    | Ret s _ => length (pubs (log s)) | _ => 0%nat end = 5%nat) by (vm_compute; reflexivity).
  destruct (run sample_config 1 initial_loop _) as [s' o| |]; [|discriminate E..].
  destruct H as (Hp & (pre & es & Hd & _) & _). split; [exact Hp|]. split; [exact E|]. by exists pre, es.
Defined.

(** After the traffic has stopped, the select takes a queued chunk before it
    takes the shutdown. *)
Definition sample_busy : wr := with_wakes [WkData; WkShutdown] (sample_start [sample_traffic]).

Lemma sample_busy_ok : start_ok sample_config Arena.sample_cs 64 false sample_busy.
Proof. destruct (sample_start_ok false _ (sample_script_ok false)). by constructor. Qed.

Lemma writer_stop_terminates_witness :
  exists s' l s'', run sample_config 1 initial_loop sample_busy = Ret s' (Some l) /\
    wakes s' = [WkData] ++ [WkShutdown] /\
    run sample_config 3 l s' = Ret s'' None /\
    (reports (log s'')).*1 ≡ₚ seq 0 (length (submitted (sh s''))).
Proof.
  assert (E : match run sample_config 1 initial_loop sample_busy with
    | Ret s (Some l) => shut (sh s) /\ length (lifecycleQueue (sh s)) = 1%nat /\ wakes s = [WkData] ++ [WkShutdown] /\
        match run sample_config 3 l s with Ret _ _ => True | _ => False end
    | _ => False end).
  { vm_compute. split_and!; reflexivity || exact Logic.I. }
  destruct (run sample_config 1 initial_loop sample_busy) as [s' [l|]| |] eqn:Er; [|destruct E..].
  destruct E as (Hst & Hq & Hwk & Hret).
  pose proof (writer_stop_terminates sample_config Arena.sample_cs 64 1 sample_busy s' l [WkData] [] sample_busy_ok sample_stored
    Er Hst Hwk) as H.
  rewrite Hq in H. change (S (length [WkData] + 1)) with 3%nat in H.
  destruct (run sample_config 3 l s') as [s2 o| |] eqn:E2; [|destruct Hret..].
  destruct H as (-> & _ & _ & Hr & _). exists s', l, s2. exact (conj eq_refl (conj Hwk (conj E2 Hr))).
Defined.
End Delivery.
