(* ===== verification/Interleave.v ===== *)
(** * Interleaved programs

    The components whose goroutines share a mutex are written as programs made
    of atomic actions: an action is one critical section, one atomic
    operation, or one call out of the component, and between two actions any
    other goroutine may run.  An action carries the query it puts to its
    surroundings (which call is in flight, with which arguments); the answer
    comes from the schedule.  An action that gives no continuation leaves the
    goroutine where it is: it blocks, or goes round a loop that keeps waiting.

    A schedule is a list of moves, each naming a goroutine and the answer it is
    given; running one is a function.  The second half is a rely-guarantee
    logic over these programs, with its soundness: an assertion proved of one
    goroutine holds whatever the others do. *)

From S2P Require Import Prelude.

Section programs.
Context {S Q X : Type}.

Inductive proc (A : Type) : Type :=
| Done (a : A)
| Act (q : Q) (f : X -> S -> S * option (proc A)).
Arguments Done {A} _.
Arguments Act {A} _ _.

Definition proc_induction {A} (P : proc A -> Prop)
    (HDone : forall a, P (Done a))
    (HAct : forall q f, (forall x s s' p, f x s = (s', Some p) -> P p) -> P (Act q f)) :
    forall p, P p :=
  fix go p :=
    match p with
    | Done a => HDone a
    | Act q f => HAct q f (fun x s s' p' =>
        match f x s as o return o = (s', Some p') -> P p' with
        | (_, Some p0) => fun H => eq_ind p0 P (go p0) p' (f_equal (fun o => default p0 (snd o)) H)
        | (_, None) => fun H => False_ind _ (eq_ind None (fun o : option (proc A) => match o with None => True | Some _ => False end)
                                   Logic.I (Some p') (f_equal snd H))
        end)
    end.

Fixpoint pbind {A B} (k : A -> proc B) (p : proc A) : proc B :=
  match p with
  | Done a => k a
  | Act q f => Act q (fun x s =>
      match f x s with
      | (s', Some p') => (s', Some (pbind k p'))
      | (s', None) => (s', None)
      end)
  end.

#[global] Instance proc_ret : MRet proc := fun A a => Done a.
#[global] Instance proc_bind : MBind proc := fun A B k p => pbind k p.

#[global] Instance proc_fmap : FMap proc := fun A B g p => pbind (fun a => Done (g a)) p.

(** A critical section that asks nothing of its surroundings. *)
Definition crit {A} (q : Q) (f : S -> S * A) : proc A :=
  Act q (fun _ s => let (s', a) := f s in (s', Some (Done a))).

(** A call answered by the surroundings; an answer of another call's type
    leaves the call in flight. *)
Definition ask {A} (q : Q) (decode : X -> option A) : proc A :=
  Act q (fun x s => (s, match decode x with Some a => Some (Done a) | None => None end)).

(** ** Goroutines and schedules

    A goroutine runs its program; [again] says what it goes on with once that
    is done: the next turn of its outer loop, its next call. *)

Record goroutine (R : Type) := mkGo { now : proc R; again : R -> option (proc R) }.
Arguments mkGo {R} _ _.
Arguments now {R} _.
Arguments again {R} _ _.

Definition gmove {R} (x : X) (g : goroutine R) (s : S) : goroutine R * S :=
  match now g with
  | Done r => match again g r with Some p => (mkGo p (again g), s) | None => (g, s) end
  | Act q f =>
      match f x s with
      | (s', Some p) => (mkGo p (again g), s')
      | (s', None) => (g, s')
      end
  end.

Definition pool (R : Type) : Type := list (goroutine R) * S.

Definition pmove {R} (c : pool R) (m : nat * X) : pool R :=
  match fst c !! fst m with
  | Some g => let (g', s') := gmove (snd m) g (snd c) in (<[fst m := g']> (fst c), s')
  | None => c
  end.

Definition prun {R} (ms : list (nat * X)) (c : pool R) : pool R := foldl pmove c ms.

(** The query a goroutine is at. *)
Definition at_query {R} (g : goroutine R) : option Q :=
  match now g with Act q _ => Some q | Done _ => None end.

(** One program run by itself on a script of answers, and the queries it put. *)
Fixpoint solo {A} (xs : list X) (p : proc A) (s : S) : S * proc A * list Q :=
  match xs, p with
  | x :: xs, Act q f =>
      match f x s with
      | (s', Some p') => let '(t, r, qs) := solo xs p' s' in (t, r, q :: qs)
      | (s', None) => let '(t, r, qs) := solo xs p s' in (t, r, q :: qs)
      end
  | _, _ => (s, p, [])
  end.

Lemma prun_app {R} ms ms' (c : pool R) : prun (ms ++ ms') c = prun ms' (prun ms c).
Proof. apply foldl_app. Qed.

Lemma pmove_length {R} (c : pool R) m : length (fst (pmove c m)) = length (fst c).
Proof.
  unfold pmove. destruct (fst c !! fst m); [|done].
  destruct (gmove _ _ _). simpl. by rewrite length_insert.
Qed.

(** ** Rely and guarantee

    [safe r P p Post]: started where [P] holds, the program [p] of a goroutine
    in role [r] keeps the shared invariant, changes the state only as [G]
    allows at the query it is at, is at a query only where [C] permits, and
    ends where [Post] holds, whatever the others do within [Rel r]. *)

Section rg.
Context {role : Type} (I : S -> Prop).
Context (Rel : role -> S -> S -> Prop) (G : role -> Q -> S -> S -> Prop) (C : role -> Q -> S -> Prop).

Definition stable (r : role) (P : S -> Prop) : Prop :=
  forall s s', I s -> I s' -> Rel r s s' -> P s -> P s'.

Fixpoint safe {A} (r : role) (p : proc A) (L : S -> Prop) (Post : A -> S -> Prop) : Prop :=
  match p with
  | Done a => forall s, I s -> L s -> Post a s
  | Act q f => stable r L /\ forall s, I s -> L s ->
      C r q s /\ forall x,
        match f x s with
        | (s', o) => G r q s s' /\ I s' /\
            match o with
            | Some p' => exists L', L' s' /\ safe r p' L' Post
            | None => L s'
            end
        end
  end.

(** The precondition of a triple need not survive interference: it only has to
    give the assertion the program can keep. *)
Definition triple {A} (r : role) (P : S -> Prop) (p : proc A) (Post : A -> S -> Prop) : Prop :=
  forall s, I s -> P s -> exists L, L s /\ safe r p L Post.

Lemma triple_ret {A} r (a : A) (P : S -> Prop) (Post : A -> S -> Prop) :
  (forall s, I s -> P s -> Post a s) -> triple r P (mret a) Post.
Proof. intros H s Hi HP. exists (Post a). split; [by apply H|]. by intros ?. Qed.

Lemma triple_act {A} r L q (f : X -> S -> S * option (proc A)) Post :
  stable r L ->
  (forall s, I s -> L s -> C r q s) ->
  (forall s x, I s -> L s -> G r q s (fst (f x s)) /\ I (fst (f x s)) /\
     match snd (f x s) with
     | Some p => triple r (eq (fst (f x s))) p Post
     | None => L (fst (f x s))
     end) ->
  triple r L (Act q f) Post.
Proof.
  intros Hst HC HX s Hi HL. exists L. split; [done|]. split; [done|].
  intros s1 Hi1 HL1. split; [by apply HC|]. intros x.
  destruct (HX s1 x Hi1 HL1) as (HG & HI & Ho). destruct (f x s1) as [s' [p|]]; simpl in *; [|done].
  split_and!; [done..|]. by apply (Ho s').
Qed.

Lemma triple_conseq {A} r (P P' : S -> Prop) (p : proc A) (Post Post' : A -> S -> Prop) :
  triple r P p Post ->
  (forall s, I s -> P' s -> P s) -> (forall a s, I s -> Post a s -> Post' a s) ->
  triple r P' p Post'.
Proof.
  intros H Hpre Hpost s Hi HP'. destruct (H s Hi (Hpre s Hi HP')) as (L & HL & Hs).
  exists L. split; [done|]. clear H Hpre HP' HL Hi s. revert L Hs.
  induction p as [a|q f IH] using proc_induction; intros L; simpl; [by eauto|].
  intros [Hst H]. split; [done|]. intros s Hi HL. destruct (H s Hi HL) as [Hc Hx].
  split; [done|]. intros x. specialize (Hx x). destruct (f x s) as [s' [p|]] eqn:E; [|done].
  destruct Hx as (? & ? & L' & ? & ?). split_and!; [done..|]. exists L'. split; [done|]. by eapply IH.
Qed.

Lemma triple_bind {A B} r (p : proc A) (k : A -> proc B) P Mid Post :
  triple r P p Mid ->
  (forall a, triple r (Mid a) (k a) Post) ->
  triple r P (p ≫= k) Post.
Proof.
  intros Hp Hk s Hi HP. destruct (Hp s Hi HP) as (L & HL & Hs). clear Hp HP.
  revert L Hs s Hi HL. induction p as [a|q f IH] using proc_induction; intros L Hs s Hi HL.
  - apply Hk; [done|]. by apply Hs.
  - destruct Hs as [Hst H]. exists L. split; [done|]. cbn [mbind proc_bind pbind safe].
    split; [done|]. clear s Hi HL. intros s Hi HL. destruct (H s Hi HL) as [Hc Hx]. split; [done|].
    intros x. specialize (Hx x). destruct (f x s) as [s' [p|]] eqn:E; [|done].
    destruct Hx as (? & ? & L' & ? & ?). split_and!; [done..|]. by eapply (IH x s s' p E L').
Qed.

Lemma triple_crit {A} r L q (f : S -> S * A) (Post : A -> S -> Prop) :
  stable r L ->
  (forall s, I s -> L s -> C r q s /\ G r q s (fst (f s)) /\ I (fst (f s)) /\ Post (snd (f s)) (fst (f s))) ->
  triple r L (crit q f) Post.
Proof.
  intros Hst H. apply triple_act; [done|by intros; apply H|]. intros s x Hi HL.
  destruct (H s Hi HL) as (? & ? & ? & ?). destruct (f s); simpl in *. split_and!; [done..|].
  apply triple_ret. by intros ? ? <-.
Qed.

Lemma triple_ask {A} r L q (decode : X -> option A) :
  stable r L ->
  (forall s, I s -> L s -> C r q s /\ G r q s s) ->
  triple r L (ask q decode) (fun _ => L).
Proof.
  intros Hst H. apply triple_act; [done|by intros; apply H|]. intros s x Hi HL. simpl.
  destruct (H s Hi HL). destruct (decode x); split_and!; try done. apply triple_ret. by intros ? ? <-.
Qed.

(** ** Soundness *)

Section pools.
Context {R : Type} (role_of : nat -> role) (Post : role -> R -> S -> Prop).

Hypothesis Compatible : forall i j q s s',
  i <> j -> I s -> I s' -> G (role_of i) q s s' -> Rel (role_of j) s s'.
Hypothesis PostStable : forall r a, stable r (Post r a).

Definition looped (r : role) (g : goroutine R) : Prop :=
  forall a p, again g a = Some p -> triple r (Post r a) p (Post r).

Definition keeps (r : role) (g : goroutine R) (s : S) : Prop :=
  looped r g /\ exists L, L s /\ stable r L /\ safe r (now g) L (Post r).

Definition pool_ok (c : pool R) : Prop :=
  I (snd c) /\ forall i g, fst c !! i = Some g -> keeps (role_of i) g (snd c).

Lemma safe_keep {A} r (p : proc A) L P s :
  (forall a, stable r (P a)) -> I s -> L s -> safe r p L P ->
  exists L', L' s /\ stable r L' /\ safe r p L' P.
Proof.
  intros HP Hi HL Hs. destruct p as [a|q f].
  - exists (P a). split_and!; [by apply Hs|done|by intros ?].
  - exists L. split_and!; [done|apply Hs|done].
Qed.

Lemma keeps_start r g s P :
  looped r g -> triple r P (now g) (Post r) -> I s -> P s -> keeps r g s.
Proof.
  intros Hl Ht Hi HP. split; [done|]. destruct (Ht s Hi HP) as (L & HL & Hs).
  by eapply safe_keep.
Qed.

Lemma gmove_keeps r g x s g' s' :
  I s -> keeps r g s -> gmove x g s = (g', s') ->
  I s' /\ keeps r g' s' /\ (s' = s \/ exists q, at_query g = Some q /\ C r q s /\ G r q s s').
Proof.
  intros Hi [Hl (L & HL & Hst & Hs)]. unfold gmove, at_query. destruct g as [p ag]; simpl in *.
  destruct p as [a|q f].
  - destruct (ag a) as [p|] eqn:E; intros [= <- <-].
    + split_and!; [done| |by left]. eapply keeps_start; [done|by apply (Hl a p)|done|by apply Hs].
    + split_and!; [done| |by left]. split; [done|]. by exists L.
  - destruct Hs as [_ Hs]. destruct (Hs s Hi HL) as [Hc Hx]. specialize (Hx x).
    destruct (f x s) as [s1 [p|]] eqn:E; intros [= <- <-]; destruct Hx as (HG & HI & Hx).
    + split_and!; [done| |right; by eauto]. destruct Hx as (L' & HL' & Hs'). split; [done|].
      by eapply safe_keep.
    + split_and!; [done| |right; by eauto]. split; [done|]. exists L. split_and!; [done..|].
      by split.
Qed.

Lemma keeps_interfere r g s s' :
  I s -> I s' -> Rel r s s' -> keeps r g s -> keeps r g s'.
Proof.
  intros ? ? HR [Hl (L & HL & Hst & Hs)]. split; [done|]. exists L. split_and!; [|done..].
  by apply (Hst s s').
Qed.

Lemma pool_ok_move c m : pool_ok c -> pool_ok (pmove c m).
Proof.
  intros [Hi Hg]. unfold pmove. destruct (fst c !! fst m) as [g|] eqn:E; [|done].
  destruct (gmove (snd m) g (snd c)) as [g' s'] eqn:Em.
  destruct (gmove_keeps _ _ _ _ _ _ Hi (Hg _ _ E) Em) as (Hi' & Hk & Hs).
  split; [done|]. simpl. intros j h Hj. destruct (decide (fst m = j)) as [<-|Hne].
  - rewrite list_lookup_insert_eq in Hj by (by eapply lookup_lt_Some). by simplify_eq.
  - rewrite list_lookup_insert_ne in Hj by done.
    destruct Hs as [->|(q & _ & _ & HG)]; [by apply Hg|].
    eapply keeps_interfere; [exact Hi|done|by eapply Compatible|by apply Hg].
Qed.

Lemma pool_ok_run ms c : pool_ok c -> pool_ok (prun ms c).
Proof.
  revert c. induction ms as [|m ms IH]; intros c Hc; [done|]. by apply IH, pool_ok_move.
Qed.

(** What holds of a goroutine at a query, and of its next move. *)
Lemma pool_ok_at c i g q :
  pool_ok c -> fst c !! i = Some g -> at_query g = Some q -> C (role_of i) q (snd c).
Proof.
  intros [Hi Hg] E. destruct (Hg i g E) as [_ (L & HL & _ & Hs)]. unfold at_query.
  destruct (now g) as [|q' f]; intros [= <-]. destruct Hs as [_ Hs]. by destruct (Hs _ Hi HL).
Qed.

Lemma pool_ok_done c i g a :
  pool_ok c -> fst c !! i = Some g -> now g = Done a -> Post (role_of i) a (snd c).
Proof.
  intros [Hi Hg] E Hd. destruct (Hg i g E) as [_ (L & HL & _ & Hs)]. rewrite Hd in Hs. by apply Hs.
Qed.

Lemma pool_ok_next c i g q x :
  pool_ok c -> fst c !! i = Some g -> at_query g = Some q ->
  G (role_of i) q (snd c) (snd (pmove c (i, x))).
Proof.
  intros [Hi Hg] E. destruct (Hg i g E) as [_ (L & HL & _ & Hs)]. unfold at_query, pmove.
  simpl. rewrite E. unfold gmove. destruct (now g) as [|q' f]; intros [= <-].
  destruct Hs as [_ Hs]. destruct (Hs _ Hi HL) as [_ Hx]. specialize (Hx x).
  by destruct (f x (snd c)) as [s' [p|]]; destruct Hx.
Qed.

(** Every step of a run is one some goroutine's guarantee allows, so a
    transitive relation all of them respect holds from the start to the end. *)
Lemma pool_ok_rel (T : S -> S -> Prop) ms c :
  (forall s, T s s) -> (forall a b d, T a b -> T b d -> T a d) ->
  (forall r q s s', I s -> I s' -> C r q s -> G r q s s' -> T s s') ->
  pool_ok c -> T (snd c) (snd (prun ms c)).
Proof.
  intros Hr Ht HG. revert c. induction ms as [|m ms IH]; intros c Hc; [apply Hr|].
  simpl. eapply Ht; [|apply IH; by apply pool_ok_move].
  destruct Hc as [Hi Hg]. unfold pmove. destruct (fst c !! fst m) as [g|] eqn:E; [|apply Hr].
  destruct (gmove (snd m) g (snd c)) as [g' s'] eqn:Em.
  destruct (gmove_keeps _ _ _ _ _ _ Hi (Hg _ _ E) Em) as (Hi' & _ & [->|(q & _ & Hc & HGq)]); [apply Hr|].
  by eapply HG.
Qed.

End pools.
End rg.
End programs.

Arguments proc S Q X A : clear implicits.
Arguments Done {S Q X A} _.
Arguments Act {S Q X A} _ _.
Arguments goroutine S Q X R : clear implicits.
Arguments mkGo {S Q X R} _ _.
Arguments now {S Q X R} _.
Arguments again {S Q X R} _ _.
Arguments pool S Q X R : clear implicits.
