(* ===== verification/BurstTransport.v ===== *)
(** * The unary burst engine (src/internal/rpcruntime/burst.go, burst_receive.go)

    One plugin connection over two undersides: shared memory for small frames
    and every non-unary kind, a socket for unary payloads too large for a slab.
    The sole receiver, the readiness pump, the senders, the closers and the
    goroutine feeding the fatal latch share one mutex; each critical section is
    one action of [Interleave], and the two undersides are calls answered by
    the schedule, any way they like.

    The context of the receive in flight and the contexts of its shared-memory
    attempts are part of the state ([callerCtx], [causes]).  The send gate
    holds the name of the goroutine whose token is in it; the code's channel
    only holds the token.  Test hooks are nil.  A zero [transport.Frame]
    returned beside an error is [None]. *)

From S2P Require Import Prelude TransportFrame UdsTransport ShmReceive ShmWriter Interleave.
Import Frames.

Module Burst.

Notation ctx_state := Uds.ctx_state.
Notation CtxLive := Uds.CtxLive.

(** ** Data *)

Inductive BurstSide := BurstSideHost | BurstSidePlugin.

Definition inboundKind (s : BurstSide) : Z :=
  match s with BurstSideHost => FrameUnaryResp | BurstSidePlugin => FrameUnaryReq end.

Inductive burstTerminal := burstOpen | burstLocallyClosing | burstFailed.
Inductive BurstFailureClass :=
  BurstFailureNone | BurstFailurePoisoned | BurstFailurePeerClosed | BurstFailureIOError.
Inductive burstRecvState :=
  burstRecvIdle | burstRecvShmWaiting | burstRecvBurstReading | burstRecvDelivering.
Inductive burstPumpState :=
  burstPumpWaiting | burstPumpPending | burstPumpParkedForService | burstPumpStopped.
Inductive burstChannel := burstChannelShm | burstChannelBurst.

#[global] Instance burstTerminal_eq_dec : EqDecision burstTerminal.
Proof. solve_decision. Defined.
#[global] Instance BurstFailureClass_eq_dec : EqDecision BurstFailureClass.
Proof. solve_decision. Defined.
#[global] Instance burstRecvState_eq_dec : EqDecision burstRecvState.
Proof. solve_decision. Defined.
#[global] Instance burstPumpState_eq_dec : EqDecision burstPumpState.
Proof. solve_decision. Defined.
#[global] Instance burstChannel_eq_dec : EqDecision burstChannel.
Proof. solve_decision. Defined.

Definition errBurstInterrupted : sentinel := Other 60.

(** Why the context of a shared-memory attempt has ended, if it has: the first
    cancellation's cause stays. *)
Inductive cause := NotEnded | Interrupted | ByCaller | AttemptOver.

#[global] Instance cause_eq_dec : EqDecision cause.
Proof. solve_decision. Defined.

Record burstRecvRequest := mkReq { reserve : bool; by_view : bool }.

(** What is fixed at construction. *)
Record config := mkConfig {
  inlineMax : Z;
  inboundInlineMax : Z;
  ceiling : Z;
  inbound_kind : Z
}.

(** The latch's two fields are [latchErr] and [latchBound] (its callback is the
    composite's [onFatal]); [recvCause] is the cause [recvCtx] was ended with. *)
Record burst := mkBurst {
  terminal : burstTerminal;
  failure : option error;
  failureClass : BurstFailureClass;
  latchedPoison : option error;
  recvState : burstRecvState;
  pumpState : burstPumpState;
  lastServed : burstChannel;
  interrupt : option nat;
  shmContestedTurn : bool;
  shmForfeitsTurn : bool;
  latchErr : option error;
  latchBound : bool;
  recvCause : option error;
  sendGate : option nat;
  burstRouted : Z;
  burstConsumeFaults : Z;
  pumpDone : bool;
  callerCtx : ctx_state;
  causes : list cause
}.

Definition eta (s : burst) : burst :=
  mkBurst (terminal s) (failure s) (failureClass s) (latchedPoison s) (recvState s) (pumpState s) (lastServed s)
    (interrupt s) (shmContestedTurn s) (shmForfeitsTurn s) (latchErr s) (latchBound s) (recvCause s) (sendGate s)
    (burstRouted s) (burstConsumeFaults s) (pumpDone s) (callerCtx s) (causes s).
Definition with_latchedPoison x (s : burst) : burst := ltac:(update_field eta s latchedPoison x).
Definition with_recvState x (s : burst) : burst := ltac:(update_field eta s recvState x).
Definition with_pumpState x (s : burst) : burst := ltac:(update_field eta s pumpState x).
Definition with_lastServed x (s : burst) : burst := ltac:(update_field eta s lastServed x).
Definition with_interrupt x (s : burst) : burst := ltac:(update_field eta s interrupt x).
Definition with_contested x (s : burst) : burst := ltac:(update_field eta s shmContestedTurn x).
Definition with_forfeits x (s : burst) : burst := ltac:(update_field eta s shmForfeitsTurn x).
Definition with_latchErr x (s : burst) : burst := ltac:(update_field eta s latchErr x).
Definition with_latchBound x (s : burst) : burst := ltac:(update_field eta s latchBound x).
Definition with_recvCause x (s : burst) : burst := ltac:(update_field eta s recvCause x).
Definition with_gate x (s : burst) : burst := ltac:(update_field eta s sendGate x).
Definition with_routed x (s : burst) : burst := ltac:(update_field eta s burstRouted x).
Definition with_faults x (s : burst) : burst := ltac:(update_field eta s burstConsumeFaults x).
Definition with_pumpDone x (s : burst) : burst := ltac:(update_field eta s pumpDone x).
Definition with_callerCtx x (s : burst) : burst := ltac:(update_field eta s callerCtx x).
Definition with_causes x (s : burst) : burst := ltac:(update_field eta s causes x).
Definition with_terminal t e c (s : burst) : burst :=
  mkBurst t e c (latchedPoison s) (recvState s) (pumpState s) (lastServed s)
    (interrupt s) (shmContestedTurn s) (shmForfeitsTurn s) (latchErr s) (latchBound s) (recvCause s) (sendGate s)
    (burstRouted s) (burstConsumeFaults s) (pumpDone s) (callerCtx s) (causes s).

(** The errors of the two classifiers. *)

Definition burstFailureClassOf (e : error) : BurstFailureClass :=
  if Is (Some e) ErrPoisoned then BurstFailurePoisoned
  else if Is (Some e) EOF then BurstFailurePeerClosed
  else BurstFailureIOError.

Definition isBurstContextErr (e : error) : bool := Is (Some e) CtxCanceled || Is (Some e) CtxDeadlineExceeded.
Definition isBurstTeardownErr (e : error) : bool := isBurstContextErr e || Is (Some e) ErrClosed.

(** ** The settled outcome *)

Record burstOutcome := mkOutcome {
  o_terminal : burstTerminal; o_class : BurstFailureClass; o_cause : option error; o_poison : option error
}.

Definition settledOutcomeLocked (s : burst) : burstOutcome :=
  if decide (terminal s = burstFailed) then
    match latchedPoison s with
    | Some p => mkOutcome (terminal s) BurstFailurePoisoned (Some p) (Some p)
    | None => mkOutcome (terminal s) (failureClass s) (failure s) None
    end
  else mkOutcome (terminal s) BurstFailureNone None (latchedPoison s).

Definition o_failure (o : burstOutcome) : BurstFailureClass * option error :=
  match o_terminal o with burstFailed => (o_class o, o_cause o) | _ => (BurstFailureNone, None) end.

Definition operationErr (o : burstOutcome) (err : option error) : option error :=
  match o_terminal o with
  | burstLocallyClosing => Some [ErrClosed]
  | _ => match o_poison o with Some p => Some p | None => err end
  end.

Definition failFast (o : burstOutcome) : option error :=
  match o_terminal o with
  | burstLocallyClosing => Some [ErrClosed]
  | burstFailed => o_cause o
  | burstOpen => None
  end.

Definition withheld (o : burstOutcome) : option error :=
  match o_terminal o with burstFailed => o_cause o | _ => None end.

Definition wakeCause (o : burstOutcome) : option error :=
  match o_terminal o with burstFailed => o_cause o | _ => Some [ErrClosed] end.

Definition o_fatalErr (o : burstOutcome) : option error :=
  match o_terminal o with burstLocallyClosing => None | _ => o_poison o end.

(** ** Critical sections

    Each is the body of one stretch of code under the composite's mutex (or
    the latch's), as a function of the state it finds. *)

(** [recvCancel]: a context's cause is taken once. *)
Definition wakeReceiveLocked (c : option error) (s : burst) : burst :=
  match recvCause s with Some _ => s | None => with_recvCause c s end.

(** An attempt's handle: [cancel(errBurstInterrupted)] on its context. *)
Definition cancel_attempt (t : nat) (c : cause) (s : burst) : burst :=
  with_causes (alter (fun old => if decide (old = NotEnded) then c else old) t (causes s)) s.

Definition publishTerminalLocked (st : burstTerminal) (e : option error) (cl : BurstFailureClass) (s : burst)
    : burst * (bool * option nat) :=
  if decide (terminal s = burstOpen) then
    let s1 := with_pumpState burstPumpStopped (with_interrupt None (with_terminal st e cl s)) in
    let s2 := if decide (st = burstFailed) then wakeReceiveLocked (wakeCause (settledOutcomeLocked s1)) s1 else s1 in
    (s2, (true, interrupt s))
  else (s, (false, None)).

Definition onFatalLocked (e : error) (s : burst) : burst * option nat :=
  let s1 := match latchedPoison s with None => with_latchedPoison (Some e) s | Some _ => s end in
  let '(s2, (took, tok)) := publishTerminalLocked burstFailed (Some e) BurstFailurePoisoned s1 in
  (if took then s2 else wakeReceiveLocked (wakeCause (settledOutcomeLocked s2)) s2, tok).

Definition endReceiveSideLocked (s : burst) : burst := wakeReceiveLocked (wakeCause (settledOutcomeLocked s)) s.

Definition fireInterruptLocked (s : burst) : burst :=
  match interrupt s with Some t => cancel_attempt t Interrupted s | None => s end.

(** [readable] is what the shared-memory probe answers, where it is asked. *)
Definition chooseChannelLocked (readable : bool) (s : burst) : burst * burstChannel :=
  if decide (pumpState s = burstPumpPending) then
    let forfeited := shmForfeitsTurn s in
    let s := with_forfeits false s in
    (s, if forfeited || negb readable then burstChannelBurst
        else if decide (lastServed s = burstChannelBurst) then burstChannelShm else burstChannelBurst)
  else (s, burstChannelShm).

Definition beginBurstServiceLocked (s : burst) : burst :=
  with_recvState burstRecvBurstReading (with_pumpState burstPumpParkedForService s).

Definition armInterruptLocked (t : nat) (s : burst) : burst :=
  with_contested (bool_decide (pumpState s = burstPumpPending))
    (with_recvState burstRecvShmWaiting (with_interrupt (Some t) s)).

(** [context.WithCancelCause(ctx)]: a context derived from one already ended
    is born ended. *)
Definition derive_attempt (s : burst) : burst * nat :=
  (with_causes (causes s ++ [match callerCtx s with CtxLive => NotEnded | _ => ByCaller end]) s, length (causes s)).

Definition recordServiceLocked (ch : burstChannel) (s : burst) : burst :=
  let s := with_lastServed ch s in
  if decide (ch = burstChannelShm) then with_forfeits false (with_contested false s) else s.

Definition commitDeliveryLocked (s : burst) : burst * option error :=
  match withheld (settledOutcomeLocked s) with
  | Some c => (s, Some c)
  | None => (with_recvState burstRecvDelivering s, None)
  end.

Definition endDeliveryLocked (ch : burstChannel) (s : burst) : burst :=
  recordServiceLocked ch (with_recvState burstRecvIdle s).

Definition endBurstServiceLocked (s : burst) : burst :=
  let s := if decide (recvState s = burstRecvBurstReading) then with_recvState burstRecvIdle s else s in
  if decide (pumpState s = burstPumpParkedForService) then with_pumpState burstPumpWaiting s else s.

Definition forfeitWastedTurnLocked (s : burst) : burst :=
  let s := if shmContestedTurn s && bool_decide (pumpState s = burstPumpPending) then with_forfeits true s else s in
  with_contested false s.

Definition disarmInterruptLocked (t : nat) (s : burst) : burst :=
  if decide (interrupt s = Some t) then
    let s := with_interrupt None s in
    if decide (recvState s = burstRecvShmWaiting) then with_recvState burstRecvIdle s else s
  else s.

(** The publication, up to the pump's wait. *)
Definition publishReadinessLocked (s : burst) : burst * bool :=
  if decide (terminal s = burstOpen)
  then (fireInterruptLocked (with_pumpState burstPumpPending s), true)
  else (with_pumpState burstPumpStopped s, false).

(** One wake of the pump in that wait: it invokes the interrupt again while the
    readiness stands unserviced, waits on while it is being serviced, and
    otherwise leaves, reporting whether it may wait for readiness again. *)
Definition pumpWakeLocked (s : burst) : burst * option bool :=
  match pumpState s with
  | burstPumpPending => (fireInterruptLocked s, None)
  | burstPumpParkedForService => (s, None)
  | burstPumpWaiting => (s, Some true)
  | burstPumpStopped => (s, Some false)
  end.

(** What one attempt finds and commits to under the mutex. *)
Inductive attempt := Ended (e : error) | ServesBurst | ServesShm (t : nat).

Definition attemptLocked (readable : bool) (s : burst) : burst * attempt :=
  match failFast (settledOutcomeLocked s) with
  | Some e => (s, Ended e)
  | None =>
      let (s, ch) := chooseChannelLocked readable s in
      match ch with
      | burstChannelBurst => (beginBurstServiceLocked s, ServesBurst)
      | burstChannelShm => let (s, t) := derive_attempt s in (armInterruptLocked t s, ServesShm t)
      end
  end.

(** The accessors that take the mutex. *)
Definition DataPlaneOutcome (s : burst) : BurstFailureClass * option error := o_failure (settledOutcomeLocked s).
Definition FatalErr (s : burst) : option error := o_fatalErr (settledOutcomeLocked s).
Definition TerminalFailure (s : burst) : BurstFailureClass * option error :=
  match terminal s with burstFailed => (failureClass s, failure s) | _ => (BurstFailureNone, None) end.
Definition BoundedReadActive (s : burst) : bool := bool_decide (recvState s = burstRecvBurstReading).

(** ** Calls and critical sections, as queries *)

Inductive query :=
(* the composite's mutex *)
| QSettled | QPublishTerminal | QOnFatal | QEndReceive | QAttempt | QEndService | QCommit (ch : burstChannel) (f : Frame) | QEndDelivery
| QForfeit | QRecordService | QDisarm | QPublish | QPumpWake | QEndPump
(* the latch's mutex; atomics; contexts; channels *)
| QLatch | QRouted | QFaults | QCallerCtx | QCause (t : nat) | QCancel (t : nat) | QAttemptOver (t : nat)
| QSendCtx | QTryGate | QGate | QRelease | QPumpDone | QJoin
(* the undersides *)
| QShmSend (f : Frame) | QShmSendReporting (f : Frame) | QShmSendFill (f : Frame) (size : Z)
| QBurstSend (f : Frame) (cancellable : bool)
| QShmRecv (t : nat) (reserving : bool) | QShmView (t : nat) (reserving : bool)
| QShmViewDone (t : nat) (r : Receive.callback_result)
| QBurstRecv (reserving : bool) | QWaitReadable
| QBurstClose | QShmStopWriter | QShmClose
(* the caller's own code *)
| QFill (size : Z) | QConsume (ch : burstChannel) (f : Frame)
| QReturn (r : option Frame * option error) | QNextRecv | QWorld.

(** What a fill callback does: it may write its buffer and return, or panic. *)
Inductive fill_result := FillWrote (bs : list Z) | FillErr (e : error) | FillPanic.

(** A call on the socket may run the fatal observer before it returns; a view
    receive may run the consume callback before it returns. *)
Inductive answer :=
| ANone
| ACtx (c : ctx_state)
| ABool (b : bool)
| AErr (observed : option error) (e : option error)
| AReport (published : bool) (e : option error)
| AFrame (observed : option error) (r : Frame + error)
| AView (r : Frame + option error)
| AFill (r : fill_result)
| ACb (r : Receive.callback_result)
| AReq (req : burstRecvRequest) (c : ctx_state).

Notation bproc := (proc burst query answer).

Definition section {A} (q : query) (f : burst -> burst * A) : bproc A := crit q f.
Definition update (q : query) (f : burst -> burst) : bproc unit := crit q (fun s => (f s, tt)).
Definition read {A} (q : query) (f : burst -> A) : bproc A := crit q (fun s => (s, f s)).

Definition ask_err (q : query) : bproc (option error) :=
  ask q (fun x => match x with AErr _ e => Some e | _ => None end).

(** ** The latch *)

Definition cancel_token (tok : option nat) : bproc unit :=
  match tok with Some t => update (QCancel t) (cancel_attempt t Interrupted) | None => mret tt end.

Definition onFatal (e : error) : bproc unit :=
  tok ← section QOnFatal (onFatalLocked e);
  cancel_token tok.

(** [Observe]'s first stretch under the latch's mutex: [true] when the
    composite has to be told. *)
Definition observeLocked (e : error) (s : burst) : burst * bool :=
  match latchErr s with
  | Some _ => (s, false)
  | None => if latchBound s then (s, true) else (with_latchErr (Some e) s, false)
  end.

Definition record_latch (e : error) (s : burst) : burst :=
  match latchErr s with Some _ => s | None => with_latchErr (Some e) s end.

Definition Observe (e : option error) : bproc unit :=
  match e with
  | Some e =>
      if Is (Some e) ErrPoisoned then
        tell ← section QLatch (observeLocked e);
        if (tell : bool) then onFatal e ≫= fun _ => update QLatch (record_latch e) else mret tt
      else mret tt
  | None => mret tt
  end.

(** [None] is the panic over a latch already bound. *)
Definition attachLocked (s : burst) : burst * option (option error) :=
  if latchBound s then (s, None) else (with_latchBound true s, Some (latchErr s)).

Definition attach : bproc (option unit) :=
  r ← section QLatch attachLocked;
  match r with
  | None => mret None
  | Some None => mret (Some tt)
  | Some (Some e) => onFatal e ≫= fun _ => mret (Some tt)
  end.

(** A call on the socket, with what its fatal observer is handed meanwhile. *)
Definition call_burst (q : query) : bproc (option error) :=
  r ← ask q (fun x => match x with AErr o e => Some (o, e) | _ => None end);
  Observe (fst r) ≫= fun _ => mret (snd r).

Definition call_burst_recv (q : query) : bproc (Frame + error) :=
  r ← ask q (fun x => match x with AFrame o r => Some (o, r) | _ => None end);
  Observe (fst r) ≫= fun _ => mret (snd r).

(** ** Results *)

Definition operationResult (e : option error) : bproc (option error) :=
  o ← read QSettled settledOutcomeLocked;
  mret (operationErr o e).

Definition burstSendResult (e : option error) : bproc (option error) :=
  match e with
  | None => mret None
  | Some _ => Observe e ≫= fun _ => operationResult e
  end.

Definition receiveResult (e : option error) : bproc (option error) :=
  match e with
  | None => mret None
  | Some _ =>
      c ← read QCallerCtx callerCtx;
      match Uds.ctx_err c with
      | Some _ => mret e
      | None => if IsFrameLocalRecvErr e then mret e else operationResult e
      end
  end.

Definition publishTerminal (st : burstTerminal) (e : option error) (cl : BurstFailureClass) : bproc unit :=
  r ← section QPublishTerminal (publishTerminalLocked st e cl);
  cancel_token (snd r).

Definition failConnection (e : error) : bproc unit :=
  publishTerminal burstFailed (Some e) (burstFailureClassOf e).

Definition failFastErr : bproc (option error) := read QSettled (fun s => failFast (settledOutcomeLocked s)).

Definition poisonBurst (e : error) : bproc (option error) :=
  Observe (Some e) ≫= fun _ => operationResult (Some e).

(** ** Sends *)

Section transport.
Context (cfg : config).

Definition routesToBurst (kind size : Z) : bool :=
  if negb (kind =? FrameUnaryReq) && negb (kind =? FrameUnaryResp) then false else inlineMax cfg <? size.

Definition checkCeiling (size : Z) : option error :=
  if ceiling cfg <? size then Some [ErrPayloadTooLarge] else None.

Definition release : bproc unit := update QRelease (with_gate None).

(** Acquires the gate for goroutine [me], or gives the context's error. *)
Definition try_gate (me : nat) (s : burst) : burst * bool :=
  match sendGate s with None => (with_gate (Some me) s, true) | Some _ => (s, false) end.

(** The select between the gate and the context: the answer says which ready
    branch is taken; with neither ready it stays. *)
Definition await_gate (me : nat) : bproc (option error) :=
  Act QGate (fun x s =>
    match x with
    | ACtx c =>
        match Uds.ctx_err c with
        | Some e => (s, Some (Done (Some e)))
        | None => let (s', got) := try_gate me s in (s', if got : bool then Some (Done None) else None)
        end
    | _ => (s, None)
    end).

Definition sendCtx : bproc (option error) :=
  ask QSendCtx (fun x => match x with ACtx c => Some (Uds.ctx_err c) | _ => None end).

Definition enterSendGate (me : nat) : bproc (option error) :=
  e ← sendCtx;
  match e with
  | Some e => mret (Some e)
  | None =>
      acquired ← section QTryGate (try_gate me);
      e ← (if acquired : bool then mret None else await_gate me);
      match e with
      | Some e => mret (Some e)
      | None =>
          e ← sendCtx;
          match e with
          | Some e => release ≫= fun _ => mret (Some e)
          | None => mret None
          end
      end
  end.

(** What the two burst sends share: routing, admission, count, gate, and the
    second look at the connection with the gate held. *)
Definition burst_send (me : nat) (size : Z) (body : bproc (option error)) : bproc (option error) :=
  match checkCeiling size with
  | Some e => mret (Some e)
  | None =>
      update QRouted (fun s => with_routed (u64 (burstRouted s + 1)) s) ≫= fun _ =>
      e ← enterSendGate me;
      match e with
      | Some e => mret (Some e)
      | None =>
          e ← failFastErr;
          r ← (match e with Some e => mret (Some e) | None => body end);
          release ≫= fun _ => mret r
      end
  end.

Definition Send (me : nat) (f : Frame) : bproc (option error) :=
  e ← failFastErr;
  match e with
  | Some e => mret (Some e)
  | None =>
      if negb (routesToBurst (Kind f) (zlen (Payload f))) then ask_err (QShmSend f)
      else burst_send me (zlen (Payload f)) (r ← call_burst (QBurstSend f true); burstSendResult r)
  end.

Definition SendReporting (f : Frame) : bproc (bool * option error) :=
  e ← failFastErr;
  match e with
  | Some e => mret (false, Some e)
  | None => ask (QShmSendReporting f) (fun x => match x with AReport p e => Some (p, e) | _ => None end)
  end.

Definition with_payload (bs : list Z) (f : Frame) : Frame :=
  mkFrame (CallID f) (Kind f) (Service f) (Method f) (Budget f) bs (FStatus f) (Control f).

(** The buffer is [size] zeroed bytes; the fill writes within it. *)
Definition runBurstFill (size : Z) : bproc (list Z + error) :=
  r ← ask (QFill size) (fun x => match x with AFill r => Some r | _ => None end);
  mret match r with
       | FillWrote bs => inl (resize (Z.to_nat size) 0 bs)
       | FillErr e => inr e
       | FillPanic => inr []
       end.

Definition SendPayloadFill (me : nat) (f : Frame) (size : Z) : bproc (option error) :=
  e ← failFastErr;
  match e with
  | Some e => mret (Some e)
  | None =>
      if negb (routesToBurst (Kind f) size) then ask_err (QShmSendFill f size)
      else burst_send me size (
        r ← runBurstFill size;
        match r with
        | inr ferr => mret (Some (Writer.ErrPayloadFillFailed :: ferr))
        | inl dst => r ← call_burst (QBurstSend (with_payload dst f) false); burstSendResult r
        end)
  end.

(** ** Teardown *)

Definition join_errs (a b : option error) : option error :=
  match a, b with
  | None, None => None
  | Some e, None => Some e
  | None, Some e => Some e
  | Some a, Some b => Some (a ++ b)
  end.

Definition StopWriter : bproc (option error) :=
  publishTerminal burstLocallyClosing None BurstFailureNone ≫= fun _ =>
  burstErr ← ask_err QBurstClose;
  shmErr ← ask_err QShmStopWriter;
  mret (join_errs burstErr shmErr).

Definition join_pump : bproc unit :=
  Act QJoin (fun _ s => (s, if pumpDone s then Some (Done tt) else None)).

Definition Close : bproc (option error) :=
  stopErr ← StopWriter;
  update QEndReceive endReceiveSideLocked ≫= fun _ =>
  join_pump ≫= fun _ =>
  closeErr ← ask_err QShmClose;
  mret (join_errs stopErr closeErr).

(** ** The pump *)

Definition endPump (e : error) : bproc unit :=
  (if isBurstTeardownErr e then mret tt else failConnection e) ≫= fun _ =>
  update QEndPump (with_pumpState burstPumpStopped).

Definition await_service : bproc bool :=
  Act QPumpWake (fun _ s => let (s', r) := pumpWakeLocked s in (s', Done <$> r)).

Definition publishReadiness : bproc bool :=
  parked ← section QPublish publishReadinessLocked;
  if parked : bool then await_service else mret false.

(** One turn of the pump's loop: [true] to wait again. *)
Definition runPump : bproc bool :=
  r ← ask_err QWaitReadable;
  match r with
  | Some e => endPump e ≫= fun _ => mret false
  | None => publishReadiness
  end.

Definition close_pumpDone : bproc unit := update QPumpDone (with_pumpDone true).

(** ** Receives *)

Notation recv_result := (option Frame * option error)%type.

(** The socket's three conditions on what it may carry. *)
Definition checkBurstOrigin (f : Frame) : bproc (option error) :=
  let size := zlen (Payload f) in
  if negb (Kind f =? inbound_kind cfg) then poisonBurst [ErrPoisoned]
  else if size <=? inboundInlineMax cfg then poisonBurst [ErrPoisoned]
  else if ceiling cfg <? size then poisonBurst [ErrPoisoned]
  else mret None.

(** The cause is rendered to text: only the poison's sentinel stays. *)
Definition remapBurstRecvErr (e : error) : bproc (option error) :=
  if IsFrameLocalRecvErr (Some e) then poisonBurst [ErrPoisoned] else mret (Some e).

Definition readBurst (res : bool) : bproc (Frame + error) :=
  r ← call_burst_recv (QBurstRecv res);
  r ← match r with
      | inr e => e' ← remapBurstRecvErr e; mret (inr (default e e'))
      | inl f => e ← checkBurstOrigin f; mret match e with Some e => inr e | None => inl f end
      end;
  update QEndService endBurstServiceLocked ≫= fun _ => mret r.

Definition commitService (ch : burstChannel) : bproc unit := update QRecordService (recordServiceLocked ch).

Definition resolveFailure (e : error) (ch : burstChannel) : bproc (option error) :=
  if IsFrameLocalRecvErr (Some e) then
    commitService ch ≫= fun _ => receiveResult (Some e)
  else
    (if isBurstTeardownErr e then mret tt else failConnection e) ≫= fun _ => receiveResult (Some e).

Definition consumeBurstFrame (f : Frame) : bproc (option error) :=
  r ← ask (QConsume burstChannelBurst f) (fun x => match x with ACb r => Some r | _ => None end);
  match Receive.ProtectedConsume f (fun _ => r) with
  | (Receive.ConsumeMalformed, err) => poisonBurst (default [] err ++ [ErrPoisoned])
  | (Receive.ConsumeFaulted, err) =>
      update QFaults (fun s => with_faults (u64 (burstConsumeFaults s + 1)) s) ≫= fun _ => receiveResult err
  | (Receive.ConsumeAccepted, _) => mret None
  end.

Definition endDelivery (ch : burstChannel) : bproc unit := update QEndDelivery (endDeliveryLocked ch).

Definition deliver (f : Frame) (req : burstRecvRequest) (ch : burstChannel) : bproc recv_result :=
  c ← section (QCommit ch f) commitDeliveryLocked;
  match c with
  | Some e => r ← receiveResult (Some e); mret (None, r)
  | None =>
      r ← (if by_view req then e ← consumeBurstFrame f; mret (None, e) else mret (Some f, None));
      endDelivery ch ≫= fun _ => mret r
  end.

Definition serveBurst (req : burstRecvRequest) : bproc recv_result :=
  r ← readBurst (reserve req);
  match r with
  | inr e => e' ← resolveFailure e burstChannelBurst; mret (None, e')
  | inl f => deliver f req burstChannelBurst
  end.

Definition forfeitWastedTurn : bproc unit := update QForfeit forfeitWastedTurnLocked.

Definition resolveShmErr (t : nat) (e : error) : bproc (option error) :=
  if isBurstContextErr e then
    c ← read (QCause t) (fun s => causes s !! t);
    if decide (c = Some Interrupted) then forfeitWastedTurn ≫= fun _ => mret (Some [errBurstInterrupted])
    else
      cc ← read QCallerCtx callerCtx;
      match Uds.ctx_err cc with
      | Some ce => if forallb (Is (Some e)) ce then receiveResult (Some e) else mret (Some ce)
      | None => resolveFailure e burstChannelShm
      end
  else resolveFailure e burstChannelShm.

(** The underside's view receive, with the wrapper the composite hands it: the
    wrapper's own return value goes back to the underside, which then answers
    for the receive. *)
Definition wrapped_consume (f : Frame) : bproc (option error * Receive.callback_result) :=
  c ← section (QCommit burstChannelShm f) commitDeliveryLocked;
  match c with
  | Some e => mret (Some e, Receive.CbReturn None false)
  | None =>
      r ← ask (QConsume burstChannelShm f) (fun x => match x with ACb r => Some r | _ => None end);
      endDelivery burstChannelShm ≫= fun _ => mret (None, r)
  end.

Definition serveShmView (t : nat) (req : burstRecvRequest) : bproc (option error) :=
  v ← ask (QShmView t (reserve req)) (fun x => match x with AView r => Some r | _ => None end);
  r ← match v with
      | inr e => mret (None, e)
      | inl f =>
          w ← wrapped_consume f;
          e ← ask_err (QShmViewDone t (snd w));
          mret (fst w, e)
      end;
  match r with
  | (Some condemned, _) => receiveResult (Some condemned)
  | (None, Some e) => resolveShmErr t e
  | (None, None) => mret None
  end.

Definition serveShm (t : nat) (req : burstRecvRequest) : bproc recv_result :=
  if by_view req then e ← serveShmView t req; mret (None, e)
  else
    r ← ask (QShmRecv t (reserve req)) (fun x => match x with AFrame _ r => Some r | _ => None end);
    match r with
    | inr e => e' ← resolveShmErr t e; mret (None, e')
    | inl f => deliver f req burstChannelShm
    end.

(** One attempt; the probe is read inside its critical section. *)
Definition receiveOnce (req : burstRecvRequest) : bproc recv_result :=
  a ← Act QAttempt (fun x s =>
        match x with
        | ABool readable => let (s', a) := attemptLocked readable s in (s', Some (Done a))
        | _ => (s, None)
        end);
  match a with
  | Ended e => r ← receiveResult (Some e); mret (None, r)
  | ServesBurst => serveBurst req
  | ServesShm t =>
      r ← serveShm t req;
      update QDisarm (disarmInterruptLocked t) ≫= fun _ =>
      update (QAttemptOver t) (cancel_attempt t AttemptOver) ≫= fun _ => mret r
  end.

(** ** Goroutines

    What one goroutine's program ends with. *)
Inductive result :=
| RErr (e : option error)
| RReport (published : bool) (e : option error)
| RRecv (req : burstRecvRequest) (r : recv_result)
| RPump (again : bool)
| RCall
| RStop.

(** The next receive a caller makes, under whatever context. *)
Definition next_receive : bproc result :=
  r ← Act QNextRecv (fun x s =>
        match x with
        | AReq req c => (with_callerCtx c s, Some (Done req))
        | _ => (s, None)
        end);
  o ← receiveOnce r; mret (RRecv r o).

(** [receive]: the composite's own interrupt starts the next attempt; anything
    else goes back to the caller, who may call again. *)
Definition receive (req : burstRecvRequest) (r : recv_result) : bproc result :=
  if Is (snd r) errBurstInterrupted then o ← receiveOnce req; mret (RRecv req o)
  else ask (QReturn r) (fun _ => Some RCall).

Definition receiver : goroutine burst query answer result :=
  mkGo next_receive (fun a =>
    match a with
    | RRecv req r => Some (receive req r)
    | RCall => Some next_receive
    | _ => None
    end).

Definition pump : goroutine burst query answer result :=
  mkGo (RPump <$> runPump) (fun a =>
    match a with
    | RPump true => Some (RPump <$> runPump)
    | RPump false => Some (close_pumpDone ≫= fun _ => mret RStop)
    | _ => None
    end).

(** The world: the caller ends its context, which ends what derives from it. *)
Definition end_caller (c : ctx_state) (s : burst) : burst :=
  match callerCtx s, c with
  | CtxLive, CtxLive => s
  | CtxLive, _ => with_callerCtx c (with_causes (map (fun k => if decide (k = NotEnded) then ByCaller else k) (causes s)) s)
  | _, _ => s
  end.

Definition world : goroutine burst query answer result :=
  mkGo (Act QWorld (fun x s => (match x with ACtx c => end_caller c s | _ => s end, None))) (fun _ => None).

(** Everything else that runs against the composite. *)
Inductive op :=
| OSend (f : Frame) | OSendPayloadFill (f : Frame) (size : Z) | OSendReporting (f : Frame)
| OStopWriter | OClose | OObserve (e : error).

Definition run_op (me : nat) (o : op) : bproc result :=
  match o with
  | OSend f => RErr <$> Send me f
  | OSendPayloadFill f size => RErr <$> SendPayloadFill me f size
  | OSendReporting f => (fun r => RReport (fst r) (snd r)) <$> SendReporting f
  | OStopWriter => RErr <$> StopWriter
  | OClose => RErr <$> Close
  | OObserve e => (fun _ => RErr None) <$> Observe (Some e)
  end.

(** A caller runs a list of operations, one after the other. *)
Fixpoint run_ops (me : nat) (os : list op) : bproc result :=
  match os with
  | [] => mret RStop
  | o :: os => run_op me o ≫= fun _ => run_ops me os
  end.

Definition caller (me : nat) (os : list op) : goroutine burst query answer result :=
  mkGo (run_ops me os) (fun _ => None).

(** The composite as built: the latch [attach]ed, fed or not before that. *)
Definition fresh (fed : option error) : burst :=
  mkBurst burstOpen None BurstFailureNone None burstRecvIdle burstPumpWaiting burstChannelShm None false false
    fed false None None 0 0 false CtxLive [].

Definition attached (fed : option error) : burst := fst (fst (solo [ANone; ANone; ANone] attach (fresh fed))).

(** [NewBurstTransport]: goroutine 0 receives, 1 is the pump, 2 the world, the
    others run [ops]. *)
Definition system (fed : option error) (ops : list (list op)) : pool burst query answer result :=
  (receiver :: pump :: world :: imap (fun i os => caller (3 + i) os) ops, attached fed).

End transport.

(** [NewBurstTransport]'s configuration; an unset side panics. *)
Definition NewBurstTransport (side : option BurstSide) (maxSend maxRecv limit : Z) : option config :=
  match side with
  | Some s => Some (mkConfig maxSend maxRecv limit (inboundKind s))
  | None => None
  end.

(** ** Accessors over the two undersides *)

Record counters := mkCounters {
  c_ReadableNow : bool; c_FramesSent : Z; c_FramesReceived : Z; c_BytesSent : Z; c_BytesReceived : Z;
  c_ConsumeFaults : Z; c_AcceptanceUnknown : option error -> bool
}.

Definition ReadableNow (shm burst : counters) : bool := c_ReadableNow shm || c_ReadableNow burst.
Definition AcceptanceUnknown (shm burst : counters) (e : option error) : bool :=
  c_AcceptanceUnknown shm e || c_AcceptanceUnknown burst e.
Definition FramesSent (shm burst : counters) : Z := u64 (c_FramesSent shm + c_FramesSent burst).
Definition FramesReceived (shm burst : counters) : Z := u64 (c_FramesReceived shm + c_FramesReceived burst).
Definition BytesSent (shm burst : counters) : Z := u64 (c_BytesSent shm + c_BytesSent burst).
Definition BytesReceived (shm burst : counters) : Z := u64 (c_BytesReceived shm + c_BytesReceived burst).
Definition ConsumeFaults (shm : counters) (s : burst) : Z := u64 (c_ConsumeFaults shm + burstConsumeFaults s).
Definition BurstCount (s : burst) : Z := burstRouted s.

End Burst.
