(* ===== verification/BurstSafety.v ===== *)
(** * The burst engine under every schedule

    The senders, closers, latch feeders, the pump, the receiver and the world
    of [BurstTransport] keep a shared invariant and the guarantees they rely on
    from each other; what follows about every reachable configuration is at the
    end. *)

From S2P Require Import Prelude TransportFrame UdsTransport ShmReceive ShmWriter Interleave BurstTransport.
Import Frames Burst.

Module BurstSafety.

(** ** Interference

    What any section does to what is settled ([grows]); what everyone but the
    receiver leaves alone ([spares_receiver]); what everyone but the pump does
    to the pump's handshake ([spares_pump]). *)

Record grows (s s' : burst) : Prop := mkGrows {
  grows_terminal : terminal s <> burstOpen ->
    terminal s' = terminal s /\ failure s' = failure s /\ failureClass s' = failureClass s;
  grows_poison : forall e, latchedPoison s = Some e -> latchedPoison s' = Some e;
  grows_latch : forall e, latchErr s = Some e -> latchErr s' = Some e;
  grows_cause : forall e, recvCause s = Some e -> recvCause s' = Some e;
  grows_done : pumpDone s = true -> pumpDone s' = true;
  grows_ended : forall t c, causes s !! t = Some c ->
    exists c', causes s' !! t = Some c' /\ (c <> NotEnded -> c' = c)
}.

Record spares_receiver (s s' : burst) : Prop := mkSparesReceiver {
  spares_recvState : recvState s' = recvState s;
  spares_lastServed : lastServed s' = lastServed s;
  spares_contested : shmContestedTurn s' = shmContestedTurn s;
  spares_forfeits : shmForfeitsTurn s' = shmForfeitsTurn s;
  spares_attempts : length (causes s') = length (causes s);
  spares_interrupt : interrupt s' = interrupt s \/ (interrupt s' = None /\ terminal s' <> burstOpen)
}.

Record spares_pump (s s' : burst) : Prop := mkSparesPump {
  spares_waiting : pumpState s = burstPumpWaiting -> pumpState s' = burstPumpWaiting \/ pumpState s' = burstPumpStopped;
  spares_stopped : pumpState s = burstPumpStopped -> pumpState s' = burstPumpStopped;
  spares_read : recvState s' = burstRecvBurstReading -> recvState s = burstRecvBurstReading \/ pumpState s = burstPumpPending;
  spares_done : pumpDone s' = pumpDone s
}.

Definition spares_gate (i : nat) (s s' : burst) : Prop := sendGate s = Some i <-> sendGate s' = Some i.

(** The invariant of the shared state. *)
Record inv (s : burst) : Prop := mkInv {
  inv_poison_settled : latchedPoison s <> None -> terminal s <> burstOpen;
  inv_is_poison : forall e, latchedPoison s = Some e -> Is (Some e) ErrPoisoned = true;
  inv_open : terminal s = burstOpen -> failure s = None /\ recvCause s = None;
  inv_closing : terminal s = burstLocallyClosing ->
    failure s = None /\ (recvCause s = None \/ recvCause s = Some [ErrClosed]);
  inv_failed : terminal s = burstFailed ->
    exists e, failure s = Some e /\ failureClass s = burstFailureClassOf e /\ recvCause s = Some e;
  inv_ended : terminal s <> burstOpen -> interrupt s = None /\ pumpState s = burstPumpStopped;
  inv_reading : pumpState s = burstPumpWaiting \/ pumpState s = burstPumpPending ->
    recvState s <> burstRecvBurstReading;
  inv_token : forall t, interrupt s = Some t -> (t < length (causes s))%nat;
  inv_latch : latchBound s = true;
  inv_latched : latchErr s <> None -> latchedPoison s <> None
}.

Inductive role := Receiver | Pump | World | Caller (i : nat).

Definition role_of (i : nat) : role :=
  match i with 0%nat => Receiver | 1%nat => Pump | 2%nat => World | _ => Caller i end.

Lemma role_of_inj i j : role_of i = role_of j -> i = j.
Proof. destruct i as [|[|[|i]]], j as [|[|[|j]]]; simpl; intros [=]; congruence. Qed.

Definition Rel (r : role) (s s' : burst) : Prop :=
  grows s s' /\ (r = Receiver -> spares_receiver s s') /\ (r = Pump -> spares_pump s s') /\
  (forall i, r = Caller i -> spares_gate i s s').

Definition ended (t : nat) (s : burst) : Prop := exists c, causes s !! t = Some c /\ c <> NotEnded.

(** A goroutine may do to the others what they rely on; a wake of the pump over
    standing readiness ends the attempt whose handle is installed. *)
Definition Guar (r : role) (q : query) (s s' : burst) : Prop :=
  grows s s' /\ (r <> Receiver -> spares_receiver s s') /\ (r <> Pump -> spares_pump s s') /\
  (forall i, r <> Caller i -> spares_gate i s s') /\
  (q = QPumpWake -> pumpState s = burstPumpPending -> forall t, interrupt s = Some t -> ended t s').

Lemma Guar_Rel i j q s s' : i <> j -> Guar (role_of i) q s s' -> Rel (role_of j) s s'.
Proof.
  intros Hne (? & Hr & Hp & Hg & _). split_and!; [done|..]; intros.
  - apply Hr. intros E. apply Hne, role_of_inj. congruence.
  - apply Hp. intros E. apply Hne, role_of_inj. congruence.
  - apply Hg. intros E. apply Hne, role_of_inj. congruence.
Qed.

Lemma grows_refl s : grows s s.
Proof. split; naive_solver. Qed.
Lemma settled_grows_trans a b c : grows a b -> grows b c -> grows a c.
Proof.
  intros [T1 P1 L1 C1 D1 E1] [T2 P2 L2 C2 D2 E2]. split; [|by eauto..|].
  - intros H. destruct (T1 H) as (Ht & ? & ?). rewrite <- Ht in H. destruct (T2 H) as (? & ? & ?). split_and!; congruence.
  - intros t c0 H. destruct (E1 t c0 H) as (c1 & H1 & ?). destruct (E2 t c1 H1) as (c2 & H2 & Hc2).
    exists c2. split; [done|]. intros ?. rewrite Hc2; intuition congruence.
Qed.
Lemma Guar_refl r q s : q <> QPumpWake -> Guar r q s s.
Proof.
  intros. split_and!; [apply grows_refl|..]; try done.
  - intros _. split; auto.
  - intros _. split; auto.
Qed.
Create HintDb burst.
#[export] Hint Resolve grows_refl Guar_refl : burst.

#[global] Arguments Is : simpl never.
Ltac fin := first [done | by simplify_eq | by left | by right | by eauto 4 | congruence | by intuition congruence].
Ltac rec_split := split; simpl; intros; try fin.

Lemma sec_publish r q st e cl s :
  q <> QPumpWake -> inv s -> st = burstFailed /\ (exists e', e = Some e' /\ cl = burstFailureClassOf e') \/ st = burstLocallyClosing /\ e = None ->
  let s' := fst (publishTerminalLocked st e cl s) in
  Guar r q s s' /\ inv s' /\ terminal s' <> burstOpen.
Proof.
  intros Hq Hi Hs. unfold publishTerminalLocked, wakeReceiveLocked, settledOutcomeLocked.
  destruct (decide (terminal s = burstOpen)) as [Ho|Ho]; [|split_and!; auto with burst]. simpl.
  destruct (inv_open _ Hi Ho) as [Hf Hc].
  assert (Hp : latchedPoison s = None).
  { destruct (latchedPoison s) eqn:E; [|done]. exfalso. eapply inv_poison_settled; [done| |done]. by rewrite E. }
  destruct Hs as [[-> (e' & -> & ->)]|[-> ->]]; simpl; rewrite ?Hc, ?Hp; simpl.
  - split_and!; [|destruct Hi; rec_split|done].
    split_and!; intros; [rec_split..|done|done].
  - split_and!; [|destruct Hi; rec_split|done].
    split_and!; intros; [rec_split..|done|done].
Qed.

(** The standard obligation of a section: guarantee and invariant. *)
Definition kept (r : role) (q : query) (s s' : burst) : Prop := Guar r q s s' /\ inv s'.

Lemma section_kept_refl r q s : q <> QPumpWake -> inv s -> kept r q s s.
Proof. split; auto with burst. Qed.
#[export] Hint Resolve section_kept_refl : burst.

Ltac sec := split; [split_and!; [rec_split|..]; try (intros; first [done|rec_split]) | rec_split].

Lemma kept_on_fatal r q e s :
  q <> QPumpWake -> inv s -> Is (Some e) ErrPoisoned = true ->
  let s' := fst (onFatalLocked e s) in
  kept r q s s' /\ latchedPoison s' <> None.
Proof.
  intros Hq Hi He. unfold onFatalLocked, publishTerminalLocked, wakeReceiveLocked, settledOutcomeLocked.
  destruct (decide (terminal s = burstOpen)) as [Ho|Ho].
  - assert (Hp : latchedPoison s = None).
    { destruct (latchedPoison s) eqn:E; [|done]. exfalso. eapply inv_poison_settled; [done| |done]. by rewrite E. }
    destruct (inv_open _ Hi Ho) as [Hf Hc]. rewrite Hp. simpl. rewrite decide_True by done. simpl. rewrite Hc. simpl.
    assert (Hcl : BurstFailurePoisoned = burstFailureClassOf e) by (unfold burstFailureClassOf; by rewrite He).
    split; [|done]. destruct Hi; sec.
  - destruct (latchedPoison s) as [p|] eqn:Hp; simpl; rewrite decide_False by done; simpl.
    + split; [|destruct (recvCause s); simpl; congruence].
      destruct (terminal s) eqn:Ht; [done|..].
      * rewrite Hp. simpl. rewrite ?Ht. simpl. destruct (recvCause s) eqn:Hc; [by auto with burst|]. destruct Hi; sec.
      * destruct (inv_failed _ Hi Ht) as (? & ? & ? & Hc). rewrite Hc. auto with burst.
    + split; [|destruct (recvCause s); simpl; congruence].
      destruct (terminal s) eqn:Ht; [done|..].
      * simpl. rewrite ?Ht. destruct (recvCause s) eqn:Hc; simpl; destruct Hi; sec.
      * destruct (inv_failed _ Hi Ht) as (? & ? & ? & Hc). simpl. rewrite Hc. destruct Hi; sec.
Qed.
Lemma kept_end_receive r q s :
  q <> QPumpWake -> inv s -> terminal s <> burstOpen -> kept r q s (endReceiveSideLocked s).
Proof.
  intros Hq Hi Ho. unfold endReceiveSideLocked, wakeReceiveLocked, settledOutcomeLocked, wakeCause.
  destruct (recvCause s) eqn:Hc; [by auto with burst|]. destruct (terminal s) eqn:Ht; [done|..]; simpl; rewrite ?Ht.
  - destruct Hi; sec.
  - destruct (inv_failed _ Hi Ht) as (? & ? & ? & ?). congruence.
Qed.

Lemma cancel_ended t c s : (t < length (causes s))%nat -> c <> NotEnded -> ended t (cancel_attempt t c s).
Proof.
  intros Hl Hc. destruct (lookup_lt_is_Some_2 _ _ Hl) as [k Hk]. unfold ended, cancel_attempt. simpl.
  rewrite list_lookup_alter_eq, Hk. simpl. case_decide; eauto.
Qed.

Lemma causes_cancel (t : nat) c (t' : nat) k (l : list cause) :
  l !! t' = Some k ->
  exists k', alter (fun old => if decide (old = NotEnded) then c else old) t l !! t' = Some k' /\ (k <> NotEnded -> k' = k).
Proof.
  intros Hk. destruct (decide (t = t')) as [->|Hne].
  - rewrite list_lookup_alter_eq, Hk. simpl. eexists. split; [done|]. intros. by rewrite decide_False.
  - rewrite list_lookup_alter_ne by done. eauto.
Qed.

Lemma kept_cancel r q t c s : q <> QPumpWake -> inv s -> kept r q s (cancel_attempt t c s).
Proof.
  intros Hq Hi. unfold cancel_attempt. pose proof (causes_cancel t c). pose proof (@length_alter cause) as La.
  destruct Hi; sec; rewrite La; eauto.
Qed.

Lemma kept_wake_fire r s :
  inv s -> pumpState s = burstPumpPending -> kept r QPumpWake s (fireInterruptLocked s).
Proof.
  intros Hi Hp. unfold fireInterruptLocked. destruct (interrupt s) as [t|] eqn:Ht.
  - destruct (kept_cancel r QEndPump t Interrupted s) as [(? & ? & ? & ? & _) ?]; [done..|].
    split; [|done]. split_and!; [done..|]. intros _ _ t' Ht'. simplify_eq. apply cancel_ended; [|done]. by eapply inv_token.
  - split; [|done]. split_and!; [apply grows_refl|..]; try done; intros; first [congruence|split; by auto].
Qed.

Lemma kept_wake_idle r s : inv s -> pumpState s <> burstPumpPending -> kept r QPumpWake s s.
Proof.
  intros Hi Hp. split; [|done]. split_and!; [apply grows_refl|..]; try done; intros; first [congruence|split; by auto].
Qed.

Lemma kept_latch_record r q e s :
  q <> QPumpWake -> inv s -> latchedPoison s <> None -> kept r q s (record_latch e s).
Proof.
  intros Hq Hi Hp. unfold record_latch. destruct (latchErr s) eqn:E; [by auto with burst|]. destruct Hi; sec.
Qed.

Lemma kept_observe r q e s : q <> QPumpWake -> inv s -> kept r q s (fst (observeLocked e s)).
Proof.
  intros Hq Hi. unfold observeLocked. rewrite (inv_latch _ Hi). by destruct (latchErr s); auto with burst.
Qed.

Lemma kept_routed r q n s : q <> QPumpWake -> inv s -> kept r q s (with_routed n s).
Proof. intros Hq Hi. destruct Hi; sec. Qed.
Lemma kept_faults r q n s : q <> QPumpWake -> inv s -> kept r q s (with_faults n s).
Proof. intros Hq Hi. destruct Hi; sec. Qed.

Lemma kept_try_gate i q s : q <> QPumpWake -> inv s -> kept (Caller i) q s (fst (try_gate i s)).
Proof.
  intros Hq Hi. unfold try_gate. destruct (sendGate s) eqn:E; [by auto with burst|]. destruct Hi; sec.
Qed.
Lemma kept_release i q s : q <> QPumpWake -> inv s -> sendGate s = Some i -> kept (Caller i) q s (with_gate None s).
Proof. intros Hq Hi Hg. destruct Hi; sec. Qed.

(** The receiver's sections. *)

Lemma kept_next_recv q c s : q <> QPumpWake -> inv s -> kept Receiver q s (with_callerCtx c s).
Proof. intros Hq Hi. destruct Hi; sec. Qed.

Lemma kept_end_service q s : q <> QPumpWake -> inv s -> kept Receiver q s (endBurstServiceLocked s).
Proof.
  intros Hq Hi. unfold endBurstServiceLocked.
  destruct (decide (recvState s = burstRecvBurstReading)); simpl; case_decide; auto with burst; destruct Hi; sec.
Qed.

Lemma kept_commit q s : q <> QPumpWake -> inv s -> kept Receiver q s (fst (commitDeliveryLocked s)).
Proof. intros Hq Hi. unfold commitDeliveryLocked. case_match; auto with burst; destruct Hi; sec. Qed.

Lemma kept_record ch q s : q <> QPumpWake -> inv s -> kept Receiver q s (recordServiceLocked ch s).
Proof. intros Hq Hi. unfold recordServiceLocked. case_decide; destruct Hi; sec. Qed.

Lemma kept_end_delivery ch q s : q <> QPumpWake -> inv s -> kept Receiver q s (endDeliveryLocked ch s).
Proof. intros Hq Hi. unfold endDeliveryLocked, recordServiceLocked. case_decide; destruct Hi; sec. Qed.

Lemma kept_forfeit q s : q <> QPumpWake -> inv s -> kept Receiver q s (forfeitWastedTurnLocked s).
Proof. intros Hq Hi. unfold forfeitWastedTurnLocked. destruct (_ && _); destruct Hi; sec. Qed.

Lemma kept_disarm t q s : q <> QPumpWake -> inv s -> kept Receiver q s (disarmInterruptLocked t s).
Proof.
  intros Hq Hi. unfold disarmInterruptLocked. case_decide; [|by auto with burst]. simpl. case_decide; destruct Hi; sec.
Qed.

Ltac attempt_tac :=
  first [ eexists; split; [by apply lookup_app_l_Some|done]
        | simplify_eq; rewrite length_app; simpl; lia
        | by exfalso; eauto ].

Lemma kept_attempt readable q s :
  q <> QPumpWake -> inv s ->
  kept Receiver q s (fst (attemptLocked readable s)) /\
  match snd (attemptLocked readable s) with
  | Ended e => terminal s <> burstOpen
  | ServesBurst => recvState (fst (attemptLocked readable s)) = burstRecvBurstReading
  | ServesShm t => interrupt (fst (attemptLocked readable s)) = Some t /\
      (t < length (causes (fst (attemptLocked readable s))))%nat
  end.
Proof.
  intros Hq Hi. unfold attemptLocked, failFast, settledOutcomeLocked.
  destruct (terminal s) eqn:Ht; simpl.
  - unfold chooseChannelLocked. destruct (decide (pumpState s = burstPumpPending)) as [Hp|Hp]; simpl.
    + destruct (_ || _); simpl; [split; [|done]; destruct Hi; sec|].
      case_decide; simpl; [|split; [|done]; destruct Hi; sec].
      split; [|split; [done|rewrite length_app; simpl; lia]].
      destruct Hi; sec; attempt_tac.
    + split; [|split; [done|rewrite length_app; simpl; lia]].
      destruct Hi; sec; attempt_tac.
  - split; [by auto with burst|done].
  - destruct (inv_failed _ Hi Ht) as (e & Hf & Hcl & Hc). rewrite Hf.
    destruct (latchedPoison s); simpl; split; auto with burst.
Qed.

(** The pump's sections. *)

Definition pump_out (s : burst) : Prop :=
  (pumpState s = burstPumpWaiting \/ pumpState s = burstPumpStopped) /\ recvState s <> burstRecvBurstReading /\
  pumpDone s = false.

Lemma kept_publish_readiness q s :
  q <> QPumpWake -> inv s -> pump_out s -> kept Pump q s (fst (publishReadinessLocked s)).
Proof.
  intros Hq Hi (Hp & Hr & Hd). unfold publishReadinessLocked. case_decide as Ho; simpl; [|destruct Hi; sec].
  unfold fireInterruptLocked. simpl. destruct (interrupt s) as [t|] eqn:Ht.
  - pose proof (causes_cancel t Interrupted). pose proof (@length_alter cause) as La.
    unfold cancel_attempt. destruct Hi; sec; rewrite ?La; eauto.
  - destruct Hi; sec.
Qed.

Lemma kept_stop_pump q s : q <> QPumpWake -> inv s -> kept Pump q s (with_pumpState burstPumpStopped s).
Proof. intros Hq Hi. destruct Hi; sec. Qed.

Lemma kept_pump_done q s : q <> QPumpWake -> inv s -> kept Pump q s (with_pumpDone true s).
Proof. intros Hq Hi. destruct Hi; sec. Qed.

Lemma kept_end_caller q c s : q <> QPumpWake -> inv s -> kept World q s (end_caller c s).
Proof.
  intros Hq Hi. unfold end_caller.
  assert (Hm : forall (l : list cause) (t : nat) k, l !! t = Some k ->
    exists k', map (fun k => if decide (k = NotEnded) then ByCaller else k) l !! t = Some k' /\ (k <> NotEnded -> k' = k)).
  { intros l t k Hk. rewrite list_lookup_fmap, Hk. simpl. eexists. split; [done|]. intros. by rewrite decide_False. }
  destruct (callerCtx s), c; auto with burst; destruct Hi; sec; rewrite ?length_map; eauto.
Qed.

(** ** Every goroutine keeps to its guarantee *)

Section proofs.
#[local] Arguments pbind : simpl never.
#[local] Arguments proc_bind : simpl never.
#[local] Arguments mbind : simpl never.
#[local] Arguments crit : simpl never.
#[local] Arguments ask : simpl never.

Context (cfg : config) (inlineMax_uint : 0 <= inlineMax cfg).

Definition conforms (f : Frame) : Prop :=
  Kind f = inbound_kind cfg /\ inboundInlineMax cfg < zlen (Payload f) <= ceiling cfg.

Definition holds_gate (r : role) (s : burst) : Prop := exists i, r = Caller i /\ sendGate s = Some i.

(** The attempt [t] parked in shared memory can be reached by the pump, or the
    connection has ended. *)
Definition attempt_live (t : nat) (s : burst) : Prop :=
  (terminal s = burstOpen -> interrupt s = Some t) /\ (t < length (causes s))%nat.

(** Where a goroutine may be at a call. *)
Definition call_permits (r : role) (q : query) (s : burst) : Prop :=
  match q with
  | QWaitReadable => r = Pump /\ recvState s <> burstRecvBurstReading
  | QBurstRecv _ => r = Receiver /\ recvState s = burstRecvBurstReading
  | QShmRecv t _ | QShmView t _ => attempt_live t s
  | QShmSend f => routesToBurst cfg (Kind f) (zlen (Payload f)) = false
  | QShmSendFill f size => routesToBurst cfg (Kind f) size = false
  | QBurstSend f _ =>
      routesToBurst cfg (Kind f) (zlen (Payload f)) = true /\ zlen (Payload f) <= ceiling cfg /\ holds_gate r s
  | QFill size => inlineMax cfg < size <= ceiling cfg /\ holds_gate r s
  | QCommit burstChannelBurst f | QConsume burstChannelBurst f => conforms f
  | QShmClose => pumpDone s = true /\ terminal s <> burstOpen
  | _ => True
  end.

Definition permits (r : role) (q : query) (s : burst) : Prop :=
  (r = Pump -> (pumpState s = burstPumpPending -> q = QPumpWake) /\ pumpDone s = false) /\ call_permits r q s.

Notation stable r L := (Interleave.stable inv Rel r L).
Notation triple r P p Post := (Interleave.triple inv Rel Guar permits r P p Post).

Lemma stable_and r P P' : stable r P -> stable r P' -> stable r (fun s => P s /\ P' s).
Proof. intros H H' s s' ? ? ? [? ?]. split; [by apply (H s s')|by apply (H' s s')]. Qed.
Lemma stable_true r : stable r (fun _ => True).
Proof. done. Qed.
Lemma stable_ended r : stable r (fun s => terminal s <> burstOpen).
Proof. intros s s' _ _ (Hg & _) H. by destruct (grows_terminal _ _ Hg H) as (-> & _). Qed.
Lemma stable_poisoned r : stable r (fun s => latchedPoison s <> None).
Proof.
  intros s s' _ _ (Hg & _) H. destruct (latchedPoison s) eqn:E; [|done]. by rewrite (grows_poison _ _ Hg _ E).
Qed.
Lemma stable_joined r : stable r (fun s => pumpDone s = true).
Proof. intros s s' _ _ (Hg & _) H. by apply (grows_done _ _ Hg). Qed.
Lemma stable_reading : stable Receiver (fun s => recvState s = burstRecvBurstReading).
Proof. intros s s' _ _ (_ & Hr & _) H. by rewrite (spares_recvState _ _ (Hr eq_refl)). Qed.
Lemma stable_attempt t : stable Receiver (attempt_live t).
Proof.
  intros s s' _ _ (Hg & Hr & _) [Hi Hl]. destruct (Hr eq_refl) as [_ _ _ _ Hlen Hint]. split; [|lia].
  intros Ho. destruct Hint as [->|[_ ?]]; [|done]. apply Hi.
  destruct (decide (terminal s = burstOpen)) as [|H]; [done|].
  destruct (grows_terminal _ _ Hg H) as (E & _). congruence.
Qed.
Lemma stable_holding i : stable (Caller i) (fun s => sendGate s = Some i).
Proof. intros s s' _ _ (_ & _ & _ & Hg) H. by apply (Hg i eq_refl). Qed.
Lemma stable_not_holding i : stable (Caller i) (fun s => sendGate s <> Some i).
Proof. intros s s' _ _ (_ & _ & _ & Hg) H H'. by apply H, (Hg i eq_refl). Qed.
Lemma stable_pump_out : stable Pump pump_out.
Proof.
  intros s s' _ _ (_ & _ & Hp & _) (Hst & Hr & Hd). destruct (Hp eq_refl) as [Hw Hs Hread Hdone].
  split_and!; [intuition| |congruence]. intros H. destruct (Hread H) as [?|?]; [done|]. destruct Hst; congruence.
Qed.
Definition pump_stopped (s : burst) : Prop := pumpState s = burstPumpStopped /\ pumpDone s = false.
Lemma stable_pump_stopped : stable Pump pump_stopped.
Proof.
  intros s s' _ _ (_ & _ & Hp & _) [Hst Hd]. destruct (Hp eq_refl) as [Hw Hs Hread Hdone]. split; [auto|congruence].
Qed.
#[local] Hint Resolve stable_and stable_true stable_ended stable_poisoned stable_joined stable_reading stable_attempt
  stable_holding stable_not_holding stable_pump_out stable_pump_stopped : burst.

(** An assertion a goroutine in role [r] can carry across any section. *)
Definition local (r : role) (L : burst -> Prop) : Prop :=
  stable r L /\ (r = Pump -> forall s, inv s -> L s -> pumpState s <> burstPumpPending /\ pumpDone s = false).

Lemma local_and r L P : local r L -> stable r P -> local r (fun s => L s /\ P s).
Proof. intros [H1 H2] HP. split; [auto with burst|]. intros -> s Hi [HL _]. by apply H2. Qed.

Lemma local_other r L : r <> Pump -> stable r L -> local r L.
Proof. by intros ? ?; split. Qed.

Lemma local_out : local Pump pump_out.
Proof. split; [auto with burst|]. intros _ s _ (Hst & _ & Hd). split; [|done]. destruct Hst; congruence. Qed.
Lemma local_stopped : local Pump pump_stopped.
Proof. split; [auto with burst|]. intros _ s _ [Hst Hd]. split; [|done]. congruence. Qed.
#[local] Hint Resolve local_out local_stopped local_and : burst.
#[local] Hint Extern 4 (local _ _) => apply local_other; [done|] : burst.

Lemma local_permits r L q s :
  local r L -> inv s -> L s -> call_permits r q s -> permits r q s.
Proof. intros [_ Hp] Hi HL Hq. split; [|done]. intros E. destruct (Hp E s Hi HL). by split. Qed.

Lemma kept_Rel r q s s' : kept World q s s' -> Rel r s s'.
Proof.
  intros [(Hg & Hr & Hp & Hc & _) _]. split_and!; [done|by intros _; apply Hr|by intros _; apply Hp|].
  intros i _. by apply Hc.
Qed.

(** A section of the goroutine's own. *)
Lemma t_own {A} r L q (f : burst -> burst * A) (Post : A -> burst -> Prop) :
  local r L -> (forall s, call_permits r q s) ->
  (forall s, inv s -> L s -> kept r q s (fst (f s)) /\ Post (snd (f s)) (fst (f s))) ->
  triple r L (section q f) Post.
Proof.
  intros HL Hq H. apply triple_crit; [apply HL|]. intros s Hi Hs. destruct (H s Hi Hs) as [[? ?] ?].
  split_and!; try done. by eapply local_permits.
Qed.

(** A section any goroutine may run: it carries [L] along. *)
Lemma t_any {A} r L q (f : burst -> burst * A) (Post : A -> burst -> Prop) :
  local r L -> (forall s, call_permits r q s) ->
  (forall s, inv s -> L s -> (forall r', kept r' q s (fst (f s))) /\ Post (snd (f s)) (fst (f s))) ->
  triple r L (section q f) (fun a s => L s /\ Post a s).
Proof.
  intros HL Hq H. apply t_own; [done..|]. intros s Hi Hs. destruct (H s Hi Hs) as [Hk ?].
  split; [done|]. split; [|done]. apply (proj1 HL s); [done|apply (Hk World)|apply kept_Rel with q, Hk|done].
Qed.

Lemma t_read {A} r L q (f : burst -> A) :
  local r L -> (forall s, call_permits r q s) -> q <> QPumpWake ->
  triple r L (read q f) (fun a s => L s).
Proof. intros HL Hq Hw. apply t_own; [done..|]. simpl. intros. auto with burst. Qed.

Lemma t_ask {A} r L q (d : answer -> option A) :
  local r L -> q <> QPumpWake -> (forall s, inv s -> L s -> call_permits r q s) ->
  triple r L (ask q d) (fun _ => L).
Proof.
  intros HL Hw H. apply triple_ask; [apply HL|]. intros s Hi Hs. split; [|auto with burst].
  eapply local_permits; eauto.
Qed.

Lemma t_pre {A} r (P P' : burst -> Prop) (p : bproc A) Post :
  triple r P p Post -> (forall s, inv s -> P' s -> P s) -> triple r P' p Post.
Proof. intros H HP. eapply triple_conseq; [done..|]. auto. Qed.

Lemma t_post {A} r (P : burst -> Prop) (p : bproc A) (Post Post' : A -> burst -> Prop) :
  triple r P p Post -> (forall a s, inv s -> Post a s -> Post' a s) -> triple r P p Post'.
Proof. intros H HP. eapply triple_conseq; [done|auto|done]. Qed.

Lemma t_keep {A} r (P L : burst -> Prop) (p : bproc A) (Post : A -> burst -> Prop) :
  triple r P p (fun a s => L s /\ Post a s) -> triple r P p (fun _ => L).
Proof. intros H. eapply t_post; [done|]. by intros ? ? _ [? ?]. Qed.

Lemma t_ret {A} r (a : A) (P : burst -> Prop) : triple r P (mret a : bproc A) (fun _ => P).
Proof. by apply triple_ret. Qed.

Lemma t_fmap {A B} r (g : A -> B) (p : bproc A) (P : burst -> Prop) Mid (Post : B -> burst -> Prop) :
  triple r P p Mid -> (forall a s, inv s -> Mid a s -> Post (g a) s) -> triple r P (g <$> p) Post.
Proof.
  intros H HP. change (triple r P (p ≫= (fun a => mret (g a) : bproc B)) Post).
  eapply triple_bind; [done|]. intros a. apply triple_ret. auto.
Qed.

(** *** The shared subroutines *)

Lemma t_cancel r L tok : local r L -> triple r L (cancel_token tok) (fun _ => L).
Proof.
  intros HL. destruct tok as [t|]; [|apply t_ret]. eapply t_post; [apply (t_any r L _ _ (fun _ _ => True))|]; try done.
  - intros. split; [|done]. intros. by apply kept_cancel.
  - by (intros a0 s0 H0 H1; destruct H1).
Qed.

Lemma t_on_fatal r L e :
  local r L -> Is (Some e) ErrPoisoned = true ->
  triple r L (onFatal e) (fun _ s => L s /\ latchedPoison s <> None).
Proof.
  intros HL He. eapply triple_bind; [|intros tok].
  - apply (t_any r L _ _ (fun _ s => latchedPoison s <> None)); [done..|].
    intros s Hi _. split; [intros r'; by apply (kept_on_fatal r' QOnFatal e s)|by apply (kept_on_fatal r QOnFatal e s)].
  - by apply t_cancel, local_and; auto with burst.
Qed.

Lemma t_observe r L e : local r L -> triple r L (Observe e) (fun _ => L).
Proof.
  intros HL. destruct e as [e|]; [|apply t_ret]. unfold Observe. destruct (Is _ _) eqn:He; [|apply t_ret].
  eapply triple_bind; [|intros tell].
  - apply (t_any r L _ _ (fun _ _ => True)); [done..|]. intros. split; [|done]. intros. by apply kept_observe.
  - destruct tell; [|eapply t_pre; [apply t_ret|by (intros s0 H0 H1; destruct H1)]].
    eapply triple_bind; [eapply t_pre; [by apply t_on_fatal|by (intros s0 H0 H1; destruct H1)]|]. intros ?. cbv beta.
    eapply t_post; [apply (t_any r _ _ _ (fun _ _ => True))|]; [by apply local_and; auto with burst|done|..].
    + intros s Hi [_ Hp]. split; [|done]. intros. by apply kept_latch_record.
    + by (intros a0 s0 H0 H1; destruct H1 as [[? ?] ?]).
Qed.

Lemma t_operation r L e : local r L -> triple r L (operationResult e) (fun _ => L).
Proof. intros HL. eapply triple_bind; [by apply t_read|]. intros. apply t_ret. Qed.

Lemma t_send_result r L e : local r L -> triple r L (burstSendResult e) (fun _ => L).
Proof.
  intros HL. destruct e as [e|]; [|apply t_ret]. eapply triple_bind; [by apply t_observe|]. intros ?. by apply t_operation.
Qed.

Lemma t_receive_result r L e : local r L -> triple r L (receiveResult e) (fun _ => L).
Proof.
  intros HL. destruct e as [e|]; [|apply t_ret]. eapply triple_bind; [by apply t_read|]. intros c. cbv beta.
  destruct (Uds.ctx_err c); [apply t_ret|]. destruct (IsFrameLocalRecvErr _); [apply t_ret|by apply t_operation].
Qed.

Lemma t_publish r L st e cl :
  local r L -> st = burstFailed /\ (exists e', e = Some e' /\ cl = burstFailureClassOf e') \/ st = burstLocallyClosing /\ e = None ->
  triple r L (publishTerminal st e cl) (fun _ s => L s /\ terminal s <> burstOpen).
Proof.
  intros HL Hst. eapply triple_bind; [|intros a].
  - apply (t_any r L _ _ (fun _ s => terminal s <> burstOpen)); [done..|].
    intros s Hi _. split; [intros r'; split; by apply (sec_publish r' QPublishTerminal)|by apply (sec_publish r QPublishTerminal)].
  - by apply t_cancel, local_and; auto with burst.
Qed.

Lemma t_fail r L e : local r L -> triple r L (failConnection e) (fun _ s => L s /\ terminal s <> burstOpen).
Proof. intros HL. apply t_publish; [done|]. left. eauto. Qed.

Lemma t_fail_fast r L : local r L -> triple r L failFastErr (fun _ => L).
Proof. intros HL. by apply t_read. Qed.

Lemma t_poison r L e : local r L -> triple r L (poisonBurst e) (fun _ => L).
Proof. intros HL. eapply triple_bind; [by apply t_observe|]. intros ?. by apply t_operation. Qed.

Lemma t_call_burst r L q :
  local r L -> q <> QPumpWake -> (forall s, inv s -> L s -> call_permits r q s) ->
  triple r L (call_burst q) (fun _ => L).
Proof.
  intros HL Hq H. eapply triple_bind; [by apply t_ask|]. intros a. eapply triple_bind; [by apply t_observe|].
  intros. apply t_ret.
Qed.

#[local] Hint Resolve t_cancel t_on_fatal t_observe t_operation t_send_result t_receive_result t_fail_fast t_poison : burst.

(** *** Senders and closers *)

Section callers.
Context (i : nat).
Notation r := (Caller i).
Notation out := (fun s => sendGate s <> Some i).
Notation held := (fun s => sendGate s = Some i).

Lemma t_release : triple r held release (fun _ => out).
Proof.
  apply t_own; [auto with burst|done|]. intros s Hi Hs. split; [by apply kept_release|done].
Qed.

(** What the gate's admission leaves: held on success only. *)
Definition admitted (e : option error) (s : burst) : Prop :=
  match e with None => sendGate s = Some i | Some _ => sendGate s <> Some i end.

Lemma t_send_ctx L : local r L -> triple r L sendCtx (fun _ => L).
Proof. intros. by apply t_ask. Qed.

Lemma t_await_gate : triple r out (await_gate i) admitted.
Proof.
  apply triple_act; [auto with burst|intros; eapply local_permits with (L := out); auto with burst; done|].
  intros s x Hi Hs. assert (Hk : kept r QGate s s) by auto with burst.
  destruct x; simpl; try (split_and!; [apply Hk|done|done]).
  destruct (Uds.ctx_err c); simpl; [split_and!; [apply Hk|done|]; apply triple_ret; by intros ? _ <-|].
  destruct (kept_try_gate i QGate s) as [HG HI]; [done..|]. unfold try_gate in *.
  destruct (sendGate s) eqn:E; simpl in *; (split_and!; [done..|]); [by rewrite E|].
  apply triple_ret. by intros ? _ <-.
Qed.

Lemma t_enter_gate : triple r out (enterSendGate i) admitted.
Proof.
  assert (Hl : local r out) by auto with burst.
  eapply triple_bind; [by apply t_send_ctx|]. intros [e|]; [apply (t_ret r (Some e) out)|].
  eapply (triple_bind _ _ _ _ _ _ _ _ (fun (b : bool) s => if b then held s else out s)).
  { apply t_own; [done..|]. intros s Hi Hs. split; [by apply kept_try_gate|].
    unfold try_gate. destruct (sendGate s) eqn:E; simpl; congruence. }
  intros got. eapply (triple_bind _ _ _ _ _ _ _ _ admitted).
  { destruct got; [apply (t_ret r (@None error) held)|apply t_await_gate]. }
  intros [e|]; [apply (t_ret r (Some e) out)|]. eapply triple_bind; [apply (t_send_ctx held); auto with burst|].
  intros [e|]; [|apply (t_ret r (@None error) held)].
  eapply triple_bind; [apply t_release|]. intros ?. apply (t_ret r (Some e) out).
Qed.

Lemma t_burst_send size body :
  inlineMax cfg < size ->
  (size <= ceiling cfg -> triple r held body (fun _ => held)) ->
  triple r out (burst_send cfg i size body) (fun _ => out).
Proof.
  intros Hin Hb. unfold burst_send, checkCeiling. destruct (ceiling cfg <? size) eqn:E; [apply t_ret|].
  apply Z.ltb_ge in E. assert (Hl : local r out) by auto with burst. assert (Hh : local r held) by auto with burst.
  eapply triple_bind.
  { eapply t_keep, (t_any r out _ _ (fun _ _ => True)); [done..|].
    intros. split; [|done]. intros. by apply kept_routed. }
  intros ?. eapply triple_bind; [apply t_enter_gate|]. intros [e|]; [apply (t_ret r (Some e) out)|].
  eapply triple_bind; [by apply (t_fail_fast r held)|]. intros e.
  eapply triple_bind; [destruct e; [apply (t_ret r _ held)|by apply Hb]|]. intros x.
  eapply triple_bind; [apply t_release|]. intros ?. apply t_ret.
Qed.

Lemma routes_spec kind size :
  routesToBurst cfg kind size = true <->
  (kind = FrameUnaryReq \/ kind = FrameUnaryResp) /\ inlineMax cfg < size.
Proof.
  unfold routesToBurst. destruct (Z.eqb_spec kind FrameUnaryReq), (Z.eqb_spec kind FrameUnaryResp); simpl;
    rewrite ?Z.ltb_lt; intuition; simplify_eq.
Qed.

Lemma t_send f : triple r out (Send cfg i f) (fun _ => out).
Proof.
  assert (Hl : local r out) by auto with burst. assert (Hh : local r held) by auto with burst.
  eapply triple_bind; [by apply t_fail_fast|]. intros [e|]; [apply t_ret|].
  destruct (routesToBurst _ _ _) eqn:E; simpl; [|by apply t_ask]. pose proof E as [_ Hin]%routes_spec.
  apply t_burst_send; [done|]. intros Hc. eapply triple_bind; [|intros x; by apply (t_send_result r held)].
  apply t_call_burst; [done..|]. intros s _ Hg. split_and!; [done..|]. exists i. done.
Qed.

Lemma t_send_reporting f : triple r out (SendReporting f) (fun _ => out).
Proof.
  eapply triple_bind; [by apply t_fail_fast; auto with burst|]. intros [e|]; [apply t_ret|].
  apply t_ask; [auto with burst|done..].
Qed.

Lemma t_send_fill f size : triple r out (SendPayloadFill cfg i f size) (fun _ => out).
Proof.
  assert (Hl : local r out) by auto with burst. assert (Hh : local r held) by auto with burst.
  eapply triple_bind; [by apply t_fail_fast|]. intros [e|]; [apply t_ret|].
  destruct (routesToBurst _ _ _) eqn:E; simpl; [|by apply t_ask]. pose proof E as [Hk Hin]%routes_spec.
  apply t_burst_send; [done|]. intros Hc.
  eapply (triple_bind _ _ _ _ _ _ _ _ (fun d s => held s /\ match d with inl b => length b = Z.to_nat size | inr _ => True end)).
  { eapply triple_bind; [apply (t_ask r held); [done..|]|].
    - intros s _ Hg. split; [done|]. exists i. done.
    - intros a. apply triple_ret. intros s _ Hg. split; [done|]. destruct a; [|done..]. apply length_resize. }
  intros [dst|ferr]; [|eapply t_pre; [apply (t_ret r _ held)|by (intros s0 H0 H1; destruct H1)]].
  intros s Hi [Hg Hd]. revert s Hi Hg. eapply triple_bind; [|intros x; by apply (t_send_result r held)].
  apply t_call_burst; [done..|]. intros s _ Hg. simpl. rewrite routes_spec. unfold zlen. rewrite Hd.
  rewrite Z2Nat.id by lia. split_and!; [done..|]. exists i. done.
Qed.
Lemma t_stop_writer : triple r out StopWriter (fun _ s => out s /\ terminal s <> burstOpen).
Proof.
  assert (Hl : local r (fun s => out s /\ terminal s <> burstOpen)) by auto with burst.
  eapply triple_bind; [apply t_publish; [by auto with burst|by right]|]. intros ?. cbv beta.
  eapply triple_bind; [by apply t_ask|]. intros ?. eapply triple_bind; [by apply t_ask|]. intros ?. apply t_ret.
Qed.

Lemma t_close : triple r out Close (fun _ => out).
Proof.
  assert (Hl : local r (fun s => out s /\ terminal s <> burstOpen)) by auto with burst.
  eapply triple_bind; [apply t_stop_writer|]. intros ?. cbv beta. eapply triple_bind.
  { eapply t_keep, (t_any r _ _ _ (fun _ _ => True)); [exact Hl|done|]. intros s Hi [_ Ho].
    split; [|done]. intros. by apply kept_end_receive. }
  intros ?. cbv beta. eapply (triple_bind _ _ _ _ _ _ _ _ (fun _ s => (out s /\ terminal s <> burstOpen) /\ pumpDone s = true)).
  { apply triple_act; [apply Hl|intros; by eapply local_permits|]. intros s x Hi Hs.
    assert (Hk : kept r QJoin s s) by auto with burst. simpl. split_and!; [apply Hk|done|].
    destruct (pumpDone s) eqn:E; [|done]. apply triple_ret. by intros ? _ <-. }
  intros ?. eapply triple_bind.
  { apply t_ask; [by apply local_and; auto with burst|done|]. by intros s _ [[_ ?] ?]. }
  intros ?. apply triple_ret. by intros s _ [[? _] _].
Qed.

Lemma t_run_op o : triple r out (run_op cfg i o) (fun _ => out).
Proof.
  destruct o; cbn [run_op]; (eapply t_fmap; [|by intros ? ? _ H; exact H]).
  - apply t_send.
  - apply t_send_fill.
  - apply t_send_reporting.
  - eapply t_keep, t_stop_writer.
  - apply t_close.
  - apply t_observe. auto with burst.
Qed.

Lemma t_caller os : triple r out (run_ops cfg i os) (fun _ => out).
Proof.
  induction os as [|o os IH]; simpl; [apply t_ret|]. eapply triple_bind; [apply t_run_op|]. by intros ?.
Qed.

End callers.

(** *** The pump *)

Definition pump_post (a : result) (s : burst) : Prop :=
  match a with
  | RPump true => pump_out s
  | RPump false => pump_stopped s
  | RStop => pumpState s = burstPumpStopped
  | _ => False
  end.

Lemma stable_pump_ended : stable Pump (fun s => pumpState s = burstPumpStopped).
Proof. intros s s' _ _ (_ & _ & Hp & _) Hs. by apply (spares_stopped _ _ (Hp eq_refl)). Qed.
#[local] Hint Resolve stable_pump_ended : burst.

Definition pump_turn (b : bool) (s : burst) : Prop := if b then pump_out s else pump_stopped s.

Lemma t_end_pump e : triple Pump pump_out (endPump e) (fun _ => pump_stopped).
Proof.
  eapply (triple_bind _ _ _ _ _ _ _ _ (fun _ => pump_out)).
  { destruct (isBurstTeardownErr e); [apply t_ret|]. eapply t_keep, t_fail. auto with burst. }
  intros ?. apply t_own; [auto with burst|done|]. intros s Hi (_ & _ & Hd). split; [by apply kept_stop_pump|done].
Qed.

Lemma t_await_service : triple Pump (fun s => pumpDone s = false) await_service pump_turn.
Proof.
  apply triple_act.
  - intros s s' _ _ (_ & _ & Hp & _) Hd. rewrite <- Hd. by apply (spares_done _ _ (Hp eq_refl)).
  - intros s _ Hd. split; [|done]. by intros _.
  - intros s x Hi Hd. unfold pumpWakeLocked. destruct (pumpState s) eqn:Hp; simpl.
    + destruct (kept_wake_idle Pump s) as [? ?]; [done|congruence|]. split_and!; [done..|].
      apply triple_ret. intros ? _ <-. split_and!; [by left| |done]. apply (inv_reading _ Hi). by left.
    + destruct (kept_wake_fire Pump s) as [? ?]; [done..|]. split_and!; [done..|].
      unfold fireInterruptLocked. by destruct (interrupt s).
    + destruct (kept_wake_idle Pump s) as [? ?]; [done|congruence|]. by split_and!.
    + destruct (kept_wake_idle Pump s) as [? ?]; [done|congruence|]. split_and!; [done..|].
      apply triple_ret. by intros ? _ <-.
Qed.

Lemma t_run_pump : triple Pump pump_out runPump pump_turn.
Proof.
  eapply triple_bind; [apply t_ask; [auto with burst|done|]|].
  { intros s _ (_ & ? & _). by split. }
  intros [e|].
  - eapply triple_bind; [apply t_end_pump|]. intros ?. apply (t_ret Pump false pump_stopped).
  - eapply (triple_bind _ _ _ _ _ _ _ _ (fun (b : bool) s => if b then pumpDone s = false else pump_stopped s)).
    { apply t_own; [auto with burst|done|]. intros s Hi Ho. split; [by apply kept_publish_readiness|].
      destruct Ho as (_ & _ & Hd). unfold publishReadinessLocked. case_decide; simpl; [|done].
      unfold fireInterruptLocked. simpl. by destruct (interrupt s). }
    intros [|]; [apply t_await_service|apply (t_ret Pump false pump_stopped)].
Qed.

Lemma t_pump : triple Pump pump_out (RPump <$> runPump) pump_post.
Proof.
  eapply t_fmap; [apply t_run_pump|]. by intros [|].
Qed.

Lemma pump_looped : looped inv Rel Guar permits (fun r => match r with Pump => pump_post | _ => fun _ _ => True end) Pump pump.
Proof.
  intros [ | | | [|] | | ] p; simpl; intros [= <-]; [apply t_pump|].
  eapply (triple_bind _ _ _ _ _ _ _ _ (fun _ s => pumpState s = burstPumpStopped)); [|intros ?; by apply triple_ret].
  apply t_own; [auto with burst|done|]. intros s Hi [Hs _]. split; [by apply kept_pump_done|done].
Qed.

(** *** The receiver *)

Notation tt_ := (fun _ : burst => True).

Lemma t_mine q (f : burst -> burst) :
  (forall s, call_permits Receiver q s) -> (forall s, inv s -> kept Receiver q s (f s)) ->
  triple Receiver tt_ (update q f) (fun _ => tt_).
Proof. intros Hq Hk. apply t_own; [auto with burst|done|]. simpl. auto. Qed.

Lemma t_origin L f :
  local Receiver L ->
  triple Receiver L (checkBurstOrigin cfg f) (fun e s => L s /\ (e = None -> conforms f)).
Proof.
  intros HL. unfold checkBurstOrigin.
  assert (Hp : forall b : bool, (b = false -> conforms f) ->
    triple Receiver L (if b then poisonBurst [ErrPoisoned] else mret None) (fun e s => L s /\ (e = None -> conforms f))).
  { intros [] Hb; [|apply triple_ret; auto]. unfold poisonBurst. eapply triple_bind; [by apply t_observe|]. intros ?.
    eapply triple_bind; [by apply t_read|]. intros o. apply triple_ret. intros s _ Hs. split; [done|].
    unfold operationErr. by destruct (o_terminal o), (o_poison o). }
  destruct (Z.eqb_spec (Kind f) (inbound_kind cfg)) as [Hk|Hk]; simpl; [|by apply (Hp true)].
  destruct (Z.leb_spec (zlen (Payload f)) (inboundInlineMax cfg)); simpl; [by apply (Hp true)|].
  destruct (Z.ltb_spec (ceiling cfg) (zlen (Payload f))); simpl; [by apply (Hp true)|].
  apply (Hp false). intros _. by split.
Qed.

Lemma t_read_burst res :
  triple Receiver (fun s => recvState s = burstRecvBurstReading) (readBurst cfg res)
    (fun r _ => match r with inl f => conforms f | inr _ => True end).
Proof.
  assert (HL : local Receiver (fun s => recvState s = burstRecvBurstReading)) by auto with burst.
  eapply triple_bind.
  { eapply triple_bind; [by apply t_ask|]. intros a. eapply triple_bind; [by apply t_observe|]. intros ?. apply t_ret. }
  intros r0. eapply (triple_bind _ _ _ _ _ _ _ _
    (fun (r : Frame + error) s => recvState s = burstRecvBurstReading /\ match r with inl f => conforms f | inr _ => True end)).
  { destruct r0 as [f|e].
    - eapply triple_bind; [by apply t_origin|]. intros e. apply triple_ret.
      intros s _ [? Hc]. destruct e; auto.
    - unfold remapBurstRecvErr. eapply (triple_bind _ _ _ _ _ _ _ _ (fun _ s => recvState s = burstRecvBurstReading)).
      + destruct (IsFrameLocalRecvErr _); [by apply t_poison|apply t_ret].
      + intros ?. apply triple_ret. auto. }
  intros r. intros s Hi [Hr Hc]. revert s Hi Hr. eapply triple_bind.
  { apply t_own with (Post := fun _ => tt_); [done..|]. intros. split; [by apply kept_end_service|done]. }
  intros ?. apply triple_ret. auto.
Qed.

Lemma local_tt : local Receiver tt_.
Proof. auto with burst. Qed.
#[local] Hint Resolve local_tt : burst.

Lemma t_resolve_failure e ch : triple Receiver tt_ (resolveFailure e ch) (fun _ => tt_).
Proof.
  unfold resolveFailure. destruct (IsFrameLocalRecvErr _).
  - eapply triple_bind; [apply t_mine; [done|]; intros; by apply kept_record|]. intros ?. auto with burst.
  - eapply (triple_bind _ _ _ _ _ _ _ _ (fun _ => tt_)); [|intros ?; auto with burst].
    destruct (isBurstTeardownErr e); [apply t_ret|]. eapply t_keep, t_fail, local_tt.
Qed.

Lemma t_consume_burst f : conforms f -> triple Receiver tt_ (consumeBurstFrame f) (fun _ => tt_).
Proof.
  intros Hf. eapply triple_bind; [apply t_ask; [by auto with burst|done|auto]|]. intros a. cbv beta.
  destruct (Receive.ProtectedConsume _ _) as [[] err]; [apply t_ret|by apply t_poison, local_tt|].
  eapply triple_bind; [apply t_mine; [done|]; intros; by apply kept_faults|]. intros ?. auto with burst.
Qed.

Lemma t_deliver f req ch :
  (by_view req = true \/ ch = burstChannelBurst -> conforms f) -> triple Receiver tt_ (deliver f req ch) (fun _ => tt_).
Proof.
  intros Hf. eapply (triple_bind _ _ _ _ _ _ _ _ (fun _ => tt_)).
  { apply t_own; [auto with burst|destruct ch; simpl; auto|]. intros. split; [by apply kept_commit|done]. }
  intros [e|].
  - eapply triple_bind; [apply t_receive_result, local_tt|]. intros ?. apply t_ret.
  - eapply (triple_bind _ _ _ _ _ _ _ _ (fun _ => tt_)).
    + destruct (by_view req); [|apply t_ret]. eapply triple_bind; [by apply t_consume_burst, Hf; left|]. intros ?. apply t_ret.
    + intros ?. eapply triple_bind; [apply t_mine; [done|]; intros; by apply kept_end_delivery|]. intros ?. apply t_ret.
Qed.

Lemma t_serve_burst req :
  triple Receiver (fun s => recvState s = burstRecvBurstReading) (serveBurst cfg req) (fun _ => tt_).
Proof.
  eapply triple_bind; [apply t_read_burst|]. intros [f|e].
  - intros s Hi Hf. apply (t_deliver f req burstChannelBurst); done.
  - eapply t_pre; [|intros ? ? _; exact Logic.I].
    eapply triple_bind; [apply t_resolve_failure|]. intros ?. apply t_ret.
Qed.

Lemma t_resolve_shm t e : triple Receiver tt_ (resolveShmErr t e) (fun _ => tt_).
Proof.
  unfold resolveShmErr. destruct (isBurstContextErr e); [|apply t_resolve_failure].
  eapply triple_bind; [apply t_read; [by auto with burst|done..]|]. intros c. cbv beta. case_decide.
  - eapply triple_bind; [apply t_mine; [done|]; intros; by apply kept_forfeit|]. intros ?. apply t_ret.
  - eapply triple_bind; [apply t_read; [by auto with burst|done..]|]. intros cc. cbv beta.
    destruct (Uds.ctx_err cc); [|apply t_resolve_failure]. destruct (forallb _ _); [auto with burst|apply t_ret].
Qed.

Lemma t_wrapped f : triple Receiver tt_ (wrapped_consume f) (fun _ => tt_).
Proof.
  eapply (triple_bind _ _ _ _ _ _ _ _ (fun _ => tt_)).
  { apply t_own; [auto with burst|done|]. intros. split; [by apply kept_commit|done]. }
  intros [e|]; [apply t_ret|]. eapply triple_bind; [apply t_ask; [by auto with burst|done|auto]|]. intros ?.
  eapply triple_bind; [apply t_mine; [done|]; intros; by apply kept_end_delivery|]. intros ?. apply t_ret.
Qed.

Lemma t_serve_view t req : triple Receiver (attempt_live t) (serveShmView t req) (fun _ => tt_).
Proof.
  eapply triple_bind; [apply t_ask; [by auto with burst|done|auto]|]. intros v. eapply t_pre; [|intros ? ? _; exact Logic.I].
  eapply (triple_bind _ _ _ _ _ _ _ _ (fun _ => tt_)).
  { destruct v as [f|e]; [|apply t_ret]. eapply triple_bind; [apply t_wrapped|]. intros w.
    eapply triple_bind; [apply t_ask; [by auto with burst|done|auto]|]. intros ?. apply t_ret. }
  intros [[c|] [e|]]; try apply t_ret; auto with burst. apply t_resolve_shm.
Qed.

Lemma t_serve_shm t req : triple Receiver (attempt_live t) (serveShm t req) (fun _ => tt_).
Proof.
  unfold serveShm. destruct (by_view req) eqn:Hv.
  { eapply triple_bind; [apply t_serve_view|]. intros ?. apply t_ret. }
  eapply triple_bind; [apply t_ask; [by auto with burst|done|auto]|]. intros v. eapply t_pre; [|intros ? ? _; exact Logic.I].
  destruct v as [f|e]; [apply t_deliver; intros [|]; congruence|].
  eapply triple_bind; [apply t_resolve_shm|]. intros ?. apply t_ret.
Qed.

Lemma t_receive_once req : triple Receiver tt_ (receiveOnce cfg req) (fun _ => tt_).
Proof.
  eapply (triple_bind _ _ _ _ _ _ _ _ (fun a s => match a with
    | Ended _ => True
    | ServesBurst => recvState s = burstRecvBurstReading
    | ServesShm t => attempt_live t s end)).
  { apply triple_act; [auto with burst|intros; eapply local_permits; by auto with burst|]. intros s x Hi _.
    assert (Hk : kept Receiver QAttempt s s) by auto with burst.
    destruct x; try (split_and!; [apply Hk|done|done]).
    destruct (kept_attempt b QAttempt s) as [[HG HI] Ha]; [done..|].
    destruct (attemptLocked b s) as [s' a]; simpl in *. split_and!; [done..|].
    apply triple_ret. intros ? _ <-. destruct a; [done|done|]. by destruct Ha. }
  intros [e| |t].
  - eapply triple_bind; [apply t_receive_result, local_tt|]. intros ?. apply t_ret.
  - apply t_serve_burst.
  - eapply triple_bind; [apply t_serve_shm|]. intros r.
    eapply triple_bind; [apply t_mine; [done|]; intros; by apply kept_disarm|]. intros ?.
    eapply triple_bind; [apply t_mine; [done|]; intros; by apply kept_cancel|]. intros ?. apply t_ret.
Qed.

Lemma t_next_receive : triple Receiver tt_ (next_receive cfg) (fun _ => tt_).
Proof.
  eapply (triple_bind _ _ _ _ _ _ _ _ (fun _ => tt_)).
  { apply triple_act; [auto with burst|intros; eapply local_permits; by auto with burst|]. intros s x Hi _.
    assert (Hk : kept Receiver QNextRecv s s) by auto with burst.
    destruct x; try (split_and!; [apply Hk|done|done]).
    destruct (kept_next_recv QNextRecv c s) as [? ?]; [done..|]. simpl. split_and!; [done..|]. by apply triple_ret. }
  intros req. eapply triple_bind; [apply t_receive_once|]. intros ?. apply t_ret.
Qed.

Lemma t_receive req o : triple Receiver tt_ (receive cfg req o) (fun _ => tt_).
Proof.
  unfold receive. destruct (Is _ _).
  - eapply triple_bind; [apply t_receive_once|]. intros ?. apply t_ret.
  - apply t_ask; [by auto with burst|done|auto].
Qed.

(** ** The system *)

Definition role_post (r : role) (a : result) (s : burst) : Prop :=
  match r with
  | Pump => pump_post a s
  | Caller i => sendGate s <> Some i
  | _ => True
  end.

Lemma role_post_stable r a : stable r (role_post r a).
Proof.
  destruct r; simpl; auto with burst.
  destruct a as [ | | |[|]| | ]; simpl; auto with burst; by intros ? ? _ _ _ [].
Qed.

Lemma attached_inv fed : (forall e, fed = Some e -> Is (Some e) ErrPoisoned = true) -> inv (attached fed).
Proof.
  intros Hf. destruct fed as [e|]; unfold attached; simpl.
  - pose proof (Hf e eq_refl) as He.
    assert (Hcl : BurstFailurePoisoned = burstFailureClassOf e) by (unfold burstFailureClassOf; by rewrite He).
    rec_split.
  - rec_split.
Qed.

Lemma attached_start fed : pump_out (attached fed) /\ forall i, sendGate (attached fed) <> Some i.
Proof. destruct fed; unfold attached, pump_out; simpl; split_and!; auto. Qed.

Notation sys_ok := (pool_ok inv Rel Guar permits role_of role_post).

Lemma compatible i j q s s' : i <> j -> inv s -> inv s' -> Guar (role_of i) q s s' -> Rel (role_of j) s s'.
Proof. intros. by eapply Guar_Rel. Qed.

Lemma system_start fed ops :
  (forall e, fed = Some e -> Is (Some e) ErrPoisoned = true) -> sys_ok (system cfg fed ops).
Proof.
  intros Hf. pose proof (attached_inv fed Hf) as Hi. destruct (attached_start fed) as [Hp Hg].
  split; [done|]. simpl. intros [|[|[|i]]] g; simpl.
  - intros [= <-]. eapply keeps_start with (P := fun _ => True); [apply role_post_stable|..|done|done].
    + intros a p. destruct a; intros [= <-]; [apply t_receive|apply t_next_receive].
    + apply t_next_receive.
  - intros [= <-]. eapply keeps_start; [apply role_post_stable| |apply t_pump|done..]. apply pump_looped.
  - intros [= <-]. eapply keeps_start with (P := fun _ => True); [apply role_post_stable|done| |done|done].
    apply triple_act; [auto with burst|intros; by split|]. intros s x Hs _. simpl.
    destruct x; try (by split_and!; auto with burst).
    destruct (kept_end_caller QWorld c s) as [? ?]; auto.
  - rewrite list_lookup_imap. destruct (ops !! i) as [os|] eqn:E; simpl; intros [= <-].
    eapply keeps_start; [apply role_post_stable|done|apply (t_caller (S (S (S i))))|done|apply Hg].
Qed.

Lemma system_ok fed ops ms :
  (forall e, fed = Some e -> Is (Some e) ErrPoisoned = true) -> sys_ok (prun ms (system cfg fed ops)).
Proof.
  intros Hf. apply pool_ok_run; [apply compatible|apply role_post_stable|by apply system_start].
Qed.

Lemma system_grows (c : pool burst query answer result) ms : sys_ok c -> grows (snd c) (snd (prun ms c)).
Proof.
  intros Hc. eapply (pool_ok_rel inv Rel Guar permits role_of role_post); try done.
  - apply compatible.
  - apply role_post_stable.
  - apply grows_refl.
  - apply settled_grows_trans.
  - by intros r q s s' _ _ _ [? _].
Qed.

End proofs.

(** ** What every schedule keeps

    [reaches cfg c]: the configuration [c] is reached by some schedule from a
    composite built over a latch fed nothing, or a poison. *)

Definition reaches (cfg : config) (c : pool burst query answer result) : Prop :=
  exists fed ops ms, (forall e, fed = Some e -> Is (Some e) ErrPoisoned = true) /\ c = prun ms (system cfg fed ops).

Lemma reaches_ok cfg c :
  0 <= inlineMax cfg -> reaches cfg c -> pool_ok inv Rel Guar (permits cfg) role_of role_post c.
Proof. intros Hm (fed & ops & ms & Hf & ->). by apply system_ok. Qed.

Lemma reaches_run cfg c ms : reaches cfg c -> reaches cfg (prun ms c).
Proof. intros (fed & ops & ms' & Hf & ->). exists fed, ops, (ms' ++ ms). by rewrite prun_app. Qed.

(** The answers a connection gives, in one state. *)

Definition answers_closed (s : burst) : Prop :=
  DataPlaneOutcome s = (BurstFailureNone, None) /\ TerminalFailure s = (BurstFailureNone, None) /\ FatalErr s = None /\
  failFast (settledOutcomeLocked s) = Some [ErrClosed] /\
  (forall e, operationErr (settledOutcomeLocked s) e = Some [ErrClosed]) /\
  withheld (settledOutcomeLocked s) = None /\ (recvCause s = None \/ recvCause s = Some [ErrClosed]).

Definition answers_failed (cl : BurstFailureClass) (e first : error) (s : burst) : Prop :=
  DataPlaneOutcome s = (cl, Some e) /\ failFast (settledOutcomeLocked s) = Some e /\
  withheld (settledOutcomeLocked s) = Some e /\ cl = burstFailureClassOf e /\
  TerminalFailure s = (burstFailureClassOf first, Some first) /\ recvCause s = Some first /\
  (forall p, FatalErr s = Some p -> e = p /\ cl = BurstFailurePoisoned /\
     forall e', operationErr (settledOutcomeLocked s) e' = Some p).

Lemma closed_answers s : inv s -> terminal s = burstLocallyClosing -> answers_closed s.
Proof.
  intros Hi Ht. destruct (inv_closing _ Hi Ht) as [Hf Hc].
  unfold answers_closed, DataPlaneOutcome, TerminalFailure, FatalErr, settledOutcomeLocked. rewrite Ht. simpl.
  by split_and!.
Qed.

Lemma failed_answers s :
  inv s -> terminal s = burstFailed ->
  exists cl e first, answers_failed cl e first s /\ failure s = Some first /\
    (latchedPoison s = None /\ e = first \/ latchedPoison s = Some e /\ cl = BurstFailurePoisoned).
Proof.
  intros Hi Ht. destruct (inv_failed _ Hi Ht) as (first & Hf & Hcl & Hc).
  unfold answers_failed, DataPlaneOutcome, TerminalFailure, FatalErr, settledOutcomeLocked. rewrite Ht. simpl.
  destruct (latchedPoison s) as [p|] eqn:Hp; simpl.
  - exists BurstFailurePoisoned, p, first. unfold operationErr. simpl. rewrite Hf, Hcl.
    pose proof (inv_is_poison _ Hi _ Hp) as His. unfold burstFailureClassOf at 1. rewrite His.
    split_and!; try done; [|by right]. intros p' [= <-]. by split_and!.
  - exists (failureClass s), first, first. rewrite Hf, Hcl. split_and!; try done. by left.
Qed.

(** C8: under every schedule of senders, closers, latch feeders, the pump and
    the receiver, how the connection ended is decided once: a local close never
    reports a failure afterwards, whatever poison lands; a failure keeps its
    transition and its wake-up cause, its class changes only once and only to
    poisoned with the poison that was filed, and every answer (owner, sends,
    operations, withheld frames) names that same cause. *)
Theorem burst_outcome_settles_once cfg c ms :
  0 <= inlineMax cfg -> reaches cfg c ->
  let s := snd c in let s' := snd (prun ms c) in
  (latchedPoison s <> None -> terminal s <> burstOpen) /\
  (terminal s = burstOpen -> failFast (settledOutcomeLocked s) = None /\ recvCause s = None) /\
  (terminal s = burstLocallyClosing -> answers_closed s /\ answers_closed s') /\
  (terminal s = burstFailed -> exists cl e first,
     answers_failed cl e first s /\
     (answers_failed cl e first s' \/
      latchedPoison s = None /\ exists p, answers_failed BurstFailurePoisoned p first s')).
Proof.
  intros Hm Hr s s'. pose proof (reaches_ok _ _ Hm Hr) as Hok.
  pose proof (reaches_ok _ _ Hm (reaches_run _ _ ms Hr)) as [Hi' _].
  pose proof (system_grows cfg c ms Hok) as Hg. destruct Hok as [Hi _].
  fold s s' in Hi, Hi', Hg. split_and!.
  - apply (inv_poison_settled _ Hi).
  - intros Ho. split; [|by apply (inv_open _ Hi)]. unfold settledOutcomeLocked, failFast. by rewrite Ho.
  - intros Ht. destruct (grows_terminal _ _ Hg) as (Ht' & _); [congruence|].
    split; apply closed_answers; congruence.
  - intros Ht. destruct (grows_terminal _ _ Hg) as (Ht' & Hf' & _); [congruence|].
    destruct (failed_answers s Hi Ht) as (cl & e & first & Ha & Hf & Hl).
    destruct (failed_answers s' Hi') as (cl' & e' & first' & Ha' & Hf1 & Hl'); [congruence|].
    exists cl, e, first. split; [done|]. assert (first' = first) as -> by congruence.
    destruct Hl as [[Hn ->]|[Hs ->]], Hl' as [[Hn' ->]|[Hs' ->]].
    + left. assert (cl' = cl) as -> by (destruct Ha as (_ & _ & _ & ? & _), Ha' as (_ & _ & _ & ? & _); congruence). done.
    + right. eauto.
    + pose proof (grows_poison _ _ Hg _ Hs). congruence.
    + pose proof (grows_poison _ _ Hg _ Hs). assert (e' = e) as -> by congruence. by left.
Qed.

(** Whose goroutine may be where. *)
Lemma reaches_at cfg c i g q :
  0 <= inlineMax cfg -> reaches cfg c -> fst c !! i = Some g -> at_query g = Some q ->
  permits cfg (role_of i) q (snd c).
Proof. intros Hm Hr. eapply pool_ok_at. by apply reaches_ok. Qed.

Lemma prun_length {R} ms (c : pool burst query answer R) : length (fst (prun ms c)) = length (fst c).
Proof. revert c. induction ms as [|m ms IH]; intros c; [done|]. simpl. rewrite IH. apply pmove_length. Qed.

Lemma reaches_pump cfg c : reaches cfg c -> exists h, fst c !! 1%nat = Some h.
Proof.
  intros (fed & ops & ms & _ & ->). apply lookup_lt_is_Some_2. rewrite prun_length. simpl. lia.
Qed.

Definition is_wait (q : query) : bool := match q with QWaitReadable => true | _ => false end.
Definition is_destructive (q : query) : bool := match q with QBurstRecv _ => true | _ => false end.

(** C9: in every schedule the pump's readiness wait and the destructive read of
    the socket are never in flight together; a destructive read is always
    reported by BoundedReadActive; no frame off the socket reaches the
    arbitration or a consume callback unless its kind and size conform; and the
    shared-memory mapping is released only once the pump has returned for good. *)
Theorem burst_reads_exclusive cfg c i j g h q q' :
  0 <= inlineMax cfg -> reaches cfg c ->
  fst c !! i = Some g -> at_query g = Some q -> fst c !! j = Some h -> at_query h = Some q' ->
  (is_wait q = true -> is_destructive q' = false) /\
  (is_destructive q = true -> BoundedReadActive (snd c) = true /\ i = 0%nat) /\
  (forall f, q = QCommit burstChannelBurst f \/ q = QConsume burstChannelBurst f -> conforms cfg f) /\
  (q = QShmClose -> terminal (snd c) <> burstOpen /\ j <> 1%nat).
Proof.
  intros Hm Hr Hg Hq Hh Hq'.
  pose proof (reaches_at _ _ _ _ _ Hm Hr Hg Hq) as [Hp1 Hc1]. pose proof (reaches_at _ _ _ _ _ Hm Hr Hh Hq') as [Hp2 Hc2].
  split_and!.
  - destruct q; try done. destruct q'; try done. simpl in *. intuition.
  - destruct q; try done. destruct Hc1 as [Hrole Hread]. intros _. split; [by apply bool_decide_eq_true|].
    apply role_of_inj. by rewrite Hrole.
  - by intros f [->| ->].
  - intros ->. destruct Hc1 as [Hd Ho]. split; [done|]. intros ->. destruct (Hp2 eq_refl). congruence.
Qed.

Definition shm_attempt (q : query) : option nat :=
  match q with QShmRecv t _ | QShmView t _ => Some t | _ => None end.

(** C20: published readiness is never lost on a receiver parked in shared memory:
    in every schedule, while the readiness stands unserviced and a receive is
    in flight there, that receive's handle is the one installed, the pump is in
    its wait, and its next wake ends the receive's context, whatever else has
    happened. *)
Theorem burst_readiness_not_lost cfg c g q t x :
  0 <= inlineMax cfg -> reaches cfg c ->
  fst c !! 0%nat = Some g -> at_query g = Some q -> shm_attempt q = Some t ->
  pumpState (snd c) = burstPumpPending ->
  interrupt (snd c) = Some t /\
  exists h, fst c !! 1%nat = Some h /\ at_query h = Some QPumpWake /\ ended t (snd (pmove c (1%nat, x))).
Proof.
  intros Hm Hr Hg Hq Ht Hp. pose proof (reaches_ok _ _ Hm Hr) as Hok.
  assert (Ho : terminal (snd c) = burstOpen).
  { destruct (decide (terminal (snd c) = burstOpen)) as [|H]; [done|].
    destruct Hok as [Hi _]. destruct (inv_ended _ Hi H). congruence. }
  assert (Hint : interrupt (snd c) = Some t).
  { destruct (reaches_at _ _ _ _ _ Hm Hr Hg Hq) as [_ Hc]. destruct q; simplify_eq/=; by apply Hc. }
  split; [done|]. destruct (reaches_pump _ _ Hr) as [h Hh]. exists h. split; [done|].
  assert (Hw : at_query h = Some QPumpWake).
  { unfold at_query. destruct (now h) as [a|q' f] eqn:En.
    - exfalso. pose proof (pool_ok_done _ _ _ _ _ _ _ _ _ _ Hok Hh En) as Hpost.
      destruct a as [ | | |[|]| | ]; simpl in Hpost; try done; [destruct Hpost as [[] _]|destruct Hpost|]; congruence.
    - destruct (reaches_at _ _ _ _ q' Hm Hr Hh) as [Hpump _]; [unfold at_query; by rewrite En|].
      destruct (Hpump eq_refl) as [Hq' _]. by rewrite (Hq' Hp). }
  split; [done|]. pose proof (pool_ok_next _ _ _ _ _ _ _ _ _ _ x Hok Hh Hw) as (_ & _ & _ & _ & Hfire). by apply Hfire.
Qed.

Definition in_gate (q : query) : bool := match q with QFill _ | QBurstSend _ _ => true | _ => false end.

(** In every schedule a frame is routed by kind and size alone, at the call
    that carries it: shared memory gets what is not a unary payload above its
    limit, the socket gets exactly the unary payloads above that limit and at
    most the ceiling, produced by a fill of an admitted size; and at most one
    goroutine at a time is inside a burst fill or a burst send. *)
Theorem burst_sends_routed cfg c i j g h q q' :
  0 <= inlineMax cfg -> reaches cfg c ->
  fst c !! i = Some g -> at_query g = Some q -> fst c !! j = Some h -> at_query h = Some q' ->
  (in_gate q = true -> in_gate q' = true -> i = j /\ sendGate (snd c) = Some i) /\
  match q with
  | QShmSend f => ~ ((Kind f = FrameUnaryReq \/ Kind f = FrameUnaryResp) /\ inlineMax cfg < zlen (Payload f))
  | QShmSendFill f size => ~ ((Kind f = FrameUnaryReq \/ Kind f = FrameUnaryResp) /\ inlineMax cfg < size)
  | QBurstSend f _ => (Kind f = FrameUnaryReq \/ Kind f = FrameUnaryResp) /\ inlineMax cfg < zlen (Payload f) <= ceiling cfg
  | QFill size => inlineMax cfg < size <= ceiling cfg
  | _ => True
  end.
Proof.
  intros Hm Hr Hg Hq Hh Hq'.
  pose proof (reaches_at _ _ _ _ _ Hm Hr Hg Hq) as [_ Hc1]. pose proof (reaches_at _ _ _ _ _ Hm Hr Hh Hq') as [_ Hc2].
  assert (Hgate : forall r q, in_gate q = true -> call_permits cfg r q (snd c) -> holds_gate r (snd c))
    by (intros r []; simpl; intros; try done; tauto).
  split.
  - intros H1 H2. destruct (Hgate _ _ H1 Hc1) as (a & Ha & Ga), (Hgate _ _ H2 Hc2) as (b & Hb & Gb).
    assert (Hrole : forall k n, role_of k = Caller n -> n = k).
    { intros [|[|[|k]]] n; simpl; intros [=]; congruence. }
    apply Hrole in Ha, Hb. subst. split; [congruence|done].
  - destruct q; try done; simpl in Hc1.
    + rewrite <- (routes_spec cfg). by rewrite Hc1.
    + rewrite <- (routes_spec cfg). by rewrite Hc1.
    + destruct Hc1 as (Hr1 & ? & _). apply routes_spec in Hr1. tauto.
    + tauto.
Qed.

(** *** Turns *)

(** What may happen between two of the receiver's turns without taking one:
    the other goroutines, and the receiver's own bookkeeping. *)
Inductive meanwhile : burst -> burst -> Prop :=
| mw_refl s : meanwhile s s
| mw_others s s' s'' : meanwhile s s' -> Rel Receiver s' s'' -> meanwhile s s''
| mw_disarm s s' t : meanwhile s s' -> meanwhile s (disarmInterruptLocked t s')
| mw_over s s' t : meanwhile s s' -> meanwhile s (cancel_attempt t AttemptOver s')
| mw_commit s s' : meanwhile s s' -> meanwhile s (fst (commitDeliveryLocked s'))
| mw_end_service s s' : meanwhile s s' -> meanwhile s (endBurstServiceLocked s').

Definition same_turn (s s' : burst) : Prop :=
  lastServed s' = lastServed s /\ shmContestedTurn s' = shmContestedTurn s /\ shmForfeitsTurn s' = shmForfeitsTurn s.

Lemma meanwhile_same s s' : meanwhile s s' -> same_turn s s'.
Proof.
  unfold same_turn. induction 1 as [s|s s1 s2 _ IH HR|s s1 t _ IH|s s1 t _ IH|s s1 _ IH|s s1 _ IH]; [done|..].
  - destruct HR as (_ & Hr & _). destruct (Hr eq_refl) as [_ -> -> -> _ _]. done.
  - unfold disarmInterruptLocked. case_decide; [|done]. simpl. by case_decide.
  - done.
  - unfold commitDeliveryLocked. by case_match.
  - unfold endBurstServiceLocked. repeat (case_decide; simpl); done.
Qed.

(** How an attempt parked in shared memory can end with its turn settled: a
    frame delivered, a frame-local result, or an interrupt over readiness that
    still stands. *)
Definition shm_turn_ends (s s' : burst) : Prop :=
  s' = endDeliveryLocked burstChannelShm s \/ s' = recordServiceLocked burstChannelShm s \/
  (s' = forfeitWastedTurnLocked s /\ pumpState s = burstPumpPending).

Definition burst_turn_ends (s s' : burst) : Prop :=
  s' = endDeliveryLocked burstChannelBurst s \/ s' = recordServiceLocked burstChannelBurst s.

Lemma open_attempt readable s :
  terminal s = burstOpen -> pumpState s = burstPumpPending ->
  snd (attemptLocked readable s) =
    if shmForfeitsTurn s || negb readable then ServesBurst
    else if decide (lastServed s = burstChannelBurst) then ServesShm (length (causes s)) else ServesBurst.
Proof.
  intros Ho Hp. unfold attemptLocked, settledOutcomeLocked, failFast, chooseChannelLocked.
  rewrite Ho. simpl. rewrite decide_True by done. destruct (_ || _); [done|]. simpl. by case_decide.
Qed.

(** Neither channel is starved: a socket frame that is pending when an
    attempt is awarded to shared memory is served by the very next attempt,
    whatever the probe answers then, whether the awarded attempt delivered,
    consumed a bad frame, or was interrupted with nothing; and after a socket
    service the next contested attempt goes to shared memory when it has work. *)
Theorem burst_turns_alternate :
  (forall readable s0 s1 t s2 s3 s4 again,
     terminal s0 = burstOpen -> pumpState s0 = burstPumpPending -> attemptLocked readable s0 = (s1, ServesShm t) ->
     meanwhile s1 s2 -> shm_turn_ends s2 s3 -> meanwhile s3 s4 ->
     terminal s4 = burstOpen -> pumpState s4 = burstPumpPending ->
     snd (attemptLocked again s4) = ServesBurst) /\
  (forall readable s0 s1 s2 s3 s4,
     terminal s0 = burstOpen -> pumpState s0 = burstPumpPending -> attemptLocked readable s0 = (s1, ServesBurst) ->
     meanwhile s1 s2 -> burst_turn_ends s2 s3 -> meanwhile s3 s4 ->
     terminal s4 = burstOpen -> pumpState s4 = burstPumpPending ->
     exists t, snd (attemptLocked true s4) = ServesShm t).
Proof.
  split.
  - intros readable s0 s1 t s2 s3 s4 again Ho Hp Ha Hm Ht Hm' Ho' Hp'.
    rewrite open_attempt by done. apply meanwhile_same in Hm as (Hl & Hc & Hf). apply meanwhile_same in Hm' as (Hl' & _ & Hf').
    assert (Hc1 : shmContestedTurn s1 = true).
    { revert Ha. unfold attemptLocked, settledOutcomeLocked, failFast, chooseChannelLocked. rewrite Ho. simpl.
      rewrite (decide_True _ _ Hp). destruct (_ || _); [by intros [= <- ?]|]. simpl. case_decide; intros [= <- ?]; simpl.
      by apply bool_decide_eq_true. }
    rewrite Hl', Hf'. destruct Ht as [->|[->|[-> Hp2]]]; simpl.
    + by destruct (negb again).
    + by destruct (negb again).
    + unfold forfeitWastedTurnLocked. rewrite Hc, Hc1, Hp2. done.
  - intros readable s0 s1 s2 s3 s4 Ho Hp Ha Hm Ht Hm' Ho' Hp'.
    rewrite open_attempt by done. apply meanwhile_same in Hm as (_ & _ & Hf). apply meanwhile_same in Hm' as (Hl' & _ & Hf').
    assert (Hf1 : shmForfeitsTurn s1 = false).
    { revert Ha. unfold attemptLocked, settledOutcomeLocked, failFast, chooseChannelLocked. rewrite Ho. simpl.
      rewrite (decide_True _ _ Hp). destruct (_ || _); [by intros [= <-]|]. simpl. by case_decide; intros [= <-]. }
    rewrite Hl', Hf'. destruct Ht as [->| ->]; simpl; rewrite Hf, Hf1; simpl; eauto.
Qed.

(** *** Sends, branch by branch *)

#[local] Arguments failFast : simpl never.
#[local] Arguments settledOutcomeLocked : simpl never.
#[local] Arguments routesToBurst : simpl never.
#[local] Arguments burst_send : simpl never.
#[local] Arguments with_routed : simpl never.

(** The burst fill send on every branch, run to its end: an ended
    connection is answered with its outcome and an oversize payload with a
    never-published error before anything is counted, admitted or allocated; a
    context that ends before the gate is counted but runs no fill; a fill that
    fails or panics costs that frame only, sends nothing and gives the gate
    back; a fill that returns sends exactly its bytes, once. *)
Theorem burst_fill_branches cfg me f size s :
  (forall e x, failFast (settledOutcomeLocked s) = Some e ->
     solo [x] (SendPayloadFill cfg me f size) s = (s, Done (Some e), [QSettled])) /\
  (failFast (settledOutcomeLocked s) = None -> routesToBurst cfg (Kind f) size = true ->
   (ceiling cfg < size -> forall x,
      solo [x] (SendPayloadFill cfg me f size) s = (s, Done (Some [ErrPayloadTooLarge]), [QSettled]) /\
      NeverPublished (Some [ErrPayloadTooLarge]) = true) /\
   (size <= ceiling cfg ->
    let counted := with_routed (u64 (burstRouted s + 1)) s in
    (forall c e, Uds.ctx_err c = Some e ->
       solo [ANone; ANone; ACtx c] (SendPayloadFill cfg me f size) s = (counted, Done (Some e), [QSettled; QRouted; QSendCtx])) /\
    (sendGate s = None ->
     let head := [ANone; ANone; ACtx CtxLive; ANone; ACtx CtxLive; ANone] in
     let asked := [QSettled; QRouted; QSendCtx; QTryGate; QSendCtx; QSettled; QFill size] in
     (forall r, match r with FillWrote _ => False | _ => True end ->
        exists e, Is (Some e) Writer.ErrPayloadFillFailed = true /\
        solo (head ++ [AFill r; ANone]) (SendPayloadFill cfg me f size) s = (with_gate None counted, Done (Some e), asked ++ [QRelease])) /\
     (forall bs, exists dst, length dst = Z.to_nat size /\ take (length bs) dst = take (Z.to_nat size) bs /\
        solo (head ++ [AFill (FillWrote bs); AErr None None; ANone]) (SendPayloadFill cfg me f size) s =
          (with_gate None counted, Done None, asked ++ [QBurstSend (with_payload dst f) false; QRelease]))))).
Proof.
  split; [|intros Hff Hrt; split].
  - intros e x He. cbn. by rewrite He.
  - intros Hc x. split; [|done]. cbn. rewrite Hff, Hrt. cbn. unfold burst_send, checkCeiling.
    rewrite (proj2 (Z.ltb_lt _ _) Hc). done.
  - intros Hc counted. assert (Hff' : forall g, failFast (settledOutcomeLocked (with_gate g counted)) = None) by done.
    split.
    { intros c e He. cbn. rewrite Hff, Hrt. cbn. unfold burst_send, checkCeiling. rewrite (proj2 (Z.ltb_ge _ _) Hc).
      cbn. rewrite He. done. }
    intros Hg head asked. split.
    + intros r Hr. exists (Writer.ErrPayloadFillFailed :: match r with FillErr e => e | _ => [] end). split.
      { apply bool_decide_eq_true. left. }
      cbn. rewrite Hff, Hrt. cbn. unfold burst_send, checkCeiling. rewrite (proj2 (Z.ltb_ge _ _) Hc).
      cbn. unfold try_gate. cbn. change (with_routed _ s) with counted. change (sendGate counted) with (sendGate s).
      rewrite Hg. cbn. rewrite Hff'. cbn. by destruct r.
    + intros bs. exists (resize (Z.to_nat size) 0 bs). split_and!; [apply length_resize| |].
      { rewrite take_resize, resize_le by lia. destruct (decide (length bs <= Z.to_nat size)%nat).
        - rewrite Nat.min_l by done. by rewrite !take_ge by lia.
        - by rewrite Nat.min_r by lia. }
      cbn. rewrite Hff, Hrt. cbn. unfold burst_send, checkCeiling. rewrite (proj2 (Z.ltb_ge _ _) Hc).
      cbn. unfold try_gate. cbn. change (with_routed _ s) with counted. change (sendGate counted) with (sendGate s).
      rewrite Hg. cbn. rewrite Hff'. cbn. done.
Qed.

(** ** Witnesses *)

Definition wit_cfg : config := mkConfig 4 4 10 FrameUnaryResp.
Definition wit_req : burstRecvRequest := mkReq true false.
Definition wit_frame (n : Z) : Frame := mkFrame 7 FrameUnaryReq 0 0 0 (replicate (Z.to_nat n) 1) None 0.

(** A receiver parked in shared memory while the socket becomes readable. *)
Definition wit_parked : list (nat * answer) :=
  [(0%nat, AReq wit_req CtxLive); (0%nat, ABool false); (1%nat, AErr None None); (1%nat, ANone)].

(** The same, then the interrupted attempt is followed by the destructive read,
    with a sender in its fill. *)
Definition wit_reading : list (nat * answer) :=
  wit_parked ++
  [(0%nat, AFrame None (inr [CtxCanceled])); (0%nat, ANone); (0%nat, ANone); (0%nat, ANone); (0%nat, ANone);
   (0%nat, ANone); (0%nat, ABool false);
   (3%nat, ANone); (3%nat, ANone); (3%nat, ACtx CtxLive); (3%nat, ANone); (3%nat, ACtx CtxLive); (3%nat, ANone)].

(** A failed read, then the poison of the sender's torn frame. *)
Definition wit_failed : list (nat * answer) :=
  wit_reading ++ [(0%nat, AFrame None (inr [EOF])); (0%nat, ANone); (0%nat, ANone)].
Definition wit_refined : list (nat * answer) :=
  [(3%nat, AFill (FillWrote [1; 2])); (3%nat, AErr (Some [ErrPoisoned]) (Some [ErrPoisoned]));
   (3%nat, ANone); (3%nat, ANone); (3%nat, ANone)].

Definition wit_sys : pool burst query answer result := system wit_cfg None [[OSendPayloadFill (wit_frame 0) 8]].

Lemma wit_inline : 0 <= inlineMax wit_cfg.
Proof. done. Qed.

Lemma wit_reaches ms : reaches wit_cfg (prun ms wit_sys).
Proof. exists None, [[OSendPayloadFill (wit_frame 0) 8]], ms. by split. Qed.

Definition now_at (ms : list (nat * answer)) (i : nat) : option query := fst (prun ms wit_sys) !! i ≫= at_query.

Lemma now_at_go ms i q : now_at ms i = Some q ->
  exists g, fst (prun ms wit_sys) !! i = Some g /\ at_query g = Some q.
Proof. unfold now_at. destruct (fst (prun ms wit_sys) !! i); simpl; [eauto|done]. Qed.

Lemma wit_failed_state : terminal (snd (prun wit_failed wit_sys)) = burstFailed.
Proof. by vm_compute. Qed.
Lemma wit_parked_state : pumpState (snd (prun wit_parked wit_sys)) = burstPumpPending.
Proof. by vm_compute. Qed.

Lemma burst_outcome_settles_once_witness :
  let s := snd (prun wit_failed wit_sys) in let s' := snd (prun wit_refined (prun wit_failed wit_sys)) in
  DataPlaneOutcome s = (BurstFailurePeerClosed, Some [EOF]) /\
  DataPlaneOutcome s' = (BurstFailurePoisoned, Some [ErrPoisoned]) /\
  exists cl e first, answers_failed cl e first s /\
    (answers_failed cl e first s' \/
     latchedPoison s = None /\ exists p, answers_failed BurstFailurePoisoned p first s').
Proof.
  split; [by vm_compute|]. split; [by vm_compute|].
  exact (proj2 (proj2 (proj2 (burst_outcome_settles_once wit_cfg (prun wit_failed wit_sys) wit_refined wit_inline (wit_reaches _)))) wit_failed_state).
Defined.

Lemma burst_reads_exclusive_witness :
  (exists g h, fst (prun wit_reading wit_sys) !! 0%nat = Some g /\ at_query g = Some (QBurstRecv true) /\
     fst (prun wit_reading wit_sys) !! 1%nat = Some h /\ at_query h = Some QPumpWake) /\
  BoundedReadActive (snd (prun wit_reading wit_sys)) = true.
Proof.
  destruct (now_at_go wit_reading 0 (QBurstRecv true)) as (g & Hg & Hq); [by vm_compute|].
  destruct (now_at_go wit_reading 1 QPumpWake) as (h & Hh & Hq'); [by vm_compute|].
  split; [exact (ex_intro _ g (ex_intro _ h (conj Hg (conj Hq (conj Hh Hq')))))|].
  exact (proj1 (proj1 (proj2 (burst_reads_exclusive wit_cfg _ 0 1 g h _ _ wit_inline (wit_reaches _) Hg Hq Hh Hq')) eq_refl)).
Defined.

Lemma burst_readiness_not_lost_witness :
  pumpState (snd (prun wit_parked wit_sys)) = burstPumpPending /\
  interrupt (snd (prun wit_parked wit_sys)) = Some 0%nat /\
  ended 0 (snd (pmove (prun wit_parked wit_sys) (1%nat, ANone))).
Proof.
  split; [exact wit_parked_state|]. destruct (now_at_go wit_parked 0 (QShmRecv 0 true)) as (g & Hg & Hq); [by vm_compute|].
  destruct (burst_readiness_not_lost wit_cfg _ g _ 0%nat ANone wit_inline (wit_reaches _) Hg Hq eq_refl wit_parked_state)
    as (Hi & h & _ & _ & He). exact (conj Hi He).
Defined.

Lemma burst_sends_routed_witness :
  (exists g, fst (prun wit_reading wit_sys) !! 3%nat = Some g /\ at_query g = Some (QFill 8)) /\
  sendGate (snd (prun wit_reading wit_sys)) = Some 3%nat /\ inlineMax wit_cfg < 8 <= ceiling wit_cfg.
Proof.
  destruct (now_at_go wit_reading 3 (QFill 8)) as (g & Hg & Hq); [by vm_compute|]. split; [exact (ex_intro _ g (conj Hg Hq))|].
  destruct (burst_sends_routed wit_cfg _ 3 3 g g _ _ wit_inline (wit_reaches _) Hg Hq Hg Hq) as [Hgate Hf].
  exact (conj (proj2 (Hgate eq_refl eq_refl)) Hf).
Defined.

(** Readiness stands, the probe says readable, the socket was served last. *)
Definition wit_contested : burst := with_lastServed burstChannelBurst (with_pumpState burstPumpPending (attached None)).

Lemma burst_turns_alternate_witness :
  snd (attemptLocked true wit_contested) = ServesShm 0 /\
  snd (attemptLocked true (forfeitWastedTurnLocked (fst (attemptLocked true wit_contested)))) = ServesBurst.
Proof.
  split; [done|]. destruct burst_turns_alternate as [H _].
  apply (H true wit_contested (fst (attemptLocked true wit_contested)) 0%nat
    (fst (attemptLocked true wit_contested)) (forfeitWastedTurnLocked (fst (attemptLocked true wit_contested))));
    try done; [apply mw_refl|by right; right|apply mw_refl].
Defined.

Lemma burst_fill_branches_witness :
  routesToBurst wit_cfg FrameUnaryReq 8 = true /\
  exists dst, length dst = 8%nat /\
    snd (solo [ANone; ANone; ACtx CtxLive; ANone; ACtx CtxLive; ANone; AFill (FillWrote [1; 2]); AErr None None; ANone]
      (SendPayloadFill wit_cfg 3 (wit_frame 0) 8) (attached None)) =
    [QSettled; QRouted; QSendCtx; QTryGate; QSendCtx; QSettled; QFill 8; QBurstSend (with_payload dst (wit_frame 0)) false; QRelease].
Proof.
  split; [done|]. destruct (burst_fill_branches wit_cfg 3 (wit_frame 0) 8 (attached None)) as [_ H].
  destruct (H eq_refl eq_refl) as [_ H1]. destruct (H1 ltac:(done)) as [_ H2].
  destruct (H2 eq_refl) as [_ H3]. destruct (H3 [1; 2]) as (dst & Hl & _ & Hs). exists dst. split; [done|].
  simpl app in Hs. rewrite Hs. done.
Defined.

End BurstSafety.
