(* ===== verification/Handshake.v ===== *)
(** * The control-plane handshake (internal/control/handshake.go)

    Negotiation of the compatibility tuple, its projection on the wire messages,
    the host's recomputation of an acknowledged tuple, the rejection reply, and
    the two sides' uses of them: [pluginHandshake] of pluginserver.go, the
    handshake half of [handshakeAndAttach] of internal/supervisor/supervisor.go,
    and the offers each side makes.

    A Go string is a [string] of 8-bit characters, a map a [gmap], a set a
    [gset].  A repeated protobuf field is a list; a message field is an [option],
    and its getters answer zero values on an absent message, as generated code
    does.  Go's [strconv.Quote] (the [%q] verb) and [sha256] are arguments of the
    two definitions that use them: nothing depends on what they compute. *)

From stdpp Require Import strings gmap sorting pretty.
From S2P Require Import Prelude RegionLayout.

Module Handshake.

Local Open Scope string_scope.
Local Open Scope Z_scope.

Definition TransportSHM : string := "shm".
Definition TransportUDS : string := "uds".
Definition FeatureBurst : string := "burst".
Definition FeatureStreamChunking : string := "stream-chunking".
Definition ShmLayoutVersion : Z := 1.

Record FeatureFlag := { Name : string; Required : bool }.

Record ServiceRequirement := { r_Service : string; MinVersion : Z; MaxVersion : Z }.

Record ServiceVersion := { v_Service : string; Version : Z }.

Record Offer := {
  ProtocolMin : Z; ProtocolMax : Z;
  Features : list FeatureFlag;
  Transports : list string;
  Codecs : list string;
  Services : list ServiceRequirement;
  LayoutVersions : list Z
}.

Record Tuple := {
  ProtocolVersion : Z;
  Transport : string;
  LayoutVersion : Z;
  t_Features : gmap string bool;
  Codec : string
}.

#[global] Instance FeatureFlag_eq_dec : EqDecision FeatureFlag.
Proof. solve_decision. Defined.
#[global] Instance ServiceRequirement_eq_dec : EqDecision ServiceRequirement.
Proof. solve_decision. Defined.
#[global] Instance ServiceVersion_eq_dec : EqDecision ServiceVersion.
Proof. solve_decision. Defined.
#[global] Instance Offer_eq_dec : EqDecision Offer.
Proof. solve_decision. Defined.
#[global] Instance Tuple_eq_dec : EqDecision Tuple.
Proof. solve_decision. Defined.

(** Reading an absent key of a Go [map[string]bool] answers false. *)
Definition get_flag (m : gmap string bool) (name : string) : bool :=
  default false (m !! name).

Definition BurstActive (tuple : Tuple) (burstMaxPayload : Z) : bool :=
  bool_decide (Transport tuple = TransportSHM)
  && get_flag (t_Features tuple) FeatureBurst && negb (burstMaxPayload =? 0).

Definition ChunkingActive (tuple : Tuple) (chunkMaxPayload : Z) : bool :=
  bool_decide (Transport tuple = TransportSHM)
  && get_flag (t_Features tuple) FeatureStreamChunking && negb (chunkMaxPayload =? 0).

Inductive IncompatibleKind := IncompatibleHandshake | IncompatibleBinaryIdentity.

Record IncompatibleError := {
  HostOffer : Offer; PluginOffer : Offer; ie_Reason : string; Kind : IncompatibleKind
}.

Definition no_offer : Offer :=
  {| ProtocolMin := 0; ProtocolMax := 0; Features := []; Transports := []; Codecs := [];
     Services := []; LayoutVersions := [] |}.

(** ** The axes *)

(** The loop keeps the highest version seen and whether there was one. *)
Definition keep_highest (set : gset Z) (acc : Z * bool) (v : Z) : Z * bool :=
  let '(best, found) := acc in
  if bool_decide (v ∈ set) && (negb found || (best <? v)) then (v, true) else (best, found).

Definition highestCommonLayout (a b : list Z) : option Z :=
  let set : gset Z := list_to_set b in
  let '(best, found) := foldl (keep_highest set) (0, false) a in
  if found then Some best else None.

Definition firstCommon (a b : list string) : option string :=
  let set : gset string := list_to_set b in
  let common := filter (fun s => s ∈ set) a in
  head (merge_sort String.le common).

Definition featureNames (flags : list FeatureFlag) : gmap string bool :=
  foldl (fun names f => <[Name f := true]> names) ∅ flags.

Definition lacks (supports : gmap string bool) (f : FeatureFlag) : bool :=
  Required f && negb (get_flag supports (Name f)).

Definition negotiateFeatures (host plugin : Offer) : outcome string (gmap string bool) :=
  let hostSupports := featureNames (Features host) in
  let pluginSupports := featureNames (Features plugin) in
  match List.find (lacks pluginSupports) (Features host) with
  | Some f => Err ("feature " +:+ Name f +:+ ": required by host, not supported by plugin")
  | None =>
    match List.find (lacks hostSupports) (Features plugin) with
    | Some f => Err ("feature " +:+ Name f +:+ ": required by plugin, not supported by host")
    | None =>
      let resolved := foldl (fun r name => <[name := get_flag pluginSupports name]> r) ∅
                        (map_to_list hostSupports).*1 in
      Ok (foldl (fun r name => match r !! name with Some _ => r | None => <[name := false]> r end)
            resolved (map_to_list pluginSupports).*1)
    end
  end.

Definition range_text (req : ServiceRequirement) : string :=
  "[" +:+ pretty (MinVersion req) +:+ "," +:+ pretty (MaxVersion req) +:+ "]".

Definition check_service (have : gmap string Z) (req : ServiceRequirement) : option string :=
  match have !! r_Service req with
  | None => Some ("service " +:+ r_Service req
                  +:+ ": not advertised by plugin (required range " +:+ range_text req +:+ ")")
  | Some v =>
    if (v <? MinVersion req) || (MaxVersion req <? v)
    then Some ("service " +:+ r_Service req +:+ ": version " +:+ pretty v
               +:+ " outside required range " +:+ range_text req)
    else None
  end.

(** [None] when every requirement is met, else the first failure's reason. *)
Definition checkServices (required : list ServiceRequirement) (advertised : list ServiceVersion)
  : option string :=
  let have := foldl (fun m sv => <[v_Service sv := Version sv]> m) (∅ : gmap string Z) advertised in
  foldr (fun req rest => match check_service have req with Some r => Some r | None => rest end)
    None required.

Definition Negotiate (host plugin : Offer) (pluginServices : list ServiceVersion)
  : outcome IncompatibleError Tuple :=
  let fail reason := Err {| HostOffer := host; PluginOffer := plugin; ie_Reason := reason;
                            Kind := IncompatibleHandshake |} in
  let lo := Z.max (ProtocolMin host) (ProtocolMin plugin) in
  let hi := Z.min (ProtocolMax host) (ProtocolMax plugin) in
  if hi <? lo then fail "protocol range: empty intersection" else
  match firstCommon (Transports host) (Transports plugin) with
  | None => fail "transport: no common transport"
  | Some transport =>
    match (if bool_decide (transport = TransportSHM)
           then highestCommonLayout (LayoutVersions host) (LayoutVersions plugin)
           else Some 0) with
    | None => fail "layout_version: no common shared-memory layout version"
    | Some layoutVersion =>
      match firstCommon (Codecs host) (Codecs plugin) with
      | None => fail "codec: no common codec"
      | Some codec =>
        match negotiateFeatures host plugin with
        | Panic => Panic
        | Err reason => fail reason
        | Ok features =>
          match checkServices (Services host) pluginServices with
          | Some reason => fail reason
          | None => Ok {| ProtocolVersion := hi; Transport := transport;
                          LayoutVersion := layoutVersion; t_Features := features; Codec := codec |}
          end
        end
      end
    end
  end.

(** ** Identity *)

Inductive nonce_error := ErrNonceMismatch (sent got : Z).

Definition VerifyNonce (sent got : Z) : outcome nonce_error unit :=
  if sent =? got then Ok tt else Err (ErrNonceMismatch sent got).

Definition hex_digit (n : Z) : Ascii.ascii :=
  Ascii.ascii_of_N (Z.to_N (if n <? 10 then 48 + n else 87 + n)).

(** [hex.EncodeToString]. *)
Fixpoint hex_text (bs : list Z) : string :=
  match bs with
  | [] => ""
  | b :: rest => String (hex_digit (b / 16)) (String (hex_digit (b mod 16)) (hex_text rest))
  end.

(** What the binary's path answers: it cannot be opened, the read fails, or its
    contents. *)
Inductive binary_file := CannotOpen | ReadFails | Contents (bytes : list Z).

Inductive identity_error := ErrOpen | ErrHash | ErrIdentity (e : IncompatibleError).

(** [sha256] is the standard library's digest. *)
Definition VerifyBinaryIdentity (sha256 : list Z -> list Z) (file : binary_file)
    (pinned : option (list Z)) : outcome identity_error unit :=
  match pinned with
  | None => Ok tt
  | Some pin =>
    match file with
    | CannotOpen => Err ErrOpen
    | ReadFails => Err ErrHash
    | Contents bytes =>
      let actual := sha256 bytes in
      if bool_decide (pin = actual) then Ok tt
      else Err (ErrIdentity {| HostOffer := no_offer; PluginOffer := no_offer;
             ie_Reason := ("binary identity: expected " +:+ hex_text pin +:+ ", got " +:+ hex_text actual);
             Kind := IncompatibleBinaryIdentity |})
    end
  end.

(** ** The wire messages *)

Record pb_FeatureFlag := { pb_Name : string; pb_Required : bool; pb_Supported : bool }.

Record Hello := {
  h_ProtocolMin : Z; h_ProtocolMax : Z;
  h_Features : list pb_FeatureFlag;
  h_Transports : list string; h_Codecs : list string;
  h_Services : list ServiceRequirement;
  h_Nonce : Z;
  h_LayoutVersions : list Z
}.

Record HelloAck := {
  a_ProtocolVersion : Z; a_Transport : string; a_LayoutVersion : Z;
  a_Features : list pb_FeatureFlag; a_Codec : string;
  a_Services : list ServiceVersion;
  a_Nonce : Z;
  a_PluginName : string; a_PluginSemver : string; a_BinarySha256 : string;
  a_IncompatibleReason : string;
  a_PluginOffer : option Hello
}.

Record PluginIdentity := { id_Name : string; SemVer : string; BinarySHA256 : string }.

Definition no_identity : PluginIdentity := {| id_Name := ""; SemVer := ""; BinarySHA256 := "" |}.

Definition OfferToHello (o : Offer) (nonce : Z) : Hello :=
  {| h_ProtocolMin := ProtocolMin o; h_ProtocolMax := ProtocolMax o;
     h_Features := (fun f => {| pb_Name := Name f; pb_Required := Required f; pb_Supported := false |})
                     <$> Features o;
     h_Transports := Transports o; h_Codecs := Codecs o; h_Services := Services o;
     h_Nonce := nonce; h_LayoutVersions := LayoutVersions o |}.

Definition HelloToOffer (h : option Hello) : Offer :=
  match h with
  | None => no_offer
  | Some h =>
    {| ProtocolMin := h_ProtocolMin h; ProtocolMax := h_ProtocolMax h;
       Features := (fun f => {| Name := pb_Name f; Required := pb_Required f |}) <$> h_Features h;
       Transports := h_Transports h; Codecs := h_Codecs h; Services := h_Services h;
       LayoutVersions := h_LayoutVersions h |}
  end.

Definition TupleToHelloAck (t : Tuple) (nonce : Z) (identity : PluginIdentity)
    (services : list ServiceVersion) (pluginOffer : Offer) : HelloAck :=
  let names := merge_sort String.le (map_to_list (t_Features t)).*1 in
  {| a_ProtocolVersion := ProtocolVersion t; a_Transport := Transport t;
     a_LayoutVersion := LayoutVersion t;
     a_Features := (fun name => {| pb_Name := name; pb_Required := false;
                                   pb_Supported := get_flag (t_Features t) name |}) <$> names;
     a_Codec := Codec t; a_Services := services; a_Nonce := nonce;
     a_PluginName := id_Name identity; a_PluginSemver := SemVer identity;
     a_BinarySha256 := BinarySHA256 identity; a_IncompatibleReason := "";
     a_PluginOffer := Some (OfferToHello pluginOffer 0) |}.

Definition HelloAckToTuple (ack : HelloAck) : Tuple :=
  {| ProtocolVersion := a_ProtocolVersion ack; Transport := a_Transport ack;
     LayoutVersion := a_LayoutVersion ack;
     t_Features := foldl (fun m f => <[pb_Name f := pb_Supported f]> m) ∅ (a_Features ack);
     Codec := a_Codec ack |}.

Definition serviceVersionsFromAck (ack : HelloAck) : list ServiceVersion := a_Services ack.

Fixpoint first_duplicate (seen : gset string) (svs : list ServiceVersion) : option string :=
  match svs with
  | [] => None
  | sv :: rest =>
    if bool_decide (v_Service sv ∈ seen) then Some (v_Service sv)
    else first_duplicate ({[v_Service sv]} ∪ seen) rest
  end.

Definition firstDuplicateService (svs : list ServiceVersion) : option string :=
  first_duplicate ∅ svs.

Definition tupleEqual (a b : Tuple) : bool :=
  (ProtocolVersion a =? ProtocolVersion b) && bool_decide (Transport a = Transport b)
  && (LayoutVersion a =? LayoutVersion b) && bool_decide (Codec a = Codec b)
  && bool_decide (t_Features a = t_Features b).

Definition tuple_text (Quote : string -> string) (t : Tuple) : string :=
  "(transport=" +:+ Quote (Transport t) +:+ " codec=" +:+ Quote (Codec t)
  +:+ " protocol=" +:+ pretty (ProtocolVersion t) +:+ " layout=" +:+ pretty (LayoutVersion t) +:+ ")".

Definition ValidateAcknowledgedTuple (Quote : string -> string) (hostOffer : Offer) (ack : HelloAck)
  : outcome IncompatibleError Tuple :=
  let acked := HelloAckToTuple ack in
  let pluginOffer := HelloToOffer (a_PluginOffer ack) in
  let pluginServices := serviceVersionsFromAck ack in
  let refuse reason := Err {| HostOffer := hostOffer; PluginOffer := pluginOffer;
                              ie_Reason := reason; Kind := IncompatibleHandshake |} in
  match firstDuplicateService pluginServices with
  | Some dup => refuse ("acknowledged tuple: service " +:+ Quote dup +:+ " advertised more than once")
  | None =>
    match Negotiate hostOffer pluginOffer pluginServices with
    | Panic => Panic
    | Err ie => Err ie
    | Ok recomputed =>
      if tupleEqual recomputed acked then Ok recomputed
      else refuse ("acknowledged tuple " +:+ tuple_text Quote acked
                   +:+ " does not match host recomputation " +:+ tuple_text Quote recomputed)
    end
  end.

(** ** The rejection reply *)

Definition MaxIncompatibleReasonBytes : nat := 1024.

Definition genericIncompatibleReason : string :=
  "control: incompatible handshake (no reason reported)".

(** [utf8.ValidString]: the ranges of the second byte keep out overlong forms,
    surrogates and code points above U+10FFFF. *)
Definition code (a : Ascii.ascii) : Z := Z.of_N (Ascii.N_of_ascii a).

Definition in_range (lo hi : Z) (a : Ascii.ascii) : bool := (lo <=? code a) && (code a <=? hi).

Definition second3 (b0 : Z) : Z * Z :=
  if b0 =? 224 then (160, 191) else if b0 =? 237 then (128, 159) else (128, 191).

Definition second4 (b0 : Z) : Z * Z :=
  if b0 =? 240 then (144, 191) else if b0 =? 244 then (128, 143) else (128, 191).

Fixpoint ValidString (s : string) : bool :=
  match s with
  | EmptyString => true
  | String a0 s1 =>
    let b0 := code a0 in
    if b0 <? 128 then ValidString s1
    else if (194 <=? b0) && (b0 <=? 223) then
      match s1 with
      | String a1 s2 => in_range 128 191 a1 && ValidString s2
      | _ => false
      end
    else if (224 <=? b0) && (b0 <=? 239) then
      match s1 with
      | String a1 (String a2 s3) =>
        in_range (fst (second3 b0)) (snd (second3 b0)) a1 && in_range 128 191 a2 && ValidString s3
      | _ => false
      end
    else if (240 <=? b0) && (b0 <=? 244) then
      match s1 with
      | String a1 (String a2 (String a3 s4)) =>
        in_range (fst (second4 b0)) (snd (second4 b0)) a1 && in_range 128 191 a2
        && in_range 128 191 a3 && ValidString s4
      | _ => false
      end
    else false
  end.

(** The loop drops the last byte while the text is not valid; its length is the
    number of rounds it may take. *)
Fixpoint trim_invalid (fuel : nat) (s : string) : string :=
  match fuel with
  | O => s
  | S fuel =>
    if (0 <? Z.of_nat (String.length s)) && negb (ValidString s)
    then trim_invalid fuel (String.substring 0 (String.length s - 1) s)
    else s
  end.

Definition truncateUTF8 (s : string) (maxBytes : nat) : string :=
  if (String.length s <=? maxBytes)%nat then s
  else let s := String.substring 0 maxBytes s in trim_invalid (String.length s) s.

Definition IncompatibleToHelloAck (offer : Offer) (services : list ServiceVersion)
    (reason : string) (nonce : Z) : HelloAck :=
  let reason := if bool_decide (reason = "") then genericIncompatibleReason else reason in
  let reason := truncateUTF8 reason MaxIncompatibleReasonBytes in
  {| a_ProtocolVersion := 0; a_Transport := ""; a_LayoutVersion := 0; a_Features := [];
     a_Codec := ""; a_Services := services; a_Nonce := nonce;
     a_PluginName := ""; a_PluginSemver := ""; a_BinarySha256 := "";
     a_IncompatibleReason := reason; a_PluginOffer := Some (OfferToHello offer 0) |}.

Definition add_services (o : Offer) (svs : list ServiceVersion) : Offer :=
  {| ProtocolMin := ProtocolMin o; ProtocolMax := ProtocolMax o; Features := Features o;
     Transports := Transports o; Codecs := Codecs o;
     Services := (Services o ++ ((fun s => {| r_Service := v_Service s; MinVersion := Version s;
                                             MaxVersion := Version s |}) <$> svs))%list;
     LayoutVersions := LayoutVersions o |}.

Definition HelloAckIncompatible (ack : HelloAck) : string * Offer * bool :=
  let reason := a_IncompatibleReason ack in
  if bool_decide (reason = "") then ("", no_offer, false)
  else (reason, add_services (HelloToOffer (a_PluginOffer ack)) (a_Services ack), true).

(** ** The two sides (pluginserver.go, internal/supervisor/supervisor.go) *)

Definition m1ProtocolVersion : Z := 1.
Definition codecProto : string := "proto".
Definition featureStreaming : string := "streaming".
Definition transportAuto : string := "auto".
Definition MaxFrameSize : Z := 1024 * 1024.

(** The fields of the supervisor's [Config] the handshake reads. *)
Record HostConfig := {
  cfg_Transport : string;
  RequireStreaming : bool;
  cfg_Services : list ServiceRequirement;
  BurstMaxPayload : Z;
  ChunkMaxPayload : Z;
  MaxPayload : Z;
  ShmLayout : Layout.Layout
}.

Definition offeredTransports (cfg : HostConfig) : list string * list Z :=
  if bool_decide (cfg_Transport cfg = TransportSHM) then ([TransportSHM], [ShmLayoutVersion])
  else if bool_decide (cfg_Transport cfg = transportAuto)
  then ([TransportSHM; TransportUDS], [ShmLayoutVersion])
  else ([TransportUDS], []).

Definition hostOffer (cfg : HostConfig) : Offer :=
  let '(transports, layoutVersions) := offeredTransports cfg in
  {| ProtocolMin := m1ProtocolVersion; ProtocolMax := m1ProtocolVersion;
     Features := ([{| Name := featureStreaming; Required := RequireStreaming cfg |}]
       ++ (if 0 <? BurstMaxPayload cfg then [{| Name := FeatureBurst; Required := false |}] else [])
       ++ (if 0 <? ChunkMaxPayload cfg
           then [{| Name := FeatureStreamChunking; Required := false |}] else []))%list;
     Transports := transports; Codecs := [codecProto]; Services := cfg_Services cfg;
     LayoutVersions := layoutVersions |}.

Definition defaultPluginTransports : list string := [TransportSHM; TransportUDS].

Definition resolvePluginTransports (transports : list string) : list string :=
  if bool_decide (transports = []) then defaultPluginTransports else transports.

Definition pluginBaseOffer (transports : list string) (requireStreaming : bool) : Offer :=
  {| ProtocolMin := m1ProtocolVersion; ProtocolMax := m1ProtocolVersion;
     Features := [{| Name := featureStreaming; Required := requireStreaming |};
                  {| Name := FeatureBurst; Required := false |};
                  {| Name := FeatureStreamChunking; Required := false |}];
     Transports := transports; Codecs := [codecProto]; Services := [];
     LayoutVersions := if bool_decide (TransportSHM ∈ transports) then [ShmLayoutVersion] else [] |}.

(** [pluginOffer]: streaming is required when a stream handler is registered. *)
Definition pluginOffer (transports : list string) (streamHandlers : nat) : Offer :=
  pluginBaseOffer transports (0 <? Z.of_nat streamHandlers).

Definition error_text (e : IncompatibleError) : string :=
  "control: incompatible handshake: " +:+ ie_Reason e.

Definition incompatibleReason (e : IncompatibleError) : string :=
  if bool_decide (ie_Reason e = "") then error_text e else ie_Reason e.

(** [pluginHandshake] between the receipt of the host's Hello and the sending of
    the reply: the reply, and what the plugin itself goes on with.  The order of
    [services] is the map iteration's. *)
Definition pluginHandshake (offer : Offer) (services : list ServiceVersion) (hello : Hello)
  : HelloAck * outcome IncompatibleError Tuple :=
  let r := Negotiate (HelloToOffer (Some hello)) offer services in
  match r with
  | Ok tuple => (TupleToHelloAck tuple (h_Nonce hello) no_identity services offer, r)
  | Err e => (IncompatibleToHelloAck offer services (incompatibleReason e) (h_Nonce hello), r)
  | Panic => (IncompatibleToHelloAck offer services "" (h_Nonce hello), r)
  end.

Definition largestSlabSize (classes : list Layout.SizeClass) : Z :=
  foldl (fun largest c => if largest <? Layout.SlabSize c then Layout.SlabSize c else largest) 0 classes.

Definition maxPayloadInterlockCRCOverhead : Z := 4.

(** The connection's exact inline limit on shared memory. *)
Definition inline_limit (cfg : HostConfig) (tuple : Tuple) : Z :=
  let overhead := if get_flag (t_Features tuple) "checksum" then maxPayloadInterlockCRCOverhead else 0 in
  let limit := Z.min (largestSlabSize (Layout.Classes (Layout.ArenaHP (ShmLayout cfg))))
                     (largestSlabSize (Layout.Classes (Layout.ArenaPH (ShmLayout cfg)))) in
  if limit <? overhead then 0 else limit - overhead.

Definition refused (reason : string) : IncompatibleError :=
  {| HostOffer := no_offer; PluginOffer := no_offer; ie_Reason := reason; Kind := IncompatibleHandshake |}.

Definition validateMaxPayloadInterlock (cfg : HostConfig) (tuple : Tuple)
  : outcome IncompatibleError unit :=
  if MaxPayload cfg =? 0 then Ok tt
  else if negb (bool_decide (Transport tuple = TransportSHM)) then
    if MaxFrameSize <? MaxPayload cfg
    then Err (refused ("PluginSpec.MaxPayload=" +:+ pretty (MaxPayload cfg)
      +:+ " exceeds the uds transport's fixed " +:+ pretty MaxFrameSize
      +:+ "-byte frame cap, and this connection negotiated uds, which carries neither burst nor stream-chunking to widen it; upgrade the plugin to negotiate shared memory, or lower MaxPayload"))
    else Ok tt
  else if MaxPayload cfg <=? inline_limit cfg tuple then Ok tt
  else
    let missing := ((if BurstActive tuple (BurstMaxPayload cfg) then [] else ["burst"])
                   ++ (if ChunkingActive tuple (ChunkMaxPayload cfg) then [] else ["stream-chunking"]))%list in
    match missing with
    | [] => Ok tt
    | _ => Err (refused ("PluginSpec.MaxPayload=" +:+ pretty (MaxPayload cfg)
             +:+ " exceeds this connection's negotiated inline limit of " +:+ pretty (inline_limit cfg tuple)
             +:+ " bytes, and the plugin did not resolve " +:+ String.concat " and " missing
             +:+ "; upgrade the plugin or lower MaxPayload"))
    end.

Inductive handshake_error :=
| BadNonce (sent got : Z)
| Incompatible (e : IncompatibleError)
| UnsupportedCodec (codec : string).

(** The host's side from the receipt of the HelloAck to the attach. *)
Definition host_acknowledge (Quote : string -> string) (cfg : HostConfig) (nonce : Z) (ack : HelloAck)
  : outcome handshake_error Tuple :=
  match VerifyNonce nonce (a_Nonce ack) with
  | Panic => Panic
  | Err (ErrNonceMismatch sent got) => Err (BadNonce sent got)
  | Ok _ =>
    let '(reason, pluginOffer, rejected) := HelloAckIncompatible ack in
    if rejected : bool then
      Err (Incompatible {| HostOffer := hostOffer cfg; PluginOffer := pluginOffer;
                           ie_Reason := reason; Kind := IncompatibleHandshake |})
    else match ValidateAcknowledgedTuple Quote (hostOffer cfg) ack with
    | Panic => Panic
    | Err ie => Err (Incompatible ie)
    | Ok tuple =>
      if negb (bool_decide (Codec tuple = codecProto)) then Err (UnsupportedCodec (Codec tuple))
      else match validateMaxPayloadInterlock cfg tuple with
      | Panic => Panic
      | Err ie => Err (Incompatible ie)
      | Ok _ => Ok tuple
      end
    end
  end.

(** ** Specification *)

Definition common {A} (a b : list A) (x : A) : Prop := x ∈ a /\ x ∈ b.

Definition first_common (a b : list string) (s : string) : Prop :=
  common a b s /\ forall s', common a b s' -> (s ≤ s')%string.

Definition highest_common (a b : list Z) (v : Z) : Prop :=
  common a b v /\ forall v', common a b v' -> v' <= v.

Definition speaks (o : Offer) (v : Z) : Prop := ProtocolMin o <= v <= ProtocolMax o.

Definition offers (o : Offer) (name : string) : Prop := name ∈ Name <$> Features o.

#[global] Instance offers_dec o name : Decision (offers o name) := _ : Decision (name ∈ _).

Definition requires (o : Offer) (name : string) : Prop :=
  exists f, f ∈ Features o /\ Name f = name /\ Required f = true.

(** The version a service is advertised at: a later entry overrides. *)
Definition advertised_at (svs : list ServiceVersion) (service : string) (v : Z) : Prop :=
  exists front back, svs = (front ++ {| v_Service := service; Version := v |} :: back)%list /\
    service ∉ v_Service <$> back.

(** What a negotiated tuple is: on every axis the one value both offers allow,
    every required feature supported by the other side, every service the host
    needs advertised in range. *)
Record compatible (host plugin : Offer) (svs : list ServiceVersion) (t : Tuple) : Prop := {
  c_protocol : speaks host (ProtocolVersion t) /\ speaks plugin (ProtocolVersion t) /\
    forall v, speaks host v -> speaks plugin v -> v <= ProtocolVersion t;
  c_transport : first_common (Transports host) (Transports plugin) (Transport t);
  c_layout : (Transport t = TransportSHM ->
      highest_common (LayoutVersions host) (LayoutVersions plugin) (LayoutVersion t)) /\
    (Transport t <> TransportSHM -> LayoutVersion t = 0);
  c_codec : first_common (Codecs host) (Codecs plugin) (Codec t);
  c_features : forall name, t_Features t !! name =
    if decide (offers host name \/ offers plugin name)
    then Some (bool_decide (offers host name /\ offers plugin name)) else None;
  c_required : forall name, requires host name \/ requires plugin name ->
    offers host name /\ offers plugin name;
  c_services : forall r, r ∈ Services host ->
    exists v, advertised_at svs (r_Service r) v /\ MinVersion r <= v <= MaxVersion r
}.

(** ** The axes meet the specification *)

Lemma firstCommon_Some a b s : firstCommon a b = Some s <-> first_common a b s.
Proof.
  unfold firstCommon, first_common, common.
  set (l := filter _ a).
  assert (Hl : forall x, x ∈ l <-> x ∈ a /\ x ∈ b).
  { intros x. subst l. rewrite list_elem_of_filter, elem_of_list_to_set. tauto. }
  pose proof (merge_sort_Permutation String.le l) as Hp.
  pose proof (StronglySorted_merge_sort String.le l) as Hs.
  assert (Hm : forall x, x ∈ merge_sort String.le l <-> x ∈ a /\ x ∈ b)
    by (intros; by rewrite Hp, Hl).
  destruct (merge_sort String.le l) as [|y ys]; simpl.
  - split; [done|]. intros [H _]. apply Hm in H. by apply elem_of_nil in H.
  - apply StronglySorted_inv in Hs as [_ Hs]. rewrite Forall_forall in Hs.
    assert (Hy : forall x, x ∈ a /\ x ∈ b -> (y ≤ x)%string).
    { intros x [->|?]%Hm%elem_of_cons; [reflexivity|by apply Hs]. }
    assert (y ∈ a /\ y ∈ b) by (apply Hm; left).
    split; [by intros [= <-]|].
    intros [H1 H2]. f_equal. apply (anti_symm String.le); auto.
Qed.

Lemma firstCommon_None a b : firstCommon a b = None <-> forall s, ~ common a b s.
Proof.
  split.
  - intros H s Hc. unfold firstCommon in H. set (l := filter _ a) in *.
    assert (s ∈ l). { subst l. rewrite list_elem_of_filter, elem_of_list_to_set. by destruct Hc. }
    rewrite <- (merge_sort_Permutation String.le l) in *.
    destruct (merge_sort String.le l); [by eapply elem_of_nil|done].
  - destruct (firstCommon a b) as [s|] eqn:E; [|done].
    apply firstCommon_Some in E as [Hc _]. intros H. by destruct (H s).
Qed.

Lemma elem_of_snoc {A} (a : list A) x v : v ∈ (a ++ [x])%list <-> v ∈ a \/ v = x.
Proof. by rewrite elem_of_app, list_elem_of_singleton. Qed.

(** The loop's invariant, on the prefix of [a] already read. *)
Lemma keep_highest_spec (set : gset Z) a :
  match foldl (keep_highest set) (0, false) a with
  | (best, true) => (best ∈ a /\ best ∈ set) /\ forall v, v ∈ a -> v ∈ set -> v <= best
  | (_, false) => forall v, v ∈ a -> v ∉ set
  end.
Proof.
  induction a as [|x a IH] using rev_ind; [simpl; intros v Hv; by apply elem_of_nil in Hv|].
  rewrite foldl_app. simpl. destruct (foldl _ _ a) as [best [|]]; unfold keep_highest.
  - destruct IH as [[Ha Hs] Hm]. case_bool_decide; simpl; [destruct (Z.ltb_spec best x)|];
      setoid_rewrite elem_of_snoc; (split; [tauto|]); intros v [Hv| ->] Hin;
      try specialize (Hm v Hv Hin); try lia; done.
  - case_bool_decide; simpl; setoid_rewrite elem_of_snoc.
    + split; [tauto|]. intros v [Hv| ->] Hin; [by destruct (IH v Hv)|lia].
    + intros v [Hv| ->]; auto.
Qed.

Lemma highestCommonLayout_Some a b v : highestCommonLayout a b = Some v <-> highest_common a b v.
Proof.
  unfold highestCommonLayout, highest_common, common.
  pose proof (keep_highest_spec (list_to_set b) a) as H.
  destruct (foldl _ _ a) as [best [|]].
  - rewrite elem_of_list_to_set in H. destruct H as [H1 H2].
    assert (Hb : forall x, x ∈ a /\ x ∈ b -> x <= best).
    { intros x [? ?]. apply H2; [done|]. by rewrite elem_of_list_to_set. }
    split; [by intros [= <-]|]. intros [Hc Hm]. f_equal. specialize (Hm best H1). specialize (Hb v Hc). lia.
  - split; [done|]. intros [[Ha Hb] _]. destruct (H v Ha). by rewrite elem_of_list_to_set.
Qed.

Lemma featureNames_lookup l name :
  featureNames l !! name = if decide (name ∈ Name <$> l) then Some true else None.
Proof.
  unfold featureNames. induction l as [|f l IH] using rev_ind; [done|].
  rewrite foldl_app. simpl. rewrite fmap_app. simpl.
  destruct (decide (Name f = name)) as [<-|Hn].
  - rewrite lookup_insert_eq, decide_True by set_solver. done.
  - rewrite lookup_insert_ne, IH by done. case_decide; case_decide; set_solver.
Qed.

Lemma featureNames_flag o name :
  get_flag (featureNames (Features o)) name = bool_decide (offers o name).
Proof.
  unfold get_flag, offers. rewrite featureNames_lookup.
  case_decide; [by rewrite bool_decide_eq_true_2|by rewrite bool_decide_eq_false_2].
Qed.

Lemma lacks_none a b :
  List.find (lacks (featureNames (Features b))) (Features a) = None <->
  (forall name, requires a name -> offers b name).
Proof.
  split.
  - intros H name (f & Hf & <- & Hr). apply list_elem_of_In in Hf.
    pose proof (List.find_none _ _ H f Hf) as Hl. unfold lacks in Hl. rewrite Hr in Hl.
    rewrite featureNames_flag in Hl. simpl in Hl. case_bool_decide; done.
  - intros H. destruct (List.find _ _) as [f|] eqn:E; [|done].
    apply List.find_some in E as [Hf Hl]. unfold lacks in Hl.
    apply andb_prop in Hl as [Hr Hl]. rewrite featureNames_flag in Hl.
    case_bool_decide as Hb; [done|]. destruct Hb. apply H. exists f. by rewrite list_elem_of_In.
Qed.

(** A loop that inserts one entry per name. *)
Lemma foldl_insert_names (g : string -> bool) names r name :
  foldl (fun r n => <[n := g n]> r) r names !! name =
    if decide (name ∈ names) then Some (g name) else (r : gmap string bool) !! name.
Proof.
  revert r. induction names as [|x names IH]; intros r; simpl; [done|].
  rewrite IH. destruct (decide (x = name)) as [<-|Hn].
  - case_decide; rewrite ?decide_True by set_solver; [done|].
    by rewrite lookup_insert_eq.
  - case_decide; [by rewrite decide_True by set_solver|].
    rewrite decide_False by set_solver. by rewrite lookup_insert_ne.
Qed.

Lemma foldl_default_names names r name :
  foldl (fun r n => match r !! n with Some _ => r | None => <[n := false]> r end) r names !! name =
    match (r : gmap string bool) !! name with
    | Some b => Some b
    | None => if decide (name ∈ names) then Some false else None
    end.
Proof.
  revert r. induction names as [|x names IH]; intros r; simpl; [by destruct (r !! name)|].
  rewrite IH. destruct (r !! x) eqn:Ex.
  - destruct (r !! name) eqn:En; [done|]. case_decide; case_decide; set_solver.
  - destruct (decide (x = name)) as [<-|Hn].
    + rewrite lookup_insert_eq, Ex, decide_True by set_solver. done.
    + rewrite lookup_insert_ne by done. destruct (r !! name); [done|].
      case_decide; case_decide; set_solver.
Qed.

Lemma elem_of_map_keys {A} (m : gmap string A) name :
  name ∈ (map_to_list m).*1 <-> is_Some (m !! name).
Proof.
  rewrite list_elem_of_fmap. split.
  - intros ([k v] & -> & H%elem_of_map_to_list). by exists v.
  - intros [v H]. exists (name, v). split; [done|]. by apply elem_of_map_to_list.
Qed.

Definition resolved_features (host plugin : Offer) (m : gmap string bool) : Prop :=
  forall name, m !! name = if decide (offers host name \/ offers plugin name)
    then Some (bool_decide (offers host name /\ offers plugin name)) else None.

Lemma names_offered o name : name ∈ (map_to_list (featureNames (Features o))).*1 <-> offers o name.
Proof.
  rewrite elem_of_map_keys, featureNames_lookup. unfold offers.
  case_decide; split; intros H'; try done; by destruct H'.
Qed.

Lemma negotiateFeatures_Ok host plugin m :
  negotiateFeatures host plugin = Ok m <->
    (forall name, requires host name -> offers plugin name) /\
    (forall name, requires plugin name -> offers host name) /\ resolved_features host plugin m.
Proof.
  unfold negotiateFeatures. rewrite <- !lacks_none.
  destruct (List.find (lacks (featureNames (Features plugin))) _); [naive_solver|].
  destruct (List.find (lacks (featureNames (Features host))) _); [naive_solver|].
  set (m' := foldl _ (foldl _ _ _) _).
  assert (Hm : resolved_features host plugin m').
  { intros name. subst m'. rewrite foldl_default_names, foldl_insert_names, lookup_empty.
    rewrite featureNames_flag.
    destruct (decide (name ∈ (map_to_list (featureNames (Features host))).*1)) as [H|H];
      rewrite names_offered in H.
    - rewrite decide_True by tauto. f_equal. apply bool_decide_ext. tauto.
    - destruct (decide (name ∈ (map_to_list (featureNames (Features plugin))).*1)) as [H'|H'];
        rewrite names_offered in H'.
      + rewrite decide_True by tauto. by rewrite bool_decide_eq_false_2 by tauto.
      + by rewrite decide_False by tauto. }
  split; [intros [= <-]; done|]. intros (_ & _ & H). f_equal. apply map_eq. intros name.
  by rewrite Hm, H.
Qed.

Lemma negotiateFeatures_no_panic host plugin : negotiateFeatures host plugin <> Panic.
Proof. unfold negotiateFeatures. by repeat case_match. Qed.

Definition advertised_map (svs : list ServiceVersion) : gmap string Z :=
  foldl (fun m sv => <[v_Service sv := Version sv]> m) ∅ svs.

Lemma advertised_map_lookup svs service v :
  advertised_map svs !! service = Some v <-> advertised_at svs service v.
Proof.
  unfold advertised_map, advertised_at. induction svs as [|[s w] svs IH] using rev_ind; simpl.
  - rewrite lookup_empty. split; [done|]. by intros ([|] & back & ? & _).
  - rewrite foldl_app. simpl. destruct (decide (s = service)) as [->|Hn].
    + rewrite lookup_insert_eq. split.
      * intros [= ->]. exists svs, []. split; [done|]. apply not_elem_of_nil.
      * intros (front & back & E & Hb). destruct back as [|b back _] using rev_ind.
        { apply app_inj_tail in E as [_ [= ->]]. done. }
        rewrite app_comm_cons, app_assoc in E. apply app_inj_tail in E as [_ <-].
        rewrite fmap_app in Hb. simpl in Hb. destruct Hb. apply elem_of_app. right. left.
    + rewrite lookup_insert_ne, IH by done. split.
      * intros (front & back & -> & Hb). exists front, (back ++ [{| v_Service := s; Version := w |}])%list.
        split; [by rewrite <- app_assoc|]. rewrite fmap_app, not_elem_of_app. split; [done|].
        simpl. by intros ?%list_elem_of_singleton.
      * intros (front & back & E & Hb). destruct back as [|b back _] using rev_ind.
        { apply app_inj_tail in E as [_ [= -> ->]]. done. }
        rewrite app_comm_cons, app_assoc in E. apply app_inj_tail in E as [-> _].
        exists front, back. split; [done|]. rewrite fmap_app, not_elem_of_app in Hb. tauto.
Qed.

Lemma checkServices_None required svs :
  checkServices required svs = None <->
  forall r, r ∈ required -> exists v, advertised_at svs (r_Service r) v /\ MinVersion r <= v <= MaxVersion r.
Proof.
  unfold checkServices. fold (advertised_map svs). induction required as [|r rest IH]; simpl.
  { split; [|done]. intros _ r Hr. by apply elem_of_nil in Hr. }
  assert (Hr : check_service (advertised_map svs) r = None <->
    exists v, advertised_at svs (r_Service r) v /\ MinVersion r <= v <= MaxVersion r).
  { unfold check_service. destruct (advertised_map svs !! r_Service r) as [v|] eqn:E.
    - apply advertised_map_lookup in E. destruct ((v <? MinVersion r) || (MaxVersion r <? v)) eqn:T.
      + split; [done|]. intros (v' & Ha & Hv). apply advertised_map_lookup in E, Ha.
        rewrite E in Ha. injection Ha as ->. apply orb_true_iff in T as [T|T]; bool_to_prop; lia.
      + split; [|done]. intros _. exists v. bool_to_prop. split; [done|lia].
    - split; [done|]. intros (v & Ha & _). apply advertised_map_lookup in Ha. congruence. }
  destruct (check_service _ r).
  - split; [done|]. intros H. destruct Hr as [_ Hr]. discriminate Hr. apply H. left.
  - rewrite IH. split.
    + intros H r' [->|Hin]%elem_of_cons; [by apply Hr|by apply H].
    + intros H r' Hin. apply H. by right.
Qed.

Lemma protocol_axis host plugin v :
  (v = Z.min (ProtocolMax host) (ProtocolMax plugin) /\
   Z.max (ProtocolMin host) (ProtocolMin plugin) <= v) <->
  speaks host v /\ speaks plugin v /\ forall v', speaks host v' -> speaks plugin v' -> v' <= v.
Proof.
  unfold speaks. split; [intros [-> H]; repeat split; lia|].
  intros (H1 & H2 & H3). specialize (H3 (Z.min (ProtocolMax host) (ProtocolMax plugin))). lia.
Qed.

Lemma layout_axis host plugin transport v :
  (if bool_decide (transport = TransportSHM) then highestCommonLayout (LayoutVersions host) (LayoutVersions plugin)
   else Some 0) = Some v <->
  (transport = TransportSHM -> highest_common (LayoutVersions host) (LayoutVersions plugin) v) /\
  (transport <> TransportSHM -> v = 0).
Proof.
  case_bool_decide.
  - rewrite highestCommonLayout_Some. tauto.
  - split; [intros [= <-]; done|]. intros [_ H']. by rewrite H'.
Qed.

Lemma negotiate_compatible host plugin svs t :
  Negotiate host plugin svs = Ok t <-> compatible host plugin svs t.
Proof.
  unfold Negotiate. split.
  - intros H. destruct (_ <? _) eqn:Hp; [done|]. bool_to_prop.
    destruct (firstCommon (Transports host) _) as [tr|] eqn:Ht; [|done].
    destruct (if bool_decide (tr = TransportSHM) then _ else _) as [lv|] eqn:Hl; [|done].
    destruct (firstCommon (Codecs host) _) as [co|] eqn:Hc; [|done].
    destruct (negotiateFeatures host plugin) as [fs| |] eqn:Hf; [|done|done].
    destruct (checkServices _ _) eqn:Hs; [done|]. injection H as <-.
    apply firstCommon_Some in Ht, Hc. apply layout_axis in Hl.
    apply negotiateFeatures_Ok in Hf as (Hr1 & Hr2 & Hf). rewrite checkServices_None in Hs.
    constructor; simpl; try done; [apply protocol_axis; by split|].
    intros name [(f & Hin & <- & Hq)|(f & Hin & <- & Hq)].
    + split; [by apply list_elem_of_fmap_2|]. apply Hr1. by exists f.
    + split; [|by apply list_elem_of_fmap_2]. apply Hr2. by exists f.
  - intros [Hp Ht Hl Hc Hf Hr Hs]. apply protocol_axis in Hp as [Hv Hp]. rewrite Hv in Hp.
    apply Z.ltb_ge in Hp. rewrite Hp. apply firstCommon_Some in Ht, Hc. rewrite Ht.
    apply layout_axis in Hl. rewrite Hl, Hc.
    assert (negotiateFeatures host plugin = Ok (t_Features t)) as ->.
    { apply negotiateFeatures_Ok. split; [|split; [|done]]; intros name Hn;
        apply (Hr name); auto. }
    apply checkServices_None in Hs. rewrite Hs. destruct t; simpl in *. by subst.
Qed.

(** Every reason starts with a plain character, so a truncated one is not empty. *)
Definition ascii_start (s : string) : bool :=
  match s with String a _ => code a <? 128 | EmptyString => false end.

Ltac fails := right; eexists; split; [|reflexivity]; done.

Lemma negotiate_total host plugin svs :
  (exists t, Negotiate host plugin svs = Ok t) \/
  (exists reason, ascii_start reason = true /\ Negotiate host plugin svs =
     Err {| HostOffer := host; PluginOffer := plugin; ie_Reason := reason; Kind := IncompatibleHandshake |}).
Proof.
  unfold Negotiate, negotiateFeatures.
  destruct (_ <? _); [fails|].
  destruct (firstCommon (Transports host) _); [|fails].
  destruct (if bool_decide _ then _ else _); [|fails].
  destruct (firstCommon (Codecs host) _); [|fails].
  destruct (List.find _ _); [fails|]. destruct (List.find _ _); [fails|].
  destruct (checkServices _ _) as [r|] eqn:E; [|left; by eexists].
  right. exists r. split; [|done]. revert E. unfold checkServices.
  generalize (foldl (fun m sv => <[v_Service sv := Version sv]> m) (∅ : gmap string Z) svs) as m.
  induction (Services host) as [|q rest IH]; intros m; simpl; [done|].
  destruct (check_service m q) as [r'|] eqn:Er; [|apply IH]. intros [= <-].
  unfold check_service in Er. destruct (m !! r_Service q); [destruct (_ || _)|]; by simplify_eq.
Qed.

Lemma compatible_unique host plugin svs t t' :
  compatible host plugin svs t -> compatible host plugin svs t' -> t = t'.
Proof. intros H1%negotiate_compatible H2%negotiate_compatible. congruence. Qed.

(** ** The wire *)

Lemma offer_roundtrip o nonce : HelloToOffer (Some (OfferToHello o nonce)) = o.
Proof.
  destruct o as [pmin pmax fs ts cs ss ls]. unfold HelloToOffer, OfferToHello; simpl. f_equal.
  rewrite <- list_fmap_compose. rewrite <- (list_fmap_id fs) at 2. apply list_fmap_ext. by intros i [] Hi.
Qed.

Lemma tuple_roundtrip t nonce id svs o : HelloAckToTuple (TupleToHelloAck t nonce id svs o) = t.
Proof.
  destruct t as [v tr lv fs co]. unfold HelloAckToTuple, TupleToHelloAck; simpl. f_equal.
  generalize (merge_sort_Permutation String.le (map_to_list fs).*1).
  generalize (merge_sort String.le (map_to_list fs).*1) as names. intros names Hp.
  assert (E : forall r, foldl (fun m f => <[pb_Name f := pb_Supported f]> m) r
      ((fun name => {| pb_Name := name; pb_Required := false; pb_Supported := get_flag fs name |}) <$> names)
    = foldl (fun m n => <[n := get_flag fs n]> m) r names :> gmap string bool).
  { clear Hp. induction names; intros r; simpl; [done|]. apply IHnames. }
  rewrite E. apply map_eq. intros name. rewrite foldl_insert_names, lookup_empty.
  case_decide as H; rewrite Hp, elem_of_map_keys in H.
  - destruct H as [b H]. unfold get_flag. by rewrite H.
  - by apply eq_None_not_Some in H as ->.
Qed.

Lemma tupleEqual_spec a b : tupleEqual a b = true <-> a = b.
Proof.
  unfold tupleEqual. rewrite !andb_true_iff, !Z.eqb_eq, !bool_decide_eq_true.
  destruct a, b; simpl. split; [by intros ((((-> & ->) & ->) & ->) & ->)|by intros [= -> -> -> -> ->]].
Qed.

Lemma first_duplicate_None seen svs :
  first_duplicate seen svs = None <->
  NoDup (v_Service <$> svs) /\ forall s, s ∈ v_Service <$> svs -> s ∉ seen.
Proof.
  revert seen. induction svs as [|sv svs IH]; intros seen; simpl.
  { split; [|done]. intros _. split; [constructor|]. intros s Hs. by apply elem_of_nil in Hs. }
  case_bool_decide.
  - split; [done|]. intros [_ H']. destruct (H' (v_Service sv)); [left|done].
  - rewrite IH, NoDup_cons. split.
    + intros [Hn Hs]. split; [split; [|done]|]; [intros Hin; by specialize (Hs _ Hin); set_solver|].
      intros s [->|Hin]%elem_of_cons; [done|]. specialize (Hs _ Hin). set_solver.
    + intros [[Hx Hn] Hs]. split; [done|]. intros s Hin. apply not_elem_of_union. split.
      * rewrite elem_of_singleton. by intros ->.
      * apply Hs. by right.
Qed.

Lemma firstDuplicateService_None svs : firstDuplicateService svs = None <-> NoDup (v_Service <$> svs).
Proof.
  unfold firstDuplicateService. rewrite first_duplicate_None. split; [tauto|].
  intros H. split; [done|]. intros s _. apply not_elem_of_empty.
Qed.

(** ** Truncation *)

Fixpoint stake (n : nat) (s : string) : string :=
  match n, s with
  | S n, String a s => String a (stake n s)
  | _, _ => EmptyString
  end.

Lemma substring_stake n s : String.substring 0 n s = stake n s.
Proof. revert n. induction s as [|a s IH]; intros [|n]; simpl; by rewrite ?IH. Qed.

Lemma stake_stake n m s : (n <= m)%nat -> stake n (stake m s) = stake n s.
Proof. revert n s. induction m; intros [|n] [|a s] H; simpl; try done; [lia|]. by rewrite IHm by lia. Qed.

Lemma length_stake n s : (n <= String.length s)%nat -> String.length (stake n s) = n.
Proof. revert s. induction n; intros [|a s] H; simpl in *; try lia. by rewrite IHn by lia. Qed.

Lemma stake_all s : stake (String.length s) s = s.
Proof. induction s; simpl; by rewrite ?IHs. Qed.

(** Cutting a valid text anywhere leaves at most three bytes of a broken rune. *)
Lemma valid_cut n s : ValidString s = true -> (n <= String.length s)%nat ->
  exists k, (k <= 3)%nat /\ (k <= n)%nat /\ ValidString (stake (n - k) s) = true.
Proof.
  revert s. induction (lt_wf n) as [n _ IH]. intros s Hv Hn.
  destruct n as [|n]; [exists O; split; [lia|split; [lia|by destruct s]]|].
  destruct s as [|a s]; [simpl in Hn; lia|]. cbn [ValidString] in Hv.
  destruct (code a <? 128) eqn:E1.
  { destruct (IH n ltac:(lia) s Hv) as (k & H1 & H2 & H3); [simpl in Hn; lia|].
    exists k. split; [done|]. split; [lia|]. replace (S n - k)%nat with (S (n - k)) by lia.
    cbn [stake ValidString]. by rewrite E1. }
  destruct ((194 <=? code a) && (code a <=? 223)) eqn:E2.
  { destruct s as [|a1 s]; [done|]. apply andb_prop in Hv as [Ha Hv].
    destruct n as [|n]; [exists 1%nat; split; [lia|split; [lia|done]]|].
    destruct (IH n ltac:(lia) s Hv) as (k & H1 & H2 & H3); [simpl in Hn; lia|].
    exists k. split; [done|]. split; [lia|]. replace (S (S n) - k)%nat with (S (S (n - k))) by lia.
    cbn [stake ValidString]. by rewrite E1, E2, Ha. }
  destruct ((224 <=? code a) && (code a <=? 239)) eqn:E3.
  { destruct s as [|a1 [|a2 s]]; [done..|]. apply andb_prop in Hv as [Ha Hv].
    destruct n as [|[|n]]; [exists 1%nat; split; [lia|split; [lia|done]]|exists 2%nat; split; [lia|split; [lia|done]]|].
    destruct (IH n ltac:(lia) s Hv) as (k & H1 & H2 & H3); [simpl in Hn; lia|].
    exists k. split; [done|]. split; [lia|]. replace (S (S (S n)) - k)%nat with (S (S (S (n - k)))) by lia.
    cbn [stake ValidString]. by rewrite E1, E2, E3, Ha. }
  destruct ((240 <=? code a) && (code a <=? 244)) eqn:E4; [|done].
  destruct s as [|a1 [|a2 [|a3 s]]]; [done..|]. apply andb_prop in Hv as [Ha Hv].
  destruct n as [|[|[|n]]];
    [exists 1%nat; split; [lia|split; [lia|done]]|exists 2%nat; split; [lia|split; [lia|done]]|exists 3%nat; split; [lia|split; [lia|done]]|].
  destruct (IH n ltac:(lia) s Hv) as (k & H1 & H2 & H3); [simpl in Hn; lia|].
  exists k. split; [done|]. split; [lia|].
  replace (S (S (S (S n))) - k)%nat with (S (S (S (S (n - k))))) by lia.
  cbn [stake ValidString]. by rewrite E1, E2, E3, E4, Ha.
Qed.

(** The loop ends with the longest valid prefix, and has fuel for every byte. *)
Lemma trim_invalid_longest m s : (m <= String.length s)%nat ->
  exists k, (k <= m)%nat /\ trim_invalid m (stake m s) = stake k s /\
    ValidString (stake k s) = true /\
    forall j, (k < j <= m)%nat -> ValidString (stake j s) = false.
Proof.
  induction m as [|m IH]; intros Hm.
  - exists O. split; [done|]. split; [by destruct s|]. split; [by destruct s|]. lia.
  - cbn [trim_invalid]. rewrite length_stake by done.
    assert ((0 <? Z.of_nat (S m)) = true) as -> by (apply Z.ltb_lt; lia).
    destruct (ValidString (stake (S m) s)) eqn:E; cbn [andb negb].
    + exists (S m). repeat split; [done|by rewrite E|lia].
    + rewrite substring_stake, stake_stake by lia. replace (S m - 1)%nat with m by lia.
      destruct IH as (k & H1 & H2 & H3 & H4); [lia|].
      exists k. split; [lia|]. repeat split; [done..|]. intros j Hj.
      destruct (decide (j = S m)) as [->|]; [done|]. apply H4. lia.
Qed.

Lemma truncate_spec s n : (n < String.length s)%nat ->
  exists k, (k <= n)%nat /\ truncateUTF8 s n = stake k s /\ ValidString (stake k s) = true /\
    forall j, (k < j <= n)%nat -> ValidString (stake j s) = false.
Proof.
  intros H. unfold truncateUTF8. destruct (Nat.leb_spec (String.length s) n); [lia|].
  rewrite substring_stake, length_stake by lia. apply trim_invalid_longest. lia.
Qed.

Lemma truncate_short s n : (String.length s <= n)%nat -> truncateUTF8 s n = s.
Proof. intros H. unfold truncateUTF8. by apply Nat.leb_le in H as ->. Qed.

Lemma truncate_nonempty s n : ascii_start s = true -> (0 < n)%nat -> truncateUTF8 s n <> "".
Proof.
  intros Ha Hn. destruct (le_lt_dec (String.length s) n) as [H|H].
  { rewrite truncate_short by done. by destruct s. }
  destruct (truncate_spec s n H) as (k & H1 & -> & H3 & H4).
  destruct s as [|a s]; [done|]. destruct k; [|done]. simpl in Ha.
  specialize (H4 1%nat ltac:(lia)). cbn [stake ValidString] in H4. rewrite Ha in H4.
  by destruct s.
Qed.

(** ** Properties *)

(** C31: negotiation is exact.  [Negotiate] succeeds with a tuple if and only if
    the tuple is the compatible one: on every axis the single value the rules
    name (highest common protocol version and, for shared memory, layout
    version; first common transport and codec), every feature offered by either
    side resolved to whether both offer it, every required feature supported by
    the other side, and every service the host needs advertised within range.
    At most one tuple is compatible, and otherwise the answer is an
    [IncompatibleError] that carries both offers and a non-empty reason. *)
Theorem negotiate_exact host plugin svs :
  (forall t, Negotiate host plugin svs = Ok t <-> compatible host plugin svs t) /\
  (forall t t', compatible host plugin svs t -> compatible host plugin svs t' -> t = t') /\
  ((forall t, ~ compatible host plugin svs t) ->
   exists reason, reason <> "" /\ Negotiate host plugin svs =
     Err {| HostOffer := host; PluginOffer := plugin; ie_Reason := reason; Kind := IncompatibleHandshake |}).
Proof.
  split; [intros t; apply negotiate_compatible|]. split; [intros; by eapply compatible_unique|].
  intros Hn. destruct (negotiate_total host plugin svs) as [[t H]|(r & Hr & H)].
  - destruct (Hn t). by apply negotiate_compatible.
  - exists r. split; [by destruct r|done].
Qed.

(** Two offers that list the same things in a different order. *)
Record same_offer (o o' : Offer) : Prop := {
  so_min : ProtocolMin o = ProtocolMin o'; so_max : ProtocolMax o = ProtocolMax o';
  so_features : Features o ≡ₚ Features o'; so_transports : Transports o ≡ₚ Transports o';
  so_codecs : Codecs o ≡ₚ Codecs o'; so_services : Services o ≡ₚ Services o';
  so_layouts : LayoutVersions o ≡ₚ LayoutVersions o'
}.

Lemma same_offer_sym o o' : same_offer o o' -> same_offer o' o.
Proof. intros []. by constructor; symmetry. Qed.

Lemma offers_same o o' name : same_offer o o' -> offers o name <-> offers o' name.
Proof. intros [_ _ H _ _ _ _]. unfold offers. by rewrite H. Qed.

Lemma requires_same o o' name : same_offer o o' -> requires o name <-> requires o' name.
Proof. intros [_ _ H _ _ _ _]. unfold requires. by setoid_rewrite H. Qed.

Lemma advertised_at_unique svs service v :
  NoDup (v_Service <$> svs) ->
  (advertised_at svs service v <-> {| v_Service := service; Version := v |} ∈ svs).
Proof.
  intros Hn. split.
  - intros (front & back & -> & _). apply elem_of_app. right. left.
  - intros (front & back & ->)%list_elem_of_split. exists front, back. split; [done|].
    rewrite fmap_app, fmap_cons in Hn. apply NoDup_app in Hn as (_ & _ & Hn).
    by apply NoDup_cons in Hn as [].
Qed.

Lemma compatible_same h h' p p' svs svs' t :
  same_offer h h' -> same_offer p p' -> svs ≡ₚ svs' -> NoDup (v_Service <$> svs) ->
  compatible h p svs t -> compatible h' p' svs' t.
Proof.
  intros Sh Sp Hs Hn [Hp Ht Hl Hc Hf Hr Hv].
  assert (Oh := fun name => offers_same h h' name Sh). assert (Op := fun name => offers_same p p' name Sp).
  assert (Rh := fun name => requires_same h h' name Sh). assert (Rp := fun name => requires_same p p' name Sp).
  assert (Hn' : NoDup (v_Service <$> svs')) by by rewrite <- Hs.
  destruct Sh as [Eh1 Eh2 Fh Th Ch Vh Lh], Sp as [Ep1 Ep2 Fp Tp Cp Vp Lp].
  constructor; unfold speaks, first_common, highest_common, common in *.
  - by rewrite <- Eh1, <- Eh2, <- Ep1, <- Ep2.
  - setoid_rewrite <- Th. by setoid_rewrite <- Tp.
  - setoid_rewrite <- Lh. by setoid_rewrite <- Lp.
  - setoid_rewrite <- Ch. by setoid_rewrite <- Cp.
  - intros name. rewrite Hf. specialize (Oh name). specialize (Op name).
    case_decide; case_decide; try tauto. f_equal. apply bool_decide_ext. tauto.
  - intros name. specialize (Oh name). specialize (Op name). specialize (Rh name). specialize (Rp name).
    specialize (Hr name). tauto.
  - intros r Hin. rewrite <- Vh in Hin. destruct (Hv r Hin) as (v & Ha & Hb). exists v. split; [|done].
    apply advertised_at_unique in Ha; [|done]. apply advertised_at_unique; [done|]. by rewrite <- Hs.
Qed.

Lemma first_common_sym a b s : first_common a b s <-> first_common b a s.
Proof. unfold first_common, common. setoid_rewrite (and_comm (_ ∈ a)). done. Qed.

Lemma highest_common_sym a b v : highest_common a b v <-> highest_common b a v.
Proof. unfold highest_common, common. setoid_rewrite (and_comm (_ ∈ a)). done. Qed.

Lemma compatible_swap h p t :
  Services h = [] -> Services p = [] -> compatible h p [] t -> compatible p h [] t.
Proof.
  intros Eh Ep [Hp Ht Hl Hc Hf Hr Hv]. constructor.
  - destruct Hp as (H1 & H2 & H3). split; [done|]. split; [done|]. auto.
  - by apply first_common_sym.
  - rewrite highest_common_sym. done.
  - by apply first_common_sym.
  - intros name. rewrite Hf. case_decide; case_decide; try tauto. f_equal. apply bool_decide_ext. tauto.
  - intros name. specialize (Hr name). tauto.
  - intros r Hin. rewrite Ep in Hin. by apply elem_of_nil in Hin.
Qed.

(** Negotiation does not depend on the order of any list of the offers or
    of the advertised services, nor on which side is the host: both sides
    compute the same tuple from the same two offers, however each lists what it
    supports. *)
Theorem negotiate_order_free h h' p p' svs svs' t :
  same_offer h h' -> same_offer p p' -> svs ≡ₚ svs' -> NoDup (v_Service <$> svs) ->
  (Negotiate h p svs = Ok t <-> Negotiate h' p' svs' = Ok t) /\
  (Services h = [] -> Services p = [] -> (Negotiate h p [] = Ok t <-> Negotiate p h [] = Ok t)).
Proof.
  intros Sh Sp Hs Hn. rewrite !negotiate_compatible. split.
  - split; [by apply compatible_same|]. apply compatible_same; try by apply same_offer_sym.
    + done.
    + by rewrite <- Hs.
  - intros Eh Ep. split; by apply compatible_swap.
Qed.

(** *** Witness data *)

Definition sample_class : Layout.SizeClass :=
  {| Layout.SlabSize := 4096; Layout.SlabCount := 8; Layout.ClassBaseOffset := 0 |}.

Definition sample_layout : Layout.Layout :=
  let arena := {| Layout.Offset := 0; Layout.Bytes := 32768; Layout.ClassTableOffset := 0;
                  Layout.Classes := [sample_class] |} in
  Layout.mkLayout [] 1 0 1 0 64 8 0 0 0 arena arena.

Definition sample_config : HostConfig :=
  {| cfg_Transport := "auto"; RequireStreaming := true;
     cfg_Services := [{| r_Service := "img"; MinVersion := 1; MaxVersion := 3 |}];
     BurstMaxPayload := 1048576; ChunkMaxPayload := 65536; MaxPayload := 16384; ShmLayout := sample_layout |}.

Definition sample_services : list ServiceVersion :=
  [{| v_Service := "log"; Version := 7 |}; {| v_Service := "img"; Version := 2 |}].

Definition sample_tuple : Tuple :=
  {| ProtocolVersion := 1; Transport := "shm"; LayoutVersion := 1;
     t_Features := {[featureStreaming := true; FeatureBurst := true; FeatureStreamChunking := true]};
     Codec := "proto" |}.

(** The handshake as the two processes run it: the host's Hello, the plugin's
    answer to it, the host's verdict on the answer. *)
Definition handshake_run (Quote : string -> string) (cfg : HostConfig) (nonce : Z) (offer : Offer)
    (svs : list ServiceVersion) : outcome IncompatibleError Tuple * outcome handshake_error Tuple :=
  let '(ack, plugin_side) := pluginHandshake offer svs (OfferToHello (hostOffer cfg) nonce) in
  (plugin_side, host_acknowledge Quote cfg nonce ack).

Lemma hostOffer_codec cfg offer svs t :
  Negotiate (hostOffer cfg) offer svs = Ok t -> Codec t = codecProto.
Proof.
  intros [_ _ _ [[H _] _] _ _ _]%negotiate_compatible.
  assert (Codecs (hostOffer cfg) = [codecProto]) as E.
  { unfold hostOffer. by destruct (offeredTransports cfg). }
  rewrite E in H. by apply list_elem_of_singleton in H.
Qed.

Lemma validate_honest Quote host plugin svs t nonce :
  NoDup (v_Service <$> svs) -> Negotiate host plugin svs = Ok t ->
  ValidateAcknowledgedTuple Quote host (TupleToHelloAck t nonce no_identity svs plugin) = Ok t.
Proof.
  intros Hn H. unfold ValidateAcknowledgedTuple. rewrite tuple_roundtrip.
  unfold serviceVersionsFromAck. cbn [a_Services a_PluginOffer TupleToHelloAck].
  apply firstDuplicateService_None in Hn as ->. rewrite offer_roundtrip, H.
  assert (tupleEqual t t = true) as -> by by apply tupleEqual_spec. done.
Qed.

Lemma interlock_no_panic cfg t : validateMaxPayloadInterlock cfg t <> Panic.
Proof. unfold validateMaxPayloadInterlock. by repeat case_match. Qed.

(** C29: the two sides agree.  For a plugin that advertises each service once,
    the plugin and the host end the handshake with the same tuple, the
    compatible one, unless the host's own [MaxPayload] guarantee cannot be met
    on it; and when the offers are incompatible both fail, the host with the
    plugin's full offer, its advertised services and the plugin's own reason cut
    to [MaxIncompatibleReasonBytes].  No path panics, and the nonce check and
    the codec check never fail against such a plugin. *)
Theorem handshake_agreement Quote cfg nonce offer svs :
  NoDup (v_Service <$> svs) ->
  match handshake_run Quote cfg nonce offer svs with
  | (Ok t, verdict) =>
      compatible (hostOffer cfg) offer svs t /\
      (verdict = Ok t /\ validateMaxPayloadInterlock cfg t = Ok tt \/
       exists ie, verdict = Err (Incompatible ie) /\ validateMaxPayloadInterlock cfg t = Err ie)
  | (Err e, verdict) =>
      (forall t, ~ compatible (hostOffer cfg) offer svs t) /\
      HostOffer e = hostOffer cfg /\ PluginOffer e = offer /\
      verdict = Err (Incompatible
        {| HostOffer := hostOffer cfg; PluginOffer := add_services offer svs;
           ie_Reason := truncateUTF8 (ie_Reason e) MaxIncompatibleReasonBytes;
           Kind := IncompatibleHandshake |})
  | (Panic, _) => False
  end.
Proof.
  intros Hn. unfold handshake_run, pluginHandshake. rewrite offer_roundtrip.
  destruct (negotiate_total (hostOffer cfg) offer svs) as [[t H]|(r & Hr & H)].
  - rewrite H. split; [by apply negotiate_compatible|]. unfold host_acknowledge.
    unfold VerifyNonce. cbn [a_Nonce TupleToHelloAck OfferToHello h_Nonce]. rewrite Z.eqb_refl.
    unfold HelloAckIncompatible. cbn [a_IncompatibleReason TupleToHelloAck]. rewrite bool_decide_eq_true_2 by done.
    rewrite (validate_honest _ _ _ _ _ _ Hn H), (hostOffer_codec _ _ _ _ H).
    rewrite bool_decide_eq_true_2 by done. cbn [negb].
    destruct (validateMaxPayloadInterlock cfg t) as [[]|ie|] eqn:E; [by left|right; by exists ie|].
    by destruct (interlock_no_panic cfg t).
  - rewrite H. assert (Hne : r <> "") by by destruct r. split.
    { intros t Hc%negotiate_compatible. congruence. }
    split; [done|]. split; [done|]. unfold incompatibleReason. cbn [ie_Reason].
    rewrite bool_decide_eq_false_2 by done. unfold host_acknowledge, VerifyNonce.
    cbn [a_Nonce IncompatibleToHelloAck OfferToHello h_Nonce]. rewrite Z.eqb_refl.
    unfold HelloAckIncompatible. cbn [a_IncompatibleReason IncompatibleToHelloAck a_PluginOffer a_Services].
    rewrite (bool_decide_eq_false_2 (r = "")) by done.
    rewrite bool_decide_eq_false_2 by (apply truncate_nonempty; [done|unfold MaxIncompatibleReasonBytes; lia]).
    by rewrite offer_roundtrip.
Qed.

Lemma handshake_agreement_witness :
  handshake_run id sample_config 99 (pluginOffer defaultPluginTransports 2) sample_services
    = (Ok sample_tuple, Ok sample_tuple) /\
  compatible (hostOffer sample_config) (pluginOffer defaultPluginTransports 2) sample_services sample_tuple.
Proof.
  assert (E : handshake_run id sample_config 99 (pluginOffer defaultPluginTransports 2) sample_services
    = (Ok sample_tuple, Ok sample_tuple)) by (vm_compute; reflexivity).
  split; [exact E|].
  pose proof (handshake_agreement id sample_config 99 (pluginOffer defaultPluginTransports 2) sample_services
    ltac:(apply (bool_decide_unpack _); vm_compute; exact I)) as H.
  rewrite E in H. exact (proj1 H).
Defined.

Lemma negotiate_order_free_witness :
  Negotiate (hostOffer sample_config) (pluginOffer (reverse defaultPluginTransports) 2) (reverse sample_services)
    = Ok sample_tuple.
Proof.
  assert (Sh : same_offer (hostOffer sample_config) (hostOffer sample_config)) by by constructor.
  assert (Sp : same_offer (pluginOffer defaultPluginTransports 2) (pluginOffer (reverse defaultPluginTransports) 2)).
  { constructor; try reflexivity. symmetry. apply reverse_Permutation. }
  apply (proj1 (negotiate_order_free _ _ _ _ sample_services (reverse sample_services) sample_tuple Sh Sp
    ltac:(symmetry; apply reverse_Permutation)
    ltac:(apply (bool_decide_unpack _); vm_compute; exact I))).
  vm_compute. reflexivity.
Defined.

(** The host attaches on nothing it did not compute itself.  Whatever bytes
    of an acknowledgement arrive, the host accepts a tuple only when the nonce is
    its own, no rejection reason is present, every service is advertised once,
    the tuple is the compatible one of its own offer and the offer the
    acknowledgement carries, the acknowledged fields and features are exactly
    that tuple, and its [MaxPayload] guarantee fits the connection: within the
    socket's frame cap on uds, and on shared memory within the inline limit or
    with both burst and chunking active.  Every other acknowledgement is an
    error. *)
Theorem forged_ack_refused Quote cfg nonce ack :
  host_acknowledge Quote cfg nonce ack <> Panic /\
  forall t, host_acknowledge Quote cfg nonce ack = Ok t ->
    a_Nonce ack = nonce /\ a_IncompatibleReason ack = "" /\
    NoDup (v_Service <$> a_Services ack) /\
    compatible (hostOffer cfg) (HelloToOffer (a_PluginOffer ack)) (a_Services ack) t /\
    HelloAckToTuple ack = t /\
    (MaxPayload cfg <> 0 ->
      (Transport t <> TransportSHM -> MaxPayload cfg <= MaxFrameSize) /\
      (Transport t = TransportSHM -> MaxPayload cfg <= inline_limit cfg t \/
         BurstActive t (BurstMaxPayload cfg) = true /\ ChunkingActive t (ChunkMaxPayload cfg) = true)).
Proof.
  unfold host_acknowledge, VerifyNonce, HelloAckIncompatible, ValidateAcknowledgedTuple, serviceVersionsFromAck.
  destruct (Z.eqb_spec nonce (a_Nonce ack)) as [En|]; [|done].
  destruct (decide (a_IncompatibleReason ack = "")) as [Ei|Ei];
    [rewrite bool_decide_eq_true_2 by done|by rewrite bool_decide_eq_false_2 by done].
  destruct (firstDuplicateService _) eqn:Ed; [done|]. apply firstDuplicateService_None in Ed.
  set (o := HelloToOffer _).
  destruct (negotiate_total (hostOffer cfg) o (a_Services ack)) as [[t H]|(r & _ & ->)]; [|done].
  rewrite H. destruct (tupleEqual t _) eqn:Et; [|done]. apply tupleEqual_spec in Et.
  rewrite (hostOffer_codec _ _ _ _ H), bool_decide_eq_true_2 by done. cbn [negb].
  apply negotiate_compatible in H.
  destruct (validateMaxPayloadInterlock cfg t) eqn:Ev; [|done|by destruct (interlock_no_panic cfg t)].
  split; [done|]. intros t' [= <-]. do 5 (split; [done|]). intros Hm.
  unfold validateMaxPayloadInterlock in Ev. destruct (Z.eqb_spec (MaxPayload cfg) 0); [done|].
  split; intros Ht.
  - rewrite bool_decide_eq_false_2 in Ev by done. cbn [negb] in Ev. case_test_in Ev; [done|]. by bool_to_prop.
  - rewrite bool_decide_eq_true_2 in Ev by done. cbn [negb] in Ev.
    destruct (Z.leb_spec (MaxPayload cfg) (inline_limit cfg t)); [by left|right].
    by destruct (BurstActive _ _), (ChunkingActive _ _).
Qed.

(** Cutting a rejection reason.  The result is a prefix of at most the
    given number of bytes; a text that fits is unchanged; otherwise the result
    is valid UTF-8, no longer prefix within the bound is, and of a valid text at
    most three bytes more than necessary are lost. *)
Theorem truncate_longest_valid s n :
  exists k, truncateUTF8 s n = stake k s /\ (k <= String.length s)%nat /\
    (String.length (truncateUTF8 s n) = k) /\
    ((String.length s <= n)%nat -> truncateUTF8 s n = s) /\
    ((n < String.length s)%nat -> (k <= n)%nat /\ ValidString (truncateUTF8 s n) = true /\
       (forall j, (k < j <= n)%nat -> ValidString (stake j s) = false) /\
       (ValidString s = true -> (n <= k + 3)%nat)).
Proof.
  destruct (le_lt_dec (String.length s) n) as [H|H].
  - exists (String.length s). rewrite truncate_short, stake_all by done. repeat split; try done; lia.
  - destruct (truncate_spec s n H) as (k & H1 & E & H3 & H4). exists k. rewrite E.
    split; [done|]. split; [lia|]. split; [apply length_stake; lia|]. split; [lia|]. intros _.
    split; [done|]. split; [done|]. split; [done|]. intros Hv.
    destruct (valid_cut n s Hv) as (c & Hc & Hcn & Hvc); [lia|].
    destruct (le_lt_dec n (k + 3)) as [|Hlt]; [done|]. specialize (H4 (n - c)%nat ltac:(lia)). congruence.
Qed.

Definition sample_ack : HelloAck :=
  TupleToHelloAck sample_tuple 99 no_identity sample_services (pluginOffer defaultPluginTransports 2).

Lemma forged_ack_refused_witness :
  host_acknowledge id sample_config 99 sample_ack = Ok sample_tuple /\
  HelloAckToTuple sample_ack = sample_tuple /\
  is_ok (host_acknowledge id sample_config 98 sample_ack) = false.
Proof.
  assert (E : host_acknowledge id sample_config 99 sample_ack = Ok sample_tuple) by (vm_compute; reflexivity).
  split; [exact E|]. split; [|vm_compute; reflexivity].
  exact (proj1 (proj2 (proj2 (proj2 (proj2 (proj2 (forged_ack_refused id sample_config 99 sample_ack) _ E)))))).
Defined.

(** A text of one-byte, two-byte and three-byte runes, cut inside the last. *)
Definition sample_text : string :=
  String (Ascii.ascii_of_nat 97) (String (Ascii.ascii_of_nat 195) (String (Ascii.ascii_of_nat 169)
    (String (Ascii.ascii_of_nat 226) (String (Ascii.ascii_of_nat 130) (String (Ascii.ascii_of_nat 172) ""))))).

Lemma truncate_longest_valid_witness :
  truncateUTF8 sample_text 5 = stake 3 sample_text /\ ValidString (truncateUTF8 sample_text 5) = true.
Proof.
  destruct (truncate_longest_valid sample_text 5) as (k & E & _ & _ & _ & H).
  split; [vm_compute; reflexivity|]. apply H. vm_compute. lia.
Defined.

Lemma negotiate_exact_witness :
  Negotiate (hostOffer sample_config) (pluginOffer [TransportUDS] 0) [] =
    Err {| HostOffer := hostOffer sample_config; PluginOffer := pluginOffer [TransportUDS] 0;
           ie_Reason := "service img: not advertised by plugin (required range [1,3])";
           Kind := IncompatibleHandshake |} /\
  compatible (hostOffer sample_config) (pluginOffer defaultPluginTransports 2) sample_services sample_tuple.
Proof.
  split; [vm_compute; reflexivity|].
  apply (proj1 (negotiate_exact (hostOffer sample_config) (pluginOffer defaultPluginTransports 2) sample_services)).
  vm_compute. reflexivity.
Defined.

(** With a pin set only a binary whose digest is the pin passes; with none the
    file is not consulted. *)
Theorem identity_pin_enforced sha256 file pinned :
  VerifyBinaryIdentity sha256 file pinned = Ok tt <->
  pinned = None \/ exists bytes, file = Contents bytes /\ pinned = Some (sha256 bytes).
Proof.
  unfold VerifyBinaryIdentity. destruct pinned as [pin|]; [|tauto].
  destruct file as [| |bytes]; [naive_solver..|]. case_bool_decide; naive_solver.
Qed.

(** The ceilings alone decide the optional paths between two builds of this
    version: burst (chunking) is active exactly when shared memory was
    negotiated and the host configured a ceiling. *)
Lemma ceilings_decide cfg transports n svs t :
  0 <= BurstMaxPayload cfg -> 0 <= ChunkMaxPayload cfg ->
  Negotiate (hostOffer cfg) (pluginOffer transports n) svs = Ok t ->
  BurstActive t (BurstMaxPayload cfg)
    = bool_decide (Transport t = TransportSHM) && negb (BurstMaxPayload cfg =? 0) /\
  ChunkingActive t (ChunkMaxPayload cfg)
    = bool_decide (Transport t = TransportSHM) && negb (ChunkMaxPayload cfg =? 0).
Proof.
  intros Hb Hc [_ _ _ _ Hf _ _]%negotiate_compatible.
  unfold BurstActive, ChunkingActive, get_flag. rewrite !Hf.
  assert (P : offers (pluginOffer transports n) FeatureBurst /\
    offers (pluginOffer transports n) FeatureStreamChunking).
  { unfold offers. simpl. split; set_solver. }
  assert (B : offers (hostOffer cfg) FeatureBurst <-> 0 < BurstMaxPayload cfg).
  { unfold offers, hostOffer. destruct (offeredTransports cfg). simpl. rewrite !fmap_app.
    destruct (Z.ltb_spec 0 (BurstMaxPayload cfg)), (Z.ltb_spec 0 (ChunkMaxPayload cfg)); simpl;
      rewrite !elem_of_cons, ?elem_of_nil; unfold FeatureBurst, featureStreaming, FeatureStreamChunking;
      split; intros; try lia; try tauto; naive_solver. }
  assert (C : offers (hostOffer cfg) FeatureStreamChunking <-> 0 < ChunkMaxPayload cfg).
  { unfold offers, hostOffer. destruct (offeredTransports cfg). simpl. rewrite !fmap_app.
    destruct (Z.ltb_spec 0 (BurstMaxPayload cfg)), (Z.ltb_spec 0 (ChunkMaxPayload cfg)); simpl;
      rewrite !elem_of_cons, ?elem_of_nil; unfold FeatureBurst, featureStreaming, FeatureStreamChunking;
      split; intros; try lia; try tauto; naive_solver. }
  rewrite !decide_True by tauto. simpl.
  split; (destruct (bool_decide (Transport t = TransportSHM)); [|done]); simpl.
  - destruct (Z.eqb_spec (BurstMaxPayload cfg) 0); [by rewrite andb_false_r|].
    by rewrite bool_decide_eq_true_2 by (split; [apply B; lia|tauto]).
  - destruct (Z.eqb_spec (ChunkMaxPayload cfg) 0); [by rewrite andb_false_r|].
    by rewrite bool_decide_eq_true_2 by (split; [apply C; lia|tauto]).
Qed.
End Handshake.
