(* ===== verification/ControlConn.v ===== *)
(** * The control connection (internal/control/conn.go, fds.go, legal.go)

    One end of the control socket: sending and receiving one message per
    datagram under a context's deadline, with or without file descriptors, the
    table of kinds legal in each lifecycle state, and the helpers of
    pluginserver.go that combine them.

    The kernel and the clock are a script: [kernel n open] says how the n-th
    system call of the process ends and how long it took, given the descriptors
    open then, or that nothing would end it.  A message call waits no longer than
    the socket timeout in force, and without one, which is what the zero timeval
    means, as long as it takes.  The process's open descriptors, what its system calls asked and the connection's counters are
    the state.  The protobuf codec and [NsecToTimeval] are code outside src/ and
    are parameters.  A retry loop takes fuel.  [Spinning] is a loop that used it
    up and [Blocked] a call that never returns; the theorems show when neither
    happens, and what the model does after one is not behaviour of the code. *)

From stdpp Require Import strings gmap.
From S2P Require Import Prelude Handshake.
Import Handshake.

Module ControlConn.

Local Open Scope Z_scope.

(** ** Messages *)

Record AttachRegion := {
  ar_Generation : Z; ar_LayoutSize : Z; ar_LayoutVersion : Z; ar_FdCount : Z;
  ar_MaxDataInflight : Z; ar_BurstMaxPayload : Z; ar_ChunkMaxPayload : Z
}.

Record SnapshotHeader := { SnapshotFdCount : Z; DeclaredLength : Z; FormatVersion : Z }.

Inductive ControlBody :=
| BodyHello (h : Hello)
| BodyHelloAck (a : HelloAck)
| BodyAttachRegion (r : AttachRegion)
| BodyAttachRegionAck
| BodyHeartbeat (sequence : Z)
| BodyHeartbeatAck (sequence : Z)
| BodyDrain (deadline_unix_nano : Z)
| BodyDrainAck
| BodyResume
| BodyResumeAck
| BodySaveState (s : SnapshotHeader)
| BodySaveStateAck (checksum : list Z)
| BodyShutdown (deadline_unix_nano : Z)
| BodyShutdownAck
| BodyPoisoned (reason : string)
| BodyRestore (s : SnapshotHeader)
| BodyRestoreAck (ready : bool) (reason : string).

Record ControlMessage := { CorrelationId : Z; Generation : Z; Body : option ControlBody }.

Inductive MessageKind :=
| KindHello | KindHelloAck | KindAttachRegion | KindAttachRegionAck | KindHeartbeat
| KindHeartbeatAck | KindDrain | KindDrainAck | KindResume | KindResumeAck | KindSaveState
| KindSaveStateAck | KindShutdown | KindShutdownAck | KindPoisoned | KindRestore | KindRestoreAck.

Inductive LifecycleState :=
| StateHandshaking | StateAttaching | StateServing | StateDraining | StateShuttingDown | StateRestoring.

#[global] Instance MessageKind_eq_dec : EqDecision MessageKind.
Proof. solve_decision. Defined.
#[global] Instance LifecycleState_eq_dec : EqDecision LifecycleState.
Proof. solve_decision. Defined.

Definition Millisecond : Z := 1000000.
Definition Second : Z := 1000 * Millisecond.

(** A kind the table does not name reads as a zero duration. *)
Definition ReplyDeadlines (k : MessageKind) : Z :=
  match k with
  | KindHello => 2 * Second
  | KindAttachRegion => 2 * Second
  | KindHeartbeat => 500 * Millisecond
  | KindDrain => 30 * Second
  | KindSaveState => 10 * Second
  | KindShutdown => 5 * Second
  | _ => 0
  end.

Definition legalByState (state : LifecycleState) : list MessageKind :=
  match state with
  | StateHandshaking => [KindHello; KindHelloAck]
  | StateAttaching => [KindAttachRegion; KindAttachRegionAck]
  | StateServing => [KindHeartbeat; KindHeartbeatAck; KindDrain; KindSaveState; KindSaveStateAck;
                     KindShutdown; KindPoisoned]
  | StateDraining => [KindDrainAck; KindResume; KindResumeAck; KindSaveState; KindSaveStateAck;
                      KindShutdown; KindPoisoned]
  | StateShuttingDown => [KindShutdownAck; KindPoisoned]
  | StateRestoring => [KindRestore; KindRestoreAck]
  end.

Definition KindOf (msg : ControlMessage) : option MessageKind :=
  match Body msg with
  | None => None
  | Some b => Some match b with
    | BodyHello _ => KindHello
    | BodyHelloAck _ => KindHelloAck
    | BodyAttachRegion _ => KindAttachRegion
    | BodyAttachRegionAck => KindAttachRegionAck
    | BodyHeartbeat _ => KindHeartbeat
    | BodyHeartbeatAck _ => KindHeartbeatAck
    | BodyDrain _ => KindDrain
    | BodyDrainAck => KindDrainAck
    | BodyResume => KindResume
    | BodyResumeAck => KindResumeAck
    | BodySaveState _ => KindSaveState
    | BodySaveStateAck _ => KindSaveStateAck
    | BodyShutdown _ => KindShutdown
    | BodyShutdownAck => KindShutdownAck
    | BodyPoisoned _ => KindPoisoned
    | BodyRestore _ => KindRestore
    | BodyRestoreAck _ _ => KindRestoreAck
    end
  end.

Definition Legal (state : LifecycleState) (kind : MessageKind) : bool :=
  bool_decide (kind ∈ legalByState state).

Definition recvDeclaredFDCount (msg : ControlMessage) : option Z :=
  match Body msg with
  | Some (BodyAttachRegion r) => Some (ar_FdCount r)
  | Some (BodySaveState s) => Some (SnapshotFdCount s)
  | Some (BodyRestore s) => Some (SnapshotFdCount s)
  | _ => None
  end.

(** ** Errors, contexts and the process *)

Inductive ctx_error := Canceled | DeadlineExceeded.

Inductive conn_error :=
| CtxErr (e : ctx_error)
| DeadlinePassed
| SetsockoptErr (errno : Z)
| SyscallErr (errno : Z)
| TimedOut (errno : Z)
| ErrMarshal
| ErrUnmarshal
| ErrProtocolViolation
| Wrapped (what : string)
| Spinning
| Blocked.

Definition EINTR : Z := 4.
Definition EAGAIN : Z := 11.

(** A context: its deadline in nanoseconds of the clock, and what [Err] answers
    at each instant. *)
Record context := { Deadline : option Z; ctx_Err : Z -> option ctx_error }.

Definition with_deadline (ctx : context) (d : Z) : context :=
  let dl := match Deadline ctx with Some p => Z.min p d | None => d end in
  {| Deadline := Some dl;
     ctx_Err := fun t => match ctx_Err ctx t with
                         | Some e => Some e
                         | None => if dl <=? t then Some DeadlineExceeded else None
                         end |}.

Record Timeval := { Sec : Z; Usec : Z }.

Definition zero_timeval : Timeval := {| Sec := 0; Usec := 0 |}.

Definition micros (tv : Timeval) : Z := Sec tv * 1000000 + Usec tv.

(** Ancillary data as the socket library parses it: entries that carry rights,
    entries that do not, or data that is no list of entries; the descriptors the
    kernel installed are named in each case. *)
Inductive cmsg := Rights (fds : list Z) | NotRights.
Inductive ancillary := Cmsgs (l : list cmsg) | Garbled (fds : list Z).

(** How one system call ends, after [elapsed], or that nothing ends it
    ([hangs]). *)
Record tick := {
  elapsed : N;
  hangs : bool;
  errno : option Z;
  datagram : list Z;
  truncated : bool;
  oob : ancillary
}.

Inductive direction := SO_SNDTIMEO | SO_RCVTIMEO.

(** What a system call asked, in order, the latest last. *)
Inductive call :=
| Armed (opt : direction) (at_ : Z) (tv : Timeval)
| SentMsg (at_ : Z) (data : list Z) (fds : list Z)
| ReadMsg (at_ : Z)
| OtherCall (name : string).

Record concurrencyProbe := { inFlight : Z; overlapped : bool }.

Record Conn := {
  c_generation : Z; corrID : Z; sendProbe : concurrencyProbe; recvProbe : concurrencyProbe
}.

(** [w_open] are the process's open descriptors; [w_stray] is set when a
    descriptor that is not open is closed; [w_gone] are the transports closed so
    far, whose [Close] is from then on a no-op; [w_raw] is the set of descriptors
    an attach in progress still has to close on its way out. *)
Record world := mkWorld {
  w_now : Z; w_ticks : nat; w_open : gset Z; w_stray : bool; w_calls : list call; w_conn : Conn;
  w_gone : gset Z; w_raw : gset Z
}.

Definition io (A : Type) : Type := world -> world * outcome conn_error A.

Definition ok {A} (a : A) : io A := fun w => (w, Ok a).
Definition fail {A} (e : conn_error) : io A := fun w => (w, Err e).
Definition panic_io {A} : io A := fun w => (w, Panic).

Definition bind {A B} (m : io A) (k : A -> io B) : io B := fun w =>
  let '(w', r) := m w in
  match r with Ok a => k a w' | Err e => (w', Err e) | Panic => (w', Panic) end.

(** Runs [m] and gives its result as a value, so that the caller can branch on
    the error. *)
Definition attempt {A} (m : io A) : io (outcome conn_error A) := fun w =>
  let '(w', r) := m w in (w', Ok r).

Definition reads {A} (f : world -> A) : io A := fun w => (w, Ok (f w)).
Definition updates (f : world -> world) : io unit := fun w => (f w, Ok tt).

(** A deferred call: runs on every way out. *)
Definition finally {A} (m : io A) (f : world -> world) : io A := fun w =>
  let '(w', r) := m w in (f w', r).

Definition raise {A} (r : outcome conn_error A) : io A := fun w => (w, r).

#[global] Instance io_ret : MRet io := @ok.
#[global] Instance io_bind : MBind io := fun A B k m => bind m k.

Definition set_now (t : Z) (n : nat) (w : world) : world :=
  mkWorld t n (w_open w) (w_stray w) (w_calls w) (w_conn w) (w_gone w) (w_raw w).
Definition set_open (o : gset Z) (w : world) : world :=
  mkWorld (w_now w) (w_ticks w) o (w_stray w) (w_calls w) (w_conn w) (w_gone w) (w_raw w).
Definition record (c : call) (w : world) : world :=
  mkWorld (w_now w) (w_ticks w) (w_open w) (w_stray w) (w_calls w ++ [c]) (w_conn w) (w_gone w) (w_raw w).
Definition set_conn (c : Conn) (w : world) : world :=
  mkWorld (w_now w) (w_ticks w) (w_open w) (w_stray w) (w_calls w) c (w_gone w) (w_raw w).

(** [unix.Close]. *)
Definition close_fd (fd : Z) (w : world) : world :=
  mkWorld (w_now w) (w_ticks w) (w_open w ∖ {[fd]}) (w_stray w || negb (bool_decide (fd ∈ w_open w)))
    (w_calls w) (w_conn w) (w_gone w) (w_raw w).

Definition closeAll (fds : list Z) (w : world) : world := foldl (fun w fd => close_fd fd w) w fds.

(** ** Conn *)

Definition enter (p : concurrencyProbe) : concurrencyProbe :=
  let n := i32 (inFlight p + 1) in
  {| inFlight := n; overlapped := overlapped p || (1 <? n) |}.

Definition leave (p : concurrencyProbe) : concurrencyProbe :=
  {| inFlight := i32 (inFlight p - 1); overlapped := overlapped p |}.

Definition with_send (f : concurrencyProbe -> concurrencyProbe) (w : world) : world :=
  let c := w_conn w in
  set_conn {| c_generation := c_generation c; corrID := corrID c; sendProbe := f (sendProbe c);
              recvProbe := recvProbe c |} w.

Definition with_recv (f : concurrencyProbe -> concurrencyProbe) (w : world) : world :=
  let c := w_conn w in
  set_conn {| c_generation := c_generation c; corrID := corrID c; sendProbe := sendProbe c;
              recvProbe := f (recvProbe c) |} w.

Definition NewConn (generation : Z) : Conn :=
  {| c_generation := generation; corrID := 0;
     sendProbe := {| inFlight := 0; overlapped := false |};
     recvProbe := {| inFlight := 0; overlapped := false |} |}.

Definition SendOverlapped (c : Conn) : bool := overlapped (sendProbe c).
Definition RecvOverlapped (c : Conn) : bool := overlapped (recvProbe c).

Definition NextCorrelationID (c : Conn) : Conn * Z :=
  let id := u64 (corrID c + 1) in
  ({| c_generation := c_generation c; corrID := id; sendProbe := sendProbe c; recvProbe := recvProbe c |}, id).

Definition MaxMessageSize : Z := 4096.

Definition isTimeoutErrno (e : conn_error) : bool :=
  match e with SyscallErr n => n =? EAGAIN | SetsockoptErr n => n =? EAGAIN | _ => false end.

(** [errors.Is(err, unix.EINTR)] on a system call's answer. *)
Definition interrupted (t : tick) : bool := bool_decide (errno t = Some EINTR).

(** The socket timeout in force, in nanoseconds: the last one set, and none
    before that. *)
Definition armed (dir : direction) (l : list call) : Z :=
  foldl (fun limit c =>
    match c with
    | Armed d _ tv => match d, dir with
                      | SO_SNDTIMEO, SO_SNDTIMEO | SO_RCVTIMEO, SO_RCVTIMEO => micros tv * 1000
                      | _, _ => limit
                      end
    | _ => limit
    end) 0 l.

(** A call whose timeout expired. *)
Definition expired (limit : Z) : tick :=
  {| elapsed := Z.to_N limit; hangs := false; errno := Some EAGAIN; datagram := []; truncated := false; oob := Cmsgs [] |}.

(** What a message call under the timeout [limit] makes of what the kernel had
    for it; the zero timeout waits for ever. *)
Definition waited (limit : Z) (t : tick) : option tick :=
  if limit <=? 0 then if hangs t then None else Some t
  else Some (if hangs t || (limit <? Z.of_N (elapsed t)) then expired limit else t).

Section conn.

Context (kernel : nat -> gset Z -> tick).
Context (NsecToTimeval : Z -> Timeval).
Context (Marshal : ControlMessage -> option (list Z)).
Context (Unmarshal : list Z -> option ControlMessage).
Context (fuel : nat).

(** One system call: its effect on the process before it returns is [effect]. *)
Definition syscall (c : Z -> call) (effect : tick -> world -> world) : io tick := fun w =>
  let t := kernel (w_ticks w) (w_open w) in
  let w := record (c (w_now w)) w in
  (effect t (set_now (w_now w + Z.of_N (elapsed t)) (S (w_ticks w)) w), Ok t).

Definition no_effect (t : tick) (w : world) : world := w.

(** A message call on the socket, which its timeout ends. *)
Definition message (dir : direction) (c : Z -> call) (effect : tick -> world -> world) : io tick := fun w =>
  let w1 := record (c (w_now w)) w in
  match waited (armed dir (w_calls w)) (kernel (w_ticks w) (w_open w)) with
  | Some t => (effect t (set_now (w_now w + Z.of_N (elapsed t)) (S (w_ticks w)) w1), Ok t)
  | None => (set_now (w_now w) (S (w_ticks w)) w1, Err Blocked)
  end.

Definition setSocketTimeout (ctx : context) (opt : direction) : io unit :=
  now ← reads w_now;
  match match Deadline ctx with
        | Some d =>
          let remaining := d - now in
          if remaining <=? 0 then None else Some (NsecToTimeval remaining)
        | None => Some zero_timeval
        end with
  | None => fail DeadlinePassed
  | Some tv =>
    t ← syscall (fun at_ => Armed opt at_ tv) no_effect;
    match errno t with Some n => fail (SetsockoptErr n) | None => ok tt end
  end.

(** [rearmRecv] and [rearmSend], by direction. *)
Definition rearm (ctx : context) (opt : direction) : io unit :=
  now ← reads w_now;
  match ctx_Err ctx now with
  | Some e => fail (CtxErr e)
  | None => setSocketTimeout ctx opt
  end.

Definition answer (t : tick) : io tick :=
  match errno t with Some n => fail (SyscallErr n) | None => ok t end.

Definition installed (t : tick) : list Z :=
  match errno t with
  | Some _ => []
  | None =>
    match oob t with
    | Garbled fds => fds
    | Cmsgs l => concat (map (fun c => match c with Rights fds => fds | NotRights => [] end) l)
    end
  end.

(** The kernel installs the descriptors of a received datagram that fit. *)
Definition install (t : tick) (w : world) : world := set_open (w_open w ∪ list_to_set (installed t)) w.

Fixpoint recvmsgRetry (n : nat) (effect : tick -> world -> world) (ctx : context) : io tick :=
  match n with
  | O => fail Spinning
  | S n =>
    t ← message SO_RCVTIMEO ReadMsg effect;
    if interrupted t then rearm ctx SO_RCVTIMEO;; recvmsgRetry n effect ctx
    else answer t
  end.

Fixpoint sendmsgRetry (n : nat) (data fds : list Z) (ctx : context) : io unit :=
  match n with
  | O => fail Spinning
  | S n =>
    t ← message SO_SNDTIMEO (fun at_ => SentMsg at_ data fds) no_effect;
    if interrupted t then rearm ctx SO_SNDTIMEO;; sendmsgRetry n data fds ctx
    else answer t;; ok tt
  end.

(** Marks an expired socket timeout as the context's deadline. *)
Definition wrap_timeout (ctx : context) (e : conn_error) : conn_error :=
  match Deadline ctx, e with
  | Some _, SyscallErr n => if isTimeoutErrno e then TimedOut n else e
  | Some _, SetsockoptErr n => if isTimeoutErrno e then TimedOut n else e
  | _, _ => e
  end.

Definition wrapping {A} (ctx : context) (m : io A) : io A :=
  r ← attempt m;
  match r with Err e => fail (wrap_timeout ctx e) | _ => raise r end.

Definition check_ctx (ctx : context) : io unit :=
  now ← reads w_now;
  match ctx_Err ctx now with Some e => fail (CtxErr e) | None => ok tt end.

(** [sendFDsUnchecked]; [Send] is the same with no descriptors. *)
Definition sendFDsUnchecked (ctx : context) (msg : ControlMessage) (fds : list Z) : io unit :=
  updates (with_send enter);;
  finally
    (check_ctx ctx;;
     conn ← reads w_conn;
     let msg := if Generation msg =? 0
                then {| CorrelationId := CorrelationId msg; Generation := c_generation conn; Body := Body msg |}
                else msg in
     match Marshal msg with
     | None => fail ErrMarshal
     | Some data =>
       if MaxMessageSize <=? zlen data then fail ErrProtocolViolation
       else setSocketTimeout ctx SO_SNDTIMEO;; wrapping ctx (sendmsgRetry fuel data fds ctx)
     end)
    (with_send leave).

Definition Send (ctx : context) (msg : ControlMessage) : io unit := sendFDsUnchecked ctx msg [].

Definition declaredFDCount (msg : ControlMessage) : io Z :=
  match recvDeclaredFDCount msg with Some n => ok n | None => panic_io end.

Definition SendFDs (ctx : context) (msg : ControlMessage) (fds : list Z) : io unit :=
  declared ← declaredFDCount msg;
  if negb (declared =? u32 (zlen fds)) then fail ErrProtocolViolation
  else sendFDsUnchecked ctx msg fds.

Definition Recv (ctx : context) : io ControlMessage :=
  updates (with_recv enter);;
  finally
    (check_ctx ctx;;
     setSocketTimeout ctx SO_RCVTIMEO;;
     t ← wrapping ctx (recvmsgRetry fuel no_effect ctx);
     if truncated t then fail ErrProtocolViolation
     else match Unmarshal (datagram t) with None => fail ErrUnmarshal | Some msg => ok msg end)
    (with_recv leave).

(** [parseRights]: entries in order, and on the first that carries no rights the
    descriptors of the earlier ones are closed. *)
Fixpoint parse_entries (fds : list Z) (l : list cmsg) (w : world) : world * option (list Z) :=
  match l with
  | [] => (w, Some fds)
  | Rights more :: rest => parse_entries (fds ++ more) rest w
  | NotRights :: _ => (closeAll fds w, None)
  end.

Definition parseRights (o : ancillary) : io (list Z) := fun w =>
  match o with
  | Garbled _ => (w, Err ErrProtocolViolation)
  | Cmsgs l =>
    match parse_entries [] l w with
    | (w, Some fds) => (w, Ok fds)
    | (w, None) => (w, Err ErrProtocolViolation)
    end
  end.

(** The rejection paths: every received descriptor is closed. *)
Definition reject {A} (fds : list Z) (e : conn_error) : io A := updates (closeAll fds);; fail e.

(** [maxFDs] only sizes the ancillary buffer: which descriptors fit is the
    script's [oob], and a datagram with more is marked truncated there. *)
Definition RecvFDs (ctx : context) : io (ControlMessage * list Z) :=
  updates (with_recv enter);;
  finally
    (check_ctx ctx;;
     setSocketTimeout ctx SO_RCVTIMEO;;
     t ← wrapping ctx (recvmsgRetry fuel install ctx);
     fds ← parseRights (oob t);
     if truncated t then reject fds ErrProtocolViolation
     else match Unmarshal (datagram t) with
     | None => reject fds ErrUnmarshal
     | Some msg =>
       match recvDeclaredFDCount msg with
       | None => reject fds ErrProtocolViolation
       | Some declared =>
         if negb (declared =? u32 (zlen fds)) then reject fds ErrProtocolViolation
         else ok (msg, fds)
       end
     end)
    (with_recv leave).

(** ** The helpers of pluginserver.go *)

Definition WithTimeout (ctx : context) (d : Z) : io context :=
  now ← reads w_now; ok (with_deadline ctx (now + d)).

Definition sendControl (ctx : context) (msg : ControlMessage) (d : Z) : io unit :=
  sctx ← WithTimeout ctx d; Send sctx msg.

Definition checkKind (msg : ControlMessage) (state : LifecycleState) (want : MessageKind) : bool :=
  match KindOf msg with
  | None => false
  | Some kind => Legal state kind && bool_decide (kind = want)
  end.

Definition recvControl (ctx : context) (state : LifecycleState) (want : MessageKind) (d : Z)
  : io ControlMessage :=
  rctx ← WithTimeout ctx d;
  msg ← Recv rctx;
  if checkKind msg state want then ok msg else fail ErrProtocolViolation.

Definition recvControlFDs (ctx : context) (state : LifecycleState) (want : MessageKind) (d : Z)
  : io (ControlMessage * list Z) :=
  rctx ← WithTimeout ctx d;
  r ← RecvFDs rctx;
  if checkKind (fst r) state want then ok r else reject (snd r) ErrProtocolViolation.

End conn.

(** ** Reasoning about [io] *)

Definition post {A} (m : io A) (Q : world -> outcome conn_error A -> Prop) (w : world) : Prop :=
  let '(w', r) := m w in Q w' r.

Lemma post_bind {A B} (m : io A) (k : A -> io B) Q w :
  post m (fun w' r => match r with
    | Ok a => post (k a) Q w' | Err e => Q w' (Err e) | Panic => Q w' Panic end) w ->
  post (m ≫= k) Q w.
Proof. unfold post, mbind, io_bind, bind. destruct (m w) as [w' [a|e|]]; auto. Qed.

Lemma post_mono {A} (m : io A) (P Q : world -> outcome conn_error A -> Prop) w :
  post m P w -> (forall w' r, P w' r -> Q w' r) -> post m Q w.
Proof. unfold post. destruct (m w). auto. Qed.

Lemma post_finally {A} (m : io A) f Q w :
  post m (fun w' r => Q (f w') r) w -> post (finally m f) Q w.
Proof. unfold post, finally. by destruct (m w). Qed.

Lemma post_attempt {A} (m : io A) Q w :
  post m (fun w' r => Q w' (Ok r)) w -> post (attempt m) Q w.
Proof. unfold post, attempt. by destruct (m w). Qed.

Lemma post_intro {A} (m : io A) Q w w' r : m w = (w', r) -> Q w' r -> post m Q w.
Proof. unfold post. by intros ->. Qed.

Lemma post_run {A} (m : io A) Q w w' r : post m Q w -> m w = (w', r) -> Q w' r.
Proof. unfold post. intros H E. by rewrite E in H. Qed.

(** A relation every step of a program respects is respected by the program. *)
Definition steps_by {A} (R : world -> world -> Prop) (m : io A) : Prop := forall w, R w (fst (m w)).

Section steps.
Context (R : world -> world -> Prop) `{!Reflexive R} `{!Transitive R}.

Lemma steps_by_ok {A} (a : A) : steps_by R (ok a).
Proof. intros w. reflexivity. Qed.
Lemma steps_fail {A} e : steps_by R (@fail A e).
Proof. intros w. reflexivity. Qed.
Lemma steps_panic {A} : steps_by R (@panic_io A).
Proof. intros w. reflexivity. Qed.
Lemma steps_raise {A} (r : outcome conn_error A) : steps_by R (raise r).
Proof. intros w. reflexivity. Qed.
Lemma steps_reads {A} (f : world -> A) : steps_by R (reads f).
Proof. intros w. reflexivity. Qed.
Lemma steps_updates f : (forall w, R w (f w)) -> steps_by R (updates f).
Proof. by intros H w. Qed.
Lemma steps_bind {A B} (m : io A) (k : A -> io B) :
  steps_by R m -> (forall a, steps_by R (k a)) -> steps_by R (m ≫= k).
Proof.
  intros Hm Hk w. unfold mbind, io_bind, bind. specialize (Hm w). destruct (m w) as [w' [a|e|]]; simpl in *;
    [|done..]. etrans; [exact Hm|apply Hk].
Qed.
Lemma steps_attempt {A} (m : io A) : steps_by R m -> steps_by R (attempt m).
Proof. intros Hm w. unfold attempt. specialize (Hm w). by destruct (m w). Qed.
Lemma steps_finally {A} (m : io A) f : steps_by R m -> (forall w, R w (f w)) -> steps_by R (finally m f).
Proof. intros Hm Hf w. unfold finally. specialize (Hm w). destruct (m w); simpl in *. by etrans. Qed.
Lemma steps_syscall kernel c effect :
  (forall t w, R w (effect t (set_now (w_now w + Z.of_N (elapsed t)) (S (w_ticks w)) (record (c (w_now w)) w)))) ->
  steps_by R (syscall kernel c effect).
Proof. intros H w. unfold syscall. simpl. apply H. Qed.
Lemma steps_message kernel dir c effect :
  (forall t w, R w (effect t (set_now (w_now w + Z.of_N (elapsed t)) (S (w_ticks w)) (record (c (w_now w)) w)))) ->
  (forall c t w, R w (set_now (w_now w + Z.of_N (elapsed t)) (S (w_ticks w)) (record c w))) ->
  steps_by R (message kernel dir c effect).
Proof.
  intros H H' w. unfold message. cbn zeta. destruct (waited _ _) as [t|]; simpl; [apply H|].
  specialize (H' (c (w_now w)) (expired 0) w). simpl in H'. by rewrite Z.add_0_r in H'.
Qed.
End steps.

(** A message call ends as the kernel said, or by its timeout. *)
Lemma waited_cases limit t t' : waited limit t = Some t' -> t' = t \/ (0 < limit /\ t' = expired limit).
Proof.
  unfold waited. destruct (Z.leb_spec limit 0); [destruct (hangs t); [done|intros [= <-]; by left]|].
  intros [= <-]. destruct (_ || _); auto.
Qed.

Lemma waited_within limit t t' : waited limit t = Some t' -> 0 < limit -> Z.of_N (elapsed t') <= limit.
Proof.
  unfold waited. destruct (Z.leb_spec limit 0); [lia|]. intros [= <-] _.
  destruct (hangs t); simpl; [lia|]. destruct (Z.ltb_spec limit (Z.of_N (elapsed t))); simpl; lia.
Qed.

Lemma waited_none limit t : waited limit t = None -> limit <= 0.
Proof. unfold waited. by destruct (Z.leb_spec limit 0). Qed.

Lemma armed_snoc dir l a tv : armed dir (l ++ [Armed dir a tv]) = micros tv * 1000.
Proof. unfold armed. rewrite foldl_app. simpl. by destruct dir. Qed.

Ltac steps :=
  repeat match goal with
    | |- forall _, _ => intro
    | |- steps_by ?R (mbind _ _) => apply (steps_bind R)
    | |- steps_by ?R (attempt _) => apply (steps_attempt R)
    | |- steps_by ?R (finally _ _) => apply (steps_finally R)
    | |- steps_by ?R (ok _) => apply (steps_by_ok R)
    | |- steps_by ?R (fail _) => apply (steps_fail R)
    | |- steps_by ?R panic_io => apply (steps_panic R)
    | |- steps_by ?R (raise _) => apply (steps_raise R)
    | |- steps_by ?R (reads _) => apply (steps_reads R)
    | |- steps_by _ (if ?b then _ else _) => destruct b
    | |- steps_by _ (match ?x with _ => _ end) => destruct x
    end.

(** The descriptors and the stray mark stay. *)
Definition same_fds (w w' : world) : Prop := w_open w' = w_open w /\ w_stray w' = w_stray w.

#[global] Instance same_fds_refl : Reflexive same_fds.
Proof. by split. Qed.
#[global] Instance same_fds_trans : Transitive same_fds.
Proof. intros a b c [] []. split; congruence. Qed.

Section balanced.

Context (kernel : nat -> gset Z -> tick) (NsecToTimeval : Z -> Timeval)
  (Marshal : ControlMessage -> option (list Z)) (Unmarshal : list Z -> option ControlMessage) (fuel : nat).

Notation setSocketTimeout := (setSocketTimeout kernel NsecToTimeval).
Notation rearm := (rearm kernel NsecToTimeval).
Notation recvmsgRetry := (recvmsgRetry kernel NsecToTimeval).
Notation sendmsgRetry := (sendmsgRetry kernel NsecToTimeval).
Notation Send := (Send kernel NsecToTimeval Marshal fuel).
Notation SendFDs := (SendFDs kernel NsecToTimeval Marshal fuel).
Notation sendFDsUnchecked := (sendFDsUnchecked kernel NsecToTimeval Marshal fuel).
Notation Recv := (Recv kernel NsecToTimeval Unmarshal fuel).
Notation RecvFDs := (RecvFDs kernel NsecToTimeval Unmarshal fuel).

(** What holds of every system call and of the probes holds of the calls built
    from them. *)
Section calm.
Context (R : world -> world -> Prop) `{!Reflexive R} `{!Transitive R}.
Context (Hsys : forall c t w, R w (set_now (w_now w + Z.of_N (elapsed t)) (S (w_ticks w)) (record c w))).
Context (Hsend : forall f w, R w (with_send f w)) (Hrecv : forall f w, R w (with_recv f w)).

Lemma calm_setSocketTimeout ctx opt : steps_by R (setSocketTimeout ctx opt).
Proof. unfold setSocketTimeout. steps. apply steps_syscall. intros; apply Hsys. Qed.

Lemma calm_check_ctx ctx : steps_by R (check_ctx ctx).
Proof. unfold check_ctx. steps. Qed.

Lemma calm_rearm ctx opt : steps_by R (rearm ctx opt).
Proof. unfold rearm. steps. apply calm_setSocketTimeout. Qed.

Lemma calm_sendmsgRetry n data fds ctx : steps_by R (sendmsgRetry n data fds ctx).
Proof.
  induction n; simpl; steps; try (apply steps_message; intros; apply Hsys); try apply calm_rearm; try done.
  unfold answer. steps.
Qed.

Lemma calm_recvmsgRetry n effect ctx :
  (forall c t w, R w (effect t (set_now (w_now w + Z.of_N (elapsed t)) (S (w_ticks w)) (record c w)))) ->
  steps_by R (recvmsgRetry n effect ctx).
Proof.
  intros He. induction n; simpl; steps; try (apply steps_message; intros; [apply He|apply Hsys]); try apply calm_rearm; try done.
  unfold answer. steps.
Qed.

Lemma calm_sendFDsUnchecked ctx msg fds : steps_by R (sendFDsUnchecked ctx msg fds).
Proof.
  unfold sendFDsUnchecked, wrapping. steps; try (apply steps_updates; intros; apply Hsend);
    try apply calm_check_ctx; try apply calm_setSocketTimeout; try apply calm_sendmsgRetry; apply Hsend.
Qed.

Lemma calm_SendFDs ctx msg fds : steps_by R (SendFDs ctx msg fds).
Proof. unfold SendFDs, declaredFDCount. steps. apply calm_sendFDsUnchecked. Qed.

Lemma calm_sendControl ctx msg d : steps_by R (sendControl kernel NsecToTimeval Marshal fuel ctx msg d).
Proof. unfold sendControl, WithTimeout. steps. apply calm_sendFDsUnchecked. Qed.

Lemma calm_Recv ctx : steps_by R (Recv ctx).
Proof.
  unfold Recv, wrapping. steps; try (apply steps_updates; intros; apply Hrecv);
    try apply calm_check_ctx; try apply calm_setSocketTimeout; try (apply calm_recvmsgRetry; intros; apply Hsys);
    apply Hrecv.
Qed.

Lemma calm_recvControl ctx state want d :
  steps_by R (recvControl kernel NsecToTimeval Unmarshal fuel ctx state want d).
Proof. unfold recvControl, WithTimeout. steps. apply calm_Recv. Qed.

Context (Hinstall : forall t w, R w (install t w)) (Hclose : forall fd w, R w (close_fd fd w)).

Lemma calm_closeAll fds w : R w (closeAll fds w).
Proof. revert w. induction fds as [|fd fds IH]; intros w; simpl; [done|]. etrans; [apply Hclose|apply IH]. Qed.

Lemma calm_reject {A} fds e : steps_by R (@reject A fds e).
Proof. unfold reject. steps. apply steps_updates. intros. apply calm_closeAll. Qed.

Lemma calm_parseRights o : steps_by R (parseRights o).
Proof.
  intros w. unfold parseRights. destruct o as [l|]; [|done].
  assert (H : forall fds, R w (fst (parse_entries fds l w))).
  { induction l as [|[]]; intros fds0; simpl; [done|auto|apply calm_closeAll]. }
  specialize (H []). by destruct (parse_entries [] l w) as [w' []].
Qed.

Lemma calm_RecvFDs ctx : steps_by R (RecvFDs ctx).
Proof.
  unfold RecvFDs, wrapping. steps; try (apply steps_updates; intros; apply Hrecv);
    try apply calm_check_ctx; try apply calm_setSocketTimeout; try apply calm_parseRights;
    try apply calm_reject; try apply Hrecv.
  apply calm_recvmsgRetry. intros. etrans; [apply Hsys|apply Hinstall].
Qed.

Lemma calm_recvControlFDs ctx state want d :
  steps_by R (recvControlFDs kernel NsecToTimeval Unmarshal fuel ctx state want d).
Proof. unfold recvControlFDs, WithTimeout. steps; [apply calm_RecvFDs|apply calm_reject]. Qed.
End calm.

Lemma same_fds_sys c t w :
  same_fds w (set_now (w_now w + Z.of_N (elapsed t)) (S (w_ticks w)) (record c w)).
Proof. by split. Qed.

Lemma same_setSocketTimeout ctx opt : steps_by same_fds (setSocketTimeout ctx opt).
Proof. apply calm_setSocketTimeout; try exact _. apply same_fds_sys. Qed.

Lemma same_rearm ctx opt : steps_by same_fds (rearm ctx opt).
Proof. apply calm_rearm; try exact _. apply same_fds_sys. Qed.

(** ** Descriptors are never leaked *)

Lemma closeAll_same fds w : w_now (closeAll fds w) = w_now w /\ w_ticks (closeAll fds w) = w_ticks w /\
  w_calls (closeAll fds w) = w_calls w /\ w_conn (closeAll fds w) = w_conn w.
Proof. revert w. induction fds as [|fd fds IH]; intros w; simpl; [done|]. by destruct (IH (close_fd fd w)). Qed.

Lemma closeAll_open fds w : NoDup fds -> (forall fd, fd ∈ fds -> fd ∈ w_open w) ->
  w_open (closeAll fds w) = w_open w ∖ list_to_set fds /\ w_stray (closeAll fds w) = w_stray w.
Proof.
  revert w. induction fds as [|fd fds IH]; intros w Hn Hin; simpl; [by rewrite difference_empty_L|].
  apply NoDup_cons in Hn as [Hfd Hn].
  destruct (IH (close_fd fd w)) as [E1 E2]; [done| |].
  - intros x Hx. simpl. apply elem_of_difference. split; [apply Hin; by right|].
    rewrite elem_of_singleton. by intros ->.
  - rewrite E1, E2. simpl. rewrite bool_decide_eq_true_2 by (apply Hin; left).
    split; [set_solver|by rewrite orb_false_r].
Qed.

(** What the kernel promises of a received datagram: the descriptors it installs
    are new, and its ancillary data carries rights only. *)
Definition tick_ok (open : gset Z) (t : tick) : Prop :=
  NoDup (installed t) /\ (forall fd, fd ∈ installed t -> 0 <= fd /\ fd ∉ open) /\
  exists rights, oob t = Cmsgs (Rights <$> rights).

Lemma parse_entries_rights fds rights w :
  parse_entries fds (Rights <$> rights) w = (w, Some (fds ++ concat rights)).
Proof.
  revert fds. induction rights as [|r rights IH]; intros fds; simpl; [by rewrite app_nil_r|].
  by rewrite IH, <- app_assoc.
Qed.

Lemma installed_rights t rights :
  errno t = None -> oob t = Cmsgs (Rights <$> rights) -> installed t = concat rights.
Proof.
  intros E O. unfold installed. rewrite E, O. f_equal.
  clear O. induction rights as [|r rights IH]; simpl; [done|]. by f_equal.
Qed.

Lemma recvmsgRetry_install n ctx w :
  post (recvmsgRetry n install ctx) (fun w' r => w_stray w' = w_stray w /\
    match r with
    | Ok t => (exists k, t = kernel k (w_open w)) /\ errno t = None /\ w_open w' = w_open w ∪ list_to_set (installed t)
    | Err _ => w_open w' = w_open w
    | Panic => False
    end) w.
Proof.
  revert w. induction n as [|n IH]; intros w; simpl; [done|].
  apply post_bind. unfold post at 1, message. cbn zeta.
  destruct (waited (armed SO_RCVTIMEO (w_calls w)) (kernel (w_ticks w) (w_open w))) as [t|] eqn:Ew; [|done].
  destruct (interrupted t) eqn:Ei.
  - unfold interrupted in Ei. apply bool_decide_eq_true in Ei. apply post_bind.
    set (w1 := install t _).
    assert (E1 : same_fds w w1).
    { unfold w1, install, installed, same_fds. rewrite Ei. simpl. split; [set_solver|done]. }
    clearbody w1.
    destruct (rearm ctx SO_RCVTIMEO w1) as [w2 r] eqn:Er.
    pose proof (same_fds_trans _ _ _ E1 (same_rearm ctx SO_RCVTIMEO w1)) as [S1 S2].
    rewrite Er in S1, S2. simpl in S1, S2.
    apply (post_intro _ _ _ _ _ Er). destruct r as [[]|e|].
    + eapply post_mono; [apply IH|]. intros w' r [H1 H2]. split; [congruence|].
      destruct r; [|congruence|done]. destruct H2 as ((k & ->) & ? & ->). rewrite S1 in *. split; [by exists k|done].
    + done.
    + exfalso. revert Er. unfold ControlConn.rearm, ControlConn.setSocketTimeout, mbind, io_bind, bind, reads, syscall.
      repeat (case_match; simpl); intros; simplify_eq.
  - unfold answer. destruct (errno t) eqn:Ee.
    + unfold post, fail. simpl. split; [done|]. unfold installed. rewrite Ee. set_solver.
    + unfold post, ok. simpl. split; [done|]. split; [|done]. exists (w_ticks w).
      by destruct (waited_cases _ _ _ Ew) as [->|[_ ->]].
Qed.

Lemma reject_open {A} fds e base w :
  NoDup fds -> (forall fd, fd ∈ fds -> 0 <= fd /\ fd ∉ base) -> w_open w = base ∪ list_to_set fds ->
  post (reject fds e) (fun w' r => r = @Err _ A e /\ w_open w' = base /\ w_stray w' = w_stray w) w.
Proof.
  intros Hn Hd Ho. unfold reject. apply post_bind. unfold post, updates, fail.
  destruct (closeAll_open fds w) as [E1 E2]; [done| |].
  - intros fd Hf. rewrite Ho. set_solver.
  - split; [done|]. rewrite E1, E2, Ho. split; [|done].
    apply leibniz_equiv. intros x. rewrite elem_of_difference, elem_of_union, elem_of_list_to_set.
    specialize (Hd x). tauto.
Qed.

(** What a receiving call leaves behind. *)
Definition received_ok (w w' : world) (r : outcome conn_error (ControlMessage * list Z)) : Prop :=
  w_stray w' = w_stray w /\
  match r with
  | Ok (msg, fds) => NoDup fds /\ (forall fd, fd ∈ fds -> 0 <= fd /\ fd ∉ w_open w) /\
      w_open w' = w_open w ∪ list_to_set fds /\ recvDeclaredFDCount msg = Some (u32 (zlen fds))
  | Err _ => w_open w' = w_open w
  | Panic => False
  end.

Lemma check_ctx_post_val ctx (Q : world -> outcome conn_error unit -> Prop) w :
  (forall r, r <> Panic -> r <> Err Spinning -> r <> Err Blocked -> Q w r) -> post (check_ctx ctx) Q w.
Proof.
  intros H. unfold check_ctx, post, mbind, io_bind, bind, reads. simpl.
  destruct (ctx_Err ctx (w_now w)); by apply H.
Qed.

Lemma setSocketTimeout_post ctx opt (Q : world -> outcome conn_error unit -> Prop) w :
  (forall w' r, same_fds w w' -> r <> Panic -> Q w' r) -> post (setSocketTimeout ctx opt) Q w.
Proof.
  intros H. pose proof (same_setSocketTimeout ctx opt w) as S.
  destruct (setSocketTimeout ctx opt w) as [w' r] eqn:E. apply (post_intro _ _ _ _ _ E).
  apply H; [exact S|]. intros ->. revert E.
  unfold ControlConn.setSocketTimeout, mbind, io_bind, bind, reads, syscall.
  repeat (case_match; simpl); intros; simplify_eq.
Qed.

Lemma RecvFDs_received ctx w :
  (forall n o, tick_ok o (kernel n o)) -> post (RecvFDs ctx) (received_ok w) w.
Proof.
  intros Hk. unfold ControlConn.RecvFDs. apply post_bind. unfold post at 1. simpl. apply post_finally.
  set (w0 := with_recv enter w).
  assert (S0 : same_fds w w0) by by split.
  apply post_bind, check_ctx_post_val. intros [[]|e|] Hr _ _; [| by destruct S0|done].
  apply post_bind, setSocketTimeout_post. intros w1 [[]|e|] S1 Hr1; [| |done];
    [|destruct (same_fds_trans _ _ _ S0 S1); by split].
  pose proof (same_fds_trans _ _ _ S0 S1) as [O1 T1].
  apply post_bind. unfold wrapping. apply post_bind, post_attempt.
  eapply post_mono; [apply recvmsgRetry_install|]. intros w2 r [T2 H2].
  destruct r as [t|e|]; [|unfold post, fail; simpl; split; simpl; congruence|done].
  destruct H2 as ((k & ->) & He & O2). unfold post at 1, raise.
  destruct (Hk k (w_open w1)) as (Hn & Hd & rights & Ho). rewrite (installed_rights _ _ He Ho) in *. rewrite O1 in Hd.
  apply post_bind. unfold post at 1, parseRights. rewrite Ho, parse_entries_rights. simpl.
  assert (O2' : w_open w2 = w_open w ∪ list_to_set (concat rights)) by congruence.
  assert (Rej : forall e, post (@reject (ControlMessage * list Z) (concat rights) e)
    (fun w' r => received_ok w (with_recv leave w') r) w2).
  { intros e. eapply post_mono; [by apply (reject_open _ _ (w_open w))|].
    intros w' r' (-> & E1 & E2). split; simpl; congruence. }
  destruct (truncated (kernel k (w_open w1))); [apply Rej|].
  destruct (Unmarshal (datagram (kernel k (w_open w1)))) as [msg|]; [|apply Rej].
  destruct (recvDeclaredFDCount msg) as [d|] eqn:Ed; [|apply Rej].
  destruct (negb _) eqn:Eq; [apply Rej|]. bool_to_prop.
  split; simpl; [congruence|]. split; [done|]. split; [done|]. split; [done|]. by rewrite Ed, Eq.
Qed.

(** ** Every call returns by its deadline *)

(** Effects of the system calls here do not touch the clock or the log. *)
Definition keeps_time (effect : tick -> world -> world) : Prop :=
  forall t w, w_now (effect t w) = w_now w /\ w_calls (effect t w) = w_calls w.

Lemma keeps_time_install : keeps_time install.
Proof. by split. Qed.
Lemma keeps_time_no_effect : keeps_time no_effect.
Proof. by split. Qed.

(** A socket timeout within what is left of the deadline [D] when it was set,
    and not the zero that means none unless less than a microsecond is left. *)
Definition arm_ok (D a : Z) (tv : Timeval) : Prop :=
  a < D /\ micros tv * 1000 <= D - a /\ (1000 <= D - a -> 0 < micros tv).

Definition is_msg (dir : direction) (a : Z) (c : call) : Prop :=
  match dir, c with
  | SO_SNDTIMEO, SentMsg a' _ _ => a <= a'
  | SO_RCVTIMEO, ReadMsg a' => a <= a'
  | _, _ => False
  end.

Definition call_at (c : call) : Z := match c with Armed _ a _ | SentMsg a _ _ | ReadMsg a => a | OtherCall _ => 0 end.

(** A log in which the timeout is set anew before every message call. *)
Inductive budgeted (D : Z) (dir : direction) : list call -> Prop :=
| bud_nil : budgeted D dir []
| bud_arm a tv : arm_ok D a tv -> budgeted D dir [Armed dir a tv]
| bud_msg a tv c l : arm_ok D a tv -> is_msg dir a c -> budgeted D dir l ->
    budgeted D dir (Armed dir a tv :: c :: l).

(** How a call whose log is [l] ends, at [t]: its last message call never comes
    back only if less than a microsecond was left when its timeout was set, and
    comes back within a timeout that is not zero. *)
Definition prompt (D : Z) (dir : direction) (l : list call) (t : Z) {A} (r : outcome conn_error A) : Prop :=
  (r = Err Blocked -> exists l0 a tv c, l = l0 ++ [Armed dir a tv; c] /\ is_msg dir a c /\ D - a < 1000) /\
  (forall l0 a tv c, l = l0 ++ [Armed dir a tv; c] -> is_msg dir a c -> 0 < micros tv -> t <= call_at c + micros tv * 1000).

Lemma prompt_short D dir l t {A} (r : outcome conn_error A) : (length l <= 1)%nat -> r <> Err Blocked -> prompt D dir l t r.
Proof.
  intros Hl Hr. split; [done|]. intros l0 a tv c ->. rewrite length_app in Hl. simpl in Hl. lia.
Qed.

Lemma last_two {B} (l0 l1 : list B) x y x' y' : l0 ++ [x; y] = l1 ++ [x'; y'] -> x = x' /\ y = y' /\ l0 = l1.
Proof.
  intros E. change (l0 ++ [x] ++ [y] = l1 ++ [x'] ++ [y']) in E. rewrite !app_assoc in E.
  apply app_inj_tail in E as [E ->]. apply app_inj_tail in E as [-> ->]. done.
Qed.

Lemma prompt_prepend D dir b tv c l t {A} (r : outcome conn_error A) :
  is_msg dir b c -> l <> [] -> prompt D dir l t r -> prompt D dir (Armed dir b tv :: c :: l) t r.
Proof.
  intros Hm Hl [H1 H2]. split.
  - intros Hr. destruct (H1 Hr) as (l0 & a & tv' & c' & -> & ? & ?). by exists (Armed dir b tv :: c :: l0), a, tv', c'.
  - intros l0 a tv' c' E. destruct l0 as [|x [|y l0]]; simplify_eq/=; [by destruct dir|].
    by eapply H2.
Qed.

Lemma prompt_last D dir a tv c t {A} (r : outcome conn_error A) :
  (r = Err Blocked -> is_msg dir a c /\ D - a < 1000) -> (0 < micros tv -> t <= call_at c + micros tv * 1000) ->
  prompt D dir [Armed dir a tv; c] t r.
Proof.
  intros Hr Ht. split.
  - intros H. destruct (Hr H). by exists [], a, tv, c.
  - intros l0 a' tv' c' E. destruct (last_two [] l0 _ _ _ _ E) as (? & -> & _). simplify_eq. intros _ ?. by apply Ht.
Qed.

Section deadline.
Context (Hfloor : forall n, 0 <= n -> micros (NsecToTimeval n) = n / 1000).
Context (ctx : context) (D : Z) (HD : Deadline ctx = Some D).

(** What setting the timeout does: fails with the deadline gone, or logs one
    good timeout. *)
Lemma setSocketTimeout_logs opt w :
  post (setSocketTimeout ctx opt) (fun w' r => w_now w <= w_now w' /\
    match r with
    | Ok _ => w_now w < D /\ w_now w' = w_now w + Z.of_N (elapsed (kernel (w_ticks w) (w_open w))) /\
              exists tv, arm_ok D (w_now w) tv /\ w_calls w' = w_calls w ++ [Armed opt (w_now w) tv]
    | Err e => e <> Spinning /\ e <> Blocked /\
        (w_calls w' = w_calls w /\ w_now w' = w_now w \/
         exists tv, arm_ok D (w_now w) tv /\ w_calls w' = w_calls w ++ [Armed opt (w_now w) tv])
    | Panic => False
    end) w.
Proof.
  unfold ControlConn.setSocketTimeout. apply post_bind. unfold post at 1, reads. rewrite HD.
  destruct (Z.leb_spec (D - w_now w) 0) as [H|H]; [unfold post, fail; simpl; split; [lia|]; split; [done|]; split; [done|by left]|].
  assert (Ha : arm_ok D (w_now w) (NsecToTimeval (D - w_now w))).
  { unfold arm_ok. rewrite Hfloor by lia.
    split; [lia|]. split; [|intros Hge]; Z.to_euclidean_division_equations; lia. }
  apply post_bind. unfold post at 1, syscall. simpl.
  destruct (errno (kernel (w_ticks w) (w_open w))); unfold post, fail, ok; simpl.
  - split; [lia|]. split; [done|]. split; [done|]. right. eexists. by split.
  - split; [lia|]. split; [lia|]. split; [done|]. eexists. by split.
Qed.

(** The retry loop, entered with the timeout set last: one message call, then only
    properly re-armed ones; with fuel for every nanosecond left it does not
    spin. *)
Definition retry_ok (dir : direction) (n : nat) (a : Z) (tv : Timeval) (w : world) {A} (w' : world) (r : outcome conn_error A) : Prop :=
  (exists l, w_calls w' = w_calls w ++ l /\
     ((n = 0%nat /\ l = []) \/ exists c l', l = c :: l' /\ is_msg dir (w_now w) c /\ budgeted D dir l') /\
     prompt D dir (Armed dir a tv :: l) (w_now w') r) /\
  r <> Panic /\
  ((forall k o, (1 <= elapsed (kernel k o))%N) -> (1 <= n)%nat -> D - w_now w < Z.of_nat n -> r <> Err Spinning).

(** The timeout is the one set at [a]. *)
Definition armed_at (dir : direction) (a : Z) (tv : Timeval) (w : world) : Prop :=
  arm_ok D a tv /\ a <= w_now w /\ exists h, w_calls w = h ++ [Armed dir a tv].

Lemma rearm_logs dir w :
  post (rearm ctx dir) (fun w' r => w_now w <= w_now w' /\
    match r with
    | Ok _ => w_now w < D /\ w_now w' = w_now w + Z.of_N (elapsed (kernel (w_ticks w) (w_open w))) /\
              exists tv, arm_ok D (w_now w) tv /\ w_calls w' = w_calls w ++ [Armed dir (w_now w) tv]
    | Err e => e <> Spinning /\ e <> Blocked /\
        (w_calls w' = w_calls w /\ w_now w' = w_now w \/
         exists tv, arm_ok D (w_now w) tv /\ w_calls w' = w_calls w ++ [Armed dir (w_now w) tv])
    | Panic => False
    end) w.
Proof.
  unfold ControlConn.rearm. apply post_bind. unfold post at 1, reads.
  destruct (ctx_Err ctx (w_now w)); [unfold post, fail; split; [lia|]; split; [done|]; split; [done|by left]|].
  apply setSocketTimeout_logs.
Qed.

(** One message call: what it logs, how long it may take. *)
Definition after_message (dir : direction) (a : Z) (tv : Timeval) (c : call) (w w1 : world) : Prop :=
  w_calls w1 = w_calls w ++ [c] /\ is_msg dir (w_now w) c /\ is_msg dir a c /\
  (0 < micros tv -> w_now w1 <= call_at c + micros tv * 1000) /\
  ((forall k o, (1 <= elapsed (kernel k o))%N) -> w_now w < w_now w1).

Lemma message_ok {A} dir n a tv c effect (k : tick -> io A) w :
  keeps_time effect -> armed_at dir a tv w -> is_msg dir (w_now w) (c (w_now w)) -> call_at (c (w_now w)) = w_now w ->
  (forall t w1, after_message dir a tv (c (w_now w)) w w1 -> post (k t) (retry_ok dir (S n) a tv w) w1) ->
  post (message kernel dir c effect ≫= k) (retry_ok dir (S n) a tv w) w.
Proof.
  intros Hk (Ha & Hle & h & Hh) Hm Hat H. apply post_bind. unfold post at 1, message. cbn zeta. assert (armed dir (w_calls w) = micros tv * 1000) as -> by (rewrite Hh; apply armed_snoc).
  assert (Hma : is_msg dir a (c (w_now w))) by (destruct dir, (c (w_now w)); simpl in *; lia || done).
  destruct (waited (micros tv * 1000) (kernel (w_ticks w) (w_open w))) as [t|] eqn:Ew.
  - apply H. split_and!; [by rewrite (proj2 (Hk t _))|done|done|..]; rewrite (proj1 (Hk t _)); simpl.
    + intros Hp. pose proof (waited_within _ _ _ Ew ltac:(lia)). lia.
    + intros Hone. specialize (Hone (w_ticks w) (w_open w)). destruct (waited_cases _ _ _ Ew) as [-> |[? ->]]; simpl; lia.
  - apply waited_none in Ew. destruct Ha as (? & ? & Hz). split; [|done]. exists [c (w_now w)]. split_and!; [done|right; exists (c (w_now w)), []; split_and!; [done|done|constructor]|].
    apply prompt_last; [intros _; split; [done|lia]|lia].
Qed.

Lemma retry_step {A} dir n a tv c w w1 (loop : io A) :
  after_message dir a tv c w w1 ->
  (forall a2 tv2 w2, armed_at dir a2 tv2 w2 -> post loop (retry_ok dir n a2 tv2 w2) w2) ->
  post (rearm ctx dir ;; loop) (retry_ok dir (S n) a tv w) w1.
Proof.
  intros (Hc & Hm & Hma & Hin & Ht) Hl. apply post_bind. eapply post_mono; [apply rearm_logs|].
  intros w2 [[]|e|] [Hle H]; [| |done].
  - destruct H as (Hlt & Hn & tv2 & Ha & Hw). eapply post_mono; [apply (Hl (w_now w1) tv2); split_and!; [done|done|by eexists]|].
    intros w3 r ((l & El & Hsh & Hpr) & Hp & Hs). split; [|split; [done|]].
    + exists (c :: Armed dir (w_now w1) tv2 :: l). split_and!.
      * rewrite El, Hw, Hc, <- !app_assoc. done.
      * right. exists c, (Armed dir (w_now w1) tv2 :: l). split; [done|]. split; [done|].
        destruct Hsh as [[_ ->]|(c' & l' & -> & Hm' & Hb)]; [by constructor|].
        constructor; [done| |done]. destruct dir, c'; simpl in *; lia || done.
      * by apply prompt_prepend.
    + intros Hk Hn1 Hlt1. specialize (Ht Hk). apply Hs; [done|lia|lia].
  - destruct H as (He & He' & H). split; [|split; [done|congruence]].
    destruct H as [[H Hnow]|(tv2 & Ha & H)].
    + exists [c]. rewrite H, Hc. split_and!; [done|right; exists c, []; repeat split; [done|constructor]|].
      apply prompt_last; [congruence|]. rewrite Hnow. done.
    + exists [c; Armed dir (w_now w1) tv2]. rewrite H, Hc, <- app_assoc. split_and!; [done| |].
      * right. eexists c, _. split; [done|]. split; [done|]. by constructor.
      * apply prompt_prepend; [done|done|]. apply prompt_short; [simpl; lia|congruence].
Qed.

Lemma retry_answer {A} dir n a tv c w w1 (r : outcome conn_error A) :
  after_message dir a tv c w w1 -> r <> Panic -> r <> Err Spinning -> r <> Err Blocked -> retry_ok dir (S n) a tv w w1 r.
Proof.
  intros (Hc & Hm & Hma & Hin & _) Hp Hs Hb. split; [|done]. exists [c].
  split_and!; [done|right; exists c, []; repeat split; [done|constructor]|]. by apply prompt_last.
Qed.

Lemma retry_spent {A} dir a tv w : retry_ok dir 0 a tv w w (@Err _ A Spinning).
Proof.
  split; [|split; [done|lia]]. exists []. rewrite app_nil_r. split_and!; [done|by left|]. by apply prompt_short.
Qed.

Lemma recvmsgRetry_ok n effect a tv w : keeps_time effect -> armed_at SO_RCVTIMEO a tv w ->
  post (recvmsgRetry n effect ctx) (retry_ok SO_RCVTIMEO n a tv w) w.
Proof.
  intros Hk. revert a tv w. induction n as [|n IH]; intros a tv w Ha; simpl; [apply retry_spent|].
  apply message_ok; [done|done|simpl; lia|done|]. intros t w1 H1.
  destruct (interrupted t); [by eapply retry_step|].
  unfold answer, post. destruct (errno t); by eapply retry_answer.
Qed.

Lemma sendmsgRetry_ok n data fds a tv w : armed_at SO_SNDTIMEO a tv w ->
  post (sendmsgRetry n data fds ctx) (retry_ok SO_SNDTIMEO n a tv w) w.
Proof.
  revert a tv w. induction n as [|n IH]; intros a tv w Ha; simpl; [apply retry_spent|].
  apply (message_ok SO_SNDTIMEO n a tv (fun at_ => SentMsg at_ data fds)); [done|done|simpl; lia|done|]. intros t w1 H1.
  destruct (interrupted t); [by eapply retry_step|].
  apply post_bind. unfold answer, post. destruct (errno t); by eapply retry_answer.
Qed.

(** A whole call: its log is within the deadline, and how it ends. *)
Definition call_ok (dir : direction) (w : world) {A} (w' : world) (r : outcome conn_error A) : Prop :=
  (exists l, w_calls w' = w_calls w ++ l /\ budgeted D dir l /\ prompt D dir l (w_now w') r) /\ r <> Panic /\
  ((forall k o, (1 <= elapsed (kernel k o))%N) -> (1 <= fuel)%nat -> D - w_now w < Z.of_nat fuel -> r <> Err Spinning).

(** A result that says nothing of waiting or spinning. *)
Definition plain {A} (r : outcome conn_error A) : Prop := r <> Panic /\ r <> Err Spinning /\ r <> Err Blocked.

Lemma call_quiet dir w {A} w' (r : outcome conn_error A) : w_calls w' = w_calls w -> plain r -> call_ok dir w w' r.
Proof.
  intros E (Hp & Hs & Hb). split; [|done]. exists []. rewrite app_nil_r. split_and!; [done|constructor|]. by apply prompt_short; [simpl; lia|].
Qed.

(** The armed loop, and what is done with its answer. *)
Lemma armed_call dir w w0 {A B} (loop : io A) (k : A -> io B) :
  w_calls w0 = w_calls w -> w_now w0 = w_now w ->
  (forall a tv w1, armed_at dir a tv w1 -> post loop (retry_ok dir fuel a tv w1) w1) ->
  (forall a w1, post (k a) (fun w' r => (w_calls w' = w_calls w1 /\ w_now w' = w_now w1) /\ plain r) w1) ->
  post (setSocketTimeout ctx dir ;; wrapping ctx loop ≫= k) (fun w' r => call_ok dir w w' r) w0.
Proof.
  intros Ec Et Hl Hk. apply post_bind. eapply post_mono; [apply setSocketTimeout_logs|].
  intros w1 [[]|e|] [Hle H]; [| |done].
  2:{ destruct H as (He & He' & H). split; [|split; [done|congruence]].
      destruct H as [[H _]|(tv & Ha & H)]; rewrite H, Ec; [exists []|eexists [_]].
      - rewrite app_nil_r. split_and!; [done|constructor|]. apply prompt_short; [simpl; lia|congruence].
      - split_and!; [done|by constructor|]. apply prompt_short; [simpl; lia|congruence]. }
  destruct H as (Hlt & Hn & tv & Ha & Hw). apply post_bind. unfold wrapping. apply post_bind, post_attempt.
  eapply post_mono; [apply (Hl (w_now w0) tv); split_and!; [done|done|by eexists]|]. intros w2 r ((l & El & Hsh & Hpr) & Hp & Hs).
  assert (Hbud : exists l0, w_calls w2 = w_calls w ++ l0 /\ budgeted D dir l0 /\ prompt D dir l0 (w_now w2) r).
  { exists (Armed dir (w_now w0) tv :: l). split_and!; [rewrite El, Hw, Ec, <- app_assoc; done| |done].
    destruct Hsh as [[_ ->]|(c & l' & -> & Hm & Hb)]; [by constructor|].
    constructor; [done| |done]. destruct dir, c; simpl in *; lia || done. }
  destruct Hbud as (l0 & E0 & Hb0 & Hb1 & Hb2). destruct r as [a|e|]; [| |done].
  - unfold post at 1, raise. eapply post_mono; [apply Hk|]. intros w' r' ((Ew & En) & Hp' & Hs' & Hb').
    split; [|split; [done|congruence]]. exists l0. rewrite Ew, En. split_and!; [done|done|]. by split.
  - unfold post, fail. assert (Hsame : forall e', e' = Spinning \/ e' = Blocked -> wrap_timeout ctx e = e' -> e = e').
    { intros e' He'. unfold wrap_timeout. rewrite HD. destruct e, He' as [-> | ->]; try done; by case_match. }
    split; [|split; [done|]].
    + exists l0. split_and!; [done|done|]. split; [|done]. intros [= E]. apply Hb1. f_equal. by apply (Hsame Blocked); [right|].
    + intros Hk1 Hf Hd [= E]. apply (Hs Hk1); [done|lia|]. f_equal. by apply (Hsame Spinning); [left|].
Qed.

Lemma bind_ok_r {A} (m : io A) w : (m ≫= ok) w = m w.
Proof. unfold mbind, io_bind, bind. by destruct (m w) as [w' []]. Qed.

Lemma armed_send dir w w0 {A} (loop : io A) :
  w_calls w0 = w_calls w -> w_now w0 = w_now w ->
  (forall a tv w1, armed_at dir a tv w1 -> post loop (retry_ok dir fuel a tv w1) w1) ->
  post (setSocketTimeout ctx dir ;; wrapping ctx loop) (fun w' r => call_ok dir w w' r) w0.
Proof.
  intros Ec Et Hl. pose proof (armed_call dir w w0 loop ok Ec Et Hl) as H.
  unfold post in *. unfold mbind at 1, io_bind at 1, bind at 1 in H. unfold mbind, io_bind, bind at 1.
  destruct (setSocketTimeout ctx dir w0) as [w1 [[]|e|]]; try (by apply H).
  rewrite bind_ok_r in H. by apply H.
Qed.

Lemma call_probe dir w {A} w' (r : outcome conn_error A) f g :
  call_ok dir (f w) w' r -> w_calls (f w) = w_calls w -> w_now (f w) = w_now w ->
  w_calls (g w') = w_calls w' -> w_now (g w') = w_now w' -> call_ok dir w (g w') r.
Proof.
  intros ((l & E & Hb) & Hp & Hs) Ef Et Eg En. split; [|split; [done|by rewrite <- Et]]. exists l. by rewrite Eg, E, Ef, En.
Qed.

Lemma sendFDsUnchecked_call msg fds w :
  post (sendFDsUnchecked ctx msg fds) (fun w' r => call_ok SO_SNDTIMEO w w' r) w.
Proof.
  unfold ControlConn.sendFDsUnchecked. apply post_bind. unfold post at 1, updates. apply post_finally.
  set (w0 := with_send enter w).
  assert (Hq : forall e, e <> Spinning -> e <> Blocked -> call_ok SO_SNDTIMEO w (with_send leave w0) (@Err _ unit e)).
  { intros e He He'. apply call_quiet; [done|]. split_and!; congruence. }
  apply post_bind, check_ctx_post_val. intros [[]|e|] Hr Hs Hb; [|apply Hq; congruence|done].
  apply post_bind. unfold post at 1, reads. cbn zeta.
  destruct (Marshal _) as [data|]; [|by apply Hq].
  destruct (MaxMessageSize <=? zlen data); [by apply Hq|].
  eapply post_mono; [apply (armed_send _ w0); [done|done|intros; by apply sendmsgRetry_ok]|].
  intros w' r H. by apply (call_probe _ _ _ _ (with_send enter)).
Qed.

Lemma SendFDs_call msg fds w :
  recvDeclaredFDCount msg <> None -> post (SendFDs ctx msg fds) (fun w' r => call_ok SO_SNDTIMEO w w' r) w.
Proof.
  intros Hm. unfold ControlConn.SendFDs, declaredFDCount.
  destruct (recvDeclaredFDCount msg) as [d|]; [|done]. apply post_bind. unfold post at 1, ok.
  destruct (negb _); [by apply call_quiet|]. apply sendFDsUnchecked_call.
Qed.

Lemma Recv_call w : post (Recv ctx) (fun w' r => call_ok SO_RCVTIMEO w w' r) w.
Proof.
  unfold ControlConn.Recv. apply post_bind. unfold post at 1, updates. apply post_finally.
  set (w0 := with_recv enter w).
  apply post_bind, check_ctx_post_val. intros [[]|e|] Hr Hs Hb; [|apply call_quiet; [done|by split_and!; congruence]|done].
  eapply post_mono; [apply (armed_call _ w0); [done|done|intros; by apply recvmsgRetry_ok; [apply keeps_time_no_effect|]|]|].
  - intros t w1. destruct (truncated t); [by split_and!|]. by destruct (Unmarshal _); split_and!.
  - intros w' r H. by apply (call_probe _ _ _ _ (with_recv enter)).
Qed.

Lemma parse_entries_calls fds l w :
  w_calls (fst (parse_entries fds l w)) = w_calls w /\ w_now (fst (parse_entries fds l w)) = w_now w.
Proof.
  revert fds. induction l as [|[]]; intros fds0; simpl; [done|auto|]. by destruct (closeAll_same fds0 w) as (? & _ & ? & _).
Qed.

Lemma reject_quiet {A} fds e w : e <> Spinning -> e <> Blocked ->
  post (@reject A fds e) (fun w' r => (w_calls w' = w_calls w /\ w_now w' = w_now w) /\ plain r) w.
Proof.
  intros He He'. unfold reject. apply post_bind. unfold post, updates, fail.
  destruct (closeAll_same fds w) as (? & _ & ? & _). split; [done|]. split_and!; congruence.
Qed.

Lemma RecvFDs_call w : post (RecvFDs ctx) (fun w' r => call_ok SO_RCVTIMEO w w' r) w.
Proof.
  unfold ControlConn.RecvFDs. apply post_bind. unfold post at 1, updates. apply post_finally.
  set (w0 := with_recv enter w).
  apply post_bind, check_ctx_post_val. intros [[]|e|] Hr Hs Hb; [|apply call_quiet; [done|by split_and!; congruence]|done].
  eapply post_mono; [apply (armed_call _ w0); [done|done|intros; by apply recvmsgRetry_ok; [apply keeps_time_install|]|]|].
  - intros t w1. apply post_bind. unfold post at 1, parseRights. destruct (oob t) as [l|]; [|by split_and!].
    pose proof (parse_entries_calls [] l w1) as [Hc Hn].
    destruct (parse_entries [] l w1) as [w2 [fds|]]; simpl in Hc, Hn; [|by split_and!].
    assert (Rej : forall e, e <> Spinning -> e <> Blocked ->
      post (@reject (ControlMessage * list Z) fds e)
        (fun w' r => (w_calls w' = w_calls w1 /\ w_now w' = w_now w1) /\ plain r) w2).
    { intros e He He'. rewrite <- Hc, <- Hn. by apply reject_quiet. }
    destruct (truncated t); [by apply Rej|]. destruct (Unmarshal _) as [msg|]; [|by apply Rej].
    destruct (recvDeclaredFDCount msg); [|by apply Rej]. destruct (negb _); [by apply Rej|by split_and!].
  - intros w' r H. by apply (call_probe _ _ _ _ (with_recv enter)).
Qed.

End deadline.

Lemma recvControlFDs_received ctx state want d w :
  (forall n o, tick_ok o (kernel n o)) ->
  post (recvControlFDs kernel NsecToTimeval Unmarshal fuel ctx state want d)
    (fun w' r => received_ok w w' r /\
       match r with Ok (msg, _) => KindOf msg = Some want /\ Legal state want = true | _ => True end) w.
Proof.
  intros Hk. unfold recvControlFDs. apply post_bind. unfold WithTimeout. apply post_bind.
  unfold post at 1, reads, post at 1, ok. apply post_bind.
  eapply post_mono; [by apply RecvFDs_received|]. intros w1 [[msg fds]|e|] [T H]; [|split; [split; [exact T|exact H]|done]|done].
  destruct H as (Hn & Hd & Ho & Hc). simpl. unfold checkKind.
  assert (Rej : post (@reject (ControlMessage * list Z) fds ErrProtocolViolation)
    (fun w' r => received_ok w w' r /\
       match r with Ok (msg, _) => KindOf msg = Some want /\ Legal state want = true | _ => True end) w1).
  { eapply post_mono; [by apply (reject_open _ _ (w_open w))|].
    intros w' r (-> & E1 & E2). split; [|done]. split; [congruence|done]. }
  destruct (KindOf msg) as [k|] eqn:Eko; [|apply Rej]. destruct (Legal state k) eqn:El; [|apply Rej].
  simpl. case_bool_decide as Ek; [|apply Rej]. subst k. unfold post, ok.
  split; [split; [exact T|]; by auto|]. by split.
Qed.

End balanced.

(** ** Properties *)

(** No descriptor survives a rejected message.  When the kernel installs
    fresh descriptors and ancillary data carries rights only, [RecvFDs] and
    [recvControlFDs] either return the message with exactly the descriptors that
    came with it, as many as the message declares, open and owned by the caller,
    or fail with every received descriptor closed and the process's others
    untouched; nothing that is not open is ever closed, and no path panics
    whatever kind of message the peer chose.  [recvControlFDs] returns only the
    wanted kind, legal in the given state. *)
Theorem recv_fds_never_leak kernel NsecToTimeval Unmarshal fuel ctx w :
  (forall n o, tick_ok o (kernel n o)) ->
  post (RecvFDs kernel NsecToTimeval Unmarshal fuel ctx) (received_ok w) w /\
  forall state want d,
    post (recvControlFDs kernel NsecToTimeval Unmarshal fuel ctx state want d)
      (fun w' r => received_ok w w' r /\
         match r with Ok (msg, _) => KindOf msg = Some want /\ Legal state want = true | _ => True end) w.
Proof.
  intros Hk. split; [by apply RecvFDs_received|]. intros. by apply recvControlFDs_received.
Qed.

(** C32: What a deadline [D] does for [Send], [SendFDs], [Recv] and [RecvFDs], however often the kernel interrupts them
    and whether or not anything else would end their waits.  Every message call is made with the socket timeout set anew
    since the previous one, at an instant before [D], to no more than what was left then, and to more than the zero that
    means no timeout unless less than a microsecond was left.  The last message call comes back within its timeout
    when that is not zero; a call blocks for ever only in a message call whose timeout was set with less than a
    microsecond left, where the code sets none.  If every system call takes at least a nanosecond the retry loop does
    not spin: it is over within as many attempts as there are nanoseconds left.  None of them panics on a message that
    can carry descriptors. *)
Theorem conn_calls_within_deadline kernel NsecToTimeval Marshal Unmarshal fuel ctx D w :
  (forall n, 0 <= n -> micros (NsecToTimeval n) = n / 1000) ->
  Deadline ctx = Some D ->
  post (Recv kernel NsecToTimeval Unmarshal fuel ctx) (fun w' r => call_ok kernel fuel D SO_RCVTIMEO w w' r) w /\
  post (RecvFDs kernel NsecToTimeval Unmarshal fuel ctx) (fun w' r => call_ok kernel fuel D SO_RCVTIMEO w w' r) w /\
  forall msg, post (Send kernel NsecToTimeval Marshal fuel ctx msg)
      (fun w' r => call_ok kernel fuel D SO_SNDTIMEO w w' r) w /\
    (recvDeclaredFDCount msg <> None -> forall fds,
      post (SendFDs kernel NsecToTimeval Marshal fuel ctx msg fds)
        (fun w' r => call_ok kernel fuel D SO_SNDTIMEO w w' r) w).
Proof.
  intros Hf HD. split; [by apply Recv_call|]. split; [by apply RecvFDs_call|]. intros msg.
  split; [by apply sendFDsUnchecked_call|]. intros Hm fds. by apply SendFDs_call.
Qed.

(** Below a microsecond the timeout that is set is the one that means "block
    forever": with less than 1000 ns left [setSocketTimeout] sets what it sets
    for a context without a deadline. *)
Theorem submicrosecond_deadline_blocks kernel NsecToTimeval ctx D opt w :
  (forall n, 0 <= n -> micros (NsecToTimeval n) = n / 1000) ->
  Deadline ctx = Some D -> 0 < D - w_now w < 1000 ->
  exists tv, micros tv = micros zero_timeval /\
    w_calls (fst (setSocketTimeout kernel NsecToTimeval ctx opt w)) = w_calls w ++ [Armed opt (w_now w) tv].
Proof.
  intros Hf HD Hr. exists (NsecToTimeval (D - w_now w)). rewrite Hf by lia. split.
  { unfold micros. simpl. Z.to_euclidean_division_equations; lia. }
  unfold setSocketTimeout, mbind, io_bind, bind, reads. rewrite HD.
  destruct (Z.leb_spec (D - w_now w) 0); [lia|]. unfold syscall. cbn zeta.
  by destruct (errno (kernel (w_ticks w) (w_open w))).
Qed.

(** The message as it is sent: an unset generation is the connection's. *)
Definition stamped (c : Conn) (msg : ControlMessage) : ControlMessage :=
  if Generation msg =? 0
  then {| CorrelationId := CorrelationId msg; Generation := c_generation c; Body := Body msg |} else msg.

Lemma stamped_body c msg : Body (stamped c msg) = Body msg.
Proof. unfold stamped. by destruct (Generation msg =? 0). Qed.

Lemma sendmsgRetry_last kernel NsecToTimeval n data fds ctx w :
  post (sendmsgRetry kernel NsecToTimeval n data fds ctx)
    (fun w' r => r = Ok tt -> exists at_, last (w_calls w') = Some (SentMsg at_ data fds)) w.
Proof.
  revert w. induction n as [|n IH]; intros w; simpl; [done|].
  apply post_bind. unfold post at 1, message. cbn zeta. destruct (waited _ _) as [t|]; [|done]. destruct (interrupted t).
  - apply post_bind. unfold post at 1. destruct (rearm _ _ _ _ _) as [w2 [[]|e|]]; [apply IH|done..].
  - apply post_bind. unfold answer. destruct (errno _); [done|]. unfold post, ok. intros _. simpl.
    rewrite last_snoc. by eexists.
Qed.

Lemma SendFDs_sent kernel NsecToTimeval Marshal fuel ctx msg fds w w' :
  SendFDs kernel NsecToTimeval Marshal fuel ctx msg fds w = (w', Ok tt) ->
  recvDeclaredFDCount msg = Some (u32 (zlen fds)) /\
  exists at_ data, last (w_calls w') = Some (SentMsg at_ data fds) /\
    Marshal (stamped (w_conn w) msg) = Some data /\ zlen data < MaxMessageSize.
Proof.
  intros H. revert H. unfold SendFDs, declaredFDCount. unfold mbind at 1, io_bind at 1, bind at 1.
  destruct (recvDeclaredFDCount msg) as [d|]; [|done]. unfold ok at 1.
  destruct (Z.eqb_spec d (u32 (zlen fds))) as [->|]; [|done]. cbn [negb]. intros H. split; [done|]. revert H.
  unfold sendFDsUnchecked. unfold mbind at 1, io_bind at 1, bind at 1, updates at 1, finally.
  set (w0 := with_send enter w).
  unfold mbind at 1, io_bind at 1, bind at 1, check_ctx, mbind at 1, io_bind at 1, bind at 1, reads at 1.
  destruct (ctx_Err ctx (w_now w0)); [done|]. unfold ok at 1.
  unfold mbind at 1, io_bind at 1, bind at 1, reads at 1.
  change (if Generation msg =? 0
          then {| CorrelationId := CorrelationId msg; Generation := c_generation (w_conn w0); Body := Body msg |}
          else msg) with (stamped (w_conn w) msg).
  destruct (Marshal (stamped (w_conn w) msg)) as [data|]; [|done].
  destruct (Z.leb_spec MaxMessageSize (zlen data)); [done|].
  unfold mbind at 1, io_bind at 1, bind at 1.
  destruct (setSocketTimeout kernel NsecToTimeval ctx SO_SNDTIMEO w0) as [w1 [[]|e|]]; [|done..].
  unfold wrapping, mbind, io_bind, bind, attempt.
  pose proof (sendmsgRetry_last kernel NsecToTimeval fuel data fds ctx w1) as Hl. unfold post in Hl.
  destruct (sendmsgRetry _ _ _ _ _ _ w1) as [w2 [[]|e|]]; [|done..]. unfold raise. intros [= <-].
  destruct (Hl eq_refl) as [at_ Hl']. by exists at_, data.
Qed.

(** What is sent is what is received.  A successful [SendFDs] puts one
    datagram below [MaxMessageSize] on the wire, carrying exactly the
    descriptors the message declares; a receiver handed that datagram, with as
    many descriptors, before its timeout, and the truncation flag of a buffer one byte above
    [MaxMessageSize], returns the message with the sender's generation filled in
    where it was unset and the same number of descriptors, for every codec whose
    decoding inverts its encoding. *)
Theorem control_message_roundtrip kernel NsecToTimeval Marshal Unmarshal fuel ctx msg fds w w' :
  (forall m data, Marshal m = Some data -> Unmarshal data = Some m) ->
  SendFDs kernel NsecToTimeval Marshal fuel ctx msg fds w = (w', Ok tt) ->
  exists at_ data, last (w_calls w') = Some (SentMsg at_ data fds) /\ zlen data < MaxMessageSize /\
    forall kernel2 n2 ctx2 w2 fds2,
      ctx_Err ctx2 (w_now w2) = None ->
      match Deadline ctx2 with Some d => w_now w2 < d | None => True end ->
      match Deadline ctx2 with Some d => Z.of_N n2 <= micros (NsecToTimeval (d - w_now w2)) * 1000 | None => True end ->
      errno (kernel2 (w_ticks w2) (w_open w2)) = None ->
      kernel2 (S (w_ticks w2)) (w_open w2) =
        {| elapsed := n2; hangs := false; errno := None; datagram := data; truncated := MaxMessageSize + 1 <? zlen data;
           oob := Cmsgs [Rights fds2] |} ->
      length fds2 = length fds -> (1 <= fuel)%nat ->
      snd (RecvFDs kernel2 NsecToTimeval Unmarshal fuel ctx2 w2) = Ok (stamped (w_conn w) msg, fds2).
Proof.
  intros Hcodec H. apply SendFDs_sent in H as (Hd & at_ & data & Hl & Hm & Hz).
  exists at_, data. split; [done|]. split; [done|].
  intros kernel2 n2 ctx2 w2 fds2 He HD HD' Hs Ht Hlen Hfuel.
  unfold RecvFDs. unfold mbind at 1, io_bind at 1, bind at 1, updates at 1, finally.
  set (w0 := with_recv enter w2).
  unfold mbind at 1, io_bind at 1, bind at 1, check_ctx, mbind at 1, io_bind at 1, bind at 1, reads at 1.
  change (w_now w0) with (w_now w2). rewrite He. unfold ok at 1.
  assert (S : exists w1, setSocketTimeout kernel2 NsecToTimeval ctx2 SO_RCVTIMEO w0 = (w1, Ok tt) /\
    w_ticks w1 = S (w_ticks w2) /\ w_open w1 = w_open w2 /\
    (armed SO_RCVTIMEO (w_calls w1) <= 0 \/ Z.of_N n2 <= armed SO_RCVTIMEO (w_calls w1))).
  { unfold setSocketTimeout, mbind, io_bind, bind, reads. change (w_now w0) with (w_now w2).
    destruct (Deadline ctx2) as [d|]; [destruct (Z.leb_spec (d - w_now w2) 0); [lia|]|];
      unfold syscall; cbn zeta; change (w_ticks w0) with (w_ticks w2); change (w_open w0) with (w_open w2); rewrite Hs; eexists; (split; [done|]);
      (split; [done|]); (split; [done|]); simpl; rewrite armed_snoc; [by right|by left]. }
  destruct S as (w1 & E1 & T1 & O1 & A1). unfold mbind at 1, io_bind at 1, bind at 1. rewrite E1.
  destruct fuel as [|n]; [lia|].
  assert (R : exists w3, recvmsgRetry kernel2 NsecToTimeval (S n) install ctx2 w1 = (w3, Ok (kernel2 (S (w_ticks w2)) (w_open w2)))).
  { cbn [recvmsgRetry]. unfold mbind at 1, io_bind at 1, bind at 1, message. cbn zeta. rewrite T1, O1.
    assert (waited (armed SO_RCVTIMEO (w_calls w1)) (kernel2 (S (w_ticks w2)) (w_open w2)) = Some (kernel2 (S (w_ticks w2)) (w_open w2))) as ->.
    { rewrite Ht. unfold waited. cbn [hangs elapsed]. destruct (Z.leb_spec (armed SO_RCVTIMEO (w_calls w1)) 0); [done|].
      destruct (Z.ltb_spec (armed SO_RCVTIMEO (w_calls w1)) (Z.of_N n2)); [lia|done]. }
    assert (interrupted (kernel2 (S (w_ticks w2)) (w_open w2)) = false) as -> by by rewrite Ht.
    assert (Hn : errno (kernel2 (S (w_ticks w2)) (w_open w2)) = None) by by rewrite Ht.
    unfold answer. rewrite Hn. by eexists. }
  destruct R as (w3 & E3). unfold mbind at 1, io_bind at 1, bind at 1, wrapping, mbind at 1, io_bind at 1, bind at 1.
  unfold attempt. rewrite E3. unfold raise. rewrite Ht. cbn [oob truncated datagram].
  unfold mbind at 1, io_bind at 1, bind at 1, parseRights. cbn [parse_entries app].
  destruct (Z.ltb_spec (MaxMessageSize + 1) (zlen data)); [lia|].
  rewrite (Hcodec _ _ Hm). unfold recvDeclaredFDCount in *. rewrite stamped_body.
  assert (zlen fds2 = zlen fds) as Ez by (unfold zlen; congruence).
  destruct (Body msg) as [[]|]; simplify_eq; rewrite Hd, Ez, Z.eqb_refl; done.
Qed.

(** *** Witnesses *)

Definition sample_floor (n : Z) : Timeval := {| Sec := n / 1000000000; Usec := (n mod 1000000000) / 1000 |}.

Lemma sample_floor_micros n : 0 <= n -> micros (sample_floor n) = n / 1000.
Proof. intros H. unfold micros, sample_floor. simpl. Z.to_euclidean_division_equations; lia. Qed.

(** A codec of attach messages alone: the five numbers that vary, as bytes. *)
Definition sample_marshal (m : ControlMessage) : option (list Z) :=
  match Body m with
  | Some (BodyAttachRegion r) =>
    Some [CorrelationId m; Generation m; ar_Generation r; ar_LayoutSize r; ar_LayoutVersion r; ar_FdCount r;
          ar_MaxDataInflight r; ar_BurstMaxPayload r; ar_ChunkMaxPayload r]
  | _ => None
  end.

Definition sample_unmarshal (data : list Z) : option ControlMessage :=
  match data with
  | [c; g; a1; a2; a3; a4; a5; a6; a7] =>
    Some {| CorrelationId := c; Generation := g; Body := Some (BodyAttachRegion
      {| ar_Generation := a1; ar_LayoutSize := a2; ar_LayoutVersion := a3; ar_FdCount := a4;
         ar_MaxDataInflight := a5; ar_BurstMaxPayload := a6; ar_ChunkMaxPayload := a7 |}) |}
  | _ => None
  end.

Lemma sample_codec m data : sample_marshal m = Some data -> sample_unmarshal data = Some m.
Proof.
  destruct m as [c g [b|]]; [|done]. unfold sample_marshal. cbn [Body].
  destruct b; try done. intros [= <-]. by destruct r.
Qed.

Definition sample_attach (fd_count : Z) : ControlMessage :=
  {| CorrelationId := 1; Generation := 0; Body := Some (BodyAttachRegion
    {| ar_Generation := 1; ar_LayoutSize := 8192; ar_LayoutVersion := 1; ar_FdCount := fd_count;
       ar_MaxDataInflight := 8; ar_BurstMaxPayload := 0; ar_ChunkMaxPayload := 0 |}) |}.

Definition sample_world : world := mkWorld 0 0 {[3]} false [] (NewConn 7) ∅ ∅.

Definition sample_ctx : context := {| Deadline := Some 5000; ctx_Err := fun t => if 5000 <=? t then Some DeadlineExceeded else None |}.

Definition quiet_tick : tick :=
  {| elapsed := 10; hangs := false; errno := None; datagram := []; truncated := false; oob := Cmsgs [] |}.

(** The lowest descriptor numbers above all open ones. *)
Definition next_fd (open : gset Z) : Z := 1 + foldr Z.max 0 (elements open).

Lemma next_fd_fresh open fd : next_fd open <= fd -> 0 <= fd /\ fd ∉ open.
Proof.
  intros H. split.
  { unfold next_fd in H. assert (0 <= foldr Z.max 0 (elements open)); [|lia].
    clear H. induction (elements open); simpl; lia. }
  intros Hin. apply elem_of_elements in Hin. unfold next_fd in H. revert H.
  induction (elements open) as [|x l IH]; [by apply elem_of_nil in Hin|].
  apply elem_of_cons in Hin as [->|Hin]; simpl; [lia|]. specialize (IH Hin). lia.
Qed.

(** The second call of the process is interrupted, the fourth delivers a
    descriptor more than the message declares. *)
Definition sample_kernel (n : nat) (open : gset Z) : tick :=
  match n with
  | 1%nat => {| elapsed := 20; hangs := false; errno := Some EINTR; datagram := []; truncated := false; oob := Cmsgs [] |}
  | 3%nat => {| elapsed := 30; hangs := false; errno := None;
                datagram := default [] (sample_marshal (sample_attach 1)); truncated := false;
                oob := Cmsgs [Rights [next_fd open; next_fd open + 1]] |}
  | _ => quiet_tick
  end.

Lemma fresh_pair_ok open t :
  oob t = Cmsgs [Rights [next_fd open; next_fd open + 1]] -> tick_ok open t.
Proof.
  intros E. split; [|split; [|by exists [[next_fd open; next_fd open + 1]]; rewrite E]];
    unfold installed; rewrite E; destruct (errno t); simpl.
  - constructor.
  - apply NoDup_cons. split; [|apply NoDup_singleton]. rewrite list_elem_of_singleton. lia.
  - intros fd Hfd. by apply elem_of_nil in Hfd.
  - intros fd Hfd. apply next_fd_fresh. apply elem_of_cons in Hfd as [->|Hfd]; [lia|].
    apply list_elem_of_singleton in Hfd as ->. lia.
Qed.

Lemma no_fds_ok open t : oob t = Cmsgs [] -> tick_ok open t.
Proof.
  intros E. split; [|split; [|by exists []]]; unfold installed; rewrite E; destruct (errno t); simpl;
    try apply NoDup_nil_2; intros fd Hfd; by apply elem_of_nil in Hfd.
Qed.

Lemma sample_kernel_ok n open : tick_ok open (sample_kernel n open).
Proof. destruct n as [|[|[|[|n]]]]; try (by apply no_fds_ok). by apply fresh_pair_ok. Qed.

(** Interrupted once, then refused, and both descriptors closed. *)
Lemma recv_fds_never_leak_witness :
  snd (RecvFDs sample_kernel sample_floor sample_unmarshal 9 sample_ctx sample_world) = Err ErrProtocolViolation /\
  w_open (fst (RecvFDs sample_kernel sample_floor sample_unmarshal 9 sample_ctx sample_world)) = {[3]}.
Proof.
  assert (E : snd (RecvFDs sample_kernel sample_floor sample_unmarshal 9 sample_ctx sample_world)
    = Err ErrProtocolViolation) by (vm_compute; reflexivity).
  split; [exact E|].
  pose proof (proj1 (recv_fds_never_leak sample_kernel sample_floor sample_unmarshal 9 sample_ctx sample_world
    sample_kernel_ok)) as H.
  unfold post in H.
  destruct (RecvFDs sample_kernel sample_floor sample_unmarshal 9 sample_ctx sample_world) as [w' r].
  simpl in E. rewrite E in H. exact (proj2 H).
Defined.

(** A kernel that interrupts every second call: the receive is still over after
    its deadline's worth of attempts. *)
Definition stormy_kernel (n : nat) (open : gset Z) : tick :=
  {| elapsed := 2; hangs := false; errno := if Nat.odd n then Some EINTR else None; datagram := []; truncated := false;
     oob := Cmsgs [] |}.

Definition short_ctx : context := {| Deadline := Some 20; ctx_Err := fun t => None |}.

Lemma stormy_log :
  Recv stormy_kernel sample_floor sample_unmarshal 21 short_ctx sample_world
  = (mkWorld 20 10 {[3]} false (concat (map (fun k => [Armed SO_RCVTIMEO (4 * k) zero_timeval; ReadMsg (4 * k + 2)])
       [0; 1; 2; 3; 4])) (NewConn 7) ∅ ∅, Err DeadlinePassed).
Proof. vm_compute. reflexivity. Qed.

Lemma conn_calls_within_deadline_witness :
  budgeted 20 SO_RCVTIMEO (concat (map (fun k => [Armed SO_RCVTIMEO (4 * k) zero_timeval; ReadMsg (4 * k + 2)])
    [0; 1; 2; 3; 4])).
Proof.
  destruct (post_run _ _ _ _ _ (proj1 (conn_calls_within_deadline stormy_kernel sample_floor sample_marshal
    sample_unmarshal 21 short_ctx 20 sample_world sample_floor_micros eq_refl)) stormy_log) as [(l & E & Hb & _) _].
  cbn [w_calls sample_world app] in E. rewrite E. exact Hb.
Defined.

(** A kernel with nothing to say: with five microseconds the receive times out
    after them, with twenty nanoseconds it never comes back. *)
Definition silent_kernel (n : nat) (open : gset Z) : tick :=
  {| elapsed := 10; hangs := Nat.odd n; errno := None; datagram := []; truncated := false; oob := Cmsgs [] |}.

Lemma silent_peer_times_out :
  let c := Recv silent_kernel sample_floor sample_unmarshal 9 sample_ctx sample_world in
  snd c = Err (TimedOut EAGAIN) /\ w_now (fst c) = 5010.
Proof. by vm_compute. Qed.

Lemma submicrosecond_receive_hangs :
  snd (Recv silent_kernel sample_floor sample_unmarshal 9 short_ctx sample_world) = Err Blocked.
Proof. by vm_compute. Qed.

Lemma sample_send_ok :
  SendFDs (fun _ _ => quiet_tick) sample_floor sample_marshal 2 sample_ctx (sample_attach 2) [10; 11] sample_world
  = (mkWorld 20 2 {[3]} false
       [Armed SO_SNDTIMEO 0 {| Sec := 0; Usec := 5 |};
        SentMsg 10 [1; 7; 1; 8192; 1; 2; 8; 0; 0] [10; 11]] (NewConn 7) ∅ ∅, Ok tt).
Proof. vm_compute. reflexivity. Qed.

Lemma control_message_roundtrip_witness :
  exists at_ data,
    last [Armed SO_SNDTIMEO 0 {| Sec := 0; Usec := 5 |};
          SentMsg 10 [1; 7; 1; 8192; 1; 2; 8; 0; 0] [10; 11]] = Some (SentMsg at_ data [10; 11]) /\
    zlen data < MaxMessageSize.
Proof.
  destruct (control_message_roundtrip (fun _ _ => quiet_tick) sample_floor sample_marshal sample_unmarshal 2
    sample_ctx (sample_attach 2) [10; 11] sample_world _ sample_codec sample_send_ok) as (at_ & data & H1 & H2 & _).
  exact (ex_intro _ at_ (ex_intro _ data (conj H1 H2))).
Defined.
End ControlConn.
