(* ===== verification/AttachRegion.v ===== *)
(** * Attaching a data plane (pluginserver.go, internal/supervisor/supervisor.go)

    Both sides of AttachRegion and AttachRegionAck: the plugin's receipt and
    wrapping of the descriptors, the host's creation and transfer of them, over
    the socket and over shared memory, with and without the burst socket.  What
    matters is who owns each descriptor at every exit, so a transport is the
    descriptors it owns and an event descriptor is its number.

    Three calls of the attach are steps of the script here rather than their
    bodies: the creation of a region, the shared-memory transport's [Attach],
    which keeps a duplicate of the region's descriptor, and the socket
    transport's constructor past its two socket options.  RegionLayout proves
    that creating or opening a region leaves nothing open when it fails. *)

From stdpp Require Import strings gmap.
From S2P Require Import Prelude RegionLayout TransportFrame ShmRecovery ShmAdmission Handshake ControlConn.
Import Handshake ControlConn.

Module Attach.

Local Open Scope Z_scope.

(** ** Resources *)

(** A socket transport, with the identity its idempotent [Close] is remembered
    by. *)
Record UDSTransport := { u_id : Z; u_fd : Z }.

(** The shared-memory transport owns its duplicate of the region's descriptor. *)
Record ShmTransport := { s_id : Z; s_dup : Z }.

Inductive Transport :=
| TrUDS (t : UDSTransport)
| TrShm (t : ShmTransport)
| TrBurst (shm : ShmTransport) (sock : UDSTransport) (ceiling : Z) (side : bool).

Definition owns (t : Transport) : list Z :=
  match t with
  | TrUDS u => [u_fd u]
  | TrShm s => [s_dup s]
  | TrBurst s u _ _ => [u_fd u; s_dup s]
  end.

Definition ids (t : Transport) : list Z :=
  match t with
  | TrUDS u => [u_id u]
  | TrShm s => [s_id s]
  | TrBurst s u _ _ => [u_id u; s_id s]
  end.

(** Closing the part of a transport called [id], once. *)
Definition close_once (id fd : Z) (w : world) : world :=
  if bool_decide (id ∈ w_gone w) then w
  else let w := close_fd fd w in
       mkWorld (w_now w) (w_ticks w) (w_open w) (w_stray w) (w_calls w) (w_conn w)
         ({[id]} ∪ w_gone w) (w_raw w).

Definition close_uds (u : UDSTransport) : world -> world := close_once (u_id u) (u_fd u).
Definition close_shm (s : ShmTransport) : world -> world := close_once (s_id s) (s_dup s).

(** The composite's [Close]: the socket, then the mapping. *)
Definition close_transport (t : Transport) (w : world) : world :=
  match t with
  | TrUDS u => close_uds u w
  | TrShm s => close_shm s w
  | TrBurst s u _ _ => close_shm s (close_uds u w)
  end.

Definition set_raw (raw : gset Z) (w : world) : world :=
  mkWorld (w_now w) (w_ticks w) (w_open w) (w_stray w) (w_calls w) (w_conn w) (w_gone w) raw.

(** [rawOpen[fd] = false]. *)
Definition unraw (fd : Z) (w : world) : world := set_raw (w_raw w ∖ {[fd]}) w.

(** The deferred close of what is still raw. *)
Definition close_raw (w : world) : world := set_raw ∅ (closeAll (elements (w_raw w)) w).

(** [defer func() { if err != nil { cleanup } }()]. *)
Definition guarding {A} (m : io A) (cleanup : world -> world) : io A := fun w =>
  let '(w', r) := m w in match r with Err _ => (cleanup w', r) | _ => (w', r) end.

Section attach.

Context (kernel : nat -> gset Z -> tick).
Context (NsecToTimeval : Z -> Timeval).
Context (Marshal : ControlMessage -> option (list Z)).
Context (Unmarshal : list Z -> option ControlMessage).
Context (fuel : nat).

Notation sendControl := (sendControl kernel NsecToTimeval Marshal fuel).
Notation SendFDs := (SendFDs kernel NsecToTimeval Marshal fuel).
Notation recvControl := (recvControl kernel NsecToTimeval Unmarshal fuel).
Notation recvControlFDs := (recvControlFDs kernel NsecToTimeval Unmarshal fuel).

(** A call that creates descriptors: [n] of them, or it failed. *)
Definition created (n : nat) (t : tick) : option (list Z) :=
  match errno t with
  | Some _ => None
  | None => if decide (length (installed t) = n) then Some (installed t) else None
  end.

Definition install_created (n : nat) (t : tick) (w : world) : world :=
  match created n t with Some fds => set_open (w_open w ∪ list_to_set fds) w | None => w end.

Definition creates (name : string) (n : nat) : io (list Z) :=
  t ← syscall kernel (fun _ => OtherCall name) (install_created n);
  match created n t with Some fds => ok fds | None => fail (Wrapped name) end.

Definition create1 (name : string) : io Z :=
  fds ← creates name 1; match fds with fd :: _ => ok fd | [] => fail (Wrapped name) end.

Definition fresh_id : io Z := reads (fun w => Z.of_nat (w_ticks w)).

Definition SOCK_STREAM : Z := 1.

(** [NewUDSTransport]: the socket's type is checked and its receive timeout
    set; on success the transport owns the descriptor, on failure the caller
    still does. *)
Definition NewUDSTransport (fd : Z) : io UDSTransport :=
  t ← syscall kernel (fun _ => OtherCall "getsockopt") no_effect;
  match errno t with
  | Some n => fail (SyscallErr n)
  | None =>
    if negb (bool_decide (datagram t = [SOCK_STREAM])) then fail (Wrapped "expected SOCK_STREAM")
    else
      t2 ← syscall kernel (fun _ => OtherCall "setsockopt") no_effect;
      match errno t2 with
      | Some n => fail (SetsockoptErr n)
      | None => id ← fresh_id; ok {| u_id := id; u_fd := fd |}
      end
  end.

Definition NewEventFD : io Z := create1 "eventfd".

(** [NewEventFDFromFD] takes the descriptor over, and refuses a negative one. *)
Definition NewEventFDFromFD (fd : Z) : io Z :=
  if fd <? 0 then fail (Wrapped "invalid fd") else ok fd.

Definition shm_Attach : io ShmTransport :=
  dup ← create1 "attach"; id ← fresh_id; ok {| s_id := id; s_dup := dup |}.

(** ** The plugin *)

Definition ack_message : ControlMessage :=
  {| CorrelationId := 0; Generation := 0; Body := Some BodyAttachRegionAck |}.

Definition pluginAttachUDS (ctx : context) : io Transport :=
  r ← recvControlFDs ctx StateAttaching KindAttachRegion (ReplyDeadlines KindAttachRegion);
  match snd r with
  | [dataFD] =>
    a ← attempt (NewUDSTransport dataFD);
    match a with
    | Ok tr =>
      s ← attempt (sendControl ctx ack_message (ReplyDeadlines KindAttachRegion));
      match s with
      | Ok _ => ok (TrUDS tr)
      | Err e => updates (close_uds tr);; fail e
      | Panic => panic_io
      end
    | Err e => updates (close_fd dataFD);; fail e
    | Panic => panic_io
    end
  | fds => reject fds ErrProtocolViolation
  end.

Record attachFDs := { a_region : Z; a_hp : Z; a_ph : Z; a_burst : Z }.

Definition rawSet (a : attachFDs) : gset Z :=
  let raw := {[a_region a; a_hp a; a_ph a]} in
  if 0 <=? a_burst a then raw ∪ {[a_burst a]} else raw.

(** The region's part of a message, zeros when it is not an attach. *)
Definition GetAttachRegion (msg : ControlMessage) : AttachRegion :=
  match Body msg with
  | Some (BodyAttachRegion r) => r
  | _ => {| ar_Generation := 0; ar_LayoutSize := 0; ar_LayoutVersion := 0; ar_FdCount := 0;
            ar_MaxDataInflight := 0; ar_BurstMaxPayload := 0; ar_ChunkMaxPayload := 0 |}
  end.

Definition recvAttachFDs (ctx : context) (tuple : Tuple) : io (AttachRegion * attachFDs) :=
  r ← recvControlFDs ctx StateAttaching KindAttachRegion (ReplyDeadlines KindAttachRegion);
  let ar := GetAttachRegion (fst r) in
  if BurstActive tuple (ar_BurstMaxPayload ar) then
    match snd r with
    | [region; hp; ph; burst] => ok (ar, {| a_region := region; a_hp := hp; a_ph := ph; a_burst := burst |})
    | fds => reject fds ErrProtocolViolation
    end
  else
    match snd r with
    | [region; hp; ph] => ok (ar, {| a_region := region; a_hp := hp; a_ph := ph; a_burst := -1 |})
    | fds => reject fds ErrProtocolViolation
    end.

Definition wrapPluginBurstEnd (fd : Z) : io (option UDSTransport) :=
  if fd <? 0 then ok None else u ← NewUDSTransport fd; ok (Some u).

(** [compose]. *)
Definition compose (side : bool) (burst : option UDSTransport) (ceiling : Z) (shm : ShmTransport) : Transport :=
  match burst with None => TrShm shm | Some u => TrBurst shm u ceiling side end.

Definition shmDataQueueDepth : Z := 256.
Definition shmLifecycleQueueDepth : Z := 64.

(** [shmConfig], the same on both sides. *)
Definition shmConfig (maxInflight chunkMaxPayload runThreshold : Z) (tuple : Tuple) : io Admission.Config :=
  let cfg := {| Admission.MaxInflight := maxInflight; Admission.MaxPayload := 0;
                Admission.DataQueueDepth := shmDataQueueDepth;
                Admission.LifecycleQueueDepth := shmLifecycleQueueDepth;
                Admission.Checksum := get_flag (t_Features tuple) "checksum";
                Admission.ChunkingActive := ChunkingActive tuple chunkMaxPayload;
                Admission.Escalation := Recovery.mkEscalationConfig 0 0 0 runThreshold |} in
  match Admission.ValidateChunkingClamp cfg with
  | Ok _ => ok cfg
  | Err _ => fail (Wrapped "shm config")
  | Panic => panic_io
  end.

Record pluginShmResources := { p_hpEFD : Z; p_phEFD : Z; p_chunkMaxPayload : Z }.

Definition close_res (r : pluginShmResources) (w : world) : world :=
  close_fd (p_phEFD r) (close_fd (p_hpEFD r) w).

Definition close_burst (burst : option UDSTransport) : world -> world :=
  match burst with Some u => close_uds u | None => fun w => w end.

Definition pluginAttachSHM (runThreshold : Z) (ctx : context) (tuple : Tuple)
  : io (Transport * pluginShmResources) :=
  r ← recvAttachFDs ctx tuple;
  let '(ar, afds) := r in
  updates (set_raw (rawSet afds));;
  finally
    (hpEFD ← NewEventFDFromFD (a_hp afds);
     updates (unraw (a_hp afds));;
     guarding
       (phEFD ← NewEventFDFromFD (a_ph afds);
        updates (unraw (a_ph afds));;
        guarding
          (burst ← wrapPluginBurstEnd (a_burst afds);
           match burst with Some _ => updates (unraw (a_burst afds)) | None => ok tt end;;
           guarding
             (shmConfig (ar_MaxDataInflight ar) (ar_ChunkMaxPayload ar) runThreshold tuple;;
              a ← attempt shm_Attach;
              updates (unraw (a_region afds));;
              updates (close_fd (a_region afds));;
              match a with
              | Panic => panic_io
              | Err e => fail e
              | Ok pluginTr =>
                let dataTr := compose false burst (ar_BurstMaxPayload ar) pluginTr in
                guarding
                  (sendControl ctx ack_message (ReplyDeadlines KindAttachRegion);;
                   ok (dataTr, {| p_hpEFD := hpEFD; p_phEFD := phEFD;
                                  p_chunkMaxPayload := ar_ChunkMaxPayload ar |}))
                  (close_transport dataTr)
              end)
             (close_burst burst))
          (close_fd phEFD))
       (close_fd hpEFD))
    close_raw.

Definition pluginAttach (runThreshold : Z) (ctx : context) (tuple : Tuple)
  : io (Transport * option pluginShmResources) :=
  if bool_decide (Handshake.Transport tuple = TransportSHM)
  then r ← pluginAttachSHM runThreshold ctx tuple; ok (fst r, Some (snd r))
  else tr ← pluginAttachUDS ctx; ok (tr, None).

(** ** The host *)

Definition attachUDS (ctx : context) (generation : Z) : io Transport :=
  pair ← creates "socketpair" 2;
  match pair with
  | [hostFD; pluginFD] =>
    guarding
      (let attachMsg := {| CorrelationId := 0; Generation := 0; Body := Some (BodyAttachRegion
            {| ar_Generation := generation; ar_LayoutSize := 0; ar_LayoutVersion := 0; ar_FdCount := 1;
               ar_MaxDataInflight := 0; ar_BurstMaxPayload := 0; ar_ChunkMaxPayload := 0 |}) |} in
       sctx ← WithTimeout ctx (ReplyDeadlines KindAttachRegion);
       s ← attempt (SendFDs sctx attachMsg [pluginFD]);
       updates (close_fd pluginFD);;
       match s with
       | Panic => panic_io
       | Err e => fail e
       | Ok _ =>
         recvControl ctx StateAttaching KindAttachRegionAck (ReplyDeadlines KindAttachRegion);;
         tr ← NewUDSTransport hostFD; ok (TrUDS tr)
       end)
      (close_fd hostFD)
  | _ => fail (Wrapped "socketpair")
  end.

(** The attach message of [attachSHM] as [sendAttachRegion] completes it. *)
Definition attach_message (cfg : HostConfig) (generation regionSize maxInflight : Z) (tuple : Tuple) : AttachRegion :=
  let burst := BurstActive tuple (BurstMaxPayload cfg) in
  {| ar_Generation := generation; ar_LayoutSize := regionSize; ar_LayoutVersion := LayoutVersion tuple;
     ar_FdCount := if burst then 4 else 3; ar_MaxDataInflight := u32 maxInflight;
     ar_BurstMaxPayload := if burst then BurstMaxPayload cfg else 0;
     ar_ChunkMaxPayload := ChunkMaxPayload cfg |}.

Definition sendAttachRegion (cfg : HostConfig) (ctx : context) (msg : AttachRegion) (shmFDs : list Z)
    (tuple : Tuple) : io (option UDSTransport) :=
  let attachMsg := {| CorrelationId := 0; Generation := 0; Body := Some (BodyAttachRegion msg) |} in
  if BurstActive tuple (BurstMaxPayload cfg) then
    pair ← creates "socketpair" 2;
    match pair with
    | [hostFD; pluginFD] =>
      guarding
        (sctx ← WithTimeout ctx (ReplyDeadlines KindAttachRegion);
         s ← attempt (SendFDs sctx attachMsg (shmFDs ++ [pluginFD]));
         updates (close_fd pluginFD);;
         match s with
         | Panic => panic_io
         | Err e => fail e
         | Ok _ => u ← NewUDSTransport hostFD; ok (Some u)
         end)
        (close_fd hostFD)
    | _ => fail (Wrapped "socketpair")
    end
  else
    sctx ← WithTimeout ctx (ReplyDeadlines KindAttachRegion);
    SendFDs sctx attachMsg shmFDs;; ok None.

Definition shmMaxDataInflight (maxDataInflight : Z) (layout : Layout.Layout) : Z :=
  if 0 <? maxDataInflight then maxDataInflight
  else Layout.RingCapacity layout - Layout.LifecycleReserve layout.

Record shmHostResources := { h_region : Z; h_hpEFD : Z; h_phEFD : Z }.

Definition closeRegion (r : shmHostResources) : world -> world := close_fd (h_region r).
Definition closeEventFDs (r : shmHostResources) (w : world) : world :=
  close_fd (h_phEFD r) (close_fd (h_hpEFD r) w).

Definition with_generation (g : Z) (l : Layout.Layout) : Layout.Layout :=
  Layout.mkLayout (Layout.Magic l) (Layout.LayoutVersion l) (Layout.HeaderFlags l) g (Layout.RegionSize l)
    (Layout.RingCapacity l) (Layout.LifecycleReserve l) (Layout.SyncPageOffset l) (Layout.RingHP l)
    (Layout.RingPH l) (Layout.ArenaHP l) (Layout.ArenaPH l).

(** [regionSize] is the size of the region that was created. *)
Definition attachSHM (cfg : HostConfig) (maxDataInflight runThreshold regionSize : Z) (strict : bool)
    (ctx : context) (generation : Z) (tuple : Tuple) : io (Transport * shmHostResources) :=
  let layout := with_generation generation (ShmLayout cfg) in
  let maxInflight := shmMaxDataInflight maxDataInflight layout in
  match Admission.ValidateStartupCapacity layout maxInflight (get_flag (t_Features tuple) "checksum") strict with
  | Panic => panic_io
  | Err _ => fail (Wrapped "shm capacity")
  | Ok _ =>
    region ← create1 "create region";
    guarding
      (hpEFD ← NewEventFD;
       guarding
         (phEFD ← NewEventFD;
          guarding
            (burst ← sendAttachRegion cfg ctx (attach_message cfg generation regionSize maxInflight tuple)
                       [region; hpEFD; phEFD] tuple;
             guarding
               (shmConfig maxInflight (ChunkMaxPayload cfg) runThreshold tuple;;
                hostTr ← shm_Attach;
                guarding
                  (recvControl ctx StateAttaching KindAttachRegionAck (ReplyDeadlines KindAttachRegion);;
                   ok (compose true burst (BurstMaxPayload cfg) hostTr,
                       {| h_region := region; h_hpEFD := hpEFD; h_phEFD := phEFD |}))
                  (close_shm hostTr))
               (close_burst burst))
            (close_fd phEFD))
         (close_fd hpEFD))
      (close_fd region)
  end.

Definition attach (cfg : HostConfig) (maxDataInflight runThreshold regionSize : Z) (strict : bool)
    (ctx : context) (generation : Z) (tuple : Tuple) : io (Transport * option shmHostResources) :=
  if bool_decide (Handshake.Transport tuple = TransportSHM)
  then r ← attachSHM cfg maxDataInflight runThreshold regionSize strict ctx generation tuple;
       ok (fst r, Some (snd r))
  else tr ← attachUDS ctx generation; ok (tr, None).

End attach.

(** ** Ownership *)

(** Total correctness with one postcondition for success and one for failure;
    a panic satisfies neither. *)
Definition tri {A} (P : world -> Prop) (m : io A) (Q : A -> world -> Prop) (E : world -> Prop) : Prop :=
  forall w, P w -> post m (fun w' r => match r with Ok a => Q a w' | Err _ => E w' | Panic => False end) w.

Lemma tri_ok {A} (a : A) (Q : A -> world -> Prop) E : tri (Q a) (ok a) Q E.
Proof. by intros w H. Qed.

Lemma tri_fail {A} e (Q : A -> world -> Prop) E : tri E (fail e) Q E.
Proof. by intros w H. Qed.

Lemma tri_updates f (Q : unit -> world -> Prop) E : tri (fun w => Q tt (f w)) (updates f) Q E.
Proof. by intros w H. Qed.

Lemma tri_pre {A} (P P' : world -> Prop) (m : io A) Q E :
  (forall w, P w -> P' w) -> tri P' m Q E -> tri P m Q E.
Proof. intros H Hm w Hw. by apply Hm, H. Qed.

Lemma tri_post {A} P (m : io A) (Q Q' : A -> world -> Prop) (E E' : world -> Prop) :
  tri P m Q' E' -> (forall a w, Q' a w -> Q a w) -> (forall w, E' w -> E w) -> tri P m Q E.
Proof.
  intros H HQ HE w Hw. eapply post_mono; [by apply H|]. intros w' []; eauto.
Qed.

Lemma tri_bind {A B} P (m : io A) (k : A -> io B) R Q E :
  tri P m R E -> (forall a, tri (R a) (k a) Q E) -> tri P (m ≫= k) Q E.
Proof.
  intros Hm Hk w Hw. apply post_bind. eapply post_mono; [by apply Hm|].
  intros w' [a|e|] H; [by apply Hk|done|done].
Qed.

Lemma tri_guarding {A} P (m : io A) f Q E : tri P m Q (fun w => E (f w)) -> tri P (guarding m f) Q E.
Proof.
  intros H w Hw. specialize (H w Hw). unfold post, guarding in *. by destruct (m w) as [w' [a|e|]].
Qed.

Lemma tri_finally {A} P (m : io A) f Q E :
  tri P m (fun a w => Q a (f w)) (fun w => E (f w)) -> tri P (finally m f) Q E.
Proof. intros H w Hw. specialize (H w Hw). unfold post, finally in *. by destruct (m w) as [w' [a|e|]]. Qed.

(** [attempt] hands both ways out to the continuation. *)
Lemma tri_attempt {A B} P (m : io A) (k : outcome conn_error A -> io B) R F Q E :
  tri P m R F -> (forall a, tri (R a) (k (Ok a)) Q E) -> (forall e, tri F (k (Err e)) Q E) ->
  tri P (attempt m ≫= k) Q E.
Proof.
  intros Hm Hk Hf w Hw. apply post_bind, post_attempt. eapply post_mono; [by apply Hm|].
  intros w' [a|e|] H; [by apply Hk|by apply Hf|done].
Qed.

Lemma tri_if {A} (b : bool) P (m n : io A) Q E :
  (b = true -> tri P m Q E) -> (b = false -> tri P n Q E) -> tri P (if b then m else n) Q E.
Proof. intros H1 H2. destruct b; auto. Qed.

(** Calls that never panic. *)
Definition no_panic {A} (m : io A) : Prop := forall w, snd (m w) <> Panic.

Lemma no_panic_bind {A B} (m : io A) (k : A -> io B) :
  no_panic m -> (forall a, no_panic (k a)) -> no_panic (m ≫= k).
Proof.
  intros Hm Hk w. unfold mbind, io_bind, bind. specialize (Hm w). destruct (m w) as [w' [a|e|]]; simpl in *;
    [apply Hk|done|done].
Qed.

Lemma no_panic_finally {A} (m : io A) f : no_panic m -> no_panic (finally m f).
Proof. intros H w. unfold finally. specialize (H w). by destruct (m w). Qed.

Lemma no_panic_wrapping {A} ctx (m : io A) : no_panic m -> no_panic (wrapping ctx m).
Proof.
  intros H w. unfold wrapping, mbind, io_bind, bind, attempt. specialize (H w).
  by destruct (m w) as [w' [a|e|]].
Qed.

Lemma no_panic_message kernel dir c effect : no_panic (message kernel dir c effect).
Proof. intros w. unfold message. cbn zeta. by destruct (waited _ _). Qed.

Ltac calm_calls :=
  repeat match goal with
  | |- forall _, _ => intro
  | |- no_panic (mbind _ _) => apply no_panic_bind
  | |- no_panic (finally _ _) => apply no_panic_finally
  | |- no_panic (wrapping _ _) => apply no_panic_wrapping
  | |- no_panic (if ?b then _ else _) => destruct b
  | |- no_panic (match ?x with _ => _ end) => destruct x
  | |- no_panic (ok _) => by intros ?
  | |- no_panic (fail _) => by intros ?
  | |- no_panic (reads _) => by intros ?
  | |- no_panic (updates _) => by intros ?
  | |- no_panic (syscall _ _ _) => by intros ?
  | |- no_panic (message _ _ _ _) => apply no_panic_message
  end.

Section control_calls.
Context (kernel : nat -> gset Z -> tick) (NsecToTimeval : Z -> Timeval)
  (Marshal : ControlMessage -> option (list Z)) (Unmarshal : list Z -> option ControlMessage) (fuel : nat).

Lemma no_panic_setSocketTimeout ctx opt : no_panic (setSocketTimeout kernel NsecToTimeval ctx opt).
Proof. unfold setSocketTimeout. calm_calls. Qed.

Lemma no_panic_rearm ctx opt : no_panic (rearm kernel NsecToTimeval ctx opt).
Proof. unfold rearm. calm_calls. apply no_panic_setSocketTimeout. Qed.

Lemma no_panic_sendFDsUnchecked ctx msg fds :
  no_panic (sendFDsUnchecked kernel NsecToTimeval Marshal fuel ctx msg fds).
Proof.
  unfold sendFDsUnchecked, check_ctx. calm_calls; [apply no_panic_setSocketTimeout|].
  generalize fuel. intros n. induction n; simpl; calm_calls; [apply no_panic_rearm|done|].
  unfold answer. calm_calls.
Qed.

Lemma no_panic_SendFDs ctx r g c fds :
  no_panic (SendFDs kernel NsecToTimeval Marshal fuel ctx
    {| CorrelationId := c; Generation := g; Body := Some (BodyAttachRegion r) |} fds).
Proof. unfold SendFDs, declaredFDCount. simpl. calm_calls. apply no_panic_sendFDsUnchecked. Qed.

Lemma no_panic_sendControl ctx msg d : no_panic (sendControl kernel NsecToTimeval Marshal fuel ctx msg d).
Proof. unfold sendControl, WithTimeout. calm_calls. apply no_panic_sendFDsUnchecked. Qed.

Lemma no_panic_recvControl ctx state want d :
  no_panic (recvControl kernel NsecToTimeval Unmarshal fuel ctx state want d).
Proof.
  unfold recvControl, WithTimeout, Recv, check_ctx. calm_calls; [apply no_panic_setSocketTimeout|].
  generalize fuel. intros n. induction n; simpl; calm_calls; [apply no_panic_rearm|done|].
  unfold answer. calm_calls.
Qed.
End control_calls.

(** What is open on top of what was open before: the set [l], with [raw] still
    to be closed by the attach, [dead] the transports it has closed, and at least
    [n] system calls made. *)
Section ownership.
Context (base gone : gset Z) (stray : bool) (n0 : nat).
Context (Hgone : forall id, id ∈ gone -> id < Z.of_nat n0).

Record st (l raw dead : gset Z) (n : nat) (w : world) : Prop := {
  st_stray : w_stray w = stray;
  st_open : w_open w = base ∪ l;
  st_fresh : forall fd, fd ∈ l -> fd ∉ base;
  st_raw : w_raw w = raw;
  st_gone : w_gone w = dead ∪ gone;
  st_ticks : (n <= w_ticks w)%nat
}.

Lemma st_close fd l raw dead n w : fd ∈ l -> st l raw dead n w -> st (l ∖ {[fd]}) raw dead n (close_fd fd w).
Proof.
  intros Hfd [H1 H2 H4 H5 H6 H7]. constructor; try done.
  - simpl. rewrite bool_decide_eq_true_2; [by rewrite orb_false_r|]. rewrite H2. set_solver.
  - simpl. rewrite H2. specialize (H4 fd Hfd). set_solver.
  - set_solver.
Qed.

Lemma st_close_once id fd l raw dead n w :
  Z.of_nat n0 <= id -> id ∉ dead -> fd ∈ l -> st l raw dead n w ->
  st (l ∖ {[fd]}) raw ({[id]} ∪ dead) n (close_once id fd w).
Proof.
  intros Hid Hd Hfd H. unfold close_once. rewrite bool_decide_eq_false_2.
  - destruct (st_close fd l raw dead n w Hfd H) as [? ? ? ? Hg ?].
    constructor; try done. simpl in *. rewrite Hg. set_solver.
  - rewrite (st_gone _ _ _ _ _ H). apply not_elem_of_union. split; [done|].
    intros Hin. specialize (Hgone _ Hin). lia.
Qed.

Lemma st_close_again id fd l raw dead n w :
  id ∈ dead -> st l raw dead n w -> st l raw dead n (close_once id fd w).
Proof.
  intros Hd H. unfold close_once. rewrite bool_decide_eq_true_2; [done|].
  rewrite (st_gone _ _ _ _ _ H). set_solver.
Qed.

Lemma st_set_raw raw' l raw dead n w : st l raw dead n w -> st l raw' dead n (set_raw raw' w).
Proof. by intros []. Qed.

Lemma st_unraw fd l raw dead n w : st l raw dead n w -> st l (raw ∖ {[fd]}) dead n (unraw fd w).
Proof. intros []. constructor; try done. simpl. by rewrite st_raw0. Qed.

Lemma st_closeAll fds l raw dead n w :
  NoDup fds -> (forall fd, fd ∈ fds -> fd ∈ l) -> st l raw dead n w ->
  st (l ∖ list_to_set fds) raw dead n (closeAll fds w).
Proof.
  revert l w. induction fds as [|fd fds IH]; intros l w Hn Hin H; simpl; [by rewrite difference_empty_L|].
  apply NoDup_cons in Hn as [Hfd Hn].
  replace (l ∖ ({[fd]} ∪ list_to_set fds)) with (l ∖ {[fd]} ∖ list_to_set fds) by set_solver.
  apply IH; [done| |apply st_close; [apply Hin; left|done]].
  intros x Hx. apply elem_of_difference. split; [apply Hin; by right|]. rewrite elem_of_singleton. by intros ->.
Qed.

Lemma st_close_raw l raw dead n w :
  raw ⊆ l -> st l raw dead n w -> st (l ∖ raw) ∅ dead n (close_raw w).
Proof.
  intros Hsub H. unfold close_raw. apply (st_set_raw _ _ raw). rewrite (st_raw _ _ _ _ _ H).
  rewrite <- (list_to_set_elements_L raw) at 1. apply st_closeAll; [apply NoDup_elements| |done].
  intros fd. rewrite elem_of_elements. set_solver.
Qed.

(** A transport made since [n0]: its parts are told apart. *)
Definition made (t : Transport) : Prop := NoDup (ids t) /\ forall id, id ∈ ids t -> Z.of_nat n0 <= id.

(** Everything opened here is closed, and nothing else was. *)
Definition balanced (w : world) : Prop := w_stray w = stray /\ w_open w = base.

Lemma st_balanced l raw dead n w : l ⊆ ∅ -> st l raw dead n w -> balanced w.
Proof. intros Hl []. split; [done|]. set_solver. Qed.

Lemma st_sub l l' raw dead n w : l = l' -> st l raw dead n w -> st l' raw dead n w.
Proof. by intros ->. Qed.

Lemma st_le l raw dead n n' w : (n' <= n)%nat -> st l raw dead n w -> st l raw dead n' w.
Proof. intros H []. constructor; try done. lia. Qed.

(** ** Calls that keep what is open *)

Definition calm (w w' : world) : Prop :=
  w_open w' = w_open w /\ w_stray w' = w_stray w /\ w_raw w' = w_raw w /\ w_gone w' = w_gone w /\
  (w_ticks w <= w_ticks w')%nat.

#[local] Instance calm_refl : Reflexive calm.
Proof. by repeat split. Qed.
#[local] Instance calm_trans : Transitive calm.
Proof. intros a b c (?&?&?&?&?) (?&?&?&?&?). repeat split; try congruence. lia. Qed.

Lemma calm_sys c t w : calm w (set_now (w_now w + Z.of_N (elapsed t)) (S (w_ticks w)) (record c w)).
Proof. repeat split. simpl. lia. Qed.

Lemma st_calm l raw dead n w w' : calm w w' -> st l raw dead n w -> st l raw dead n w'.
Proof. intros (?&?&?&?&?) []. constructor; try done; try congruence. lia. Qed.

Lemma tri_calm {A} (m : io A) l raw dead n :
  steps_by calm m -> no_panic m ->
  tri (st l raw dead n) m (fun _ => st l raw dead n) (st l raw dead n).
Proof.
  intros Hc Hp w Hw. specialize (Hc w). specialize (Hp w). unfold post. destruct (m w) as [w' [a|e|]]; simpl in *;
    [by eapply st_calm..|done].
Qed.

(** ** The kernel's part *)

Context (kernel : nat -> gset Z -> tick) (NsecToTimeval : Z -> Timeval)
  (Marshal : ControlMessage -> option (list Z)) (Unmarshal : list Z -> option ControlMessage) (fuel : nat).
Context (Hkernel : forall n o, tick_ok o (kernel n o)).

Lemma tri_creates name k l raw dead n :
  tri (st l raw dead n) (creates kernel name k)
    (fun fds w => length fds = k /\ NoDup fds /\ (forall fd, fd ∈ fds -> fd ∉ l) /\
       st (list_to_set fds ∪ l) raw dead (S n) w) (st l raw dead n).
Proof.
  intros w Hw. unfold creates. apply post_bind. unfold post at 1, syscall. cbn zeta.
  set (t := kernel (w_ticks w) (w_open w)). destruct (Hkernel (w_ticks w) (w_open w)) as (Hn & Hf & _).
  fold t in Hn, Hf. unfold install_created. change (w_open (record _ w)) with (w_open w).
  destruct (created k t) as [fds|] eqn:Ec.
  - unfold post, ok. unfold created in Ec. destruct (errno t); [done|].
    case_decide as Hl; [|done]. injection Ec as <-. split; [done|].
    destruct Hw as [H1 H2 H4 H5 H6 H7]. rewrite H2 in Hf. split; [done|].
    split; [intros fd Hfd; destruct (Hf fd Hfd); set_solver|]. constructor; try done; simpl.
    + rewrite H2. set_solver.
    + intros x [Hx|Hx]%elem_of_union; [|by apply H4]. apply elem_of_list_to_set in Hx.
      destruct (Hf x Hx). set_solver.
    + lia.
  - unfold post, fail. eapply st_calm; [|exact Hw]. repeat split. simpl. lia.
Qed.

Lemma tri_create1 name l raw dead n :
  tri (st l raw dead n) (create1 kernel name) (fun fd w => (fd ∉ l) /\ st ({[fd]} ∪ l) raw dead (S n) w)
    (st l raw dead n).
Proof.
  unfold create1. eapply tri_bind; [apply tri_creates|]. intros fds w (Hl & Hn & Hf & Hw).
  destruct fds as [|fd [|]]; [done| |done]. split; [apply Hf; left|].
  simpl in Hw. by rewrite union_empty_r_L in Hw.
Qed.

Lemma tri_shm_Attach l raw dead n :
  tri (st l raw dead n) (shm_Attach kernel)
    (fun s w => exists m, s_id s = Z.of_nat m /\ (n < m)%nat /\ (s_dup s ∉ l) /\
       st ({[s_dup s]} ∪ l) raw dead m w) (st l raw dead n).
Proof.
  unfold shm_Attach. eapply tri_bind; [apply tri_create1|]. intros dup.
  unfold fresh_id. intros w [Hd Hw]. apply post_bind. unfold post at 1, reads. unfold post, ok.
  exists (w_ticks w). split; [done|]. pose proof (st_ticks _ _ _ _ _ Hw). split; [lia|]. split; [done|].
  destruct Hw. by constructor.
Qed.

Lemma tri_NewUDSTransport fd l raw dead n :
  tri (st l raw dead n) (NewUDSTransport kernel fd)
    (fun u w => u_fd u = fd /\ exists m, u_id u = Z.of_nat m /\ (n <= m)%nat /\ st l raw dead m w)
    (st l raw dead n).
Proof.
  assert (Hs : forall name, tri (st l raw dead n) (syscall kernel (fun _ => OtherCall name) no_effect)
    (fun _ => st l raw dead n) (st l raw dead n)).
  { intros name. apply tri_calm; [apply steps_syscall; intros; apply calm_sys|by intros w]. }
  unfold NewUDSTransport. eapply tri_bind; [apply Hs|]. intros t.
  destruct (errno t); [apply tri_fail|]. destruct (negb _); [apply tri_fail|].
  eapply tri_bind; [apply Hs|]. intros t2. destruct (errno t2); [apply tri_fail|].
  unfold fresh_id. intros w Hw. apply post_bind. unfold post at 1, reads. unfold post, ok. simpl.
  split; [done|]. exists (w_ticks w). split; [done|]. pose proof (st_ticks _ _ _ _ _ Hw). split; [lia|].
  destruct Hw. by constructor.
Qed.

Lemma tri_sendControl ctx msg d l raw dead n :
  tri (st l raw dead n) (sendControl kernel NsecToTimeval Marshal fuel ctx msg d)
    (fun _ => st l raw dead n) (st l raw dead n).
Proof.
  apply tri_calm; [|apply no_panic_sendControl].
  apply calm_sendControl; try exact _; [apply calm_sys|by intros; repeat split].
Qed.

Lemma tri_recvControl ctx state want d l raw dead n :
  tri (st l raw dead n) (recvControl kernel NsecToTimeval Unmarshal fuel ctx state want d)
    (fun _ => st l raw dead n) (st l raw dead n).
Proof.
  apply tri_calm; [|apply no_panic_recvControl].
  apply calm_recvControl; try exact _; [apply calm_sys|by intros; repeat split].
Qed.

Lemma tri_SendFDs ctx r g c fds l raw dead n :
  tri (st l raw dead n) (SendFDs kernel NsecToTimeval Marshal fuel ctx
      {| CorrelationId := c; Generation := g; Body := Some (BodyAttachRegion r) |} fds)
    (fun _ => st l raw dead n) (st l raw dead n).
Proof.
  apply tri_calm; [|apply no_panic_SendFDs].
  apply calm_SendFDs; try exact _; [apply calm_sys|by intros; repeat split].
Qed.

Lemma tri_WithTimeout ctx d l raw dead n E :
  tri (st l raw dead n) (WithTimeout ctx d) (fun _ => st l raw dead n) E.
Proof. by intros w Hw. Qed.

Lemma tri_shmConfig a b c tuple l raw dead n :
  tri (st l raw dead n) (shmConfig a b c tuple) (fun _ => st l raw dead n) (st l raw dead n).
Proof.
  unfold shmConfig, Admission.ValidateChunkingClamp. cbn [Admission.MaxPayload]. rewrite andb_false_r.
  by intros w Hw.
Qed.

(** A received attach message: nothing was open on top before. *)
Lemma tri_recvControlFDs ctx state want d raw :
  tri (st ∅ raw ∅ n0) (recvControlFDs kernel NsecToTimeval Unmarshal fuel ctx state want d)
    (fun r w => NoDup (snd r) /\ (forall fd, fd ∈ snd r -> 0 <= fd) /\
       st (list_to_set (snd r)) raw ∅ n0 w)
    (st ∅ raw ∅ n0).
Proof.
  intros w Hw. pose proof (recvControlFDs_received kernel NsecToTimeval Unmarshal fuel ctx state want d w Hkernel) as H.
  set (R := fun w w' : world => w_raw w' = w_raw w /\ w_gone w' = w_gone w /\ (w_ticks w <= w_ticks w')%nat).
  assert (S : steps_by R (recvControlFDs kernel NsecToTimeval Unmarshal fuel ctx state want d)).
  { assert (Reflexive R) by by intros x; repeat split.
    assert (Transitive R).
    { intros x y z (?&?&?) (?&?&?). repeat split; try congruence. lia. }
    apply calm_recvControlFDs; try exact _; intros; repeat split; simpl; lia. }
  specialize (S w). unfold post in *.
  destruct (recvControlFDs kernel NsecToTimeval Unmarshal fuel ctx state want d w) as [w' r].
  destruct H as [[Ht H] Hk], S as (S1 & S2 & S3). simpl in S1, S2, S3. destruct Hw as [H1 H2 H4 H5 H6 H7].
  rewrite union_empty_r_L in H2.
  destruct r as [[msg fds]|e|]; [|constructor; rewrite ?union_empty_r_L; try done; try congruence; lia|done].
  destruct H as (Hn & Hf & Ho & Hc). simpl. split; [done|]. split; [intros; by apply Hf|].
  rewrite H2 in *. constructor; try done; try congruence; [|lia].
  intros fd Hfd. apply elem_of_list_to_set in Hfd. by apply Hf.
Qed.

Lemma tri_reject {A} fds e l raw dead n (Q : A -> world -> Prop) :
  NoDup fds -> l = list_to_set fds -> tri (st l raw dead n) (reject fds e) Q balanced.
Proof.
  intros Hn ->. unfold reject. eapply tri_bind with (R := fun _ => balanced).
  - intros w Hw. unfold post, updates. eapply st_balanced; [|apply (st_closeAll fds); [done| |exact Hw]];
      [set_solver|]. intros fd. by rewrite elem_of_list_to_set.
  - intros _. apply tri_fail.
Qed.

Lemma st_weaken_err {A} P (m : io A) Q l raw dead n :
  l ⊆ ∅ -> tri P m Q (st l raw dead n) -> tri P m Q balanced.
Proof. intros Hl H. eapply tri_post; [exact H|done|]. intros w. by apply st_balanced. Qed.

Lemma made_uds u : Z.of_nat n0 <= u_id u -> made (TrUDS u).
Proof. intros H. split; [apply NoDup_singleton|]. intros id Hid. by apply list_elem_of_singleton in Hid as ->. Qed.

Lemma made_compose side b c s :
  Z.of_nat n0 <= s_id s -> (match b with Some u => Z.of_nat n0 <= u_id u < s_id s | None => True end) ->
  made (compose side b c s).
Proof.
  intros Hs Hb. destruct b as [u|]; (split; [|intros id Hid]); simpl in *.
  - apply NoDup_cons_2; [rewrite list_elem_of_singleton; lia|apply NoDup_singleton].
  - apply elem_of_cons in Hid as [->|Hid]; [lia|]. apply list_elem_of_singleton in Hid as ->. lia.
  - apply NoDup_singleton.
  - by apply list_elem_of_singleton in Hid as ->.
Qed.

(** ** The socket attach *)

Lemma tri_pluginAttachUDS ctx raw :
  tri (st ∅ raw ∅ n0) (pluginAttachUDS kernel NsecToTimeval Marshal Unmarshal fuel ctx)
    (fun tr w => made tr /\ NoDup (owns tr) /\ st (list_to_set (owns tr)) raw ∅ n0 w) balanced.
Proof.
  unfold pluginAttachUDS. eapply tri_bind; [eapply st_weaken_err; [|apply tri_recvControlFDs]; done|].
  intros [msg fds]. cbn [snd]. intros w (Hn & Hp & Hw). revert w Hw.
  destruct fds as [|dataFD [|fd2 fds]]; try (by apply tri_reject).
  eapply tri_attempt; [apply tri_NewUDSTransport| |].
  - intros tr. intros w (Hf & m & Hid & Hm & Hw). revert w Hw. simpl in *.
    eapply tri_attempt; [apply tri_sendControl| |].
    + intros _ w Hw. split; [apply made_uds; lia|]. split; [apply NoDup_singleton|]. simpl. rewrite Hf. destruct Hw. constructor; try done. lia.
    + intros e. eapply tri_bind with (R := fun _ => balanced); [|intros _; apply tri_fail].
      intros w Hw. unfold post, updates. eapply st_balanced; [|unfold close_uds; eapply st_close_once];
        [..|exact Hw]; rewrite ?Hf, ?Hid; try lia; set_solver.
  - intros e. eapply tri_bind with (R := fun _ => balanced); [|intros _; apply tri_fail].
    intros w Hw. unfold post, updates. eapply st_balanced; [|eapply st_close; [|exact Hw]]; set_solver.
Qed.

(** Closing what is open, one descriptor after the other. *)
Ltac close_all Hw :=
  eapply st_balanced; [|repeat (first [exact Hw | eapply st_close | eapply st_close_once | eapply st_close_again
                                       | eapply st_close_raw | eapply st_unraw])];
  try set_solver; try lia.

Lemma tri_attachUDS ctx generation raw :
  tri (st ∅ raw ∅ n0) (attachUDS kernel NsecToTimeval Marshal Unmarshal fuel ctx generation)
    (fun tr w => made tr /\ NoDup (owns tr) /\ st (list_to_set (owns tr)) raw ∅ n0 w) balanced.
Proof.
  unfold attachUDS. eapply tri_bind; [eapply st_weaken_err; [|apply tri_creates]; done|].
  intros pair w (Hl & Hn & Hf & Hw). revert w Hw.
  destruct pair as [|hostFD [|pluginFD [|]]]; try done. simpl.
  assert (Hne : hostFD <> pluginFD) by (apply NoDup_cons in Hn as [Hn _]; set_solver).
  apply tri_guarding. eapply tri_bind; [apply tri_WithTimeout|]. intros sctx.
  assert (Hup : forall (Q : unit -> world -> Prop) E,
    (forall w, st {[hostFD]} raw ∅ (S n0) w -> Q tt w) ->
    tri (st ({[hostFD]} ∪ ({[pluginFD]} ∪ ∅) ∪ ∅) raw ∅ (S n0)) (updates (close_fd pluginFD)) Q E).
  { intros Q E HQ w Hw. unfold post, updates. apply HQ.
    eapply st_sub; [|eapply st_close; [|exact Hw]]; set_solver. }
  eapply tri_attempt; [apply tri_SendFDs| |].
  - intros ?. eapply tri_bind with (R := fun _ => st {[hostFD]} raw ∅ (S n0)); [by apply Hup|]. intros ?.
    eapply tri_bind; [eapply tri_post; [apply tri_recvControl|done|]|].
    { intros w Hw. close_all Hw. }
    intros ?. eapply tri_bind; [eapply tri_post; [apply tri_NewUDSTransport|intros ? ? H; exact H|]|].
    { intros w Hw. close_all Hw. }
    intros tr w (Hfd & m & Hid & Hm & Hw). split; [apply made_uds; lia|].
    split; [apply NoDup_singleton|]. simpl. rewrite Hfd.
    eapply (st_le _ _ _ m); [lia|]. eapply st_sub; [|exact Hw]. set_solver.
  - intros e. eapply tri_bind with (R := fun _ => st {[hostFD]} raw ∅ (S n0)); [by apply Hup|]. intros ?.
    intros w Hw. unfold post, fail. close_all Hw.
Qed.

(** ** The plugin's shared-memory attach *)

Definition afds_list (a : attachFDs) : list Z :=
  [a_region a; a_hp a; a_ph a] ++ (if 0 <=? a_burst a then [a_burst a] else []).

Lemma rawSet_list a : rawSet a = list_to_set (afds_list a).
Proof. unfold rawSet, afds_list. destruct (0 <=? a_burst a); simpl; set_solver. Qed.

Lemma tri_recvAttachFDs ctx tuple raw :
  tri (st ∅ raw ∅ n0) (recvAttachFDs kernel NsecToTimeval Unmarshal fuel ctx tuple)
    (fun r w => NoDup (afds_list (snd r)) /\ (forall fd, fd ∈ afds_list (snd r) -> 0 <= fd) /\
       st (list_to_set (afds_list (snd r))) raw ∅ n0 w) balanced.
Proof.
  unfold recvAttachFDs. eapply tri_bind; [eapply st_weaken_err; [|apply tri_recvControlFDs]; done|].
  intros [msg fds]. cbn [snd]. intros w (Hn & Hp & Hw). revert w Hw.
  destruct (BurstActive _ _).
  - destruct fds as [|f1 [|f2 [|f3 [|f4 [|f5 fds]]]]]; try (by apply tri_reject).
    intros w Hw. unfold post, ok, afds_list. cbn [snd a_burst a_region a_hp a_ph].
    destruct (Z.leb_spec 0 f4); [done|]. specialize (Hp f4 ltac:(set_solver)). lia.
  - destruct fds as [|f1 [|f2 [|f3 [|f4 fds]]]]; try (by apply tri_reject).
    intros w Hw. unfold post, ok, afds_list. cbn [snd a_burst a_region a_hp a_ph]. done.
Qed.

Lemma tri_NewEventFDFromFD fd l raw dead n E :
  0 <= fd -> tri (st l raw dead n) (NewEventFDFromFD fd) (fun e w => e = fd /\ st l raw dead n w) E.
Proof. intros H w Hw. unfold NewEventFDFromFD. destruct (Z.ltb_spec fd 0); [lia|]. done. Qed.

Lemma tri_unraw fd l raw dead n E :
  tri (st l raw dead n) (updates (unraw fd)) (fun _ => st l (raw ∖ {[fd]}) dead n) E.
Proof. intros w Hw. unfold post, updates. by apply st_unraw. Qed.

Lemma tri_close fd l raw dead n E : fd ∈ l ->
  tri (st l raw dead n) (updates (close_fd fd)) (fun _ => st (l ∖ {[fd]}) raw dead n) E.
Proof. intros H w Hw. unfold post, updates. by apply st_close. Qed.

(** The burst end: wrapped when there is one. *)
Lemma tri_wrapPluginBurstEnd fd l raw dead n :
  tri (st l raw dead n) (wrapPluginBurstEnd kernel fd)
    (fun b w => exists m, (n <= m)%nat /\ st l raw dead m w /\
       match b with Some u => 0 <= fd /\ u_fd u = fd /\ u_id u = Z.of_nat m | None => fd < 0 end)
    (st l raw dead n).
Proof.
  unfold wrapPluginBurstEnd. destruct (Z.ltb_spec fd 0).
  - intros w Hw. exists n. split; [lia|]. by split.
  - eapply tri_bind; [apply tri_NewUDSTransport|]. intros u w (Hf & m & Hid & Hm & Hw).
    exists m. split; [lia|]. by split.
Qed.

(** Closing a composite or plain transport over what is open. *)
Lemma st_close_compose side b c s l raw n w :
  (match b with Some u => u_fd u ∈ l /\ u_fd u <> s_dup s /\ Z.of_nat n0 <= u_id u < s_id s | None => True end) ->
  s_dup s ∈ l -> Z.of_nat n0 <= s_id s -> st l raw ∅ n w ->
  exists dead, st (l ∖ list_to_set (owns (compose side b c s))) raw dead n (close_transport (compose side b c s) w) /\
    match b with Some u => u_id u ∈ dead | None => True end.
Proof.
  intros Hb Hs Hid Hw. destruct b as [u|]; simpl.
  - destruct Hb as (Hu & Hne & Hlt). exists ({[s_id s]} ∪ ({[u_id u]} ∪ ∅)). split; [|set_solver].
    eapply st_sub; [|unfold close_shm, close_uds; eapply st_close_once; [| | |eapply st_close_once; [| | |exact Hw]]];
      try set_solver; try lia. rewrite union_empty_r_L, not_elem_of_singleton. lia.
  - exists ({[s_id s]} ∪ ∅). split; [|done].
    eapply st_sub; [|unfold close_shm; eapply st_close_once; [| | |exact Hw]]; set_solver || lia.
Qed.

Lemma tri_pluginAttachSHM runThreshold ctx tuple raw :
  tri (st ∅ raw ∅ n0) (pluginAttachSHM kernel NsecToTimeval Marshal Unmarshal fuel runThreshold ctx tuple)
    (fun r w => let l := owns (fst r) ++ [p_hpEFD (snd r); p_phEFD (snd r)] in
       made (fst r) /\ NoDup l /\ st (list_to_set l) ∅ ∅ n0 w) balanced.
Proof.
  unfold pluginAttachSHM. eapply tri_bind; [apply tri_recvAttachFDs|].
  intros [ar a]. cbn [snd]. intros w (Hn & Hp & Hw). revert w Hw.
  eapply tri_bind with (R := fun _ => st (list_to_set (afds_list a)) (list_to_set (afds_list a)) ∅ n0).
  { intros w Hw. unfold post, updates. rewrite <- rawSet_list at 2. by eapply st_set_raw. }
  intros ?. apply tri_finally.
  assert (Hfds : a_hp a <> a_ph a /\ a_region a <> a_hp a /\ a_region a <> a_ph a).
  { unfold afds_list in Hn. simpl in Hn. rewrite !NoDup_cons in Hn. set_solver. }
  destruct Hfds as (N1 & N2 & N3).
  eapply tri_bind; [apply tri_NewEventFDFromFD; apply Hp; set_solver|]. intros ? w [-> Hw]. revert w Hw.
  eapply tri_bind; [apply tri_unraw|]. intros ?. apply tri_guarding.
  eapply tri_bind; [apply tri_NewEventFDFromFD; apply Hp; set_solver|]. intros ? w [-> Hw]. revert w Hw.
  eapply tri_bind; [apply tri_unraw|]. intros ?. apply tri_guarding.
  set (L := list_to_set (afds_list a)) in *.
  assert (HL : a_region a ∈ L /\ a_hp a ∈ L /\ a_ph a ∈ L) by (unfold L, afds_list; set_solver).
  destruct HL as (L1 & L2 & L3).
  eapply tri_bind; [eapply tri_post; [apply tri_wrapPluginBurstEnd|intros ? ? H; exact H|]|].
  { intros w Hw. close_all Hw. }
  intros b w (m & Hm & Hw & Hb). revert w Hw.
  set (raw1 := L ∖ {[a_hp a]} ∖ {[a_ph a]}).
  set (raw2 := match b with Some _ => raw1 ∖ {[a_burst a]} | None => raw1 end).
  eapply tri_bind with (R := fun _ => st L raw2 ∅ m).
  { destruct b; [apply tri_unraw|by intros w]. }
  intros ?. apply tri_guarding.
  (* what the burst end is, as a set *)
  assert (HB : match b with
    | Some u => L = {[a_region a; a_hp a; a_ph a; u_fd u]} /\ u_id u = Z.of_nat m /\ u_fd u = a_burst a /\
        u_fd u <> a_region a /\ u_fd u <> a_hp a /\ u_fd u <> a_ph a /\ raw2 = {[a_region a]}
    | None => L = {[a_region a; a_hp a; a_ph a]} /\ raw2 = {[a_region a]} end).
  { unfold raw2, raw1, L, afds_list in *. destruct b as [u|].
    - destruct Hb as (Hb0 & Hb1 & Hb2). destruct (Z.leb_spec 0 (a_burst a)); [|lia].
      simpl in Hn. rewrite !NoDup_cons in Hn. rewrite Hb1. simpl.
      repeat split; try done; set_solver.
    - destruct (Z.leb_spec 0 (a_burst a)); [lia|]. simpl. split; set_solver. }
  clearbody raw2 raw1 L. clear Hn Hp Hb.
  assert (Hid : match b with Some u => Z.of_nat n0 <= u_id u | None => True end).
  { destruct b; [|done]. destruct HB as (_ & -> & _). lia. }
  (* the deferred closes from each way out *)
  assert (Clean : forall l raw' dead w, st l raw' dead m w ->
    raw' ⊆ {[a_region a]} -> raw' ⊆ l ->
    (l = raw' ∪ {[a_hp a; a_ph a]} /\ match b with Some u => u_id u ∈ dead | None => True end \/
     l = raw' ∪ (L ∖ {[a_region a]}) /\ dead = ∅) ->
    balanced (close_raw (close_fd (a_hp a) (close_fd (a_ph a) (close_burst b w))))).
  { intros l raw' dead w Hw Hr Hl Hcase. destruct b as [u|]; cbn [close_burst]; unfold close_uds.
    - destruct HB as (HL & Hu & _ & U1 & U2 & U3 & _). destruct Hcase as [[-> Hd]|[-> ->]].
      + apply (st_close_again _ (u_fd u) _ _ _ _ _ Hd) in Hw. close_all Hw.
      + apply (st_close_once (u_id u) (u_fd u)) in Hw; [close_all Hw|done|set_solver|rewrite HL; set_solver].
    - destruct HB as (HL & _). destruct Hcase as [[-> _]|[-> ->]]; close_all Hw. }
  assert (HR : raw2 = {[a_region a]}) by (destruct b; tauto). rewrite HR.
  eapply tri_bind; [eapply tri_post; [apply tri_shmConfig|done|]|].
  { intros w Hw. eapply Clean; [exact Hw|done|set_solver + L1|]. right. split; [|done].
    apply union_difference_L. set_solver + L1. }
  intros ?. eapply tri_attempt; [apply tri_shm_Attach| |].
  2:{ intros e. eapply tri_bind; [apply tri_unraw|]. intros ?. eapply tri_bind; [by apply tri_close|]. intros ? w Hw.
      unfold post, fail. eapply Clean; [exact Hw|set_solver +|set_solver +|]. right. split; [set_solver +|done]. }
  intros s w (m' & Hs & Hm' & Hd & Hw). revert w Hw.
  eapply tri_bind; [apply tri_unraw|]. intros ?. eapply tri_bind; [apply tri_close; set_solver + L1|]. intros ?.
  apply tri_guarding. eapply tri_bind; [eapply tri_post; [apply tri_sendControl|intros ? ? H; exact H|]|].
  { intros w Hw.
    assert (Hb2 : match b with
      | Some u => u_fd u ∈ ({[s_dup s]} ∪ L) ∖ {[a_region a]} /\ u_fd u <> s_dup s /\ Z.of_nat n0 <= u_id u < s_id s
      | None => True end).
    { destruct b as [u|]; [|done]. destruct HB as (HL & Hu & _ & U1 & _). split; [set_solver + HL U1|].
      split; [intros E; apply Hd; rewrite <- E, HL; set_solver +|lia]. }
    assert (Hs2 : s_dup s ∈ ({[s_dup s]} ∪ L) ∖ {[a_region a]}).
    { apply elem_of_difference. split; [apply elem_of_union_l, elem_of_singleton_2; done|].
      rewrite elem_of_singleton. intros E. apply Hd. by rewrite E. }
    destruct (st_close_compose false b (ar_BurstMaxPayload ar) s _ _ _ _ Hb2 Hs2 ltac:(lia) Hw)
      as (dead & Hc & Hdead).
    eapply Clean; [eapply (st_le _ _ _ m'); [lia|exact Hc]|set_solver +|set_solver +|]. left. split; [|done].
    destruct b as [u|]; simpl.
    - destruct HB as (HL & Hu & _ & U1 & U2 & U3 & _). set_solver + HL U1 U2 U3 N1 N2 N3 Hd.
    - destruct HB as (HL & _). set_solver + HL N1 N2 N3 Hd. }
  intros ? w Hw. cbv zeta. cbn [fst snd p_hpEFD p_phEFD].
  apply st_close_raw in Hw; [|set_solver +]. apply (st_le _ _ _ _ n0) in Hw; [|lia].
  split; [apply made_compose; [lia|destruct b; [destruct HB as (_ & ? & _); lia|done]]|].
  destruct b as [u|]; simpl.
  - destruct HB as (HL & Hu & _ & U1 & U2 & U3 & _). split.
    + apply NoDup_cons_2; [set_solver + HL U2 U3 Hd|]. apply NoDup_cons_2; [set_solver + HL Hd|].
      apply NoDup_cons_2; [set_solver + N1|]. apply NoDup_singleton.
    + eapply st_sub; [|exact Hw]. set_solver + HL U1 U2 U3 N1 N2 N3 Hd.
  - destruct HB as (HL & _). split.
    + apply NoDup_cons_2; [set_solver + HL Hd|]. apply NoDup_cons_2; [set_solver + N1|]. apply NoDup_singleton.
    + eapply st_sub; [|exact Hw]. set_solver + HL N1 N2 N3 Hd.
Qed.

(** ** The host's shared-memory attach *)

Lemma st_drop fd l raw dead n w :
  (fd ∉ l) -> st ({[fd]} ∪ l) raw dead n w -> st l raw dead n (close_fd fd w).
Proof. intros Hfd H. eapply st_sub; [|eapply st_close; [|exact H]]; set_solver + Hfd. Qed.

Lemma st_drop_once id fd l raw dead n w :
  Z.of_nat n0 <= id -> (id ∉ dead) -> (fd ∉ l) -> st ({[fd]} ∪ l) raw dead n w ->
  st l raw ({[id]} ∪ dead) n (close_once id fd w).
Proof. intros Hid Hd Hfd H. eapply st_sub; [|eapply st_close_once; [done|done| |exact H]]; set_solver + Hfd. Qed.

Lemma tri_sendAttachRegion cfg ctx msg fds tuple l raw n :
  tri (st l raw ∅ n) (sendAttachRegion kernel NsecToTimeval Marshal fuel cfg ctx msg fds tuple)
    (fun b w => exists m, (n <= m)%nat /\
       match b with
       | Some u => u_id u = Z.of_nat m /\ (u_fd u ∉ l) /\ st ({[u_fd u]} ∪ l) raw ∅ m w
       | None => st l raw ∅ m w
       end)
    (st l raw ∅ n).
Proof.
  unfold sendAttachRegion. destruct (BurstActive _ _).
  - eapply tri_bind; [apply tri_creates|]. intros pair w (Hl & Hn & Hf & Hw). revert w Hw.
    destruct pair as [|hostFD [|pluginFD [|]]]; try done.
    assert (Hne : hostFD <> pluginFD) by (apply NoDup_cons in Hn as [Hn _]; set_solver + Hn).
    assert (Hh : hostFD ∉ l) by (apply Hf; left).
    assert (Hp : pluginFD ∉ {[hostFD]} ∪ l) by (pose proof (Hf pluginFD ltac:(right; left)); set_solver).
    apply tri_pre with (P' := st ({[pluginFD]} ∪ ({[hostFD]} ∪ l)) raw ∅ (S n)).
    { intros w Hw. eapply st_sub; [|exact Hw]. simpl. set_solver +. }
    assert (Hup : forall E, tri (st ({[pluginFD]} ∪ ({[hostFD]} ∪ l)) raw ∅ (S n)) (updates (close_fd pluginFD))
      (fun _ => st ({[hostFD]} ∪ l) raw ∅ (S n)) E).
    { intros E w Hw. unfold post, updates. by apply st_drop. }
    assert (Hcl : forall w, st ({[hostFD]} ∪ l) raw ∅ (S n) w -> st l raw ∅ n (close_fd hostFD w)).
    { intros w Hw. apply (st_le _ _ _ (S n)); [lia|]. by apply st_drop. }
    apply tri_guarding. eapply tri_bind; [apply tri_WithTimeout|]. intros sctx.
    eapply tri_attempt; [apply tri_SendFDs| |].
    + intros ?. eapply tri_bind; [apply Hup|]. intros ?.
      eapply tri_bind; [eapply tri_post; [apply tri_NewUDSTransport|intros ? ? H; exact H|exact Hcl]|].
      intros u w (Hfd & m & Hid & Hm & Hw). exists m. split; [lia|]. rewrite Hfd. done.
    + intros e. eapply tri_bind; [apply Hup|]. intros ? w Hw. by apply Hcl.
  - eapply tri_bind; [apply tri_WithTimeout|]. intros sctx.
    eapply tri_bind; [apply tri_SendFDs|]. intros ? w Hw. exists n. split; [lia|done].
Qed.

Lemma tri_attachSHM cfg maxDataInflight runThreshold regionSize strict ctx generation tuple raw :
  (forall g n c, Admission.ValidateStartupCapacity (with_generation g (ShmLayout cfg)) n c strict <> Panic) ->
  tri (st ∅ raw ∅ n0)
    (attachSHM kernel NsecToTimeval Marshal Unmarshal fuel cfg maxDataInflight runThreshold regionSize strict
       ctx generation tuple)
    (fun r w => let l := owns (fst r) ++ [h_region (snd r); h_hpEFD (snd r); h_phEFD (snd r)] in
       made (fst r) /\ NoDup l /\ st (list_to_set l) raw ∅ n0 w) balanced.
Proof.
  intros Hcap. unfold attachSHM. cbv zeta. set (layout := with_generation _ _). set (inflight := shmMaxDataInflight _ _).
  destruct (Admission.ValidateStartupCapacity _ _ _ _) eqn:Ecap; [|by intros w Hw; eapply st_balanced|by destruct (Hcap _ _ _ Ecap)].
  eapply tri_bind; [eapply st_weaken_err; [|apply tri_create1]; done|].
  intros region w [F1 Hw]. revert w Hw. apply tri_guarding.
  assert (B1 : forall n w, st ({[region]} ∪ ∅) raw ∅ n w -> balanced (close_fd region w)).
  { intros n w Hw. eapply st_balanced; [|by apply st_drop]; done. }
  eapply tri_bind; [eapply tri_post; [apply tri_create1|intros ? ? H; exact H|by apply B1]|].
  intros hp w [F2 Hw]. revert w Hw. apply tri_guarding.
  assert (B2 : forall n dead w, st ({[hp]} ∪ ({[region]} ∪ ∅)) raw dead n w -> balanced (close_fd region (close_fd hp w))).
  { intros n dead w Hw. eapply st_balanced; [|apply st_drop; [done|by apply st_drop]]; done. }
  eapply tri_bind; [eapply tri_post; [apply tri_create1|intros ? ? H; exact H|by apply B2]|].
  intros ph w [F3 Hw]. revert w Hw. apply tri_guarding.
  set (L := {[ph]} ∪ ({[hp]} ∪ ({[region]} ∪ ∅))) in *.
  assert (B3 : forall n dead w, st L raw dead n w -> balanced (close_fd region (close_fd hp (close_fd ph w)))).
  { intros n dead w Hw. eapply B2. by apply st_drop. }
  eapply tri_bind; [eapply tri_post; [apply tri_sendAttachRegion|intros ? ? H; exact H|by apply B3]|].
  intros b w (m & Hm & Hw). 
  set (LB := match b with Some u => {[u_fd u]} ∪ L | None => L end).
  assert (Hw' : st LB raw ∅ m w) by (unfold LB; destruct b; tauto).
  assert (HB : match b with Some u => u_id u = Z.of_nat m /\ (u_fd u ∉ L) | None => True end) by (destruct b; tauto).
  clear Hw. revert w Hw'. apply tri_guarding.
  assert (B4 : forall n dead w, (match b with Some u => u_id u ∉ dead | None => True end) ->
    st LB raw dead n w -> balanced (close_fd region (close_fd hp (close_fd ph (close_burst b w))))).
  { intros n dead w Hd Hw. unfold LB in Hw. destruct b as [u|]; simpl; [|by eapply B3].
    eapply B3. unfold close_uds. eapply st_drop_once; [lia|done|tauto|exact Hw]. }
  assert (N : forall u : UDSTransport, u_id u ∉ (∅ : gset Z)) by (intros; apply not_elem_of_empty).
  eapply tri_bind; [eapply tri_post; [apply tri_shmConfig|done|]|].
  { intros w Hw. eapply B4; [|exact Hw]. by destruct b. }
  intros ?. eapply tri_bind; [eapply tri_post; [apply tri_shm_Attach|intros ? ? H; exact H|]|].
  { intros w Hw. eapply B4; [|exact Hw]. by destruct b. }
  intros s w (m' & Hs & Hm' & Hd & Hw). revert w Hw. apply tri_guarding.
  eapply tri_bind; [eapply tri_post; [apply tri_recvControl|intros ? ? H; exact H|]|].
  { intros w Hw. eapply B4; [|unfold close_shm; eapply st_drop_once; [lia|apply not_elem_of_empty|exact Hd|exact Hw]].
    destruct b as [u|]; [|done]. rewrite union_empty_r_L, not_elem_of_singleton. lia. }
  intros ? w Hw. cbv zeta. cbn [fst snd h_region h_hpEFD h_phEFD]. apply (st_le _ _ _ _ n0) in Hw; [|lia].
  split; [apply made_compose; [lia|destruct b; [lia|done]]|].
  unfold LB, L in *. destruct b as [u|]; simpl.
  - destruct HB as [_ HB]. split; [|eapply st_sub; [|exact Hw]; set_solver +].
    repeat (apply NoDup_cons_2; [set_solver + HB Hd F2 F3|]). apply NoDup_singleton || apply NoDup_nil_2.
  - split; [|eapply st_sub; [|exact Hw]; set_solver +].
    repeat (apply NoDup_cons_2; [set_solver + Hd F2 F3|]). apply NoDup_singleton || apply NoDup_nil_2.
Qed.

End ownership.

(** ** Properties *)

Definition plugin_release (r : Transport * option pluginShmResources) (w : world) : world :=
  let w := close_transport (fst r) w in
  match snd r with Some res => close_res res w | None => w end.

Definition plugin_owned (r : Transport * option pluginShmResources) : list Z :=
  owns (fst r) ++ match snd r with Some res => [p_hpEFD res; p_phEFD res] | None => [] end.

Definition host_release (r : Transport * option shmHostResources) (w : world) : world :=
  let w := close_transport (fst r) w in
  match snd r with Some res => closeEventFDs res (closeRegion res w) | None => w end.

Definition host_owned (r : Transport * option shmHostResources) : list Z :=
  owns (fst r) ++ match snd r with Some res => [h_region res; h_hpEFD res; h_phEFD res] | None => [] end.

(** The accounts of an attach: on success exactly the descriptors the result
    owns are open on top of those before, each owned once, and releasing the
    result closes exactly them; on failure nothing is left. *)
Definition accounts {A} (owned : A -> list Z) (release : A -> world -> world) (w w' : world)
    (r : outcome conn_error A) : Prop :=
  match r with
  | Ok a => NoDup (owned a) /\ (forall fd, fd ∈ owned a -> fd ∉ w_open w) /\
      w_open w' = w_open w ∪ list_to_set (owned a) /\ w_stray w' = w_stray w /\
      w_open (release a w') = w_open w /\ w_stray (release a w') = w_stray w
  | Err _ => w_open w' = w_open w /\ w_stray w' = w_stray w
  | Panic => False
  end.

Section accounts.
Context (w0 : world) (Hids : forall id, id ∈ w_gone w0 -> id < Z.of_nat (w_ticks w0)).

Notation st := (st (w_open w0) (w_gone w0) (w_stray w0)).
Notation made := (made (w_ticks w0)).

Lemma st_start : st ∅ (w_raw w0) ∅ (w_ticks w0) w0.
Proof. constructor; try done; set_solver. Qed.

Lemma close_made tr l raw n w :
  made tr -> NoDup (owns tr ++ l) -> st (list_to_set (owns tr ++ l)) raw ∅ n w ->
  exists dead, st (list_to_set l) raw dead n (close_transport tr w).
Proof.
  intros [Hn Hge] Hl Hw. destruct tr as [u|s|s u c side]; simpl in *.
  - apply NoDup_cons in Hl as [Hu _]. eexists.
    eapply (st_drop_once _ _ _ _ Hids); [apply Hge; left|apply not_elem_of_empty|set_solver + Hu|exact Hw].
  - apply NoDup_cons in Hl as [Hu _]. eexists.
    eapply (st_drop_once _ _ _ _ Hids); [apply Hge; left|apply not_elem_of_empty|set_solver + Hu|exact Hw].
  - apply NoDup_cons in Hl as [Hu Hl]. apply NoDup_cons in Hl as [Hs _]. apply NoDup_cons in Hn as [Hn _].
    eexists. unfold close_shm, close_uds.
    eapply (st_drop_once _ _ _ _ Hids); [apply Hge; right; left| |
      |eapply (st_drop_once _ _ _ _ Hids); [apply Hge; left|apply not_elem_of_empty| |exact Hw]];
      [|set_solver + Hs|set_solver + Hu].
    rewrite union_empty_r_L, not_elem_of_singleton. intros E. apply Hn. rewrite E. left.
Qed.

Lemma accounts_intro {A} (owned : A -> list Z) (release : A -> world -> world) (m : io A) :
  tri (st ∅ (w_raw w0) ∅ (w_ticks w0)) m
    (fun a w => NoDup (owned a) /\ (exists raw, st (list_to_set (owned a)) raw ∅ (w_ticks w0) w) /\
       balanced (w_open w0) (w_stray w0) (release a w))
    (balanced (w_open w0) (w_stray w0)) ->
  post m (accounts owned release w0) w0.
Proof.
  intros H. eapply post_mono; [apply H, st_start|]. intros w' [a|e|] Ha; [|by destruct Ha|done].
  destruct Ha as (Hn & (raw & Hw) & Hb & Hb'). simpl. split; [done|].
  split; [intros fd Hfd; apply (st_fresh _ _ _ _ _ _ _ _ Hw); set_solver + Hfd|].
  split; [exact (st_open _ _ _ _ _ _ _ _ Hw)|]. split; [exact (st_stray _ _ _ _ _ _ _ _ Hw)|]. done.
Qed.

(** Closing a list of descriptors that is all there is. *)
Lemma released l raw dead n w :
  NoDup l -> st (list_to_set l) raw dead n w ->
  balanced (w_open w0) (w_stray w0) (closeAll l w).
Proof.
  intros Hl Hw. eapply (st_balanced _ _ _ _ Hids); [|eapply (st_closeAll _ _ _ _ Hids); [exact Hl| |exact Hw]];
    set_solver +.
Qed.
End accounts.

(** C30: an attach never leaks or double-closes a descriptor.  Whatever the
    kernel, the peer and the codec do, [pluginAttach] and the host's [attach]
    either fail with the process's descriptors exactly as they were, every one
    received or created on the way closed once, or return a transport and
    resources that own exactly the new open descriptors, each once, and whose
    release closes exactly those.  Nothing that is not open is ever closed, and
    the composite's parts are released once although two of its owners close
    them.  The host's part assumes that the capacity check of its configured
    geometry does not panic, which holds when both arenas have a class. *)
Theorem attach_descriptors_linear kernel NsecToTimeval Marshal Unmarshal fuel ctx tuple w :
  (forall n o, tick_ok o (kernel n o)) ->
  (forall id, id ∈ w_gone w -> id < Z.of_nat (w_ticks w)) ->
  (forall runThreshold,
    post (pluginAttach kernel NsecToTimeval Marshal Unmarshal fuel runThreshold ctx tuple)
      (accounts plugin_owned plugin_release w) w) /\
  (forall cfg inflight runThreshold regionSize strict generation,
    (forall g n c, Admission.ValidateStartupCapacity (with_generation g (ShmLayout cfg)) n c strict <> Panic) ->
    post (attach kernel NsecToTimeval Marshal Unmarshal fuel cfg inflight runThreshold regionSize strict
            ctx generation tuple) (accounts host_owned host_release w) w).
Proof.
  intros Hk Hids. split.
  - intros thr. apply (accounts_intro w Hids). unfold pluginAttach. case_bool_decide.
    + eapply tri_bind; [by apply tri_pluginAttachSHM|]. intros [tr res] w' (Hm & Hn & Hw). cbn [fst snd] in *.
      destruct (close_made w Hids _ _ _ _ _ Hm Hn Hw) as [dead Hc].
      split; [done|]. split; [by exists ∅|]. apply (released w Hids _ _ _ _ _ (proj2 (proj2 (proj1 (NoDup_app _ _) Hn))) Hc).
    + eapply tri_bind; [by apply tri_pluginAttachUDS|]. intros tr w' (Hm & Hn & Hw).
      unfold plugin_owned, plugin_release. cbn [fst snd]. rewrite <- (app_nil_r (owns tr)) in Hn, Hw.
      destruct (close_made w Hids _ _ _ _ _ Hm Hn Hw) as [dead Hc].
      split; [done|]. split; [by eexists|]. by eapply (st_balanced _ _ _ _ Hids).
  - intros cfg inflight thr size strict generation Hcap. apply (accounts_intro w Hids). unfold attach. case_bool_decide.
    + eapply tri_bind; [by apply tri_attachSHM|]. intros [tr res] w' (Hm & Hn & Hw). cbn [fst snd] in *.
      destruct (close_made w Hids _ _ _ _ _ Hm Hn Hw) as [dead Hc].
      split; [done|]. split; [by eexists|]. apply (released w Hids _ _ _ _ _ (proj2 (proj2 (proj1 (NoDup_app _ _) Hn))) Hc).
    + eapply tri_bind; [by apply tri_attachUDS|]. intros tr w' (Hm & Hn & Hw).
      unfold host_owned, host_release. cbn [fst snd]. rewrite <- (app_nil_r (owns tr)) in Hn, Hw.
      destruct (close_made w Hids _ _ _ _ _ Hm Hn Hw) as [dead Hc].
      split; [done|]. split; [by eexists|]. by eapply (st_balanced _ _ _ _ Hids).
Qed.

(** *** Witness: an attach with the burst path active *)

Definition any_marshal (m : ControlMessage) : option (list Z) :=
  match sample_marshal m with Some d => Some d | None => Some [] end.

Definition burst_attach : ControlMessage :=
  {| CorrelationId := 1; Generation := 1; Body := Some (BodyAttachRegion
       (attach_message sample_config 1 65536 8 sample_tuple)) |}.

Definition run_of_fds (open : gset Z) (k : nat) : list Z := (fun i => next_fd open + Z.of_nat i) <$> seq 0 k.

Definition giving (fds data : list Z) : tick :=
  {| elapsed := 5; hangs := false; errno := None; datagram := data; truncated := false; oob := Cmsgs [Rights fds] |}.

Definition burst_kernel (n : nat) (open : gset Z) : tick :=
  match n with
  | 1%nat => giving (run_of_fds open 4) (default [] (sample_marshal burst_attach))
  | 2%nat => giving [] [SOCK_STREAM]
  | 4%nat => giving (run_of_fds open 1) []
  | _ => giving [] []
  end.

Lemma giving_ok open k data : tick_ok open (giving (run_of_fds open k) data).
Proof.
  assert (E : installed (giving (run_of_fds open k) data) = run_of_fds open k).
  { unfold installed. simpl. by rewrite app_nil_r. }
  split; [|split; [|by exists [run_of_fds open k]]]; rewrite E; unfold run_of_fds.
  - apply NoDup_fmap_2; [intros i j H; lia|]. apply NoDup_seq.
  - intros fd (i & -> & _)%list_elem_of_fmap. apply next_fd_fresh. lia.
Qed.

Lemma burst_kernel_ok n open : tick_ok open (burst_kernel n open).
Proof. destruct n as [|[|[|[|[|n]]]]]; try apply (giving_ok open 0); apply giving_ok. Qed.

Definition burst_result : Transport * option pluginShmResources :=
  (TrBurst {| s_id := 5; s_dup := 8 |} {| u_id := 4; u_fd := 7 |} 1048576 false,
   Some {| p_hpEFD := 5; p_phEFD := 6; p_chunkMaxPayload := 65536 |}).

Definition plugin_run : world * outcome conn_error (Transport * option pluginShmResources) :=
  pluginAttach burst_kernel sample_floor any_marshal sample_unmarshal 3 0 sample_ctx sample_tuple sample_world.

Lemma burst_run_ok : snd plugin_run = Ok burst_result.
Proof. vm_compute. reflexivity. Qed.

Lemma attach_descriptors_linear_witness :
  snd plugin_run = Ok burst_result /\
  w_open (fst plugin_run) = {[3]} ∪ list_to_set [7; 8; 5; 6] /\
  w_open (plugin_release burst_result (fst plugin_run)) = {[3]}.
Proof.
  pose proof (proj1 (attach_descriptors_linear burst_kernel sample_floor any_marshal sample_unmarshal 3 sample_ctx
    sample_tuple sample_world burst_kernel_ok ltac:(intros id Hid; by apply not_elem_of_empty in Hid)) 0) as H.
  pose proof (post_run _ _ _ _ _ H (surjective_pairing plugin_run)) as A.
  rewrite burst_run_ok in A. destruct A as (_ & _ & H1 & _ & H2 & _).
  exact (conj burst_run_ok (conj H1 H2)).
Defined.

(** ** The two sides of one attach *)

(** What the host announces is what the plugin needs: for an attach message the
    host builds from its configuration and the tuple, the plugin evaluates the
    same burst and chunking decisions, finds exactly the descriptors the message
    declares enough, takes them in the host's order, and configures the
    shared-memory transport as the host does. *)
Theorem attach_sides_agree cfg generation regionSize inflight runThreshold tuple :
  is_u32 inflight ->
  let m := attach_message cfg generation regionSize inflight tuple in
  BurstActive tuple (ar_BurstMaxPayload m) = BurstActive tuple (BurstMaxPayload cfg) /\
  ChunkingActive tuple (ar_ChunkMaxPayload m) = ChunkingActive tuple (ChunkMaxPayload cfg) /\
  shmConfig (ar_MaxDataInflight m) (ar_ChunkMaxPayload m) runThreshold tuple
    = shmConfig inflight (ChunkMaxPayload cfg) runThreshold tuple /\
  forall kernel NsecToTimeval Unmarshal fuel ctx w w' msg fds,
    recvControlFDs kernel NsecToTimeval Unmarshal fuel ctx StateAttaching KindAttachRegion
      (ReplyDeadlines KindAttachRegion) w = (w', Ok (msg, fds)) ->
    Body msg = Some (BodyAttachRegion m) -> zlen fds = ar_FdCount m -> (forall fd, fd ∈ fds -> 0 <= fd) ->
    exists a, recvAttachFDs kernel NsecToTimeval Unmarshal fuel ctx tuple w = (w', Ok (m, a)) /\ afds_list a = fds.
Proof.
  intros Hu m.
  assert (HB : BurstActive tuple (ar_BurstMaxPayload m) = BurstActive tuple (BurstMaxPayload cfg)).
  { unfold m, attach_message. cbn [ar_BurstMaxPayload].
    destruct (BurstActive tuple (BurstMaxPayload cfg)) eqn:E; [done|]. unfold BurstActive. simpl. by rewrite andb_false_r. }
  split; [exact HB|]. split; [done|].
  split; [unfold m, attach_message; cbn [ar_MaxDataInflight ar_ChunkMaxPayload]; by rewrite u32_id|].
  intros kernel NsecToTimeval Unmarshal fuel ctx w w' msg fds Hr Hb Hz Hp.
  unfold recvAttachFDs, mbind, io_bind, bind. rewrite Hr. cbn [fst snd].
  assert (Hg : GetAttachRegion msg = m) by (unfold GetAttachRegion; by rewrite Hb). rewrite Hg, HB.
  unfold m, attach_message in Hz. cbn [ar_FdCount] in Hz. unfold zlen in Hz.
  destruct (BurstActive tuple (BurstMaxPayload cfg)).
  - destruct fds as [|f1 [|f2 [|f3 [|f4 [|f5 fds]]]]]; simpl in Hz; try lia. eexists. split; [reflexivity|].
    unfold afds_list. cbn [a_burst a_region a_hp a_ph]. destruct (Z.leb_spec 0 f4); [done|].
    specialize (Hp f4 ltac:(do 3 right; left)). lia.
  - destruct fds as [|f1 [|f2 [|f3 [|f4 fds]]]]; simpl in Hz; try lia. eexists. by split.
Qed.
End Attach.
