(* ===== verification/ServeLoop.v ===== *)
(** * The serving session of a plugin
    (src/pluginserver.go: [runServeLoop] and what it calls, the heartbeat
    sender; src/panic_policy.go; src/drain_quiescence.go;
    src/internal/rpcruntime/dispatch.go and idempotent_retry.go; the accept
    side of src/stream.go)

    One session's goroutines as programs of [Interleave] over one shared state:
    the reader runs the serve loop and every unary handler inline; each stream
    handler runs on a goroutine of its own; the stream engine finishes streams;
    the control loop's drain waits for quiescence; the heartbeat samples the
    lease table; the peer fills the transport's inbound queue.

    The transport is seen through the interfaces the loop uses.  A receive waits
    for readiness, then commits: a [ReservingReceiver] runs the caller's
    [reserve] between the two.  What a send, a fill or a receive answers, what
    the clock says and what an application handler returns come from the
    schedule; the codec is a parameter. *)

From Stdlib Require Import Strings.String Strings.Ascii.
From stdpp Require Import gmap pretty.
From S2P Require Import Prelude CallTable LeaseTable TransportFrame StreamCore ShmWriter BurstTransport Interleave.
Import Frames.

Module Serve.

(** A protobuf message, by identity, and a text as its bytes. *)
Notation message := Z.
Notation text := (list Z).

Definition bytes_of (s : string) : text :=
  (fun a => Z.of_N (N_of_ascii a)) <$> list_ascii_of_string s.

(** ** What a session is built from *)

(** [MethodDesc]; the constructor of its request may be missing. *)
Record MethodDesc := mkMethod { MethodID : Z; MethodName : text; has_NewRequest : bool }.

Record serviceHandler := mkService { ServiceName : text; methods : gmap Z MethodDesc }.

(** [for _, m := range rs.desc.Methods { methods[m.MethodID] = m }] *)
Definition newServiceHandler (name : text) (ms : list MethodDesc) : serviceHandler :=
  mkService name (fold_left (fun t m => <[MethodID m := m]> t) ms ∅).

Inductive decoded := Decoded (m : message) | DecodeError (t : text) | DecodePanic (t : text).

(** The codec, and how the formatting verbs render a name. *)
Record codec := mkCodec {
  Unmarshal : MethodDesc -> list Z -> decoded;
  Marshal : message -> list Z + text;
  Size : message -> option Z;
  DecodedMessageOwnsBytes : bool;
  quoted : text -> text;
  error_text : error -> text
}.

(** The optional interfaces of the transport: [ReservingReceiver],
    [ViewReceiver], [InboundQueueProber], [PayloadFillSender], [FrameCounter],
    [boundedReadReporter], [ArenaOccupancyReporter]. *)
Record transport_caps := mkCaps {
  reserving : bool; views : bool; prober : bool; fills : bool; counter : bool; bounded : bool; arena : bool
}.

(** [streaming] is [srv != nil]. *)
Record server := mkServer {
  services : gmap Z serviceHandler;
  stream_handlers : gmap (Z * Z) Streams.StreamShape;
  streaming : bool;
  continueAfterPanic : bool;
  cdc : codec;
  caps : transport_caps
}.

(** [dispatcher.Register(rs.desc.ServiceID, newServiceHandler(...))] for every
    registered service. *)
Definition Register (i : Z) (h : serviceHandler) (t : gmap Z serviceHandler) : gmap Z serviceHandler :=
  <[i := h]> t.

(** ** State *)

(** What the reader did, in order: the trace the theorems are about. *)
Inductive event :=
| EGot (f : Frame)
| EDeclined (i : Z)
| EOpened (i : Z)
| EEntered (i : Z)
| EExpired (i : Z)
| ESent (f : Frame) (e : option error)
| EClosed (i : Z)
| ELaunched (i : Z)
| ETainted
| ERetired.

(** [readers] and [writer] are the admission gate, [terminated] is [terminate]
    closed; [inFlight] has the calls whose cancel function is registered and
    [cancelled] the contexts a CANCEL ended; [reserved], [released] and
    [drainOwed] belong to the reader; [live] is the stream table, [closing] the
    stream the engine is finishing, [launches] the handler goroutines started
    and not yet running.  [reader_owes] and [streams_owe] say that a goroutine
    is between the change a drain may wait for and its poke; [trace],
    [arrivals] and [asked] record what happened. *)
Record session := mkSession {
  tainted : bool; readers : Z; writer : option nat; terminated : bool;
  ingressPending : Z; wake : bool;
  leases : Leases.LeaseTable; inFlight : gset Z; cancelled : gset Z;
  reserved : bool; released : bool; drainOwed : bool;
  live : gset Z; closing : gset Z; launches : list (Z * Streams.StreamShape); fatal : bool;
  inbox : list Frame;
  reader_owes : bool; streams_owe : bool;
  trace : list event; arrivals : nat; asked : nat
}.

Definition eta (s : session) : session :=
  mkSession (tainted s) (readers s) (writer s) (terminated s) (ingressPending s) (wake s) (leases s) (inFlight
    s) (cancelled s) (reserved s) (released s) (drainOwed s) (live s) (closing s) (launches s) (fatal s)
    (inbox s) (reader_owes s) (streams_owe s) (trace s) (arrivals s) (asked s).
Definition with_tainted x (s : session) : session := ltac:(update_field eta s tainted x).
Definition with_readers x (s : session) : session := ltac:(update_field eta s readers x).
Definition with_writer x (s : session) : session := ltac:(update_field eta s writer x).
Definition with_terminated x (s : session) : session := ltac:(update_field eta s terminated x).
Definition with_ingressPending x (s : session) : session := ltac:(update_field eta s ingressPending x).
Definition with_wake x (s : session) : session := ltac:(update_field eta s wake x).
Definition with_leases x (s : session) : session := ltac:(update_field eta s leases x).
Definition with_inFlight x (s : session) : session := ltac:(update_field eta s inFlight x).
Definition with_cancelled x (s : session) : session := ltac:(update_field eta s cancelled x).
Definition with_reserved x (s : session) : session := ltac:(update_field eta s reserved x).
Definition with_released x (s : session) : session := ltac:(update_field eta s released x).
Definition with_drainOwed x (s : session) : session := ltac:(update_field eta s drainOwed x).
Definition with_live x (s : session) : session := ltac:(update_field eta s live x).
Definition with_closing x (s : session) : session := ltac:(update_field eta s closing x).
Definition with_launches x (s : session) : session := ltac:(update_field eta s launches x).
Definition with_fatal x (s : session) : session := ltac:(update_field eta s fatal x).
Definition with_inbox x (s : session) : session := ltac:(update_field eta s inbox x).
Definition with_reader_owes x (s : session) : session := ltac:(update_field eta s reader_owes x).
Definition with_streams_owe x (s : session) : session := ltac:(update_field eta s streams_owe x).
Definition with_trace x (s : session) : session := ltac:(update_field eta s trace x).
Definition with_arrivals x (s : session) : session := ltac:(update_field eta s arrivals x).
Definition with_asked x (s : session) : session := ltac:(update_field eta s asked x).

Definition record (e : event) (s : session) : session := with_trace (trace s ++ [e]) s.

(** A session as [runServing] builds it: the lease table's hook is the drain's
    poke. *)
Definition fresh : session :=
  mkSession false 0 None false 0 false (Leases.SetObligationClosedHook true Leases.NewLeaseTable) ∅ ∅
    false false false ∅ ∅ [] false [] false false [] 0 0.

(** ** What a goroutine asks and is told *)

Inductive query :=
(* the reader *)
| QReady | QRead | QProbe | QReaderDrained | QBegin
| QRLock | QTaint | QRUnlock | QOpen (i : Z) | QArm | QNow | QTrack (i : Z) | QEnter (i : Z) | QHandler (i : Z)
| QPanicked | QUntrack (i : Z) | QRelease | QSend (f : Frame) | QFill (f : Frame) (size : Z) | QClose (i : Z) | QPoke
| QCancel (i : Z) | QRetire | QFailure | QStop | QRoute (f : Frame) | QHasLive (i : Z) | QReject (i code : Z)
| QAccept (i : Z) (cfg : Streams.StreamConfig) | QPublish (i : Z) | QLaunch (i : Z)
(* a stream handler's goroutine *)
| QTake | QStreamHandler (i : Z) | QLock | QStore | QUnlock | QTerminate (i : Z) (st : FrameStatus) | QSignal
| QSendClosed (i : Z) | QDone (i : Z)
(* the drain, the stream engine, the heartbeat, the peer *)
| QDrainReadable | QDrainIngress | QDrainObligations | QDrainTaint | QDrainFatal | QDrainAgain | QDrainIngressAgain
| QDrainWait | QEngine | QEngineClose (i : Z) | QConsumed | QReadable | QBounded | QProduced | QArena | QRenew | QSnapshot | QPeer.

(** A handler's error: a [*Status] in its chain, with what marshalling each
    detail gives, or any other error. *)
Inductive handler_error :=
| HStatus (code : Z) (msg : text) (details : list (list Z + text))
| HOther (t : text).

Inductive handled := HReturns (m : message) | HFails (e : handler_error) | HPanics (t : text).

(** What ends a receive that commits to nothing, or the read after a commit:
    the read takes the frame at the head of the queue, discards it with an
    error of its own ([ADiscard]) or because the consume step faulted
    ([AFault]), or takes nothing. *)
Inductive answer :=
| ANone
| ACommit
| ADiscard (e : error)
| AFault (detail : text)
| AErr (e : option error)
| ATime (t : Z)
| AHandled (h : handled)
| AClass (c : Burst.BurstFailureClass)
| ABool (b : bool)
| AZ (z : Z)
| AFinish (i : Z)
| AFatal
| APush (f : Frame).

Notation P := (proc session query answer).

Definition told_err (x : answer) : option (option error) := match x with AErr e => Some e | _ => None end.
Definition told_time (x : answer) : option Z := match x with ATime t => Some t | _ => None end.
Definition told_handled (x : answer) : option handled := match x with AHandled h => Some h | _ => None end.
Definition told_class (x : answer) : option Burst.BurstFailureClass := match x with AClass c => Some c | _ => None end.
Definition told_Z (x : answer) : option Z := match x with AZ z => Some z | _ => None end.
Definition told_bool (x : answer) : option bool := match x with ABool b => Some b | _ => None end.

Definition upd (q : query) (f : session -> session) : P unit := crit q (fun s => (f s, tt)).
Definition look {A} (q : query) (f : session -> A) : P A := crit q (fun s => (s, f s)).

(** ** The drain coordinator *)

(** [c.wake <- struct{}{}] on a channel of capacity one, or nothing. *)
Definition poke (by_reader : bool) : P unit :=
  upd QPoke (fun s =>
    let s := with_wake true s in
    if by_reader then with_reader_owes false s else with_streams_owe false s).

Definition reserve (s : session) : session := with_ingressPending (ingressPending s + 1) (with_reserved true s).

(** The deferred end of one frame's disposition: [c.ingressPending.Add(-1)] and
    the poke, when the receive reserved. *)
Definition retire : P unit :=
  was ← crit QRetire (fun s =>
    let s1 := record ERetired s in
    if reserved s
    then (with_reader_owes true (with_ingressPending (ingressPending s - 1) s1), true)
    else (s1, false));
  if (was : bool) then poke true else mret tt.

Definition inboundReadable (c : transport_caps) (s : session) : bool :=
  prober c && match inbox s with [] => false | _ => true end.

(** ** The panic controller *)

Definition recordUnaryPanic (cfg : server) : P unit :=
  upd QPanicked (fun s => if continueAfterPanic cfg then s else with_tainted true s).

(** [pc.admitGate.Lock()]: taken when no one holds either side. *)
Definition lock (self : nat) : P unit :=
  Act QLock (fun _ s =>
    match writer s with
    | None => if readers s =? 0 then (with_writer (Some self) s, Some (mret tt)) else (s, None)
    | Some _ => (s, None)
    end).

Definition recordStreamPanicTaint (cfg : server) (self : nat) : P unit :=
  if continueAfterPanic cfg then mret tt else
  lock self ≫= fun _ =>
  upd QStore (with_tainted true) ≫= fun _ =>
  upd QUnlock (with_writer None).

(** [pc.terminateOnce.Do(func() { close(pc.terminate) })] *)
Definition signalStreamTerminate (cfg : server) : P unit :=
  if continueAfterPanic cfg then mret tt else upd QSignal (with_terminated true).

Definition rlock : P unit :=
  Act QRLock (fun _ s =>
    match writer s with
    | None => (with_readers (readers s + 1) s, Some (mret tt))
    | Some _ => (s, None)
    end).

Definition endAdmit : P unit := upd QRUnlock (fun s => with_readers (readers s - 1) s).

(** [pc.handlerPanicked.Load()], kept in the trace when it finds the taint. *)
Definition see_taint : P bool := crit QTaint (fun s => (if tainted s then record ETainted s else s, tainted s)).

Definition shouldTerminate : P bool := see_taint.

Definition beginAdmit : P bool :=
  rlock ≫= fun _ =>
  t ← see_taint;
  if (t : bool) then endAdmit ≫= fun _ => mret false else mret true.

(** [admitReleaser]: the release of the read side one admission holds, once. *)
Definition arm : P unit := upd QArm (with_released false).

Definition release_in (s : session) : session :=
  if released s then s else with_readers (readers s - 1) (with_released true s).

Definition release : P unit := upd QRelease release_in.

(** ** The dispatcher *)

Record Request := mkRequest { Msg : option message; DecodeFault : text }.
Definition no_request : Request := mkRequest None [].

Record Response := mkResponse { resp_Payload : list Z; resp_Msg : option message }.

Record ResponseEnvelope := mkEnvelope { env_Frame : Frame; env_Msg : option message }.

Definition lookupMethod (h : serviceHandler) (m : Z) : option MethodDesc :=
  match methods h !! m with
  | Some d => if has_NewRequest d then Some d else None
  | None => None
  end.

(** [Dispatcher.NewRequest]: the method whose request is to be decoded. *)
Definition NewRequest (cfg : server) (service m : Z) : option MethodDesc :=
  services cfg !! service ≫= fun h => lookupMethod h m.

Definition statusFrame (f : Frame) (s : FrameStatus) : Frame :=
  mkFrame (CallID f) FrameUnaryErr (Service f) (Method f) 0 [] (Some s) 0.

Definition statusEnvelope (f : Frame) (s : FrameStatus) : ResponseEnvelope := mkEnvelope (statusFrame f s) None.

Definition InternalStatusFrame (f : Frame) (msg : text) : Frame :=
  statusFrame f (mkStatus Table.StatusCodeInternal msg []).

Definition DeclinedStatusFrame (i : Z) (reason : text) : Frame :=
  statusFrame (mkFrame i 0 0 0 0 [] None 0) (mkStatus Table.StatusCodeRequestDeclined reason []).

Definition panicStatus (recovered : text) : FrameStatus := mkStatus Table.StatusCodeHandlerPanic recovered [].

Definition CodeInternal : Z := 8.

(** The details of a status, up to the first that does not marshal. *)
Fixpoint marshal_details (l : list (list Z + text)) : list (list Z) + text :=
  match l with
  | [] => inl []
  | inr t :: _ => inr t
  | inl raw :: l => match marshal_details l with inl ds => inl (raw :: ds) | inr t => inr t end
  end.

Definition statusFromHandlerErr (e : handler_error) : FrameStatus :=
  match e with
  | HStatus code msg details =>
      let code := if Table.StatusCodeReservedMin <=? code then Table.StatusCodeInternal else code in
      match marshal_details details with
      | inl ds => mkStatus code msg ds
      | inr t => mkStatus CodeInternal t []
      end
  | HOther t => mkStatus CodeInternal t []
  end.

(** [invokeHandler]: the admission is released at the top of the handler's
    frame; a panic of the handler is recovered. *)
Definition invokeHandler (i : Z) : P handled :=
  upd (QEnter i) (fun s => record (EEntered i) (release_in s)) ≫= fun _ =>
  ask (QHandler i) told_handled.

Definition serviceHandler_Handle (cfg : server) (h : serviceHandler) (i m : Z) (req : option message) :
    P (Response * option FrameStatus * option error) :=
  match lookupMethod h m with
  | None =>
      mret (mkResponse [] None,
        Some (mkStatus Table.StatusCodeMethodNotFound
          (bytes_of "method " ++ bytes_of (pretty m) ++ bytes_of " not found in " ++ quoted (cdc cfg) (ServiceName h)) []),
        None)
  | Some d =>
      match req with
      | None =>
          mret (mkResponse [] None,
            Some (mkStatus Table.StatusCodeInternal
              (bytes_of "no request was decoded for method " ++ quoted (cdc cfg) (MethodName d) ++ bytes_of " of "
                ++ quoted (cdc cfg) (ServiceName h)) []),
            None)
      | Some _ =>
          r ← invokeHandler i;
          match r with
          | HPanics t =>
              recordUnaryPanic cfg ≫= fun _ => mret (mkResponse [] None, Some (panicStatus t), None)
          | HFails e => mret (mkResponse [] None, Some (statusFromHandlerErr e), None)
          | HReturns m => mret (mkResponse [] (Some m), None, None)
          end
      end
  end.

Definition trackCall (i startedAt : Z) : P unit :=
  upd (QTrack i) (fun s => with_inFlight ({[i]} ∪ inFlight s) s) ≫= fun _ =>
  upd (QTrack i) (fun s => with_leases (Leases.Acquire i startedAt (leases s)) s).

Definition untrackCall (i : Z) : P unit :=
  upd (QUntrack i) (fun s => with_inFlight (inFlight s ∖ {[i]}) s) ≫= fun _ =>
  upd (QUntrack i) (fun s => with_leases (Leases.Release i (leases s)) s).

(** [d.cancel]: the context of a call in flight is ended. *)
Definition cancel (i : Z) : P unit :=
  upd (QCancel i) (fun s => if decide (i ∈ inFlight s) then with_cancelled ({[i]} ∪ cancelled s) s else s).

Definition InflightCount (s : session) : Z := Z.of_nat (size (inFlight s)).

(** [!time.Now().Before(deadline)], with no deadline never. *)
Definition expired (i : Z) (deadline : option Z) : P bool :=
  match deadline with
  | None => mret false
  | Some d =>
      Act QNow (fun x s =>
        match told_time x with
        | Some t => if t <? d then (s, Some (mret false)) else (record (EExpired i) s, Some (mret true))
        | None => (s, None)
        end)
  end.

Definition isCtxErr (e : error) : bool := Is (Some e) CtxCanceled || Is (Some e) CtxDeadlineExceeded.

Definition respond (cfg : server) (f : Frame) (r : Response * option FrameStatus * option error) : list ResponseEnvelope :=
  match r with
  | (_, _, Some e) =>
      if isCtxErr e then []
      else [statusEnvelope f (mkStatus Table.StatusCodeInternal (error_text (cdc cfg) e) [])]
  | (_, Some st, None) => [statusEnvelope f st]
  | (resp, None, None) =>
      [mkEnvelope (mkFrame (CallID f) FrameUnaryResp (Service f) (Method f) 0 (resp_Payload resp) None 0) (resp_Msg resp)]
  end.

Definition dispatchUnary (cfg : server) (f : Frame) (req : Request) (recvAt : Z) : P (list ResponseEnvelope) :=
  let deadline := if 0 <? Budget f then Some (Table.Reanchor (Budget f) recvAt) else None in
  late ← expired (CallID f) deadline;
  if (late : bool) then mret [] else
  match services cfg !! Service f with
  | None => mret [statusEnvelope f (mkStatus Table.StatusCodeServiceNotFound (bytes_of "service not found") [])]
  | Some h =>
      if decide (DecodeFault req = []) then
        trackCall (CallID f) recvAt ≫= fun _ =>
        r ← serviceHandler_Handle cfg h (CallID f) (Method f) (Msg req);
        late ← expired (CallID f) deadline;
        untrackCall (CallID f) ≫= fun _ =>
        mret (if (late : bool) then [] else respond cfg f r)
      else mret [statusEnvelope f (mkStatus Table.StatusCodeInternal (bytes_of "request decode failed: " ++ DecodeFault req) [])]
  end.

Definition Dispatch (cfg : server) (f : Frame) (req : Request) (recvAt : Z) : P (list ResponseEnvelope) :=
  if Kind f =? FrameUnaryReq then dispatchUnary cfg f req recvAt
  else if Kind f =? FrameCancel then cancel (CallID f) ≫= fun _ => mret []
  else mret [].

(** ** The receive side of the loop *)

(** [ConsumeFaultError], and an error that may carry one. *)
Record fault := mkFault { ft_CallID : Z; ft_Kind : Z; ft_Detail : text }.
Record recvErr := mkRecvErr { re_err : error; re_fault : option fault }.

Definition maxDecodeFaultBytes : nat := 512.

(** [utf8.RuneStart] *)
Definition RuneStart (b : Z) : bool := negb (Z.land b 0xC0 =? 0x80).

(** [for cut > 0 && !utf8.RuneStart(detail[cut]) { cut-- }] *)
Fixpoint rune_cut (detail : text) (cut : nat) : nat :=
  match cut with
  | O => O
  | S k => if RuneStart (nth cut detail 0) then cut else rune_cut detail k
  end.

Definition decodeFaultText (detail : text) : text :=
  if decide (length detail <= maxDecodeFaultBytes)%nat then detail
  else take (rune_cut detail maxDecodeFaultBytes) detail ++ bytes_of "... (truncated)".

Definition decodeUnaryRequest (cfg : server) (f : Frame) : Request :=
  match NewRequest cfg (Service f) (Method f) with
  | None => no_request
  | Some d =>
      match Unmarshal (cdc cfg) d (Payload f) with
      | Decoded m => mkRequest (Some m) []
      | DecodeError t => mkRequest None (decodeFaultText t)
      | DecodePanic t => mkRequest None (decodeFaultText (bytes_of "panicked: " ++ t))
      end
  end.

Definition isStreamKind (k : Z) : bool :=
  bool_decide (k ∈ [FrameStreamOpen; FrameStreamMsg; FrameStreamAck; FrameStreamClose; FrameStreamErr; FrameStreamChunk]).

Definition with_Payload (p : list Z) (f : Frame) : Frame :=
  mkFrame (CallID f) (Kind f) (Service f) (Method f) (Budget f) p (FStatus f) (Control f).

(** A stream frame keeps its payload (its own copy when the receive borrows);
    nothing else reads one after the decode. *)
Definition prepareInboundFrame (cfg : server) (f : Frame) : Frame * Request :=
  if Kind f =? FrameUnaryReq then (with_Payload [] f, decodeUnaryRequest cfg f)
  else if isStreamKind (Kind f) then (f, no_request)
  else (with_Payload [] f, no_request).

(** The read after the commit. *)
Definition take_frame : P (Frame + recvErr) :=
  Act QRead (fun x s =>
    match x, inbox s with
    | ACommit, f :: rest => (record (EGot f) (with_inbox rest s), Some (mret (inl f)))
    | ADiscard e, f :: rest =>
        if Kind f =? FrameUnaryReq then (s, None) else (with_inbox rest s, Some (mret (inr (mkRecvErr e None))))
    | AFault d, f :: rest =>
        let s1 := with_inbox rest s in
        (if Kind f =? FrameUnaryReq then record (EDeclined (CallID f)) s1 else s1,
         Some (mret (inr (mkRecvErr [ErrConsumeFault] (Some (mkFault (CallID f) (Kind f) d))))))
    | AErr (Some e), _ => (s, Some (mret (inr (mkRecvErr e None))))
    | _, _ => (s, None)
    end).

(** [recvReserving]: the readiness wait, [reserve], the read. *)
Definition recvReserving (cfg : server) : P (Frame + recvErr) :=
  Act QReady (fun x s =>
    match x with
    | ACommit => (if reserving (caps cfg) then reserve s else s, Some take_frame)
    | AErr (Some e) => (s, Some (mret (inr (mkRecvErr e None))))
    | _ => (s, None)
    end).

Definition receiveOneFrame (cfg : server) : P (Frame * Request + recvErr) :=
  r ← recvReserving cfg;
  mret match r with inl f => inl (prepareInboundFrame cfg f) | inr e => inr e end.

(** ** The exits of the loop

    [None] keeps serving; [Some None] is a clean end. *)

Inductive loopErr := errServeLoopPoisoned | errServeLoopDataPlaneFailed | errServeLoopHandlerPanicked.
Notation verdict := (option (option loopErr)).

Definition terminalLoopExit (e : error) : P verdict :=
  if Is (Some e) ErrPoisoned then mret (Some (Some errServeLoopPoisoned)) else
  c ← ask QFailure told_class;
  mret (Some match c with
    | Burst.BurstFailurePoisoned => Some errServeLoopPoisoned
    | Burst.BurstFailureIOError => Some errServeLoopDataPlaneFailed
    | Burst.BurstFailurePeerClosed | Burst.BurstFailureNone => None
    end).

Definition disposeRecvErr (e : error) : P verdict :=
  if IsFrameLocalRecvErr (Some e) then mret None else terminalLoopExit e.

(** ** Sends and obligations *)

Definition Send (f : Frame) : P (option error) :=
  Act (QSend f) (fun x s =>
    match told_err x with
    | Some e => (record (ESent f e) s, Some (mret e))
    | None => (s, None)
    end).

Definition SendPayloadFill (f : Frame) (size : Z) : P (option error) :=
  Act (QFill f size) (fun x s =>
    match told_err x with
    | Some e => (record (ESent f e) s, Some (mret e))
    | None => (s, None)
    end).

Definition OpenObligation (i : Z) : P unit :=
  upd (QOpen i) (fun s => record (EOpened i) (with_leases (Leases.openObligation i (leases s)) s)).

(** The delete under the table's lock, then the hook. *)
Definition CloseObligation (i : Z) : P unit :=
  upd (QClose i) (fun s =>
    with_reader_owes true (record (EClosed i) (with_leases (Leases.closeObligation i (leases s)) s))) ≫= fun _ =>
  poke true.

Definition answerDeclinedRequest (e : recvErr) : P verdict :=
  match re_fault e with
  | None => mret None
  | Some ft =>
      if negb (ft_Kind ft =? FrameUnaryReq) then mret None else
      OpenObligation (ft_CallID ft) ≫= fun _ =>
      serr ← Send (DeclinedStatusFrame (ft_CallID ft) (ft_Detail ft));
      v ← match serr with None => mret None | Some e => terminalLoopExit e end;
      CloseObligation (ft_CallID ft) ≫= fun _ => mret v
  end.

(** [resolvePayloadFiller]: the size to fill, when transport and codec allow it. *)
Definition resolvePayloadFiller (cfg : server) (m : message) : option Z :=
  if fills (caps cfg) then Size (cdc cfg) m else None.

Definition sendUnaryResponse (cfg : server) (env : ResponseEnvelope) : P (option error) :=
  let f := env_Frame env in
  match env_Msg env with
  | Some m =>
      if negb (Kind f =? FrameUnaryResp) then Send f else
      match resolvePayloadFiller cfg m with
      | Some size =>
          serr ← SendPayloadFill f size;
          match serr with
          | Some e =>
              if Is (Some e) Writer.ErrPayloadFillFailed
              then Send (InternalStatusFrame f (error_text (cdc cfg) e))
              else mret (Some e)
          | None => mret None
          end
      | None =>
          match Marshal (cdc cfg) m with
          | inr merr => Send (InternalStatusFrame f merr)
          | inl payload => Send (with_Payload payload f)
          end
      end
  | None => Send f
  end.

(** ** One frame's disposition *)

(** Whether the receive decodes out of the transport's own memory. *)
Definition serveViewReceiver (cfg : server) : bool := views (caps cfg) && DecodedMessageOwnsBytes (cdc cfg).

Fixpoint send_all (cfg : server) (envs : list ResponseEnvelope) : P (option error) :=
  match envs with
  | [] => mret None
  | env :: envs =>
      serr ← sendUnaryResponse cfg env;
      match serr with Some e => mret (Some e) | None => send_all cfg envs end
  end.

(** What follows the dispatch: the sends, the end of the obligation, the
    policy. *)
Definition finishNonStream (cfg : server) (f : Frame) (envs : list ResponseEnvelope) : P verdict :=
  serr ← send_all cfg envs;
  match serr with
  | Some e => mret (Some (if Is (Some e) ErrPoisoned then Some errServeLoopPoisoned else None))
  | None =>
      (if Kind f =? FrameUnaryReq then CloseObligation (CallID f) else mret tt) ≫= fun _ =>
      t ← shouldTerminate;
      mret (if (t : bool) then Some (Some errServeLoopHandlerPanicked) else None)
  end.

Definition dispatchNonStreamFrame (cfg : server) (f : Frame) (req : Request) : P verdict :=
  recvAt ← ask QNow told_time;
  if Kind f =? FrameUnaryReq then
    ok ← beginAdmit;
    if negb (ok : bool) then mret (Some (Some errServeLoopHandlerPanicked)) else
    OpenObligation (CallID f) ≫= fun _ =>
    arm ≫= fun _ =>
    envs ← Dispatch cfg f req recvAt;
    release ≫= fun _ =>
    v ← finishNonStream cfg f envs;
    release ≫= fun _ => mret v
  else
    envs ← Dispatch cfg f req recvAt;
    finishNonStream cfg f envs.

(** ** Streams, as the reader sees them *)

Definition streamNMax : Z := 16.

Definition HasLiveStream (i : Z) : P bool := look (QHasLive i) (fun s => bool_decide (i ∈ live s)).
Definition EmitReject (i code : Z) : P unit := upd (QReject i code) id.

Definition streamOpenRejectCode (e : error) : Z :=
  if Is (Some e) ErrStreamsAtCapacity then Streams.StatusCodeStreamBackpressure
  else Streams.StatusCodeStreamIncompatible.

(** The stream engine's admission: it registers the stream and opens its
    obligation, or refuses. *)
Definition OpenAccepting (i : Z) (sc : Streams.StreamConfig) : P (option error) :=
  Act (QAccept i sc) (fun x s =>
    if decide (i ∈ live s) then (s, Some (mret (Some [ErrStreamExists]))) else
    match told_err x with
    | Some None =>
        (with_live ({[i]} ∪ live s) (with_leases (Leases.openObligation i (leases s)) s), Some (mret None))
    | Some (Some e) => (s, Some (mret (Some e)))
    | None => (s, None)
    end).

Definition open_config (f : Frame) (shape : Streams.StreamShape) : Streams.StreamConfig :=
  let n := Z.land (Control f) (Z.ones 32) in
  Streams.mkConfig (if n =? 0 then streamNMax else n) (Budget f) (Service f) (Method f) shape
    (match shape with Streams.ServerStreaming => Payload f | _ => [] end).

Definition onStreamOpen (cfg : server) (f : Frame) : P (option error) :=
  let i := CallID f in
  if negb (Z.shiftr (Control f) 32 =? 0) then mret (Some [ErrStreamConformance]) else
  dup ← HasLiveStream i;
  if (dup : bool) then mret (Some [ErrStreamConformance]) else
  match stream_handlers cfg !! (Service f, Method f) with
  | None => EmitReject i Table.StatusCodeMethodNotFound ≫= fun _ => mret None
  | Some shape =>
      r ← OpenAccepting i (open_config f shape);
      match r with
      | Some e =>
          if Is (Some e) ErrStreamExists then mret (Some [ErrStreamConformance])
          else EmitReject i (streamOpenRejectCode e) ≫= fun _ => mret None
      | None =>
          published ← ask (QPublish i) told_bool;
          if negb (published : bool) then mret None else
          now ← ask QNow told_time;
          upd (QLaunch i) (fun s =>
            record (ELaunched i) (with_launches (launches s ++ [(i, shape)])
              (with_leases (Leases.Acquire i now (leases s)) s))) ≫= fun _ =>
          mret None
      end
  end.

(** [plane.dispatchStreamFrame]: the stream table's own dispatch. *)
Definition dispatchStreamFrame (f : Frame) : P (option error) := ask (QRoute f) told_err.

Definition drainOwedMark : P unit := upd QProbe (with_drainOwed true).

Definition probeDrain (cfg : server) : P unit :=
  owed ← look QProbe (fun s => drainOwed s && negb (inboundReadable (caps cfg) s));
  if (owed : bool) then upd QReaderDrained (with_drainOwed false) else mret tt.

(** [(fenced, err)] *)
Definition routeStreamFrame (cfg : server) (f : Frame) : P (bool * option error) :=
  if Kind f =? FrameStreamOpen then
    ok ← beginAdmit;
    if negb (ok : bool) then mret (true, None) else
    derr ← onStreamOpen cfg f;
    endAdmit ≫= fun _ => mret (false, derr)
  else
    derr ← dispatchStreamFrame f;
    match derr with
    | Some e => mret (false, Some e)
    | None => drainOwedMark ≫= fun _ => mret (false, None)
    end.

(** [stopTransportWriter] and [plane.stopWriter] *)
Definition stopWriter : P unit := upd QStop id.

Definition poison_exit : P verdict := stopWriter ≫= fun _ => mret (Some (Some errServeLoopPoisoned)).

Definition routed_stream (cfg : server) (f : Frame) : P verdict :=
  r ← routeStreamFrame cfg f;
  match r with
  | (true, _) => mret (Some (Some errServeLoopHandlerPanicked))
  | (false, Some _) => poison_exit
  | (false, None) => mret None
  end.

Definition routed_cancel (f : Frame) : P verdict :=
  derr ← dispatchStreamFrame f;
  match derr with Some _ => poison_exit | None => mret None end.

Definition route (cfg : server) (f : Frame) (req : Request) : P verdict :=
  if isStreamKind (Kind f) then
    if streaming cfg then routed_stream cfg f else poison_exit
  else if (Kind f =? FrameCancel) && streaming cfg then
    on_stream ← HasLiveStream (CallID f);
    if (on_stream : bool) then routed_cancel f else dispatchNonStreamFrame cfg f req
  else if (Kind f =? FrameCancel) && negb (Control f =? 0) then poison_exit
  else dispatchNonStreamFrame cfg f req.

Definition dispose (cfg : server) (r : Frame * Request + recvErr) : P verdict :=
  match r with
  | inr e =>
      v ← answerDeclinedRequest e;
      match v with Some _ => mret v | None => disposeRecvErr (re_err e) end
  | inl (f, req) =>
      t ← shouldTerminate;
      if (t : bool) then mret (Some (Some errServeLoopHandlerPanicked)) else route cfg f req
  end.

Definition serveOneFrame (cfg : server) : P verdict :=
  upd QBegin (with_reserved false) ≫= fun _ =>
  r ← receiveOneFrame cfg;
  v ← dispose cfg r;
  retire ≫= fun _ => mret v.

(** One turn of [runServeLoop]. *)
Definition serve_turn (cfg : server) : P verdict :=
  (if streaming cfg then probeDrain cfg else mret tt) ≫= fun _ => serveOneFrame cfg.

(** ** The other goroutines *)

Inductive result :=
| RTurn (v : verdict)
| RHandled
| RDrained (e : option error)
| RRetry
| ROther.

(** [runHandler] on the goroutine [onStreamOpen] started; the deferred release
    of the lease ends it. *)
Definition handler_outcome (cfg : server) (self : nat) (i : Z) (shape : Streams.StreamShape) (h : handled) : P unit :=
  match h with
  | HPanics t =>
      recordStreamPanicTaint cfg self ≫= fun _ =>
      upd (QTerminate i (panicStatus t)) id ≫= fun _ =>
      signalStreamTerminate cfg
  | HFails e => upd (QTerminate i (statusFromHandlerErr e)) id
  | HReturns _ =>
      match shape with
      | Streams.ClientStreaming =>
          sent ← ask (QSendClosed i) told_bool;
          if (sent : bool) then mret tt
          else upd (QTerminate i (mkStatus CodeInternal
                 (bytes_of "styx: client-streaming handler returned without sending a response") [])) id
      | _ => mret tt
      end
  end.

Definition runHandler (cfg : server) (self : nat) : P result :=
  job ← Act QTake (fun _ s =>
    match launches s with
    | job :: rest => (with_launches rest s, Some (mret job))
    | [] => (s, None)
    end);
  h ← ask (QStreamHandler (fst job)) told_handled;
  handler_outcome cfg self (fst job) (snd job) h ≫= fun _ =>
  upd (QDone (fst job)) (fun s => with_leases (Leases.Release (fst job) (leases s)) s) ≫= fun _ =>
  mret RHandled.

(** [taintClear], then the answer of the predicate. *)
Definition taintClear (cfg : server) : P bool :=
  t ← look QDrainTaint tainted;
  if (t : bool) then mret false else
  if streaming cfg then look QDrainFatal (fun s => negb (fatal s)) else mret true.

Definition quiescedOnce (cfg : server) : P bool :=
  a ← crit QDrainReadable (fun s => (with_asked (arrivals s) s, inboundReadable (caps cfg) s));
  if (a : bool) then mret false else
  b ← look QDrainIngress ingressPending;
  if negb (b =? 0) then mret false else
  c ← look QDrainObligations (fun s => Leases.OpenObligationCount (leases s));
  if negb (c =? 0) then mret false else
  clear ← taintClear cfg;
  if negb (clear : bool) then mret false else
  d ← look QDrainAgain (inboundReadable (caps cfg));
  if (d : bool) then mret false else
  e ← look QDrainIngressAgain ingressPending;
  mret (e =? 0).

(** One turn of [waitQuiescent]: evaluate, or park until a poke or the end of
    the context. *)
Definition waitQuiescent (cfg : server) : P result :=
  q ← quiescedOnce cfg;
  if (q : bool) then mret (RDrained None) else
  Act QDrainWait (fun x s =>
    match x with
    | AErr (Some e) => (s, Some (mret (RDrained (Some e))))
    | _ => if wake s then (with_wake false s, Some (mret RRetry)) else (s, None)
    end).

(** The stream engine ends a stream, closing its obligation, or fails the
    connection. *)
Definition close_stream (i : Z) : P result :=
  upd (QEngineClose i) (fun s =>
    with_streams_owe true (with_closing (closing s ∖ {[i]}) (with_leases (Leases.closeObligation i (leases s)) s))) ≫= fun _ =>
  poke false ≫= fun _ => mret ROther.

Definition engine : P result :=
  Act QEngine (fun x s =>
    match x with
    | AFinish i =>
        if decide (i ∈ live s) then
          (with_closing ({[i]} ∪ closing s) (with_live (live s ∖ {[i]}) s), Some (close_stream i))
        else (s, None)
    | AFatal => (with_fatal true s, Some (mret ROther))
    | _ => (s, None)
    end).

Definition peer : P result :=
  Act QPeer (fun x s =>
    match x with
    | APush f => (with_arrivals (S (arrivals s)) (with_inbox (inbox s ++ [f]) s), Some (mret ROther))
    | _ => (s, None)
    end).

(** [heartbeatProgress.heartbeat]: the samples in their order, then the leases
    renewed and read with the obligations that have none. *)
Record Heartbeat := mkHeartbeat {
  DescriptorsConsumedH2P : Z; InboundReadable : bool; BoundedReadActive : bool; DescriptorsProducedP2H : Z;
  ArenaOccupancyBytes : Z; HLeases : list Leases.Lease; hb_InflightCount : Z
}.

Definition heartbeat (cfg : server) (now : Z) : P Heartbeat :=
  let c := caps cfg in
  consumed ← (if counter c then ask QConsumed told_Z else mret 0);
  readable ← (if counter c then look QReadable (inboundReadable c) else mret false);
  bounded ← (if counter c && bounded c then ask QBounded told_bool else mret false);
  produced ← (if counter c then ask QProduced told_Z else mret 0);
  occupancy ← (if arena c then ask QArena told_Z else mret 0);
  upd QRenew (fun s => with_leases (Leases.RenewAll now (leases s)) s) ≫= fun _ =>
  ls ← look QSnapshot (fun s => Leases.SnapshotWithObligations (leases s));
  mret (mkHeartbeat consumed readable bounded produced occupancy (fst ls) (snd ls)).

Definition beat (cfg : server) : P result :=
  now ← ask QNow told_time;
  heartbeat cfg now ≫= fun _ => mret ROther.

(** ** The session

    The reader, the drain, the stream engine, the heartbeat and the peer, and
    the goroutines of the stream handlers. *)

Definition reader_loop (cfg : server) : goroutine session query answer result :=
  mkGo (RTurn <$> serve_turn cfg)
    (fun r => match r with RTurn None => Some (RTurn <$> serve_turn cfg) | _ => None end).

Definition drain_loop (cfg : server) : goroutine session query answer result :=
  mkGo (waitQuiescent cfg) (fun r => match r with RRetry => Some (waitQuiescent cfg) | _ => None end).

Definition forever (p : P result) : goroutine session query answer result := mkGo p (fun _ => Some p).

Definition serving (cfg : server) (handlers : nat) : pool session query answer result :=
  ([reader_loop cfg; drain_loop cfg; forever engine; forever (beat cfg); forever peer]
     ++ ((fun k => forever (runHandler cfg k)) <$> seq 5 handlers), fresh).

(** ** Idempotent retry (idempotent_retry.go) *)

Record CallDescriptor := mkCall { cd_CallID : Z; DedupKey : text }.

Definition RetryIdempotent (ctx_err : option error) (tbl : Table.Table) (orig : CallDescriptor) :
    Table.Table * (CallDescriptor + error) :=
  match ctx_err with
  | Some e => (tbl, inr e)
  | None => let (tbl', i) := Table.NextID tbl in (tbl', inl (mkCall i (DedupKey orig)))
  end.

End Serve.
