(* ===== verification/ServeSafety.v ===== *)
(** * The serving session under every schedule

    The reader, the drain, the stream engine, the heartbeat, the peer and the
    stream handlers of [ServeLoop] keep a shared invariant and the guarantees
    they rely on from each other.  What the reader may do, in what order, is an
    automaton over its trace ([next]); the theorems at the end read off it. *)

From Stdlib Require Import Strings.String.
From stdpp Require Import gmap.
From S2P Require Import Prelude CallTable LeaseTable TransportFrame StreamCore ShmWriter BurstTransport Interleave ServeLoop.
Import Frames Serve.

Module ServeSafety.

(** ** The reader's protocol

    A unary request is held, then owed a reply, then answered (by one accepted
    reply frame, or by its budget having run out), then its obligation is
    closed, then its reservation is given back.  A request the transport
    discarded is refused the same way.  A reply whose fill failed may be followed
    by a status for the same call ([Spoiled]).  [Lost] is a loop on its way out
    with one request unsettled: no reply to it was accepted, or the session's
    taint fenced it off before it was opened. *)

Inductive cause := Unsent (i : Z) | Fenced (i : Z).
Definition call_of (c : cause) : Z := match c with Unsent i | Fenced i => i end.

Inductive phase :=
| Idle | Held (f : Frame) | Launched | Refused (i : Z) | Refusing (i : Z) | Owing (i : Z) | Running (i : Z)
| Spoiled (i : Z) | Answered (i : Z) | Settled | Lost (c : cause).

#[global] Instance cause_eq_dec : EqDecision cause.
Proof. solve_decision. Defined.

#[global] Instance Frame_eq_dec : EqDecision Frame.
Proof. solve_decision. Defined.
#[global] Instance phase_eq_dec : EqDecision phase.
Proof. solve_decision. Defined.

Definition reply_for (i : Z) (f : Frame) : bool :=
  (CallID f =? i) && ((Kind f =? FrameUnaryResp) || (Kind f =? FrameUnaryErr)).

Definition is_unary (f : Frame) : bool := Kind f =? FrameUnaryReq.

Definition next (p : phase) (e : event) : option phase :=
  match p, e with
  | Idle, EGot f => Some (Held f)
  | Idle, EDeclined i => Some (Refused i)
  | Idle, ERetired => Some Idle
  | Held f, EOpened i => if is_unary f && (i =? CallID f) then Some (Owing i) else None
  | Held f, ELaunched i => if (Kind f =? FrameStreamOpen) && (i =? CallID f) then Some Launched else None
  | Held f, ETainted => Some (if is_unary f then Lost (Fenced (CallID f)) else Held f)
  | Held f, ERetired => if is_unary f then None else Some Idle
  | Launched, ERetired => Some Idle
  | Refused i, EOpened j => if i =? j then Some (Refusing i) else None
  | (Refusing i | Owing i | Spoiled i), ESent f e =>
      if reply_for i f then Some (match e with None => Answered i | Some _ => Lost (Unsent i) end) else None
  | Owing i, EEntered j => if i =? j then Some (Running i) else None
  | (Owing i | Running i), EExpired j => if i =? j then Some (Answered i) else None
  | Running i, ESent f e =>
      if reply_for i f then
        Some (match e with
              | None => Answered i
              | Some _ => if Is e Writer.ErrPayloadFillFailed then Spoiled i else Lost (Unsent i)
              end)
      else None
  | Spoiled i, ERetired => Some (Lost (Unsent i))
  | Answered i, EClosed j => if i =? j then Some Settled else None
  | Settled, ETainted => Some Settled
  | Settled, ERetired => Some Idle
  | Lost c, (EClosed _ | ERetired) => Some (Lost c)
  | _, _ => None
  end.

Fixpoint follow (p : phase) (t : list event) : option phase :=
  match t with
  | [] => Some p
  | e :: t => next p e ≫= fun p' => follow p' t
  end.

Definition at_phase (s : session) : option phase := follow Idle (trace s).

Lemma follow_snoc p t e : follow p (t ++ [e]) = follow p t ≫= fun q => next q e.
Proof.
  revert p. induction t as [|e' t IH]; intros p; simpl.
  - by destruct (next p e).
  - destruct (next p e'); simpl; [apply IH|done].
Qed.

Lemma at_phase_record e s p : at_phase s = Some p -> at_phase (record e s) = next p e.
Proof. unfold at_phase, record. simpl. rewrite follow_snoc. by intros ->. Qed.

(** What a legal trace says: the requests taken, and what became of each. *)
Definition request_of (e : event) : list Z :=
  match e with EGot f => if is_unary f then [CallID f] else [] | EDeclined i => [i] | _ => [] end.
Definition settled_of (e : event) : list Z :=
  match e with ESent f None => [CallID f] | EExpired i => [i] | _ => [] end.
Definition entry_of (e : event) : list Z :=
  match e with EEntered i | ELaunched i => [i] | _ => [] end.

Definition requests (t : list event) : list Z := t ≫= request_of.
Definition settlements (t : list event) : list Z := t ≫= settled_of.
Definition entries (t : list event) : list Z := t ≫= entry_of.

Lemma entries_snoc t e : entries (t ++ [e]) = entries t ++ entry_of e.
Proof. unfold entries. rewrite bind_app. simpl. by rewrite app_nil_r. Qed.

(** The call a phase has taken and not yet answered. *)
Definition waiting (p : phase) : list Z :=
  match p with
  | Held f => if is_unary f then [CallID f] else []
  | Refused i | Refusing i | Owing i | Running i | Spoiled i => [i]
  | Lost c => [call_of c]
  | _ => []
  end.

Lemma next_accounts p e p' :
  next p e = Some p' -> waiting p ++ request_of e = settled_of e ++ waiting p'.
Proof.
  destruct p, e; simpl; try done; unfold reply_for; intros H; repeat case_match; simplify_eq; simpl;
    bool_to_prop; try congruence; try done; subst; repeat case_match; try done;
    unfold is_unary, FrameUnaryReq, FrameStreamOpen in *; bool_to_prop; congruence.
Qed.

(** Requests and what settles them run in step, in order. *)
Lemma legal_trace_accounts t p p' :
  follow p t = Some p' -> waiting p ++ requests t = settlements t ++ waiting p'.
Proof.
  revert p. induction t as [|e t IH]; intros p; simpl.
  - intros [= <-]. by rewrite app_nil_r.
  - destruct (next p e) as [p1|] eqn:E; [|done]. simpl. intros H.
    unfold requests, settlements in *. simpl. rewrite app_assoc, (next_accounts _ _ _ E) by done.
    rewrite <- !app_assoc. by rewrite IH.
Qed.

(** A reply to call [i] was refused, and no request has been taken since. *)
Definition refused_reply (i : Z) (t : list event) : Prop :=
  exists t1 f e t2, t = t1 ++ ESent f (Some e) :: t2 /\ reply_for i f = true /\ requests t2 = [].

Lemma refused_reply_snoc i t e : request_of e = [] -> refused_reply i t -> refused_reply i (t ++ [e]).
Proof.
  intros He (t1 & f & x & t2 & -> & Hf & Ht). exists t1, f, x, (t2 ++ [e]). split; [by rewrite <- app_assoc|]. split; [done|].
  unfold requests in *. rewrite bind_app, Ht. simpl. by rewrite He.
Qed.

Lemma refused_reply_now i t f e : reply_for i f = true -> refused_reply i (t ++ [ESent f (Some e)]).
Proof. intros Hf. by exists t, f, e, []. Qed.

(** Why a request is left unsettled. *)
Definition blamed (p : phase) (t : list event) : Prop :=
  match p with
  | Spoiled i | Lost (Unsent i) => refused_reply i t
  | Lost (Fenced i) => ETainted ∈ t
  | _ => True
  end.

Lemma next_blamed p e p' t : next p e = Some p' -> blamed p t -> blamed p' (t ++ [e]).
Proof.
  assert (T : ETainted ∈ t ++ [ETainted]) by (apply elem_of_app; right; by left).
  destruct p as [| | | | | | | | | |[]], e; simpl; intros H; repeat case_match; simplify_eq; simpl;
    auto using refused_reply_snoc, refused_reply_now; repeat case_match; simplify_eq; auto using refused_reply_now;
    intros; apply elem_of_app; by left.
Qed.

Lemma legal_trace_blamed t p : follow Idle t = Some p -> blamed p t.
Proof.
  revert p. induction t as [|e t IH] using rev_ind; intros p; [by intros [= <-]|].
  rewrite follow_snoc. destruct (follow Idle t) as [q|] eqn:E; [|done]. simpl. intros H. by eapply next_blamed, IH.
Qed.

(** ** Roles *)

Inductive role := Reader | Drain | Engine | Beat | Peer | Handler (i : nat).

Definition role_of (i : nat) : role :=
  match i with 0%nat => Reader | 1%nat => Drain | 2%nat => Engine | 3%nat => Beat | 4%nat => Peer | _ => Handler i end.

Lemma serve_role_of_inj i j : role_of i = role_of j -> i = j.
Proof.
  destruct i as [|[|[|[|[|i]]]]], j as [|[|[|[|[|j]]]]]; simpl; intros [=]; congruence.
Qed.

(** ** The shared invariant *)

Definition owed_ids (p : phase) : gset Z :=
  match p with Refusing i | Owing i | Running i | Spoiled i | Answered i => {[i]} | _ => ∅ end.

Definition lost (p : phase) : Prop := match p with Lost _ => True | _ => False end.

(** No frame is in the reader's hands. *)
Definition hands_free (s : session) : Prop := at_phase s = Some Idle \/ exists c, at_phase s = Some (Lost c).

Notation obl s := (Leases.obligations (leases s)).

Record inv (s : session) : Prop := mkInv {
  inv_gate : writer s <> None -> readers s = 0;
  inv_legal : exists p, at_phase s = Some p /\ (~ lost p -> obl s ⊆ live s ∪ closing s ∪ owed_ids p);
  inv_ingress : ingressPending s = 0 -> hands_free s;
  inv_seen : ETainted ∈ trace s -> tainted s = true
}.

(** Something a drain waits for is still there; a change it may have missed is
    about to poke it. *)
Definition busy (s : session) : Prop :=
  inbox s <> [] \/ ingressPending s <> 0 \/ obl s <> ∅ \/ tainted s = true \/ fatal s = true.
Definition pending (s : session) : Prop :=
  wake s = true \/ reader_owes s = true \/ streams_owe s = true \/ busy s.

Definition quiet_queue (s : session) : Prop := inbox s = [].
Definition quiet_hands (s : session) : Prop := inbox s = [] /\ hands_free s.
Definition quiet (s : session) : Prop := inbox s = [] /\ hands_free s /\ obl s = ∅.

(** ** What the others leave alone *)

Record grows (s s' : session) : Prop := mkGrows {
  grows_tainted : tainted s = true -> tainted s' = true;
  grows_entries : tainted s = true -> entries (trace s') = entries (trace s);
  grows_arrivals : (arrivals s <= arrivals s')%nat
}.

Record spares_reader (s s' : session) : Prop := mkSparesReader {
  sr_readers : readers s' = readers s;
  sr_ingress : ingressPending s' = ingressPending s;
  sr_reserved : reserved s' = reserved s;
  sr_released : released s' = released s;
  sr_trace : trace s' = trace s;
  sr_owes : reader_owes s' = reader_owes s;
  sr_tainted : readers s <> 0 -> tainted s' = tainted s
}.

Record spares_drain (s s' : session) : Prop := mkSparesDrain {
  sd_asked : asked s' = asked s;
  sd_pending : pending s -> pending s';
  sd_queue : arrivals s' = arrivals s -> quiet_queue s -> quiet_queue s';
  sd_hands : arrivals s' = arrivals s -> quiet_hands s -> quiet_hands s';
  sd_quiet : arrivals s' = arrivals s -> quiet s -> quiet s'
}.

Record spares_engine (s s' : session) : Prop := mkSparesEngine {
  se_owe : streams_owe s' = streams_owe s;
  se_closing : closing s' = closing s
}.

Definition spares_handler (i : nat) (s s' : session) : Prop := writer s = Some i <-> writer s' = Some i.

Definition Rel (r : role) (s s' : session) : Prop :=
  grows s s' /\ (r = Reader -> spares_reader s s') /\ (r = Drain -> spares_drain s s') /\
  (r = Engine -> spares_engine s s') /\ (forall i, r = Handler i -> spares_handler i s s').

Definition Guar (r : role) (q : query) (s s' : session) : Prop :=
  grows s s' /\ (r <> Reader -> spares_reader s s') /\ (r <> Drain -> spares_drain s s') /\
  (r <> Engine -> spares_engine s s') /\ (forall i, r <> Handler i -> spares_handler i s s').

Lemma serve_Guar_Rel i j q s s' : i <> j -> Guar (role_of i) q s s' -> Rel (role_of j) s s'.
Proof.
  intros Hne (? & Hr & Hd & He & Hh). split_and!; [done|..]; intros;
    [apply Hr|apply Hd|apply He|apply Hh]; intros E; apply Hne, serve_role_of_inj; congruence.
Qed.

(** Where a goroutine may be.  Only at its poke does it owe one; the reader
    holds the admission gate neither while it waits for the transport nor while
    a handler runs, and enters a handler only on an untainted session. *)
Definition Where (r : role) (q : query) (s : session) : Prop :=
  match r with
  | Reader =>
      (q <> QPoke -> reader_owes s = false) /\
      match q with
      | QReady => readers s = 0 /\ ingressPending s = 0 /\ at_phase s = Some Idle
      | QRead => readers s = 0 /\ ingressPending s = 1 /\ at_phase s = Some Idle
      | QHandler i => readers s = 0 /\ ingressPending s = 1 /\ at_phase s = Some (Running i)
      | QSend _ | QFill _ _ => readers s = 0 /\ ingressPending s = 1
      | QEnter _ | QLaunch _ => readers s = 1 /\ tainted s = false
      | _ => True
      end
  | Engine => q <> QPoke -> streams_owe s = false
  | Drain => q = QDrainWait -> pending s
  | _ => True
  end.

(** ** Sections *)

Definition kept (r : role) (q : query) (s s' : session) : Prop := Guar r q s s' /\ inv s'.

Lemma serve_grows_refl s : grows s s.
Proof. by split. Qed.
Lemma serve_Guar_refl r q s : Guar r q s s.
Proof. split_and!; [apply serve_grows_refl|..]; done. Qed.
Lemma serve_section_kept_refl r q s : inv s -> kept r q s s.
Proof. split; [apply serve_Guar_refl|done]. Qed.

Create HintDb serve.
#[export] Hint Resolve serve_grows_refl serve_Guar_refl serve_section_kept_refl : serve.
#[global] Arguments Is : simpl never.

Definition free (p : phase) : Prop := p = Idle \/ lost p.

Lemma lost_at p : lost p -> exists c, p = Lost c.
Proof. destruct p; try done. eauto. Qed.

Lemma hands_free_at s p : at_phase s = Some p -> hands_free s <-> free p.
Proof.
  intros E. unfold hands_free, free. rewrite E. split; intros [H|H]; [left; congruence|right|left; congruence|right].
  - destruct H as [c [= ->]]. done.
  - destruct (lost_at p H) as [c ->]. eauto.
Qed.

(** What a section of the reader has to show: the rest of the state it leaves
    alone, and the few facts the others rely on. *)
Record reader_frame (s s' : session) : Prop := mkReaderFrame {
  rf_writer : writer s' = writer s;
  rf_live : live s ⊆ live s';
  rf_closing : closing s' = closing s;
  rf_streams : streams_owe s' = streams_owe s;
  rf_fatal : fatal s' = fatal s;
  rf_asked : asked s' = asked s;
  rf_arrivals : arrivals s' = arrivals s;
  rf_tainted : tainted s = true -> tainted s' = true;
  rf_wake : wake s = true -> wake s' = true
}.

Lemma reader_section q s s' p p' :
  at_phase s = Some p -> at_phase s' = Some p' -> reader_frame s s' ->
  (tainted s = true -> entries (trace s') = entries (trace s)) ->
  (writer s <> None -> readers s' = 0) ->
  (~ lost p' -> obl s' ⊆ live s' ∪ closing s' ∪ owed_ids p') ->
  (ingressPending s' = 0 -> free p') ->
  (ETainted ∈ trace s' -> tainted s' = true) ->
  (pending s -> pending s') ->
  (inbox s = [] -> inbox s' = [] /\ (free p -> free p' /\ (obl s = ∅ -> obl s' = ∅))) ->
  kept Reader q s s'.
Proof.
  intros Hp Hp' [Hw Hl Hc Hs Hf Ha Har Ht Hwk] He Hg Ho Hin Hse Hpe Hq.
  assert (Hb : quiet_hands s -> quiet_hands s').
  { intros [E F%(hands_free_at _ _ Hp)]. destruct (Hq E) as [E' Q]. destruct (Q F). by split; [|apply (hands_free_at _ _ Hp')]. }
  split; [split_and!; [by split; [..|rewrite Har]|done| | |]|].
  - intros _. split; [done|done| |done|].
    + intros _ E. by destruct (Hq E).
    + intros _ (E & F & O). destruct (Hb (conj E F)) as [E' F']. split_and!; [done..|].
      destruct (Hq E) as [_ Q]. destruct (Q (proj1 (hands_free_at _ _ Hp) F)) as [_ Q']. by apply Q'.
  - intros _. by split.
  - intros i _. unfold spares_handler. by rewrite Hw.
  - split.
    + by rewrite Hw.
    + by exists p'.
    + intros Z. by apply (hands_free_at _ _ Hp'), Hin.
    + done.
Qed.

Lemma pending_mono s s' :
  (wake s = true -> wake s' = true) -> (reader_owes s = true -> reader_owes s' = true) ->
  (streams_owe s = true -> streams_owe s' = true) -> (busy s -> busy s') ->
  pending s -> pending s'.
Proof. unfold pending. tauto. Qed.

Lemma busy_mono s s' :
  (inbox s <> [] -> inbox s' <> []) -> (ingressPending s <> 0 -> ingressPending s' <> 0) ->
  (obl s <> ∅ -> obl s' <> ∅) -> (tainted s = true -> tainted s' = true) -> (fatal s = true -> fatal s' = true) ->
  busy s -> busy s'.
Proof. unfold busy. tauto. Qed.

Lemma inv_owed s p : inv s -> at_phase s = Some p -> ~ lost p -> obl s ⊆ live s ∪ closing s ∪ owed_ids p.
Proof. intros Hi E Hl. destruct (inv_legal _ Hi) as (p1 & E1 & H). simplify_eq. by apply H. Qed.

(** ** The reader's assertions *)

Inductive hold := HFree | HLocked | HAdmitted | HArmed | HReleased.

Definition holds (h : hold) (s : session) : Prop :=
  match h with
  | HFree => readers s = 0
  | HLocked => readers s = 1
  | HAdmitted => readers s = 1 /\ tainted s = false
  | HArmed => readers s = 1 /\ tainted s = false /\ released s = false
  | HReleased => readers s = 0 /\ released s = true
  end.

(** The reservation of the current turn; [None] before the turn has one. *)
Definition reservation (g : option bool) (s : session) : Prop :=
  match g with
  | None => ingressPending s = 0
  | Some true => ingressPending s = 1 /\ reserved s = true
  | Some false => ingressPending s = 0 /\ reserved s = false
  end.

Record rd (p : phase) (h : hold) (g : option bool) (s : session) : Prop := mkRd {
  rd_phase : at_phase s = Some p;
  rd_holds : holds h s;
  rd_reservation : reservation g s;
  rd_owes : reader_owes s = false
}.

Lemma rd_stable p h g : stable inv Rel Reader (rd p h g).
Proof.
  intros s s' _ _ (_ & Hr & _) [Hp Hh Hg Ho]. destruct (Hr eq_refl) as [R G V L T O X].
  split; [|..|congruence].
  - unfold at_phase. by rewrite T.
  - assert (readers s = 1 -> tainted s' = tainted s) by (intros; apply X; lia).
    destruct h; simpl in *; intuition congruence.
  - destruct g as [[]|]; simpl in *; [destruct Hg; split; congruence..|congruence].
Qed.

Lemma stable_exists {A} (r : role) (L : A -> session -> Prop) (D : A -> Prop) :
  (forall a, stable inv Rel r (L a)) -> stable inv Rel r (fun s => exists a, D a /\ L a s).
Proof. intros H s s' ? ? ? (a & ? & ?). exists a. split; [done|]. by apply (H a s s'). Qed.

Lemma serve_stable_and (r : role) (L M : session -> Prop) :
  stable inv Rel r L -> stable inv Rel r M -> stable inv Rel r (fun s => L s /\ M s).
Proof. intros H1 H2 s s' ? ? ? []. split; [by apply (H1 s s')|by apply (H2 s s')]. Qed.

Lemma stable_const (r : role) (D : Prop) : stable inv Rel r (fun _ => D).
Proof. by intros s s' ? ? ? ?. Qed.

#[export] Hint Resolve rd_stable stable_const : serve.

Notation triple_r := (triple inv Rel Guar Where Reader).

(** An update, an observation and a question of the reader. *)
Lemma reader_upd L q f (Post : unit -> session -> Prop) :
  stable inv Rel Reader L ->
  (forall s, inv s -> L s -> Where Reader q s /\ kept Reader q s (f s) /\ Post tt (f s)) ->
  triple_r L (upd q f) Post.
Proof.
  intros Hst H. apply triple_crit; [done|]. intros s Hi HL. destruct (H s Hi HL) as (? & [? ?] & ?). by repeat (split; [done|]).
Qed.

Lemma role_look {A} r L q (f : session -> A) (Post : A -> session -> Prop) :
  stable inv Rel r L ->
  (forall s, inv s -> L s -> Where r q s /\ Post (f s) s) ->
  triple inv Rel Guar Where r L (look q f) Post.
Proof.
  intros Hst H. apply triple_crit; [done|]. intros s Hi HL. destruct (H s Hi HL). split; [done|]. split; [apply serve_Guar_refl|]. by split.
Qed.

Lemma role_ask {A} r L q (decode : answer -> option A) :
  stable inv Rel r L -> (forall s, inv s -> L s -> Where r q s) ->
  triple inv Rel Guar Where r L (ask q decode) (fun _ => L).
Proof. intros Hst H. apply triple_ask; [done|]. intros s Hi HL. split; [by apply H|auto with serve]. Qed.

Lemma role_act {A} r L q (f : answer -> session -> session * option (P A)) Post :
  stable inv Rel r L ->
  (forall s, inv s -> L s -> Where r q s) ->
  (forall s x, inv s -> L s ->
     kept r q s (fst (f x s)) /\
     match snd (f x s) with
     | Some p => exists L', L' (fst (f x s)) /\ triple inv Rel Guar Where r L' p Post
     | None => L (fst (f x s))
     end) ->
  triple inv Rel Guar Where r L (Act q f) Post.
Proof.
  intros Hst Hw H. apply triple_act; [done|done|]. intros s x Hi HL. destruct (H s x Hi HL) as [[? ?] Ho].
  split; [done|]. split; [done|]. destruct (snd (f x s)); [|done]. destruct Ho as (L' & HL' & Ht).
  eapply triple_conseq; [exact Ht| |done]. by intros ? _ <-.
Qed.

Lemma returns {A} r (a : A) (Post : A -> session -> Prop) s :
  Post a s -> exists L', L' s /\ triple inv Rel Guar Where r L' (mret a : P A) Post.
Proof. exists (Post a). split; [done|]. by apply triple_ret. Qed.

(** ** The reader's sections *)

(** One that touches nothing the others look at. *)
Lemma reader_neutral q s s' :
  inv s -> reader_frame s s' -> live s' = live s -> trace s' = trace s -> inbox s' = inbox s ->
  ingressPending s' = ingressPending s -> obl s' = obl s -> reader_owes s' = reader_owes s ->
  (writer s <> None -> readers s' = 0) -> kept Reader q s s'.
Proof.
  intros Hi Hf Hl Ht Hx Hg Ho Hw Hr. destruct (inv_legal _ Hi) as (p & Hp & Hob).
  assert (Hp' : at_phase s' = Some p) by (unfold at_phase; by rewrite Ht).
  eapply reader_section; [exact Hp|exact Hp'|done|by rewrite Ht|done| | |rewrite Ht; intros ?; by apply Hf, (inv_seen _ Hi)| |].
  - intros Hlost. rewrite Ho, Hl, (rf_closing _ _ Hf). by apply Hob.
  - intros E. apply (hands_free_at s p Hp), Hi. congruence.
  - apply pending_mono; [apply Hf|congruence|by rewrite (rf_streams _ _ Hf)|].
    apply busy_mono; [congruence|congruence|congruence|apply Hf|by rewrite (rf_fatal _ _ Hf)].
  - rewrite Hx, Ho. by intros ->.
Qed.

Ltac frame := by split.
Ltac neutral := apply reader_neutral; [done|frame|done|done|done|done|done|done|].

Lemma frame_refl s : reader_frame s s.
Proof. frame. Qed.

(** The gate: no writer while the read side is held. *)
Lemma gate_writer s : inv s -> readers s = 1 -> writer s = None.
Proof. intros Hi E. destruct (writer s) eqn:W; [|done]. assert (readers s = 0) by (apply Hi; congruence). lia. Qed.

Lemma where_plain p h g s q :
  rd p h g s ->
  match q with QReady | QRead | QHandler _ | QSend _ | QFill _ _ | QEnter _ | QLaunch _ => False | _ => True end ->
  Where Reader q s.
Proof. intros [_ _ _ Ho]. by destruct q. Qed.
#[local] Hint Extern 2 (Where Reader _ _) => (eapply where_plain; [eassumption|exact Logic.I]) : serve.

(** Updates that keep the reader's assertion. *)
Lemma reader_plain p h g q f :
  match q with QReady | QRead | QHandler _ | QSend _ | QFill _ _ | QEnter _ | QLaunch _ => False | _ => True end ->
  (forall s, reader_frame s (f s) /\ live (f s) = live s /\ trace (f s) = trace s /\ inbox (f s) = inbox s /\
     ingressPending (f s) = ingressPending s /\ obl (f s) = obl s /\ reader_owes (f s) = reader_owes s /\
     readers (f s) = readers s /\ reserved (f s) = reserved s /\ released (f s) = released s /\ tainted (f s) = tainted s) ->
  triple_r (rd p h g) (upd q f) (fun _ => rd p h g).
Proof.
  intros Hq Hf. apply reader_upd; [auto with serve|]. intros s Hi Hrd.
  destruct (Hf s) as (Hfr & ? & Ht & ? & Hg & ? & Ho & Hr & Hv & Hl & Hta). split; [by eapply where_plain|]. split.
  - apply reader_neutral; try done. rewrite Hr. apply Hi.
  - destruct Hrd as [Hp Hh Hge Hoe]. split; [|..|congruence].
    + unfold at_phase. by rewrite Ht.
    + destruct h; simpl in *; intuition congruence.
    + destruct g as [[]|]; simpl in *; intuition congruence.
Qed.

Lemma trackCall_ok p h g i at_ : triple_r (rd p h g) (trackCall i at_) (fun _ => rd p h g).
Proof.
  eapply triple_bind; [|intros []]; apply reader_plain; try done; intros s; split_and!; frame || done.
Qed.

Lemma untrackCall_ok p h g i : triple_r (rd p h g) (untrackCall i) (fun _ => rd p h g).
Proof.
  eapply triple_bind; [|intros []]; apply reader_plain; try done; intros s; split_and!; frame || done.
Qed.

Lemma cancel_ok p h g i : triple_r (rd p h g) (cancel i) (fun _ => rd p h g).
Proof. apply reader_plain; [done|]. intros s. case_decide; split_and!; frame || done. Qed.

Lemma mark_ok p h g : triple_r (rd p h g) drainOwedMark (fun _ => rd p h g).
Proof. apply reader_plain; [done|]. intros s. split_and!; frame || done. Qed.

Lemma reject_ok p h g i c : triple_r (rd p h g) (EmitReject i c) (fun _ => rd p h g).
Proof. apply reader_plain; [done|]. intros s. split_and!; frame || done. Qed.

Lemma stop_ok p h g : triple_r (rd p h g) stopWriter (fun _ => rd p h g).
Proof. apply reader_plain; [done|]. intros s. split_and!; frame || done. Qed.

Lemma probe_ok cfg p h g : triple_r (rd p h g) (probeDrain cfg) (fun _ => rd p h g).
Proof.
  eapply triple_bind; [apply (role_look _ _ _ _ (fun _ => rd p h g)); [auto with serve|]; intros s Hi H; split; [auto with serve|done]|].
  intros []; [|by apply triple_ret]. apply reader_plain; [done|]. intros s. split_and!; frame || done.
Qed.

(** Questions and observations. *)
Lemma reader_ask {A} p h g q (decode : answer -> option A) :
  match q with QReady | QRead | QHandler _ | QSend _ | QFill _ _ | QEnter _ | QLaunch _ => False | _ => True end ->
  triple_r (rd p h g) (ask q decode) (fun _ => rd p h g).
Proof. intros Hq. apply role_ask; [auto with serve|]. intros s _ H. by eapply where_plain. Qed.

Lemma live_ok p h g i : triple_r (rd p h g) (HasLiveStream i) (fun _ => rd p h g).
Proof. apply role_look; [auto with serve|]. intros s _ H. split; [auto with serve|done]. Qed.

(** The admission gate. *)
Lemma end_ok p h g : h = HLocked \/ h = HAdmitted -> triple_r (rd p h g) endAdmit (fun _ => rd p HFree g).
Proof.
  intros Hh. apply reader_upd; [auto with serve|]. intros s Hi H. split; [auto with serve|]. destruct H as [Hp Hh' Hg Ho].
  assert (readers s = 1) by (destruct Hh as [-> | ->]; apply Hh'). split.
  - neutral. simpl. lia.
  - by split; [..|simpl; lia|destruct g as [[]|]|].
Qed.

Lemma arm_ok p g : triple_r (rd p HAdmitted g) arm (fun _ => rd p HArmed g).
Proof.
  apply reader_upd; [auto with serve|]. intros s Hi H. split; [auto with serve|]. destruct H as [Hp Hh Hg Ho]. split.
  - neutral. apply Hi.
  - split; [done|by destruct Hh|by destruct g as [[]|]|done].
Qed.

Lemma released_from h s : h = HArmed \/ h = HReleased -> holds h s -> holds HReleased (release_in s).
Proof.
  intros [-> | ->]; unfold release_in; intros H.
  - destruct H as (E & _ & R). rewrite R. simpl. lia.
  - destruct H as [E R]. by rewrite R.
Qed.

Lemma release_ok p h g : h = HArmed \/ h = HReleased -> triple_r (rd p h g) release (fun _ => rd p HReleased g).
Proof.
  intros Hh. apply reader_upd; [auto with serve|]. intros s Hi H. split; [auto with serve|]. destruct H as [Hp Hh' Hg Ho].
  pose proof (released_from h s Hh Hh') as Hr. split.
  - unfold release_in in *. destruct (released s); [by apply serve_section_kept_refl|]. neutral. by intros _; apply Hr.
  - split; [|done|..]; unfold release_in; destruct (released s); try done; by destruct g as [[]|].
Qed.

(** One that records an event while the reservation is held: the drain still
    sees the frame through the reservation. *)
Lemma at_phase_step s s' p e : trace s' = trace s ++ [e] -> at_phase s = Some p -> at_phase s' = next p e.
Proof. unfold at_phase. intros ->. rewrite follow_snoc. by intros ->. Qed.

Lemma reader_event q s s' p p' e :
  inv s -> at_phase s = Some p -> next p e = Some p' -> trace s' = trace s ++ [e] -> reader_frame s s' ->
  match e with ETainted => tainted s = true | _ => entry_of e <> [] -> tainted s = false end ->
  (writer s <> None -> readers s' = 0) ->
  inbox s' = inbox s -> ingressPending s' = 1 ->
  (~ lost p' -> obl s' ⊆ live s' ∪ closing s' ∪ owed_ids p') ->
  (free p -> free p' /\ (obl s = ∅ -> obl s' = ∅)) ->
  kept Reader q s s'.
Proof.
  intros Hi Hp Hn Ht Hf He Hr Hx Hg Ho Hfr.
  eapply reader_section; [exact Hp|by rewrite (at_phase_step _ _ _ _ Ht Hp)|done| |done|done|lia| | |].
  - intros T. rewrite Ht, entries_snoc. destruct (decide (entry_of e = [])) as [->|N]; [by rewrite app_nil_r|].
    assert (tainted s = false) by (destruct e; first [by apply He|by destruct N]). congruence.
  - rewrite Ht. intros [?|E%list_elem_of_singleton]%elem_of_app; [by apply Hf, (inv_seen _ Hi)|]. subst e. by apply Hf.
  - intros _. right. right. right. right. left. lia.
  - rewrite Hx. intros E. by split.
Qed.

Lemma rd_event p p' h g e s s' :
  rd p h g s -> next p e = Some p' -> trace s' = trace s ++ [e] -> readers s' = readers s -> tainted s' = tainted s ->
  released s' = released s -> ingressPending s' = ingressPending s -> reserved s' = reserved s ->
  reader_owes s' = reader_owes s -> rd p' h g s'.
Proof.
  intros [Hp Hh Hg Ho] Hn Ht ? ? ? ? ? ?. split; [by rewrite (at_phase_step _ _ _ _ Ht Hp)|..|congruence].
  - destruct h; simpl in *; intuition congruence.
  - destruct g as [[]|]; simpl in *; intuition congruence.
Qed.

Lemma not_free p : p <> Idle -> ~ lost p -> free p -> forall P : Prop, P.
Proof. intros ? ? [?|?]; done. Qed.
Ltac nf := let F := fresh in intros [F|F]; [discriminate F|destruct F].

Lemma gate_kept s s' : inv s -> readers s' = readers s -> writer s <> None -> readers s' = 0.
Proof. intros Hi -> W. by apply Hi. Qed.

Lemma open_ok p p' h i :
  next p (EOpened i) = Some p' -> owed_ids p = ∅ -> owed_ids p' = {[i]} ->
  triple_r (rd p h (Some true)) (OpenObligation i) (fun _ => rd p' h (Some true)).
Proof.
  intros Hn Hw Hw'. assert (~ lost p /\ p <> Idle) as [Hl Hl'] by (split; [intros F; by destruct p|by intros ->]).
  apply reader_upd; [auto with serve|]. intros s Hi H. split; [auto with serve|]. split.
  - eapply (reader_event _ _ _ p p' (EOpened i)); [done|apply H|done|done|frame|done|by apply gate_kept|done|apply H| |].
    + intros _. simpl. rewrite Hw'. pose proof (inv_owed s p Hi ltac:(apply H) Hl). set_solver.
    + intros F. by apply (not_free _ Hl' Hl F).
  - by eapply rd_event.
Qed.

(** Closing: the change, then the poke. *)
Lemma poke_ok p h g :
  triple_r (fun s => at_phase s = Some p /\ holds h s /\ reservation g s) (poke true) (fun _ => rd p h g).
Proof.
  assert (Hst : stable inv Rel Reader (fun s => at_phase s = Some p /\ holds h s /\ reservation g s)).
  { intros s s' _ _ (_ & Hr & _) (Hp & Hh & Hg). destruct (Hr eq_refl) as [R G V L T O X].
    assert (readers s = 1 -> tainted s' = tainted s) by (intros; apply X; lia). split_and!.
    - unfold at_phase. by rewrite T.
    - destruct h; simpl in *; intuition congruence.
    - destruct g as [[]|]; simpl in *; intuition congruence. }
  apply reader_upd; [done|]. intros s Hi (Hp & Hh & Hg). split; [by split; [|done]|]. split.
  - eapply reader_section; [exact Hp|exact Hp|frame|done|apply Hi|intros Hl; exact (inv_owed s p Hi Hp Hl)| |apply Hi| |by auto].
    + intros E. apply (hands_free_at s p Hp). by apply Hi.
    + intros _. by left.
  - split; [done|by destruct h|by destruct g as [[]|]|done].
Qed.

Lemma close_ok p p' h i :
  next p (EClosed i) = Some p' -> p' <> Idle -> owed_ids p' = ∅ -> p <> Idle ->
  owed_ids p ⊆ {[i]} -> (lost p <-> lost p') ->
  triple_r (rd p h (Some true)) (CloseObligation i) (fun _ => rd p' h (Some true)).
Proof.
  intros Hn Hidle Hw' Hidle' Hw Hl.
  eapply triple_bind with (Mid := fun _ s => at_phase s = Some p' /\ holds h s /\ reservation (Some true) s);
    [|intros _; apply poke_ok].
  apply reader_upd; [auto with serve|]. intros s Hi H. split; [auto with serve|]. split.
  - eapply (reader_event _ _ _ p p' (EClosed i)); [done|apply H|done|done|frame|done|by apply gate_kept|done|apply H| |].
    + intros Hnl. simpl. rewrite Hw'. pose proof (inv_owed s p Hi ltac:(apply H) ltac:(tauto)). set_solver.
    + intros [?|F]; [done|]. split; [right; tauto|]. intros E. simpl. set_solver.
  - destruct H as [Hp Hh Hg Ho]. split_and!; [rewrite <- Hn; by eapply at_phase_step|by destruct h|done].
Qed.

(** Reading the taint: a request in hand is fenced by it. *)
Definition seen (t : bool) (p p' : phase) : phase := if t then p' else p.

Lemma see_ok p p' h :
  next p ETainted = Some p' ->
  triple_r (rd p h (Some true)) see_taint
    (fun t s => rd (seen t p p') h (Some true) s /\ (h = HLocked -> t = false -> tainted s = false)).
Proof.
  intros Hn. assert (Hx : p <> Idle /\ ~ lost p /\ owed_ids p = ∅ /\ owed_ids p' = ∅).
  { destruct p; simplify_eq/=; repeat case_match; simplify_eq; by split_and!; [|intros []|..]. }
  destruct Hx as (Hi1 & Hl & Hw & Hw'). apply triple_crit; [auto with serve|]. intros s Hi H. split; [auto with serve|].
  destruct (tainted s) eqn:T; cbn [fst snd seen]; [|by repeat (split; [auto with serve; done|])].
  assert (kept Reader QTaint s (record ETainted s)) as [? ?]; [|repeat (split; [done|]); split; [by eapply rd_event|done]].
  eapply (reader_event _ _ _ p p' ETainted); [done|apply H|done|done|frame|done|by apply gate_kept|done|apply H| |].
  - intros _. simpl. pose proof (inv_owed s p Hi ltac:(apply H) Hl) as Hob. rewrite Hw in Hob. by rewrite Hw'.
  - intros F. by apply (not_free _ Hi1 Hl F).
Qed.

Lemma taint_ok p p' h :
  next p ETainted = Some p' ->
  triple_r (rd p h (Some true)) shouldTerminate (fun t => rd (seen t p p') h (Some true)).
Proof. intros Hn. eapply triple_conseq; [by apply see_ok|done|]. by intros t s _ [H _]. Qed.

Lemma begin_ok p p' :
  next p ETainted = Some p' ->
  triple_r (rd p HFree (Some true)) beginAdmit
    (fun b => rd (seen (negb b) p p') (if b then HAdmitted else HFree) (Some true)).
Proof.
  intros Hn. eapply triple_bind with (Mid := fun _ => rd p HLocked (Some true)).
  - apply role_act; [auto with serve|intros; auto with serve|]. intros s x Hi H.
    destruct (writer s) eqn:W; simpl; [by split; [apply serve_section_kept_refl|]|].
    destruct H as [Hp Hh Hg Ho]. simpl in Hh. split; [neutral; congruence|].
    apply returns. split; [done|simpl; lia|done|done].
  - intros _. eapply triple_bind with (Mid := fun t : bool => rd (seen t p p') (if t then HLocked else HAdmitted) (Some true)).
    + eapply triple_conseq; [by apply see_ok|done|]. intros [] s _ [[Hp Hh Hg Ho] Ht]; [by split|]. by split; [|split; auto|..].
    + intros []; [|by apply triple_ret]. eapply triple_bind; [apply end_ok; by left|]. intros []. by apply triple_ret.
Qed.

(** The clock against the deadline. *)
Lemma expired_ok p h i dl :
  p = Owing i \/ p = Running i ->
  triple_r (rd p h (Some true)) (expired i dl) (fun late => rd (if late then Answered i else p) h (Some true)).
Proof.
  intros Hp. destruct dl as [d|]; [|by apply triple_ret].
  assert (Hn : next p (EExpired i) = Some (Answered i)) by (destruct Hp as [-> | ->]; simpl; by rewrite Z.eqb_refl).
  assert (~ lost p /\ p <> Idle) as [Hl Hl'] by (destruct Hp as [-> | ->]; by split; [intros []|]).
  assert (owed_ids p = {[i]}) as Hw by (by destruct Hp as [-> | ->]).
  apply role_act; [auto with serve|intros; auto with serve|]. intros s x Hi H.
  destruct (told_time x) as [t|]; [|by split; [apply serve_section_kept_refl|]].
  destruct (t <? d); simpl; [by split; [apply serve_section_kept_refl|apply returns]|]. split; [|by apply returns; eapply rd_event].
  eapply (reader_event _ _ _ p (Answered i) (EExpired i)); [done|apply H|done|done|frame|done|by apply gate_kept|done|apply H| |].
  - intros _. simpl. pose proof (inv_owed s p Hi ltac:(apply H) Hl). set_solver.
  - intros F. by apply (not_free _ Hl' Hl F).
Qed.

(** Entering the handler, and the handler. *)
Lemma invoke_ok i :
  triple_r (rd (Owing i) HArmed (Some true)) (invokeHandler i) (fun _ => rd (Running i) HReleased (Some true)).
Proof.
  assert (Hn : next (Owing i) (EEntered i) = Some (Running i)) by (simpl; by rewrite Z.eqb_refl).
  eapply triple_bind with (Mid := fun _ => rd (Running i) HReleased (Some true)).
  - apply reader_upd; [auto with serve|]. intros s Hi H. destruct H as [Hp (Hr & Ht & Hrel) Hg Ho].
    split; [by split|]. unfold release_in. rewrite Hrel. split.
    + eapply (reader_event _ _ _ (Owing i) (Running i) (EEntered i)); [done|done|done|done|frame|done| |done|apply Hg| |nf].
      * rewrite (gate_writer s Hi Hr). done.
      * intros _. apply (inv_owed s (Owing i) Hi); [done|by intros []].
    + split; [|simpl; lia|done|done]. rewrite <- Hn. by eapply at_phase_step.
  - intros _. apply role_ask; [auto with serve|]. intros s _ [Hp (? & ?) (? & ?) Ho]. by split.
Qed.

Lemma panic_ok cfg i :
  triple_r (rd (Running i) HReleased (Some true)) (recordUnaryPanic cfg) (fun _ => rd (Running i) HReleased (Some true)).
Proof.
  apply reader_upd; [auto with serve|]. intros s Hi H. split; [auto with serve|].
  destruct (continueAfterPanic cfg); [by split; [apply serve_section_kept_refl|]|]. split; [|by destruct H].
  neutral. apply Hi.
Qed.

(** ** Replies *)

Definition outside (h : hold) : Prop := h = HFree \/ h = HReleased.

Lemma outside_readers h s : outside h -> holds h s -> readers s = 0.
Proof. intros [-> | ->]; simpl; [done|by intros []]. Qed.

(** The phase after a send from [p] that was not accepted. *)
Definition unsent (i : Z) (p : phase) (e : error) : phase :=
  match p with Running _ => if Is (Some e) Writer.ErrPayloadFillFailed then Spoiled i else Lost (Unsent i) | _ => Lost (Unsent i) end.

Definition can_reply (i : Z) (p : phase) : Prop := p = Refusing i \/ p = Owing i \/ p = Running i \/ p = Spoiled i.

Lemma next_sent i p f e :
  can_reply i p -> reply_for i f = true ->
  next p (ESent f e) = Some (match e with None => Answered i | Some e => unsent i p e end).
Proof. intros [-> | [-> | [-> | ->]]] Hf; simpl; rewrite Hf; by destruct e. Qed.

Lemma sending_ok q i p h f :
  outside h -> can_reply i p -> reply_for i f = true -> (q = QSend f \/ exists size, q = QFill f size) ->
  triple_r (rd p h (Some true))
    (Act q (fun x s => match told_err x with
                       | Some e => (record (ESent f e) s, Some (mret e))
                       | None => (s, None)
                       end))
    (fun e => rd (match e with None => Answered i | Some e => unsent i p e end) h (Some true)).
Proof.
  intros Hh Hc Hf Hq. apply role_act; [auto with serve| |].
  - intros s _ [Hp Hho (Hg & _) Ho]. assert (readers s = 0) by (by eapply outside_readers).
    destruct Hq as [-> | [size ->]]; by split.
  - intros s x Hi H. destruct (told_err x) as [e|]; [|by split; [apply serve_section_kept_refl|]]. simpl.
    pose proof (next_sent i p f e Hc Hf) as Hn.
    assert (~ lost p /\ p <> Idle /\ owed_ids p = {[i]}) as (Hl & Hl' & Hw) by (destruct Hc as [-> | [-> | [-> | ->]]]; by split; [intros []|]).
    split; [|by apply returns; eapply rd_event].
    eapply (reader_event _ _ _ p _ (ESent f e)); [done|apply H|exact Hn|done|frame|done|by apply gate_kept|done|apply H| |].
    + intros Hnl. simpl. pose proof (inv_owed s p Hi ltac:(apply H) Hl) as Hob. rewrite Hw in Hob.
      destruct e as [e|]; [|done]. destruct Hc as [-> | [-> | [-> | ->]]]; try (by destruct Hnl). simpl in *. destruct (Is _ _); [done|by destruct Hnl].
    + intros F. by apply (not_free _ Hl' Hl F).
Qed.

Lemma send_ok i p h f :
  outside h -> can_reply i p -> reply_for i f = true ->
  triple_r (rd p h (Some true)) (Send f) (fun e => rd (match e with None => Answered i | Some e => unsent i p e end) h (Some true)).
Proof. intros. apply sending_ok; auto. Qed.

Lemma fill_ok i p h f size :
  outside h -> can_reply i p -> reply_for i f = true ->
  triple_r (rd p h (Some true)) (SendPayloadFill f size)
    (fun e => rd (match e with None => Answered i | Some e => unsent i p e end) h (Some true)).
Proof. intros. apply sending_ok; eauto. Qed.

(** What is left of a call whose reply did not go out. *)
Definition dropped (i : Z) (p : phase) : Prop := p = Lost (Unsent i) \/ p = Spoiled i.

Lemma unsent_dropped i p e : can_reply i p -> dropped i (unsent i p e).
Proof. intros [-> | [-> | [-> | ->]]]; simpl; [by left..| |by left]. destruct (Is _ _); [by right|by left]. Qed.

Definition replied (i : Z) (h : hold) (e : option error) (s : session) : Prop :=
  match e with
  | None => rd (Answered i) h (Some true) s
  | Some _ => exists q, dropped i q /\ rd q h (Some true) s
  end.

Lemma send_replied i p h f :
  outside h -> can_reply i p -> reply_for i f = true -> triple_r (rd p h (Some true)) (Send f) (replied i h).
Proof.
  intros Hh Hc Hf. eapply triple_conseq; [by apply send_ok|done|]. intros [e|] s _ H; [|done].
  eexists. split; [by apply unsent_dropped|done].
Qed.

(** An envelope that answers call [i] in phase [p]; a message to encode comes
    only from a handler. *)
Definition answers (i : Z) (p : phase) (env : ResponseEnvelope) : Prop :=
  reply_for i (env_Frame env) = true /\ ((p = Owing i /\ env_Msg env = None) \/ p = Running i).

Lemma status_reply i f st : CallID f = i -> reply_for i (statusFrame f st) = true.
Proof. intros <-. unfold reply_for, statusFrame. simpl. by rewrite Z.eqb_refl. Qed.

Lemma reply_call i f : reply_for i f = true -> CallID f = i.
Proof. unfold reply_for. intros. bool_to_prop. lia. Qed.

Lemma sendUnaryResponse_ok cfg i p h env :
  outside h -> answers i p env -> triple_r (rd p h (Some true)) (sendUnaryResponse cfg env) (replied i h).
Proof.
  intros Hh [Hf Hp]. assert (Hc : can_reply i p) by (unfold can_reply; intuition). unfold sendUnaryResponse.
  destruct (env_Msg env) as [m|] eqn:Em; [|by apply (send_replied i)].
  assert (p = Running i) as -> by (intuition congruence).
  destruct (negb _); [by apply (send_replied i)|]. pose proof (reply_call _ _ Hf) as Hcall.
  destruct (resolvePayloadFiller cfg m) as [size|].
  - eapply triple_bind; [by apply (fill_ok i)|]. intros [e|]; [|by apply triple_ret]. simpl. destruct (Is _ _).
    + apply (send_replied i); [done|by repeat right|by apply status_reply].
    + apply triple_ret. intros s _ H. exists (Lost (Unsent i)). by split; [left|].
  - destruct (Marshal _ m); apply (send_replied i); try done; by apply status_reply.
Qed.

(** ** Dispatch *)

Definition entered (h : hold) : Prop := h = HArmed \/ h = HReleased.

(** The handler's outcome is a status owed without a handler having run, or
    whatever a handler that ran gave. *)
Definition handled_as (i : Z) (r : Response * option FrameStatus * option error) (p : phase) (h : hold) : Prop :=
  snd r = None /\ ((p = Owing i /\ h = HArmed /\ snd (fst r) <> None) \/ (p = Running i /\ h = HReleased)).

Lemma triple_pick {A B} (D : A -> Prop) (L : A -> session -> Prop) (p : P B) Post :
  (forall a, D a -> triple_r (L a) p Post) -> triple_r (fun s => exists a, D a /\ L a s) p Post.
Proof. intros H s Hi (a & Ha & HL). by apply (H a). Qed.

Lemma Handle_ok cfg sh i m req :
  triple_r (rd (Owing i) HArmed (Some true)) (serviceHandler_Handle cfg sh i m req)
    (fun r s => exists ph, handled_as i r (fst ph) (snd ph) /\ rd (fst ph) (snd ph) (Some true) s).
Proof.
  unfold serviceHandler_Handle. destruct (lookupMethod sh m) as [d|].
  2:{ apply triple_ret. intros s _ H. exists (Owing i, HArmed). split; [split; [done|left; done]|done]. }
  destruct req as [msg|].
  2:{ apply triple_ret. intros s _ H. exists (Owing i, HArmed). split; [split; [done|left; done]|done]. }
  eapply triple_bind; [apply invoke_ok|].
  assert (Hend : forall r : Response * option FrameStatus * option error, snd r = None -> forall s, rd (Running i) HReleased (Some true) s ->
    exists ph, handled_as i r (fst ph) (snd ph) /\ rd (fst ph) (snd ph) (Some true) s).
  { intros r Hr s H. exists (Running i, HReleased). split; [split; [done|by right]|done]. }
  intros [msg'|e|t].
  - apply triple_ret. intros s _ H. by apply Hend.
  - apply triple_ret. intros s _ H. by apply Hend.
  - eapply triple_bind; [apply panic_ok|]. intros []. apply triple_ret. intros s _ H. by apply Hend.
Qed.

Lemma respond_answers cfg f r p h :
  handled_as (CallID f) r p h -> exists env, respond cfg f r = [env] /\ answers (CallID f) p env.
Proof.
  destruct r as [[resp st] err]. intros [Herr Hp]. simpl in *. subst err. unfold respond. destruct st as [st|].
  - eexists. split; [done|]. split; [by apply status_reply|]. destruct Hp as [(-> & _)|[-> _]]; [left|right]; done.
  - eexists. split; [done|]. split; [unfold reply_for; simpl; by rewrite Z.eqb_refl|].
    right. destruct Hp as [(_ & _ & ?)|[-> _]]; done.
Qed.

(** The envelopes of a dispatched request and where the reader is with them. *)
Definition dispatched (i : Z) (envs : list ResponseEnvelope) (s : session) : Prop :=
  exists ph, entered (snd ph) /\
    ((envs = [] /\ fst ph = Answered i) \/ exists env, envs = [env] /\ answers i (fst ph) env) /\
    rd (fst ph) (snd ph) (Some true) s.

Lemma dispatchUnary_ok cfg f req recvAt :
  triple_r (rd (Owing (CallID f)) HArmed (Some true)) (dispatchUnary cfg f req recvAt) (dispatched (CallID f)).
Proof.
  unfold dispatchUnary. set (dl := if 0 <? Budget f then _ else _). set (i := CallID f).
  assert (Hstatus : forall st s, rd (Owing i) HArmed (Some true) s -> dispatched i [statusEnvelope f st] s).
  { intros st s H. exists (Owing i, HArmed). split; [by left|]. split; [|done]. right. eexists. split; [done|].
    split; [by apply status_reply|by left]. }
  eapply triple_bind; [by apply expired_ok; left|]. intros [].
  { apply triple_ret. intros s _ H. exists (Answered i, HArmed). split; [by left|]. split; [by left|done]. }
  destruct (services cfg !! Service f) as [sh|]; [|apply triple_ret; intros s _ H; by apply Hstatus].
  destruct (decide (DecodeFault req = [])); [|apply triple_ret; intros s _ H; by apply Hstatus].
  eapply triple_bind; [apply trackCall_ok|]. intros []. eapply triple_bind; [apply Handle_ok|]. intros r.
  apply triple_pick. intros [p h] Hr. cbn [fst snd] in *.
  assert (Hp : p = Owing i \/ p = Running i) by (destruct Hr as [_ [(?&_)|(?&_)]]; auto).
  assert (He : entered h) by (destruct Hr as [_ [(_&?&_)|(_&?)]]; [by left|by right]).
  eapply triple_bind; [by apply expired_ok|]. intros late.
  eapply triple_bind; [apply untrackCall_ok|]. intros []. apply triple_ret. intros s _ H. destruct late.
  - exists (Answered i, h). split; [done|]. split; [by left|done].
  - exists (p, h). split; [done|]. split; [|done]. right. by apply (respond_answers cfg f r p h).
Qed.

(** ** The end of a turn *)

Lemma rd_free p h g s : outside h -> rd p h g s -> rd p HFree g s.
Proof. intros Ho [? Hh ? ?]. split; try done. simpl. by eapply outside_readers. Qed.

(** Where a turn with verdict [v] leaves the reader: a loop that goes on is
    idle; one that leaves a fenced request reports the panic. *)
Definition concludes (v : verdict) (q : phase) : Prop :=
  match q with
  | Idle => True
  | Lost (Unsent _) => v <> None
  | Lost (Fenced _) => v = Some (Some errServeLoopHandlerPanicked)
  | _ => False
  end.

Lemma concludes_free v q : concludes v q -> free q.
Proof. destruct q; try done; [by left|by right]. Qed.
Lemma concludes_idle q : concludes None q -> q = Idle.
Proof. by destruct q as [| | | | | | | | | |[]]. Qed.

(** A phase a turn with verdict [v] may end in. *)
Definition ends (v : verdict) (q : phase) : Prop :=
  exists q', next q ERetired = Some q' /\ concludes v q'.

Definition turned_at (h : hold) (g : option bool) (v : verdict) (s : session) : Prop := exists q, ends v q /\ rd q h g s.
Notation turned := (turned_at HFree).

Lemma turned_by h g v q s : ends v q -> rd q h g s -> turned_at h g v s.
Proof. by exists q. Qed.

Lemma ends_idle v : ends v Idle.
Proof. by exists Idle. Qed.
Lemma ends_settled v : ends v Settled.
Proof. by exists Idle. Qed.
Lemma ends_launched v : ends v Launched.
Proof. by exists Idle. Qed.
Lemma ends_held v f : is_unary f = false -> ends v (Held f).
Proof. intros H. exists Idle. simpl. by rewrite H. Qed.
Lemma ends_fenced f :
  ends (Some (Some errServeLoopHandlerPanicked)) (if is_unary f then Lost (Fenced (CallID f)) else Held f).
Proof. destruct (is_unary f) eqn:E; [by eexists|]. exists Idle. simpl. by rewrite E. Qed.
Lemma ends_dropped e i q : dropped i q -> ends (Some e) q.
Proof. by intros [-> | ->]; exists (Lost (Unsent i)). Qed.
#[local] Hint Resolve ends_idle ends_settled ends_launched ends_held ends_fenced : serve.

Lemma retire_ok g v : triple_r (turned (Some g) v) retire (fun _ s => exists q, concludes v q /\ rd q HFree None s).
Proof.
  apply triple_pick. intros q (q' & Hn & Hv). pose proof (concludes_free _ _ Hv) as Hf. unfold retire.
  assert (Hob : ~ lost q' -> ~ lost q /\ owed_ids q = ∅).
  { destruct q; simplify_eq/=; repeat case_match; simplify_eq; try done; intros H; by split; [intros []|] || destruct H. }
  eapply triple_bind with (Mid := fun was s => was = g /\
    if was then at_phase s = Some q' /\ holds HFree s /\ reservation None s else rd q' HFree None s).
  - apply triple_crit; [auto with serve|]. intros s Hi H. split; [auto with serve|].
    destruct H as [Hp Hh Hg Ho]. assert (Hp' : at_phase (record ERetired s) = Some q') by (rewrite <- Hn; by apply at_phase_record).
    assert (reserved s = g) as Hres by (destruct g; apply Hg). rewrite Hres.
    assert (K : forall s', reader_frame s s' -> trace s' = trace s ++ [ERetired] -> live s' = live s -> inbox s' = inbox s ->
      obl s' = obl s -> readers s' = readers s -> (reader_owes s' = true \/ (ingressPending s' = ingressPending s /\ reader_owes s' = reader_owes s)) ->
      kept Reader QRetire s s').
    { intros s' Hfr Ht Hl Hx Hb Hr Hp2. eapply reader_section; [exact Hp|by rewrite (at_phase_step _ _ _ _ Ht Hp)|done|..].
      - intros _. rewrite Ht, entries_snoc. apply app_nil_r.
      - by apply gate_kept.
      - intros L. destruct (Hob L) as [L' W]. rewrite Hb, Hl, (rf_closing _ _ Hfr).
        pose proof (inv_owed s q Hi Hp L') as Hz. rewrite W in Hz. set_solver.
      - done.
      - rewrite Ht. intros [?|E%list_elem_of_singleton]%elem_of_app; [by apply Hfr, (inv_seen _ Hi)|done].
      - destruct Hp2 as [E|[E E']]; [intros _; right; by left|].
        apply pending_mono; [apply Hfr|congruence|by rewrite (rf_streams _ _ Hfr)|].
        apply busy_mono; [congruence|congruence|congruence|apply Hfr|by rewrite (rf_fatal _ _ Hfr)].
      - rewrite Hx, Hb. by intros ->. }
    destruct g; simpl in Hg; destruct Hg as [Hg _].
    + assert (kept Reader QRetire s (with_reader_owes true (with_ingressPending (ingressPending s - 1) (record ERetired s)))) as [? ?]
        by (apply K; first [done|by left|frame]).
      repeat (split; [done|]). simpl. lia.
    + assert (kept Reader QRetire s (record ERetired s)) as [? ?] by (apply K; first [done|by right|frame]).
      repeat (split; [done|]). by split.
  - intros [].
    + eapply triple_conseq; [apply (poke_ok q' HFree None)|intros s ? [? ?]; done|]. intros [] s ? H. by exists q'.
    + apply triple_ret. intros s ? [? H]. by exists q'.
Qed.

(** ** What follows a dispatch *)

Lemma terminal_ok g h p e : triple_r (rd p h g) (terminalLoopExit e) (fun v s => v <> None /\ rd p h g s).
Proof.
  unfold terminalLoopExit. destruct (Is _ _); [by apply triple_ret|].
  eapply triple_bind; [by apply reader_ask|]. intros c. by apply triple_ret.
Qed.

Lemma finish_settled p h :
  p = Settled \/ (exists f, p = Held f /\ is_unary f = false) ->
  triple_r (rd p h (Some true))
    (t ← shouldTerminate; mret (if (t : bool) then Some (Some errServeLoopHandlerPanicked) else None))
    (fun v => turned_at h (Some true) v).
Proof.
  intros Hp. assert (Hn : next p ETainted = Some p) by (destruct Hp as [-> | (f & -> & Hu)]; simpl; by rewrite ?Hu).
  eapply triple_bind; [by apply (taint_ok p p)|]. intros t. apply triple_ret. intros s _ H.
  assert (seen t p p = p) as E by (by destruct t). rewrite E in H.
  eapply turned_by; [|exact H]. destruct Hp as [-> | (f & -> & ?)]; auto with serve.
Qed.

Lemma finish_unary cfg f envs p h :
  Kind f = FrameUnaryReq -> outside h ->
  ((envs = [] /\ p = Answered (CallID f)) \/ exists env, envs = [env] /\ answers (CallID f) p env) ->
  triple_r (rd p h (Some true)) (finishNonStream cfg f envs) (turned_at h (Some true)).
Proof.
  intros Hk Hh Hp. set (i := CallID f) in *. unfold finishNonStream.
  eapply triple_bind with (Mid := replied i h).
  - destruct Hp as [[-> ->]|(env & -> & Ha)]; simpl; [by apply triple_ret|].
    eapply triple_bind; [by apply (sendUnaryResponse_ok cfg i)|]. intros [e|]; by apply triple_ret.
  - intros [e|]; cbn [replied].
    + apply triple_pick. intros q Hq. apply triple_ret. intros s _ H. eapply turned_by; [by eapply ends_dropped|done].
    + rewrite Hk. change (FrameUnaryReq =? FrameUnaryReq) with true. cbn iota.
      eapply triple_bind with (Mid := fun _ => rd Settled h (Some true)).
      * apply close_ok; try done. simpl. by rewrite Z.eqb_refl.
      * intros _. apply finish_settled. by left.
Qed.

(** The last, deferred release of the admission finds it released. *)
Lemma release_turned v :
  triple_r (turned_at HReleased (Some true) v) release (fun _ => turned (Some true) v).
Proof.
  apply triple_pick. intros q Hq. eapply triple_conseq; [apply release_ok; by right|done|].
  intros [] s ? H. exists q. split; [done|]. by apply (rd_free q HReleased); [right|].
Qed.

(** ** The non-stream frames *)

(** The frame in hand is the one received, its payload aside. *)
Definition same_call (f0 f : Frame) : Prop := CallID f = CallID f0 /\ Kind f = Kind f0.

Lemma dispatchNonStream_ok cfg f0 f req :
  same_call f0 f ->
  triple_r (rd (Held f0) HFree (Some true)) (dispatchNonStreamFrame cfg f req) (turned (Some true)).
Proof.
  intros [Hc Hk]. unfold dispatchNonStreamFrame. eapply triple_bind; [by apply reader_ask|]. intros recvAt.
  destruct (Kind f =? FrameUnaryReq) eqn:E.
  - assert (Ku : Kind f = FrameUnaryReq) by lia. assert (Hu : is_unary f0 = true) by (unfold is_unary; lia).
    eapply triple_bind; [by apply begin_ok|]. intros []; simpl negb; cbn iota; cbn [seen].
    2:{ apply triple_ret. intros s _ H. eapply turned_by; [apply ends_fenced|done]. }
    eapply triple_bind; [apply (open_ok (Held f0) (Owing (CallID f)))|]; try done.
    { simpl. rewrite Hu, Hc. simpl. by rewrite Z.eqb_refl. }
    intros []. eapply triple_bind; [apply arm_ok|]. intros []. unfold Dispatch. rewrite Ku. simpl (_ =? _). cbn iota.
    eapply triple_bind; [apply dispatchUnary_ok|]. intros envs.
    eapply triple_conseq with (P := fun s => exists ph, (entered (snd ph) /\
      ((envs = [] /\ fst ph = Answered (CallID f)) \/ exists env, envs = [env] /\ answers (CallID f) (fst ph) env)) /\
      rd (fst ph) (snd ph) (Some true) s); [| |done].
    + apply triple_pick. intros [p h] [He Hp]. cbn [fst snd] in *.
      eapply triple_bind; [by apply release_ok|]. intros [].
      eapply triple_bind; [apply (finish_unary cfg f envs p HReleased); [done|by right|done]|]. intros v.
      eapply triple_bind; [apply release_turned|]. intros []. by apply triple_ret.
    + intros s _ (ph & ? & ? & ?). exists ph. by split.
  - assert (Hu : is_unary f0 = false) by (unfold is_unary; lia).
    eapply triple_bind with (Mid := fun envs s => envs = [] /\ rd (Held f0) HFree (Some true) s).
    + unfold Dispatch. rewrite E. destruct (Kind f =? FrameCancel); [|by apply triple_ret].
      eapply triple_bind; [apply cancel_ok|]. intros []. by apply triple_ret.
    + intros envs s Hi [-> H]. revert s Hi H. change (triple_r (rd (Held f0) HFree (Some true)) (finishNonStream cfg f []) (turned (Some true))).
      unfold finishNonStream. rewrite E. eapply triple_bind with (Mid := fun e s => e = None /\ rd (Held f0) HFree (Some true) s).
      * by apply triple_ret.
      * intros e s Hi [-> H]. revert s Hi H. change (triple_r (rd (Held f0) HFree (Some true))
          (mret tt ≫= fun _ => t ← shouldTerminate; mret (if (t : bool) then Some (Some errServeLoopHandlerPanicked) else None))
          (turned (Some true))).
        eapply triple_bind with (Mid := fun _ => rd (Held f0) HFree (Some true)); [by apply triple_ret|].
        intros _. apply finish_settled. right. eauto.
Qed.

Lemma declined_ok e b :
  (match re_fault e with Some ft => ft_Kind ft = FrameUnaryReq -> b = true | None => True end) ->
  triple_r (rd (match re_fault e with
                | Some ft => if ft_Kind ft =? FrameUnaryReq then Refused (ft_CallID ft) else Idle
                | None => Idle end) HFree (Some b))
    (answerDeclinedRequest e) (turned (Some b)).
Proof.
  intros Hb. unfold answerDeclinedRequest. destruct (re_fault e) as [ft|].
  2:{ apply triple_ret. intros s _ H. eapply turned_by; [apply ends_idle|done]. }
  destruct (ft_Kind ft =? FrameUnaryReq) eqn:E; simpl negb; cbn iota.
  2:{ apply triple_ret. intros s _ H. eapply turned_by; [apply ends_idle|done]. }
  assert (b = true) as -> by (apply Hb; lia). set (i := ft_CallID ft).
  eapply triple_bind; [apply (open_ok (Refused i) (Refusing i)); [simpl; by rewrite Z.eqb_refl|done|done]|]. intros [].
  eapply triple_bind; [apply (send_ok i); [by left|by left|by apply status_reply]|]. intros [err|].
  - eapply triple_bind; [apply terminal_ok|]. intros v s Hi [Hv H]. revert s Hi H.
    change (triple_r (rd (Lost (Unsent i)) HFree (Some true)) (CloseObligation i ≫= fun _ => mret v) (turned (Some true))).
    eapply triple_bind; [by apply (close_ok (Lost (Unsent i)) (Lost (Unsent i)))|]. intros []. apply triple_ret. intros s _ H.
    destruct v as [v|]; [|done]. eapply turned_by; [apply (ends_dropped v i); by left|done].
  - eapply triple_bind with (Mid := fun v => rd (Answered i) HFree (Some true)); [by apply triple_ret|]. intros v.
    eapply triple_bind with (Mid := fun _ => rd Settled HFree (Some true)).
    { apply close_ok; try done. simpl. by rewrite Z.eqb_refl. }
    intros []. apply triple_ret. intros s _ H. eapply turned_by; [apply ends_settled|done].
Qed.

Lemma disposeRecvErr_ok g e q :
  ends None q -> triple_r (rd q HFree g) (disposeRecvErr e) (turned g).
Proof.
  intros (q' & Hn & ->%concludes_idle). assert (Hall : forall v, ends v q) by (intros v; by exists Idle).
  unfold disposeRecvErr. destruct (IsFrameLocalRecvErr _).
  - apply triple_ret. intros s _ H. by eapply turned_by.
  - eapply triple_conseq; [apply terminal_ok|done|]. intros v s _ [_ H]. by eapply turned_by.
Qed.

(** ** The stream frames *)

Lemma accept_ok f i sc :
  triple_r (rd (Held f) HAdmitted (Some true)) (OpenAccepting i sc) (fun _ => rd (Held f) HAdmitted (Some true)).
Proof.
  apply role_act; [auto with serve|intros; auto with serve|]. intros s x Hi H.
  destruct (decide (i ∈ live s)); simpl; [by split; [apply serve_section_kept_refl|apply returns]|].
  destruct (told_err x) as [[e|]|]; simpl; [by split; [apply serve_section_kept_refl|apply returns]| |by split; [apply serve_section_kept_refl|]].
  split; [|apply returns; destruct H as [? Hh [? ?] ?]; by split].
  destruct H as [Hp (Hr & _) [Hg _] Ho].
  eapply reader_section; [exact Hp|exact Hp| |done|intros W; by apply Hi| |intros Z; simpl in Z; lia|apply Hi| |].
  - split; try done. simpl. set_solver.
  - intros _. simpl. pose proof (inv_owed s (Held f) Hi Hp ltac:(by intros [])). set_solver.
  - intros _. right. right. right. right. left. simpl. lia.
  - simpl. intros ->. split; [done|]. nf.
Qed.

Lemma launch_ok f i shape now_ :
  Kind f = FrameStreamOpen -> i = CallID f ->
  triple_r (rd (Held f) HAdmitted (Some true))
    (upd (QLaunch i) (fun s => record (ELaunched i) (with_launches (launches s ++ [(i, shape)])
        (with_leases (Leases.Acquire i now_ (leases s)) s))))
    (fun _ => rd Launched HAdmitted (Some true)).
Proof.
  intros Hk ->. assert (Hn : next (Held f) (ELaunched (CallID f)) = Some Launched).
  { simpl. rewrite Hk. simpl. by rewrite Z.eqb_refl. }
  apply reader_upd; [auto with serve|]. intros s Hi H. split; [|split; [|by eapply rd_event]].
  - destruct H as [? [? ?] ? ?]. by split.
  - eapply (reader_event _ _ _ (Held f) Launched (ELaunched (CallID f))); [done|apply H|done|done|frame| |by apply gate_kept|done|apply H| |nf].
    + intros _. apply H.
    + intros _. apply (inv_owed s (Held f) Hi); [apply H|by intros []].
Qed.

(** The two phases a stream frame leaves the reader in. *)
Definition streamed (f : Frame) (p : phase) : Prop := p = Held f \/ p = Launched.
Definition stream_at (h : hold) (f : Frame) (s : session) : Prop := exists p, streamed f p /\ rd p h (Some true) s.

Lemma held_streamed h f s : rd (Held f) h (Some true) s -> stream_at h f s.
Proof. exists (Held f). by split; [left|]. Qed.

Lemma onStreamOpen_ok cfg f0 f :
  same_call f0 f -> Kind f0 = FrameStreamOpen ->
  triple_r (rd (Held f0) HAdmitted (Some true)) (onStreamOpen cfg f) (fun _ => stream_at HAdmitted f0).
Proof.
  intros [Hc _] Hk. unfold onStreamOpen.
  destruct (negb _); [apply triple_ret; intros s _ H; by apply held_streamed|].
  eapply triple_bind; [apply live_ok|]. intros []; [apply triple_ret; intros s _ H; by apply held_streamed|].
  destruct (stream_handlers cfg !! _) as [shape|].
  2:{ eapply triple_bind; [apply reject_ok|]. intros []. apply triple_ret. intros s _ H. by apply held_streamed. }
  eapply triple_bind; [apply accept_ok|]. intros [e|].
  - destruct (Is _ _); [apply triple_ret; intros s _ H; by apply held_streamed|].
    eapply triple_bind; [apply reject_ok|]. intros []. apply triple_ret. intros s _ H. by apply held_streamed.
  - eapply triple_bind; [by apply reader_ask|]. intros []; simpl negb; cbn iota.
    2:{ apply triple_ret. intros s _ H. by apply held_streamed. }
    eapply triple_bind; [by apply reader_ask|]. intros t.
    eapply triple_bind; [by apply (launch_ok f0)|]. intros []. apply triple_ret. intros s _ H. exists Launched. by split; [right|].
Qed.

Lemma routeStream_ok cfg f0 f :
  same_call f0 f ->
  triple_r (rd (Held f0) HFree (Some true)) (routeStreamFrame cfg f) (fun _ => stream_at HFree f0).
Proof.
  intros Hs. unfold routeStreamFrame. destruct (Kind f =? FrameStreamOpen) eqn:E.
  - assert (Ko : Kind f0 = FrameStreamOpen) by (destruct Hs; lia).
    assert (Hu : is_unary f0 = false) by (unfold is_unary; by rewrite Ko).
    eapply triple_bind; [apply (begin_ok (Held f0) (Held f0)); simpl; by rewrite Hu|]. intros []; simpl negb; cbn iota; cbn [seen].
    2:{ apply triple_ret. intros s _ H. by apply held_streamed. }
    eapply triple_bind; [by apply (onStreamOpen_ok cfg f0)|]. intros derr. apply triple_pick. intros p Hp.
    eapply triple_bind; [apply end_ok; by right|]. intros []. apply triple_ret. intros s _ H. by exists p.
  - eapply triple_bind; [by apply reader_ask|]. intros [e|]; [apply triple_ret; intros s _ H; by apply held_streamed|].
    eapply triple_bind; [apply mark_ok|]. intros []. apply triple_ret. intros s _ H. by apply held_streamed.
Qed.


Lemma streamed_ends v f p : is_unary f = false -> streamed f p -> ends v p.
Proof. intros Hu [-> | ->]; auto with serve. Qed.

Lemma poison_turned f p : is_unary f = false -> streamed f p -> triple_r (rd p HFree (Some true)) poison_exit (turned (Some true)).
Proof.
  intros Hu Hp. eapply triple_bind; [apply stop_ok|]. intros []. apply triple_ret. intros s _ H.
  eapply turned_by; [by eapply streamed_ends|done].
Qed.

Lemma route_ok cfg f0 f req :
  same_call f0 f ->
  triple_r (rd (Held f0) HFree (Some true)) (route cfg f req) (turned (Some true)).
Proof.
  intros Hs. unfold route. destruct (isStreamKind (Kind f)) eqn:Es.
  - assert (Hu : is_unary f0 = false).
    { destruct Hs as [_ Hk]. unfold is_unary. rewrite <- Hk. apply bool_decide_eq_true in Es. apply Z.eqb_neq. intros E.
      rewrite E in Es. by repeat (apply elem_of_cons in Es as [Es|Es]; [discriminate Es|]); apply elem_of_nil in Es. }
    destruct (streaming cfg); [|by apply (poison_turned f0); [|left]]. unfold routed_stream.
    eapply triple_bind; [by apply (routeStream_ok cfg f0)|]. intros [[] derr]; apply triple_pick; intros p Hp.
    + apply triple_ret. intros s _ H. eapply turned_by; [by eapply streamed_ends|done].
    + destruct derr; [by eapply poison_turned|]. apply triple_ret. intros s _ H. eapply turned_by; [by eapply streamed_ends|done].
  - destruct (Kind f =? FrameCancel) eqn:Ec; simpl andb; cbn iota; [|by apply dispatchNonStream_ok].
    assert (Hu : is_unary f0 = false).
    { destruct Hs as [_ Hk]. unfold is_unary. rewrite <- Hk. apply Z.eqb_eq in Ec. by rewrite Ec. }
    destruct (streaming cfg); cbn iota.
    + eapply triple_bind; [apply live_ok|]. intros []; [|by apply dispatchNonStream_ok]. unfold routed_cancel.
      eapply triple_bind; [by apply reader_ask|]. intros [e|]; [by apply (poison_turned f0); [|left]|].
      apply triple_ret. intros s _ H. eapply turned_by; [by apply ends_held|done].
    + destruct (negb _); [by apply (poison_turned f0); [|left]|by apply dispatchNonStream_ok].
Qed.

(** ** The receive and the turn *)

Definition refused (e : recvErr) : phase :=
  match re_fault e with
  | Some ft => if ft_Kind ft =? FrameUnaryReq then Refused (ft_CallID ft) else Idle
  | None => Idle
  end.

Definition received (r : Frame + recvErr) (s : session) : Prop :=
  match r with
  | inl f => rd (Held f) HFree (Some true) s
  | inr e => exists b, (match re_fault e with Some ft => ft_Kind ft = FrameUnaryReq -> b = true | None => True end) /\
                       rd (refused e) HFree (Some b) s
  end.

(** A section at the read: the reservation is up, so the drain still waits. *)
Lemma reader_read s s' p' q :
  inv s -> rd Idle HFree (Some true) s -> reader_frame s s' -> at_phase s' = Some p' ->
  entries (trace s') = entries (trace s) -> (ETainted ∈ trace s' -> ETainted ∈ trace s) ->
  readers s' = readers s -> ingressPending s' = ingressPending s ->
  obl s' = obl s -> live s' = live s -> (inbox s = [] -> inbox s' = [] /\ free p') -> kept Reader q s s'.
Proof.
  intros Hi [Hp Hh [Hg _] Ho] Hf Hp' He Hs Hr Hi' Hob Hl Hx.
  eapply reader_section; [exact Hp|exact Hp'|done|done|by apply gate_kept| |lia|intros ?; by apply Hf, (inv_seen _ Hi), Hs| |].
  - intros Hn. rewrite Hob, Hl, (rf_closing _ _ Hf). pose proof (inv_owed s Idle Hi Hp ltac:(by intros [])). simpl in *. set_solver.
  - intros _. right. right. right. right. left. lia.
  - intros E. destruct (Hx E). rewrite Hob. by split; [|intros _; split; [|]].
Qed.

Lemma rd_moves p g h s s' p' :
  rd p h g s -> at_phase s' = Some p' -> readers s' = readers s -> tainted s' = tainted s ->
  released s' = released s -> ingressPending s' = ingressPending s -> reserved s' = reserved s ->
  reader_owes s' = reader_owes s -> rd p' h g s'.
Proof.
  intros [Hp Hh Hg Ho] ? ? ? ? ? ? ?. split; [done|..|congruence].
  - destruct h; simpl in *; intuition congruence.
  - destruct g as [[]|]; simpl in *; intuition congruence.
Qed.

Ltac read_frame E :=
  eapply reader_read; first [eassumption | done | frame | (simpl; rewrite entries_snoc; apply app_nil_r) | (by intros [?|?%list_elem_of_singleton]%elem_of_app) | by rewrite E].

Lemma take_ok : triple_r (rd Idle HFree (Some true)) take_frame received.
Proof.
  apply role_act; [auto with serve| |].
  { intros s _ [Hp Hh [Hg _] Ho]. by split. }
  intros s x Hi H. pose proof H as [Hp Hh [Hg _] Ho].
  pose proof (serve_section_kept_refl Reader QRead s Hi) as Hstay.
  destruct x as [| |e|d|e|t|hd|c|b|z|i| |g]; simpl; try (by split; [apply Hstay|]); destruct (inbox s) as [|f rest] eqn:E; simpl;
    try (by split; [apply Hstay|]).
  - assert (Hn : at_phase (record (EGot f) (with_inbox rest s)) = Some (Held f)) by (by rewrite (at_phase_record _ _ Idle)).
    split; [|apply returns; by eapply rd_moves].
    by read_frame E.
  - destruct (Kind f =? FrameUnaryReq) eqn:Ek; simpl; [by split; [apply Hstay|]|].
    split; [|apply returns; exists true; split; [done|]; by eapply rd_moves].
    by read_frame E.
  - destruct (Kind f =? FrameUnaryReq) eqn:Ek.
    + assert (Hn : at_phase (record (EDeclined (CallID f)) (with_inbox rest s)) = Some (Refused (CallID f)))
        by (by rewrite (at_phase_record _ _ Idle)).
      split; [|apply returns; exists true; split; [done|]; unfold refused; simpl; rewrite Ek; by eapply rd_moves].
      by read_frame E.
    + split; [|apply returns; exists true; split; [done|]; unfold refused; simpl; rewrite Ek; by eapply rd_moves].
      by read_frame E.
  - destruct e as [e|]; [|by split; [apply Hstay|]]. split; [apply Hstay|]. apply returns. exists true. by split.
  - destruct e as [e|]; [|by split; [apply Hstay|]]. split; [apply Hstay|]. apply returns. exists true. by split.
Qed.

Section served.
Context (cfg : server) (Hres : reserving (caps cfg) = true).

Lemma recv_ok : triple_r (rd Idle HFree (Some false)) (recvReserving cfg) received.
Proof using Hres.
  apply role_act; [auto with serve| |].
  { intros s _ [Hp Hh [Hg _] Ho]. by split. }
  intros s x Hi H. pose proof H as [Hp Hh [Hg _] Ho].
  destruct x as [| | | |e| | | | | | | |]; simpl; try (by split; [apply serve_section_kept_refl|]).
  - rewrite Hres. split; [|exists (rd Idle HFree (Some true)); split; [|apply take_ok]].
    + eapply reader_section; [exact Hp|exact Hp|frame|done|apply Hi|intros Hn; exact (inv_owed s Idle Hi Hp Hn)|by left|apply Hi| |].
      * intros _. right. right. right. right. left. simpl. lia.
      * intros E. by split.
    + split; [done|done| |done]. simpl. lia.
  - destruct e as [e|]; [|by split; [apply serve_section_kept_refl|]]. split; [by apply serve_section_kept_refl|].
    apply returns. exists false. by split.
Qed.

Lemma turned_end v q s : ends v q -> rd q HFree None s -> turned None v s.
Proof. by exists q. Qed.

Lemma dispose_ok r :
  triple_r (received r) (dispose cfg (match r with inl f => inl (prepareInboundFrame cfg f) | inr e => inr e end))
    (fun v s => exists b, turned (Some b) v s).
Proof.
  destruct r as [f|e]; cbn [received].
  - destruct (prepareInboundFrame cfg f) as [f' req] eqn:E. unfold dispose.
    assert (Hs : same_call f f').
    { unfold prepareInboundFrame in E. destruct (Kind f =? FrameUnaryReq); [by simplify_eq|]. destruct (isStreamKind (Kind f)); by simplify_eq. }
    eapply triple_bind; [by apply taint_ok|]. intros []; cbn [seen].
    + apply triple_ret. intros s _ H. exists true. eapply turned_by; [apply ends_fenced|done].
    + eapply triple_conseq; [by apply (route_ok cfg f)|done|]. intros v s _ H. by exists true.
  - apply triple_pick. intros b Hb. unfold dispose. eapply triple_bind; [by apply declined_ok|]. intros [v|].
    + apply triple_ret. intros s _ H. by exists b.
    + apply triple_pick. intros q Hq. eapply triple_conseq; [by apply disposeRecvErr_ok|done|]. intros v s _ H. by exists b.
Qed.

(** The result of a turn: no frame in hand, no reservation, no admission held;
    a loop that goes on is idle. *)
Definition turn_post (v : verdict) (s : session) : Prop := exists q, concludes v q /\ rd q HFree None s.

Lemma serve_turn_ok : triple_r (rd Idle HFree None) (serve_turn cfg) turn_post.
Proof using Hres.
  unfold serve_turn. eapply triple_bind with (Mid := fun _ => rd Idle HFree None).
  { destruct (streaming cfg); [apply probe_ok|by apply triple_ret]. }
  intros []. unfold serveOneFrame. eapply triple_bind with (Mid := fun _ => rd Idle HFree (Some false)).
  { apply reader_upd; [auto with serve|]. intros s Hi H. split; [auto with serve|]. destruct H as [Hp Hh Hg Ho]. split.
    - neutral. apply Hi.
    - by split. }
  intros []. eapply triple_bind with (Mid := fun r s => exists r0, r = (match r0 with inl f => inl (prepareInboundFrame cfg f) | inr e => inr e end) /\ received r0 s).
  { unfold receiveOneFrame. eapply triple_bind; [apply recv_ok|]. intros r. apply triple_ret. intros s _ H. by exists r. }
  intros r. apply triple_pick. intros r0 ->. eapply triple_bind; [apply dispose_ok|]. intros v.
  eapply triple_bind with (Mid := fun _ => turn_post v).
  - intros s Hi (b & H). by apply (retire_ok b v).
  - intros []. by apply triple_ret.
Qed.

Lemma turn_post_stable v : stable inv Rel Reader (turn_post v).
Proof. apply stable_exists. intros q. apply rd_stable. Qed.
End served.

(** ** The other goroutines *)

(** A section of anyone but the reader that brings no frame. *)
Lemma other_section r q s s' :
  r <> Reader -> inv s ->
  trace s' = trace s -> readers s' = readers s -> ingressPending s' = ingressPending s -> reserved s' = reserved s ->
  released s' = released s -> reader_owes s' = reader_owes s -> arrivals s' = arrivals s -> inbox s' = inbox s ->
  (tainted s = true -> tainted s' = true) -> (readers s <> 0 -> tainted s' = tainted s) ->
  (r <> Drain -> asked s' = asked s /\ (pending s -> pending s')) ->
  (r <> Engine -> streams_owe s' = streams_owe s /\ closing s' = closing s) ->
  (forall i, r <> Handler i -> writer s = Some i <-> writer s' = Some i) -> (writer s' <> None -> readers s = 0) ->
  obl s' ⊆ obl s -> (forall X, obl s ⊆ live s ∪ closing s ∪ X -> obl s' ⊆ live s' ∪ closing s' ∪ X) ->
  kept r q s s'.
Proof.
  intros Hr Hi Ht Hrd Hg Hv Hl Ho Ha Hx Hta Hta' Hd He Hw Hw' Hob Hleg.
  assert (Hp : at_phase s' = at_phase s) by (unfold at_phase; by rewrite Ht).
  split; [split_and!|].
  - split; [done|by rewrite Ht|by rewrite Ha].
  - intros _. by split.
  - intros Hnd. destruct (Hd Hnd) as [Has Hpe].
    split; [done|done|unfold quiet_queue; by rewrite Hx|unfold quiet_hands, hands_free; by rewrite Hx, Hp|].
    unfold quiet, hands_free. rewrite Hx, Hp. intros _ (? & ? & E). split_and!; [done..|]. set_solver.
  - intros Hne. destruct (He Hne). by split.
  - intros i Hni. by apply Hw.
  - destruct (inv_legal _ Hi) as (p & Ep & Hlp). split.
    + intros W. rewrite Hrd. by apply Hw'.
    + exists p. split; [by rewrite Hp|]. intros L. by apply Hleg, Hlp.
    + rewrite Hg. unfold hands_free. rewrite Hp. apply Hi.
    + rewrite Ht. intros ?. by apply Hta, (inv_seen _ Hi).
Qed.


Lemma pending_same s s' :
  wake s' = wake s -> reader_owes s' = reader_owes s -> streams_owe s' = streams_owe s -> inbox s' = inbox s ->
  ingressPending s' = ingressPending s -> obl s' = obl s -> (tainted s = true -> tainted s' = true) ->
  (fatal s = true -> fatal s' = true) -> pending s -> pending s'.
Proof.
  intros Hw Hr Hs Hx Hg Ho Ht Hf. apply pending_mono; [by rewrite Hw|by rewrite Hr|by rewrite Hs|].
  apply busy_mono; [by rewrite Hx|by rewrite Hg|by rewrite Ho|done|done].
Qed.
Ltac still := first [done | split; [done|]; apply pending_same; done].
Ltac others := apply other_section; simpl; try done; try (by intros; split); try (intros _; still); try by apply inv_gate.

(** *** The peer *)
Lemma peer_ok : triple inv Rel Guar Where Peer (fun _ => True) peer (fun _ _ => True).
Proof.
  apply role_act; [auto with serve|done|]. intros s x Hi _. destruct x as [| | | | | | | | | | | |f]; simpl; try (by split; [apply serve_section_kept_refl|]).
  split; [|by apply returns]. split; [split_and!|].
  - split; try done. simpl. lia.
  - intros _. by split.
  - intros _. split; try done; [|intros E; simpl in E; lia..]. intros _. right. right. right. left. simpl. by destruct (inbox s).
  - intros _. by split.
  - done.
  - destruct Hi as [G L I T]. by split.
Qed.

(** *** The heartbeat *)
Lemma plain_ask {A} r (L : session -> Prop) q (decode : answer -> option A) :
  stable inv Rel r L -> (forall s, Where r q s) -> triple inv Rel Guar Where r L (ask q decode) (fun _ => L).
Proof. intros. by apply role_ask. Qed.

Lemma maybe_ok {A} r (b : bool) (p : P A) (a : A) :
  triple inv Rel Guar Where r (fun _ => True) p (fun _ _ => True) ->
  triple inv Rel Guar Where r (fun _ => True) (if b then p else mret a) (fun _ _ => True).
Proof. destruct b; [done|]. intros _. by apply triple_ret. Qed.

Lemma beat_ok cfg : triple inv Rel Guar Where Beat (fun _ => True) (beat cfg) (fun _ _ => True).
Proof.
  unfold beat, heartbeat. eapply triple_bind; [by apply plain_ask|]. intros t.
  eapply triple_bind with (Mid := fun _ _ => True); [|intros hb; by apply triple_ret].
  eapply triple_bind with (Mid := fun _ _ => True); [apply maybe_ok; by apply plain_ask|intros c].
  eapply triple_bind with (Mid := fun _ _ => True); [apply maybe_ok; by apply role_look|intros rb].
  eapply triple_bind with (Mid := fun _ _ => True); [apply maybe_ok; by apply plain_ask|intros bd].
  eapply triple_bind with (Mid := fun _ _ => True); [apply maybe_ok; by apply plain_ask|intros pr].
  eapply triple_bind with (Mid := fun _ _ => True); [apply maybe_ok; by apply plain_ask|intros oc].
  eapply triple_bind with (Mid := fun _ _ => True).
  - apply triple_crit; [done|]. intros s Hi _. split; [done|].
    assert (kept Beat QRenew s (with_leases (Leases.RenewAll t (leases s)) s)) as [? ?]; [|by repeat (split; [done|])].
    others.
  - intros []. eapply triple_bind; [by apply (role_look _ _ _ _ (fun _ _ => True))|]. intros ls. by apply triple_ret.
Qed.

(** *** The stream engine *)
Definition engine_at (s : session) : Prop := streams_owe s = false.

Lemma engine_stable : stable inv Rel Engine engine_at.
Proof. intros s s' _ _ (_ & _ & _ & He & _) H. unfold engine_at. by rewrite (se_owe _ _ (He eq_refl)). Qed.

Lemma close_stream_ok i : triple inv Rel Guar Where Engine engine_at (close_stream i) (fun _ => engine_at).
Proof.
  unfold close_stream. eapply triple_bind with (Mid := fun _ _ => True).
  - apply triple_crit; [apply engine_stable|]. intros s Hi H. split; [by intros _|].
    assert (kept Engine (QEngineClose i) s (with_streams_owe true (with_closing (closing s ∖ {[i]})
      (with_leases (Leases.closeObligation i (leases s)) s)))) as [? ?]; [|by repeat (split; [done|])].
    others; [intros _; split; [done|]; intros _; right; right; by left|set_solver|].
    intros X HX x Hx. apply elem_of_difference in Hx as [Hx Hne]. apply HX in Hx. clear -Hx Hne. set_solver.
  - intros []. eapply triple_bind with (Mid := fun _ => engine_at); [|intros _; by apply triple_ret].
    apply triple_crit; [by intros ???|]. intros s Hi _. split; [by intros []|].
    assert (kept Engine QPoke s (with_streams_owe false (with_wake true s))) as [? ?]; [|by repeat (split; [done|])].
    others. intros _. split; [done|]. intros _. by left.
Qed.

Lemma engine_ok : triple inv Rel Guar Where Engine engine_at engine (fun _ => engine_at).
Proof.
  apply role_act; [apply engine_stable|by intros s _ H _|]. intros s x Hi H.
  destruct x as [| | | | | | | | | |i| |]; simpl; try (by split; [apply serve_section_kept_refl|]).
  - destruct (decide (i ∈ live s)) as [Hin|]; simpl; [|by split; [apply serve_section_kept_refl|]]. split.
    { others. intros X HX x Hx. apply HX in Hx. clear -Hx. destruct (decide (x = i)); set_solver. }
    exists engine_at. split; [done|]. apply close_stream_ok.
  - split; [|by apply returns]. others.
Qed.

(** *** The stream handlers *)
Definition out_of_gate (k : nat) (s : session) : Prop := writer s <> Some k.
Definition in_gate (k : nat) (s : session) : Prop := writer s = Some k.

Lemma out_stable k : stable inv Rel (Handler k) (out_of_gate k).
Proof. intros s s' _ _ (_ & _ & _ & _ & Hh) H E. apply H. by apply (Hh k eq_refl). Qed.
Lemma in_stable k : stable inv Rel (Handler k) (in_gate k).
Proof. intros s s' _ _ (_ & _ & _ & _ & Hh) H. by apply (Hh k eq_refl). Qed.

Notation triple_h k := (triple inv Rel Guar Where (Handler k)).

Lemma handler_upd k L q f (Post : unit -> session -> Prop) :
  stable inv Rel (Handler k) L ->
  (forall s, inv s -> L s -> kept (Handler k) q s (f s) /\ Post tt (f s)) -> triple_h k L (upd q f) Post.
Proof. intros Hst H. apply triple_crit; [done|]. intros s Hi HL. destruct (H s Hi HL) as [[? ?] ?]. by repeat (split; [done|]). Qed.

Lemma taint_store_ok cfg k : triple_h k (out_of_gate k) (recordStreamPanicTaint cfg k) (fun _ => out_of_gate k).
Proof.
  unfold recordStreamPanicTaint. destruct (continueAfterPanic cfg); [by apply triple_ret|].
  eapply triple_bind with (Mid := fun _ => in_gate k); [|intros []; eapply triple_bind with (Mid := fun _ => in_gate k)].
  - apply role_act; [apply out_stable|done|]. intros s x Hi H. destruct (writer s) eqn:W; simpl; [by split; [apply serve_section_kept_refl|]|].
    destruct (readers s =? 0) eqn:R; simpl; [|by split; [apply serve_section_kept_refl|]]. split; [|by apply returns].
    others; [|intros _; lia]. intros i Hi'. rewrite W. split; [done|]. intros [= ->]. done.
  - apply handler_upd; [apply in_stable|]. intros s Hi H. split; [|done]. unfold in_gate in H.
    assert (readers s = 0) by (apply Hi; by rewrite H). others.
  - intros []. apply handler_upd; [apply in_stable|]. intros s Hi H. split; [|done]. unfold in_gate in H.
    others. intros i Hi'. rewrite H. split; [intros [= ->]; done|done].
Qed.

Lemma plain_upd k q : triple_h k (out_of_gate k) (upd q id) (fun _ => out_of_gate k).
Proof. apply handler_upd; [apply out_stable|]. intros s Hi H. split; [by apply serve_section_kept_refl|done]. Qed.

Lemma outcome_ok cfg k i shape h : triple_h k (out_of_gate k) (handler_outcome cfg k i shape h) (fun _ => out_of_gate k).
Proof.
  destruct h as [m|e|t]; cbn [handler_outcome].
  - destruct shape; [|by apply triple_ret..].
    eapply triple_bind; [by apply plain_ask; [apply out_stable|]|]. intros []; [by apply triple_ret|apply plain_upd].
  - apply plain_upd.
  - eapply triple_bind; [apply taint_store_ok|]. intros []. eapply triple_bind; [apply plain_upd|]. intros [].
    unfold signalStreamTerminate. destruct (continueAfterPanic cfg); [by apply triple_ret|].
    apply handler_upd; [apply out_stable|]. intros s Hi H. split; [|done]. others.
Qed.

Lemma runHandler_ok cfg k : triple_h k (out_of_gate k) (runHandler cfg k) (fun _ => out_of_gate k).
Proof.
  unfold runHandler. eapply triple_bind with (Mid := fun _ => out_of_gate k).
  { apply role_act; [apply out_stable|done|]. intros s x Hi H.
    destruct (launches s) as [|job rest]; simpl; [by split; [apply serve_section_kept_refl|]|]. split; [others|by apply returns]. }
  intros job. eapply triple_bind; [by apply plain_ask; [apply out_stable|]|]. intros h.
  eapply triple_bind; [apply outcome_ok|]. intros []. eapply triple_bind with (Mid := fun _ => out_of_gate k); [|intros []; by apply triple_ret].
  apply handler_upd; [apply out_stable|]. intros s Hi H. split; [|done]. others.
Qed.

(** *** The drain *)

(** [Q] holds as long as no frame has come since the evaluation began. *)
Definition since (Q : session -> Prop) (s : session) : Prop :=
  (asked s <= arrivals s)%nat /\ (arrivals s = asked s -> Q s).

Lemma since_stable (Q : session -> Prop) :
  (forall s s', spares_drain s s' -> arrivals s' = arrivals s -> Q s -> Q s') -> stable inv Rel Drain (since Q).
Proof.
  intros HQ s s' _ _ (Hg & _ & Hd & _) [Ha H]. pose proof (grows_arrivals _ _ Hg). pose proof (Hd eq_refl) as D.
  pose proof (sd_asked _ _ D). split; [lia|]. intros E. apply (HQ s s' D); [lia|apply H; lia].
Qed.

Lemma pending_stable : stable inv Rel Drain pending.
Proof. intros s s' _ _ (_ & _ & Hd & _) H. by apply (sd_pending _ _ (Hd eq_refl)). Qed.

Lemma since_queue : stable inv Rel Drain (since quiet_queue).
Proof. apply since_stable. intros s s' D E H. by apply (sd_queue _ _ D). Qed.
Lemma since_hands : stable inv Rel Drain (since quiet_hands).
Proof. apply since_stable. intros s s' D E H. by apply (sd_hands _ _ D). Qed.
Lemma since_quiet : stable inv Rel Drain (since quiet).
Proof. apply since_stable. intros s s' D E H. by apply (sd_quiet _ _ D). Qed.

Notation triple_d := (triple inv Rel Guar Where Drain).

Lemma count_zero s : Leases.OpenObligationCount (leases s) = 0 -> obl s = ∅.
Proof. unfold Leases.OpenObligationCount. intros H. apply leibniz_equiv, size_empty_inv. lia. Qed.
Lemma count_nonzero s : Leases.OpenObligationCount (leases s) <> 0 -> obl s <> ∅.
Proof. unfold Leases.OpenObligationCount. intros H E. apply H. by rewrite E, size_empty. Qed.

(** The outcome of one evaluation. *)
Definition evaluated (b : bool) (s : session) : Prop := if b then since quiet s else pending s.

Lemma look_or_pending {A} (L M : session -> Prop) q (f : session -> A) (bad : A -> bool) k :
  stable inv Rel Drain L -> q <> QDrainWait ->
  (forall s, inv s -> L s -> if bad (f s) then pending s else M s) ->
  (forall a, bad a = false -> triple_d M (k a) evaluated) ->
  triple_d L (a ← look q f; if bad a then mret false else k a) evaluated.
Proof.
  intros Hst Hq H Hk. eapply triple_bind with (Mid := fun a s => if bad a then pending s else M s).
  - apply role_look; [done|]. intros s Hi HL. split; [by intros ?|]. by apply H.
  - intros a. destruct (bad a) eqn:E; [by apply triple_ret|]. by apply Hk.
Qed.

Lemma quiescedOnce_ok cfg :
  prober (caps cfg) = true -> triple_d (fun _ => True) (quiescedOnce cfg) evaluated.
Proof.
  intros Hpr. assert (Hread : forall s, if inboundReadable (caps cfg) s then pending s else inbox s = []).
  { intros s. unfold inboundReadable. rewrite Hpr. destruct (inbox s) eqn:E; simpl; [done|].
    right. right. right. left. by rewrite E. }
  unfold quiescedOnce. eapply triple_bind with (Mid := fun (a : bool) s => if a then pending s else since quiet_queue s).
  { apply triple_crit; [done|]. intros s Hi _. split; [by intros ?|]. cbn [fst snd].
    assert (kept Drain QDrainReadable s (with_asked (arrivals s) s)) as [? ?] by others.
    repeat (split; [done|]). pose proof (Hread s) as E. by destruct (inboundReadable (caps cfg) s). }
  intros []; [by apply triple_ret|].
  eapply (look_or_pending _ (since quiet_hands) _ _ (fun b => negb (b =? 0))); [apply since_queue|done| |].
  { intros s Hi [Ha H]. destruct (ingressPending s =? 0) eqn:E; simpl.
    - split; [done|]. intros Q. split; [by apply H|]. apply Hi. lia.
    - right. right. right. right. left. lia. }
  intros b _. eapply (look_or_pending _ (since quiet) _ _ (fun b => negb (b =? 0))); [apply since_hands|done| |].
  { intros s Hi [Ha H]. destruct (_ =? 0) eqn:E; simpl.
    - split; [done|]. intros Q. destruct (H Q). split_and!; [done..|]. apply count_zero. lia.
    - right. right. right. right. right. left. apply count_nonzero. lia. }
  intros c _. eapply triple_bind with (Mid := fun (clear : bool) s => if negb clear then pending s else since quiet s).
  { unfold taintClear. eapply triple_bind with (Mid := fun (t : bool) s => if t then pending s else since quiet s).
    - apply role_look; [apply since_quiet|]. intros s _ H. split; [by intros ?|]. destruct (tainted s) eqn:T; [|done].
      right. right. right. right. right. right. by left.
    - intros []; [by apply triple_ret|]. destruct (streaming cfg); [|by apply triple_ret].
      apply role_look; [apply since_quiet|]. intros s _ H. split; [by intros ?|]. destruct (fatal s) eqn:T; [|done].
      repeat right. done. }
  intros []; simpl negb; cbn iota; [|by apply triple_ret].
  eapply (look_or_pending _ (since quiet) _ _ id); [apply since_quiet|done| |].
  { intros s _ H. unfold id. pose proof (Hread s) as E. by destruct (inboundReadable (caps cfg) s). }
  intros d _. eapply triple_bind with (Mid := fun e s => evaluated (e =? 0) s); [|intros e; by apply triple_ret].
  apply role_look; [apply since_quiet|]. intros s _ H. split; [by intros ?|]. destruct (_ =? 0) eqn:E; [done|].
  right. right. right. right. left. lia.
Qed.

(** What a drain leaves behind. *)
Definition drained (a : result) (s : session) : Prop :=
  match a with RDrained None => since quiet s | _ => True end.

Lemma waitQuiescent_ok cfg : prober (caps cfg) = true -> triple_d (fun _ => True) (waitQuiescent cfg) drained.
Proof.
  intros Hpr. eapply triple_bind; [by apply quiescedOnce_ok|]. intros []; [by apply triple_ret|].
  apply role_act; [apply pending_stable|by intros s _ H _|]. intros s x Hi H.
  assert (Hw : kept Drain QDrainWait s (with_wake false s)) by others.
  destruct x as [| | | |[e|]| | | | | | | |]; simpl; try (destruct (wake s); simpl; [by split; [|by apply returns]|by split; [apply serve_section_kept_refl|]]).
  split; [by apply serve_section_kept_refl|]. by apply returns.
Qed.

(** ** Every schedule *)

Definition Post (r : role) (a : result) (s : session) : Prop :=
  match r with
  | Reader => exists v, a = RTurn v /\ turn_post v s
  | Drain => drained a s
  | Engine => engine_at s
  | Handler k => out_of_gate k s
  | _ => True
  end.

Lemma Post_stable r a : stable inv Rel r (Post r a).
Proof.
  destruct r as [| | | | |k]; simpl; try apply stable_const.
  - apply stable_exists. intros v. apply turn_post_stable.
  - destruct a as [| |[e|]| |]; simpl; try apply stable_const. apply since_quiet.
  - apply engine_stable.
  - apply out_stable.
Qed.

Lemma fresh_inv : inv fresh.
Proof.
  split; [done| |by left|by intros ?%elem_of_nil]. exists Idle. split; [done|]. intros _. simpl. set_solver.
Qed.

Notation ok := (pool_ok inv Rel Guar Where role_of Post).

Lemma Compatible i j q s s' :
  i <> j -> inv s -> inv s' -> Guar (role_of i) q s s' -> Rel (role_of j) s s'.
Proof. intros Hij _ _ H. exact (serve_Guar_Rel _ _ _ _ _ Hij H). Qed.

Section schedules.
Context (cfg : server).
Hypothesis Hres : reserving (caps cfg) = true.
Hypothesis Hprobe : prober (caps cfg) = true.

Lemma reader_turn :
  triple inv Rel Guar Where Reader (rd Idle HFree None) (RTurn <$> serve_turn cfg) (Post Reader).
Proof using Hres.
  eapply (triple_bind inv Rel Guar Where Reader (serve_turn cfg)); [by apply serve_turn_ok|].
  intros v. apply triple_ret. intros s _ H. by exists v.
Qed.

Lemma serving_ok n : ok (serving cfg n).
Proof using Hres Hprobe.
  split; [apply fresh_inv|]. cbn [fst snd serving]. intros i g Hg.
  apply lookup_app_Some in Hg as [Hg|[Hge Hg]].
  - destruct i as [|[|[|[|[|i]]]]]; simplify_eq/=.
    + eapply (keeps_start _ _ _ _ _ Post_stable Reader) with (P := rd Idle HFree None); [|apply reader_turn|apply fresh_inv|by split].
      intros a p Hp. destruct a as [[v|]| | | |]; simplify_eq/=.
      intros s Hi (v & [= <-] & q & ->%concludes_idle & H). by apply reader_turn.
    + eapply (keeps_start _ _ _ _ _ Post_stable Drain) with (P := fun _ => True); [|by apply waitQuiescent_ok|apply fresh_inv|done].
      intros a p Hp. destruct a; simplify_eq/=. intros s Hi _. by apply waitQuiescent_ok.
    + eapply (keeps_start _ _ _ _ _ Post_stable Engine) with (P := engine_at); [|apply engine_ok|apply fresh_inv|done].
      intros a p [= <-]. apply engine_ok.
    + eapply (keeps_start _ _ _ _ _ Post_stable Beat) with (P := fun _ => True); [|apply beat_ok|apply fresh_inv|done].
      intros a p [= <-]. apply beat_ok.
    + eapply (keeps_start _ _ _ _ _ Post_stable Peer) with (P := fun _ => True); [|apply peer_ok|apply fresh_inv|done].
      intros a p [= <-]. apply peer_ok.
  - simpl in Hge, Hg. apply list_lookup_fmap_Some in Hg as (k & -> & Hk). apply lookup_seq in Hk as [-> _].
    replace (5 + (i - 5))%nat with i by lia.
    assert (role_of i = Handler i) as -> by (do 5 (destruct i as [|i]; [lia|]); done).
    eapply (keeps_start _ _ _ _ _ Post_stable (Handler i)) with (P := out_of_gate i); [|apply runHandler_ok|apply fresh_inv|done].
    intros a p [= <-]. apply runHandler_ok.
Qed.

Lemma reached_ok n ms : ok (prun ms (serving cfg n)).
Proof using Hres Hprobe. apply (pool_ok_run _ _ _ _ _ _ Compatible Post_stable), serving_ok. Qed.

Lemma at_ok n ms i g q :
  fst (prun ms (serving cfg n)) !! i = Some g -> at_query g = Some q -> Where (role_of i) q (snd (prun ms (serving cfg n))).
Proof using Hres Hprobe. intros. eapply pool_ok_at; [apply reached_ok|done|done]. Qed.

Lemma done_ok n ms i g a :
  fst (prun ms (serving cfg n)) !! i = Some g -> now g = Done a -> Post (role_of i) a (snd (prun ms (serving cfg n))).
Proof using Hres Hprobe. intros. eapply pool_ok_done; [apply reached_ok|done|done]. Qed.

Lemma reached_owed n ms p :
  at_phase (snd (prun ms (serving cfg n))) = Some p ->
  requests (trace (snd (prun ms (serving cfg n)))) = settlements (trace (snd (prun ms (serving cfg n)))) ++ waiting p.
Proof using. intros Hp. by apply (legal_trace_accounts _ Idle p) in Hp. Qed.

Lemma reached_blamed n ms p :
  at_phase (snd (prun ms (serving cfg n))) = Some p ->
  match p with
  | Lost (Unsent i) => refused_reply i (trace (snd (prun ms (serving cfg n))))
  | Lost (Fenced _) => tainted (snd (prun ms (serving cfg n))) = true
  | _ => True
  end.
Proof using Hres Hprobe.
  intros Hp. pose proof (legal_trace_blamed _ _ Hp) as H. destruct p as [| | | | | | | | | |[i|i]]; try done.
  destruct (reached_ok n ms) as [Hi _]. by apply (inv_seen _ Hi).
Qed.
End schedules.

(** C10: Under every schedule of a session's goroutines the reader's trace is one the protocol [next] allows: a unary
    request taken from the transport, or discarded by it, has its response obligation opened, is answered by exactly
    one reply the transport accepted (for its own call id, of a reply kind) or found out of budget, has its obligation
    closed, and only then is its reservation given back.  Requests and what settles them run in step, in order, at
    every moment: at most the last request taken is unsettled.  Between turns all are settled; while a handler runs,
    its request is the one unsettled and its reservation is up; a turn that ends gives back both the reservation and
    the admission.  A request is abandoned only as the last of a loop that ends, and only because the transport
    refused a reply to it or the session is tainted and the loop reports the handler panic. *)
Theorem serve_requests_accounted cfg n ms :
  reserving (caps cfg) = true -> prober (caps cfg) = true ->
  let c := prun ms (serving cfg n) in let s := snd c in
  (exists p, follow Idle (trace s) = Some p /\ requests (trace s) = settlements (trace s) ++ waiting p /\
     match p with
     | Lost (Unsent i) => refused_reply i (trace s)
     | Lost (Fenced _) => tainted s = true
     | _ => True
     end) /\
  forall g, fst c !! 0%nat = Some g ->
    (at_query g = Some QReady ->
       requests (trace s) = settlements (trace s) /\ ingressPending s = 0 /\ obl s ⊆ live s ∪ closing s) /\
    (forall i, at_query g = Some (QHandler i) ->
       requests (trace s) = settlements (trace s) ++ [i] /\ ingressPending s = 1) /\
    (forall v, now g = Done (RTurn v) ->
       ingressPending s = 0 /\ readers s = 0 /\
       (requests (trace s) = settlements (trace s) \/
        exists i, requests (trace s) = settlements (trace s) ++ [i] /\
          (v <> None /\ refused_reply i (trace s) \/
           v = Some (Some errServeLoopHandlerPanicked) /\ tainted s = true))).
Proof.
  intros Hr Hp c s. pose proof (reached_ok cfg Hr Hp n ms) as [Hi _].
  destruct (inv_legal _ Hi) as (p & E & _). split.
  { exists p. split_and!; [done|by apply (reached_owed cfg n ms)|by apply (reached_blamed cfg Hr Hp n ms)]. }
  intros g Hg. split_and!.
  - intros Hq. destruct (at_ok cfg Hr Hp n ms 0 g _ Hg Hq) as [_ (_ & ? & Ep)].
    pose proof (reached_owed cfg n ms Idle Ep) as Hs. simpl in Hs. rewrite app_nil_r in Hs.
    split_and!; [done|done|]. pose proof (inv_owed s Idle Hi Ep ltac:(by intros [])) as Hob. simpl in Hob. clear -Hob. set_solver.
  - intros i Hq. destruct (at_ok cfg Hr Hp n ms 0 g _ Hg Hq) as [_ (_ & ? & Ep)].
    split; [exact (reached_owed cfg n ms (Running i) Ep)|done].
  - intros v Hd. destruct (done_ok cfg Hr Hp n ms 0 g _ Hg Hd) as (v' & [= <-] & q & Hq & [Ep ? ? ?]).
    split_and!; [done|done|]. pose proof (reached_owed cfg n ms q Ep) as Hs. pose proof (reached_blamed cfg Hr Hp n ms q Ep) as Hb.
    destruct q as [| | | | | | | | | |[i|i]]; try done; simpl in Hs; [left; by rewrite app_nil_r in Hs|right; exists i; auto..].
Qed.

(** C11: Once a handler's panic has tainted the session no further unary handler is entered and no further stream
    handler is launched, whatever the goroutines do next; the taint store of a stream handler and an admission never
    overlap, the reader enters or launches a handler only while it holds the admission gate of an untainted session,
    and it holds that gate neither while a handler runs, nor during a send, nor while it waits for the transport. *)
Theorem panic_fence cfg n ms ms' :
  reserving (caps cfg) = true -> prober (caps cfg) = true ->
  let c := prun ms (serving cfg n) in let s := snd c in
  (tainted s = true ->
     tainted (snd (prun ms' c)) = true /\ entries (trace (snd (prun ms' c))) = entries (trace s)) /\
  (writer s <> None -> readers s = 0) /\
  forall g q, fst c !! 0%nat = Some g -> at_query g = Some q ->
    match q with
    | QReady | QRead | QHandler _ | QSend _ | QFill _ _ => readers s = 0
    | QEnter _ | QLaunch _ => readers s = 1 /\ tainted s = false /\ writer s = None
    | _ => True
    end.
Proof.
  intros Hr Hp c s. pose proof (reached_ok cfg Hr Hp n ms) as Hok. pose proof Hok as [Hi _]. split_and!.
  - intros Ht. assert (T : tainted s = true -> tainted (snd (prun ms' c)) = true /\
      entries (trace (snd (prun ms' c))) = entries (trace s)); [|by apply T].
    apply (pool_ok_rel inv Rel Guar Where role_of Post Compatible Post_stable (fun s s' => tainted s = true ->
      tainted s' = true /\ entries (trace s') = entries (trace s))); [by intros|..|done].
    + intros a b d H1 H2 Ha. destruct (H1 Ha) as [Hb E1]. destruct (H2 Hb) as [Hd E2]. split; [done|congruence].
    + intros r q a b _ _ _ [Hg _] Ha. split; [by apply Hg|by apply Hg].
  - apply Hi.
  - intros g q Hg Hq. pose proof (at_ok cfg Hr Hp n ms 0 g q Hg Hq) as [_ H].
    destruct q; try done; destruct H as [? ?]; try done; split_and!; try done; by apply gate_writer.
Qed.

(** C21: When a drain reports quiescence and no frame has arrived since the evaluation that said so began, the session is
    quiescent and stays so until one does: no frame is queued, none is in the reader's hands, no response is owed. *)
Theorem drain_quiescence_sound cfg n ms g :
  reserving (caps cfg) = true -> prober (caps cfg) = true ->
  let c := prun ms (serving cfg n) in let s := snd c in
  fst c !! 1%nat = Some g -> now g = Done (RDrained None) ->
  (asked s <= arrivals s)%nat /\
  (arrivals s = asked s -> inbox s = [] /\ (at_phase s = Some Idle \/ exists w, at_phase s = Some (Lost w)) /\ Leases.OpenObligationCount (leases s) = 0).
Proof.
  intros Hr Hp c s Hg Hd. destruct (done_ok cfg Hr Hp n ms 1 g _ Hg Hd) as [Ha H]. split; [done|].
  intros E. destruct (H E) as (? & ? & O). split_and!; [done..|]. change (obl s = ∅) in O. unfold Leases.OpenObligationCount. by rewrite O, size_empty.
Qed.

(** What keeps a session from being quiescent: a queued frame, a stream open
    or being closed, a taint, a failure. *)
Definition unquiet (s : session) : Prop :=
  inbox s <> [] \/ live s ∪ closing s <> ∅ \/ tainted s = true \/ fatal s = true.

(** C22: No wakeup of a parked drain is lost: when the drain is parked with no poke buffered, the reader is back at its
    readiness wait and the stream engine is not about to poke, something still keeps the session from being
    quiescent: a frame is queued, a stream is still open or being closed, or the session is tainted or failed. *)
Theorem drain_no_lost_wakeup cfg n ms g d e :
  reserving (caps cfg) = true -> prober (caps cfg) = true ->
  let c := prun ms (serving cfg n) in let s := snd c in
  fst c !! 0%nat = Some g -> at_query g = Some QReady ->
  fst c !! 1%nat = Some d -> at_query d = Some QDrainWait ->
  fst c !! 2%nat = Some e -> at_query e <> Some QPoke ->
  wake s = false ->
  unquiet s.
Proof.
  intros Hr Hp c s Hg Hq Hd Hdq He Heq Hw.
  pose proof (at_ok cfg Hr Hp n ms 0 g _ Hg Hq) as [Hro (_ & Hin & Ep)].
  pose proof (at_ok cfg Hr Hp n ms 1 d _ Hd Hdq eq_refl) as Hpe.
  assert (Hso : streams_owe s = false).
  { destruct (now e) as [a|q f] eqn:En.
    - exact (done_ok cfg Hr Hp n ms 2 e a He En).
    - assert (Eq : at_query e = Some q) by (unfold at_query; by rewrite En).
      apply (at_ok cfg Hr Hp n ms 2 e q He Eq). intros ->. by apply Heq. }
  specialize (Hro ltac:(done)). change (pending s) in Hpe.
  change (reader_owes s = false) in Hro. change (ingressPending s = 0) in Hin.
  destruct Hpe as [E|[E|[E|[E|[E|[Ho|[E|E]]]]]]]; [congruence..|by left|congruence| |right; right; by left|by repeat right].
  right. left. intros E. apply Ho. destruct (reached_ok cfg Hr Hp n ms) as [Hi _].
  pose proof (inv_owed s Idle Hi Ep ltac:(by intros [])) as Hob. simpl in Hob. clear -Hob E. set_solver.
Qed.

(** ** What crosses the wire *)

(** An application cannot impersonate a reply of the framework: of the reserved codes only the internal one comes out
    of a handler's error. *)
Theorem handler_status_not_reserved e :
  let code := Code (statusFromHandlerErr e) in
  code < Table.StatusCodeReservedMin \/ code = Table.StatusCodeInternal.
Proof.
  destruct e as [code msg details|t]; cbn [statusFromHandlerErr Code]; [|by left].
  destruct (marshal_details details); [|by left]. cbn [Code]. destruct (Table.StatusCodeReservedMin <=? code) eqn:E; [by right|left; lia].
Qed.

Lemma rune_cut_le detail n : (rune_cut detail n <= n)%nat.
Proof. induction n as [|n IH]; simpl; [done|]. destruct (RuneStart _); lia. Qed.

Lemma rune_cut_start detail n : (0 < rune_cut detail n)%nat -> RuneStart (nth (rune_cut detail n) detail 0) = true.
Proof.
  induction n as [|n IH]; [simpl; lia|]. cbn [rune_cut]. destruct (RuneStart (nth (S n) detail 0)) eqn:E; [by intros _|exact IH].
Qed.

(** The text of a decode fault is bounded, and a cut one is cut where a rune starts. *)
Theorem decode_fault_bounded detail :
  (length (decodeFaultText detail) <= maxDecodeFaultBytes + 15)%nat /\
  (decodeFaultText detail <> detail ->
   exists n, (n <= maxDecodeFaultBytes)%nat /\ decodeFaultText detail = take n detail ++ bytes_of "... (truncated)" /\
     ((0 < n)%nat -> RuneStart (nth n detail 0) = true)).
Proof.
  unfold decodeFaultText. destruct (decide _) as [H|H]; [split; [unfold maxDecodeFaultBytes in *; lia|by intros []]|].
  pose proof (rune_cut_le detail maxDecodeFaultBytes) as Hc. split.
  - rewrite length_app, length_take. change (length (bytes_of _)) with 15%nat. lia.
  - intros _. exists (rune_cut detail maxDecodeFaultBytes). split_and!; [done|done|apply rune_cut_start].
Qed.

(** ** Sample sessions *)

Definition wit_codec : codec :=
  mkCodec (fun _ p => Decoded (zlen p)) (fun m => inl [m]) (fun _ => Some 4) true (fun t => t) (fun _ => []).
Definition wit_cfg : server :=
  mkServer {[ 1 := newServiceHandler [65] [mkMethod 2 [66] true] ]} {[ (1, 3) := Streams.BidiStreaming ]} true false
    wit_codec (mkCaps true true true true true true true).
Definition wit_request : Frame := mkFrame 7 FrameUnaryReq 1 2 0 [9; 9] None 0.
Definition wit_open : Frame := mkFrame 9 FrameStreamOpen 1 3 1000 [] None 4.

Definition by_reader (l : list answer) : list (nat * answer) := (fun x => (0%nat, x)) <$> l.
Definition by_drain (k : nat) : list (nat * answer) := replicate k (1%nat, ANone).

(** A frame is taken; a request is entered; a stream is launched. *)
Definition wit_take : list (nat * answer) := by_reader [ANone; ANone; ACommit; ACommit].
Definition wit_entered : list (nat * answer) :=
  (4%nat, APush wit_request) :: wit_take ++ by_reader [ANone; ATime 5; ANone; ANone; ANone; ANone; ANone; ANone; ANone].
Definition wit_launch : list (nat * answer) :=
  wit_take ++ by_reader [ANone; ANone; ANone; ANone; AErr None; ABool true; ATime 5; ANone; ANone; ANone; ANone].

(** The launched handler panics and its goroutine stores the taint. *)
Definition wit_tainted : list (nat * answer) :=
  (4%nat, APush wit_open) :: wit_launch ++ [(5%nat, ANone); (5%nat, AHandled (HPanics [1])); (5%nat, ANone); (5%nat, ANone)].
(** A request comes after it. *)
Definition wit_fenced : list (nat * answer) :=
  (5%nat, ANone) :: (4%nat, ANone) :: (4%nat, APush wit_request) :: by_reader [ANone; ANone; ANone; ACommit; ACommit; ANone; ANone; ANone].

Definition goroutine_at (ms : list (nat * answer)) (i : nat) : option query :=
  fst (prun ms (serving wit_cfg 1)) !! i ≫= at_query.
Definition goroutine_done (ms : list (nat * answer)) (i : nat) : option result :=
  fst (prun ms (serving wit_cfg 1)) !! i ≫= fun g => match now g with Done r => Some r | Act _ _ => None end.

Lemma goroutine_at_go ms i q : goroutine_at ms i = Some q ->
  exists g, fst (prun ms (serving wit_cfg 1)) !! i = Some g /\ at_query g = Some q.
Proof. unfold goroutine_at. destruct (fst _ !! i); simpl; [eauto|done]. Qed.
Lemma goroutine_done_go ms i r : goroutine_done ms i = Some r ->
  exists g, fst (prun ms (serving wit_cfg 1)) !! i = Some g /\ now g = Done r.
Proof. unfold goroutine_done. destruct (fst _ !! i) as [g|]; simpl; [|done]. destruct (now g) eqn:E; intros [= ->]. eauto. Qed.

Lemma serve_requests_accounted_witness :
  let s := snd (prun wit_entered (serving wit_cfg 1)) in
  requests (trace s) = settlements (trace s) ++ [7] /\ ingressPending s = 1.
Proof.
  destruct (goroutine_at_go wit_entered 0 (QHandler 7)) as (g & Hg & Hq); [by vm_compute|].
  exact (proj1 (proj2 (proj2 (serve_requests_accounted wit_cfg 1 wit_entered eq_refl eq_refl) g Hg)) 7 Hq).
Defined.

Lemma wit_is_tainted : tainted (snd (prun wit_tainted (serving wit_cfg 1))) = true.
Proof. by vm_compute. Qed.
Lemma wit_refuses : goroutine_done (wit_tainted ++ wit_fenced) 0 = Some (RTurn (Some (Some errServeLoopHandlerPanicked))).
Proof. by vm_compute. Qed.

Lemma panic_fence_witness :
  let c := prun wit_tainted (serving wit_cfg 1) in
  tainted (snd c) = true /\ entries (trace (snd (prun wit_fenced c))) = entries (trace (snd c)).
Proof.
  split; [exact wit_is_tainted|].
  exact (proj2 (proj1 (panic_fence wit_cfg 1 wit_tainted wit_fenced eq_refl eq_refl) wit_is_tainted)).
Defined.

Lemma wit_no_arrival :
  arrivals (snd (prun (by_drain 7) (serving wit_cfg 1))) = asked (snd (prun (by_drain 7) (serving wit_cfg 1))).
Proof. by vm_compute. Qed.

Lemma drain_quiescence_sound_witness :
  let s := snd (prun (by_drain 7) (serving wit_cfg 1)) in
  goroutine_done (by_drain 7) 1 = Some (RDrained None) /\ Leases.OpenObligationCount (leases s) = 0.
Proof.
  split; [by vm_compute|]. destruct (goroutine_done_go (by_drain 7) 1 (RDrained None)) as (g & Hg & Hd); [by vm_compute|].
  exact (proj2 (proj2 (proj2 (drain_quiescence_sound wit_cfg 1 (by_drain 7) g eq_refl eq_refl Hg Hd) wit_no_arrival))).
Defined.

(** The drain parks on a queued frame while the reader is at its wait. *)
Definition wit_parked : list (nat * answer) := (4%nat, APush wit_request) :: by_drain 1 ++ by_reader [ANone; ANone].

Lemma wit_no_poke : wake (snd (prun wit_parked (serving wit_cfg 1))) = false.
Proof. by vm_compute. Qed.

Lemma drain_no_lost_wakeup_witness :
  let s := snd (prun wit_parked (serving wit_cfg 1)) in
  unquiet s.
Proof.
  destruct (goroutine_at_go wit_parked 0 QReady) as (g & Hg & Hq); [by vm_compute|].
  destruct (goroutine_at_go wit_parked 1 QDrainWait) as (d & Hd & Hdq); [by vm_compute|].
  destruct (goroutine_at_go wit_parked 2 QEngine) as (e & He & Heq); [by vm_compute|].
  refine (drain_no_lost_wakeup wit_cfg 1 wit_parked g d e eq_refl eq_refl Hg Hq Hd Hdq He _ wit_no_poke).
  rewrite Heq. discriminate.
Defined.

(** ** Two behaviours to know

    A stream opened after the drain read the obligations and disposed of before
    its last two reads is missed by them: the frame was readable before the
    obligations were read, the re-check finds queue and reservations empty, and
    the drain reports quiescence over a stream that is open and owed.  Only a
    peer that sends nothing during a drain excludes it. *)
Theorem drain_recheck_window :
  let ms := by_drain 2 ++ [(4%nat, APush wit_open)] ++ by_drain 3 ++ wit_launch ++ by_drain 2 in
  let s := snd (prun ms (serving wit_cfg 1)) in
  goroutine_done ms 1 = Some (RDrained None) /\ Leases.OpenObligationCount (leases s) = 1 /\ 9 ∈ live s.
Proof. vm_compute. split_and!; [done|done|]. by apply (bool_decide_unpack _). Qed.

(** A response the transport refuses for its size ends the serve loop as if
    the peer had closed: no status goes back to the caller, the obligation
    stays open, and the loop reports a clean end. *)
Theorem oversize_reply_stops_serving :
  let ms := wit_entered ++ by_reader [AHandled (HReturns 3); ANone; ANone; ANone; AErr (Some [ErrPayloadTooLarge]);
                                      ANone; ANone; ANone] in
  let s := snd (prun ms (serving wit_cfg 1)) in
  goroutine_done ms 0 = Some (RTurn (Some None)) /\ Leases.OpenObligationCount (leases s) = 1 /\ settlements (trace s) = [].
Proof. by vm_compute. Qed.

End ServeSafety.
