(* ===== verification/Health.v ===== *)
(** * Heartbeats and wedge detection
    (src/internal/supervisor/health.go; MinHeartbeatSpacing of
    src/internal/supervisor/supervisor.go; the heartbeat sender of
    src/pluginserver.go; src/supervisor/policy.go)

    The plugin builds numbered heartbeats no closer together than a minimum
    spacing; the host classifies pairs of them and declares a wedge when one
    kind of stall has lasted a window, counted in sequence numbers.  Durations
    and times are nanoseconds in [Z]; sequence numbers are 64-bit words. *)

From S2P Require Import Prelude LeaseTable.

Module Health.

(** ** Classification *)

Inductive HealthClass := HealthOK | HealthWedged | HealthOverloaded | HealthDraining.
Inductive WedgeKind := WedgeNone | WedgeTransport | WedgeDispatch.

#[global] Instance HealthClass_eq_dec : EqDecision HealthClass.
Proof. solve_decision. Defined.
#[global] Instance WedgeKind_eq_dec : EqDecision WedgeKind.
Proof. solve_decision. Defined.

Record HeartbeatSample := mkSample {
  Sequence : Z;
  DescriptorsConsumedH2P : Z;
  DescriptorsProducedP2H : Z;
  InflightCount : Z;
  ArenaOccupancyBytes : Z;
  SLeases : list Leases.Lease;
  InboundReadable : bool;
  BoundedReadActive : bool
}.

Definition Classify (prev cur : HeartbeatSample) (highWaterBytes : Z) : HealthClass * WedgeKind :=
  let consumeStalled := DescriptorsConsumedH2P cur =? DescriptorsConsumedH2P prev in
  let produceStalled := DescriptorsProducedP2H cur =? DescriptorsProducedP2H prev in
  let transportWedged := consumeStalled && InboundReadable cur && negb (BoundedReadActive cur) in
  let dispatchWedged := produceStalled && (0 <? InflightCount cur) in
  if transportWedged then (HealthWedged, WedgeTransport)
  else if dispatchWedged then (HealthWedged, WedgeDispatch)
  else
    let countersAdvancing := negb consumeStalled || negb produceStalled in
    if countersAdvancing && (highWaterBytes <=? ArenaOccupancyBytes cur) then (HealthOverloaded, WedgeNone)
    else (HealthOK, WedgeNone).

(** ** Spacing *)

Definition heartbeatSpacingToleranceDivisor : Z := 8.

Definition MinHeartbeatSpacing (cadence : Z) : Z := cadence - Z.quot cadence heartbeatSpacingToleranceDivisor.

(** The sender's closure: [seq], [lastBuilt], [haveBuilt]. *)
Record sender := mkSender { seq : Z; lastBuilt : Z; haveBuilt : bool }.

Definition new_sender : sender := mkSender 0 0 false.

(** [h.send] at time [now]: the sequence number of the heartbeat built, unless
    the tick comes too soon. *)
Definition send (minSpacing now : Z) (b : sender) : sender * option Z :=
  if haveBuilt b && (now - lastBuilt b <? minSpacing) then (b, None)
  else let n := (seq b +₆₄ 1)%word in (mkSender n now true, Some n).

(** [heartbeatSender.run] and [awaitResume]: what the goroutine receives. *)
Inductive wakeup := Tick (now : Z) | PauseReq | ResumeReq | StopReq | CtxDone.
Inductive sending := Sending | Paused | Ended.

#[global] Instance sending_eq_dec : EqDecision sending.
Proof. solve_decision. Defined.

(** A pause is acknowledged by the sending goroutine itself; while it awaits
    the resume no tick is taken. *)
Definition run_step (minSpacing : Z) (w : wakeup) (st : sending * sender) : (sending * sender) * option (Z * Z) :=
  match fst st, w with
  | Sending, Tick now =>
      let (b, n) := send minSpacing now (snd st) in
      ((Sending, b), match n with Some n => Some (n, now) | None => None end)
  | Sending, PauseReq => ((Paused, snd st), None)
  | Sending, (StopReq | CtxDone) => ((Ended, snd st), None)
  | Paused, ResumeReq => ((Sending, snd st), None)
  | Paused, (StopReq | CtxDone) => ((Ended, snd st), None)
  | _, _ => (st, None)
  end.

(** The first send of [run], then the wakeups; the heartbeats built, with
    their times. *)
Fixpoint run_sender (minSpacing : Z) (ws : list wakeup) (st : sending * sender) : list (Z * Z) :=
  match ws with
  | [] => []
  | w :: ws =>
      let (st', out) := run_step minSpacing w st in
      match out with Some b => [b] | None => [] end ++ run_sender minSpacing ws st'
  end.

Definition sender_run (minSpacing start : Z) (ws : list wakeup) : list (Z * Z) :=
  run_sender minSpacing (Tick start :: ws) (Sending, new_sender).

(** ** The wedge tracker *)

Record wedgeTracker := mkTracker {
  windowBeats : Z; kind : WedgeKind; anchorSeq : Z; lastSeq : Z; haveSeq : bool; fired : bool
}.

(** [ceil(window / minSpacing)], zero when either is not positive. *)
Definition newWedgeTracker (window senderCadence : Z) : wedgeTracker :=
  let minSpacing := MinHeartbeatSpacing senderCadence in
  let beats :=
    if (0 <? window) && (0 <? minSpacing) then
      let ceil := if negb (Z.rem window minSpacing =? 0) then Z.quot window minSpacing + 1 else Z.quot window minSpacing in
      if 0 <? ceil then u64 ceil else 0
    else 0 in
  mkTracker beats WedgeNone 0 0 false false.

Definition clear (w : wedgeTracker) : wedgeTracker := mkTracker (windowBeats w) WedgeNone 0 0 false false.

Definition observe (class : HealthClass) (k : WedgeKind) (sequence : Z) (w : wedgeTracker) :
    wedgeTracker * (WedgeKind * bool) :=
  let w := if haveSeq w && negb (sequence =? (lastSeq w +₆₄ 1)%word) then clear w else w in
  let w := mkTracker (windowBeats w) (kind w) (anchorSeq w) sequence true (fired w) in
  if decide (class <> HealthWedged) then (clear w, (WedgeNone, false))
  else if decide (kind w <> k) then
    (mkTracker (windowBeats w) k sequence (lastSeq w) (haveSeq w) false, (WedgeNone, false))
  else if fired w then (w, (WedgeNone, false))
  else if (0 <? windowBeats w) && (windowBeats w <=? (sequence -₆₄ anchorSeq w)%word) then
    (mkTracker (windowBeats w) (kind w) (anchorSeq w) (lastSeq w) (haveSeq w) true, (k, true))
  else (w, (WedgeNone, false)).

(** ** Restart backoff *)

(** [base*2^attempt] in 64-bit arithmetic when [attempt < 63], the cap
    otherwise; the jitter is up to a fifth of it. *)
Definition backoff_delay (base maxDelay attempt : Z) : Z :=
  if attempt <? 63 then
    let scaled := i64 (base * i64 (Z.shiftl 1 attempt)) in
    if (0 <? scaled) && (scaled <=? maxDelay) then scaled else maxDelay
  else maxDelay.

Definition ExpBackoff (base maxDelay : Z) (jitter : Z -> Z) (attempt : Z) : Z :=
  let d := backoff_delay base maxDelay attempt in d + jitter d.

(** ** The sender's spacing *)

(** Successive heartbeats: the next number, no sooner than the spacing. *)
Fixpoint spaced (d : Z) (l : list (Z * Z)) : Prop :=
  match l with
  | (n, t) :: (((n', t') :: _) as rest) => n' = (n +₆₄ 1)%word /\ d <= t' - t /\ spaced d rest
  | _ => True
  end.

Lemma run_sender_spaced d ws st :
  spaced d (run_sender d ws st) /\
  match run_sender d ws st with
  | (n, t) :: _ => n = (seq (snd st) +₆₄ 1)%word /\ (haveBuilt (snd st) = true -> d <= t - lastBuilt (snd st))
  | [] => True
  end.
Proof.
  revert st. induction ws as [|w ws IH]; intros [m b]; [done|]. cbn [run_sender].
  assert (Hquiet : forall m', spaced d (run_sender d ws (m', b)) /\ match run_sender d ws (m', b) with
    | (n, t) :: _ => n = (seq b +₆₄ 1)%word /\ (haveBuilt b = true -> d <= t - lastBuilt b) | [] => True end).
  { intros m'. apply (IH (m', b)). }
  destruct m, w; cbn [run_step fst snd]; try apply Hquiet. unfold send.
  destruct (haveBuilt b && (now - lastBuilt b <? d)) eqn:E; [apply Hquiet|].
  destruct (IH (Sending, mkSender (seq b +₆₄ 1)%word now true)) as [IHs IHh]. cbn [snd seq lastBuilt haveBuilt] in IHh.
  split.
  - cbn [app spaced]. destruct (run_sender d ws _) as [|[n' t'] rest]; [done|]. destruct IHh as [-> Ht].
    split; [done|]. split; [by apply Ht|done].
  - split; [done|]. intros Hb. rewrite Hb in E. simpl in E. lia.
Qed.

(** Two heartbeats of one run: their numbers count the spacings between them. *)
Lemma spaced_lookup d l i j a b :
  0 <= d -> spaced d l -> l !! i = Some a -> l !! j = Some b -> (i <= j)%nat ->
  fst b = u64 (fst a + Z.of_nat (j - i)) /\ d * Z.of_nat (j - i) <= snd b - snd a \/ i = j.
Proof.
  intros Hd. revert i j a. induction l as [|[n t] l IH]; intros i j a Hs Ha Hb Hij; [by rewrite lookup_nil in Ha|].
  destruct i as [|i].
  - destruct j as [|j]; [by right|]. left. injection Ha as <-. cbn [lookup list_lookup] in Hb. cbn [fst snd].
    destruct l as [|[n' t'] l']; [done|]. destruct Hs as (Hn & Ht & Hs).
    destruct (IH 0%nat j (n', t') Hs eq_refl Hb ltac:(lia)) as [[Hn' Ht']|<-].
    + cbn [fst snd] in *. rewrite Nat.sub_0_r in *. split; [|lia]. rewrite Hn', Hn. unfold u64 in *.
      rewrite Zplus_mod_idemp_l. f_equal. lia.
    + injection Hb as <-. cbn [fst snd]. rewrite Nat.sub_0_r. split; [rewrite Hn; f_equal; lia|lia].
  - destruct j as [|j]; [lia|]. cbn [lookup list_lookup] in Ha, Hb.
    assert (spaced d l) by (destruct l as [|[] ?]; [done|apply Hs]).
    destruct (IH i j a) as [?|]; auto with lia.
Qed.

(** ** What the tracker decides

    An observation is a class, a kind and a sequence number.  The reference:
    the longest run of the newest observations that are all wedged with one
    kind and numbered without a gap, as its kind and the steps it spans. *)

Notation observation := (HealthClass * WedgeKind * Z)%type.

Fixpoint stall (newest_first : list observation) : option (WedgeKind * Z) :=
  match newest_first with
  | [] => None
  | (c, k, q) :: older =>
      if decide (c = HealthWedged) then
        match head older, stall older with
        | Some (_, _, q'), Some (k', n) =>
            if decide (k' = k /\ q = (q' +₆₄ 1)%word) then Some (k, n + 1) else Some (k, 0)
        | _, _ => Some (k, 0)
        end
      else None
  end.

Definition verdict_of (window : Z) (newest_first : list observation) : option WedgeKind :=
  match stall newest_first with
  | Some (k, n) => if (0 <? window) && (n =? window) then Some k else None
  | None => None
  end.

(** The tracker fed with the observations, and its last answer. *)
Definition track (w : wedgeTracker) (oldest_first : list observation) : wedgeTracker * (WedgeKind * bool) :=
  fold_left (fun st o => match o with (c, k, q) => observe c k q (fst st) end) oldest_first (w, (WedgeNone, false)).

Definition answered (r : WedgeKind * bool) : option WedgeKind := if snd r then Some (fst r) else None.

(** A wedged observation names its kind; numbers are words. *)
Definition observation_ok (o : observation) : Prop :=
  (fst (fst o) = HealthWedged -> snd (fst o) <> WedgeNone) /\ 0 <= snd o < 2 ^ 64.

Lemma Classify_ok prev cur hw : 0 <= Sequence cur < 2 ^ 64 -> observation_ok (Classify prev cur hw, Sequence cur).
Proof. intros H. split; [|done]. unfold Classify. simpl. by repeat case_match. Qed.

(** How the tracker stores the run. *)
Definition stores (W : Z) (l : list observation) (w : wedgeTracker) : Prop :=
  windowBeats w = W /\
  match stall l with
  | None => clear w = w
  | Some (k, n) =>
      kind w = k /\ haveSeq w = true /\ head l = Some (HealthWedged, k, lastSeq w) /\ 0 <= n < zlen l /\
      (lastSeq w -₆₄ anchorSeq w)%word = u64 n /\ fired w = ((0 <? W) && (W <=? n))
  end.

Lemma observe_stores W l w c k q :
  stores W l w -> observation_ok (c, k, q) -> zlen l < 2 ^ 64 ->
  stores W ((c, k, q) :: l) (fst (observe c k q w)) /\ answered (snd (observe c k q w)) = verdict_of W ((c, k, q) :: l).
Proof.
  intros [HW Hs] [Hk Hq] Hlen. simpl in Hk, Hq. unfold verdict_of, stores. cbn [stall]. unfold observe.
  destruct (decide (c = HealthWedged)) as [->|Hc].
  2:{ rewrite decide_True by done. destruct (_ && _); split; done. }
  rewrite decide_False by tauto. specialize (Hk eq_refl).
  assert (Hnew : forall w0 : wedgeTracker, w0 = mkTracker W k q q true false ->
    windowBeats w0 = W /\ kind w0 = k /\ haveSeq w0 = true /\ Some (HealthWedged, k, q) = Some (HealthWedged, k, lastSeq w0) /\
    0 <= 0 < zlen ((HealthWedged, k, q) :: l) /\ (lastSeq w0 -₆₄ anchorSeq w0)%word = u64 0 /\ fired w0 = ((0 <? W) && (W <=? 0))).
  { intros w0 ->. cbn [windowBeats kind haveSeq lastSeq anchorSeq fired]. rewrite Z.sub_diag.
    split_and!; try done; first [unfold zlen; simpl; lia | destruct (0 <? W) eqn:?, (W <=? 0) eqn:?; done || lia]. }
  assert (Hzero : (if (0 <? W) && (0 =? W) then Some k else None) = None) by (destruct (0 <? W) eqn:?, (0 =? W) eqn:?; simpl; try done; lia).
  destruct (stall l) as [[k' n]|] eqn:Es.
  - destruct Hs as (Hkw & Hh & Hhd & Hn & Hgap & Hf). rewrite Hhd, Hh. cbn [andb].
    destruct (q =? (lastSeq w +₆₄ 1)%word) eqn:Eq; cbn [negb].
    + apply Z.eqb_eq in Eq. cbn [kind windowBeats anchorSeq lastSeq haveSeq fired].
      destruct (decide (k' = k)) as [->|Hne].
      * rewrite (decide_True _ _ (conj eq_refl Eq)). rewrite decide_False by (rewrite Hkw; tauto).
        assert (Hgap' : (q -₆₄ anchorSeq w)%word = n + 1).
        { rewrite Eq. unfold u64 in *. rewrite Zminus_mod_idemp_l.
          replace (lastSeq w + 1 - anchorSeq w) with (lastSeq w - anchorSeq w + 1) by lia.
          rewrite <- Zplus_mod_idemp_l, Hgap, Zplus_mod_idemp_l. apply Z.mod_small. lia. }
        rewrite HW, Hf, Hgap'. assert (Hz : zlen ((HealthWedged, k, q) :: l) = zlen l + 1) by (unfold zlen; simpl; lia).
        assert (Hu : u64 (n + 1) = n + 1) by (unfold u64; apply Z.mod_small; lia).
        destruct (0 <? W) eqn:EW; cbn [andb].
        -- destruct (W <=? n) eqn:El.
           ++ split; [|simpl; by rewrite (proj2 (Z.eqb_neq _ _)) by lia]. simpl. split_and!; try done; try lia.
           ++ destruct (W <=? n + 1) eqn:El'.
              ** split; [|simpl; by rewrite (proj2 (Z.eqb_eq _ _)) by lia]. simpl. split_and!; try done; lia.
              ** split; [|simpl; by rewrite (proj2 (Z.eqb_neq _ _)) by lia]. simpl. split_and!; try done; lia.
        -- split; [|done]. simpl. split_and!; try done; lia.
      * destruct (decide (kind w <> k)) as [_|N]; [|exfalso; apply N; congruence]. destruct (decide (k' = k /\ _)) as [[? _]|_]; [done|].
        rewrite Hzero. split; [|done]. rewrite HW. by apply Hnew.
    + apply Z.eqb_neq in Eq. cbn [clear kind windowBeats anchorSeq lastSeq haveSeq fired].
      destruct (decide (WedgeNone <> k)) as [_|N]; [|exfalso; apply N; congruence]. destruct (decide (k' = k /\ _)) as [[_ ?]|_]; [done|].
      rewrite Hzero. split; [|done]. rewrite HW. by apply Hnew.
  - rewrite <- Hs. cbn [clear kind windowBeats anchorSeq lastSeq haveSeq fired andb]. rewrite decide_True by congruence.
    rewrite HW. assert (Hst : match head l with Some (_, _, _) | _ => Some (k, 0) end = Some (k, 0)) by (by destruct (head l) as [[[? ?] ?]|]).
    destruct (head l) as [[[? ?] ?]|]; rewrite Hzero; (split; [by apply Hnew|done]).
Qed.

Lemma track_snoc w l c k q :
  track w (l ++ [(c, k, q)]) = observe c k q (fst (track w l)).
Proof. unfold track. by rewrite fold_left_app. Qed.

Lemma track_stores w l :
  clear w = w -> Forall observation_ok l -> zlen l < 2 ^ 64 ->
  stores (windowBeats w) (reverse l) (fst (track w l)) /\ answered (snd (track w l)) = verdict_of (windowBeats w) (reverse l).
Proof.
  intros Hw. induction l as [|[[c k] q] l IH] using rev_ind; intros Hl Hz; [done|].
  apply Forall_app in Hl as [Hl Ho]. apply Forall_cons_1 in Ho as [Ho _]. unfold zlen in Hz. rewrite length_app in Hz. simpl in Hz.
  destruct IH as [IH _]; [done|unfold zlen; lia|]. rewrite track_snoc, reverse_snoc.
  apply observe_stores; [done|exact Ho|]. unfold zlen. rewrite length_reverse. lia.
Qed.

(** The conversion of the window into sequence numbers rounds up. *)
Lemma newWedgeTracker_window window cadence :
  0 < window < 2 ^ 63 -> 0 < MinHeartbeatSpacing cadence ->
  let W := windowBeats (newWedgeTracker window cadence) in
  0 < W < 2 ^ 64 /\ (W - 1) * MinHeartbeatSpacing cadence < window <= W * MinHeartbeatSpacing cadence.
Proof.
  intros Hw Hm. unfold newWedgeTracker. set (m := MinHeartbeatSpacing cadence) in *. cbn [windowBeats].
  rewrite !(proj2 (Z.ltb_lt _ _)) by lia. cbn [andb]. rewrite Z.quot_div_nonneg, Z.rem_mod_nonneg by lia.
  pose proof (Z.div_mod window m ltac:(lia)). pose proof (Z.mod_pos_bound window m ltac:(lia)).
  assert (0 <= window / m <= window) by (split; [apply Z.div_pos; lia|apply Z.div_le_upper_bound; nia]).
  destruct (window mod m =? 0) eqn:E; cbn [negb].
  - assert (0 < window / m) by (apply Z.eqb_eq in E; nia).
    rewrite (proj2 (Z.ltb_lt _ _)) by lia. unfold u64. rewrite Z.mod_small by lia. apply Z.eqb_eq in E. split; [lia|]. nia.
  - rewrite (proj2 (Z.ltb_lt _ _)) by lia. unfold u64. rewrite Z.mod_small by lia. apply Z.eqb_neq in E. split; [lia|]. nia.
Qed.

(** The run behind a stall: its observations, newest first. *)
Lemma stall_run l k n :
  stall l = Some (k, n) -> Forall (fun o => 0 <= snd o < 2 ^ 64) l ->
  0 <= n /\ (Z.to_nat n < length l)%nat /\
  Forall (fun o => fst o = (HealthWedged, k)) (take (S (Z.to_nat n)) l) /\
  forall q0 qn c0 cn, l !! 0%nat = Some (c0, q0) -> l !! Z.to_nat n = Some (cn, qn) -> q0 = u64 (qn + n).
Proof.
  revert k n. induction l as [|[[c k0] q] l IH]; intros k n; cbn [stall]; [done|].
  destruct (decide (c = HealthWedged)) as [->|]; [|done]. intros Hs Hl. apply Forall_cons in Hl as [Hq Hl].
  assert (Hzero : Some (k0, 0) = Some (k, n) -> 0 <= n /\ (Z.to_nat n < length ((HealthWedged, k0, q) :: l))%nat /\
    Forall (fun o : observation => fst o = (HealthWedged, k)) (take (S (Z.to_nat n)) ((HealthWedged, k0, q) :: l)) /\
    forall q0 qn c0 cn, ((HealthWedged, k0, q) :: l) !! 0%nat = Some (c0, q0) ->
      ((HealthWedged, k0, q) :: l) !! Z.to_nat n = Some (cn, qn) -> q0 = u64 (qn + n)).
  { intros [= -> <-]. simpl. split_and!; [lia|lia|by constructor|]. intros q0 qn c0 cn [= <- <-] [= <- <-].
    unfold u64. rewrite Z.add_0_r. symmetry. by apply Z.mod_small. }
  destruct l as [|[[c' k'] q'] l]; [by apply Hzero|]. cbn [head] in Hs.
  destruct (stall ((c', k', q') :: l)) as [[k1 n1]|] eqn:E; [|by apply Hzero].
  destruct (decide _) as [[-> Eq]|]; [|by apply Hzero]. injection Hs as <- <-.
  destruct (IH k0 n1 eq_refl Hl) as (Hn & Hlen & Hall & Hnum).
  replace (Z.to_nat (n1 + 1)) with (S (Z.to_nat n1)) by lia. split_and!; [lia|simpl in *; lia| |].
  - cbn [take]. constructor; [done|exact Hall].
  - intros q0 qn c0 cn [= <- <-] Hqn. cbn [lookup list_lookup] in Hqn.
    rewrite Eq, (Hnum q' qn (c', k') cn eq_refl Hqn). unfold u64. rewrite Zplus_mod_idemp_l. f_equal. lia.
Qed.

(** A fresh sender numbers its heartbeats from one. *)
Lemma sender_run_spaced d start ws :
  spaced d (sender_run d start ws) /\ sender_run d start ws !! 0%nat = Some (1, start).
Proof. split; [apply run_sender_spaced|done]. Qed.

Lemma sender_run_number d start ws i n t :
  0 <= d -> zlen (sender_run d start ws) < 2 ^ 64 -> sender_run d start ws !! i = Some (n, t) -> n = Z.of_nat i + 1.
Proof.
  intros Hd Hz Hi. destruct (sender_run_spaced d start ws) as [Hs H0]. pose proof (lookup_lt_Some _ _ _ Hi). unfold zlen in Hz.
  destruct (spaced_lookup d _ 0 i (1, start) (n, t) Hd Hs H0 Hi ltac:(lia)) as [[Hn _]|<-].
  - cbn [fst] in Hn. rewrite Hn, Nat.sub_0_r. unfold u64. rewrite Z.mod_small by lia. lia.
  - rewrite H0 in Hi. by injection Hi as <- _.
Qed.

Notation watched := (HealthClass * WedgeKind * (Z * Z))%type.
Definition seen (o : watched) : observation := (fst o, fst (snd o)).

(** C34: The tracker gives a verdict on exactly the observation that completes a stall of the window: the newest
    observations are all wedged with one kind, their numbers follow without a gap, and they span exactly the window's
    beats; no other observation, however many follow, gives one. *)
Theorem wedge_tracker_exact window cadence obs :
  Forall observation_ok obs -> zlen obs < 2 ^ 64 ->
  let w := newWedgeTracker window cadence in
  answered (snd (track w obs)) = verdict_of (windowBeats w) (reverse obs).
Proof. intros Ho Hz w. by apply track_stores. Qed.

(** C33: No wedge is declared before its window has passed: when the tracker gives a verdict on heartbeats a sender built,
    whatever was lost in between, two of them were built at least the window apart, and all it saw from the first of
    the two to the last is that stall. *)
Theorem wedge_never_early window cadence start ws (obs : list watched) k :
  0 < window < 2 ^ 63 -> 0 < MinHeartbeatSpacing cadence ->
  let bs := sender_run (MinHeartbeatSpacing cadence) start ws in
  (forall o, o ∈ obs -> snd o ∈ bs /\ (fst (fst o) = HealthWedged -> snd (fst o) <> WedgeNone)) ->
  zlen bs + zlen obs < 2 ^ 64 ->
  answered (snd (track (newWedgeTracker window cadence) (seen <$> obs))) = Some k ->
  exists i o1 o2, obs !! i = Some o1 /\ last obs = Some o2 /\
    window <= snd (snd o2) - snd (snd o1) /\
    forall o, o ∈ drop i obs -> fst o = (HealthWedged, k).
Proof.
  intros Hw Hm bs Hobs Hz Hv. set (d := MinHeartbeatSpacing cadence) in *.
  destruct (newWedgeTracker_window window cadence Hw Hm) as [HW Hspan]. set (W := windowBeats (newWedgeTracker window cadence)) in *.
  assert (Hnum : forall o, o ∈ obs -> exists j, bs !! j = Some (snd o) /\ fst (snd o) = Z.of_nat j + 1 /\ (j < length bs)%nat).
  { intros o Ho. destruct (Hobs o Ho) as [[j Hj]%list_elem_of_lookup _]. exists j. destruct (snd o) as [n t] eqn:E.
    split; [done|]. split; [|by eapply lookup_lt_Some]. eapply (sender_run_number d start ws j); [lia|change (zlen bs < 2 ^ 64); unfold zlen in *; lia|exact Hj]. }
  assert (Hok : Forall observation_ok (seen <$> obs)).
  { apply Forall_fmap, Forall_forall. intros o Ho. split; [apply (Hobs o Ho)|]. cbn [seen snd].
    destruct (Hnum o Ho) as (j & _ & -> & Hj). unfold zlen in Hz. lia. }
  destruct (track_stores (newWedgeTracker window cadence) (seen <$> obs) eq_refl Hok) as [_ Ht].
  { unfold zlen in *. rewrite length_fmap. lia. }
  rewrite Hv in Ht. unfold verdict_of in Ht. fold W in Ht.
  destruct (stall (reverse (seen <$> obs))) as [[k' n]|] eqn:Es; [|done].
  destruct ((0 <? W) && (n =? W)) eqn:En; [|done]. injection Ht as <-. assert (n = W) as -> by (bool_to_prop; lia). clear En.
  destruct (stall_run _ _ _ Es) as (Hn & Hlen & Hall & Hq).
  { apply Forall_reverse. eapply Forall_impl; [exact Hok|]. by intros o [_ ?]. }
  rewrite length_reverse, length_fmap in Hlen. set (i := (length obs - S (Z.to_nat W))%nat).
  destruct (lookup_lt_is_Some_2 obs i) as [o1 E1]; [lia|].
  destruct (last obs) as [o2|] eqn:E2; [|apply last_None in E2; subst; simpl in Hlen; lia].
  pose proof E2 as E2'. rewrite last_lookup in E2'.
  assert (Q : fst (snd o2) = u64 (fst (snd o1) + W)).
  { apply (Hq _ _ (fst o2) (fst o1)); rewrite reverse_lookup, list_lookup_fmap, length_fmap by (rewrite length_fmap; lia).
    - replace (length obs - 1)%nat with (pred (length obs)) by lia. by rewrite E2'.
    - fold i. by rewrite E1. }
  destruct (Hnum o1 ltac:(by eapply list_elem_of_lookup_2)) as (j1 & B1 & N1 & J1).
  destruct (Hnum o2 ltac:(by eapply list_elem_of_lookup_2)) as (j2 & B2 & N2 & J2).
  unfold zlen in Hz. unfold u64 in Q. rewrite Z.mod_small in Q by lia.
  assert (Hj : (j1 <= j2)%nat /\ Z.of_nat (j2 - j1) = W) by lia. destruct Hj as [Hj Hd].
  exists i, o1, o2. split_and!; [done|done| |].
  - destruct (spaced_lookup d bs j1 j2 _ _ ltac:(lia) (proj1 (sender_run_spaced d start ws)) B1 B2 Hj) as [[_ Ht]|]; [nia|lia].
  - intros o Ho. rewrite take_reverse, length_fmap, Forall_reverse, <- fmap_drop in Hall. fold i in Hall.
    rewrite Forall_fmap, Forall_forall in Hall. by apply (Hall o).
Qed.

(** ** Restart delays *)

(** Where the doubling does not overflow the delay is the doubled base, capped; it never exceeds the cap. *)
Theorem backoff_within_cap base maxDelay attempt :
  0 < base -> 0 <= attempt < 63 -> 0 <= maxDelay ->
  backoff_delay base maxDelay attempt <= maxDelay /\
  (base * 2 ^ attempt < 2 ^ 63 -> backoff_delay base maxDelay attempt = Z.min (base * 2 ^ attempt) maxDelay).
Proof.
  intros Hb Ha Hm. unfold backoff_delay. rewrite (proj2 (Z.ltb_lt attempt 63)) by lia. split.
  - destruct (_ && _) eqn:E; [bool_to_prop; lia|lia].
  - intros Hs. assert (Hp : 0 < 2 ^ attempt) by (apply Z.pow_pos_nonneg; lia). rewrite Z.shiftl_1_l.
    assert (Hi : forall z, 0 < z < 2 ^ 63 -> i64 z = z).
    { intros z Hz. unfold i64, u64. rewrite Z.mod_small by lia. by rewrite (proj2 (Z.ltb_lt _ _)) by lia. }
    rewrite (Hi (2 ^ attempt)) by nia. rewrite Hi by nia. assert (0 < base * 2 ^ attempt) by nia.
    rewrite (proj2 (Z.ltb_lt 0 _)) by lia. simpl andb. destruct (Z.leb_spec (base * 2 ^ attempt) maxDelay); lia.
Qed.

(** Where it does overflow, the delay can be far below the cap. *)
Theorem backoff_can_wrap : backoff_delay (2 ^ 29 + 1) (60 * 10 ^ 9) 35 = 2 ^ 35 /\ 2 ^ 35 < 60 * 10 ^ 9 < (2 ^ 29 + 1) * 2 ^ 35.
Proof. by vm_compute. Qed.

(** ** Witnesses *)

Definition wit_stall : list observation := (fun q => (HealthWedged, WedgeTransport, q)) <$> [4; 5; 6].

Lemma wedge_tracker_exact_witness :
  answered (snd (track (newWedgeTracker 14 8) wit_stall)) = verdict_of 2 (reverse wit_stall) /\
  verdict_of 2 (reverse wit_stall) = Some WedgeTransport.
Proof.
  split; [|done]. apply (wedge_tracker_exact 14 8 wit_stall); [|done].
  repeat (constructor; [split; [intros _; discriminate|split; [discriminate|reflexivity]]|]). constructor.
Defined.

Definition wit_watched : list watched :=
  [(HealthWedged, WedgeDispatch, (2, 18)); (HealthWedged, WedgeDispatch, (3, 26)); (HealthWedged, WedgeDispatch, (4, 34))].

Lemma wedge_never_early_witness :
  exists i o1 o2, wit_watched !! i = Some o1 /\ last wit_watched = Some o2 /\ 14 <= snd (snd o2) - snd (snd o1) /\
    forall o, o ∈ drop i wit_watched -> fst o = (HealthWedged, WedgeDispatch).
Proof.
  apply (wedge_never_early 14 8 10 [Tick 12; Tick 18; Tick 26; Tick 34] wit_watched WedgeDispatch); [done|done| |done|done].
  intros o Ho. unfold wit_watched in Ho.
  repeat (apply elem_of_cons in Ho as [-> | Ho]; [split; [apply (bool_decide_unpack _); reflexivity|discriminate]|]).
  by apply elem_of_nil in Ho.
Defined.

End Health.
