(* ===== verification/Reload.v ===== *)
(** * Hot reload
    (src/internal/lifecycle/reload.go, rollback.go, restore.go,
    plugin_reload.go, teardown.go; src/internal/shm/snapshot.go; serviceReload
    and runReload of src/internal/supervisor/reload.go; handleReload and
    dispatchControl of src/pluginserver.go; the admission span of invokeCore in
    src/clientconn.go)

    A reload closes the admission gate, has the running instance freeze and
    drain, moves its state to a freshly spawned one in a sealed memory file, and
    either promotes the newcomer or rolls back.  Host, instances and callers are
    programs over one state (see [Interleave]): the gate, the control
    connections with the datagrams in flight, the memory files, and per instance
    its mutators, its request queue and the effects it has applied.

    What the operating system, a time-out or an application hook answers comes
    from the schedule.  Time-outs and cancellations may fire at any moment, a
    process may die at any moment, and a receive may fail with or without
    consuming a datagram; a failed send delivers nothing (a control datagram is
    atomic, see [ControlConn]). *)

From Stdlib Require Import Strings.String.
From stdpp Require Import gmap functions.
From S2P Require Import Prelude ControlConn Interleave.
Import ControlConn.

Module Reload.

Local Open Scope Z_scope.

(** ** Errors *)

Inductive tag :=
| ErrReloadCrashEquivalent | ErrSnapshotRejected | errDrainNotCommitted | TagProtocolViolation
| TagCanceled | TagDeadlineExceeded | TagSpawn | TagSystem | TagHook | TagRefused | TagJoinTimeout.

#[global] Instance tag_eq_dec : EqDecision tag.
Proof. solve_decision. Defined.

(** An error is what [errors.Is] finds in it. *)
Notation error := (list tag).

Definition Is (e : option error) (t : tag) : bool :=
  match e with Some l => bool_decide (t ∈ l) | None => false end.

(** ** Snapshots *)

Definition SnapshotFormatVersion : Z := 1.
Definition MaxSnapshotBytes : Z := Z.shiftl 1 30.

Definition F_SEAL_SEAL : Z := 1.
Definition F_SEAL_SHRINK : Z := 2.
Definition F_SEAL_GROW : Z := 4.
Definition F_SEAL_WRITE : Z := 8.
Definition snapshotSeals : Z := Z.lor (Z.lor (Z.lor F_SEAL_WRITE F_SEAL_GROW) F_SEAL_SHRINK) F_SEAL_SEAL.

Inductive snap_error := ErrUnsealedSnapshot | ErrSnapshotLengthMismatch | ErrSnapshotTooLarge | ErrSyscall.

#[global] Instance snap_error_eq_dec : EqDecision snap_error.
Proof. solve_decision. Defined.

(** The system calls of a build and of a verification; a fault table says
    which of them fail. *)
Inductive syscall :=
| MemfdCreate | Ftruncate | MmapWrite | MunmapWrite | AddSeals | GetSeals | Fstat | MmapRead | MunmapRead.
Notation faults := (syscall -> bool).

(** A memory file; a process's open descriptors and live mappings, each by the
    file it refers to. *)
Record memfd := mkMemfd { content : list Z; seals : Z }.
Record process := mkProcess { fds : list nat; maps : list nat }.

Definition no_resources : process := mkProcess [] [].

Fixpoint drop_one (i : nat) (l : list nat) : list nat :=
  match l with [] => [] | j :: l => if decide (j = i) then l else j :: drop_one i l end.

Definition open_fd (i : nat) (p : process) : process := mkProcess (i :: fds p) (maps p).
Definition close_fd (i : nat) (p : process) : process := mkProcess (drop_one i (fds p)) (maps p).
Definition map_file (i : nat) (p : process) : process := mkProcess (fds p) (i :: maps p).
Definition unmap_file (i : nat) (p : process) : process := mkProcess (fds p) (drop_one i (maps p)).

(** The files, and the calling process. *)
Notation kernel := (list memfd * process)%type.

Definition write_file (i : nat) (bs : list Z) (fs : list memfd) : list memfd :=
  alter (fun f => mkMemfd bs (seals f)) i fs.
Definition seal_file (i : nat) (m : Z) (fs : list memfd) : list memfd :=
  alter (fun f => mkMemfd (content f) (Z.lor (seals f) m)) i fs.

Section snapshots.
Context (sha256 : list Z -> list Z).

(** What a successful build returns: the descriptor (its file), the declared
    length, the checksum. *)
Definition BuildSnapshot (bad : faults) (payload : list Z) (maxLen : Z) (k : kernel) :
    kernel * outcome snap_error (nat * Z * list Z) :=
  let (fs, p) := k in
  let length := zlen payload in
  if maxLen <? length then (k, Err ErrSnapshotTooLarge) else
  if bad MemfdCreate then (k, Err ErrSyscall) else
  let fd := List.length fs in
  let fs := fs ++ [mkMemfd [] 0] in
  let p := open_fd fd p in
  if bad Ftruncate then ((fs, close_fd fd p), Err ErrSyscall) else
  let fs := write_file fd (replicate (Z.to_nat length) 0) fs in
  let seal (fs : list memfd) (p : process) :=
    if bad AddSeals then ((fs, close_fd fd p), Err ErrSyscall)
    else ((seal_file fd snapshotSeals fs, p), Ok (fd, length, sha256 payload)) in
  if 0 <? length then
    if bad MmapWrite then ((fs, close_fd fd p), Err ErrSyscall) else
    let p := map_file fd p in
    let fs := write_file fd payload fs in
    if bad MunmapWrite then ((fs, close_fd fd p), Err ErrSyscall)
    else seal fs (unmap_file fd p)
  else seal fs p.

(** The mapping a verification returns is the caller's to unmap, unless it is
    empty. *)
Definition VerifySealedSnapshot (bad : faults) (fd : nat) (declaredLen : Z) (k : kernel) :
    kernel * outcome snap_error (list Z * list Z) :=
  let (fs, p) := k in
  if bad GetSeals then (k, Err ErrSyscall) else
  match fs !! fd with
  | None => (k, Err ErrSyscall)
  | Some f =>
      if negb (Z.land (seals f) snapshotSeals =? snapshotSeals) then (k, Err ErrUnsealedSnapshot) else
      if bad Fstat then (k, Err ErrSyscall) else
      let actual := zlen (content f) in
      if negb (actual =? declaredLen) then (k, Err ErrSnapshotLengthMismatch) else
      if MaxSnapshotBytes <? actual then (k, Err ErrSnapshotTooLarge) else
      if actual =? 0 then (k, Ok ([], sha256 [])) else
      if bad MmapRead then (k, Err ErrSyscall)
      else ((fs, map_file fd p), Ok (content f, sha256 (content f)))
  end.

End snapshots.

Record snapshot := mkSnapshot { snap_fd : nat; declaredLength : Z; formatVersion : Z; checksum : list Z }.

(** The host's copy of the check; a system call that fails is reported as it
    is, a snapshot that fails is rejected. *)
Definition verifySnapshot (sha256 : list Z -> list Z) (bad : faults) (fd : nat) (declaredLen formatVersion : Z) (k : kernel) :
    kernel * outcome error snapshot :=
  match VerifySealedSnapshot sha256 bad fd declaredLen k with
  | (k, Ok (data, sum)) =>
      if 0 <? zlen data then
        if bad MunmapRead then (k, Err [TagSystem])
        else ((fst k, unmap_file fd (snd k)), Ok (mkSnapshot fd declaredLen formatVersion sum))
      else (k, Ok (mkSnapshot fd declaredLen formatVersion sum))
  | (k, Err e) =>
      (k, Err match e with
              | ErrUnsealedSnapshot | ErrSnapshotLengthMismatch | ErrSnapshotTooLarge => [ErrSnapshotRejected]
              | ErrSyscall => [TagSystem]
              end)
  | (k, Panic) => (k, Panic)
  end.

(** ** Instances and the host

    An effect is what changed an instance's state: a handled call, or a
    background mutation by one of its mutators. *)
Inductive effect := Handled (call : Z) | Background (mutator : nat).

#[global] Instance effect_eq_dec : EqDecision effect.
Proof. solve_decision. Defined.

(** What an application registers ([PluginReloadHooks]); the state a saver
    encodes and a restorer rebuilds is the list of effects. *)
Record PluginReloadHooks := mkHooks {
  Mutators : nat;
  Saver : option (list effect -> list Z);
  Restorer : option (Z -> list Z -> option (list effect))
}.

(** Where the messages so far leave the instance ([Restoring] at first,
    [Restored] once it has acknowledged its snapshot, [Serving]; [Freezing]
    from the receipt of Drain, [Held] once it is frozen and drained, [Thawing]
    from the receipt of Resume until ResumeAck is sent, [Gone] once its process
    has ended), and where they leave the host's side ([Fresh] until the instance
    is promoted; [Idle]; [Asked] once Drain is sent, [Resuming] once Resume is;
    [Retired] once Shutdown is). *)
Inductive stage := Restoring | Restored | Serving | Freezing | Held | Thawing | Gone.
Inductive talk_stage := Fresh | Idle | Asked | Resuming | Retired.

#[global] Instance stage_eq_dec : EqDecision stage.
Proof. solve_decision. Defined.
#[global] Instance talk_stage_eq_dec : EqDecision talk_stage.
Proof. solve_decision. Defined.

(** A control datagram, with the file of the descriptor it carries. *)
Notation datagram := (ControlBody * option nat)%type.

(** [h2p] and [p2h] are the datagrams in flight; [beating] that the heartbeat
    sender is running and not paused; [reqs] the requests published to the
    instance and not yet handled, [arrived] how many there have been; [given] the
    snapshot the host sent it. *)
Record instance := mkInstance {
  h2p : list datagram; p2h : list datagram; res : process;
  beating : bool; arrived : nat; reqs : list Z; effects : list effect; frozen : list bool;
  phase : stage; talk : talk_stage; given : option (SnapshotHeader * option nat)
}.

Definition eta_instance (a : instance) : instance :=
  mkInstance (h2p a) (p2h a) (res a) (beating a) (arrived a) (reqs a) (effects a) (frozen a) (phase a) (talk a)
    (given a).
Definition with_h2p x (a : instance) : instance := ltac:(update_field eta_instance a h2p x).
Definition with_p2h x (a : instance) : instance := ltac:(update_field eta_instance a p2h x).
Definition with_res x (a : instance) : instance := ltac:(update_field eta_instance a res x).
Definition with_beating x (a : instance) : instance := ltac:(update_field eta_instance a beating x).
Definition with_arrived x (a : instance) : instance := ltac:(update_field eta_instance a arrived x).
Definition with_reqs x (a : instance) : instance := ltac:(update_field eta_instance a reqs x).
Definition with_effects x (a : instance) : instance := ltac:(update_field eta_instance a effects x).
Definition with_frozen x (a : instance) : instance := ltac:(update_field eta_instance a frozen x).
Definition with_phase x (a : instance) : instance := ltac:(update_field eta_instance a phase x).
Definition with_talk x (a : instance) : instance := ltac:(update_field eta_instance a talk x).
Definition with_given x (a : instance) : instance := ltac:(update_field eta_instance a given x).

Inductive TeardownStep :=
| StepStopAdmission | StepFailInFlight | StepJoinGoroutines | StepUnmap | StepTerminateAndReap | StepCloseFDs.

#[global] Instance TeardownStep_eq_dec : EqDecision TeardownStep.
Proof. solve_decision. Defined.

(** [open], [active] and [drained] are the admission gate, [chans] the join
    channels made and [closed] the closed ones; [route] is the connection's
    routing state, [current] the instance the heartbeat loop supervises, [born]
    how many were spawned; [host] the host's snapshot descriptors and mappings.
    [inside] names the callers counted by [active]; [steps] and [published]
    record what happened. *)
Record state := mkState {
  open : bool; active : Z; drained : option nat; chans : nat; closed : gset nat; inside : gset nat;
  route : option nat; current : nat; born : nat; insts : nat -> instance; files : list memfd; host : process;
  steps : list (nat * TeardownStep); published : list Z
}.

Definition eta (s : state) : state :=
  mkState (open s) (active s) (drained s) (chans s) (closed s) (inside s) (route s) (current s) (born s)
    (insts s) (files s) (host s) (steps s) (published s).
Definition with_open x (s : state) : state := ltac:(update_field eta s open x).
Definition with_active x (s : state) : state := ltac:(update_field eta s active x).
Definition with_drained x (s : state) : state := ltac:(update_field eta s drained x).
Definition with_chans x (s : state) : state := ltac:(update_field eta s chans x).
Definition with_closed x (s : state) : state := ltac:(update_field eta s closed x).
Definition with_inside x (s : state) : state := ltac:(update_field eta s inside x).
Definition with_route x (s : state) : state := ltac:(update_field eta s route x).
Definition with_current x (s : state) : state := ltac:(update_field eta s current x).
Definition with_born x (s : state) : state := ltac:(update_field eta s born x).
Definition with_insts x (s : state) : state := ltac:(update_field eta s insts x).
Definition with_files x (s : state) : state := ltac:(update_field eta s files x).
Definition with_host x (s : state) : state := ltac:(update_field eta s host x).
Definition with_steps x (s : state) : state := ltac:(update_field eta s steps x).
Definition with_published x (s : state) : state := ltac:(update_field eta s published x).

Definition upd (k : nat) (f : instance -> instance) (s : state) : state := with_insts (alter f k (insts s)) s.

Definition fresh (n : nat) (t : talk_stage) : instance :=
  mkInstance [] [] no_resources false 0 [] [] (replicate n false) Restoring t None.

(** ** Programs *)

Inductive endpoint := HostEnd (k : nat) | PluginEnd (k : nat).

Inductive query :=
| QRoute | QEnter | QCallCtx | QPublish (k : nat) | QLeave
| QCutoff | QJoin (done : nat) | QDropJoin | QOpen
| QCtx | QNow | QSend (e : endpoint) (b : ControlBody) | QRecv (e : endpoint) | QVerify (e : endpoint) | QClose (e : endpoint)
| QSpawn | QStore (k : nat) | QDetach (k : nat) | QTeardown (k : nat) (st : TeardownStep) | QReap (k : nat)
| QResponses (k : nat) | QCurrent | QAdopt (k : nat) | QRequest | QRequestCtx
| QFreeze (k j : nat) | QThaw (k j : nat) | QQuiesce (k : nat) | QQuiet (k : nat) | QSave (k : nat) | QBuild (k : nat)
| QRestore (k : nat) | QPause (k : nat) | QServe (k : nat) | QExit (k : nat) | QActivity (k : nat).

(** How a call fails: its context ended, or the system or a hook refused. *)
Inductive fault := FCanceled | FDeadline | FSystem.

Definition error_of (f : fault) : error :=
  match f with FCanceled => [TagCanceled] | FDeadline => [TagDeadlineExceeded] | FSystem => [TagSystem] end.

(** [AFail] is a call that fails, [ADrop] a receive that consumed its datagram
    and failed, [AEnd] the body-less datagram of a closed peer. *)
Inductive answer :=
| ANone | AFail (f : fault) | ADrop | AEnd | ATimeout | APanic
| AClock (now : Z) (ctxDeadline : option Z) | ASys (bad : faults) | ACount (n : Z) | ACall (c : Z)
| AServe | ABackground (j : nat) | ABeat | ADie.

Notation M := (proc state query answer).

(** A call answered by success or by an error. *)
Definition fallible (q : query) : M (option error) :=
  ask q (fun x => match x with AFail f => Some (Some (error_of f)) | _ => Some None end).

(** A process that is gone does nothing. *)
Definition lives (k : nat) (s : state) : bool := negb (bool_decide (phase (insts s k) = Gone)).

Definition pact {A} (k : nat) (q : query) (f : answer -> state -> state * option (M A)) : M A :=
  Act q (fun x s => if lives k s then f x s else (s, None)).

Definition pcrit {A} (k : nat) (q : query) (f : state -> state * A) : M A :=
  pact k q (fun _ s => let (s', a) := f s in (s', Some (Done a))).

Definition pfallible (k : nat) (q : query) : M (option error) :=
  pact k q (fun x s => (s, Some (Done (match x with AFail f => Some (error_of f) | _ => None end)))).

(** ** The admission gate *)

Definition Enter (i : nat) : M bool := crit QEnter (fun s =>
  if open s then (with_inside ({[i]} ∪ inside s) (with_active (active s + 1) s), true) else (s, false)).

Definition leave_gate (i : nat) (s : state) : state :=
  let s := with_inside (inside s ∖ {[i]}) (with_active (active s - 1) s) in
  match drained s with
  | Some d => if active s =? 0 then with_drained None (with_closed ({[d]} ∪ closed s) s) else s
  | None => s
  end.

Definition Leave (i : nat) : M unit := crit QLeave (fun s => (leave_gate i s, tt)).

Definition cutoff (s : state) : state * option nat :=
  let s := with_open false s in
  if active s =? 0 then (s, None)
  else let d := chans s in (with_drained (Some d) (with_chans (S d) s), Some d).

Definition drop_join (d : nat) (s : state) : state :=
  if decide (drained s = Some d) then with_drained None s else s.

Definition Close : M (option error) :=
  crit QCutoff cutoff ≫= fun r =>
  match r with
  | None => mret None
  | Some d =>
      Act (QJoin d) (fun x s =>
        match x with
        | AFail f => (s, Some (Done (Some (error_of f))))
        | _ => (s, if decide (d ∈ closed s) then Some (Done None) else None)
        end) ≫= fun r =>
      match r with
      | None => mret None
      | Some e => crit QDropJoin (fun s => (drop_join d s, tt)) ≫= fun _ => mret (Some e)
      end
  end.

Definition Open : M unit := crit QOpen (fun s => (with_open true s, tt)).

Definition IsOpen (s : state) : bool := open s.

(** The admission span of a call: from [Enter] through the request's handing
    over to the transport, with the routing state loaded inside. *)
Definition publish (k : nat) (c : Z) (s : state) : state :=
  with_published (published s ++ [c])
    (upd k (fun a => with_arrived (S (arrived a)) (with_reqs (reqs a ++ [c]) a)) s).

Definition invokeCore (i : nat) : M unit :=
  crit QRoute (fun s => (s, route s)) ≫= fun r =>
  match r with
  | None => mret tt
  | Some _ =>
      Enter i ≫= fun ok =>
      if negb ok then mret tt else
      crit QRoute (fun s => (s, route s)) ≫= fun r =>
      match r with
      | None => Leave i
      | Some k =>
          fallible QCallCtx ≫= fun e =>
          match e with
          | Some _ => Leave i
          | None =>
              Act (QPublish k) (fun x s =>
                match x with
                | ACall c => (publish k c s, Some (Done tt))
                | AFail _ => (s, Some (Done tt))
                | _ => (s, None)
                end) ≫= fun _ =>
              Leave i
          end
      end
  end.

(** ** Control connections *)

Definition inst_of (e : endpoint) : nat := match e with HostEnd k | PluginEnd k => k end.

Definition kind_of (b : ControlBody) : option MessageKind :=
  KindOf {| CorrelationId := 0; Generation := 0; Body := Some b |}.

(** Where a message leaves its sender's and its receiver's side. *)
Definition after_send (e : endpoint) (d : datagram) (a : instance) : instance :=
  match e, fst d with
  | HostEnd _, BodyRestore h => with_given (Some (h, snd d)) a
  | HostEnd _, BodyDrain _ => with_talk Asked a
  | HostEnd _, BodyResume => with_talk Resuming a
  | HostEnd _, BodyShutdown _ => with_talk Retired a
  | PluginEnd _, BodyResumeAck => with_phase Serving a
  | PluginEnd _, BodyRestoreAck _ _ => with_phase Restored a
  | _, _ => a
  end.

Definition after_recv (e : endpoint) (b : ControlBody) (a : instance) : instance :=
  match e, b with
  | PluginEnd _, BodyDrain _ => with_phase Freezing a
  | PluginEnd _, BodyResume => with_phase Thawing a
  | HostEnd _, BodyResumeAck => with_talk Idle a
  | _, _ => a
  end.

Definition push (e : endpoint) (d : datagram) (a : instance) : instance :=
  match e with HostEnd _ => with_h2p (h2p a ++ [d]) a | PluginEnd _ => with_p2h (p2h a ++ [d]) a end.

Definition inbound (e : endpoint) (a : instance) : list datagram :=
  match e with HostEnd _ => p2h a | PluginEnd _ => h2p a end.
Definition with_inbound (e : endpoint) (l : list datagram) (a : instance) : instance :=
  match e with HostEnd _ => with_p2h l a | PluginEnd _ => with_h2p l a end.

(** The process at an endpoint. *)
Definition on_process (e : endpoint) (f : process -> process) (s : state) : state :=
  match e with
  | HostEnd _ => with_host (f (host s)) s
  | PluginEnd k => upd k (fun a => with_res (f (res a)) a) s
  end.
Definition process_at (e : endpoint) (s : state) : process :=
  match e with HostEnd _ => host s | PluginEnd k => res (insts s k) end.

(** Only the instance's own goroutines stop with its process. *)
Definition eact {A} (e : endpoint) (q : query) (f : answer -> state -> state * option (M A)) : M A :=
  match e with HostEnd _ => Act q f | PluginEnd k => pact k q f end.

Definition SendFDs (e : endpoint) (b : ControlBody) (file : option nat) : M (option error) :=
  eact e (QSend e b) (fun x s =>
    match x with
    | AFail f => (s, Some (Done (Some (error_of f))))
    | _ => (upd (inst_of e) (fun a => after_send e (b, file) (push e (b, file) a)) s, Some (Done None))
    end).

Definition Send (e : endpoint) (b : ControlBody) : M (option error) := SendFDs e b None.

(** [RecvFDs], and [Recv] with [rights] off: the kernel drops the descriptors
    of a datagram received without room for them. *)
Definition takes (rights : bool) (file : option nat) (p : process) : process :=
  match file with Some i => if rights then open_fd i p else p | None => p end.

Definition receive (e : endpoint) (rights : bool) (d : datagram) (rest : list datagram) (s : state) : state :=
  match e with
  | HostEnd k => with_host (takes rights (snd d) (host s)) (upd k (fun a => after_recv e (fst d) (with_p2h rest a)) s)
  | PluginEnd k => upd k (fun a => after_recv e (fst d) (with_h2p rest (with_res (takes rights (snd d) (res a)) a))) s
  end.

Definition RecvFDs (e : endpoint) (rights : bool) : M (outcome error (option ControlBody * list nat)) :=
  eact e (QRecv e) (fun x s =>
    match x with
    | AFail f => (s, Some (Done (Err (error_of f))))
    | AEnd => (s, Some (Done (Ok (None, []))))
    | _ =>
        match inbound e (insts s (inst_of e)) with
        | [] => (s, None)
        | (b, file) :: rest =>
            match x with
            | ADrop => (upd (inst_of e) (with_inbound e rest) s, Some (Done (Err [TagSystem])))
            | _ => (receive e rights (b, file) rest s,
                    Some (Done (Ok (Some b, if rights then match file with Some i => [i] | None => [] end else []))))
            end
        end
    end).

Definition recvExpected (e : endpoint) (st : LifecycleState) (want : MessageKind) : M (outcome error ControlBody) :=
  RecvFDs e false ≫= fun r =>
  mret match r with
       | Ok (Some b, _) =>
           match kind_of b with
           | Some k => if Legal st k && bool_decide (k = want) then Ok b else Err [TagProtocolViolation]
           | None => Err [TagProtocolViolation]
           end
       | Ok (None, _) => Err [TagProtocolViolation]
       | Err er => Err er
       | Panic => Panic
       end.

(** [closeFDs] and [snapshot.close]. *)
Definition closeFDs (e : endpoint) (l : list nat) : M unit :=
  match e with
  | HostEnd _ => crit (QClose e) (fun s => (on_process e (fun p => foldr close_fd p l) s, tt))
  | PluginEnd k => pcrit k (QClose e) (fun s => (on_process e (fun p => foldr close_fd p l) s, tt))
  end.

(** ** Teardown *)

Definition log (k : nat) (st : TeardownStep) (s : state) : state := with_steps (steps s ++ [(k, st)]) s.

(** A callback of steps 1, 2 and 4: whether it panicked. *)
Definition step (k : nat) (st : TeardownStep) : M bool :=
  Act (QTeardown k st) (fun x s => (log k st s, Some (Done (match x with APanic => true | _ => false end)))).

(** Step 1 for a promoted instance: only routing it still owns is taken down. *)
Definition StopAdmission (k : nat) (hooked : bool) : M unit :=
  if hooked then
    crit (QDetach k) (fun s => if decide (route s = Some k) then (with_route None s, true) else (s, false)) ≫= fun owned =>
    if owned : bool then Close ≫= fun _ => mret tt else mret tt
  else mret tt.

Definition joinGoroutines (k : nat) : M (option error) :=
  Act (QTeardown k StepJoinGoroutines) (fun x s =>
    (log k StepJoinGoroutines s, Some (Done (match x with ATimeout => Some [TagJoinTimeout] | _ => None end)))).

Definition die (a : instance) : instance := with_phase Gone (with_res no_resources (with_beating false a)).

(** Step 5: Shutdown, then the exit within the deadline or the kill. *)
Definition terminateAndReap (k : nat) : M unit :=
  crit (QTeardown k StepTerminateAndReap) (fun s => (log k StepTerminateAndReap s, tt)) ≫= fun _ =>
  Send (HostEnd k) (BodyShutdown 0) ≫= fun _ =>
  Act (QReap k) (fun x s =>
    match x with
    | ATimeout => (upd k die s, Some (Done tt))
    | _ => (s, if lives k s then None else Some (Done tt))
    end).

(** [Teardown.Run]: steps 5 and 6 are deferred, so they run whatever a
    callback did. *)
Definition Teardown_Run (k : nat) (hooked : bool) : M (outcome error unit) :=
  let finish r := terminateAndReap k ≫= fun _ =>
    crit (QTeardown k StepCloseFDs) (fun s => (log k StepCloseFDs s, tt)) ≫= fun _ => mret r in
  step k StepStopAdmission ≫= fun p => if p : bool then finish Panic else
  StopAdmission k hooked ≫= fun _ =>
  step k StepFailInFlight ≫= fun p => if p : bool then finish Panic else
  joinGoroutines k ≫= fun j =>
  step k StepUnmap ≫= fun p => if p : bool then finish Panic else
  finish (match j with Some e => Err e | None => Ok tt end).

(** ** The transaction *)

Inductive Phase := PhaseCutoff | PhaseDrainAck | PhaseSnapshot | PhaseRestoreValidate | PhasePromote.

#[global] Instance Phase_eq_dec : EqDecision Phase.
Proof. solve_decision. Defined.

Record config := mkConfig { DrainAck : Z; hooks_of : nat -> PluginReloadHooks; sha256 : list Z -> list Z }.

Definition drainAckHostMargin : Z := Second.

(** The deadline sent with Drain and the host's own, from the clock, the drain
    budget and the caller's deadline. *)
Definition drain_times (now budget : Z) (ctxDeadline : option Z) : option (Z * Z) :=
  let hostWait := now + budget in
  let hostWait := match ctxDeadline with Some d => if d <? hostWait then d else hostWait | None => hostWait end in
  let budget := hostWait - now in
  if budget <? 2 then None else
  let margin := if budget <=? drainAckHostMargin then Z.quot budget 2 else drainAckHostMargin in
  Some (hostWait - margin, hostWait).

(** How [Run] ended: with a promoted successor (and the error of the old
    instance's teardown), with an error, or with a callback's panic. *)
Inductive verdict := Promoted (k : nat) (e : option error) | Failed (e : error) | Panicked.

Section transaction.
Context (cfg : config).

Definition drain (k : nat) : M (option error) :=
  ask QNow (fun x => match x with AClock now d => Some (now, d) | _ => None end) ≫= fun '(now, d) =>
  match drain_times now (DrainAck cfg) d with
  | None => mret (Some [errDrainNotCommitted])
  | Some (transmitted, _) =>
      Send (HostEnd k) (BodyDrain transmitted) ≫= fun e =>
      match e with
      | Some e => mret (Some (e ++ [errDrainNotCommitted]))
      | None =>
          recvExpected (HostEnd k) StateDraining KindDrainAck ≫= fun r =>
          mret match r with Ok _ => None | Err e => Some e | Panic => Some [] end
      end
  end.

(** [Transaction.snapshot]. *)
Definition take_snapshot (k : nat) : M (outcome error snapshot) :=
  RecvFDs (HostEnd k) true ≫= fun r =>
  match r with
  | Err e => mret (Err e)
  | Panic => mret Panic
  | Ok (b, l) =>
      match b, l with
      | Some (BodySaveState save), [fd] =>
          Act (QVerify (HostEnd k)) (fun x s =>
            match x with
            | ASys bad =>
                let '((fs, p), r) := verifySnapshot (sha256 cfg) bad fd (DeclaredLength save) (FormatVersion save) (files s, host s) in
                (with_files fs (with_host p s), Some (Done r))
            | _ => (s, None)
            end) ≫= fun r =>
          match r with
          | Err e => closeFDs (HostEnd k) l ≫= fun _ => mret (Err e)
          | Panic => mret Panic
          | Ok snap =>
              Send (HostEnd k) (BodySaveStateAck (checksum snap)) ≫= fun e =>
              match e with
              | Some e => closeFDs (HostEnd k) [snap_fd snap] ≫= fun _ => mret (Err e)
              | None => mret (Ok snap)
              end
          end
      | _, _ => closeFDs (HostEnd k) l ≫= fun _ => mret (Err [TagProtocolViolation])
      end
  end.

(** [spawnNew]: a process that has shaken hands and attached, or nothing. *)
Definition spawnNew : M (outcome error nat) :=
  Act QSpawn (fun x s =>
    match x with
    | AFail f => (s, Some (Done (Err (error_of f))))
    | _ => let k := born s in
           (with_born (S k) (upd k (fun _ => fresh (Mutators (hooks_of cfg k)) Fresh) s), Some (Done (Ok k)))
    end).

(** The successor, when there is one, with the error. *)
Definition restoreValidate (snap : snapshot) : M (option nat * option error) :=
  spawnNew ≫= fun r =>
  match r with
  | Ok k =>
      let header := {| SnapshotFdCount := 1; DeclaredLength := declaredLength snap; FormatVersion := formatVersion snap |} in
      SendFDs (HostEnd k) (BodyRestore header) (Some (snap_fd snap)) ≫= fun e =>
      match e with
      | Some e => mret (Some k, Some e)
      | None =>
          recvExpected (HostEnd k) StateRestoring KindRestoreAck ≫= fun r =>
          mret (Some k, match r with
                        | Ok (BodyRestoreAck ready _) => if ready then None else Some [TagRefused]
                        | Ok _ => Some [TagRefused]
                        | Err e => Some e
                        | Panic => Some []
                        end)
      end
  | Err e => mret (None, Some e)
  | Panic => mret (None, Some [])
  end.

Definition resumeOld (k : nat) : M (option error) :=
  Send (HostEnd k) BodyResume ≫= fun e =>
  match e with
  | Some e => mret (Some e)
  | None =>
      recvExpected (HostEnd k) StateDraining KindResumeAck ≫= fun r =>
      mret match r with Ok _ => None | Err e => Some e | Panic => Some [] end
  end.

Definition rollback (old : nat) (from : Phase) (successor : option nat) (cause : error) : M verdict :=
  if decide (from = PhaseCutoff) then Open ≫= fun _ => mret (Failed cause) else
  let resume :=
    resumeOld old ≫= fun e =>
    match e with
    | Some e => mret (Failed ([ErrReloadCrashEquivalent] ++ cause ++ e))
    | None => Open ≫= fun _ => mret (Failed cause)
    end in
  match successor with
  | None => resume
  | Some k =>
      Teardown_Run k false ≫= fun r =>
      match r with Panic => mret Panicked | _ => resume end
  end.

(** The successor's [Promote]: [wireConnState] stores the routing state, then
    opens the gate. *)
Definition Promote (k : nat) : M unit :=
  crit (QStore k) (fun s => (with_route (Some k) (upd k (with_talk Idle) s), tt)) ≫= fun _ => Open.

(** The old instance's [Teardown]: it joins the answers already produced. *)
Definition retire (k : nat) : M (Z * outcome error unit) :=
  ask (QResponses k) (fun x => match x with ACount n => Some n | _ => None end) ≫= fun stragglers =>
  Teardown_Run k true ≫= fun r => mret (stragglers, r).

(** Phases 4 and 5, once the snapshot is held. *)
Definition restore_and_promote (old : nat) (snap : snapshot) : M verdict :=
  restoreValidate snap ≫= fun '(successor, err) =>
  match successor, err with
  | Some k, None =>
      Promote k ≫= fun _ =>
      Open ≫= fun _ =>
      retire old ≫= fun '(_, r) =>
      mret match r with Ok _ => Promoted k None | Err e => Promoted k (Some e) | Panic => Panicked end
  | _, _ => rollback old PhaseRestoreValidate successor (default [] err)
  end.

Definition Run (old : nat) : M verdict :=
  Close ≫= fun e =>
  match e with
  | Some e => rollback old PhaseCutoff None e
  | None =>
      fallible QCtx ≫= fun e =>
      match e with
      | Some e => rollback old PhaseCutoff None e
      | None =>
          drain old ≫= fun e =>
          match e with
          | Some e =>
              rollback old (if Is (Some e) errDrainNotCommitted then PhaseCutoff else PhaseDrainAck) None e
          | None =>
              take_snapshot old ≫= fun r =>
              match r with
              | Ok snap =>
                  restore_and_promote old snap ≫= fun v =>
                  closeFDs (HostEnd old) [snap_fd snap] ≫= fun _ => mret v
              | Err e => rollback old PhaseSnapshot None e
              | Panic => mret Panicked
              end
          end
      end
  end.

(** ** The supervisor's side *)

Inductive reloadOutcome := reloadNone | reloadServiced | reloadNoop | reloadCrashEquivalent | reloadPanic.

(** [runReload] runs the transaction on the current instance and adopts the
    successor it promoted. *)
Definition runReload : M (outcome error (option error)) :=
  crit QCurrent (fun s => (s, current s)) ≫= fun old =>
  Run old ≫= fun v =>
  match v with
  | Promoted k e => crit (QAdopt k) (fun s => (with_current k s, tt)) ≫= fun _ => mret (Ok e)
  | Failed e => mret (Ok (Some e))
  | Panicked => mret Panic
  end.

Definition serviceReload : M reloadOutcome :=
  ask QRequest (fun x => match x with AEnd => Some true | _ => Some false end) ≫= fun waiting =>
  if negb waiting then mret reloadNone else
  fallible QRequestCtx ≫= fun e =>
  match e with
  | Some _ => mret reloadNoop
  | None =>
      runReload ≫= fun r =>
      mret match r with
           | Ok e =>
               if Is e ErrReloadCrashEquivalent then reloadCrashEquivalent
               else if Is e TagCanceled || Is e TagDeadlineExceeded then reloadNoop
               else reloadServiced
           | _ => reloadPanic
           end
  end.

(** One turn of a loop: it goes on, or it ends (the heartbeat loop, with what
    the reload it serviced came to). *)
Inductive turn := Goes | Ends (o : reloadOutcome).

(** One turn of the heartbeat loop.  Missed beats and verdicts are counted
    elsewhere; here a receive that times out goes round. *)
Definition heartbeat_turn : M turn :=
  crit QCurrent (fun s => (s, current s)) ≫= fun k =>
  RecvFDs (HostEnd k) false ≫= fun r =>
  match r with
  | Err e => mret (if Is (Some e) TagDeadlineExceeded then Goes else Ends reloadNone)
  | Panic => mret (Ends reloadNone)
  | Ok (None, _) => mret (Ends reloadNone)
  | Ok (Some (BodyHeartbeat n), _) =>
      serviceReload ≫= fun o =>
      match o with
      | reloadCrashEquivalent | reloadPanic => mret (Ends o)
      | reloadServiced => mret Goes
      | reloadNone | reloadNoop => Send (HostEnd k) (BodyHeartbeatAck n) ≫= fun _ => mret Goes
      end
  | Ok (Some _, _) => mret Goes
  end.

(** ** The instance's side *)

Inductive ReloadOutcome := ReloadRetired | ReloadRolledBack.

#[global] Instance ReloadOutcome_eq_dec : EqDecision ReloadOutcome.
Proof. solve_decision. Defined.

(** One mutator's [Freeze] or [Resume]; one that fails may leave it either
    way. *)
Definition set_frozen (j : nat) (b : bool) (a : instance) : instance := with_frozen (<[j := b]> (frozen a)) a.

Definition switch (k j : nat) (q : query) (b : bool) : M (option error) :=
  pact k q (fun x s =>
    match x with
    | AFail f => (s, Some (Done (Some (error_of f))))
    | APanic => (upd k (set_frozen j b) s, Some (Done (Some [TagHook])))
    | _ => (upd k (set_frozen j b) s, Some (Done None))
    end).

(** The mutators from the [j]th on, [n] of them. *)
Fixpoint freezeMutators (k j n : nat) : M (option error) :=
  match n with
  | O => mret None
  | S n => switch k j (QFreeze k j) true ≫= fun e =>
           match e with Some e => mret (Some e) | None => freezeMutators k (S j) n end
  end.

Fixpoint resumeMutators (k j n : nat) : M (option error) :=
  match n with
  | O => mret None
  | S n => switch k j (QThaw k j) false ≫= fun e =>
           match e with Some e => mret (Some e) | None => resumeMutators k (S j) n end
  end.

(** [recvDuringReload]: the kind of a message legal while draining, or that the
    connection ended ([None]). *)
Definition recvDuringReload (k : nat) : M (outcome error (option MessageKind)) :=
  RecvFDs (PluginEnd k) false ≫= fun r =>
  mret match r with
       | Err e => if Is (Some e) TagCanceled then Ok None else Err e
       | Panic => Panic
       | Ok (None, _) => Ok None
       | Ok (Some b, _) =>
           match kind_of b with
           | None => Ok None
           | Some kind => if Legal StateDraining kind then Ok (Some kind) else Err [TagProtocolViolation]
           end
       end.

Definition handleResume (k : nat) : M (outcome error ReloadOutcome) :=
  resumeMutators k 0 (Mutators (hooks_of cfg k)) ≫= fun e =>
  match e with
  | Some e => mret (Err e)
  | None =>
      Send (PluginEnd k) BodyResumeAck ≫= fun e =>
      mret match e with Some e => Err e | None => Ok ReloadRolledBack end
  end.

Definition awaitResumeOrExit (k : nat) : M (outcome error ReloadOutcome) :=
  recvDuringReload k ≫= fun r =>
  match r with
  | Err e => mret (Err e)
  | Panic => mret Panic
  | Ok None => mret (Ok ReloadRetired)
  | Ok (Some KindResume) => handleResume k
  | Ok (Some KindShutdown) => mret (Ok ReloadRetired)
  | Ok (Some _) => mret (Err [TagProtocolViolation])
  end.

Definition awaitSaveStateOutcome (k : nat) : M (outcome error ReloadOutcome) :=
  recvDuringReload k ≫= fun r =>
  match r with
  | Err e => mret (Err e)
  | Panic => mret Panic
  | Ok None => mret (Ok ReloadRetired)
  | Ok (Some KindSaveStateAck) => awaitResumeOrExit k
  | Ok (Some KindResume) => handleResume k
  | Ok (Some _) => mret (Err [TagProtocolViolation])
  end.

Definition loadStatePayload (k : nat) : M (outcome error (list Z)) :=
  match Saver (hooks_of cfg k) with
  | None => mret (Ok [])
  | Some save =>
      pact k (QSave k) (fun x s =>
        (s, Some (Done (match x with AFail f => Err (error_of f) | _ => Ok (save (effects (insts s k))) end))))
  end.

Definition build (k : nat) (payload : list Z) : M (outcome snap_error (nat * Z * list Z)) :=
  pact k (QBuild k) (fun x s =>
    match x with
    | ASys bad =>
        let '((fs, p), r) := BuildSnapshot (sha256 cfg) bad payload MaxSnapshotBytes (files s, res (insts s k)) in
        (with_files fs (upd k (with_res p) s), Some (Done r))
    | _ => (s, None)
    end).

Definition runSnapshotPhase (k : nat) : M (outcome error ReloadOutcome) :=
  loadStatePayload k ≫= fun r =>
  match r with
  | Ok payload =>
      build k payload ≫= fun r =>
      match r with
      | Ok (fd, declaredLen, _) =>
          let header := {| SnapshotFdCount := 1; DeclaredLength := declaredLen; FormatVersion := SnapshotFormatVersion |} in
          (SendFDs (PluginEnd k) (BodySaveState header) (Some fd) ≫= fun e =>
           match e with
           | Some e => mret (Err e)
           | None => awaitSaveStateOutcome k
           end) ≫= fun r =>
          closeFDs (PluginEnd k) [fd] ≫= fun _ => mret r
      | _ => awaitResumeOrExit k
      end
  | _ => awaitResumeOrExit k
  end.

(** [waitDrained], as the serving session supplies it.  What it promises when it
    returns nil is what the drain of the serving session was shown to give: with
    no request arriving since it began, none is left. *)
Definition waitDrained (k : nat) : M (option error) :=
  pcrit k (QQuiesce k) (fun s => (s, arrived (insts s k))) ≫= fun n0 =>
  pact k (QQuiet k) (fun x s =>
    match x with
    | AFail f => (s, Some (Done (Some (error_of f))))
    | _ =>
        let a := insts s k in
        if bool_decide (arrived a = n0 /\ reqs a <> []) then (s, None)
        else (upd k (with_phase Held) s, Some (Done None))
    end).

Definition ServeReloadAfterDrain (k : nat) : M (outcome error ReloadOutcome) :=
  freezeMutators k 0 (Mutators (hooks_of cfg k)) ≫= fun e =>
  match e with
  | Some e => mret (Err e)
  | None =>
      waitDrained k ≫= fun e =>
      match e with
      | Some _ => awaitResumeOrExit k
      | None =>
          Send (PluginEnd k) BodyDrainAck ≫= fun e =>
          match e with
          | Some e => mret (Err e)
          | None => runSnapshotPhase k
          end
      end
  end.

(** The successor's restore: the acknowledgement it sends. *)
Definition verifyAndRestore (k fd : nat) (declaredLen formatVersion : Z) : M bool :=
  let close ready :=
    closeFDs (PluginEnd k) [fd] ≫= fun _ => mret ready in
  pact k (QVerify (PluginEnd k)) (fun x s =>
    match x with
    | ASys bad =>
        let '((fs, p), r) := VerifySealedSnapshot (sha256 cfg) bad fd declaredLen (files s, res (insts s k)) in
        (with_files fs (upd k (with_res p) s), Some (Done (r, bad MunmapRead)))
    | _ => (s, None)
    end) ≫= fun '(r, leaks) =>
  match r with
  | Ok (data, _) =>
      let unmap ready :=
        (if (0 <? zlen data) && negb leaks
         then pcrit k (QClose (PluginEnd k)) (fun s => (upd k (fun a => with_res (unmap_file fd (res a)) a) s, tt))
         else mret tt) ≫= fun _ => close ready in
      match Restorer (hooks_of cfg k) with
      | None => unmap (zlen data =? 0)
      | Some restore =>
          pact k (QRestore k) (fun x s =>
            match x with
            | AFail _ => (s, Some (Done false))
            | _ => match restore formatVersion data with
                   | Some e => (upd k (with_effects e) s, Some (Done true))
                   | None => (s, Some (Done false))
                   end
            end) ≫= fun ok =>
          unmap ok
      end
  | _ => close false
  end.

Definition ServeRestore (k : nat) : M (option error) :=
  RecvFDs (PluginEnd k) true ≫= fun r =>
  match r with
  | Err e => mret (Some e)
  | Panic => mret (Some [])
  | Ok (b, l) =>
      match b, l with
      | Some (BodyRestore restore), [fd] =>
          verifyAndRestore k fd (DeclaredLength restore) (FormatVersion restore) ≫= fun ready =>
          Send (PluginEnd k) (BodyRestoreAck ready EmptyString)
      | _, _ => closeFDs (PluginEnd k) l ≫= fun _ => mret (Some [TagProtocolViolation])
      end
  end.

(** [handleReload]: whether the instance is retired. *)
Definition handleReload (k : nat) : M (outcome error bool) :=
  pcrit k (QPause k) (fun s => (upd k (with_beating false) s, tt)) ≫= fun _ =>
  ServeReloadAfterDrain k ≫= fun r =>
  match r with
  | Err e => mret (Err e)
  | Panic => mret Panic
  | Ok ReloadRolledBack =>
      pcrit k (QPause k) (fun s => (upd k (with_beating true) s, tt)) ≫= fun _ => mret (Ok false)
  | Ok ReloadRetired => mret (Ok true)
  end.

(** The process ends when serving does. *)
Definition exit_process (k : nat) : M turn := pcrit k (QExit k) (fun s => (upd k die s, Ends reloadNone)).

(** One turn of [dispatchControl].  A receive that a signal interrupted is
    retried at once: it has not answered yet. *)
Definition dispatch_turn (k : nat) : M turn :=
  RecvFDs (PluginEnd k) false ≫= fun r =>
  match r with
  | Err e => if Is (Some e) TagDeadlineExceeded then mret Goes else exit_process k
  | Panic => exit_process k
  | Ok (None, _) => exit_process k
  | Ok (Some (BodyShutdown _), _) => exit_process k
  | Ok (Some (BodyDrain _), _) =>
      handleReload k ≫= fun r =>
      match r with Ok false => mret Goes | _ => exit_process k end
  | Ok (Some _, _) => mret Goes
  end.

(** [runServing]: a successor restores before anything serves. *)
Definition runServing (k : nat) (successor : bool) : M turn :=
  (if successor then ServeRestore k else mret None) ≫= fun e =>
  match e with
  | Some _ => exit_process k
  | None => pcrit k (QServe k) (fun s => (upd k (fun a => with_beating true (with_phase Serving a)) s, Goes))
  end.

(** What else the process does: its reader handles queued requests, its mutators
    run unless frozen, its heartbeat sender sends, and it may die. *)
Definition activity (k : nat) : M unit :=
  pact k (QActivity k) (fun x s =>
    let a := insts s k in
    (match x with
     | AServe =>
         match reqs a with
         | c :: rest =>
             if decide (phase a = Restoring \/ phase a = Restored) then s
             else upd k (fun a => with_effects (effects a ++ [Handled c]) (with_reqs rest a)) s
         | [] => s
         end
     | ABackground j =>
         if decide (frozen a !! j = Some false) then upd k (fun a => with_effects (effects a ++ [Background j]) a) s else s
     | ABeat =>
         if beating a then upd k (fun a => with_p2h (p2h a ++ [(BodyHeartbeat 0, None)]) a) s else s
     | ADie => upd k die s
     | _ => s
     end, Some (Done tt))).

(** ** Goroutines

    The host's heartbeat loop, then for every instance its control loop, its
    other activity, and a caller. *)
Notation goroutine := (goroutine state query answer turn).

Definition looping (p : M turn) : turn -> option (M turn) := fun t => match t with Goes => Some p | Ends _ => None end.

Definition host_loop : goroutine := mkGo heartbeat_turn (looping heartbeat_turn).

(** An instance that is not spawned yet waits for its process. *)
Definition await_spawn (k : nat) : M unit :=
  Act (QServe k) (fun _ s => (s, if decide (k < born s)%nat then Some (Done tt) else None)).

Definition plugin_loop (k : nat) : goroutine :=
  mkGo (await_spawn k ≫= fun _ => runServing k (negb (bool_decide (k = 0%nat)))) (looping (dispatch_turn k)).

Definition forever (p : M unit) : M turn := p ≫= fun _ => mret Goes.

Definition activity_loop (k : nat) : goroutine :=
  mkGo (await_spawn k ≫= fun _ => forever (activity k)) (looping (forever (activity k))).

Definition caller_loop (i : nat) : goroutine := mkGo (forever (invokeCore i)) (looping (forever (invokeCore i))).

(** A first instance, promoted and routed, before it has started serving. *)
Definition fresh_state : state :=
  mkState true 0 None 0 ∅ ∅ (Some 0%nat) 0 1 (fun k => fresh (Mutators (hooks_of cfg k)) (if decide (k = 0%nat) then Idle else Fresh))
    [] no_resources [] [].

Definition site (n : nat) : pool state query answer turn :=
  (host_loop :: (seq 0 n ≫= fun j => [plugin_loop j; activity_loop j; caller_loop j]), fresh_state).

End transaction.

(** ** Deadlines *)

(** The deadline sent with Drain and the host's own: the instance's lies strictly after now and strictly before the
    host's, so an instance that answers in time is not given up on; the host's is within the budget and the caller's
    deadline, and leaves the full second of margin whenever it is more than a second away.  Only a budget of less than
    two nanoseconds, which admits no such pair, refuses to send Drain. *)
Theorem drain_deadlines_ordered now budget ctx :
  match drain_times now budget ctx with
  | Some (transmitted, hostWait) =>
      now < transmitted < hostWait /\ hostWait <= now + budget /\ (forall d, ctx = Some d -> hostWait <= d) /\
      (hostWait = now + budget \/ ctx = Some hostWait) /\
      (now + drainAckHostMargin < hostWait -> transmitted = hostWait - drainAckHostMargin)
  | None => budget < 2 \/ exists d, ctx = Some d /\ d - now < 2
  end.
Proof.
  unfold drain_times. set (w := match ctx with Some d => if d <? now + budget then d else now + budget | None => now + budget end).
  assert (Hw : w <= now + budget /\ (forall d, ctx = Some d -> w <= d) /\ (w = now + budget \/ ctx = Some w)).
  { subst w. destruct ctx as [d|]; [destruct (d <? now + budget) eqn:E|]; bool_to_prop; split_and!; try lia; auto;
      intros d' [= <-]; lia. }
  destruct Hw as (Hw1 & Hw2 & Hw3). destruct (w - now <? 2) eqn:E; bool_to_prop.
  - destruct Hw3 as [Ew|Ew]; [left; lia|right]. exists w. split; [done|lia].
  - assert (Hq : 2 <= w - now -> 1 <= Z.quot (w - now) 2 < w - now).
    { intros H. rewrite Z.quot_div_nonneg by lia. pose proof (Z.div_mod (w - now) 2 ltac:(lia)). pose proof (Z.mod_pos_bound (w - now) 2 ltac:(lia)). lia. }
    unfold drainAckHostMargin, Second, Millisecond in *. destruct (w - now <=? _) eqn:E'; bool_to_prop; split_and!; try done; lia.
Qed.

End Reload.
