(* ===== verification/ReloadProtocol.v ===== *)
(** * The conversation of a hot reload

    Host, instances and callers of [Reload] keep a shared invariant and
    guarantee to each other what they rely on.  The invariant ties where the
    host is in its conversation with an instance to where the instance is and to
    the datagrams in flight between them: what a message on its way says about
    its sender.  This file holds the invariant, the guarantees, the preservation
    of the invariant by every kind of step, and the callers and the instances'
    background activity; the instances' control loops are in [ReloadInstance],
    the host in [ReloadHost], and what follows for every schedule in
    [ReloadSafety]. *)

From Stdlib Require Import Strings.String.
From stdpp Require Import gmap functions.
From S2P Require Import Prelude ControlConn Interleave Reload.
Import ControlConn Reload.

Module ReloadProtocol.

Local Open Scope Z_scope.

(** The hooks and the drain budget are fixed throughout. *)
Existing Class config.

(** ** Roles *)

Inductive role := Host | Plugin (k : nat) | Activity (k : nat) | Caller (i : nat).

Definition role_of (i : nat) : role :=
  match i with
  | O => Host
  | S i => match (i mod 3)%nat with O => Plugin (i / 3)%nat | 1%nat => Activity (i / 3)%nat | _ => Caller (i / 3)%nat end
  end.

Lemma reload_role_of_inj i j : role_of i = role_of j -> i = j.
Proof.
  pose proof (fun i => Nat.div_mod_eq i 3) as Hd. pose proof (fun i => Nat.mod_upper_bound i 3 ltac:(done)) as Hm.
  destruct i as [|i], j as [|j]; cbn [role_of]; [done| | |]; try (pose proof (Hd i)); try (pose proof (Hd j));
    try (pose proof (Hm i)); try (pose proof (Hm j)); intros E; repeat case_match; try discriminate E;
    try (apply (f_equal (fun r => match r with Plugin x | Activity x | Caller x => x | Host => O end)) in E; cbv beta iota in E); lia.
Qed.

(** ** What is on its way

    The datagrams that move the conversation: Drain and Resume one way, DrainAck,
    SaveState and ResumeAck the other. *)

Inductive hword := HDrain | HResume.
Inductive pword := PDrainAck | PSave (h : SnapshotHeader) (f : option nat) | PResumeAck.

Definition to_h (d : datagram) : option hword :=
  match fst d with BodyDrain _ => Some HDrain | BodyResume => Some HResume | _ => None end.
Definition to_p (d : datagram) : option pword :=
  match fst d with
  | BodyDrainAck => Some PDrainAck
  | BodySaveState h => Some (PSave h (snd d))
  | BodyResumeAck => Some PResumeAck
  | _ => None
  end.

Definition heard (a : instance) : list hword := omap to_h (h2p a).
Definition said (a : instance) : list pword := omap to_p (p2h a).

(** The acknowledgement of a restored snapshot. *)
Definition acks (d : datagram) : bool := match fst d with BodyRestoreAck _ _ => true | _ => false end.
Definition readies (d : datagram) : bool := match fst d with BodyRestoreAck true _ => true | _ => false end.

(** An instance that takes calls, as far as its stage goes. *)
Definition thawed (p : stage) : bool :=
  match p with Freezing | Held | Thawing => false | _ => true end.

Definition is_background (e : effect) : Prop := match e with Background _ => True | Handled _ => False end.
Definition call_of (e : effect) : option Z := match e with Handled c => Some c | Background _ => None end.
Definition calls (l : list effect) : list Z := omap call_of l.

Lemma calls_app l1 l2 : calls (l1 ++ l2) = calls l1 ++ calls l2.
Proof. apply omap_app. Qed.

Lemma calls_background l : Forall is_background l -> calls l = [].
Proof. induction 1 as [|[c|j] l He _ IH]; [done|by destruct He|done]. Qed.

(** A memory file with a given content; a sealed one that a header describes. *)
Definition holds (fs : list memfd) (f : option nat) (bs : list Z) : Prop :=
  exists i m, f = Some i /\ fs !! i = Some m /\ content m = bs.

Definition sealed_copy (fs : list memfd) (h : SnapshotHeader) (f : option nat) (bs : list Z) : Prop :=
  DeclaredLength h = zlen bs /\ FormatVersion h = SnapshotFormatVersion /\
  exists i m, f = Some i /\ fs !! i = Some m /\ content m = bs /\ Z.land (seals m) snapshotSeals = snapshotSeals.

Lemma holds_mono fs fs' f bs : fs `prefix_of` fs' -> holds fs f bs -> holds fs' f bs.
Proof. intros Hp (i & m & -> & Hm & Hc). exists i, m. split_and!; [done| |done]. by eapply prefix_lookup_Some. Qed.

Lemma sealed_copy_mono fs fs' h f bs : fs `prefix_of` fs' -> sealed_copy fs h f bs -> sealed_copy fs' h f bs.
Proof.
  intros Hp (? & ? & i & m & -> & Hm & Hc & ?). split_and!; [done..|]. exists i, m. split_and!; try done.
  by eapply prefix_lookup_Some.
Qed.

Lemma sealed_copy_holds fs h f bs : sealed_copy fs h f bs -> holds fs f bs.
Proof. intros (_ & _ & i & m & -> & ? & ? & _). by exists i, m. Qed.

(** What an instance's invariant says, part by part. *)
Ltac open_ok H :=
  let Hl := fresh "Hlen" in let Hr := fresh "Hrun" in let Hh := fresh "Hheld" in
  let H1 := fresh "Hfirst" in let Hg := fresh "Hgiven" in let Ht := fresh "Htalk" in let Hf := fresh "Hfresh" in
  destruct H as [Hl Hr Hh H1 Hg Ht Hf].

Section safety.
Context {cfg : config}.

Definition saved_bytes (k : nat) (a : instance) : list Z :=
  match Saver (hooks_of cfg k) with Some save => save (effects a) | None => [] end.

(** An instance whose state is the one it was given, and what it has done
    since. *)
Definition restored (fs : list memfd) (k : nat) (a : instance) : Prop :=
  forall restore, Restorer (hooks_of cfg k) = Some restore ->
  exists h f bs e bg, given a = Some (h, f) /\ holds fs f bs /\ restore (FormatVersion h) bs = Some e /\
    effects a = e ++ bg /\ Forall is_background bg.

(** ** The conversation *)

Definition talk_ok (fs : list memfd) (k : nat) (a : instance) : Prop :=
  match talk a with
  | Fresh | Idle => heard a = [] /\ said a = [] /\ thawed (phase a) = true
  | Asked =>
      (heard a = [] \/ heard a = [HDrain] /\ said a = [] /\ thawed (phase a) = true) /\
      PResumeAck ∉ said a /\ phase a <> Thawing /\
      (said a <> [] -> (phase a = Held \/ phase a = Gone) /\ reqs a = []) /\
      (forall h f, PSave h f ∈ said a -> sealed_copy fs h f (saved_bytes k a))
  | Resuming =>
      (heard a = [] \/
       (heard a = [HResume] \/ heard a = [HDrain; HResume] /\ thawed (phase a) = true) /\
       PResumeAck ∉ said a /\ phase a <> Thawing) /\
      (phase a = Thawing -> PResumeAck ∉ said a) /\
      (PResumeAck ∈ said a ->
       (phase a = Serving \/ phase a = Gone) /\ exists pre, said a = pre ++ [PResumeAck] /\ PResumeAck ∉ pre)
  | Retired => (heard a = [] \/ phase a = Gone) /\ phase a <> Thawing
  end.

(** Before it is promoted an instance has no requests, and hears only of its
    snapshot. *)
Definition fresh_ok (fs : list memfd) (k : nat) (a : instance) : Prop :=
  talk a = Fresh ->
  reqs a = [] /\
  (forall d, d ∈ h2p a -> exists h, fst d = BodyRestore h) /\
  (forall d, d ∈ p2h a -> acks d = true -> phase a <> Restoring) /\
  (forall d, d ∈ p2h a -> readies d = true -> restored fs k a).

Record inst_ok (fs : list memfd) (k : nat) (a : instance) : Prop := mkInstOk {
  io_len : length (frozen a) = Mutators (hooks_of cfg k);
  io_running : thawed (phase a) = true -> phase a <> Gone -> Forall (eq false) (frozen a);
  io_held : phase a = Held -> Forall (eq true) (frozen a) /\ reqs a = [];
  io_first : phase a = Restoring -> k = 0%nat \/ talk a = Fresh \/ talk a = Retired;
  io_given : forall d h, d ∈ h2p a -> fst d = BodyRestore h -> given a = Some (h, snd d);
  io_talk : talk_ok fs k a;
  io_fresh : fresh_ok fs k a
}.

(** Savers and restorers that carry the whole state across. *)
Definition stateful : Prop :=
  forall i j, exists save restore, Saver (hooks_of cfg i) = Some save /\ Restorer (hooks_of cfg j) = Some restore /\
    forall e, restore SnapshotFormatVersion (save e) = Some e.

Record Inv (s : state) : Prop := mkInv {
  inv_active : active s = Z.of_nat (size (inside s));
  inv_drained : forall d, drained s = Some d -> 0 < active s /\ d ∉ closed s /\ (d < chans s)%nat;
  inv_closed : forall d, d ∈ closed s -> (d < chans s)%nat;
  inv_route : exists r, route s = Some r /\ (r < born s)%nat /\
    (talk (insts s r) <> Fresh /\ talk (insts s r) <> Retired) /\
    (open s = true \/ inside s <> ∅ -> talk (insts s r) = Idle);
  inv_steps : forall p, p ∈ steps s -> (fst p < born s)%nat;
  inv_inst : forall k, (k < born s)%nat -> inst_ok (files s) k (insts s k);
  inv_state : stateful -> forall r, route s = Some r -> calls (effects (insts s r)) ++ reqs (insts s r) = published s
}.

(** ** Guarantees *)

Definition host_same (s s' : state) : Prop :=
  open s' = open s /\ route s' = route s /\ current s' = current s /\ born s' = born s /\ host s' = host s /\
  steps s' = steps s /\ chans s' = chans s /\
  forall k, talk (insts s' k) = talk (insts s k) /\ given (insts s' k) = given (insts s k).

Definition gate_same (s s' : state) : Prop :=
  active s' = active s /\ drained s' = drained s /\ closed s' = closed s /\ inside s' = inside s.

(** What its own control loop may do to an instance. *)
Record pstep (a a' : instance) : Prop := mkPstep {
  ps_reqs : reqs a' = reqs a; ps_arrived : arrived a' = arrived a;
  ps_gone : phase a = Gone -> a' = a;
  ps_effects : effects a' = effects a \/ phase a = Restoring;
  ps_restoring : phase a' = Restoring -> phase a = Restoring;
  ps_held : phase a = Held -> phase a' = Held \/ phase a' = Gone \/ talk a = Resuming
}.

(** What the rest of its process may do. *)
Record astep (a a' : instance) : Prop := mkAstep {
  as_heard : heard a' = heard a; as_frozen : frozen a' = frozen a; as_arrived : arrived a' = arrived a;
  as_phase : phase a' = phase a \/ phase a' = Gone;
  as_gone : phase a = Gone -> a' = a;
  as_effects :
    (exists bg, Forall is_background bg /\ effects a' = effects a ++ bg /\ reqs a' = reqs a /\ (bg = [] \/ phase a <> Held)) \/
    (exists c, reqs a = c :: reqs a' /\ effects a' = effects a ++ [Handled c] /\ phase a <> Restoring /\ phase a <> Restored)
}.

(** What the host may do. *)
Record hstep (a a' : instance) : Prop := mkHstep {
  hs_reqs : reqs a' = reqs a; hs_arrived : arrived a' = arrived a; hs_effects : effects a' = effects a;
  hs_frozen : frozen a' = frozen a;
  hs_phase : phase a' = phase a \/ phase a' = Gone;
  hs_given : given a' = given a \/ given a = None;
  hs_talk :
    talk a' = talk a /\ heard a' = heard a \/
    talk a = Idle /\ talk a' = Asked /\ heard a' = heard a ++ [HDrain] \/
    talk a = Asked /\ talk a' = Resuming /\ heard a' = heard a ++ [HResume] \/
    talk a = Resuming /\ talk a' = Idle /\ heard a' = heard a \/
    talk a = Fresh /\ talk a' = Idle /\ heard a' = heard a \/
    talk a' = Retired /\ heard a' = heard a
}.

(** What a caller may do: publish to the routed instance from inside the gate. *)
Definition cstep (s : state) (i k : nat) (a a' : instance) : Prop :=
  a' = a \/ (i ∈ inside s /\ route s = Some k /\ talk a = Idle /\
             exists c, a' = with_arrived (S (arrived a)) (with_reqs (reqs a ++ [c]) a)).

Definition others_same (k : nat) (s s' : state) : Prop := forall j, j <> k -> insts s' j = insts s j.

Definition Guar (r : role) (q : query) (s s' : state) : Prop :=
  match r with
  | Host =>
      inside s' = inside s /\ active s' = active s /\ published s' = published s /\ files s' = files s /\
      closed s' = closed s /\ (born s <= born s')%nat /\ (forall k, (k < born s)%nat -> hstep (insts s k) (insts s' k)) /\
      (inside s <> ∅ -> route s' = route s) /\
      (forall k, (born s <= k < born s')%nat -> insts s' k = fresh (Mutators (hooks_of cfg k)) Fresh)
  | Plugin k =>
      host_same s s' /\ gate_same s s' /\ published s' = published s /\ files s `prefix_of` files s' /\
      others_same k s s' /\ pstep (insts s k) (insts s' k)
  | Activity k =>
      host_same s s' /\ gate_same s s' /\ published s' = published s /\ files s' = files s /\
      others_same k s s' /\ astep (insts s k) (insts s' k)
  | Caller i =>
      host_same s s' /\ files s' = files s /\ (forall j, j <> i -> j ∈ inside s' <-> j ∈ inside s) /\
      (open s = false -> inside s' ⊆ inside s) /\
      closed s ⊆ closed s' /\ (forall d, drained s = Some d -> drained s' = Some d \/ d ∈ closed s' /\ inside s' = ∅) /\
      (forall k, cstep s i k (insts s k) (insts s' k))
  end.

Definition Rel (r : role) (s s' : state) : Prop := exists r' q, r' <> r /\ Guar r' q s s'.

Lemma host_same_refl s : host_same s s.
Proof. by unfold host_same. Qed.
Lemma gate_same_refl s : gate_same s s.
Proof. by unfold gate_same. Qed.
Lemma pstep_refl a : pstep a a.
Proof. constructor; auto. Qed.
Lemma astep_refl a : astep a a.
Proof. constructor; auto. left. exists []. split_and!; auto. by rewrite app_nil_r. Qed.
Lemma hstep_refl a : hstep a a.
Proof. constructor; auto. Qed.

Lemma reload_Guar_refl r q s : Guar r q s s.
Proof.
  destruct r; simpl; split_and!; try done; auto using host_same_refl, gate_same_refl, pstep_refl, astep_refl, hstep_refl.
  - lia.
  - by left.
Qed.

Lemma reload_Compatible i j q s s' : i <> j -> Guar (role_of i) q s s' -> Rel (role_of j) s s'.
Proof. intros Hne HG. exists (role_of i), q. split; [|done]. intros E. by apply Hne, reload_role_of_inj. Qed.

(** ** What each role may rely on *)

(** The listening side of an instance in its dispatch loop: a Resume is always
    behind the Drain it answers. *)
Definition hears (a : instance) : Prop :=
  (talk a = Asked -> heard a = [HDrain]) /\
  (talk a = Resuming -> heard a = [HDrain; HResume] \/ heard a = []).

Record prel (a a' : instance) : Prop := mkPrel {
  pr_phase : phase a' = phase a \/ phase a' = Gone;
  pr_frozen : frozen a' = frozen a;
  pr_given : given a' = given a \/ given a = None;
  pr_hears : hears a -> hears a';
  pr_restoring : phase a = Restoring -> exists bg, Forall is_background bg /\ effects a' = effects a ++ bg;
  pr_held : phase a = Held -> effects a' = effects a;
  pr_arrived : thawed (phase a) = false -> arrived a' = arrived a
}.

Lemma prel_refl a : prel a a.
Proof. constructor; auto. exists []. by rewrite app_nil_r. Qed.

Lemma talk_thawed fs k a : talk_ok fs k a -> talk a = Idle \/ talk a = Fresh -> thawed (phase a) = true /\ heard a = [] /\ said a = [].
Proof. unfold talk_ok. intros H [E|E]; rewrite E in H; tauto. Qed.

Lemma hstep_prel fs k a a' : inst_ok fs k a -> hstep a a' -> prel a a'.
Proof.
  intros Hok [? ? He ? ? ? Ht]. constructor; auto.
  - intros [Ha Hr]. assert (Hi : talk a = Idle -> heard a = []) by (intros E; by apply (talk_thawed fs k a (io_talk _ _ _ Hok) (or_introl E))).
    unfold hears. destruct Ht as [[-> ->]|[(E & -> & ->)|[(E & -> & ->)|[(E & -> & ->)|[(E & -> & ->)|[-> ->]]]]]]; try (by split).
    + rewrite (Hi E). by split.
    + rewrite (Ha E). split; [done|]. by left.
  - intros _. exists []. by rewrite app_nil_r.
Qed.

Lemma astep_prel fs k a a' :
  inst_ok fs k a -> talk a' = talk a -> given a' = given a -> astep a a' -> prel a a'.
Proof.
  intros Hok Et Eg [Hh ? ? ? ? He]. constructor; auto.
  - unfold hears. by rewrite Et, Hh.
  - intros E. destruct He as [(bg & ? & ? & _)|(c & _ & _ & N & _)]; [by exists bg|by destruct N].
  - intros E. destruct He as [(bg & _ & -> & _ & [->|N])|(c & Ec & _)]; [by rewrite app_nil_r|by destruct N|].
    destruct (io_held _ _ _ Hok E) as [_ Hr]. by rewrite Hr in Ec.
Qed.

Lemma cstep_prel s i k fs a a' : inst_ok fs k a -> cstep s i k a a' -> prel a a'.
Proof.
  intros Hok [->|(_ & _ & Ei & c & ->)]; [apply prel_refl|]. constructor; auto.
  - intros _. exists []. simpl. by rewrite app_nil_r.
  - simpl. intros E. destruct (talk_thawed fs k a (io_talk _ _ _ Hok) (or_introl Ei)). congruence.
Qed.

Lemma Rel_plugin k s s' :
  Inv s -> Rel (Plugin k) s s' -> (k < born s)%nat ->
  (k < born s')%nat /\ files s `prefix_of` files s' /\ prel (insts s k) (insts s' k).
Proof.
  intros Hi (r & q & Hr & HG) Hk. pose proof (inv_inst s Hi k Hk) as Hok.
  destruct r as [|j|j|i]; simpl in HG.
  - destruct HG as (_ & _ & _ & -> & _ & ? & Hh & _ & _). split_and!; [lia|done|]. eapply hstep_prel; [done|]. by apply Hh.
  - destruct HG as ((_ & _ & _ & -> & _) & _ & _ & ? & Ho & _). split_and!; [done..|].
    rewrite (Ho k) by congruence. apply prel_refl.
  - destruct HG as ((_ & _ & _ & -> & _ & _ & _ & Ht) & _ & _ & -> & Ho & Ha). split_and!; [done..|].
    destruct (decide (j = k)) as [->|]; [|rewrite (Ho k) by congruence; apply prel_refl].
    destruct (Ht k). by eapply astep_prel.
  - destruct HG as ((_ & _ & _ & -> & _) & -> & _ & _ & _ & _ & Hc). split_and!; [done..|]. by eapply cstep_prel.
Qed.

(** What the host relies on: the drained instance stays as it is, the newcomer
    only adds background effects. *)
Definition stilled (e : list effect) (a : instance) : Prop :=
  talk a = Asked /\ (phase a = Held \/ phase a = Gone) /\ reqs a = [] /\ effects a = e.

Record hrel (a a' : instance) : Prop := mkHrel {
  hr_gone : phase a = Gone -> phase a' = Gone;
  hr_stilled : forall e, stilled e a -> stilled e a';
  hr_ready : talk a = Fresh -> phase a <> Restoring ->
    phase a' <> Restoring /\ exists bg, Forall is_background bg /\ effects a' = effects a ++ bg
}.

Lemma hrel_refl a : hrel a a.
Proof. constructor; auto. intros _ ?. split; [done|]. exists []. by rewrite app_nil_r. Qed.

Lemma pstep_hrel a a' : talk a' = talk a -> pstep a a' -> hrel a a'.
Proof.
  intros Et [Hr _ Hg He Hre Hh]. constructor.
  - intros E. by rewrite (Hg E).
  - intros e (Ea & Hp & Eq & Ee). unfold stilled. rewrite Et, Hr. split_and!; [done| |done|].
    + destruct Hp as [E|E]; [|rewrite (Hg E); auto]. destruct (Hh E) as [|[|]]; auto. congruence.
    + destruct He as [->|E]; [done|]. destruct Hp; congruence.
  - intros _ Hn. split; [by auto|]. destruct He as [->|E]; [|done]. exists []. by rewrite app_nil_r.
Qed.

Lemma astep_hrel fs k a a' : inst_ok fs k a -> talk a' = talk a -> astep a a' -> hrel a a'.
Proof.
  intros Hok Et [_ _ _ Hp Hg He]. constructor.
  - intros E. by rewrite (Hg E).
  - intros e (Ea & Hph & Eq & Ee). destruct Hph as [E|E]; [|rewrite (Hg E); unfold stilled; auto].
    unfold stilled. rewrite Et. destruct He as [(bg & _ & -> & -> & [->|N])|(c & Ec & _)]; [|done|by rewrite Eq in Ec].
    rewrite app_nil_r. split_and!; auto. rewrite <- E. by destruct Hp as [->| ->]; auto.
  - intros Ef Hn. split; [destruct Hp; congruence|].
    destruct He as [(bg & ? & ? & _)|(c & Ec & _)]; [by exists bg|].
    destruct (io_fresh _ _ _ Hok Ef) as [Hr _]. by rewrite Hr in Ec.
Qed.

Lemma cstep_hrel s i k a a' : cstep s i k a a' -> hrel a a'.
Proof.
  intros [->|(_ & _ & Ei & c & ->)]; [apply hrel_refl|]. constructor; simpl; [done| |congruence].
  intros e (? & _). simpl in *. congruence.
Qed.

(** A cutoff waiting for the callers inside. *)
Definition joining (d : nat) (s : state) : Prop :=
  open s = false /\ (drained s = Some d \/ d ∈ closed s /\ inside s = ∅).

Lemma Rel_host s s' :
  Inv s -> Rel Host s s' ->
  host_same s s' /\ files s `prefix_of` files s' /\ (open s = false -> inside s = ∅ -> inside s' = ∅) /\
  (forall d, joining d s -> joining d s') /\
  forall k, (k < born s)%nat -> hrel (insts s k) (insts s' k).
Proof.
  intros Hi (r & q & Hr & HG). destruct r as [|j|j|i]; simpl in HG; [done|..].
  - destruct HG as (Hh & (_ & Hd & Hc & Hin) & _ & Hf & Ho & Hp). pose proof (proj1 Hh) as Eo.
    split_and!; auto; [by rewrite Hin|unfold joining; by rewrite Eo, Hd, Hc, Hin|].
    intros k Hk. destruct (decide (j = k)) as [->|]; [|rewrite (Ho k) by congruence; apply hrel_refl].
    apply pstep_hrel; [|done]. apply Hh.
  - destruct HG as (Hh & (_ & Hd & Hc & Hin) & _ & -> & Ho & Ha). pose proof (proj1 Hh) as Eo.
    split_and!; auto; [by rewrite Hin|unfold joining; by rewrite Eo, Hd, Hc, Hin|].
    intros k Hk. destruct (decide (j = k)) as [->|]; [|rewrite (Ho k) by congruence; apply hrel_refl].
    eapply astep_hrel; [by apply inv_inst| |done]. apply Hh.
  - destruct HG as (Hh & -> & _ & Hs & Hcl & Hd & Hc). assert (Hem : open s = false -> inside s = ∅ -> inside s' = ∅).
    { intros E Ei. specialize (Hs E). rewrite Ei in Hs. clear -Hs. set_solver. }
    pose proof (proj1 Hh) as Eo. split_and!; auto.
    + unfold joining. rewrite Eo. intros d [E [Ed|[Ed Ei]]]; (split; [done|]); [by apply Hd|]. right. split; [by apply Hcl|by apply Hem].
    + intros k _. by eapply cstep_hrel.
Qed.

Lemma Rel_caller i s s' :
  Rel (Caller i) s s' -> i ∈ inside s -> i ∈ inside s' /\ route s' = route s.
Proof.
  intros (r & q & Hr & HG) Hin. destruct r as [|j|j|j]; simpl in HG.
  - destruct HG as (-> & _ & _ & _ & _ & _ & _ & Hro & _). split; [done|]. apply Hro. clear -Hin. set_solver.
  - destruct HG as ((_ & -> & _) & (_ & _ & _ & ->) & _). done.
  - destruct HG as ((_ & -> & _) & (_ & _ & _ & ->) & _). done.
  - destruct HG as ((_ & -> & _) & _ & Hj & _). split; [|done]. apply Hj; [congruence|done].
Qed.

(** ** The invariant of an instance, step by step *)

Lemma restored_mono fs fs' k a : fs `prefix_of` fs' -> restored fs k a -> restored fs' k a.
Proof.
  intros Hp H restore HR. destruct (H restore HR) as (h & f & bs & e & bg & ? & ? & ?). exists h, f, bs, e, bg.
  split_and!; try tauto. by eapply holds_mono.
Qed.

Lemma inst_ok_mono fs fs' k a : fs `prefix_of` fs' -> inst_ok fs k a -> inst_ok fs' k a.
Proof.
  intros Hp [? ? ? ? ? Ht Hf]. constructor; auto.
  - unfold talk_ok in *. destruct (talk a); try done. destruct Ht as (? & ? & ? & ? & Hs). split_and!; try done.
    intros h f Hin. eapply sealed_copy_mono; [done|by apply Hs].
  - intros E. destruct (Hf E) as (? & ? & ? & Hr). split_and!; try done. intros d Hd He.
    eapply restored_mono; [done|by eapply Hr].
Qed.

(** Only what the invariant speaks of matters. *)
Lemma inst_ok_same fs k a a' :
  h2p a' = h2p a -> p2h a' = p2h a -> reqs a' = reqs a -> effects a' = effects a -> frozen a' = frozen a ->
  phase a' = phase a -> talk a' = talk a -> given a' = given a -> inst_ok fs k a -> inst_ok fs k a'.
Proof.
  intros Eh Ep Er Ee Ef Eph Et Eg [? ? ? ? ? Ht Hf].
  constructor; unfold talk_ok, fresh_ok, restored, heard, said, saved_bytes in *; by rewrite ?Eh, ?Ep, ?Er, ?Ee, ?Ef, ?Eph, ?Et, ?Eg.
Qed.

(** The words of a conversation that a stage excludes. *)
Lemma heard_cons d l : omap to_h (d :: l) = match to_h d with Some w => w :: omap to_h l | None => omap to_h l end.
Proof. done. Qed.
Lemma said_cons d l : omap to_p (d :: l) = match to_p d with Some w => w :: omap to_p l | None => omap to_p l end.
Proof. done. Qed.
Lemma said_snoc d l : omap to_p (l ++ [d]) = omap to_p l ++ match to_p d with Some w => [w] | None => [] end.
Proof. rewrite omap_app. simpl. by destruct (to_p d). Qed.
Lemma heard_snoc d l : omap to_h (l ++ [d]) = omap to_h l ++ match to_h d with Some w => [w] | None => [] end.
Proof. rewrite omap_app. simpl. by destruct (to_h d). Qed.


(** A process may end at any time. *)
Lemma ok_die fs k a : inst_ok fs k a -> inst_ok fs k (die a).
Proof.
  intros H. open_ok H. constructor; simpl; try done.
  - unfold talk_ok in *. change (heard (die a)) with (heard a). change (said (die a)) with (said a).
    simpl. destruct (talk a); try (by destruct Htalk as (? & ? & ?)).
    + destruct Htalk as (Hh & ? & ? & Hs & ?). split_and!; try done; [naive_solver|].
      intros Hne. by destruct (Hs Hne); auto.
    + destruct Htalk as (Hh & ? & Hs). split_and!; try done; naive_solver.
    + split; [by right|done].
  - unfold fresh_ok in *. simpl. intros E. destruct (Hfresh E) as (? & ? & ? & ?). by split_and!.
Qed.

(** A datagram to the instance is gone from the wire. *)
Lemma ok_drop_h fs k a d rest : h2p a = d :: rest -> inst_ok fs k a -> inst_ok fs k (with_h2p rest a).
Proof.
  intros E H. open_ok H. constructor; auto.
  - simpl. intros d' h Hd'. apply Hgiven. rewrite E. by right.
  - unfold talk_ok, heard in *. simpl. change (said (with_h2p rest a)) with (said a).
    rewrite E, heard_cons in Htalk. destruct (to_h d) as [w|]; [|exact Htalk]. destruct (talk a).
    1, 2: by destruct Htalk as (? & _).
    3: destruct Htalk as [[|] ?]; [done|]; split; [by right|done].
    + destruct Htalk as (Hh & ?). split; [|done]. destruct Hh as [|(Hh & _)]; [done|]. left. by injection Hh.
    + destruct Htalk as (Hh & ?). split; [|done]. destruct Hh as [|([Hh|[Hh Hp]] & ? & ?)]; [done| |].
      * left. by injection Hh.
      * right. split_and!; try done. left. by injection Hh.
  - unfold fresh_ok in *. simpl. intros Ef. destruct (Hfresh Ef) as (? & Hd & ? & ?). split_and!; try done.
    intros d' Hd'. apply Hd. rewrite E. by right.
Qed.

(** Drain is heard in the dispatch loop, Resume while waiting. *)
Lemma ok_hear_drain fs k a t f rest :
  h2p a = (BodyDrain t, f) :: rest -> thawed (phase a) = true -> phase a <> Gone -> hears a ->
  inst_ok fs k a -> inst_ok fs k (with_phase Freezing (with_h2p rest a)) /\ talk a <> Fresh.
Proof.
  intros E Hth Hg [Ha Hre] H. assert (Hh : heard a = HDrain :: omap to_h rest) by (unfold heard; by rewrite E).
  open_ok H. assert (Hnf : talk a <> Fresh).
  { intros Ef. unfold talk_ok in Htalk. rewrite Ef in Htalk. destruct Htalk as (? & _). congruence. }
  split; [|done]. constructor; try done; [intros d h Hd; apply Hgiven; rewrite E; by right|].
  unfold talk_ok in *. change (heard (with_phase Freezing (with_h2p rest a))) with (omap to_h rest).
  change (said (with_phase Freezing (with_h2p rest a))) with (said a). simpl.
  rewrite Hh in *. destruct (talk a); try (by destruct Htalk).
  - destruct Htalk as (Hw & ? & ? & Hs & ?). specialize (Ha eq_refl). injection Ha as ->.
    destruct Hw as [|(_ & Hsaid & _)]; [done|]. rewrite Hsaid. split_and!; [by left|apply not_elem_of_nil|done|done|].
    intros ?? Hin. by apply elem_of_nil in Hin.
  - destruct Htalk as (Hw & ? & Hs). destruct (Hre eq_refl) as [Hre'|?]; [|done]. injection Hre' as ->.
    destruct Hw as [|(_ & Hn & _)]; [done|]. split_and!; [|done|by intros ?].
    right. split_and!; [by left|done|done].
  - by destruct Htalk as [[|] _].
Qed.

Lemma ok_hear_resume fs k a f rest :
  h2p a = (BodyResume, f) :: rest -> phase a = Freezing \/ phase a = Held ->
  inst_ok fs k a -> inst_ok fs k (with_phase Thawing (with_h2p rest a)) /\ talk a = Resuming.
Proof.
  intros E Hp H. assert (Hh : heard a = HResume :: omap to_h rest) by (unfold heard; by rewrite E).
  open_ok H. assert (talk a = Resuming).
  { unfold talk_ok in Htalk. rewrite Hh in Htalk. destruct (talk a); try done.
    1, 2: by destruct Htalk as (? & _).
    - by destruct Htalk as ([|(? & _)] & _).
    - destruct Htalk as [[|] _]; [done|]. destruct Hp; congruence. }
  split; [|done]. constructor; try done.
  - intros d h Hd. apply Hgiven. rewrite E. by right.
  - unfold talk_ok in *. change (heard (with_phase Thawing (with_h2p rest a))) with (omap to_h rest).
    change (said (with_phase Thawing (with_h2p rest a))) with (said a). simpl. rewrite H in *. rewrite Hh in Htalk.
    destruct Htalk as (Hw & _ & Hs). destruct Hw as [|([Hw|[Hw _]] & Hn & _)]; [done| |done]. injection Hw as Hw.
    split_and!; [by left|done|by intros ?].
  - unfold fresh_ok. simpl. congruence.
Qed.

(** What the instance says. *)
Lemma said_push a d : said (with_p2h (p2h a ++ [d]) a) = said a ++ match to_p d with Some w => [w] | None => [] end.
Proof. unfold said. simpl. apply said_snoc. Qed.

Lemma ok_say_quiet fs k a d :
  to_p d = None -> acks d = false -> inst_ok fs k a -> inst_ok fs k (with_p2h (p2h a ++ [d]) a).
Proof.
  intros Ed Ea H. open_ok H. constructor; auto.
  - unfold talk_ok in *. rewrite said_push, Ed, app_nil_r. done.
  - unfold fresh_ok in *. simpl. intros Ef. destruct (Hfresh Ef) as (? & ? & Hac & Hre). split_and!; auto.
    + intros d' [Hd|Hd%list_elem_of_singleton]%elem_of_app; [by apply Hac|congruence].
    + intros d' [Hd|Hd%list_elem_of_singleton]%elem_of_app; [by apply Hre|]. subst d'.
      unfold acks, readies in *. by destruct (fst d).
Qed.

Lemma held_talk fs k a : inst_ok fs k a -> phase a = Freezing \/ phase a = Held -> talk a = Asked \/ talk a = Resuming \/ talk a = Retired.
Proof.
  intros H Hp. open_ok H. unfold talk_ok in Htalk. destruct (talk a); auto; destruct Htalk as (_ & _ & Ht);
    destruct Hp as [E|E]; by rewrite E in Ht.
Qed.

Lemma ok_say_held fs k a d w :
  to_p d = Some w -> w <> PResumeAck -> (forall h f, w = PSave h f -> sealed_copy fs h f (saved_bytes k a)) ->
  phase a = Held -> inst_ok fs k a -> inst_ok fs k (with_p2h (p2h a ++ [d]) a).
Proof.
  intros Ed Hw Hsv Hp H. pose proof (held_talk _ _ _ H (or_intror Hp)) as Ht. open_ok H. constructor; auto.
  2:{ unfold fresh_ok. simpl. intros Ef. rewrite Ef in Ht. by destruct Ht as [|[|]]. }
  unfold talk_ok in *. rewrite said_push, Ed. change (heard (with_p2h (p2h a ++ [d]) a)) with (heard a). simpl.
  destruct Ht as [E|[E|E]]; rewrite E in *.
  - destruct Htalk as (Hh & Hn & ? & Hs & Hc). destruct (Hheld Hp) as [_ Hr]. split_and!; auto.
    + destruct Hh as [|(_ & _ & Ht)]; [by left|by rewrite Hp in Ht].
    + rewrite elem_of_app, list_elem_of_singleton. intros [|]; [by apply Hn|congruence].
    + intros h f [Hin|Hin%list_elem_of_singleton]%elem_of_app; [by apply Hc|by apply Hsv].
  - destruct Htalk as (Hh & ? & Hs).
    assert (Hn : PResumeAck ∉ said a) by (intros Hin; destruct (Hs Hin) as [[|] _]; congruence).
    assert (Hn' : PResumeAck ∉ said a ++ [w]) by (rewrite elem_of_app, list_elem_of_singleton; intros [|]; [done|congruence]).
    split_and!; auto; [|by intros ?]. destruct Hh as [|(? & _ & ?)]; [by left|]. right. by split_and!.
  - done.
Qed.

Lemma ok_say_resumed fs k a f :
  phase a = Thawing -> Forall (eq false) (frozen a) -> inst_ok fs k a ->
  inst_ok fs k (with_phase Serving (with_p2h (p2h a ++ [(BodyResumeAck, f)]) a)) /\ talk a = Resuming /\ heard a = [].
Proof.
  intros Hp Hff H. open_ok H. assert (Ht : talk a = Resuming).
  { unfold talk_ok in Htalk. rewrite Hp in Htalk. destruct (talk a); try done.
    1, 2: by destruct Htalk as (_ & _ & ?).
    - by destruct Htalk as (_ & _ & ? & _).
    - by destruct Htalk. }
  unfold talk_ok in Htalk. rewrite Ht in Htalk. destruct Htalk as (Hh & Hn & Hs). specialize (Hn Hp).
  destruct Hh as [Hh|(_ & _ & ?)]; [|done]. split; [|done]. constructor; try done.
  - unfold talk_ok. simpl. rewrite Ht.
    change (heard (with_phase Serving (with_p2h (p2h a ++ [(BodyResumeAck, f)]) a))) with (heard a).
    change (said (with_phase Serving (with_p2h (p2h a ++ [(BodyResumeAck, f)]) a))) with (said (with_p2h (p2h a ++ [(BodyResumeAck, f)]) a)).
    rewrite said_push. simpl. split_and!; auto; [done|]. intros _. split; [by left|]. by exists (said a).
  - unfold fresh_ok. simpl. congruence.
Qed.

Lemma ok_say_ready fs k a b r f :
  phase a = Restoring -> (b = true -> restored fs k a) -> inst_ok fs k a ->
  inst_ok fs k (with_phase Restored (with_p2h (p2h a ++ [(BodyRestoreAck b r, f)]) a)).
Proof.
  intros Hp Hb H. open_ok H. constructor; try done.
  - intros _ _. apply Hrun; by rewrite Hp.
  - unfold talk_ok in *.
    change (heard (with_phase Restored (with_p2h (p2h a ++ [(BodyRestoreAck b r, f)]) a))) with (heard a).
    change (said (with_phase Restored (with_p2h (p2h a ++ [(BodyRestoreAck b r, f)]) a))) with (said (with_p2h (p2h a ++ [(BodyRestoreAck b r, f)]) a)).
    rewrite said_push, app_nil_r. simpl. rewrite Hp in Htalk. destruct (talk a); try done.
    + destruct Htalk as (? & ? & ? & Hs & ?). split_and!; try done. intros Hne. by destruct (Hs Hne) as [[|] _].
    + destruct Htalk as (Hh & ? & Hs). split_and!; try done; [|by intros Hin; destruct (Hs Hin) as [[|] _]].
      by destruct Hh as [|(? & ? & _)]; auto.
    + by destruct Htalk as [[|] _]; auto.
  - unfold fresh_ok in *. simpl. intros Ef. destruct (Hfresh Ef) as (? & ? & ? & Hre). split_and!; auto.
    intros d [Hd|Hd%list_elem_of_singleton]%elem_of_app; [by apply Hre|]. subst d. unfold readies. simpl.
    intros Hr. apply Hb. by destruct b.
Qed.

(** Stages an instance moves through on its own. *)
Lemma ok_hold fs k a :
  phase a = Freezing -> Forall (eq true) (frozen a) -> reqs a = [] -> inst_ok fs k a -> inst_ok fs k (with_phase Held a).
Proof.
  intros Hp Hff Hr H. pose proof (held_talk _ _ _ H (or_introl Hp)) as Ht. open_ok H. constructor; try done.
  2:{ unfold fresh_ok. simpl. intros Ef. rewrite Ef in Ht. by destruct Ht as [|[|]]. }
  unfold talk_ok in *. change (heard (with_phase Held a)) with (heard a). change (said (with_phase Held a)) with (said a).
  simpl. rewrite Hp in Htalk. destruct Ht as [E|[E|E]]; rewrite E in *.
  - destruct Htalk as (Hh & ? & ? & Hs & ?). split_and!; try done; first [by auto|destruct Hh as [|(_ & _ & ?)]; [by left|done]].
  - destruct Htalk as (Hh & ? & Hs). split_and!; try done; [|by intros Hin; destruct (Hs Hin) as [[|] _]].
    destruct Hh as [|([|[_ ?]] & ? & _)]; [by left| |done]. right. split_and!; auto.
  - by destruct Htalk as [[|] _]; auto.
Qed.

Lemma ok_serve fs k a :
  phase a = Restoring \/ phase a = Restored -> inst_ok fs k a -> inst_ok fs k (with_beating true (with_phase Serving a)).
Proof.
  intros Hp H. assert (Hth : thawed (phase a) = true) by (by destruct Hp as [-> | ->]).
  assert (Hno : phase a <> Held /\ phase a <> Gone /\ phase a <> Serving) by (destruct Hp as [-> | ->]; by split_and!).
  open_ok H. destruct Hno as (? & ? & ?). constructor; try done; [by auto| |].
  - unfold talk_ok in *. change (heard (with_beating true (with_phase Serving a))) with (heard a).
    change (said (with_beating true (with_phase Serving a))) with (said a). simpl.
    destruct (talk a); try done; try (by destruct Htalk as (? & ? & _)).
    + destruct Htalk as (Hh & ? & ? & Hs & ?). split_and!; try done; [|by intros Hne; destruct (Hs Hne) as [[|] _]].
      destruct Hh as [|(? & ? & _)]; auto.
    + destruct Htalk as (Hh & ? & Hs). split_and!; try done; [|by intros Hin; destruct (Hs Hin) as [[|] _]].
      destruct Hh as [|([|[? _]] & ? & _)]; auto 7.
    + destruct Htalk as [[|] _]; auto. done.
  - unfold fresh_ok in *. simpl. intros Ef. destruct (Hfresh Ef) as (? & ? & ? & ?). by split_and!.
Qed.

Lemma ok_switch fs k a j b :
  phase a = Freezing \/ phase a = Thawing -> inst_ok fs k a -> inst_ok fs k (set_frozen j b a).
Proof.
  intros Hp H. open_ok H. constructor; simpl; try done.
  - by rewrite length_insert.
  - intros Ht. by destruct Hp as [E|E]; rewrite E in Ht.
  - intros E. destruct Hp; congruence.
Qed.

(** Background work and handled requests. *)
Lemma ok_background fs k a j :
  frozen a !! j = Some false -> phase a <> Gone -> inst_ok fs k a ->
  inst_ok fs k (with_effects (effects a ++ [Background j]) a) /\ phase a <> Held.
Proof.
  intros Hj Hg H. open_ok H.
  assert (Hnh : phase a <> Held).
  { intros E. destruct (Hheld E) as [Ht _]. by pose proof (Forall_lookup_1 _ _ _ _ Ht Hj). }
  split; [|done]. constructor; auto.
  - unfold talk_ok in *. simpl. destruct (talk a); try done. destruct Htalk as (? & ? & ? & Hs & ?). split_and!; try done.
    intros h f Hin. destruct Hs as [[|] _]; [|done..]. change (said (with_effects (effects a ++ [Background j]) a)) with (said a) in Hin.
    intros E. by rewrite E in Hin; apply elem_of_nil in Hin.
  - unfold fresh_ok in *. simpl. intros Ef. destruct (Hfresh Ef) as (? & ? & ? & Hre). split_and!; try done.
    intros d Hd Hr restore HR. destruct (Hre d Hd Hr restore HR) as (h & f & bs & e & bg & ? & ? & ? & He & ?).
    exists h, f, bs, e, (bg ++ [Background j]). simpl. rewrite He, app_assoc. split_and!; try done.
    apply Forall_app. by repeat constructor.
Qed.

Lemma ok_handle fs k a c rest :
  reqs a = c :: rest -> phase a <> Gone -> inst_ok fs k a ->
  inst_ok fs k (with_effects (effects a ++ [Handled c]) (with_reqs rest a)) /\ talk a <> Fresh.
Proof.
  intros Er Hg H. open_ok H. assert (talk a <> Fresh) by (intros Ef; destruct (Hfresh Ef); congruence). split; [|done].
  constructor; auto; simpl.
  - intros E. destruct (Hheld E). congruence.
  - unfold talk_ok in *. simpl. destruct (talk a); try done. destruct Htalk as (? & ? & ? & Hs & ?).
    assert (Hsn : said a = []) by (destruct (said a) as [|w l]; [done|]; destruct Hs as [_ ?]; [done|congruence]).
    change (said (with_effects (effects a ++ [Handled c]) (with_reqs rest a))) with (said a). rewrite Hsn in *.
    split_and!; try done. intros h f Hin. by apply elem_of_nil in Hin.
  - unfold fresh_ok. simpl. congruence.
Qed.

Lemma ok_restore fs k a e :
  phase a = Restoring -> k <> 0%nat -> inst_ok fs k a -> inst_ok fs k (with_effects e a).
Proof.
  intros Hp Hk H. open_ok H. constructor; auto.
  - unfold talk_ok in *. simpl. destruct (Hfirst Hp) as [|[E|E]]; [done|by rewrite E in *..].
  - unfold fresh_ok in *. simpl. intros Ef. destruct (Hfresh Ef) as (? & ? & Hac & ?). split_and!; try done.
    intros d Hd Hr. exfalso. apply (Hac d Hd); [|done]. unfold readies, acks in *. by destruct (fst d).
Qed.

Lemma ok_publish fs k a c :
  talk a = Idle -> inst_ok fs k a -> inst_ok fs k (with_arrived (S (arrived a)) (with_reqs (reqs a ++ [c]) a)).
Proof.
  intros E H. destruct (talk_thawed fs k a (io_talk _ _ _ H) (or_introl E)) as (Ht & _). open_ok H.
  constructor; simpl; try done.
  - intros Ep. by rewrite Ep in Ht.
  - unfold talk_ok in *. simpl. rewrite E in *. done.
  - unfold fresh_ok. simpl. congruence.
Qed.

(** ** What the host says and hears *)

Lemma heard_push a d : heard (with_h2p (h2p a ++ [d]) a) = heard a ++ match to_h d with Some w => [w] | None => [] end.
Proof. unfold heard. simpl. apply heard_snoc. Qed.

Lemma given_push a d :
  (forall h, fst d <> BodyRestore h) -> (forall d h, d ∈ h2p a -> fst d = BodyRestore h -> given a = Some (h, snd d)) ->
  forall d' h, d' ∈ h2p a ++ [d] -> fst d' = BodyRestore h -> given a = Some (h, snd d').
Proof. intros Hd H d' h [?|E%list_elem_of_singleton]%elem_of_app; [by apply H|]. subst d'. intros E. by destruct (Hd h). Qed.

Lemma ok_ask fs k a t f :
  talk a = Idle -> inst_ok fs k a -> inst_ok fs k (with_talk Asked (with_h2p (h2p a ++ [(BodyDrain t, f)]) a)).
Proof.
  intros E H. open_ok H. constructor; auto.
  - simpl. intros Hp. destruct (Hfirst Hp) as [|[|]]; [by left|congruence..].
  - by apply (given_push a).
  - unfold talk_ok in *. simpl. rewrite E in Htalk. destruct Htalk as (Hh & Hs & Ht).
    change (heard (with_talk Asked (with_h2p (h2p a ++ [(BodyDrain t, f)]) a))) with (heard (with_h2p (h2p a ++ [(BodyDrain t, f)]) a)).
    change (said (with_talk Asked (with_h2p (h2p a ++ [(BodyDrain t, f)]) a))) with (said a).
    rewrite heard_push, Hh, Hs. simpl. split_and!; [by right|apply not_elem_of_nil| |done|].
    + intros Ep. by rewrite Ep in Ht.
    + intros ?? Hin. by apply elem_of_nil in Hin.
  - unfold fresh_ok. by simpl.
Qed.

Lemma ok_resume fs k a f :
  talk a = Asked -> inst_ok fs k a -> inst_ok fs k (with_talk Resuming (with_h2p (h2p a ++ [(BodyResume, f)]) a)).
Proof.
  intros E H. open_ok H. constructor; auto.
  - simpl. intros Hp. destruct (Hfirst Hp) as [|[|]]; [by left|congruence..].
  - by apply (given_push a).
  - unfold talk_ok in *. simpl. rewrite E in Htalk. destruct Htalk as (Hh & Hn & Hp & _).
    change (heard (with_talk Resuming (with_h2p (h2p a ++ [(BodyResume, f)]) a))) with (heard (with_h2p (h2p a ++ [(BodyResume, f)]) a)).
    change (said (with_talk Resuming (with_h2p (h2p a ++ [(BodyResume, f)]) a))) with (said a).
    rewrite heard_push. simpl. split_and!; [|done|by intros ?].
    right. split_and!; [|done|done]. destruct Hh as [-> |(-> & _ & Ht)]; auto.
  - unfold fresh_ok. by simpl.
Qed.

Lemma ok_push_quiet fs k a d :
  to_h d = None -> (forall h, fst d <> BodyRestore h) -> talk a <> Fresh -> inst_ok fs k a -> inst_ok fs k (with_h2p (h2p a ++ [d]) a).
Proof.
  intros Ed Hd Ht H. open_ok H. constructor; auto.
  - by apply (given_push a).
  - unfold talk_ok in *. rewrite heard_push, Ed, app_nil_r. done.
  - unfold fresh_ok. by simpl.
Qed.

Lemma ok_give fs k a h f :
  talk a = Fresh -> given a = None -> inst_ok fs k a ->
  inst_ok fs k (with_given (Some (h, f)) (with_h2p (h2p a ++ [(BodyRestore h, f)]) a)).
Proof.
  intros Et Eg H. open_ok H. destruct (Hfresh Et) as (? & Hd & ? & Hre).
  assert (Hh : h2p a = []).
  { destruct (h2p a) as [|d l]; [done|]. destruct (Hd d) as (h' & E); [by left|]. specialize (Hgiven d h' ltac:(by left) E). congruence. }
  constructor; auto.
  - simpl. rewrite Hh. intros d h' Hin%list_elem_of_singleton. subst d. by intros [= ->].
  - unfold talk_ok in *. simpl. rewrite Et in *. 
    change (heard (with_given (Some (h, f)) (with_h2p (h2p a ++ [(BodyRestore h, f)]) a))) with (heard (with_h2p (h2p a ++ [(BodyRestore h, f)]) a)).
    rewrite heard_push, app_nil_r. done.
  - intros _. simpl. rewrite Hh. split_and!; try done.
    + intros d Hin%list_elem_of_singleton. subst d. by exists h.
    + intros d Hin Hr restore HR. destruct (Hre d Hin Hr restore HR) as (? & ? & ? & ? & ? & ? & _). congruence.
Qed.

Lemma ok_retire fs k a d :
  to_h d = None -> (forall h, fst d <> BodyRestore h) -> talk a = Fresh \/ talk a = Asked /\ (phase a = Held \/ phase a = Gone) -> inst_ok fs k a ->
  inst_ok fs k (with_talk Retired (with_h2p (h2p a ++ [d]) a)).
Proof.
  intros Ed Hd Ht H. open_ok H. constructor; auto; try (by simpl; auto); try (by apply (given_push a)).
  unfold talk_ok in *. simpl.
  change (heard (with_talk Retired (with_h2p (h2p a ++ [d]) a))) with (heard (with_h2p (h2p a ++ [d]) a)).
  rewrite heard_push, Ed, app_nil_r. destruct Ht as [E|[E Hp]]; rewrite E in Htalk.
  - destruct Htalk as (Hh & _ & Ht). split; [by left|]. intros Ep. by rewrite Ep in Ht.
  - destruct Htalk as (Hh & _ & ? & _). split; [|done]. destruct Hp as [E'|E']; [|by right].
    destruct Hh as [|(_ & _ & Ht)]; [by left|]. by rewrite E' in Ht.
Qed.

Lemma ok_pop_p fs k a d rest : p2h a = d :: rest -> inst_ok fs k a -> inst_ok fs k (with_p2h rest a).
Proof.
  intros E H. open_ok H. constructor; auto.
  - unfold talk_ok, said in *. simpl. change (heard (with_p2h rest a)) with (heard a).
    rewrite E, said_cons in Htalk. destruct (to_p d) as [w|]; [|exact Htalk]. destruct (talk a); try done.
    1, 2: by destruct Htalk as (_ & ? & _).
    + destruct Htalk as (Hh & Hn & ? & Hs & Hc). rewrite not_elem_of_cons in Hn. destruct Hn as [_ Hn]. split_and!; try done.
      * destruct Hh as [|(_ & ? & _)]; [by left|done].
      * intros _. by apply Hs.
      * intros h f Hin. apply Hc. by right.
    + destruct Htalk as (Hh & Hn & Hs). split_and!.
      * destruct Hh as [|(? & Hn' & ?)]; [by left|]. right. split_and!; try done. intros ?. apply Hn'. by right.
      * intros Ep ?. apply (Hn Ep). by right.
      * intros Hin. destruct (Hs ltac:(by right)) as (? & pre & Ew & Hpre). split; [done|].
        destruct pre as [|w' pre]; simpl in Ew; injection Ew as -> Ew.
        -- rewrite Ew in Hin. by apply elem_of_nil in Hin.
        -- exists pre. split; [done|]. intros ?. apply Hpre. by right.
  - unfold fresh_ok in *. simpl. intros Ef. destruct (Hfresh Ef) as (? & ? & Hac & Hre).
    split_and!; try done; intros d' Hd'; [apply Hac|apply Hre]; rewrite E; by right.
Qed.

Lemma ok_resumed fs k a f rest :
  p2h a = (BodyResumeAck, f) :: rest -> talk a <> Retired -> inst_ok fs k a ->
  inst_ok fs k (with_talk Idle (with_p2h rest a)) /\ talk a = Resuming.
Proof.
  intros E Hnr H. assert (Hs : said a = PResumeAck :: omap to_p rest) by (unfold said; by rewrite E).
  open_ok H. assert (Ht : talk a = Resuming).
  { unfold talk_ok in Htalk. rewrite Hs in Htalk. destruct (talk a); try done.
    1, 2: by destruct Htalk as (_ & ? & _).
    destruct Htalk as (_ & Hn & _). destruct Hn. by left. }
  split; [|done]. unfold talk_ok in Htalk. rewrite Ht, Hs in Htalk. destruct Htalk as (Hh & _ & Hin).
  destruct (Hin ltac:(by left)) as (Hp & pre & Ew & Hpre).
  assert (Hh' : heard a = []) by (destruct Hh as [|(_ & Hn & _)]; [done|]; destruct Hn; by left).
  destruct pre as [|w pre]; [|simpl in Ew; injection Ew as <- _; destruct Hpre; by left]. injection Ew as Ew.
  constructor; auto.
  - simpl. intros E'. destruct Hp; congruence.
  - unfold talk_ok. simpl. change (said (with_talk Idle (with_p2h rest a))) with (omap to_p rest).
    split_and!; try done. by destruct Hp as [-> | ->].
  - unfold fresh_ok. by simpl.
Qed.

Lemma ok_promote fs k a :
  talk a = Fresh -> phase a <> Restoring -> inst_ok fs k a -> inst_ok fs k (with_talk Idle a).
Proof.
  intros E Hp H. open_ok H. constructor; auto; try (by simpl).
  unfold talk_ok in *. simpl. rewrite E in Htalk. done.
Qed.

Lemma ok_new fs k : inst_ok fs k (fresh (Mutators (hooks_of cfg k)) Fresh).
Proof.
  constructor; simpl; try done.
  - by rewrite length_replicate.
  - intros _ _. by apply Forall_replicate.
  - by right; left.
  - intros d h Hd. by apply elem_of_nil in Hd.
  - intros _. simpl. split_and!; try done; intros d Hd; by apply elem_of_nil in Hd.
Qed.

(** ** The shared invariant, step by step *)

Definition frame (s s' : state) : Prop :=
  open s' = open s /\ active s' = active s /\ drained s' = drained s /\ chans s' = chans s /\ closed s' = closed s /\
  inside s' = inside s /\ route s' = route s /\ born s' = born s /\ steps s' = steps s /\ published s' = published s /\
  files s `prefix_of` files s'.

(** A step of one instance. *)
Lemma Inv_upd s s' k a' :
  Inv s -> (k < born s)%nat -> frame s s' ->
  insts s' k = a' -> others_same k s s' ->
  inst_ok (files s') k a' ->
  (route s = Some k -> talk a' <> Fresh /\ talk a' <> Retired /\ (open s = true \/ inside s <> ∅ -> talk a' = Idle)) ->
  (stateful -> route s = Some k -> calls (effects a') ++ reqs a' = calls (effects (insts s k)) ++ reqs (insts s k)) ->
  Inv s'.
Proof.
  intros [Ha Hd Hc (r & Hr & Hrb & Hrt & Hro) Hst Hin Hs] Hk (Eo & Eac & Ed & Ech & Ecl & Ei & Er & Eb & Est & Ep & Ef) Ek Ho Hok Htk Hsk.
  constructor.
  - by rewrite Eac, Ei.
  - intros d. rewrite Ed, Eac, Ecl, Ech. apply Hd.
  - intros d. rewrite Ecl, Ech. apply Hc.
  - exists r. rewrite Er, Eb, Eo, Ei. destruct (decide (r = k)) as [->|Hne]; [|by rewrite (Ho r Hne)].
    rewrite Ek. destruct (Htk Hr) as (? & ? & ?). by split_and!.
  - intros p. rewrite Est, Eb. apply Hst.
  - intros j Hj. rewrite Eb in Hj. destruct (decide (j = k)) as [->|Hne]; [by rewrite Ek|].
    rewrite (Ho j Hne). eapply inst_ok_mono; [done|by apply Hin].
  - intros Hsf r' Er'. rewrite Er in Er'. rewrite Ep. rewrite <- (Hs Hsf r' Er').
    destruct (decide (r' = k)) as [->|Hne]; [|by rewrite (Ho r' Hne)]. rewrite Ek. by apply Hsk.
Qed.

(** The same instance, as far as the gate and the state go. *)
Lemma Inv_upd_quiet s s' k a' :
  Inv s -> (k < born s)%nat -> frame s s' -> insts s' k = a' -> others_same k s s' -> inst_ok (files s') k a' ->
  talk a' = talk (insts s k) -> effects a' = effects (insts s k) -> reqs a' = reqs (insts s k) -> Inv s'.
Proof.
  intros Hi Hk Hf Ek Ho Hok Et Ee Er. eapply Inv_upd; [done..| |by rewrite Ee, Er].
  rewrite Et. destruct Hi as [_ _ _ (r & Hr & _ & [Hrt1 Hrt2] & Hro) _ _ _]. rewrite Hr. intros [= <-]. by split_and!.
Qed.

Lemma others_upd k f s : others_same k s (upd k f s).
Proof. intros j Hj. simpl. by apply fn_lookup_alter_ne. Qed.

Lemma insts_upd k f s : insts (upd k f s) k = f (insts s k).
Proof. simpl. apply fn_lookup_alter. Qed.

Lemma frame_upd k f s : frame s (upd k f s).
Proof. by unfold frame. Qed.

(** The gate. *)
Lemma Inv_enter i s :
  Inv s -> open s = true -> i ∉ inside s -> Inv (with_inside ({[i]} ∪ inside s) (with_active (active s + 1) s)).
Proof.
  intros [Ha Hd Hc (r & Hr & Hrb & Hrt & Hro) Hst Hin Hs] Eo Hi. constructor; try done; simpl.
  - rewrite size_union, size_singleton by set_solver. lia.
  - intros d Ed. destruct (Hd d Ed) as (? & ? & ?). split_and!; try done. lia.
  - exists r. split_and!; try done; [apply Hrt..|]. intros _. apply Hro. by left.
Qed.

Lemma leave_gate_fields i s :
  insts (leave_gate i s) = insts s /\ files (leave_gate i s) = files s /\ open (leave_gate i s) = open s /\
  route (leave_gate i s) = route s /\ current (leave_gate i s) = current s /\ born (leave_gate i s) = born s /\
  host (leave_gate i s) = host s /\ steps (leave_gate i s) = steps s /\ chans (leave_gate i s) = chans s /\
  published (leave_gate i s) = published s /\ inside (leave_gate i s) = inside s ∖ {[i]} /\ active (leave_gate i s) = active s - 1.
Proof. unfold leave_gate. destruct (drained _); [case_match|]; done. Qed.

Lemma Inv_leave i s : Inv s -> i ∈ inside s -> Inv (leave_gate i s).
Proof.
  intros [Ha Hd Hc (r & Hr & Hrb & Hrt & Hro) Hst Hin Hs] Hi.
  destruct (leave_gate_fields i s) as (Ei & Ef & Eo & Er & Ec & Eb & Eh & Est & Ech & Ep & Ein & Eac).
  constructor; rewrite ?Ei, ?Ef, ?Eo, ?Er, ?Eb, ?Est, ?Ech, ?Ep, ?Ein, ?Eac; try done.
  - rewrite size_difference, size_singleton by set_solver. assert (size (inside s) <> 0%nat).
    { intros E%size_empty_inv. set_solver. } lia.
  - intros d. unfold leave_gate. simpl. destruct (drained s) as [d0|] eqn:E0; [|simpl; congruence].
    destruct (active s - 1 =? 0) eqn:E1; simpl; [done|]. rewrite E0. intros [= ->]. destruct (Hd d eq_refl) as (? & ? & ?).
    split_and!; [lia|done|done].
  - intros d. unfold leave_gate. simpl. destruct (drained s) as [d0|] eqn:E0; [|apply Hc].
    destruct (active s - 1 =? 0); simpl; [|apply Hc]. rewrite elem_of_union, elem_of_singleton.
    intros [->|?]; [by apply Hd|by apply Hc].
  - exists r. split_and!; try done; [apply Hrt..|]. intros Ho. apply Hro. destruct Ho as [|Hne]; [by left|]. right.
    intros E. apply Hne. set_solver.
Qed.

Lemma Inv_cutoff s : Inv s -> Inv (fst (cutoff s)).
Proof.
  intros [Ha Hd Hc (r & Hr & Hrb & Hrt & Hro) Hst Hin Hs]. unfold cutoff. simpl.
  destruct (active s =? 0) eqn:E; constructor; simpl; try done.
  - exists r. split_and!; try done; [apply Hrt..|]. intros [|?]; [done|]. apply Hro. by right.
  - intros d [= <-]. split_and!; [lia| |lia]. intros Hin'. specialize (Hc _ Hin'). lia.
  - intros d Hd'. specialize (Hc d Hd'). lia.
  - exists r. split_and!; try done; [apply Hrt..|]. intros [|?]; [done|]. apply Hro. by right.
Qed.

Lemma Inv_drop_join d s : Inv s -> Inv (drop_join d s).
Proof. intros [Ha Hd Hc Hr Hst Hin Hs]. unfold drop_join. case_decide; constructor; by simpl. Qed.

Lemma Inv_open s : Inv s -> (forall r, route s = Some r -> talk (insts s r) = Idle) -> Inv (with_open true s).
Proof.
  intros [Ha Hd Hc (r & Hr & Hrb & Hrt & Hro) Hst Hin Hs] Hi. constructor; simpl; try done.
  exists r. split_and!; try done; [apply Hrt..|]. intros _. by apply Hi.
Qed.

Lemma Inv_host p s : Inv s -> Inv (with_host p s).
Proof. intros [? ? ? ? ? ? ?]. by constructor. Qed.

Lemma Inv_current k s : Inv s -> Inv (with_current k s).
Proof. intros [? ? ? ? ? ? ?]. by constructor. Qed.

Lemma Inv_log k st s : Inv s -> (k < born s)%nat -> Inv (log k st s).
Proof.
  intros [? ? ? ? Hst ? ?] Hk. constructor; simpl; try done.
  intros p [|Hp%list_elem_of_singleton]%elem_of_app; [by apply Hst|by subst p].
Qed.

Lemma Inv_publish k c s : Inv s -> route s = Some k -> talk (insts s k) = Idle -> Inv (publish k c s).
Proof.
  intros Hi Er Et. pose proof Hi as [Ha Hd Hc (r & Hr & Hrb & Hrt & Hro) Hst Hin Hs].
  assert (r = k) as -> by congruence. constructor; simpl; try done.
  - exists k. rewrite fn_lookup_alter. simpl. by rewrite Et.
  - intros j Hj. destruct (decide (k = j)) as [->|Hne]; [|rewrite fn_lookup_alter_ne by done; by apply Hin].
    rewrite fn_lookup_alter. apply ok_publish; [done|by apply Hin].
  - intros Hsf r Er'. assert (r = k) as -> by congruence. rewrite fn_lookup_alter. simpl.
    rewrite app_assoc. by rewrite (Hs Hsf k Er).
Qed.

(** Promotion: the newcomer takes the route. *)
Lemma Inv_promote k s :
  Inv s -> (k < born s)%nat -> talk (insts s k) = Fresh -> phase (insts s k) <> Restoring ->
  (stateful -> calls (effects (insts s k)) = published s) ->
  Inv (with_route (Some k) (upd k (with_talk Idle) s)).
Proof.
  intros [Ha Hd Hc (r & Hr & Hrb & Hrt & Hro) Hst Hin Hs] Hk Et Hp Hsf. constructor; simpl; try done.
  - exists k. rewrite fn_lookup_alter. by split_and!.
  - intros j Hj. destruct (decide (k = j)) as [->|Hne]; [|rewrite fn_lookup_alter_ne by done; by apply Hin].
    rewrite fn_lookup_alter. apply ok_promote; [done|done|by apply Hin].
  - intros H r' [= <-]. rewrite fn_lookup_alter. simpl. rewrite (Hsf H).
    destruct (io_fresh _ _ _ (Hin k Hk) Et) as [-> _]. by rewrite app_nil_r.
Qed.

Lemma Inv_spawn s :
  Inv s ->
  Inv (with_born (S (born s)) (upd (born s) (fun _ => fresh (Mutators (hooks_of cfg (born s))) Fresh) s)).
Proof.
  intros [Ha Hd Hc (r & Hr & Hrb & Hrt & Hro) Hst Hin Hs]. constructor; simpl; try done.
  - exists r. rewrite fn_lookup_alter_ne by lia. split_and!; [done|lia|apply Hrt..|done].
  - intros p Hp. specialize (Hst p Hp). lia.
  - intros j Hj. destruct (decide (born s = j)) as [<-|Hne]; [rewrite fn_lookup_alter; apply ok_new|].
    rewrite fn_lookup_alter_ne by done. apply Hin. lia.
  - intros Hsf r' Er. assert (r' = r) as -> by congruence. rewrite fn_lookup_alter_ne by lia. by apply Hs.
Qed.

(** ** Callers and activity *)

Definition At (r : role) (q : query) (s : state) : Prop :=
  match r, q with
  | Caller _, QPublish k => route s = Some k /\ (k < born s)%nat /\ talk (insts s k) = Idle
  | Host, QJoin d => joining d s
  | _, _ => True
  end.

Notation T := (triple Inv Rel Guar At).
Notation Stable := (stable Inv Rel).

Lemma reload_stable_and r (P Q : state -> Prop) : Stable r P -> Stable r Q -> Stable r (fun s => P s /\ Q s).
Proof. intros HP HQ s s' Hi Hi' HR [? ?]. split; [by apply (HP s s')|by apply (HQ s s')]. Qed.

(** A step after which only an assertion is known. *)
Lemma triple_known {A} r (P : state -> Prop) s1 (p : M A) Post : P s1 -> T r P p Post -> T r (eq s1) p Post.
Proof. intros HP H. eapply triple_conseq; [exact H| |done]. by intros ? _ <-. Qed.

Lemma outside_stable i : Stable (Caller i) (fun s => i ∉ inside s).
Proof.
  intros s s' _ _ (r & q & Hr & HG) Hi. destruct r as [|j|j|j]; simpl in HG.
  - by destruct HG as (-> & _).
  - by destruct HG as (_ & (_ & _ & _ & ->) & _).
  - by destruct HG as (_ & (_ & _ & _ & ->) & _).
  - destruct HG as (_ & _ & Hj & _). by rewrite Hj by congruence.
Qed.

Lemma inside_stable i k : Stable (Caller i) (fun s => i ∈ inside s /\ route s = Some k).
Proof. intros s s' _ _ HR [Hi Hr]. destruct (Rel_caller i s s' HR Hi) as [? ->]. done. Qed.

Lemma entered_stable i : Stable (Caller i) (fun s => i ∈ inside s).
Proof. intros s s' _ _ HR Hi. by destruct (Rel_caller i s s' HR Hi). Qed.

Lemma Guar_caller_leave i q s : Inv s -> i ∈ inside s -> Guar (Caller i) q s (leave_gate i s).
Proof.
  intros Hi Hin. pose proof (inv_active s Hi) as Ha.
  destruct (leave_gate_fields i s) as (Ei & Ef & Eo & Er & Ec & Eb & Eh & Est & Ech & Ep & Ein & Eac).
  simpl. unfold host_same. rewrite Ei, Ef, Eo, Er, Ec, Eb, Eh, Est, Ech, Ein. split_and!; try done.
  - intros j Hj. set_solver.
  - set_solver.
  - unfold leave_gate. simpl. destruct (drained s) as [d0|]; simpl; [|done]. destruct (active s - 1 =? 0); set_solver.
  - intros d Hd. unfold leave_gate. simpl. rewrite Hd. simpl. destruct (active s - 1 =? 0) eqn:E; simpl; [right|by left].
    split; [set_solver|]. apply leibniz_equiv, size_empty_inv. rewrite size_difference, size_singleton by set_solver. lia.
  - intros k. by left.
Qed.

Lemma leave_safe i (P : state -> Prop) :
  (forall s, P s -> i ∈ inside s) -> Stable (Caller i) P -> T (Caller i) P (Leave i) (fun _ s => i ∉ inside s).
Proof.
  intros HP Hst. apply triple_crit; [done|]. intros s Hi Hs. split_and!; [done|apply Guar_caller_leave; [done|by apply HP]| |].
  - apply Inv_leave; [done|by apply HP].
  - simpl. destruct (leave_gate_fields i s) as (_ & _ & _ & _ & _ & _ & _ & _ & _ & _ & Ein & _). rewrite Ein. set_solver.
Qed.

Lemma Guar_caller_enter i q s :
  open s = true -> Guar (Caller i) q s (with_inside ({[i]} ∪ inside s) (with_active (active s + 1) s)).
Proof.
  intros Eo. simpl. split_and!; try done; [set_solver|congruence|by left|]. intros k. by left.
Qed.

Lemma Guar_caller_publish i k c q s :
  i ∈ inside s -> route s = Some k -> talk (insts s k) = Idle -> Guar (Caller i) q s (publish k c s).
Proof.
  intros Hi Er Et. simpl. split_and!; try done.
  - unfold host_same. simpl. split_and!; try done. intros j. destruct (decide (k = j)) as [->|Hne];
      [rewrite fn_lookup_alter|rewrite fn_lookup_alter_ne by done]; done.
  - intros d Hd. by left.
  - intros j. simpl. destruct (decide (k = j)) as [->|Hne]; [|rewrite fn_lookup_alter_ne by done; by left].
    rewrite fn_lookup_alter. right. split_and!; try done. by exists c.
Qed.

Lemma routed_idle s k : Inv s -> inside s <> ∅ -> route s = Some k -> (k < born s)%nat /\ talk (insts s k) = Idle.
Proof.
  intros [_ _ _ (r & Hr & Hrb & _ & Hro) _ _ _] Hi Er. assert (r = k) as -> by congruence. split; [done|]. apply Hro. by right.
Qed.

Lemma caller_safe i : T (Caller i) (fun s => i ∉ inside s) (invokeCore i) (fun _ s => i ∉ inside s).
Proof.
  unfold invokeCore. eapply triple_bind.
  { apply (triple_crit _ _ _ _ _ (fun s => i ∉ inside s) _ _ (fun _ s => i ∉ inside s)); [apply outside_stable|].
    intros s Hi Hs. split; [done|]. split; [apply reload_Guar_refl|done]. }
  intros [_|]; [|by apply triple_ret]. eapply triple_bind.
  { apply (triple_crit _ _ _ _ _ (fun s => i ∉ inside s) _ _ (fun b s => if b : bool then i ∈ inside s else i ∉ inside s)); [apply outside_stable|].
    intros s Hi Hs. split; [done|]. destruct (open s) eqn:Eo; cbn [fst snd].
    - split; [by apply Guar_caller_enter|]. split; [by apply Inv_enter|set_solver].
    - split; [apply reload_Guar_refl|done]. }
  intros [|]; cbn [negb]; [|by apply triple_ret]. eapply triple_bind.
  { apply (triple_crit _ _ _ _ _ (fun s => i ∈ inside s) _ _ (fun r s => i ∈ inside s /\ route s = r)); [apply entered_stable|].
    intros s Hi Hs. split; [done|]. split; [apply reload_Guar_refl|done]. }
  intros [k|].
  2:{ apply leave_safe; [by intros s []|]. intros s s' _ _ HR [Hi Hr]. by destruct (Rel_caller i s s' HR Hi) as [? ->]. }
  eapply triple_bind.
  { apply (triple_ask _ _ _ _ _ (fun s => i ∈ inside s /\ route s = Some k)); [apply inside_stable|].
    intros s Hi Hs. split; [done|apply reload_Guar_refl]. }
  intros [e|]; [apply leave_safe; [by intros s []|apply inside_stable]|]. eapply triple_bind.
  { apply (triple_act _ _ _ _ _ (fun s => i ∈ inside s /\ route s = Some k) _ _ (fun _ s => i ∈ inside s /\ route s = Some k)); [apply inside_stable| |].
    - intros s Hi [Hin Hr]. split; [done|]. apply routed_idle; [done|set_solver|done].
    - intros s x Hi [Hin Hr]. destruct (routed_idle s k Hi ltac:(set_solver) Hr) as [_ Et].
      destruct x; cbn [fst snd]; try (split; [apply reload_Guar_refl|done]).
      + split; [apply reload_Guar_refl|]. split; [done|]. apply triple_ret. by intros ? ? <-.
      + split; [by apply Guar_caller_publish|]. split; [by apply Inv_publish|]. apply triple_ret. by intros ? ? <-. }
  intros []. apply leave_safe; [by intros s []|apply inside_stable].
Qed.

(** An instance once spawned stays spawned. *)
Lemma Rel_born r s s' : Rel r s s' -> (born s <= born s')%nat.
Proof.
  intros (r' & q & _ & HG). destruct r'; simpl in HG; [tauto|..]; destruct HG as [(_ & _ & _ & -> & _) _]; done.
Qed.

Lemma born_stable r k : Stable r (fun s => (k < born s)%nat).
Proof. intros s s' _ _ HR Hk. pose proof (Rel_born _ _ _ HR). lia. Qed.

Lemma await_spawn_safe r k : T r (fun _ => True) (await_spawn k) (fun _ s => (k < born s)%nat).
Proof.
  apply triple_act; [by intros ?|by destruct r|]. intros s x Hi _. cbn [fst snd].
  split; [apply reload_Guar_refl|]. split; [done|]. case_decide; [|done]. apply triple_ret. by intros ? ? <-.
Qed.

(** A step of the instance's own process, as every role sees it. *)
Lemma host_same_upd s s' k a' :
  frame s s' -> current s' = current s -> host s' = host s -> insts s' k = a' -> others_same k s s' ->
  talk a' = talk (insts s k) -> given a' = given (insts s k) -> host_same s s' /\ gate_same s s'.
Proof.
  intros (Eo & Eac & Ed & Ech & Ecl & Ei & Er & Eb & Est & Ep & Ef) Ec Eh Ek Ho Et Eg. split; [|done].
  unfold host_same. split_and!; try done. intros j. destruct (decide (j = k)) as [->|Hne]; [by rewrite Ek|by rewrite (Ho j Hne)].
Qed.

Lemma activity_upd k q s a' f :
  Inv s -> (k < born s)%nat -> f (insts s k) = a' -> astep (insts s k) a' ->
  talk a' = talk (insts s k) -> given a' = given (insts s k) -> inst_ok (files s) k a' ->
  Guar (Activity k) q s (upd k f s) /\ Inv (upd k f s).
Proof.
  intros Hi Hk Ea Ha Et Eg Hok.
  destruct (host_same_upd s (upd k f s) k a' (frame_upd k f s) eq_refl eq_refl) as [? ?];
    [by rewrite insts_upd|apply others_upd|done|done|].
  split.
  - simpl. split_and!; try done; [apply others_upd|]. rewrite fn_lookup_alter. by rewrite Ea.
  - eapply (Inv_upd s _ k a'); [done|done|apply frame_upd|by rewrite insts_upd|apply others_upd|done| |].
    + rewrite Et. destruct Hi as [_ _ _ (r & Hr & _ & [? ?] & Hro) _ _ _]. rewrite Hr. intros [= <-]. by split_and!.
    + intros _ _. destruct (as_effects _ _ Ha) as [(bg & Hb & -> & -> & _)|(c & -> & -> & _)]; rewrite calls_app.
      * by rewrite (calls_background bg Hb), app_nil_r.
      * simpl. by rewrite <- app_assoc.
Qed.

Lemma astep_die a : phase a <> Gone -> astep a (die a).
Proof. intros Hg. constructor; simpl; auto; [done|]. left. exists []. split_and!; auto. by rewrite app_nil_r. Qed.

Lemma activity_safe k : T (Activity k) (fun s => (k < born s)%nat) (activity k) (fun _ s => (k < born s)%nat).
Proof.
  apply triple_act; [apply born_stable|done|]. intros s x Hi Hk. pose proof (inv_inst s Hi k Hk) as Hok.
  destruct (lives k s) eqn:Hl; [|split; [apply reload_Guar_refl|done]].
  assert (Hg : phase (insts s k) <> Gone) by (unfold lives in Hl; intros E; rewrite E in Hl; done).
  assert (Hsame : forall q, Guar (Activity k) q s s /\ Inv s) by (intros q; split; [apply reload_Guar_refl|done]).
  cbn [fst snd]. apply and_assoc. split; [|apply triple_ret; intros ? ? <-; by destruct x; simpl; repeat case_match].
  destruct x; try apply Hsame.
  - destruct (reqs (insts s k)) as [|c rest] eqn:Er; [apply Hsame|]. case_decide as Hp; [apply Hsame|].
    eapply (activity_upd k _ s _); [done|done|reflexivity| |done|done|by apply ok_handle].
    constructor; simpl; auto; [done|]. right. exists c. split_and!; try done; tauto.
  - case_decide as Hf; [|apply Hsame]. destruct (ok_background _ _ _ _ Hf Hg Hok) as [? ?].
    eapply (activity_upd k _ s _); [done|done|reflexivity| |done|done|done].
    constructor; simpl; auto; [done|]. left. exists [Background j]. split_and!; auto. by repeat constructor.
  - destruct (beating _); [|apply Hsame].
    eapply (activity_upd k _ s _); [done|done|reflexivity| |done|done|by apply ok_say_quiet].
    constructor; simpl; auto; [done|]. left. exists []. split_and!; auto. by rewrite app_nil_r.
  - eapply (activity_upd k _ s _); [done|done|reflexivity|by apply astep_die|done|done|by apply ok_die].
Qed.

End safety.
End ReloadProtocol.
