(* ===== verification/ReloadInstance.v ===== *)
(** * The instance's side of a hot reload

    The control loop of an instance keeps the shared invariant of
    [ReloadProtocol]: its serving loop, its part of a reload (freezing, draining,
    saving, waiting for the verdict, thawing) and a newcomer's restore. *)

From Stdlib Require Import Strings.String.
From stdpp Require Import gmap functions.
From S2P Require Import Prelude ControlConn Interleave Reload ReloadProtocol.
Import ControlConn Reload ReloadProtocol.

Module ReloadInstance.

Local Open Scope Z_scope.

(** Assertions that survive what the others do. *)
Create HintDb lasting.

Section safety.
Context {cfg : config}.

Local Notation T := (triple Inv Rel Guar At).
Local Notation Stable := (stable Inv Rel).

(** ** The instance's control loop

    Its assertions are about its own instance and the files; they hold unless
    the process is gone, when the loop does nothing any more. *)

Notation view := (list memfd -> instance -> Prop).

Definition alive (k : nat) (φ : view) (s : state) : Prop :=
  (k < born s)%nat /\ (phase (insts s k) = Gone \/ φ (files s) (insts s k)).

Definition lasting (k : nat) (φ : view) : Prop :=
  forall fs fs' a a', fs `prefix_of` fs' -> inst_ok fs k a -> prel a a' -> φ fs a -> phase a' = Gone \/ φ fs' a'.

Lemma alive_stable k φ : lasting k φ -> Stable (Plugin k) (alive k φ).
Proof.
  intros Hl s s' Hi Hi' HR [Hk Hp]. destruct (Rel_plugin k s s' Hi HR Hk) as (? & Hf & Hr). split; [done|].
  destruct Hp as [E|Hφ].
  - left. destruct (pr_phase _ _ Hr); congruence.
  - eapply Hl; [done|by apply inv_inst|done|done].
Qed.

Lemma lasting_phase k p : lasting k (fun _ a => phase a = p).
Proof. intros fs fs' a a' _ _ Hr E. destruct (pr_phase _ _ Hr); [right|left]; congruence. Qed.

Lemma lasting_and k (φ ψ : view) : lasting k φ -> lasting k ψ -> lasting k (fun fs a => φ fs a /\ ψ fs a).
Proof.
  intros H1 H2 fs fs' a a' Hf Ho Hr [? ?]. destruct (H1 fs fs' a a') as [|?]; [done..|by left|].
  destruct (H2 fs fs' a a') as [|?]; [done..|by left|]. by right.
Qed.

Lemma lasting_or k (φ ψ : view) : lasting k φ -> lasting k ψ -> lasting k (fun fs a => φ fs a \/ ψ fs a).
Proof.
  intros H1 H2 fs fs' a a' Hf Ho Hr [?|?]; [destruct (H1 fs fs' a a')|destruct (H2 fs fs' a a')]; auto.
Qed.

Lemma lasting_true k : lasting k (fun _ _ => True).
Proof. by right. Qed.

Lemma lasting_hears k : lasting k (fun _ a => hears a).
Proof. intros fs fs' a a' _ _ Hr H. right. by apply (pr_hears _ _ Hr). Qed.

Lemma lasting_flags k (P : list bool -> Prop) : lasting k (fun _ a => P (frozen a)).
Proof. intros fs fs' a a' _ _ Hr H. right. by rewrite (pr_frozen _ _ Hr). Qed.

Hint Resolve lasting_phase lasting_and lasting_or lasting_true lasting_hears lasting_flags : lasting.

Lemma lives_phase k s : lives k s = true <-> phase (insts s k) <> Gone.
Proof. unfold lives. rewrite negb_true_iff, bool_decide_eq_false. done. Qed.

(** One action of the loop. *)
Lemma pact_safe {A} k q φ (f : answer -> state -> state * option (M A)) (Post : A -> state -> Prop) :
  lasting k φ ->
  (forall s x, Inv s -> (k < born s)%nat -> phase (insts s k) <> Gone -> φ (files s) (insts s k) ->
     let s' := fst (f x s) in
     Guar (Plugin k) q s s' /\ Inv s' /\
     match snd (f x s) with Some p => T (Plugin k) (eq s') p Post | None => alive k φ s' end) ->
  T (Plugin k) (alive k φ) (pact k q f) Post.
Proof.
  intros Hl H. apply triple_act; [by apply alive_stable|done|]. intros s x Hi [Hk Hp].
  destruct (lives k s) eqn:E.
  - apply lives_phase in E. destruct Hp as [|Hφ]; [done|]. by apply H.
  - cbn [fst snd]. split; [apply reload_Guar_refl|]. split; [done|]. by split.
Qed.

Lemma pcrit_safe {A} k q φ (f : state -> state * A) (Post : A -> state -> Prop) :
  lasting k φ ->
  (forall s, Inv s -> (k < born s)%nat -> phase (insts s k) <> Gone -> φ (files s) (insts s k) ->
     Guar (Plugin k) q s (fst (f s)) /\ Inv (fst (f s)) /\ Post (snd (f s)) (fst (f s))) ->
  T (Plugin k) (alive k φ) (pcrit k q f) Post.
Proof.
  intros Hl H. apply pact_safe; [done|]. intros s x Hi Hk Hg Hφ. destruct (H s Hi Hk Hg Hφ) as (? & ? & ?).
  destruct (f s) as [s' a]. cbn [fst snd] in *. split_and!; [done..|]. apply triple_ret. by intros ? ? <-.
Qed.

(** The instance moves, the files grow. *)
Lemma plugin_upd k q s f fs a' :
  Inv s -> (k < born s)%nat -> f (insts s k) = a' -> files s `prefix_of` fs ->
  inst_ok fs k a' -> pstep (insts s k) a' -> talk a' = talk (insts s k) -> given a' = given (insts s k) ->
  (route s = Some k -> effects a' = effects (insts s k)) ->
  Guar (Plugin k) q s (with_files fs (upd k f s)) /\ Inv (with_files fs (upd k f s)).
Proof.
  intros Hi Hk Ea Hf Hok Hp Et Eg Ee. set (s' := with_files fs (upd k f s)).
  assert (Ek : insts s' k = a') by (rewrite <- Ea; apply (insts_upd k f s)).
  assert (Ho : others_same k s s') by apply (others_upd k f s).
  assert (Hfr : frame s s') by (by unfold frame).
  destruct (host_same_upd s s' k a' Hfr eq_refl eq_refl Ek Ho Et Eg) as [? ?]. split.
  - simpl. split_and!; try done. by change (pstep (insts s k) (insts s' k)); rewrite Ek.
  - eapply (Inv_upd s s' k a'); try done.
    + rewrite Et. destruct Hi as [_ _ _ (r & Hr & _ & [? ?] & Hro) _ _ _]. rewrite Hr. intros [= <-]. by split_and!.
    + intros _ Er. by rewrite (Ee Er), (ps_reqs _ _ Hp).
Qed.

Lemma with_files_same s : with_files (files s) s = s.
Proof. by destruct s. Qed.

Lemma plugin_upd' k q s f a' :
  Inv s -> (k < born s)%nat -> f (insts s k) = a' ->
  inst_ok (files s) k a' -> pstep (insts s k) a' -> talk a' = talk (insts s k) -> given a' = given (insts s k) ->
  (route s = Some k -> effects a' = effects (insts s k)) ->
  Guar (Plugin k) q s (upd k f s) /\ Inv (upd k f s).
Proof.
  intros. rewrite <- (with_files_same (upd k f s)). by eapply plugin_upd.
Qed.

Lemma alive_upd k (φ : view) f s :
  (k < born s)%nat -> φ (files s) (f (insts s k)) -> alive k φ (upd k f s).
Proof. intros Hk Hφ. split; [done|]. rewrite insts_upd. by right. Qed.

Lemma alive_upd_files k (φ : view) f fs s :
  (k < born s)%nat -> φ fs (f (insts s k)) -> alive k φ (with_files fs (upd k f s)).
Proof.
  intros Hk Hφ. split; [done|]. change (insts (with_files fs (upd k f s)) k) with (insts (upd k f s) k). rewrite insts_upd. by right.
Qed.

(** The loop's end: the process exits. *)
Lemma pstep_die a : phase a <> Gone -> pstep a (die a).
Proof. intros Hg. constructor; simpl; auto; done. Qed.

Lemma exit_safe k φ Post :
  lasting k φ -> (forall s, Post (Ends reloadNone) s) -> T (Plugin k) (alive k φ) (exit_process k) Post.
Proof.
  intros Hl HP. apply pcrit_safe; [done|]. intros s Hi Hk Hg _. cbn [fst snd]. apply and_assoc. split; [|apply HP].
  eapply plugin_upd'; [done|done|reflexivity|apply ok_die, inv_inst; done|by apply pstep_die|done..].
Qed.

(** Changes the invariant does not speak of. *)
Definition benign (f : instance -> instance) : Prop :=
  forall a, h2p (f a) = h2p a /\ p2h (f a) = p2h a /\ arrived (f a) = arrived a /\ reqs (f a) = reqs a /\
    effects (f a) = effects a /\ frozen (f a) = frozen a /\ phase (f a) = phase a /\ talk (f a) = talk a /\ given (f a) = given a.

Lemma benign_res p : benign (with_res p).
Proof. by intros a. Qed.
Lemma benign_beating b : benign (with_beating b).
Proof. by intros a. Qed.

Lemma benign_upd k q s f fs :
  Inv s -> (k < born s)%nat -> phase (insts s k) <> Gone -> benign f -> files s `prefix_of` fs ->
  Guar (Plugin k) q s (with_files fs (upd k f s)) /\ Inv (with_files fs (upd k f s)).
Proof.
  intros Hi Hk Hg Hb Hf. destruct (Hb (insts s k)) as (? & ? & ? & ? & ? & ? & Ep & ? & ?).
  eapply plugin_upd; [done|done|reflexivity|done| | |done..].
  - eapply inst_ok_same; [done..|]. eapply inst_ok_mono; [done|by apply inv_inst].
  - constructor; auto; rewrite ?Ep; auto. done.
Qed.

(** Views that ignore descriptors, mappings and the heartbeat sender. *)
Definition blind (φ : view) : Prop := forall f fs a, benign f -> φ fs a -> φ fs (f a).

Lemma blind_phase p : blind (fun _ a => phase a = p).
Proof. intros f fs a Hb E. destruct (Hb a) as (_ & _ & _ & _ & _ & _ & -> & _). done. Qed.
Lemma blind_hears : blind (fun _ a => hears a).
Proof. intros f fs a Hb E. unfold hears, heard. destruct (Hb a) as (-> & _ & _ & _ & _ & _ & _ & -> & _). done. Qed.
Lemma blind_and (φ ψ : view) : blind φ -> blind ψ -> blind (fun fs a => φ fs a /\ ψ fs a).
Proof. intros H1 H2 f fs a Hb [? ?]. split; [by apply H1|by apply H2]. Qed.
Lemma blind_or (φ ψ : view) : blind φ -> blind ψ -> blind (fun fs a => φ fs a \/ ψ fs a).
Proof. intros H1 H2 f fs a Hb [?|?]; [left; by apply H1|right; by apply H2]. Qed.
Lemma blind_true : blind (fun _ _ => True).
Proof. done. Qed.
Hint Resolve blind_phase blind_hears blind_and blind_or blind_true benign_res benign_beating : lasting.

Lemma benign_safe k q φ f :
  lasting k φ -> blind φ -> benign f ->
  T (Plugin k) (alive k φ) (pcrit k q (fun s => (upd k f s, tt))) (fun _ => alive k φ).
Proof.
  intros Hl Hb Hf. apply pcrit_safe; [done|]. intros s Hi Hk Hg Hφ. cbn [fst snd]. apply and_assoc. split.
  - rewrite <- (with_files_same (upd k f s)). by apply benign_upd.
  - apply alive_upd; [done|]. by apply Hb.
Qed.


Lemma close_plugin_safe k l φ :
  lasting k φ -> blind φ -> T (Plugin k) (alive k φ) (closeFDs (PluginEnd k) l) (fun _ => alive k φ).
Proof. intros Hl Hb. apply (benign_safe k _ φ (fun a => with_res (foldr close_fd (res a) l) a)); [done|done|]. by intros a. Qed.

(** ** Receiving

    [ψ r] is what is known after a receive that returned [r]. *)
Lemma recv_plugin_safe k (rights : bool) φ (ψ : outcome error (option ControlBody * list nat) -> view) :
  lasting k φ -> (forall r, blind (ψ r)) ->
  (forall fs a e, φ fs a -> ψ (Err e) fs a) -> (forall fs a, φ fs a -> ψ (Ok (None, [])) fs a) ->
  (forall fs a, ψ (Err [TagSystem]) fs a) ->
  (forall fs a b file rest, inst_ok fs k a -> phase a <> Gone -> φ fs a -> h2p a = (b, file) :: rest ->
     let a' := after_recv (PluginEnd k) b (with_h2p rest a) in
     inst_ok fs k a' /\ pstep a a' /\ ψ (Ok (Some b, if rights then match file with Some i => [i] | None => [] end else [])) fs a') ->
  T (Plugin k) (alive k φ) (RecvFDs (PluginEnd k) rights) (fun r => alive k (ψ r)).
Proof.
  intros Hl Hb He Hn Hdrop Hm. apply pact_safe; [done|]. intros s x Hi Hk Hg Hφ. cbn [inbound inst_of].
  assert (Hret : forall r, ψ r (files s) (insts s k) ->
    Guar (Plugin k) (QRecv (PluginEnd k)) s s /\ Inv s /\ T (Plugin k) (eq s) (Done r : M _) (fun r => alive k (ψ r))).
  { intros r Hr. split; [apply reload_Guar_refl|]. split; [done|]. apply triple_ret. intros ? _ <-. split; [done|by right]. }
  pose proof (inv_inst s Hi k Hk) as Hok0.
  destruct x; try (apply Hret; by auto); destruct (h2p (insts s k)) as [|[b file] rest] eqn:E; cbn [fst snd];
    try (split; [apply reload_Guar_refl|split; [done|by split; [|right]]]).
  2:{ apply and_assoc. split.
      - eapply plugin_upd'; [done|done|reflexivity|by eapply ok_drop_h| |done..]. constructor; simpl; auto. done.
      - apply triple_ret. intros ? _ <-. by apply alive_upd. }
  all: set (l := if rights then _ else _); destruct (Hm (files s) (insts s k) b file rest Hok0 Hg Hφ E) as (Hok & Hp & Hψ).
  all: set (a' := after_recv (PluginEnd k) b (with_h2p rest (insts s k))) in *.
  all: set (g := fun a => with_res (takes rights file (res (insts s k))) a).
  all: assert (Hg' : benign g) by (intros a; done).
  all: assert (Ea : after_recv (PluginEnd k) b (with_h2p rest (with_res (takes rights file (res (insts s k))) (insts s k))) = g a')
         by (unfold a', g; by destruct b).
  all: apply and_assoc; split; [|apply triple_ret; intros ? _ <-; apply alive_upd; [done|]; cbn [fst snd]; rewrite Ea; by apply Hb].
  all: destruct (Hg' a') as (? & ? & Ear & Erq & Eef & ? & Eph & ? & ?).
  all: assert (Et : talk a' = talk (insts s k) /\ given a' = given (insts s k) /\ effects a' = effects (insts s k)) by (by unfold a'; destruct b).
  all: destruct Et as (Et & Eg & Ee).
  all: eapply (plugin_upd' k _ s _ (g a')); [done|done|exact Ea|by eapply inst_ok_same| |congruence..].
  all: destruct Hp; constructor; rewrite ?Ear, ?Erq, ?Eef, ?Eph; done.
Qed.

(** ** Sending and switching mutators *)

Lemma send_plugin_safe k b file φ (ψ : option error -> view) :
  lasting k φ -> (forall fs a e, φ fs a -> ψ (Some e) fs a) ->
  (forall fs a, inst_ok fs k a -> phase a <> Gone -> φ fs a ->
     let a' := after_send (PluginEnd k) (b, file) (with_p2h (p2h a ++ [(b, file)]) a) in
     inst_ok fs k a' /\ pstep a a' /\ ψ None fs a') ->
  T (Plugin k) (alive k φ) (SendFDs (PluginEnd k) b file) (fun e => alive k (ψ e)).
Proof.
  intros Hl He Hs. apply pact_safe; [done|]. intros s x Hi Hk Hg Hφ.
  assert (Hfail : forall e, Guar (Plugin k) (QSend (PluginEnd k) b) s s /\ Inv s /\ T (Plugin k) (eq s) (Done (Some e) : M _) (fun e => alive k (ψ e))).
  { intros e. split; [apply reload_Guar_refl|]. split; [done|]. apply triple_ret. intros ? _ <-. split; [done|right; by apply He]. }
  destruct (Hs (files s) (insts s k) (inv_inst s Hi k Hk) Hg Hφ) as (Hok & Hp & Hψ).
  set (a' := after_send (PluginEnd k) (b, file) (with_p2h (p2h (insts s k) ++ [(b, file)]) (insts s k))) in *.
  assert (Et : talk a' = talk (insts s k) /\ given a' = given (insts s k) /\ effects a' = effects (insts s k)) by (by unfold a'; destruct b).
  destruct Et as (Et & Eg & Ee).
  destruct x; try (apply Hfail); cbn [fst snd inst_of push].
  all: apply and_assoc; split; [by eapply (plugin_upd' k _ s _ a')|apply triple_ret; intros ? _ <-; by apply alive_upd].
Qed.

Lemma pstep_stay a a' :
  phase a <> Gone -> phase a' = phase a -> reqs a' = reqs a -> arrived a' = arrived a -> effects a' = effects a -> pstep a a'.
Proof. intros Hg Ep Er Ea Ee. constructor; rewrite ?Ep; auto. done. Qed.

Lemma switch_safe k j q b p :
  p = Freezing \/ p = Thawing -> (j < Mutators (hooks_of cfg k))%nat ->
  T (Plugin k) (alive k (fun _ a => phase a = p /\ Forall (eq b) (take j (frozen a)))) (switch k j q b)
    (fun e => alive k (fun _ a => match e with None => phase a = p /\ Forall (eq b) (take (S j) (frozen a)) | Some _ => True end)).
Proof.
  intros Hp Hj. apply pact_safe; [apply lasting_and; [apply lasting_phase|apply (lasting_flags k (fun l => Forall (eq b) (take j l)))]|]. intros s x Hi Hk Hg [Eph Hall].
  pose proof (inv_inst s Hi k Hk) as Hok. set (f := set_frozen j b).
  assert (Hupd : Guar (Plugin k) q s (upd k f s) /\ Inv (upd k f s)).
  { eapply plugin_upd'; [done|done|reflexivity|apply ok_switch; [by rewrite Eph|done]| |done..]. by apply pstep_stay. }
  assert (Hlen : (j < length (frozen (insts s k)))%nat) by (rewrite (io_len _ _ _ Hok); done).
  assert (Hdone : alive k (fun _ a => phase a = p /\ Forall (eq b) (take (S j) (frozen a))) (upd k f s)).
  { apply alive_upd; [done|]. split; [done|]. simpl. rewrite (take_S_r _ j b) by (by apply list_lookup_insert_eq).
    rewrite take_insert_ge by lia. apply Forall_app. by repeat constructor. }
  destruct x; cbn [fst snd]; try (apply and_assoc; split; [done|apply triple_ret; intros ? _ <-; done]).
  - split; [apply reload_Guar_refl|]. split; [done|]. apply triple_ret. intros ? _ <-. split; [done|by right].
  - apply and_assoc; split; [done|]. apply triple_ret. intros ? _ <-. split; [by destruct Hdone|by right].
Qed.

Lemma all_taken {A} (P : A -> Prop) (l : list A) n : length l = n -> Forall P (take n l) -> Forall P l.
Proof. intros <-. by rewrite firstn_all. Qed.

Lemma alive_weaken k (φ ψ : view) s : (forall fs a, φ fs a -> ψ fs a) -> alive k φ s -> alive k ψ s.
Proof. intros H [? [?|?]]; split; auto. Qed.

(** The mutators from the [j]th on, when the ones before are switched. *)
Lemma switch_all_safe k b p (prog : nat -> nat -> nat -> M (option error)) (q : nat -> nat -> query) n j :
  (forall k j, prog k j O = mret None) ->
  (forall k j n, prog k j (S n) = switch k j (q k j) b ≫= fun e => match e with Some e => mret (Some e) | None => prog k (S j) n end) ->
  p = Freezing \/ p = Thawing -> (j + n)%nat = Mutators (hooks_of cfg k) ->
  T (Plugin k) (alive k (fun _ a => phase a = p /\ Forall (eq b) (take j (frozen a)))) (prog k j n)
    (fun e => alive k (fun _ a => match e with None => phase a = p /\ Forall (eq b) (frozen a) | Some _ => True end)).
Proof.
  intros H0 HS Hp. revert j. induction n as [|n IH]; intros j Hj.
  - rewrite H0. apply triple_ret. intros s Hi [Hk Ha]. split; [done|]. destruct Ha as [|[? ?]]; [by left|right]. split; [done|].
    eapply all_taken; [apply (io_len _ _ _ (inv_inst s Hi k Hk))|]. by replace (Mutators (hooks_of cfg k)) with j by lia.
  - rewrite HS. eapply triple_bind; [apply switch_safe; [done|lia]|]. intros [e|]; [by apply triple_ret|]. apply IH. lia.
Qed.

Lemma freezeMutators_safe k :
  T (Plugin k) (alive k (fun _ a => phase a = Freezing)) (freezeMutators k 0 (Mutators (hooks_of cfg k)))
    (fun e => alive k (fun _ a => match e with None => phase a = Freezing /\ Forall (eq true) (frozen a) | Some _ => True end)).
Proof.
  eapply triple_conseq; [apply (switch_all_safe k true Freezing freezeMutators QFreeze); auto| |done].
  intros s _. apply alive_weaken. intros fs a E. split; [done|by constructor].
Qed.

Lemma resumeMutators_safe k :
  T (Plugin k) (alive k (fun _ a => phase a = Thawing)) (resumeMutators k 0 (Mutators (hooks_of cfg k)))
    (fun e => alive k (fun _ a => match e with None => phase a = Thawing /\ Forall (eq false) (frozen a) | Some _ => True end)).
Proof.
  eapply triple_conseq; [apply (switch_all_safe k false Thawing resumeMutators QThaw); auto| |done].
  intros s _. apply alive_weaken. intros fs a E. split; [done|by constructor].
Qed.

(** ** Waiting for the host *)

Definition dispatching : view := fun _ a => phase a = Serving /\ hears a.
Definition waits : view := fun _ a => phase a = Freezing \/ phase a = Held.

Lemma dispatching_lasting k : lasting k dispatching.
Proof. apply lasting_and; [apply lasting_phase|apply lasting_hears]. Qed.
Lemma waits_lasting k : lasting k waits.
Proof. apply lasting_or; apply lasting_phase. Qed.
Lemma dispatching_blind : blind dispatching.
Proof. apply blind_and; [apply blind_phase|apply blind_hears]. Qed.
Lemma waits_blind : blind waits.
Proof. apply blind_or; apply blind_phase. Qed.
Hint Resolve dispatching_lasting waits_lasting dispatching_blind waits_blind : lasting.

(** How a pass over a reload ends. *)
Definition passed (r : outcome error ReloadOutcome) : view :=
  match r with Ok ReloadRolledBack => dispatching | _ => fun _ _ => True end.

Lemma passed_lasting k r : lasting k (passed r).
Proof. destruct r as [[]| |]; eauto with lasting. Qed.
Lemma passed_blind r : blind (passed r).
Proof. destruct r as [[]| |]; eauto with lasting. Qed.
Hint Resolve passed_lasting passed_blind : lasting.

Notation pass k φ p := (T (Plugin k) (alive k φ) p (fun r => alive k (passed r))).

Lemma triple_end {A} k φ (a : A) (ψ : A -> view) :
  (forall fs i, φ fs i -> ψ a fs i) -> T (Plugin k) (alive k φ) (mret a : M A) (fun a => alive k (ψ a)).
Proof. intros H. apply triple_ret. intros s _. by apply alive_weaken. Qed.

Lemma handleResume_safe k : pass k (fun _ a => phase a = Thawing) (handleResume cfg k).
Proof.
  unfold handleResume. eapply triple_bind; [apply resumeMutators_safe|]. intros [e|]; [by apply triple_end|].
  eapply triple_bind.
  - apply (send_plugin_safe k BodyResumeAck None _ (fun e => match e with None => dispatching | Some _ => fun _ _ => True end));
      [apply lasting_and; [apply lasting_phase|apply (lasting_flags k (Forall (eq false)))]|done|].
    intros fs a Hok Hg [Ep Hf]. destruct (ok_say_resumed fs k a None Ep Hf Hok) as (Hok' & Et & Eh). split; [done|]. split.
    + constructor; simpl; auto; try done; by rewrite Ep.
    + split; [done|]. split; simpl; [congruence|]. intros _. by right.
  - intros [e|]; apply triple_end; done.
Qed.

(** What a receive while waiting may bring. *)
Definition woken (r : outcome error (option ControlBody * list nat)) : view :=
  match r with
  | Ok (Some BodyResume, _) => fun _ a => phase a = Thawing
  | Ok (Some _, _) => waits
  | _ => fun _ _ => True
  end.

Lemma woken_blind r : blind (woken r).
Proof. destruct r as [[[[]|] ?]| |]; simpl; eauto with lasting. Qed.

Lemma no_drain_waiting fs k a t f rest :
  inst_ok fs k a -> phase a = Freezing \/ phase a = Held -> h2p a = (BodyDrain t, f) :: rest -> False.
Proof.
  intros H Hp E. pose proof (held_talk _ _ _ H Hp) as Ht.
  assert (Hh : heard a = HDrain :: omap to_h rest) by (unfold heard; by rewrite E).
  assert (Hth : thawed (phase a) = false) by (by destruct Hp as [-> | ->]).
  open_ok H. unfold talk_ok in Htalk. rewrite Hh, Hth in Htalk. destruct Ht as [Et|[Et|Et]]; rewrite Et in Htalk.
  - by destruct Htalk as [[|(_ & _ & ?)] _].
  - by destruct Htalk as [[|([|[_ ?]] & _)] _].
  - destruct Htalk as [[|Eg] _]; [done|]. destruct Hp; congruence.
Qed.

Lemma recv_waiting_safe k :
  T (Plugin k) (alive k waits) (RecvFDs (PluginEnd k) false) (fun r => alive k (woken r)).
Proof.
  apply recv_plugin_safe; [apply waits_lasting|apply woken_blind|done|done|done|].
  intros fs a b file rest Hok Hg Hw E.
  assert (Hdrop : inst_ok fs k (with_h2p rest a)) by (by eapply ok_drop_h).
  destruct b; cbn [after_recv]; try (split; [done|split; [by apply pstep_stay|exact Hw]]).
  - by destruct (no_drain_waiting fs k a _ _ _ Hok Hw E).
  - destruct (ok_hear_resume fs k a file rest E Hw Hok) as [? Et]. split_and!; [done| |done].
    constructor; simpl; auto; try done.
Qed.

(** The message kinds [recvDuringReload] tells apart. *)
Definition woken_kind (r : outcome error (option MessageKind)) : view :=
  match r with
  | Ok (Some KindResume) => fun _ a => phase a = Thawing
  | Ok (Some KindSaveStateAck) => waits
  | _ => fun _ _ => True
  end.

Lemma recvDuringReload_safe k : T (Plugin k) (alive k waits) (recvDuringReload k) (fun r => alive k (woken_kind r)).
Proof.
  unfold recvDuringReload. eapply triple_bind; [apply recv_waiting_safe|]. intros r. apply (triple_end k (woken r) _ woken_kind). intros fs a.
  destruct r as [[[b|] l]|e|]; try done; [|by case_match].
  destruct b; simpl; try done; unfold Legal; simpl; repeat case_bool_decide; done.
Qed.

Lemma awaitResumeOrExit_safe k : pass k waits (awaitResumeOrExit cfg k).
Proof.
  unfold awaitResumeOrExit. eapply triple_bind; [apply recvDuringReload_safe|].
  intros [[[]|]| |]; cbn [woken_kind]; try (by apply triple_end). apply handleResume_safe.
Qed.

Lemma awaitSaveStateOutcome_safe k : pass k waits (awaitSaveStateOutcome cfg k).
Proof.
  unfold awaitSaveStateOutcome. eapply triple_bind; [apply recvDuringReload_safe|].
  intros [[[]|]| |]; cbn [woken_kind]; try (by apply triple_end); [apply handleResume_safe|apply awaitResumeOrExit_safe].
Qed.

(** ** The snapshot *)

Lemma alter_last {A} (f : A -> A) (l : list A) x : alter f (length l) (l ++ [x]) = l ++ [f x].
Proof. induction l as [|y l IH]; [done|]. simpl. f_equal. exact IH. Qed.

Lemma BuildSnapshot_ok sha bad payload maxLen fs p fs' p' r :
  BuildSnapshot sha bad payload maxLen (fs, p) = ((fs', p'), r) ->
  fs `prefix_of` fs' /\
  forall fd len sum, r = Ok (fd, len, sum) -> len = zlen payload /\
    exists m, fs' !! fd = Some m /\ content m = payload /\ Z.land (seals m) snapshotSeals = snapshotSeals.
Proof.
  intros E. assert (Hl : forall m, (fs ++ [m]) !! length fs = Some m) by (intros m; by rewrite lookup_app_r, Nat.sub_diag by lia).
  assert (Hp : forall m, fs `prefix_of` fs ++ [m]) by (intros m; by exists [m]).
  unfold BuildSnapshot, write_file, seal_file in E. rewrite !alter_last in E. simpl in E.
  repeat case_match; simplify_eq; (split; [apply Hp || done|intros fd len sum [= <- <- _]]); (split; [done|]); eexists;
    (split; [apply Hl|]); simpl; (split; [|done]); try done.
  assert (zlen payload = 0) as E0 by (unfold zlen in *; lia). unfold zlen in E0. by destruct payload.
Qed.

Lemma VerifySealedSnapshot_ok sha bad fd len fs p fs' p' r :
  VerifySealedSnapshot sha bad fd len (fs, p) = ((fs', p'), r) ->
  fs' = fs /\ fds p' = fds p /\ r <> Panic /\
  forall data sum, r = Ok (data, sum) -> exists m, fs !! fd = Some m /\ content m = data /\ zlen data = len /\
    Z.land (seals m) snapshotSeals = snapshotSeals.
Proof.
  unfold VerifySealedSnapshot. intros E. repeat case_match; simplify_eq; split_and!; try done; intros data sum [= <- <-];
    eexists; split_and!; try done; bool_to_prop; try done.
  - unfold zlen in *. destruct (content m); [done|simpl in *; lia].
  - unfold zlen in *. simpl. lia.
Qed.

Lemma loadStatePayload_safe k :
  T (Plugin k) (alive k (fun _ a => phase a = Held)) (loadStatePayload cfg k)
    (fun r => alive k (fun _ a => phase a = Held /\ forall payload, r = Ok payload -> payload = saved_bytes k a)).
Proof.
  unfold loadStatePayload, saved_bytes. destruct (Saver (hooks_of cfg k)) as [save|].
  - apply pact_safe; [eauto with lasting|]. intros s x Hi Hk Hg Hφ. cbn [fst snd]. split; [apply reload_Guar_refl|].
    split; [done|]. apply triple_ret. intros ? _ <-. split; [done|right]. split; [done|]. destruct x; intros payload E; by simplify_eq.
  - apply triple_end. intros fs a E. split; [done|]. intros payload [= <-]. done.
Qed.

Lemma lasting_saved k bs : lasting k (fun _ a => phase a = Held /\ bs = saved_bytes k a).
Proof.
  intros fs fs' a a' _ _ Hr [Ep ->]. destruct (pr_phase _ _ Hr) as [E|]; [right|by left]. split; [congruence|].
  unfold saved_bytes. by rewrite (pr_held _ _ Hr Ep).
Qed.

Definition copied (k fd : nat) (len : Z) : view := fun fs a =>
  phase a = Held /\
  sealed_copy fs {| SnapshotFdCount := 1; DeclaredLength := len; FormatVersion := SnapshotFormatVersion |} (Some fd) (saved_bytes k a).

Lemma copied_lasting k fd len : lasting k (copied k fd len).
Proof.
  intros fs fs' a a' Hf _ Hr [Ep Hc]. destruct (pr_phase _ _ Hr) as [E|]; [right|by left]. split; [congruence|].
  unfold saved_bytes in *. rewrite (pr_held _ _ Hr Ep). by eapply sealed_copy_mono.
Qed.

Lemma build_safe k payload :
  T (Plugin k) (alive k (fun _ a => phase a = Held /\ payload = saved_bytes k a)) (build cfg k payload)
    (fun r => alive k (match r with Ok (fd, len, _) => copied k fd len | _ => fun _ a => phase a = Held end)).
Proof.
  apply pact_safe; [apply lasting_saved|]. intros s x Hi Hk Hg [Ep Eb].
  assert (Hstay : Guar (Plugin k) (QBuild k) s s /\ Inv s /\ alive k (fun _ a => phase a = Held /\ payload = saved_bytes k a) s).
  { split; [apply reload_Guar_refl|]. split; [done|]. split; [done|by right]. }
  destruct x; try exact Hstay.
  destruct (BuildSnapshot (sha256 cfg) bad payload MaxSnapshotBytes (files s, res (insts s k))) as [[fs p] r] eqn:E.
  destruct (BuildSnapshot_ok _ _ _ _ _ _ _ _ _ E) as [Hf Hr]. cbn [fst snd].
  apply and_assoc. split; [apply benign_upd; try done; apply benign_res|]. apply triple_ret. intros ? _ <-.
  apply alive_upd_files; [done|]. destruct r as [[[fd len] sum]| |]; try done.
  destruct (Hr fd len sum eq_refl) as (-> & m & Hm & Hc & Hs). split; [done|].
  change (saved_bytes k (with_res p (insts s k))) with (saved_bytes k (insts s k)). rewrite <- Eb.
  split; [done|]. split; [done|]. by exists fd, m.
Qed.

Lemma runSnapshotPhase_safe k : pass k (fun _ a => phase a = Held) (runSnapshotPhase cfg k).
Proof.
  assert (Hout : forall φ, (forall fs a, φ fs a -> phase a = Held) -> pass k φ (awaitResumeOrExit cfg k)).
  { intros φ Hφ. eapply triple_conseq; [apply awaitResumeOrExit_safe| |done]. intros s _. apply alive_weaken. intros fs a H. right. by eapply Hφ. }
  unfold runSnapshotPhase. eapply triple_bind; [apply loadStatePayload_safe|].
  intros [payload|e|]; [|by apply Hout; intros ?? []..].
  eapply triple_bind.
  { eapply triple_conseq; [apply build_safe| |done]. intros s _. apply alive_weaken. intros fs a [? H]. split; [done|by apply H]. }
  intros [[[fd len] sum]|e|]; [|by apply Hout..]. eapply triple_bind with (Mid := fun r => alive k (passed r)).
  - eapply triple_bind.
    + apply (send_plugin_safe k _ _ _ (fun e => match e with None => waits | Some _ => fun _ _ => True end)); [apply copied_lasting|done|].
      intros fs a Hok Hg [Ep Hc]. split; [|split; [by apply pstep_stay|by right]].
      eapply ok_say_held; [reflexivity|done| |done|done]. by intros h f [= <- <-].
    + intros [e|]; [by apply triple_end|]. apply awaitSaveStateOutcome_safe.
  - intros r. eapply triple_bind; [apply close_plugin_safe; eauto with lasting|]. intros []. by apply triple_end.
Qed.

(** ** Freezing and draining *)

Lemma waitDrained_safe k :
  T (Plugin k) (alive k (fun _ a => phase a = Freezing /\ Forall (eq true) (frozen a))) (waitDrained k)
    (fun e => alive k (match e with None => fun _ a => phase a = Held | Some _ => waits end)).
Proof.
  set (φ := fun n0 (_ : list memfd) a => phase a = Freezing /\ Forall (eq true) (frozen a) /\ arrived a = n0).
  assert (Hl : forall n0, lasting k (φ n0)).
  { intros n0 fs fs' a a' _ _ Hr (Ep & Hf & Ha). destruct (pr_phase _ _ Hr) as [E|]; [right|by left].
    split; [congruence|]. rewrite (pr_frozen _ _ Hr), (pr_arrived _ _ Hr) by (by rewrite Ep). done. }
  unfold waitDrained. eapply triple_bind with (Mid := fun n0 => alive k (φ n0)).
  { apply pcrit_safe; [apply lasting_and; [apply lasting_phase|apply (lasting_flags k (Forall (eq true)))]|].
    intros s Hi Hk Hg [Ep Hf]. cbn [fst snd]. split; [apply reload_Guar_refl|]. split; [done|]. split; [done|by right]. }
  intros n0. apply pact_safe; [apply Hl|]. intros s x Hi Hk Hg (Ep & Hf & Ea).
  assert (Hfail : forall e : error, Guar (Plugin k) (QQuiet k) s s /\ Inv s /\ T (Plugin k) (eq s) (Done (Some e) : M _)
    (fun e => alive k (match e with None => fun _ a => phase a = Held | Some _ => waits end))).
  { intros e. split; [apply reload_Guar_refl|]. split; [done|]. apply triple_ret. intros ? _ <-. split; [done|]. right. by left. }
  destruct x; try apply Hfail; (case_bool_decide as Hd; cbn [fst snd];
    [split; [apply reload_Guar_refl|]; split; [done|]; split; [done|by right]|]).
  all: assert (Er : reqs (insts s k) = []) by (destruct (reqs (insts s k)); [done|]; destruct Hd; split; [done|discriminate]).
  all: apply and_assoc; split; [|apply triple_ret; intros ? _ <-; by apply alive_upd].
  all: eapply plugin_upd'; [done|done|reflexivity|apply ok_hold; [done..|by apply inv_inst]| |done..].
  all: constructor; simpl; auto; try done; congruence.
Qed.

Lemma ServeReloadAfterDrain_safe k : pass k (fun _ a => phase a = Freezing) (ServeReloadAfterDrain cfg k).
Proof.
  unfold ServeReloadAfterDrain. eapply triple_bind; [apply freezeMutators_safe|]. intros [e|]; [by apply triple_end|].
  eapply triple_bind; [apply waitDrained_safe|]. intros [e|]; [apply awaitResumeOrExit_safe|].
  eapply triple_bind.
  - apply (send_plugin_safe k _ _ _ (fun e => match e with None => fun _ a => phase a = Held | Some _ => fun _ _ => True end)); [apply lasting_phase|done|].
    intros fs a Hok Hg Ep. split; [|split; [by apply pstep_stay|done]]. by eapply ok_say_held.
  - intros [e|]; [by apply triple_end|]. apply runSnapshotPhase_safe.
Qed.

Lemma handleReload_safe k :
  T (Plugin k) (alive k (fun _ a => phase a = Freezing)) (handleReload cfg k)
    (fun r => alive k (match r with Ok false => dispatching | _ => fun _ _ => True end)).
Proof.
  unfold handleReload. eapply triple_bind; [apply benign_safe; eauto with lasting|]. intros [].
  eapply triple_bind; [apply ServeReloadAfterDrain_safe|]. intros [[]|e|]; cbn [passed]; try (by apply triple_end).
  eapply triple_bind; [apply benign_safe; eauto with lasting|]. intros []. by apply triple_end.
Qed.

(** ** The dispatch loop *)

Definition plugin_post (k : nat) (t : turn) : state -> Prop :=
  match t with Goes => alive k dispatching | Ends _ => fun _ => True end.

Definition dispatched (r : outcome error (option ControlBody * list nat)) : view :=
  match r with
  | Ok (Some (BodyDrain _), _) => fun _ a => phase a = Freezing
  | Err e => if Is (Some e) TagDeadlineExceeded then dispatching else fun _ _ => True
  | Ok (Some _, _) => dispatching
  | _ => fun _ _ => True
  end.

Lemma dispatched_blind r : blind (dispatched r).
Proof. destruct r as [[[[]|] ?]|e|]; simpl; eauto with lasting. destruct (bool_decide _); eauto with lasting. Qed.

Lemma no_resume_dispatching fs k a f rest :
  inst_ok fs k a -> phase a <> Gone -> hears a -> h2p a = (BodyResume, f) :: rest -> False.
Proof.
  intros H Hg [Ha Hr] E. assert (Hh : heard a = HResume :: omap to_h rest) by (unfold heard; by rewrite E).
  open_ok H. unfold talk_ok in Htalk. rewrite Hh in *. destruct (talk a).
  1, 2: by destruct Htalk.
  - by specialize (Ha eq_refl).
  - by destruct (Hr eq_refl).
  - by destruct Htalk as [[|] _].
Qed.

Lemma dispatch_safe k : T (Plugin k) (alive k dispatching) (dispatch_turn cfg k) (plugin_post k).
Proof.
  unfold dispatch_turn. eapply triple_bind.
  { apply (recv_plugin_safe k false _ dispatched); [eauto with lasting|apply dispatched_blind| |done|done|].
    - intros fs a e Hd. simpl. by destruct (bool_decide _).
    - intros fs a b file rest Hok Hg [Ep Hh] E.
      assert (Hdrop : inst_ok fs k (with_h2p rest a)) by (by eapply ok_drop_h).
      assert (Hq : to_h (b, file) = None -> hears (with_h2p rest a)).
      { intros Hn. unfold hears, heard in *. simpl. rewrite E, heard_cons, Hn in Hh. done. }
      destruct b; cbn [after_recv]; try (split; [done|split; [by apply pstep_stay|split; [done|by apply Hq]]]).
      + destruct (ok_hear_drain fs k a _ _ _ E ltac:(by rewrite Ep) Hg Hh Hok) as [? _]. split; [done|]. split; [|done].
        constructor; simpl; auto; try done; congruence.
      + by destruct (no_resume_dispatching fs k a _ _ Hok Hg Hh E). }
  assert (Hexit : forall φ, lasting k φ -> T (Plugin k) (alive k φ) (exit_process k) (plugin_post k)) by (intros φ Hl; by apply exit_safe).
  assert (Hgo : T (Plugin k) (alive k dispatching) (mret Goes : M turn) (plugin_post k)) by (by apply triple_ret).
  intros [[[b|] l]|e|]; [destruct b; try (exact Hgo)|..]; try (apply Hexit; eauto with lasting).
  - eapply triple_bind; [apply handleReload_safe|]. intros [[]|e|]; [|exact Hgo|..]; apply Hexit; eauto with lasting.
  - simpl. destruct (bool_decide _); [exact Hgo|]. apply Hexit. eauto with lasting.
Qed.

(** ** The successor's restore *)

Lemma alive_pre {A} k (φ ψ : view) (p : M A) Post :
  (forall fs a, φ fs a -> ψ fs a) -> T (Plugin k) (alive k ψ) p Post -> T (Plugin k) (alive k φ) p Post.
Proof. intros H Ht. eapply triple_conseq; [exact Ht| |by intros ? ? _ ?]. intros s _. by apply alive_weaken. Qed.

Definition restoring : view := fun _ a => phase a = Restoring /\ hears a.

Lemma restoring_lasting k : lasting k restoring.
Proof. apply lasting_and; [apply lasting_phase|apply lasting_hears]. Qed.
Lemma restoring_blind : blind restoring.
Proof. apply blind_and; [apply blind_phase|apply blind_hears]. Qed.

(** It was given the file it is reading. *)
Definition reading (h : SnapshotHeader) (fd : nat) : view := fun fs a => restoring fs a /\ given a = Some (h, Some fd).

Lemma lasting_given k g : lasting k (fun _ a => given a = Some g).
Proof. intros fs fs' a a' _ _ Hr E. right. destruct (pr_given _ _ Hr); congruence. Qed.
Lemma blind_given g : blind (fun _ a => given a = Some g).
Proof. intros f fs a Hb E. destruct (Hb a) as (_ & _ & _ & _ & _ & _ & _ & _ & ->). done. Qed.
Lemma reading_lasting k h fd : lasting k (reading h fd).
Proof. apply lasting_and; [apply restoring_lasting|apply lasting_given]. Qed.
Lemma reading_blind h fd : blind (reading h fd).
Proof. apply blind_and; [apply restoring_blind|apply blind_given]. Qed.

Lemma lasting_holds k f bs : lasting k (fun fs _ => holds fs f bs).
Proof. intros fs fs' a a' Hf _ _ H. right. by eapply holds_mono. Qed.
Lemma blind_holds f bs : blind (fun fs _ => holds fs f bs).
Proof. intros g fs a _ H. exact H. Qed.

(** Once restored, and about to say whether it is ready. *)
Definition readied (k : nat) (ready : bool) : view := fun fs a => restoring fs a /\ (ready = true -> restored fs k a).

Lemma readied_lasting k ready : lasting k (readied k ready).
Proof.
  intros fs fs' a a' Hf Hok Hr [Hre Hres]. destruct (restoring_lasting k fs fs' a a' Hf Hok Hr Hre) as [|Hre']; [by left|right].
  split; [done|]. intros Eb restore HR. destruct (Hres Eb restore HR) as (h & f & bs & e & bg & Eg & Hh & He & Ee & Hb).
  destruct (pr_restoring _ _ Hr (proj1 Hre)) as (bg' & Hb' & Ee'). exists h, f, bs, e, (bg ++ bg'). split_and!; [|by eapply holds_mono|done| |].
  - destruct (pr_given _ _ Hr); congruence.
  - by rewrite Ee', Ee, app_assoc.
  - by apply Forall_app.
Qed.

Lemma readied_blind k ready : blind (readied k ready).
Proof.
  intros f fs a Hb [Hre Hres]. split; [by apply restoring_blind|]. intros Er. specialize (Hres Er). unfold restored in *.
  destruct (Hb a) as (_ & _ & _ & _ & -> & _ & _ & _ & ->). done.
Qed.
Hint Resolve restoring_lasting restoring_blind reading_lasting reading_blind lasting_given blind_given lasting_holds blind_holds
  readied_lasting readied_blind : lasting.

Lemma verify_plugin_safe k h fd :
  T (Plugin k) (alive k (reading h fd))
    (pact k (QVerify (PluginEnd k)) (fun x s =>
      match x with
      | ASys bad =>
          let '((fs, p), r) := VerifySealedSnapshot (sha256 cfg) bad fd (DeclaredLength h) (files s, res (insts s k)) in
          (with_files fs (upd k (with_res p) s), Some (Done (r, bad MunmapRead)))
      | _ => (s, None)
      end))
    (fun r => alive k (fun fs a => reading h fd fs a /\ match fst r with Ok (data, _) => holds fs (Some fd) data | _ => True end)).
Proof.
  apply pact_safe; [eauto with lasting|]. intros s x Hi Hk Hg Hr.
  assert (Hstay : Guar (Plugin k) (QVerify (PluginEnd k)) s s /\ Inv s /\ alive k (reading h fd) s).
  { split; [apply reload_Guar_refl|]. split; [done|]. split; [done|by right]. }
  destruct x; try exact Hstay.
  destruct (VerifySealedSnapshot (sha256 cfg) bad fd (DeclaredLength h) (files s, res (insts s k))) as [[fs p] r] eqn:E.
  destruct (VerifySealedSnapshot_ok _ _ _ _ _ _ _ _ _ E) as (-> & _ & _ & Hv). cbn [fst snd].
  apply and_assoc. split; [apply benign_upd; try done; apply benign_res|]. apply triple_ret. intros ? _ <-.
  apply alive_upd_files; [done|]. split; [by apply (reading_blind h fd (with_res p)); [apply benign_res|]|].
  destruct r as [[data sum]| |]; try done. destruct (Hv data sum eq_refl) as (m & ? & ? & _). by exists fd, m.
Qed.

Lemma restore_state_safe k h fd data restore :
  k <> 0%nat -> Restorer (hooks_of cfg k) = Some restore ->
  T (Plugin k) (alive k (fun fs a => reading h fd fs a /\ holds fs (Some fd) data))
    (pact k (QRestore k) (fun x s =>
      match x with
      | AFail _ => (s, Some (Done false))
      | _ => match restore (FormatVersion h) data with
             | Some e => (upd k (with_effects e) s, Some (Done true))
             | None => (s, Some (Done false))
             end
      end))
    (fun ready => alive k (readied k ready)).
Proof.
  intros Hk0 HR. apply pact_safe; [eauto with lasting|]. intros s x Hi Hk Hg [[Hre Eg] Hh].
  assert (Hno : Guar (Plugin k) (QRestore k) s s /\ Inv s /\ T (Plugin k) (eq s) (Done false : M bool) (fun ready => alive k (readied k ready))).
  { split; [apply reload_Guar_refl|]. split; [done|]. apply triple_ret. intros ? _ <-. split; [done|]. right. by split. }
  destruct x; try exact Hno; (destruct (restore (FormatVersion h) data) as [e|] eqn:E; [|exact Hno]); cbn [fst snd].
  all: apply and_assoc; split.
  all: try (apply triple_ret; intros ? _ <-; apply alive_upd; [done|]; split; [done|]; intros _ restore' HR';
    rewrite HR in HR'; injection HR' as <-; exists h, (Some fd), data, e, []; split_and!; [done|done|done|by rewrite app_nil_r|done]).
  all: destruct Hre as [Ep _]; pose proof (inv_inst s Hi k Hk) as Hok.
  all: eapply plugin_upd'; [done|done|reflexivity|by apply ok_restore| |done|done|].
  all: try (constructor; simpl; auto; done).
  all: intros Er; exfalso; destruct (io_first _ _ _ Hok Ep) as [|[Et|Et]]; [done|..];
    destruct Hi as [_ _ _ (r & Hr & _ & [? ?] & _) _ _ _]; assert (r = k) as -> by congruence; done.
Qed.

Lemma verifyAndRestore_safe k h fd :
  k <> 0%nat ->
  T (Plugin k) (alive k (reading h fd)) (verifyAndRestore cfg k fd (DeclaredLength h) (FormatVersion h))
    (fun ready => alive k (readied k ready)).
Proof.
  intros Hk0. unfold verifyAndRestore. cbv zeta.
  assert (Hclose : forall ready, T (Plugin k) (alive k (readied k ready))
    (closeFDs (PluginEnd k) [fd] ≫= fun _ => mret ready) (fun ready => alive k (readied k ready))).
  { intros ready. eapply triple_bind; [apply close_plugin_safe; eauto with lasting|]. intros []. by apply triple_end. }
  eapply triple_bind; [apply verify_plugin_safe|]. intros [r leaks]. cbn [fst].
  assert (Hweak : forall ready (φ : view), (forall fs a, φ fs a -> readied k ready fs a) ->
    T (Plugin k) (alive k φ) (closeFDs (PluginEnd k) [fd] ≫= fun _ => mret ready) (fun ready => alive k (readied k ready))).
  { intros ready φ H. by apply (alive_pre k φ (readied k ready)). }
  destruct r as [[data sum]|e|]; [|apply Hweak; intros fs a [[? _] _]; by split..].
  assert (Hunmap : forall ready (φ : view), (forall fs a, φ fs a -> readied k ready fs a) ->
    T (Plugin k) (alive k φ)
      ((if (0 <? zlen data) && negb leaks
        then pcrit k (QClose (PluginEnd k)) (fun s => (upd k (fun a => with_res (unmap_file fd (res a)) a) s, tt)) else mret tt) ≫= fun _ =>
       closeFDs (PluginEnd k) [fd] ≫= fun _ => mret ready) (fun ready => alive k (readied k ready))).
  { intros ready φ H. apply (alive_pre k φ (readied k ready)); [done|]. eapply triple_bind with (Mid := fun _ => alive k (readied k ready)).
    - destruct ((0 <? zlen data) && negb leaks); [|by apply (triple_end k _ tt (fun _ => readied k ready))].
      apply benign_safe; [eauto with lasting|eauto with lasting|by intros a].
    - intros []. apply Hclose. }
  destruct (Restorer (hooks_of cfg k)) as [restore|] eqn:HR.
  - eapply triple_bind; [by apply restore_state_safe|]. intros ready. by apply Hunmap.
  - apply Hunmap. intros fs a [[? _] _]. split; [done|]. intros _ restore HR'. congruence.
Qed.

Lemma ServeRestore_safe k :
  k <> 0%nat ->
  T (Plugin k) (alive k restoring) (ServeRestore cfg k)
    (fun e => alive k (match e with None => fun _ a => phase a = Restored /\ hears a | Some _ => fun _ _ => True end)).
Proof.
  intros Hk0. unfold ServeRestore. eapply triple_bind.
  { apply (recv_plugin_safe k true _ (fun r => match r with Ok (Some (BodyRestore h), [fd]) => reading h fd | _ => fun _ _ => True end));
      [eauto with lasting| |done|done|done|].
    - intros r. repeat case_match; eauto with lasting.
    - intros fs a b file rest Hok Hg [Ep Hh] E.
      assert (Hn : to_h (b, file) = None).
      { destruct (to_h (b, file)) as [w|] eqn:Ew; [|done]. exfalso. assert (Hhe : heard a = w :: omap to_h rest) by (unfold heard; by rewrite E, heard_cons, Ew).
        pose proof (io_talk _ _ _ Hok) as Ht. unfold talk_ok in Ht. destruct (io_first _ _ _ Hok Ep) as [|[Et|Et]]; [done|..]; rewrite Et, Hhe in Ht;
          [by destruct Ht|by destruct Ht as [[|] _]]. }
      assert (Hdrop : inst_ok fs k (with_h2p rest a)) by (by eapply ok_drop_h).
      assert (Hh' : hears (with_h2p rest a)) by (unfold hears, heard in *; simpl; by rewrite E, heard_cons, Hn in Hh).
      destruct b; cbn [after_recv]; try done; (split; [done|split; [by apply pstep_stay|]]); try done.
      destruct file as [fd|]; [|done]. split; [by split|]. simpl. apply (io_given _ _ _ Hok (BodyRestore s, Some fd)); [|done]. rewrite E. by left. }
  assert (Hbad : forall l φ, T (Plugin k) (alive k φ) (closeFDs (PluginEnd k) l ≫= fun _ => mret (Some [TagProtocolViolation]))
    (fun e => alive k (match e with None => fun _ a => phase a = Restored /\ hears a | Some _ => fun _ _ => True end))).
  { intros l φ. apply (alive_pre k φ (fun _ _ => True)); [done|].
    eapply triple_bind; [apply close_plugin_safe; eauto with lasting|]. intros []. by apply triple_end. }
  intros [[b l]|e|]; [|by apply triple_end..]. destruct b as [b|]; [|apply Hbad]. destruct b; try apply Hbad.
  destruct l as [|fd [|? ?]]; try apply Hbad. eapply triple_bind; [by apply verifyAndRestore_safe|]. intros ready.
  apply (send_plugin_safe k _ _ _ (fun e => match e with None => fun _ a => phase a = Restored /\ hears a | Some _ => fun _ _ => True end));
    [eauto with lasting|done|].
  intros fs a Hok Hg [[Ep Hh] Hr]. split; [by apply ok_say_ready|]. split; [|by split].
  constructor; simpl; auto; try done; congruence.
Qed.

Lemma serve_safe k (φ : view) :
  lasting k φ -> (forall fs a, φ fs a -> (phase a = Restoring \/ phase a = Restored) /\ hears a) ->
  T (Plugin k) (alive k φ)
    (pcrit k (QServe k) (fun s => (upd k (fun a => with_beating true (with_phase Serving a)) s, Goes))) (plugin_post k).
Proof.
  intros Hl H. apply pcrit_safe; [done|]. intros s Hi Hk Hg Hφ. destruct (H _ _ Hφ) as [Hp Hh]. cbn [fst snd].
  apply and_assoc. split; [|by apply alive_upd].
  eapply plugin_upd'; [done|done|reflexivity|by apply ok_serve, inv_inst| |done..].
  constructor; simpl; auto; try done. intros E. destruct Hp; congruence.
Qed.

Lemma runServing_safe k :
  T (Plugin k) (alive k restoring) (runServing cfg k (negb (bool_decide (k = 0%nat)))) (plugin_post k).
Proof.
  unfold runServing. case_bool_decide as Hk0; cbn [negb].
  - eapply triple_bind with (Mid := fun e => alive k (fun fs a => e = None /\ restoring fs a)).
    { apply triple_ret. intros s _. apply alive_weaken. by intros fs a ?. }
    intros [e|]; [apply exit_safe; [|done]|apply serve_safe].
    + intros fs fs' a a' _ _ _ [? _]. done.
    + intros fs fs' a a' Hf Ho Hr [_ H]. destruct (restoring_lasting k fs fs' a a' Hf Ho Hr H); auto.
    + intros fs a [_ [? ?]]. auto.
  - eapply triple_bind; [by apply ServeRestore_safe|]. intros [e|].
    + apply exit_safe; [eauto with lasting|done].
    + apply serve_safe; [apply lasting_and; [apply lasting_phase|apply lasting_hears]|]. intros fs a [? ?]. auto.
Qed.

(** Before it is spawned nothing is known of an instance; when it is, it has
    not started. *)
Definition unspawned (k : nat) (s : state) : Prop := (k < born s)%nat -> alive k restoring s.

Lemma unspawned_stable k : Stable (Plugin k) (unspawned k).
Proof.
  intros s s' Hi Hi' HR H Hk. destruct (decide (k < born s)%nat) as [Hlt|Hge].
  - eapply alive_stable; [apply restoring_lasting|exact Hi|exact Hi'|exact HR|by apply H].
  - destruct HR as (r & q & Hr & HG). destruct r as [|j|j|j]; simpl in HG.
    + destruct HG as (_ & _ & _ & _ & _ & _ & _ & _ & Hn). split; [done|]. right. rewrite Hn by lia. by split.
    + destruct HG as [(_ & _ & _ & Eb & _) _]. lia.
    + destruct HG as [(_ & _ & _ & Eb & _) _]. lia.
    + destruct HG as [(_ & _ & _ & Eb & _) _]. lia.
Qed.

Lemma start_safe k :
  T (Plugin k) (unspawned k) (await_spawn k ≫= fun _ => runServing cfg k (negb (bool_decide (k = 0%nat)))) (plugin_post k).
Proof.
  eapply triple_bind with (Mid := fun _ => alive k restoring); [|intros []; apply runServing_safe].
  apply triple_act; [apply unspawned_stable|done|]. intros s x Hi Hu. cbn [fst snd].
  split; [apply reload_Guar_refl|]. split; [done|]. case_decide; [|done]. apply triple_ret. intros ? _ <-. by apply Hu.
Qed.

End safety.
End ReloadInstance.
