(* ===== verification/ReloadHost.v ===== *)
(** * The host's side of a hot reload

    The transaction of [Reload] keeps the shared invariant of [ReloadProtocol]
    and ends in one of four ways: the newcomer promoted, the old instance
    resumed, crash-equivalent with the gate shut, or a teardown callback's
    panic. *)

From Stdlib Require Import Strings.String.
From stdpp Require Import gmap functions.
From S2P Require Import Prelude ControlConn Interleave Reload ReloadProtocol.
Import ControlConn Reload ReloadProtocol.

Module ReloadHost.

Local Open Scope Z_scope.

(** Assertions that survive what the others do, or a datagram more or less. *)
Create HintDb kept.

Section safety.
Context {cfg : config}.

Local Notation T := (triple Inv Rel Guar At).
Local Notation Stable := (stable Inv Rel).

(** ** The host

    Where a reload stands: which instance is supervised, which one is routed,
    which snapshot descriptors the host holds, and which instances are not yet
    torn down, each with the teardown steps taken so far.  Every other instance
    is gone, and was torn down in order. *)

Definition steps_of (k : nat) (s : state) : list TeardownStep := (filter (fun p => fst p = k) (steps s)).*2.

Definition six : list TeardownStep :=
  [StepStopAdmission; StepFailInFlight; StepJoinGoroutines; StepUnmap; StepTerminateAndReap; StepCloseFDs].

Definition standing (l : list (nat * list TeardownStep)) (s : state) : Prop :=
  (forall p, p ∈ l -> (fst p < born s)%nat /\ steps_of (fst p) s = snd p) /\
  (forall j, (j < born s)%nat -> j ∉ l.*1 -> phase (insts s j) = Gone /\ steps_of j s = six).

Definition calm (cur rt : nat) (fdl : list nat) (l : list (nat * list TeardownStep)) (s : state) : Prop :=
  current s = cur /\ route s = Some rt /\ fds (host s) = fdl /\ standing l s.

Definition shut (s : state) : Prop := open s = false /\ inside s = ∅.

Definition talks (k : nat) (t : talk_stage) (s : state) : Prop := (k < born s)%nat /\ talk (insts s k) = t.

(** The drained instance, with its state. *)
Definition still (k : nat) (e : list effect) (s : state) : Prop := (k < born s)%nat /\ stilled e (insts s k).

(** A newcomer that has acknowledged the state [e]. *)
Definition ready (k : nat) (e : list effect) (s : state) : Prop :=
  (k < born s)%nat /\ talk (insts s k) = Fresh /\ phase (insts s k) <> Restoring /\
  (stateful -> calls (effects (insts s k)) = calls e).

Definition encoded (k : nat) (e : list effect) : list Z :=
  match Saver (hooks_of cfg k) with Some save => save e | None => [] end.

Definition handed (k : nat) (h : SnapshotHeader) (f : option nat) (e : list effect) (old : nat) (s : state) : Prop :=
  (k < born s)%nat /\ given (insts s k) = Some (h, f) /\ sealed_copy (files s) h f (encoded old e).

Definition sealed_at (h : SnapshotHeader) (f : option nat) (bs : list Z) (s : state) : Prop := sealed_copy (files s) h f bs.

Definition ungiven (k : nat) (s : state) : Prop := given (insts s k) = None.

Lemma host_born s s' : host_same s s' -> born s' = born s.
Proof. intros (_ & _ & _ & E & _). done. Qed.
Lemma host_talk s s' k : host_same s s' -> talk (insts s' k) = talk (insts s k).
Proof. intros (_ & _ & _ & _ & _ & _ & _ & H). apply H. Qed.
Lemma host_given s s' k : host_same s s' -> given (insts s' k) = given (insts s k).
Proof. intros (_ & _ & _ & _ & _ & _ & _ & H). apply H. Qed.
Lemma host_steps s s' k : host_same s s' -> steps_of k s' = steps_of k s.
Proof. intros (_ & _ & _ & _ & _ & E & _). unfold steps_of. by rewrite E. Qed.

Lemma standing_stable l : Stable Host (standing l).
Proof.
  intros s s' Hi _ HR [Hl Ho]. destruct (Rel_host s s' Hi HR) as (Hh & _ & _ & _ & Hk).
  unfold standing. rewrite (host_born _ _ Hh). split; [intros p Hp|intros j Hj Hn]; rewrite (host_steps _ _ _ Hh); [by apply Hl|].
  destruct (Ho j Hj Hn). split; [|done]. by apply (hr_gone _ _ (Hk j Hj)).
Qed.

Lemma calm_stable cur rt fdl l : Stable Host (calm cur rt fdl l).
Proof.
  intros s s' Hi Hi' HR (Hc & Hr & Hf & Hs). pose proof (standing_stable l s s' Hi Hi' HR Hs).
  destruct (Rel_host s s' Hi HR) as ((_ & Er & Ec & _ & Eh & _) & _). unfold calm. by rewrite Er, Ec, Eh.
Qed.

Lemma shut_stable : Stable Host shut.
Proof.
  intros s s' Hi _ HR [Ho Hin]. destruct (Rel_host s s' Hi HR) as (Hh & _ & He & _). split; [|by apply He].
  destruct Hh as (-> & _). done.
Qed.

Lemma open_stable b : Stable Host (fun s => open s = b).
Proof. intros s s' Hi _ HR E. by destruct (Rel_host s s' Hi HR) as ((-> & _) & _). Qed.

Lemma talks_stable k t : Stable Host (talks k t).
Proof.
  intros s s' Hi _ HR [? ?]. destruct (Rel_host s s' Hi HR) as (Hh & _). unfold talks. by rewrite (host_born _ _ Hh), (host_talk _ _ _ Hh).
Qed.

Lemma still_stable k e : Stable Host (still k e).
Proof.
  intros s s' Hi _ HR [Hk Hs]. destruct (Rel_host s s' Hi HR) as (Hh & _ & _ & _ & Hr).
  split; [by rewrite (host_born _ _ Hh)|]. by apply (hr_stilled _ _ (Hr k Hk)).
Qed.

Lemma ready_stable k e : Stable Host (ready k e).
Proof.
  intros s s' Hi _ HR (Hk & Ht & Hp & He). destruct (Rel_host s s' Hi HR) as (Hh & _ & _ & _ & Hr).
  destruct (hr_ready _ _ (Hr k Hk) Ht Hp) as (Hp' & bg & Hbg & Ee).
  unfold ready. rewrite (host_born _ _ Hh), (host_talk _ _ _ Hh). split_and!; try done.
  intros Hsf. rewrite Ee, calls_app, (calls_background bg Hbg), app_nil_r. by apply He.
Qed.

Lemma sealed_at_stable h f bs : Stable Host (sealed_at h f bs).
Proof. intros s s' Hi _ HR H. destruct (Rel_host s s' Hi HR) as (_ & Hf & _). by eapply sealed_copy_mono. Qed.

Lemma handed_stable k h f e old : Stable Host (handed k h f e old).
Proof.
  intros s s' Hi _ HR (? & ? & ?). destruct (Rel_host s s' Hi HR) as (Hh & Hf & _).
  unfold handed. rewrite (host_born _ _ Hh), (host_given _ _ _ Hh). split_and!; try done. by eapply sealed_copy_mono.
Qed.

Lemma ungiven_stable k : Stable Host (ungiven k).
Proof. intros s s' Hi _ HR H. destruct (Rel_host s s' Hi HR) as (Hh & _). unfold ungiven. by rewrite (host_given _ _ _ Hh). Qed.

Lemma joining_stable d : Stable Host (joining d).
Proof. intros s s' Hi _ HR. destruct (Rel_host s s' Hi HR) as (_ & _ & _ & H & _). apply H. Qed.

Hint Resolve reload_stable_and standing_stable calm_stable shut_stable open_stable talks_stable still_stable ready_stable
  sealed_at_stable handed_stable ungiven_stable joining_stable : kept.

(** ** Steps of the host *)

Lemma hstep_quiet a a' :
  reqs a' = reqs a -> arrived a' = arrived a -> effects a' = effects a -> frozen a' = frozen a -> phase a' = phase a ->
  given a' = given a -> talk a' = talk a -> heard a' = heard a -> hstep a a'.
Proof. intros. constructor; auto. Qed.

Lemma host_upd k q s f p a' :
  Inv s -> (k < born s)%nat -> f (insts s k) = a' -> hstep (insts s k) a' -> inst_ok (files s) k a' ->
  (route s = Some k -> talk a' <> Fresh /\ talk a' <> Retired /\ (open s = true \/ inside s <> ∅ -> talk a' = Idle)) ->
  Guar Host q s (with_host p (upd k f s)) /\ Inv (with_host p (upd k f s)).
Proof.
  intros Hi Hk Ea Hh Hok Ht. split.
  - simpl. split_and!; try done; [|intros j Hj; lia]. intros j Hj. destruct (decide (k = j)) as [<-|Hne].
    + rewrite fn_lookup_alter, Ea. done.
    + rewrite fn_lookup_alter_ne by done. apply hstep_refl.
  - apply Inv_host. eapply (Inv_upd s _ k a'); [done|done|apply frame_upd|by rewrite insts_upd|apply others_upd|done|done|].
    intros _ _. by rewrite (hs_effects _ _ Hh), (hs_reqs _ _ Hh).
Qed.

Lemma with_host_same s : with_host (host s) s = s.
Proof. by destruct s. Qed.

Lemma host_upd' k q s f a' :
  Inv s -> (k < born s)%nat -> f (insts s k) = a' -> hstep (insts s k) a' -> inst_ok (files s) k a' ->
  (route s = Some k -> talk a' <> Fresh /\ talk a' <> Retired /\ (open s = true \/ inside s <> ∅ -> talk a' = Idle)) ->
  Guar Host q s (upd k f s) /\ Inv (upd k f s).
Proof. intros. rewrite <- (with_host_same (upd k f s)). by eapply host_upd. Qed.

(** The routed instance's side of the conversation is unchanged. *)
Lemma route_same s k a' :
  Inv s -> talk a' = talk (insts s k) ->
  route s = Some k -> talk a' <> Fresh /\ talk a' <> Retired /\ (open s = true \/ inside s <> ∅ -> talk a' = Idle).
Proof. intros [_ _ _ (r & Hr & _ & [? ?] & Hro) _ _ _] -> Er. assert (r = k) as -> by congruence. by split_and!. Qed.

(** A step that touches neither the gate's insides nor an instance. *)
Lemma Guar_host_free q s s' :
  inside s' = inside s -> active s' = active s -> published s' = published s -> files s' = files s -> closed s' = closed s ->
  born s' = born s -> insts s' = insts s -> (inside s <> ∅ -> route s' = route s) -> Guar Host q s s'.
Proof.
  intros ? ? ? ? ? Eb Ei ?. simpl. rewrite Eb, Ei. split_and!; try done; [intros j _; apply hstep_refl|intros j ?; lia].
Qed.

(** What the updates of an instance leave in place. *)
Lemma calm_upd cur rt fdl l k f p s :
  (phase (insts s k) = Gone -> phase (f (insts s k)) = Gone) -> calm cur rt fdl l s -> calm cur rt (fds p) l (with_host p (upd k f s)).
Proof.
  intros Hf (? & ? & ? & Hl & Ho). split_and!; try done. split; [done|]. intros j Hj Hn. destruct (Ho j Hj Hn). split; [|done].
  simpl. destruct (decide (k = j)) as [->|Hne]; [rewrite fn_lookup_alter; by apply Hf|by rewrite fn_lookup_alter_ne].
Qed.

Lemma calm_upd' cur rt fdl l k f s :
  (phase (insts s k) = Gone -> phase (f (insts s k)) = Gone) -> calm cur rt fdl l s -> calm cur rt fdl l (upd k f s).
Proof.
  intros Hf Hc. rewrite <- (with_host_same (upd k f s)). pose proof Hc as (_ & _ & <- & _). by eapply calm_upd.
Qed.

(** Assertions that do not speak of instance [k]'s datagrams or of the host's
    descriptors. *)
Definition deaf (k : nat) (P : state -> Prop) : Prop :=
  forall s f, (forall a, talk (f a) = talk a /\ phase (f a) = phase a /\ reqs (f a) = reqs a /\ effects (f a) = effects a /\ given (f a) = given a) ->
  P s -> P (upd k f s).

Lemma deaf_and k (P Q : state -> Prop) : deaf k P -> deaf k Q -> deaf k (fun s => P s /\ Q s).
Proof. intros HP HQ s f Hf [? ?]. split; [by apply HP|by apply HQ]. Qed.

Lemma deaf_inst k j (φ : nat -> list memfd -> instance -> Prop) :
  (forall b fs a a', talk a' = talk a -> phase a' = phase a -> reqs a' = reqs a -> effects a' = effects a -> given a' = given a -> φ b fs a -> φ b fs a') ->
  deaf k (fun s => φ (born s) (files s) (insts s j)).
Proof.
  intros H s f Hf Hφ. destruct (decide (k = j)) as [<-|Hne].
  - rewrite insts_upd. destruct (Hf (insts s k)) as (? & ? & ? & ? & ?). by eapply (H _ _ (insts s k)).
  - rewrite (others_upd k f s j) by done. done.
Qed.

Lemma deaf_calm k cur rt fdl l : deaf k (calm cur rt fdl l).
Proof. intros s f Hf. apply calm_upd'. by destruct (Hf (insts s k)) as (_ & -> & _). Qed.
Lemma deaf_shut k : deaf k shut.
Proof. by intros s f Hf. Qed.
Lemma deaf_open k b : deaf k (fun s => open s = b).
Proof. by intros s f Hf. Qed.
Lemma deaf_talks k j t : deaf k (talks j t).
Proof. apply (deaf_inst k j (fun b _ a => (j < b)%nat /\ talk a = t)). intros b fs a a' -> _ _ _ _. done. Qed.
Lemma deaf_still k j e : deaf k (still j e).
Proof. apply (deaf_inst k j (fun b _ a => (j < b)%nat /\ stilled e a)). unfold stilled. intros b fs a a' -> -> -> -> _. done. Qed.
Lemma deaf_ready k j e : deaf k (ready j e).
Proof.
  apply (deaf_inst k j (fun b _ a => (j < b)%nat /\ talk a = Fresh /\ phase a <> Restoring /\ (stateful -> calls (effects a) = calls e))).
  intros b fs a a' -> -> _ -> _. done.
Qed.
Lemma deaf_sealed k h f bs : deaf k (sealed_at h f bs).
Proof. by intros s g Hg. Qed.
Lemma deaf_handed k j h f e old : deaf k (handed j h f e old).
Proof.
  apply (deaf_inst k j (fun b fs a => (j < b)%nat /\ given a = Some (h, f) /\ sealed_copy fs h f (encoded old e))).
  intros b fs a a' _ _ _ _ ->. done.
Qed.
Hint Resolve deaf_and deaf_calm deaf_shut deaf_open deaf_talks deaf_still deaf_ready deaf_sealed deaf_handed : kept.

(** Errors of the wire and of the system. *)
Definition plain (e : error) : Prop := ErrReloadCrashEquivalent ∉ e /\ errDrainNotCommitted ∉ e.

Lemma plain_fault f : plain (error_of f).
Proof. destruct f; split; by intros ?%list_elem_of_singleton. Qed.
Lemma plain_system : plain [TagSystem].
Proof. split; by intros ?%list_elem_of_singleton. Qed.
Lemma plain_violation : plain [TagProtocolViolation].
Proof. split; by intros ?%list_elem_of_singleton. Qed.
Lemma plain_refused : plain [TagRefused].
Proof. split; by intros ?%list_elem_of_singleton. Qed.
Lemma plain_rejected : plain [ErrSnapshotRejected].
Proof. split; by intros ?%list_elem_of_singleton. Qed.
Lemma plain_nil : plain [].
Proof. split; apply not_elem_of_nil. Qed.
Hint Resolve plain_fault plain_system plain_violation plain_refused plain_rejected plain_nil : kept.

(** A call of the host that changes nothing. *)
Lemma host_returns {A} q s (a : A) (Post : A -> state -> Prop) :
  Inv s -> Post a s -> Guar Host q s s /\ Inv s /\ T Host (eq s) (Done a : M A) Post.
Proof. intros Hi HP. split; [apply reload_Guar_refl|]. split; [done|]. apply triple_ret. by intros ? _ <-. Qed.

Lemma fallible_safe q (P : state -> Prop) :
  Stable Host P -> (forall s, P s -> At Host q s) ->
  T Host P (fallible q) (fun e s => P s /\ forall e', e = Some e' -> plain e').
Proof.
  intros Hst Hat. apply triple_act; [done|by auto|]. intros s x Hi HP.
  destruct x; apply host_returns; try done; (split; [done|]); intros e' [= <-]; auto with kept.
Qed.

Lemma host_close_safe k l (P Q : state -> Prop) :
  Stable Host P -> (forall s, P s -> Q (with_host (foldr close_fd (host s) l) s)) ->
  T Host P (closeFDs (HostEnd k) l) (fun _ => Q).
Proof.
  intros Hst HQ. apply triple_crit; [done|]. intros s Hi HP. cbn [fst snd]. split; [done|]. split; [by apply Guar_host_free|].
  split; [by apply Inv_host|by apply HQ].
Qed.

Lemma calm_host cur rt fdl l p s : calm cur rt fdl l s -> calm cur rt (fds p) l (with_host p s).
Proof. by intros (? & ? & _ & ?). Qed.

(** What the host says. *)
Lemma send_host_safe k b file (P : state -> Prop) (Post : option error -> state -> Prop) :
  Stable Host P -> (forall s e, P s -> plain e -> Post (Some e) s) ->
  (forall s, Inv s -> P s ->
     let a' := after_send (HostEnd k) (b, file) (with_h2p (h2p (insts s k) ++ [(b, file)]) (insts s k)) in
     (k < born s)%nat /\ inst_ok (files s) k a' /\ hstep (insts s k) a' /\
     (route s = Some k -> talk a' <> Fresh /\ talk a' <> Retired /\ (open s = true \/ inside s <> ∅ -> talk a' = Idle)) /\
     Post None (upd k (fun a => after_send (HostEnd k) (b, file) (push (HostEnd k) (b, file) a)) s)) ->
  T Host P (SendFDs (HostEnd k) b file) Post.
Proof.
  intros Hst Hf Hs. apply triple_act; [done|done|]. intros s x Hi HP.
  destruct (Hs s Hi HP) as (Hk & Hok & Hh & Hr & HPo).
  destruct x; try (apply host_returns; [done|]; by auto with kept); cbn [fst snd inst_of].
  all: apply and_assoc; split; [by eapply host_upd'|apply triple_ret; by intros ? _ <-].
Qed.

(** What the host hears. *)
Lemma recv_host_safe k (rights : bool) (P : state -> Prop) (Post : outcome error (option ControlBody * list nat) -> state -> Prop) :
  Stable Host P -> (forall s, P s -> (k < born s)%nat /\ talk (insts s k) <> Retired) -> deaf k P ->
  (forall s e, P s -> plain e -> Post (Err e) s) -> (forall s, P s -> Post (Ok (None, [])) s) ->
  (forall s b file rest, Inv s -> P s -> p2h (insts s k) = (b, file) :: rest -> (b = BodyResumeAck -> talk (insts s k) = Resuming) ->
     Post (Ok (Some b, if rights then match file with Some i => [i] | None => [] end else [])) (receive (HostEnd k) rights (b, file) rest s)) ->
  T Host P (RecvFDs (HostEnd k) rights) Post.
Proof.
  intros Hst Hk Hd Hf Hn Hm. apply triple_act; [done|done|]. intros s x Hi HP. destruct (Hk s HP) as [Hkb Hnr].
  pose proof (inv_inst s Hi k Hkb) as Hok0.
  cbn [inbound inst_of]. destruct x; try (apply host_returns; [done|]; by auto with kept);
    destruct (p2h (insts s k)) as [|[b file] rest] eqn:E; cbn [fst snd]; try (split; [apply reload_Guar_refl|done]).
  2:{ apply and_assoc. split.
      - eapply host_upd'; [done|done|reflexivity|by apply hstep_quiet|by eapply ok_pop_p|by apply route_same].
      - apply triple_ret. intros ? _ <-. apply Hf; [|apply plain_system]. by apply Hd. }
  all: set (l := if rights then _ else _).
  all: assert (Hra : b = BodyResumeAck -> inst_ok (files s) k (with_talk Idle (with_p2h rest (insts s k))) /\ talk (insts s k) = Resuming)
         by (intros ->; by eapply ok_resumed).
  all: apply and_assoc; split; [|apply triple_ret; intros ? _ <-; apply Hm; [done..|]; intros Eb; by apply Hra].
  all: assert (Hpop : inst_ok (files s) k (with_p2h rest (insts s k))) by (by eapply ok_pop_p).
  all: eapply host_upd; [done|done|reflexivity| | |]; destruct b; cbn [after_recv fst];
    try (by apply hstep_quiet); try done; try (by apply route_same); try (by apply Hra).
  all: constructor; simpl; auto; do 3 right; left; destruct (Hra eq_refl) as [_ ?]; done.
Qed.

(** ** The gate, from the host's side *)

(** The supervised instance in its conversation. *)
Definition at_ (old : nat) (fdl : list nat) (l : list (nat * list TeardownStep)) (t : talk_stage) (s : state) : Prop :=
  calm old old fdl l s /\ talks old t s.

Lemma at_stable old fdl l t : Stable Host (at_ old fdl l t).
Proof. unfold at_. auto with kept. Qed.
Lemma deaf_at k old fdl l t : deaf k (at_ old fdl l t).
Proof. unfold at_. auto with kept. Qed.
Hint Resolve at_stable deaf_at : kept.

Lemma at_gate old fdl l t s s' :
  current s' = current s -> route s' = route s -> host s' = host s -> steps s' = steps s -> born s' = born s -> insts s' = insts s ->
  at_ old fdl l t s -> at_ old fdl l t s'.
Proof. unfold at_, calm, standing, talks, steps_of. intros -> -> -> -> -> ->. done. Qed.

Lemma inside_none s : Inv s -> active s = 0 -> inside s = ∅.
Proof. intros Hi E. apply leibniz_equiv, size_empty_inv. pose proof (inv_active s Hi). lia. Qed.

Lemma Close_safe old fdl l t :
  T Host (at_ old fdl l t) Close
    (fun e s => at_ old fdl l t s /\ match e with None => shut s | Some e => plain e end).
Proof.
  unfold Close. eapply triple_bind.
  { apply (triple_crit _ _ _ _ _ (at_ old fdl l t) _ _
      (fun r s => at_ old fdl l t s /\ match r with None => shut s | Some d => joining d s end)); [auto with kept|].
    intros s Hi HP. split; [done|]. split; [|split; [by apply Inv_cutoff|]].
    - unfold cutoff. cbn [active with_open]. destruct (active s =? 0); by apply Guar_host_free.
    - unfold cutoff. cbn [active with_open]. destruct (active s =? 0) eqn:E; cbn [fst snd]; (split; [by apply (at_gate _ _ _ _ s)|]).
      + split; [done|]. apply Z.eqb_eq in E. by apply (inside_none s).
      + split; [done|]. by left. }
  intros [d|]; [|by apply triple_ret]. eapply triple_bind.
  { apply (triple_act _ _ _ _ _ (fun s => at_ old fdl l t s /\ joining d s) _ _
      (fun e s => at_ old fdl l t s /\ match e with None => shut s | Some e => plain e end)); [auto with kept|by intros s _ []|].
    intros s x Hi [HP HJ]. cbn [fst snd].
    assert (Hdone : Guar Host (QJoin d) s s /\ Inv s /\
      match (if decide (d ∈ closed s) then Some (Done None : M (option error)) else None) with
      | Some p => T Host (eq s) p (fun e s => at_ old fdl l t s /\ match e with None => shut s | Some e => plain e end)
      | None => at_ old fdl l t s /\ joining d s
      end).
    { split; [apply reload_Guar_refl|]. split; [done|]. case_decide as Hd; [|done]. apply triple_ret. intros ? _ <-. split; [done|].
      destruct HJ as [Eo [Ed|[_ He]]]; [|by split]. by destruct (inv_drained s Hi d Ed) as (_ & ? & _). }
    destruct x; try exact Hdone. apply host_returns; [done|]. split; [done|apply plain_fault]. }
  intros [e|]; [|by apply triple_ret]. eapply triple_bind.
  { apply (triple_crit _ _ _ _ _ (fun s => at_ old fdl l t s /\ plain e) _ _ (fun _ s => at_ old fdl l t s /\ plain e)).
    - intros s s' Hi Hi' HR [? ?]. split; [by apply (at_stable old fdl l t s s')|done].
    - intros s Hi [HP He]. split; [done|]. cbn [fst snd]. unfold drop_join. split; [|split; [by apply (Inv_drop_join d)|split; [|done]]].
      + case_decide; by apply Guar_host_free.
      + by case_decide. }
  intros []. by apply triple_ret.
Qed.

Lemma Open_safe cur rt fdl l (P : state -> Prop) :
  Stable Host P -> (forall s, P s -> calm cur rt fdl l s /\ talks rt Idle s) ->
  T Host P Open (fun _ s => (calm cur rt fdl l s /\ talks rt Idle s) /\ open s = true).
Proof.
  intros Hst HP. apply triple_crit; [done|]. intros s Hi Hs. destruct (HP s Hs) as [Hc Ht]. cbn [fst snd]. split; [done|].
  split; [by apply Guar_host_free|]. split; [|done]. apply Inv_open; [done|]. intros r Er. destruct Hc as (_ & Er' & _), Ht as [_ Ht].
  assert (r = rt) as -> by congruence. done.
Qed.

(** ** Draining *)

Lemma recvExpected_safe k st want (P Q : state -> Prop) :
  Stable Host P -> (forall s, P s -> (k < born s)%nat /\ talk (insts s k) <> Retired) -> deaf k P ->
  (forall s b file rest, Inv s -> P s -> p2h (insts s k) = (b, file) :: rest -> (b = BodyResumeAck -> talk (insts s k) = Resuming) ->
     kind_of b <> Some want -> P (receive (HostEnd k) false (b, file) rest s)) ->
  forall (Qb : ControlBody -> state -> Prop),
  (forall s b file rest, Inv s -> P s -> p2h (insts s k) = (b, file) :: rest -> (b = BodyResumeAck -> talk (insts s k) = Resuming) ->
     kind_of b = Some want -> Legal st want = true -> Qb b (receive (HostEnd k) false (b, file) rest s)) ->
  (Legal st want = true) ->
  T Host P (recvExpected (HostEnd k) st want)
    (fun r s => match r with Ok b => kind_of b = Some want /\ Qb b s | Err e => plain e /\ P s | Panic => False end).
Proof.
  intros Hst Hk Hd Hother Qb Hwant Hleg. unfold recvExpected. eapply triple_bind.
  { apply (recv_host_safe k false P (fun r s => match r with
      | Ok (Some b, _) => (kind_of b = Some want /\ Qb b s) \/ (kind_of b <> Some want /\ P s)
      | Ok (None, _) => P s | Err e => plain e /\ P s | Panic => False end)); [done|done|done|by auto|done|].
    intros s b file rest Hi HP E Hra. destruct (decide (kind_of b = Some want)) as [Ek|Ek]; [left|right]; (split; [done|]).
    - by apply Hwant.
    - by apply Hother. }
  intros [[[b|] l]|e|]; apply triple_ret; intros s _; [|intros HP; split; [apply plain_violation|done]|done|done].
  intros [[Ek HQ]|[Ek HP]].
  - rewrite Ek, Hleg, bool_decide_eq_true_2 by done. done.
  - destruct (kind_of b) as [kb|] eqn:Ekb; [|split; [apply plain_violation|done]].
    rewrite (bool_decide_eq_false_2 (kb = want)) by congruence. rewrite andb_false_r. split; [apply plain_violation|done].
Qed.

(** Receiving leaves in place what is not said about datagrams. *)
Lemma receive_deaf k b file rest (P : state -> Prop) s :
  b <> BodyResumeAck -> deaf k P -> P s -> P (receive (HostEnd k) false (b, file) rest s).
Proof.
  intros Hb Hd HP. cbn [receive fst snd]. replace (takes false file (host s)) with (host s) by (by destruct file).
  change (host s) with (host (upd k (fun a => after_recv (HostEnd k) b (with_p2h rest a)) s)). rewrite with_host_same.
  apply Hd; [|done]. intros a. by destruct b.
Qed.

(** A DrainAck says that the instance is frozen and has nothing to do. *)
Lemma said_still k a fs b file rest :
  inst_ok fs k a -> talk a = Asked -> p2h a = (b, file) :: rest -> to_p (b, file) <> None -> stilled (effects a) a.
Proof.
  intros Hok Et E Hp. pose proof (io_talk _ _ _ Hok) as Ht. unfold talk_ok in Ht. rewrite Et in Ht.
  destruct Ht as (_ & _ & _ & Hs & _). destruct Hs as [? ?]; [|by unfold stilled].
  unfold said. rewrite E, said_cons. by destruct (to_p (b, file)).
Qed.

Lemma kind_drain_ack b : kind_of b = Some KindDrainAck -> b = BodyDrainAck.
Proof. by destruct b. Qed.
Lemma kind_resume_ack b : kind_of b = Some KindResumeAck -> b = BodyResumeAck.
Proof. by destruct b. Qed.
Lemma kind_restore_ack b : kind_of b = Some KindRestoreAck -> exists r t, b = BodyRestoreAck r t.
Proof. destruct b; try done. eauto. Qed.

Lemma shut_route s k a' : shut s -> talk a' <> Fresh -> talk a' <> Retired ->
  route s = Some k -> talk a' <> Fresh /\ talk a' <> Retired /\ (open s = true \/ inside s <> ∅ -> talk a' = Idle).
Proof. intros [Ho Hin] ? ? _. split_and!; try done. intros [|]; congruence. Qed.

(** The supervised instance with the gate shut. *)
Definition held_at (old : nat) (fdl : list nat) (l : list (nat * list TeardownStep)) (t : talk_stage) (s : state) : Prop :=
  at_ old fdl l t s /\ shut s.

Definition still_at (old : nat) (fdl : list nat) (l : list (nat * list TeardownStep)) (ef : list effect) (s : state) : Prop :=
  (calm old old fdl l s /\ still old ef s) /\ shut s.

Lemma held_at_stable old fdl l t : Stable Host (held_at old fdl l t).
Proof. unfold held_at. auto with kept. Qed.
Lemma still_at_stable old fdl l ef : Stable Host (still_at old fdl l ef).
Proof. unfold still_at. auto with kept. Qed.
Lemma deaf_held_at k old fdl l t : deaf k (held_at old fdl l t).
Proof. unfold held_at. auto with kept. Qed.
Lemma deaf_still_at k old fdl l ef : deaf k (still_at old fdl l ef).
Proof. unfold still_at. auto with kept. Qed.
Hint Resolve held_at_stable still_at_stable deaf_held_at deaf_still_at : kept.

Lemma still_held old fdl l ef s : still_at old fdl l ef s -> held_at old fdl l Asked s.
Proof. intros [[Hc [Hk (Ht & _)]] Hs]. by split. Qed.

Lemma held_speaks old fdl l t s :
  t <> Retired -> held_at old fdl l t s -> (old < born s)%nat /\ talk (insts s old) <> Retired.
Proof. intros Ht [[_ [Hk E]] _]. split; [done|]. by rewrite E. Qed.

Definition drain_post (old : nat) (l : list (nat * list TeardownStep)) (e : option error) (s : state) : Prop :=
  match e with
  | None => exists ef, still_at old [] l ef s
  | Some e => ErrReloadCrashEquivalent ∉ e /\
      (if Is (Some e) errDrainNotCommitted then at_ old [] l Idle s else held_at old [] l Asked s)
  end.

Lemma plain_not_committed e : plain e -> Is (Some e) errDrainNotCommitted = false.
Proof. intros [_ H]. by apply bool_decide_eq_false_2. Qed.

Lemma drain_safe old l : T Host (held_at old [] l Idle) (drain cfg old) (drain_post old l).
Proof.
  unfold drain. eapply triple_bind.
  { apply triple_ask; [auto with kept|]. intros s Hi Hs. split; [done|apply reload_Guar_refl]. }
  intros [now d]. destruct (drain_times now (DrainAck cfg) d) as [[transmitted hw]|].
  2:{ apply triple_ret. intros s _ [Ha _]. split; [by intros ?%list_elem_of_singleton|].
      unfold Is. rewrite bool_decide_eq_true_2 by (by apply list_elem_of_singleton). done. }
  eapply triple_bind.
  { apply (send_host_safe old _ _ _ (fun e s => match e with
      | None => held_at old [] l Asked s | Some e => plain e /\ at_ old [] l Idle s end)); [auto with kept|by intros s e [? _]|].
    intros s Hi [[Hc [Hk Ht]] Hs]. cbn [after_send fst push]. split_and!; [done| | |by apply shut_route|].
    - apply ok_ask; [done|by apply inv_inst].
    - constructor; simpl; auto. right. left. split_and!; try done. apply heard_push.
    - split; [|done]. split; [by apply calm_upd'|]. split; [done|]. by rewrite insts_upd. }
  intros [e|].
  - apply triple_ret. intros s _ [[Hp _] Ha]. split; [rewrite elem_of_app; by intros [?|?%list_elem_of_singleton]|].
    unfold Is. rewrite bool_decide_eq_true_2; [done|]. apply elem_of_app. right. by apply list_elem_of_singleton.
  - eapply triple_bind.
    { apply (recvExpected_safe old StateDraining KindDrainAck (held_at old [] l Asked) (fun _ => True)) with
        (Qb := fun _ s => exists ef, still_at old [] l ef s); [auto with kept|intros s Hs; by apply (held_speaks old [] l Asked)|auto with kept| | |done].
      - intros s b file rest Hi HP E Hra _. apply receive_deaf; [|auto with kept|done].
        intros ->. destruct HP as [[_ [_ Ht]] _]. specialize (Hra eq_refl). congruence.
      - intros s b file rest Hi HP E Hra Hb%kind_drain_ack _. subst b. pose proof HP as [[Hc [Hk Ht]] Hs].
        exists (effects (insts s old)). apply receive_deaf; [done|auto with kept|]. split; [|done]. split; [done|]. split; [done|].
        by eapply (said_still old _ _ _ _ _ (inv_inst s Hi old Hk)). }
    intros [b|e|]; apply triple_ret; intros s _; [by intros [_ ?]| |done]. intros [Hp HP].
    split; [apply Hp|]. by rewrite (plain_not_committed e Hp).
Qed.

(** ** The snapshot *)

Definition header_of (snap : snapshot) : SnapshotHeader :=
  {| SnapshotFdCount := 1; DeclaredLength := declaredLength snap; FormatVersion := formatVersion snap |}.

Lemma sealed_copy_header fs h h' f bs :
  DeclaredLength h' = DeclaredLength h -> FormatVersion h' = FormatVersion h -> sealed_copy fs h f bs -> sealed_copy fs h' f bs.
Proof. unfold sealed_copy. by intros -> ->. Qed.

(** Verification reads: it changes neither a file nor a descriptor. *)
Lemma verifySnapshot_reads sha bad fd n v fs p k' r :
  verifySnapshot sha bad fd n v (fs, p) = (k', r) ->
  fst k' = fs /\ fds (snd k') = fds p /\
  match r with Ok snap => snap_fd snap = fd /\ declaredLength snap = n /\ formatVersion snap = v | Err e => plain e | Panic => False end.
Proof.
  unfold verifySnapshot, VerifySealedSnapshot. intros E.
  repeat (case_match; simplify_eq/=); split_and!; auto with kept.
Qed.

Definition snapshot_post (old : nat) (l : list (nat * list TeardownStep)) (ef : list effect) (r : outcome error snapshot) (s : state) : Prop :=
  match r with
  | Ok snap => still_at old [snap_fd snap] l ef s /\ sealed_at (header_of snap) (Some (snap_fd snap)) (encoded old ef) s
  | Err e => plain e /\ still_at old [] l ef s
  | Panic => False
  end.

(** The instance's SaveState, with its descriptor. *)
Definition saved_post (old : nat) (l : list (nat * list TeardownStep)) (ef : list effect)
    (r : outcome error (option ControlBody * list nat)) (s : state) : Prop :=
  match r with
  | Ok (b, fdl) => still_at old fdl l ef s /\ (length fdl <= 1)%nat /\
      forall h fd, b = Some (BodySaveState h) -> fdl = [fd] -> sealed_at h (Some fd) (encoded old ef) s
  | Err e => plain e /\ still_at old [] l ef s
  | Panic => False
  end.

Lemma still_receive old l ef b file rest s :
  b <> BodyResumeAck -> still_at old [] l ef s ->
  still_at old match file with Some i => [i] | None => [] end l ef (receive (HostEnd old) true (b, file) rest s).
Proof.
  intros Hb [[Hc [Hk Hst]] Hs]. cbn [receive fst snd]. split; [|done]. split.
  - pose proof Hc as (_ & _ & Ef & _).
    replace (match file with Some i => [i] | None => [] end) with (fds (takes true file (host s))) by (destruct file; simpl; by rewrite Ef).
    eapply calm_upd; [|done]. intros E. by destruct b.
  - split; [done|]. change (stilled ef (insts (upd old (fun a => after_recv (HostEnd old) b (with_p2h rest a)) s) old)).
    rewrite insts_upd. by destruct b.
Qed.

Lemma recv_saved_safe old l ef : T Host (still_at old [] l ef) (RecvFDs (HostEnd old) true) (saved_post old l ef).
Proof.
  apply recv_host_safe; [auto with kept| |auto with kept|done| |].
  - intros s Hs. eapply held_speaks; [|by eapply still_held]. done.
  - intros s Hs. split; [done|]. by split; [simpl; lia|].
  - intros s b file rest Hi HP E Hra. pose proof HP as [[Hc [Hk (Et & Hph & Er & Ee)]] Hs].
    assert (Hb : b <> BodyResumeAck) by (intros Eb; specialize (Hra Eb); congruence).
    split; [by apply still_receive|]. split; [destruct file; simpl; lia|]. intros h fd [= ->] Ef.
    assert (file = Some fd) as -> by (destruct file; congruence). pose proof (io_talk _ _ _ (inv_inst s Hi old Hk)) as Ht.
    unfold talk_ok in Ht. rewrite Et in Ht. destruct Ht as (_ & _ & _ & _ & Hsv). specialize (Hsv h (Some fd)).
    unfold saved_bytes in Hsv. rewrite Ee in Hsv. apply Hsv. unfold said. rewrite E. by left.
Qed.

Lemma still_close old fdl l l' ef s p :
  fds p = fdl -> still_at old l' l ef s -> still_at old fdl l ef (with_host p s).
Proof. intros <- [[Hc Hst] Hs]. split; [|done]. split; [|done]. by eapply calm_host. Qed.

Lemma close_all_fds l p : fds p = l -> (length l <= 1)%nat -> fds (foldr close_fd p l) = [].
Proof. intros E Hl. destruct l as [|i [|]]; simpl in *; [done| |lia]. rewrite E. simpl. by rewrite decide_True. Qed.

Lemma close_still_safe k old fdl l ef :
  (length fdl <= 1)%nat -> T Host (still_at old fdl l ef) (closeFDs (HostEnd k) fdl) (fun _ => still_at old [] l ef).
Proof.
  intros Hl. apply host_close_safe; [auto with kept|]. intros s Hs. eapply still_close; [|done].
  apply close_all_fds; [|done]. by destruct Hs as [[(_ & _ & ? & _) _] _].
Qed.

Lemma verify_host_safe old fd h l ef (P := fun s => still_at old [fd] l ef s /\ sealed_at h (Some fd) (encoded old ef) s) :
  T Host P
    (Act (QVerify (HostEnd old)) (fun x s =>
       match x with
       | ASys bad =>
           let '((fs, p), r) := verifySnapshot (sha256 cfg) bad fd (DeclaredLength h) (FormatVersion h) (files s, host s) in
           (with_files fs (with_host p s), Some (Done r))
       | _ => (s, None)
       end))
    (fun r s => match r with
                | Ok snap => snap_fd snap = fd /\ still_at old [fd] l ef s /\ sealed_at (header_of snap) (Some fd) (encoded old ef) s
                | Err e => plain e /\ still_at old [fd] l ef s
                | Panic => False end).
Proof.
  apply triple_act; [unfold P; auto with kept|done|]. intros s x Hi [HP HC].
  destruct x; try (split; [apply reload_Guar_refl|done]).
  destruct (verifySnapshot _ bad fd _ _ (files s, host s)) as [[fs p] r] eqn:E.
  destruct (verifySnapshot_reads _ _ _ _ _ _ _ _ _ E) as (Ef & Ep & Hr). cbn [fst snd] in *. subst fs.
  change (with_files (files s) (with_host p s)) with (with_host p s).
  split; [by apply Guar_host_free|]. split; [by apply Inv_host|]. apply triple_ret. intros ? _ <-.
  assert (HP' : still_at old [fd] l ef (with_host p s)) by (eapply still_close; [|done]; rewrite Ep; by destruct HP as [[(_ & _ & ? & _) _] _]).
  destruct r as [snap|e|]; [|by split|done]. destruct Hr as (Efd & En & Ev). split_and!; try done. by eapply sealed_copy_header.
Qed.

Lemma take_snapshot_safe old l ef : T Host (still_at old [] l ef) (take_snapshot cfg old) (snapshot_post old l ef).
Proof.
  unfold take_snapshot. eapply triple_bind; [apply recv_saved_safe|].
  intros [[b fdl]|e|]; [|by apply triple_ret..].
  assert (Hbad : T Host (saved_post old l ef (Ok (b, fdl)))
    (closeFDs (HostEnd old) fdl ≫= fun _ => mret (Err [TagProtocolViolation])) (snapshot_post old l ef)).
  { intros s Hi (HP & Hl & _). revert s Hi HP.
    change (T Host (still_at old fdl l ef) (closeFDs (HostEnd old) fdl ≫= fun _ => mret (Err [TagProtocolViolation])) (snapshot_post old l ef)).
    eapply triple_bind; [by apply close_still_safe|]. intros []. apply triple_ret. intros s _ ?. split; [apply plain_violation|done]. }
  destruct b as [b|]; [|exact Hbad]. destruct b; try exact Hbad. rename s into h. destruct fdl as [|fd [|? ?]]; try (exact Hbad). clear Hbad.
  eapply triple_bind.
  { eapply triple_conseq; [apply verify_host_safe| |done]. intros s' _ (HP' & _ & Hsl). split; [done|by apply Hsl]. }
  intros [snap|e|]; [| |by apply triple_ret].
  - eapply triple_bind.
    { apply (send_host_safe old _ _ _ (fun e s => (forall e', e = Some e' -> plain e') /\ snap_fd snap = fd /\ still_at old [fd] l ef s /\
        sealed_at (header_of snap) (Some fd) (encoded old ef) s)).
      - intros s s' Hi Hi' HR (? & ? & ?). split_and!; [done|by apply (still_at_stable old [fd] l ef s s')|by apply (sealed_at_stable _ _ _ s s')].
      - intros s e HP He. split; [|done]. by intros e' [= <-].
      - intros s Hi (Efd & HP & HC). pose proof HP as [[Hc [Hk Hst]] Hs]. cbn [after_send fst push].
        pose proof (proj1 Hst) as Et. split_and!; [done| | |by apply route_same|done|done| |].
        + apply ok_push_quiet; [done|done|congruence|by apply inv_inst].
        + apply hstep_quiet; try done. rewrite heard_push. by rewrite app_nil_r.
        + by apply (deaf_still_at old old [fd] l ef s).
        + by apply (deaf_sealed old _ _ _ s). }
    intros [e|].
    + eapply triple_bind with (Mid := fun _ s => plain e /\ still_at old [] l ef s); [|intros []; by apply triple_ret].
      apply host_close_safe.
      * intros s s' Hi Hi' HR (? & ? & ? & ?). split_and!; [done|done|by apply (still_at_stable old [fd] l ef s s')|by apply (sealed_at_stable _ _ _ s s')].
      * intros s (He & Efd & HP & _). split; [by apply He|]. rewrite Efd. eapply still_close; [|done].
        apply close_all_fds; [|simpl; lia]. by destruct HP as [[(_ & _ & ? & _) _] _].
    + apply triple_ret. intros s _ (_ & Efd & HP & HC). unfold snapshot_post. by rewrite Efd.
  - eapply triple_bind with (Mid := fun _ s => plain e /\ still_at old [] l ef s); [|intros []; by apply triple_ret].
    apply host_close_safe.
    + intros s s' Hi Hi' HR (? & ?). split; [done|by apply (still_at_stable old [fd] l ef s s')].
    + intros s (He & HP). split; [done|]. eapply still_close; [|done].
      apply close_all_fds; [|simpl; lia]. by destruct HP as [[(_ & _ & ? & _) _] _].
Qed.

(** ** The newcomer *)

Lemma insts_other k j f s : j <> k -> insts (upd k f s) j = insts s j.
Proof. apply others_upd. Qed.

Lemma still_at_other k old fdl l ef f s :
  k <> old -> (phase (insts s k) = Gone -> phase (f (insts s k)) = Gone) -> still_at old fdl l ef s -> still_at old fdl l ef (upd k f s).
Proof.
  intros Hne Hg [[Hc [Hk Hst]] Hs]. split; [|done]. split; [by apply calm_upd'|]. split; [done|]. by rewrite insts_other.
Qed.

Lemma steps_unborn s k : Inv s -> (born s <= k)%nat -> steps_of k s = [].
Proof.
  intros Hi Hk. unfold steps_of. pose proof (inv_steps s Hi) as Hst. induction (steps s) as [|p l IH]; [done|].
  rewrite filter_cons, decide_False; [apply IH; intros; apply Hst; by right|]. specialize (Hst p ltac:(by left)). lia.
Qed.

Lemma calm_spawn cur rt fdl l s a :
  Inv s -> calm cur rt fdl l s -> calm cur rt fdl ((born s, []) :: l) (with_born (S (born s)) (upd (born s) (fun _ => a) s)).
Proof.
  intros Hi (? & ? & ? & Hl & Ho). split_and!; try done. split.
  - intros p [->|Hp]%elem_of_cons; [|destruct (Hl p Hp); split; [simpl; lia|done]]. split; [simpl; lia|]. by apply (steps_unborn s).
  - intros j Hj Hn. cbn [born with_born] in Hj. rewrite fmap_cons, not_elem_of_cons in Hn. destruct Hn as [Hne Hn].
    simpl in Hne. simpl. rewrite fn_lookup_alter_ne by done. apply Ho; [lia|done].
Qed.

Lemma still_at_spawn old fdl l ef s a :
  Inv s -> still_at old fdl l ef s -> still_at old fdl ((born s, []) :: l) ef (with_born (S (born s)) (upd (born s) (fun _ => a) s)).
Proof.
  intros Hi [[Hc [Hk Hst]] Hs]. split; [|done]. split; [by apply calm_spawn|]. split; [simpl; lia|].
  simpl. by rewrite fn_lookup_alter_ne by lia.
Qed.

Definition newcomer (old k : nat) (fdl : list nat) (l : list (nat * list TeardownStep)) (ef : list effect) (s : state) : Prop :=
  k <> old /\ still_at old fdl ((k, []) :: l) ef s /\ talks k Fresh s.

Lemma newcomer_stable old k fdl l ef : Stable Host (newcomer old k fdl l ef).
Proof.
  intros s s' Hi Hi' HR (? & ? & ?). split_and!; [done|by apply (still_at_stable old fdl ((k, []) :: l) ef s s')|by apply (talks_stable k Fresh s s')].
Qed.
Lemma deaf_newcomer j old k fdl l ef : deaf j (newcomer old k fdl l ef).
Proof. intros s f Hf (? & ? & ?). split_and!; [done|by apply deaf_still_at|by apply deaf_talks]. Qed.
Hint Resolve newcomer_stable deaf_newcomer : kept.

Lemma spawnNew_safe old fdl l ef h f bs :
  T Host (fun s => still_at old fdl l ef s /\ sealed_at h f bs s) (spawnNew cfg)
    (fun r s => match r with
                | Ok k => (newcomer old k fdl l ef s /\ sealed_at h f bs s) /\ ungiven k s
                | Err e => plain e /\ still_at old fdl l ef s
                | Panic => False end).
Proof.
  apply triple_act; [auto with kept|done|]. intros s x Hi [HP HC].
  assert (Hok : forall a, a = fresh (Mutators (hooks_of cfg (born s))) Fresh ->
    let s' := with_born (S (born s)) (upd (born s) (fun _ => a) s) in
    Guar Host QSpawn s s' /\ Inv s' /\ (newcomer old (born s) fdl l ef s' /\ sealed_at h f bs s') /\ ungiven (born s) s').
  { intros a -> s'. pose proof HP as [[_ [Hk _]] _]. split; [|split; [by apply Inv_spawn|]].
    - simpl. split; [done|]. split; [done|]. split; [done|]. split; [done|]. split; [done|]. split; [lia|]. split; [|split; [done|]].
      + intros j Hj. rewrite fn_lookup_alter_ne by lia. apply hstep_refl.
      + intros j Hj. assert (j = born s) as -> by lia. by rewrite fn_lookup_alter.
    - split; [|unfold ungiven; simpl; by rewrite fn_lookup_alter]. split; [|done]. split; [lia|]. split; [by apply still_at_spawn|].
      split; [simpl; lia|]. simpl. by rewrite fn_lookup_alter. }
  destruct x; try (cbn [fst snd]; destruct (Hok _ eq_refl) as (? & ? & ?); split_and!; [done..|]; apply triple_ret; by intros ? _ <-).
  apply host_returns; [done|]. split; [apply plain_fault|done].
Qed.

(** A newcomer that says it is ready has the state it was given. *)
Lemma readied_ready fs k old a h f ef d :
  inst_ok fs k a -> talk a = Fresh -> d ∈ p2h a -> readies d = true -> given a = Some (h, f) -> sealed_copy fs h f (encoded old ef) ->
  phase a <> Restoring /\ (stateful -> calls (effects a) = calls ef).
Proof.
  intros Hok Et Hd Hr Eg Hc. destruct (io_fresh _ _ _ Hok Et) as (_ & _ & Hac & Hre). split.
  - apply (Hac d Hd). unfold readies, acks in *. by destruct (fst d).
  - intros Hsf. destruct (Hsf old k) as (save & restore & Es & Er & Hrt).
    destruct (Hre d Hd Hr restore Er) as (h' & f' & bs & e & bg & Eg' & Hh & Ere & Ee & Hbg).
    rewrite Eg in Eg'. injection Eg' as <- <-. unfold encoded in Hc. rewrite Es in Hc.
    destruct Hc as (_ & Ev & i & m & -> & Hm & Hcont & _). destruct Hh as (i' & m' & [= <-] & Hm' & Hcont').
    assert (bs = save ef) as -> by congruence. rewrite Ev, Hrt in Ere. injection Ere as <-.
    by rewrite Ee, calls_app, (calls_background bg Hbg), app_nil_r.
Qed.

Definition validate_post (old : nat) (fdl : list nat) (l : list (nat * list TeardownStep)) (ef : list effect)
    (r : option nat * option error) (s : state) : Prop :=
  match r with
  | (Some k, None) => newcomer old k fdl l ef s /\ ready k ef s
  | (Some k, Some e) => plain e /\ newcomer old k fdl l ef s
  | (None, Some e) => plain e /\ still_at old fdl l ef s
  | (None, None) => False
  end.

Lemma give_safe old k fdl l ef h fd :
  T Host (fun s => (newcomer old k fdl l ef s /\ sealed_at h (Some fd) (encoded old ef) s) /\ ungiven k s)
    (SendFDs (HostEnd k) (BodyRestore h) (Some fd))
    (fun e s => newcomer old k fdl l ef s /\ match e with Some e => plain e | None => handed k h (Some fd) ef old s end).
Proof.
  apply send_host_safe; [auto with kept|by intros s e [[? _] _] ?|].
  intros s Hi [[(Hne & HP & Hk & Et) HC] Hg]. cbn [after_send fst push].
  split; [done|]. split; [|split; [|split]].
  - apply ok_give; [done|done|by apply inv_inst].
  - constructor; simpl; auto. left. split; [done|].
    change (heard (with_h2p (h2p (insts s k) ++ [(BodyRestore h, Some fd)]) (insts s k)) = heard (insts s k)). by rewrite heard_push, app_nil_r.
  - intros Er. exfalso. destruct HP as [[(_ & Er' & _) _] _]. congruence.
  - split; [split; [done|]; split; [by apply still_at_other|]|]; (split; [done|]); rewrite insts_upd; [done|by split].
Qed.

Lemma restoreValidate_safe old l ef snap :
  T Host (fun s => still_at old [snap_fd snap] l ef s /\ sealed_at (header_of snap) (Some (snap_fd snap)) (encoded old ef) s)
    (restoreValidate cfg snap) (validate_post old [snap_fd snap] l ef).
Proof.
  unfold restoreValidate. eapply triple_bind; [apply spawnNew_safe|]. intros [k|e|]; [|by apply triple_ret..].
  cbv zeta. fold (header_of snap). eapply triple_bind; [apply give_safe|].
  intros [e|]; [apply triple_ret; by intros s _ [? ?]|]. eapply triple_bind.
  { apply (recvExpected_safe k StateRestoring KindRestoreAck
      (fun s => newcomer old k [snap_fd snap] l ef s /\ handed k (header_of snap) (Some (snap_fd snap)) ef old s) (fun _ => True)) with
      (Qb := fun b s => newcomer old k [snap_fd snap] l ef s /\ forall t, b = BodyRestoreAck true t -> ready k ef s);
      [auto with kept|intros s [(_ & _ & Hk & Et) _]; by rewrite Et|auto with kept| | |done].
    - intros s b file rest Hi HP E Hra _. apply receive_deaf; [|auto with kept|done].
      intros ->. destruct HP as [(_ & _ & _ & Et) _]. specialize (Hra eq_refl). congruence.
    - intros s b file rest Hi [HP HH] E _ (r & t & ->)%kind_restore_ack _. pose proof HP as (_ & _ & Hk & Et).
      pose proof HH as (_ & Eg & Hc). split; [by apply receive_deaf; auto with kept|]. intros t' [= -> ->].
      apply receive_deaf; [done|auto with kept|].
      destruct (readied_ready (files s) k old (insts s k) _ _ ef (BodyRestoreAck true t', file)
        (inv_inst s Hi k Hk) Et ltac:(rewrite E; by left) eq_refl Eg Hc). by split_and!. }
  intros [b|e|]; [|apply triple_ret; by intros s _ (? & ? & _)|by apply triple_ret].
  apply triple_ret. intros s _ ((r & t & ->)%kind_restore_ack & HP & Hr). destruct r; [split; [done|]; by apply (Hr t)|].
  split; [apply plain_refused|done].
Qed.

(** ** Teardown

    While instance [k] is torn down, [F] is what the rest of the transaction
    needs to keep. *)

Definition doomed (k : nat) (s : state) : Prop := talks k Fresh s \/ exists ef, still k ef s.
Definition gone (k : nat) (s : state) : Prop := (k < born s)%nat /\ phase (insts s k) = Gone.

Lemma doomed_stable k : Stable Host (doomed k).
Proof.
  intros s s' Hi Hi' HR [H|[ef H]]; [left; by apply (talks_stable k Fresh s s')|right; exists ef; by apply (still_stable k ef s s')].
Qed.
Lemma gone_stable k : Stable Host (gone k).
Proof.
  intros s s' Hi _ HR [Hk Hg]. destruct (Rel_host s s' Hi HR) as (Hh & _ & _ & _ & Hr).
  split; [by rewrite (host_born _ _ Hh)|]. by apply (hr_gone _ _ (Hr k Hk)).
Qed.
Hint Resolve doomed_stable gone_stable : kept.

Lemma doomed_born k s : doomed k s -> (k < born s)%nat.
Proof. by intros [[? _]|[ef [? _]]]. Qed.

Lemma steps_of_log k j st s : steps_of j (log k st s) = steps_of j s ++ if decide (k = j) then [st] else [].
Proof. unfold steps_of, log. simpl. rewrite filter_app, fmap_app. f_equal. rewrite filter_cons. simpl. by case_decide. Qed.

Lemma calm_log cur rt fdl k sts l st s :
  k ∉ l.*1 -> calm cur rt fdl ((k, sts) :: l) s -> calm cur rt fdl ((k, sts ++ [st]) :: l) (log k st s).
Proof.
  intros Hk (? & ? & ? & Hl & Ho). split_and!; try done. split.
  - intros p [->|Hp]%elem_of_cons.
    + destruct (Hl (k, sts) ltac:(by left)) as [? E]. split; [done|]. simpl. rewrite steps_of_log, decide_True by done. simpl in E. by rewrite E.
    + destruct (Hl p ltac:(by right)) as [? E]. split; [done|]. rewrite steps_of_log, decide_False, app_nil_r; [done|].
      intros ->. apply Hk. by apply list_elem_of_fmap_2.
  - intros j Hj Hn. rewrite fmap_cons, not_elem_of_cons in Hn. destruct (Ho j Hj) as [? E]; [by rewrite fmap_cons, not_elem_of_cons|].
    split; [done|]. rewrite steps_of_log, decide_False, app_nil_r; [done|]. intros ->. by destruct Hn.
Qed.

Lemma calm_settle cur rt fdl k l s : gone k s -> calm cur rt fdl ((k, six) :: l) s -> calm cur rt fdl l s.
Proof.
  intros [_ Hg] (? & ? & ? & Hl & Ho). split_and!; try done. split; [intros p Hp; apply Hl; by right|].
  intros j Hj Hn. destruct (decide (j = k)) as [->|Hne].
  - split; [done|]. by apply (Hl (k, six) ltac:(by left)).
  - apply Ho; [done|]. rewrite fmap_cons, not_elem_of_cons. done.
Qed.

Lemma triple_absurd {A} r (P : state -> Prop) (p : M A) Post : (forall s, Inv s -> P s -> False) -> T r P p Post.
Proof. intros H s Hi HP. by destruct (H s Hi HP). Qed.

Section teardown.
Context (k cur rt : nat) (fdl : list nat) (l : list (nat * list TeardownStep)) (F : state -> Prop).
Hypothesis Hkl : k ∉ l.*1.
Hypothesis Hkr : k <> rt.
Hypothesis F_stable : Stable Host F.
Hypothesis F_log : forall s st, F s -> F (log k st s).
Hypothesis F_upd : forall s f, F s -> F (upd k f s).

Let away (sts : list TeardownStep) (s : state) : Prop := calm cur rt fdl ((k, sts) :: l) s /\ F s.

Local Lemma away_born sts s : away sts s -> (k < born s)%nat.
Proof. intros [(_ & _ & _ & Hl & _) _]. by apply (Hl (k, sts) ltac:(by left)). Qed.

Local Lemma away_stable sts : Stable Host (away sts).
Proof. unfold away. auto with kept. Qed.

Local Lemma away_log sts st s : away sts s -> away (sts ++ [st]) (log k st s).
Proof. intros [? ?]. split; [by apply calm_log|by apply F_log]. Qed.

Local Lemma away_route sts s a' : away sts s ->
  route s = Some k -> talk a' <> Fresh /\ talk a' <> Retired /\ (open s = true \/ inside s <> ∅ -> talk a' = Idle).
Proof. intros [(_ & Er & _) _]. congruence. Qed.

(** A callback is logged before it runs. *)
Local Lemma logged_safe {A} q sts st (X : state -> Prop) (f : answer -> A) :
  Stable Host X -> (forall s, X s -> X (log k st s)) -> (forall s, At Host q s) ->
  T Host (fun s => away sts s /\ X s) (Act q (fun x s => (log k st s, Some (Done (f x)))))
    (fun a s => (exists x, a = f x) /\ away (sts ++ [st]) s /\ X s).
Proof.
  intros HX HXl Hat. apply triple_act; [auto using away_stable with kept|by auto|]. intros s x Hi [HP Hx]. cbn [fst snd].
  split; [by apply Guar_host_free|]. split; [apply Inv_log; [done|by eapply away_born]|]. apply triple_ret. intros ? _ <-.
  split; [by exists x|]. split; [by apply away_log|by auto].
Qed.

Local Lemma logged_safe' {A} q sts st (X : state -> Prop) (f : answer -> A) :
  Stable Host X -> (forall s, X s -> X (log k st s)) -> (forall s, At Host q s) ->
  T Host (fun s => away sts s /\ X s) (Act q (fun x s => (log k st s, Some (Done (f x))))) (fun _ s => away (sts ++ [st]) s /\ X s).
Proof. intros ? ? ?. eapply triple_conseq; [by apply (logged_safe q sts st X f)|done|]. by intros a s _ [_ ?]. Qed.

Local Lemma shutdown_safe sts :
  T Host (fun s => away sts s /\ doomed k s) (Send (HostEnd k) (BodyShutdown 0)) (fun _ => away sts).
Proof.
  apply send_host_safe; [auto using away_stable with kept|by intros s e []|]. intros s Hi [HP Hd]. cbn [after_send fst push].
  pose proof (doomed_born k s Hd) as Hk. split; [done|]. split; [|split; [|split; [by eapply away_route|]]].
  - apply ok_retire; [done|done| |by apply inv_inst]. destruct Hd as [[_ ?]|[ef [_ (? & ? & _)]]]; auto.
  - constructor; simpl; auto. do 5 right. split; [done|].
    change (heard (with_h2p (h2p (insts s k) ++ [(BodyShutdown 0, None)]) (insts s k)) = heard (insts s k)). by rewrite heard_push, app_nil_r.
  - destruct HP. split; [by apply calm_upd'|by apply F_upd].
Qed.

Local Lemma reap_safe sts :
  T Host (away sts)
    (Act (QReap k) (fun x s => match x with ATimeout => (upd k die s, Some (Done tt)) | _ => (s, if lives k s then None else Some (Done tt)) end))
    (fun _ s => away sts s /\ gone k s).
Proof.
  apply triple_act; [apply away_stable|done|]. intros s x Hi HP. pose proof (away_born _ _ HP) as Hk.
  assert (Hwait : Guar Host (QReap k) s s /\ Inv s /\
    match (if lives k s then None else Some (Done tt : M unit)) with
    | Some p => T Host (eq s) p (fun _ s => away sts s /\ gone k s) | None => away sts s end).
  { split; [apply reload_Guar_refl|]. split; [done|]. destruct (lives k s) eqn:E; [done|]. apply triple_ret. intros ? _ <-.
    split; [done|]. split; [done|]. unfold lives in E. by apply negb_false_iff, bool_decide_eq_true in E. }
  destruct x; try exact Hwait. cbn [fst snd]. apply and_assoc. split.
  - eapply host_upd'; [done|done|reflexivity| |by apply ok_die, inv_inst|by eapply away_route]. constructor; simpl; auto.
  - apply triple_ret. intros ? _ <-. destruct HP. split; [split; [by apply calm_upd'|by apply F_upd]|]. split; [done|]. by rewrite insts_upd.
Qed.

Local Lemma finish_safe sts (r : outcome error unit) :
  T Host (fun s => away sts s /\ doomed k s)
    (terminateAndReap k ≫= fun _ => crit (QTeardown k StepCloseFDs) (fun s => (log k StepCloseFDs s, tt)) ≫= fun _ => mret r)
    (fun r' s => r' = r /\ away (sts ++ [StepTerminateAndReap; StepCloseFDs]) s /\ gone k s).
Proof.
  unfold terminateAndReap. eapply triple_bind with (Mid := fun _ s => away (sts ++ [StepTerminateAndReap]) s /\ gone k s).
  { eapply triple_bind; [by apply (logged_safe' (QTeardown k StepTerminateAndReap) sts _ (doomed k) (fun _ => tt)); [apply doomed_stable|..]|].
    intros []. eapply triple_bind; [apply shutdown_safe|]. intros e. apply reap_safe. }
  intros []. eapply triple_bind.
  { by apply (logged_safe' (QTeardown k StepCloseFDs) _ _ (gone k) (fun _ => tt)); [apply gone_stable|..]. }
  intros []. apply triple_ret. intros s _ [? ?]. by rewrite <- app_assoc in *.
Qed.

Lemma Teardown_safe hooked :
  T Host (fun s => away [] s /\ doomed k s) (Teardown_Run k hooked)
    (fun r s => match r with Panic => fds (host s) = fdl | Err e => e = [TagJoinTimeout] /\ calm cur rt fdl l s /\ F s | Ok _ => calm cur rt fdl l s /\ F s end).
Proof.
  assert (Hstep : forall sts st, T Host (fun s => away sts s /\ doomed k s) (step k st) (fun _ s => away (sts ++ [st]) s /\ doomed k s)).
  { intros sts st. by apply logged_safe'; [apply doomed_stable|..]. }
  assert (Hpanic : forall sts, T Host (fun s => away sts s /\ doomed k s)
    (terminateAndReap k ≫= fun _ => crit (QTeardown k StepCloseFDs) (fun s => (log k StepCloseFDs s, tt)) ≫= fun _ => mret (Panic : outcome error unit))
    (fun r s => match r with Panic => fds (host s) = fdl | Err e => e = [TagJoinTimeout] /\ calm cur rt fdl l s /\ F s | Ok _ => calm cur rt fdl l s /\ F s end)).
  { intros sts. eapply triple_conseq; [apply (finish_safe sts Panic)|done|]. intros r s _ (-> & [(_ & _ & ? & _) _] & _). done. }
  unfold Teardown_Run. cbv zeta. eapply triple_bind; [apply Hstep|]. intros [|]; [apply Hpanic|].
  eapply triple_bind with (Mid := fun _ s => away [StepStopAdmission] s /\ doomed k s).
  { unfold StopAdmission. destruct hooked; [|by apply triple_ret]. eapply triple_bind.
    - apply (triple_crit _ _ _ _ _ (fun s => away [StepStopAdmission] s /\ doomed k s) _ _
        (fun owned s => owned = false /\ away [StepStopAdmission] s /\ doomed k s)); [auto using away_stable with kept|].
      intros s Hi [HP Hd]. split; [done|]. rewrite decide_False by (destruct HP as [(_ & -> & _) _]; congruence).
      split; [apply reload_Guar_refl|done].
    - intros [|]; [apply triple_absurd; by intros s _ []|apply triple_ret; by intros s _ [_ ?]]. }
  intros []. eapply triple_bind; [apply Hstep|]. intros [|]; [apply Hpanic|].
  eapply triple_bind with (Mid := fun j s => (j = None \/ j = Some [TagJoinTimeout]) /\
    away [StepStopAdmission; StepFailInFlight; StepJoinGoroutines] s /\ doomed k s).
  { eapply triple_conseq; [by apply (logged_safe (QTeardown k StepJoinGoroutines) [StepStopAdmission; StepFailInFlight] StepJoinGoroutines (doomed k)); [apply doomed_stable|..]|done|]. intros j s _ [[x ->] ?]. split; [|done]. destruct x; auto. }
  intros j. assert (Hj : forall (p : M (outcome error unit)) Post,
      (j = None \/ j = Some [TagJoinTimeout] -> T Host (fun s => away [StepStopAdmission; StepFailInFlight; StepJoinGoroutines] s /\ doomed k s) p Post) ->
      T Host (fun s => (j = None \/ j = Some [TagJoinTimeout]) /\ away [StepStopAdmission; StepFailInFlight; StepJoinGoroutines] s /\ doomed k s) p Post).
  { intros p Post H s Hi [Hj HP]. by apply (H Hj). }
  apply Hj. clear Hj. intros Hj. eapply triple_bind; [apply Hstep|]. intros [|]; [apply Hpanic|].
  eapply triple_conseq; [apply (finish_safe [StepStopAdmission; StepFailInFlight; StepJoinGoroutines; StepUnmap])|done|].
  intros r s _ (-> & [HP HF] & Hg). assert (calm cur rt fdl l s /\ F s) by (split; [by eapply calm_settle|done]).
  destruct Hj as [-> | ->]; [done|by split].
Qed.

End teardown.

(** ** Rolling back *)

Lemma resumeOld_safe old fdl l :
  T Host (held_at old fdl l Asked) (resumeOld old)
    (fun e s => match e with None => at_ old fdl l Idle s | Some e => plain e /\ calm old old fdl l s /\ shut s end).
Proof.
  unfold resumeOld. eapply triple_bind.
  { apply (send_host_safe old _ _ _ (fun e s => match e with None => held_at old fdl l Resuming s | Some e => plain e /\ held_at old fdl l Asked s end));
      [auto with kept|done|].
    intros s Hi [[Hc [Hk Ht]] Hs]. cbn [after_send fst push]. split; [done|]. split; [|split; [|split; [by apply shut_route|]]].
    - apply ok_resume; [done|by apply inv_inst].
    - constructor; simpl; auto. do 2 right. left. split_and!; try done. apply heard_push.
    - split; [|done]. split; [by apply calm_upd'|]. split; [done|]. by rewrite insts_upd. }
  intros [e|]; [apply triple_ret; by intros s _ [? [[? ?] ?]]|]. eapply triple_bind.
  { apply (recvExpected_safe old StateDraining KindResumeAck (held_at old fdl l Resuming) (fun _ => True)) with
      (Qb := fun _ s => at_ old fdl l Idle s); [auto with kept|intros s Hs; by apply (held_speaks old fdl l Resuming)|auto with kept| | |done].
    - intros s b file rest Hi HP E Hra Hb. apply receive_deaf; [|auto with kept|done]. by intros ->.
    - intros s b file rest Hi [[Hc [Hk Ht]] Hs] E Hra Hb%kind_resume_ack _. subst b. cbn [receive fst snd after_recv].
      replace (takes false file (host s)) with (host s) by (by destruct file).
      change (host s) with (host (upd old (fun a => with_talk Idle (with_p2h rest a)) s)). rewrite with_host_same.
      split; [by apply calm_upd'|]. split; [done|]. by rewrite insts_upd. }
  intros [b|e|]; apply triple_ret; intros s _; [by intros [_ ?]| |done]. by intros [? [[? _] ?]].
Qed.

(** How a transaction ends: promoted, rolled back with the gate open on the old
    instance, crash-equivalent with the gate shut, or by a callback's panic. *)
Definition verdict_post (old : nat) (fdl : list nat) (v : verdict) (s : state) : Prop :=
  match v with
  | Promoted k e => (e = None \/ e = Some [TagJoinTimeout]) /\ (calm old k fdl [(k, [])] s /\ talks k Idle s) /\ open s = true
  | Failed e =>
      if Is (Some e) ErrReloadCrashEquivalent then calm old old fdl [(old, [])] s /\ shut s
      else at_ old fdl [(old, [])] Idle s /\ open s = true
  | Panicked => fds (host s) = fdl
  end.

Lemma not_crash e : ErrReloadCrashEquivalent ∉ e -> Is (Some e) ErrReloadCrashEquivalent = false.
Proof. intros H. by apply bool_decide_eq_false_2. Qed.

Lemma reopen_safe old fdl cause (P : state -> Prop) :
  ErrReloadCrashEquivalent ∉ cause -> Stable Host P -> (forall s, P s -> at_ old fdl [(old, [])] Idle s) ->
  T Host P (Open ≫= fun _ => mret (Failed cause)) (verdict_post old fdl).
Proof.
  intros Hc Hst HP. eapply triple_bind; [by apply (Open_safe old old fdl [(old, [])] P)|]. intros [].
  apply triple_ret. intros s _ ?. unfold verdict_post. by rewrite (not_crash cause Hc).
Qed.

Lemma resume_safe old fdl cause :
  ErrReloadCrashEquivalent ∉ cause ->
  T Host (held_at old fdl [(old, [])] Asked)
    (resumeOld old ≫= fun e => match e with
       | Some e => mret (Failed ([ErrReloadCrashEquivalent] ++ cause ++ e)) | None => Open ≫= fun _ => mret (Failed cause) end)
    (verdict_post old fdl).
Proof.
  intros Hc. eapply triple_bind; [apply resumeOld_safe|]. intros [e|].
  - apply triple_ret. intros s _ (_ & ?). unfold verdict_post, Is. rewrite bool_decide_eq_true_2; [done|]. by left.
  - by apply reopen_safe; [done|apply at_stable|].
Qed.

Lemma rollback_cutoff_safe old fdl succ cause :
  ErrReloadCrashEquivalent ∉ cause -> T Host (at_ old fdl [(old, [])] Idle) (rollback old PhaseCutoff succ cause) (verdict_post old fdl).
Proof. intros Hc. unfold rollback. rewrite decide_True by done. by apply reopen_safe; [done|apply at_stable|]. Qed.

Lemma rollback_safe old fdl from cause :
  from <> PhaseCutoff -> ErrReloadCrashEquivalent ∉ cause ->
  T Host (held_at old fdl [(old, [])] Asked) (rollback old from None cause) (verdict_post old fdl).
Proof. intros Hf Hc. unfold rollback. rewrite decide_False by done. by apply resume_safe. Qed.

Lemma rollback_newcomer_safe old fdl from cause k ef :
  from <> PhaseCutoff -> ErrReloadCrashEquivalent ∉ cause ->
  T Host (newcomer old k fdl [(old, [])] ef) (rollback old from (Some k) cause) (verdict_post old fdl).
Proof.
  intros Hf Hc. unfold rollback. rewrite decide_False by done. cbv zeta.
  assert (H : k <> old -> T Host (fun s => (calm old old fdl [(k, []); (old, [])] s /\ talks old Asked s /\ shut s) /\ doomed k s)
    (Teardown_Run k false ≫= fun r => match r with Panic => mret Panicked | _ =>
       resumeOld old ≫= fun e => match e with
       | Some e => mret (Failed ([ErrReloadCrashEquivalent] ++ cause ++ e)) | None => Open ≫= fun _ => mret (Failed cause) end end)
    (verdict_post old fdl)).
  { intros Hne. eapply triple_bind.
    - apply (Teardown_safe k old old fdl [(old, [])] (fun s => talks old Asked s /\ shut s)); [|done|auto with kept|done|].
      + by intros ?%list_elem_of_singleton.
      + intros s f [[? ?] ?]. split; [|done]. split; [done|]. by rewrite insts_other.
    - assert (Hw : T Host (fun s => calm old old fdl [(old, [])] s /\ talks old Asked s /\ shut s)
        (resumeOld old ≫= fun e => match e with
       | Some e => mret (Failed ([ErrReloadCrashEquivalent] ++ cause ++ e)) | None => Open ≫= fun _ => mret (Failed cause) end) (verdict_post old fdl)).
      { eapply triple_conseq; [by apply resume_safe| |done]. intros s _ (? & ? & ?). by split. }
      intros [[]|e|]; [exact Hw| |by apply triple_ret]. eapply triple_conseq; [exact Hw| |done]. by intros s _ [_ ?]. }
  intros s Hi (Hne & HP & Ht). apply (H Hne); [done|]. destruct (still_held _ _ _ _ _ HP) as [[? ?] ?]. split; [done|]. by left.
Qed.

(** ** Promotion *)

Lemma Promote_safe old k fdl ef :
  T Host (fun s => newcomer old k fdl [(old, [])] ef s /\ ready k ef s) (Promote k)
    (fun _ s => (calm old k fdl [(k, []); (old, [])] s /\ talks k Idle s) /\ open s = true /\ k <> old /\ still old ef s).
Proof.
  unfold Promote. eapply triple_bind with (Mid := fun _ s => (calm old k fdl [(k, []); (old, [])] s /\ talks k Idle s) /\ k <> old /\ still old ef s).
  { apply triple_crit; [auto with kept|]. intros s Hi [(Hne & HP & _) (Hk & Et & Hph & He)]. cbn [fst snd].
    pose proof HP as [[(Hcur & Hr & Hf & Hst) [Hko Hs]] [Ho Hin]]. split; [done|]. split; [|split].
    - simpl. split; [done|]. split; [done|]. split; [done|]. split; [done|]. split; [done|]. split; [lia|]. split; [|split; [done|intros j Hj; lia]].
      intros j Hj. destruct (decide (k = j)) as [<-|Hnj]; [|rewrite fn_lookup_alter_ne by done; apply hstep_refl].
      rewrite fn_lookup_alter. constructor; simpl; auto. do 4 right. by left.
    - apply Inv_promote; try done. intros Hsf. rewrite (He Hsf), <- (inv_state s Hi Hsf old Hr).
      destruct Hs as (_ & _ & -> & ->). by rewrite app_nil_r.
    - assert (Hc : calm old old fdl [(k, []); (old, [])] (upd k (with_talk Idle) s)) by (by apply calm_upd').
      destruct Hc as (_ & _ & _ & Hst'). split; [split; [by split_and!|split; [done|]]|split; [done|split; [done|]]].
      + change (talk (insts (upd k (with_talk Idle) s) k) = Idle). by rewrite insts_upd.
      + change (stilled ef (insts (upd k (with_talk Idle) s) old)). by rewrite insts_other. }
  intros []. apply triple_crit.
  - intros s s' Hi Hi' HR (? & ? & ?). split; [|split; [done|by apply (still_stable old ef s s')]].
    by apply (reload_stable_and Host (calm old k fdl [(k, []); (old, [])]) (talks k Idle) (calm_stable _ _ _ _) (talks_stable _ _) s s').
  - intros s Hi (HC & Hne & Hs). cbn [fst snd]. split; [done|]. split; [by apply Guar_host_free|]. split; [|done].
    apply Inv_open; [done|]. destruct HC as [(_ & Er & _) [_ Et]]. intros r Er'. assert (r = k) as -> by congruence. done.
Qed.

Definition promoted (old k : nat) (fdl : list nat) (ef : list effect) (s : state) : Prop :=
  (calm old k fdl [(old, []); (k, [])] s /\ open s = true /\ talks k Idle s) /\ doomed old s.

Lemma promoted_stable old k fdl ef : Stable Host (promoted old k fdl ef).
Proof. unfold promoted. auto with kept. Qed.

Lemma standing_swap p q l s : standing (p :: q :: l) s -> standing (q :: p :: l) s.
Proof.
  intros [Hl Ho]. split.
  - intros r Hr. apply Hl. rewrite !elem_of_cons in *. tauto.
  - intros j Hj Hn. apply Ho; [done|]. rewrite !fmap_cons, !not_elem_of_cons in *. tauto.
Qed.

Lemma retire_safe old k fdl ef :
  k <> old ->
  T Host (promoted old k fdl ef) (retire old) (fun r s => verdict_post old fdl
    match snd r with Ok _ => Promoted k None | Err e => Promoted k (Some e) | Panic => Panicked end s).
Proof.
  intros Hne. unfold retire. eapply triple_bind.
  { apply triple_ask; [apply promoted_stable|]. intros s Hi Hs. split; [done|apply reload_Guar_refl]. }
  intros n. eapply triple_bind.
  { apply (Teardown_safe old old k fdl [(k, [])] (fun s => open s = true /\ talks k Idle s)); [|done|auto with kept|done|].
    - by intros ?%list_elem_of_singleton.
    - intros s f [? [? ?]]. split; [done|]. split; [done|]. by rewrite insts_other. }
  intros r. apply triple_ret. intros s _ H. destruct r as [[]|e|]; cbn [snd]; [|destruct H as [-> H]|done].
  - destruct H as (? & ? & ?). split; [by left|]. by split_and!.
  - destruct H as (? & ? & ?). split; [by right|]. by split_and!.
Qed.

Lemma restore_and_promote_safe old ef snap :
  T Host (fun s => still_at old [snap_fd snap] [(old, [])] ef s /\ sealed_at (header_of snap) (Some (snap_fd snap)) (encoded old ef) s)
    (restore_and_promote cfg old snap) (verdict_post old [snap_fd snap]).
Proof.
  unfold restore_and_promote. eapply triple_bind; [apply restoreValidate_safe|]. intros [[k|] [e|]]; cbn [validate_post default].
  - intros s Hi [[Hp _] HP]. by eapply rollback_newcomer_safe.
  - eapply triple_bind; [apply Promote_safe|]. intros []. eapply triple_bind with (Mid := fun _ s => k <> old /\ promoted old k [snap_fd snap] ef s).
    { apply triple_crit.
      - intros s s' Hi Hi' HR (HC & Ho & Hne & Hs). split; [|split; [by apply (open_stable true s s')|split; [done|by apply (still_stable old ef s s')]]].
        by apply (reload_stable_and Host _ _ (calm_stable old k [snap_fd snap] [(k, []); (old, [])]) (talks_stable k Idle) s s').
      - intros s Hi ([(Hcur & Hr & Hf & Hst) Ht] & Ho & Hne & Hs). cbn [fst snd]. split; [done|]. split; [by apply Guar_host_free|]. split.
        + apply Inv_open; [done|]. intros r Er. assert (r = k) as -> by congruence. by destruct Ht.
        + split; [done|]. split; [|right; by exists ef]. split; [|done]. split_and!; try done. by apply standing_swap. }
    intros []. assert (Hr : k <> old -> T Host (promoted old k [snap_fd snap] ef) (retire old ≫= fun '(_, r) =>
      mret match r with Ok _ => Promoted k None | Err e => Promoted k (Some e) | Panic => Panicked end) (verdict_post old [snap_fd snap])).
    { intros Hne. eapply triple_bind; [by apply retire_safe|]. intros [n r]. by apply triple_ret. }
    intros s Hi [Hne HP]. by apply (Hr Hne).
  - intros s Hi [[Hp _] HP]. eapply (rollback_safe old); [done|done|done|]. by eapply still_held.
  - apply triple_absurd. by intros s _.
Qed.

(** ** The transaction and the heartbeat loop *)

Lemma verdict_close old fdl v p s : fds p = fdl -> (exists l, verdict_post old l v s) -> verdict_post old fdl v (with_host p s).
Proof.
  intros <- [l H]. destruct v as [k e|e|]; simpl in *; [|case_match|done].
  - destruct H as (? & [? ?] & ?). split; [done|]. split; [|done]. split; [by eapply calm_host|done].
  - destruct H as [? ?]. split; [by eapply calm_host|done].
  - destruct H as [[? ?] ?]. split; [|done]. split; [by eapply calm_host|done].
Qed.

Lemma verdict_fds old fdl v s : verdict_post old fdl v s -> fds (host s) = fdl.
Proof.
  destruct v as [k e|e|]; simpl; [|case_match|done].
  - by intros (_ & [(_ & _ & ? & _) _] & _).
  - by intros [(_ & _ & ? & _) _].
  - by intros [[(_ & _ & ? & _) _] _].
Qed.

Lemma verdict_stable old fdl v : Stable Host (verdict_post old fdl v).
Proof.
  destruct v as [k e|e|]; unfold verdict_post; [|case_match; auto with kept|].
  - intros s s' Hi Hi' HR [? H]. split; [done|]. revert H.
    apply (reload_stable_and Host _ _ (reload_stable_and Host _ _ (calm_stable _ _ _ _) (talks_stable _ _)) (open_stable true) s s' Hi Hi' HR).
  - intros s s' Hi _ HR. destruct (Rel_host s s' Hi HR) as ((_ & _ & _ & _ & -> & _) & _). done.
Qed.
Hint Resolve verdict_stable : kept.

Lemma Run_safe old :
  T Host (at_ old [] [(old, [])] Idle) (Run cfg old) (verdict_post old []).
Proof.
  unfold Run. eapply triple_bind; [apply Close_safe|]. intros [e|].
  { intros s Hi [HP [He _]]. by eapply rollback_cutoff_safe. }
  eapply triple_bind.
  { apply (fallible_safe QCtx (fun s => at_ old [] [(old, [])] Idle s /\ shut s)); [auto with kept|done]. }
  intros [e|].
  { intros s Hi [[HP _] He]. eapply (rollback_cutoff_safe old []); [|done|done]. by destruct (He e eq_refl). }
  eapply triple_bind.
  { eapply triple_conseq; [apply (drain_safe old [(old, [])])| |done]. by intros s _ [[? ?] _]. }
  intros [e|].
  { intros s Hi [Hc HP]. destruct (Is (Some e) errDrainNotCommitted).
    - by eapply rollback_cutoff_safe.
    - by eapply rollback_safe. }
  intros s Hi [ef HP]. revert s Hi HP.
  change (T Host (still_at old [] [(old, [])] ef) (take_snapshot cfg old ≫= fun r => match r with
    | Ok snap => restore_and_promote cfg old snap ≫= fun v => closeFDs (HostEnd old) [snap_fd snap] ≫= fun _ => mret v
    | Err e => rollback old PhaseSnapshot None e
    | Panic => mret Panicked end) (verdict_post old [])).
  eapply triple_bind; [apply take_snapshot_safe|]. intros [snap|e|].
  - eapply triple_bind; [apply restore_and_promote_safe|]. intros v.
    eapply triple_bind with (Mid := fun _ => verdict_post old [] v); [|intros []; by apply triple_ret].
    apply host_close_safe; [auto with kept|]. intros s Hv. apply verdict_close; [|by eexists].
    apply close_all_fds; [by eapply verdict_fds|simpl; lia].
  - intros s Hi [[Hp _] HP]. eapply rollback_safe; [done|done|done|by eapply still_held].
  - apply triple_ret. by intros s _.
Qed.

(** Between reloads: one instance, routed and supervised, the gate open, no
    snapshot descriptor held. *)
Definition idle (k : nat) (s : state) : Prop := at_ k [] [(k, [])] Idle s /\ open s = true.

(** After a reload that could not resume the old instance. *)
Definition crashed (k : nat) (s : state) : Prop := calm k k [] [(k, [])] s /\ shut s.

Lemma idle_stable k : Stable Host (idle k).
Proof. unfold idle. auto with kept. Qed.
Lemma crashed_stable k : Stable Host (crashed k).
Proof. unfold crashed. auto with kept. Qed.
Hint Resolve idle_stable crashed_stable : kept.

Definition ended (e : option error) : bool := Is e TagCanceled || Is e TagDeadlineExceeded.

Definition reload_post (k : nat) (r : outcome error (option error)) (s : state) : Prop :=
  match r with
  | Ok e => if Is e ErrReloadCrashEquivalent then crashed k s else if ended e then idle k s else exists k, idle k s
  | _ => fds (host s) = []
  end.

Lemma current_safe k : T Host (idle k) (crit QCurrent (fun s => (s, current s)) : M nat) (fun j s => j = k /\ idle k s).
Proof.
  apply triple_crit; [auto with kept|]. intros s Hi HP. split; [done|]. split; [apply reload_Guar_refl|]. split; [done|].
  split; [|done]. by destruct HP as [[(? & _) _] _].
Qed.

Lemma triple_pure {A} r (φ : Prop) (P : state -> Prop) (p : M A) Post : (φ -> T r P p Post) -> T r (fun s => φ /\ P s) p Post.
Proof. intros H s Hi [Hφ HP]. by apply (H Hφ). Qed.

Lemma triple_ex {A B} r (P : B -> state -> Prop) (p : M A) Post : (forall b, T r (P b) p Post) -> T r (fun s => exists b, P b s) p Post.
Proof. intros H s Hi [b HP]. by apply (H b). Qed.

Lemma runReload_safe k : T Host (idle k) (runReload cfg) (reload_post k).
Proof.
  unfold runReload. eapply triple_bind; [apply current_safe|]. intros old. apply triple_pure. intros ->.
  eapply triple_bind; [eapply triple_conseq; [apply Run_safe|by intros s _ [? _]|done]|]. intros [j e|e|].
  - eapply triple_bind with (Mid := fun _ s => (e = None \/ e = Some [TagJoinTimeout]) /\ idle j s).
    + apply triple_crit; [apply verdict_stable|]. intros s Hi (He & [(_ & Hr & Hf & Hst) Ht] & Ho). cbn [fst snd]. split; [done|].
      split; [by apply Guar_host_free|]. split; [by apply Inv_current|]. split; [done|]. split; [|done]. by split.
    + intros []. apply triple_ret. intros s _ [He ?]. assert (exists k, idle k s) by (by exists j). by destruct He as [-> | ->].
  - apply triple_ret. intros s _. unfold verdict_post, reload_post. destruct (Is _ _); [done|]. intros Hx. destruct (ended _); [done|]. by exists k.
  - by apply triple_ret.
Qed.

Definition service_post (k : nat) (o : reloadOutcome) (s : state) : Prop :=
  match o with
  | reloadNone | reloadNoop => idle k s
  | reloadServiced => exists k, idle k s
  | reloadCrashEquivalent => exists k, crashed k s
  | reloadPanic => fds (host s) = []
  end.

Lemma serviceReload_safe k : T Host (idle k) (serviceReload cfg) (service_post k).
Proof.
  unfold serviceReload. eapply triple_bind.
  { apply triple_ask; [apply idle_stable|]. intros s Hi Hs. split; [done|apply reload_Guar_refl]. }
  intros [|]; cbn [negb]; [|by apply triple_ret]. eapply triple_bind.
  { apply (fallible_safe QRequestCtx (idle k)); [apply idle_stable|done]. }
  intros [e|]; [apply triple_ret; by intros s _ [? _]|].
  eapply triple_bind; [eapply triple_conseq; [apply (runReload_safe k)|by intros s _ [? _]|done]|].
  intros r. apply triple_ret. intros s _. destruct r as [e|e|]; cbn [reload_post]; [|done..].
  unfold ended. destruct (Is e ErrReloadCrashEquivalent); [by exists k|]. by destruct (_ || _).
Qed.

Definition host_post (t : turn) (s : state) : Prop :=
  match t with
  | Goes | Ends reloadNone => exists k, idle k s
  | Ends reloadCrashEquivalent => exists k, crashed k s
  | Ends reloadPanic => fds (host s) = []
  | Ends _ => False
  end.

Lemma idle_speaks k s : idle k s -> (k < born s)%nat /\ talk (insts s k) <> Retired.
Proof. intros [[_ [? E]] _]. by rewrite E. Qed.

Lemma deaf_idle j k : deaf j (idle k).
Proof. unfold idle. auto with kept. Qed.
Hint Resolve deaf_idle : kept.

Lemma ack_safe k n : T Host (idle k) (Send (HostEnd k) (BodyHeartbeatAck n)) (fun _ => idle k).
Proof.
  apply send_host_safe; [apply idle_stable|done|]. intros s Hi HP. cbn [after_send fst push].
  pose proof HP as [[_ [Hk Et]] _]. split; [done|]. split; [|split; [|split; [by apply route_same|]]].
  - apply ok_push_quiet; [done|done|congruence|by apply inv_inst].
  - apply hstep_quiet; try done. by rewrite heard_push, app_nil_r.
  - by apply (deaf_idle k k s).
Qed.

Lemma heartbeat_safe : T Host (fun s => exists k, idle k s) (heartbeat_turn cfg) host_post.
Proof.
  apply triple_ex. intros k. unfold heartbeat_turn. eapply triple_bind; [apply current_safe|]. intros j. apply triple_pure. intros ->.
  eapply triple_bind.
  { apply (recv_host_safe k false (idle k) (fun _ => idle k)); [auto with kept|apply idle_speaks|auto with kept|done|done|].
    intros s b file rest Hi HP E Hra. apply receive_deaf; [|auto with kept|done]. intros Eb. specialize (Hra Eb). destruct HP as [[_ [_ Et]] _]. congruence. }
  assert (Hgo : forall P : state -> Prop, (forall s, P s -> idle k s) -> T Host P (mret Goes : M turn) host_post).
  { intros P H. apply triple_ret. intros s _ HP. exists k. by apply H. }
  assert (Hend : forall P : state -> Prop, (forall s, P s -> idle k s) -> T Host P (mret (Ends reloadNone) : M turn) host_post).
  { intros P H. apply triple_ret. intros s _ HP. exists k. by apply H. }
  intros [[b l]|e|]; [|destruct (Is _ _); [by apply Hgo|by apply Hend]|by apply Hend].
  destruct b as [b|]; [|by apply Hend]. destruct b; try (by apply Hgo).
  eapply triple_bind; [eapply triple_conseq; [apply (serviceReload_safe k)|done|done]|].
  intros [| | | |]; cbn [service_post]; try (by apply triple_ret); (eapply triple_bind; [apply ack_safe|]; intros e; by apply Hgo).
Qed.

End safety.
End ReloadHost.
