(* ===== verification/ReloadSafety.v ===== *)
(** * Hot reload under every schedule

    What the invariant of [ReloadProtocol], kept by the instances
    ([ReloadInstance]) and by the host ([ReloadHost]), says of every run of the
    host's heartbeat loop, of the instances and of the callers. *)

From Stdlib Require Import Strings.String.
From stdpp Require Import gmap functions.
From S2P Require Import Prelude ControlConn Interleave Reload ReloadProtocol ReloadInstance ReloadHost.
Import ControlConn Reload ReloadProtocol ReloadInstance ReloadHost.

Module ReloadSafety.

Local Open Scope Z_scope.

Section safety.
Context {cfg : config}.

Local Notation T := (triple Inv Rel Guar At).
Local Notation Stable := (stable Inv Rel).

(** ** Every schedule *)

Definition Post (r : role) (t : turn) (s : state) : Prop :=
  match r with
  | Host => host_post t s
  | Plugin k => plugin_post k t s
  | Activity k => (k < born s)%nat
  | Caller i => i ∉ inside s
  end.

Lemma ex_stable {A} r (P : A -> state -> Prop) : (forall a, Stable r (P a)) -> Stable r (fun s => exists a, P a s).
Proof. intros H s s' Hi Hi' HR [a HP]. exists a. by apply (H a s s'). Qed.

Lemma reload_Post_stable r t : Stable r (Post r t).
Proof.
  destruct r as [|k|k|i]; cbn [Post].
  - assert (Stable Host (fun s => fds (host s) = [])).
    { intros s s' Hi _ HR. by destruct (Rel_host s s' Hi HR) as ((_ & _ & _ & _ & -> & _) & _). }
    destruct t as [|[]]; cbn [host_post]; try (by intros ?); try done; apply ex_stable; auto using idle_stable, crashed_stable.
  - destruct t; cbn [plugin_post]; [apply alive_stable, dispatching_lasting|by intros ?].
  - apply born_stable.
  - apply outside_stable.
Qed.

Lemma crew_lookup {A} (f g h : nat -> A) m n i x :
  (seq m n ≫= fun j => [f j; g j; h j]) !! i = Some x ->
  x = match (i mod 3)%nat with O => f (m + i / 3)%nat | 1%nat => g (m + i / 3)%nat | _ => h (m + i / 3)%nat end.
Proof.
  revert m i. induction n as [|n IH]; intros m i; [done|]. cbn [seq]. rewrite bind_cons.
  destruct i as [|[|[|i]]]; cbn [lookup list_lookup app]; [intros [= <-]; by rewrite Nat.add_0_r..|].
  intros E%IH. replace (S (S (S i))) with (i + 1 * 3)%nat by lia.
  rewrite Nat.Div0.mod_add, Nat.div_add by done. replace (m + (i / 3 + 1))%nat with (S m + i / 3)%nat by lia. done.
Qed.

Lemma ok_first fs : inst_ok fs 0 (fresh (Mutators (hooks_of cfg 0)) Idle).
Proof.
  constructor; simpl; try done.
  - by rewrite length_replicate.
  - intros _ _. by apply Forall_replicate.
  - by left.
  - intros d h Hd. by apply elem_of_nil in Hd.
Qed.

Lemma fresh_Inv : Inv (fresh_state cfg).
Proof.
  constructor; simpl; try done; try (intros d Hd; set_solver).
  - exists 0%nat. split_and!; [done|lia|done|done|done].
  - intros k Hk. assert (k = 0%nat) as -> by lia. apply ok_first.
Qed.

Lemma fresh_idle : idle 0 (fresh_state cfg).
Proof.
  split; [|done]. split; [|split; [simpl; lia|done]]. split_and!; try done. split.
  - intros p ->%list_elem_of_singleton. split; [simpl; lia|done].
  - intros j Hj Hn. destruct Hn. simpl in *. apply list_elem_of_singleton. lia.
Qed.

Notation sound := (pool_ok Inv Rel Guar At role_of Post).

Lemma site_compatible i j q s s' : i <> j -> Inv s -> Inv s' -> Guar (role_of i) q s s' -> Rel (role_of j) s s'.
Proof. intros ? _ _. by apply reload_Compatible. Qed.

Lemma forever_safe {A} r (P : state -> Prop) (p : M A) :
  T r P p (fun _ => P) -> T r P (p ≫= fun _ => mret Goes) (fun _ => P).
Proof. intros H. eapply triple_bind; [exact H|]. intros a. by apply triple_ret. Qed.

Lemma site_ok n : sound (site cfg n).
Proof.
  split; [apply fresh_Inv|]. intros [|i] g Hg.
  - injection Hg as <-. eapply (keeps_start _ _ _ _ _ reload_Post_stable Host) with (P := fun s => exists k, idle k s);
      [|apply heartbeat_safe|apply fresh_Inv|exists 0%nat; apply fresh_idle].
    intros [|o] p; [|done]. intros [= <-]. apply heartbeat_safe.
  - cbn [fst site snd] in *. apply crew_lookup in Hg. cbn [role_of]. cbn [Nat.add] in Hg. set (k := (i / 3)%nat) in *.
    destruct (i mod 3)%nat as [|[|]]; subst g.
    + eapply (keeps_start _ _ _ _ _ reload_Post_stable (Plugin k)) with (P := unspawned k); [|apply start_safe|apply fresh_Inv|].
      * intros [|o] p; [|done]. intros [= <-]. apply dispatch_safe.
      * intros Hk. split; [done|]. right. simpl in Hk. assert (k = 0%nat) as -> by lia. by split.
    + eapply (keeps_start _ _ _ _ _ reload_Post_stable (Activity k)) with (P := fun _ => True); [| |apply fresh_Inv|done].
      * intros [|o] p; [|done]. intros [= <-]. apply (forever_safe (Activity k) (fun s => (k < born s)%nat)), activity_safe.
      * eapply triple_bind; [apply await_spawn_safe|]. intros []. apply (forever_safe (Activity k) (fun s => (k < born s)%nat)), activity_safe.
    + eapply (keeps_start _ _ _ _ _ reload_Post_stable (Caller k)) with (P := fun s => k ∉ inside s); [| |apply fresh_Inv|done].
      * intros [|o] p; [|done]. intros [= <-]. apply (forever_safe (Caller k) (fun s => k ∉ inside s)), caller_safe.
      * apply (forever_safe (Caller k) (fun s => k ∉ inside s)), caller_safe.
Qed.

Lemma reload_reached n ms : sound (prun ms (site cfg n)).
Proof. apply (pool_ok_run _ _ _ _ _ _ site_compatible reload_Post_stable), site_ok. Qed.

Lemma reload_at n ms i g q :
  fst (prun ms (site cfg n)) !! i = Some g -> at_query g = Some q -> At (role_of i) q (snd (prun ms (site cfg n))).
Proof. intros. eapply pool_ok_at; [apply reload_reached|done|done]. Qed.

Lemma reload_done n ms i g t :
  fst (prun ms (site cfg n)) !! i = Some g -> now g = Done t -> Post (role_of i) t (snd (prun ms (site cfg n))).
Proof. intros. eapply pool_ok_done; [apply reload_reached|done|done]. Qed.

End safety.

(** The goroutine of caller [j] in a site. *)
Definition caller_slot (j : nat) : nat := (3 * S j)%nat.

Lemma role_of_caller j : role_of (caller_slot j) = Caller j.
Proof.
  unfold caller_slot. replace (3 * S j)%nat with (S (2 + j * 3)) by lia. cbn [role_of].
  rewrite Nat.Div0.mod_add, Nat.div_add by done. done.
Qed.

(** ** What holds of every run *)

(** C12: However the host's reloads, the instances and the callers interleave, a request is handed to the transport only
    inside the admission gate and only for the instance the connection routes to, with no Drain or Resume outstanding
    with it: the instance has not begun to freeze, or has thawed and said so, and unless its process has died every one
    of its mutators is running. *)
Theorem reload_admits_only_thawed cfg n ms j g k :
  let c := prun ms (site cfg n) in let s := snd c in
  fst c !! caller_slot j = Some g -> at_query g = Some (QPublish k) ->
  route s = Some k /\ (k < born s)%nat /\ talk (insts s k) = Idle /\ heard (insts s k) = [] /\ said (insts s k) = [] /\
  thawed (phase (insts s k)) = true /\
  (phase (insts s k) <> Gone -> Forall (eq false) (frozen (insts s k)) /\ length (frozen (insts s k)) = Mutators (hooks_of cfg k)).
Proof.
  intros c s Hg Hq. pose proof (reload_at n ms _ g _ Hg Hq) as Ha. rewrite role_of_caller in Ha. destruct Ha as (Hr & Hk & Et).
  destruct (reload_reached n ms) as [Hi _]. pose proof (inv_inst _ Hi k Hk) as Hok.
  destruct (talk_thawed _ _ _ (io_talk _ _ _ Hok) (or_introl Et)) as (Hth & Hh & Hs). split_and!; try done.
  intros Hng. split; [by apply (io_running _ _ _ Hok)|by apply (io_len _ _ _ Hok)].
Qed.

(** C13: No call is lost, duplicated or reordered by a reload, whatever it came to: as long as the hooks carry the state
    over (what a saver encodes, a restorer decodes), the calls applied by the routed instance and those queued for it are
    at every moment exactly the calls published so far, in their order; a promoted successor included, whose state is
    the snapshot taken while its predecessor was frozen and drained. *)
Theorem reload_keeps_calls cfg n ms :
  @stateful cfg ->
  let s := snd (prun ms (site cfg n)) in
  exists r, route s = Some r /\ (r < born s)%nat /\ calls (effects (insts s r)) ++ reqs (insts s r) = published s.
Proof.
  intros Hsf s. destruct (reload_reached n ms) as [Hi _]. destruct (inv_route _ Hi) as (r & Hr & Hk & _).
  exists r. split_and!; [done|done|]. by apply (inv_state _ Hi Hsf).
Qed.

(** C14: How a turn of the heartbeat loop leaves the site, reload or no reload.  Unless the loop ends with a crash-equivalent
    reload or a callback's panic, one instance is supervised and routed, the gate is open, no message of a reload is
    outstanding, the host holds no snapshot descriptor, and every instance ever spawned but that one is gone and was
    torn down by the six steps in their order, once each; after a crash-equivalent reload the gate is shut with nobody
    inside, and everything else is as before the reload; after a panic no snapshot descriptor is left open. *)
Theorem reload_turn_outcome cfg n ms g t :
  let c := prun ms (site cfg n) in let s := snd c in
  fst c !! 0%nat = Some g -> now g = Done t ->
  fds (host s) = [] /\
  match t with
  | Goes | Ends reloadNone => exists k, current s = k /\ route s = Some k /\ open s = true /\ talk (insts s k) = Idle /\ standing [(k, [])] s
  | Ends reloadCrashEquivalent => exists k, current s = k /\ route s = Some k /\ open s = false /\ inside s = ∅ /\ standing [(k, [])] s
  | Ends reloadPanic => True
  | Ends _ => False
  end.
Proof.
  intros c s Hg Hd. pose proof (reload_done n ms 0 g t Hg Hd) as H. cbn [role_of Post] in H.
  assert (Hidle : (exists k, idle k s) -> fds (host s) = [] /\
    exists k, current s = k /\ route s = Some k /\ open s = true /\ talk (insts s k) = Idle /\ standing [(k, [])] s).
  { intros [k [[(? & ? & ? & ?) [? ?]] ?]]. split; [done|]. by exists k. }
  destruct t as [|[]]; cbn [host_post] in H; try (by apply Hidle); try done.
  destruct H as [k [(? & ? & ? & ?) [? ?]]]. split; [done|]. by exists k.
Qed.

(** C23: The join of a cutoff is neither early nor lost: while the transaction waits for the callers inside, the gate is
    shut, and the channel it waits on is closed exactly when nobody is inside any more. *)
Theorem reload_cutoff_joins cfg n ms g d :
  let c := prun ms (site cfg n) in let s := snd c in
  fst c !! 0%nat = Some g -> at_query g = Some (QJoin d) ->
  open s = false /\ (d ∈ closed s <-> inside s = ∅).
Proof.
  intros c s Hg Hq. destruct (reload_at n ms 0 g _ Hg Hq) as [Ho HJ]. destruct (reload_reached n ms) as [Hi _].
  split; [done|]. destruct HJ as [Hd|[? ?]]; [|done]. destruct (inv_drained _ Hi d Hd) as (Ha & Hn & _).
  split; [done|]. intros E. pose proof (inv_active _ Hi) as Hs. fold c in Hs. fold s in Hs. rewrite E, size_empty in Hs. fold c in Ha. fold s in Ha. lia.
Qed.

(** ** Snapshots *)

Lemma build_accounts sha bad payload maxLen fs p fs' p' r :
  BuildSnapshot sha bad payload maxLen (fs, p) = ((fs', p'), r) ->
  match r with
  | Ok (fd, n, sum) => fds p' = fd :: fds p /\ maps p' = maps p /\ sum = sha payload /\ zlen payload <= maxLen
  | Err e => fds p' = fds p /\ (e = ErrSnapshotTooLarge <-> maxLen < zlen payload) /\ (bad MunmapWrite = false -> maps p' = maps p)
  | Panic => False
  end.
Proof.
  unfold BuildSnapshot. intros E. repeat (case_match; simplify_eq/=); bool_to_prop; split_and!; try done; try lia; try (split; [done|lia]);
    unfold open_fd, close_fd, map_file, unmap_file; simpl; rewrite ?decide_True by done; done.
Qed.

(** A snapshot round trip.  A build either fails leaving no descriptor open (and, if unmapping works, no mapping), or
    leaves one, of a new file that holds the payload under its declared length and is sealed against every change; from
    then on, whatever files are made later, any process that verifies it under the declared length reads back exactly
    the payload and the checksum, and under any other length it is refused. *)
Theorem snapshot_roundtrip sha bad payload fs p fs' p' r :
  BuildSnapshot sha bad payload MaxSnapshotBytes (fs, p) = ((fs', p'), r) ->
  fs `prefix_of` fs' /\
  match r with
  | Ok (fd, len, sum) =>
      fds p' = fd :: fds p /\ maps p' = maps p /\
      sealed_copy fs' {| SnapshotFdCount := 1; DeclaredLength := len; FormatVersion := SnapshotFormatVersion |} (Some fd) payload /\
      forall fs2 q n, fs' `prefix_of` fs2 ->
        VerifySealedSnapshot sha (fun _ => false) fd n (fs2, q) =
          if n =? len then ((fs2, if 0 <? len then map_file fd q else q), Ok (payload, sum)) else ((fs2, q), Err ErrSnapshotLengthMismatch)
  | Err e => fds p' = fds p /\ (e = ErrSnapshotTooLarge <-> MaxSnapshotBytes < zlen payload) /\ (bad MunmapWrite = false -> maps p' = maps p)
  | Panic => False
  end.
Proof.
  intros E. destruct (BuildSnapshot_ok _ _ _ _ _ _ _ _ _ E) as [Hpre Hok]. pose proof (build_accounts _ _ _ _ _ _ _ _ _ E) as Ha.
  split; [done|]. destruct r as [[[fd len] sum]|e|]; [|done|done]. destruct Ha as (? & ? & -> & Hle).
  destruct (Hok _ _ _ eq_refl) as (-> & m & Hm & Hc & Hs). split; [done|]. split; [done|]. split.
  { split; [done|]. split; [done|]. by exists fd, m. }
  intros fs2 q n H2. assert (Hm2 : fs2 !! fd = Some m) by (by eapply prefix_lookup_Some).
  unfold VerifySealedSnapshot. rewrite Hm2, Hs, Z.eqb_refl, Hc. cbn [negb]. rewrite Z.eqb_sym.
  destruct (n =? zlen payload); cbn [negb]; [|done]. rewrite (proj2 (Z.ltb_ge MaxSnapshotBytes (zlen payload)) Hle).
  destruct payload as [|b l]; [done|]. by replace (zlen (b :: l)) with (Z.pos (Pos.of_succ_nat (length l))) by (unfold zlen; simpl; lia).
Qed.

(** ** Sample runs

    One mutator per instance; a state is saved as two words per effect. *)

Definition encode_effects (l : list effect) : list Z :=
  l ≫= fun e => match e with Handled c => [0; c] | Background j => [1; Z.of_nat j] end.

Fixpoint decode_effects (l : list Z) : option (list effect) :=
  match l with
  | [] => Some []
  | t :: x :: l =>
      match decode_effects l with
      | Some e => Some ((if t =? 0 then Handled x else Background (Z.to_nat x)) :: e)
      | None => None
      end
  | _ => None
  end.

Lemma decode_encode_effects l : decode_effects (encode_effects l) = Some l.
Proof.
  unfold encode_effects. induction l as [|[c|j] l IH]; [done|..]; rewrite bind_cons; cbn [app decode_effects]; rewrite IH; [done|].
  cbn [Z.eqb]. by rewrite Nat2Z.id.
Qed.

Definition sample_cfg : config :=
  mkConfig (30 * Second) (fun _ => mkHooks 1 (Some encode_effects) (Some (fun _ => decode_effects))) (fun l => [zlen l]).

Lemma sample_stateful : @stateful sample_cfg.
Proof. intros i j. exists encode_effects, (fun _ => decode_effects). split_and!; [done|done|]. exact decode_encode_effects. Qed.

Definition moves (i : nat) (l : list answer) : list (nat * answer) := (fun x => (i, x)) <$> l.
Definition no_faults : faults := fun _ => false.

Definition site_at (ms : list (nat * answer)) (i : nat) : option query := fst (prun ms (site sample_cfg 2)) !! i ≫= at_query.
Definition site_done (ms : list (nat * answer)) (i : nat) : option turn :=
  fst (prun ms (site sample_cfg 2)) !! i ≫= fun g => match now g with Done r => Some r | Act _ _ => None end.

Lemma site_at_go ms i q : site_at ms i = Some q -> exists g, fst (prun ms (site sample_cfg 2)) !! i = Some g /\ at_query g = Some q.
Proof. unfold site_at. destruct (fst _ !! i); simpl; [eauto|done]. Qed.
Lemma site_done_go ms i r : site_done ms i = Some r -> exists g, fst (prun ms (site sample_cfg 2)) !! i = Some g /\ now g = Done r.
Proof. unfold site_done. destruct (fst _ !! i) as [g|]; simpl; [|done]. destruct (now g) eqn:E; intros [= ->]. eauto. Qed.

(** The first instance serves a call, works in the background and beats; a
    reload is asked for, and Drain is sent. *)
Definition run_served : list (nat * answer) :=
  moves 1 [ANone; ANone; ANone] ++ moves 3 [ANone; ANone; ANone; ANone; ACall 7; ANone] ++
  moves 2 [ANone; AServe; ANone; ABackground 0; ANone; ABeat; ANone].
Definition run_asked : list (nat * answer) :=
  run_served ++ moves 0 [ANone; ANone; AEnd; ANone; ANone; ANone; ANone; AClock 100 None; ANone].
(** It freezes, drains and hands over its state; the newcomer restores it. *)
Definition run_restored : list (nat * answer) :=
  run_asked ++ moves 1 (replicate 10 ANone) ++ moves 1 [ASys no_faults; ANone] ++
  moves 0 [ANone; ANone; ASys no_faults; ANone; ANone; ANone] ++
  moves 4 [ANone; ANone; ASys no_faults; ANone; ANone; ANone; ANone].
(** It is promoted, and its predecessor retired. *)
Definition run_promoted : list (nat * answer) :=
  run_restored ++ moves 0 (replicate 6 ANone) ++
  moves 0 [ACount 0; ANone; ANone; ANone; ANone; ANone; ANone; ANone; ATimeout] ++ moves 0 (replicate 3 ANone).

Definition run_published : list (nat * answer) := run_promoted ++ moves 3 [ANone; ANone; ANone; ANone; ANone].

Lemma reload_admits_only_thawed_witness :
  let s := snd (prun run_published (site sample_cfg 2)) in
  route s = Some 1%nat /\ talk (insts s 1) = Idle /\ thawed (phase (insts s 1)) = true.
Proof.
  destruct (site_at_go run_published 3 (QPublish 1)) as (g & Hg & Hq); [by vm_compute|].
  destruct (reload_admits_only_thawed sample_cfg 2 run_published 0 g 1 Hg Hq) as (? & _ & ? & _ & _ & ? & _). by split_and!.
Defined.

Lemma reload_keeps_calls_witness :
  let s := snd (prun run_promoted (site sample_cfg 2)) in
  route s = Some 1%nat /\ calls (effects (insts s 1)) ++ reqs (insts s 1) = published s.
Proof.
  destruct (reload_keeps_calls sample_cfg 2 run_promoted sample_stateful) as (r & Hr & _ & Hc).
  assert (E : route (snd (prun run_promoted (site sample_cfg 2))) = Some 1%nat) by (by vm_compute).
  split; [exact E|]. rewrite E in Hr. injection Hr as <-. exact Hc.
Defined.

Lemma reload_turn_outcome_witness :
  let s := snd (prun run_promoted (site sample_cfg 2)) in
  site_done run_promoted 0 = Some Goes /\ fds (host s) = [] /\
  exists k, current s = k /\ route s = Some k /\ open s = true /\ talk (insts s k) = Idle /\ standing [(k, [])] s.
Proof.
  split; [by vm_compute|]. destruct (site_done_go run_promoted 0 Goes) as (g & Hg & Hd); [by vm_compute|].
  exact (reload_turn_outcome sample_cfg 2 run_promoted g Goes Hg Hd).
Defined.

(** A caller is inside when the gate is cut off. *)
Definition run_joining : list (nat * answer) :=
  moves 1 [ANone; ANone; ANone] ++ moves 3 [ANone; ANone] ++ moves 2 [ANone; ABeat] ++ moves 0 [ANone; ANone; AEnd; ANone; ANone; ANone].

Lemma reload_cutoff_joins_witness :
  let s := snd (prun run_joining (site sample_cfg 2)) in
  open s = false /\ (0%nat ∈ closed s <-> inside s = ∅).
Proof.
  destruct (site_at_go run_joining 0 (QJoin 0)) as (g & Hg & Hq); [by vm_compute|].
  exact (reload_cutoff_joins sample_cfg 2 run_joining g 0 Hg Hq).
Defined.

Lemma snapshot_roundtrip_witness :
  exists fs p fd len sum,
    BuildSnapshot (fun l => [zlen l]) no_faults [4; 5] MaxSnapshotBytes ([], no_resources) = ((fs, p), Ok (fd, len, sum)) /\
    VerifySealedSnapshot (fun l => [zlen l]) no_faults fd len (fs, no_resources) = ((fs, map_file fd no_resources), Ok ([4; 5], sum)).
Proof.
  do 5 eexists. split; [by vm_compute|].
  destruct (snapshot_roundtrip (fun l => [zlen l]) no_faults [4; 5] [] no_resources _ _ _ eq_refl) as (_ & _ & _ & _ & H).
  exact (H _ no_resources 2 ltac:(done)).
Defined.

(** ** A beat in flight

    The instance beats on its own clock: it does not wait for the
    acknowledgement of its last beat, and pauses only when it has read Drain.  A
    beat it sends after the one at which the reload is serviced is what the host
    then receives instead of DrainAck; the rollback that follows meets the
    DrainAck instead of ResumeAck.  So a reload in which nothing fails ends
    crash-equivalent. *)
Definition run_beat_in_flight : list (nat * answer) :=
  moves 1 [ANone; ANone; ANone] ++ moves 2 [ANone; ABeat; ANone; ABeat] ++
  moves 0 [ANone; ANone; AEnd; ANone; ANone; ANone; ANone; AClock 100 None; ANone; ANone] ++
  moves 1 (replicate 7 ANone) ++ moves 0 [ANone; ANone].

Theorem reload_beat_in_flight_crashes :
  let s := snd (prun run_beat_in_flight (site sample_cfg 2)) in
  site_done run_beat_in_flight 0 = Some (Ends reloadCrashEquivalent) /\ IsOpen s = false /\ phase (insts s 0) = Held.
Proof. by vm_compute. Qed.
End ReloadSafety.
