(* ===== verification/Supervisor.v ===== *)
(** * The supervisor and its event bus
    (src/internal/supervisor/supervisor.go: Run, runOneInstance, heartbeatLoop,
    Stop and their helpers; src/internal/supervisor/events.go)

    One goroutine supervises a plugin: it starts an instance, watches its
    heartbeats, restarts it within a budget, and publishes what happens.  Every
    subscriber has two bounded rings, one for informational and one for critical
    events, and a forwarder that hands them to whoever receives.  Supervisor,
    forwarders, subscribers, the caller of Stop and the canceler of the context
    are programs over one state (see [Interleave]).

    What a spawn, a receive, a reload or a timer answers comes from the
    schedule; the transaction of a reload is in [Reload], the classification of
    heartbeats in [Health].  A clock reading is any time not before the last.
    The counters of instances and of published events are 64-bit words.  The hooks that only report (heartbeat, restart and
    stdio counts) are left out. *)

From stdpp Require Import gmap functions.
From S2P Require Import Prelude Interleave Health.
Import Health.

Module Supervisor.

Local Open Scope Z_scope.

(** ** Events *)

Inductive EventKind := EventStarting | EventReady | EventUnhealthy | EventCrashed | EventRestarting | EventGaveUp.

#[global] Instance EventKind_eq_dec : EqDecision EventKind.
Proof. solve_decision. Defined.

Definition isCritical (k : EventKind) : bool :=
  match k with EventUnhealthy | EventCrashed | EventGaveUp => true | _ => false end.

(** Why an instance ended: [ErrSpawn incompatible] is a spawn, handshake or
    attach that failed, [ErrReload incompatible] a crash-equivalent reload, each
    with whether [errors.As] finds an incompatibility in it (for a reload, in the
    cause its rollback joined to the failed resume). *)
Inductive error :=
| MissedHeartbeatsError (missed : Z) | WedgedError (k : WedgeKind) | ErrConnLost | ErrEOF | ErrRecv | ErrReload (incompatible : bool)
| ErrSpawn (incompatible : bool).

#[global] Instance error_eq_dec : EqDecision error.
Proof. solve_decision. Defined.

(** [Pos] tells events apart: how many were published before this one. *)
Record Event := mkEvent { Kind : EventKind; Time : Z; Err : option error; Seq : Z; Gen : Z; Pos : nat }.

#[global] Instance Event_eq_dec : EqDecision Event.
Proof. solve_decision. Defined.

Definition critical (e : Event) : bool := isCritical (Kind e).

(** ** Rings *)

Definition InformationalBufferCapacity : nat := 16.
Definition CriticalBufferCapacity : nat := 3.

Record ring := mkRing { buf : list Event; head : nat; len : nat }.

Definition zero_event : Event := mkEvent EventStarting 0 None 0 0 0.
Definition new_ring (cap : nat) : ring := mkRing (replicate cap zero_event) 0 0.

(** Whether an old event had to make room. *)
Definition ring_push (e : Event) (r : ring) : ring * bool :=
  let cap := length (buf r) in
  let full := bool_decide (len r = cap) in
  let h := if full then ((head r + 1) mod cap)%nat else head r in
  let n := if full then (len r - 1)%nat else len r in
  (mkRing (<[((h + n) mod cap)%nat := e]> (buf r)) h (S n), full).

Definition ring_pop (r : ring) : option (Event * ring) :=
  match len r with
  | O => None
  | S n =>
      match buf r !! head r with
      | Some e => Some (e, mkRing (buf r) ((head r + 1) mod length (buf r))%nat n)
      | None => None
      end
  end.

(** What is queued, oldest first. *)
Definition queued (r : ring) : list Event :=
  (fun i => nth ((head r + i) mod length (buf r)) (buf r) zero_event) <$> List.seq 0 (len r).

(** A subscriber.  [got], [out], [lost] and [shed] record what happened:
    the events enqueued, the ones popped, the critical and the informational
    ones that made room; [hand] is the event the forwarder is delivering,
    [delivered] what receivers took, [base] how many events had been published
    when it subscribed, [owed] whether the wake signal of an enqueue is still to
    be sent. *)
Record busSubscriber := mkSub {
  infos : ring; crits : ring; droppedInformational : Z; sending : bool; wake : bool; owed : bool; done : bool;
  got : list Event; out : list Event; lost : list Event; shed : list Event; hand : option Event; delivered : list Event;
  base : nat
}.

Definition new_sub (n : nat) : busSubscriber :=
  mkSub (new_ring InformationalBufferCapacity) (new_ring CriticalBufferCapacity) 0 false false false false [] [] [] [] None [] n.

Definition eta_sub (b : busSubscriber) : busSubscriber :=
  mkSub (infos b) (crits b) (droppedInformational b) (sending b) (wake b) (owed b) (done b) (got b) (out b) (lost b) (shed b) (hand b)
    (delivered b) (base b).
Definition with_wake x (b : busSubscriber) : busSubscriber := ltac:(update_field eta_sub b wake x).
Definition with_owed x (b : busSubscriber) : busSubscriber := ltac:(update_field eta_sub b owed x).
Definition with_done x (b : busSubscriber) : busSubscriber := ltac:(update_field eta_sub b done x).
Definition with_sending x (b : busSubscriber) : busSubscriber := ltac:(update_field eta_sub b sending x).

(** [enqueue], under its lock. *)
Definition enqueue (e : Event) (b : busSubscriber) : busSubscriber :=
  if critical e then
    let (r, full) := ring_push e (crits b) in
    mkSub (infos b) r (droppedInformational b) (sending b) (wake b) true (done b) (got b ++ [e]) (out b)
      (if full then lost b ++ take 1 (queued (crits b)) else lost b) (shed b) (hand b) (delivered b) (base b)
  else
    let (r, full) := ring_push e (infos b) in
    mkSub r (crits b) (if full then u64 (droppedInformational b + 1) else droppedInformational b) (sending b) (wake b) true (done b)
      (got b ++ [e]) (out b) (lost b) (if full then shed b ++ take 1 (queued (infos b)) else shed b) (hand b) (delivered b) (base b).

(** The signal after it, which does not block. *)
Definition signal (b : busSubscriber) : busSubscriber := with_wake true (with_owed false b).

Definition next (b : busSubscriber) : busSubscriber * option Event :=
  match ring_pop (crits b) with
  | Some (e, r) =>
      (mkSub (infos b) r (droppedInformational b) true (wake b) (owed b) (done b) (got b) (out b ++ [e]) (lost b) (shed b) (Some e) (delivered b) (base b), Some e)
  | None =>
      match ring_pop (infos b) with
      | Some (e, r) =>
          (mkSub r (crits b) (droppedInformational b) true (wake b) (owed b) (done b) (got b) (out b ++ [e]) (lost b) (shed b) (Some e) (delivered b) (base b), Some e)
      | None => (b, None)
      end
  end.

(** A receiver takes the event in hand; a hand-off finds none waiting. *)
Definition take_hand (b : busSubscriber) : busSubscriber :=
  mkSub (infos b) (crits b) (droppedInformational b) (sending b) (wake b) (owed b) (done b) (got b) (out b) (lost b) (shed b) None
    (delivered b ++ match hand b with Some e => [e] | None => [] end) (base b).
Definition drop_hand (b : busSubscriber) : busSubscriber :=
  mkSub (infos b) (crits b) (droppedInformational b) (sending b) (wake b) (owed b) (done b) (got b) (out b) (lost b) (shed b) None (delivered b) (base b).

Definition clearSending (b : busSubscriber) : busSubscriber := with_sending false b.

Definition quiesced (b : busSubscriber) : bool :=
  bool_decide (len (crits b) = 0%nat) && bool_decide (len (infos b) = 0%nat) && negb (sending b).

(** ** State *)

(** [taken] counts the generations handed out, of which [generation] is the
    word. *)
Record state := mkState {
  generation : Z; taken : Z; seqno : Z; clock : Z; stopCh : bool; ctxDone : bool; doneCh : bool;
  live : gset nat; born : gset nat; subs : nat -> busSubscriber; published : list Event
}.

Definition eta (s : state) : state :=
  mkState (generation s) (taken s) (seqno s) (clock s) (stopCh s) (ctxDone s) (doneCh s) (live s) (born s) (subs s) (published s).
Definition with_generation x (s : state) : state := ltac:(update_field eta s generation x).
Definition with_taken x (s : state) : state := ltac:(update_field eta s taken x).
Definition with_seqno x (s : state) : state := ltac:(update_field eta s seqno x).
Definition with_clock x (s : state) : state := ltac:(update_field eta s clock x).
Definition with_stopCh x (s : state) : state := ltac:(update_field eta s stopCh x).
Definition with_ctxDone x (s : state) : state := ltac:(update_field eta s ctxDone x).
Definition with_doneCh x (s : state) : state := ltac:(update_field eta s doneCh x).
Definition with_live x (s : state) : state := ltac:(update_field eta s live x).
Definition with_born x (s : state) : state := ltac:(update_field eta s born x).
Definition with_subs x (s : state) : state := ltac:(update_field eta s subs x).
Definition with_published x (s : state) : state := ltac:(update_field eta s published x).

Definition on_sub (j : nat) (f : busSubscriber -> busSubscriber) (s : state) : state := with_subs (alter f j (subs s)) s.

Inductive query :=
| QStopped | QCtx | QNow | QGeneration | QStamp | QSubs | QEnqueue (j : nat) | QWake (j : nat)
| QSpawn | QConnLost | QRecv | QReload | QTransact | QTeardown | QSleep | QDone
| QSubscribe (j : nat) | QUnsubscribe (j : nat) | QCloseDone (j : nat)
| QBorn (j : nat) | QNext (j : nat) | QHand (j : nat) | QTry (j : nat) | QClear (j : nat) | QWait (j : nat)
| QStop | QJoin | QJoinLate | QCancel.

Inductive received := RecvTimeout | RecvFails | NoBody | OtherKind | Beat (sample : HeartbeatSample).

(** How a reload transaction ends: its error, and whether a successor was
    promoted. *)
Inductive transacted := Crashes (incompatible : bool) | Expires | Settles.

Inductive answer :=
| ANone | AClock (t : Z) | AOrder (l : list nat) | ASpawned (e : option bool) | ALost (b : bool) | ARecv (r : received)
| ARequest (waiting ended : bool) | ATransact (o : transacted) (promoted : bool) | ATimer | ACtx | AStop | ATaken | ADone.

Notation M := (proc state query answer).

(** ** Publishing *)

Definition time_now : M Z := Act QNow (fun x s =>
  match x with AClock t => if clock s <=? t then (with_clock t s, Some (Done t)) else (s, None) | _ => (s, None) end).

Fixpoint enqueue_all (e : Event) (l : list nat) : M unit :=
  match l with
  | [] => mret tt
  | j :: l =>
      crit (QEnqueue j) (fun s => (on_sub j (enqueue e) s, tt)) ≫= fun _ =>
      crit (QWake j) (fun s => (on_sub j signal s, tt)) ≫= fun _ => enqueue_all e l
  end.

(** [EventBus.Publish] with [Bus.Publish]: the number, then the subscribers of
    that moment in some order, one after the other. *)
Definition publish (k : EventKind) (t : Z) (e : option error) (g : Z) : M unit :=
  crit QStamp (fun s =>
    let n := u64 (seqno s + 1) in
    let ev := mkEvent k t e n g (length (published s)) in
    (with_published (published s ++ [ev]) (with_seqno n s), ev)) ≫= fun ev =>
  Act QSubs (fun x s =>
    match x with
    | AOrder l => if decide (NoDup l /\ list_to_set l = live s) then (s, Some (Done l)) else (s, None)
    | _ => (s, None)
    end) ≫= fun l =>
  enqueue_all ev l.

(** ** The supervisor *)

Record Config := mkConfig {
  MissedHeartbeats : Z; WedgeWindow : Z; senderCadence : Z; ResetWindow : Z; RestartMax : Z; Backoff : option (Z -> Z)
}.

Definition DefaultWedgeWindow : Z := 5000000000.
Definition defaultHighWaterBytes : Z := Z.shiftl 1 30.

Definition applyDefaults (c : Config) : Config :=
  mkConfig (if MissedHeartbeats c <=? 0 then 3 else MissedHeartbeats c)
    (if WedgeWindow c <=? 0 then DefaultWedgeWindow else WedgeWindow c) (senderCadence c) (ResetWindow c) (RestartMax c)
    (match Backoff c with None => Some (fun _ => 0) | b => b end).

Definition effectiveRestartsUsed (resetWindow readyDuration restartsUsed : Z) : Z :=
  if (0 <? resetWindow) && (resetWindow <=? readyDuration) then 0 else restartsUsed.

(** The locals of a serving instance: Run's budget, runOneInstance's ready
    time and current generation, and those of heartbeatLoop. *)
Record serving := mkServing {
  restartsUsed : Z; readySince : Z; cur : Z; missed : Z; prev : option HeartbeatSample; tracker : wedgeTracker
}.

(** How a turn of a goroutine ends: at the top of Run's loop, at the top of
    heartbeatLoop's, with Run returned; a forwarder going on, handing off what
    is left, or closed; Stop's error; anything else. *)
Inductive turn :=
| Starts (used : Z) | Beats (l : serving) | Returned | Forwards | Rescues | Closed | StopNil | StopCtx | Finished.

Section supervisor.
Context (cfg : Config).

Definition stopping : M bool :=
  crit QStopped (fun s => (s, stopCh s)) ≫= fun b =>
  if b : bool then mret true else crit QCtx (fun s => (s, ctxDone s)).

Definition nextGeneration : M Z := crit QGeneration (fun s =>
  let g := u64 (generation s + 1) in (with_generation g (with_taken (taken s + 1) s), g)).

Definition returns : M turn := crit QDone (fun s => (with_doneCh true s, Returned)).

Definition sleep (d : Z) : M bool :=
  if d <=? 0 then
    crit QCtx (fun s => (s, ctxDone s)) ≫= fun b =>
    if b : bool then mret false else crit QStopped (fun s => (s, negb (stopCh s)))
  else Act QSleep (fun x s =>
    match x with
    | ATimer => (s, Some (Done true))
    | ACtx => (s, if ctxDone s then Some (Done false) else None)
    | AStop => (s, if stopCh s then Some (Done false) else None)
    | _ => (s, None)
    end).

Definition timeSinceOrZero (t : option Z) : M Z :=
  match t with None => mret 0 | Some t => time_now ≫= fun n => mret (n - t) end.

Definition gives_up (endGen : Z) (e : error) : M turn :=
  time_now ≫= fun t => publish EventGaveUp t (Some e) endGen ≫= fun _ => returns.

Definition incompatible (e : error) : bool := match e with ErrSpawn b | ErrReload b => b | _ => false end.

Definition backoff (used : Z) : Z := match Backoff (applyDefaults cfg) with Some f => f used | None => 0 end.

(** Run, from the return of runOneInstance to the top of the loop. *)
Definition crashed (used : Z) (ready : option Z) (endGen : Z) (e : error) : M turn :=
  timeSinceOrZero ready ≫= fun d =>
  let used := effectiveRestartsUsed (ResetWindow cfg) d used in
  time_now ≫= fun t => publish EventCrashed t (Some e) endGen ≫= fun _ =>
  stopping ≫= fun b => if b : bool then returns else
  if incompatible e then gives_up endGen e else
  if RestartMax cfg <=? used then gives_up endGen e else
  let delay := backoff used in
  time_now ≫= fun t => publish EventRestarting t None endGen ≫= fun _ =>
  sleep delay ≫= fun ok => if ok : bool then mret (Starts (used + 1)) else returns.

(** runOneInstance, from the end of its heartbeat loop. *)
Definition ends (l : serving) (stopped : bool) (e : error) : M turn :=
  crit QTeardown (fun s => (s, tt)) ≫= fun _ =>
  if stopped then returns else crashed (restartsUsed l) (Some (readySince l)) (cur l) e.

(** Run, from the top of its loop into the heartbeat loop. *)
Definition run_top (used : Z) : M turn :=
  stopping ≫= fun b => if b : bool then returns else
  nextGeneration ≫= fun g =>
  time_now ≫= fun t => publish EventStarting t None g ≫= fun _ =>
  ask QSpawn (fun x => match x with ASpawned e => Some e | _ => None end) ≫= fun r =>
  match r with
  | Some b => crashed used None g (ErrSpawn b)
  | None =>
      time_now ≫= fun readyAt => publish EventReady readyAt None g ≫= fun _ =>
      mret (Beats (mkServing used readyAt g 0 None (newWedgeTracker (WedgeWindow (applyDefaults cfg)) (senderCadence cfg))))
  end.

Inductive reloadOutcome := reloadNone | reloadServiced | reloadNoop | reloadCrashEquivalent.

(** serviceReload with runReload: the outcome, whether its error carries an
    incompatibility, and the current generation. *)
Definition serviceReload (g : Z) : M (reloadOutcome * bool * Z) :=
  ask QReload (fun x => match x with ARequest w e => Some (w, e) | _ => None end) ≫= fun '(waiting, ended) =>
  if negb waiting then mret (reloadNone, false, g) else
  if (ended : bool) then mret (reloadNoop, false, g) else
  nextGeneration ≫= fun g' =>
  ask QTransact (fun x => match x with ATransact o p => Some (o, p) | _ => None end) ≫= fun '(o, promoted) =>
  (if (promoted : bool) then time_now ≫= fun t => publish EventReady t None g' else mret tt) ≫= fun _ =>
  mret (match o with
        | Crashes b => (reloadCrashEquivalent, b)
        | Expires => (reloadNoop, false)
        | Settles => (reloadServiced, false)
        end,
        if (promoted : bool) then g' else g).

Definition unhealthy (l : serving) (e : error) : M turn :=
  time_now ≫= fun t => publish EventUnhealthy t (Some e) (cur l) ≫= fun _ => ends l false e.

(** One turn of heartbeatLoop. *)
Definition beat_turn (l : serving) : M turn :=
  stopping ≫= fun b => if b : bool then ends l true ErrEOF else
  ask QConnLost (fun x => match x with ALost b => Some b | _ => None end) ≫= fun lost =>
  if lost : bool then ends l false ErrConnLost else
  ask QRecv (fun x => match x with ARecv r => Some r | _ => None end) ≫= fun r =>
  match r with
  | RecvTimeout =>
      let n := missed l + 1 in
      let l := mkServing (restartsUsed l) (readySince l) (cur l) n (prev l) (tracker l) in
      if MissedHeartbeats (applyDefaults cfg) <=? n then unhealthy l (MissedHeartbeatsError n) else mret (Beats l)
  | RecvFails => ends l false ErrRecv
  | NoBody => ends l false ErrEOF
  | OtherKind => mret (Beats l)
  | Beat sample =>
      serviceReload (cur l) ≫= fun '(o, bad, g) =>
      let l := mkServing (restartsUsed l) (readySince l) g (missed l) (prev l) (tracker l) in
      match o with
      | reloadCrashEquivalent => ends l false (ErrReload bad)
      | reloadServiced => mret (Beats (mkServing (restartsUsed l) (readySince l) g 0 None (clear (tracker l))))
      | reloadNone | reloadNoop =>
          let '(w, (k, fire)) :=
            match prev l with
            | Some p =>
                let (class, wedge) := Classify p sample defaultHighWaterBytes in
                observe class wedge (Sequence sample) (tracker l)
            | None => (tracker l, (WedgeNone, false))
            end in
          let l := mkServing (restartsUsed l) (readySince l) g 0 (prev l) w in
          if (fire : bool) then unhealthy l (WedgedError k)
          else mret (Beats (mkServing (restartsUsed l) (readySince l) g 0 (Some sample) w))
      end
  end.

(** ** Stopping *)

Definition Stop : M turn :=
  crit QStop (fun s => (with_stopCh true s, tt)) ≫= fun _ =>
  Act QJoin (fun x s =>
    match x with
    | ADone => (s, if doneCh s then Some (Done true) else None)
    | ACtx => (s, Some (Done false))
    | _ => (s, None)
    end) ≫= fun b =>
  if b : bool then mret StopNil
  else crit QJoinLate (fun s => (s, if doneCh s then StopNil else StopCtx)).

Definition cancel : M turn := crit QCancel (fun s => (with_ctxDone true s, Finished)).

(** ** Subscribers *)

(** One subscription: Subscribe, and at some point its unsubscribe. *)
Definition subscription (j : nat) : M turn :=
  crit (QSubscribe j) (fun s =>
    (with_live ({[j]} ∪ live s) (with_born ({[j]} ∪ born s) (on_sub j (fun _ => new_sub (length (published s))) s)), tt)) ≫= fun _ =>
  crit (QUnsubscribe j) (fun s => (with_live (live s ∖ {[j]}) s, tt)) ≫= fun _ =>
  crit (QCloseDone j) (fun s => (on_sub j (with_done true) s, Finished)).

(** [tryHandOff]: whether a receiver was waiting. *)
Definition tryHandOff (j : nat) : M bool :=
  Act (QTry j) (fun x s =>
    match x with
    | ATaken => (on_sub j take_hand s, Some (Done true))
    | _ => (on_sub j drop_hand s, Some (Done false))
    end) ≫= fun ok =>
  crit (QClear j) (fun s => (on_sub j clearSending s, tt)) ≫= fun _ => mret ok.

Definition pop (j : nat) : M (option Event) :=
  crit (QNext j) (fun s => let (b, e) := next (subs s j) in (on_sub j (fun _ => b) s, e)).

(** One turn of [handOffToWaitingReceiver]. *)
Definition rescue_turn (j : nat) : M turn :=
  pop j ≫= fun e =>
  match e with
  | None => mret Closed
  | Some _ => tryHandOff j ≫= fun ok => mret (if ok : bool then Rescues else Closed)
  end.

(** One turn of [forward]. *)
Definition forward_turn (j : nat) : M turn :=
  pop j ≫= fun e =>
  match e with
  | None =>
      Act (QWait j) (fun x s =>
        match x with
        | ADone => (s, if done (subs s j) then Some (Done Rescues) else None)
        | _ => if wake (subs s j) then (on_sub j (with_wake false) s, Some (Done Forwards)) else (s, None)
        end)
  | Some _ =>
      Act (QHand j) (fun x s =>
        match x with
        | ATaken => (on_sub j take_hand s, Some (Done true))
        | ADone => (s, if done (subs s j) then Some (Done false) else None)
        | _ => (s, None)
        end) ≫= fun sent =>
      if sent : bool then crit (QClear j) (fun s => (on_sub j clearSending s, Forwards))
      else tryHandOff j ≫= fun ok => mret (if ok : bool then Rescues else Closed)
  end.

Definition await_subscribed (j : nat) : M turn :=
  Act (QBorn j) (fun _ s => (s, if decide (j ∈ born s) then Some (Done Forwards) else None)).

(** ** Goroutines *)

Definition supervise_next (t : turn) : option (M turn) :=
  match t with Starts used => Some (run_top used) | Beats l => Some (beat_turn l) | _ => None end.

Definition forward_next (j : nat) (t : turn) : option (M turn) :=
  match t with Forwards => Some (forward_turn j) | Rescues => Some (rescue_turn j) | _ => None end.

Definition Run : goroutine state query answer turn := mkGo (run_top 0) supervise_next.
Definition forward (j : nat) : goroutine state query answer turn := mkGo (await_subscribed j) (forward_next j).
Definition once (p : M turn) : goroutine state query answer turn := mkGo p (fun _ => None).

Definition fresh_state : state := mkState 0 0 0 0 false false false ∅ ∅ (fun _ => new_sub 0) [].

Definition supervised (n : nat) : pool state query answer turn :=
  (Run :: once Stop :: once cancel :: (List.seq 0 n ≫= fun j => [once (subscription j); forward j]), fresh_state).

End supervisor.
End Supervisor.
