(* ===== verification/SupervisorSafety.v ===== *)
(** * The supervisor under every schedule

    The events a supervisor publishes, its restart budget, what a bounded
    subscriber keeps of them, and what Stop's return means. *)

From stdpp Require Import gmap functions.
From S2P Require Import Prelude Interleave Health Supervisor.
Import Health Supervisor.

Module SupervisorSafety.

Local Open Scope Z_scope.

(** ** Rings are bounded queues *)

Definition ring_ok (cap : nat) (r : ring) : Prop :=
  length (buf r) = cap /\ (0 < cap)%nat /\ (head r < cap)%nat /\ (len r <= cap)%nat.

Lemma ring_ok_new cap : (0 < cap)%nat -> ring_ok cap (new_ring cap).
Proof. intros H. split_and!; [apply length_replicate|done|done|simpl; lia]. Qed.

Lemma queued_length r : length (queued r) = len r.
Proof. unfold queued. by rewrite length_fmap, length_seq. Qed.

Lemma queued_cons b h n :
  queued (mkRing b h (S n)) = nth (h mod length b) b zero_event :: queued (mkRing b ((h + 1) mod length b) n).
Proof.
  unfold queued. simpl. rewrite Nat.add_0_r. f_equal. rewrite <- seq_shift, <- list_fmap_compose. apply list_fmap_ext.
  intros i x _. simpl. f_equal. rewrite Nat.Div0.add_mod_idemp_l. f_equal. lia.
Qed.

Lemma queued_snoc b h n : queued (mkRing b h (S n)) = queued (mkRing b h n) ++ [nth ((h + n) mod length b) b zero_event].
Proof. unfold queued. simpl len. by rewrite seq_S, fmap_app. Qed.

Lemma wrap_distinct cap h i n : (i < n < cap)%nat -> ((h + i) mod cap <> (h + n) mod cap)%nat.
Proof.
  intros [Hi Hn] E. pose proof (Nat.div_mod_eq (h + i) cap) as E1. pose proof (Nat.div_mod_eq (h + n) cap) as E2. rewrite E in E1.
  assert (Hq : (n - i = cap * ((h + n) / cap - (h + i) / cap))%nat) by (rewrite Nat.mul_sub_distr_l; lia).
  destruct ((h + n) / cap - (h + i) / cap)%nat as [|q]; [lia|]. rewrite Nat.mul_succ_r in Hq. lia.
Qed.

Lemma queued_insert b h n e : (n < length b)%nat -> queued (mkRing (<[((h + n) mod length b)%nat := e]> b) h n) = queued (mkRing b h n).
Proof.
  intros Hn. unfold queued. simpl. apply list_fmap_ext. intros i x Hx. apply lookup_seq in Hx as [-> Hi]. rewrite length_insert. simpl.
  rewrite !nth_lookup, list_lookup_insert_ne; [done|]. apply not_eq_sym. by apply wrap_distinct.
Qed.

Lemma ring_push_queued cap e r :
  ring_ok cap r ->
  ring_ok cap (fst (ring_push e r)) /\ snd (ring_push e r) = bool_decide (len r = cap) /\
  queued (fst (ring_push e r)) = (if bool_decide (len r = cap) then drop 1 (queued r) else queued r) ++ [e].
Proof.
  intros (Hb & Hc & Hh & Hl). destruct r as [b h n]. simpl in *. unfold ring_push. simpl. rewrite Hb.
  set (full := bool_decide (n = cap)). set (h' := if full then ((h + 1) mod cap)%nat else h). set (n' := if full then (n - 1)%nat else n).
  assert (Hn' : (n' < cap)%nat) by (subst n' full; case_bool_decide; lia).
  assert (Hh' : (h' < cap)%nat) by (subst h' full; case_bool_decide; [apply Nat.mod_upper_bound; lia|done]).
  assert (Hq : queued (mkRing b h' n') = if full then drop 1 (queued (mkRing b h n)) else queued (mkRing b h n)).
  { subst h' n' full. case_bool_decide; [|done]. subst n. destruct cap as [|c]; [lia|]. rewrite queued_cons, Hb. simpl. by rewrite Nat.sub_0_r. }
  split; [|split; [done|]].
  - split_and!; simpl; [by rewrite length_insert|done|done|lia].
  - rewrite queued_snoc, length_insert, Hb. rewrite <- Hb at 1. rewrite queued_insert by lia. rewrite Hq. f_equal.
    rewrite nth_lookup, list_lookup_insert_eq; [done|]. rewrite Hb. apply Nat.mod_upper_bound. lia.
Qed.

Lemma ring_pop_some cap r e r' :
  ring_ok cap r -> ring_pop r = Some (e, r') -> ring_ok cap r' /\ queued r = e :: queued r'.
Proof.
  intros (Hb & Hc & Hh & Hl). destruct r as [b h [|n]]; unfold ring_pop; simpl in *; [done|].
  destruct (b !! h) as [e0|] eqn:E; [|done]. intros [= <- <-]. split.
  - split_and!; simpl; [done|done|rewrite Hb; apply Nat.mod_upper_bound; lia|lia].
  - rewrite queued_cons, Hb, Nat.mod_small by done. f_equal. by apply nth_lookup_Some.
Qed.

Lemma ring_pop_none cap r : ring_ok cap r -> ring_pop r = None -> queued r = [].
Proof.
  intros (Hb & Hc & Hh & Hl). destruct r as [b h [|n]]; unfold ring_pop; simpl in *; [done|].
  destruct (lookup_lt_is_Some_2 b h) as [e ->]; [lia|done].
Qed.

(** ** Legal event streams *)

(** Where a stream of events leaves the plugin: down since the last instance,
    being launched, up, judged unhealthy, ended, or given up.  Generations are
    counted here without bound; an event carries the 64-bit word of one. *)
Inductive mode := Down (last : Z) | Launching (g : Z) | Up (g : Z) | Sick (g : Z) (e : error) | Dead (g : Z) (e : error)
| Over (g : Z).

Definition gen_of (m : mode) : Z :=
  match m with Down g | Launching g | Up g | Sick g _ | Dead g _ | Over g => g end.

Definition verdict (cfg : Config) (e : error) : Prop :=
  match e with
  | MissedHeartbeatsError n => n = MissedHeartbeats (applyDefaults cfg)
  | WedgedError _ => True
  | _ => False
  end.

(** What ends an instance that is up without a verdict on its health. *)
Definition failure (e : error) : Prop :=
  match e with ErrConnLost | ErrEOF | ErrRecv | ErrReload _ => True | _ => False end.

Inductive legal (cfg : Config) : mode -> Event -> mode -> Prop :=
| legal_starting last g e : Kind e = EventStarting -> Err e = None -> Gen e = u64 g -> last < g -> legal cfg (Down last) e (Launching g)
| legal_ready g e : Kind e = EventReady -> Err e = None -> Gen e = u64 g -> legal cfg (Launching g) e (Up g)
| legal_spawn_failed g e b :
    Kind e = EventCrashed -> Err e = Some (ErrSpawn b) -> Gen e = u64 g -> legal cfg (Launching g) e (Dead g (ErrSpawn b))
| legal_reloaded g g' e : Kind e = EventReady -> Err e = None -> Gen e = u64 g' -> g < g' -> legal cfg (Up g) e (Up g')
| legal_unhealthy g e r : Kind e = EventUnhealthy -> Err e = Some r -> Gen e = u64 g -> verdict cfg r -> legal cfg (Up g) e (Sick g r)
| legal_failed g e r : Kind e = EventCrashed -> Err e = Some r -> Gen e = u64 g -> failure r -> legal cfg (Up g) e (Dead g r)
| legal_crashed g e r : Kind e = EventCrashed -> Err e = Some r -> Gen e = u64 g -> legal cfg (Sick g r) e (Dead g r)
| legal_restarting g e r :
    Kind e = EventRestarting -> Err e = None -> Gen e = u64 g -> incompatible r = false -> legal cfg (Dead g r) e (Down g)
| legal_gave_up g e r : Kind e = EventGaveUp -> Err e = Some r -> Gen e = u64 g -> legal cfg (Dead g r) e (Over g).

(** A whole stream, from before the first instance. *)
Inductive follows (cfg : Config) : list Event -> mode -> Prop :=
| follows_nil : follows cfg [] (Down 0)
| follows_snoc l m e m' : follows cfg l m -> legal cfg m e m' -> follows cfg (l ++ [e]) m'.

(** Restarts charged to the budget: an instance that was up for the reset
    window clears it. *)
Definition charge (cfg : Config) (acc : option Z * Z) (e : Event) : option Z * Z :=
  match Kind e with
  | EventStarting => (None, snd acc)
  | EventReady => (match fst acc with None => Some (Time e) | r => r end, snd acc)
  | EventCrashed =>
      (fst acc, match fst acc with
                | Some r => if (0 <? ResetWindow cfg) && (ResetWindow cfg <=? Time e - r) then 0 else snd acc
                | None => snd acc
                end)
  | EventRestarting => (fst acc, snd acc + 1)
  | _ => acc
  end.

Definition charged (cfg : Config) (l : list Event) : option Z * Z := foldl (charge cfg) (None, 0) l.

Lemma charged_snoc cfg l e : charged cfg (l ++ [e]) = charge cfg (charged cfg l) e.
Proof. unfold charged. by rewrite foldl_app. Qed.

(** ** Incidents

    The critical events of the last failure: a verdict on its health if there
    was one, the crash, and giving up. *)
Definition incident_step (acc : list Event) (e : Event) : list Event :=
  match Kind e with
  | EventUnhealthy => [e]
  | EventCrashed => match acc with [u] => if decide (Kind u = EventUnhealthy) then [u; e] else [e] | _ => [e] end
  | EventGaveUp => acc ++ [e]
  | _ => acc
  end.

Definition incident (l : list Event) : list Event := foldl incident_step [] l.

Lemma incident_snoc l e : incident (l ++ [e]) = incident_step (incident l) e.
Proof. unfold incident. by rewrite foldl_app. Qed.

Notation only c l := (filter (fun e => critical e = c) l).

Lemma only_snoc c l e : only c (l ++ [e]) = only c l ++ if decide (critical e = c) then [e] else [].
Proof. rewrite filter_app, filter_cons. by case_decide. Qed.

Lemma incident_crash acc e :
  Kind e = EventCrashed -> incident_step acc e = [e] \/ exists u, acc = [u] /\ incident_step acc e = [u; e].
Proof. intros Ek. unfold incident_step. rewrite Ek. destruct acc as [|u [|]]; [by left| |by left]. case_decide; [right; by exists u|by left]. Qed.

Lemma critical_kind e : critical e = isCritical (Kind e).
Proof. done. Qed.

Lemma incident_suffix l : exists pre, only true l = pre ++ incident l.
Proof.
  induction l as [|e l [pre IH]] using rev_ind; [by exists []|]. rewrite only_snoc, incident_snoc, IH, critical_kind.
  destruct (Kind e) eqn:Ek; cbn [isCritical].
  1, 2, 5: rewrite decide_False by done; rewrite app_nil_r; exists pre; unfold incident_step; by rewrite Ek.
  - rewrite decide_True by done. exists (pre ++ incident l). unfold incident_step. by rewrite Ek.
  - rewrite decide_True by done. destruct (incident_crash (incident l) e Ek) as [-> |(u & -> & ->)].
    + by exists (pre ++ incident l).
    + exists pre. by rewrite <- app_assoc.
  - rewrite decide_True by done. exists pre. unfold incident_step. rewrite Ek. by rewrite app_assoc.
Qed.

Lemma incident_length cfg l m :
  follows cfg l m -> (length (incident l) <= CriticalBufferCapacity)%nat /\ (forall g e, m = Dead g e -> (length (incident l) <= 2)%nat).
Proof.
  unfold CriticalBufferCapacity. induction 1 as [|l m e m' _ [IH1 IH2] Hl]; [simpl; split; [lia|done]|]. rewrite incident_snoc.
  assert (Hc : Kind e = EventCrashed -> (length (incident_step (incident l) e) <= 2)%nat).
  { intros Ek. destruct (incident_crash (incident l) e Ek) as [-> |(u & _ & ->)]; simpl; lia. }
  destruct Hl as [last g e Ek|g e Ek|g e b Ek|g g' e Ek|g e r Ek|g e r Ek|g e r Ek|g e r Ek|g e r Ek];
    try (specialize (Hc Ek); split; [lia|intros; lia]); unfold incident_step; rewrite Ek; try (split; [done|done]); try (split; [simpl; lia|done]).
  split; [|done]. rewrite length_app. simpl. specialize (IH2 g r eq_refl). lia.
Qed.

Lemma incident_step_in acc e x : x ∈ incident_step acc e -> x ∈ acc \/ x = e.
Proof.
  unfold incident_step. destruct (Kind e); auto; try (intros ->%list_elem_of_singleton; by right).
  - destruct acc as [|u [|]]; [|case_decide|]; try (intros ->%list_elem_of_singleton; by right).
    intros [->|[->|?%elem_of_nil]%elem_of_cons]%elem_of_cons; [left; by left|by right|done].
  - rewrite elem_of_app, list_elem_of_singleton. done.
Qed.

Lemma only_sublist c l k : l `sublist_of` k -> only c l `sublist_of` only c k.
Proof.
  induction 1 as [|x l k H IH|x l k H IH]; [done|..]; rewrite !filter_cons; case_decide; try (by constructor); done.
Qed.

(** ** Numbered streams *)

Definition numbered (l : list Event) : Prop := forall i e, l !! i = Some e -> Pos e = i /\ Seq e = u64 (Z.of_nat i + 1).

Lemma numbered_snoc l e :
  numbered l -> Pos e = length l -> Seq e = u64 (Z.of_nat (length l) + 1) -> numbered (l ++ [e]).
Proof.
  intros H Ep E i x Hx. apply lookup_app_Some in Hx as [Hx|[Hl Hx]]; [by apply H|].
  apply list_lookup_singleton_Some in Hx as [Hi <-]. assert (i = length l) as -> by lia. done.
Qed.

Lemma numbered_NoDup l : numbered l -> NoDup l.
Proof.
  intros H. apply NoDup_alt. intros i j e Hi Hj. destruct (H i e Hi), (H j e Hj). congruence.
Qed.

Lemma numbered_fresh l e x : numbered l -> Pos e = length l -> x ∈ l -> x <> e.
Proof. intros H E (i & Hi)%list_elem_of_lookup ->. destruct (H i e Hi). apply lookup_lt_Some in Hi. lia. Qed.

(** An event with as many critical events behind it as the ring holds is not
    of the last incident. *)
Lemma overtaken_not_incident cfg l m c cs :
  follows cfg l m -> numbered l -> length cs = CriticalBufferCapacity -> (c :: cs) `sublist_of` only true l -> c ∉ incident l.
Proof.
  intros Hf Hn Hc Hs. destruct (incident_length _ _ _ Hf) as [Hlen _]. destruct (incident_suffix l) as [pre Ep].
  assert (Hnd : NoDup (only true l)) by (apply NoDup_filter, numbered_NoDup; done).
  rewrite Ep in Hs, Hnd. apply sublist_app_r in Hs as (k1 & k2 & E & H1 & H2).
  apply NoDup_app in Hnd as (_ & Hd & _). apply Hd. apply sublist_length in H2.
  destruct k1 as [|c' k1]; simpl in E; [subst k2; simpl in H2; lia|]. injection E as <- _.
  eapply sublist_submseteq in H1. eapply elem_of_submseteq; [|exact H1]. by left.
Qed.

(** ** Subscribers *)

(** What left a ring, in order: the events popped and the ones that made room. *)
Definition ring_history (c : bool) (b : busSubscriber) (r : ring) (dropped : list Event) : Prop :=
  exists left, only c (got b) = left ++ queued r /\ left ≡ₚ only c (out b) ++ dropped /\ only c (out b) `sublist_of` left.

Record sub_ok (l : list Event) (b : busSubscriber) : Prop := mkSubOk {
  so_crits : ring_ok CriticalBufferCapacity (crits b);
  so_infos : ring_ok InformationalBufferCapacity (infos b);
  so_got : got b `sublist_of` l;
  so_critical : ring_history true b (crits b) (lost b);
  so_informational : ring_history false b (infos b) (shed b);
  so_dropped : droppedInformational b = u64 (Z.of_nat (length (shed b)));
  so_lost : forall e, e ∈ lost b -> e ∉ incident l;
  so_hand : hand b <> None -> sending b = true;
  so_out : done b = false -> out b = delivered b ++ match hand b with Some e => [e] | None => [] end
}.

Lemma sub_ok_new l n : sub_ok l (new_sub n).
Proof.
  constructor; simpl; try done; try (apply ring_ok_new; unfold CriticalBufferCapacity, InformationalBufferCapacity; lia).
  - apply sublist_nil_l.
  - by exists [].
  - by exists [].
  - intros e He. by apply elem_of_nil in He.
Qed.

Lemma history_pop c b b' r r' dropped e :
  critical e = c -> got b' = got b -> out b' = out b ++ [e] -> queued r = e :: queued r' -> ring_history c b r dropped -> ring_history c b' r' dropped.
Proof.
  intros Hc Eg Eo Eq (left & E & Hp & Hs). exists (left ++ [e]). rewrite Eg, Eo, only_snoc, decide_True by done. split_and!.
  - by rewrite E, Eq, <- app_assoc.
  - rewrite Hp, <- !app_assoc. f_equiv. apply Permutation_app_comm.
  - by apply sublist_app.
Qed.

Lemma history_pop_other c b b' r dropped e :
  critical e <> c -> got b' = got b -> out b' = out b ++ [e] -> ring_history c b r dropped -> ring_history c b' r dropped.
Proof. intros Hc Eg Eo. unfold ring_history. by rewrite Eg, Eo, only_snoc, decide_False, app_nil_r. Qed.

Lemma history_push c b b' r r' dropped e cap :
  critical e = c -> got b' = got b ++ [e] -> out b' = out b ->
  queued r' = (if bool_decide (len r = cap) then drop 1 (queued r) else queued r) ++ [e] -> ring_history c b r dropped ->
  ring_history c b' r' (if bool_decide (len r = cap) then dropped ++ take 1 (queued r) else dropped).
Proof.
  intros Hc Eg Eo Eq (left & E & Hp & Hs). unfold ring_history. rewrite Eg, Eo, only_snoc, decide_True, E, Eq by done.
  case_bool_decide.
  - exists (left ++ take 1 (queued r)). rewrite <- !app_assoc. split_and!.
    + f_equal. rewrite app_assoc. by rewrite take_drop.
    + by rewrite Hp, app_assoc.
    + by apply sublist_inserts_r.
  - exists left. by rewrite <- app_assoc.
Qed.

Lemma history_push_other c b b' r dropped e :
  critical e <> c -> got b' = got b ++ [e] -> out b' = out b -> ring_history c b r dropped -> ring_history c b' r dropped.
Proof. intros Hc Eg Eo. unfold ring_history. by rewrite Eg, Eo, only_snoc, decide_False, app_nil_r. Qed.

Lemma queued_only c b r dropped e : ring_history c b r dropped -> e ∈ queued r -> critical e = c.
Proof.
  intros (left & E & _) He. assert (He' : e ∈ only c (got b)) by (rewrite E; apply elem_of_app; by right).
  by apply list_elem_of_filter in He' as [? _].
Qed.

Lemma history_same c b b' r dropped : got b' = got b -> out b' = out b -> ring_history c b r dropped -> ring_history c b' r dropped.
Proof. unfold ring_history. by intros -> ->. Qed.

(** A pop. *)
Lemma sub_ok_next l b : sub_ok l b -> hand b = None -> sub_ok l (fst (next b)).
Proof.
  intros [Hc Hi Hg HC HI Hd Hl Hh Ho] Hn. unfold next. rewrite Hn in Ho.
  destruct (ring_pop (crits b)) as [[e r]|] eqn:Ec; [|destruct (ring_pop (infos b)) as [[e r]|] eqn:Ei].
  - destruct (ring_pop_some _ _ _ _ Hc Ec) as [Hr Eq]. assert (He : critical e = true) by (eapply queued_only; [exact HC|rewrite Eq; by left]).
    constructor; simpl; try done.
    + by eapply (history_pop true b).
    + eapply (history_pop_other false b); [by rewrite He|done|done|done].
    + intros Ed. by rewrite (Ho Ed), app_nil_r.
  - destruct (ring_pop_some _ _ _ _ Hi Ei) as [Hr Eq]. assert (He : critical e = false) by (eapply queued_only; [exact HI|rewrite Eq; by left]).
    constructor; simpl; try done.
    + eapply (history_pop_other true b); [by rewrite He|done|done|done].
    + by eapply (history_pop false b).
    + intros Ed. by rewrite (Ho Ed), app_nil_r.
  - cbn [fst]. constructor; try done. rewrite Hn. done.
Qed.

(** The publisher's event, the last one, goes to a subscriber that has not got
    it yet. *)
Lemma sub_ok_enqueue cfg l m e b :
  follows cfg (l ++ [e]) m -> numbered (l ++ [e]) -> got b `sublist_of` l -> sub_ok (l ++ [e]) b ->
  sub_ok (l ++ [e]) (enqueue e b).
Proof.
  intros Hf Hn Hgl [Hc Hi Hg HC HI Hd Hl Hh Ho]. unfold enqueue. destruct (critical e) eqn:He.
  - destruct (ring_push_queued _ e (crits b) Hc) as (Hr & Hfull & Eq). destruct (ring_push e (crits b)) as [r full]. cbn [fst snd] in *. subst full.
    constructor; simpl; try done.
    + by apply sublist_app.
    + by eapply (history_push true b).
    + eapply (history_push_other false b); [by rewrite He|done|done|done].
    + case_bool_decide as Hfl; [|done]. intros x [?|Hx]%elem_of_app; [by apply Hl|].
      destruct (queued (crits b)) as [|c cs] eqn:Eqc; [by apply elem_of_nil in Hx|]. simpl in Hx. rewrite take_0 in Hx. apply list_elem_of_singleton in Hx as ->.
      apply (overtaken_not_incident cfg _ m c (cs ++ [e])); try done.
      * pose proof (queued_length (crits b)) as Hq. rewrite Eqc, Hfl in Hq. simpl in Hq. rewrite length_app. simpl. lia.
      * rewrite only_snoc, decide_True by done. change (c :: cs ++ [e]) with ((c :: cs) ++ [e]). apply sublist_app; [|done].
        destruct HC as (left & E & _). transitivity (only true (got b)); [rewrite E, Eqc; by apply sublist_inserts_l|]. by apply only_sublist.
  - destruct (ring_push_queued _ e (infos b) Hi) as (Hr & Hfull & Eq). destruct (ring_push e (infos b)) as [r full]. cbn [fst snd] in *. subst full.
    constructor; simpl; try done.
    + by apply sublist_app.
    + eapply (history_push_other true b); [by rewrite He|done|done|done].
    + by eapply (history_push false b).
    + case_bool_decide as Hfl; [|done]. rewrite Hd, length_app, length_take, queued_length, Hfl.
      unfold InformationalBufferCapacity. replace (Z.of_nat (length (shed b) + 1 `min` 16)) with (Z.of_nat (length (shed b)) + 1) by (simpl; lia).
      unfold u64. by rewrite Z.add_mod_idemp_l by done.
Qed.

(** A new event is published. *)
Lemma sub_ok_publish l e b :
  numbered l -> Pos e = length l -> sub_ok l b -> sub_ok (l ++ [e]) b.
Proof.
  intros Hn He [Hc Hi Hg HC HI Hd Hl Hh Ho]. constructor; try done.
  - by apply sublist_inserts_r.
  - intros x Hx Hin. rewrite incident_snoc in Hin. apply incident_step_in in Hin as [Hin|Hin]; [by eapply Hl|].
    revert Hin. apply (numbered_fresh l); [done|done|]. destruct HC as (left & E & Hp & _).
    assert (Hx' : x ∈ only true (got b)) by (rewrite E, Hp; rewrite !elem_of_app; auto). apply list_elem_of_filter in Hx' as [_ Hx'].
    eapply elem_of_submseteq; [exact Hx'|]. by apply sublist_submseteq.
Qed.

Lemma sub_ok_take l b : sub_ok l b -> sub_ok l (take_hand b).
Proof.
  intros [Hc Hi Hg HC HI Hd Hl Hh Ho]. constructor; simpl; try done. intros Ed. by rewrite (Ho Ed), app_nil_r.
Qed.

Lemma sub_ok_drop l b : sub_ok l b -> done b = true -> sub_ok l (drop_hand b).
Proof. intros [Hc Hi Hg HC HI Hd Hl Hh Ho] E. constructor; simpl; try done. congruence. Qed.

Lemma sub_ok_clear l b : sub_ok l b -> hand b = None -> sub_ok l (clearSending b).
Proof. intros [Hc Hi Hg HC HI Hd Hl Hh Ho] E. constructor; simpl; try done. Qed.

Lemma sub_ok_wake l b w : sub_ok l b -> sub_ok l (with_wake w b).
Proof. intros []. by constructor. Qed.

Lemma sub_ok_signal l b : sub_ok l b -> sub_ok l (signal b).
Proof. intros []. by constructor. Qed.

Lemma sub_ok_done l b : sub_ok l b -> sub_ok l (with_done true b).
Proof. intros []. by constructor. Qed.

(** ** Roles, the shared invariant, guarantees *)

Inductive role := Sup | Stopper | Canceler | Sub (j : nat) | Fwd (j : nat).

Definition role_of (i : nat) : role :=
  match i with
  | 0%nat => Sup | 1%nat => Stopper | 2%nat => Canceler
  | S (S (S i)) => match (i mod 2)%nat with O => Sub (i / 2)%nat | _ => Fwd (i / 2)%nat end
  end.

Lemma sup_role_of_inj i j : role_of i = role_of j -> i = j.
Proof.
  pose proof (fun i => Nat.div_mod_eq i 2) as Hd. pose proof (fun i => Nat.mod_upper_bound i 2 ltac:(done)) as Hm.
  destruct i as [|[|[|i]]], j as [|[|[|j]]]; cbn [role_of]; try done; try (pose proof (Hd i)); try (pose proof (Hd j));
    try (pose proof (Hm i)); try (pose proof (Hm j)); intros E; repeat case_match; try discriminate E;
    try (apply (f_equal (fun r => match r with Sub x | Fwd x => x | _ => O end)) in E; cbv beta iota in E); lia.
Qed.

Section safety.
Context (cfg : Config).

Record Inv (s : state) : Prop := mkInv {
  inv_legal : exists m, follows cfg (published s) m /\ gen_of m <= taken s;
  inv_generation : generation s = u64 (taken s);
  inv_numbered : numbered (published s);
  inv_seqno : seqno s = u64 (Z.of_nat (length (published s)));
  inv_budget : 0 <= snd (charged cfg (published s)) <= Z.max 0 (RestartMax cfg);
  inv_subs : forall j, sub_ok (published s) (subs s j)
}.

(** Nothing is queued, or the forwarder has been or will be woken. *)
Definition alert (b : busSubscriber) : Prop := (len (crits b) = 0%nat /\ len (infos b) = 0%nat) \/ wake b = true \/ owed b = true.

Definition sup_same (s s' : state) : Prop :=
  taken s' = taken s /\ seqno s' = seqno s /\ clock s' = clock s /\ doneCh s' = doneCh s /\ published s' = published s.

Definition Guar (r : role) (q : query) (s s' : state) : Prop :=
  match r with
  | Sup =>
      stopCh s' = stopCh s /\ ctxDone s' = ctxDone s /\ live s' = live s /\ born s' = born s /\
      (forall j, done (subs s' j) = done (subs s j) /\ hand (subs s' j) = hand (subs s j) /\ base (subs s' j) = base (subs s j) /\
        (alert (subs s j) -> alert (subs s' j))) /\
      (doneCh s = true -> published s' = published s /\ doneCh s' = true)
  | Stopper | Canceler => sup_same s s' /\ live s' = live s /\ born s' = born s /\ subs s' = subs s
  | Sub j =>
      sup_same s s' /\ born s ⊆ born s' /\ (forall i, i <> j -> subs s' i = subs s i) /\ (forall i, i <> j -> i ∈ born s' <-> i ∈ born s) /\
      ((subs s' j = subs s j \/ subs s' j = with_done true (subs s j)) /\ live s' ⊆ live s \/
       subs s' j = new_sub (length (published s)) /\ j ∉ born s /\ live s' ⊆ {[j]} ∪ live s)
  | Fwd j =>
      sup_same s s' /\ live s' = live s /\ born s' = born s /\ (forall i, i <> j -> subs s' i = subs s i) /\
      got (subs s' j) = got (subs s j) /\ done (subs s' j) = done (subs s j) /\ base (subs s' j) = base (subs s j) /\ owed (subs s' j) = owed (subs s j)
  end.

Definition Rel (r : role) (s s' : state) : Prop := exists r' q, r' <> r /\ Guar r' q s s'.

Lemma sup_Guar_refl r q s : Guar r q s s.
Proof. destruct r; simpl; unfold sup_same; split_and!; auto; done. Qed.

Lemma sup_Compatible i j q s s' : i <> j -> Inv s -> Inv s' -> Guar (role_of i) q s s' -> Rel (role_of j) s s'.
Proof. intros Hne _ _ HG. exists (role_of i), q. split; [|done]. intros E. by apply Hne, sup_role_of_inj. Qed.

Lemma Rel_owed s s' j : Rel Sup s s' -> owed (subs s' j) = true -> owed (subs s j) = true.
Proof.
  intros (r & q & Hr & HG). destruct r as [| | |i|i]; [done|..]; simpl in HG.
  - by destruct HG as (_ & _ & _ & ->).
  - by destruct HG as (_ & _ & _ & ->).
  - destruct HG as (_ & _ & Ho & _ & Hj). destruct (decide (i = j)) as [->|Hne]; [|by rewrite (Ho j) by done].
    by destruct Hj as [[[-> | ->] _]|(-> & _ & _)].
  - destruct HG as (_ & _ & _ & Ho & _ & _ & _ & Hj). destruct (decide (i = j)) as [->|Hne]; [by rewrite Hj|by rewrite (Ho j) by congruence].
Qed.

Lemma Rel_sup s s' :
  Rel Sup s s' -> sup_same s s' /\ forall j,
    got (subs s' j) = got (subs s j) /\ base (subs s' j) = base (subs s j) /\ (j ∈ live s' -> j ∈ live s) \/
    got (subs s' j) = [] /\ base (subs s' j) = length (published s).
Proof.
  intros (r & q & Hr & HG). destruct r as [| | |j|j]; [done|..]; simpl in HG.
  - destruct HG as (? & -> & _ & ->). auto.
  - destruct HG as (? & -> & _ & ->). auto.
  - destruct HG as (? & _ & Ho & _ & Hj). split; [done|]. intros i. destruct (decide (i = j)) as [->|Hne].
    + destruct Hj as [[[-> | ->] Hl]|(-> & _ & _)]; [left; split_and!; [done|done|apply Hl]..|by right].
    + rewrite (Ho i Hne). left. split_and!; [done|done|]. destruct Hj as [[_ Hl]|(_ & _ & Hl)]; set_solver.
  - destruct HG as (? & El & _ & Ho & Hg & _ & Hb & _). split; [done|]. intros i. left. rewrite El. destruct (decide (i = j)) as [->|Hne]; [done|by rewrite (Ho i Hne)].
Qed.

Lemma Rel_fwd j s s' :
  Rel (Fwd j) s s' -> j ∈ born s ->
  j ∈ born s' /\ hand (subs s' j) = hand (subs s j) /\ (done (subs s j) = true -> done (subs s' j) = true) /\
  (alert (subs s j) -> alert (subs s' j)).
Proof.
  intros (r & q & Hr & HG) Hb. destruct r as [| | |i|i]; simpl in HG.
  - destruct HG as (_ & _ & _ & -> & H & _). destruct (H j) as (-> & -> & _ & ?). done.
  - destruct HG as (_ & _ & -> & ->). done.
  - destruct HG as (_ & _ & -> & ->). done.
  - destruct HG as (_ & Hs & Ho & _ & Hj). split; [by apply Hs|]. destruct (decide (i = j)) as [->|Hne]; [|rewrite (Ho j) by done; done].
    destruct Hj as [[[-> | ->] _]|(_ & ? & _)]; done.
  - destruct HG as (_ & _ & -> & Ho & _). rewrite (Ho j) by congruence. done.
Qed.

Lemma Rel_sub j s s' : Rel (Sub j) s s' -> j ∈ born s' <-> j ∈ born s.
Proof.
  intros (r & q & Hr & HG). destruct r as [| | |i|i]; simpl in HG.
  - by destruct HG as (_ & _ & _ & -> & _).
  - by destruct HG as (_ & _ & -> & _).
  - by destruct HG as (_ & _ & -> & _).
  - destruct HG as (_ & _ & _ & H & _). apply H. congruence.
  - by destruct HG as (_ & _ & -> & _).
Qed.

(** Every subscriber has got what was published since it subscribed. *)
Definition complete (j : nat) (s : state) : Prop := exists x, got (subs s j) = x ++ drop (base (subs s j)) (published s).
Definition owes (j : nat) (s : state) : Prop := owed (subs s j) = true.
Definition all_complete (s : state) : Prop := (forall j, ~ owes j s) /\ forall j, j ∈ live s -> complete j s.

(** What holds while the supervisor waits for a spawn, a heartbeat, a teardown
    or its backoff; while a forwarder waits to be woken. *)
Definition At (r : role) (q : query) (s : state) : Prop :=
  match r with
  | Sup =>
      (forall j, owes j s -> q = QWake j) /\
      match q with QSpawn | QRecv | QTeardown | QSleep => all_complete s | _ => True end
  | Fwd j => match q with QWait _ => alert (subs s j) | _ => True end
  | _ => True
  end.

Notation T := (triple Inv Rel Guar At).
Notation Stable := (stable Inv Rel).

(** ** The supervisor's assertions *)

Lemma complete_stable s s' j : Rel Sup s s' -> j ∈ live s' -> (j ∈ live s -> complete j s) -> complete j s'.
Proof.
  intros HR Hj H. destruct (Rel_sup s s' HR) as ((_ & _ & _ & _ & Ep) & Hs). unfold complete in *. rewrite Ep.
  destruct (Hs j) as [(-> & -> & Hl)|[-> ->]]; [by apply H, Hl|]. exists []. by rewrite drop_all.
Qed.

Lemma all_complete_stable s s' : Rel Sup s s' -> all_complete s -> all_complete s'.
Proof.
  intros HR [Ho Ha]. split; [intros j Hj; by apply (Ho j), (Rel_owed s s')|]. intros j Hj. apply (complete_stable s s' j HR Hj), Ha.
Qed.

Definition sup_at (n : Z) (φ : Z -> list Event -> Prop) (s : state) : Prop :=
  doneCh s = false /\ n <= clock s /\ φ (taken s) (published s) /\ all_complete s.

Lemma sup_at_stable n φ : Stable Sup (sup_at n φ).
Proof.
  intros s s' _ _ HR (Hd & Hc & Hφ & Ha). pose proof (all_complete_stable s s' HR Ha).
  destruct (Rel_sup s s' HR) as ((Eg & _ & Ec & Ed & Ep) & _). unfold sup_at. by rewrite Eg, Ec, Ed, Ep.
Qed.

Lemma sup_at_At n φ q s : sup_at n φ s -> At Sup q s.
Proof. intros (_ & _ & _ & Ha). split; [intros j Hj; by destruct (proj1 Ha j)|by destruct q]. Qed.

Lemma sup_at_weaken n n' (φ ψ : Z -> list Event -> Prop) s :
  n' <= n -> (forall g l, φ g l -> ψ g l) -> sup_at n φ s -> sup_at n' ψ s.
Proof. intros Hn H (? & ? & ? & ?). split_and!; [done|lia|by apply H|done]. Qed.

(** A read of the state or a call out that changes nothing. *)
Lemma sup_reads {A} n φ q (f : state -> A) : T Sup (sup_at n φ) (crit q (fun s => (s, f s)) : M A) (fun _ => sup_at n φ).
Proof. apply triple_crit; [apply sup_at_stable|]. intros s Hi Hs. split; [by eapply sup_at_At|]. split; [apply sup_Guar_refl|done]. Qed.

Lemma sup_asks {A} n φ q (f : answer -> option A) : T Sup (sup_at n φ) (ask q f : M A) (fun _ => sup_at n φ).
Proof. apply triple_ask; [apply sup_at_stable|]. intros s Hi Hs. split; [by eapply sup_at_At|apply sup_Guar_refl]. Qed.

Lemma stopping_safe n φ : T Sup (sup_at n φ) stopping (fun _ => sup_at n φ).
Proof. eapply triple_bind; [apply sup_reads|]. intros [|]; [by apply triple_ret|apply sup_reads]. Qed.

Lemma Inv_clock t s : Inv s -> Inv (with_clock t s).
Proof. intros []. by constructor. Qed.

Lemma time_now_safe n φ : T Sup (sup_at n φ) time_now (fun t s => n <= t /\ sup_at t φ s).
Proof.
  apply triple_act; [apply sup_at_stable|intros s _; apply sup_at_At|]. intros s x Hi Hs. destruct x; try (split; [apply sup_Guar_refl|done]).
  destruct (clock s <=? t) eqn:E; [|split; [apply sup_Guar_refl|done]]. bool_to_prop. cbn [fst snd].
  split; [simpl; split_and!; done|]. split; [by apply Inv_clock|]. apply triple_ret. intros ? _ <-. destruct Hs as (? & ? & ? & ?).
  split; [lia|]. by split_and!.
Qed.

Lemma returns_safe n φ : T Sup (sup_at n φ) returns (fun t s => t = Returned /\ doneCh s = true /\ all_complete s).
Proof.
  apply triple_crit; [apply sup_at_stable|]. intros s Hi Hs. cbn [fst snd]. split; [by eapply sup_at_At|]. split; [|split].
  - simpl. split_and!; done.
  - destruct Hi. by constructor.
  - by destruct Hs as (_ & _ & _ & ?).
Qed.

Lemma nextGeneration_safe n φ :
  T Sup (sup_at n φ) nextGeneration (fun w => sup_at n (fun gen l => w = u64 gen /\ φ (gen - 1) l)).
Proof.
  apply triple_crit; [apply sup_at_stable|]. intros s Hi Hs. cbn [fst snd]. split; [by eapply sup_at_At|]. destruct Hs as (? & ? & ? & ?). split; [simpl; split_and!; done|].
  assert (Eg : u64 (generation s + 1) = u64 (taken s + 1)) by (rewrite (inv_generation s Hi); by rewrite u64_add_l).
  split; [|split_and!; [done|done|done| |done]; simpl; by rewrite Z.add_simpl_r].
  destruct Hi as [(m & ? & ?) ? ? ? ? ?]. constructor; try done. exists m. split; [done|simpl; lia].
Qed.

(** ** Publishing *)

(** What a legal event leads to. *)
Definition allows (k : EventKind) (t : Z) (e : option error) (w : Z) (φ ψ : Z -> list Event -> Prop) : Prop :=
  forall gen l ev, φ gen l -> Kind ev = k -> Time ev = t -> Err ev = e -> Gen ev = w ->
  0 <= snd (charged cfg l) <= Z.max 0 (RestartMax cfg) ->
  (exists m m', follows cfg l m /\ legal cfg m ev m' /\ gen_of m' <= gen) /\
  0 <= snd (charge cfg (charged cfg l) ev) <= Z.max 0 (RestartMax cfg) /\ ψ gen (l ++ [ev]).

Lemma subs_on j f s i : subs (on_sub j f s) i = if decide (j = i) then f (subs s j) else subs s i.
Proof. simpl. case_decide as H; [subst; apply fn_lookup_alter|by apply fn_lookup_alter_ne]. Qed.

Lemma Inv_on_sub j f s : Inv s -> sub_ok (published s) (f (subs s j)) -> Inv (on_sub j f s).
Proof.
  intros [? ? ? ? ? Hs] Hj. constructor; try done. intros i. rewrite subs_on. case_decide; [done|apply Hs].
Qed.

(** While the last event [ev] is handed round, those still to get it have got
    everything else, and only [w] is owed its signal. *)
Definition behind (ev : Event) (j : nat) (s : state) : Prop :=
  exists l x, published s = l ++ [ev] /\ got (subs s j) `sublist_of` l /\ got (subs s j) = x ++ drop (base (subs s j)) l.

Definition handing (ev : Event) (js : list nat) (w : option nat) (n : Z) (φ : Z -> list Event -> Prop) (s : state) : Prop :=
  doneCh s = false /\ n <= clock s /\ φ (taken s) (published s) /\ (exists l, published s = l ++ [ev]) /\
  (forall j, j ∈ js -> behind ev j s \/ got (subs s j) = [] /\ base (subs s j) = length (published s)) /\
  (forall j, j ∈ live s -> j ∉ js -> complete j s) /\ forall j, owes j s -> w = Some j.

Lemma handing_stable ev js w n φ : Stable Sup (handing ev js w n φ).
Proof.
  intros s s' Hi Hi' HR (Hd & Hc & Hφ & Hl & Hj & Ha & Hw).
  assert (Hcomp : forall j, j ∈ live s' -> j ∉ js -> complete j s') by (intros j Hin Hn; apply (complete_stable s s' j HR Hin); by auto).
  assert (Howe : forall j, owes j s' -> w = Some j) by (intros j Ho; by apply Hw, (Rel_owed s s')).
  destruct (Rel_sup s s' HR) as ((Eg & _ & Ec & Ed & Ep) & Hs). unfold handing, behind in *. rewrite Eg, Ec, Ed, Ep. split_and!; try done.
  intros j Hin. destruct (Hs j) as [(-> & -> & _)|[-> ->]]; [by apply Hj|]. by right.
Qed.

Lemma enqueue_fields e b :
  got (enqueue e b) = got b ++ [e] /\ done (enqueue e b) = done b /\ hand (enqueue e b) = hand b /\ base (enqueue e b) = base b /\
  owed (enqueue e b) = true.
Proof. unfold enqueue. destruct (critical e), (ring_push e _); done. Qed.

Lemma behind_complete ev j s b :
  behind ev j s \/ got (subs s j) = [] /\ base (subs s j) = length (published s) -> (exists l, published s = l ++ [ev]) ->
  got b = got (subs s j) ++ [ev] -> base b = base (subs s j) ->
  exists x, got b = x ++ drop (base b) (published s).
Proof.
  intros [(l & x & El & _ & Eg)|[Eg Eb]] _ -> ->; rewrite Eg.
  - rewrite El. destruct (decide (base (subs s j) <= length l)%nat) as [Hb|Hb].
    + exists x. rewrite drop_app_le by done. by rewrite <- app_assoc.
    + exists ((x ++ drop (base (subs s j)) l) ++ [ev]). rewrite (drop_ge (l ++ [ev])) by (rewrite length_app; simpl; lia). by rewrite app_nil_r.
  - exists [ev]. by rewrite Eb, drop_all, app_nil_r.
Qed.

Lemma behind_sublist ev j s l :
  behind ev j s \/ got (subs s j) = [] /\ base (subs s j) = length (published s) -> published s = l ++ [ev] -> got (subs s j) `sublist_of` l.
Proof.
  intros [(l' & x & El' & Hs & _)|[-> _]] El; [|apply sublist_nil_l]. rewrite El in El'. by apply app_inj_tail in El' as [-> _].
Qed.

Lemma enqueue_safe ev j js n φ :
  j ∉ js -> T Sup (handing ev (j :: js) None n φ) (crit (QEnqueue j) (fun s => (on_sub j (enqueue ev) s, tt)) : M unit) (fun _ => handing ev js (Some j) n φ).
Proof.
  intros Hj. apply triple_crit; [apply handing_stable|]. intros s Hi (Hd & Hc & Hφ & Hl & Hb & Ha & Hw). cbn [fst snd].
  split; [split; [intros i Hi'; by specialize (Hw i Hi')|done]|]. destruct (enqueue_fields ev (subs s j)) as (Eg & Ed & Eh & Eb & Eo).
  set (s' := on_sub j (enqueue ev) s). pose proof (Hb j ltac:(by left)) as Hbj. split; [|split].
  - simpl. split_and!; try done. intros i. destruct (decide (j = i)) as [<-|Hne].
    + rewrite fn_lookup_alter. split_and!; [done..|]. intros _. by do 2 right.
    + by rewrite fn_lookup_alter_ne.
  - apply Inv_on_sub; [done|]. pose proof (inv_subs s Hi j) as Hok. destruct (inv_legal s Hi) as (m & Hm & _). pose proof (inv_numbered s Hi) as Hn.
    destruct Hl as [l El]. pose proof (behind_sublist ev j s l Hbj El) as Hs. rewrite El in *. by eapply sub_ok_enqueue.
  - split; [done|]. split; [done|]. split; [done|]. split; [done|]. unfold behind, complete, owes. split_and!.
    + intros i Hin. unfold s'. rewrite subs_on, decide_False by (intros ->; done). apply Hb. by right.
    + intros i Hin Hn. unfold s'. rewrite subs_on. case_decide as E; [|apply Ha; [done|]; rewrite not_elem_of_cons; split; [congruence|done]].
      subst i. by apply (behind_complete ev j s).
    + intros i. unfold s'. rewrite subs_on. case_decide as E; [by subst|]. intros Ho. by specialize (Hw i Ho).
Qed.

Lemma signal_safe ev j js n φ :
  T Sup (handing ev js (Some j) n φ) (crit (QWake j) (fun s => (on_sub j signal s, tt)) : M unit) (fun _ => handing ev js None n φ).
Proof.
  apply triple_crit; [apply handing_stable|]. intros s Hi (Hd & Hc & Hφ & Hl & Hb & Ha & Hw). cbn [fst snd].
  split; [split; [intros i Ho; by injection (Hw i Ho) as ->|done]|]. split; [|split].
  - simpl. split_and!; try done. intros i. destruct (decide (j = i)) as [<-|Hne].
    + rewrite fn_lookup_alter. split_and!; [done..|]. intros _. right. by left.
    + by rewrite fn_lookup_alter_ne.
  - apply Inv_on_sub; [done|]. by apply sub_ok_signal, inv_subs.
  - assert (Es : forall i, got (subs (on_sub j signal s) i) = got (subs s i) /\ base (subs (on_sub j signal s) i) = base (subs s i)).
    { intros i. rewrite subs_on. case_decide; [by subst|done]. }
    split; [done|]. split; [done|]. split; [done|]. split; [done|]. unfold behind, complete, owes. split_and!.
    + intros i Hin. destruct (Es i) as [-> ->]. by apply Hb.
    + intros i Hin Hn. destruct (Es i) as [-> ->]. by apply Ha.
    + intros i. rewrite subs_on. case_decide; [done|]. intros Ho. by specialize (Hw i Ho) as [= ?].
Qed.

Lemma enqueue_all_safe ev js n φ : NoDup js -> T Sup (handing ev js None n φ) (enqueue_all ev js) (fun _ => sup_at n φ).
Proof.
  induction js as [|j js IH]; intros Hnd; cbn [enqueue_all].
  { apply triple_ret. intros s _ (? & ? & ? & _ & _ & Ha & Hw). split_and!; try done.
    split; [intros j Hj; by specialize (Hw j Hj)|]. intros j Hj. apply Ha; [done|apply not_elem_of_nil]. }
  apply NoDup_cons in Hnd as [Hj Hnd]. eapply triple_bind; [by apply enqueue_safe|]. intros []. eapply triple_bind; [apply signal_safe|].
  intros []. by apply IH.
Qed.

Lemma publish_safe n k t e g (φ ψ : Z -> list Event -> Prop) :
  allows k t e g φ ψ -> T Sup (sup_at n φ) (publish k t e g) (fun _ => sup_at n ψ).
Proof.
  intros Hal. unfold publish. set (told ev s := doneCh s = false /\ n <= clock s /\ ψ (taken s) (published s) /\ (exists l, published s = l ++ [ev]) /\
    (forall j, j ∈ live s -> behind ev j s \/ got (subs s j) = [] /\ base (subs s j) = length (published s)) /\ forall j, ~ owes j s).
  eapply triple_bind with (Mid := told).
  { apply triple_crit; [apply sup_at_stable|].
    intros s Hi Hs. pose proof (sup_at_At n φ QStamp s Hs) as HAt. destruct Hs as (Hd & Hc & Hφ & Hno & Hcomp). cbn [fst snd]. set (ev := mkEvent k t e (u64 (seqno s + 1)) g (length (published s))).
    destruct (Hal (taken s) (published s) ev Hφ eq_refl eq_refl eq_refl eq_refl (inv_budget s Hi)) as ((m & m' & Hm & Hl & Hgm) & Hb & Hψ).
    assert (Hseq : Seq ev = u64 (Z.of_nat (length (published s)) + 1)) by (simpl; by rewrite (inv_seqno s Hi), u64_add_l).
    split; [done|]. split; [|split].
    - simpl. split_and!; try done. congruence.
    - pose proof (inv_numbered s Hi) as Hn. constructor; simpl.
      + exists m'. split; [by eapply follows_snoc|done].
      + apply Hi.
      + by apply numbered_snoc.
      + rewrite length_app. simpl. rewrite (inv_seqno s Hi), u64_add_l. f_equal. lia.
      + by rewrite charged_snoc.
      + intros j. apply sub_ok_publish; [done|done|by apply inv_subs].
    - split; [done|]. split; [done|]. split; [done|]. split; [by exists (published s)|]. split; [|done]. intros j Hj. left. destruct (Hcomp j Hj) as [x Ex].
      exists (published s), x. split; [done|]. split; [apply (so_got _ _ (inv_subs s Hi j))|done]. }
  intros ev. eapply triple_bind with (Mid := fun js s => NoDup js /\ handing ev js None n ψ s).
  { apply triple_act.
    - intros s s' Hi Hi' HR (Hd & Hc & Hψ & Hl & Hb & Hno).
      assert (forall j, ~ owes j s') by (intros j Hj; by apply (Hno j), (Rel_owed s s')). destruct (Rel_sup s s' HR) as ((Eg & _ & Ec & Ed & Ep) & Hs).
      unfold told, behind in *. rewrite Eg, Ec, Ed, Ep. split_and!; try done.
      intros j Hin. destruct (Hs j) as [(-> & -> & Hlv)|[-> ->]]; [by apply Hb, Hlv|]. by right.
    - intros s _ (_ & _ & _ & _ & _ & Hno). split; [intros j Hj; by destruct (Hno j)|done].
    - intros s x Hi Hs. assert (Hstay : Guar Sup QSubs s s /\ Inv s /\ told ev s) by (split; [apply sup_Guar_refl|done]).
      destruct x; try exact Hstay. case_decide as Hl; [|exact Hstay]. cbn [fst snd]. split; [apply sup_Guar_refl|]. split; [done|].
      apply triple_ret. intros ? _ <-. destruct Hl as [Hnd Hset], Hs as (? & ? & ? & ? & Hb & Hno). split; [done|]. split_and!; try done.
      + intros j Hj. apply Hb. rewrite <- Hset. by apply elem_of_list_to_set.
      + intros j Hj Hn. destruct Hn. rewrite <- Hset in Hj. by apply elem_of_list_to_set in Hj.
      + intros j Hj. by destruct (Hno j). }
  intros js s Hi [Hnd HP]. by apply (enqueue_all_safe ev js n ψ Hnd).
Qed.

(** ** The supervisor's program *)

(** [spent used ready l]: what the budget shows of the events so far. *)
Definition spent (used : Z) (ready : option Z) (l : list Event) : Prop :=
  0 <= used /\ fst (charged cfg l) = ready /\ snd (charged cfg l) <= used.

Definition is_down (used : Z) (gen : Z) (l : list Event) : Prop :=
  0 <= used /\ snd (charged cfg l) <= used /\ exists last, follows cfg l (Down last) /\ last <= gen.

(** Below, [w] is the word of a generation [g] the supervisor has taken. *)
Definition at_gen (w gen : Z) (l : list Event) (m : Z -> mode) : Prop :=
  exists g, w = u64 g /\ g <= gen /\ follows cfg l (m g).

Definition is_up (v : serving) (gen : Z) (l : list Event) : Prop :=
  spent (restartsUsed v) (Some (readySince v)) l /\ at_gen (cur v) gen l Up /\ missed v < MissedHeartbeats (applyDefaults cfg).

(** An instance of generation [w] that can be said to have ended with [e]. *)
Definition is_ending (used : Z) (ready : option Z) (w : Z) (e : error) (gen : Z) (l : list Event) : Prop :=
  spent used ready l /\ exists g m, w = u64 g /\ g <= gen /\ follows cfg l m /\
    forall ev, Kind ev = EventCrashed -> Err ev = Some e -> Gen ev = w -> legal cfg m ev (Dead g e).

Definition is_dead (used : Z) (w : Z) (e : error) (gen : Z) (l : list Event) : Prop :=
  0 <= used /\ snd (charged cfg l) <= used /\ at_gen w gen l (fun g => Dead g e).

Definition is_launching (used w : Z) (gen : Z) (l : list Event) : Prop := spent used None l /\ at_gen w gen l Launching.

Lemma missed_positive : 0 < MissedHeartbeats (applyDefaults cfg).
Proof. unfold applyDefaults. simpl. destruct (MissedHeartbeats cfg <=? 0) eqn:E; lia. Qed.

Lemma allows_crashed used used' ready g e t d :
  used' = effectiveRestartsUsed (ResetWindow cfg) d used -> match ready with Some r => d <= t - r | None => d = 0 end ->
  allows EventCrashed t (Some e) g (is_ending used ready g e) (is_dead used' g e).
Proof.
  intros -> Hd gen l ev ((Hu & Er & Hs) & g0 & m & Hw & Hg & Hf & Hleg) Ek Et Ee Eg Hb. pose proof (Hleg ev Ek Ee Eg) as Hl.
  assert (Hcharge : snd (charge cfg (charged cfg l) ev) = match ready with
    | Some r => if (0 <? ResetWindow cfg) && (ResetWindow cfg <=? t - r) then 0 else snd (charged cfg l) | None => snd (charged cfg l) end).
  { unfold charge. rewrite Ek, Er, Et. by destruct ready. }
  split; [by exists m, (Dead g0 e)|]. rewrite Hcharge. split; [destruct ready as [r|]; [destruct (_ && _)|]; lia|].
  unfold is_dead. rewrite charged_snoc, Hcharge. unfold effectiveRestartsUsed.
  split; [destruct (_ && _); lia|]. split; [|exists g0; split_and!; [done|done|by eapply follows_snoc]].
  destruct ready as [r|].
  - destruct ((0 <? ResetWindow cfg) && (ResetWindow cfg <=? d)) eqn:E1; destruct ((0 <? ResetWindow cfg) && (ResetWindow cfg <=? t - r)) eqn:E2; lia.
  - destruct ((0 <? ResetWindow cfg) && (ResetWindow cfg <=? d)) eqn:E1; lia.
Qed.

Lemma allows_gave_up used w e t : allows EventGaveUp t (Some e) w (is_dead used w e) (fun _ _ => True).
Proof.
  intros gen l ev (Hu & Hs & g & -> & Hg & Hf) Ek Et Ee Eg Hb. assert (Hl : legal cfg (Dead g e) ev (Over g)) by (by apply legal_gave_up).
  split; [by exists (Dead g e), (Over g)|]. unfold charge. rewrite Ek. done.
Qed.

Lemma allows_restarting used w e t :
  used < RestartMax cfg -> incompatible e = false ->
  allows EventRestarting t None w (is_dead used w e) (is_down (used + 1)).
Proof.
  intros Hlt Hin gen l ev (Hu & Hs & g & -> & Hg & Hf) Ek Et Ee Eg Hb.
  assert (Hl : legal cfg (Dead g e) ev (Down g)) by (by eapply legal_restarting).
  split; [by exists (Dead g e), (Down g)|]. unfold is_down. rewrite charged_snoc. unfold charge. rewrite Ek. cbn [snd]. split; [lia|].
  split; [lia|]. split; [lia|]. exists g. split; [by eapply follows_snoc|done].
Qed.

Lemma allows_starting used w t :
  allows EventStarting t None w (fun gen l => w = u64 gen /\ is_down used (gen - 1) l) (is_launching used w).
Proof.
  intros gen l ev [-> (Hu & Hs & last & Hf & Hlt)] Ek Et Ee Eg Hb.
  assert (Hl : legal cfg (Down last) ev (Launching gen)) by (apply legal_starting; [done|done|done|lia]).
  split; [exists (Down last), (Launching gen); split_and!; [done|done|simpl; lia]|]. unfold is_launching, spent. rewrite charged_snoc.
  unfold charge. rewrite Ek. cbn [fst snd]. split; [done|]. split; [by split_and!|]. exists gen. split_and!; [done|lia|by eapply follows_snoc].
Qed.

Lemma allows_ready used w t :
  allows EventReady t None w (is_launching used w) (fun gen l => spent used (Some t) l /\ at_gen w gen l Up).
Proof.
  intros gen l ev ((Hu & Er & Hs) & g & -> & Hg & Hf) Ek Et Ee Eg Hb. assert (Hl : legal cfg (Launching g) ev (Up g)) by (by apply legal_ready).
  split; [by exists (Launching g), (Up g)|]. unfold spent. rewrite charged_snoc. unfold charge. rewrite Ek, Er. cbn [fst snd].
  split; [done|]. rewrite Et. split; [by split_and!|]. exists g. split_and!; [done|done|by eapply follows_snoc].
Qed.

Definition set_cur (g : Z) (v : serving) : serving := mkServing (restartsUsed v) (readySince v) g (missed v) (prev v) (tracker v).

Lemma allows_reloaded v w t :
  allows EventReady t None w (fun gen l => w = u64 gen /\ is_up v (gen - 1) l) (is_up (set_cur w v)).
Proof.
  intros gen l ev [-> ((Hu & Er & Hs) & (g & Hw & Hg & Hf) & Hm)] Ek Et Ee Eg Hb.
  assert (Hl : legal cfg (Up g) ev (Up gen)) by (apply legal_reloaded; [done|done|done|lia]).
  split; [exists (Up g), (Up gen); split_and!; [done|done|simpl; lia]|]. unfold is_up, spent. rewrite charged_snoc. unfold charge. rewrite Ek, Er.
  cbn [fst snd set_cur readySince restartsUsed cur missed]. split; [done|]. split; [by split_and!|]. split; [|done].
  exists gen. split_and!; [done|lia|by eapply follows_snoc].
Qed.

Lemma allows_unhealthy v e t :
  verdict cfg e ->
  allows EventUnhealthy t (Some e) (cur v) (is_up v) (is_ending (restartsUsed v) (Some (readySince v)) (cur v) e).
Proof.
  intros Hv gen l ev ((Hu & Er & Hs) & (g & Hw & Hg & Hf) & Hm) Ek Et Ee Eg Hb. rewrite Hw in Eg.
  assert (Hl : legal cfg (Up g) ev (Sick g e)) by (by apply legal_unhealthy).
  split; [by exists (Up g), (Sick g e)|]. unfold is_ending, spent. rewrite charged_snoc. unfold charge. rewrite Ek.
  split; [done|]. split; [by split_and!|]. exists g, (Sick g e). split_and!; [done|done|by eapply follows_snoc|].
  rewrite Hw. intros ev' ? ? ?. by apply legal_crashed.
Qed.

Definition sup_post (t : turn) (s : state) : Prop :=
  match t with
  | Starts used => exists n, sup_at n (is_down used) s
  | Beats v => exists n, sup_at n (is_up v) s
  | Returned => doneCh s = true /\ all_complete s
  | _ => False
  end.

Lemma returned_safe n φ : T Sup (sup_at n φ) returns sup_post.
Proof. eapply triple_conseq; [apply returns_safe|done|]. by intros t s _ [-> ?]. Qed.

Lemma gives_up_safe n used g e : T Sup (sup_at n (is_dead used g e)) (gives_up g e) sup_post.
Proof.
  unfold gives_up. eapply triple_bind; [apply time_now_safe|]. intros t.
  eapply triple_bind with (Mid := fun _ => sup_at t (fun _ _ => True)); [|intros []; apply returned_safe].
  eapply triple_conseq; [apply (publish_safe t _ _ _ _ _ _ (allows_gave_up used g e t))|by intros s _ [_ ?]|done].
Qed.

Lemma sleep_safe n φ d : T Sup (sup_at n φ) (sleep d) (fun _ => sup_at n φ).
Proof.
  unfold sleep. destruct (d <=? 0).
  - eapply triple_bind; [apply sup_reads|]. intros [|]; [by apply triple_ret|apply sup_reads].
  - apply triple_act; [apply sup_at_stable|intros s _; apply sup_at_At|]. intros s x Hi Hs.
    assert (Hret : forall b, T Sup (eq s) (Done b : M bool) (fun _ => sup_at n φ)) by (intros b; apply triple_ret; by intros ? _ <-).
    destruct x; cbn [fst snd]; (split; [apply sup_Guar_refl|split; [done|]]); try done; [destruct (ctxDone s)|destruct (stopCh s)]; [apply Hret|done|apply Hret|done].
Qed.

Lemma since_safe n φ ready :
  T Sup (sup_at n φ) (timeSinceOrZero ready)
    (fun d s => exists n', sup_at n' φ s /\ match ready with Some r => d = n' - r | None => d = 0 end).
Proof.
  unfold timeSinceOrZero. destruct ready as [r|].
  - eapply triple_bind; [apply time_now_safe|]. intros t. apply triple_ret. intros s _ [_ ?]. by exists t.
  - apply triple_ret. intros s _ ?. by exists n.
Qed.

Lemma sup_ex {A B} (P : B -> state -> Prop) (p : M A) Post : (forall b, T Sup (P b) p Post) -> T Sup (fun s => exists b, P b s) p Post.
Proof. intros H s Hi [b HP]. by apply (H b). Qed.
Lemma sup_pure {A} (φ : Prop) (P : state -> Prop) (p : M A) Post : (φ -> T Sup P p Post) -> T Sup (fun s => φ /\ P s) p Post.
Proof. intros H s Hi [Hφ HP]. by apply (H Hφ). Qed.

Lemma crashed_safe n used ready g e : T Sup (sup_at n (is_ending used ready g e)) (crashed cfg used ready g e) sup_post.
Proof.
  unfold crashed. cbv zeta. eapply triple_bind; [apply since_safe|]. intros d. apply sup_ex. intros n'.
  set (used' := effectiveRestartsUsed (ResetWindow cfg) d used).
  eapply triple_bind with (Mid := fun t s => (match ready with Some r => d <= t - r | None => d = 0 end) /\ sup_at t (is_ending used ready g e) s).
  { intros s Hi [Hs Hd]. revert s Hi Hs. change (T Sup (sup_at n' (is_ending used ready g e)) time_now
      (fun t s => (match ready with Some r => d <= t - r | None => d = 0 end) /\ sup_at t (is_ending used ready g e) s)).
    eapply triple_conseq; [apply time_now_safe|done|]. intros t s _ [? ?]. split; [destruct ready; [lia|done]|done]. }
  intros t. apply sup_pure. intros Hd.
  eapply triple_bind; [by apply (publish_safe t _ _ _ _ _ _ (allows_crashed used used' ready g e t d eq_refl Hd))|]. intros [].
  eapply triple_bind; [apply stopping_safe|]. intros [|]; [apply returned_safe|].
  destruct (incompatible e) eqn:Hin; [apply gives_up_safe|]. destruct (RestartMax cfg <=? used') eqn:Hmax; [apply gives_up_safe|]. bool_to_prop.
  eapply triple_bind; [apply time_now_safe|]. intros t'. apply sup_pure. intros _.
  eapply triple_bind; [by apply (publish_safe t' _ _ _ _ _ _ (allows_restarting used' g e t' Hmax Hin))|]. intros [].
  eapply triple_bind; [apply sleep_safe|]. intros [|]; [|apply returned_safe]. apply triple_ret. intros s _ ?. by exists t'.
Qed.

Lemma ends_safe n v stopped e :
  T Sup (sup_at n (is_ending (restartsUsed v) (Some (readySince v)) (cur v) e)) (ends cfg v stopped e) sup_post.
Proof.
  unfold ends. eapply triple_bind; [apply (sup_reads n _ QTeardown (fun _ => tt))|]. intros []. destruct stopped; [apply returned_safe|apply crashed_safe].
Qed.

(** An instance that is up may fail at any time. *)
Lemma up_ending v e gen l : failure e -> is_up v gen l -> is_ending (restartsUsed v) (Some (readySince v)) (cur v) e gen l.
Proof.
  intros He (Hs & (g & Hw & Hg & Hf) & _). split; [done|]. exists g, (Up g). split_and!; [done|done|done|].
  rewrite Hw. intros ev ? ? ?. by apply legal_failed.
Qed.

Lemma fails_safe n v stopped e : failure e -> T Sup (sup_at n (is_up v)) (ends cfg v stopped e) sup_post.
Proof.
  intros He. eapply triple_conseq; [apply (ends_safe n)| |done]. intros s _. apply sup_at_weaken; [lia|]. intros gen l. by apply up_ending.
Qed.

Lemma unhealthy_safe n v e : verdict cfg e -> T Sup (sup_at n (is_up v)) (unhealthy cfg v e) sup_post.
Proof.
  intros He. unfold unhealthy. eapply triple_bind; [apply time_now_safe|]. intros t. apply sup_pure. intros _.
  eapply triple_bind; [by apply (publish_safe t _ _ _ _ _ _ (allows_unhealthy v e t He))|]. intros []. apply ends_safe.
Qed.

Lemma run_top_safe n used : T Sup (sup_at n (is_down used)) (run_top cfg used) sup_post.
Proof.
  unfold run_top. eapply triple_bind; [apply stopping_safe|]. intros [|]; [apply returned_safe|].
  eapply triple_bind; [apply nextGeneration_safe|]. intros g. eapply triple_bind; [apply time_now_safe|]. intros t. apply sup_pure. intros _.
  eapply triple_bind; [apply (publish_safe t _ _ _ _ _ _ (allows_starting used g t))|]. intros [].
  eapply triple_bind; [apply sup_asks|]. intros [b|].
  - eapply triple_conseq; [apply (crashed_safe t used None g (ErrSpawn b))| |done]. intros s _. apply sup_at_weaken; [lia|].
    intros gen l (Hs & g0 & -> & Hg & Hf). split; [done|]. exists g0, (Launching g0). split_and!; [done..|].
    intros ev ? ? ?. by apply legal_spawn_failed.
  - eapply triple_bind; [apply time_now_safe|]. intros t'. apply sup_pure. intros _.
    eapply triple_bind; [apply (publish_safe t' _ _ _ _ _ _ (allows_ready used g t'))|]. intros []. apply triple_ret.
    intros s _ H. exists t'. revert H. apply sup_at_weaken; [lia|]. intros gen l (Hs & Hf). split; [done|]. split; [done|].
    simpl. apply missed_positive.
Qed.

Lemma sup_serviceReload_safe n v :
  T Sup (sup_at n (is_up v)) (serviceReload (cur v)) (fun r s => exists n', sup_at n' (is_up (set_cur (snd r) v)) s).
Proof.
  assert (Hsame : forall gen l, is_up v gen l -> is_up (set_cur (cur v) v) gen l) by done.
  unfold serviceReload. eapply triple_bind; [apply sup_asks|]. intros [waiting ended].
  destruct waiting; cbn [negb]; [|apply triple_ret; intros s _ ?; by exists n].
  destruct ended; [apply triple_ret; intros s _ ?; by exists n|]. eapply triple_bind; [apply nextGeneration_safe|]. intros g.
  eapply triple_bind; [apply sup_asks|]. intros [o promoted].
  eapply triple_bind with (Mid := fun _ s => exists n', sup_at n' (is_up (set_cur (if promoted then g else cur v) v)) s);
    [|intros []; apply triple_ret; by destruct o].
  destruct promoted.
  - eapply triple_bind; [apply time_now_safe|]. intros t. apply sup_pure. intros _.
    eapply triple_conseq; [apply (publish_safe t _ _ _ _ _ _ (allows_reloaded v g t))|done|]. intros [] s _ ?. by exists t.
  - apply triple_ret. intros s _ H. exists n. revert H. apply sup_at_weaken; [lia|].
    intros gen l [-> (? & (g0 & ? & ? & ?) & ?)]. split_and!; [done| |done]. exists g0. split_and!; [done|lia|done].
Qed.

Lemma is_up_beat v v' gen l :
  restartsUsed v' = restartsUsed v -> readySince v' = readySince v -> cur v' = cur v -> missed v' < MissedHeartbeats (applyDefaults cfg) ->
  is_up v gen l -> is_up v' gen l.
Proof. unfold is_up. intros -> -> -> ? (? & ? & _). by split_and!. Qed.

Lemma beat_turn_safe n v : T Sup (sup_at n (is_up v)) (beat_turn cfg v) sup_post.
Proof.
  pose proof missed_positive as Hpos.
  unfold beat_turn. cbv zeta. eapply triple_bind; [apply stopping_safe|]. intros [|]; [by apply fails_safe|].
  eapply triple_bind; [apply sup_asks|]. intros [|]; [by apply fails_safe|].
  assert (Hbeats : forall n v v', restartsUsed v' = restartsUsed v -> readySince v' = readySince v -> cur v' = cur v ->
    missed v' < MissedHeartbeats (applyDefaults cfg) -> T Sup (sup_at n (is_up v)) (mret (Beats v') : M turn) sup_post).
  { intros n0 v0 v' ? ? ? ?. apply triple_ret. intros s _ H'. exists n0. revert H'. apply sup_at_weaken; [lia|]. intros gen l. by apply is_up_beat. }
  eapply triple_bind; [apply sup_asks|]. intros [| | | |sample]; [|by apply fails_safe|by apply fails_safe| |].
  - (* a receive that timed out *)
    intros s Hi Hs. pose proof Hs as (_ & _ & (_ & _ & Hm) & _). revert s Hi Hs.
    assert (Hno : missed v < MissedHeartbeats (applyDefaults cfg) -> T Sup (sup_at n (is_up v))
      (if MissedHeartbeats (applyDefaults cfg) <=? missed v + 1
       then unhealthy cfg (mkServing (restartsUsed v) (readySince v) (cur v) (missed v + 1) (prev v) (tracker v)) (MissedHeartbeatsError (missed v + 1))
       else mret (Beats (mkServing (restartsUsed v) (readySince v) (cur v) (missed v + 1) (prev v) (tracker v)))) sup_post).
    { intros Hlt. destruct (_ <=? _) eqn:E; bool_to_prop; [|by apply (Hbeats n v)].
      eapply triple_bind; [apply time_now_safe|]. intros t. apply sup_pure. intros _.
      eapply triple_bind; [apply (publish_safe t _ _ _ _ _ _ (allows_unhealthy v (MissedHeartbeatsError (missed v + 1)) t ltac:(change (missed v + 1 = MissedHeartbeats (applyDefaults cfg)); lia)))|].
      intros []. apply (ends_safe t (mkServing (restartsUsed v) (readySince v) (cur v) (missed v + 1) (prev v) (tracker v))). }
    by apply Hno.
  - apply triple_ret. intros s _ ?. by exists n.
  - eapply triple_bind; [apply sup_serviceReload_safe|]. intros [[o bad] g]. cbn [snd]. apply sup_ex. intros n'. fold (set_cur g v).
    assert (Hack : T Sup (sup_at n' (is_up (set_cur g v)))
      (let '(w, (k, fire)) :=
         match prev (set_cur g v) with
         | Some p => let (class, wedge) := Classify p sample defaultHighWaterBytes in observe class wedge (Sequence sample) (tracker (set_cur g v))
         | None => (tracker (set_cur g v), (WedgeNone, false))
         end in
       if (fire : bool) then unhealthy cfg (mkServing (restartsUsed (set_cur g v)) (readySince (set_cur g v)) g 0 (prev (set_cur g v)) w) (WedgedError k)
       else mret (Beats (mkServing (restartsUsed (set_cur g v)) (readySince (set_cur g v)) g 0 (Some sample) w))) sup_post).
    { destruct (match prev (set_cur g v) with Some p => _ | None => _ end) as [w [k fire]]. destruct fire; [|by apply (Hbeats n' (set_cur g v))].
      eapply triple_conseq; [by apply (unhealthy_safe n' (mkServing (restartsUsed (set_cur g v)) (readySince (set_cur g v)) g 0 (prev (set_cur g v)) w))| |done].
      intros s _. apply sup_at_weaken; [lia|]. intros gen l. by apply is_up_beat. }
    destruct o; [exact Hack|by apply (Hbeats n' (set_cur g v))|exact Hack|by apply fails_safe].
Qed.

(** ** Forwarders *)

Definition free_hand (j : nat) (s : state) : Prop := j ∈ born s /\ hand (subs s j) = None.
Definition closing (j : nat) (s : state) : Prop := j ∈ born s /\ done (subs s j) = true.

Lemma free_hand_stable j : Stable (Fwd j) (free_hand j).
Proof. intros s s' _ _ HR [Hb Hh]. destruct (Rel_fwd j s s' HR Hb) as (? & Eh & _). split; [done|congruence]. Qed.
Lemma closing_stable j : Stable (Fwd j) (closing j).
Proof. intros s s' _ _ HR [Hb Hd]. destruct (Rel_fwd j s s' HR Hb) as (? & _ & H & _). split; auto. Qed.
Lemma alert_stable j : Stable (Fwd j) (fun s => free_hand j s /\ alert (subs s j)).
Proof.
  intros s s' Hi Hi' HR [Hf Ha]. split; [by apply (free_hand_stable j s s')|]. by apply (Rel_fwd j s s' HR (proj1 Hf)).
Qed.
Lemma sup_stable_and r (P Q : state -> Prop) : Stable r P -> Stable r Q -> Stable r (fun s => P s /\ Q s).
Proof. intros HP HQ s s' Hi Hi' HR [? ?]. split; [by apply (HP s s')|by apply (HQ s s')]. Qed.
Lemma sup_born_stable j : Stable (Fwd j) (fun s => j ∈ born s).
Proof. intros s s' _ _ HR Hb. by destruct (Rel_fwd j s s' HR Hb). Qed.

(** A step of the forwarder on its own subscriber. *)
Lemma fwd_upd j q f s :
  Inv s -> sub_ok (published s) (f (subs s j)) -> got (f (subs s j)) = got (subs s j) -> done (f (subs s j)) = done (subs s j) -> base (f (subs s j)) = base (subs s j) ->
  owed (f (subs s j)) = owed (subs s j) ->
  Guar (Fwd j) q s (on_sub j f s) /\ Inv (on_sub j f s).
Proof.
  intros Hi Hok Eg Ed Eb Eo. split; [|by apply Inv_on_sub]. simpl. unfold sup_same. split_and!; try done;
    [intros i Hne; by apply fn_lookup_alter_ne|by rewrite fn_lookup_alter..].
Qed.

Lemma on_sub_self j f s : subs (on_sub j f s) j = f (subs s j).
Proof. rewrite subs_on. by rewrite decide_True. Qed.

Lemma next_fields b : got (fst (next b)) = got b /\ done (fst (next b)) = done b /\ base (fst (next b)) = base b /\ owed (fst (next b)) = owed b /\
  (snd (next b) = None -> fst (next b) = b).
Proof. unfold next. destruct (ring_pop (crits b)) as [[? ?]|]; [done|]. by destruct (ring_pop (infos b)) as [[? ?]|]. Qed.

Lemma next_none l b : sub_ok l b -> snd (next b) = None -> alert b.
Proof.
  intros [Hc Hi _ _ _ _ _ _ _]. unfold next, ring_pop, alert. destruct Hc as (Lc & _ & Hhc & _), Hi as (Li & _ & Hhi & _).
  destruct (lookup_lt_is_Some_2 (buf (crits b)) (head (crits b))) as [x ->]; [congruence|].
  destruct (lookup_lt_is_Some_2 (buf (infos b)) (head (infos b))) as [y ->]; [congruence|].
  destruct (len (crits b)), (len (infos b)); try done. auto.
Qed.

Lemma tryHandOff_safe j :
  T (Fwd j) (closing j) (tryHandOff j) (fun _ s => free_hand j s /\ closing j s).
Proof.
  unfold tryHandOff. eapply triple_bind with (Mid := fun _ s => free_hand j s /\ closing j s).
  { apply triple_act; [apply closing_stable|done|]. intros s x Hi [Hb Hd]. pose proof (inv_subs s Hi j) as Hok.
    assert (Htake : Guar (Fwd j) (QTry j) s (on_sub j take_hand s) /\ Inv (on_sub j take_hand s)) by (apply fwd_upd; [done|by apply sub_ok_take|done..]).
    assert (Hdrop : Guar (Fwd j) (QTry j) s (on_sub j drop_hand s) /\ Inv (on_sub j drop_hand s)) by (apply fwd_upd; [done|by apply sub_ok_drop|done..]).
    destruct x; cbn [fst snd]; apply and_assoc; (split; [done|]); apply triple_ret; intros ? _ <-;
      (split; split; [done|by rewrite on_sub_self|done|by rewrite on_sub_self]). }
  intros ok. eapply triple_bind with (Mid := fun _ s => free_hand j s /\ closing j s); [|intros []; by apply triple_ret].
  apply triple_crit; [apply sup_stable_and; [apply free_hand_stable|apply closing_stable]|]. intros s Hi [[Hb Hh] [_ Hd]]. cbn [fst snd]. split; [done|].
  apply and_assoc. split; [apply fwd_upd; [done|apply sub_ok_clear; [by apply inv_subs|done]|done..]|].
  split; split; [done|by rewrite on_sub_self|done|by rewrite on_sub_self].
Qed.

Definition fwd_post (j : nat) (t : turn) (s : state) : Prop :=
  match t with
  | Forwards => free_hand j s
  | Rescues => free_hand j s /\ closing j s
  | Closed => j ∈ born s
  | _ => False
  end.

Lemma handed_off j (ok : bool) (P : state -> Prop) :
  (forall s, P s -> free_hand j s /\ closing j s) -> T (Fwd j) P (mret (if ok then Rescues else Closed) : M turn) (fwd_post j).
Proof. intros H. apply triple_ret. intros s _ HP. destruct (H s HP) as [[? ?] [? ?]]. destruct ok; [|done]. by split. Qed.

Lemma rescue_safe j : T (Fwd j) (fun s => free_hand j s /\ closing j s) (rescue_turn j) (fwd_post j).
Proof.
  unfold rescue_turn. eapply triple_bind with (Mid := fun e s => j ∈ born s /\ done (subs s j) = true).
  { apply triple_crit; [apply sup_stable_and; [apply free_hand_stable|apply closing_stable]|]. intros s Hi [[Hb Hh] [_ Hd]].
    destruct (next_fields (subs s j)) as (Eg & Ed & Eb & Eo & _). pose proof (sub_ok_next _ _ (inv_subs s Hi j) Hh) as Hok.
    destruct (next (subs s j)) as [b e]. cbn [fst snd] in *. split; [done|]. apply and_assoc. split; [by apply fwd_upd|].
    split; [done|]. rewrite on_sub_self. congruence. }
  intros [e|]; [|apply triple_ret; by intros s _ [? _]]. eapply triple_bind; [apply tryHandOff_safe|]. intros ok. by apply handed_off.
Qed.

Lemma forward_safe j : T (Fwd j) (free_hand j) (forward_turn j) (fwd_post j).
Proof.
  unfold forward_turn. eapply triple_bind with (Mid := fun e s => j ∈ born s /\ (e = None -> hand (subs s j) = None /\ alert (subs s j))).
  { apply triple_crit; [apply free_hand_stable|]. intros s Hi [Hb Hh]. destruct (next_fields (subs s j)) as (Eg & Ed & Eb & Eo & En). pose proof (next_none _ _ (inv_subs s Hi j)) as Hem.
    pose proof (sub_ok_next _ _ (inv_subs s Hi j) Hh) as Hok.
    destruct (next (subs s j)) as [b e]. cbn [fst snd] in *. split; [done|]. apply and_assoc. split; [by apply fwd_upd|].
    split; [done|]. intros He. rewrite on_sub_self, (En He). split; [done|by apply Hem]. }
  intros [e|].
  - eapply triple_bind with (Mid := fun (sent : bool) s => if sent then free_hand j s else closing j s).
    { apply triple_act; [intros s s' _ _ HR [Hb _]; by destruct (Rel_fwd j s s' HR Hb)|done|]. intros s x Hi [Hb _].
      destruct x; cbn [fst snd]; try (split; [apply sup_Guar_refl|done]).
      - apply and_assoc. split; [apply fwd_upd; [done|by apply sub_ok_take, inv_subs|done..]|]. apply triple_ret. intros ? _ <-.
        split; [done|]. by rewrite on_sub_self.
      - split; [apply sup_Guar_refl|]. split; [done|]. destruct (done (subs s j)) eqn:Ed; [|done]. apply triple_ret. by intros ? _ <-. }
    intros [|].
    + apply triple_crit; [apply free_hand_stable|]. intros s Hi [Hb Hh]. cbn [fst snd]. split; [done|]. apply and_assoc.
      split; [apply fwd_upd; [done|apply sub_ok_clear; [by apply inv_subs|done]|done..]|]. split; [done|]. by rewrite on_sub_self.
    + eapply triple_bind; [apply tryHandOff_safe|]. intros ok. by apply handed_off.
  - eapply triple_conseq with (P := fun s => free_hand j s /\ alert (subs s j)); [|intros s _ [? H]; destruct (H eq_refl); by split|done].
    apply triple_act; [apply alert_stable|by intros s _ [_ ?]|]. intros s x Hi [[Hb Hh] Hal].
    assert (Hwake : forall q, let r := (if wake (subs s j) then (on_sub j (with_wake false) s, Some (Done Forwards : M turn)) else (s, None)) in
      Guar (Fwd j) q s (fst r) /\ Inv (fst r) /\ match snd r with Some p => T (Fwd j) (eq (fst r)) p (fwd_post j) | None => free_hand j (fst r) /\ alert (subs (fst r) j) end).
    { intros q. destruct (wake (subs s j)); cbn [fst snd]; [|split; [apply sup_Guar_refl|done]]. apply and_assoc.
      split; [apply fwd_upd; [done|by apply sub_ok_wake, inv_subs|done..]|]. apply triple_ret. intros ? _ <-. split; [done|]. by rewrite on_sub_self. }
    destruct x; try apply Hwake. cbn [fst snd]. split; [apply sup_Guar_refl|]. split; [done|].
    destruct (done (subs s j)) eqn:Ed; [|done]. apply triple_ret. by intros ? _ <-.
Qed.

(** ** Subscribers and stoppers *)

Lemma unborn_stable j : Stable (Sub j) (fun s => j ∉ born s).
Proof. intros s s' _ _ HR H. by rewrite (Rel_sub j s s' HR). Qed.

Lemma always_stable r : Stable r (fun _ => True).
Proof. by intros s. Qed.

Lemma subscription_safe j : T (Sub j) (fun s => j ∉ born s) (subscription j) (fun _ _ => True).
Proof.
  unfold subscription. eapply triple_bind with (Mid := fun _ _ => True).
  { apply triple_crit; [apply unborn_stable|]. intros s Hi Hb. cbn [fst snd]. split; [done|]. split; [|split; [|done]].
    - simpl. split; [done|]. split; [set_solver|]. split; [intros i Hne; by apply fn_lookup_alter_ne|]. split; [intros i Hne; set_solver|].
      right. rewrite fn_lookup_alter. split_and!; [done|done|set_solver].
    - pose proof (Inv_on_sub j (fun _ => new_sub (length (published s))) s Hi (sub_ok_new _ _)) as []. by constructor. }
  intros []. eapply triple_bind with (Mid := fun _ _ => True).
  { apply triple_crit; [apply always_stable|]. intros s Hi _. cbn [fst snd]. split; [done|]. split; [|split; [|done]].
    - simpl. split; [done|]. split; [done|]. split; [done|]. split; [done|]. left. split; [by left|set_solver].
    - destruct Hi. by constructor. }
  intros []. apply triple_crit; [apply always_stable|]. intros s Hi _. cbn [fst snd]. split; [done|]. split; [|split; [|done]].
  - simpl. split; [done|]. split; [done|]. split; [intros i Hne; by apply fn_lookup_alter_ne|]. split; [done|]. left. rewrite fn_lookup_alter. split; [by right|done].
  - apply Inv_on_sub; [done|]. by apply sub_ok_done, inv_subs.
Qed.

Definition stop_post (t : turn) (s : state) : Prop := t = StopNil -> doneCh s = true.

Lemma Stop_safe : T Stopper (fun _ => True) Stop stop_post.
Proof.
  unfold Stop. eapply triple_bind with (Mid := fun _ _ => True).
  { apply triple_crit; [apply always_stable|]. intros s Hi _. cbn [fst snd]. split; [done|]. split; [done|]. split; [|done]. destruct Hi. by constructor. }
  intros []. eapply triple_bind with (Mid := fun (b : bool) s => b = true -> doneCh s = true).
  { apply triple_act; [apply always_stable|done|]. intros s x Hi _.
    destruct x; cbn [fst snd]; (split; [apply sup_Guar_refl|split; [done|]]); try done.
    - apply triple_ret. by intros ? _ <-.
    - destruct (doneCh s) eqn:E; [|done]. apply triple_ret. by intros ? _ <-. }
  intros [|].
  - apply triple_ret. intros s _ H _. by apply H.
  - eapply triple_conseq with (P := fun _ => True); [|done|done]. apply triple_crit; [apply always_stable|]. intros s Hi _. cbn [fst snd].
    split; [done|]. split; [apply sup_Guar_refl|]. split; [done|]. unfold stop_post. by destruct (doneCh s).
Qed.

Lemma cancel_safe : T Canceler (fun _ => True) cancel (fun _ _ => True).
Proof.
  apply triple_crit; [apply always_stable|]. intros s Hi _. cbn [fst snd]. split; [done|]. split; [done|]. split; [|done]. destruct Hi. by constructor.
Qed.

(** Before its subscription a subscriber's hand is empty. *)
Lemma idle_hand_stable j : Stable (Fwd j) (fun s => hand (subs s j) = None).
Proof.
  intros s s' _ _ (r & q & Hr & HG) H. destruct r as [| | |i|i]; simpl in HG.
  - destruct HG as (_ & _ & _ & _ & Hs & _). by destruct (Hs j) as (_ & -> & _).
  - by destruct HG as (_ & _ & _ & ->).
  - by destruct HG as (_ & _ & _ & ->).
  - destruct HG as (_ & _ & Ho & _ & Hj). destruct (decide (i = j)) as [->|Hne]; [|by rewrite (Ho j) by done].
    by destruct Hj as [[[-> | ->] _]|(-> & _ & _)].
  - destruct HG as (_ & _ & _ & Ho & _). by rewrite (Ho j) by congruence.
Qed.

Lemma await_safe j : T (Fwd j) (fun s => hand (subs s j) = None) (await_subscribed j) (fwd_post j).
Proof.
  apply triple_act; [apply idle_hand_stable|done|]. intros s x Hi Hh. cbn [fst snd]. split; [apply sup_Guar_refl|]. split; [done|].
  case_decide; [|done]. apply triple_ret. by intros ? _ <-.
Qed.

(** ** Every schedule *)

Definition Post (r : role) (t : turn) (s : state) : Prop :=
  match r with Sup => sup_post t s | Stopper => stop_post t s | Fwd j => fwd_post j t s | _ => True end.

Lemma sup_Post_stable r t : Stable r (Post r t).
Proof.
  intros s s' Hi Hi' HR. destruct r as [| | |j|j]; cbn [Post]; try done.
  - destruct (Rel_sup s s' HR) as ((_ & _ & _ & Ed & _) & _). destruct t as [used|v| | | | | | |]; cbn [sup_post]; try done.
    + intros [n H]. exists n. by apply (sup_at_stable n _ s s').
    + intros [n H]. exists n. by apply (sup_at_stable n _ s s').
    + intros [H Ha]. split; [by rewrite Ed|by apply (all_complete_stable s s')].
  - unfold stop_post. destruct HR as (r & q & Hr & HG). intros H E. specialize (H E).
    destruct r; simpl in HG; [by apply HG|done|..]; destruct HG as ((_ & _ & _ & Ed & _) & _); congruence.
  - destruct t; cbn [fwd_post]; try done; [by apply (free_hand_stable j s s')| |by apply (sup_born_stable j s s')].
    intros [? ?]. split; [by apply (free_hand_stable j s s')|by apply (closing_stable j s s')].
Qed.

Lemma pairs_lookup {A} (f g : nat -> A) m n i x :
  (List.seq m n ≫= fun j => [f j; g j]) !! i = Some x -> x = match (i mod 2)%nat with O => f (m + i / 2)%nat | _ => g (m + i / 2)%nat end.
Proof.
  revert m i. induction n as [|n IH]; intros m i; [done|]. cbn [List.seq]. rewrite bind_cons.
  destruct i as [|[|i]]; cbn [lookup list_lookup app]; [intros [= <-]; by rewrite Nat.add_0_r..|].
  intros E%IH. replace (S (S i)) with (i + 1 * 2)%nat by lia.
  rewrite Nat.Div0.mod_add, Nat.div_add by done. replace (m + (i / 2 + 1))%nat with (S m + i / 2)%nat by lia. done.
Qed.

Lemma sup_fresh_Inv : Inv fresh_state.
Proof.
  constructor; simpl; try done.
  - exists (Down 0). split; [constructor|done].
  - unfold charged. simpl. lia.
  - intros _. apply sub_ok_new.
Qed.

Notation sound := (pool_ok Inv Rel Guar At role_of Post).

Lemma supervised_ok n : sound (supervised cfg n).
Proof.
  split; [apply sup_fresh_Inv|]. intros [|[|[|i]]] g Hg.
  - injection Hg as <-. eapply (keeps_start _ _ _ _ _ sup_Post_stable Sup) with (P := sup_at 0 (is_down 0)); [|apply run_top_safe|apply sup_fresh_Inv|].
    + intros [used|v| | | | | | |] p; try done; intros [= <-]; intros s Hi [n0 H]; [by apply (run_top_safe n0)|by apply (beat_turn_safe n0)].
    + split; [done|]. split; [done|]. split; [|split; [done|intros j Hj; set_solver]]. split; [done|]. split; [unfold charged; simpl; lia|]. exists 0. split; [constructor|done].
  - injection Hg as <-. eapply (keeps_start _ _ _ _ _ sup_Post_stable Stopper) with (P := fun _ => True); [by intros a p|apply Stop_safe|apply sup_fresh_Inv|done].
  - injection Hg as <-. eapply (keeps_start _ _ _ _ _ sup_Post_stable Canceler) with (P := fun _ => True); [by intros a p|apply cancel_safe|apply sup_fresh_Inv|done].
  - cbn [fst supervised snd] in *. apply pairs_lookup in Hg. cbn [role_of Nat.add] in *. set (j := (i / 2)%nat) in *.
    destruct (i mod 2)%nat; subst g.
    + eapply (keeps_start _ _ _ _ _ sup_Post_stable (Sub j)) with (P := fun s => j ∉ born s); [by intros a p|apply subscription_safe|apply sup_fresh_Inv|].
      simpl. set_solver.
    + eapply (keeps_start _ _ _ _ _ sup_Post_stable (Fwd j)) with (P := fun s => hand (subs s j) = None); [|apply await_safe|apply sup_fresh_Inv|done].
      intros t p. destruct t; try done; intros [= <-]; [apply forward_safe|apply rescue_safe].
Qed.

Lemma supervised_reached n ms : sound (prun ms (supervised cfg n)).
Proof. apply (pool_ok_run _ _ _ _ _ _ sup_Compatible sup_Post_stable), supervised_ok. Qed.

Lemma sup_done_final n ms ms' :
  let c := prun ms (supervised cfg n) in
  doneCh (snd c) = true -> published (snd (prun ms' c)) = published (snd c) /\ doneCh (snd (prun ms' c)) = true.
Proof.
  intros c. apply (pool_ok_rel Inv Rel Guar At role_of Post sup_Compatible sup_Post_stable
    (fun s s' => doneCh s = true -> published s' = published s /\ doneCh s' = true)); [done| | |apply supervised_reached].
  - intros a b d H1 H2 Ha. destruct (H1 Ha) as [E1 Hb]. destruct (H2 Hb) as [E2 Hd]. split; [congruence|done].
  - intros r q s s' _ _ _ HG Hd. destruct r; simpl in HG; [by apply HG|..]; destruct HG as ((_ & _ & _ & E & ->) & _); split; congruence.
Qed.

End safety.

(** ** What holds of every run *)

(** Starts and restarts. *)
Notation of_kind k l := (filter (fun e => Kind e = k) l).

Lemma of_kind_snoc k l e : length (of_kind k (l ++ [e])) = (length (of_kind k l) + if decide (Kind e = k) then 1 else 0)%nat.
Proof. rewrite filter_app, filter_cons, length_app. by case_decide. Qed.

Lemma starts_restarts cfg l m :
  follows cfg l m ->
  length (of_kind EventStarting l) = (length (of_kind EventRestarting l) + match m with Down _ => 0 | _ => 1 end)%nat.
Proof.
  induction 1 as [|l m e m' _ IH Hl]; [done|]. rewrite !of_kind_snoc.
  destruct Hl as [last g e Ek|g e Ek|g e b Ek|g g' e Ek|g e r Ek|g e r Ek|g e r Ek|g e r Ek|g e r Ek]; rewrite Ek; repeat case_decide; try done; lia.
Qed.

Lemma charged_no_reset cfg l : ResetWindow cfg <= 0 -> snd (charged cfg l) = Z.of_nat (length (of_kind EventRestarting l)).
Proof.
  intros Hw. induction l as [|e l IH] using rev_ind; [done|]. rewrite charged_snoc, of_kind_snoc. unfold charge.
  destruct (Kind e); cbn [snd]; rewrite ?IH; repeat case_decide; try done; try lia.
  assert ((0 <? ResetWindow cfg) = false) as -> by lia. destruct (fst _); cbn [andb]; rewrite ?IH; lia.
Qed.

(** Generations never fall, and every instance announced has a larger one than
    anything before it. *)
Definition growing (l : list Event) : Prop :=
  forall i j e e', (i < j)%nat -> l !! i = Some e -> l !! j = Some e' ->
    Gen e <= Gen e' /\ (Kind e' = EventStarting -> Gen e < Gen e').

Lemma growing_snoc l e :
  growing l -> (forall x, x ∈ l -> Gen x <= Gen e /\ (Kind e = EventStarting -> Gen x < Gen e)) -> growing (l ++ [e]).
Proof.
  intros H He i j x y Hij Hx Hy. assert (Hlt : (j < length (l ++ [e]))%nat) by (by eapply lookup_lt_Some).
  rewrite length_app in Hlt. simpl in Hlt. rewrite lookup_app_l in Hx by lia.
  apply lookup_app_Some in Hy as [Hy|[_ Hy]]; [by apply (H i j)|]. apply list_lookup_singleton_Some in Hy as [_ <-].
  apply He. by eapply list_elem_of_lookup_2.
Qed.

(** Until the counter wraps, generations on the wire grow as they are counted. *)
Lemma legal_gen cfg m e m' :
  legal cfg m e m' ->
  gen_of m <= gen_of m' /\ Gen e = u64 (gen_of m') /\ (Kind e = EventStarting -> gen_of m < gen_of m').
Proof. by destruct 1; simpl; split_and!; try lia; try done; intros E; congruence. Qed.

Lemma follows_growing cfg l m :
  follows cfg l m -> gen_of m < 2 ^ 64 -> 0 <= gen_of m /\ (forall x, x ∈ l -> Gen x <= gen_of m) /\ growing l.
Proof.
  induction 1 as [|l m e m' _ IH Hl]; intros Hb; [by split_and!; [|intros ? ?%elem_of_nil|]|].
  destruct (legal_gen _ _ _ _ Hl) as (Hle & Eg & Hst). destruct IH as (H0 & Hx & Hg); [lia|].
  rewrite u64_id in Eg by (split; simpl; lia). split_and!; [lia| |].
  - intros x [?%Hx|E%list_elem_of_singleton]%elem_of_app; [lia|subst x; lia].
  - apply growing_snoc; [done|]. intros x ?%Hx. split; [lia|]. intros ?%Hst. lia.
Qed.

(** C15: Whatever spawns, heartbeats, reloads, timers, Stop and cancellation do, the events a supervisor publishes carry
    the 64-bit word of their place in the order of publication and form a legal stream: each instance is announced,
    becomes ready or fails to start, may be replaced by later generations, gets at most one verdict on its health (for
    exactly the configured number of missed heartbeats, or a wedge), and ends in one crash that names that verdict or
    another failure; then the supervisor either restarts, unless the failure carries an incompatibility (of a spawn, or
    of a reload that could not be rolled back), or gives up for that very reason and says nothing more.  Every event
    carries the word of the generation it is about, none beyond those taken so far; as long as fewer than 2^64 have been
    taken, the generations on the events never fall and each announced instance has a larger one than all before. *)
Theorem supervisor_events_legal cfg n ms :
  let s := snd (prun ms (supervised cfg n)) in
  numbered (published s) /\
  (exists m, follows cfg (published s) m /\ gen_of m <= taken s) /\
  (taken s < 2 ^ 64 -> growing (published s)).
Proof.
  intros s. destruct (supervised_reached cfg n ms) as [Hi _]. destruct (inv_legal _ _ Hi) as (m & Hm & Hg).
  split; [apply Hi|]. split; [by exists m|]. intros Ht. eapply follows_growing; [exact Hm|]. fold s in Hg. lia.
Qed.

(** C25: The restart budget: counting the restarts since the last instance that was up for the reset window, by the times
    of the published events, a supervisor never exceeds its maximum; without a reset window it starts at most one
    instance more than that. *)
Theorem supervisor_restart_budget cfg n ms :
  let s := snd (prun ms (supervised cfg n)) in
  0 <= snd (charged cfg (published s)) <= Z.max 0 (RestartMax cfg) /\
  (ResetWindow cfg <= 0 -> Z.of_nat (length (of_kind EventStarting (published s))) <= 1 + Z.max 0 (RestartMax cfg)).
Proof.
  intros s. destruct (supervised_reached cfg n ms) as [Hi _]. pose proof (inv_budget _ _ Hi) as Hb. split; [done|]. intros Hw.
  rewrite (charged_no_reset _ _ Hw) in Hb. destruct (inv_legal _ _ Hi) as (m & Hm & _). pose proof (starts_restarts _ _ _ Hm) as Hs.
  fold s in Hb, Hs, Hm. rewrite Hs. destruct m; lia.
Qed.

(** C16: A subscriber that never reads, or reads at any pace, keeps the latest failure whole: of the events handed to it,
    every critical one of the last incident is still queued or has been popped, in publication order, and a critical
    event is only ever dropped when it belongs to an earlier incident.  Informational events dropped for room are counted
    exactly.  Until it unsubscribes, what was popped is what receivers took and at most the one event in hand; when its
    probe reports it idle, nothing is queued or in hand.  And whenever the supervisor waits for its plugin, or has
    returned, every subscriber has been handed every event published since it subscribed. *)
Theorem bus_keeps_latest_incident cfg n ms j :
  let c := prun ms (supervised cfg n) in let s := snd c in let b := subs s j in
  got b `sublist_of` published s /\
  (forall e, e ∈ got b -> e ∈ incident (published s) -> e ∈ queued (crits b) \/ e ∈ out b) /\
  only true (out b) ++ queued (crits b) `sublist_of` only true (got b) /\
  (length (only false (got b)) = length (queued (infos b)) + length (only false (out b)) + length (shed b))%nat /\
  droppedInformational b = u64 (Z.of_nat (length (shed b))) /\
  (done b = false -> out b = delivered b ++ match hand b with Some e => [e] | None => [] end) /\
  (quiesced b = true -> queued (crits b) = [] /\ queued (infos b) = [] /\ hand b = None) /\
  (forall g, fst c !! 0%nat = Some g -> j ∈ live s -> at_query g = Some QRecv \/ at_query g = Some QSleep \/ now g = Done Returned ->
     exists x, got b = x ++ drop (base b) (published s)).
Proof.
  intros c s b. pose proof (supervised_reached cfg n ms) as Hok. pose proof Hok as [Hi Hgo].
  pose proof (inv_subs _ _ Hi j) as [Hc Hin Hg (lf & E & Hp & Hs) (lf' & E' & Hp' & Hs') Hd Hl Hh Ho]. fold c s b in Hc, Hin, Hg, E, Hp, Hs, E', Hp', Hs', Hd, Hl, Hh, Ho.
  split; [done|]. split; [|split; [|split; [|split; [done|split; [done|split]]]]].
  - intros e He Hinc. destruct (incident_suffix (published s)) as [pre Epre].
    assert (Hcrit : e ∈ only true (published s)) by (rewrite Epre; apply elem_of_app; by right). apply list_elem_of_filter in Hcrit as [Hcrit _].
    assert (Hg' : e ∈ only true (got b)) by (by apply list_elem_of_filter). rewrite E in Hg'. apply elem_of_app in Hg' as [Hlf|?]; [|by left].
    rewrite Hp in Hlf. apply elem_of_app in Hlf as [Hout|Hlost]; [right; by apply list_elem_of_filter in Hout as [_ ?]|]. by destruct (Hl e Hlost).
  - rewrite E. by apply sublist_app.
  - rewrite E', length_app, (Permutation_length Hp'), length_app. lia.
  - unfold quiesced. intros Hq. apply andb_prop in Hq as [Hq Hsend]. apply andb_prop in Hq as [Hq1 Hq2]. apply bool_decide_eq_true in Hq1, Hq2.
    apply negb_true_iff in Hsend. split; [|split].
    + apply nil_length_inv. by rewrite queued_length.
    + apply nil_length_inv. by rewrite queued_length.
    + destruct (hand b) eqn:Eh; [|done]. rewrite Hh in Hsend; [done|]. done.
  - intros g Hgg Hj [Hq|[Hq|Hd']].
    + exact (proj2 (proj2 (pool_ok_at _ _ _ _ _ _ _ _ _ _ Hok Hgg Hq)) j Hj).
    + exact (proj2 (proj2 (pool_ok_at _ _ _ _ _ _ _ _ _ _ Hok Hgg Hq)) j Hj).
    + exact (proj2 (proj2 (pool_ok_done _ _ _ _ _ _ _ _ _ _ Hok Hgg Hd')) j Hj).
Qed.

(** Stop's nil is a join: when Stop has returned nil, Run has returned, and whatever happens next no event is
    published any more. *)
Theorem stop_nil_is_final cfg n ms ms' g :
  let c := prun ms (supervised cfg n) in
  fst c !! 1%nat = Some g -> now g = Done StopNil ->
  doneCh (snd c) = true /\ published (snd (prun ms' c)) = published (snd c).
Proof.
  intros c Hg Hd. assert (Hdone : doneCh (snd c) = true) by exact (pool_ok_done _ _ _ _ _ _ _ _ _ _ (supervised_reached cfg n ms) Hg Hd eq_refl).
  split; [done|]. by apply (sup_done_final cfg n ms ms').
Qed.

Lemma role_of_forward j : role_of (4 + 2 * j) = Fwd j.
Proof.
  change (4 + 2 * j)%nat with (S (S (S (1 + 2 * j)))). cbn [role_of]. rewrite (Nat.mul_comm 2), Nat.Div0.mod_add, Nat.div_add by done. by simpl.
Qed.

(** Outside its signal the supervisor owes none. *)
Lemma owes_at_wake cfg n ms j g :
  let c := prun ms (supervised cfg n) in fst c !! 0%nat = Some g -> owes j (snd c) -> at_query g = Some (QWake j).
Proof.
  intros c Hg Ho. pose proof (supervised_reached cfg n ms) as Hok. destruct (now g) as [t|q f] eqn:E.
  - pose proof (pool_ok_done _ _ _ _ _ _ _ _ _ _ Hok Hg E) as Hp. cbn [role_of Post] in Hp. exfalso.
    destruct t; cbn [sup_post] in Hp; try done; [destruct Hp as (? & _ & _ & _ & Hc & _)..|destruct Hp as (_ & Hc & _)]; by apply (Hc j).
  - assert (Hq : at_query g = Some q) by (unfold at_query; by rewrite E). rewrite Hq. f_equal.
    by apply (proj1 (pool_ok_at _ _ _ _ _ _ _ _ _ _ Hok Hg Hq)).
Qed.

(** C24: No wake-up of a subscriber is lost: whenever its forwarder sleeps, either nothing is queued for it, or the signal that
    wakes it is there, or the publisher has just queued an event and its very next step sends the signal. *)
Theorem bus_no_lost_wakeup cfg n ms j g g0 :
  let c := prun ms (supervised cfg n) in let b := subs (snd c) j in
  fst c !! 0%nat = Some g0 -> fst c !! (4 + 2 * j)%nat = Some g -> at_query g = Some (QWait j) ->
  queued (crits b) = [] /\ queued (infos b) = [] \/ wake b = true \/ at_query g0 = Some (QWake j).
Proof.
  intros c b Hg0 Hg Hq. pose proof (pool_ok_at _ _ _ _ _ _ _ _ _ _ (supervised_reached cfg n ms) Hg Hq) as Ha. rewrite role_of_forward in Ha.
  destruct Ha as [[Ec Ei]|[Hw|Ho]]; [left|by right; left|right; right; by apply (owes_at_wake cfg n ms j g0)].
  split; apply nil_length_inv; by rewrite queued_length.
Qed.

(** ** A run

    A subscriber follows a plugin that starts, misses its three heartbeats,
    is restarted once, fails to start again for want of a budget, and is given
    up; Stop then joins.  Nobody receives, so the informational events wait
    behind the critical ones. *)
Definition sample_config : Config := mkConfig 0 0 1000 0 1 None.

Definition moves (i : nat) (l : list answer) : list (nat * answer) := (fun x => (i, x)) <$> l.

(** The two reads of the stop signals; a turn of the loop that hears nothing. *)
Definition polls : list answer := [ANone; ANone].
Definition silence : list answer := ANone :: polls ++ [ALost false; ARecv RecvTimeout].
(** An event with one subscriber. *)
Definition told (t : Z) : list answer := [AClock t; ANone; AOrder [0%nat]; ANone; ANone].

Definition run_given_up : list (nat * answer) :=
  moves 3 [ANone] ++
  moves 0 (polls ++ [ANone] ++ told 10 ++ [ASpawned None] ++ told 20) ++
  moves 0 (silence ++ silence ++ silence ++ told 30) ++
  moves 0 ([ANone; AClock 35] ++ told 40 ++ polls ++ told 50 ++ polls) ++
  moves 0 (ANone :: polls ++ [ANone] ++ told 60 ++ [ASpawned (Some false)] ++ told 70 ++ polls ++ told 80 ++ [ANone]) ++
  moves 1 [ANone; ADone].

Lemma run_given_up_events :
  (fun e => (Kind e, Gen e, Err e)) <$> published (snd (prun run_given_up (supervised sample_config 1))) =
  [(EventStarting, 1, None); (EventReady, 1, None); (EventUnhealthy, 1, Some (MissedHeartbeatsError 3));
   (EventCrashed, 1, Some (MissedHeartbeatsError 3)); (EventRestarting, 1, None); (EventStarting, 2, None);
   (EventCrashed, 2, Some (ErrSpawn false)); (EventGaveUp, 2, Some (ErrSpawn false))].
Proof. by vm_compute. Qed.

(** A reload whose successor was incompatible and whose rollback failed: the
    incompatibility, joined to the crash, ends the supervision with restarts to
    spare. *)
Definition run_bad_reload : list (nat * answer) :=
  moves 3 [ANone] ++
  moves 0 (polls ++ [ANone] ++ told 10 ++ [ASpawned None] ++ told 20) ++
  moves 0 (ANone :: polls ++ [ALost false; ARecv (Beat (mkSample 1 0 0 0 0 [] false false)); ARequest true false; ANone; ATransact (Crashes true) false]) ++
  moves 0 ([ANone; AClock 35] ++ told 40 ++ polls ++ told 50 ++ [ANone]).

Lemma incompatible_reload_gives_up :
  (fun e => (Kind e, Gen e, Err e)) <$> published (snd (prun run_bad_reload (supervised sample_config 1))) =
  [(EventStarting, 1, None); (EventReady, 1, None); (EventCrashed, 1, Some (ErrReload true)); (EventGaveUp, 1, Some (ErrReload true))].
Proof. by vm_compute. Qed.

Definition supervised_done (ms : list (nat * answer)) (i : nat) : option turn :=
  fst (prun ms (supervised sample_config 1)) !! i ≫= fun g => match now g with Done r => Some r | Act _ _ => None end.

Lemma supervised_done_go ms i r :
  supervised_done ms i = Some r -> exists g, fst (prun ms (supervised sample_config 1)) !! i = Some g /\ now g = Done r.
Proof. unfold supervised_done. destruct (fst _ !! i) as [g|]; simpl; [|done]. destruct (now g) eqn:E; intros [= ->]. eauto. Qed.

Definition supervised_at (ms : list (nat * answer)) (i : nat) : option query := fst (prun ms (supervised sample_config 1)) !! i ≫= at_query.

Lemma supervised_at_go ms i q :
  supervised_at ms i = Some q -> exists g, fst (prun ms (supervised sample_config 1)) !! i = Some g /\ at_query g = Some q.
Proof. unfold supervised_at. destruct (fst _ !! i); simpl; [eauto|done]. Qed.

Lemma stop_nil_is_final_witness :
  let c := prun run_given_up (supervised sample_config 1) in
  length (published (snd c)) = 8%nat /\ doneCh (snd c) = true /\
  published (snd (prun (moves 0 (told 90)) c)) = published (snd c).
Proof.
  split; [by vm_compute|]. destruct (supervised_done_go run_given_up 1 StopNil) as (g & Hg & Hd); [by vm_compute|].
  exact (stop_nil_is_final sample_config 1 run_given_up _ g Hg Hd).
Defined.

(** The subscriber's forwarder sleeps while the first event is queued. *)
Definition run_asleep : list (nat * answer) :=
  moves 3 [ANone] ++ moves 4 [ANone; ANone; ANone] ++ moves 0 (polls ++ [ANone; AClock 10; ANone; AOrder [0%nat]; ANone]).

Lemma bus_no_lost_wakeup_witness :
  let c := prun run_asleep (supervised sample_config 1) in let b := subs (snd c) 0%nat in
  queued (infos b) <> [] /\
  (queued (crits b) = [] /\ queued (infos b) = [] \/ wake b = true \/ supervised_at run_asleep 0 = Some (QWake 0)).
Proof.
  split; [by vm_compute|]. destruct (supervised_at_go run_asleep 4 (QWait 0)) as (g & Hg & Hq); [by vm_compute|].
  destruct (supervised_at_go run_asleep 0 (QWake 0)) as (g0 & Hg0 & Hq0); [by vm_compute|].
  destruct (bus_no_lost_wakeup sample_config 1 run_asleep 0 g g0 Hg0 Hg Hq) as [?|[?|H]]; [by left|by right; left|right; right].
  by vm_compute.
Defined.
End SupervisorSafety.
